(* ===== verification/_CoqProject ===== *)
-Q . S2P
Prelude.v
GoText.v
Values.v
Ids.v
Formula.v
FormulaPrint.v
FormulaEval.v
Attribute.v
Access.v
TypeDef.v
TypeDefFacts.v
Relationship.v
RelationshipFacts.v
RelationshipExample.v
Pagination.v
PaginationFacts.v
Units.v
Fql.v
FqlFacts.v
Delivery.v
DeliveryFacts.v
DeliveryProps.v
DeliveryLive.v
DeliveryQueue.v
DeliveryExample.v
ChangeSet.v
ChangeSetFacts.v
ChangeSetProps.v
ChangeSetMemory.v
Dependency.v
DependencyFacts.v
ResolverFacts.v
ValueWrite.v
AttributeWrite.v
AttributeWriteFacts.v
SchemaFacts.v
SchemaExample.v
Computed.v
ComputedNumbers.v
ComputedFacts.v
ComputedExample.v
ValueWriteFacts.v
ValueWriteProps.v
ValueExample.v
Query.v
QueryFacts.v
QueryProps.v
QueryAccess.v
QueryExample.v
QuerySql.v
QuerySqlFacts.v
QuerySqlProps.v
QuerySqlExample.v
DependencyWrite.v
Scores.v
DependencyWriteFacts.v
DependencyReads.v
TypeCompleteness.v
DependencyExample.v
ServiceAccount.v
ServiceAccountFacts.v
Admin.v
AdminFacts.v
AdminAccess.v
AuthCache.v
AdminExample.v
ImportExport.v
ImportFacts.v
ImportProps.v
CellFacts.v
CellExample.v
ImportExample.v
Transactor.v
TransactorFacts.v
Events.v
UnitOfWork.v
UnitOfWorkFacts.v
Media.v
MediaFacts.v
StoreExample.v
