(* ===== verification/Prelude.v ===== *)
(** * flexitype, modelled and verified

    flexitype stores attribute values of entities whose schema is data: type and
    attribute definitions, constraints, computed attributes, dependencies between
    attributes, and a review workflow for batches of changes.  This library
    models the program's own logic as Rocq definitions that follow the Go code
    line by line, and proves what makes it correct.

    ** Parts and files

    - [Prelude]: results and the error classes of [domain/errors]; the notations of
      [go_scope] ([let!], [check!], [guard!]) for Go's early returns; [int64]
      wrap-around; loops over lists and maps.
    - [GoText]: the bytes, letters, UTF-8 and integers of Go's standard library
      that the parsers use.
    - [Values] ([domain/valueobjects]: [datatype.go], [value.go], [dynamic.go],
      [scope.go]): typed values, [ParseValue], [Equal], [Compare], dynamic values
      and defaults.
    - [Ids] ([ids.go], [pkg/ulid]): tenants, entities, identifiers.
    - [Formula], [FormulaPrint], [FormulaEval] ([pkg/formula]): the lexer, the
      recursive-descent parser with the names it records, evaluation in binary64
      and in exact rationals; a printer as specification of the grammar.
    - [Attribute] ([domain/attribute]): constraints, computed attributes, the
      definition aggregate and its events.
    - [Access] ([application/uow/context.go], [application/fieldacl]): the request
      context and field-level access.
    - [ChangeSet] ([application/changeset], [infrastructure/postgres/
      changeset_store.go], the eraser of staged values): every usecase as a program
      ([prog]) over its calls to store, clock and value interactor, with an
      executable run ([run]).  [ChangeSetFacts] interleaves any number of them;
      [ChangeSetProps] states what follows; [ChangeSetMemory] is the in-memory
      store with the aliasing of its slices.
    - [Dependency] ([domain/dependency]): conditions, effects, the aggregate, rule
      matching, the effective schema.  [DependencyFacts] and [ResolverFacts] say
      what they mean.

    - [Fql], [FqlFacts] ([pkg/fql]): the lexer and parser of the query language.
    - [Delivery] ([application/outbox], [application/feed], [application/webhook]
      and their postgres stores): the tables, every store statement as a function,
      the relay's drain and the worker's pass as programs.  [DeliveryFacts]
      interleaves any number of them with writers, operators and pruners ([Sys],
      [sys_step], [reachable]) and proves the invariant; [DeliveryProps] states
      expansion and the feed, [DeliveryLive] that envelopes settle,
      [DeliveryQueue] the lifecycle of deliveries; [DeliveryExample] is a run.
    - [TypeDef], [TypeDefFacts] ([domain/typedef], [application/typedef]): the table
      of types, the walks up and down the hierarchy, the usecases.
    - [Relationship] ([domain/relationship], [application/relationship]): definitions
      and links, their tables and usecases.  [RelationshipFacts] is the invariant
      along histories ([rel_step]), [RelationshipExample] runs with three defects.
    - [Pagination], [PaginationFacts] ([pkg/db/pagination.go], the pages of
      [infrastructure/memory/store.go]): cursors, pages, the predicate of the
      Postgres lists.
    - [Units] ([application/unit], [application/value/quantity.go]): unit families,
      conversion to the base unit, quantity values.
    - [ValueWrite] ([domain/value], [application/value/interactor.go],
      [requiredgate.go], [mutation.go], [lockorder.go], [application/uow]): the
      tables of the in-memory store, one write ([setWithin]), batches, removals, the
      mutations of a change-set, and the check before the commit ([Execute]).
      [ValueWriteFacts] is the invariant of the table of values along histories
      ([table_step]), [ValueWriteProps] the properties, [ValueExample] a run.
    - [AttributeWrite] ([application/attribute/interactor.go]): the guards on stored
      data, formulas, rollups and names, and the usecases.  [AttributeWriteFacts]
      says what the guards mean, [SchemaFacts] what holds along histories of types
      and attributes ([schema_step]), [SchemaExample] is a run with two defects.
    - [Computed] ([application/computed]): the materializer of computed attributes
      over the interface of the value, schema and relationship interactors
      ([Interactors]), with the nested dispatch of its own writes, rollups and
      cascades; the in-memory stack is the instance [memory].  [ComputedNumbers]
      are its exact numbers, [ComputedFacts] that fuel only adds answers and how a
      run is shown to have none, [ComputedExample] a run.
    - [Query] ([application/query], [application/search], [infrastructure/memory/
      query.go]): binding a parsed query to the schema a principal may read, search
      documents, the evaluator in the logic of SQL and the pages of its answers.
      [QueryFacts] gives bound queries their meaning ([truth]), [QueryProps] compares
      the search with it, [QueryAccess] two stores that differ in hidden values,
      [QueryExample] is a run.
    - [QuerySql] ([infrastructure/postgres/query.go], [value_columns.go]): the
      statement a bound query is compiled to, as a tree with its arguments, and what
      the statement means over the rows of the tables.  [QuerySqlFacts] proves that it
      means [truth], [QuerySqlProps] that both stores serve the same page,
      [QuerySqlExample] is a run.
    - [DependencyWrite], [Scores] ([application/dependency]): the usecases of rules,
      the schema they resolve to for an entity, completeness and its score in
      64-bit floats.  [DependencyWriteFacts] is the invariant of the table of rules
      along histories ([rule_step]), [DependencyReads] and [TypeCompleteness] what
      the reads answer, [DependencyExample] two runs, one with a defect.
    - [ServiceAccount], [Admin] ([pkg/serviceaccount], [application/admin],
      [infrastructure/postgres/admin_store.go], [internal/interfaces/http/
      middleware.go]): tokens, the merge of roles, the success cache; tenants,
      accounts and roles with their usecases, the database-backed authenticator.
      [ServiceAccountFacts] gives tokens and merges their meaning, [AdminFacts] is
      the invariant along histories ([admin_step]), [AdminAccess] what a principal
      may do, [AuthCache] interleaves requests, provisioning, evictions and restarts
      ([auth_step]), [AdminExample] are runs with four defects.
    - [ImportExport] ([application/value/importexport.go]): the import cache and the
      write through it ([setImported]), chunks, groups and the three ways to run, the
      cell format, the export.  [ImportFacts] relates the cache to the tables,
      [ImportProps] an import to plain writes and to its report, [CellFacts] a cell
      to the values it came from; [CellExample] and [ImportExample] are runs with five
      defects.

    - [Transactor], [Events], [UnitOfWork] ([infrastructure/memory/transactor.go] with
      the writes of [definitions.go] and [instances.go], [pkg/events],
      [application/uow/uow.go]): the undo journal of the in-memory store with any
      number of interleaved transactions, the dispatcher, and [Execute] over a
      usecase given as a program, its checks, hooks, projections and panics.
      [TransactorFacts] and [UnitOfWorkFacts] state what a rollback and a failed
      unit of work leave behind.
    - [Media], [MediaFacts] ([application/value/media.go], the adoption and collection
      of [interactor.go], the purge of [application/erasure]): rows that refer to
      object keys, the object storage and the lock per key, interleaved call by call
      ([media_step]).  [StoreExample] holds the runs of the last two parts, five of
      them defects.

    [Values] and [Ids] are used by everything; [Attribute] uses [Formula] for
    computed attributes; [Dependency] reads attribute definitions and values;
    [ChangeSet] asks [Access] before it stages a mutation; [ValueWrite] calls
    [Access], [Attribute], [Dependency], [TypeDef] and [Units], as the interactor
    does; [AttributeWrite] works on the tables of [ValueWrite].

    ** How code is translated

    A Go function returning [(T, error)] is a function into [result T].  An
    aggregate is a record, a method that mutates it returns the new record and the
    events.  Fresh identifiers and the current instant are arguments.  Integers are
    [Z] with [wrap64] where the code can overflow; instants are nanoseconds on one
    time line, a [GoTime] with its zone offset where the zone matters; floats are
    [SpecFloat] binary64, [big.Rat] is [Q].  An error keeps its class and the
    constant text of its message, not the values it interpolates.

    Code outside the repository is a parameter: [GoStd] collects the parsers of
    Go's standard library the values use (JSON, floats, times, URLs, mail
    addresses, regular expressions), [GoUlid] the text form of identifiers,
    [GetMany] the attribute repository, [applier] the value interactor behind the
    interface [mutationApplier].  Hypotheses on them are named where they are used
    ([repository], injectivity of [ulid_String]) and instantiated in the witnesses.
    [GoNumeric] and [GoKeys] are the rationals and renderings of [math/big],
    [strconv] and [time] that units and equality keys use, [GoCursor] the encoding
    of a cursor's values, [GoJsonFloat] the JSON text of a binary64 number, [GoHash]
    SHA-256, [GoPgChar] the comparison of CHAR columns, [GoCells] the JSON of cells with
    its laws in [GoCellLaws].  [GoQuery] is the
    case folding and word splitting of [strings], [GoRange] the order in which a map
    is visited, [Postgres] what the database does with texts, documents and instants:
    the collation that orders the identifiers of a page and the microseconds an
    instant is kept at are part of it, so the two stores are compared up to both
    ([QuerySqlProps.stores_agree]).

    ** What is proved

    - Values: parsing yields a well-formed value of the requested type; [Equal] is a
      partial equivalence, [Compare] a total preorder that agrees with it; dynamic
      values validated for a type resolve in that type, and their offset wraps.
    - Formulas: parsing terminates on every input (fuel [parse_fuel] is a multiple
      of the length and is never exhausted); printing then parsing is the identity;
      the recorded names are exactly those that occur; exact evaluation does not
      depend on the order of a name's values and fails only for the stated reasons.
    - Attributes: [Check] accepts exactly the values satisfying every constraint;
      every reachable definition is well-formed; identity, version and archiving.
    - Access: the resolver answers the policy; [ReadsEverything] is exact.
    - Change-sets, under any interleaving of calls, crashes, lost answers and
      erasures: each stored set follows the lifecycle (a refinement to [edge]);
      separation of duties; exclusive claims; no staged mutation lost, finality of
      published and rejected sets; and alone: the outcome of a publish and of a
      scheduler tick.  Three defects are proved: an erasure undone by a write under
      way, and the two effects of slice aliasing in the in-memory store.
    - Dependencies: matching never fails for validated rules and means what the
      conditions say; the effective schema is the conjunction of the matched
      rules' effects, independent of their order, and more rules only narrow it;
      the aggregate's invariant; the gap between validating and matching patterns.

    - Queries: the lexer returns exactly the tokens that cover its input; parsing ends
      within the length of its input and its depth limit, and what it accepts is
      a well-formed tree.
    - Delivery, under any interleaving of relays, workers, lapsed leases, crashes,
      lost answers, operators and pruners: an envelope is expanded once and only
      after a successful dispatch; feed numbers are unique and a reader that
      follows its cursor skips nothing; deliveries follow their lifecycle with one
      in flight per subscription, oldest first; a relay that keeps running
      dispatches or parks every envelope within its attempts.  One defect is
      proved: an envelope parked by one relay while another delivers it loses its
      deliveries to the purge of parked envelopes.
    - Types: along any history the catalogue keeps one live type per name and tenant
      and no cycle of parents; of the types whose ancestors can be listed, the walk
      down finds exactly those whose walk up reaches the start through live types;
      and the depth guard of [Create] is one level short.
    - Relationships: along any history a pair of entities has one live link per
      definition (unordered, when it is symmetric) and links obey their definition's
      pins; cardinality bounds hold while no update tightens them, and one can; the
      name of an archived definition cannot be used again.
    - Pages: a reader that follows cursors meets every row that stays in the list
      once and in order, whatever is inserted or deleted meanwhile; the predicate of
      the Postgres lists selects the rows the in-memory lists place after a cursor.
    - Schemas: along any history of creations, edits, archivals and restorations (the
      latter two restricted where a defect says so) one name means one live
      attribute across a tree of types, and no formula reads itself; the search for
      cycles answers reachability.  Restoring an attribute can revive a cycle,
      restoring a type can shadow a name: both are runs of the code.
    - Computed attributes: rounding to twenty decimals is to the nearest, half away
      from zero, and depends on the number only; the bound on the depth of a cascade
      does not make the maintenance of a cycle of aggregates end.
    - Queries, bound and evaluated: a search fails only where a query does not parse
      or bind, and else serves the page of exactly the entities for which the query
      is true, whatever the order in which the tables are visited; a query tells
      nothing about values its principal may not read; and the statement sent to
      PostgreSQL, with its arguments in the order of its placeholders, selects the
      same rows.
    - Rules: along any history every stored rule relates two attributes of one tenant
      and one hierarchy and is valid for their types, so it resolves for any value, if its patterns compile anchored;
      the effective schema is what the matched rules say, and completeness counts
      exactly the attributes that are required and unfilled, over the values and
      attributes the caller may read, where the patterns of the rules involved
      compile in the anchored form they are evaluated in, which the code does not
      check when it stores a rule; values it may not read change no answer and no
      error.  A rule may come to demand a computed attribute, which nobody may write: a
      defect, as a run.
    - Provisioning: along any history names are unique and every role an account names
      exists; what an authenticated principal may read and write is the rule stated
      for its own entries and its roles, and the effective view reports it; a minted
      token authenticates.  Under any interleaving an answer rests on what the tables
      held less than the cache's lifetime before, and after a revocation's eviction
      no token that spells the account's identifier canonically is answered, unless
      a lookup was under way: a defect, as is the token whose identifier is padded
      with blanks, which stays cached.
    - Values: along any history of writes the table of values is sound (an entity has
      one type, a value its attribute's data type and tenant within the schema of
      that type, one live value per scope of a single-valued attribute, no shared
      value of a unique one); what one successful write did; and that no write
      leaves a demand of its entity unmet.

    - Transactions: a rolled back transaction leaves the rows as if it had not run,
      under any interleaving, provided nobody else writes its rows while it is open;
      a unit of work is all of it or nothing, its audit entries and events included,
      whatever fails or panics.
    - Media: as long as a live row refers to an object key its bytes are stored, and
      bytes nobody refers to have a collection due unless a delete failed, under any
      interleaving of uploads, adoptions, archivals, purges and collections.

    - Imports and exports: writing through the cache is writing without it, as long as
      no row narrows its entity (and then it is not: a defect); every row of the
      input is reported or belongs to exactly one unit of work that was committed on
      the tables the units before it left - one unit, all or nothing, for a
      transactional import; chunks, and single entities of a chunk that failed, for a
      best-effort one; a dry run writes nothing; the cell of an export is read back as the
      values it came from, but for the texts that spell the marker.

    ** Bounds

    The clock of the change-set system is one non-decreasing time line shared by
    all servers, as is that of the delivery system.  [drain] and [pass] are cut after a
    number of rounds (their loops end when a batch comes back short); every theorem
    holds for any number.  The fuel of [Recompute] bounds how deep writes nest
    within the recomputes their events start; [None] is a run that goes deeper.  The walks of a hierarchy take the ten rounds of the code;
    the search for formula cycles has fuel for every name of the graph
    ([graph_fuel]), proved enough by [formula_cycle_exact].  The version column is a 32-bit integer whose overflow fails.  The
    growth of a reallocated slice is a parameter.

    ** Not modelled

    JSON forms of the aggregates, SQL text and migrations, HTTP, GraphQL and
    client code, blob and message transports, and the audit log's text: input and
    output, or text another engine interprets.  Left out too are lists of links, the
    purge of whole entities beyond their media and staged values, facets, revisions,
    saved views, schema bundles and duplicate detection, which read what the modelled
    parts keep or write it through the modelled usecases, and the limiter of request
    rates.  Outside [Transactor], [UnitOfWork] and [Media] a usecase on the schema or
    on values runs alone on the in-memory tables: the locks by which the Postgres
    store serializes writers of one definition are taken as given. *)

From Stdlib Require Import ZArith Lia String Ascii List Permutation Sorted.
From stdpp Require Import base tactics list gmap strings option decidable.



(** ** Results

    A Go function returning [(T, error)] is a function into [result T]. *)

(** The stable machine-readable classes of [domain/errors]; [CodePlain] is an
    error built by [fmt.Errorf] or [errors.New], which carries no class. *)
Inductive ErrCode :=
  | CodeValidation
  | CodeNotFound
  | CodeConflict
  | CodeArchived
  | CodeDependency
  | CodeForbidden
  | CodePlain.

#[export] Instance ErrCode_eq_dec : EqDecision ErrCode.
Proof. solve_decision. Defined.

(** An error value: its class and the constant text of its message.  The
    values a message interpolates and the key/value details are not kept. *)
Record Error := mkError { ErrorCode : ErrCode; Message : string }.

#[export] Instance Error_eq_dec : EqDecision Error.
Proof. solve_decision. Defined.

Definition NewValidation (m : string) : Error := mkError CodeValidation m.
Definition NewNotFound (entity : string) : Error :=
  mkError CodeNotFound (String.append entity " not found").
Definition NewForbidden (m : string) : Error := mkError CodeForbidden m.
Definition NewConflict (m : string) : Error := mkError CodeConflict m.
Definition NewArchived (entity : string) : Error :=
  mkError CodeArchived (String.append entity " is archived").
Definition NewDependencyViolation (m : string) : Error :=
  mkError CodeDependency m.
Definition Errorf (m : string) : Error := mkError CodePlain m.

Inductive result (A : Type) : Type :=
  | Ok (a : A)
  | Err (e : Error).
Arguments Ok {A} a.
Arguments Err {A} e.

Definition is_ok {A} (r : result A) : bool :=
  match r with Ok _ => true | Err _ => false end.

Definition res_bind {A B} (r : result A) (k : A -> result B) : result B :=
  match r with Ok a => k a | Err e => Err e end.

Declare Scope go_scope.
Delimit Scope go_scope with go.

(** [let! x := r in k] is [x, err := r; if err != nil { return err }; k]. *)
Notation "'let!' x ':=' r 'in' k" := (res_bind r (fun x => k))
  (at level 10, x name, r at level 100, k at level 200) : go_scope.
Notation "'let!' ' x ':=' r 'in' k" := (res_bind r (fun x => k))
  (at level 10, x strict pattern, r at level 100, k at level 200) : go_scope.

(** [check! r then k] is [if err := r; err != nil { return err }; k]. *)
Notation "'check!' r 'then' k" := (res_bind r (fun _ : unit => k))
  (at level 10, r at level 100, k at level 200) : go_scope.

(** [guard! b else e then k] is [if b { return e }; k]. *)
Notation "'guard!' b 'else' e 'then' k" := (if (b : bool) then Err e else k)
  (at level 10, b at level 100, e at level 100, k at level 200) : go_scope.

Create HintDb go.

Lemma res_bind_ok {A B} (r : result A) (k : A -> result B) b :
  res_bind r k = Ok b <-> exists a, r = Ok a /\ k a = Ok b.
Proof.
  destruct r as [a|e]; simpl; split.
  - eauto.
  - intros (a' & [= ->] & H); exact H.
  - discriminate.
  - intros (a' & H & _); discriminate H.
Qed.

Lemma is_ok_true {A} (r : result A) : is_ok r = true <-> exists a, r = Ok a.
Proof. destruct r; simpl; split; [eauto|done|done|intros [? [=]]]. Qed.

(** Splits every bind and every guard of a hypothesis of the form
    [... = Ok _], keeping the branches that can succeed. *)
Ltac res_inv :=
  repeat match goal with
  | H : res_bind _ _ = Ok _ |- _ => apply res_bind_ok in H as (? & ? & H)
  | H : (if ?b then Err _ else _) = Ok _ |- _ =>
      let E := fresh "Hg" in destruct b eqn:E; [discriminate H|]
  | H : Err _ = Ok _ |- _ => discriminate H
  | H : Ok _ = Ok _ |- _ => injection H as H; subst
  | u : unit |- _ => destruct u
  end.

(** Boolean facts to propositions. *)
Ltac breflect :=
  repeat match goal with
  | H : _ && _ = true |- _ => apply andb_true_iff in H as [? ?]
  | H : _ || _ = false |- _ => apply orb_false_iff in H as [? ?]
  | H : negb _ = true |- _ => apply negb_true_iff in H
  | H : negb _ = false |- _ => apply negb_false_iff in H
  | H : bool_decide _ = true |- _ => apply bool_decide_eq_true in H
  | H : bool_decide _ = false |- _ => apply bool_decide_eq_false in H
  | H : (_ =? _)%Z = true |- _ => apply Z.eqb_eq in H
  | H : (_ =? _)%Z = false |- _ => apply Z.eqb_neq in H
  | H : (_ <? _)%Z = true |- _ => apply Z.ltb_lt in H
  | H : (_ <? _)%Z = false |- _ => apply Z.ltb_ge in H
  | H : (_ <=? _)%Z = true |- _ => apply Z.leb_le in H
  | H : (_ <=? _)%Z = false |- _ => apply Z.leb_gt in H
  end.

(** ** Machine integers: Go's [int] and [int64] are 64-bit two's complement *)

Definition in_int64 (z : Z) : Prop := (- 2 ^ 63 <= z < 2 ^ 63)%Z.

Definition wrap64 (z : Z) : Z := ((z + 2 ^ 63) mod 2 ^ 64 - 2 ^ 63)%Z.

Lemma wrap64_range z : in_int64 (wrap64 z).
Proof.
  unfold in_int64, wrap64. pose proof (Z.mod_pos_bound (z + 2 ^ 63) (2 ^ 64)). lia.
Qed.

Lemma wrap64_id z : in_int64 z -> wrap64 z = z.
Proof. unfold in_int64, wrap64. intros H. rewrite Z.mod_small; lia. Qed.

Lemma wrap64_add a b : wrap64 (wrap64 a + b) = wrap64 (a + b).
Proof.
  unfold wrap64. f_equal.
  replace ((a + 2 ^ 63) mod 2 ^ 64 - 2 ^ 63 + b + 2 ^ 63)%Z
    with ((a + 2 ^ 63) mod 2 ^ 64 + b)%Z by lia.
  rewrite Z.add_mod_idemp_l by lia. f_equal. lia.
Qed.

#[export] Instance in_int64_dec z : Decision (in_int64 z).
Proof. unfold in_int64. apply _. Defined.

#[export] Hint Resolve wrap64_range : go.

(** [cmp.Compare]-style result of a three-way comparison: -1, 0 or 1. *)
Definition of_comparison (c : comparison) : Z :=
  match c with Lt => -1 | Eq => 0 | Gt => 1 end.

Lemma of_comparison_opp c : of_comparison (CompOpp c) = (- of_comparison c)%Z.
Proof. by destruct c. Qed.

Lemma of_comparison_inj c d : of_comparison c = of_comparison d -> c = d.
Proof. by destruct c, d. Qed.

(** [p != nil] *)
Definition isSome {A} (o : option A) : bool :=
  match o with Some _ => true | None => false end.

(** ** Lists *)

(** First error of a loop [for _, x := range l { if err := f(x); err != nil
    { return err } }]. *)
Fixpoint each {A} (f : A -> result unit) (l : list A) : result unit :=
  match l with
  | [] => Ok tt
  | x :: l => match f x with Ok _ => each f l | Err e => Err e end
  end.

Lemma each_ok {A} (f : A -> result unit) l :
  each f l = Ok tt <-> Forall (fun x => f x = Ok tt) l.
Proof.
  induction l as [|x l IH]; simpl; [by split|].
  rewrite Forall_cons_iff. destruct (f x) as [[]|e].
  - rewrite IH. naive_solver.
  - naive_solver.
Qed.

Lemma each_app {A} (f : A -> result unit) l k :
  each f (l ++ k) = Ok tt <-> each f l = Ok tt /\ each f k = Ok tt.
Proof. rewrite !each_ok. apply Forall_app. Qed.

Lemma each_permutation {A} (f : A -> result unit) l k :
  Permutation l k -> (each f l = Ok tt <-> each f k = Ok tt).
Proof.
  intros HP. rewrite !each_ok. clear -HP.
  split; apply Permutation_Forall; [exact HP|symmetry; exact HP].
Qed.

Lemma unit_ok (r : result unit) : is_ok r = true <-> r = Ok tt.
Proof. destruct r as [[]|]; simpl; split; congruence. Qed.

(** ** Maps filled in a loop *)

Section InsertAll.
Context `{Countable K} {A B : Type} (key : A -> K) (f : A -> B).

Definition insert_all (xs : list A) (m : gmap K B) : gmap K B :=
  fold_left (fun out i => <[key i := f i]> out) xs m.

Lemma insert_all_other xs m k :
  (forall i, i ∈ xs -> key i <> k) -> insert_all xs m !! k = m !! k.
Proof.
  revert m. induction xs as [|x xs IH]; intros m Hk; [done|].
  change (insert_all (x :: xs) m) with (insert_all xs (<[key x := f x]> m)).
  rewrite IH by set_solver. apply lookup_insert_ne. set_solver.
Qed.

Lemma insert_all_member xs m i :
  (forall j, j ∈ xs -> key j = key i -> f j = f i) -> i ∈ xs ->
  insert_all xs m !! key i = Some (f i).
Proof.
  revert m i. induction xs as [|x xs IH]; intros m i Hf Hi; [set_solver|].
  change (insert_all (x :: xs) m) with (insert_all xs (<[key x := f x]> m)).
  destruct (decide (key i ∈ key <$> xs)) as [Hin|Hin].
  - apply list_elem_of_fmap in Hin as (j & E & Hj).
    assert (f j = f i) as Ef by (apply Hf; [by right|done]).
    rewrite E, IH, Ef; [done| |done]. intros k Hk Ek. rewrite Ef.
    apply Hf; [by right|congruence].
  - apply elem_of_cons in Hi as [->|Hi].
    + rewrite insert_all_other; [by rewrite lookup_insert_eq|].
      intros j Hj E. apply Hin, list_elem_of_fmap. by exists j.
    + destruct Hin. apply list_elem_of_fmap. by exists i.
Qed.
End InsertAll.

(** ** Sorting

    Stable insertion by a boolean order: [ORDER BY], [sort.SliceStable]. *)

Section SortBy.
Context {A : Type} (le : A -> A -> bool).

Fixpoint insert_by (x : A) (l : list A) : list A :=
  match l with
  | [] => [x]
  | y :: l' => if le x y then x :: l else y :: insert_by x l'
  end.

Definition sort_by (l : list A) : list A := foldr insert_by [] l.

Lemma insert_by_perm x l : Permutation (insert_by x l) (x :: l).
Proof.
  induction l as [|y l IH]; simpl; [done|]. destruct (le x y); [done|].
  rewrite IH. apply Permutation_swap.
Qed.

Lemma sort_by_perm l : Permutation (sort_by l) l.
Proof.
  induction l as [|x l IH]; simpl; [done|]. by rewrite insert_by_perm, IH.
Qed.

Lemma sort_by_elem l x : x ∈ sort_by l <-> x ∈ l.
Proof. by rewrite sort_by_perm. Qed.

Lemma sort_by_sorted l :
  (forall x y, le x y = true \/ le y x = true) ->
  (forall x y z, le x y = true -> le y z = true -> le x z = true) ->
  StronglySorted (fun x y => le x y = true) (sort_by l).
Proof.
  intros Htot Htr. induction l as [|x l IH]; simpl; [constructor|].
  revert IH. generalize (sort_by l) as k. intros k IH.
  induction IH as [|y k Hk IHk Hy]; simpl; [by repeat constructor|].
  destruct (le x y) eqn:E.
  - constructor; [by constructor|]. constructor; [done|].
    eapply list.Forall_impl; [exact Hy|]. intros z Hz. by eapply Htr.
  - constructor; [done|]. rewrite insert_by_perm. constructor; [|done].
    destruct (Htot x y); [congruence|done].
Qed.
End SortBy.

(** ** The rows of a table *)

Section MapValues.
Context `{Countable K} {A : Type}.

Definition values (m : gmap K A) : list A := (map_to_list m).*2.

Lemma values_elem (m : gmap K A) r : r ∈ values m <-> exists i, m !! i = Some r.
Proof.
  unfold values. rewrite list_elem_of_fmap. split.
  - intros ([i r'] & -> & Hin). apply elem_of_map_to_list in Hin. by exists i.
  - intros [i Hi]. exists (i, r). split; [done|]. by apply elem_of_map_to_list.
Qed.

Lemma values_keys (key : A -> K) (m : gmap K A) :
  map_Forall (fun i r => key r = i) m -> NoDup (key <$> values m).
Proof.
  intros Hok. unfold values.
  assert (key <$> (map_to_list m).*2 = (map_to_list m).*1) as ->;
    [|apply NoDup_fst_map_to_list].
  rewrite <- list_fmap_compose. apply list_fmap_ext. intros j [i r] Hj. simpl.
  apply list_elem_of_lookup_2, elem_of_map_to_list in Hj. by apply Hok.
Qed.

(** A search of a table by a predicate. *)
Lemma find_values_Some (p : A -> bool) (m : gmap K A) r :
  find p (values m) = Some r -> p r = true /\ exists i, m !! i = Some r.
Proof.
  intros [Hr Hp]%find_some. split; [done|]. by apply values_elem, list_elem_of_In.
Qed.

Lemma find_values_None (p : A -> bool) (m : gmap K A) i r :
  find p (values m) = None -> m !! i = Some r -> p r = false.
Proof.
  intros Hn Hi. apply (find_none _ _ Hn), list_elem_of_In, values_elem. by exists i.
Qed.

Lemma find_values_unique (p : A -> bool) (m : gmap K A) i r :
  (forall j r', m !! j = Some r' -> p r' = true -> r' = r) ->
  m !! i = Some r -> p r = true -> find p (values m) = Some r.
Proof.
  intros Hu Hi Hp. destruct (find p (values m)) as [r'|] eqn:E.
  - apply find_values_Some in E as (Hp' & j & Hj). f_equal. by apply (Hu j).
  - by rewrite (find_values_None _ _ _ _ E Hi) in Hp.
Qed.
End MapValues.

(** A loop over a map whose rounds touch their own key only. *)
Lemma fold_pointwise `{Countable K} {V W} (step : gmap K W -> K * V -> gmap K W) (g : V -> option W -> option W)
    (vs : gmap K V) (m : gmap K W) k :
  (forall m kv k, step m kv !! k = if decide (k = kv.1) then g kv.2 (m !! k) else m !! k) ->
  fold_left step (map_to_list vs) m !! k = match vs !! k with Some v => g v (m !! k) | None => m !! k end.
Proof.
  intros Hstep. rewrite <- (list_to_map_to_list vs) at 2. pose proof (NoDup_fst_map_to_list vs) as Hnd.
  revert m. induction (map_to_list vs) as [|[i v] l IH]; intros m; [done|]. simpl.
  apply list_relations.list.NoDup_cons in Hnd as [Hi Hnd]. rewrite IH by done. rewrite Hstep. simpl.
  destruct (decide (k = i)) as [->|Hne]; [|by rewrite lookup_insert_ne].
  rewrite lookup_insert_eq. by rewrite (proj1 (not_elem_of_list_to_map _ _) Hi).
Qed.

Lemma elem_of_filter_b {A} (f : A -> bool) (l : list A) x :
  x ∈ List.filter f l <-> x ∈ l /\ f x = true.
Proof. by rewrite !list_elem_of_In, filter_In. Qed.

Lemma filter_filter {A} (p q : A -> bool) (l : list A) :
  List.filter p (List.filter q l) = List.filter (fun x => q x && p x) l.
Proof.
  induction l as [|x l IH]; simpl; [done|]. destruct (q x); simpl; [|exact IH].
  by rewrite IH.
Qed.

Lemma filter_perm {A} (p : A -> bool) l l' : l ≡ₚ l' -> List.filter p l ≡ₚ List.filter p l'.
Proof.
  induction 1 as [|x l l' HP IH|x y l|l l1 l2 HP1 IH1 HP2 IH2]; simpl; [done| | |by etrans].
  - destruct (p x); [by constructor|done].
  - destruct (p x), (p y); try done. constructor.
Qed.

Lemma filter_none {A} (p : A -> bool) (l : list A) :
  (forall x, x ∈ l -> p x = false) -> List.filter p l = [].
Proof.
  induction l as [|x l IH]; intros Hp; simpl; [done|]. rewrite (Hp x) by left.
  apply IH. intros y Hy. apply Hp. by right.
Qed.

Lemma filter_all {A} (p : A -> bool) (l : list A) :
  (forall x, x ∈ l -> p x = true) -> List.filter p l = l.
Proof.
  induction l as [|x l IH]; intros Hp; simpl; [done|]. rewrite (Hp x) by left. f_equal.
  apply IH. intros y Hy. apply Hp. by right.
Qed.

Lemma filter_twice {A} (p q : A -> bool) (l : list A) :
  (forall x, p x = true -> q x = true) -> List.filter p (List.filter q l) = List.filter p l.
Proof.
  intros Hpq. rewrite filter_filter. apply filter_ext. intros x.
  specialize (Hpq x). destruct (p x); [by rewrite Hpq|by rewrite andb_false_r].
Qed.

Lemma filter_fmap_NoDup {A B} (f : A -> bool) (g : A -> B) (l : list A) :
  NoDup (g <$> l) -> NoDup (g <$> List.filter f l).
Proof.
  induction l as [|x l IH]; [done|]. rewrite fmap_cons, list.NoDup_cons. intros [Hx Hnd].
  simpl. destruct (f x); [|by apply IH]. rewrite fmap_cons, list.NoDup_cons.
  split; [|by apply IH]. intros (y & E & Hy)%list_elem_of_fmap. apply Hx, list_elem_of_fmap.
  exists y. split; [done|]. by apply elem_of_filter_b in Hy as [Hy _].
Qed.

(** ** The order of strings: byte by byte, as Go's [<] *)

Lemma ltb_irrefl s : String.ltb s s = false.
Proof.
  unfold String.ltb. pose proof (String.compare_antisym s s) as E. by destruct (String.compare s s).
Qed.

Lemma ltb_flip a b : String.ltb a b = true -> String.ltb b a = false.
Proof.
  unfold String.ltb. rewrite (String.compare_antisym a b). by destruct (String.compare b a).
Qed.

Lemma ltb_antisym a b : String.ltb a b = false -> String.ltb b a = false -> a = b.
Proof.
  unfold String.ltb. rewrite (String.compare_antisym a b).
  destruct (String.compare b a) eqn:E; simpl; try done. intros _ _. symmetry. by apply String.compare_eq_iff.
Qed.

Lemma ltb_trans a b c : String.ltb a b = true -> String.ltb b c = true -> String.ltb a c = true.
Proof.
  assert (forall s t, String.ltb s t = true <-> String.compare s t = Lt) as Hlt
    by (intros s t; unfold String.ltb; by destruct (String.compare s t)).
  rewrite !Hlt. revert b c. induction a as [|x a IH]; intros [|y b] [|z c]; simpl; try done.
  unfold Ascii.compare.
  destruct (N.compare_spec (N_of_ascii x) (N_of_ascii y)) as [E1|E1|E1]; intros H1; try done;
    destruct (N.compare_spec (N_of_ascii y) (N_of_ascii z)) as [E2|E2|E2]; intros H2; try done;
    destruct (N.compare_spec (N_of_ascii x) (N_of_ascii z)) as [E3|E3|E3]; try done; try lia.
  by eapply IH.
Qed.
