(* ===== verification/GoText.v ===== *)
(** Text as Go sees it: a string is its bytes, decoded as UTF-8 where the code
    asks for runes.  The file models the pieces of [strings], [unicode],
    [unicode/utf8] and [strconv] that the components use. *)

From Stdlib Require Import ZArith Lia String Ascii List.
From stdpp Require Import base tactics list strings option decidable.
From S2P Require Import Prelude.

Open Scope nat_scope.

(** The bytes of a string. *)
Definition byte_of (c : ascii) : nat := nat_of_ascii c.

Definition in_range (lo hi : nat) (c : ascii) : bool :=
  (lo <=? byte_of c) && (byte_of c <=? hi).

(** ** Bytes read as Latin-1 runes: [unicode.IsX(rune(s[i]))] *)

Definition IsSpace (c : ascii) : bool :=
  in_range 9 13 c || (byte_of c =? 32) || (byte_of c =? 133) || (byte_of c =? 160).

Definition IsDigit (c : ascii) : bool := in_range 48 57 c.

Definition IsLetter (c : ascii) : bool :=
  in_range 65 90 c || in_range 97 122 c || (byte_of c =? 170) ||
  (byte_of c =? 181) || (byte_of c =? 186) || in_range 192 214 c ||
  in_range 216 246 c || in_range 248 255 c.

(** A decidable fact about bytes holds when it holds of all 256. *)
Lemma ascii_forall (f : ascii -> bool) :
  forallb f (map ascii_of_nat (seq 0 256)) = true -> forall c, f c = true.
Proof.
  rewrite forallb_forall. intros H c. apply H.
  rewrite <- (ascii_nat_embedding c). apply in_map, in_seq.
  pose proof (nat_ascii_bounded c). lia.
Qed.

(** ** ASCII case *)

Definition lower_byte (c : ascii) : ascii :=
  if in_range 65 90 c then ascii_of_nat (byte_of c + 32) else c.

Definition upper_byte (c : ascii) : ascii :=
  if in_range 97 122 c then ascii_of_nat (byte_of c - 32) else c.

Fixpoint map_string (f : ascii -> ascii) (s : string) : string :=
  match s with
  | EmptyString => EmptyString
  | String c s => String (f c) (map_string f s)
  end.

Definition lower (s : string) : string := map_string lower_byte s.

(** [encoding/json]'s folding of object keys: ASCII letters to upper case,
    and the two runes outside ASCII that fold to an ASCII letter (U+017F to S,
    U+212A to K). *)
Fixpoint fold_name (s : string) : string :=
  match s with
  | EmptyString => EmptyString
  | String "197" (String "191" s) => String "S" (fold_name s)
  | String "226" (String "132" (String "170" s)) => String "K" (fold_name s)
  | String c s => String (upper_byte c) (fold_name s)
  end.

(** ** UTF-8 *)

Definition cont (c : ascii) : bool := in_range 128 191 c.

(** The size of the rune a non-empty string starts with; an invalid encoding
    is the error rune, of size one. *)
Definition rune_size (s : string) : nat :=
  match s with
  | String b0 (String b1 (String b2 (String b3 _))) =>
      if in_range 194 223 b0 then (if cont b1 then 2 else 1)
      else if byte_of b0 =? 224 then (if in_range 160 191 b1 && cont b2 then 3 else 1)
      else if byte_of b0 =? 237 then (if in_range 128 159 b1 && cont b2 then 3 else 1)
      else if in_range 225 239 b0 then (if cont b1 && cont b2 then 3 else 1)
      else if byte_of b0 =? 240 then
        (if in_range 144 191 b1 && cont b2 && cont b3 then 4 else 1)
      else if in_range 241 243 b0 then
        (if cont b1 && cont b2 && cont b3 then 4 else 1)
      else if byte_of b0 =? 244 then
        (if in_range 128 143 b1 && cont b2 && cont b3 then 4 else 1)
      else 1
  | String b0 (String b1 (String b2 EmptyString)) =>
      if in_range 194 223 b0 then (if cont b1 then 2 else 1)
      else if byte_of b0 =? 224 then (if in_range 160 191 b1 && cont b2 then 3 else 1)
      else if byte_of b0 =? 237 then (if in_range 128 159 b1 && cont b2 then 3 else 1)
      else if in_range 225 239 b0 then (if cont b1 && cont b2 then 3 else 1)
      else 1
  | String b0 (String b1 EmptyString) =>
      if in_range 194 223 b0 then (if cont b1 then 2 else 1) else 1
  | _ => 1
  end.

Fixpoint drop_bytes (n : nat) (s : string) : string :=
  match n, s with
  | O, _ => s
  | S n, EmptyString => EmptyString
  | S n, String _ s => drop_bytes n s
  end.

(** [utf8.RuneCountInString], one rune per unit of fuel. *)
Fixpoint rune_count (fuel : nat) (s : string) : nat :=
  match fuel, s with
  | O, _ | _, EmptyString => 0
  | S fuel, _ => S (rune_count fuel (drop_bytes (rune_size s) s))
  end.

(** A rune takes at least one byte, so the length of the string is fuel
    enough: see [rune_count_fuel]. *)
Definition RuneCountInString (s : string) : nat := rune_count (String.length s) s.

Lemma rune_size_pos s : 1 <= rune_size s.
Proof.
  unfold rune_size. destruct s as [|b0 [|b1 [|b2 [|b3 s]]]];
    repeat case_match; lia.
Qed.

Lemma length_drop_bytes n s : String.length (drop_bytes n s) = String.length s - n.
Proof. revert s. induction n as [|n IH]; intros [|c s]; simpl; auto. Qed.

Lemma rune_count_enough f1 f2 s :
  String.length s <= f1 -> String.length s <= f2 -> rune_count f1 s = rune_count f2 s.
Proof.
  revert f2 s. induction f1 as [|f1 IH]; intros f2 s H1 H2.
  - destruct s; [by destruct f2|simpl in H1; lia].
  - destruct s as [|c s]; [by destruct f2|].
    destruct f2 as [|f2]; [simpl in H2; lia|].
    cbn [rune_count]. f_equal.
    pose proof (rune_size_pos (String c s)) as Hp.
    pose proof (length_drop_bytes (rune_size (String c s)) (String c s)) as Hl.
    change (String.length (String c s)) with (S (String.length s)) in *.
    apply IH; lia.
Qed.

Lemma rune_count_fuel fuel s :
  String.length s <= fuel -> rune_count fuel s = RuneCountInString s.
Proof. intros H. by apply rune_count_enough. Qed.

(** ** Decimal integers: [strconv.ParseInt(s, 10, 64)] *)

Open Scope Z_scope.

Definition digit (c : ascii) : option Z :=
  if IsDigit c then Some (Z.of_nat (byte_of c) - 48) else None.

(** Reads a run of digits: the number read onto [acc], how many digits, and
    the rest. *)
Fixpoint digits (acc : Z) (count : nat) (s : string) : Z * nat * string :=
  match s with
  | EmptyString => (acc, count, s)
  | String c s' =>
      match digit c with
      | Some d => digits (10 * acc + d) (S count) s'
      | None => (acc, count, s)
      end
  end.

Definition split_sign (s : string) : bool * string :=
  match s with
  | String "+" s' => (false, s')
  | String "-" s' => (true, s')
  | _ => (false, s)
  end.

Definition ParseInt (s : string) : option Z :=
  let (neg, s1) := split_sign s in
  match digits 0 0 s1 with
  | (n, S _, EmptyString) =>
      let z := if neg : bool then - n else n in
      if decide (in_int64 z) then Some z else None
  | _ => None
  end.

Lemma ParseInt_range s z : ParseInt s = Some z -> in_int64 z.
Proof.
  unfold ParseInt. intros H. repeat case_match; simplify_eq; done.
Qed.

(** ** Scanning *)

Open Scope nat_scope.

Fixpoint all_bytes (p : ascii -> bool) (s : string) : bool :=
  match s with EmptyString => true | String c s => p c && all_bytes p s end.

Lemma all_bytes_app p a b :
  all_bytes p (String.append a b) = all_bytes p a && all_bytes p b.
Proof. induction a as [|c a IH]; simpl; [done|]. by rewrite IH, andb_assoc. Qed.

Lemma all_bytes_impl (p q : ascii -> bool) s :
  (forall c, p c = true -> q c = true) -> all_bytes p s = true -> all_bytes q s = true.
Proof.
  intros Hpq. induction s as [|c s IH]; simpl; [done|].
  rewrite !andb_true_iff. intros [H1 H2]. auto.
Qed.

Lemma append_nil_r s : String.append s EmptyString = s.
Proof. induction s as [|c s IH]; [done|]. exact (f_equal (String c) IH). Qed.

(** The longest prefix of bytes satisfying [p], and the rest. *)
Fixpoint span (p : ascii -> bool) (s : string) : string * string :=
  match s with
  | EmptyString => (EmptyString, EmptyString)
  | String c s' =>
      if p c then let (a, b) := span p s' in (String c a, b) else (EmptyString, s)
  end.

Fixpoint skip_space (s : string) : string :=
  match s with
  | String c s' => if IsSpace c then skip_space s' else s
  | EmptyString => EmptyString
  end.

(** [strings.TrimSpace] of an ASCII text. *)
Definition rev_string (s : string) : string := string_of_list_ascii (List.rev (list_ascii_of_string s)).

Definition TrimSpace (s : string) : string := rev_string (skip_space (rev_string (skip_space s))).

(** The head of [s], if any, fails [p]. *)
Definition stops (p : ascii -> bool) (s : string) : bool :=
  match s with EmptyString => true | String c _ => negb (p c) end.

Lemma span_all p a s :
  all_bytes p a = true -> stops p s = true -> span p (String.append a s) = (a, s).
Proof.
  intros Ha Hp. induction a as [|c a IH].
  - change (span p s = (EmptyString, s)). destruct s as [|c s]; [done|].
    simpl in *. apply negb_true_iff in Hp. by rewrite Hp.
  - simpl in Ha. apply andb_true_iff in Ha as [Hc Ha].
    change (String.append (String c a) s) with (String c (String.append a s)).
    cbn [span]. by rewrite Hc, IH.
Qed.

Lemma length_skip_space s : (String.length (skip_space s) <= String.length s).
Proof. induction s as [|c s IH]; simpl; [done|]. case_match; simpl in *; lia. Qed.

Lemma length_span p s a b :
  span p s = (a, b) -> (String.length a + String.length b = String.length s).
Proof.
  revert a b. induction s as [|c s IH]; intros a b; simpl.
  - by intros [= <- <-].
  - destruct (p c).
    + destruct (span p s) as [a' b']. intros [= <- <-]. simpl.
      rewrite <- (IH a' b') by done. lia.
    + by intros [= <- <-].
Qed.

Lemma span_first p c s a b :
  p c = true -> span p (String c s) = (a, b) -> (String.length b <= String.length s).
Proof.
  intros Hp Hs. apply length_span in Hs as Hl. revert Hs. simpl. rewrite Hp.
  destruct (span p s) as [a' b']. intros [= <- <-]. simpl in Hl. lia.
Qed.


(** ** Cutting texts *)

(** [strings.CutPrefix]: the rest of a text that starts with [p]. *)
Fixpoint CutPrefix (s p : string) {struct p} : option string :=
  match p with
  | EmptyString => Some s
  | String c p =>
      match s with
      | String d s => if Ascii.eqb c d then CutPrefix s p else None
      | EmptyString => None
      end
  end.

(** [strings.Cut] at a separator of one byte: what precedes its first occurrence,
    and what follows it. *)
Fixpoint Cut (c : ascii) (s : string) : option (string * string) :=
  match s with
  | EmptyString => None
  | String d rest =>
      if Ascii.eqb c d then Some (EmptyString, rest)
      else option_map (fun ab => (String d ab.1, ab.2)) (Cut c rest)
  end.

Lemma append_cons c a b : String.append (String c a) b = String c (String.append a b).
Proof. reflexivity. Qed.

Lemma length_append a b : String.length (String.append a b) = String.length a + String.length b.
Proof. induction a as [|x a IH]; [done|]. exact (f_equal S IH). Qed.

Lemma CutPrefix_app p s : CutPrefix (String.append p s) p = Some s.
Proof. induction p as [|c p IH]; [reflexivity|]. rewrite append_cons. simpl. by rewrite Ascii.eqb_refl. Qed.

Lemma CutPrefix_Some s p rest : CutPrefix s p = Some rest -> s = String.append p rest.
Proof.
  revert s. induction p as [|c p IH]; simpl; intros s; [by intros [= ->]|].
  destruct s as [|d s]; [done|]. destruct (Ascii.eqb_spec c d) as [<-|]; [|done].
  intros H. rewrite append_cons. f_equal. by apply IH.
Qed.

Lemma Cut_app c a b : all_bytes (fun d => negb (Ascii.eqb c d)) a = true ->
  Cut c (String.append a (String c b)) = Some (a, b).
Proof.
  induction a as [|d a IH]; [intros _; simpl; by rewrite Ascii.eqb_refl|].
  rewrite append_cons. simpl. intros [Hd Ha]%andb_prop. apply negb_true_iff in Hd. by rewrite Hd, IH.
Qed.

Lemma Cut_Some c s a b : Cut c s = Some (a, b) ->
  s = String.append a (String c b) /\ all_bytes (fun d => negb (Ascii.eqb c d)) a = true.
Proof.
  revert a. induction s as [|d s IH]; simpl; intros a; [done|].
  destruct (Ascii.eqb_spec c d) as [<-|Hne]; [by intros [= <- <-]|].
  destruct (Cut c s) as [[a' b']|]; simpl; [|done]. intros [= <- <-].
  destruct (IH a' eq_refl) as [-> Ha]. split; [reflexivity|]. simpl.
  by destruct (Ascii.eqb_spec c d) as [|_].
Qed.
