(* ===== verification/Values.v ===== *)
(** Typed attribute values: the Go package [domain/valueobjects].

    [datatype.go] (the soft types), [value.go] (the tagged union [Value], its
    constructors, equality and order, and the decoding of an API value),
    [dynamic.go] (values computed at evaluation time, defaults) and [scope.go].

    A [Value] is a Go struct with one field per representation; the record
    below has the same fields.  Three of them need a word:
    - [floatVal] is an IEEE binary64 datum ([SpecFloat.spec_float]); the
      comparisons are the IEEE ones, so a NaN is unordered;
    - [timeVal] is the instant in nanoseconds since the Unix epoch, every
      stored time being in UTC;
    - [jsonVal] holds bytes in Go; the bytes of a media or quantity payload
      are represented by the struct they encode.

    Parsers of the Go standard library that the code only calls (JSON, time
    layouts, URLs, mail addresses, RE2) are the fields of the class [GoStd]:
    every theorem holds for whatever they answer. *)

From Stdlib Require Import ZArith Lia String Ascii List QArith SpecFloat.
From stdpp Require Import base tactics list gmap strings option decidable.
From S2P Require Import Prelude GoText.

Open Scope Z_scope.
Open Scope go_scope.

(** ** Data types ([datatype.go]) *)

(** A [DataType] is a Go string.  [DataTypeNone] is the empty string, the
    type of the zero value; [DataTypeUnknown] stands for every string that
    names no soft type. *)
Inductive DataType :=
  | DataTypeNone
  | DataTypeBool
  | DataTypeString
  | DataTypeText
  | DataTypeInteger
  | DataTypeFloat
  | DataTypeDecimal
  | DataTypeDate
  | DataTypeTime
  | DataTypeDateTime
  | DataTypeEnum
  | DataTypeURL
  | DataTypeEmail
  | DataTypeJSON
  | DataTypeMedia
  | DataTypeQuantity
  | DataTypeUnknown (s : string).

#[export] Instance DataType_eq_dec : EqDecision DataType.
Proof. solve_decision. Defined.

Definition ParseDataType (dt : DataType) : result DataType :=
  match dt with
  | DataTypeNone | DataTypeUnknown _ => Err (Errorf "unknown data type")
  | _ => Ok dt
  end.

Definition IsTextual (d : DataType) : bool :=
  match d with
  | DataTypeString | DataTypeText | DataTypeEnum | DataTypeURL | DataTypeEmail => true
  | _ => false
  end.

Definition IsOrdered (d : DataType) : bool :=
  match d with
  | DataTypeInteger | DataTypeFloat | DataTypeDecimal | DataTypeDate
  | DataTypeTime | DataTypeDateTime | DataTypeQuantity => true
  | _ => false
  end.

Definition IsTemporal (d : DataType) : bool :=
  match d with
  | DataTypeDate | DataTypeTime | DataTypeDateTime => true
  | _ => false
  end.

(** ** The standard library the package calls *)

(** A JSON value as [json.Decoder] with [UseNumber] yields it: a number keeps
    its literal text. *)
Inductive Json :=
  | JNull
  | JBool (b : bool)
  | JNumber (lit : string)
  | JString (s : string)
  | JArray (l : list Json)
  | JObject (fields : list (string * Json)).

(** A [time.Time]: an instant (nanoseconds since the Unix epoch) and its
    location, the offset from UTC in seconds at each instant. *)
Record GoTime := mkGoTime { unixNano : Z; zoneOffset : Z -> Z }.

Inductive TimeLayout := DateFormat | TimeFormat | RFC3339Nano.

Class GoStd := {
  (** [json.NewDecoder(raw).Decode]: the first JSON value of the input. *)
  json_Decode : string -> option Json;
  (** [json.Unmarshal(raw, &any)]: the input is exactly one JSON value. *)
  json_Unmarshal : string -> option Json;
  (** [json.Compact] of a valid document. *)
  json_Compact : string -> string;
  (** [json.Unmarshal] into [any], then [json.Marshal]: keys sorted, spacing removed. *)
  json_Canonical : string -> option string;
  (** [strconv.ParseFloat(s, 64)] *)
  strconv_ParseFloat : string -> option spec_float;
  (** [time.Parse(layout, s)] *)
  time_Parse : TimeLayout -> string -> option GoTime;
  (** [url.Parse]: scheme and host of the reference. *)
  url_Parse : string -> option (string * string);
  (** [mail.ParseAddress]: the address part. *)
  mail_ParseAddress : string -> option string;
  (** [regexp.Compile], giving [MatchString] of the compiled expression. *)
  regexp_Compile : string -> option (string -> bool)
}.

(** ** Values ([value.go]) *)

Record MediaMeta := mkMediaMeta {
  ObjectKey : string; MIME : string; Size : Z; Checksum : string; Filename : string }.

#[export] Instance MediaMeta_eq_dec : EqDecision MediaMeta.
Proof. solve_decision. Defined.

Inductive JsonPayload :=
  | NoPayload
  | RawPayload (raw : string)
  | MediaPayload (m : MediaMeta)
  | QuantityPayload (magnitude unit : string).

#[export] Instance JsonPayload_eq_dec : EqDecision JsonPayload.
Proof. solve_decision. Defined.

Record Value := mkValue {
  dataType : DataType;
  boolVal : bool;
  intVal : Z;
  floatVal : spec_float;
  textVal : string;
  timeVal : Z;
  jsonVal : JsonPayload }.

Definition zeroTime : Z := -62135596800 * 1000000000.

(** The zero [Value]: absent. *)
Definition zeroValue : Value :=
  mkValue DataTypeNone false 0 (S754_zero false) "" zeroTime NoPayload.

Definition IsZero (v : Value) : bool := bool_decide (dataType v = DataTypeNone).

Definition NewBoolValue (b : bool) : Value :=
  mkValue DataTypeBool b 0 (S754_zero false) "" zeroTime NoPayload.

Definition textOf (dt : DataType) (s : string) : Value :=
  mkValue dt false 0 (S754_zero false) s zeroTime NoPayload.

Definition NewStringValue (s : string) : Value := textOf DataTypeString s.
Definition NewTextValue (s : string) : Value := textOf DataTypeText s.
Definition NewEnumValue (s : string) : Value := textOf DataTypeEnum s.

Definition NewIntegerValue (i : Z) : Value :=
  mkValue DataTypeInteger false i (S754_zero false) "" zeroTime NoPayload.

Definition NewFloatValue (f : spec_float) : Value :=
  mkValue DataTypeFloat false 0 f "" zeroTime NoPayload.

Definition timeOf (dt : DataType) (t : Z) : Value :=
  mkValue dt false 0 (S754_zero false) "" t NoPayload.

Definition second : Z := 1000000000.
Definition day : Z := 86400 * second.

(** The reading of the local clock, as nanoseconds since the epoch's local
    midnight. *)
Definition localNano (t : GoTime) : Z := unixNano t + zoneOffset t (unixNano t) * second.

(** [time.Date(y, m, d, 0, 0, 0, 0, UTC)] of the local date [y, m, d]. *)
Definition NewDateValue (t : GoTime) : Value :=
  timeOf DataTypeDate (localNano t / day * day).

(** [time.Date(0, 1, 1, 0, 0, 0, 0, UTC)] *)
Definition yearZero : Z := -62167219200 * second.

(** [time.Date(0, 1, 1, hour, min, sec, 0, UTC)] of the local clock. *)
Definition NewTimeValue (t : GoTime) : Value :=
  timeOf DataTypeTime (yearZero + (localNano t / second) mod 86400 * second).

Definition NewDateTimeValue (t : GoTime) : Value :=
  timeOf DataTypeDateTime (unixNano t).

(** *** Decimals: [^[+-]?\d+(\.\d+)?$] *)

Definition maxURLLength : nat := 2048.
Definition maxEmailLength : nat := 320.
Definition maxDecimalLength : nat := 40.

Definition ten_to (n : nat) : positive := Z.to_pos (10 ^ Z.of_nat n).

(** [new(big.Rat).SetString(s)] on the strings of the decimal pattern, and
    [None] on every other string, so that [decimalPattern.MatchString] is its
    definedness. *)
Definition rat_of_decimal (s : string) : option Q :=
  let (neg, s1) := split_sign s in
  let sg z := if neg : bool then - z else z in
  match digits 0 0 s1 with
  | (_, O, _) => None
  | (i, _, EmptyString) => Some (sg i # 1)%Q
  | (i, _, String "." s2) =>
      match digits i 0 s2 with
      | (m, S k, EmptyString) => Some (sg m # ten_to (S k))%Q
      | _ => None
      end
  | _ => None
  end.

Definition decimalPattern (s : string) : bool :=
  match rat_of_decimal s with Some _ => true | None => false end.

Definition NewDecimalValue (s : string) : result Value :=
  guard! (maxDecimalLength <? String.length s)%nat || negb (decimalPattern s)
    else Errorf "invalid decimal" then
  Ok (textOf DataTypeDecimal s).

Section Parsing.
  Context `{GoStd}.

Definition NewURLValue (s : string) : result Value :=
  guard! (maxURLLength <? String.length s)%nat
    else Errorf "url exceeds the maximum length" then
  match url_Parse s with
  | Some (scheme, host) =>
      guard! bool_decide (scheme = EmptyString) || bool_decide (host = EmptyString)
        else Errorf "invalid url: must be absolute" then
      Ok (textOf DataTypeURL s)
  | None => Err (Errorf "invalid url: must be absolute")
  end.

Definition NewEmailValue (s : string) : result Value :=
  guard! (maxEmailLength <? String.length s)%nat
    else Errorf "email exceeds the maximum length" then
  match mail_ParseAddress s with
  | Some addr =>
      guard! negb (bool_decide (addr = s)) else Errorf "invalid email" then
      Ok (textOf DataTypeEmail s)
  | None => Err (Errorf "invalid email")
  end.

Definition NewJSONValue (raw : string) : result Value :=
  match json_Unmarshal raw with
  | None => Err (Errorf "invalid json document")
  | Some _ =>
      Ok (mkValue DataTypeJSON false 0 (S754_zero false) "" zeroTime
            (RawPayload (json_Compact raw)))
  end.

(** The fields of an object a struct field decodes from: [encoding/json]
    matches keys up to case, the last occurrence wins, and [null] leaves the
    field alone. *)
Fixpoint decode_field {A} (name : string) (dec : Json -> option A) (acc : A)
    (fields : list (string * Json)) : option A :=
  match fields with
  | [] => Some acc
  | (k, j) :: fields =>
      if bool_decide (fold_name k = fold_name name) then
        match j with
        | JNull => decode_field name dec acc fields
        | _ => match dec j with
               | Some a => decode_field name dec a fields
               | None => None
               end
        end
      else decode_field name dec acc fields
  end.

Definition as_string (j : Json) : option string :=
  match j with JString s => Some s | _ => None end.

Definition as_int64 (j : Json) : option Z :=
  match j with JNumber lit => ParseInt lit | _ => None end.

Definition as_float64 (j : Json) : option spec_float :=
  match j with JNumber lit => strconv_ParseFloat lit | _ => None end.

Definition decode_media (j : Json) : option MediaMeta :=
  match j with
  | JNull => Some (mkMediaMeta "" "" 0 "" "")
  | JObject fs =>
      k ← decode_field "object_key" as_string "" fs;
      m ← decode_field "mime" as_string "" fs;
      s ← decode_field "size" as_int64 0 fs;
      c ← decode_field "checksum" as_string "" fs;
      n ← decode_field "filename" as_string "" fs;
      Some (mkMediaMeta k m s c n)
  | _ => None
  end.

Definition NewMediaValue (raw : string) : result Value :=
  match json_Unmarshal raw ≫= decode_media with
  | None => Err (Errorf "decode media metadata")
  | Some m =>
      guard! bool_decide (ObjectKey m = EmptyString)
        else Errorf "media value requires an object_key" then
      guard! bool_decide (MIME m = EmptyString)
        else Errorf "media value requires a mime type" then
      guard! Size m <? 0 else Errorf "media size must be non-negative" then
      Ok (mkValue DataTypeMedia false 0 (S754_zero false) "" zeroTime (MediaPayload m))
  end.

(** [Value.Media]: the decoded payload, the zero struct for other values. *)
Definition Media (v : Value) : MediaMeta :=
  match jsonVal v with MediaPayload m => m | _ => mkMediaMeta "" "" 0 "" "" end.

Definition NewQuantityValue (magnitude unit : string) (base : spec_float) : result Value :=
  guard! bool_decide (magnitude = EmptyString)
    else Errorf "quantity requires a magnitude" then
  guard! bool_decide (unit = EmptyString) else Errorf "quantity requires a unit" then
  Ok (mkValue DataTypeQuantity false 0 base "" zeroTime (QuantityPayload magnitude unit)).

Definition decode_quantity (j : Json) : option (string * string * spec_float) :=
  match j with
  | JNull => Some (EmptyString, EmptyString, S754_zero false)
  | JObject fs =>
      m ← decode_field "magnitude" as_string "" fs;
      u ← decode_field "unit" as_string "" fs;
      b ← decode_field "base" as_float64 (S754_zero false) fs;
      Some (m, u, b)
  | _ => None
  end.

(** The first byte that is not JSON white space is a double quote. *)
Fixpoint jsonIsString (raw : string) : bool :=
  match raw with
  | EmptyString => false
  | String c raw =>
      let n := byte_of c in
      if (n =? 32)%nat || (n =? 9)%nat || (n =? 10)%nat || (n =? 13)%nat
      then jsonIsString raw else (n =? 34)%nat
  end.

(** [null] decodes into a Go string as the empty string. *)
Definition decodeString (raw : string) : result string :=
  match json_Decode raw with
  | Some (JString s) => Ok s
  | Some JNull => Ok EmptyString
  | _ => Err (Errorf "expected string")
  end.

Definition decodeNumber (raw : string) : option string :=
  match json_Decode raw with
  | Some (JNumber lit) => Some lit
  | Some JNull => Some EmptyString
  | _ => None
  end.

Definition parseTime (layout : TimeLayout) (raw : string) : result GoTime :=
  let! s := decodeString raw in
  match time_Parse layout s with
  | Some t => Ok t
  | None => Err (Errorf "expected a time in the layout")
  end.

Definition ParseValue (dt : DataType) (raw : string) : result Value :=
  match dt with
  | DataTypeBool =>
      match json_Decode raw with
      | Some (JBool b) => Ok (NewBoolValue b)
      | Some JNull => Ok (NewBoolValue false)
      | _ => Err (Errorf "expected boolean")
      end
  | DataTypeString => let! s := decodeString raw in Ok (NewStringValue s)
  | DataTypeText => let! s := decodeString raw in Ok (NewTextValue s)
  | DataTypeEnum =>
      let! s := decodeString raw in
      guard! bool_decide (s = EmptyString) else Errorf "enum value must not be empty" then
      Ok (NewEnumValue s)
  | DataTypeInteger =>
      guard! jsonIsString raw else Errorf "expected integer, got a quoted string" then
      match decodeNumber raw ≫= ParseInt with
      | Some i => Ok (NewIntegerValue i)
      | None => Err (Errorf "expected integer")
      end
  | DataTypeFloat =>
      guard! jsonIsString raw else Errorf "expected number, got a quoted string" then
      match decodeNumber raw ≫= strconv_ParseFloat with
      | Some f => Ok (NewFloatValue f)
      | None => Err (Errorf "expected number")
      end
  | DataTypeDecimal =>
      match json_Decode raw with
      | Some (JString s) => NewDecimalValue s
      | Some (JNumber lit) => NewDecimalValue lit
      | Some _ => Err (Errorf "expected decimal string or number")
      | None => Err (Errorf "expected decimal")
      end
  | DataTypeDate => let! t := parseTime DateFormat raw in Ok (NewDateValue t)
  | DataTypeTime => let! t := parseTime TimeFormat raw in Ok (NewTimeValue t)
  | DataTypeDateTime => let! t := parseTime RFC3339Nano raw in Ok (NewDateTimeValue t)
  | DataTypeURL => let! s := decodeString raw in NewURLValue s
  | DataTypeEmail => let! s := decodeString raw in NewEmailValue s
  | DataTypeJSON => NewJSONValue raw
  | DataTypeMedia => NewMediaValue raw
  | DataTypeQuantity =>
      match json_Unmarshal raw ≫= decode_quantity with
      | Some (m, u, b) => NewQuantityValue m u b
      | None => Err (Errorf "expected a quantity {magnitude, unit}")
      end
  | DataTypeNone | DataTypeUnknown _ => Err (Errorf "unknown data type")
  end.

(** *** Order and equality *)

Definition compareInt (a b : Z) : Z :=
  if a <? b then -1 else if b <? a then 1 else 0.

(** [compareOrdered] on floats: a NaN is neither less nor greater. *)
Definition compareFloat (a b : spec_float) : Z :=
  if SFltb a b then -1 else if SFltb b a then 1 else 0.

Definition Compare (v other : Value) : result Z :=
  guard! negb (bool_decide (dataType v = dataType other))
    else Errorf "cannot compare values of different types" then
  match dataType v with
  | DataTypeInteger => Ok (compareInt (intVal v) (intVal other))
  | DataTypeFloat | DataTypeQuantity => Ok (compareFloat (floatVal v) (floatVal other))
  | DataTypeDecimal =>
      match rat_of_decimal (textVal v), rat_of_decimal (textVal other) with
      | Some a, Some b => Ok (of_comparison (a ?= b)%Q)
      | _, _ => Err (Errorf "corrupt decimal")
      end
  | DataTypeDate | DataTypeTime | DataTypeDateTime =>
      Ok (of_comparison (timeVal v ?= timeVal other))
  | _ => Err (Errorf "data type is not ordered")
  end.

Definition rawJSON (p : JsonPayload) : string :=
  match p with RawPayload raw => raw | _ => EmptyString end.

Definition equalJSON (a b : string) : bool :=
  match json_Canonical a, json_Canonical b with
  | Some ca, Some cb => bool_decide (ca = cb)
  | _, _ => bool_decide (a = b)
  end.

Definition Equal (v other : Value) : bool :=
  if negb (bool_decide (dataType v = dataType other)) then false else
  match dataType v with
  | DataTypeDecimal =>
      match Compare v other with Ok cmp => cmp =? 0 | Err _ => false end
  | DataTypeJSON => equalJSON (rawJSON (jsonVal v)) (rawJSON (jsonVal other))
  | DataTypeMedia => bool_decide (jsonVal v = jsonVal other)
  | DataTypeDate | DataTypeTime | DataTypeDateTime => timeVal v =? timeVal other
  | DataTypeBool => eqb (boolVal v) (boolVal other)
  | DataTypeInteger => intVal v =? intVal other
  | DataTypeFloat | DataTypeQuantity => SFeqb (floatVal v) (floatVal other)
  | _ => bool_decide (textVal v = textVal other)
  end.

(** [utf8.RuneCountInString] of the text. *)
Definition Length (v : Value) : Z := Z.of_nat (RuneCountInString (textVal v)).

End Parsing.

(** ** Values computed at evaluation time ([dynamic.go]) *)

(** [DynamicKindOther] and [PeriodOther] stand for any other string, the
    empty one included. *)
Inductive DynamicKind :=
  | DynamicNow | DynamicToday | DynamicRelative | DynamicKindOther (s : string).

Inductive RelativePeriod :=
  | PeriodSeconds | PeriodMinutes | PeriodHours | PeriodDays | PeriodWeeks
  | PeriodOther (s : string).

#[export] Instance RelativePeriod_eq_dec : EqDecision RelativePeriod.
Proof. solve_decision. Defined.

(** [periodDurations], in nanoseconds; a missing key is [None]. *)
Definition periodDurations (p : RelativePeriod) : option Z :=
  match p with
  | PeriodSeconds => Some second
  | PeriodMinutes => Some (60 * second)
  | PeriodHours => Some (3600 * second)
  | PeriodDays => Some (24 * 3600 * second)
  | PeriodWeeks => Some (7 * 24 * 3600 * second)
  | PeriodOther _ => None
  end.

Record DynamicValue := mkDynamic {
  DynKind : DynamicKind; Period : RelativePeriod; Amount : Z }.

Definition DynamicValidate (d : DynamicValue) (dt : DataType) : result unit :=
  guard! negb (IsTemporal dt)
    else Errorf "dynamic values require a temporal data type" then
  match DynKind d with
  | DynamicNow | DynamicToday =>
      guard! negb (bool_decide (Period d = PeriodOther "")) || negb (Amount d =? 0)
        else Errorf "the kind does not accept period or amount" then
      Ok tt
  | DynamicRelative =>
      match periodDurations (Period d) with
      | Some _ => Ok tt
      | None => Err (Errorf "unknown relative period")
      end
  | DynamicKindOther _ => Err (Errorf "unknown dynamic value kind")
  end.

(** [t.Add(d)]: the location is kept. *)
Definition timeAdd (t : GoTime) (d : Z) : GoTime :=
  mkGoTime (unixNano t + d) (zoneOffset t).

(** The instant a dynamic value denotes.  [time.Duration(d.Amount) * dur] is
    an [int64] product: it wraps. *)
Definition DynamicInstant (d : DynamicValue) (now : GoTime) : result GoTime :=
  match DynKind d with
  | DynamicNow | DynamicToday => Ok now
  | DynamicRelative =>
      match periodDurations (Period d) with
      | Some dur => Ok (timeAdd now (wrap64 (Amount d * dur)))
      | None => Err (Errorf "unknown relative period")
      end
  | DynamicKindOther _ => Err (Errorf "unknown dynamic value kind")
  end.

Definition DynamicResolve (d : DynamicValue) (dt : DataType) (now : GoTime) : result Value :=
  let! t := DynamicInstant d now in
  match dt with
  | DataTypeDate => Ok (NewDateValue t)
  | DataTypeTime => Ok (NewTimeValue t)
  | DataTypeDateTime => Ok (NewDateTimeValue t)
  | _ => Err (Errorf "dynamic values require a temporal data type")
  end.

(** [Default]: both sides are optional pointers. *)
Record Default := mkDefault { Static : option Value; Dynamic : option DynamicValue }.

Definition DefaultValidate (d : Default) (dt : DataType) : result unit :=
  match Static d, Dynamic d with
  | Some _, Some _ => Err (Errorf "default must be static or dynamic, not both")
  | Some v, None =>
      guard! negb (bool_decide (dataType v = dt))
        else Errorf "default value type does not match attribute type" then
      Ok tt
  | None, Some dv => DynamicValidate dv dt
  | None, None => Err (Errorf "default must set static or dynamic")
  end.

Definition DefaultResolve (d : Default) (dt : DataType) (now : GoTime) : result Value :=
  match Static d with
  | Some v => Ok v
  | None =>
      match Dynamic d with
      | Some dv => DynamicResolve dv dt now
      | None => Err (Errorf "empty default")
      end
  end.

(** ** Scopes ([scope.go]) *)

Record Scope := mkScope { Locale : string; Channel : string }.

#[export] Instance Scope_eq_dec : EqDecision Scope.
Proof. solve_decision. Defined.

Definition ScopeIsZero (s : Scope) : bool :=
  bool_decide (Locale s = EmptyString) && bool_decide (Channel s = EmptyString).

Definition ScopeEquals (s o : Scope) : bool :=
  bool_decide (Locale s = Locale o) && bool_decide (Channel s = Channel o).

(** ** Well-formed values *)

(** What the constructors guarantee of the field a data type reads; the
    fields it does not read are the zero ones. *)
Definition wf_value (v : Value) : Prop :=
  match dataType v with
  | DataTypeNone => v = zeroValue
  | DataTypeBool => v = NewBoolValue (boolVal v)
  | DataTypeString | DataTypeText => v = textOf (dataType v) (textVal v)
  | DataTypeEnum => v = textOf (dataType v) (textVal v) /\ textVal v <> EmptyString
  | DataTypeURL =>
      v = textOf (dataType v) (textVal v) /\ (String.length (textVal v) <= maxURLLength)%nat
  | DataTypeEmail =>
      v = textOf (dataType v) (textVal v) /\ (String.length (textVal v) <= maxEmailLength)%nat
  | DataTypeDecimal =>
      v = textOf (dataType v) (textVal v) /\
      (String.length (textVal v) <= maxDecimalLength)%nat /\
      exists q, rat_of_decimal (textVal v) = Some q
  | DataTypeInteger => v = NewIntegerValue (intVal v) /\ in_int64 (intVal v)
  | DataTypeFloat => v = NewFloatValue (floatVal v)
  | DataTypeDate => v = timeOf (dataType v) (timeVal v) /\ timeVal v mod day = 0
  | DataTypeTime =>
      v = timeOf (dataType v) (timeVal v) /\
      yearZero <= timeVal v < yearZero + day /\ timeVal v mod second = 0
  | DataTypeDateTime => v = timeOf (dataType v) (timeVal v)
  | DataTypeJSON => exists raw, jsonVal v = RawPayload raw
  | DataTypeMedia =>
      exists m, jsonVal v = MediaPayload m /\ ObjectKey m <> EmptyString /\
        MIME m <> EmptyString /\ 0 <= Size m
  | DataTypeQuantity =>
      exists m u, jsonVal v = QuantityPayload m u /\ m <> EmptyString /\ u <> EmptyString
  | DataTypeUnknown _ => False
  end.

(** A NaN is the one payload that is not ordered. *)
Definition is_nan (f : spec_float) : bool :=
  match f with S754_nan => true | _ => false end.

Definition comparable (v : Value) : Prop := is_nan (floatVal v) = false.

(** *** Dates and times stay in their range *)

Lemma NewDateValue_wf t : wf_value (NewDateValue t).
Proof. cbn. split; [done|]. apply Z.mod_mul. done. Qed.

Lemma NewTimeValue_wf t : wf_value (NewTimeValue t).
Proof.
  unfold wf_value, NewTimeValue, timeOf. cbn [dataType timeVal].
  split; [done|].
  pose proof (Z.mod_pos_bound (localNano t / second) 86400 ltac:(lia)) as Hb.
  unfold yearZero, day, second in *. split; [lia|].
  rewrite <- Z.mul_add_distr_r. apply Z.mod_mul. lia.
Qed.

Lemma NewDecimalValue_ok s v :
  NewDecimalValue s = Ok v ->
  v = textOf DataTypeDecimal s /\ (String.length s <= maxDecimalLength)%nat /\
  exists q, rat_of_decimal s = Some q.
Proof.
  unfold NewDecimalValue, decimalPattern. intros H. res_inv. breflect.
  match goal with E : (_ <? _)%nat = false |- _ => apply Nat.ltb_ge in E end.
  destruct (rat_of_decimal s); [eauto|discriminate].
Qed.

#[export] Hint Resolve NewDateValue_wf NewTimeValue_wf : go.

(** ** Order

    A three-way comparison that is total on the values satisfying [P]. *)
Class TotalCmp {A} (c : A -> A -> comparison) (P : A -> Prop) : Prop := {
  cmp_opp x y : P x -> P y -> c y x = CompOpp (c x y);
  cmp_le_trans x y z : P x -> P y -> P z -> c x y <> Gt -> c y z <> Gt -> c x z <> Gt
}.

#[export] Instance Z_TotalCmp : TotalCmp Z.compare (fun _ => True).
Proof.
  split; intros.
  - apply Z.compare_antisym.
  - rewrite Z.compare_gt_iff, ?Z.nlt_ge in *. lia.
Qed.

#[export] Instance Q_TotalCmp : TotalCmp Qcompare (fun _ => True).
Proof.
  split; intros.
  - symmetry. apply Qcompare_antisym.
  - rewrite <- ?Qle_alt in *. eauto using Qle_trans.
Qed.

(** Lexicographic comparison of integer triples. *)
Definition lex3 (x y : Z * Z * Z) : comparison :=
  let '(a, b, c) := x in
  let '(a', b', c') := y in
  match a ?= a' with
  | Eq => match b ?= b' with Eq => c ?= c' | r => r end
  | r => r
  end.

#[export] Instance lex3_TotalCmp : TotalCmp lex3 (fun _ => True).
Proof.
  split.
  - intros [[a b] c] [[a' b'] c'] _ _. simpl.
    rewrite (Z.compare_antisym a' a), (Z.compare_antisym b' b), (Z.compare_antisym c' c).
    by destruct (a' ?= a), (b' ?= b), (c' ?= c).
  - intros [[a b] c] [[a' b'] c'] [[a'' b''] c''] _ _ _. simpl.
    destruct (Z.compare_spec a a'), (Z.compare_spec a' a''), (Z.compare_spec a a'');
      try lia; try done;
    destruct (Z.compare_spec b b'), (Z.compare_spec b' b''), (Z.compare_spec b b'');
      try lia; try done;
    destruct (Z.compare_spec c c'), (Z.compare_spec c' c''), (Z.compare_spec c c'');
      try lia; try done.
Qed.

(** The position of a float that is not a NaN on the number line. *)
Definition float_key (f : spec_float) : Z * Z * Z :=
  match f with
  | S754_infinity s => (if s then -2 else 2, 0, 0)
  | S754_finite true m e => (-1, - e, - Z.pos m)
  | S754_finite false m e => (1, e, Z.pos m)
  | S754_zero _ | S754_nan => (0, 0, 0)
  end.

Definition fcmp (a b : spec_float) : comparison := lex3 (float_key a) (float_key b).

Lemma SFcompare_key a b :
  is_nan a = false -> is_nan b = false -> SFcompare a b = Some (fcmp a b).
Proof.
  intros Ha Hb. unfold fcmp.
  destruct a as [[]|[]| |[] m e], b as [[]|[]| |[] m' e']; try done; simpl.
  - rewrite Z.compare_opp, (Z.compare_antisym e e').
    by destruct (e ?= e').
Qed.

#[export] Instance fcmp_TotalCmp : TotalCmp fcmp (fun f => is_nan f = false).
Proof.
  unfold fcmp. split; intros.
  - by apply (cmp_opp (P := fun _ => True)).
  - by eapply (cmp_le_trans (P := fun _ => True)).
Qed.

Lemma compareInt_cmp a b : compareInt a b = of_comparison (a ?= b).
Proof.
  unfold compareInt. rewrite !Z.ltb_compare, (Z.compare_antisym a b).
  by destruct (a ?= b).
Qed.

Lemma compareFloat_cmp a b :
  is_nan a = false -> is_nan b = false -> compareFloat a b = of_comparison (fcmp a b).
Proof.
  intros Ha Hb. unfold compareFloat, SFltb.
  rewrite !SFcompare_key, (cmp_opp a b) by done. by destruct (fcmp a b).
Qed.

Lemma SFeqb_cmp a b :
  is_nan a = false -> is_nan b = false ->
  SFeqb a b = (of_comparison (fcmp a b) =? 0).
Proof. intros Ha Hb. unfold SFeqb. rewrite SFcompare_key by done. by destruct (fcmp a b). Qed.

(** The comparison of two values of one ordered type, as a three-way
    comparison of what the type orders by. *)
Definition decimal_of (v : Value) : Q :=
  match rat_of_decimal (textVal v) with Some q => q | None => 0%Q end.

Definition vcmp (v w : Value) : comparison :=
  match dataType v with
  | DataTypeInteger => intVal v ?= intVal w
  | DataTypeFloat | DataTypeQuantity => fcmp (floatVal v) (floatVal w)
  | DataTypeDecimal => (decimal_of v ?= decimal_of w)%Q
  | _ => timeVal v ?= timeVal w
  end.

(** The values [Compare] is meant for. *)
Definition ordered (dt : DataType) (v : Value) : Prop :=
  dataType v = dt /\ IsOrdered dt = true /\ wf_value v /\ comparable v.

Lemma ordered_decimal v : ordered DataTypeDecimal v -> rat_of_decimal (textVal v) = Some (decimal_of v).
Proof.
  intros (Hd & _ & Hwf & _). unfold wf_value in Hwf. rewrite Hd in Hwf.
  destruct Hwf as (_ & _ & q & Hq). unfold decimal_of. by rewrite Hq.
Qed.

Lemma Compare_vcmp dt v w :
  ordered dt v -> ordered dt w -> Compare v w = Ok (of_comparison (vcmp v w)).
Proof.
  intros Hv Hw. pose proof Hv as (Hdv & Ho & _ & Hcv). pose proof Hw as (Hdw & _ & _ & Hcw).
  unfold Compare, vcmp. rewrite Hdw, Hdv, bool_decide_eq_true_2 by done. simpl.
  destruct dt; try discriminate; try done.
  - by rewrite compareInt_cmp.
  - by rewrite compareFloat_cmp.
  - by rewrite (ordered_decimal v), (ordered_decimal w).
  - by rewrite compareFloat_cmp.
Qed.

#[export] Instance vcmp_TotalCmp dt : TotalCmp vcmp (ordered dt).
Proof.
  split.
  - intros v w (Hv & Ho & _ & Hcv) (Hw & _ & _ & Hcw). unfold vcmp. rewrite Hv, Hw.
    destruct dt; try discriminate; try (by apply (cmp_opp (P := fun _ => True)));
      by apply cmp_opp.
  - intros u v w (Hu & Ho & _ & Hcu) (Hv & _ & _ & Hcv) (Hw & _ & _ & Hcw).
    unfold vcmp. rewrite Hu, Hv.
    destruct dt; try discriminate; try (by apply (cmp_le_trans (P := fun _ => True)));
      by apply cmp_le_trans.
Qed.

(** ** Equality is a partial equivalence; only a NaN or a corrupt decimal is
    not equal to itself. *)
Section Equality.
Context `{GoStd}.

Lemma SFeqb_non_nan a b : SFeqb a b = true -> is_nan a = false /\ is_nan b = false.
Proof. by destruct a as [[]|[]| |[] m e], b as [[]|[]| |[] m' e']. Qed.

Lemma of_comparison_zero c : of_comparison c = 0 <-> c = Eq.
Proof. by destruct c. Qed.

Lemma fcmp_zero a b :
  SFeqb a b = true <-> is_nan a = false /\ is_nan b = false /\ float_key a = float_key b.
Proof.
  split.
  - intros Hab. destruct (SFeqb_non_nan _ _ Hab) as [Ha Hb].
    rewrite SFeqb_cmp in Hab by done. breflect. apply of_comparison_zero in Hab.
    split_and!; try done. revert Hab. unfold fcmp, lex3.
    destruct (float_key a) as [[x y] z], (float_key b) as [[x' y'] z'].
    destruct (Z.compare_spec x x'), (Z.compare_spec y y'), (Z.compare_spec z z');
      intros; simplify_eq; done.
  - intros (Ha & Hb & Hk). rewrite SFeqb_cmp by done. unfold fcmp. rewrite Hk.
    destruct (float_key b) as [[x y] z]. simpl. by rewrite !Z.compare_refl.
Qed.

Lemma equalJSON_sym a b : equalJSON a b = true -> equalJSON b a = true.
Proof. unfold equalJSON. repeat case_match; rewrite !bool_decide_eq_true; congruence. Qed.

Lemma equalJSON_trans a b c :
  equalJSON a b = true -> equalJSON b c = true -> equalJSON a c = true.
Proof.
  unfold equalJSON. repeat case_match; rewrite !bool_decide_eq_true; congruence.
Qed.

(** What two equal values share, by data type. *)
Definition same_content (v w : Value) : Prop :=
  match dataType v with
  | DataTypeDecimal =>
      exists p q, rat_of_decimal (textVal v) = Some p /\
        rat_of_decimal (textVal w) = Some q /\ (p == q)%Q
  | DataTypeJSON => equalJSON (rawJSON (jsonVal v)) (rawJSON (jsonVal w)) = true
  | DataTypeMedia => jsonVal v = jsonVal w
  | DataTypeDate | DataTypeTime | DataTypeDateTime => timeVal v = timeVal w
  | DataTypeBool => boolVal v = boolVal w
  | DataTypeInteger => intVal v = intVal w
  | DataTypeFloat | DataTypeQuantity =>
      is_nan (floatVal v) = false /\ is_nan (floatVal w) = false /\
      float_key (floatVal v) = float_key (floatVal w)
  | _ => textVal v = textVal w
  end.

Lemma Equal_content v w :
  Equal v w = true <-> dataType v = dataType w /\ same_content v w.
Proof.
  unfold Equal, same_content. destruct (decide (dataType v = dataType w)) as [Hd|Hd].
  2: { rewrite bool_decide_eq_false_2 by done. naive_solver. }
  rewrite bool_decide_eq_true_2 by done. cbn [negb].
  destruct (dataType v) eqn:Hv;
    try (rewrite ?bool_decide_eq_true, ?Z.eqb_eq, ?eqb_true_iff, ?fcmp_zero; tauto).
  unfold Compare. rewrite <- Hd, Hv, bool_decide_eq_true_2 by done. cbn [negb].
  destruct (rat_of_decimal (textVal v)) as [p|], (rat_of_decimal (textVal w)) as [q|];
    try naive_solver.
  rewrite Z.eqb_eq, of_comparison_zero, <- Qeq_alt. naive_solver.
Qed.

Lemma Equal_dataType v w : Equal v w = true -> dataType v = dataType w.
Proof. rewrite Equal_content. tauto. Qed.

Lemma same_content_sym v w :
  dataType v = dataType w -> same_content v w -> same_content w v.
Proof.
  unfold same_content. intros <-.
  destruct (dataType v); try (by intros ->); try (intros (? & ? & ?); by split_and!).
  - intros (p & q & Hp & Hq & E). exists q, p. by split_and!.
  - apply equalJSON_sym.
Qed.

Lemma same_content_trans u v w :
  dataType u = dataType v -> same_content u v -> same_content v w -> same_content u w.
Proof.
  unfold same_content. intros <-.
  destruct (dataType u); try congruence;
    try (intros (? & ? & ?) (? & ? & ?); split_and!; congruence).
  - intros (p & q & Hp & Hq & E1) (q' & r & Hq' & Hr & E2).
    exists p, r. rewrite Hq in Hq'. injection Hq' as <-. split_and!; try done.
    by etrans.
  - apply equalJSON_trans.
Qed.

Lemma Equal_sym v w : Equal v w = true -> Equal w v = true.
Proof.
  rewrite !Equal_content. intros [Hd Hs]. split; [done|]. by apply same_content_sym.
Qed.

Lemma Equal_trans u v w : Equal u v = true -> Equal v w = true -> Equal u w = true.
Proof.
  rewrite !Equal_content. intros [Hd Hs] [Hd' Hs'].
  split; [congruence|]. by eapply same_content_trans.
Qed.

Lemma Equal_comm v w : Equal v w = Equal w v.
Proof.
  destruct (Equal v w) eqn:E; symmetry.
  - by apply Equal_sym.
  - destruct (Equal w v) eqn:E'; [|done]. apply Equal_sym in E'. congruence.
Qed.

(** [Equal] as a relation, for setoid rewriting. *)
Definition veq (v w : Value) : Prop := Equal v w = true.

#[export] Instance veq_sym : Symmetric veq.
Proof. exact Equal_sym. Qed.

#[export] Instance veq_trans : Transitive veq.
Proof. exact Equal_trans. Qed.

Lemma Equal_refl v : wf_value v -> comparable v -> Equal v v = true.
Proof.
  intros Hwf Hc. rewrite Equal_content. split; [done|].
  unfold same_content, wf_value in *. destruct (dataType v); try done.
  - destruct Hwf as (_ & _ & q & Hq). by exists q, q.
  - unfold equalJSON. case_match; by apply bool_decide_eq_true_2.
Qed.

#[export] Instance Equal_Proper : Proper (veq ==> veq ==> eq) Equal.
Proof.
  intros v v' Hv w w' Hw. destruct (Equal v' w') eqn:E.
  - eapply Equal_trans; [exact Hv|]. eapply Equal_trans; [exact E|]. by apply Equal_sym.
  - destruct (Equal v w) eqn:E'; [|done]. rewrite <- E. symmetry.
    eapply Equal_trans; [apply Equal_sym, Hv|]. eapply Equal_trans; [exact E'|exact Hw].
Qed.

(** On ordered types [Equal] is "compares as 0". *)
Lemma Equal_vcmp dt v w :
  ordered dt v -> ordered dt w ->
  Equal v w = true <-> of_comparison (vcmp v w) = 0.
Proof.
  intros Hv Hw. pose proof (Compare_vcmp dt v w Hv Hw) as Hc.
  destruct Hv as (Hdv & Ho & _ & Hcv), Hw as (Hdw & _ & _ & Hcw).
  unfold Equal. rewrite Hc. clear Hc.
  unfold vcmp. rewrite Hdw, Hdv, bool_decide_eq_true_2 by done. cbn [negb].
  destruct dt; try discriminate;
    rewrite ?of_comparison_zero, ?Z.compare_eq_iff, ?Z.eqb_eq, ?of_comparison_zero; try done.
  all: rewrite SFeqb_cmp by done; by rewrite Z.eqb_eq, of_comparison_zero.
Qed.

End Equality.

(** ** Properties *)

Section Properties.
Context `{GoStd}.

Lemma NewURLValue_wf s v :
  NewURLValue s = Ok v -> dataType v = DataTypeURL /\ wf_value v.
Proof.
  unfold NewURLValue. intros Hv. res_inv.
  destruct (url_Parse s) as [[sc ho]|]; res_inv. split; [done|].
  split; [done|]. by apply Nat.ltb_ge.
Qed.

Lemma NewEmailValue_wf s v :
  NewEmailValue s = Ok v -> dataType v = DataTypeEmail /\ wf_value v.
Proof.
  unfold NewEmailValue. intros Hv. res_inv.
  destruct (mail_ParseAddress s); res_inv. split; [done|].
  split; [done|]. by apply Nat.ltb_ge.
Qed.

Lemma NewJSONValue_wf raw v :
  NewJSONValue raw = Ok v -> dataType v = DataTypeJSON /\ wf_value v.
Proof. unfold NewJSONValue. intros Hv. case_match; res_inv. split; [done|]. by eexists. Qed.

Lemma NewMediaValue_wf raw v :
  NewMediaValue raw = Ok v -> dataType v = DataTypeMedia /\ wf_value v.
Proof.
  unfold NewMediaValue. intros Hv. case_match; res_inv. breflect.
  split; [done|]. by eexists.
Qed.

Lemma NewQuantityValue_wf m u b v :
  NewQuantityValue m u b = Ok v -> dataType v = DataTypeQuantity /\ wf_value v.
Proof.
  unfold NewQuantityValue. intros Hv. res_inv. breflect. split; [done|]. by do 2 eexists.
Qed.

Lemma NewDecimalValue_wf s v :
  NewDecimalValue s = Ok v -> dataType v = DataTypeDecimal /\ wf_value v.
Proof. intros (-> & Hl & Hq)%NewDecimalValue_ok. done. Qed.

#[local] Hint Resolve NewURLValue_wf NewEmailValue_wf NewJSONValue_wf NewMediaValue_wf
  NewQuantityValue_wf NewDecimalValue_wf : go.

Lemma ParseValue_wf dt raw v : ParseValue dt raw = Ok v -> dataType v = dt /\ wf_value v.
Proof.
  intros Hv. destruct dt; cbn [ParseValue] in Hv; res_inv; eauto with go;
    repeat case_match; res_inv; eauto with go; try done.
  - split; [done|]. split; [done|].
    match goal with E : _ ≫= ParseInt = Some _ |- _ =>
      apply bind_Some in E as (lit & _ & E); by apply ParseInt_range in E end.
  - split; [done|]. split; [done|]. by breflect.
Qed.

(** C33: [ParseValue], the entry point of every API value, yields only values of
    the declared data type that satisfy the invariant of that type: a decimal
    is a decimal numeral of at most 40 bytes, an integer fits [int64], a date
    is a whole day, a time is a whole second of the day, an enum is not
    empty, media and quantity payloads carry their required fields. *)
Theorem parse_value_typed dt raw v :
  ParseValue dt raw = Ok v -> dataType v = dt /\ wf_value v.
Proof. apply ParseValue_wf. Qed.

(** On the well-formed values of one ordered data type (no NaN), [Compare]
    never fails, answers -1, 0 or 1, is antisymmetric and transitive, and is 0
    exactly on the values [Equal] identifies: 1.5 and 1.50, 5 kg and 5000 g. *)
Theorem compare_total_preorder dt u v w :
  ordered dt u -> ordered dt v -> ordered dt w ->
  exists uv vu vw uw,
    Compare u v = Ok uv /\ Compare v u = Ok vu /\
    Compare v w = Ok vw /\ Compare u w = Ok uw /\
    (uv = -1 \/ uv = 0 \/ uv = 1) /\ vu = - uv /\
    (uv <= 0 -> vw <= 0 -> uw <= 0) /\
    (Equal u v = true <-> uv = 0).
Proof.
  intros Hu Hv Hw.
  exists (of_comparison (vcmp u v)), (of_comparison (vcmp v u)),
    (of_comparison (vcmp v w)), (of_comparison (vcmp u w)).
  split_and!; eauto using Compare_vcmp.
  - destruct (vcmp u v); simpl; auto.
  - by rewrite (cmp_opp (P := ordered dt) u v), of_comparison_opp.
  - pose proof (cmp_le_trans (P := ordered dt) u v w Hu Hv Hw) as Ht.
    destruct (vcmp u v), (vcmp v w), (vcmp u w); simpl; try lia; by destruct Ht.
  - rewrite <- (Equal_vcmp dt u v) by done. done.
Qed.

(** [Equal] is symmetric and transitive on all values, implies equal data
    types, and is reflexive on every well-formed value that is not a NaN,
    whatever canonical form the JSON library computes. *)
Theorem equal_equivalence (u v w : Value) :
  (Equal u v = Equal v u) /\
  (Equal u v = true -> Equal v w = true -> Equal u w = true) /\
  (Equal u v = true -> dataType u = dataType v) /\
  (wf_value u -> comparable u -> Equal u u = true).
Proof.
  split_and!; eauto using Equal_comm, Equal_trans, Equal_dataType, Equal_refl.
Qed.

End Properties.

(** The offset a dynamic value asks for, in nanoseconds and unbounded. *)
Definition dynamicOffset (d : DynamicValue) : Z :=
  match DynKind d, periodDurations (Period d) with
  | DynamicRelative, Some dur => Amount d * dur
  | _, _ => 0
  end.

(** The value of a temporal type at an instant. *)
Definition valueAt (dt : DataType) (t : GoTime) : Value :=
  match dt with
  | DataTypeDate => NewDateValue t
  | DataTypeTime => NewTimeValue t
  | _ => NewDateTimeValue t
  end.

Lemma valueAt_wf dt t :
  IsTemporal dt = true -> dataType (valueAt dt t) = dt /\ wf_value (valueAt dt t).
Proof.
  destruct dt; try discriminate; intros _; (split; [done|]); eauto with go; done.
Qed.

Lemma timeAdd_0 t : timeAdd t 0 = t.
Proof. destruct t. unfold timeAdd. simpl. by rewrite Z.add_0_r. Qed.

(** A validated dynamic value denotes an instant: the wrapped offset. *)
Lemma DynamicInstant_valid d dt now :
  DynamicValidate d dt = Ok tt ->
  IsTemporal dt = true /\ DynamicInstant d now = Ok (timeAdd now (wrap64 (dynamicOffset d))).
Proof.
  unfold DynamicValidate, DynamicInstant, dynamicOffset. intros Hv. res_inv. breflect.
  split; [done|].
  destruct (DynKind d) eqn:Hk; res_inv; try (rewrite wrap64_id, timeAdd_0 by done; done).
  by destruct (periodDurations (Period d)).
Qed.

Lemma DynamicResolve_valid d dt now :
  DynamicValidate d dt = Ok tt ->
  DynamicResolve d dt now = Ok (valueAt dt (timeAdd now (wrap64 (dynamicOffset d)))).
Proof.
  intros (Ht & Hi)%(DynamicInstant_valid _ _ now). unfold DynamicResolve. rewrite Hi.
  by destruct dt.
Qed.

Lemma DynamicResolve_typed d dt now :
  DynamicValidate d dt = Ok tt ->
  exists v, DynamicResolve d dt now = Ok v /\ dataType v = dt /\ wf_value v.
Proof.
  intros Hv. destruct (DynamicInstant_valid _ _ now Hv) as [Ht _].
  exists (valueAt dt (timeAdd now (wrap64 (dynamicOffset d)))).
  destruct (valueAt_wf dt (timeAdd now (wrap64 (dynamicOffset d))) Ht).
  split_and!; auto using DynamicResolve_valid.
Qed.

(** A dynamic value that passed [Validate] for a data type always resolves, to
    a well-formed value of that type; when the requested offset fits [int64]
    nanoseconds the value is exactly the one at [now] plus the offset. *)
Theorem dynamic_resolve_valid d dt now :
  DynamicValidate d dt = Ok tt ->
  exists v, DynamicResolve d dt now = Ok v /\ dataType v = dt /\ wf_value v /\
    (in_int64 (dynamicOffset d) -> v = valueAt dt (timeAdd now (dynamicOffset d))).
Proof.
  intros Hv. destruct (DynamicResolve_typed _ _ now Hv) as (v & Hr & Hd & Hwf).
  exists v. split_and!; try done. intros Hi.
  rewrite DynamicResolve_valid, wrap64_id in Hr by done. by injection Hr as <-.
Qed.

(** The offset is computed in [int64] nanoseconds and no check bounds the
    amount, so a "now plus 16000 weeks" value that [Validate] accepts resolves
    to an instant before now. *)
Theorem dynamic_offset_wraps now :
  exists d v, DynamicValidate d DataTypeDateTime = Ok tt /\ 0 < Amount d /\
    DynamicResolve d DataTypeDateTime now = Ok v /\ timeVal v < unixNano now.
Proof.
  exists (mkDynamic DynamicRelative PeriodWeeks 16000).
  exists (valueAt DataTypeDateTime
    (timeAdd now (wrap64 (dynamicOffset (mkDynamic DynamicRelative PeriodWeeks 16000))))).
  split_and!; [done|done|by apply DynamicResolve_valid|].
  cbn [valueAt NewDateTimeValue timeOf timeVal timeAdd unixNano].
  change (wrap64 _) with (-8769944073709551616). lia.
Qed.

(** ** A concrete standard library, for examples

    A small stand-in with fixed answers, enough to evaluate the definitions. *)
Module Demo.

Definition utc : Z -> Z := fun _ => 0.

Definition epoch : GoTime := mkGoTime 0 utc.

Definition unquote (s : string) : string :=
  match s with
  | String _ s => String.substring 0 (String.length s - 1) s
  | EmptyString => EmptyString
  end.

(** Scalars only: null, booleans, strings without escapes, numbers. *)
Definition decode (raw : string) : option Json :=
  if bool_decide (raw = "null"%string) then Some JNull
  else if bool_decide (raw = "true"%string) then Some (JBool true)
  else if bool_decide (raw = "false"%string) then Some (JBool false)
  else if jsonIsString raw then Some (JString (unquote raw))
  else Some (JNumber raw).

#[export] Instance std : GoStd := {
  json_Decode := decode;
  json_Unmarshal := decode;
  json_Compact := id;
  json_Canonical := Some;
  strconv_ParseFloat := fun _ => Some (S754_zero false);
  time_Parse := fun _ _ => Some epoch;
  url_Parse := fun s => Some (s, s);
  mail_ParseAddress := Some;
  regexp_Compile := fun e => Some (fun s => bool_decide (s = e))
}.

End Demo.

Definition decimal (s : string) : Value := textOf DataTypeDecimal s.

Example decimal_zeros : Equal (H := Demo.std) (decimal "1.5") (decimal "1.500") = true.
Proof. reflexivity. Qed.

Example decimal_order : Compare (decimal "-10") (decimal "2.25") = Ok (-1).
Proof. reflexivity. Qed.

Lemma parse_value_typed_witness :
  ParseValue (H := Demo.std) DataTypeInteger "42" = Ok (NewIntegerValue 42) /\
  (dataType (NewIntegerValue 42) = DataTypeInteger /\ wf_value (NewIntegerValue 42)).
Proof.
  split; [reflexivity|].
  exact (parse_value_typed (H := Demo.std) DataTypeInteger "42" (NewIntegerValue 42) eq_refl).
Defined.

Lemma ordered_decimal_example s q :
  String.length s = 3%nat -> rat_of_decimal s = Some q -> ordered DataTypeDecimal (decimal s).
Proof.
  intros Hl Hq. split_and!; try done. split; [done|]. split; [|by exists q].
  unfold decimal. cbn [textVal textOf]. rewrite Hl. unfold maxDecimalLength. lia.
Qed.

Lemma compare_total_preorder_witness :
  exists uv vu vw uw,
    Compare (decimal "1.5") (decimal "2.0") = Ok uv /\
    Compare (decimal "2.0") (decimal "1.5") = Ok vu /\
    Compare (decimal "2.0") (decimal "7.0") = Ok vw /\
    Compare (decimal "1.5") (decimal "7.0") = Ok uw /\
    (uv = -1 \/ uv = 0 \/ uv = 1) /\ vu = - uv /\
    (uv <= 0 -> vw <= 0 -> uw <= 0) /\
    (Equal (H := Demo.std) (decimal "1.5") (decimal "2.0") = true <-> uv = 0).
Proof.
  apply (compare_total_preorder (H := Demo.std) DataTypeDecimal);
    eapply ordered_decimal_example; reflexivity.
Defined.

Lemma dynamic_resolve_valid_witness :
  exists v,
    DynamicResolve (mkDynamic DynamicRelative PeriodDays 1) DataTypeDate Demo.epoch = Ok v /\
    dataType v = DataTypeDate /\ wf_value v /\
    (in_int64 (dynamicOffset (mkDynamic DynamicRelative PeriodDays 1)) ->
     v = valueAt DataTypeDate
           (timeAdd Demo.epoch (dynamicOffset (mkDynamic DynamicRelative PeriodDays 1)))).
Proof. apply dynamic_resolve_valid. reflexivity. Defined.
