(* ===== verification/Ids.v ===== *)
(** Identifiers ([domain/valueobjects/ids.go], [pkg/ulid]) and the naming rule
    the aggregates share.

    A ULID is an opaque 128-bit number, zero meaning absent; tenants and
    entities are the consumer's own strings.  A fresh identifier is an argument
    of the operation that draws it. *)

From Stdlib Require Import ZArith Lia String Ascii List.
From stdpp Require Import base tactics list strings option decidable numbers.
From S2P Require Import Prelude GoText.

Open Scope nat_scope.
Open Scope go_scope.

Abbreviation ID := N.

Definition ID_IsZero (i : ID) : bool := (i =? 0)%N.

Abbreviation TenantID := string.
Abbreviation EntityID := string.

Definition DefaultTenant : TenantID := "default".

Definition str_IsZero (s : string) : bool := bool_decide (s = EmptyString).

Definition is_lower (c : ascii) : bool := in_range 97 122 c.

(** [^[a-z0-9][a-z0-9_-]{0,63}$] *)
Definition tenantPattern (s : string) : bool :=
  match s with
  | EmptyString => false
  | String c rest =>
      (is_lower c || IsDigit c) &&
      all_bytes (fun d => is_lower d || IsDigit d ||
        bool_decide (d = "_"%char) || bool_decide (d = "-"%char)) rest &&
      (String.length rest <=? 63)
  end.

Definition ParseTenantID (s : string) : result TenantID :=
  if str_IsZero s then Ok DefaultTenant
  else guard! negb (tenantPattern s) else Errorf "invalid tenant ID" then Ok s.

Definition maxEntityIDLength : nat := 255.

Definition ParseEntityID (s : string) : result EntityID :=
  guard! str_IsZero s else Errorf "entity ID must not be empty" then
  guard! maxEntityIDLength <? String.length s
    else Errorf "entity ID exceeds the maximum length" then
  Ok s.

(** [^[a-z][a-z0-9_]{1,62}$] *)
Definition internalNamePattern (s : string) : bool :=
  match s with
  | EmptyString => false
  | String c rest =>
      is_lower c &&
      all_bytes (fun d => is_lower d || IsDigit d || bool_decide (d = "_"%char)) rest &&
      (1 <=? String.length rest) && (String.length rest <=? 62)
  end.

(** [int] counters wrap. *)
Definition bump (version : Z) : Z := wrap64 (version + 1).

(** ** The text form of identifiers

    [github.com/oklog/ulid] renders and parses it ([pkg/ulid/ulid.go] wraps
    [ULID.String] and [ParseStrict]). *)
Class GoUlid := {
  ulid_String : ID -> string;
  ulid_ParseStrict : string -> option ID
}.

(** [ulid.Parse]; the typed [ParseXxxID] wrappers return its error. *)
Definition ParseID `{GoUlid} (s : string) : result ID :=
  match ulid_ParseStrict s with
  | Some i => Ok i
  | None => Err (Errorf "parse ulid")
  end.
