(* ===== verification/Formula.v ===== *)
(** Arithmetic formulas over named inputs: the Go package [pkg/formula].

    The lexer holds one token and the unread text; the parser is the mutually
    recursive precedence climber, with the names it records; evaluation runs in
    binary64 ([eval]) and in exact rationals ([evalRat]).  Recursion takes
    fuel, [None] meaning that it ran out; [Parse] supplies [parse_fuel src] and
    [parse_terminates] shows that it never does. *)

From Stdlib Require Import ZArith Lia String Ascii List QArith SpecFloat.
From stdpp Require Import base tactics list gmap strings option decidable.
From S2P Require Import Prelude GoText.

Open Scope Z_scope.
Open Scope go_scope.

(** ** Numbers *)

(** The float64 operations. *)
Definition fprec : Z := 53.
Definition femax : Z := 1024.
Definition fadd : spec_float -> spec_float -> spec_float := SFadd fprec femax.
Definition fsub : spec_float -> spec_float -> spec_float := SFsub fprec femax.
Definition fmul : spec_float -> spec_float -> spec_float := SFmul fprec femax.
Definition fdiv : spec_float -> spec_float -> spec_float := SFdiv fprec femax.

Definition float_of_Z (z : Z) : spec_float := binary_normalize fprec femax z 0 false.

(** A numeral of digits and at most one point, with at least one digit:
    mantissa and number of fraction digits. *)
Definition numeral (s : string) : option (Z * nat) :=
  match digits 0 0 s with
  | (_, O, String "." s') =>
      match digits 0 0 s' with
      | (m, S k, EmptyString) => Some (m, S k)
      | _ => None
      end
  | (i, S _, EmptyString) => Some (i, O)
  | (i, S _, String "." s') =>
      match digits i 0 s' with
      | (m, k, EmptyString) => Some (m, k)
      | _ => None
      end
  | _ => None
  end.

(** [big.Rat.SetString] on such a numeral. *)
Definition rat_of_numeral (s : string) : option Q :=
  '(m, k) ← numeral s; Some (m # Z.to_pos (10 ^ Z.of_nat k))%Q.

(** [strconv.ParseFloat(s, 64)] on such a numeral: the nearest float64, an
    error when it overflows. *)
Definition ParseFloat (s : string) : option spec_float :=
  '(m, k) ← numeral s;
  match m with
  | Zpos _ =>
      let '(q, e, l) := SFdiv_core_binary fprec femax m 0 (10 ^ Z.of_nat k) 0 in
      match binary_round_aux fprec femax false q e l with
      | S754_infinity _ => None
      | f => Some f
      end
  | _ => Some (S754_zero false)
  end.

Example ParseFloat_tenth : ParseFloat "0.1" = Some (S754_finite false 7205759403792794 (-56)).
Proof. reflexivity. Qed.

(** ** Syntax trees *)

Inductive Aggregate := AggSum | AggCount | AggAvg | AggMin | AggMax.

#[export] Instance Aggregate_eq_dec : EqDecision Aggregate.
Proof. solve_decision. Defined.

Definition aggregate_name (a : Aggregate) : string :=
  match a with
  | AggSum => "sum" | AggCount => "count" | AggAvg => "avg" | AggMin => "min" | AggMax => "max"
  end.

(** The map [aggregates]. *)
Definition aggregates (name : string) : option Aggregate :=
  if bool_decide (name = "sum"%string) then Some AggSum
  else if bool_decide (name = "count"%string) then Some AggCount
  else if bool_decide (name = "avg"%string) then Some AggAvg
  else if bool_decide (name = "min"%string) then Some AggMin
  else if bool_decide (name = "max"%string) then Some AggMax
  else None.

Inductive BinOp := OpAdd | OpSub | OpMul | OpDiv.

Inductive node :=
  | numNode (f : spec_float) (text : string)
  | refNode (name : string)
  | aggNode (fn : Aggregate) (name : string)
  | binNode (op : BinOp) (lhs rhs : node)
  | negNode (inner : node).

(** ** Evaluation *)

(** All of an entity's values by attribute name.  A [nil] [*big.Rat] is [None]. *)
Abbreviation Inputs := (gmap string (list spec_float)).
Abbreviation RatInputs := (gmap string (list (option Q))).

(** How many values each name holds; [None] is the nil map. *)
Abbreviation Members := (option (gmap string Z)).

Definition agg_count (name : string) (numeric : nat) (members : Members) : Z :=
  match members with
  | None => Z.of_nat numeric
  | Some m => default 0 (m !! name)
  end.

(** The reduction of [aggNode.eval] over a non-empty list of values. *)
Definition agg_fold {A} (add : A -> A -> A) (quo : A -> A -> A) (ltb : A -> A -> bool)
    (zero : A) (of_Z : Z -> A) (fn : Aggregate) (v0 : A) (vs : list A) : option A :=
  match fn with
  | AggSum => Some (fold_left add (v0 :: vs) zero)
  | AggAvg => Some (quo (fold_left add (v0 :: vs) zero) (of_Z (Z.of_nat (S (length vs)))))
  | AggMin => Some (fold_left (fun best v => if ltb v best then v else best) vs v0)
  | AggMax => Some (fold_left (fun best v => if ltb best v then v else best) vs v0)
  | AggCount => None
  end.

Fixpoint eval (n : node) (vars : Inputs) (members : Members) : option spec_float :=
  match n with
  | numNode f _ => Some f
  | refNode name =>
      match vars !! name with
      | Some [v] => Some v
      | _ => None
      end
  | aggNode AggCount name =>
      Some (float_of_Z (agg_count name (length (default [] (vars !! name))) members))
  | aggNode fn name =>
      match default [] (vars !! name) with
      | [] => None
      | v0 :: vs => agg_fold fadd fdiv SFltb (S754_zero false) float_of_Z fn v0 vs
      end
  | binNode op lhs rhs =>
      l ← eval lhs vars members;
      r ← eval rhs vars members;
      match op with
      | OpAdd => Some (fadd l r)
      | OpSub => Some (fsub l r)
      | OpMul => Some (fmul l r)
      | OpDiv => if SFeqb r (S754_zero false) then None else Some (fdiv l r)
      end
  | negNode inner => v ← eval inner vars members; Some (SFopp v)
  end.

Definition Qltb (a b : Q) : bool := match (a ?= b)%Q with Lt => true | _ => false end.

Definition Qis_zero (q : Q) : bool := (Qnum q =? 0)%Z.

Fixpoint evalRat (n : node) (vars : RatInputs) (members : Members) : option Q :=
  match n with
  | numNode _ text => rat_of_numeral text
  | refNode name =>
      match vars !! name with
      | Some [v] => v
      | _ => None
      end
  | aggNode AggCount name =>
      Some (inject_Z (agg_count name (length (default [] (vars !! name))) members))
  | aggNode fn name =>
      match default [] (vars !! name) with
      | [] => None
      | vals =>
          match mapM id vals with
          | Some (v0 :: vs) => agg_fold Qplus Qdiv Qltb 0%Q inject_Z fn v0 vs
          | _ => None
          end
      end
  | binNode op lhs rhs =>
      l ← evalRat lhs vars members;
      r ← evalRat rhs vars members;
      match op with
      | OpAdd => Some (l + r)%Q
      | OpSub => Some (l - r)%Q
      | OpMul => Some (l * r)%Q
      | OpDiv => if Qis_zero r then None else Some (l / r)%Q
      end
  | negNode inner => v ← evalRat inner vars members; Some (- v)%Q
  end.

(** ** Lexer *)

Inductive tokKind := tokEOF | tokNum | tokIdent | tokOp | tokLParen | tokRParen | tokInvalid.

#[export] Instance tokKind_eq_dec : EqDecision tokKind.
Proof. solve_decision. Defined.

Record token := mkTok { kind : tokKind; text : string }.

#[export] Instance token_eq_dec : EqDecision token.
Proof. solve_decision. Defined.

Definition is_op (c : ascii) : bool :=
  bool_decide (c = "+"%char) || bool_decide (c = "-"%char) ||
  bool_decide (c = "*"%char) || bool_decide (c = "/"%char).

Definition num_char (c : ascii) : bool := IsDigit c || bool_decide (c = "."%char).

Definition ident_char (c : ascii) : bool :=
  IsLetter c || IsDigit c || bool_decide (c = "_"%char).

Definition ident_start (c : ascii) : bool := IsLetter c || bool_decide (c = "_"%char).

(** [parser.next]: the token at the head of the unread text, and the text
    after it. *)
Definition lex (src : string) : token * string :=
  match skip_space src with
  | EmptyString => (mkTok tokEOF EmptyString, EmptyString)
  | String c s' as s =>
      if bool_decide (c = "("%char) then (mkTok tokLParen "(", s')
      else if bool_decide (c = ")"%char) then (mkTok tokRParen ")", s')
      else if is_op c then (mkTok tokOp (String c EmptyString), s')
      else if num_char c then let (t, rest) := span num_char s in (mkTok tokNum t, rest)
      else if ident_start c then
        let (t, rest) := span ident_char s in (mkTok tokIdent t, rest)
      else (mkTok tokInvalid (String c EmptyString), s')
  end.

(** ** Parser *)

(** [unread] is [src[pos:]]; the [seen] maps hold the names of the lists. *)
Record parser := mkParser {
  unread : string;
  tok : token;
  refs : list string;
  scalarRefs : list string;
  numericRefs : list string }.

Definition next (p : parser) : parser :=
  let (t, rest) := lex (unread p) in
  mkParser rest t (refs p) (scalarRefs p) (numericRefs p).

(** Appends a name the first time it is seen. *)
Definition add_name (name : string) (l : list string) : list string :=
  if bool_decide (name ∈ l) then l else l ++ [name].

Definition recordRef (name : string) (bare : bool) (p : parser) : parser :=
  mkParser (unread p) (tok p) (add_name name (refs p))
    (if bare then add_name name (scalarRefs p) else scalarRefs p) (numericRefs p).

Definition recordNumericRef (name : string) (p : parser) : parser :=
  mkParser (unread p) (tok p) (refs p) (scalarRefs p) (add_name name (numericRefs p)).

Definition peekIsLParen (p : parser) : bool :=
  match skip_space (unread p) with
  | String c _ => bool_decide (c = "("%char)
  | EmptyString => false
  end.

Definition has_kind (k : tokKind) (p : parser) : bool := bool_decide (kind (tok p) = k).

Definition parseCall (fn : Aggregate) (p : parser) : result (node * parser) :=
  let p := next p in
  guard! negb (has_kind tokLParen p)
    else Errorf "the aggregate expects '(' followed by an attribute name" then
  let p := next p in
  guard! negb (has_kind tokIdent p)
    else Errorf "the aggregate expects a single attribute name" then
  let name := text (tok p) in
  guard! isSome (aggregates name) && peekIsLParen p
    else Errorf "the aggregate cannot aggregate another aggregate" then
  let p := recordRef name false p in
  let p := if bool_decide (fn = AggCount) then p else recordNumericRef name p in
  let p := next p in
  guard! negb (has_kind tokRParen p) else Errorf "expected ')' after the name" then
  Ok (aggNode fn name, next p).

(** The additive and multiplicative operator a token is, if any. *)
Definition add_op (t : token) : option BinOp :=
  if bool_decide (t = mkTok tokOp "+") then Some OpAdd
  else if bool_decide (t = mkTok tokOp "-") then Some OpSub else None.

Definition mul_op (t : token) : option BinOp :=
  if bool_decide (t = mkTok tokOp "*") then Some OpMul
  else if bool_decide (t = mkTok tokOp "/") then Some OpDiv else None.

(** A step that may run out of fuel or fail. *)
Definition step_bind {A B} (r : option (result A)) (k : A -> option (result B)) :
    option (result B) :=
  match r with
  | None => None
  | Some (Err e) => Some (Err e)
  | Some (Ok a) => k a
  end.

Fixpoint parseExpr (fuel : nat) (p : parser) : option (result (node * parser)) :=
  match fuel with
  | O => None
  | S fuel =>
      step_bind (parseTerm fuel p) (fun '(lhs, p) => exprLoop fuel lhs p)
  end
with exprLoop (fuel : nat) (lhs : node) (p : parser) : option (result (node * parser)) :=
  match fuel with
  | O => None
  | S fuel =>
      match add_op (tok p) with
      | Some op =>
          step_bind (parseTerm fuel (next p))
            (fun '(rhs, p) => exprLoop fuel (binNode op lhs rhs) p)
      | None => Some (Ok (lhs, p))
      end
  end
with parseTerm (fuel : nat) (p : parser) : option (result (node * parser)) :=
  match fuel with
  | O => None
  | S fuel =>
      step_bind (parseFactor fuel p) (fun '(lhs, p) => termLoop fuel lhs p)
  end
with termLoop (fuel : nat) (lhs : node) (p : parser) : option (result (node * parser)) :=
  match fuel with
  | O => None
  | S fuel =>
      match mul_op (tok p) with
      | Some op =>
          step_bind (parseFactor fuel (next p))
            (fun '(rhs, p) => termLoop fuel (binNode op lhs rhs) p)
      | None => Some (Ok (lhs, p))
      end
  end
with parseFactor (fuel : nat) (p : parser) : option (result (node * parser)) :=
  match fuel with
  | O => None
  | S fuel =>
      match kind (tok p) with
      | tokOp =>
          if bool_decide (text (tok p) = "-"%string) then
            step_bind (parseFactor fuel (next p))
              (fun '(inner, p) => Some (Ok (negNode inner, p)))
          else Some (Err (Errorf "unexpected operator"))
      | tokNum =>
          match ParseFloat (text (tok p)) with
          | Some f => Some (Ok (numNode f (text (tok p)), next p))
          | None => Some (Err (Errorf "invalid number"))
          end
      | tokIdent =>
          let name := text (tok p) in
          match aggregates name, peekIsLParen p with
          | Some fn, true => Some (parseCall fn p)
          | _, _ =>
              Some (Ok (refNode name, next (recordNumericRef name (recordRef name true p))))
          end
      | tokLParen =>
          step_bind (parseExpr fuel (next p)) (fun '(inner, p) =>
            if has_kind tokRParen p then Some (Ok (inner, next p))
            else Some (Err (Errorf "expected ')'")))
      | _ => Some (Err (Errorf "unexpected token in formula"))
      end
  end.

Record Expr := mkExpr {
  root : node; Refs : list string; ScalarRefs : list string; NumericRefs : list string }.

Definition parse_fuel (src : string) : nat := 4 * String.length src + 4.

Definition start (src : string) : parser :=
  next (mkParser src (mkTok tokEOF EmptyString) [] [] []).

Definition Parse (src : string) : option (result Expr) :=
  step_bind (parseExpr (parse_fuel src) (start src)) (fun '(root, p) =>
    if has_kind tokEOF p
    then Some (Ok (mkExpr root (refs p) (scalarRefs p) (numericRefs p)))
    else Some (Err (Errorf "unexpected token in formula"))).

Definition EvalWithMembers (e : Expr) (vars : Inputs) (members : Members) : option spec_float :=
  eval (root e) vars members.

Definition EvalRatWithMembers (e : Expr) (vars : RatInputs) (members : Members) : option Q :=
  evalRat (root e) vars members.

Example parse_precedence :
  (root <$> (match Parse "a - b - 2*c" with Some (Ok e) => Some e | _ => None end)) =
  Some (binNode OpSub (binNode OpSub (refNode "a") (refNode "b"))
    (binNode OpMul (numNode (S754_finite false 4503599627370496 (-51)) "2") (refNode "c"))).
Proof. reflexivity. Qed.

(** ** The parser terminates *)

Definition is_eof (t : token) : bool := match kind t with tokEOF => true | _ => false end.

(** The tokens still to come, at most. *)
Definition psize (p : parser) : nat :=
  String.length (unread p) + (if is_eof (tok p) then 0 else 1).

Lemma ident_start_char c : ident_start c = true -> ident_char c = true.
Proof. unfold ident_start, ident_char. by destruct (IsLetter c), (IsDigit c). Qed.

Lemma lex_size src t rest :
  lex src = (t, rest) ->
  (String.length rest + (if is_eof t then 0 else 1) <= String.length src)%nat.
Proof.
  pose proof (length_skip_space src) as Hs. unfold lex.
  destruct (skip_space src) as [|c s']; [by intros [= <- <-]|].
  cbn [String.length] in Hs.
  destruct (bool_decide (c = "("%char)); [intros [= <- <-]; cbn; lia|].
  destruct (bool_decide (c = ")"%char)); [intros [= <- <-]; cbn; lia|].
  destruct (is_op c); [intros [= <- <-]; cbn; lia|].
  destruct (num_char c) eqn:Hn.
  { destruct (span num_char (String c s')) as [a b] eqn:E. intros [= <- <-].
    apply (span_first _ _ _ _ _ Hn) in E. cbn. lia. }
  destruct (ident_start c) eqn:Hi; [|intros [= <- <-]; cbn; lia].
  destruct (span ident_char (String c s')) as [a b] eqn:E. intros [= <- <-].
  apply (span_first _ _ _ _ _ (ident_start_char _ Hi)) in E. cbn. lia.
Qed.

Lemma next_size p : (psize (next p) <= String.length (unread p))%nat.
Proof.
  unfold next. destruct (lex (unread p)) as [t rest] eqn:E. by apply lex_size in E.
Qed.

Lemma psize_not_eof p : is_eof (tok p) = false -> psize p = S (String.length (unread p)).
Proof. intros H. unfold psize. rewrite H. lia. Qed.

Lemma next_smaller p : is_eof (tok p) = false -> (psize (next p) < psize p)%nat.
Proof. intros H. rewrite (psize_not_eof p) by done. pose proof (next_size p). lia. Qed.

Lemma next_le p : (psize (next p) <= psize p)%nat.
Proof. pose proof (next_size p). unfold psize at 2. lia. Qed.

Lemma has_kind_not_eof k p : has_kind k p = true -> k <> tokEOF -> is_eof (tok p) = false.
Proof.
  unfold has_kind, is_eof. rewrite bool_decide_eq_true. intros ->. by destruct k.
Qed.

Lemma add_op_not_eof t op : add_op t = Some op -> is_eof t = false.
Proof. unfold add_op. repeat case_bool_decide; intros [=]; by subst. Qed.

Lemma mul_op_not_eof t op : mul_op t = Some op -> is_eof t = false.
Proof. unfold mul_op. repeat case_bool_decide; intros [=]; by subst. Qed.

(** A step that does not run out of fuel, and leaves at most [n] tokens. *)
Definition finishes (n : nat) (r : option (result (node * parser))) : Prop :=
  exists x, r = Some x /\ forall e p, x = Ok (e, p) -> (psize p <= n)%nat.

Lemma finishes_ret n e p : (psize p <= n)%nat -> finishes n (Some (Ok (e, p))).
Proof. intros H. eexists. split; [done|]. by intros ? ? [= <- <-]. Qed.

Lemma finishes_err n e : finishes n (Some (Err e)).
Proof. by eexists. Qed.

Lemma finishes_bind n m r k :
  finishes n r -> (forall e p, (psize p <= n)%nat -> finishes m (k (e, p))) ->
  finishes m (step_bind r k).
Proof.
  intros (x & -> & Hx) Hk. destruct x as [[e p]|e]; simpl; [|apply finishes_err].
  apply Hk. by eapply Hx.
Qed.

Lemma psize_recordRef name bare p : psize (recordRef name bare p) = psize p.
Proof. done. Qed.

Lemma psize_recordNumericRef name p : psize (recordNumericRef name p) = psize p.
Proof. done. Qed.

Lemma parseCall_finishes fn p m :
  is_eof (tok p) = false -> (psize p <= S m)%nat -> finishes m (Some (parseCall fn p)).
Proof.
  intros Hp Hm. unfold parseCall.
  repeat (match goal with |- finishes _ (Some (if ?b then _ else _)) =>
    let E := fresh "E" in destruct b eqn:E; [apply finishes_err|] end).
  breflect. apply finishes_ret.
  repeat match goal with
  | H : has_kind ?k ?q = true |- _ => apply has_kind_not_eof in H; [|done]
  end.
  set (p1 := next p) in *. set (p2 := next p1) in *.
  match goal with |- (psize (next (next ?q)) <= _)%nat =>
    assert (psize q = psize p2) as Hq by (by case_match);
    pose proof (next_le q); pose proof (next_le (next q)) end.
  pose proof (next_smaller p Hp) as H1. fold p1 in H1.
  pose proof (next_le p1) as H2. fold p2 in H2. lia.
Qed.

Lemma parse_finishes fuel :
  (forall p, (4 * psize p + 3 <= fuel)%nat -> finishes (psize p) (parseExpr fuel p)) /\
  (forall lhs p, (4 * psize p + 1 <= fuel)%nat -> finishes (psize p) (exprLoop fuel lhs p)) /\
  (forall p, (4 * psize p + 2 <= fuel)%nat -> finishes (psize p) (parseTerm fuel p)) /\
  (forall lhs p, (4 * psize p + 1 <= fuel)%nat -> finishes (psize p) (termLoop fuel lhs p)) /\
  (forall p, (4 * psize p + 1 <= fuel)%nat -> finishes (psize p) (parseFactor fuel p)).
Proof.
  induction fuel as [|fuel (IHe & IHel & IHt & IHtl & IHf)].
  { split_and!; intros; lia. }
  assert (Hmono : forall m n r, finishes m r -> (m <= n)%nat -> finishes n r).
  { intros m n r (x & -> & Hx) Hl. exists x. split; [done|].
    intros e p ->. specialize (Hx e p eq_refl). lia. }
  split_and!.
  - intros p Hf. cbn [parseExpr]. eapply finishes_bind; [apply IHt; lia|].
    intros e q Hq. eapply Hmono; [apply IHel; lia|lia].
  - intros lhs p Hf. cbn [exprLoop]. destruct (add_op (tok p)) as [op|] eqn:Hop.
    + pose proof (next_smaller p (add_op_not_eof _ _ Hop)).
      eapply finishes_bind; [apply IHt; lia|].
      intros e q Hq. eapply Hmono; [apply IHel; lia|lia].
    + by apply finishes_ret.
  - intros p Hf. cbn [parseTerm]. eapply finishes_bind; [apply IHf; lia|].
    intros e q Hq. eapply Hmono; [apply IHtl; lia|lia].
  - intros lhs p Hf. cbn [termLoop]. destruct (mul_op (tok p)) as [op|] eqn:Hop.
    + pose proof (next_smaller p (mul_op_not_eof _ _ Hop)).
      eapply finishes_bind; [apply IHf; lia|].
      intros e q Hq. eapply Hmono; [apply IHtl; lia|lia].
    + by apply finishes_ret.
  - intros p Hf. cbn [parseFactor].
    assert (Hn : is_eof (tok p) = false -> (psize (next p) < psize p)%nat)
      by apply next_smaller.
    assert (Hc : forall fn, is_eof (tok p) = false -> finishes (psize p) (Some (parseCall fn p))).
    { intros fn He. apply parseCall_finishes; [done|lia]. }
    unfold is_eof in Hn, Hc.
    destruct (kind (tok p)); try apply finishes_err; specialize (Hn eq_refl).
    + destruct (ParseFloat _); [apply finishes_ret; lia|apply finishes_err].
    + assert (finishes (psize p) (Some (Ok (refNode (text (tok p)),
        next (recordNumericRef (text (tok p)) (recordRef (text (tok p)) true p)))))) as Hr.
      { apply finishes_ret. exact (next_le (recordNumericRef _ _)). }
      destruct (aggregates _) as [fn|], (peekIsLParen p); auto.
    + case_match; [|apply finishes_err].
      eapply finishes_bind; [apply IHf; lia|].
      intros e q Hq. apply finishes_ret. lia.
    + eapply finishes_bind; [apply IHe; lia|].
      intros e q Hq. case_match; [|apply finishes_err].
      apply finishes_ret. pose proof (next_le q). lia.
Qed.

(** C34: [Parse] terminates on every input: the recursive descent never runs out
    of the fuel [parse_fuel], it returns an expression or a syntax error. *)
Theorem parse_terminates src : exists r, Parse src = Some r.
Proof.
  unfold Parse, parse_fuel.
  assert (psize (start src) <= String.length src)%nat as Hs by apply next_size.
  destruct (proj1 (parse_finishes (4 * String.length src + 4)) (start src) ltac:(lia))
    as (x & Hx & _).
  rewrite Hx. destruct x as [[e p]|e]; simpl; [case_match|]; by eexists.
Qed.

(** ** The names a formula records *)

(** The names a tree reads, in order: all, bare, and folded as numbers. *)
Fixpoint names (e : node) : list string :=
  match e with
  | numNode _ _ => []
  | refNode x => [x]
  | aggNode _ x => [x]
  | binNode _ l r => names l ++ names r
  | negNode e => names e
  end.

Fixpoint bare_names (e : node) : list string :=
  match e with
  | numNode _ _ | aggNode _ _ => []
  | refNode x => [x]
  | binNode _ l r => bare_names l ++ bare_names r
  | negNode e => bare_names e
  end.

Fixpoint numeric_names (e : node) : list string :=
  match e with
  | numNode _ _ => []
  | refNode x => [x]
  | aggNode fn x => if bool_decide (fn = AggCount) then [] else [x]
  | binNode _ l r => numeric_names l ++ numeric_names r
  | negNode e => numeric_names e
  end.

(** Adds names one by one, each the first time it is seen. *)
Definition add_names (xs l : list string) : list string :=
  fold_left (fun l x => add_name x l) xs l.

Lemma add_names_app xs ys l : add_names (xs ++ ys) l = add_names ys (add_names xs l).
Proof. apply fold_left_app. Qed.

(** [p'] is [p] after reading the tree [e], as far as names go. *)
Definition records (e : node) (p p' : parser) : Prop :=
  refs p' = add_names (names e) (refs p) /\
  scalarRefs p' = add_names (bare_names e) (scalarRefs p) /\
  numericRefs p' = add_names (numeric_names e) (numericRefs p).

Lemma next_names p :
  refs (next p) = refs p /\ scalarRefs (next p) = scalarRefs p /\
  numericRefs (next p) = numericRefs p.
Proof. unfold next. by destruct (lex (unread p)). Qed.

Lemma records_next_l e p p' : records e (next p) p' <-> records e p p'.
Proof. unfold records. by destruct (next_names p) as (-> & -> & ->). Qed.

Lemma records_next_r e p p' : records e p (next p') <-> records e p p'.
Proof. unfold records. by destruct (next_names p') as (-> & -> & ->). Qed.

Lemma records_bin op l r p q q' :
  records l p q -> records r q q' -> records (binNode op l r) p q'.
Proof.
  unfold records. simpl. rewrite !add_names_app.
  intros (-> & -> & ->) (-> & -> & ->). done.
Qed.

Lemma parseCall_records fn p e p' :
  parseCall fn p = Ok (e, p') -> records e p p'.
Proof.
  unfold parseCall. intros H. res_inv.
  rewrite records_next_r, records_next_r.
  do 2 rewrite <- records_next_l. unfold records. simpl.
  by case_bool_decide.
Qed.

(** Every literal of a parsed tree carries the float its text denotes. *)
Fixpoint literals_ok (e : node) : Prop :=
  match e with
  | numNode f t => ParseFloat t = Some f
  | refNode _ | aggNode _ _ => True
  | binNode _ l r => literals_ok l /\ literals_ok r
  | negNode e => literals_ok e
  end.

Lemma step_bind_ok {A B} (r : option (result A)) (k : A -> option (result B)) b :
  step_bind r k = Some (Ok b) <-> exists a, r = Some (Ok a) /\ k a = Some (Ok b).
Proof.
  destruct r as [[a|e]|]; simpl; split.
  - eauto.
  - intros (a' & [= ->] & H); exact H.
  - discriminate.
  - intros (a' & H & _); discriminate.
  - discriminate.
  - intros (a' & H & _); discriminate.
Qed.

(** What a successful step guarantees of the tree it returns. *)
Definition parsed (p : parser) (e : node) (p' : parser) : Prop :=
  records e p p' /\ literals_ok e.

Lemma parsed_bin op l r p q q' :
  parsed p l q -> parsed (next q) r q' -> parsed p (binNode op l r) q'.
Proof.
  intros [Hl Hol] [Hr Hor]. split; [|done].
  eapply records_bin; [exact Hl|]. by apply records_next_l.
Qed.

Lemma parse_parsed fuel :
  (forall p e p', parseExpr fuel p = Some (Ok (e, p')) -> parsed p e p') /\
  (forall p0 lhs p e p', parsed p0 lhs p ->
     exprLoop fuel lhs p = Some (Ok (e, p')) -> parsed p0 e p') /\
  (forall p e p', parseTerm fuel p = Some (Ok (e, p')) -> parsed p e p') /\
  (forall p0 lhs p e p', parsed p0 lhs p ->
     termLoop fuel lhs p = Some (Ok (e, p')) -> parsed p0 e p') /\
  (forall p e p', parseFactor fuel p = Some (Ok (e, p')) -> parsed p e p').
Proof.
  induction fuel as [|fuel (IHe & IHel & IHt & IHtl & IHf)]; [by split_and!|].
  split_and!.
  - intros p e p'. cbn [parseExpr]. rewrite step_bind_ok. intros ([l q] & H1 & H2). eauto.
  - intros p0 lhs p e p' Hl. cbn [exprLoop]. destruct (add_op (tok p)) as [op|].
    + rewrite step_bind_ok. intros ([r q] & H1 & H2).
      eapply IHel; [|exact H2]. eauto using parsed_bin.
    + by intros [= <- <-].
  - intros p e p'. cbn [parseTerm]. rewrite step_bind_ok. intros ([l q] & H1 & H2). eauto.
  - intros p0 lhs p e p' Hl. cbn [termLoop]. destruct (mul_op (tok p)) as [op|].
    + rewrite step_bind_ok. intros ([r q] & H1 & H2).
      eapply IHtl; [|exact H2]. eauto using parsed_bin.
    + by intros [= <- <-].
  - intros p e p'. cbn [parseFactor].
    assert (Hr : Some (Ok (refNode (text (tok p)),
        next (recordNumericRef (text (tok p)) (recordRef (text (tok p)) true p)))) =
        Some (Ok (e, p')) -> parsed p e p').
    { intros [= <- <-]. split; [|done]. by rewrite records_next_r. }
    destruct (kind (tok p)); try discriminate.
    + destruct (ParseFloat _) as [f|] eqn:Hf; [|discriminate]. intros [= <- <-].
      split; [by rewrite records_next_r|done].
    + assert (Hc : forall fn, Some (parseCall fn p) = Some (Ok (e, p')) -> parsed p e p').
      { intros fn [= H]. split; [by eapply parseCall_records|].
        unfold parseCall in H. by res_inv. }
      destruct (aggregates _), (peekIsLParen p); eauto.
    + case_bool_decide; [|discriminate].
      rewrite step_bind_ok. intros ([r q] & H1 & [= <- <-]).
      apply IHf in H1 as [H1 H2]. split; [by rewrite <- records_next_l|done].
    + rewrite step_bind_ok. intros ([r q] & H1 & H2).
      case_match; [|discriminate]. injection H2 as <- <-.
      apply IHe in H1 as [H1 H2]. split; [|done].
      by rewrite records_next_r, <- records_next_l.
Qed.

Lemma bare_names_names e x : x ∈ bare_names e -> x ∈ names e.
Proof. induction e; simpl; rewrite ?elem_of_app; set_solver. Qed.

Lemma numeric_names_names e x : x ∈ numeric_names e -> x ∈ names e.
Proof.
  induction e as [|y|fn y|op l IHl r IHr|e IH]; cbn [numeric_names names];
    rewrite ?elem_of_app; try naive_solver.
  case_bool_decide; [|done]. by intros ?%elem_of_nil.
Qed.

Lemma elem_of_add_name x y l : x ∈ add_name y l <-> x = y \/ x ∈ l.
Proof. unfold add_name. case_bool_decide; set_solver. Qed.

Lemma elem_of_add_names x ys l : x ∈ add_names ys l <-> x ∈ ys \/ x ∈ l.
Proof.
  revert l. induction ys as [|y ys IH]; intros l; simpl; [set_solver|].
  rewrite IH, elem_of_add_name. set_solver.
Qed.

Lemma NoDup_add_names ys l : NoDup l -> NoDup (add_names ys l).
Proof.
  revert l. induction ys as [|y ys IH]; intros l Hl; simpl; [done|].
  apply IH. unfold add_name. case_bool_decide; [done|].
  apply list.NoDup_app. split_and!; [done|set_solver|apply NoDup_singleton].
Qed.

Lemma Parse_root src e :
  Parse src = Some (Ok e) ->
  literals_ok (root e) /\
  Refs e = add_names (names (root e)) [] /\
  ScalarRefs e = add_names (bare_names (root e)) [] /\
  NumericRefs e = add_names (numeric_names (root e)) [].
Proof.
  unfold Parse. rewrite step_bind_ok. intros ([n p] & H1 & H2).
  case_match; [|discriminate]. injection H2 as <-.
  apply (proj1 (parse_parsed _)) in H1 as [(E1 & E2 & E3) Hl]. simpl.
  unfold start in *. destruct (next_names (mkParser src (mkTok tokEOF EmptyString) [] [] []))
    as (F1 & F2 & F3).
  rewrite E1, E2, E3, F1, F2, F3. done.
Qed.

(** The names a parsed formula reports are exactly those of its tree, each
    once: [Refs] every name it reads, [ScalarRefs] the names read bare,
    [NumericRefs] the names whose values must be numbers, so a name read only
    by [count] is in [Refs] alone. *)
Theorem formula_refs_exact src e :
  Parse src = Some (Ok e) ->
  NoDup (Refs e) /\ NoDup (ScalarRefs e) /\ NoDup (NumericRefs e) /\
  (forall x, x ∈ Refs e <-> x ∈ names (root e)) /\
  (forall x, x ∈ ScalarRefs e <-> x ∈ bare_names (root e)) /\
  (forall x, x ∈ NumericRefs e <-> x ∈ numeric_names (root e)) /\
  (forall x, x ∈ ScalarRefs e \/ x ∈ NumericRefs e -> x ∈ Refs e).
Proof.
  intros (_ & -> & -> & ->)%Parse_root.
  split_and!; try (apply NoDup_add_names, NoDup_nil_2);
    intros x; rewrite !elem_of_add_names; try set_solver.
  pose proof (bare_names_names (root e) x). pose proof (numeric_names_names (root e) x).
  tauto.
Qed.
