(* ===== verification/FormulaPrint.v ===== *)
(** Printing formulas and reading them back.

    [tokens] prints a syntax tree with the parentheses its operators need and
    no others; [render] turns tokens into text.  [parse_print] shows that
    [Formula.Parse] inverts the printer, which fixes the precedence and the
    left associativity of the grammar. *)

From Stdlib Require Import ZArith Lia String Ascii List QArith SpecFloat.
From stdpp Require Import base tactics list gmap strings option decidable.
From S2P Require Import Prelude GoText Formula.

Open Scope Z_scope.

(** ** The printer *)

Definition op_text (op : BinOp) : string :=
  match op with OpAdd => "+" | OpSub => "-" | OpMul => "*" | OpDiv => "/" end.

Definition additive (op : BinOp) : bool :=
  match op with OpAdd | OpSub => true | _ => false end.

(** Where an expression stands: a sum accepts every operator, a product only
    multiplicative ones, a factor none. *)
Inductive level := LSum | LProduct | LFactor.

Definition needs_parens (lv : level) (op : BinOp) : bool :=
  match lv with LSum => false | LProduct => additive op | LFactor => true end.

Definition sub_levels (op : BinOp) : level * level :=
  if additive op then (LSum, LProduct) else (LProduct, LFactor).

Definition optok (op : BinOp) : token := mkTok tokOp (op_text op).
Definition lparen : token := mkTok tokLParen "(".
Definition rparen : token := mkTok tokRParen ")".
Definition ident (x : string) : token := mkTok tokIdent x.

Fixpoint tokens (lv : level) (e : node) : list token :=
  match e with
  | numNode _ t => [mkTok tokNum t]
  | refNode x => [ident x]
  | aggNode fn x => [ident (aggregate_name fn); lparen; ident x; rparen]
  | negNode e => mkTok tokOp "-" :: tokens LFactor e
  | binNode op l r =>
      let body := tokens (fst (sub_levels op)) l ++ optok op :: tokens (snd (sub_levels op)) r in
      if needs_parens lv op then lparen :: body ++ [rparen] else body
  end.

Fixpoint render (ts : list token) : string :=
  match ts with
  | [] => EmptyString
  | t :: ts => String.append (text t) (String " " (render ts))
  end.

(** ** What can be printed *)

Definition valid_name (s : string) : bool :=
  match s with
  | EmptyString => false
  | String c _ => ident_start c && all_bytes ident_char s
  end.

Fixpoint printable (e : node) : Prop :=
  match e with
  | numNode f t => ParseFloat t = Some f
  | refNode x | aggNode _ x => valid_name x = true
  | binNode _ l r => printable l /\ printable r
  | negNode e => printable e
  end.

(** Tokens the lexer reads back. *)
Definition valid_token (t : token) : Prop :=
  match kind t with
  | tokNum => exists c s, text t = String c s /\ all_bytes num_char (text t) = true
  | tokIdent => valid_name (text t) = true
  | tokOp => exists c, text t = String c EmptyString /\ is_op c = true
  | tokLParen => text t = "("%string
  | tokRParen => text t = ")"%string
  | _ => False
  end.

Lemma digits_num_char n k s m j rest :
  digits n k s = (m, j, rest) ->
  exists a, s = String.append a rest /\ all_bytes IsDigit a = true /\
    (j = k + String.length a)%nat.
Proof.
  revert n k. induction s as [|c s IH]; intros n k; simpl.
  - intros [= <- <- <-]. exists EmptyString. split_and!; [done|done|simpl; lia].
  - unfold digit. destruct (IsDigit c) eqn:Hd.
    + intros H. apply IH in H as (a & -> & Ha & ->).
      exists (String c a). simpl. rewrite Hd, Ha. split_and!; [done|done|lia].
    + intros [= <- <- <-]. exists EmptyString. split_and!; [done|done|simpl; lia].
Qed.

Lemma numeral_chars t m k :
  numeral t = Some (m, k) -> t <> EmptyString /\ all_bytes num_char t = true.
Proof.
  assert (Hd : forall a, all_bytes IsDigit a = true -> all_bytes num_char a = true).
  { intros a. apply all_bytes_impl. intros c H. unfold num_char. by rewrite H. }
  unfold numeral. destruct (digits 0 0 t) as [[i n] rest] eqn:E1.
  apply digits_num_char in E1 as (a & -> & Ha & Hn).
  rewrite all_bytes_app, (Hd a Ha).
  destruct n as [|n].
  - destruct a; [|discriminate]. simpl.
    destruct rest as [|c rest]; [discriminate|].
    intros H. split; [done|]. revert H.
    repeat (case_match; try discriminate). intros [= <- <-]. subst.
    match goal with E : digits _ _ _ = _ |- _ =>
      apply digits_num_char in E as (b & -> & Hb & _) end.
    rewrite append_nil_r. simpl. by rewrite (Hd b Hb).
  - destruct a; [discriminate|]. intros H. split; [done|]. revert H.
    destruct rest as [|c rest]; [done|].
    repeat (case_match; try discriminate). intros [= <- <-]. subst.
    match goal with E : digits _ _ _ = _ |- _ =>
      apply digits_num_char in E as (b & -> & Hb & _) end.
    rewrite append_nil_r. simpl. by rewrite (Hd b Hb).
Qed.

Lemma ParseFloat_numeral t f : ParseFloat t = Some f -> exists m k, numeral t = Some (m, k).
Proof. unfold ParseFloat. intros ([m k] & H & _)%bind_Some. eauto. Qed.

Lemma tokens_valid lv e : printable e -> Forall valid_token (tokens lv e).
Proof.
  revert lv. induction e as [f t|x|fn x|op l IHl r IHr|e IH]; intros lv; cbn [printable tokens].
  - intros (m & k & H)%ParseFloat_numeral. apply numeral_chars in H as [Hne Hc].
    constructor; [|done]. destruct t as [|c s]; [done|]. by exists c, s.
  - intros H. by constructor.
  - intros H. repeat constructor; try done. by destruct fn.
  - intros [Hl Hr].
    assert (Forall valid_token (tokens (fst (sub_levels op)) l ++
      optok op :: tokens (snd (sub_levels op)) r)) as Hb.
    { apply Forall_app. split; [auto|]. constructor; [|auto].
      destruct op; by eexists. }
    case_match; [|done]. constructor; [done|]. apply Forall_app. split; [done|].
    by repeat constructor.
  - intros H. constructor; [by eexists|auto].
Qed.

(** ** The lexer reads a rendered token back *)

Lemma num_char_class c :
  num_char c = true ->
  IsSpace c = false /\ is_op c = false /\ c <> "("%char /\ c <> ")"%char.
Proof.
  pose proof (ascii_forall (fun c => implb (num_char c)
    (bool_decide (IsSpace c = false /\ is_op c = false /\ c <> "("%char /\ c <> ")"%char)))
    eq_refl c) as H. simpl in H. intros Hc. rewrite Hc in H. by apply bool_decide_eq_true in H.
Qed.

Lemma ident_start_class c :
  ident_start c = true ->
  IsSpace c = false /\ is_op c = false /\ num_char c = false /\ c <> "("%char /\ c <> ")"%char.
Proof.
  pose proof (ascii_forall (fun c => implb (ident_start c)
    (bool_decide (IsSpace c = false /\ is_op c = false /\ num_char c = false /\
       c <> "("%char /\ c <> ")"%char)))
    eq_refl c) as H. simpl in H. intros Hc. rewrite Hc in H. by apply bool_decide_eq_true in H.
Qed.

Lemma lex_token t s :
  valid_token t -> lex (String.append (text t) (String " " s)) = (t, String " " s).
Proof.
  destruct t as [k x]. unfold valid_token. cbn [kind text]. destruct k; try done.
  - intros (c & a & -> & Ha). pose proof Ha as Hc. simpl in Hc.
    apply andb_true_iff in Hc as [Hc _].
    destruct (num_char_class c Hc) as (Hs & Ho & Hl & Hr).
    pose proof (span_all num_char _ (String " " s) Ha eq_refl) as Hsp. revert Hsp.
    change (String.append (String c a) (String " " s))
      with (String c (String.append a (String " " s))). intros Hsp.
    unfold lex. cbn [skip_space]. rewrite Hs, !bool_decide_eq_false_2, Ho, Hc by done.
    by rewrite Hsp.
  - unfold valid_name. destruct x as [|c a]; [done|]. intros [Hc Ha]%andb_true_iff.
    destruct (ident_start_class c Hc) as (Hs & Ho & Hn & Hl & Hr).
    pose proof (span_all ident_char _ (String " " s) Ha eq_refl) as Hsp. revert Hsp.
    change (String.append (String c a) (String " " s))
      with (String c (String.append a (String " " s))). intros Hsp.
    unfold lex. cbn [skip_space]. rewrite Hs, !bool_decide_eq_false_2, Ho, Hn, Hc by done.
    by rewrite Hsp.
  - intros (c & -> & Hc). unfold is_op in Hc.
    rewrite !orb_true_iff, !bool_decide_eq_true in Hc.
    by destruct Hc as [[[->| ->]| ->]| ->].
  - by intros ->.
  - by intros ->.
Qed.

Lemma valid_token_text t : valid_token t -> exists c s, text t = String c s /\ IsSpace c = false.
Proof.
  destruct t as [k x]. unfold valid_token. cbn [kind text]. destruct k; try done.
  - intros (c & s & -> & Ha). apply andb_true_iff in Ha as [Hc _].
    exists c, s. split; [done|]. by apply num_char_class.
  - unfold valid_name. destruct x as [|c a]; [done|]. intros [Hc _]%andb_true_iff.
    exists c, a. split; [done|]. by apply ident_start_class.
  - intros (c & -> & Hc). exists c, EmptyString. split; [done|].
    unfold is_op in Hc. rewrite !orb_true_iff, !bool_decide_eq_true in Hc.
    by destruct Hc as [[[->| ->]| ->]| ->].
  - intros ->. by eexists _, _.
  - intros ->. by eexists _, _.
Qed.

Lemma skip_render ts : Forall valid_token ts -> skip_space (render ts) = render ts.
Proof.
  destruct ts as [|t ts]; [done|]. intros [Ht _]%Forall_cons_iff.
  apply valid_token_text in Ht as (c & s & Ht & Hs). cbn [render]. rewrite Ht.
  change (skip_space (String c (String.append s (String " " (render ts)))) =
    String c (String.append s (String " " (render ts)))).
  cbn [skip_space]. by rewrite Hs.
Qed.

(** The parser state stands in front of the tokens [ts]. *)
Definition stream (p : parser) (ts : list token) : Prop :=
  Forall valid_token ts /\
  match ts with
  | [] => kind (tok p) = tokEOF /\ skip_space (unread p) = EmptyString
  | t :: ts => tok p = t /\ skip_space (unread p) = render ts
  end.

Lemma lex_skip s : lex s = lex (skip_space s).
Proof.
  unfold lex. replace (skip_space (skip_space s)) with (skip_space s); [done|].
  induction s as [|c s IH]; simpl; [done|]. destruct (IsSpace c) eqn:E; [done|].
  simpl. by rewrite E.
Qed.

Lemma skip_blank s : skip_space (String " " s) = skip_space s.
Proof. done. Qed.

Lemma stream_render p ts :
  Forall valid_token ts -> skip_space (unread p) = render ts -> stream (next p) ts.
Proof.
  intros Hv Hu. unfold next. rewrite lex_skip, Hu. split; [done|].
  destruct ts as [|t ts]; [done|].
  apply Forall_cons_iff in Hv as [Ht Hts]. cbn [render].
  rewrite lex_token by done. cbn [tok unread]. split; [done|].
  by rewrite skip_blank, skip_render.
Qed.

Lemma stream_next p t ts : stream p (t :: ts) -> stream (next p) ts.
Proof. intros [[_ Hv]%Forall_cons_iff [_ Hu]]. by apply stream_render. Qed.

Lemma stream_tok p t ts : stream p (t :: ts) -> tok p = t.
Proof. by intros [_ [? _]]. Qed.

(** The names recorded along the way do not matter. *)
Lemma stream_same p q ts :
  tok p = tok q -> unread p = unread q -> stream p ts -> stream q ts.
Proof. unfold stream. by intros -> ->. Qed.

(** [peekIsLParen] looks at the next token. *)
Definition head_lparen (ts : list token) : bool :=
  match ts with t :: _ => bool_decide (t = lparen) | [] => false end.

Lemma peek_head p t ts : stream p (t :: ts) -> peekIsLParen p = head_lparen ts.
Proof.
  intros [[_ Hv]%Forall_cons_iff [_ Hu]]. unfold peekIsLParen. rewrite Hu.
  destruct ts as [|u ts]; [done|]. apply Forall_cons_iff in Hv as [Hu' _].
  cbn [render head_lparen]. destruct u as [k x]. unfold valid_token in Hu'.
  cbn [kind text] in *. unfold lparen. destruct k; try done.
  - destruct Hu' as (c & s & -> & Ha). apply andb_true_iff in Ha as [Hc _].
    apply num_char_class in Hc as (_ & _ & Hc & _).
    change (bool_decide (c = "("%char) =
      bool_decide (mkTok tokNum (String c s) = mkTok tokLParen "(")).
    by rewrite !bool_decide_eq_false_2.
  - unfold valid_name in Hu'. destruct x as [|c s]; [done|].
    apply andb_true_iff in Hu' as [Hc _].
    apply ident_start_class in Hc as (_ & _ & _ & Hc & _).
    change (bool_decide (c = "("%char) =
      bool_decide (mkTok tokIdent (String c s) = mkTok tokLParen "(")).
    by rewrite !bool_decide_eq_false_2.
  - destruct Hu' as (c & -> & Hc). unfold is_op in Hc.
    rewrite !orb_true_iff, !bool_decide_eq_true in Hc.
    by destruct Hc as [[[->| ->]| ->]| ->].
  - by subst.
  - by subst.
Qed.

(** ** Enough fuel *)

Definition converges {A} (f : nat -> option (result A)) (x : A) : Prop :=
  exists n, forall m, (n <= m)%nat -> f m = Some (Ok x).

Lemma converges_step {A} (f g : nat -> option (result A)) x :
  (forall n, f (S n) = g n) -> converges g x -> converges f x.
Proof.
  intros Hfg [n Hn]. exists (S n). intros [|m] Hm; [lia|]. rewrite Hfg. apply Hn. lia.
Qed.

Lemma converges_ret {A} (f : nat -> option (result A)) x :
  (forall n, f (S n) = Some (Ok x)) -> converges f x.
Proof. intros H. exists 1%nat. intros [|m] Hm; [lia|]. apply H. Qed.

Lemma converges_bind {A B} (f : nat -> option (result A)) (k : nat -> A -> option (result B)) a b :
  converges f a -> converges (fun n => k n a) b ->
  converges (fun n => step_bind (f n) (k n)) b.
Proof.
  intros [n Hn] [m Hm]. exists (n + m)%nat. intros i Hi.
  rewrite Hn by lia. simpl. apply Hm. lia.
Qed.

(** ** Parsing what was printed *)

Definition head_add (ts : list token) : option BinOp :=
  match ts with t :: _ => add_op t | [] => None end.
Definition head_mul (ts : list token) : option BinOp :=
  match ts with t :: _ => mul_op t | [] => None end.

Lemma stream_add p ts : stream p ts -> add_op (tok p) = head_add ts.
Proof.
  intros [_ H]. destruct ts as [|t ts]; simpl.
  - destruct H as [H _]. destruct (tok p) as [k x]. simpl in H. by subst.
  - by destruct H as [-> _].
Qed.

Lemma stream_mul p ts : stream p ts -> mul_op (tok p) = head_mul ts.
Proof.
  intros [_ H]. destruct ts as [|t ts]; simpl.
  - destruct H as [H _]. destruct (tok p) as [k x]. simpl in H. by subst.
  - by destruct H as [-> _].
Qed.

(** From [p] in front of a printed factor, product or sum, the parser reads it
    and carries on from the tokens that follow: a factor is returned, a product
    or a sum becomes the accumulator of its loop. *)
Definition reads_factor (e : node) : Prop :=
  forall p ts, stream p (tokens LFactor e ++ ts) -> head_lparen ts = false ->
  exists q, stream q ts /\ converges (fun n => parseFactor n p) (e, q).

Definition reads_product (e : node) : Prop :=
  forall p ts, stream p (tokens LProduct e ++ ts) -> head_lparen ts = false ->
  exists q, stream q ts /\
    forall r, converges (fun n => termLoop n e q) r -> converges (fun n => parseTerm n p) r.

Definition reads_sum (e : node) : Prop :=
  forall p ts, stream p (tokens LSum e ++ ts) -> head_lparen ts = false ->
  head_mul ts = None ->
  exists q, stream q ts /\
    forall r, converges (fun n => exprLoop n e q) r -> converges (fun n => parseExpr n p) r.

Lemma termLoop_stop e q ts :
  stream q ts -> head_mul ts = None -> converges (fun n => termLoop n e q) (e, q).
Proof.
  intros Hq Hm. apply converges_ret. intros n. cbn [termLoop].
  by rewrite (stream_mul _ _ Hq), Hm.
Qed.

Lemma exprLoop_stop e q ts :
  stream q ts -> head_add ts = None -> converges (fun n => exprLoop n e q) (e, q).
Proof.
  intros Hq Hm. apply converges_ret. intros n. cbn [exprLoop].
  by rewrite (stream_add _ _ Hq), Hm.
Qed.

Lemma factor_product e :
  tokens LProduct e = tokens LFactor e -> reads_factor e -> reads_product e.
Proof.
  intros Ht Hf p ts Hp Hl. rewrite Ht in Hp. destruct (Hf p ts Hp Hl) as (q & Hq & Hc).
  exists q. split; [done|]. intros r Hr.
  eapply converges_step; [intros n; reflexivity|].
  exact (converges_bind _ (fun n '(lhs, p) => termLoop n lhs p) _ _ Hc Hr).
Qed.

Lemma product_sum e :
  tokens LSum e = tokens LProduct e -> reads_product e -> reads_sum e.
Proof.
  intros Ht Hf p ts Hp Hl Hm. rewrite Ht in Hp. destruct (Hf p ts Hp Hl) as (q & Hq & Hc).
  exists q. split; [done|]. intros r Hr.
  eapply converges_step; [intros n; reflexivity|].
  refine (converges_bind _ (fun n '(lhs, p) => exprLoop n lhs p) (e, q) _ _ Hr).
  apply Hc. by eapply termLoop_stop.
Qed.

(** A sum in parentheses is a factor. *)
Lemma sum_factor e :
  tokens LFactor e = lparen :: tokens LSum e ++ [rparen] -> reads_sum e -> reads_factor e.
Proof.
  intros Ht Hs p ts Hp _. rewrite Ht in Hp. cbn [app] in Hp.
  rewrite <- app_assoc in Hp. pose proof (stream_tok _ _ _ Hp) as Htok.
  destruct (Hs (next p) ([rparen] ++ ts) (stream_next _ _ _ Hp) eq_refl eq_refl)
    as (q & Hq & Hc).
  exists (next q). split; [by eapply stream_next|].
  eapply converges_step; [intros n; cbn [parseFactor]; by rewrite Htok|].
  refine (converges_bind _ (fun _ '(inner, p) =>
    if has_kind tokRParen p then Some (Ok (inner, next p))
    else Some (Err (Errorf "expected ')'"))) (e, q) _ _ _).
  - apply Hc. by eapply exprLoop_stop.
  - apply converges_ret. intros _. unfold has_kind. by rewrite (stream_tok _ _ _ Hq).
Qed.

Lemma num_factor f t : ParseFloat t = Some f -> reads_factor (numNode f t).
Proof.
  intros Hf p ts Hp _. cbn [tokens app] in Hp. exists (next p).
  split; [by eapply stream_next|]. apply converges_ret. intros n. cbn [parseFactor].
  rewrite (stream_tok _ _ _ Hp). cbn [kind text]. by rewrite Hf.
Qed.

Lemma ref_factor x : reads_factor (refNode x).
Proof.
  intros p ts Hp Hl. cbn [tokens app] in Hp.
  exists (next (recordNumericRef x (recordRef x true p))). split.
  - eapply stream_next, stream_same, Hp; done.
  - apply converges_ret. intros n. cbn [parseFactor].
    rewrite (peek_head _ _ _ Hp), Hl, (stream_tok _ _ _ Hp). cbn [kind text ident].
    by destruct (aggregates x).
Qed.

Lemma aggregates_name fn : aggregates (aggregate_name fn) = Some fn.
Proof. by destruct fn. Qed.

Lemma agg_factor fn x : reads_factor (aggNode fn x).
Proof.
  intros p ts Hp Hl. cbn [tokens app] in Hp.
  pose proof (stream_next _ _ _ Hp) as H1. pose proof (stream_next _ _ _ H1) as H2.
  set (q2 := next (next p)) in *.
  set (q3 := let q := recordRef x false q2 in
    if bool_decide (fn = AggCount) then q else recordNumericRef x q).
  assert (stream q3 (ident x :: rparen :: ts)) as H3.
  { unfold q3. cbv zeta. case_bool_decide; (eapply stream_same; [..|exact H2]); done. }
  pose proof (stream_next _ _ _ H3) as H4.
  exists (next (next q3)). split; [by eapply stream_next|].
  apply converges_ret. intros n. cbn [parseFactor].
  rewrite (peek_head _ _ _ Hp), (stream_tok _ _ _ Hp). cbn [kind text ident head_lparen].
  rewrite aggregates_name, bool_decide_eq_true_2 by done.
  unfold parseCall. fold q2. unfold has_kind.
  rewrite (stream_tok _ _ _ H1), (stream_tok _ _ _ H2), (peek_head _ _ _ H2).
  cbn [kind text ident lparen head_lparen]. rewrite andb_false_r.
  change (bool_decide (tokLParen = tokLParen)) with true.
  change (bool_decide (tokIdent = tokIdent)) with true. cbn [negb].
  fold q3. by rewrite (stream_tok _ _ _ H4).
Qed.

Lemma neg_factor e : reads_factor e -> reads_factor (negNode e).
Proof.
  intros Hf p ts Hp Hl. cbn [tokens app] in Hp.
  destruct (Hf (next p) ts (stream_next _ _ _ Hp) Hl) as (q & Hq & Hc).
  exists q. split; [done|].
  eapply converges_step.
  { intros n. cbn [parseFactor]. rewrite (stream_tok _ _ _ Hp). cbn [kind text].
    by rewrite bool_decide_eq_true_2. }
  refine (converges_bind _ (fun _ '(inner, p) => Some (Ok (negNode inner, p))) _ _ Hc _).
  by apply converges_ret.
Qed.

Lemma add_op_optok op : add_op (optok op) = if additive op then Some op else None.
Proof. by destruct op. Qed.

Lemma mul_op_optok op : mul_op (optok op) = if additive op then None else Some op.
Proof. by destruct op. Qed.

(** The operands of an operator, read by the loop of its level. *)
Lemma sum_bin op l r :
  additive op = true -> reads_sum l -> reads_product r -> reads_sum (binNode op l r).
Proof.
  intros Ho Hl Hr p ts Hp Hlp Hm. cbn [tokens] in Hp. unfold sub_levels in Hp.
  rewrite Ho in Hp. cbn [needs_parens fst snd] in Hp. rewrite <- app_assoc in Hp.
  destruct (Hl p ((optok op :: tokens LProduct r) ++ ts) Hp) as (q & Hq & Hc).
  { by destruct op. }
  { cbn [app head_mul]. by rewrite mul_op_optok, Ho. }
  cbn [app] in Hq.
  destruct (Hr (next q) ts (stream_next _ _ _ Hq) Hlp) as (q' & Hq' & Hc').
  exists q'. split; [done|]. intros x Hx. apply Hc.
  eapply converges_step.
  { intros n. cbn [exprLoop]. rewrite (stream_tok _ _ _ Hq), add_op_optok, Ho. done. }
  refine (converges_bind _ (fun n '(rhs, p) => exprLoop n (binNode op l rhs) p) (r, q') _ _ Hx).
  apply Hc'. by eapply termLoop_stop.
Qed.

Lemma product_bin op l r :
  additive op = false -> reads_product l -> reads_factor r -> reads_product (binNode op l r).
Proof.
  intros Ho Hl Hr p ts Hp Hlp. cbn [tokens] in Hp. unfold sub_levels in Hp.
  rewrite Ho in Hp. cbn [needs_parens fst snd] in Hp. rewrite Ho, <- app_assoc in Hp.
  destruct (Hl p ((optok op :: tokens LFactor r) ++ ts) Hp) as (q & Hq & Hc).
  { by destruct op. }
  cbn [app] in Hq.
  destruct (Hr (next q) ts (stream_next _ _ _ Hq) Hlp) as (q' & Hq' & Hc').
  exists q'. split; [done|]. intros x Hx. apply Hc.
  eapply converges_step.
  { intros n. cbn [termLoop]. rewrite (stream_tok _ _ _ Hq), mul_op_optok, Ho. done. }
  exact (converges_bind _ (fun n '(rhs, p) => termLoop n (binNode op l rhs) p) (r, q') _ Hc' Hx).
Qed.

Lemma reads_all e :
  printable e -> reads_sum e /\ reads_product e /\ reads_factor e.
Proof.
  assert (Hatom : forall e, tokens LProduct e = tokens LFactor e ->
    tokens LSum e = tokens LProduct e -> reads_factor e ->
    reads_sum e /\ reads_product e /\ reads_factor e).
  { intros e' H1 H2 Hf. split_and!; eauto using factor_product, product_sum. }
  induction e as [f t|x|fn x|op l IHl r IHr|e IH]; cbn [printable]; intros Hp.
  - by apply Hatom, num_factor.
  - apply Hatom, ref_factor; done.
  - apply Hatom, agg_factor; done.
  - destruct Hp as [Hl Hr].
    destruct (IHl Hl) as (Ls & Lp & Lf), (IHr Hr) as (Rs & Rp & Rf).
    destruct (additive op) eqn:Ho.
    + pose proof (sum_bin op l r Ho Ls Rp) as Hs.
      assert (tokens LFactor (binNode op l r) = lparen :: tokens LSum (binNode op l r) ++ [rparen])
        as Ht by done.
      pose proof (sum_factor _ Ht Hs) as Hf. split_and!; [done| |done].
      apply factor_product; [|done]. cbn [tokens needs_parens]. by rewrite Ho.
    + pose proof (product_bin op l r Ho Lp Rf) as Hpr.
      assert (tokens LSum (binNode op l r) = tokens LProduct (binNode op l r)) as Ht.
      { cbn [tokens needs_parens]. by rewrite Ho. }
      pose proof (product_sum _ Ht Hpr) as Hs. split_and!; [done|done|].
      by apply sum_factor.
  - apply Hatom; try done. apply neg_factor. by apply IH.
Qed.

(** More fuel does not change an answer. *)
Lemma fuel_mono n :
  (forall p x, parseExpr n p = Some x -> parseExpr (S n) p = Some x) /\
  (forall l p x, exprLoop n l p = Some x -> exprLoop (S n) l p = Some x) /\
  (forall p x, parseTerm n p = Some x -> parseTerm (S n) p = Some x) /\
  (forall l p x, termLoop n l p = Some x -> termLoop (S n) l p = Some x) /\
  (forall p x, parseFactor n p = Some x -> parseFactor (S n) p = Some x).
Proof.
  assert (Hb : forall A B (f g : option (result A)) (k k' : A -> option (result B)) x,
    (forall y, f = Some y -> g = Some y) -> (forall a y, k a = Some y -> k' a = Some y) ->
    step_bind f k = Some x -> step_bind g k' = Some x).
  { intros A B f g k k' x Hf Hk. destruct f as [[a|e]|]; simpl; intros H; try discriminate.
    - rewrite (Hf _ eq_refl). simpl. by apply Hk.
    - by rewrite (Hf _ eq_refl). }
  induction n as [|n (IHe & IHel & IHt & IHtl & IHf)]; [by split_and!|].
  split_and!.
  - intros p x. apply Hb; [apply IHt|]. intros [l q]. apply IHel.
  - intros l p x. cbn [exprLoop]. destruct (add_op (tok p)); [|done].
    apply Hb; [apply IHt|]. intros [r q]. apply IHel.
  - intros p x. apply Hb; [apply IHf|]. intros [l q]. apply IHtl.
  - intros l p x. cbn [termLoop]. destruct (mul_op (tok p)); [|done].
    apply Hb; [apply IHf|]. intros [r q]. apply IHtl.
  - intros p x.
    cbn [parseFactor]. destruct (kind (tok p)); try done.
    + case_bool_decide; [|done]. apply Hb; [apply IHf|]. by intros [].
    + apply Hb; [apply IHe|]. by intros [].
Qed.

Lemma parseExpr_mono n m p x :
  (n <= m)%nat -> parseExpr n p = Some x -> parseExpr m p = Some x.
Proof. induction 1; [done|]. intros H'. apply fuel_mono. auto. Qed.

(** C22: printing a formula with only the parentheses its operators need and
    parsing the text gives the formula back: [Parse] is a left inverse of the
    printer, so [*] and [/] bind tighter than [+] and [-], all four associate
    to the left, and unary minus binds tightest. *)
Theorem parse_print e :
  printable e ->
  exists x, Parse (render (tokens LSum e)) = Some (Ok x) /\ root x = e.
Proof.
  intros Hp. set (src := render (tokens LSum e)).
  assert (stream (start src) (tokens LSum e ++ [])) as Hs.
  { rewrite app_nil_r. pose proof (tokens_valid LSum e Hp) as Hv.
    by apply stream_render, skip_render. }
  destruct (proj1 (reads_all e Hp) _ _ Hs eq_refl eq_refl) as (q & Hq & Hc).
  destruct (Hc (e, q)) as [n Hn]; [by eapply exprLoop_stop|].
  assert (parseExpr (parse_fuel src) (start src) = Some (Ok (e, q))) as He.
  { assert (psize (start src) <= String.length src)%nat as Hl by apply next_size.
    destruct (proj1 (parse_finishes (parse_fuel src)) (start src)) as (x & Hx & _).
    { unfold parse_fuel. lia. }
    rewrite Hx. specialize (Hn (n + parse_fuel src)%nat ltac:(lia)).
    apply (parseExpr_mono _ (n + parse_fuel src)) in Hx; [congruence|lia]. }
  unfold Parse. rewrite He. cbn [step_bind]. unfold has_kind.
  destruct Hq as (_ & -> & _). eexists. split; [reflexivity|done].
Qed.

Example difference : node :=
  binNode OpSub (binNode OpSub (refNode "a") (negNode (aggNode AggSum "b")))
    (binNode OpMul (binNode OpAdd (refNode "a") (refNode "c")) (refNode "d")).

Lemma parse_print_witness :
  render (tokens LSum difference) = "a - - sum ( b ) - ( a + c ) * d "%string /\
  exists x, Parse (render (tokens LSum difference)) = Some (Ok x) /\ root x = difference.
Proof. split; [reflexivity|]. apply parse_print. by repeat split. Defined.
