(* ===== verification/FormulaEval.v ===== *)
(** Exact evaluation of formulas ([Formula.evalRat]): when it is defined, that it
    reads only the names the formula reports, and that the order of a name's
    values does not matter.  Results are compared as rationals ([==]). *)

From Stdlib Require Import ZArith Lia String Ascii List QArith SpecFloat Permutation.
From stdpp Require Import base tactics list gmap strings option decidable.
From S2P Require Import Prelude GoText Formula FormulaPrint.

Open Scope Z_scope.

(** Two results agree: both undefined, or equal rationals. *)
Definition oeq (a b : option Q) : Prop :=
  match a, b with
  | Some p, Some q => (p == q)%Q
  | None, None => True
  | _, _ => False
  end.

#[export] Instance oeq_equiv : Equivalence oeq.
Proof.
  split.
  - intros [q|]; simpl; [apply Qeq_refl|done].
  - intros [p|] [q|]; simpl; auto using Qeq_sym.
  - intros [p|] [q|] [r|]; simpl; try done. apply Qeq_trans.
Qed.

Lemma oeq_bind a b (f g : Q -> option Q) :
  oeq a b -> (forall p q, (p == q)%Q -> oeq (f p) (g q)) -> oeq (a ≫= f) (b ≫= g).
Proof. destruct a, b; simpl; try done. auto. Qed.

Lemma Qis_zero_spec q : Qis_zero q = true <-> (q == 0)%Q.
Proof. unfold Qis_zero, Qeq. simpl. rewrite Z.eqb_eq. lia. Qed.

#[export] Instance Qis_zero_Proper : Proper (Qeq ==> eq) Qis_zero.
Proof.
  intros p q Hpq. destruct (Qis_zero q) eqn:Eq.
  - apply Qis_zero_spec in Eq. apply Qis_zero_spec. by rewrite Hpq.
  - destruct (Qis_zero p) eqn:Ep; [|done]. rewrite <- Eq. symmetry.
    apply Qis_zero_spec. rewrite <- Hpq. by apply Qis_zero_spec.
Qed.

(** ** Aggregates *)

Definition Qmin2 (a b : Q) : Q := if Qltb b a then b else a.
Definition Qmax2 (a b : Q) : Q := if Qltb a b then b else a.

Lemma Qltb_spec a b : Qltb a b = true <-> (a < b)%Q.
Proof. unfold Qltb. rewrite Qlt_alt. by destruct (a ?= b)%Q. Qed.

Lemma Qltb_false a b : Qltb a b = false <-> (b <= a)%Q.
Proof.
  rewrite <- not_true_iff_false, Qltb_spec. split; [apply Qnot_lt_le|apply Qle_not_lt].
Qed.

Lemma min_fold_spec vs v0 :
  let m := fold_left (fun best v => if Qltb v best then v else best) vs v0 in
  (m ∈ v0 :: vs) /\ forall v, v ∈ v0 :: vs -> (m <= v)%Q.
Proof.
  cbv zeta. revert v0. induction vs as [|v vs IH]; intros v0; simpl.
  - split; [by left|]. intros v Hv. apply list_elem_of_singleton in Hv. subst. apply Qle_refl.
  - destruct (Qltb v v0) eqn:E.
    + destruct (IH v) as [Hin Hle]. split; [set_solver|]. intros w Hw.
      apply elem_of_cons in Hw as [->|Hw]; [|by apply Hle].
      eapply Qle_trans; [apply Hle; by left|]. by apply Qlt_le_weak, Qltb_spec.
    + destruct (IH v0) as [Hin Hle]. split; [set_solver|]. intros w Hw.
      apply elem_of_cons in Hw as [->|Hw]; [apply Hle; by left|].
      apply elem_of_cons in Hw as [->|Hw]; [|apply Hle; by right].
      eapply Qle_trans; [apply Hle; by left|]. by apply Qltb_false.
Qed.

Lemma max_fold_spec vs v0 :
  let m := fold_left (fun best v => if Qltb best v then v else best) vs v0 in
  (m ∈ v0 :: vs) /\ forall v, v ∈ v0 :: vs -> (v <= m)%Q.
Proof.
  cbv zeta. revert v0. induction vs as [|v vs IH]; intros v0; simpl.
  - split; [by left|]. intros v Hv. apply list_elem_of_singleton in Hv. subst. apply Qle_refl.
  - destruct (Qltb v0 v) eqn:E.
    + destruct (IH v) as [Hin Hle]. split; [set_solver|]. intros w Hw.
      apply elem_of_cons in Hw as [->|Hw]; [|by apply Hle].
      eapply Qle_trans; [|apply Hle; by left]. by apply Qlt_le_weak, Qltb_spec.
    + destruct (IH v0) as [Hin Hle]. split; [set_solver|]. intros w Hw.
      apply elem_of_cons in Hw as [->|Hw]; [apply Hle; by left|].
      apply elem_of_cons in Hw as [->|Hw]; [|apply Hle; by right].
      eapply Qle_trans; [|apply Hle; by left]. by apply Qltb_false.
Qed.

Lemma fold_plus_acc vs a : (fold_left Qplus vs a == a + fold_left Qplus vs 0)%Q.
Proof.
  revert a. induction vs as [|v vs IH]; intros a; simpl; [by rewrite Qplus_0_r|].
  rewrite (IH (a + v)%Q), (IH (0 + v)%Q). ring.
Qed.

Lemma fold_plus_permutation vs ws :
  Permutation vs ws -> (fold_left Qplus vs 0 == fold_left Qplus ws 0)%Q.
Proof.
  induction 1 as [|x l k Hp IH|x y l|l k j H1 IH1 H2 IH2]; simpl; [done| | |].
  - rewrite (fold_plus_acc l), (fold_plus_acc k), IH. done.
  - rewrite (fold_plus_acc l (0 + y + x)), (fold_plus_acc l (0 + x + y)). ring.
  - by rewrite IH1.
Qed.

(** The aggregate of a list of numbers does not depend on their order. *)
Lemma agg_fold_permutation fn v0 vs w0 ws :
  Permutation (v0 :: vs) (w0 :: ws) ->
  oeq (agg_fold Qplus Qdiv Qltb 0%Q inject_Z fn v0 vs)
      (agg_fold Qplus Qdiv Qltb 0%Q inject_Z fn w0 ws).
Proof.
  intros Hp. assert (Hl : length vs = length ws).
  { apply Permutation_length in Hp. simpl in Hp. lia. }
  assert (Hin : forall q, q ∈ v0 :: vs <-> q ∈ w0 :: ws) by (intros q; by rewrite Hp).
  unfold agg_fold. destruct fn; simpl oeq; try done.
  - exact (fold_plus_permutation _ _ Hp).
  - rewrite Hl. apply Qdiv_comp; [exact (fold_plus_permutation _ _ Hp)|done].
  - destruct (min_fold_spec vs v0) as [H1 H2], (min_fold_spec ws w0) as [H3 H4].
    apply Qle_antisym; [apply H2, Hin, H3|apply H4, Hin, H1].
  - destruct (max_fold_spec vs v0) as [H1 H2], (max_fold_spec ws w0) as [H3 H4].
    apply Qle_antisym; [apply H4, Hin, H1|apply H2, Hin, H3].
Qed.

(** ** The order of values *)

(** The same values for every name, in any order. *)
Definition same_values (vars vars' : RatInputs) : Prop :=
  forall x, match vars !! x, vars' !! x with
  | Some l, Some k => Permutation l k
  | None, None => True
  | _, _ => False
  end.

Lemma mapM_id_Some (l : list (option Q)) l' : mapM id l = Some l' <-> l = Some <$> l'.
Proof.
  revert l'. induction l as [|o l IH]; intros l'; simpl.
  - split; [by intros [= <-]|]. by destruct l'.
  - split.
    + intros (q & Hq & H)%bind_Some. apply bind_Some in H as (k & Hk & [= <-]).
      apply IH in Hk. unfold id in Hq. by subst.
    + destruct l' as [|q l']; [done|]. intros [= -> H]. apply IH in H. by rewrite H.
Qed.

Lemma mapM_id_permutation (l k : list (option Q)) :
  Permutation l k ->
  match mapM id l, mapM id k with
  | Some l', Some k' => Permutation l' k'
  | None, None => True
  | _, _ => False
  end.
Proof.
  intros Hp.
  assert (H : forall l k : list (option Q), Permutation l k ->
    forall l', mapM id l = Some l' -> exists k', mapM id k = Some k' /\ Permutation l' k').
  { clear. intros l k Hp l' ->%mapM_id_Some. symmetry in Hp.
    apply Permutation_map_inv in Hp as (k' & -> & Hk). exists k'. split.
    - by apply mapM_id_Some.
    - by symmetry. }
  destruct (mapM id l) as [l'|] eqn:El.
  - destruct (H l k Hp l' El) as (k' & -> & Hk). done.
  - destruct (mapM id k) as [k'|] eqn:Ek; [|done].
    destruct (H k l (symmetry Hp) k' Ek) as (l' & E & _). congruence.
Qed.

Lemma same_values_default vars vars' x :
  same_values vars vars' ->
  Permutation (default [] (vars !! x)) (default [] (vars' !! x)).
Proof. intros H. specialize (H x). by destruct (vars !! x), (vars' !! x). Qed.

Lemma evalRat_agg fn x vars members :
  fn <> AggCount ->
  evalRat (aggNode fn x) vars members =
  match mapM id (default [] (vars !! x)) with
  | Some (v0 :: vs) => agg_fold Qplus Qdiv Qltb 0%Q inject_Z fn v0 vs
  | _ => None
  end.
Proof. intros Hf. by destruct fn; try done; simpl; destruct (default [] (vars !! x)). Qed.

(** The exact value of a formula does not depend on the order in which the
    repository returns an attribute's values: [sum], [avg], [min], [max] and
    [count] are functions of the multiset, and a bare name is defined only when
    there is exactly one value. *)
Theorem evalRat_order_independent e vars vars' members :
  same_values vars vars' -> oeq (evalRat e vars members) (evalRat e vars' members).
Proof.
  intros Hv. induction e as [f t|x|fn x|op l IHl r IHr|e IH].
  - done.
  - simpl. specialize (Hv x). destruct (vars !! x) as [lv|], (vars' !! x) as [lw|]; try done.
    destruct lv as [|v [|v' lv]].
    + by apply Permutation_nil in Hv as ->.
    + by apply Permutation_length_1_inv in Hv as ->.
    + apply Permutation_length in Hv. by destruct lw as [|w [|w' lw]].
  - pose proof (same_values_default _ _ x Hv) as Hp.
    destruct (decide (fn = AggCount)) as [->|Hf].
    + simpl. by rewrite Hp.
    + rewrite !evalRat_agg by done. apply mapM_id_permutation in Hp.
      destruct (mapM id (default [] (vars !! x))) as [[|v0 vs]|],
        (mapM id (default [] (vars' !! x))) as [[|w0 ws]|]; try done.
      * by apply Permutation_nil_cons in Hp.
      * by apply symmetry, Permutation_nil_cons in Hp.
      * by apply agg_fold_permutation.
  - simpl. apply oeq_bind; [done|]. intros a b Hab. apply oeq_bind; [done|].
    intros c d Hcd. destruct op; cbn [oeq]; [by rewrite Hab, Hcd..|].
    rewrite (Qis_zero_Proper c d Hcd). case_match; [done|]. cbn [oeq]. by rewrite Hab, Hcd.
  - simpl. apply oeq_bind; [done|]. intros a b Hab. cbn [oeq]. by rewrite Hab.
Qed.

(** ** When a formula has a value *)

Fixpoint has_division (e : node) : bool :=
  match e with
  | binNode op l r =>
      match op with OpDiv => true | _ => false end || has_division l || has_division r
  | negNode e => has_division e
  | _ => false
  end.

(** Every name read bare has exactly one number, every name folded as numbers
    at least one and only numbers. *)
Definition supplied (bare numeric : list string) (vars : RatInputs) : Prop :=
  (forall x, x ∈ bare -> exists q, vars !! x = Some [Some q]) /\
  (forall x, x ∈ numeric -> exists q qs, vars !! x = Some (Some <$> (q :: qs))).

Lemma evalRat_supplied e vars members :
  literals_ok e -> has_division e = false ->
  supplied (bare_names e) (numeric_names e) vars ->
  exists q, evalRat e vars members = Some q.
Proof.
  intros Hl Hd [Hb Hn]. induction e as [f t|x|fn x|op l IHl r IHr|e IH]; cbn [literals_ok] in Hl.
  - apply ParseFloat_numeral in Hl as (m & k & Hm). simpl. unfold rat_of_numeral.
    rewrite Hm. by eexists.
  - destruct (Hb x) as [q Hq]; [by left|]. simpl. rewrite Hq. by exists q.
  - destruct (decide (fn = AggCount)) as [->|Hf]; [by eexists|].
    rewrite evalRat_agg by done. cbn [numeric_names] in Hn.
    rewrite bool_decide_eq_false_2 in Hn by done.
    destruct (Hn x) as (q & qs & Hq); [by left|]. rewrite Hq.
    change (default [] (Some (Some <$> q :: qs))) with (Some <$> q :: qs).
    rewrite (proj2 (mapM_id_Some (Some <$> q :: qs) (q :: qs)) eq_refl).
    destruct fn; try done; by eexists.
  - cbn [bare_names numeric_names has_division] in *.
    rewrite !orb_false_iff in Hd. destruct Hd as [[Ho Hdl] Hdr], Hl as [Hll Hlr].
    destruct IHl as [a Ha]; try done;
      [intros x Hx; first [apply Hb | apply Hn]; apply elem_of_app; by left..|].
    destruct IHr as [b Hb']; try done;
      [intros x Hx; first [apply Hb | apply Hn]; apply elem_of_app; by right..|].
    simpl. rewrite Ha, Hb'. simpl. destruct op; try done; by eexists.
  - destruct IH as [a Ha]; try done. simpl. rewrite Ha. by eexists.
Qed.

(** A parsed formula without division has a value as soon as the names it
    reports are supplied: one number for each of [ScalarRefs] and at least one
    for each of [NumericRefs].  Only division (by zero) can make it undefined
    beyond that. *)
Theorem evalRat_defined src e vars members :
  Parse src = Some (Ok e) ->
  has_division (root e) = false ->
  supplied (ScalarRefs e) (NumericRefs e) vars ->
  exists q, EvalRatWithMembers e vars members = Some q.
Proof.
  intros (Hl & _ & Es & En)%Parse_root Hd [Hs Hn]. apply evalRat_supplied; try done.
  split; intros x Hx; [apply Hs; rewrite Es|apply Hn; rewrite En];
    apply elem_of_add_names; by left.
Qed.

Definition example_vars : RatInputs :=
  {[ "price"%string := [Some (3 # 10)%Q]; "tax"%string := [Some (1 # 5)%Q; Some (1 # 10)%Q] ]}.

Definition example_vars' : RatInputs :=
  {[ "price"%string := [Some (3 # 10)%Q]; "tax"%string := [Some (1 # 10)%Q; Some (1 # 5)%Q] ]}.

Definition example_expr : Expr :=
  mkExpr (binNode OpAdd (refNode "price") (aggNode AggSum "tax"))
    ["price"; "tax"] ["price"] ["price"; "tax"].

Lemma evalRat_order_independent_witness :
  oeq (evalRat (root example_expr) example_vars None)
      (evalRat (root example_expr) example_vars' None).
Proof.
  apply evalRat_order_independent. intros x. unfold example_vars, example_vars'.
  destruct (decide (x = "price"%string)) as [->|H1].
  - vm_compute. constructor. constructor.
  - rewrite !lookup_insert_ne by congruence.
    destruct (decide (x = "tax"%string)) as [->|H2].
    + vm_compute. apply perm_swap.
    + by rewrite !lookup_singleton_ne by congruence.
Defined.

Lemma evalRat_defined_witness :
  Parse "price + sum(tax)" = Some (Ok example_expr) /\
  exists q, EvalRatWithMembers example_expr example_vars None = Some q.
Proof.
  split; [reflexivity|].
  apply (evalRat_defined "price + sum(tax)"); [reflexivity|reflexivity|].
  split; intros x Hx; cbn [ScalarRefs NumericRefs example_expr] in Hx.
  - apply list_elem_of_singleton in Hx as ->. eexists. reflexivity.
  - apply elem_of_cons in Hx as [->|Hx%list_elem_of_singleton]; [|subst x];
      eexists _, _; [instantiate (1 := [])|instantiate (1 := [_])]; reflexivity.
Defined.

Lemma formula_refs_exact_witness :
  let e := example_expr in
  NoDup (Refs e) /\ NoDup (ScalarRefs e) /\ NoDup (NumericRefs e) /\
  (forall x, x ∈ Refs e <-> x ∈ names (root e)) /\
  (forall x, x ∈ ScalarRefs e <-> x ∈ bare_names (root e)) /\
  (forall x, x ∈ NumericRefs e <-> x ∈ numeric_names (root e)) /\
  (forall x, x ∈ ScalarRefs e \/ x ∈ NumericRefs e -> x ∈ Refs e).
Proof. exact (formula_refs_exact "price + sum(tax)" example_expr eq_refl). Defined.
