(* ===== verification/Attribute.v ===== *)
(** Attribute definitions: the Go package [domain/attribute].

    [constraint.go] (the validation rules of an attribute), [computed.go] (the
    specification of a derived attribute) and [aggregate.go] (the [Definition]
    aggregate: construction, update, archive, restore, the single gate for
    value writes, defaults, snapshots).

    The aggregate's methods mutate a struct and return events; here each takes
    the state and returns the new state with the events, or an error.  The
    clock and the fresh identifier are arguments. *)

From Stdlib Require Import ZArith Lia String Ascii List.
From stdpp Require Import base tactics list gmap strings option decidable.
From S2P Require Import Prelude GoText Values Ids Formula.

Open Scope Z_scope.
Open Scope go_scope.

(** ** Constraints ([constraint.go]) *)

Inductive ConstraintKind :=
  | KindMinLength | KindMaxLength | KindMinValue | KindMaxValue
  | KindPattern | KindOneOf | KindMedia.

#[export] Instance ConstraintKind_eq_dec : EqDecision ConstraintKind.
Proof. solve_decision. Defined.

(** The implementations of the interface [Constraint].  The compiled regexp a
    [Pattern] caches is not state: it is what [Compile] of the expression
    answers. *)
Inductive Constraint :=
  | MinLength (n : Z)
  | MaxLength (n : Z)
  | MinValue (min : Value)
  | MaxValue (max : Value)
  | Pattern (expr : string) (substring : bool)
  | OneOf (values : list Value)
  | MediaConstraint (allowedMIME : list string) (maxSize : Z).

Abbreviation Constraints := (list Constraint).

Definition Kind (c : Constraint) : ConstraintKind :=
  match c with
  | MinLength _ => KindMinLength
  | MaxLength _ => KindMaxLength
  | MinValue _ => KindMinValue
  | MaxValue _ => KindMaxValue
  | Pattern _ _ => KindPattern
  | OneOf _ => KindOneOf
  | MediaConstraint _ _ => KindMedia
  end.

(** [Pattern.pattern]: anchored unless the author asked for a substring. *)
Definition pattern (expr : string) (substring : bool) : string :=
  if substring then expr else String.append "\A(?:" (String.append expr ")\z").

Section Constraints.
  Context `{GoStd}.

Definition ConstraintValidate (dt : DataType) (c : Constraint) : result unit :=
  match c with
  | MinLength n =>
      guard! negb (IsTextual dt)
        else NewValidation "min_length requires a textual data type" then
      guard! n <? 0 else NewValidation "min_length must not be negative" then
      Ok tt
  | MaxLength n =>
      guard! negb (IsTextual dt)
        else NewValidation "max_length requires a textual data type" then
      guard! n <=? 0 else NewValidation "max_length must be positive" then
      Ok tt
  | MinValue min =>
      guard! negb (IsOrdered dt)
        else NewValidation "min_value requires an ordered data type" then
      guard! negb (bool_decide (dataType min = dt))
        else NewValidation "min_value operand type must match the attribute type" then
      Ok tt
  | MaxValue max =>
      guard! negb (IsOrdered dt)
        else NewValidation "max_value requires an ordered data type" then
      guard! negb (bool_decide (dataType max = dt))
        else NewValidation "max_value operand type must match the attribute type" then
      Ok tt
  | Pattern expr substring =>
      guard! negb (IsTextual dt)
        else NewValidation "pattern requires a textual data type" then
      match regexp_Compile (pattern expr substring) with
      | Some _ => Ok tt
      | None => Err (NewValidation "invalid pattern")
      end
  | OneOf values =>
      guard! bool_decide (values = [])
        else NewValidation "one_of requires at least one allowed value" then
      each (fun v =>
        guard! negb (bool_decide (dataType v = dt))
          else NewValidation "one_of member type must match the attribute type" then
        Ok tt) values
  | MediaConstraint _ maxSize =>
      guard! negb (bool_decide (dt = DataTypeMedia))
        else NewValidation "media constraint requires a media attribute" then
      guard! maxSize <? 0 else NewValidation "media max_size must be non-negative" then
      Ok tt
  end.

(** An error of [Compare] becomes a validation error. *)
Definition compare_or_invalid (v w : Value) : result Z :=
  match Compare v w with
  | Ok cmp => Ok cmp
  | Err e => Err (NewValidation (Message e))
  end.

Definition ConstraintCheck (v : Value) (c : Constraint) : result unit :=
  match c with
  | MinLength n =>
      guard! Length v <? n else NewValidation "value must be at least N characters" then Ok tt
  | MaxLength n =>
      guard! n <? Length v else NewValidation "value must be at most N characters" then Ok tt
  | MinValue min =>
      let! cmp := compare_or_invalid v min in
      guard! cmp <? 0 else NewValidation "value must be at least the minimum" then Ok tt
  | MaxValue max =>
      let! cmp := compare_or_invalid v max in
      guard! 0 <? cmp else NewValidation "value must be at most the maximum" then Ok tt
  | Pattern expr substring =>
      match regexp_Compile (pattern expr substring) with
      | None => Err (NewValidation "invalid pattern")
      | Some match_ =>
          guard! negb (match_ (textVal v))
            else NewValidation "value does not match pattern" then
          Ok tt
      end
  | OneOf values =>
      guard! negb (existsb (Equal v) values)
        else NewValidation "value is not in the allowed set" then
      Ok tt
  | MediaConstraint allowedMIME maxSize =>
      let m := Media v in
      guard! negb (bool_decide (allowedMIME = [])) && negb (bool_decide (MIME m ∈ allowedMIME))
        else NewValidation "media type is not allowed" then
      guard! (0 <? maxSize) && (maxSize <? Size m)
        else NewValidation "media exceeds the maximum size" then
      Ok tt
  end.

(** [Constraints.Validate]: no kind twice, each applicable to the type. *)
Fixpoint validate_from (seen : list ConstraintKind) (dt : DataType) (cs : Constraints) :
    result unit :=
  match cs with
  | [] => Ok tt
  | c :: cs =>
      guard! bool_decide (Kind c ∈ seen) else NewValidation "duplicate constraint" then
      check! ConstraintValidate dt c then
      validate_from (Kind c :: seen) dt cs
  end.

Definition ConstraintsValidate (dt : DataType) (cs : Constraints) : result unit :=
  validate_from [] dt cs.

Definition ConstraintsCheck (v : Value) (cs : Constraints) : result unit :=
  each (ConstraintCheck v) cs.

End Constraints.

(** ** Computed attributes ([computed.go]) *)

Inductive ComputedKind := ComputedFormula | ComputedRollup | ComputedKindOther (s : string).

Inductive RollupAggregate :=
  | RollupCount | RollupSum | RollupMin | RollupMax | RollupOther (s : string).

Record Rollup := mkRollup {
  RollupRelationship : string; RollupDirection : string;
  RollupAgg : RollupAggregate; RollupTarget : string }.

Record Computed := mkComputed {
  CompKind : ComputedKind; CompFormula : string; CompRollup : option Rollup }.

(** [formula.Parse] as a total function: see [Formula.parse_terminates]. *)
Definition parse_formula (src : string) : result Expr :=
  match Parse src with
  | Some r => r
  | None => Err (Errorf "unreachable")
  end.

Definition validate_rollup (r : Rollup) : result (list string) :=
  guard! str_IsZero (RollupRelationship r)
    else NewValidation "rollup relationship is required" then
  guard! negb (bool_decide (RollupDirection r ∈ ["child"; "parent"; "linked"]%string))
    else NewValidation "rollup direction must be child, parent or linked" then
  match RollupAgg r with
  | RollupCount => Ok []
  | RollupSum | RollupMin | RollupMax =>
      guard! str_IsZero (RollupTarget r)
        else NewValidation "rollup aggregate requires a target attribute" then
      Ok []
  | RollupOther _ => Err (NewValidation "unknown rollup aggregate")
  end.

(** The formula's references, for cycle detection. *)
Definition ComputedValidate (c : Computed) : result (list string) :=
  match CompKind c with
  | ComputedFormula =>
      guard! str_IsZero (CompFormula c)
        else NewValidation "computed formula is required" then
      match parse_formula (CompFormula c) with
      | Ok expr => Ok (Refs expr)
      | Err _ => Err (NewValidation "invalid formula")
      end
  | ComputedRollup =>
      match CompRollup c with
      | None => Err (NewValidation "computed rollup spec is required")
      | Some r => validate_rollup r
      end
  | ComputedKindOther _ => Err (NewValidation "unknown computed kind")
  end.

(** ** The aggregate ([aggregate.go]) *)

Record AttrDefinition := mkAttr {
  id : ID;
  tenantID : TenantID;
  typeDefinitionID : ID;
  internalName : string;
  displayName : string;
  description : string;
  attrType : DataType;
  required : bool;
  multiValued : bool;
  unique : bool;
  localizable : bool;
  scopable : bool;
  unitFamilyID : string;
  displayUnit : string;
  computed : option Computed;
  constraints : Constraints;
  defaultValue : option Default;
  group : string;
  sortOrder : Z;
  helpText : string;
  version : Z;
  createdAt : Z;
  updatedAt : Z;
  archivedAt : option Z }.

(** [UpdateInput]: the fields a caller may set at creation and change later. *)
Record UpdateInput := mkUpdateInput {
  inDisplayName : string;
  inDescription : string;
  inRequired : bool;
  inMultiValued : bool;
  inUnique : bool;
  inLocalizable : bool;
  inScopable : bool;
  inUnitFamilyID : string;
  inDisplayUnit : string;
  inComputed : option Computed;
  inConstraints : Constraints;
  inDefaultValue : option Default;
  inGroup : string;
  inSortOrder : Z;
  inHelpText : string }.

(** [NewInput]: the immutable fields and the mutable ones. *)
Record NewInput := mkNewInput {
  inTenantID : TenantID;
  inTypeDefinitionID : ID;
  inInternalName : string;
  inDataType : DataType;
  inMutable : UpdateInput }.

Inductive Event :=
  | Created (aid : ID) (tenant : TenantID) (type_id : ID) (name display : string)
      (dt : DataType) (req : bool) (at_ : Z)
  | Updated (aid : ID) (tenant : TenantID) (type_id : ID) (display : string)
      (req : bool) (ver : Z) (at_ : Z)
  | Archived (aid : ID) (tenant : TenantID) (type_id : ID) (at_ : Z)
  | Restored (aid : ID) (tenant : TenantID) (type_id : ID) (at_ : Z).

Definition AggregateType : string := "attribute_definition".

Definition hasOneOf (cs : Constraints) : bool :=
  existsb (fun c => bool_decide (Kind c = KindOneOf)) cs.

Section Aggregate.
  Context `{GoStd}.

Definition validateRules (dt : DataType) (multi uniq : bool) (cs : Constraints)
    (def : option Default) (comp : option Computed) : result unit :=
  guard! multi && uniq
    else NewValidation "an attribute cannot be both multi-valued and unique" then
  guard! multi && isSome comp
    else NewValidation "a computed attribute cannot be multi-valued" then
  guard! bool_decide (dt = DataTypeEnum) && negb (hasOneOf cs)
    else NewValidation "enum attributes require a one_of constraint" then
  check! ConstraintsValidate dt cs then
  match def with
  | None => Ok tt
  | Some def =>
      match DefaultValidate def dt with
      | Err e => Err (NewValidation (Message e))
      | Ok _ =>
          match Static def with
          | None => Ok tt
          | Some v =>
              match ConstraintsCheck v cs with
              | Ok _ => Ok tt
              | Err _ => Err (NewValidation "default value violates constraints")
              end
          end
      end
  end.

(** The checks [New] and [Update] share after the display name. *)
Definition checkInput (dt : DataType) (u : UpdateInput) : result unit :=
  check! validateRules dt (inMultiValued u) (inUnique u) (inConstraints u)
    (inDefaultValue u) (inComputed u) then
  match inComputed u with
  | None => Ok tt
  | Some c => let! _ := ComputedValidate c in Ok tt
  end.

(** [New]: [fresh] is the identifier drawn, [now] the clock. *)
Definition New (i : NewInput) (fresh : ID) (now : Z) : result (AttrDefinition * list Event) :=
  let tenant := if str_IsZero (inTenantID i) then DefaultTenant else inTenantID i in
  let u := inMutable i in
  guard! ID_IsZero (inTypeDefinitionID i)
    else NewValidation "type definition ID is required" then
  guard! negb (internalNamePattern (inInternalName i))
    else NewValidation "internal name must be snake_case, start with a letter and be 2-63 characters" then
  guard! str_IsZero (inDisplayName u) else NewValidation "display name is required" then
  match ParseDataType (inDataType i) with
  | Err e => Err (NewValidation (Message e))
  | Ok dt =>
      check! checkInput dt u then
      let a := mkAttr fresh tenant (inTypeDefinitionID i) (inInternalName i)
        (inDisplayName u) (inDescription u) (inDataType i) (inRequired u) (inMultiValued u)
        (inUnique u) (inLocalizable u) (inScopable u) (inUnitFamilyID u) (inDisplayUnit u)
        (inComputed u) (inConstraints u) (inDefaultValue u) (inGroup u) (inSortOrder u)
        (inHelpText u) 1 now now None in
      Ok (a, [Created (id a) (tenantID a) (typeDefinitionID a) (internalName a)
                (displayName a) (attrType a) (required a) now])
  end.

Definition IsArchived (a : AttrDefinition) : bool := isSome (archivedAt a).

Definition Update (a : AttrDefinition) (u : UpdateInput) (now : Z) :
    result (AttrDefinition * list Event) :=
  guard! IsArchived a else NewArchived AggregateType then
  guard! str_IsZero (inDisplayName u) else NewValidation "display name is required" then
  check! checkInput (attrType a) u then
  let a := mkAttr (id a) (tenantID a) (typeDefinitionID a) (internalName a)
    (inDisplayName u) (inDescription u) (attrType a) (inRequired u) (inMultiValued u)
    (inUnique u) (inLocalizable u) (inScopable u) (inUnitFamilyID u) (inDisplayUnit u)
    (inComputed u) (inConstraints u) (inDefaultValue u) (inGroup u) (inSortOrder u)
    (inHelpText u) (bump (version a)) (createdAt a) now (archivedAt a) in
  Ok (a, [Updated (id a) (tenantID a) (typeDefinitionID a) (displayName a)
            (required a) (version a) now]).

Definition set_archived (a : AttrDefinition) (at_ : option Z) (now : Z) : AttrDefinition :=
  mkAttr (id a) (tenantID a) (typeDefinitionID a) (internalName a) (displayName a)
    (description a) (attrType a) (required a) (multiValued a) (unique a) (localizable a)
    (scopable a) (unitFamilyID a) (displayUnit a) (computed a) (constraints a)
    (defaultValue a) (group a) (sortOrder a) (helpText a) (version a) (createdAt a) now at_.

Definition Archive (a : AttrDefinition) (now : Z) : result (AttrDefinition * list Event) :=
  guard! IsArchived a else NewArchived AggregateType then
  let a := set_archived a (Some now) now in
  Ok (a, [Archived (id a) (tenantID a) (typeDefinitionID a) now]).

Definition Restore (a : AttrDefinition) (now : Z) : result (AttrDefinition * list Event) :=
  guard! negb (IsArchived a) else NewValidation "attribute definition is not archived" then
  let a := set_archived a None now in
  Ok (a, [Restored (id a) (tenantID a) (typeDefinitionID a) now]).

Definition ValidateValue (a : AttrDefinition) (v : Value) : result unit :=
  guard! IsArchived a else NewArchived AggregateType then
  if IsZero v then
    guard! required a else NewValidation "value is required" then Ok tt
  else
    guard! negb (bool_decide (dataType v = attrType a))
      else NewValidation "value type does not match attribute type" then
    ConstraintsCheck v (constraints a).

Definition DefaultFor (a : AttrDefinition) (now : GoTime) : result Value :=
  match defaultValue a with
  | None => Ok zeroValue
  | Some d => DefaultResolve d (attrType a) now
  end.

End Aggregate.

Definition IsComputed (a : AttrDefinition) : bool := isSome (computed a).

(** ** Properties *)

Section Properties.
Context `{GoStd}.

(** *** Constraints *)

Lemma validate_from_ok seen dt cs :
  validate_from seen dt cs = Ok tt <->
  NoDup (Kind <$> cs) /\ (forall k, k ∈ seen -> k ∉ Kind <$> cs) /\
  Forall (fun c => ConstraintValidate dt c = Ok tt) cs.
Proof.
  revert seen. induction cs as [|c cs IH]; intros seen; simpl.
  { split; [|done]. intros _. split_and!; [apply NoDup_nil_2|set_solver|done]. }
  rewrite Forall_cons_iff, list.NoDup_cons. case_bool_decide as Hin.
  { split; [done|]. intros (_ & Hs & _). exfalso. apply (Hs _ Hin). by left. }
  destruct (ConstraintValidate dt c) as [[]|e]; simpl; [|naive_solver].
  rewrite IH. split.
  - intros (Hn & Hs & Hf). split_and!; try done.
    + apply Hs. by left.
    + intros k Hk. rewrite not_elem_of_cons. split; [by intros ->|]. apply Hs. by right.
  - intros ((Hc & Hn) & Hs & _ & Hf). split_and!; try done.
    intros k Hk. apply elem_of_cons in Hk as [->|Hk]; [done|].
    specialize (Hs k Hk). by apply not_elem_of_cons in Hs as [_ Hs].
Qed.

Lemma ConstraintsValidate_ok dt cs :
  ConstraintsValidate dt cs = Ok tt <->
  NoDup (Kind <$> cs) /\ Forall (fun c => ConstraintValidate dt c = Ok tt) cs.
Proof.
  unfold ConstraintsValidate. rewrite validate_from_ok. split; [naive_solver|].
  intros [? ?]. split_and!; [done| |done]. intros k Hk. by apply elem_of_nil in Hk.
Qed.

(** What each constraint asks of a value. *)
Definition satisfies (v : Value) (c : Constraint) : Prop :=
  match c with
  | MinLength n => n <= Length v
  | MaxLength n => Length v <= n
  | MinValue min => vcmp v min <> Lt
  | MaxValue max => vcmp v max <> Gt
  | Pattern expr substring =>
      exists match_, regexp_Compile (pattern expr substring) = Some match_ /\
        match_ (textVal v) = true
  | OneOf values => exists w, w ∈ values /\ veq v w
  | MediaConstraint allowed maxSize =>
      (allowed = [] \/ MIME (Media v) ∈ allowed) /\
      (maxSize <= 0 \/ Size (Media v) <= maxSize)
  end.

(** The operands of a constraint that went through [ParseValue]. *)
Definition operands_ok (c : Constraint) : Prop :=
  match c with
  | MinValue w | MaxValue w => wf_value w /\ comparable w
  | _ => True
  end.

Lemma existsb_Equal v values :
  existsb (Equal v) values = true <-> exists w, w ∈ values /\ veq v w.
Proof. rewrite existsb_exists. by setoid_rewrite <- list_elem_of_In. Qed.

Lemma guard_ok (b : bool) (e : Error) :
  (if b then Err e else Ok tt) = Ok tt <-> b = false.
Proof. by destruct b. Qed.

Lemma compare_or_invalid_vcmp dt v w :
  ordered dt v -> ordered dt w ->
  compare_or_invalid v w = Ok (of_comparison (vcmp v w)).
Proof. intros Hv Hw. unfold compare_or_invalid. by rewrite (Compare_vcmp dt). Qed.

Lemma ConstraintCheck_satisfies dt c v :
  ConstraintValidate dt c = Ok tt -> operands_ok c ->
  dataType v = dt -> wf_value v -> comparable v ->
  ConstraintCheck v c = Ok tt <-> satisfies v c.
Proof.
  intros Hval Hop Hd Hwf Hc.
  destruct c as [n|n|w|w|expr sub|vs|allowed maxSize]; cbn in Hval |- *.
  - rewrite guard_ok, Z.ltb_ge. done.
  - rewrite guard_ok, Z.ltb_ge. done.
  - res_inv. breflect. destruct Hop. rewrite (compare_or_invalid_vcmp dt) by done.
    cbn [res_bind]. rewrite guard_ok. by destruct (vcmp v w).
  - res_inv. breflect. destruct Hop. rewrite (compare_or_invalid_vcmp dt) by done.
    cbn [res_bind]. rewrite guard_ok. by destruct (vcmp v w).
  - destruct (regexp_Compile _) as [m|]; [|naive_solver].
    rewrite guard_ok, negb_false_iff. naive_solver.
  - rewrite guard_ok, negb_false_iff, existsb_Equal. done.
  - destruct (_ && _) eqn:E1.
    + split; [done|]. rewrite andb_true_iff, !negb_true_iff, !bool_decide_eq_false in E1.
      naive_solver.
    + rewrite guard_ok, andb_false_iff, Z.ltb_ge, Z.ltb_ge.
      rewrite andb_false_iff, !negb_false_iff, !bool_decide_eq_true in E1. naive_solver.
Qed.

(** On values of the attribute's type, a constraint set that passed
    [Validate] accepts exactly the values that satisfy every constraint, in
    any order of the set: bounds compare by the type's order, lengths count
    runes, a refusal is never an artefact of incomparable operands. *)
Theorem constraints_check_exact dt cs v :
  ConstraintsValidate dt cs = Ok tt -> Forall operands_ok cs ->
  dataType v = dt -> wf_value v -> comparable v ->
  (ConstraintsCheck v cs = Ok tt <-> Forall (satisfies v) cs) /\
  (forall cs', Permutation cs cs' ->
     ConstraintsCheck v cs' = Ok tt <-> ConstraintsCheck v cs = Ok tt).
Proof.
  rewrite ConstraintsValidate_ok. intros [_ Hval] Hop Hd Hwf Hc.
  split; [|intros cs' Hp; symmetry; by apply each_permutation].
  unfold ConstraintsCheck. rewrite each_ok.
  rewrite !Forall_forall in *. split; intros Hall c Hin;
    (eapply ConstraintCheck_satisfies; [apply Hval|apply Hop| | | |]; eauto).
Qed.

(** *** The aggregate's invariant *)

Definition mutable_of (a : AttrDefinition) : UpdateInput :=
  mkUpdateInput (displayName a) (description a) (required a) (multiValued a) (unique a)
    (localizable a) (scopable a) (unitFamilyID a) (displayUnit a) (computed a)
    (constraints a) (defaultValue a) (group a) (sortOrder a) (helpText a).

Definition checked (a : AttrDefinition) : Prop :=
  internalNamePattern (internalName a) = true /\
  displayName a <> EmptyString /\
  ParseDataType (attrType a) = Ok (attrType a) /\
  checkInput (attrType a) (mutable_of a) = Ok tt.

Lemma ParseDataType_ok dt dt' : ParseDataType dt = Ok dt' -> dt' = dt.
Proof. by destruct dt; simpl; try discriminate; intros [= <-]. Qed.

Lemma New_checked i fresh now a evs : New i fresh now = Ok (a, evs) -> checked a.
Proof.
  unfold New. cbv zeta. intros Hn. res_inv.
  destruct (ParseDataType (inDataType i)) as [dt|e] eqn:Hd; [|discriminate].
  pose proof (ParseDataType_ok _ _ Hd) as ->. res_inv.
  unfold str_IsZero in *. breflect.
  by destruct (inMutable i).
Qed.

Lemma Update_checked a u now a' evs :
  Update a u now = Ok (a', evs) -> checked a -> checked a'.
Proof.
  unfold Update. cbv zeta. intros Hn (Hi & _ & Hd & _). res_inv.
  unfold str_IsZero in *. breflect. by destruct u.
Qed.

(** One operation of the aggregate. *)
Inductive attr_step (a a' : AttrDefinition) : Prop :=
  | step_update u now evs : Update a u now = Ok (a', evs) -> attr_step a a'
  | step_archive now evs : Archive a now = Ok (a', evs) -> attr_step a a'
  | step_restore now evs : Restore a now = Ok (a', evs) -> attr_step a a'.

(** The states an attribute definition can reach. *)
Inductive reachable : AttrDefinition -> Prop :=
  | reach_new i fresh now a evs : New i fresh now = Ok (a, evs) -> reachable a
  | reach_step a a' : reachable a -> attr_step a a' -> reachable a'.

Lemma Archive_shape a now a' evs :
  Archive a now = Ok (a', evs) -> archivedAt a = None /\ a' = set_archived a (Some now) now.
Proof.
  unfold Archive, IsArchived. cbv zeta. intros Ha. res_inv.
  by destruct (archivedAt a).
Qed.

Lemma Restore_shape a now a' evs :
  Restore a now = Ok (a', evs) ->
  (exists t, archivedAt a = Some t) /\ a' = set_archived a None now.
Proof.
  unfold Restore, IsArchived. cbv zeta. intros Ha. res_inv.
  destruct (archivedAt a); [eauto|discriminate].
Qed.

Lemma reachable_checked a : reachable a -> checked a.
Proof.
  induction 1 as [i fresh now a evs Hn|a a' _ IH [u now evs Hu|now evs Ha|now evs Hr]].
  - by eapply New_checked.
  - by eapply Update_checked.
  - by apply Archive_shape in Ha as [_ ->].
  - by apply Restore_shape in Hr as [_ ->].
Qed.

Lemma hasOneOf_spec cs : hasOneOf cs = true <-> exists vs, OneOf vs ∈ cs.
Proof.
  unfold hasOneOf. rewrite existsb_exists. setoid_rewrite <- list_elem_of_In.
  setoid_rewrite bool_decide_eq_true. split.
  - intros ([] & Hc & Hk); try discriminate Hk. eauto.
  - intros [vs Hv]. by eexists.
Qed.

Lemma validateRules_ok dt multi uniq cs def comp :
  validateRules dt multi uniq cs def comp = Ok tt ->
  multi && uniq = false /\ multi && isSome comp = false /\
  (dt = DataTypeEnum -> exists vs, OneOf vs ∈ cs) /\
  ConstraintsValidate dt cs = Ok tt /\
  (forall d, def = Some d -> DefaultValidate d dt = Ok tt /\
     forall v, Static d = Some v -> ConstraintsCheck v cs = Ok tt).
Proof.
  unfold validateRules. intros Hv. res_inv. split_and!; try done.
  - intros ->. rewrite bool_decide_eq_true_2 in Hg1 by done.
    simpl in Hg1. breflect. by apply hasOneOf_spec.
  - intros d ->. destruct (DefaultValidate d dt) as [[]|]; [|discriminate].
    split; [done|]. intros v Hs. rewrite Hs in Hv.
    by destruct (ConstraintsCheck v cs) as [[]|].
Qed.

Lemma reachable_rules a :
  reachable a ->
  validateRules (attrType a) (multiValued a) (unique a) (constraints a)
    (defaultValue a) (computed a) = Ok tt.
Proof.
  intros (_ & _ & _ & Hc)%reachable_checked. unfold checkInput in Hc. res_inv.
  by destruct a.
Qed.

(** Every attribute definition the service can build, through any history of
    updates, archivals and restores, obeys the rules of the schema: a
    snake_case name, a known data type, never both multi-valued and unique,
    never both multi-valued and computed, an enum carries a one_of set, no
    constraint kind occurs twice and each applies to the data type. *)
Theorem attribute_invariant a :
  reachable a ->
  internalNamePattern (internalName a) = true /\
  ParseDataType (attrType a) = Ok (attrType a) /\
  ~ (multiValued a = true /\ unique a = true) /\
  ~ (multiValued a = true /\ computed a <> None) /\
  (attrType a = DataTypeEnum -> exists vs, OneOf vs ∈ constraints a) /\
  NoDup (Kind <$> constraints a) /\
  Forall (fun c => ConstraintValidate (attrType a) c = Ok tt) (constraints a).
Proof.
  intros Hr. destruct (reachable_checked a Hr) as (Hn & _ & Hd & _).
  apply reachable_rules, validateRules_ok in Hr as (Hmu & Hmc & He & Hcs & _).
  apply ConstraintsValidate_ok in Hcs as [Hnd Hf].
  split_and!; try done.
  - intros [H1 H2]. by rewrite H1, H2 in Hmu.
  - intros [H1 H2]. rewrite H1 in Hmc. by destruct (computed a).
Qed.

(** A declared default never fights the schema: in every reachable,
    unarchived definition the default resolves without error to a value of
    the attribute's type, and a static default passes the attribute's own
    write gate. *)
Theorem default_accepted a d now :
  reachable a -> archivedAt a = None -> defaultValue a = Some d ->
  exists v, DefaultFor a now = Ok v /\ dataType v = attrType a /\
    (Static d <> None -> ValidateValue a v = Ok tt).
Proof.
  intros Hr Ha Hd. destruct (reachable_checked a Hr) as (_ & _ & Hdt & _).
  apply reachable_rules, validateRules_ok in Hr as (_ & _ & _ & _ & Hdef).
  assert (Hne : attrType a <> DataTypeNone) by (intros E; by rewrite E in Hdt).
  destruct (Hdef d Hd) as [Hv Hs]. unfold DefaultFor, DefaultResolve. rewrite Hd.
  unfold DefaultValidate in Hv. destruct (Static d) as [v|].
  - destruct (Dynamic d); res_inv. breflect. exists v. split_and!; try done.
    intros _. unfold ValidateValue, IsArchived, IsZero. rewrite Ha. cbn [isSome].
    rewrite bool_decide_eq_false_2, bool_decide_eq_true_2 by congruence.
    by apply Hs.
  - destruct (Dynamic d) as [dv|]; [|discriminate].
    destruct (DynamicResolve_typed dv (attrType a) now Hv) as (v & Hv' & Ht & _).
    exists v. by split_and!.
Qed.

(** *** Identity and version *)

(** What an attribute keeps for ever. *)
Definition identity (a : AttrDefinition) :=
  (id a, tenantID a, typeDefinitionID a, internalName a, attrType a, createdAt a).

Lemma attr_step_identity a a' : attr_step a a' -> identity a' = identity a.
Proof.
  intros [u now evs Hu|now evs Ha|now evs Hr].
  - unfold Update in Hu. cbv zeta in Hu. by res_inv.
  - by apply Archive_shape in Ha as [_ ->].
  - by apply Restore_shape in Hr as [_ ->].
Qed.

(** A history of operations and the number of updates in it. *)
Inductive history : AttrDefinition -> AttrDefinition -> Z -> Prop :=
  | hist_refl a : history a a 0
  | hist_update a b c n u now evs :
      history a b n -> Update b u now = Ok (c, evs) -> history a c (n + 1)
  | hist_archive a b c n now evs :
      history a b n -> Archive b now = Ok (c, evs) -> history a c n
  | hist_restore a b c n now evs :
      history a b n -> Restore b now = Ok (c, evs) -> history a c n.

(** Whatever operations an attribute goes through, its identifier, tenant,
    type, machine name, data type and creation time stay, and its version
    counts its updates (modulo 2^64): archiving and restoring leave it. *)
Theorem attribute_identity_version a b n :
  in_int64 (version a) -> history a b n ->
  identity b = identity a /\ version b = wrap64 (version a + n).
Proof.
  intros Hr. induction 1 as [a|a b c n u now evs _ IH Hu|a b c n now evs _ IH Ha|a b c n now evs _ IH Hs].
  - split; [done|]. by rewrite Z.add_0_r, wrap64_id.
  - destruct (IH Hr) as [Hi Hv]. split.
    + rewrite <- Hi. apply attr_step_identity. by eapply step_update.
    + assert (version c = bump (version b)) as ->.
      { unfold Update in Hu. cbv zeta in Hu. by res_inv. }
      rewrite Hv. unfold bump. rewrite wrap64_add. f_equal. lia.
  - destruct (IH Hr) as [Hi Hv]. by apply Archive_shape in Ha as [_ ->].
  - destruct (IH Hr) as [Hi Hv]. by apply Restore_shape in Hs as [_ ->].
Qed.

(** Archiving an attribute and restoring it gives back the same definition
    but for the time of the last change; meanwhile updates, value writes and
    a second archival are refused. *)
Theorem attribute_archive_restore a t a' evs t' :
  archivedAt a = None -> Archive a t = Ok (a', evs) ->
  (exists evs', Restore a' t' = Ok (set_archived a None t', evs')) /\
  (forall u now, Update a' u now = Err (NewArchived AggregateType)) /\
  (forall v, ValidateValue a' v = Err (NewArchived AggregateType)) /\
  Archive a' t' = Err (NewArchived AggregateType).
Proof.
  intros _ (_ & ->)%Archive_shape. split_and!; try done. by eexists.
Qed.

End Properties.

(** ** Examples *)

Module Example.

#[local] Existing Instance Demo.std.

Definition red : Value := NewEnumValue "red".
Definition blue : Value := NewEnumValue "blue".

Definition colour_rules : UpdateInput :=
  mkUpdateInput "Colour" "" true false false false false "" "" None
    [OneOf [red; blue]] (Some (mkDefault (Some red) None)) "" 0 "".

Definition colour_input : NewInput := mkNewInput "" 3 "colour" DataTypeEnum colour_rules.

(** The definition [New] builds from that input. *)
Definition colour : AttrDefinition :=
  mkAttr 7 DefaultTenant 3 "colour" "Colour" "" DataTypeEnum true false false false false
    "" "" None [OneOf [red; blue]] (Some (mkDefault (Some red) None)) "" 0 "" 1 100 100 None.

Example colour_new :
  New colour_input 7 100 =
  Ok (colour, [Created 7 DefaultTenant 3 "colour" "Colour" DataTypeEnum true 100]).
Proof. reflexivity. Qed.

Lemma colour_reachable : reachable colour.
Proof. eapply reach_new, colour_new. Qed.

End Example.

Lemma constraints_check_exact_witness :
  let cs := [MinValue (NewIntegerValue 1); MaxValue (NewIntegerValue 10)] in
  let v := NewIntegerValue 5 in
  (ConstraintsCheck (H := Demo.std) v cs = Ok tt <->
   Forall (satisfies (H := Demo.std) v) cs) /\
  (forall cs', Permutation cs cs' ->
     ConstraintsCheck (H := Demo.std) v cs' = Ok tt <->
     ConstraintsCheck (H := Demo.std) v cs = Ok tt).
Proof.
  apply (constraints_check_exact (H := Demo.std) DataTypeInteger);
    [reflexivity| |reflexivity| |reflexivity].
  - repeat constructor; done.
  - by split.
Defined.

Lemma attribute_invariant_witness :
  let a := Example.colour in
  internalNamePattern (internalName a) = true /\
  ParseDataType (attrType a) = Ok (attrType a) /\
  ~ (multiValued a = true /\ unique a = true) /\
  ~ (multiValued a = true /\ computed a <> None) /\
  (attrType a = DataTypeEnum -> exists vs, OneOf vs ∈ constraints a) /\
  NoDup (Kind <$> constraints a) /\
  Forall (fun c => ConstraintValidate (H := Demo.std) (attrType a) c = Ok tt) (constraints a).
Proof. exact (attribute_invariant (H := Demo.std) _ Example.colour_reachable). Defined.

Lemma default_accepted_witness :
  exists v, DefaultFor Example.colour Demo.epoch = Ok v /\ dataType v = DataTypeEnum /\
    (Some Example.red <> None -> ValidateValue (H := Demo.std) Example.colour v = Ok tt).
Proof.
  exact (default_accepted (H := Demo.std) Example.colour (mkDefault (Some Example.red) None)
    Demo.epoch Example.colour_reachable eq_refl eq_refl).
Defined.

Lemma attribute_identity_version_witness :
  exists b, identity b = identity Example.colour /\ version b = wrap64 (1 + (0 + 1)).
Proof.
  destruct (Update (H := Demo.std) Example.colour Example.colour_rules 200) as [[b evs]|e] eqn:E;
    [|discriminate E].
  exists b. apply (attribute_identity_version (H := Demo.std) Example.colour b).
  - vm_compute. split; congruence.
  - eapply hist_update; [apply hist_refl|exact E].
Defined.

Lemma attribute_archive_restore_witness :
  let a := Example.colour in
  let a' := set_archived a (Some 200) 200 in
  (exists evs', Restore a' 300 = Ok (set_archived a None 300, evs')) /\
  (forall u now, Update (H := Demo.std) a' u now = Err (NewArchived AggregateType)) /\
  (forall v, ValidateValue (H := Demo.std) a' v = Err (NewArchived AggregateType)) /\
  Archive a' 300 = Err (NewArchived AggregateType).
Proof.
  exact (attribute_archive_restore (H := Demo.std) Example.colour 200 _ _ 300 eq_refl eq_refl).
Defined.
