(* ===== verification/Access.v ===== *)
(** Field-level access: the request context of [application/uow/context.go]
    (tenant, actor, access policy) and the resolver of [application/fieldacl].

    The process-wide fail-closed flag is an argument of [AccessFromContext]; the
    attribute repository is the resolver's own parameter, [GetMany]. *)

From Stdlib Require Import ZArith Lia String Ascii List.
From stdpp Require Import base tactics list gmap fin_maps strings option decidable pretty.
From S2P Require Import Prelude GoText Values Ids Attribute.

Open Scope Z_scope.
Open Scope go_scope.

(** ** The policy *)

(** [Perm] is a string: [PermNone], [PermRead], [PermWrite], or anything. *)
Abbreviation Perm := string.
Definition PermNone : Perm := "none".
Definition PermRead : Perm := "read".
Definition PermWrite : Perm := "write".

(** A nil [Attr] map is the empty one. *)
Record Access := mkAccess { Admin : bool; Attr : gmap string Perm; Default : Perm }.

Definition DenyAll : Access := mkAccess false ∅ PermNone.

Definition SystemAccess : Access := mkAccess true ∅ "".

Definition AccessFromPermissions (admin : bool) (unresolvedRoles : Z)
    (fieldPermissions : gmap string string) : Access :=
  if 0 <? unresolvedRoles then DenyAll
  else if admin || bool_decide (size fieldPermissions = 0%nat) then mkAccess true ∅ ""
  else mkAccess false fieldPermissions "".

Definition level (a : Access) (name : string) : Perm :=
  match Attr a !! name with
  | Some p => p
  | None => if negb (str_IsZero (Default a)) then Default a else PermWrite
  end.

Definition CanRead (a : Access) (name : string) : bool :=
  if Admin a then true
  else let p := level a name in bool_decide (p = PermRead) || bool_decide (p = PermWrite).

Definition CanWrite (a : Access) (name : string) : bool :=
  if Admin a then true else bool_decide (level a name = PermWrite).

Definition ReadsEverything (a : Access) : bool :=
  if Admin a then true
  else if bool_decide (Default a = PermNone) then false
  else negb (existsb (fun kv => bool_decide (kv.2 = PermNone)) (map_to_list (Attr a))).

(** ** The request context *)

Record Actor := mkActor { ActorID : string; ActorName : string; ActorKind : string }.

Record Context := mkContext {
  tenantKey : option TenantID;
  actorKey : option Actor;
  accessKey : option Access }.

Definition WithTenant (ctx : Context) (t : TenantID) : Context :=
  mkContext (Some t) (actorKey ctx) (accessKey ctx).

Definition TenantFromContext (ctx : Context) : TenantID :=
  match tenantKey ctx with
  | Some t => if negb (str_IsZero t) then t else DefaultTenant
  | None => DefaultTenant
  end.

Definition ActorFromContext (ctx : Context) : Actor :=
  match actorKey ctx with Some a => a | None => mkActor "" "" "system" end.

Definition AccessFromContext (failClosed : bool) (ctx : Context) : Access :=
  match accessKey ctx with
  | Some a => a
  | None => if failClosed then DenyAll else mkAccess true ∅ ""
  end.

(** ** The resolver ([fieldacl.go]) *)

Section Resolver.
Context `{GoUlid}.
Variable GetMany : list ID -> result (list AttrDefinition).

Fixpoint dedupe_from (seen : gset string) (ids : list ID) : list ID :=
  match ids with
  | [] => []
  | i :: ids =>
      if bool_decide (ulid_String i ∈ seen) then dedupe_from seen ids
      else i :: dedupe_from ({[ulid_String i]} ∪ seen) ids
  end.

Definition dedupe (ids : list ID) : list ID := dedupe_from ∅ ids.

Definition Names (ids : list ID) : result (gmap string string) :=
  if bool_decide (ids = []) then Ok ∅
  else
    let! defs := GetMany ids in
    Ok (fold_left (fun out d => <[ulid_String (id d) := internalName d]> out) defs ∅).

(** [Readable] and [Writable] differ in the question they ask of the policy. *)
Definition permitted (can : Access -> string -> bool) (access : Access) (ids : list ID) :
    result (gmap string bool) :=
  if Admin access then
    Ok (fold_left (fun out i => <[ulid_String i := true]> out) ids ∅)
  else
    let! names := Names (dedupe ids) in
    Ok (fold_left (fun out i =>
          <[ulid_String i := match names !! ulid_String i with
                             | Some name => can access name
                             | None => false
                             end]> out) ids ∅).

Definition Readable (access : Access) (ids : list ID) : result (gmap string bool) :=
  permitted CanRead access ids.

Definition Writable (access : Access) (ids : list ID) : result (gmap string bool) :=
  permitted CanWrite access ids.

(** A missing key of a [map[string]bool] reads as false. *)
Definition lookup_bool (m : gmap string bool) (k : string) : bool := default false (m !! k).

Definition MayRead (access : Access) (i : ID) : result bool :=
  let! m := Readable access [i] in Ok (lookup_bool m (ulid_String i)).

Definition MayWrite (access : Access) (i : ID) : result bool :=
  let! m := Writable access [i] in Ok (lookup_bool m (ulid_String i)).

Definition AnyReadable (access : Access) (ids : list ID) : result bool :=
  if bool_decide (ids = []) then Ok false
  else
    let! m := Readable access ids in
    Ok (existsb (fun kv => kv.2) (map_to_list m)).

End Resolver.

(** ** Properties *)

(** Levels an administrator can store ([validateFieldPermissions]). *)
Definition known_level (p : Perm) : Prop := p = PermNone \/ p = PermRead \/ p = PermWrite.

Definition policy_ok (a : Access) : Prop :=
  map_Forall (fun _ => known_level) (Attr a) /\ (Default a = EmptyString \/ known_level (Default a)).

Lemma CanWrite_CanRead a name : CanWrite a name = true -> CanRead a name = true.
Proof.
  unfold CanWrite, CanRead. destruct (Admin a); [done|]. cbv zeta. intros Hw.
  breflect. rewrite Hw. reflexivity.
Qed.

Lemma CanRead_known a name :
  policy_ok a -> CanRead a name = true <-> Admin a = true \/ level a name <> PermNone.
Proof.
  intros [Ha Hd]. unfold CanRead. destruct (Admin a); [naive_solver|].
  assert (known_level (level a name)) as Hl.
  { unfold level. destruct (Attr a !! name) as [p|] eqn:E; [exact (Ha _ _ E)|].
    unfold str_IsZero. destruct Hd as [->|Hd]; [by right; right|].
    case_bool_decide; [by right; right|done]. }
  cbv zeta. rewrite orb_true_iff, !bool_decide_eq_true.
  split; [intros [->| ->]; by right|]. intros [?|Hn]; [done|].
  destruct Hl as [?|[?|?]]; auto; done.
Qed.

Lemma level_unlisted a name : Attr a !! name = None -> Default a = PermNone -> level a name = PermNone.
Proof. intros Hn Hd. unfold level. by rewrite Hn, Hd. Qed.

Lemma ReadsEverything_listed a name p :
  ReadsEverything a = true -> Admin a = false -> Attr a !! name = Some p -> p <> PermNone.
Proof.
  unfold ReadsEverything. intros Hr Ha Hp ->. rewrite Ha in Hr.
  case_bool_decide; [done|]. apply negb_true_iff in Hr.
  assert (existsb (fun kv => bool_decide (kv.2 = PermNone)) (map_to_list (Attr a)) = true) as He;
    [|congruence].
  apply existsb_exists. exists (name, PermNone). split; [|done].
  by apply list_elem_of_In, elem_of_map_to_list.
Qed.

Lemma ReadsEverything_reads a name : policy_ok a -> ReadsEverything a = true -> CanRead a name = true.
Proof.
  intros Hok Hr. apply CanRead_known; [done|]. destruct (Admin a) eqn:Ea; [by left|]. right.
  unfold level. destruct (Attr a !! name) as [p|] eqn:Ep; [by eapply ReadsEverything_listed|].
  unfold ReadsEverything in Hr. rewrite Ea in Hr. case_bool_decide; [done|]. by destruct (str_IsZero _).
Qed.

(** [ReadsEverything], which surfaces that cannot redact rely on, holds for
    exactly the policies under which every attribute name, listed or not, may be
    read; a policy that may write an attribute may read it. *)
Theorem reads_everything_exact a :
  policy_ok a ->
  (ReadsEverything a = true <-> forall name, CanRead a name = true) /\
  (forall name, CanWrite a name = true -> CanRead a name = true).
Proof.
  intros Hok. split; [|exact (CanWrite_CanRead a)]. setoid_rewrite CanRead_known; [|done].
  destruct (Admin a) eqn:Ea; [unfold ReadsEverything; rewrite Ea; naive_solver|]. split.
  - intros Hr name. rewrite <- Ea, <- CanRead_known by done. by apply ReadsEverything_reads.
  - intros Hall. unfold ReadsEverything. rewrite Ea. case_bool_decide as Hd.
    + destruct (Hall (fresh (dom (Attr a)))) as [?|Hl]; [done|]. destruct Hl.
      apply level_unlisted; [|done]. apply not_elem_of_dom, is_fresh.
    + apply negb_true_iff, not_true_iff_false. rewrite existsb_exists.
      intros ([name p] & Hin & Hp). breflect. simpl in Hp. subst p.
      apply list_elem_of_In, elem_of_map_to_list in Hin.
      destruct (Hall name) as [?|Hl]; [done|]. destruct Hl. unfold level. by rewrite Hin.
Qed.

Section ResolverFacts.
Context `{GoUlid}.

Lemma dedupe_elem ids seen i :
  i ∈ dedupe_from seen ids ->
  i ∈ ids.
Proof.
  revert seen. induction ids as [|j ids IH]; intros seen; simpl; [done|].
  case_bool_decide; rewrite !elem_of_cons; naive_solver.
Qed.

Lemma dedupe_covers ids seen i :
  i ∈ ids -> ulid_String i ∉ seen ->
  exists j, j ∈ dedupe_from seen ids /\ ulid_String j = ulid_String i.
Proof.
  revert seen. induction ids as [|j ids IH]; intros seen; simpl; [by intros ?%elem_of_nil|].
  intros [->|Hi]%elem_of_cons Hs.
  - rewrite bool_decide_eq_false_2 by done. exists j. split; [by left|done].
  - case_bool_decide as Hj; [by apply IH|].
    destruct (decide (ulid_String i = ulid_String j)) as [E|E]; [exists j; split; [by left|done]|].
    destruct (IH ({[ulid_String j]} ∪ seen) Hi) as (k & Hk & Ek); [set_solver|].
    exists k. split; [by right|done].
Qed.

(** The attribute repository over the stored definitions: [GetMany] returns
    exactly the stored definitions asked for. *)
Definition repository (defs : gmap ID AttrDefinition)
    (GetMany : list ID -> result (list AttrDefinition)) : Prop :=
  map_Forall (fun i d => id d = i) defs /\
  forall ids, exists ds, GetMany ids = Ok ds /\
    forall d, d ∈ ds <-> id d ∈ ids /\ defs !! id d = Some d.

Context (defs : gmap ID AttrDefinition) (GetMany : list ID -> result (list AttrDefinition)).
Hypothesis repo : repository defs GetMany.
(** The text form of a ULID is canonical. *)
Hypothesis ulid_inj : Inj (=) (=) ulid_String.

Lemma Names_exact ids i :
  exists names, Names GetMany ids = Ok names /\
    (i ∈ ids -> names !! ulid_String i = internalName <$> (defs !! i)).
Proof using repo ulid_inj.
  clear -repo ulid_inj. unfold Names. destruct repo as [Hid Hget].
  case_bool_decide as E; [exists ∅; split; [done|]; subst; set_solver|].
  destruct (Hget ids) as (ds & -> & Hds). simpl. eexists. split; [done|]. intros Hi.
  change (fold_left _ ds ∅) with
    (insert_all (fun d => ulid_String (id d)) internalName ds ∅).
  destruct (defs !! i) as [d|] eqn:Ed.
  - assert (id d = i) as Ei by exact (Hid _ _ Ed).
    assert (d ∈ ds) as Hd by (apply Hds; by rewrite Ei).
    rewrite <- Ei at 1.
    change (ulid_String (id d)) with ((fun d => ulid_String (id d)) d).
    rewrite insert_all_member; [done| |done].
    intros j Hj E'%(inj _). apply Hds in Hj as [_ Hj]. congruence.
  - simpl. rewrite insert_all_other; [done|]. intros d Hd E'%(inj _).
    apply Hds in Hd as [_ Hd]. congruence.
Qed.

Definition allowed (can : Access -> string -> bool) (access : Access) (i : ID) : bool :=
  Admin access || match defs !! i with Some d => can access (internalName d) | None => false end.

Lemma permitted_exact can access ids :
  exists m, permitted GetMany can access ids = Ok m /\
    forall i, lookup_bool m (ulid_String i) = bool_decide (i ∈ ids) && allowed can access i.
Proof using repo ulid_inj.
  unfold permitted, allowed, lookup_bool. destruct (Admin access); cbn [orb].
  - eexists. split; [done|]. intros i.
    change (fold_left _ ids ∅) with (insert_all ulid_String (fun _ : ID => true) ids ∅).
    case_bool_decide as Hi.
    + by rewrite insert_all_member.
    + rewrite insert_all_other; [done|]. intros j Hj E%(inj _). by subst.
  - assert (exists names, Names GetMany (dedupe ids) = Ok names) as [names Hn].
    { destruct (Names_exact (dedupe ids) 0%N) as (names & ? & _). eauto. }
    rewrite Hn. cbn [res_bind]. eexists. split; [done|]. intros i.
    change (fold_left _ ids ∅) with (insert_all ulid_String (fun i =>
      match names !! ulid_String i with Some name => can access name | None => false end) ids ∅).
    case_bool_decide as Hi.
    + rewrite insert_all_member by (done || intros ? ? E; by rewrite E).
      destruct (Names_exact (dedupe ids) i) as (names' & Hn' & Hl).
      assert (names' = names) as -> by congruence. rewrite Hl; [by destruct (defs !! i)|].
      destruct (dedupe_covers ids ∅ i Hi) as (j & Hj & E%(inj _)); [set_solver|]. by subst.
    + rewrite insert_all_other; [done|]. intros j Hj E%(inj _). by subst.
Qed.

Lemma permitted_one can access i :
  (let! m := permitted GetMany can access [i] in Ok (lookup_bool m (ulid_String i))) =
  Ok (allowed can access i).
Proof using repo ulid_inj.
  destruct (permitted_exact can access [i]) as (m & -> & Hm). simpl.
  by rewrite Hm, bool_decide_eq_true_2 by by left.
Qed.

Lemma Readable_keys access ids m k v :
  permitted GetMany CanRead access ids = Ok m -> m !! k = Some v ->
  exists i, i ∈ ids /\ ulid_String i = k.
Proof using.
  clear. unfold permitted. intros Hm Hk.
  assert (forall f : ID -> bool, insert_all ulid_String f ids ∅ = m ->
    exists i, i ∈ ids /\ ulid_String i = k) as Hall.
  { intros f <-. destruct (decide (k ∈ ulid_String <$> ids)) as [Hin|Hin].
    - apply list_elem_of_fmap in Hin as (i & E & Hi). eauto.
    - rewrite insert_all_other in Hk; [done|]. intros i Hi E. apply Hin.
      apply list_elem_of_fmap. eauto. }
  destruct (Admin access); [injection Hm as Hm; by apply Hall in Hm|].
  res_inv. by eapply Hall.
Qed.

(** Over a lawful attribute repository the resolver never fails and its
    answers are the policy's: an attribute is readable (writable) exactly when
    the principal is an administrator, or it is a stored definition whose name
    the policy lets the principal read (write) - an unknown one is neither -
    and a media blob is reachable when some attribute referencing it is
    readable. *)
Theorem field_access_exact access :
  (forall i, MayRead GetMany access i = Ok (allowed CanRead access i)) /\
  (forall i, MayWrite GetMany access i = Ok (allowed CanWrite access i)) /\
  (forall ids, AnyReadable GetMany access ids = Ok (existsb (allowed CanRead access) ids)).
Proof using repo ulid_inj.
  split_and!; [intros i; apply permitted_one|intros i; apply permitted_one|].
  intros ids. unfold AnyReadable. case_bool_decide as E; [by subst|].
  unfold Readable. destruct (permitted_exact CanRead access ids) as (m & Em & Hm).
  rewrite Em. simpl. f_equal. apply eq_bool_prop_intro. rewrite !Is_true_true, !existsb_exists.
  split.
  - intros ([k v] & Hin & Hv). simpl in Hv. subst v.
    apply list_elem_of_In, elem_of_map_to_list in Hin.
    destruct (Readable_keys access ids m k true Em Hin) as (i & Hi & <-).
    exists i. split; [by apply list_elem_of_In|]. specialize (Hm i).
    unfold lookup_bool in Hm. rewrite Hin in Hm. simpl in Hm. symmetry in Hm. by breflect.
  - intros (i & Hi%list_elem_of_In & Ha). exists (ulid_String i, true). split; [|done].
    apply list_elem_of_In, elem_of_map_to_list. specialize (Hm i).
    rewrite bool_decide_eq_true_2, Ha in Hm by done. unfold lookup_bool in Hm.
    destruct (m !! ulid_String i) as [[]|]; done.
Qed.

End ResolverFacts.

(** ** Witnesses *)

Module AccessExample.

(** Decimal text form. *)
#[export] Instance ulid : GoUlid := {
  ulid_String := pretty;
  ulid_ParseStrict := fun s => option_map Z.to_N (ParseInt s)
}.

#[export] Instance ulid_inj : Inj (=) (=) (ulid_String (GoUlid := ulid)).
Proof. intros i j E. by apply (inj pretty). Qed.

Definition salary : AttrDefinition :=
  mkAttr 7 DefaultTenant 3 "salary" "Salary" "" DataTypeInteger false false false false false
    "" "" None [] None "" 0 "" 1 100 100 None.

Definition defs : gmap ID AttrDefinition := {[ 7%N := salary ]}.

Definition GetMany (ids : list ID) : result (list AttrDefinition) :=
  Ok (if bool_decide (7%N ∈ ids) then [salary] else []).

Lemma repo : repository defs GetMany.
Proof.
  split; [by apply map_Forall_singleton|]. intros ids. eexists. split; [done|].
  intros d. unfold defs. rewrite lookup_singleton_Some. case_bool_decide; set_solver.
Qed.

Definition no_salary : Access := mkAccess false {[ "salary"%string := PermNone ]} "".

End AccessExample.

Lemma reads_everything_exact_witness :
  policy_ok AccessExample.no_salary /\
  (ReadsEverything AccessExample.no_salary = true <->
   forall name, CanRead AccessExample.no_salary name = true).
Proof.
  assert (policy_ok AccessExample.no_salary) as Hok.
  { split; [|by left]. apply map_Forall_singleton. by left. }
  split; [exact Hok|]. exact (proj1 (reads_everything_exact _ Hok)).
Defined.

Lemma field_access_exact_witness :
  MayRead AccessExample.GetMany AccessExample.no_salary 7%N (H := AccessExample.ulid) = Ok false.
Proof.
  exact (proj1 (field_access_exact (H := AccessExample.ulid) AccessExample.defs
    AccessExample.GetMany AccessExample.repo AccessExample.ulid_inj AccessExample.no_salary) 7%N).
Defined.
