(* ===== verification/TypeDef.v ===== *)
(** Type definitions: the aggregate ([domain/typedef/aggregate.go]), the walks of
    the hierarchy ([application/typedef/hierarchy.go]), the usecases that change
    the catalogue ([application/typedef/interactor.go]) and the table behind them
    ([infrastructure/memory/definitions.go]).

    A usecase is one unit of work: a function from the catalogue to a new one
    and its events, or an error that leaves it unchanged. *)

From Stdlib Require Import ZArith Lia String Ascii List.
From stdpp Require Import base tactics list gmap fin_maps strings option decidable relations.
From S2P Require Import Prelude GoText Ids.

Open Scope Z_scope.
Open Scope go_scope.

(** ** The aggregate *)

Inductive TypeKind := KindEntity | KindRelationshipAttributes.

#[export] Instance TypeKind_eq_dec : EqDecision TypeKind.
Proof. solve_decision. Defined.

Record TypeDefinition := mkType {
  tdID : ID;
  tdTenantID : TenantID;
  tdKind : TypeKind;
  tdInternalName : string;
  tdDisplayName : string;
  tdDescription : string;
  tdExtendsID : option ID;
  tdVersion : Z;
  tdCreatedAt : Z;
  tdUpdatedAt : Z;
  tdArchivedAt : option Z }.

Inductive TypeEvent :=
  | TypeCreated (i : ID) (tenant : TenantID) (name display : string) (extends : option ID) (at_ : Z)
  | TypeUpdated (i : ID) (tenant : TenantID) (display description : string) (version at_ : Z)
  | TypeArchived (i : ID) (tenant : TenantID) (at_ : Z)
  | TypeRestored (i : ID) (tenant : TenantID) (at_ : Z).

Definition TypeAggregate : string := "type_definition".

Definition TypeIsArchived (t : TypeDefinition) : bool := isSome (tdArchivedAt t).

Record TypeInput := mkTypeInput {
  tiTenantID : TenantID;
  tiInternalName : string;
  tiDisplayName : string;
  tiDescription : string;
  tiExtends : option TypeDefinition }.

Definition TypeNew (i : TypeInput) (fresh : ID) (now : Z) :
    result (TypeDefinition * list TypeEvent) :=
  let tenant := if str_IsZero (tiTenantID i) then DefaultTenant else tiTenantID i in
  guard! negb (internalNamePattern (tiInternalName i))
    else NewValidation "internal name must be snake_case, start with a letter and be 2-63 characters" then
  guard! str_IsZero (tiDisplayName i) else NewValidation "display name is required" then
  check! (match tiExtends i with
    | None => Ok tt
    | Some p =>
        guard! negb (bool_decide (tdKind p = KindEntity))
          else NewValidation "only entity types can be extended" then
        guard! negb (bool_decide (tdTenantID p = tenant))
          else NewValidation "a type can only extend a type in the same tenant" then
        guard! TypeIsArchived p else NewValidation "cannot extend an archived type" then
        Ok tt
    end) then
  let t := mkType fresh tenant KindEntity (tiInternalName i) (tiDisplayName i) (tiDescription i)
    (tdID <$> tiExtends i) 1 now now None in
  Ok (t, [TypeCreated fresh tenant (tiInternalName i) (tiDisplayName i) (tdExtendsID t) now]).

Definition TypeUpdate (t : TypeDefinition) (display description : string) (now : Z) :
    result (TypeDefinition * list TypeEvent) :=
  guard! TypeIsArchived t else NewArchived TypeAggregate then
  guard! str_IsZero display else NewValidation "display name is required" then
  if bool_decide (tdDisplayName t = display) && bool_decide (tdDescription t = description) then
    Ok (t, [])
  else
    let t' := mkType (tdID t) (tdTenantID t) (tdKind t) (tdInternalName t) display description
      (tdExtendsID t) (bump (tdVersion t)) (tdCreatedAt t) now (tdArchivedAt t) in
    Ok (t', [TypeUpdated (tdID t) (tdTenantID t) display description (tdVersion t') now]).

Definition set_type_archived (t : TypeDefinition) (at_ : option Z) (now : Z) : TypeDefinition :=
  mkType (tdID t) (tdTenantID t) (tdKind t) (tdInternalName t) (tdDisplayName t) (tdDescription t)
    (tdExtendsID t) (tdVersion t) (tdCreatedAt t) now at_.

Definition TypeArchive (t : TypeDefinition) (now : Z) : result (TypeDefinition * list TypeEvent) :=
  guard! TypeIsArchived t else NewArchived TypeAggregate then
  Ok (set_type_archived t (Some now) now, [TypeArchived (tdID t) (tdTenantID t) now]).

Definition TypeRestore (t : TypeDefinition) (now : Z) : result (TypeDefinition * list TypeEvent) :=
  guard! negb (TypeIsArchived t) else NewValidation "type definition is not archived" then
  Ok (set_type_archived t None now, [TypeRestored (tdID t) (tdTenantID t) now]).

Definition NewAttributeSet (tenant : TenantID) (name display : string) (fresh : ID) (now : Z) :
    result (TypeDefinition * list TypeEvent) :=
  let! te := TypeNew (mkTypeInput tenant name display EmptyString None) fresh now in
  let t := te.1 in
  Ok (mkType (tdID t) (tdTenantID t) KindRelationshipAttributes (tdInternalName t) (tdDisplayName t)
        (tdDescription t) (tdExtendsID t) (tdVersion t) (tdCreatedAt t) (tdUpdatedAt t)
        (tdArchivedAt t), te.2).

(** ** The table *)

Abbreviation Catalogue := (gmap ID TypeDefinition).

Definition TypeGet (c : Catalogue) (i : ID) : result TypeDefinition :=
  match c !! i with Some t => Ok t | None => Err (NewNotFound TypeAggregate) end.

Definition same_name (tenant : TenantID) (name : string) (t : TypeDefinition) : bool :=
  bool_decide (tdTenantID t = tenant) && bool_decide (tdInternalName t = name) &&
  negb (TypeIsArchived t).

(** [GetByInternalName]; a live name is unique, see [catalogue_ok]. *)
Definition GetByInternalName (c : Catalogue) (tenant : TenantID) (name : string) :
    result TypeDefinition :=
  match List.filter (same_name tenant name) (values c) with
  | t :: _ => Ok t
  | [] => Err (NewNotFound TypeAggregate)
  end.

Definition by_name (a b : TypeDefinition) : bool :=
  String.leb (tdInternalName a) (tdInternalName b).

Definition ListChildren (c : Catalogue) (parent : ID) : list TypeDefinition :=
  sort_by by_name (List.filter (fun t => bool_decide (tdExtendsID t = Some parent) &&
    negb (TypeIsArchived t)) (values c)).

Definition TypeSave (c : Catalogue) (t : TypeDefinition) : result Catalogue :=
  guard! negb (TypeIsArchived t) &&
      existsb (fun o => negb (bool_decide (tdID o = tdID t)) &&
        same_name (tdTenantID t) (tdInternalName t) o) (values c)
    else NewConflict "a type with this internal name already exists" then
  Ok (<[tdID t := t]> c).

(** ** Walks of the hierarchy *)

Definition maxHierarchyDepth : nat := 10.

Definition ErrCycle : Error := NewValidation "type hierarchy forms a cycle".
Definition ErrDepth : Error := NewValidation "type hierarchy exceeds the supported depth".

(** The loop of [Ancestors]; [seen] is its map, [rounds] the rounds left. *)
Fixpoint ancestorsLoop (c : Catalogue) (rounds : nat) (seen : list ID) (current : TypeDefinition)
    (out : list TypeDefinition) : result (list TypeDefinition) :=
  match rounds with
  | O => Err ErrDepth
  | S rounds =>
      match tdExtendsID current with
      | None => Ok out
      | Some p =>
          guard! bool_decide (p ∈ seen) else ErrCycle then
          let! parent := TypeGet c p in
          ancestorsLoop c rounds (p :: seen) parent (out ++ [parent])
      end
  end.

Definition Ancestors (c : Catalogue) (t : TypeDefinition) : result (list TypeDefinition) :=
  ancestorsLoop c maxHierarchyDepth [tdID t] t [].

Definition Chain (c : Catalogue) (t : TypeDefinition) : result (list TypeDefinition) :=
  let! ancestors := Ancestors c t in Ok (t :: ancestors).

(** The variables of [Descendants]: the map, the result, the next frontier. *)
Record Walk := mkWalk { wSeen : list ID; wOut : list TypeDefinition; wNext : list ID }.

Definition visit (w : Walk) (child : TypeDefinition) : Walk :=
  if bool_decide (tdID child ∈ wSeen w) then w
  else mkWalk (tdID child :: wSeen w) (wOut w ++ [child]) (wNext w ++ [tdID child]).

Definition level_walk (c : Catalogue) (frontier : list ID) (w : Walk) : Walk :=
  fold_left (fun w i => fold_left visit (ListChildren c i) w) frontier w.

Fixpoint descendantsLoop (c : Catalogue) (rounds : nat) (frontier : list ID) (w : Walk) :
    list TypeDefinition :=
  match rounds with
  | O => wOut w
  | S rounds =>
      if bool_decide (frontier = []) then wOut w
      else
        let w' := level_walk c frontier (mkWalk (wSeen w) (wOut w) []) in
        descendantsLoop c rounds (wNext w') w'
  end.

Definition Descendants (c : Catalogue) (t : TypeDefinition) : list TypeDefinition :=
  descendantsLoop c maxHierarchyDepth [tdID t] (mkWalk [tdID t] [] []).

Definition Root (c : Catalogue) (t : TypeDefinition) : result TypeDefinition :=
  let! ancestors := Ancestors c t in
  Ok (match list.last ancestors with Some r => r | None => t end).

Definition IsAncestorOrSelf (c : Catalogue) (t : TypeDefinition) (candidate : ID) : result bool :=
  if bool_decide (tdID t = candidate) then Ok true
  else
    let! ancestors := Ancestors c t in
    Ok (existsb (fun a => bool_decide (tdID a = candidate)) ancestors).

(** ** Usecases *)

Section Usecases.
Context `{GoUlid}.

(** [EnsureTenant] *)
Definition EnsureTenant (tenant owner : TenantID) (entity : string) : result unit :=
  if bool_decide (owner = tenant) then Ok tt else Err (NewNotFound entity).

Record CreateInput := mkCreateInput {
  ciInternalName : string;
  ciDisplayName : string;
  ciDescription : string;
  ciExtendsID : string }.

Definition isNotFound (e : Error) : bool := bool_decide (ErrorCode e = CodeNotFound).

Definition loadParent (c : Catalogue) (raw : string) : result (option TypeDefinition) :=
  if str_IsZero raw then Ok None
  else
    match ParseID raw with
    | Err e => Err (NewValidation (String.append "extends: " (Message e)))
    | Ok p =>
        let! parent := TypeGet c p in
        let! _ := Ancestors c parent in
        Ok (Some parent)
    end.

Definition TypeCreate (tenant : TenantID) (i : CreateInput) (fresh : ID) (now : Z)
    (c : Catalogue) : result (Catalogue * TypeDefinition * list TypeEvent) :=
  guard! is_ok (GetByInternalName c tenant (ciInternalName i))
    else NewConflict "internal name already in use" then
  let! extends := loadParent c (ciExtendsID i) in
  let! te := TypeNew (mkTypeInput tenant (ciInternalName i) (ciDisplayName i) (ciDescription i) extends)
    fresh now in
  let! c' := TypeSave c te.1 in
  Ok (c', te.1, te.2).

(** [Update]; [version] is the version the caller read, if it sends one. *)
Definition TypeUpdateCase (tenant : TenantID) (raw display description : string)
    (version : option Z) (now : Z) (c : Catalogue) :
    result (Catalogue * TypeDefinition * list TypeEvent) :=
  match ParseID raw with
  | Err e => Err (NewValidation (Message e))
  | Ok i =>
      let! t := TypeGet c i in
      check! EnsureTenant tenant (tdTenantID t) TypeAggregate then
      guard! match version with Some v => negb (v =? tdVersion t) | None => false end
        else NewConflict "the type definition was modified by someone else; reload it and retry" then
      let! te := TypeUpdate t display description now in
      if bool_decide (length te.2 = 0%nat) then Ok (c, t, [])
      else let! c' := TypeSave c te.1 in Ok (c', te.1, te.2)
  end.

(** [transition] with [Archive] or [Restore]. *)
Definition TypeTransition
    (change : TypeDefinition -> Z -> result (TypeDefinition * list TypeEvent))
    (tenant : TenantID) (raw : string) (now : Z) (c : Catalogue) :
    result (Catalogue * TypeDefinition * list TypeEvent) :=
  match ParseID raw with
  | Err e => Err (NewValidation (Message e))
  | Ok i =>
      let! t := TypeGet c i in
      check! EnsureTenant tenant (tdTenantID t) TypeAggregate then
      let! te := change t now in
      let! c' := TypeSave c te.1 in
      Ok (c', te.1, te.2)
  end.
End Usecases.
