(* ===== verification/TypeDefFacts.v ===== *)
(** What the catalogue of types promises: the invariant of every reachable
    catalogue, what the walks of the hierarchy compute and how they relate, and
    the level at which creation and the walks disagree. *)

From Stdlib Require Import ZArith Lia String Ascii List Permutation.
From stdpp Require Import base tactics list gmap fin_maps strings option decidable relations pretty.
From S2P Require Import Prelude GoText Values Ids Attribute Access TypeDef.

Open Scope Z_scope.
Open Scope go_scope.

(** ** Lineages *)

Definition keyed (c : Catalogue) : Prop := map_Forall (fun i t => tdID t = i) c.

(** The ancestors of a type as the rows say, nearest first. *)
Inductive lineage (c : Catalogue) : TypeDefinition -> list TypeDefinition -> Prop :=
  | lineage_root t : tdExtendsID t = None -> lineage c t []
  | lineage_step t i p l :
      tdExtendsID t = Some i -> c !! i = Some p -> lineage c p l -> lineage c t (p :: l).

Lemma lineage_unique c t l k : lineage c t l -> lineage c t k -> l = k.
Proof.
  intros Hl. revert k. induction Hl as [t Ht|t i p l Ht Hp Hl IH]; intros k Hk; destruct Hk as [? Hx|? j q m Hx Hq Hm];
    try congruence. assert (j = i) as -> by congruence. assert (q = p) as -> by congruence.
  f_equal. by apply IH.
Qed.

(** The lineage of an ancestor is the rest of the list. *)
Lemma lineage_drop c t l k a : lineage c t l -> l !! k = Some a -> lineage c a (drop (S k) l).
Proof.
  intros Hl. revert k. induction Hl as [t Ht|t i p l Ht Hp Hl IH]; intros [|k] Hk; simpl in *;
    simplify_eq; [done|by apply IH].
Qed.

Lemma lineage_stored c t l a : keyed c -> lineage c t l -> a ∈ l -> c !! tdID a = Some a.
Proof.
  intros Hkey. induction 1 as [t Ht|t i p l Ht Hp Hl IH]; [set_solver|].
  intros [->|Ha]%elem_of_cons; [|by apply IH]. by rewrite (Hkey i p Hp).
Qed.

(** A finite lineage repeats no type. *)
Lemma lineage_NoDup c t l :
  keyed c -> c !! tdID t = Some t -> lineage c t l -> NoDup (tdID <$> t :: l).
Proof.
  intros Hkey Ht Hl.
  assert (forall i j a b, (t :: l) !! i = Some a -> (t :: l) !! j = Some b -> tdID a = tdID b ->
    (i <= j)%nat) as Hle.
  { intros i j a b Hi Hj E.
    assert (forall k x, (t :: l) !! k = Some x -> lineage c x (drop k l) /\ c !! tdID x = Some x) as Hx.
    { intros [|k] x Hk; simpl in Hk; [injection Hk as <-; done|]. split; [by eapply lineage_drop|].
      eapply lineage_stored; [done|exact Hl|]. by eapply list_elem_of_lookup_2. }
    destruct (Hx i a Hi) as [La Sa], (Hx j b Hj) as [Lb Sb].
    assert (a = b) as -> by congruence. pose proof (lineage_unique _ _ _ _ La Lb) as E'.
    apply lookup_lt_Some in Hi, Hj. simpl in Hi, Hj.
    apply (f_equal length) in E'. rewrite !length_drop in E'. lia. }
  apply NoDup_alt. intros i j x Hi Hj. rewrite list_lookup_fmap in Hi, Hj.
  apply fmap_Some in Hi as (a & Hi & ->), Hj as (b & Hj & E).
  apply Nat.le_antisymm; [eapply Hle|eapply Hle]; eauto.
Qed.

(** [Ancestors] computes the lineage, when it is short enough. *)
Lemma ancestorsLoop_exact c n seen t out l' :
  keyed c ->
  ancestorsLoop c n seen t out = Ok l' <->
  exists l, l' = out ++ l /\ lineage c t l /\ (length l < n)%nat /\ NoDup (tdID <$> l) /\
    forall a, a ∈ l -> tdID a ∉ seen.
Proof.
  intros Hkey. revert seen t out. induction n as [|n IH]; intros seen t out; simpl.
  - split; [done|]. intros (l & _ & _ & Hn & _). lia.
  - destruct (tdExtendsID t) as [i|] eqn:Et.
    + case_bool_decide as Hi.
      * split; [done|]. intros (l & _ & Hl & _ & _ & Hs). destruct Hl as [t Hx|t j p l Hx Hp Hl]; [congruence|].
        exfalso. apply (Hs p); [by left|]. pose proof (Hkey j p Hp) as Ej. simpl in Ej. congruence.
      * unfold TypeGet. destruct (c !! i) as [p|] eqn:Ep; simpl.
        -- rewrite IH. pose proof (Hkey i p Ep) as Ei. simpl in Ei. split.
           ++ intros (l & -> & Hl & Hn & Hnd & Hs). exists (p :: l). split_and!.
              ** by rewrite <- app_assoc.
              ** by econstructor.
              ** simpl. lia.
              ** rewrite fmap_cons. constructor; [|done]. intros (a & Ea & Ha)%list_elem_of_fmap.
                 apply (Hs a Ha). rewrite <- Ea, Ei. by left.
              ** intros a [->|Ha]%elem_of_cons; [by rewrite Ei|]. specialize (Hs a Ha). set_solver.
           ++ intros (l & -> & Hl & Hn & Hnd & Hs). destruct Hl as [t Hx|t i' p' k Ht Hp Hk];
                [congruence|].
              assert (i' = i) as -> by congruence. assert (p' = p) as -> by congruence.
              rewrite fmap_cons in Hnd. apply list.NoDup_cons in Hnd as [Hx Hnd].
              exists k. split_and!; [by rewrite <- app_assoc|done|simpl in Hn; lia|done|].
              intros a Ha [E|Hin]%elem_of_cons.
              ** apply Hx. rewrite Ei, <- E. apply list_elem_of_fmap. by exists a.
              ** apply (Hs a); [by right|done].
        -- split; [done|]. intros (l & _ & Hl & _). destruct Hl; congruence.
    + split.
      * intros [= <-]. exists []. split_and!; [by rewrite app_nil_r|by constructor|simpl; lia|constructor|set_solver].
      * intros (l & -> & Hl & _). destruct Hl; [by rewrite app_nil_r|congruence].
Qed.

Lemma Ancestors_exact c t l :
  keyed c ->
  Ancestors c t = Ok l <->
  lineage c t l /\ (length l < maxHierarchyDepth)%nat /\ NoDup (tdID <$> t :: l).
Proof.
  intros Hkey. unfold Ancestors. rewrite ancestorsLoop_exact by done.
  rewrite fmap_cons, list.NoDup_cons. split.
  - intros (k & -> & Hl & Hn & Hnd & Hs). simpl. split_and!; try done.
    intros (a & E & Ha)%list_elem_of_fmap. apply (Hs a Ha). rewrite <- E. by left.
  - intros (Hl & Hn & Hx & Hnd). exists l. split_and!; try done.
    intros a Ha E%list_elem_of_singleton. apply Hx, list_elem_of_fmap. by exists a.
Qed.

Lemma ancestorsLoop_deep c n seen t out l :
  keyed c -> lineage c t l -> (n <= length l)%nat -> NoDup (tdID <$> l) ->
  (forall a, a ∈ l -> tdID a ∉ seen) -> ancestorsLoop c n seen t out = Err ErrDepth.
Proof.
  intros Hkey. revert seen t out l. induction n as [|n IH]; intros seen t out l Hl Hn Hnd Hs; [done|].
  destruct Hl as [t Ht|t i p l Ht Hp Hl]; simpl in *; [lia|]. rewrite Ht.
  pose proof (Hkey i p Hp) as Ei. simpl in Ei.
  rewrite bool_decide_false by (rewrite <- Ei; apply Hs; by left).
  unfold TypeGet. rewrite Hp. simpl. apply list.NoDup_cons in Hnd as [Hx Hnd].
  apply (IH _ _ _ l); [done|lia|done|]. intros a Ha [E|Hin]%elem_of_cons.
  - apply Hx. rewrite Ei, <- E. apply list_elem_of_fmap. by exists a.
  - apply (Hs a); [by right|done].
Qed.

(** ** The invariant of the catalogue *)

Record catalogue_ok (c : Catalogue) : Prop := {
  cok_keyed : keyed c;
  cok_names : forall t u i j, c !! i = Some t -> c !! j = Some u ->
    TypeIsArchived t = false -> TypeIsArchived u = false ->
    tdTenantID t = tdTenantID u -> tdInternalName t = tdInternalName u -> i = j;
  cok_parents : forall t p i j, c !! i = Some t -> tdExtendsID t = Some j -> c !! j = Some p ->
    tdKind p = KindEntity /\ tdTenantID p = tdTenantID t;
  cok_lineage : forall t i, c !! i = Some t ->
    exists l, lineage c t l /\ (length l <= maxHierarchyDepth)%nat;
  cok_fields : forall t i, c !! i = Some t ->
    internalNamePattern (tdInternalName t) = true /\ tdDisplayName t <> EmptyString /\
    tdTenantID t <> EmptyString }.

(** What no change of a type touches. *)
Definition type_identity (t : TypeDefinition) :=
  (tdID t, tdTenantID t, tdKind t, tdInternalName t, tdExtendsID t, tdCreatedAt t).

(** A row replaced by one of the same identity keeps every lineage, renewed. *)
Lemma lineage_replace c t0 t' :
  keyed c -> c !! tdID t0 = Some t0 -> type_identity t' = type_identity t0 ->
  forall t l, lineage c t l ->
    lineage (<[tdID t' := t']> c) t ((fun a => if bool_decide (tdID a = tdID t0) then t' else a) <$> l).
Proof.
  intros Hkey Ht0 Hid t l. unfold type_identity in Hid.
  assert (tdID t' = tdID t0) as Ei by congruence. rewrite Ei.
  induction 1 as [t Ht|t i p l Ht Hp Hl IH]; [by constructor|]. rewrite fmap_cons.
  pose proof (Hkey i p Hp) as Ep. simpl in Ep. destruct (decide (i = tdID t0)) as [->|Hne].
  - rewrite bool_decide_true by done. econstructor; [exact Ht|apply lookup_insert_eq|].
    assert (p = t0) as -> by congruence.
    inversion IH as [? Hx|? j q k Hx Hq Hk]; subst.
    + constructor. congruence.
    + econstructor; [|exact Hq|exact Hk]. congruence.
  - rewrite bool_decide_false by congruence.
    econstructor; [exact Ht|by rewrite lookup_insert_ne|exact IH].
Qed.

(** A new row keeps every lineage. *)
Lemma lineage_add c i t' t l :
  c !! i = None -> lineage c t l -> lineage (<[i := t']> c) t l.
Proof.
  intros Hi. induction 1 as [t Ht|t j p l Ht Hp Hl IH]; [by constructor|].
  econstructor; [exact Ht| |exact IH]. rewrite lookup_insert_ne; [done|congruence].
Qed.

Lemma save_names c t c' :
  keyed c -> TypeSave c t = Ok c' ->
  c' = <[tdID t := t]> c /\
  (TypeIsArchived t = false -> forall i u, c !! i = Some u -> i <> tdID t ->
     TypeIsArchived u = false -> tdTenantID u = tdTenantID t -> tdInternalName u <> tdInternalName t).
Proof.
  intros Hkey. unfold TypeSave. destruct (_ && _) eqn:E; [done|]. intros [= <-]. split; [done|].
  intros Hl i u Hu Hne Hlu Ht En. rewrite Hl in E. simpl in E.
  assert (existsb (fun o => negb (bool_decide (tdID o = tdID t)) &&
    same_name (tdTenantID t) (tdInternalName t) o) (values c) = true) as Hx; [|congruence].
  apply existsb_exists. exists u. split; [apply list_elem_of_In, values_elem; by exists i|].
  pose proof (Hkey i u Hu) as Ei. simpl in Ei.
  rewrite bool_decide_false by congruence. unfold same_name.
  rewrite !bool_decide_true by done. by rewrite Hlu.
Qed.

Lemma names_insert c t c' :
  catalogue_ok c -> TypeSave c t = Ok c' ->
  forall a b i j, c' !! i = Some a -> c' !! j = Some b ->
    TypeIsArchived a = false -> TypeIsArchived b = false ->
    tdTenantID a = tdTenantID b -> tdInternalName a = tdInternalName b -> i = j.
Proof.
  intros Hok Hs. destruct (save_names _ _ _ (cok_keyed _ Hok) Hs) as [-> Hn].
  intros a b i j Ha Hb La Lb Et En.
  destruct (decide (i = tdID t)) as [->|Hi], (decide (j = tdID t)) as [->|Hj]; [done| | |].
  - rewrite lookup_insert_eq in Ha. rewrite lookup_insert_ne in Hb by done. simplify_eq.
    exfalso. by eapply (Hn La j b).
  - rewrite lookup_insert_eq in Hb. rewrite lookup_insert_ne in Ha by done. simplify_eq.
    exfalso. by eapply (Hn Lb i a).
  - rewrite lookup_insert_ne in Ha, Hb by done. by eapply (cok_names _ Hok).
Qed.

Lemma replace_ok c t t' c' :
  catalogue_ok c -> c !! tdID t = Some t -> type_identity t' = type_identity t ->
  tdDisplayName t' <> EmptyString -> TypeSave c t' = Ok c' -> catalogue_ok c'.
Proof.
  intros Hok Ht Hid Hd Hs. pose proof (names_insert _ _ _ Hok Hs) as Hnames.
  destruct (save_names _ _ _ (cok_keyed _ Hok) Hs) as [-> _].
  pose proof (cok_keyed _ Hok) as Hkey. unfold type_identity in Hid.
  assert (forall i u, <[tdID t' := t']> c !! i = Some u ->
    exists u0, c !! i = Some u0 /\ type_identity u = type_identity u0 /\ (u = u0 \/ u = t')) as Hold.
  { intros i u Hu. destruct (decide (i = tdID t')) as [->|Hne].
    - rewrite lookup_insert_eq in Hu. injection Hu as <-. exists t. split_and!; [congruence|done|by right].
    - rewrite lookup_insert_ne in Hu by done. exists u. split_and!; [done|done|by left]. }
  split.
  - intros i u Hu. destruct (Hold i u Hu) as (u0 & Hu0 & E & _). apply Hkey in Hu0. simpl in *.
    unfold type_identity in E. congruence.
  - done.
  - intros u p i j Hu Hx Hp. destruct (Hold i u Hu) as (u0 & Hu0 & Eu & _), (Hold j p Hp) as (p0 & Hp0 & Ep & _).
    unfold type_identity in *.
    destruct (cok_parents _ Hok u0 p0 i j) as [K1 K2]; [done|congruence|done|]. split; congruence.
  - intros u i Hu. destruct (Hold i u Hu) as (u0 & Hu0 & E & Hc).
    destruct (cok_lineage _ Hok u0 i Hu0) as (l & Hl & Hn).
    exists ((fun a => if bool_decide (tdID a = tdID t) then t' else a) <$> l).
    rewrite length_fmap. split; [|done].
    pose proof (lineage_replace c t t' Hkey Ht Hid u0 l Hl) as Hr. unfold type_identity in E.
    revert Hr. generalize ((fun a => if bool_decide (tdID a = tdID t) then t' else a) <$> l).
    intros m Hr.
    inversion Hr as [? Hx|? j q k Hx Hq Hk]; subst.
    + constructor. congruence.
    + econstructor; [|exact Hq|exact Hk]. congruence.
  - intros u i Hu. destruct (Hold i u Hu) as (u0 & Hu0 & E & Hc).
    destruct (cok_fields _ Hok u0 i Hu0) as (F1 & F2 & F3). unfold type_identity in E.
    split_and!; [congruence| |congruence]. by destruct Hc as [->| ->].
Qed.

(** A new row: its parent is a stored entity type whose lineage has room. *)
Lemma create_ok c t c' :
  catalogue_ok c -> c !! tdID t = None -> tdTenantID t <> EmptyString ->
  internalNamePattern (tdInternalName t) = true -> tdDisplayName t <> EmptyString ->
  (forall j, tdExtendsID t = Some j -> exists p l, c !! j = Some p /\ lineage c p l /\
     (length l < maxHierarchyDepth)%nat /\ tdKind p = KindEntity /\ tdTenantID p = tdTenantID t) ->
  TypeSave c t = Ok c' -> catalogue_ok c'.
Proof.
  intros Hok Hnew Ht Hn Hd Hpar Hs. pose proof (names_insert _ _ _ Hok Hs) as Hnames.
  destruct (save_names _ _ _ (cok_keyed _ Hok) Hs) as [-> _].
  split; [| done| | |].
  - apply map_Forall_insert_2; [done|]. apply (cok_keyed _ Hok).
  - intros u p i j Hu Hx Hp. destruct (decide (i = tdID t)) as [->|Hi].
    + rewrite lookup_insert_eq in Hu. injection Hu as <-.
      destruct (Hpar j Hx) as (q & l & Hq & _ & _ & Hk & Hten).
      rewrite lookup_insert_ne in Hp by congruence. by simplify_eq.
    + rewrite lookup_insert_ne in Hu by done.
      destruct (cok_lineage _ Hok u i Hu) as (l & Hl & _). inversion Hl as [? Hx'|? j' q l' Hx' Hq Hl']; subst;
        [congruence|]. assert (j' = j) as -> by congruence.
      rewrite lookup_insert_ne in Hp by congruence. by apply (cok_parents _ Hok u p i j).
  - intros u i Hu. destruct (decide (i = tdID t)) as [->|Hi].
    + rewrite lookup_insert_eq in Hu. injection Hu as <-.
      destruct (tdExtendsID t) as [j|] eqn:Ex; [|exists []; split; [by constructor|simpl; lia]].
      destruct (Hpar j eq_refl) as (q & l & Hq & Hl & Hlen & _).
      exists (q :: l). split; [|simpl; lia].
      econstructor; [exact Ex| |by apply lineage_add]. rewrite lookup_insert_ne; [done|congruence].
    + rewrite lookup_insert_ne in Hu by done. destruct (cok_lineage _ Hok u i Hu) as (l & Hl & Hlen).
      exists l. split; [by apply lineage_add|done].
  - intros u i Hu. destruct (decide (i = tdID t)) as [->|Hi].
    + rewrite lookup_insert_eq in Hu. by injection Hu as <-.
    + rewrite lookup_insert_ne in Hu by done. by eapply (cok_fields _ Hok).
Qed.

(** What [TypeNew] returns. *)
Lemma TypeNew_spec i fresh now t evs :
  TypeNew i fresh now = Ok (t, evs) ->
  tdID t = fresh /\ tdKind t = KindEntity /\ tdArchivedAt t = None /\
  tdExtendsID t = (tdID <$> tiExtends i) /\ tdTenantID t <> EmptyString /\
  internalNamePattern (tdInternalName t) = true /\ tdDisplayName t <> EmptyString /\
  forall p, tiExtends i = Some p -> tdKind p = KindEntity /\ tdTenantID p = tdTenantID t /\
    TypeIsArchived p = false.
Proof.
  unfold TypeNew. intros Hr. res_inv. simpl. unfold str_IsZero in *. breflect.
  split_and!; try done.
  - by case_bool_decide.
  - intros p Ep. rewrite Ep in *. res_inv. by breflect.
Qed.

Section Reachable.
Context `{GoUlid}.

(** One change of the catalogue. *)
Inductive cat_step (c c' : Catalogue) : Prop :=
  | cat_create tenant i fresh now t evs :
      c !! fresh = None -> TypeCreate tenant i fresh now c = Ok (c', t, evs) -> cat_step c c'
  | cat_update tenant raw display description version now t evs :
      TypeUpdateCase tenant raw display description version now c = Ok (c', t, evs) -> cat_step c c'
  | cat_archive tenant raw now t evs :
      TypeTransition TypeArchive tenant raw now c = Ok (c', t, evs) -> cat_step c c'
  | cat_restore tenant raw now t evs :
      TypeTransition TypeRestore tenant raw now c = Ok (c', t, evs) -> cat_step c c'
  | cat_attribute_set tenant name display fresh now t evs :
      c !! fresh = None -> NewAttributeSet tenant name display fresh now = Ok (t, evs) ->
      TypeSave c t = Ok c' -> cat_step c c'.

Inductive cat_reachable : Catalogue -> Prop :=
  | cat_empty : cat_reachable ∅
  | cat_more c c' : cat_reachable c -> cat_step c c' -> cat_reachable c'.

Lemma loadParent_spec c raw extends :
  keyed c -> loadParent c raw = Ok extends ->
  match extends with
  | None => True
  | Some p => c !! tdID p = Some p /\ exists l, Ancestors c p = Ok l
  end.
Proof.
  intros Hkey. unfold loadParent. destruct (str_IsZero raw); [by intros [= <-]|].
  destruct (ParseID raw) as [j|]; [|done]. intros Hl. res_inv. unfold TypeGet in *.
  destruct (c !! j) as [p|] eqn:Ep; [|done]. simplify_eq.
  pose proof (Hkey j _ Ep) as Ej. simpl in Ej. split; [congruence|by eexists].
Qed.

Lemma transition_ok change c tenant raw now c' t evs :
  (forall u u' es, change u now = Ok (u', es) ->
     type_identity u' = type_identity u /\ tdDisplayName u' = tdDisplayName u) ->
  catalogue_ok c -> TypeTransition change tenant raw now c = Ok (c', t, evs) -> catalogue_ok c'.
Proof.
  intros Hc Hok. unfold TypeTransition. destruct (ParseID raw) as [i|]; [|done]. intros Ht. res_inv.
  unfold TypeGet in *. destruct (c !! i) as [u|] eqn:Eu; [|done]. simplify_eq.
  pose proof (cok_keyed _ Hok i _ Eu) as Ei. simpl in Ei.
  match goal with E : change _ _ = Ok ?te |- _ => destruct te as [u' es]; apply Hc in E as [E1 E2] end.
  eapply replace_ok; [exact Hok| |exact E1| |eassumption]; [congruence|].
  rewrite E2. by apply (cok_fields _ Hok _ i).
Qed.

Lemma archive_keeps u now u' es :
  TypeArchive u now = Ok (u', es) ->
  type_identity u' = type_identity u /\ tdDisplayName u' = tdDisplayName u.
Proof. unfold TypeArchive. intros E. by res_inv. Qed.

Lemma restore_keeps u now u' es :
  TypeRestore u now = Ok (u', es) ->
  type_identity u' = type_identity u /\ tdDisplayName u' = tdDisplayName u.
Proof. unfold TypeRestore. intros E. by res_inv. Qed.

Lemma cat_step_ok c c' : cat_step c c' -> catalogue_ok c -> catalogue_ok c'.
Proof.
  destruct 1 as [tenant i fresh now t evs Hf Hc|tenant raw display description version now t evs Hc
    |tenant raw now t evs Hc|tenant raw now t evs Hc|tenant name display fresh now t evs Hf Hn Hs];
    intros Hok.
  - unfold TypeCreate in Hc. res_inv.
    match goal with
    | E1 : loadParent _ _ = Ok ?ext, E2 : TypeNew _ _ _ = Ok ?te, E3 : TypeSave _ _ = Ok _ |- _ =>
        pose proof (loadParent_spec _ _ _ (cok_keyed _ Hok) E1) as Hp; destruct te as [u es];
        apply TypeNew_spec in E2 as (K1 & K2 & K3 & K4 & K5 & K6 & K7 & K8); simpl in K4, K8, E3;
        refine (create_ok c u c' Hok _ K5 K6 K7 _ E3); [by rewrite K1|]
    end.
    intros j Hj. rewrite K4 in Hj. apply fmap_Some in Hj as (p & -> & ->). destruct Hp as [Hp [l Hl]].
    apply (Ancestors_exact _ _ _ (cok_keyed _ Hok)) in Hl as (Hl & Hlen & _).
    destruct (K8 p eq_refl) as (Q1 & Q2 & _). by exists p, l.
  - unfold TypeUpdateCase in Hc. destruct (ParseID raw) as [i|]; [|done]. res_inv.
    unfold TypeGet in *. destruct (c !! i) as [u|] eqn:Eu; [|done]. simplify_eq.
    pose proof (cok_keyed _ Hok i _ Eu) as Ei. simpl in Ei.
    case_bool_decide; [by simplify_eq|]. res_inv.
    match goal with E : TypeUpdate _ _ _ _ = Ok ?te |- _ => unfold TypeUpdate in E end. res_inv.
    unfold str_IsZero in *. breflect.
    destruct (_ && _); simplify_eq.
    match goal with E : TypeSave _ _ = Ok _ |- _ => by refine (replace_ok c x _ c' Hok Eu _ _ E) end.
  - eapply transition_ok; [|exact Hok|exact Hc]. intros u. apply archive_keeps.
  - eapply transition_ok; [|exact Hok|exact Hc]. intros u. apply restore_keeps.
  - unfold NewAttributeSet in Hn. res_inv.
    match goal with E : TypeNew _ _ _ = Ok ?te |- _ =>
      destruct te as [u es]; apply TypeNew_spec in E as (K1 & K2 & K3 & K4 & K5 & K6 & K7 & K8) end.
    simpl in *. refine (create_ok c _ c' Hok _ _ _ _ _ Hs); simpl; [by rewrite K1|done|done|done|].
    rewrite K4. intros j. done.
Qed.

Lemma cat_reachable_ok c : cat_reachable c -> catalogue_ok c.
Proof.
  induction 1 as [|c c' _ IH Hs]; [|by eapply cat_step_ok]. split; try done.
Qed.
End Reachable.

(** ** The two walks *)

Section Walks.
Variable c : Catalogue.
Hypothesis Hkey : keyed c.

Definition live_child (p u : TypeDefinition) : Prop :=
  c !! tdID u = Some u /\ tdExtendsID u = Some (tdID p) /\ TypeIsArchived u = false.

Lemma ListChildren_elem p u : u ∈ ListChildren c (tdID p) <-> live_child p u.
Proof.
  unfold ListChildren, live_child. rewrite sort_by_elem, elem_of_filter_b, values_elem.
  rewrite andb_true_iff, bool_decide_eq_true, negb_true_iff. split.
  - intros ([i Hi] & Hx & Ha). pose proof (Hkey i u Hi) as Ei. simpl in Ei. by subst i.
  - intros (Hu & Hx & Ha). split; [by eexists|done].
Qed.

Variable t : TypeDefinition.
Hypothesis Ht : c !! tdID t = Some t.

(** The state of the walk: no type twice, every type found lies below [t]. *)
Record walk_ok (w : Walk) : Prop := {
  wok_seen : forall i, i ∈ wSeen w <-> i = tdID t \/ i ∈ tdID <$> wOut w;
  wok_NoDup : NoDup (tdID t :: (tdID <$> wOut w));
  wok_below : forall u, u ∈ wOut w -> c !! tdID u = Some u /\ exists k, nsteps live_child (S k) t u;
  wok_next : wNext w ⊆ wSeen w }.

Lemma seen_stored w i : walk_ok w -> i ∈ wSeen w ->
  exists p k, tdID p = i /\ c !! i = Some p /\ nsteps live_child k t p.
Proof.
  intros [H1 _ H3 _] Hi. apply H1 in Hi as [->|(u & -> & Hu)%list_elem_of_fmap].
  - exists t, 0%nat. split_and!; [done|done|constructor].
  - destruct (H3 u Hu) as [Hs [k Hk]]. by exists u, (S k).
Qed.

Lemma visit_ok w p k u :
  walk_ok w -> nsteps live_child k t p -> live_child p u -> walk_ok (visit w u).
Proof.
  intros Hw Hp Hu. unfold visit. case_bool_decide as Hs; [done|]. destruct Hw as [H1 H2 H3 H4].
  split; simpl; [| | |set_solver].
  - intros i. rewrite fmap_app, elem_of_cons, elem_of_app, H1. simpl. set_solver.
  - rewrite fmap_app, app_comm_cons. apply list.NoDup_app. split_and!; [done| |by apply NoDup_singleton].
    intros i Hi ->%list_elem_of_singleton. apply Hs, H1. by apply elem_of_cons in Hi as [->|Hi]; auto.
  - intros x [Hx| ->%list_elem_of_singleton]%elem_of_app; [by apply H3|].
    split; [by destruct Hu|]. exists k. by eapply nsteps_r.
Qed.

Lemma visit_seen w u : tdID u ∈ wSeen (visit w u) /\ wSeen w ⊆ wSeen (visit w u) /\
  (forall i, i ∈ wSeen (visit w u) -> i ∈ wSeen w \/ i ∈ wNext (visit w u)) /\
  wNext w ⊆ wNext (visit w u).
Proof. unfold visit. case_bool_decide; simpl; split_and!; set_solver. Qed.

(** What one round adds; [G w w' us]: the types of [us] are now seen. *)
Definition grows (w w' : Walk) : Prop :=
  wSeen w ⊆ wSeen w' /\ wNext w ⊆ wNext w' /\
  forall i, i ∈ wSeen w' -> i ∈ wSeen w \/ i ∈ wNext w'.

Lemma grows_refl w : grows w w.
Proof. split_and!; [done|done|auto]. Qed.

Lemma grows_trans w w' w'' : grows w w' -> grows w' w'' -> grows w w''.
Proof.
  intros (A1 & A2 & A3) (B1 & B2 & B3). split_and!; [set_solver|set_solver|].
  intros i Hi. destruct (B3 i Hi) as [Hi'|]; [|by right]. destruct (A3 i Hi'); [by left|right; set_solver].
Qed.

Lemma visits_ok us w p k :
  walk_ok w -> nsteps live_child k t p -> (forall u, u ∈ us -> live_child p u) ->
  walk_ok (fold_left visit us w) /\ grows w (fold_left visit us w) /\
  forall u, u ∈ us -> tdID u ∈ wSeen (fold_left visit us w).
Proof.
  intros Hw Hp. revert w Hw. induction us as [|u us IH]; intros w Hw Hus; simpl.
  - split_and!; [done|apply grows_refl|set_solver].
  - destruct (visit_seen w u) as (S1 & S2 & S3 & S4).
    destruct (IH (visit w u)) as (I1 & I2 & I3);
      [by eapply visit_ok, Hus; [done|done|left]|intros x Hx; apply Hus; by right|].
    split_and!; [done|by eapply grows_trans; [|exact I2]|].
    intros x [->|Hx]%elem_of_cons; [|by apply I3]. destruct I2 as (I2 & _). by apply I2.
Qed.

Lemma level_ok frontier w :
  walk_ok w -> frontier ⊆ wSeen w ->
  walk_ok (level_walk c frontier w) /\ grows w (level_walk c frontier w) /\
  forall p u, tdID p ∈ frontier -> live_child p u -> tdID u ∈ wSeen (level_walk c frontier w).
Proof.
  unfold level_walk. revert w. induction frontier as [|i frontier IH]; intros w Hw Hf; simpl.
  - split_and!; [done|apply grows_refl|set_solver].
  - destruct (seen_stored w i Hw) as (p & k & <- & Hp & Hk); [set_solver|].
    destruct (visits_ok (ListChildren c (tdID p)) w p k Hw Hk) as (V1 & V2 & V3);
      [intros u; apply ListChildren_elem|].
    destruct (IH (fold_left visit (ListChildren c (tdID p)) w) V1) as (I1 & I2 & I3);
      [destruct V2 as (V2 & _); set_solver|].
    split_and!; [done|by eapply grows_trans|].
    intros q u [E|Hq]%elem_of_cons Hu; [|by eapply I3].
    destruct I2 as (I2 & _). apply I2, V3, ListChildren_elem. unfold live_child in *. by rewrite <- E.
Qed.

(** Every type below [t] is seen, level by level. *)
Definition closed (w : Walk) (frontier : list ID) : Prop :=
  forall p u, tdID p ∈ wSeen w -> live_child p u -> tdID p ∈ frontier \/ tdID u ∈ wSeen w.

Lemma closed_level w frontier j :
  (forall u k, nsteps live_child k t u -> (k <= j)%nat -> tdID u ∈ wSeen w) ->
  closed w frontier ->
  forall w', wSeen w ⊆ wSeen w' ->
  (forall p u, tdID p ∈ frontier -> live_child p u -> tdID u ∈ wSeen w') ->
  forall u k, nsteps live_child k t u -> (k <= S j)%nat -> tdID u ∈ wSeen w'.
Proof.
  intros Hj Hc w' Hs Hf u k Hu Hk. destruct (decide (k <= j)%nat); [apply Hs; eauto|].
  assert (k = S j) as -> by lia. apply nsteps_inv_r in Hu as (p & Hp & Hpu).
  destruct (Hc p u) as [Hin|Hin]; [by eapply Hj|done|by eapply Hf|by apply Hs].
Qed.

Lemma descendantsLoop_ok rounds frontier w j :
  walk_ok w -> frontier ⊆ wSeen w -> closed w frontier ->
  (forall u k, nsteps live_child k t u -> (k <= j)%nat -> tdID u ∈ wSeen w) ->
  exists w', descendantsLoop c rounds frontier w = wOut w' /\ walk_ok w' /\
    forall u k, nsteps live_child k t u -> (k <= j + rounds)%nat -> tdID u ∈ wSeen w'.
Proof.
  revert frontier w j. induction rounds as [|rounds IH]; intros frontier w j Hw Hf Hc Hj; simpl.
  - exists w. split_and!; [done|done|]. intros u k Hu Hk. apply (Hj u k Hu). lia.
  - case_bool_decide as Hnil.
    + exists w. split_and!; [done|done|]. intros u k Hu _. subst frontier. revert u Hu.
      induction k as [|k IHk]; intros u Hu; [apply (Hj u 0%nat Hu); lia|].
      apply nsteps_inv_r in Hu as (p & Hp & Hpu).
      destruct (Hc p u (IHk p Hp) Hpu) as [Hx|Hx]; [by apply not_elem_of_nil in Hx|done].
    + set (w0 := mkWalk (wSeen w) (wOut w) []).
      assert (walk_ok w0) as Hw0 by (destruct Hw; split; simpl; try done; set_solver).
      destruct (level_ok frontier w0 Hw0 Hf) as (L1 & (L2 & L3 & L4) & L5).
      destruct (IH (wNext (level_walk c frontier w0)) (level_walk c frontier w0) (S j))
        as (w' & E & Hw' & Hall); [done| | | |].
      * apply (wok_next _ L1).
      * intros p u Hp Hu. destruct (L4 _ Hp) as [Hp'|Hp']; [|by left]. right.
        destruct (Hc p u Hp' Hu) as [Hin|Hin]; [by eapply L5|by apply L2].
      * intros u k. by eapply (closed_level w frontier j).
      * exists w'. split_and!; [done|done|]. intros u k Hu Hk. apply (Hall u k Hu). lia.
Qed.
End Walks.

(** A path of live subtypes down to [u] is a stretch of the lineage of [u]. *)
Lemma path_lineage c t k u l :
  keyed c -> c !! tdID t = Some t -> lineage c u l -> c !! tdID u = Some u ->
  nsteps (live_child c) (S k) t u <->
  l !! k = Some t /\ TypeIsArchived u = false /\
    Forall (fun a => TypeIsArchived a = false) (take k l).
Proof.
  intros Hkey Ht Hl. revert k. induction Hl as [u Hu|u i p l Hu Hp Hl IH]; intros k Hs.
  - split; [|by intros [Hk _]]. intros (p & _ & _ & Hx & _)%nsteps_inv_r. congruence.
  - pose proof (Hkey i p Hp) as Ei. simpl in Ei. split.
    + intros (q & Hq & Hqu)%nsteps_inv_r. destruct Hqu as (_ & Hx & Ha).
      assert (tdID q = i) as Eq by congruence.
      destruct k as [|k]; simpl.
      * inversion Hq; subst q. split_and!; [congruence|done|constructor].
      * apply nsteps_inv_r in Hq as Hq'. destruct Hq' as (q' & Hq' & Hq'q).
        assert (q = p) as -> by (destruct Hq'q as (Hq'q & _); congruence).
        apply IH in Hq as (Hk & Hap & Hall); [|congruence].
        split_and!; [done|done|by constructor].
    + intros (Hk & Ha & Hall). destruct k as [|k]; simpl in *.
      * injection Hk as ->. eapply nsteps_r; [apply nsteps_O|]. split_and!; [done|congruence|done].
      * apply Forall_cons_iff in Hall as [Hap Hall].
        eapply nsteps_r; [|split_and!; [exact Hs|by rewrite Ei|exact Ha]].
        apply IH; [congruence|done].
Qed.

Lemma descendants_exact c t :
  catalogue_ok c -> c !! tdID t = Some t ->
  NoDup (tdID <$> t :: Descendants c t) /\
  (forall u l, c !! tdID u = Some u -> Ancestors c u = Ok l ->
     u ∈ Descendants c t <->
     exists k, l !! k = Some t /\ TypeIsArchived u = false /\
       Forall (fun a => TypeIsArchived a = false) (take k l)) /\
  (forall u, u ∈ Descendants c t -> c !! tdID u = Some u).
Proof.
  intros Hok Ht. pose proof (cok_keyed _ Hok) as Hkey.
  destruct (descendantsLoop_ok c Hkey t Ht maxHierarchyDepth [tdID t] (mkWalk [tdID t] [] []) 0)
    as (w & E & Hw & Hall).
  - split; simpl; [set_solver|apply NoDup_singleton|set_solver|set_solver].
  - done.
  - intros p u Hp _. by left.
  - intros u k Hu Hk. assert (k = 0%nat) as -> by lia. inversion Hu; subst. by left.
  - unfold Descendants. rewrite E. split_and!; [exact (wok_NoDup _ _ _ Hw)| |intros u Hu; by apply (wok_below _ _ _ Hw)].
    intros u l Hu Hl.
    apply (Ancestors_exact c u l Hkey) in Hl as (Hl & Hlen & Hnd). split.
    + intros Hin. destruct (wok_below _ _ _ Hw u Hin) as (_ & k & Hk). exists k.
      by apply (path_lineage c t k u l Hkey Ht Hl Hu).
    + intros (k & Hk). apply (path_lineage c t k u l Hkey Ht Hl Hu) in Hk as Hs.
      destruct Hk as [Hk _]. assert (tdID u ∈ wSeen w) as Hin.
      { apply (Hall u (S k) Hs). apply lookup_lt_Some in Hk. unfold maxHierarchyDepth in *. lia. }
      apply (wok_seen _ _ _ Hw) in Hin as [Ei|(v & Ei & Hv)%list_elem_of_fmap].
      * rewrite fmap_cons in Hnd. apply list.NoDup_cons in Hnd as [Hx _]. destruct Hx.
        apply list_elem_of_fmap. exists t. split; [done|]. by eapply list_elem_of_lookup_2.
      * destruct (wok_below _ _ _ Hw v Hv) as [Hvs _]. assert (v = u) as <- by congruence. done.
Qed.

Section Properties.
Context `{GoUlid}.

(** C35: the catalogue stays sound whatever is created, edited, archived and
    restored: live names are unique per tenant, every parent is a stored entity
    type of the same tenant, the hierarchy is free of cycles; [Ancestors] never
    reports a cycle or a missing type, and returns the lineage - every ancestor
    once, nearest first - of every type at most nine levels deep. *)
Theorem catalogue_sound c :
  cat_reachable c ->
  (forall t u i j, c !! i = Some t -> c !! j = Some u ->
     TypeIsArchived t = false -> TypeIsArchived u = false ->
     tdTenantID t = tdTenantID u -> tdInternalName t = tdInternalName u -> i = j) /\
  (forall t i j, c !! i = Some t -> tdExtendsID t = Some j ->
     exists p, c !! j = Some p /\ tdKind p = KindEntity /\ tdTenantID p = tdTenantID t) /\
  (forall t i, c !! i = Some t -> exists l, lineage c t l /\ NoDup (tdID <$> t :: l) /\
     (length l <= maxHierarchyDepth)%nat /\
     Ancestors c t = if (length l <? maxHierarchyDepth)%nat then Ok l else Err ErrDepth).
Proof.
  intros Hc. apply cat_reachable_ok in Hc as Hok. pose proof (cok_keyed _ Hok) as Hkey.
  split_and!; [exact (cok_names _ Hok)| |].
  - intros t i j Hi Hx. destruct (cok_lineage _ Hok t i Hi) as (l & Hl & _).
    inversion Hl as [? Hn|? j' p l' Hx' Hp _]; subst; [congruence|].
    assert (j' = j) as -> by congruence. exists p. split; [done|].
    by apply (cok_parents _ Hok t p i j).
  - intros t i Hi. pose proof (Hkey i t Hi) as Ei. simpl in Ei. subst i.
    destruct (cok_lineage _ Hok t _ Hi) as (l & Hl & Hlen). exists l.
    pose proof (lineage_NoDup c t l Hkey Hi Hl) as Hnd. split_and!; [done|done|done|].
    destruct (length l <? maxHierarchyDepth)%nat eqn:E.
    + apply Nat.ltb_lt in E. by apply Ancestors_exact.
    + apply Nat.ltb_ge in E. rewrite fmap_cons in Hnd. apply list.NoDup_cons in Hnd as [Hx Hnd].
      apply (ancestorsLoop_deep c _ _ _ _ l); [done|done|done|done|].
      intros a Ha Ein%list_elem_of_singleton. apply Hx, list_elem_of_fmap. by exists a.
Qed.

(** The walk down agrees with the walk up: a type whose ancestors can be
    listed is among the descendants of [t] exactly when [t] is one of its
    ancestors and no type from it up to [t] (exclusive) is archived; descendants
    are listed once each, and never [t] itself. *)
Theorem descendants_agree c t :
  cat_reachable c -> c !! tdID t = Some t ->
  NoDup (tdID <$> t :: Descendants c t) /\
  (forall u l, c !! tdID u = Some u -> Ancestors c u = Ok l ->
     u ∈ Descendants c t <->
     exists k, l !! k = Some t /\ TypeIsArchived u = false /\
       Forall (fun a => TypeIsArchived a = false) (take k l)).
Proof. intros Hc Ht. by destruct (descendants_exact c t (cat_reachable_ok c Hc) Ht) as (H1 & H2 & _). Qed.

(** A type can be created one level deeper than the hierarchy supports:
    [Create] walks the ancestors of the parent only, so below a type with nine
    ancestors it succeeds, and every walk from the new type fails from then on. *)
Theorem create_beyond_depth c tenant i fresh now p l c' t evs :
  cat_reachable c -> c !! fresh = None ->
  ulid_ParseStrict (ciExtendsID i) = Some (tdID p) -> ciExtendsID i <> EmptyString ->
  c !! tdID p = Some p -> Ancestors c p = Ok l -> length l = 9%nat ->
  TypeCreate tenant i fresh now c = Ok (c', t, evs) ->
  c' !! tdID t = Some t /\ TypeIsArchived t = false /\ cat_reachable c' /\
  Ancestors c' t = Err ErrDepth /\ Chain c' t = Err ErrDepth /\ Root c' t = Err ErrDepth.
Proof.
  intros Hc Hf Hparse Hx Hp Hl Hlen Hcr. assert (cat_reachable c') as Hc'.
  { eapply cat_more; [exact Hc|]. by eapply cat_create. }
  apply cat_reachable_ok in Hc as Hok. pose proof (cok_keyed _ Hok) as Hkey.
  pose proof (cok_keyed _ (cat_reachable_ok _ Hc')) as Hkey'.
  unfold TypeCreate, loadParent, ParseID in Hcr. unfold str_IsZero in Hcr.
  rewrite (bool_decide_false _ Hx), Hparse in Hcr. unfold TypeGet in Hcr. rewrite Hp in Hcr.
  res_inv. match goal with _ : TypeNew (mkTypeInput _ _ _ _ (Some ?q)) _ _ = _ |- _ =>
    rename q into p end.
  match goal with E1 : TypeNew _ _ _ = Ok ?te, E2 : TypeSave _ _ = Ok _ |- _ =>
    destruct te as [u es]; apply TypeNew_spec in E1 as (K1 & K2 & K3 & K4 & _);
    apply (save_names _ _ _ Hkey) in E2 as [-> _] end.
  simpl in *. apply (Ancestors_exact _ _ _ Hkey) in Hl as (Hlin & _ & _).
  assert (Ancestors (<[tdID u := u]> c) u = Err ErrDepth) as HE.
  { assert (lineage (<[tdID u := u]> c) u (p :: l)) as Hlin'.
    { econstructor; [exact K4| |apply lineage_add; [by rewrite K1|done]].
      rewrite lookup_insert_ne; [done|congruence]. }
    pose proof (lineage_NoDup _ u _ Hkey' (lookup_insert_eq _ _ _) Hlin') as Hnd.
    rewrite fmap_cons in Hnd. apply list.NoDup_cons in Hnd as [Hni Hnd].
    apply (ancestorsLoop_deep _ _ _ _ _ (p :: l)); [done|done|unfold maxHierarchyDepth; simpl; lia|done|].
    intros a Ha E%list_elem_of_singleton. apply Hni, list_elem_of_fmap. by exists a. }
  split_and!; [apply lookup_insert_eq|by unfold TypeIsArchived; rewrite K3|done|done|..];
    unfold Chain, Root; by rewrite HE.
Qed.
End Properties.

(** ** Witnesses: a line of types, each the subtype of the one before *)

Module Line.
Import AccessExample.

(** The type created as number [n + 1]; identifiers are decimal. *)
Definition child (n : nat) : CreateInput :=
  mkCreateInput (String.append "line" (pretty n)) "Line" EmptyString
    (match n with O => EmptyString | S _ => pretty (N.of_nat n) end).

Fixpoint grown (n : nat) : Catalogue :=
  match n with
  | O => ∅
  | S n =>
      match TypeCreate "default" (child n) (N.of_nat n + 1) 0 (grown n) with
      | Ok (c, _, _) => c
      | Err _ => grown n
      end
  end.

Lemma grown_reachable n :
  Forall (fun m => grown m !! (N.of_nat m + 1)%N = None) (seq 0 n) -> cat_reachable (grown n).
Proof.
  induction n as [|n IH]; intros Hf; [constructor|]. rewrite seq_S, Forall_app in Hf.
  destruct Hf as [Hf Hn%Forall_inv]. simpl in *.
  destruct (TypeCreate _ _ _ _ _) as [[[c t] evs]|] eqn:E; [|by apply IH].
  eapply cat_more; [by apply IH|]. by eapply cat_create.
Qed.

Definition ten : Catalogue := grown 10.

Lemma ten_reachable : cat_reachable ten.
Proof.
  apply grown_reachable. apply list.Forall_forall. intros m Hm%list_elem_of_In%in_seq.
  do 10 (destruct m as [|m]; [vm_compute; reflexivity|]). lia.
Qed.

Definition member (i : N) : TypeDefinition :=
  default (mkType 0 "" KindEntity "" "" "" None 0 0 0 None) (ten !! i).
End Line.

Lemma catalogue_sound_witness :
  exists l, lineage Line.ten (Line.member 10) l /\ length l = 9%nat.
Proof.
  destruct (catalogue_sound (H := AccessExample.ulid) Line.ten Line.ten_reachable) as (_ & _ & H).
  destruct (H (Line.member 10) 10%N) as (l & Hl & _ & _ & E); [vm_compute; reflexivity|].
  exists l. split; [exact Hl|].
  destruct (length l <? maxHierarchyDepth)%nat; vm_compute in E; [|discriminate].
  injection E as <-. reflexivity.
Defined.

Lemma descendants_agree_witness :
  Line.member 10 ∈ Descendants Line.ten (Line.member 3).
Proof.
  destruct (descendants_agree (H := AccessExample.ulid) Line.ten (Line.member 3) Line.ten_reachable)
    as [_ H]; [vm_compute; reflexivity|].
  eapply H; [vm_compute; reflexivity|vm_compute; reflexivity|].
  exists 6%nat. vm_compute. repeat constructor.
Defined.

Lemma create_beyond_depth_witness :
  exists c' t evs,
    TypeCreate (H := AccessExample.ulid) "default" (Line.child 10) 11%N 0 Line.ten = Ok (c', t, evs) /\
    Ancestors c' t = Err ErrDepth.
Proof.
  eexists _, _, _. split; [vm_compute; reflexivity|].
  refine (proj1 (proj2 (proj2 (proj2 (create_beyond_depth (H := AccessExample.ulid) Line.ten "default"
    (Line.child 10) 11%N 0 (Line.member 10) _ _ _ _ Line.ten_reachable _ _ _ _ _ _ _)))));
    [vm_compute; reflexivity|vm_compute; reflexivity|vm_compute; discriminate|vm_compute; reflexivity
    |vm_compute; reflexivity|vm_compute; reflexivity|vm_compute; reflexivity].
Defined.
