(* ===== verification/Relationship.v ===== *)
(** Relationships: definitions ([domain/relationship/definition.go]), links
    ([domain/relationship/relationship.go]), their tables
    ([infrastructure/memory/instances.go]) and the usecases
    ([application/relationship/interactor.go]).

    A usecase is one unit of work, a function from the tables to new ones or an
    error that leaves them unchanged.  Optional pins and bounds are Go pointers to
    [int]. *)

From Stdlib Require Import ZArith Lia String Ascii List.
From stdpp Require Import base tactics list gmap fin_maps strings option decidable.
From S2P Require Import Prelude GoText Ids TypeDef.

Open Scope Z_scope.
Open Scope go_scope.

(** ** Definitions *)

(** Strings in the code; [PolicyEmpty] is the empty one. *)
Inductive VersionPolicy := PolicyEmpty | PolicyLatest | PolicyPinned | PolicyUnknown (s : string).

Inductive RelKind := RelKindEmpty | RelDirected | RelSymmetric | RelKindUnknown (s : string).

#[export] Instance VersionPolicy_eq_dec : EqDecision VersionPolicy.
Proof. solve_decision. Defined.
#[export] Instance RelKind_eq_dec : EqDecision RelKind.
Proof. solve_decision. Defined.

Definition policy_valid (p : VersionPolicy) : bool :=
  bool_decide (p = PolicyLatest) || bool_decide (p = PolicyPinned).

Definition relKind_valid (k : RelKind) : bool :=
  bool_decide (k = RelDirected) || bool_decide (k = RelSymmetric).

(** The cardinality bounds, as the definition carries them. *)
Record Bounds := mkBounds {
  MinChildren : option Z;
  MaxChildren : option Z;
  MinParents : option Z;
  MaxParents : option Z }.

#[export] Instance Bounds_eq_dec : EqDecision Bounds.
Proof. solve_decision. Defined.

Record RelDefinition := mkRelDef {
  relID : ID;
  relTenantID : TenantID;
  relInternalName : string;
  relDisplayName : string;
  relDescription : string;
  relKind : RelKind;
  ParentTypeID : ID;
  ChildTypeID : ID;
  ParentLabel : string;
  ChildLabel : string;
  AttributeSetID : ID;
  relExtendsID : option ID;
  ParentVersionPolicy : VersionPolicy;
  ChildVersionPolicy : VersionPolicy;
  relBounds : Bounds;
  relVersion : Z;
  relCreatedAt : Z;
  relUpdatedAt : Z;
  relArchivedAt : option Z }.

Inductive RelEvent :=
  | RelCreated (i : ID) (tenant : TenantID) (name : string) (parent child : ID) (at_ : Z)
  | RelUpdated (i : ID) (tenant : TenantID) (version at_ : Z)
  | RelArchived (i : ID) (tenant : TenantID) (at_ : Z)
  | RelRestored (i : ID) (tenant : TenantID) (at_ : Z).

Definition RelAggregate : string := "relationship_definition".

Definition RelIsArchived (d : RelDefinition) : bool := isSome (relArchivedAt d).

Definition IsSymmetric (d : RelDefinition) : bool := bool_decide (relKind d = RelSymmetric).

(** The fields an update can change. *)
Record RelFields := mkRelFields {
  rfDisplayName : string;
  rfDescription : string;
  rfParentLabel : string;
  rfChildLabel : string;
  rfParentPolicy : VersionPolicy;
  rfChildPolicy : VersionPolicy;
  rfBounds : Bounds }.

Definition fields_of (d : RelDefinition) : RelFields :=
  mkRelFields (relDisplayName d) (relDescription d) (ParentLabel d) (ChildLabel d)
    (ParentVersionPolicy d) (ChildVersionPolicy d) (relBounds d).

#[export] Instance RelFields_eq_dec : EqDecision RelFields.
Proof. solve_decision. Defined.

Record NewRelInput := mkNewRel {
  nrTenantID : TenantID;
  nrInternalName : string;
  nrKind : RelKind;
  nrParentType : option TypeDefinition;
  nrChildType : option TypeDefinition;
  nrAttributeSet : option TypeDefinition;
  nrExtends : option RelDefinition;
  nrFields : RelFields }.

(** The rules of a symmetric definition, shared by [NewDefinition] and [Update]. *)
Definition symmetricRules (f : RelFields) : result unit :=
  guard! bool_decide (rfParentPolicy f = PolicyPinned) || bool_decide (rfChildPolicy f = PolicyPinned)
    else NewValidation "symmetric relationships cannot pin versions" then
  guard! negb (str_IsZero (rfParentLabel f)) || negb (str_IsZero (rfChildLabel f))
    else NewValidation "symmetric relationships do not take side labels" then
  guard! isSome (MinParents (rfBounds f)) || isSome (MaxParents (rfBounds f))
    else NewValidation "symmetric relationships take min_children/max_children only" then
  Ok tt.

Definition or_policy (p q : VersionPolicy) : VersionPolicy :=
  if bool_decide (p = PolicyEmpty) then q else p.

Definition with_policies (f : RelFields) (p q : VersionPolicy) : RelFields :=
  mkRelFields (rfDisplayName f) (rfDescription f) (rfParentLabel f) (rfChildLabel f) p q (rfBounds f).

(** What [NewDefinition] asks of the definition it extends. *)
Definition extendsRules (kind : RelKind) (parent child : TypeDefinition) (base : option RelDefinition) :
    result (option ID) :=
  match base with
  | None => Ok None
  | Some b =>
      guard! RelIsArchived b
        else NewValidation "cannot extend an archived relationship definition" then
      guard! negb (bool_decide (relKind b = kind))
        else NewValidation "an extending relationship definition must have the same kind as its base" then
      guard! negb (bool_decide (ParentTypeID b = tdID parent)) || negb (bool_decide (ChildTypeID b = tdID child))
        else NewValidation "an extending relationship definition must connect the same parent and child types as its base" then
      Ok (Some (relID b))
  end.

Definition NewDefinition (i : NewRelInput) (fresh : ID) (now : Z) :
    result (RelDefinition * list RelEvent) :=
  let tenant := if str_IsZero (nrTenantID i) then DefaultTenant else nrTenantID i in
  guard! negb (internalNamePattern (nrInternalName i))
    else NewValidation "internal name must be snake_case, start with a letter and be 2-63 characters" then
  guard! str_IsZero (rfDisplayName (nrFields i)) else NewValidation "display name is required" then
  match nrParentType i, nrChildType i with
  | Some parent, Some child =>
      guard! negb (bool_decide (tdKind parent = KindEntity)) || negb (bool_decide (tdKind child = KindEntity))
        else NewValidation "relationship endpoints must be entity types" then
      guard! TypeIsArchived parent || TypeIsArchived child
        else NewValidation "relationship endpoints must not be archived" then
      match nrAttributeSet i with
      | None => Err (NewValidation "a relationship definition requires its attribute-set type")
      | Some set =>
          guard! negb (bool_decide (tdKind set = KindRelationshipAttributes))
            else NewValidation "a relationship definition requires its attribute-set type" then
          let kind := if bool_decide (nrKind i = RelKindEmpty) then RelDirected else nrKind i in
          guard! negb (relKind_valid kind)
            else NewValidation "relationship kind must be directed or symmetric" then
          let f := with_policies (nrFields i) (or_policy (rfParentPolicy (nrFields i)) PolicyLatest)
                     (or_policy (rfChildPolicy (nrFields i)) PolicyLatest) in
          guard! negb (policy_valid (rfParentPolicy f)) || negb (policy_valid (rfChildPolicy f))
            else NewValidation "version policies must be latest or pinned" then
          check! (if bool_decide (kind = RelSymmetric) then symmetricRules f else Ok tt) then
          let! extendsID := extendsRules kind parent child (nrExtends i) in
          let d := mkRelDef fresh tenant (nrInternalName i) (rfDisplayName f) (rfDescription f) kind
            (tdID parent) (tdID child) (rfParentLabel f) (rfChildLabel f) (tdID set) extendsID
            (rfParentPolicy f) (rfChildPolicy f) (rfBounds f) 1 now now None in
          Ok (d, [RelCreated fresh tenant (nrInternalName i) (tdID parent) (tdID child) now])
      end
  | _, _ => Err (NewValidation "parent and child types are required")
  end.

(** [Definition.Update] *)
Definition set_fields (d : RelDefinition) (f : RelFields) (now : Z) : RelDefinition :=
  mkRelDef (relID d) (relTenantID d) (relInternalName d) (rfDisplayName f) (rfDescription f) (relKind d)
    (ParentTypeID d) (ChildTypeID d) (rfParentLabel f) (rfChildLabel f) (AttributeSetID d) (relExtendsID d)
    (rfParentPolicy f) (rfChildPolicy f) (rfBounds f) (bump (relVersion d)) (relCreatedAt d) now
    (relArchivedAt d).

Definition RelUpdate (d : RelDefinition) (u : RelFields) (now : Z) :
    result (RelDefinition * list RelEvent) :=
  guard! RelIsArchived d else NewArchived RelAggregate then
  guard! str_IsZero (rfDisplayName u) else NewValidation "display name is required" then
  let f := with_policies u (or_policy (rfParentPolicy u) (ParentVersionPolicy d))
             (or_policy (rfChildPolicy u) (ChildVersionPolicy d)) in
  guard! negb (policy_valid (rfParentPolicy f)) || negb (policy_valid (rfChildPolicy f))
    else NewValidation "version policies must be latest or pinned" then
  check! (if IsSymmetric d then symmetricRules f else Ok tt) then
  if bool_decide (fields_of d = f) then Ok (d, [])
  else
    let d' := set_fields d f now in
    Ok (d', [RelUpdated (relID d) (relTenantID d) (relVersion d') now]).

Definition set_rel_archived (d : RelDefinition) (at_ : option Z) (now : Z) : RelDefinition :=
  mkRelDef (relID d) (relTenantID d) (relInternalName d) (relDisplayName d) (relDescription d) (relKind d)
    (ParentTypeID d) (ChildTypeID d) (ParentLabel d) (ChildLabel d) (AttributeSetID d) (relExtendsID d)
    (ParentVersionPolicy d) (ChildVersionPolicy d) (relBounds d) (relVersion d) (relCreatedAt d) now at_.

Definition RelArchive (d : RelDefinition) (now : Z) : result (RelDefinition * list RelEvent) :=
  guard! RelIsArchived d else NewArchived RelAggregate then
  Ok (set_rel_archived d (Some now) now, [RelArchived (relID d) (relTenantID d) now]).

Definition RelRestore (d : RelDefinition) (now : Z) : result (RelDefinition * list RelEvent) :=
  guard! negb (RelIsArchived d) else NewValidation "relationship definition is not archived" then
  Ok (set_rel_archived d None now, [RelRestored (relID d) (relTenantID d) now]).

(** ** Links *)

Record Relationship := mkLink {
  lkID : ID;
  lkTenantID : TenantID;
  lkDefinitionID : ID;
  lkParent : EntityID;
  lkChild : EntityID;
  lkParentVersion : option Z;
  lkChildVersion : option Z;
  lkCreatedAt : Z;
  lkUpdatedAt : Z;
  lkArchivedAt : option Z }.

Inductive LinkEvent :=
  | Linked (l : Relationship) (at_ : Z)
  | RePinned (l : Relationship) (at_ : Z)
  | Unlinked (l : Relationship) (at_ : Z).

Definition LinkAggregate : string := "relationship".

Definition LinkIsArchived (l : Relationship) : bool := isSome (lkArchivedAt l).

(** [checkPin]; a policy that is neither accepts anything. *)
Definition checkPin (side : string) (policy : VersionPolicy) (pin : option Z) : result unit :=
  match policy with
  | PolicyPinned =>
      match pin with
      | None => Err (NewValidation (String.append side " side must pin a type version"))
      | Some v =>
          guard! v <? 1
            else NewValidation (String.append side " version pin must be at least 1") then Ok tt
      end
  | PolicyLatest =>
      guard! isSome pin
        else NewValidation (String.append side " side follows the latest version and cannot pin") then
      Ok tt
  | _ => Ok tt
  end.

(** The unordered pair of a symmetric definition, smaller entity first. *)
Definition canonical (d : RelDefinition) (parent child : EntityID) : EntityID * EntityID :=
  if IsSymmetric d && String.ltb child parent then (child, parent) else (parent, child).

(** [Link] of the aggregate. *)
Definition LinkNew (d : RelDefinition) (parent child : EntityID) (pv cv : option Z) (fresh : ID)
    (now : Z) : result (Relationship * list LinkEvent) :=
  guard! RelIsArchived d else NewArchived RelAggregate then
  guard! str_IsZero parent || str_IsZero child
    else NewValidation "parent and child entity IDs are required" then
  guard! bool_decide (parent = child) && bool_decide (ParentTypeID d = ChildTypeID d)
    else NewValidation "an entity cannot relate to itself" then
  let ends := canonical d parent child in
  check! checkPin "parent" (ParentVersionPolicy d) pv then
  check! checkPin "child" (ChildVersionPolicy d) cv then
  let l := mkLink fresh (relTenantID d) (relID d) ends.1 ends.2 pv cv now now None in
  Ok (l, [Linked l now]).

Definition RePin (l : Relationship) (def : option RelDefinition) (pv cv : option Z) (now : Z) :
    result (Relationship * list LinkEvent) :=
  guard! LinkIsArchived l else NewArchived LinkAggregate then
  match def with
  | None => Err (NewValidation "definition does not match the relationship")
  | Some d =>
      guard! negb (bool_decide (relID d = lkDefinitionID l))
        else NewValidation "definition does not match the relationship" then
      check! checkPin "parent" (ParentVersionPolicy d) pv then
      check! checkPin "child" (ChildVersionPolicy d) cv then
      if bool_decide (lkParentVersion l = pv) && bool_decide (lkChildVersion l = cv) then Ok (l, [])
      else
        let l' := mkLink (lkID l) (lkTenantID l) (lkDefinitionID l) (lkParent l) (lkChild l) pv cv
                    (lkCreatedAt l) now (lkArchivedAt l) in
        Ok (l', [RePinned l' now])
  end.

Definition LinkUnlink (l : Relationship) (now : Z) : result (Relationship * list LinkEvent) :=
  guard! LinkIsArchived l else NewArchived LinkAggregate then
  let l' := mkLink (lkID l) (lkTenantID l) (lkDefinitionID l) (lkParent l) (lkChild l)
              (lkParentVersion l) (lkChildVersion l) (lkCreatedAt l) now (Some now) in
  Ok (l', [Unlinked l' now]).

(** ** Tables *)

Record LinkTables := mkLinkTables {
  lkTypes : Catalogue;
  relDefs : gmap ID RelDefinition;
  links : gmap ID Relationship }.

Definition set_relDefs (T : LinkTables) (ds : gmap ID RelDefinition) : LinkTables :=
  mkLinkTables (lkTypes T) ds (links T).

Definition set_links (T : LinkTables) (ls : gmap ID Relationship) : LinkTables :=
  mkLinkTables (lkTypes T) (relDefs T) ls.

Definition RelGet (T : LinkTables) (i : ID) : result RelDefinition :=
  match relDefs T !! i with Some d => Ok d | None => Err (NewNotFound RelAggregate) end.

Definition rel_named (tenant : TenantID) (name : string) (d : RelDefinition) : bool :=
  bool_decide (relTenantID d = tenant) && bool_decide (relInternalName d = name) &&
  negb (RelIsArchived d).

(** [GetByInternalName] of relationship definitions. *)
Definition RelByInternalName (defs : gmap ID RelDefinition) (tenant : TenantID) (name : string) :
    option RelDefinition :=
  head (List.filter (rel_named tenant name) (values defs)).

Definition RelSave (T : LinkTables) (d : RelDefinition) : result LinkTables :=
  guard! negb (RelIsArchived d) &&
      existsb (fun o => negb (bool_decide (relID o = relID d)) &&
        rel_named (relTenantID d) (relInternalName d) o) (values (relDefs T))
    else NewConflict "a relationship with this internal name already exists" then
  Ok (set_relDefs T (<[relID d := d]> (relDefs T))).

Definition LinkGet (T : LinkTables) (i : ID) : result Relationship :=
  match links T !! i with Some l => Ok l | None => Err (NewNotFound LinkAggregate) end.

(** A live link of a definition. *)
Definition live_link (def : ID) (l : Relationship) : bool :=
  bool_decide (lkDefinitionID l = def) && negb (LinkIsArchived l).

Definition joins (def : ID) (parent child : EntityID) (l : Relationship) : bool :=
  live_link def l && bool_decide (lkParent l = parent) && bool_decide (lkChild l = child).

Definition FindLive (T : LinkTables) (def : ID) (parent child : EntityID) : option Relationship :=
  head (List.filter (joins def parent child) (values (links T))).

(** Links of an entity as a parent, and as a child. *)
Definition CountLiveLinks (T : LinkTables) (def : ID) (entity : EntityID) : nat * nat :=
  let ls := List.filter (live_link def) (values (links T)) in
  (length (List.filter (fun l => bool_decide (lkParent l = entity)) ls),
   length (List.filter (fun l => bool_decide (lkChild l = entity)) ls)).

Definition LinkSave (T : LinkTables) (l : Relationship) : result LinkTables :=
  guard! negb (LinkIsArchived l) &&
      existsb (fun o => negb (bool_decide (lkID o = lkID l)) &&
        joins (lkDefinitionID l) (lkParent l) (lkChild l) o) (values (links T))
    else NewConflict "these two entities are already linked by this relationship" then
  Ok (set_links T (<[lkID l := l]> (links T))).

(** [List] of the tenant's live definitions, in identifier order: the first page,
    with the row that says whether another follows. *)
Definition by_rel (a b : RelDefinition) : bool := (relID a <=? relID b)%N.

Definition RelList (T : LinkTables) (tenant : TenantID) (limit : nat) : list RelDefinition :=
  take (limit + 1) (sort_by by_rel (List.filter (fun d => bool_decide (relTenantID d = tenant) &&
    negb (RelIsArchived d)) (values (relDefs T)))).

(** ** Usecases *)

Section Usecases.
Context `{GoUlid}.

(** [CreateDefinitionInput] *)
Record CreateRelInput := mkCreateRel {
  crInternalName : string;
  crKind : RelKind;
  crParentTypeID : string;
  crChildTypeID : string;
  crExtendsID : string;
  crFields : RelFields }.

(** An endpoint, loaded and checked. *)
Definition loadEndpoint (T : LinkTables) (tenant : TenantID) (i : ID) : result TypeDefinition :=
  let! t := TypeGet (lkTypes T) i in
  check! EnsureTenant tenant (tdTenantID t) "type_definition" then Ok t.

Definition loadBase (T : LinkTables) (tenant : TenantID) (raw : string) :
    result (option RelDefinition) :=
  if str_IsZero raw then Ok None
  else
    match ParseID raw with
    | Err e => Err (NewValidation (String.append "extends: " (Message e)))
    | Ok i =>
        let! d := RelGet T i in
        check! EnsureTenant tenant (relTenantID d) RelAggregate then Ok (Some d)
    end.

Definition attributeSetName (name : string) : string :=
  String.append "rel_" (String.append name "_attrs").

(** [CreateDefinition]; [freshSet] and [fresh] are the identifiers drawn. *)
Definition CreateDefinition (tenant : TenantID) (i : CreateRelInput) (freshSet fresh : ID) (now : Z)
    (T : LinkTables) : result (LinkTables * RelDefinition * (list TypeEvent * list RelEvent)) :=
  match ParseID (crParentTypeID i) with
  | Err e => Err (NewValidation (String.append "parent type: " (Message e)))
  | Ok parentID =>
  match ParseID (crChildTypeID i) with
  | Err e => Err (NewValidation (String.append "child type: " (Message e)))
  | Ok childID =>
      guard! isSome (RelByInternalName (relDefs T) tenant (crInternalName i))
        else NewConflict "internal name already in use" then
      let! parent := loadEndpoint T tenant parentID in
      let! child := loadEndpoint T tenant childID in
      let! base := loadBase T tenant (crExtendsID i) in
      let! set := NewAttributeSet tenant (attributeSetName (crInternalName i))
        (String.append (rfDisplayName (crFields i)) " (link attributes)") freshSet now in
      let! types := TypeSave (lkTypes T) set.1 in
      let! d := NewDefinition (mkNewRel tenant (crInternalName i) (crKind i) (Some parent) (Some child)
        (Some set.1) base (crFields i)) fresh now in
      let! T' := RelSave (mkLinkTables types (relDefs T) (links T)) d.1 in
      Ok (T', d.1, (set.2, d.2))
  end end.

(** [UpdateDefinition] *)
Definition UpdateDefinition (tenant : TenantID) (raw : string) (u : RelFields) (version : option Z)
    (now : Z) (T : LinkTables) : result (LinkTables * RelDefinition * list RelEvent) :=
  match ParseID raw with
  | Err e => Err (NewValidation (Message e))
  | Ok i =>
      let! d := RelGet T i in
      check! EnsureTenant tenant (relTenantID d) RelAggregate then
      guard! match version with Some v => negb (v =? relVersion d) | None => false end
        else NewConflict "the relationship definition was modified by someone else; reload it and retry" then
      let! de := RelUpdate d u now in
      if bool_decide (length de.2 = 0%nat) then Ok (T, de.1, [])
      else let! T' := RelSave T de.1 in Ok (T', de.1, de.2)
  end.

(** [transitionDefinition] with [Archive] or [Restore]. *)
Definition RelTransition (change : RelDefinition -> Z -> result (RelDefinition * list RelEvent))
    (tenant : TenantID) (raw : string) (now : Z) (T : LinkTables) :
    result (LinkTables * RelDefinition * list RelEvent) :=
  match ParseID raw with
  | Err e => Err (NewValidation (Message e))
  | Ok i =>
      let! d := RelGet T i in
      check! EnsureTenant tenant (relTenantID d) RelAggregate then
      let! de := change d now in
      let! T' := RelSave T de.1 in
      Ok (T', de.1, de.2)
  end.

Definition maxInheritanceDepth : nat := 10.

(** The loop of [AttributeSets]; the tenant is checked on the first round. *)
Fixpoint setsLoop (T : LinkTables) (tenant : TenantID) (rounds : nat) (first : bool) (i : ID)
    (seen sets : list ID) : result (list ID) :=
  match rounds with
  | O => Err (NewValidation "relationship definition inheritance exceeds the supported depth")
  | S rounds =>
      let! d := RelGet T i in
      check! (if first then EnsureTenant tenant (relTenantID d) RelAggregate else Ok tt) then
      guard! bool_decide (relID d ∈ seen)
        else NewValidation "relationship definition inheritance forms a cycle" then
      let sets := sets ++ [AttributeSetID d] in
      match relExtendsID d with
      | None => Ok sets
      | Some base => setsLoop T tenant rounds false base (relID d :: seen) sets
      end
  end.

Definition AttributeSets (T : LinkTables) (tenant : TenantID) (raw : string) : result (list ID) :=
  match ParseID raw with
  | Err e => Err (NewValidation (Message e))
  | Ok i => setsLoop T tenant maxInheritanceDepth true i [] []
  end.

(** [enforceCardinality] *)
Definition at_limit (limit : option Z) (n : nat) : bool :=
  match limit with Some m => m <=? Z.of_nat n | None => false end.

Definition ErrCardinality : Error := NewValidation "relationship cardinality exceeded".

Definition enforceCardinality (T : LinkTables) (d : RelDefinition) (def : ID)
    (parent child : EntityID) : result unit :=
  let p := CountLiveLinks T def parent in
  let c := CountLiveLinks T def child in
  let b := relBounds d in
  if IsSymmetric d then
    guard! at_limit (MaxChildren b) (p.1 + p.2) else ErrCardinality then
    guard! at_limit (MaxChildren b) (c.1 + c.2) else ErrCardinality then
    Ok tt
  else
    guard! at_limit (MaxChildren b) p.1 else ErrCardinality then
    guard! at_limit (MaxParents b) c.2 else ErrCardinality then
    Ok tt.

(** [LinkInput] *)
Record LinkInput := mkLinkInput {
  liDefinitionID : string;
  liParent : string;
  liChild : string;
  liParentVersion : option Z;
  liChildVersion : option Z }.

(** [Interactor.Link] *)
Definition LinkCase (tenant : TenantID) (i : LinkInput) (fresh : ID) (now : Z) (T : LinkTables) :
    result (LinkTables * Relationship * list LinkEvent) :=
  match ParseID (liDefinitionID i) with
  | Err e => Err (NewValidation (Message e))
  | Ok def =>
  match ParseEntityID (liParent i) with
  | Err e => Err (NewValidation (String.append "parent: " (Message e)))
  | Ok parent =>
  match ParseEntityID (liChild i) with
  | Err e => Err (NewValidation (String.append "child: " (Message e)))
  | Ok child =>
      let! d := RelGet T def in
      check! EnsureTenant tenant (relTenantID d) RelAggregate then
      let ends := canonical d parent child in
      guard! isSome (FindLive T def ends.1 ends.2)
        else NewConflict "these entities are already linked under this definition" then
      check! enforceCardinality T d def ends.1 ends.2 then
      let! le := LinkNew d ends.1 ends.2 (liParentVersion i) (liChildVersion i) fresh now in
      let! T' := LinkSave T le.1 in
      Ok (T', le.1, le.2)
  end end end.

(** [Interactor.Unlink] *)
Definition UnlinkCase (tenant : TenantID) (raw : string) (now : Z) (T : LinkTables) :
    result (LinkTables * Relationship * list LinkEvent) :=
  match ParseID raw with
  | Err e => Err (NewValidation (Message e))
  | Ok i =>
      let! l := LinkGet T i in
      check! EnsureTenant tenant (lkTenantID l) LinkAggregate then
      let! le := LinkUnlink l now in
      let! T' := LinkSave T le.1 in
      Ok (T', le.1, le.2)
  end.

(** [Requirement] *)
Record Requirement := mkRequirement {
  rqDefinition : ID; rqDefinitionName : string; rqSide : string; rqRequired : Z; rqCurrent : Z }.

Definition unmet (d : RelDefinition) (side : string) (minimum : option Z) (n : nat) :
    list Requirement :=
  match minimum with
  | Some m => if Z.of_nat n <? m then [mkRequirement (relID d) (relDisplayName d) side m (Z.of_nat n)] else []
  | None => []
  end.

(** One round of [RelationshipRequirements]. *)
Definition requirementsOf (T : LinkTables) (entity : EntityID) (d : RelDefinition) : list Requirement :=
  let n := CountLiveLinks T (relID d) entity in
  if IsSymmetric d then unmet d "links" (MinChildren (relBounds d)) (n.1 + n.2)
  else unmet d "children" (MinChildren (relBounds d)) n.1 ++ unmet d "parents" (MinParents (relBounds d)) n.2.

Definition RelationshipRequirements (T : LinkTables) (tenant : TenantID) (raw : string) :
    result (list Requirement) :=
  match ParseEntityID raw with
  | Err e => Err (NewValidation (Message e))
  | Ok entity => Ok (concat (requirementsOf T entity <$> RelList T tenant 500))
  end.
End Usecases.
