(* ===== verification/RelationshipFacts.v ===== *)
(** What holds of the table of links along every history of its usecases: one live
    link per pair, the canonical order of symmetric pairs, and the cardinality
    bounds - with the defects of the usecases around them. *)

From Stdlib Require Import ZArith Lia String Ascii List.
From stdpp Require Import base tactics list gmap fin_maps strings option decidable.
From S2P Require Import Prelude GoText Ids TypeDef TypeDefFacts Relationship.

Open Scope Z_scope.
Open Scope go_scope.

(** ** Counting rows *)

Section Count.
Context {A : Type}.
Implicit Types (m : gmap ID A) (p q : A -> bool).

Definition count (p : A -> bool) (m : gmap ID A) : nat := length (List.filter p (values m)).

Lemma count_new p m i a :
  m !! i = None -> count p (<[i := a]> m) = ((if p a then 1 else 0) + count p m)%nat.
Proof.
  intros Hi. unfold count, values.
  rewrite (Permutation_length (filter_perm p _ _ (fmap_Permutation snd _ _ (map_to_list_insert m i a Hi)))).
  simpl. by destruct (p a).
Qed.

Lemma count_replace p m i a b :
  m !! i = Some a -> (p b = true -> p a = true) -> (count p (<[i := b]> m) <= count p m)%nat.
Proof.
  intros Hi Hp. rewrite <- (insert_delete_id m i a Hi) at 2. rewrite <- insert_delete_eq.
  rewrite !count_new by apply lookup_delete_eq. destruct (p b); [rewrite Hp by done|]; lia.
Qed.

Lemma count_le p q m : (forall a, p a = true -> q a = true) -> (count p m <= count q m)%nat.
Proof.
  intros Hpq. unfold count. induction (values m) as [|x l IH]; simpl; [lia|].
  destruct (p x) eqn:E; [rewrite (Hpq x E)|destruct (q x)]; simpl; lia.
Qed.

Lemma count_or p q m : (count (fun a => p a || q a) m <= count p m + count q m)%nat.
Proof.
  unfold count. induction (values m) as [|x l IH]; simpl; [lia|]. destruct (p x), (q x); simpl; lia.
Qed.

Lemma existsb_values p m : existsb p (values m) = true <-> exists i a, m !! i = Some a /\ p a = true.
Proof.
  rewrite existsb_exists. setoid_rewrite <- list_elem_of_In. setoid_rewrite values_elem. naive_solver.
Qed.

Lemma head_filter p m :
  head (List.filter p (values m)) = None <-> forall i a, m !! i = Some a -> p a = false.
Proof.
  assert (forall i a, m !! i = Some a -> p a = true -> a ∈ List.filter p (values m)) as Hin.
  { intros i a Ha Hp. apply elem_of_filter_b. split; [|done]. apply values_elem. by exists i. }
  destruct (List.filter p (values m)) as [|a l] eqn:E; simpl; split; try done.
  - intros _ i a Ha. apply not_true_is_false. intros Hp. specialize (Hin i a Ha Hp). set_solver.
  - intros Hall. assert (a ∈ List.filter p (values m)) as [(i & Hi)%values_elem Hp]%elem_of_filter_b
      by (rewrite E; left). by rewrite (Hall i a Hi) in Hp.
Qed.
End Count.

Lemma count_zero {A} (p : A -> bool) (m : gmap ID A) :
  (forall i a, m !! i = Some a -> p a = false) -> count p m = 0%nat.
Proof.
  intros Hall. unfold count. destruct (List.filter p (values m)) as [|a l] eqn:E; [done|].
  apply (f_equal head) in E. apply head_filter in Hall. simpl in E. congruence.
Qed.

(** ** The invariant *)

Definition rel_identity (d : RelDefinition) :=
  (relID d, relTenantID d, relInternalName d, relKind d, ParentTypeID d, ChildTypeID d).

(** A symmetric definition follows the latest versions and has no sides. *)
Definition sym_ok (d : RelDefinition) : Prop :=
  IsSymmetric d = true ->
  ParentVersionPolicy d = PolicyLatest /\ ChildVersionPolicy d = PolicyLatest /\
  ParentLabel d = EmptyString /\ ChildLabel d = EmptyString /\
  MinParents (relBounds d) = None /\ MaxParents (relBounds d) = None.

Record link_ok (d : RelDefinition) (l : Relationship) : Prop := {
  lk_tenant : relTenantID d = lkTenantID l;
  lk_ends : lkParent l <> EmptyString /\ lkChild l <> EmptyString;
  lk_self : lkParent l = lkChild l -> ParentTypeID d <> ChildTypeID d;
  lk_order : IsSymmetric d = true -> String.ltb (lkChild l) (lkParent l) = false;
  lk_pins : IsSymmetric d = true -> lkParentVersion l = None /\ lkChildVersion l = None }.

Record links_ok (T : LinkTables) : Prop := {
  lo_defs : map_Forall (fun i d => relID d = i /\ sym_ok d) (relDefs T);
  lo_names : forall i j d e, relDefs T !! i = Some d -> relDefs T !! j = Some e ->
    RelIsArchived d = false -> RelIsArchived e = false ->
    relTenantID d = relTenantID e -> relInternalName d = relInternalName e -> i = j;
  lo_links : map_Forall (fun i l => lkID l = i) (links T);
  lo_link : forall i l, links T !! i = Some l ->
    exists d, relDefs T !! lkDefinitionID l = Some d /\ link_ok d l;
  lo_pairs : forall i j k l, links T !! i = Some k -> links T !! j = Some l ->
    LinkIsArchived k = false -> LinkIsArchived l = false ->
    lkDefinitionID k = lkDefinitionID l -> lkParent k = lkParent l -> lkChild k = lkChild l -> i = j }.

Lemma RelSave_spec T d T' :
  map_Forall (fun i d => relID d = i /\ sym_ok d) (relDefs T) -> RelSave T d = Ok T' ->
  T' = set_relDefs T (<[relID d := d]> (relDefs T)) /\
  (RelIsArchived d = false -> forall i e, relDefs T !! i = Some e -> i <> relID d ->
     RelIsArchived e = false -> relTenantID e = relTenantID d -> relInternalName e <> relInternalName d).
Proof.
  intros Hkey. unfold RelSave. destruct (_ && _) eqn:E; [done|]. intros [= <-]. split; [done|].
  intros Hl i e He Hne Le Et En. rewrite Hl in E. simpl in E.
  assert (existsb (fun o => negb (bool_decide (relID o = relID d)) &&
    rel_named (relTenantID d) (relInternalName d) o) (values (relDefs T)) = true) as Hx; [|congruence].
  apply existsb_values. exists i, e. split; [done|]. destruct (Hkey i e He) as [Ei _].
  rewrite bool_decide_false by congruence. unfold rel_named.
  rewrite !bool_decide_true by done. by rewrite Le.
Qed.

Lemma LinkSave_spec T l T' :
  map_Forall (fun i l => lkID l = i) (links T) -> LinkSave T l = Ok T' ->
  T' = set_links T (<[lkID l := l]> (links T)) /\
  (LinkIsArchived l = false -> forall i k, links T !! i = Some k -> i <> lkID l ->
     joins (lkDefinitionID l) (lkParent l) (lkChild l) k = false).
Proof.
  intros Hkey. unfold LinkSave. destruct (_ && _) eqn:E; [done|]. intros [= <-]. split; [done|].
  intros Hl i k Hk Hne. apply not_true_is_false. intros Hj. rewrite Hl in E. simpl in E.
  assert (existsb (fun o => negb (bool_decide (lkID o = lkID l)) &&
    joins (lkDefinitionID l) (lkParent l) (lkChild l) o) (values (links T)) = true) as Hx; [|congruence].
  apply existsb_values. exists i, k. split; [done|]. pose proof (Hkey i k Hk) as Ei. simpl in Ei.
  rewrite bool_decide_false by congruence. done.
Qed.

Lemma joins_true def p c l :
  joins def p c l = true <->
  lkDefinitionID l = def /\ LinkIsArchived l = false /\ lkParent l = p /\ lkChild l = c.
Proof.
  unfold joins, live_link. rewrite !andb_true_iff, negb_true_iff, !bool_decide_eq_true. tauto.
Qed.

(** A definition saved under the identity of a stored one, or under a new
    identifier. *)
Lemma put_def_ok T d T' :
  links_ok T -> sym_ok d ->
  (forall d0, relDefs T !! relID d = Some d0 -> rel_identity d = rel_identity d0) ->
  RelSave T d = Ok T' -> links_ok T' /\ links T' = links T /\ relDefs T' = <[relID d := d]> (relDefs T).
Proof.
  intros [D1 D2 D3 D4 D5] Hsym Hid Hs. destruct (RelSave_spec _ _ _ D1 Hs) as [-> Hn].
  split; [|done]. split; simpl.
  - by apply map_Forall_insert_2.
  - intros i j a b Ha Hb La Lb Et En.
    destruct (decide (i = relID d)) as [->|Hi], (decide (j = relID d)) as [->|Hj]; [done| | |].
    + rewrite lookup_insert_eq in Ha. rewrite lookup_insert_ne in Hb by done. simplify_eq.
      exfalso. by eapply (Hn La j b).
    + rewrite lookup_insert_eq in Hb. rewrite lookup_insert_ne in Ha by done. simplify_eq.
      exfalso. by eapply (Hn Lb i a).
    + rewrite lookup_insert_ne in Ha, Hb by done. by eapply D2.
  - exact D3.
  - intros i l Hl. destruct (D4 i l Hl) as (d0 & Hd0 & [K1 K2 K3 K4 K5]).
    destruct (decide (lkDefinitionID l = relID d)) as [E|Hne].
    + exists d. rewrite E, lookup_insert_eq. split; [done|]. rewrite E in Hd0.
      pose proof (Hid _ Hd0) as Hi. unfold rel_identity in Hi. injection Hi as ? ? ? Ek ? ?.
      assert (IsSymmetric d = IsSymmetric d0) as Es by (unfold IsSymmetric; by rewrite Ek).
      split; rewrite ?Es; [congruence|done| |done|done]. intros E'. specialize (K3 E'). congruence.
    + exists d0. rewrite lookup_insert_ne by congruence. done.
  - exact D5.
Qed.

(** A link saved over a stored one or under a new identifier. *)
Lemma put_link_ok T d l T' :
  links_ok T -> relDefs T !! lkDefinitionID l = Some d -> link_ok d l -> LinkSave T l = Ok T' ->
  links_ok T' /\ relDefs T' = relDefs T /\ links T' = <[lkID l := l]> (links T).
Proof.
  intros [D1 D2 D3 D4 D5] Hd Hok Hs. destruct (LinkSave_spec _ _ _ D3 Hs) as [-> Hj].
  split; [|done]. split; simpl; [exact D1|exact D2| | |].
  - by apply map_Forall_insert_2.
  - intros i k [[<- <-]|[_ Hk]]%lookup_insert_Some; [by exists d|by eapply D4].
  - assert (forall i k, links T !! i = Some k -> i <> lkID l -> LinkIsArchived l = false ->
      LinkIsArchived k = false -> lkDefinitionID k = lkDefinitionID l -> lkParent k = lkParent l ->
      lkChild k <> lkChild l) as Hno.
    { intros i k Hk Hne Ll Lk Ed Ep Ec. specialize (Hj Ll i k Hk Hne).
      assert (joins (lkDefinitionID l) (lkParent l) (lkChild l) k = true); [by apply joins_true|congruence]. }
    intros i j a b Ha Hb La Lb Ed Ep Ec.
    apply lookup_insert_Some in Ha as [[<- <-]|[Hi Ha]], Hb as [[<- <-]|[Hj' Hb]];
      [done| | |by apply (D5 i j a b)]; exfalso.
    + by apply (Hno j b Hb (not_eq_sym Hj') La Lb).
    + by apply (Hno i a Ha (not_eq_sym Hi) Lb La).
Qed.

(** ** The usecases *)

Section System.
Context `{GoUlid}.

Lemma with_policies_bounds f p q : rfBounds (with_policies f p q) = rfBounds f.
Proof. done. Qed.

Lemma symmetricRules_ok f :
  policy_valid (rfParentPolicy f) = true -> policy_valid (rfChildPolicy f) = true ->
  symmetricRules f = Ok tt ->
  rfParentPolicy f = PolicyLatest /\ rfChildPolicy f = PolicyLatest /\
  rfParentLabel f = EmptyString /\ rfChildLabel f = EmptyString /\
  MinParents (rfBounds f) = None /\ MaxParents (rfBounds f) = None.
Proof.
  unfold policy_valid, symmetricRules, str_IsZero. intros P C Hs. res_inv. breflect.
  apply orb_true_iff in P, C. rewrite !bool_decide_eq_true in P, C.
  destruct (MinParents _), (MaxParents _); try done. split_and!; try done; tauto.
Qed.

Lemma NewDefinition_spec i fresh now d es :
  NewDefinition i fresh now = Ok (d, es) ->
  relID d = fresh /\ sym_ok d /\ RelIsArchived d = false /\ relInternalName d = nrInternalName i /\
  relBounds d = rfBounds (nrFields i).
Proof.
  unfold NewDefinition. intros Hn. res_inv.
  destruct (nrParentType i) as [p|]; [|done]. destruct (nrChildType i) as [c|]; [|done].
  res_inv. destruct (nrAttributeSet i) as [s|]; [|done]. res_inv. simpl in *.
  split_and!; try done. unfold sym_ok, IsSymmetric. simpl. intros Hk.
  match goal with E : (if _ then symmetricRules _ else _) = _ |- _ => rewrite Hk in E; rename E into Es end.
  breflect. by apply symmetricRules_ok in Es.
Qed.

Lemma RelUpdate_spec d u now d' es :
  sym_ok d -> RelUpdate d u now = Ok (d', es) ->
  rel_identity d' = rel_identity d /\ relArchivedAt d' = relArchivedAt d /\ sym_ok d' /\
  (d' = d \/ relBounds d' = rfBounds u) /\ (es = [] -> d' = d).
Proof.
  intros Hsym. unfold RelUpdate. intros Hu. res_inv.
  destruct (bool_decide _) eqn:E in Hu; [injection Hu as <- <-; split_and!; auto|].
  injection Hu as <- <-. split_and!; [done|done| |by right|done].
  unfold sym_ok, IsSymmetric in *. simpl. intros Hk.
  match goal with Es : (if _ then symmetricRules _ else _) = _ |- _ => rewrite Hk in Es; rename Es into E' end.
  breflect. by apply symmetricRules_ok in E'.
Qed.

(** No bound is made tighter. *)
Definition no_tighter (old new : option Z) : Prop :=
  match new with
  | None => True
  | Some n => match old with Some m => m <= n | None => False end
  end.

Definition loosens (b c : Bounds) : Prop :=
  no_tighter (MaxChildren b) (MaxChildren c) /\ no_tighter (MaxParents b) (MaxParents c).

Inductive rel_step (tighten : bool) (T T' : LinkTables) : Prop :=
  | rs_types c : T' = mkLinkTables c (relDefs T) (links T) -> rel_step tighten T T'
  | rs_create tenant i freshSet fresh now d evs :
      relDefs T !! fresh = None -> CreateDefinition tenant i freshSet fresh now T = Ok (T', d, evs) ->
      rel_step tighten T T'
  | rs_update tenant raw u version now d evs :
      UpdateDefinition tenant raw u version now T = Ok (T', d, evs) ->
      (tighten = false -> forall d0, relDefs T !! relID d = Some d0 -> loosens (relBounds d0) (relBounds d)) ->
      rel_step tighten T T'
  | rs_archive tenant raw now d evs :
      RelTransition RelArchive tenant raw now T = Ok (T', d, evs) -> rel_step tighten T T'
  | rs_restore tenant raw now d evs :
      RelTransition RelRestore tenant raw now T = Ok (T', d, evs) -> rel_step tighten T T'
  | rs_link tenant i fresh now l evs :
      links T !! fresh = None -> LinkCase tenant i fresh now T = Ok (T', l, evs) -> rel_step tighten T T'
  | rs_unlink tenant raw now l evs :
      UnlinkCase tenant raw now T = Ok (T', l, evs) -> rel_step tighten T T'.

Inductive rel_reachable (tighten : bool) : LinkTables -> Prop :=
  | rr_empty c : rel_reachable tighten (mkLinkTables c ∅ ∅)
  | rr_step T T' : rel_reachable tighten T -> rel_step tighten T T' -> rel_reachable tighten T'.

Lemma RelGet_ok T i d : RelGet T i = Ok d <-> relDefs T !! i = Some d.
Proof. unfold RelGet. destruct (_ !! i); split; congruence. Qed.

Lemma LinkGet_ok T i l : LinkGet T i = Ok l <-> links T !! i = Some l.
Proof. unfold LinkGet. destruct (_ !! i); split; congruence. Qed.

Lemma create_step T tenant i freshSet fresh now T' d evs :
  links_ok T -> relDefs T !! fresh = None ->
  CreateDefinition tenant i freshSet fresh now T = Ok (T', d, evs) ->
  links_ok T' /\ relID d = fresh /\ relDefs T' = <[relID d := d]> (relDefs T) /\ links T' = links T.
Proof.
  intros Hok Hf. unfold CreateDefinition.
  destruct (ParseID _); [|done]. destruct (ParseID _); [|done]. intros Hc. res_inv.
  match goal with E : NewDefinition _ _ _ = Ok ?de, E' : RelSave (mkLinkTables ?c _ _) _ = _ |- _ =>
    destruct de as [d es]; apply NewDefinition_spec in E as (Ei & Hs & _); rename c into types, E' into Es end.
  assert (links_ok (mkLinkTables types (relDefs T) (links T))) as Hok'
    by (by destruct Hok as [D1 D2 D3 D4 D5]; split).
  destruct (put_def_ok _ d T' Hok' Hs) as (K1 & K2 & K3); [simpl; by rewrite Ei, Hf|exact Es|].
  simpl in *. done.
Qed.

Lemma update_step T tenant raw u version now T' d evs :
  links_ok T -> UpdateDefinition tenant raw u version now T = Ok (T', d, evs) ->
  links_ok T' /\ links T' = links T /\
  exists d0, relDefs T !! relID d = Some d0 /\ rel_identity d = rel_identity d0 /\
    relDefs T' = <[relID d := d]> (relDefs T).
Proof.
  intros Hok. unfold UpdateDefinition. destruct (ParseID raw) as [i|]; [|done]. intros Hu. res_inv.
  match goal with E : RelGet _ _ = Ok ?x, Ed : RelUpdate ?x _ _ = Ok ?de |- _ =>
    apply RelGet_ok in E as Hx; destruct de as [d1 es]; destruct (lo_defs _ Hok i x Hx) as [Ei Hs];
    apply (RelUpdate_spec _ _ _ _ _ Hs) in Ed as (Hid & Ha & Hs' & _ & Hsame); rename x into d0 end.
  assert (relID d1 = i) as E1 by (unfold rel_identity in Hid; congruence).
  simpl in Hu. destruct (bool_decide _) eqn:El; res_inv.
  - breflect. destruct es; [|done]. specialize (Hsame eq_refl). subst. split; [done|]. split; [done|].
    exists d0. split_and!; [done|done|]. by rewrite insert_id.
  - destruct (put_def_ok T _ T' Hok Hs') as (K1 & K2 & K3); [intros d2 Hd2; congruence|done|].
    split; [done|]. split; [done|]. exists d0. split_and!; [congruence|done|done].
Qed.

Lemma same_rules a b :
  rel_identity b = rel_identity a -> fields_of b = fields_of a -> sym_ok a ->
  sym_ok b /\ relBounds b = relBounds a.
Proof.
  unfold rel_identity, fields_of, sym_ok, IsSymmetric.
  intros [= ? ? ? Ek ? ?] [= ? ? El1 El2 Ep1 Ep2 Eb].
  by rewrite Ek, El1, El2, Ep1, Ep2, Eb.
Qed.

Lemma transition_step change T tenant raw now T' d evs :
  (forall a b es, change a now = Ok (b, es) -> rel_identity b = rel_identity a /\ fields_of b = fields_of a) ->
  links_ok T -> RelTransition change tenant raw now T = Ok (T', d, evs) ->
  links_ok T' /\ links T' = links T /\
  exists d0, relDefs T !! relID d = Some d0 /\ rel_identity d = rel_identity d0 /\
    relBounds d = relBounds d0 /\ relDefs T' = <[relID d := d]> (relDefs T).
Proof.
  intros Hch Hok. unfold RelTransition. destruct (ParseID raw) as [i|]; [|done]. intros Ht. res_inv.
  match goal with E : RelGet _ _ = Ok ?x, Ed : change ?x _ = Ok ?de |- _ =>
    apply RelGet_ok in E as Hx; destruct de as [d1 es]; destruct (lo_defs _ Hok i x Hx) as [Ei Hs];
    apply Hch in Ed as [Hid Hf]; rename x into d0 end.
  assert (relID d1 = i) as E1 by (unfold rel_identity in Hid; congruence).
  destruct (same_rules _ _ Hid Hf Hs) as [Hs' Eb].
  destruct (put_def_ok T _ T' Hok Hs') as (K1 & K2 & K3); [intros d2 Hd2; congruence|done|].
  split; [done|]. split; [done|]. exists d0. simpl. split_and!; [congruence|done..].
Qed.

Lemma archive_same a now b es :
  RelArchive a now = Ok (b, es) -> rel_identity b = rel_identity a /\ fields_of b = fields_of a.
Proof. unfold RelArchive. intros E. by res_inv. Qed.

Lemma restore_same a now b es :
  RelRestore a now = Ok (b, es) -> rel_identity b = rel_identity a /\ fields_of b = fields_of a.
Proof. unfold RelRestore. intros E. by res_inv. Qed.

Lemma canonical_ends d p c :
  let ends := canonical d p c in
  (ends = (p, c) \/ (IsSymmetric d = true /\ ends = (c, p))) /\
  (IsSymmetric d = true -> String.ltb ends.2 ends.1 = false) /\
  canonical d ends.1 ends.2 = ends.
Proof.
  unfold canonical. destruct (IsSymmetric d); simpl; [|split_and!; [by left|done|done]].
  destruct (String.ltb c p) eqn:E; simpl.
  - rewrite (ltb_flip _ _ E). split_and!; [by right|done|done].
  - rewrite E. split_and!; [by left|done|done].
Qed.

Lemma ParseEntityID_nonempty s e : ParseEntityID s = Ok e -> e = s /\ e <> EmptyString.
Proof. unfold ParseEntityID, str_IsZero. intros E. res_inv. by breflect. Qed.

Lemma LinkNew_spec d p c pv cv fresh now l es :
  sym_ok d -> LinkNew d p c pv cv fresh now = Ok (l, es) ->
  link_ok d l /\ LinkIsArchived l = false /\ lkID l = fresh /\ lkDefinitionID l = relID d /\
  (lkParent l, lkChild l) = canonical d p c /\ RelIsArchived d = false.
Proof.
  intros Hsym. unfold LinkNew. intros E. res_inv. unfold str_IsZero in *. breflect.
  destruct (canonical_ends d p c) as (Hends & Hord & _).
  split_and!; [|done|done|done|by destruct (canonical d p c)|done].
  split; simpl.
  - done.
  - destruct Hends as [->|[_ ->]]; done.
  - intros E. rewrite andb_false_iff, !bool_decide_eq_false in *.
    assert (p = c) as -> by (destruct Hends as [Ee|[_ Ee]]; rewrite Ee in E; simpl in E; congruence).
    naive_solver.
  - exact Hord.
  - intros Hs. destruct (Hsym Hs) as (P & C & _). rewrite P, C in *. simpl in *.
    by destruct pv, cv.
Qed.

Lemma link_step T tenant i fresh now T' l evs :
  links_ok T -> links T !! fresh = None -> LinkCase tenant i fresh now T = Ok (T', l, evs) ->
  links_ok T' /\ links T !! lkID l = None /\ LinkIsArchived l = false /\
  relDefs T' = relDefs T /\ links T' = <[lkID l := l]> (links T) /\
  exists d, relDefs T !! lkDefinitionID l = Some d /\ RelIsArchived d = false /\
    enforceCardinality T d (lkDefinitionID l) (lkParent l) (lkChild l) = Ok tt.
Proof.
  intros Hok Hf. unfold LinkCase. destruct (ParseID _) as [def|]; [|done].
  destruct (ParseEntityID (liParent i)) as [p|]; [|done].
  destruct (ParseEntityID (liChild i)) as [c|]; [|done]. intros Hl. res_inv.
  match goal with E : RelGet _ _ = Ok ?x, Ed : LinkNew ?x _ _ _ _ _ _ = Ok ?le |- _ =>
    apply RelGet_ok in E as Hd; rename x into d; destruct le as [l es];
    destruct (lo_defs _ Hok def d Hd) as [Ei Hs];
    apply (LinkNew_spec _ _ _ _ _ _ _ _ _ Hs) in Ed as (K1 & K2 & K3 & K4 & K5 & K6) end.
  destruct (canonical_ends d p c) as (_ & _ & Hidem). rewrite Hidem in K5.
  assert (canonical d p c = (lkParent l, lkChild l)) as Ec by done. rewrite Ec in *. simpl in *.
  rewrite K4, Ei. destruct (put_link_ok T d l T' Hok) as (P1 & P2 & P3); [by rewrite K4, Ei|done|done|].
  split_and!; [done|congruence|done|done|done|]. exists d. split_and!; done.
Qed.

Lemma unlink_step T tenant raw now T' l' evs :
  links_ok T -> UnlinkCase tenant raw now T = Ok (T', l', evs) ->
  links_ok T' /\ LinkIsArchived l' = true /\ relDefs T' = relDefs T /\
  links T' = <[lkID l' := l']> (links T) /\ exists l, links T !! lkID l' = Some l.
Proof.
  intros Hok. unfold UnlinkCase. destruct (ParseID raw) as [i|]; [|done]. intros Hu. res_inv.
  match goal with E : LinkGet _ _ = Ok ?x, Ed : LinkUnlink ?x _ = Ok _ |- _ =>
    apply LinkGet_ok in E as Hl; rename x into l; unfold LinkUnlink in Ed end.
  res_inv. simpl in *. pose proof (lo_links _ Hok i l Hl) as Ei. simpl in Ei.
  destruct (lo_link _ Hok i l Hl) as (d & Hd & [K1 K2 K3 K4 K5]).
  destruct (put_link_ok T d (mkLink (lkID l) (lkTenantID l) (lkDefinitionID l) (lkParent l) (lkChild l)
    (lkParentVersion l) (lkChildVersion l) (lkCreatedAt l) now (Some now)) T' Hok) as (P1 & P2 & P3);
    [done|by split|done|].
  split_and!; [done|done|done|done|]. exists l. simpl. by rewrite Ei.
Qed.

Lemma rel_step_ok b T T' : rel_step b T T' -> links_ok T -> links_ok T'.
Proof.
  intros Hs Hok. destruct Hs as [c ->|tenant i fs fresh now d evs Hf Hc|tenant raw u v now d evs Hu _
    |tenant raw now d evs Ht|tenant raw now d evs Ht|tenant i fresh now l evs Hf Hl|tenant raw now l evs Hu].
  - by destruct Hok as [D1 D2 D3 D4 D5]; split.
  - by apply (create_step _ _ _ _ _ _ _ _ _ Hok Hf Hc).
  - by apply (update_step _ _ _ _ _ _ _ _ _ Hok Hu).
  - refine (proj1 (transition_step _ _ _ _ _ _ _ _ _ Hok Ht)). intros *. apply archive_same.
  - refine (proj1 (transition_step _ _ _ _ _ _ _ _ _ Hok Ht)). intros *. apply restore_same.
  - by apply (link_step _ _ _ _ _ _ _ _ Hok Hf Hl).
  - by apply (unlink_step _ _ _ _ _ _ _ Hok Hu).
Qed.

Lemma rel_reachable_ok b T : rel_reachable b T -> links_ok T.
Proof.
  induction 1 as [c|T T' _ IH Hs]; [|by eapply rel_step_ok].
  split; simpl; try apply map_Forall_empty; intros *; by rewrite lookup_empty.
Qed.

(** ** Cardinality *)

Definition as_parent (def : ID) (e : EntityID) (l : Relationship) : bool :=
  live_link def l && bool_decide (lkParent l = e).
Definition as_child (def : ID) (e : EntityID) (l : Relationship) : bool :=
  live_link def l && bool_decide (lkChild l = e).
Definition touches (def : ID) (e : EntityID) (l : Relationship) : bool :=
  as_parent def e l || as_child def e l.

Lemma CountLiveLinks_count T def e :
  CountLiveLinks T def e = (count (as_parent def e) (links T), count (as_child def e) (links T)).
Proof. unfold CountLiveLinks, count. by rewrite !filter_filter. Qed.

Definition in_limit (limit : option Z) (n : nat) : Prop :=
  match limit with Some m => Z.of_nat n <= Z.max 0 m | None => True end.

Definition within (d : RelDefinition) (ls : gmap ID Relationship) (e : EntityID) : Prop :=
  let b := relBounds d in
  if IsSymmetric d then in_limit (MaxChildren b) (count (touches (relID d) e) ls)
  else in_limit (MaxChildren b) (count (as_parent (relID d) e) ls) /\
       in_limit (MaxParents b) (count (as_child (relID d) e) ls).

Definition cardinality_ok (T : LinkTables) : Prop :=
  forall i d e, relDefs T !! i = Some d -> within d (links T) e.

Lemma in_limit_le lim n k : (k <= n)%nat -> in_limit lim n -> in_limit lim k.
Proof. destruct lim; simpl; lia. Qed.

Lemma in_limit_loosen a b n : no_tighter a b -> in_limit a n -> in_limit b n.
Proof. destruct a, b; simpl; lia || done. Qed.

(** One more link where the bound was not reached. *)
Lemma in_limit_next lim n k j :
  at_limit lim n = false -> (j <= n)%nat -> (k <= 1 + j)%nat -> in_limit lim k.
Proof. destruct lim; simpl; [|done]. intros Hl%Z.leb_gt. lia. Qed.

Lemma within_le d ls ls' e :
  (forall p, (forall l, p l = true -> LinkIsArchived l = false) -> (count p ls' <= count p ls)%nat) ->
  within d ls e -> within d ls' e.
Proof.
  intros Hle. assert (forall l, live_link (relID d) l = true -> LinkIsArchived l = false) as Hlive
    by (intros l; unfold live_link; rewrite andb_true_iff, negb_true_iff; tauto).
  unfold within. destruct (IsSymmetric d).
  - apply in_limit_le, Hle. unfold touches, as_parent, as_child. intros l.
    rewrite orb_true_iff, !andb_true_iff. naive_solver.
  - intros [H1 H2]. split; (eapply in_limit_le; [apply Hle|done]); unfold as_parent, as_child;
      intros l; rewrite andb_true_iff; naive_solver.
Qed.

Lemma within_same d d' ls e :
  rel_identity d' = rel_identity d -> loosens (relBounds d) (relBounds d') ->
  within d ls e -> within d' ls e.
Proof.
  unfold rel_identity, within, IsSymmetric. intros [= -> _ _ -> _ _] [L1 L2].
  destruct (bool_decide _); [by apply in_limit_loosen|].
  intros [H1 H2]. split; by eapply in_limit_loosen.
Qed.

Lemma loosens_refl b : loosens b b.
Proof. split; [destruct (MaxChildren b)|destruct (MaxParents b)]; simpl; lia || done. Qed.

Lemma within_unused T d e :
  links_ok T -> relDefs T !! relID d = None -> within d (links T) e.
Proof.
  intros Hok Hno. assert (forall l i, links T !! i = Some l -> live_link (relID d) l = false) as Hz.
  { intros l i Hl. destruct (lo_link _ Hok i l Hl) as (d0 & Hd0 & _).
    unfold live_link. rewrite bool_decide_false; [done|congruence]. }
  unfold within. destruct (IsSymmetric d); [|split]; rewrite count_zero;
    try (destruct (MaxChildren _); simpl; lia || done);
    try (destruct (MaxParents _); simpl; lia || done);
    intros i l Hl; unfold touches, as_parent, as_child; by rewrite (Hz l i Hl).
Qed.

Lemma enforce_ok T d def p c :
  enforceCardinality T d def p c = Ok tt ->
  if IsSymmetric d then
    forall e, e = p \/ e = c -> at_limit (MaxChildren (relBounds d))
      (count (as_parent def e) (links T) + count (as_child def e) (links T)) = false
  else at_limit (MaxChildren (relBounds d)) (count (as_parent def p) (links T)) = false /\
       at_limit (MaxParents (relBounds d)) (count (as_child def c) (links T)) = false.
Proof.
  unfold enforceCardinality. rewrite !CountLiveLinks_count. simpl.
  destruct (IsSymmetric d); intros E; res_inv; [|done]. by intros e [->| ->].
Qed.

Lemma within_link T d l e :
  links T !! lkID l = None -> LinkIsArchived l = false ->
  (relID d = lkDefinitionID l -> enforceCardinality T d (lkDefinitionID l) (lkParent l) (lkChild l) = Ok tt) ->
  within d (links T) e -> within d (<[lkID l := l]> (links T)) e.
Proof.
  intros Hnew Hl Henf Hw. unfold within in *.
  assert (live_link (relID d) l = bool_decide (lkDefinitionID l = relID d)) as Elive
    by (unfold live_link; by rewrite Hl, andb_true_r).
  destruct (decide (relID d = lkDefinitionID l)) as [Ei|Hne].
  - specialize (Henf Ei). apply enforce_ok in Henf. rewrite <- Ei in Henf.
    rewrite bool_decide_true in Elive by done. destruct (IsSymmetric d).
    + rewrite count_new by done. destruct (touches (relID d) e l) eqn:Et; [|done].
      unfold touches, as_parent, as_child in Et. rewrite Elive in Et. simpl in Et.
      rewrite orb_true_iff, !bool_decide_eq_true in Et.
      eapply in_limit_next; [apply (Henf e); naive_solver|apply count_or|done].
    + destruct Henf as [P C], Hw as [W1 W2]. split; (rewrite count_new by done).
      * destruct (as_parent (relID d) e l) eqn:Et; [|done]. unfold as_parent in Et.
        rewrite Elive in Et. simpl in Et. apply bool_decide_eq_true in Et as <-.
        by eapply in_limit_next.
      * destruct (as_child (relID d) e l) eqn:Et; [|done]. unfold as_child in Et.
        rewrite Elive in Et. simpl in Et. apply bool_decide_eq_true in Et as <-.
        by eapply in_limit_next.
  - rewrite bool_decide_false in Elive by congruence.
    destruct (IsSymmetric d); [|destruct Hw; split]; (rewrite count_new by done);
      unfold touches, as_parent, as_child in *; by rewrite Elive.
Qed.

Lemma cardinality_step T T' : rel_step false T T' -> links_ok T -> cardinality_ok T -> cardinality_ok T'.
Proof.
  intros Hs Hok Hc. unfold cardinality_ok.
  assert (forall d d0 i d' e, relDefs T !! relID d = Some d0 -> rel_identity d = rel_identity d0 ->
    loosens (relBounds d0) (relBounds d) -> <[relID d := d]> (relDefs T) !! i = Some d' ->
    within d' (links T) e) as Hput.
  { intros d d0 i d' e Hd0 Hid Hb [[_ <-]|[_ Hd']]%lookup_insert_Some; [|by eapply Hc].
    eapply within_same; [exact Hid|exact Hb|]. by eapply Hc. }
  destruct Hs as [c ->|tenant i fs fresh now d evs Hf Hcr|tenant raw u v now d evs Hu Hlo
    |tenant raw now d evs Ht|tenant raw now d evs Ht|tenant i fresh now l evs Hf Hl|tenant raw now l evs Hu].
  - exact Hc.
  - destruct (create_step _ _ _ _ _ _ _ _ _ Hok Hf Hcr) as (_ & Ei & -> & ->).
    intros j d' e [[_ <-]|[_ Hd']]%lookup_insert_Some; [|by eapply Hc].
    apply within_unused; [done|by rewrite Ei].
  - destruct (update_step _ _ _ _ _ _ _ _ _ Hok Hu) as (_ & -> & d0 & Hd0 & Hid & ->).
    intros j d' e. apply (Hput d d0); [done|done|]. by apply Hlo.
  - destruct (transition_step _ _ _ _ _ _ _ _ (fun a b es => archive_same a now b es) Hok Ht)
      as (_ & -> & d0 & Hd0 & Hid & Eb & ->).
    intros j d' e. apply (Hput d d0); [done|done|]. rewrite Eb. apply loosens_refl.
  - destruct (transition_step _ _ _ _ _ _ _ _ (fun a b es => restore_same a now b es) Hok Ht)
      as (_ & -> & d0 & Hd0 & Hid & Eb & ->).
    intros j d' e. apply (Hput d d0); [done|done|]. rewrite Eb. apply loosens_refl.
  - destruct (link_step _ _ _ _ _ _ _ _ Hok Hf Hl) as (_ & Hn & Ll & -> & -> & d0 & Hd0 & _ & He).
    intros j d' e Hd'. apply within_link; [done|done| |by eapply Hc].
    intros Ei. destruct (lo_defs _ Hok j d' Hd') as [Ej _]. congruence.
  - destruct (unlink_step _ _ _ _ _ _ _ Hok Hu) as (_ & La & -> & -> & l0 & Hl0).
    intros j d' e Hd'. eapply within_le; [|by eapply Hc]. intros p Hp.
    apply (count_replace p _ _ l0); [done|]. intros E. specialize (Hp _ E). congruence.
Qed.

(** C36: links are sound along every history of the usecases of relationships: at
    most one live link joins two entities under a definition - in either order
    when it is symmetric, whose pairs are stored smaller entity first and never
    pinned; a link has its definition's tenant, two entities, and joins an entity
    to itself only between two types; live definitions of a tenant have distinct
    names. *)
Theorem links_sound b T :
  rel_reachable b T ->
  (forall i j k l d, links T !! i = Some k -> links T !! j = Some l ->
     LinkIsArchived k = false -> LinkIsArchived l = false ->
     lkDefinitionID k = lkDefinitionID l -> relDefs T !! lkDefinitionID k = Some d ->
     (lkParent k = lkParent l /\ lkChild k = lkChild l) \/
     (IsSymmetric d = true /\ lkParent k = lkChild l /\ lkChild k = lkParent l) -> i = j) /\
  (forall i l, links T !! i = Some l -> exists d, relDefs T !! lkDefinitionID l = Some d /\ link_ok d l) /\
  (forall i j d e, relDefs T !! i = Some d -> relDefs T !! j = Some e ->
     RelIsArchived d = false -> RelIsArchived e = false ->
     relTenantID d = relTenantID e -> relInternalName d = relInternalName e -> i = j).
Proof.
  intros Hr. destruct (rel_reachable_ok b T Hr) as [D1 D2 D3 D4 D5]. split_and!; [|exact D4|exact D2].
  intros i j k l d Hk Hl Lk Ll Ed Hd [[Ep Ec]|(Hsym & E1 & E2)]; [by apply (D5 i j k l)|].
  destruct (D4 i k Hk) as (dk & Hdk & Ok_), (D4 j l Hl) as (dl & Hdl & Ol).
  assert (dk = d) as -> by congruence. assert (dl = d) as -> by congruence.
  pose proof (lk_order _ _ Ok_ Hsym) as O1. pose proof (lk_order _ _ Ol Hsym) as O2.
  rewrite E1, E2 in O1. assert (lkParent l = lkChild l) as E by (by apply ltb_antisym).
  apply (D5 i j k l); congruence.
Qed.

(** Cardinality bounds hold along every history in which no update tightens
    them: under a directed definition a parent has at most its maximum of live
    children and a child of live parents; under a symmetric one at most the
    maximum of live links touch an entity, on either side. *)
Theorem cardinality_bounded T :
  rel_reachable false T ->
  forall i d e, relDefs T !! i = Some d -> within d (links T) e.
Proof.
  intros Hr. enough (cardinality_ok T) by done.
  induction Hr as [c|T T' Hr IH Hs].
  - intros i d e Hd. simpl in Hd. by rewrite lookup_empty in Hd.
  - eapply cardinality_step; [exact Hs| |exact IH]. by eapply rel_reachable_ok.
Qed.

(** ** A name that cannot be used again *)

Lemma NewAttributeSet_spec tenant name display fresh now t es :
  tenant <> EmptyString -> NewAttributeSet tenant name display fresh now = Ok (t, es) ->
  tdID t = fresh /\ tdTenantID t = tenant /\ tdInternalName t = name /\ TypeIsArchived t = false.
Proof.
  intros Ht. unfold NewAttributeSet, TypeNew, str_IsZero. intros E. res_inv. simpl.
  by rewrite bool_decide_false.
Qed.

(** A live type has the name of the attribute set to come. *)
Definition set_taken (c : Catalogue) (tenant : TenantID) (name : string) (k : ID) : Prop :=
  exists t, c !! k = Some t /\ tdID t = k /\ TypeIsArchived t = false /\ tdTenantID t = tenant /\
    tdInternalName t = attributeSetName name.

Lemma set_taken_refuses T tenant i fs fresh now k r :
  tenant <> EmptyString -> set_taken (lkTypes T) tenant (crInternalName i) k -> fs <> k ->
  CreateDefinition tenant i fs fresh now T <> Ok r.
Proof.
  intros Ht (t & Hk & Ek & Lt & Et & En) Hne. unfold CreateDefinition.
  destruct (ParseID _); [|done]. destruct (ParseID _); [|done]. destruct r as [[T' d] es]. intros Hc. res_inv.
  match goal with E : NewAttributeSet _ _ _ _ _ = Ok ?se, E' : TypeSave _ _ = Ok _ |- _ =>
    destruct se as [s es']; apply (NewAttributeSet_spec _ _ _ _ _ _ _ Ht) in E as (S1 & S2 & S3 & S4);
    rename E' into Es end.
  unfold TypeSave in Es. simpl in Es.
  assert (existsb (fun o => negb (bool_decide (tdID o = tdID s)) &&
    same_name (tdTenantID s) (tdInternalName s) o) (values (lkTypes T)) = true) as Hx.
  { apply existsb_values. exists (tdID t), t. split; [done|]. rewrite bool_decide_false by congruence.
    unfold same_name. rewrite En, S2, S3, !bool_decide_true by done. by rewrite Lt. }
  by rewrite S4, Hx in Es.
Qed.

Lemma create_takes_set T tenant i fs fresh now T' d evs :
  tenant <> EmptyString -> CreateDefinition tenant i fs fresh now T = Ok (T', d, evs) ->
  set_taken (lkTypes T') tenant (crInternalName i) fs /\ relInternalName d = crInternalName i /\
  relTenantID d = tenant.
Proof.
  intros Ht. unfold CreateDefinition. destruct (ParseID _); [|done]. destruct (ParseID _); [|done].
  intros Hc. res_inv.
  match goal with E : NewAttributeSet _ _ _ _ _ = Ok ?se, E' : TypeSave _ _ = Ok _,
    En : NewDefinition _ _ _ = Ok ?de, Es : RelSave _ _ = Ok _ |- _ =>
    destruct se as [s es]; apply (NewAttributeSet_spec _ _ _ _ _ _ _ Ht) in E as (S1 & S2 & S3 & S4);
    rename E' into Ets, Es into Ers, En into End end.
  unfold TypeSave in Ets. unfold RelSave in Ers. res_inv. simpl. split; [|].
  - exists s. by rewrite lookup_insert_eq.
  - unfold NewDefinition in End. simpl in End. res_inv. simpl. unfold str_IsZero.
    by rewrite bool_decide_false.
Qed.

Lemma transition_types change tenant raw now T T' d evs :
  RelTransition change tenant raw now T = Ok (T', d, evs) -> lkTypes T' = lkTypes T.
Proof.
  unfold RelTransition. destruct (ParseID raw); [|done]. intros E. res_inv.
  unfold RelSave in *. by res_inv.
Qed.

(** Archiving a relationship does not free its name: [Create] looks the name up
    among live definitions only, so the check passes once the definition is
    archived - and the creation fails all the same, because the attribute set
    created beside the archived definition is still live under the name the new
    one would take. *)
Theorem archived_name_burned b T tenant i fs fresh now T1 d evs raw now' T2 d' evs' :
  rel_reachable b T -> relDefs T !! fresh = None -> tenant <> EmptyString ->
  CreateDefinition tenant i fs fresh now T = Ok (T1, d, evs) ->
  RelTransition RelArchive tenant raw now' T1 = Ok (T2, d', evs') -> relID d' = fresh ->
  forall j fs' fresh' now'', crInternalName j = crInternalName i -> fs' <> fs ->
  RelByInternalName (relDefs T2) tenant (crInternalName j) = None /\
  forall r, CreateDefinition tenant j fs' fresh' now'' T2 <> Ok r.
Proof.
  intros Hr Hf Ht Hc Ha Ed j fs' fresh' now'' En Hne.
  destruct (create_takes_set _ _ _ _ _ _ _ _ _ Ht Hc) as (Hset & Dn & Dt).
  pose proof (rel_reachable_ok _ _ Hr) as Hok.
  destruct (create_step _ _ _ _ _ _ _ _ _ Hok Hf Hc) as (Hok1 & Ei & Hd1 & _).
  destruct (transition_step _ _ _ _ _ _ _ _ (fun a b es => archive_same a now' b es) Hok1 Ha)
    as (Hok2 & _ & d0 & Hd0 & Hid & _ & Hd2).
  rewrite En. split.
  - unfold RelByInternalName. apply head_filter. intros k e He. apply not_true_is_false.
    unfold rel_named. rewrite !andb_true_iff, negb_true_iff, !bool_decide_eq_true.
    intros [[Et Ee] Le]. rewrite Hd2 in He. apply lookup_insert_Some in He as [[_ <-]|[Hk He]].
    + unfold RelTransition, RelArchive in Ha. destruct (ParseID raw); [|done]. res_inv. done.
    + rewrite Hd1 in He. assert (RelIsArchived d = false) as Ld.
      { clear -Hc. unfold CreateDefinition in Hc. destruct (ParseID _); [|done]. destruct (ParseID _); [|done].
        res_inv. match goal with E : NewDefinition _ _ _ = Ok ?de |- _ =>
          destruct de; by apply NewDefinition_spec in E as (_ & _ & L & _) end. }
      apply Hk. enough (k = fresh) by congruence.
      eapply (lo_names _ Hok1 k fresh e d); rewrite ?Hd1; [done| |done|done|congruence|congruence].
      rewrite <- Ei. apply lookup_insert_eq.
  - intros r. apply (set_taken_refuses _ _ _ _ _ _ fs); [done| |done].
    rewrite (transition_types _ _ _ _ _ _ _ _ Ha), En. exact Hset.
Qed.
End System.
