(* ===== verification/RelationshipExample.v ===== *)
(** Runs of the relationship usecases: links under bounds, and what an update of a
    definition, its archival and its inheritance let in. *)

From Stdlib Require Import ZArith Lia String Ascii List.
From stdpp Require Import base tactics list gmap fin_maps strings option decidable pretty.
From S2P Require Import Prelude GoText Ids Access TypeDef TypeDefFacts Relationship RelationshipFacts.

Open Scope Z_scope.
Open Scope go_scope.

Module LinkRun.
#[export] Existing Instance AccessExample.ulid.

Definition unbounded : Bounds := mkBounds None None None None.
Definition at_most (n : Z) : Bounds := mkBounds None (Some n) None None.

Definition rel_fields (b : Bounds) : RelFields :=
  mkRelFields "Link" EmptyString EmptyString EmptyString PolicyEmpty PolicyEmpty b.

Definition keep {A B} (r : result (LinkTables * A * B)) (T : LinkTables) : LinkTables :=
  match r with Ok (T', _, _) => T' | Err _ => T end.

(** Two types, nothing linked. *)
Definition two_types : Catalogue :=
  match TypeCreate "default" (mkCreateInput "product" "Product" EmptyString EmptyString) 1 0 ∅ with
  | Ok (c, _, _) =>
      match TypeCreate "default" (mkCreateInput "part" "Part" EmptyString EmptyString) 2 0 c with
      | Ok (c', _, _) => c'
      | Err _ => c
      end
  | Err _ => ∅
  end.

Definition blank : LinkTables := mkLinkTables two_types ∅ ∅.

Definition new_rel (name : string) (kind : RelKind) (child base : string) (b : Bounds) : CreateRelInput :=
  mkCreateRel name kind "1" child base (rel_fields b).

(** [def]'s set and definition take the identifiers [n] and [n + 1]. *)
Definition define (i : CreateRelInput) (n : N) (T : LinkTables) : LinkTables :=
  keep (CreateDefinition "default" i n (n + 1) 10 T) T.

Definition connect (def p c : string) (fresh : ID) (T : LinkTables) : LinkTables :=
  keep (LinkCase "default" (mkLinkInput def p c None None) fresh 20 T) T.

Section Steps.
Context (b : bool) (T : LinkTables) (HT : rel_reachable b T).

Lemma define_reachable i n : relDefs T !! (n + 1)%N = None -> rel_reachable b (define i n T).
Proof using HT.
  intros Hf. unfold define, keep. destruct (CreateDefinition _ _ _ _ _ _) as [[[T' d] evs]|] eqn:E; [|done].
  eapply rr_step; [exact HT|]. by eapply rs_create.
Qed.

Lemma connect_reachable def p c fresh :
  links T !! fresh = None -> rel_reachable b (connect def p c fresh T).
Proof using HT.
  intros Hf. unfold connect, keep. destruct (LinkCase _ _ _ _ _) as [[[T' l] evs]|] eqn:E; [|done].
  eapply rr_step; [exact HT|]. by eapply rs_link.
Qed.

Lemma update_reachable raw u : b = true -> rel_reachable b (keep (UpdateDefinition "default" raw u None 30 T) T).
Proof using HT.
  intros ->. unfold keep. destruct (UpdateDefinition _ _ _ _ _ _) as [[[T' d] evs]|] eqn:E; [|done].
  eapply rr_step; [exact HT|]. by eapply rs_update.
Qed.
End Steps.

(** A product with its two parts, and two products that fit together. *)
Definition linked : LinkTables :=
  connect "13" "c" "a" 3
    (define (new_rel "fits" RelSymmetric "1" EmptyString (at_most 1)) 12
      (connect "11" "a" "p2" 2 (connect "11" "a" "p1" 1
        (define (new_rel "has_part" RelKindEmpty "2" EmptyString (at_most 2)) 10 blank)))).

Lemma linked_reachable b : rel_reachable b linked.
Proof.
  unfold linked. apply connect_reachable; [|vm_compute; reflexivity].
  apply define_reachable; [|vm_compute; reflexivity].
  do 2 (apply connect_reachable; [|vm_compute; reflexivity]).
  apply define_reachable; [|vm_compute; reflexivity]. apply rr_empty.
Qed.

Definition rel_at (T : LinkTables) (i : ID) : RelDefinition :=
  default (mkRelDef 0 "" "" "" "" RelDirected 0 0 "" "" 0 None PolicyLatest PolicyLatest unbounded 0 0 0 None)
    (relDefs T !! i).
Definition link_at (T : LinkTables) (i : ID) : Relationship :=
  default (mkLink 0 "" 0 "" "" None None 0 0 None) (links T !! i).

(** [has_part] allows one part from now on. *)
Definition tightened : LinkTables :=
  keep (UpdateDefinition "default" "11" (rel_fields (at_most 1)) None 30 linked) linked.

Definition archived : LinkTables := keep (RelTransition RelArchive "default" "13" 30 linked) linked.

(** Definitions that extend one another, [n] of them; the last is number [2 n + 10]. *)
Fixpoint inherited (n : nat) : LinkTables :=
  match n with
  | O => blank
  | S n =>
      define (new_rel (String.append "line" (pretty n)) RelDirected "2"
        (match n with O => EmptyString | S _ => pretty (2 * N.of_nat n + 10)%N end) unbounded)
        (2 * N.of_nat n + 11) (inherited n)
  end.
End LinkRun.

Import LinkRun.

(** An update may tighten a bound below the links that exist: nothing looks at
    them, so a parent keeps more live children than its definition allows - while
    the comment on the enforcement says code downstream may rely on a declared
    bound. *)
Theorem bound_tightened_under_links :
  rel_reachable true tightened /\
  MaxChildren (relBounds (rel_at tightened 11)) = Some 1 /\
  CountLiveLinks tightened 11 "a" = (2%nat, 0%nat) /\
  ~ within (rel_at tightened 11) (links tightened) "a".
Proof.
  split_and!.
  - apply update_reachable; [apply linked_reachable|done].
  - vm_compute. reflexivity.
  - vm_compute. reflexivity.
  - vm_compute. intros [H _]. by apply H.
Qed.

(** Definitions can extend one another beyond the depth their attribute sets are
    resolved to. *)
Lemma inheritance_beyond_depth :
  is_ok (AttributeSets (inherited 10) "default" "30") = true /\
  isSome (relDefs (inherited 11) !! 32%N) = true /\
  AttributeSets (inherited 11) "default" "32" =
    Err (NewValidation "relationship definition inheritance exceeds the supported depth").
Proof. vm_compute. done. Qed.

(** Every definition of the tenant is held against an entity, whatever types it
    connects. *)
Lemma requirements_of_unrelated :
  RelationshipRequirements
    (define (new_rel "has_part" RelDirected "2" EmptyString (mkBounds (Some 1) None None None)) 10 blank)
    "default" "an entity of another type" =
  Ok [mkRequirement 11 "Link" "children" 1 0].
Proof. vm_compute. done. Qed.

Lemma links_sound_witness :
  (exists d, relDefs linked !! 13%N = Some d /\ link_ok d (link_at linked 3)) /\
  lkParent (link_at linked 3) = "a"%string /\ lkChild (link_at linked 3) = "c"%string.
Proof.
  split; [|vm_compute; split; reflexivity].
  destruct (proj1 (proj2 (links_sound false linked (linked_reachable false))) 3%N (link_at linked 3))
    as (d & Hd & Hok); [vm_compute; reflexivity|].
  assert (lkDefinitionID (link_at linked 3) = 13%N) as E by (vm_compute; reflexivity).
  rewrite E in Hd. exists d. split; [exact Hd|exact Hok].
Defined.

Lemma cardinality_bounded_witness :
  within (rel_at linked 11) (links linked) "a" /\ CountLiveLinks linked 11 "a" = (2%nat, 0%nat).
Proof.
  split; [|vm_compute; reflexivity].
  refine (cardinality_bounded linked (linked_reachable false) 11%N _ "a" _). vm_compute. reflexivity.
Defined.

Lemma archived_name_burned_witness :
  CreateDefinition "default" (new_rel "fits" RelDirected "2" EmptyString unbounded) 20 21 40 archived =
  Err (NewConflict "a type with this internal name already exists") /\
  RelByInternalName (relDefs archived) "default" "fits" = None.
Proof.
  split; [vm_compute; reflexivity|].
  assert (exists T1 d evs, CreateDefinition "default" (new_rel "fits" RelSymmetric "1" EmptyString (at_most 1))
    12 13 10 blank = Ok (T1, d, evs) /\ exists T2 d' evs',
    RelTransition RelArchive "default" "13" 30 T1 = Ok (T2, d', evs') /\ relID d' = 13%N)
    as (T1 & d & evs & E1 & T2 & d' & evs' & E2 & E3).
  { eexists _, _, _. split; [vm_compute; reflexivity|]. eexists _, _, _.
    split; [vm_compute; reflexivity|reflexivity]. }
  destruct (archived_name_burned false blank "default" _ 12 13 10 T1 d evs "13" 30 T2 d' evs' (rr_empty _ _)
    eq_refl ltac:(discriminate) E1 E2 E3 (new_rel "fits" RelDirected "2" EmptyString unbounded) 20 21 40)
    as [_ Hno]; [reflexivity|discriminate|].
  vm_compute. reflexivity.
Defined.
