(* ===== verification/Pagination.v ===== *)
(** Keyset pagination ([pkg/db/pagination.go]) and the pages of the in-memory lists
    ([infrastructure/memory/store.go]): cursors that carry the sort key of the last
    row, pages that start strictly after it.

    The text of a cursor - base64 over the JSON of its values - and the time
    formats are the standard library's ([GoCursor]). *)

From Stdlib Require Import ZArith Lia String Ascii List Sorted.
From stdpp Require Import base tactics list strings option decidable.
From S2P Require Import Prelude GoText Ids.

Open Scope Z_scope.
Open Scope go_scope.

Class GoCursor := {
  (** [base64.StdEncoding.EncodeToString] of [json.Marshal] *)
  cursor_text : list string -> string;
  (** [DecodeString], then [json.Unmarshal] *)
  cursor_values : string -> option (list string);
  (** [time.Parse] of one of [keysetTimeFormats] succeeds *)
  parsesAsTime : string -> bool;
  (** [strconv.ParseFloat] of the trimmed text succeeds *)
  parsesAsNumber : string -> bool
}.

(** ** Requests *)

Definition defaultPageSize : Z := 20.
Definition maxPageSize : Z := 200.

Record Page := mkPage { pgLimit : Z; pgCursor : string; pgWantTotal : bool; pgStable : bool }.

Record PageArgs := mkPageArgs { paLimit : option Z; paCursor : option string; paWantTotal : bool }.

Section Cursors.
Context `{GoCursor}.

Definition EncodeKeyset (key : list string) : string := cursor_text key.

Definition ErrInvalidCursor : Error := NewValidation "invalid cursor".

Definition DecodeKeyset (cursor : string) : result (list string) :=
  match cursor_values cursor with Some vs => Ok vs | None => Err ErrInvalidCursor end.

(** [Resolve] *)
Definition clampLimit (limit : option Z) : result Z :=
  match limit with
  | None => Ok defaultPageSize
  | Some n =>
      guard! n <? 1 else Errorf "limit must be a positive integer" then
      Ok (if maxPageSize <? n then maxPageSize else n)
  end.

Definition Resolve (a : PageArgs) : result Page :=
  let! limit := clampLimit (paLimit a) in
  let cursor := default EmptyString (paCursor a) in
  guard! negb (str_IsZero cursor) && negb (is_ok (DecodeKeyset cursor))
    else Errorf "invalid cursor" then
  Ok (mkPage limit cursor (paWantTotal a) false).

Definition FetchLimit (p : Page) : Z := pgLimit p + 1.

(** ** Results *)

Record PageInfo := mkPageInfo {
  HasNextPage : bool;
  HasPreviousPage : bool;
  NextCursor : option string;
  TotalCount : option Z }.

(** [KeysetPage]; the row too many is cut off. *)
Definition KeysetPage {A} (p : Page) (items : list A) (total : option Z) (cursorOf : A -> string) :
    list A * PageInfo :=
  let hasNext := pgLimit p <? Z.of_nat (length items) in
  let items := if hasNext then take (Z.to_nat (pgLimit p)) items else items in
  let next := if hasNext then cursorOf <$> list.last items else None in
  (items, mkPageInfo hasNext (negb (str_IsZero (pgCursor p))) next total).

Definition KeysetTotal (p : Page) (count : Z) : option Z :=
  if pgWantTotal p then Some count else None.

(** ** Cursors against an ordering *)

Record KeysetColumn := mkColumn { Expr : string; Desc : bool; Cast : string }.

Inductive castKind := castText | castTime | castNumber.

(** [strings.TrimPrefix(c, "::")] *)
Definition bare_cast (c : string) : string :=
  match c with
  | String ":"%char (String ":"%char rest) => rest
  | _ => c
  end.

Definition cast_kind (c : KeysetColumn) : castKind :=
  let t := lower (bare_cast (TrimSpace (Cast c))) in
  if bool_decide (t ∈ ["timestamptz"; "timestamp"; "timestamp with time zone";
       "timestamp without time zone"; "date"]%string) then castTime
  else if bool_decide (t ∈ ["int"; "int2"; "int4"; "int8"; "smallint"; "integer"; "bigint"; "numeric";
       "decimal"; "real"; "float4"; "float8"; "double precision"]%string) then castNumber
  else castText.

Definition castable (c : KeysetColumn) (v : string) : bool :=
  match cast_kind c with
  | castTime => parsesAsTime v
  | castNumber => parsesAsNumber v
  | castText => true
  end.

Definition ValidateKeyset (cols : list KeysetColumn) (cursor : string) : result (list string) :=
  let! vs := DecodeKeyset cursor in
  guard! negb (bool_decide (length vs = length cols)) else ErrInvalidCursor then
  guard! negb (forallb (fun p => castable p.1 p.2) (zip cols vs)) else ErrInvalidCursor then
  Ok vs.

(** [keyAfter] *)
Fixpoint keyAfter (a b : list string) (desc : list bool) : bool :=
  match a, b with
  | x :: a, y :: b =>
      if bool_decide (x = y) then keyAfter a b (tail desc)
      else if default false (head desc) then String.ltb x y else String.ltb y x
  | _, _ => false
  end.

(** [sort.Search]: the least index of a monotone predicate, by halving. *)
Fixpoint searchLoop (fuel : nat) (f : nat -> bool) (i j : nat) : nat :=
  match fuel with
  | O => i
  | S fuel =>
      if (i <? j)%nat then
        let h := ((i + j) / 2)%nat in
        if f h then searchLoop fuel f i h else searchLoop fuel f (S h) j
      else i
  end.

Definition Search (n : nat) (f : nat -> bool) : nat := searchLoop n f 0 n.

(** [paginate]: the rows of a page and one more, and the number of all rows. *)
Definition paginate {A} (items : list A) (p : Page) (cols : list KeysetColumn)
    (keyOf : A -> list string) : result (list A * Z) :=
  let total := length items in
  let! start :=
    (if str_IsZero (pgCursor p) then Ok 0%nat
     else
       let! cur := ValidateKeyset cols (pgCursor p) in
       let desc := Desc <$> cols in
       Ok (Search total (fun i =>
             match items !! i with Some x => keyAfter (keyOf x) cur desc | None => false end))) in
  if (total <=? start)%nat then Ok ([], Z.of_nat total)
  else
    let end_ := (start + Z.to_nat (pgLimit p) + 1)%nat in
    let end_ := if (pgLimit p <=? 0) || (total <? end_)%nat then total else end_ in
    Ok (take (end_ - start) (drop start items), Z.of_nat total).

(** A list as an interactor answers it: [List] of a repository, then [KeysetPage]. *)
Definition listPage {A} (items : list A) (p : Page) (cols : list KeysetColumn)
    (keyOf : A -> list string) : result (list A * PageInfo) :=
  let! r := paginate items p cols keyOf in
  Ok (KeysetPage p r.1 (KeysetTotal p r.2) (fun x => EncodeKeyset (keyOf x))).

(** The orderings of the in-memory lists. *)
Definition idKeyset : list KeysetColumn := [mkColumn "id" false ""].
Definition entityKeyset : list KeysetColumn :=
  [mkColumn "last_updated_at" true "::timestamptz"; mkColumn "entity_id" false ""].
Definition entityIDKeyset : list KeysetColumn := [mkColumn "entity_id" false ""].
Definition activityKeyset : list KeysetColumn :=
  [mkColumn "occurred_at" true "::timestamptz"; mkColumn "id" true ""].

(** ** The predicate of the Postgres lists ([KeysetPredicate])

    The text is a disjunction with one disjunct per column: the columns before it
    equal the cursor's values and it lies beyond its own; [?] takes the values in
    order. *)

Inductive Compare_op := OpEq | OpGt | OpLt.

Definition disjunct (cols : list KeysetColumn) (vs : list string) (i : nat) :
    list (nat * Compare_op * string) :=
  ((fun j => (j, OpEq, default EmptyString (vs !! j))) <$> seq 0 i) ++
  [(i, if default false (Desc <$> cols !! i) then OpLt else OpGt, default EmptyString (vs !! i))].

Definition KeysetPredicate (cols : list KeysetColumn) (cursor : string) :
    result (option (list (list (nat * Compare_op * string)))) :=
  if str_IsZero cursor then Ok None
  else
    let! vs := ValidateKeyset cols cursor in
    Ok (Some (disjunct cols vs <$> seq 0 (length cols))).
End Cursors.
