(* ===== verification/PaginationFacts.v ===== *)
(** Keyset pages are complete: a reader that follows the cursors meets every row
    that stays in the list once, in order, whatever is inserted or deleted
    between two pages. *)

From Stdlib Require Import ZArith Lia String Ascii List Sorted.
From stdpp Require Import base tactics list sets sorting strings option decidable pretty.
From S2P Require Import Prelude GoText Ids Pagination.

Open Scope Z_scope.
Open Scope go_scope.

(** ** The order of keys *)

Lemma keyAfter_irrefl a desc : keyAfter a a desc = false.
Proof. revert desc. induction a as [|x a IH]; intros desc; simpl; [done|]. by rewrite bool_decide_true. Qed.

Lemma keyAfter_trans a b c desc :
  length a = length b -> length b = length c ->
  keyAfter a b desc = true -> keyAfter b c desc = true -> keyAfter a c desc = true.
Proof.
  revert b c desc. induction a as [|x a IH]; intros [|y b] [|z c] desc; simpl; try done.
  intros [= Lab] [= Lbc].
  destruct (decide (x = y)) as [->|Nxy], (decide (y = z)) as [->|Nyz];
    rewrite ?(bool_decide_true (_ = _)), ?(bool_decide_false (_ = _)) by done.
  - by apply IH.
  - done.
  - done.
  - intros H1 H2. assert (x <> z) as Nxz.
    { intros ->. destruct (default false (head desc)); rewrite ltb_flip in H2; congruence. }
    rewrite bool_decide_false by done.
    destruct (default false (head desc)); by eapply ltb_trans.
Qed.

Lemma keyAfter_total a b desc :
  length a = length b -> a <> b -> keyAfter a b desc = true \/ keyAfter b a desc = true.
Proof.
  revert b desc. induction a as [|x a IH]; intros [|y b] desc; simpl; try done. intros [= L] Hne.
  destruct (decide (x = y)) as [->|Nxy].
  - rewrite !bool_decide_true by done. apply IH; [done|congruence].
  - rewrite !bool_decide_false by done.
    destruct (String.ltb x y) eqn:E1, (String.ltb y x) eqn:E2;
      destruct (default false (head desc)); auto; exfalso; by apply Nxy, ltb_antisym.
Qed.

(** ** [sort.Search] *)

Lemma searchLoop_spec fuel f i j :
  (j - i <= fuel)%nat -> (i <= j)%nat ->
  (forall m m', (m <= m')%nat -> f m = true -> (m' < j)%nat -> f m' = true) ->
  let k := searchLoop fuel f i j in
  (i <= k <= j)%nat /\ (forall m, (i <= m < k)%nat -> f m = false) /\
  (forall m, (k <= m < j)%nat -> f m = true).
Proof.
  revert i j. induction fuel as [|fuel IH]; intros i j Hf Hij Hm; cbn [searchLoop]; cbv zeta.
  - split_and!; [lia|lia|intros m ?; lia|intros m ?; lia].
  - destruct (i <? j)%nat eqn:E; [apply Nat.ltb_lt in E|apply Nat.ltb_ge in E].
    + pose proof (Nat.Div0.div_le_mono (i + i) (i + j) 2 ltac:(lia)) as H1.
      pose proof (Nat.Div0.div_lt_upper_bound (i + j) 2 j ltac:(lia)) as H2.
      replace (i + i)%nat with (i * 2)%nat in H1 by lia. rewrite Nat.div_mul in H1 by lia.
      set (h := ((i + j) / 2)%nat) in *. destruct (f h) eqn:Eh.
      * destruct (IH i h) as (K1 & K2 & K3); [lia|lia|intros m m' ? ? ?; apply (Hm m m'); [lia|done|lia]|].
        split_and!; [lia|lia|done|]. intros m Hmm.
        destruct (decide (m < h)%nat) as [?|?]; [by apply K3; lia|]. apply (Hm h m); [lia|done|lia].
      * destruct (IH (S h) j) as (K1 & K2 & K3); [lia|lia|done|].
        split_and!; [lia|lia| |done]. intros m Hmm.
        destruct (decide (h < m)%nat) as [?|?]; [by apply K2; lia|].
        apply not_true_is_false. intros Hfm. rewrite (Hm m h) in Eh; [done|lia|done|lia].
    + split_and!; [lia|lia|intros m ?; lia|intros m ?; lia].
Qed.

Lemma last_take_elem {A} n (l : list A) x : list.last (take n l) = Some x -> x ∈ l.
Proof.
  intros [m Em]%last_Some. rewrite <- (take_drop n l), Em. apply elem_of_app. left.
  apply elem_of_app. right. by left.
Qed.

Lemma elem_of_take_drop {A} n (l : list A) x : x ∈ l <-> x ∈ take n l \/ x ∈ drop n l.
Proof. rewrite <- elem_of_app. by rewrite take_drop. Qed.

(** ** Pages of one list *)

Section Pages.
Context `{GoCursor} {A : Type} (cols : list KeysetColumn) (keyOf : A -> list string).

Definition after (cur : list string) (x : A) : bool := keyAfter (keyOf x) cur (Desc <$> cols).
Definition before (x y : A) : Prop := after (keyOf x) y = true.

(** Keys have a value per column, and a cursor gives back the key it was made
    from. *)
Hypothesis key_width : forall x, length (keyOf x) = length cols.
Hypothesis cursor_round : forall x,
  EncodeKeyset (keyOf x) <> EmptyString /\ ValidateKeyset cols (EncodeKeyset (keyOf x)) = Ok (keyOf x).

Lemma after_trans cur x y :
  length cur = length cols -> after cur x = true -> before x y -> after cur y = true.
Proof using key_width.
  unfold before, after. intros Hl H1 H2. eapply keyAfter_trans; [| |exact H2|exact H1]; by rewrite ?key_width.
Qed.

Lemma before_trans x y z : before x y -> before y z -> before x z.
Proof using key_width. intros H1 H2. eapply after_trans; [apply key_width|exact H1|exact H2]. Qed.

Lemma drop_filter (p : A -> bool) l k :
  (forall i x, l !! i = Some x -> (i < k)%nat -> p x = false) ->
  (forall i x, l !! i = Some x -> (k <= i)%nat -> p x = true) -> drop k l = List.filter p l.
Proof.
  revert k. induction l as [|x l IH]; intros [|k] Hlt Hge; simpl; try done.
  - rewrite (Hge 0%nat x) by (done || lia). f_equal. rewrite <- (IH 0%nat); [done|intros; lia|].
    intros i y Hy _. apply (Hge (S i)); [done|lia].
  - rewrite (Hlt 0%nat x) by (done || lia). apply IH.
    + intros i y Hy Hi. apply (Hlt (S i)); [done|lia].
    + intros i y Hy Hi. apply (Hge (S i)); [done|lia].
Qed.

Lemma sorted_lookup l i j x y :
  StronglySorted before l -> (i < j)%nat -> l !! i = Some x -> l !! j = Some y -> before x y.
Proof.
  intros Hs. revert i j. induction Hs as [|z l Hs IH Hz]; intros [|i] [|j] Hij Hi Hj; try done; try lia.
  - injection Hi as ->. eapply list.Forall_forall; [exact Hz|]. by eapply list_elem_of_lookup_2.
  - apply (IH i j); [lia|done|done].
Qed.

Lemma search_drop l cur :
  StronglySorted before l -> length cur = length cols ->
  drop (Search (length l) (fun i => match l !! i with Some x => after cur x | None => false end)) l =
  List.filter (after cur) l.
Proof using key_width.
  intros Hs Hl. unfold Search. set (f := fun i : nat => _).
  destruct (searchLoop_spec (length l) f 0 (length l)) as (K1 & K2 & K3); [lia|lia| |].
  { intros m m' Hmm Hf Hm'. unfold f in *. destruct (l !! m) as [x|] eqn:Ex; [|done].
    destruct (lookup_lt_is_Some_2 l m' Hm') as [y Ey]. rewrite Ey.
    destruct (decide (m = m')) as [->|?]; [congruence|].
    eapply after_trans; [done|exact Hf|]. by eapply (sorted_lookup l m m'); [|lia|..]. }
  assert (forall i x, l !! i = Some x -> f i = after cur x) as Ef by (intros i x Hx; unfold f; by rewrite Hx).
  apply drop_filter; intros i x Hx Hi; rewrite <- (Ef i x Hx).
  - apply K2. lia.
  - apply K3. split; [done|]. by eapply lookup_lt_Some.
Qed.

(** The rows strictly after a cursor; all of them without one. *)
Definition remaining (l : list A) (cur : option (list string)) : list A :=
  match cur with Some key => List.filter (after key) l | None => l end.

Definition cursor_of (cur : option A) : string :=
  match cur with Some x => EncodeKeyset (keyOf x) | None => EmptyString end.

Lemma remaining_sorted l cur : StronglySorted before l -> StronglySorted before (remaining l cur).
Proof.
  intros Hs. destruct cur as [key|]; simpl; [|done].
  induction Hs as [|x l Hs IH Hx]; simpl; [constructor|]. destruct (after key x); [|done].
  constructor; [done|]. apply list.Forall_forall. intros y [Hy _]%elem_of_filter_b.
  by eapply list.Forall_forall in Hx.
Qed.

(** The rows of a page and one more, and the number of all rows. *)
Lemma paginate_spec l limit tot st cur :
  StronglySorted before l -> 1 <= limit ->
  paginate l (mkPage limit (cursor_of cur) tot st) cols keyOf =
    Ok (take (Z.to_nat limit + 1) (remaining l (keyOf <$> cur)), Z.of_nat (length l)).
Proof using key_width cursor_round.
  intros Hs Hlim. set (rest := remaining l (keyOf <$> cur)). unfold paginate. simpl.
  assert (exists start, (if str_IsZero (cursor_of cur) then Ok 0%nat
    else res_bind (ValidateKeyset cols (cursor_of cur)) (fun key => Ok (Search (length l)
      (fun i => match l !! i with Some x => keyAfter (keyOf x) key (Desc <$> cols) | None => false end)))) =
    Ok start /\ drop start l = rest) as (start & -> & Ed).
  { unfold rest. destruct cur as [x|]; simpl.
    - destruct (cursor_round x) as [Hne Hv]. unfold str_IsZero.
      rewrite bool_decide_false, Hv by done. simpl. eexists. split; [done|].
      apply (search_drop l (keyOf x)); [done|by rewrite key_width].
    - exists 0%nat. split; [done|by rewrite drop_0]. }
  simpl. rewrite <- Ed. destruct (length l <=? start)%nat eqn:E.
  - apply Nat.leb_le in E. rewrite drop_ge by done. by rewrite take_nil.
  - apply Nat.leb_gt in E. replace (limit <=? 0) with false by (symmetry; apply Z.leb_gt; lia). simpl.
    do 2 f_equal. destruct (length l <? _)%nat eqn:E2.
    + apply Nat.ltb_lt in E2. rewrite !take_ge; [done| |]; rewrite length_drop; lia.
    + f_equal. lia.
Qed.

Lemma listPage_spec l limit tot st cur :
  StronglySorted before l -> 1 <= limit ->
  let rest := remaining l (keyOf <$> cur) in
  let page := take (Z.to_nat limit) rest in
  exists info, listPage l (mkPage limit (cursor_of cur) tot st) cols keyOf = Ok (page, info) /\
    NextCursor info =
      (if (Z.to_nat limit <? length rest)%nat then cursor_of <$> (Some <$> list.last page) else None) /\
    HasNextPage info = (Z.to_nat limit <? length rest)%nat.
Proof using key_width cursor_round.
  intros Hs Hlim rest page. pose proof (paginate_spec l limit tot st cur Hs Hlim) as Ep. fold rest in Ep.
  unfold listPage. rewrite Ep. simpl. unfold KeysetPage. simpl.
  assert ((limit <? Z.of_nat (length (take (Z.to_nat limit + 1) rest))) = (Z.to_nat limit <? length rest)%nat)
    as ->.
  { rewrite length_take. destruct (Z.to_nat limit <? length rest)%nat eqn:E;
      [apply Nat.ltb_lt in E; apply Z.ltb_lt|apply Nat.ltb_ge in E; apply Z.ltb_ge]; lia. }
  assert ((if (Z.to_nat limit <? length rest)%nat then take (Z.to_nat limit) (take (Z.to_nat limit + 1) rest)
           else take (Z.to_nat limit + 1) rest) = page) as ->.
  { unfold page. destruct (Z.to_nat limit <? length rest)%nat eqn:E.
    - by rewrite take_take, Nat.min_l by lia.
    - apply Nat.ltb_ge in E. by rewrite !take_ge by lia. }
  eexists. split; [reflexivity|]. simpl. split; [|done].
  destruct (Z.to_nat limit <? length rest)%nat; [|done]. by destruct (list.last page).
Qed.

(** ** A reader that follows the cursors

    [snapshot k] is what the list holds when page [k] is read.  The answer is the
    rows read in at most [rounds] pages, and whether the reader reached the end; a
    page that fails ends it with the error. *)

Fixpoint sweep (snapshot : nat -> list A) (limit : Z) (rounds k : nat) (cursor : string) :
    result (list A * bool) :=
  match rounds with
  | O => Ok ([], false)
  | S rounds =>
      let! page := listPage (snapshot k) (mkPage limit cursor false true) cols keyOf in
      match NextCursor page.2 with
      | None => Ok (page.1, true)
      | Some c =>
          let! rest := sweep snapshot limit rounds (S k) c in
          Ok (page.1 ++ rest.1, rest.2)
      end
  end.

(** A page's last row lies before the rows that follow the page, and no row of the
    page lies after it. *)
Lemma page_order l cur n x :
  StronglySorted before l -> list.last (take n (remaining l cur)) = Some x ->
  (forall y, y ∈ take n (remaining l cur) -> after (keyOf x) y = false) /\
  (forall y, y ∈ drop n (remaining l cur) -> after (keyOf x) y = true).
Proof using key_width.
  intros Hs Hlast. pose proof (remaining_sorted l cur Hs) as Hr.
  set (rest := remaining l cur) in *. rewrite <- (take_drop n rest) in Hr.
  apply last_Some in Hlast as [m Em]. rewrite Em in Hr |- *. split; intros y Hy.
  - apply elem_of_app in Hy as [Hy| ->%list_elem_of_singleton]; [|apply keyAfter_irrefl].
    apply not_true_is_false. intros Hay. rewrite <- app_assoc in Hr.
    assert (before y x) as Hyx by (eapply StronglySorted_app_1_elem_of; [exact Hr|done|by left]).
    assert (before x x) as Hxx by (by eapply before_trans).
    unfold before, after in Hxx. by rewrite keyAfter_irrefl in Hxx.
  - assert (before x y) as ?; [|done].
    eapply StronglySorted_app_1_elem_of; [exact Hr| |exact Hy]. apply elem_of_app. right. by left.
Qed.

(** The last row of a page comes after its other rows. *)
Lemma page_tail l n x y :
  StronglySorted before l -> list.last (take n l) = Some x -> y ∈ take n l -> y = x \/ before y x.
Proof using key_width.
  intros Hs [m Em]%last_Some Hy. rewrite Em in Hy.
  apply elem_of_app in Hy as [Hy| ->%list_elem_of_singleton]; [right|by left].
  rewrite <- (take_drop n), Em, <- app_assoc in Hs.
  eapply StronglySorted_app_1_elem_of; [exact Hs|done|by left].
Qed.

(** What the rows after a page are: the remaining rows after its last one. *)
Lemma remaining_next l cur n x :
  StronglySorted before l -> list.last (take n (remaining l cur)) = Some x ->
  match cur with Some key => length key = length cols | None => True end ->
  remaining l (Some (keyOf x)) = drop n (remaining l cur).
Proof using key_width.
  intros Hs Hlast Hw. destruct (page_order l cur n x Hs Hlast) as [Ht Hd].
  trans (List.filter (after (keyOf x)) (remaining l cur)).
  - destruct cur as [key|]; [|done]. simpl. symmetry. apply filter_twice. intros y Hxy.
    eapply after_trans; [exact Hw| |exact Hxy].
    assert (x ∈ remaining l (Some key)) as [_ ?]%elem_of_filter_b; [|done].
    by eapply last_take_elem.
  - rewrite <- (take_drop n (remaining l cur)) at 1. rewrite List.filter_app.
    by rewrite filter_none, filter_all.
Qed.

(** Every page succeeds, and passes on the rows it does not hold. *)
Lemma listPage_next l limit cur :
  StronglySorted before l -> 1 <= limit ->
  let rest := remaining l (keyOf <$> cur) in
  let n := Z.to_nat limit in
  exists info, listPage l (mkPage limit (cursor_of cur) false true) cols keyOf = Ok (take n rest, info) /\
    ((NextCursor info = None /\ take n rest = rest) \/
     exists x, list.last (take n rest) = Some x /\ NextCursor info = Some (cursor_of (Some x)) /\
       (n < length rest)%nat /\ remaining l (Some (keyOf x)) = drop n rest).
Proof using key_width cursor_round.
  intros Hs Hlim rest n. destruct (listPage_spec l limit false true cur Hs Hlim) as (info & E & En & _).
  exists info. split; [exact E|]. fold rest n in En. destruct (n <? length rest)%nat eqn:El.
  - right. apply Nat.ltb_lt in El. destruct (list.last (take n rest)) as [x|] eqn:Ex.
    + exists x. split_and!; [done|done|done|]. apply remaining_next; [done|done|].
      destruct cur; simpl; [apply key_width|done].
    + apply last_None in Ex. apply (f_equal length) in Ex. rewrite length_take in Ex. simpl in Ex. lia.
  - left. apply Nat.ltb_ge in El. split; [done|]. by apply take_ge.
Qed.

(** What follows a cursor, of any list: no page is refused. *)
Lemma sweep_from snapshot limit rounds k cur :
  (forall j, StronglySorted before (snapshot j)) -> 1 <= limit ->
  exists out ended, sweep snapshot limit rounds k (cursor_of cur) = Ok (out, ended) /\
    StronglySorted before out /\
    (forall x, x ∈ out -> (exists j, (k <= j < k + rounds)%nat /\ x ∈ snapshot j) /\ forall c, cur = Some c -> before c x) /\
    (ended = true -> forall x, (forall j, (k <= j < k + rounds)%nat -> x ∈ snapshot j) ->
       (forall c, cur = Some c -> before c x) -> x ∈ out).
Proof using key_width cursor_round.
  intros Hs Hlim. revert k cur. induction rounds as [|rounds IH]; intros k cur; simpl.
  { exists [], false. split_and!; [done|constructor|by intros x ?%not_elem_of_nil|done]. }
  destruct (listPage_next (snapshot k) limit cur (Hs k) Hlim) as (info & -> & Hn). simpl.
  set (rest := remaining (snapshot k) (keyOf <$> cur)) in *. set (n := Z.to_nat limit) in *.
  assert (StronglySorted before rest) as Hrest by apply remaining_sorted, Hs.
  assert (forall x, x ∈ rest <-> x ∈ snapshot k /\ forall c, cur = Some c -> before c x) as Hin.
  { intros x. unfold rest, remaining. destruct cur as [c|]; simpl.
    - rewrite elem_of_filter_b. unfold before. naive_solver.
    - naive_solver. }
  destruct Hn as [[-> ->]|(x & Hx & -> & _ & _)].
  - exists rest, true. split_and!; [done|done| |].
    + intros x [Hx Hc]%Hin. split; [exists k; split; [lia|done]|done].
    + intros _ x Hx Hc. apply Hin. split; [apply Hx; lia|done].
  - destruct (IH (S k) (Some x)) as (out & ended & E & S1 & S2 & S3). rewrite E. simpl.
    destruct (page_order _ _ n x (Hs k) Hx) as [Pt Pd]. fold rest in Pt, Pd.
    pose proof (fun y => page_tail rest n x y Hrest Hx) as Hlast.
    exists (take n rest ++ out), ended. split_and!; [done|..].
    + apply StronglySorted_app. split_and!; [|by rewrite <- (take_drop n rest) in Hrest; apply StronglySorted_app in Hrest as (_ & ? & _)|done].
      intros a b Ha Hb. destruct (S2 b Hb) as [_ Hxb]. specialize (Hxb x eq_refl).
      destruct (Hlast a Ha) as [->|Hax]; [done|by eapply before_trans].
    + intros y [Hy|Hy]%elem_of_app.
      * assert (y ∈ rest) as [Hyk Hyc]%Hin by (apply (elem_of_take_drop n); by left).
        split; [exists k; split; [lia|exact Hyk]|exact Hyc].
      * destruct (S2 y Hy) as [(j & Hj & Hyj) Hxy]. split; [exists j; split; [lia|done]|].
        intros c ->. specialize (Hxy x eq_refl).
        assert (x ∈ rest) as [_ Hcx]%Hin by (by eapply last_take_elem).
        eapply before_trans; [by apply Hcx|done].
    + intros He y Hy Hc. assert (y ∈ rest) as Hyr by (apply Hin; split; [apply Hy; lia|done]).
      apply (elem_of_take_drop n) in Hyr as [Hyr|Hyr]; apply elem_of_app.
      * by left.
      * right. apply S3; [done|intros j Hj; apply Hy; lia|]. intros c [= <-]. by apply Pd.
Qed.

(** A list that does not change is read in as many rounds as it has pages. *)
Lemma sweep_constant l limit rounds k cur :
  StronglySorted before l -> 1 <= limit ->
  (length (remaining l (keyOf <$> cur)) < rounds)%nat ->
  sweep (fun _ => l) limit rounds k (cursor_of cur) = Ok (remaining l (keyOf <$> cur), true).
Proof using key_width cursor_round.
  intros Hs Hlim. revert k cur. induction rounds as [|rounds IH]; intros k cur Hr; simpl; [lia|].
  destruct (listPage_next l limit cur Hs Hlim) as (info & -> & Hn). simpl.
  destruct Hn as [[-> ->]|(x & Hx & -> & Hlt & Hrem)]; [done|].
  pose proof (IH (S k) (Some x)) as IHx. cbn [fmap option_fmap option_map cursor_of] in IHx.
  rewrite Hrem in IHx. cbn [cursor_of]. rewrite IHx; [|rewrite length_drop; lia].
  simpl. do 2 f_equal. by rewrite take_drop.
Qed.

(** A list that stops changing at round [m] is read to its end in as many more
    rounds as it has rows. *)
Lemma sweep_settles snapshot l m limit rounds k cur :
  (forall j, StronglySorted before (snapshot j)) -> (forall j, (m <= j)%nat -> snapshot j = l) -> 1 <= limit ->
  ((if (k <? m)%nat then m - k + length l else length (remaining l (keyOf <$> cur))) < rounds)%nat ->
  exists out, sweep snapshot limit rounds k (cursor_of cur) = Ok (out, true).
Proof using key_width cursor_round.
  intros Hs Hm Hlim. revert k cur. induction rounds as [|rounds IH]; intros k cur Hr; [lia|].
  simpl. destruct (listPage_next (snapshot k) limit cur (Hs k) Hlim) as (info & -> & Hn). simpl.
  destruct Hn as [[-> _]|(x & _ & -> & Hlt & Hrem)]; [by eexists|].
  destruct (IH (S k) (Some x)) as (out & E).
  - destruct (k <? m)%nat eqn:Ek; [apply Nat.ltb_lt in Ek|apply Nat.ltb_ge in Ek].
    + destruct (S k <? m)%nat eqn:Ek'; [apply Nat.ltb_lt in Ek'; lia|].
      simpl. pose proof (filter_length_le (after (keyOf x)) l). lia.
    + replace (S k <? m)%nat with false by (symmetry; apply Nat.ltb_ge; lia).
      rewrite (Hm k Ek) in Hrem, Hlt. cbn [fmap option_fmap option_map]. rewrite Hrem, length_drop. lia.
  - cbn [cursor_of] in *. rewrite E. simpl. by eexists.
Qed.

(** C37: pages are complete: a reader that follows the cursors of a sorted list has
    no cursor refused, whatever rows are inserted or deleted between two pages -
    the row a cursor was made from included; it meets no row twice and in the
    list's order, every row it meets was in the list when one of its pages was
    read, and at the end it has met every row that was there throughout.  It does
    reach the end once the changes stop, and of a list that stays as it is it reads
    exactly the list. *)
Theorem pages_complete limit :
  1 <= limit ->
  (forall snapshot rounds, (forall j, StronglySorted before (snapshot j)) ->
     exists out ended, sweep snapshot limit rounds 0 EmptyString = Ok (out, ended) /\
       StronglySorted before out /\
       (forall x, x ∈ out -> exists j, (j < rounds)%nat /\ x ∈ snapshot j) /\
       (ended = true -> forall x, (forall j, (j < rounds)%nat -> x ∈ snapshot j) -> x ∈ out) /\
       (forall l m, (forall j, (m <= j)%nat -> snapshot j = l) -> (m + length l < rounds)%nat -> ended = true)) /\
  (forall l rounds, StronglySorted before l -> (length l < rounds)%nat ->
     sweep (fun _ => l) limit rounds 0 EmptyString = Ok (l, true)).
Proof using key_width cursor_round.
  intros Hlim. split.
  - intros snapshot rounds Hs. destruct (sweep_from snapshot limit rounds 0 None Hs Hlim) as (out & ended & E & S1 & S2 & S3).
    exists out, ended. cbn [cursor_of] in E. split_and!; [done|done| | |].
    + intros x Hx. destruct (S2 x Hx) as [(j & Hj & Hxj) _]. exists j. split; [lia|done].
    + intros He x Hx. apply S3; [done|intros j Hj; apply Hx; lia|done].
    + intros l m Hm Hr. destruct (sweep_settles snapshot l m limit rounds 0 None Hs Hm Hlim) as (out' & E').
      { destruct (0 <? m)%nat; simpl; lia. }
      cbn [cursor_of] in E'. congruence.
  - intros l rounds Hs Hr. by apply (sweep_constant l limit rounds 0 None).
Qed.
End Pages.

(** ** The predicate of the other backend *)

Section Predicate.
Context `{GoCursor}.

(** A row satisfies a term when its column compares so with the bound value. *)
Definition term_holds (key : list string) (t : nat * Compare_op * string) : bool :=
  let '(j, op, v) := t in
  match key !! j with
  | Some x =>
      match op with
      | OpEq => bool_decide (x = v)
      | OpGt => String.ltb v x
      | OpLt => String.ltb x v
      end
  | None => false
  end.

Definition selects (p : list (list (nat * Compare_op * string))) (key : list string) : bool :=
  existsb (forallb (term_holds key)) p.

Definition shift (t : nat * Compare_op * string) : nat * Compare_op * string :=
  let '(j, op, v) := t in (S j, op, v).

Lemma shift_holds x key t : term_holds (x :: key) (shift t) = term_holds key t.
Proof. by destruct t as [[j op] v]. Qed.

Lemma disjunct_shift c cols v vs i :
  disjunct (c :: cols) (v :: vs) (S i) = (0%nat, OpEq, v) :: (shift <$> disjunct cols vs i).
Proof.
  unfold disjunct. rewrite <- cons_seq, <- fmap_S_seq, fmap_cons, fmap_app. simpl. do 2 f_equal.
  by rewrite <- !list_fmap_compose.
Qed.

Lemma holds_shifted x key ts : forallb (term_holds (x :: key)) (shift <$> ts) = forallb (term_holds key) ts.
Proof. induction ts as [|t ts IH]; [done|]. rewrite fmap_cons. cbn [forallb]. by rewrite shift_holds, IH. Qed.

Lemma selects_shifted c cols v vs x key idx :
  selects (disjunct (c :: cols) (v :: vs) <$> (S <$> idx)) (x :: key) =
  bool_decide (x = v) && selects (disjunct cols vs <$> idx) key.
Proof.
  unfold selects. induction idx as [|i idx IH]; [by rewrite andb_false_r|].
  rewrite !fmap_cons. cbn [existsb]. rewrite IH, disjunct_shift. cbn [forallb]. rewrite holds_shifted. simpl.
  by destruct (bool_decide (x = v)).
Qed.

Lemma selects_keyAfter cols vs key :
  length vs = length cols -> length key = length cols ->
  selects (disjunct cols vs <$> seq 0 (length cols)) key = keyAfter key vs (Desc <$> cols).
Proof.
  revert vs key. induction cols as [|c cols IH]; intros [|v vs] [|x key]; try done.
  intros [= Lv] [= Lk]. simpl length. rewrite <- cons_seq, <- fmap_S_seq, fmap_cons.
  unfold selects. simpl existsb. fold (selects (disjunct (c :: cols) (v :: vs) <$> (S <$> seq 0 (length cols))) (x :: key)).
  rewrite selects_shifted, IH by done. simpl. rewrite andb_true_r.
  destruct (decide (x = v)) as [->|Hne].
  - rewrite !bool_decide_true by done. by destruct (Desc c); rewrite ltb_irrefl.
  - rewrite !bool_decide_false by done. rewrite orb_false_r. by destruct (Desc c).
Qed.

(** The two backends page alike: a cursor one of them refuses the other refuses
    with the same error, and of the rows with a key as wide as the ordering the
    disjunction that the Postgres lists append to their query selects exactly
    those the in-memory lists place after the cursor. *)
Theorem predicate_exact cols cursor :
  cursor <> EmptyString ->
  match ValidateKeyset cols cursor with
  | Err e => KeysetPredicate cols cursor = Err e
  | Ok vs => exists p, KeysetPredicate cols cursor = Ok (Some p) /\
      forall key, length key = length cols -> selects p key = keyAfter key vs (Desc <$> cols)
  end.
Proof.
  intros Hne. unfold KeysetPredicate, str_IsZero. rewrite bool_decide_false by done.
  destruct (ValidateKeyset cols cursor) as [vs|e] eqn:E; simpl; [|done].
  eexists. split; [done|]. intros key Hk. apply selects_keyAfter; [|done].
  unfold ValidateKeyset in E. apply res_bind_ok in E as (vs' & _ & E).
  destruct (bool_decide_reflect (length vs' = length cols)) as [Hl|]; simpl in E; [|done].
  destruct (negb _); simpl in E; [done|]. by injection E as <-.
Qed.
End Predicate.

(** ** Pages of identifiers *)

Module PageRun.

#[local] Instance oneColumn : GoCursor := {|
  cursor_text key := match key with [v] => String "k" v | _ => EmptyString end;
  cursor_values c := match c with String _ v => Some [v] | EmptyString => None end;
  parsesAsTime _ := false;
  parsesAsNumber _ := false |}.

Definition idOf (x : string) : list string := [x].

Definition idList : list string := ["a"; "b"; "c"; "d"; "e"]%string.

(** A row is inserted behind the reader, one before it, and one is deleted. *)
Definition changing (k : nat) : list string :=
  match k with
  | O => ["b"; "c"; "d"; "e"]
  | S O => ["a"; "b"; "c"; "cc"; "d"; "e"]
  | _ => ["a"; "b"; "c"; "cc"; "e"]
  end%string.

Lemma idList_sorted : StronglySorted (before idKeyset idOf) idList.
Proof. by repeat constructor. Qed.

Lemma changing_sorted k : StronglySorted (before idKeyset idOf) (changing k).
Proof. destruct k as [|[|k]]; by repeat constructor. Qed.

Lemma idOf_width x : length (idOf x) = length idKeyset.
Proof. reflexivity. Qed.

Lemma idOf_round x :
  EncodeKeyset (idOf x) <> EmptyString /\ ValidateKeyset idKeyset (EncodeKeyset (idOf x)) = Ok (idOf x).
Proof. split; [discriminate|reflexivity]. Qed.

Lemma pages_complete_witness :
  sweep idKeyset idOf changing 2 8 0 EmptyString = Ok (["b"; "c"; "cc"; "d"; "e"]%string, true) /\
  sweep idKeyset idOf (fun _ => idList) 2 9 0 EmptyString = Ok (idList, true).
Proof.
  assert (1 <= 2) as Hlim by lia.
  destruct (pages_complete idKeyset idOf idOf_width idOf_round 2 Hlim) as [Hchanging Hconst].
  destruct (Hchanging changing 8%nat changing_sorted) as (out & ended & E & _ & _ & _ & Hend).
  assert (ended = true) as Et.
  { apply (Hend (changing 2) 2%nat); [|simpl; lia]. intros [|[|j]] Hj; [lia|lia|reflexivity]. }
  split; [|apply (Hconst idList 9%nat idList_sorted); simpl; lia].
  rewrite Et in E. rewrite E. f_equal. f_equal.
  assert (match sweep idKeyset idOf changing 2 8 0 EmptyString with Ok r => r.1 | Err _ => [] end =
    ["b"; "c"; "cc"; "d"; "e"]%string) as Eo by (vm_compute; reflexivity).
  rewrite E in Eo. exact Eo.
Defined.

Lemma predicate_exact_witness :
  exists vs, ValidateKeyset idKeyset "kc" = Ok vs /\ selects (disjunct idKeyset vs <$> [0%nat]) ["d"%string] = true.
Proof.
  pose proof (predicate_exact idKeyset "kc" ltac:(discriminate)) as Hp.
  simpl in Hp. eexists. split; [reflexivity|]. destruct Hp as (p & [= <-] & Hp).
  exact (Hp ["d"%string] eq_refl).
Defined.
End PageRun.
