(* ===== verification/Units.v ===== *)
(** Unit families and quantities ([application/unit/unit.go],
    [application/value/quantity.go], [infrastructure/memory/unit_store.go]).

    [math/big.Rat] parsing, [strconv.FormatFloat] and [Rat.Float64] are the
    class [GoNumeric]; what the properties need of them is [GoNumericLaws]. *)

From Stdlib Require Import ZArith QArith Lia String Ascii List SpecFloat.
From stdpp Require Import base tactics list gmap fin_maps strings option decidable.
From S2P Require Import Prelude GoText Values Ids Attribute TypeDef.

Open Scope Z_scope.
Open Scope go_scope.

Class GoNumeric := {
  (** [new(big.Rat).SetString] *)
  rat_SetString : string -> option Q;
  (** [strconv.FormatFloat(f, 'f', -1, 64)] *)
  FormatFloat : spec_float -> string;
  (** [Rat.Float64]: the nearest float *)
  rat_Float64 : Q -> spec_float
}.

(** Equal rationals have the same nearest float. *)
Class GoNumericLaws `{GoNumeric} : Prop := {
  rat_Float64_eq : forall p q, (p == q)%Q -> rat_Float64 p = rat_Float64 q
}.

(** Factors are a Go map from unit symbols. *)
Record Family := mkFamily {
  famID : ID;
  famTenantID : TenantID;
  famName : string;
  BaseUnit : string;
  famUnits : gmap string spec_float }.

(** The run-time panic of a nil pointer. *)
Definition panic : Error := Errorf "panic: nil pointer dereference".

Definition one : spec_float := S754_finite false 4503599627370496 (-52).

Section Units.
Context `{GoStd} `{GoUlid} `{GoNumeric}.

Definition Factor (f : Family) (unit : string) : option spec_float := famUnits f !! unit.

(** The factor's decimal text read back as a rational; [Mul] dereferences it. *)
Definition factor_rat (factor : spec_float) : option Q := rat_SetString (FormatFloat factor).

Definition ToBase (f : Family) (magnitude unit : string) : result spec_float :=
  match rat_SetString magnitude with
  | None => Err (NewValidation "quantity magnitude must be numeric")
  | Some m =>
      match Factor f unit with
      | None => Err (NewValidation "unit is not part of the attribute's unit family")
      | Some factor =>
          match factor_rat factor with
          | None => Err panic
          | Some fr => Ok (rat_Float64 (m * fr))
          end
      end
  end.

Definition Rebase (f : Family) (v : Value) : result Value :=
  if negb (bool_decide (dataType v = DataTypeQuantity)) then Ok v
  else
    let (magnitude, unit) :=
      match jsonVal v with QuantityPayload m u => (m, u) | _ => (EmptyString, EmptyString) end in
    let! base := ToBase f magnitude unit in
    NewQuantityValue magnitude unit base.

(** *** The store and its usecases *)

Abbreviation Families := (gmap ID Family).

Definition FamilyGet (fs : Families) (tenant : TenantID) (i : ID) : result Family :=
  match fs !! i with
  | Some f => if bool_decide (famTenantID f = tenant) then Ok f else Err (NewNotFound "unit_family")
  | None => Err (NewNotFound "unit_family")
  end.

Definition FamilyCreate (tenant : TenantID) (name base : string) (units : gmap string spec_float)
    (fresh : ID) (fs : Families) : result (Families * Family) :=
  guard! str_IsZero name || str_IsZero base
    else NewValidation "unit family requires a name and base unit" then
  guard! bool_decide (units = ∅) else NewValidation "unit family requires at least one unit" then
  guard! negb (match units !! base with Some f => SFeqb f one | None => false end)
    else NewValidation "the base unit must be present with factor 1" then
  guard! existsb (fun p => SFleb p.2 (S754_zero false)) (map_to_list units)
    else NewValidation "unit factors must be positive" then
  let f := mkFamily fresh tenant name base units in
  Ok (<[fresh := f]> fs, f).

(** The live attributes of the tenant that name the family. *)
Definition pinned_by (attrs : gmap ID AttrDefinition) (tenant : TenantID) (f : Family) :
    list AttrDefinition :=
  List.filter (fun a => bool_decide (tenantID a = tenant) && negb (IsArchived a) &&
    bool_decide (unitFamilyID a = ulid_String (famID f))) (values attrs).

Definition FamilyDelete (tenant : TenantID) (raw : string) (attrs : gmap ID AttrDefinition)
    (fs : Families) : result Families :=
  match ParseID raw with
  | Err e => Err (NewValidation (Message e))
  | Ok i =>
      let! f := FamilyGet fs tenant i in
      guard! negb (bool_decide (pinned_by attrs tenant f = []))
        else NewConflict "the unit family is still pinned by quantity attributes" then
      Ok (delete i fs)
  end.

(** *** Quantity values ([quantity.go]) *)

Definition decode_magnitude (j : Json) : option (string * string) :=
  match j with
  | JNull => Some (EmptyString, EmptyString)
  | JObject fields =>
      m ← decode_field "magnitude" as_string "" fields;
      u ← decode_field "unit" as_string "" fields;
      Some (m, u)
  | _ => None
  end.

(** [quantityValue]; no families means none are configured. *)
Definition quantityValue (families : option Families) (tenant : TenantID) (def : AttrDefinition)
    (raw : string) : result Value :=
  match families with
  | None => Err (NewValidation "unit families are not configured in this deployment")
  | Some fs =>
      guard! str_IsZero (unitFamilyID def)
        else NewValidation "quantity attribute has no unit family" then
      match json_Unmarshal raw ≫= decode_magnitude with
      | None => Err (NewValidation "expected a quantity {magnitude, unit}")
      | Some (m, u) =>
          match ParseID (unitFamilyID def) with
          | Err e => Err (NewValidation (Message e))
          | Ok i =>
              let! f := FamilyGet fs tenant i in
              let! base := ToBase f m u in
              NewQuantityValue m u base
          end
      end
  end.
End Units.

(** ** Properties *)

Section Properties.
Context `{GoStd} `{GoUlid} `{GoNumericLaws}.

Lemma Rebase_quantity f m u b v w :
  NewQuantityValue m u b = Ok v -> Rebase f v = Ok w ->
  exists base, ToBase f m u = Ok base /\ NewQuantityValue m u base = Ok w.
Proof.
  unfold NewQuantityValue at 1. intros Hv. res_inv. unfold Rebase. simpl.
  intros Hw. res_inv. eauto.
Qed.

(** Quantities compare by amount, not by notation: two magnitudes in units of
    one family whose products with their factors are the same rational fold to
    one base, so the values are equal and neither precedes the other; and the
    base a caller sent along with a quantity does not matter once rebased. *)
Theorem quantity_by_amount f m1 u1 m2 u2 q1 q2 f1 f2 r1 r2 b1 b2 v1 v2 w1 w2 :
  rat_SetString m1 = Some q1 -> rat_SetString m2 = Some q2 ->
  Factor f u1 = Some f1 -> Factor f u2 = Some f2 ->
  factor_rat f1 = Some r1 -> factor_rat f2 = Some r2 ->
  (q1 * r1 == q2 * r2)%Q ->
  NewQuantityValue m1 u1 b1 = Ok v1 -> NewQuantityValue m2 u2 b2 = Ok v2 ->
  Rebase f v1 = Ok w1 -> Rebase f v2 = Ok w2 ->
  ToBase f m1 u1 = ToBase f m2 u2 /\ floatVal w1 = floatVal w2 /\
  Equal w1 w2 = SFeqb (floatVal w1) (floatVal w1).
Proof.
  intros Q1 Q2 F1 F2 R1 R2 Heq V1 V2 W1 W2.
  assert (ToBase f m1 u1 = Ok (rat_Float64 (q1 * r1)) /\ ToBase f m2 u2 = Ok (rat_Float64 (q1 * r1)))
    as [T1 T2].
  { unfold ToBase. rewrite Q1, Q2, F1, F2, R1, R2. by rewrite (rat_Float64_eq _ _ Heq). }
  destruct (Rebase_quantity _ _ _ _ _ _ V1 W1) as (c1 & E1 & W1').
  destruct (Rebase_quantity _ _ _ _ _ _ V2 W2) as (c2 & E2 & W2').
  unfold NewQuantityValue in W1', W2'. res_inv. simpl. split_and!; [congruence|congruence|].
  unfold Equal. simpl. by replace c2 with c1 by congruence.
Qed.
End Properties.
