(* ===== verification/Fql.v ===== *)
(** The query language: the Go package [pkg/fql] ([token.go], [lexer.go],
    [ast.go], [parser.go]).

    A lexer over bytes, and a recursive-descent parser over the token array with
    an index into it; an index out of range is a Go panic ([Panic]).  The depth
    counter of the parser is the structural argument of the recursion: the budget
    left below [maxParseDepth].  The loops over joined expressions run on fuel,
    one unit per token ([OutOfFuel] is shown unreachable in [FqlFacts]). *)

From Stdlib Require Import ZArith Lia String Ascii List.
From stdpp Require Import base tactics list strings option decidable.
From S2P Require Import Prelude GoText.

Open Scope nat_scope.

(** ** Tokens ([token.go]) *)

Inductive TokenKind :=
  | TokenEOF | TokenIdent | TokenString | TokenNumber | TokenLParen | TokenRParen
  | TokenLBrace | TokenRBrace | TokenComma | TokenDot | TokenOp.

#[export] Instance TokenKind_eq_dec : EqDecision TokenKind.
Proof. solve_decision. Defined.

Record Token := mkToken { TKind : TokenKind; TText : string; TPos : nat }.

#[export] Instance Token_eq_dec : EqDecision Token.
Proof. solve_decision. Defined.

(** What a phase returns: a value, a positioned [Error] (with the constant text
    of its message), or what Go would not return from. *)
Inductive outcome (A : Type) :=
  | Done (a : A)
  | Fail (pos : nat) (message : string)
  | Panic
  | OutOfFuel.
Arguments Done {A} a.
Arguments Fail {A} pos message.
Arguments Panic {A}.
Arguments OutOfFuel {A}.

Definition obind {A B} (r : outcome A) (k : A -> outcome B) : outcome B :=
  match r with
  | Done a => k a
  | Fail p m => Fail p m
  | Panic => Panic
  | OutOfFuel => OutOfFuel
  end.

Declare Scope fql_scope.
Delimit Scope fql_scope with fql.
Notation "'let?' x ':=' r 'in' k" := (obind r (fun x => k))
  (at level 10, x name, r at level 100, k at level 200) : fql_scope.
Notation "'let?' ' x ':=' r 'in' k" := (obind r (fun x => k))
  (at level 10, x strict pattern, r at level 100, k at level 200) : fql_scope.
Open Scope fql_scope.

(** ** Lexer ([lexer.go]) *)

Definition is_char (n : ascii) (c : ascii) : bool := bool_decide (c = n).

Definition ident_first (c : ascii) : bool := IsLetter c || is_char "_" c.
Definition ident_byte (c : ascii) : bool := IsLetter c || IsDigit c || is_char "_" c.

(** The tokens of one byte. *)
Definition single (c : ascii) : option TokenKind :=
  if is_char "(" c then Some TokenLParen
  else if is_char ")" c then Some TokenRParen
  else if is_char "{" c then Some TokenLBrace
  else if is_char "}" c then Some TokenRBrace
  else if is_char "," c then Some TokenComma
  else if is_char "." c then Some TokenDot
  else if is_char "=" c then Some TokenOp
  else None.

Definition quote_char (c : ascii) : bool := is_char "034" c || is_char "'" c.

(** Reads a string body up to its closing quote: the unescaped text, the bytes
    consumed and the rest. *)
Fixpoint lexString (quote : ascii) (s : string) : option (string * nat * string) :=
  match s with
  | EmptyString => None
  | String c s =>
      if is_char "\" c then
        match s with
        | String e s =>
            match lexString quote s with
            | Some (t, n, rest) => Some (String e t, S (S n), rest)
            | None => None
            end
        | EmptyString => None
        end
      else if is_char quote c then Some (EmptyString, 1, s)
      else
        match lexString quote s with
        | Some (t, n, rest) => Some (String c t, S n, rest)
        | None => None
        end
  end.

Definition head_digit (s : string) : bool :=
  match s with String c _ => IsDigit c | EmptyString => false end.

(** What follows [c] at the head of [s]: [i+1 < len(input) && input[i+1] == c]. *)
Definition after (c : ascii) (s : string) : option string :=
  match s with String d s => if is_char c d then Some s else None | EmptyString => None end.

(** A number whose first byte [c] (a digit or a minus sign) stands at [start],
    followed by [s]: its text and the rest. *)
Definition lexNumber (start : nat) (c : ascii) (s : string) : outcome (string * string) :=
  let (int, s) := span IsDigit s in
  let text := String c int in
  let i := start + String.length text in
  match after "." s with
  | Some s =>
      if head_digit s then
        let (frac, s) := span IsDigit s in
        if isSome (after "." s) then
          Fail (i + 1 + String.length frac) "malformed number: only one decimal point is allowed"
        else Done (String.append text (String "." frac), s)
      else Fail (i + 1) "malformed number: a decimal point must be followed by a digit"
  | None => Done (text, s)
  end.

(** The token that starts with byte [c] at position [i], [s] being what follows:
    the token, its size in bytes and the rest. *)
Definition lexToken (i : nat) (c : ascii) (s : string) : outcome (Token * nat * string) :=
  match single c with
  | Some k => Done (mkToken k (String c EmptyString) i, 1, s)
  | None =>
      if is_char "!" c then
        match after "=" s with
        | Some s => Done (mkToken TokenOp "!=" i, 2, s)
        | None => Fail i "unexpected '!' (did you mean '!=')"
        end
      else if is_char ">" c || is_char "<" c then
        match after "=" s with
        | Some s => Done (mkToken TokenOp (String c "=") i, 2, s)
        | None => Done (mkToken TokenOp (String c EmptyString) i, 1, s)
        end
      else if quote_char c then
        match lexString c s with
        | Some (t, n, rest) => Done (mkToken TokenString t i, S n, rest)
        | None => Fail i "unterminated string"
        end
      else if IsDigit c || (is_char "-" c && head_digit s) then
        let? '(t, rest) := lexNumber i c s in
        Done (mkToken TokenNumber t i, String.length t, rest)
      else if ident_first c then
        let (t, rest) := span ident_byte (String c s) in
        Done (mkToken TokenIdent t i, String.length t, rest)
      else Fail i "unexpected character"
  end.

(** The loop of [lex] from byte [i] on, one unit of fuel per step. *)
Fixpoint lexFrom (fuel : nat) (i : nat) (s : string) : outcome (list Token) :=
  match s with
  | EmptyString => Done [mkToken TokenEOF EmptyString i]
  | String c s =>
      match fuel with
      | O => OutOfFuel
      | S fuel =>
          if IsSpace c then lexFrom fuel (S i) s
          else
            let? '(t, n, rest) := lexToken i c s in
            let? ts := lexFrom fuel (i + n) rest in
            Done (t :: ts)
      end
  end.

(** Every step consumes a byte, so the length is fuel enough. *)
Definition lex (input : string) : outcome (list Token) :=
  lexFrom (String.length input) 0 input.

(** ** Syntax trees ([ast.go]) *)

Inductive LogicalOp := OpAnd | OpOr.

(** [CompareOp] is the operator's symbol. *)
Abbreviation CompareOp := string.
Definition CmpEq : CompareOp := "=".
Definition CmpNeq : CompareOp := "!=".
Definition CmpGt : CompareOp := ">".
Definition CmpGte : CompareOp := ">=".
Definition CmpLt : CompareOp := "<".
Definition CmpLte : CompareOp := "<=".
Definition CmpIsa : CompareOp := "isa".

Inductive AggFunc := FuncNone | FuncMin | FuncMax | FuncCount | FuncLength.

Inductive FieldScope := ScopeEntity | ScopeLink | ScopeType.

Record Field := mkField { FScope : FieldScope; FName : string; FPos : nat }.

Inductive LiteralKind := LitString | LitNumber | LitBool | LitIdent.

Record Literal := mkLiteral {
  LKind : LiteralKind; LText : string; LUnit : string; LPos : nat }.

Inductive StringMatchKind := MatchContains | MatchIContains | MatchIEquals.

Inductive Direction := DirChild | DirParent | DirAny.

Inductive Node :=
  | Logical (op : LogicalOp) (exprs : list Node) (pos : nat)
  | Not (expr : Node) (pos : nat)
  | Compare (func : AggFunc) (field : Field) (op : CompareOp) (lit : Literal) (pos : nat)
  | In (func : AggFunc) (field : Field) (values : list Literal) (pos : nat)
  | Range (func : AggFunc) (field : Field) (lo hi : Literal) (pos : nat)
  | Has (field : Field) (pos : nat)
  | StringMatch (kind : StringMatchKind) (field : Field) (value : Literal) (pos : nat)
  | Matches (query : string) (pos : nat)
  | Traversal (direction : Direction) (relationship : string) (inner : Node) (pos : nat).

Definition Position (n : Node) : nat :=
  match n with
  | Logical _ _ p | Not _ p | Compare _ _ _ _ p | In _ _ _ p | Range _ _ _ _ p
  | Has _ p | StringMatch _ _ _ p | Matches _ p | Traversal _ _ _ p => p
  end.

(** ** Parser ([parser.go]) *)

Definition maxQueryLen : nat := 16 * 1024.
Definition maxParseDepth : nat := 128.

(** [strings.EqualFold] with an ASCII word, on text the lexer emits. *)
Definition EqualFold (text word : string) : bool := bool_decide (lower text = word).

Definition aggOf (word : string) : option AggFunc :=
  if bool_decide (word = "min"%string) then Some FuncMin
  else if bool_decide (word = "max"%string) then Some FuncMax
  else if bool_decide (word = "count"%string) then Some FuncCount
  else if bool_decide (word = "length"%string) then Some FuncLength
  else None.

Definition directionOf (word : string) : option Direction :=
  if bool_decide (word = "child"%string) then Some DirChild
  else if bool_decide (word = "parent"%string) then Some DirParent
  else if bool_decide (word = "linked"%string) then Some DirAny
  else None.

Definition matchOf (word : string) : option StringMatchKind :=
  if bool_decide (word = "contains"%string) then Some MatchContains
  else if bool_decide (word = "icontains"%string) then Some MatchIContains
  else if bool_decide (word = "iequals"%string) then Some MatchIEquals
  else None.

Definition wordOps (word : string) : option CompareOp :=
  if bool_decide (word = "eq"%string) then Some CmpEq
  else if bool_decide (word = "neq"%string) then Some CmpNeq
  else if bool_decide (word = "gt"%string) then Some CmpGt
  else if bool_decide (word = "gte"%string) then Some CmpGte
  else if bool_decide (word = "lt"%string) then Some CmpLt
  else if bool_decide (word = "lte"%string) then Some CmpLte
  else if bool_decide (word = "isa"%string) then Some CmpIsa
  else None.

Definition unitStopWords : list string :=
  ["and"; "or"; "not"; "in"; "eq"; "neq"; "gt"; "gte"; "lt"; "lte"; "isa"]%string.

Section Parser.

(** The token array; the parser's state is the index [pos]. *)
Variable tokens : list Token.

Definition peek (pos : nat) : outcome Token :=
  match tokens !! pos with Some t => Done t | None => Panic end.

Definition next (pos : nat) : outcome (Token * nat) :=
  let? t := peek pos in
  Done (t, if bool_decide (TKind t = TokenEOF) then pos else S pos).

Definition keyword (word : string) (pos : nat) : outcome bool :=
  let? t := peek pos in
  Done (bool_decide (TKind t = TokenIdent) && EqualFold (TText t) word).

Definition expect (kind : TokenKind) (what : string) (pos : nat) : outcome (Token * nat) :=
  let? t := peek pos in
  if negb (bool_decide (TKind t = kind)) then Fail (TPos t) what
  else next pos.

Definition parseField (pos : nat) : outcome (Field * nat) :=
  let? '(t, pos) := expect TokenIdent "expected an attribute name" pos in
  if EqualFold (TText t) "type" then Done (mkField ScopeType "type" (TPos t), pos)
  else if EqualFold (TText t) "link" then
    let? u := peek pos in
    if bool_decide (TKind u = TokenDot) then
      let? '(_, pos) := next pos in
      let? '(attr, pos) := expect TokenIdent "expected a link attribute name" pos in
      Done (mkField ScopeLink (TText attr) (TPos t), pos)
    else Done (mkField ScopeEntity (TText t) (TPos t), pos)
  else Done (mkField ScopeEntity (TText t) (TPos t), pos).

Definition bareOperand (pos : nat) : outcome (AggFunc * Field * nat) :=
  let? '(field, pos) := parseField pos in
  Done (FuncNone, field, pos).

Definition parseOperand (pos : nat) : outcome (AggFunc * Field * nat) :=
  let? t := peek pos in
  if bool_decide (TKind t = TokenIdent) then
    match aggOf (lower (TText t)) with
    | Some fn =>
        let? u := peek (S pos) in
        if bool_decide (TKind u = TokenLParen) then
          let? '(_, pos) := next pos in
          let? '(_, pos) := next pos in
          let? '(field, pos) := parseField pos in
          let? '(_, pos) := expect TokenRParen "expected ')'" pos in
          Done (fn, field, pos)
        else bareOperand pos
    | None => bareOperand pos
    end
  else bareOperand pos.

Definition parseCompareOp (pos : nat) : outcome (CompareOp * nat) :=
  let? t := peek pos in
  match TKind t with
  | TokenOp => let? '(_, pos) := next pos in Done (TText t, pos)
  | TokenIdent =>
      match wordOps (lower (TText t)) with
      | Some op => let? '(_, pos) := next pos in Done (op, pos)
      | None => Fail (TPos t) "expected a comparison operator"
      end
  | _ => Fail (TPos t) "expected a comparison operator"
  end.

Definition parseLiteral (pos : nat) : outcome (Literal * nat) :=
  let? t := peek pos in
  match TKind t with
  | TokenString =>
      let? '(_, pos) := next pos in
      Done (mkLiteral LitString (TText t) EmptyString (TPos t), pos)
  | TokenNumber =>
      let? '(_, pos) := next pos in
      let? u := peek pos in
      if bool_decide (TKind u = TokenIdent) && negb (bool_decide (lower (TText u) ∈ unitStopWords))
      then
        let? '(_, pos) := next pos in
        Done (mkLiteral LitNumber (TText t) (TText u) (TPos t), pos)
      else Done (mkLiteral LitNumber (TText t) EmptyString (TPos t), pos)
  | TokenIdent =>
      let? '(_, pos) := next pos in
      if EqualFold (TText t) "true" || EqualFold (TText t) "false"
      then Done (mkLiteral LitBool (lower (TText t)) EmptyString (TPos t), pos)
      else Done (mkLiteral LitIdent (TText t) EmptyString (TPos t), pos)
  | _ => Fail (TPos t) "expected a value"
  end.

(** The members of [in (...)], after [values]. *)
Fixpoint parseValues (fuel : nat) (values : list Literal) (pos : nat) :
    outcome (list Literal * nat) :=
  match fuel with
  | O => OutOfFuel
  | S fuel =>
      let? '(lit, pos) := parseLiteral pos in
      let values := values ++ [lit] in
      let? t := peek pos in
      if bool_decide (TKind t = TokenComma) then
        let? '(_, pos) := next pos in
        parseValues fuel values pos
      else Done (values, pos)
  end.

Definition parseComparisonOrIn (pos : nat) : outcome (Node * nat) :=
  let? start := peek pos in
  let? '(fn, field, pos) := parseOperand pos in
  let? isIn := keyword "in" pos in
  if isIn : bool then
    let? '(_, pos) := next pos in
    let? '(_, pos) := expect TokenLParen "expected '(' after in" pos in
    let? '(values, pos) := parseValues (length tokens) [] pos in
    let? '(_, pos) := expect TokenRParen "expected ')'" pos in
    Done (In fn field values (TPos start), pos)
  else
    let? '(op, pos) := parseCompareOp pos in
    let? '(lit, pos) := parseLiteral pos in
    Done (Compare fn field op lit (TPos start), pos).

Definition parseRange (pos : nat) : outcome (Node * nat) :=
  let? '(kw, pos) := next pos in
  let? '(_, pos) := expect TokenLParen "expected '(' after range" pos in
  let? '(fn, field, pos) := parseOperand pos in
  let? '(_, pos) := expect TokenComma "expected ','" pos in
  let? '(lo, pos) := parseLiteral pos in
  let? '(_, pos) := expect TokenComma "expected ','" pos in
  let? '(hi, pos) := parseLiteral pos in
  let? '(_, pos) := expect TokenRParen "expected ')'" pos in
  Done (Range fn field lo hi (TPos kw), pos).

Definition parseHas (pos : nat) : outcome (Node * nat) :=
  let? '(kw, pos) := next pos in
  let? '(_, pos) := expect TokenLParen "expected '(' after has" pos in
  let? '(field, pos) := parseField pos in
  let? '(_, pos) := expect TokenRParen "expected ')'" pos in
  Done (Has field (TPos kw), pos).

Definition parseStringMatch (kind : StringMatchKind) (pos : nat) : outcome (Node * nat) :=
  let? '(kw, pos) := next pos in
  let? '(_, pos) := expect TokenLParen "expected '('" pos in
  let? '(field, pos) := parseField pos in
  let? '(_, pos) := expect TokenComma "expected ','" pos in
  let? '(value, pos) := parseLiteral pos in
  let? '(_, pos) := expect TokenRParen "expected ')'" pos in
  Done (StringMatch kind field value (TPos kw), pos).

Definition parseMatches (pos : nat) : outcome (Node * nat) :=
  let? '(kw, pos) := next pos in
  let? '(_, pos) := expect TokenLParen "expected '(' after matches" pos in
  let? '(q, pos) := expect TokenString "expected a quoted search string" pos in
  let? '(_, pos) := expect TokenRParen "expected ')'" pos in
  Done (Matches (TText q) (TPos kw), pos).

(** *** The descent

    [or_] is [parseOr] at the caller's depth. *)

Definition parseTraversal (or_ : nat -> outcome (Node * nat)) (direction : Direction) (pos : nat) :
    outcome (Node * nat) :=
  let? '(kw, pos) := next pos in
  let? '(_, pos) := expect TokenLParen "expected '('" pos in
  let? '(rel, pos) := expect TokenIdent "expected a relationship name" pos in
  let? '(_, pos) := expect TokenRParen "expected ')'" pos in
  let? '(_, pos) := expect TokenLBrace "expected '{' opening the traversal expression" pos in
  let? '(inner, pos) := or_ pos in
  let? '(_, pos) := expect TokenRBrace "expected '}'" pos in
  Done (Traversal direction (TText rel) inner (TPos kw), pos).

Definition parsePrimary (or_ : nat -> outcome (Node * nat)) (pos : nat) : outcome (Node * nat) :=
  let? t := peek pos in
  if bool_decide (TKind t = TokenLParen) then
    let? '(_, pos) := next pos in
    let? '(inner, pos) := or_ pos in
    let? '(_, pos) := expect TokenRParen "expected ')'" pos in
    Done (inner, pos)
  else if negb (bool_decide (TKind t = TokenIdent)) then Fail (TPos t) "expected a condition"
  else
    let word := lower (TText t) in
    match directionOf word, matchOf word with
    | Some d, _ => parseTraversal or_ d pos
    | None, Some k => parseStringMatch k pos
    | None, None =>
        if bool_decide (word = "range"%string) then parseRange pos
        else if bool_decide (word = "has"%string) then parseHas pos
        else if bool_decide (word = "matches"%string) then parseMatches pos
        else parseComparisonOrIn pos
    end.

(** The loop of [parseAnd] and [parseOr]: operands joined by [word], after
    [exprs]. *)
Fixpoint joinLoop (word : string) (operand : nat -> outcome (Node * nat)) (fuel : nat)
    (exprs : list Node) (pos : nat) : outcome (list Node * nat) :=
  match fuel with
  | O => OutOfFuel
  | S fuel =>
      let? more := keyword word pos in
      if more : bool then
        let? '(_, pos) := next pos in
        let? '(right_, pos) := operand pos in
        joinLoop word operand fuel (exprs ++ [right_]) pos
      else Done (exprs, pos)
  end.

Definition joined (op : LogicalOp) (word : string) (operand : nat -> outcome (Node * nat))
    (pos : nat) : outcome (Node * nat) :=
  let? '(left_, pos) := operand pos in
  let? '(exprs, pos) := joinLoop word operand (length tokens) [left_] pos in
  Done (match exprs with
        | [_] => left_
        | _ => Logical op exprs (Position left_)
        end, pos).

Definition parseAnd (unary : nat -> outcome (Node * nat)) (pos : nat) : outcome (Node * nat) :=
  joined OpAnd "and" unary pos.

Definition tooDeep {A} (pos : nat) : outcome A :=
  let? t := peek pos in Fail (TPos t) "query nesting too deep".

(** [parseOr], given [parseUnary] one level further down if there is one. *)
Definition parseOrWith (deeper : option (nat -> outcome (Node * nat))) (pos : nat) :
    outcome (Node * nat) :=
  match deeper with
  | None => tooDeep pos
  | Some unary => joined OpOr "or" (parseAnd unary) pos
  end.

(** [parseUnary] with [budget] levels left. *)
Fixpoint parseUnary (budget : nat) (pos : nat) : outcome (Node * nat) :=
  let deeper := match budget with O => None | S budget => Some (parseUnary budget) end in
  let? isNot := keyword "not" pos in
  if isNot : bool then
    match deeper with
    | None => tooDeep pos
    | Some unary =>
        let? '(t, pos) := next pos in
        let? '(inner, pos) := unary pos in
        Done (Not inner (TPos t), pos)
    end
  else parsePrimary (parseOrWith deeper) pos.

Definition parseOr (budget : nat) : nat -> outcome (Node * nat) :=
  parseOrWith (match budget with O => None | S budget => Some (parseUnary budget) end).

End Parser.

(** [strings.TrimSpace(s) == ""]: every rune is a Unicode space. *)
Fixpoint blank (s : string) : bool :=
  match s with
  | EmptyString => true
  | String "194" (String d s) => ((byte_of d =? 133) || (byte_of d =? 160)) && blank s
  | String "225" (String "154" (String "128" s)) => blank s
  | String "226" (String "128" (String d s)) =>
      (in_range 128 138 d || (byte_of d =? 168) || (byte_of d =? 169) || (byte_of d =? 175)) &&
      blank s
  | String "226" (String "129" (String "159" s)) => blank s
  | String "227" (String "128" (String "128" s)) => blank s
  | String c s => (in_range 9 13 c || (byte_of c =? 32)) && blank s
  end.

Definition Parse (input : string) : outcome Node :=
  if blank input then Fail 0 "empty query"
  else if maxQueryLen <? String.length input then Fail 0 "query too long"
  else
    let? tokens := lex input in
    let? '(node, pos) := parseOr tokens maxParseDepth 0 in
    let? t := peek tokens pos in
    if negb (bool_decide (TKind t = TokenEOF)) then Fail (TPos t) "unexpected"
    else Done node.
