(* ===== verification/FqlFacts.v ===== *)
(** What the query language promises ([pkg/fql]).

    The lexer is characterised by a relation between the text and its tokens
    ([covers]): it returns exactly the tokens that cover the input, each the
    longest possible, and otherwise an error inside the input.  The parser never
    indexes out of the token array and never runs out of fuel; what it accepts is
    a well-formed tree of bounded height, what it refuses is refused at a position
    of the input. *)

From Stdlib Require Import ZArith Lia String Ascii List.
From stdpp Require Import base tactics sets list strings option decidable.
From S2P Require Import Prelude GoText Fql.

Open Scope nat_scope.

(** ** Outcomes

    [safe L Q r]: [r] is a value satisfying [Q], or an error positioned at most
    at [L]; neither a panic nor a lack of fuel. *)

Section Safe.
Context {A B : Type} (L : nat).

Definition safe (Q : A -> Prop) (r : outcome A) : Prop :=
  match r with Done a => Q a | Fail p _ => p <= L | Panic | OutOfFuel => False end.

End Safe.

Lemma safe_bind {A B} L (P : A -> Prop) (Q : B -> Prop) r (k : A -> outcome B) :
  safe L P r -> (forall a, P a -> safe L Q (k a)) -> safe L Q (obind r k).
Proof. destruct r; simpl; auto. Qed.

Lemma safe_weaken {A} L (P Q : A -> Prop) r :
  safe L P r -> (forall a, P a -> Q a) -> safe L Q r.
Proof. destruct r; simpl; auto. Qed.

Lemma obind_done {A B} (r : outcome A) (k : A -> outcome B) b :
  obind r k = Done b <-> exists a, r = Done a /\ k a = Done b.
Proof. destruct r; simpl; naive_solver. Qed.

(** ** The lexer *)

(** The body of a string literal quoted by [q], and the text it denotes. *)
Inductive escaped (q : ascii) : string -> string -> Prop :=
  | escaped_nil : escaped q EmptyString EmptyString
  | escaped_pair e t b : escaped q t b -> escaped q (String e t) (String "\" (String e b))
  | escaped_plain c t b :
      is_char "\" c = false -> is_char q c = false -> escaped q t b ->
      escaped q (String c t) (String c b).

(** A digit, or a minus sign with a digit behind it, then digits. *)
Definition integer_text (c : ascii) (ds : string) : Prop :=
  (IsDigit c || (is_char "-" c && head_digit ds)) = true /\ all_bytes IsDigit ds = true.

Definition digits_text (ds : string) : Prop :=
  head_digit ds = true /\ all_bytes IsDigit ds = true.

(** [source k text src rest]: the bytes [src], with [rest] behind them, are the
    token of kind [k] and text [text]. *)
Inductive source : TokenKind -> string -> string -> string -> Prop :=
  | source_single k c rest :
      single c = Some k -> source k (String c EmptyString) (String c EmptyString) rest
  | source_op text rest :
      text ∈ ["!="; ">="; "<="]%string -> source TokenOp text text rest
  | source_order text rest :
      text ∈ [">"; "<"]%string -> after "=" rest = None -> source TokenOp text text rest
  | source_string q t b rest :
      quote_char q = true -> escaped q t b ->
      source TokenString t (String q (String.append b (String q EmptyString))) rest
  | source_int c ds rest :
      integer_text c ds -> stops (fun d => IsDigit d || is_char "." d) rest = true ->
      source TokenNumber (String c ds) (String c ds) rest
  | source_frac c ds fs rest :
      integer_text c ds -> digits_text fs ->
      stops (fun d => IsDigit d || is_char "." d) rest = true ->
      source TokenNumber (String c (String.append ds (String "." fs)))
        (String c (String.append ds (String "." fs))) rest
  | source_ident c s rest :
      ident_first c = true -> all_bytes ident_byte s = true ->
      stops ident_byte rest = true ->
      source TokenIdent (String c s) (String c s) rest.

(** [covers i s ts]: the text [s], which starts at byte [i], is the sequence of
    tokens [ts] with spaces between. *)
Inductive covers : nat -> string -> list Token -> Prop :=
  | covers_end i : covers i EmptyString [mkToken TokenEOF EmptyString i]
  | covers_space i c s ts : IsSpace c = true -> covers (S i) s ts -> covers i (String c s) ts
  | covers_token i k text src rest ts :
      source k text src rest -> covers (i + String.length src) rest ts ->
      covers i (String.append src rest) (mkToken k text i :: ts).

(** First bytes of different kinds of tokens differ. *)
Lemma first_byte c :
  (IsSpace c = true -> single c = None /\ is_char "!" c = false /\
    (is_char ">" c || is_char "<" c) = false /\ quote_char c = false /\ IsDigit c = false /\
    is_char "-" c = false /\ ident_first c = false) /\
  (isSome (single c) = true -> is_char "!" c = false /\
    (is_char ">" c || is_char "<" c) = false /\ quote_char c = false /\ IsDigit c = false /\
    is_char "-" c = false /\ ident_first c = false) /\
  (quote_char c = true -> is_char "!" c = false /\ is_char "\" c = false /\
    (is_char ">" c || is_char "<" c) = false) /\
  ((IsDigit c || is_char "-" c) = true -> is_char "!" c = false /\
    (is_char ">" c || is_char "<" c) = false /\ quote_char c = false) /\
  (ident_first c = true -> is_char "!" c = false /\
    (is_char ">" c || is_char "<" c) = false /\ quote_char c = false /\ IsDigit c = false /\
    is_char "-" c = false /\ ident_byte c = true).
Proof.
  pose (imp a b := negb a || b).
  pose proof (ascii_forall (fun c =>
    let other := negb (is_char "!" c) && negb (is_char ">" c || is_char "<" c) in
    let nq := negb (quote_char c) in
    let rest := nq && negb (IsDigit c) && negb (is_char "-" c) in
    imp (IsSpace c) (negb (isSome (single c)) && other && rest && negb (ident_first c)) &&
    imp (isSome (single c)) (other && rest && negb (ident_first c)) &&
    imp (quote_char c) (other && negb (is_char "\" c)) &&
    imp (IsDigit c || is_char "-" c) (other && nq) &&
    imp (ident_first c) (other && rest && ident_byte c)) ltac:(vm_compute; reflexivity) c) as H.
  cbv beta zeta in H. unfold imp in H.
  destruct (IsSpace c), (single c), (is_char "!" c), (is_char ">" c || is_char "<" c),
    (quote_char c), (IsDigit c), (is_char "-" c), (ident_first c), (is_char "\" c),
    (ident_byte c); simpl in *; try discriminate H; repeat split; congruence.
Qed.

Lemma is_char_true n c : is_char n c = true -> c = n.
Proof. unfold is_char. apply bool_decide_eq_true. Qed.

Lemma after_some c s r : after c s = Some r <-> s = String c r.
Proof.
  destruct s as [|d s]; simpl; [done|]. unfold is_char.
  case_bool_decide; naive_solver.
Qed.

Lemma append_nil a : String.append EmptyString a = a.
Proof. done. Qed.

Lemma append_assoc a b c : String.append (String.append a b) c = String.append a (String.append b c).
Proof. induction a as [|x a IH]; [done|]. exact (f_equal (String x) IH). Qed.

(** Nested concatenations to the right. *)
Ltac append_norm := repeat rewrite ?append_cons, ?append_nil, ?append_assoc.
Tactic Notation "append_norm" "in" hyp(H) :=
  repeat rewrite ?append_cons, ?append_nil, ?append_assoc in H.

(** Strong induction on the length of a string. *)
Lemma string_length_ind (P : string -> Prop) :
  (forall s, (forall r, String.length r < String.length s -> P r) -> P s) -> forall s, P s.
Proof.
  intros H s. remember (String.length s) as n eqn:E. revert s E.
  induction n as [n IH] using lt_wf_ind. intros s ->. apply H.
  intros r Hr. by apply (IH _ Hr).
Qed.

Lemma lexString_exact q s t n rest :
  lexString q s = Some (t, n, rest) <->
  exists b, escaped q t b /\ s = String.append b (String q rest) /\ n = S (String.length b) /\
    is_char "\" q = false.
Proof.
  split.
  - revert t n. induction s as [s IH] using string_length_ind. intros t n H.
    destruct s as [|c s]; [done|]. simpl in H. destruct (is_char "\" c) eqn:Eb.
    + destruct s as [|e s]; [done|].
      destruct (lexString q s) as [[[t' n'] r']|] eqn:El; [|done]. injection H as <- <- <-.
      destruct (IH s ltac:(simpl; lia) _ _ El) as (b & H1 & -> & -> & Hq).
      apply is_char_true in Eb as ->.
      exists (String "\" (String e b)). repeat split; [by constructor|done].
    + destruct (is_char q c) eqn:Eq.
      * injection H as <- <- <-. apply is_char_true in Eq as ->.
        exists EmptyString. repeat split; [constructor|done].
      * destruct (lexString q s) as [[[t' n'] r']|] eqn:El; [|done]. injection H as <- <- <-.
        destruct (IH s ltac:(simpl; lia) _ _ El) as (b & H1 & -> & -> & Hq).
        exists (String c b). repeat split; [by constructor|done].
  - intros (b & Hb & -> & -> & Hq). induction Hb as [|e t b Hb IH|c t b Hc Hq' Hb IH]; simpl.
    + rewrite Hq. unfold is_char. by rewrite bool_decide_true.
    + by rewrite IH.
    + by rewrite Hc, Hq', IH.
Qed.

Lemma span_spec p s a b :
  span p s = (a, b) <->
  s = String.append a b /\ all_bytes p a = true /\ stops p b = true.
Proof.
  split; [|intros (-> & Ha & Hb); by apply span_all].
  revert a b. induction s as [|c s IH]; intros a b; simpl; [by intros [= <- <-]|].
  destruct (p c) eqn:Ec.
  - destruct (span p s) as [a' b']. intros [= <- <-].
    destruct (IH a' b' eq_refl) as (-> & Ha & Hb). simpl. by rewrite Ec, Ha.
  - intros [= <- <-]. simpl. by rewrite Ec.
Qed.

Lemma head_digit_app a b : head_digit a = true -> head_digit (String.append a b) = true.
Proof. by destruct a. Qed.

Lemma stops_number rest :
  stops (fun d => IsDigit d || is_char "." d) rest = true <->
  stops IsDigit rest = true /\ after "." rest = None.
Proof.
  destruct rest as [|c r]; simpl; [by split|]. rewrite negb_orb, andb_true_iff, !negb_true_iff.
  destruct (is_char "." c); naive_solver.
Qed.

(** *** Tokens *)

Lemma lexNumber_exact i c s t rest :
  (IsDigit c || (is_char "-" c && head_digit s)) = true ->
  lexNumber i c s = Done (t, rest) <->
  String c s = String.append t rest /\ source TokenNumber t t rest.
Proof.
  intros Hc. unfold lexNumber. split.
  - destruct (span IsDigit s) as [int s1] eqn:E1.
    apply span_spec in E1 as (-> & Hint & Hs1).
    assert (integer_text c int) as Hi.
    { split; [|done]. apply orb_true_iff. apply orb_true_iff in Hc as [->|Hc]; [by left|right].
      apply andb_true_iff in Hc as [-> Hh]. destruct int; [|done]. simpl in Hh.
      destruct s1 as [|d s1]; [done|]. simpl in *. by rewrite Hh in Hs1. }
    destruct (after "." s1) as [s2|] eqn:E2.
    + destruct (head_digit s2) eqn:E3; [|done].
      destruct (span IsDigit s2) as [frac s3] eqn:E4.
      destruct (after "." s3) eqn:E5; [done|]. simpl. intros [= <- <-].
      apply after_some in E2 as ->. apply span_spec in E4 as (-> & Hfrac & Hs3).
      split; [by append_norm|].
      apply source_frac; [done| |by apply stops_number].
      split; [|done]. destruct frac as [|d frac]; [|simpl in *; by destruct (IsDigit d)].
      destruct s3 as [|d s3]; [done|]. simpl in *. by rewrite E3 in Hs3.
    + intros [= <- <-]. split; [done|]. apply source_int; [done|by apply stops_number].
  - intros [E Hs]. inversion Hs as [k c' r Hk|t' r Ht| t' r Ht| |c' ds r Hi Hr|c' ds fs r Hi Hf Hr|];
      subst.
    + by destruct (single c') as [[]|] eqn:?; unfold single in *; repeat case_match; simplify_eq.
    + simpl in E. injection E as <- ->. destruct Hi as [_ Hd].
      apply stops_number in Hr as [Hr Hr']. rewrite span_all by done. by rewrite Hr'.
    + simpl in E. injection E as <- ->. destruct Hi as [_ Hd], Hf as [Hh Hf].
      apply stops_number in Hr as [Hr Hr']. rewrite append_assoc. simpl.
      rewrite span_all by done. simpl. rewrite head_digit_app by done.
      by rewrite span_all, Hr' by done.
Qed.

Lemma lexNumber_safe i c s :
  safe (i + S (String.length s)) (fun _ => True) (lexNumber i c s).
Proof.
  unfold lexNumber. destruct (span IsDigit s) as [int s1] eqn:E1.
  apply length_span in E1. simpl. destruct (after "." s1) as [s2|] eqn:E2; [|done].
  apply after_some in E2 as ->. simpl in E1. destruct (head_digit s2); simpl; [|lia].
  destruct (span IsDigit s2) as [frac s3] eqn:E4. apply length_span in E4.
  destruct (after "." s3); simpl; lia.
Qed.

Lemma lexToken_sound i c s tok n rest :
  lexToken i c s = Done (tok, n, rest) ->
  exists k text src, tok = mkToken k text i /\ n = String.length src /\
    String c s = String.append src rest /\ source k text src rest.
Proof.
  unfold lexToken. intros H. destruct (single c) as [k|] eqn:E1.
  { injection H as <- <- <-. exists k, (String c EmptyString), (String c EmptyString).
    repeat split. by constructor. }
  destruct (is_char "!" c) eqn:E2.
  { apply is_char_true in E2 as ->. destruct (after "=" s) as [r|] eqn:E; [|done].
    injection H as <- <- <-. apply after_some in E as ->.
    exists TokenOp, "!="%string, "!="%string. repeat split. constructor. set_solver. }
  destruct (is_char ">" c || is_char "<" c) eqn:E3.
  { assert (c = ">"%char \/ c = "<"%char) as Hc.
    { apply orb_true_iff in E3 as [E3|E3]; apply is_char_true in E3; auto. }
    destruct (after "=" s) as [r|] eqn:E; injection H as <- <- <-.
    - apply after_some in E as ->. exists TokenOp, (String c "="), (String c "=").
      repeat split. constructor. destruct Hc as [-> | ->]; set_solver.
    - exists TokenOp, (String c EmptyString), (String c EmptyString).
      repeat split. apply source_order; [destruct Hc as [-> | ->]; set_solver|done]. }
  destruct (quote_char c) eqn:E4.
  { destruct (lexString c s) as [[[t m] r]|] eqn:E; [|done]. injection H as <- <- <-.
    apply lexString_exact in E as (b & Hb & -> & -> & _).
    exists TokenString, t, (String c (String.append b (String c EmptyString))).
    split; [done|]. split; [simpl; rewrite length_append; simpl; lia|].
    split; [by append_norm|by constructor]. }
  destruct (IsDigit c || (is_char "-" c && head_digit s)) eqn:E5.
  { apply obind_done in H as ([t r] & E & [= <- <- <-]).
    apply lexNumber_exact in E as [Hs H]; [|done]. eauto 10. }
  destruct (ident_first c) eqn:E6; [|done].
  destruct (span ident_byte (String c s)) as [t r] eqn:E. injection H as <- <- <-.
  apply span_spec in E as (Hs & Ha & Hr). exists TokenIdent, t, t. repeat split; [done|].
  destruct t as [|d t]; append_norm in Hs.
  { destruct (first_byte c) as (_ & _ & _ & _ & Hi). destruct (Hi E6) as (_ & _ & _ & _ & _ & Hib).
    subst r. simpl in Hr. by rewrite Hib in Hr. }
  injection Hs as <- ->. simpl in Ha. apply andb_true_iff in Ha as [_ Ha]. by constructor.
Qed.

Lemma lexToken_safe i c s :
  safe (i + S (String.length s)) (fun _ => True) (lexToken i c s).
Proof.
  unfold lexToken. repeat case_match; simpl; try done; try lia.
  eapply safe_bind; [apply lexNumber_safe|]. by intros [].
Qed.

Lemma source_first k text src rest :
  source k text src rest ->
  exists c s, src = String c s /\ IsSpace c = false /\ k <> TokenEOF.
Proof.
  assert (forall c, (IsSpace c = true -> False) -> IsSpace c = false) as Hn
    by (intros c H; destruct (IsSpace c); [destruct (H eq_refl)|done]).
  pose proof first_byte as F.
  destruct 1 as [k c rest Hk|t rest Ht|t rest Ht|q t b rest Hq|c ds rest Hi|c ds fs rest Hi|c s rest Hi].
  - exists c, EmptyString. repeat split.
    + apply Hn. intros Hs. destruct (F c) as [Fs _]. destruct (Fs Hs) as [E _]. congruence.
    + intros ->. unfold single in Hk. by repeat case_match; simplify_eq.
  - set_unfold in Ht. destruct_or?; subst; do 2 eexists; by repeat split.
  - set_unfold in Ht. destruct_or?; subst; do 2 eexists; by repeat split.
  - eexists _, _. repeat split; [|done]. apply Hn. intros Hs.
    destruct (F q) as [Fs _]. destruct (Fs Hs) as (_ & _ & _ & E & _). congruence.
  - destruct Hi as [Hi _]. eexists _, _. repeat split; [|done]. apply Hn. intros Hs.
    destruct (F c) as [Fs _]. destruct (Fs Hs) as (_ & _ & _ & _ & E1 & E2 & _).
    by rewrite E1, E2 in Hi.
  - destruct Hi as [Hi _]. eexists _, _. repeat split; [|done]. apply Hn. intros Hs.
    destruct (F c) as [Fs _]. destruct (Fs Hs) as (_ & _ & _ & _ & E1 & E2 & _).
    by rewrite E1, E2 in Hi.
  - eexists _, _. repeat split; [|done]. apply Hn. intros Hs.
    destruct (F c) as [Fs _]. destruct (Fs Hs) as (_ & _ & _ & _ & _ & _ & E). congruence.
Qed.

(** A number reaches the number branch. *)
Lemma lexToken_number i c ds text s rest :
  integer_text c ds -> (exists r, s = String.append ds r) ->
  source TokenNumber text text rest -> String c s = String.append text rest ->
  lexToken i c s = Done (mkToken TokenNumber text i, String.length text, rest).
Proof.
  intros [Hi _] [r Hds] Hs E.
  assert ((IsDigit c || (is_char "-" c && head_digit s)) = true) as Hn.
  { apply orb_true_iff in Hi as [->|Hi]; [done|]. apply andb_true_iff in Hi as [-> Hi].
    rewrite Hds, head_digit_app, orb_true_r by done. done. }
  destruct (first_byte c) as (_ & Fs & _ & Fn & _).
  destruct Fn as (E1 & E2 & E3).
  { apply orb_true_iff in Hn as [->|Hn]; [done|].
    apply andb_true_iff in Hn as [-> _]. by rewrite orb_true_r. }
  unfold lexToken. destruct (single c) eqn:Ek.
  { destruct (Fs eq_refl) as (_ & _ & _ & E4 & E5 & _). by rewrite E4, E5 in Hn. }
  rewrite E1, E2, E3, Hn, (proj2 (lexNumber_exact i c s text rest Hn)) by done. done.
Qed.

Lemma lexToken_complete i k text src rest c s :
  source k text src rest -> String.append src rest = String c s ->
  lexToken i c s = Done (mkToken k text i, String.length src, rest).
Proof.
  pose proof first_byte as F. intros Hs E.
  destruct Hs as [k c' rest Hk|t rest Ht|t rest Ht Hn|q t b rest Hq Hb|c' ds rest Hi Hr
    |c' ds fs rest Hi Hf Hr|c' s' rest Hi Hb Hr].
  - injection E as -> <-. unfold lexToken. by rewrite Hk.
  - set_unfold in Ht. destruct_or?; subst; append_norm in E; injection E as <- <-; done.
  - set_unfold in Ht. destruct_or?; subst; append_norm in E; injection E as <- <-;
      unfold lexToken; simpl; by rewrite Hn.
  - append_norm in E. injection E as -> <-. destruct (F c) as (_ & Fs & Fq & _).
    destruct (Fq Hq) as (E1 & E2 & E3). unfold lexToken.
    destruct (single c) eqn:Ek; [destruct (Fs eq_refl) as (_ & _ & E & _); congruence|].
    rewrite E1, E3, Hq.
    rewrite (proj2 (lexString_exact c _ t (S (String.length b)) rest)) by (exists b; eauto).
    simpl. by rewrite length_append, Nat.add_1_r.
  - append_norm in E. injection E as -> <-. eapply lexToken_number; [done|eauto| |done].
    by constructor.
  - append_norm in E. injection E as -> <-.
    eapply lexToken_number; [done|by eexists| |by append_norm]. by constructor.
  - append_norm in E. injection E as -> <-. destruct (F c) as (_ & Fs & _ & _ & Fi).
    destruct (Fi Hi) as (E1 & E2 & E3 & E4 & E5 & E6). unfold lexToken.
    destruct (single c) eqn:Ek; [destruct (Fs eq_refl) as (_ & _ & _ & _ & _ & E); congruence|].
    rewrite E1, E2, E3, E4, E5. simpl. rewrite Hi.
    by rewrite span_all, E6.
Qed.

(** *** The input *)

Lemma lexFrom_exact fuel i s ts :
  String.length s <= fuel -> lexFrom fuel i s = Done ts <-> covers i s ts.
Proof.
  intros Hf. split.
  - revert i s ts Hf. induction fuel as [|fuel IH]; intros i [|c s] ts Hf H; simpl in *.
    + injection H as <-. constructor.
    + lia.
    + injection H as <-. constructor.
    + destruct (IsSpace c) eqn:Ec.
      { apply covers_space; [done|]. apply IH; [lia|done]. }
      apply obind_done in H as ([[tok n] rest] & E & H).
      apply obind_done in H as (ts' & E' & [= <-]).
      apply lexToken_sound in E as (k & text & src & -> & -> & Es & Hs).
      rewrite Es. apply covers_token; [done|]. apply IH; [|done].
      apply (f_equal String.length) in Es. rewrite length_append in Es. simpl in Es.
      destruct (source_first _ _ _ _ Hs) as (d & r & -> & _). simpl in Es. lia.
  - intros H. revert fuel Hf. induction H as [i|i c s ts Hc H IH|i k text src rest ts Hs H IH];
      intros fuel Hf.
    + by destruct fuel.
    + destruct fuel; simpl in *; [lia|]. rewrite Hc. apply IH. lia.
    + destruct (source_first _ _ _ _ Hs) as (c & s & E & Hc & _).
      rewrite E, append_cons in *. destruct fuel; simpl in Hf; [lia|]. simpl. rewrite Hc.
      rewrite (lexToken_complete i _ _ _ _ c (String.append s rest) Hs) by done. simpl.
      rewrite IH; [done|]. rewrite length_append in Hf. lia.
Qed.

Lemma lexFrom_safe fuel i s :
  String.length s <= fuel -> safe (i + String.length s) (fun _ => True) (lexFrom fuel i s).
Proof.
  revert i s. induction fuel as [|fuel IH]; intros i [|c s] Hf; simpl in *; try done; [lia|].
  destruct (IsSpace c).
  { specialize (IH (S i) s ltac:(lia)). by rewrite Nat.add_succ_r. }
  pose proof (lexToken_safe i c s) as Ht. destruct (lexToken i c s) as [[[tok n] rest]| | |] eqn:E;
    simpl in *; try done.
  apply lexToken_sound in E as (k & text & src & -> & -> & Es & Hs).
  apply (f_equal String.length) in Es. rewrite length_append in Es. simpl in Es.
  destruct (source_first _ _ _ _ Hs) as (d & r & -> & _). simpl in *.
  eapply safe_bind; [|done]. eapply safe_weaken; [|done].
  replace (i + S (String.length s)) with (i + S (String.length r) + String.length rest) by lia.
  apply IH. lia.
Qed.

(** [lex] returns exactly the tokens that cover the input - every byte is
    a space or part of a token, every token is as long as it can be, strings are
    unescaped - and otherwise fails at a position of the input; it always
    returns. *)
Theorem lex_exact input :
  (forall ts, lex input = Done ts <-> covers 0 input ts) /\
  safe (String.length input) (fun _ => True) (lex input).
Proof. split; [intros ts|]; [by apply lexFrom_exact|by apply (lexFrom_safe _ 0)]. Qed.

#[export] Instance outcome_eq_dec `{EqDecision A} : EqDecision (outcome A).
Proof. solve_decision. Defined.

(** Bytes outside ASCII are read as Latin-1 runes: one that is a Latin-1
    letter is an identifier, a Latin-1 space is skipped, and any other is refused
    at its position; the identifiers of the lexer are more than
    [[a-zA-Z_][a-zA-Z0-9_]*]. *)
Theorem lex_high_byte c :
  byte_of c < 128 \/
  lex (String c EmptyString) =
    if IsLetter c then
      Done [mkToken TokenIdent (String c EmptyString) 0; mkToken TokenEOF EmptyString 1]
    else if IsSpace c then Done [mkToken TokenEOF EmptyString 1]
    else Fail 0 "unexpected character".
Proof.
  assert ((byte_of c <? 128) || bool_decide (
    lex (String c EmptyString) =
    if IsLetter c then
      Done [mkToken TokenIdent (String c EmptyString) 0; mkToken TokenEOF EmptyString 1]
    else if IsSpace c then Done [mkToken TokenEOF EmptyString 1]
    else Fail 0 "unexpected character") = true) as H.
  { revert c. apply (ascii_forall (fun c => _)). vm_compute. reflexivity. }
  apply orb_true_iff in H as [H|H]; [left; by apply Nat.ltb_lt|right].
  by apply bool_decide_eq_true in H.
Qed.

(** ** The parser *)

Definition operators : list string := [CmpEq; CmpNeq; CmpGt; CmpGte; CmpLt; CmpLte; CmpIsa].

Definition token_ok (t : Token) : Prop :=
  TKind t <> TokenEOF /\ (TKind t = TokenOp -> TText t ∈ operators) /\
  (TKind t = TokenIdent -> TText t <> EmptyString).

(** The token array of a text of length [L]. *)
Definition tokenized (L : nat) (ts : list Token) : Prop :=
  exists init p, ts = init ++ [mkToken TokenEOF EmptyString p] /\
    Forall token_ok init /\ Forall (fun t => TPos t <= L) ts.

Lemma single_op c : single c = Some TokenOp -> c = "="%char.
Proof.
  unfold single. intros H. repeat case_match; simplify_eq; by apply is_char_true.
Qed.

Lemma covers_tokenized i s ts L :
  covers i s ts -> i + String.length s <= L -> tokenized L ts.
Proof.
  intros H HL. induction H as [i|i c s ts Hc H IH|i k text src rest ts Hs H IH].
  - exists [], i. repeat split; [constructor|]. repeat constructor. simpl in *. lia.
  - apply IH. simpl in HL. lia.
  - rewrite length_append in HL.
    destruct IH as (init & p & -> & Hi & Hp); [lia|].
    exists (mkToken k text i :: init), p. repeat split.
    + constructor; [|done]. destruct (source_first _ _ _ _ Hs) as (c & r & _ & _ & Hk).
      split; [done|]. destruct Hs; split; intros [=]; simpl; try done; try set_solver.
      subst. rewrite (single_op c0) by done. set_solver.
    + simpl. constructor; [simpl; lia|done].
Qed.

(** *** Trees the parser builds for a text of length [L] *)

Section Tree.
Variable L : nat.

Definition field_ok (f : Field) : Prop :=
  FPos f <= L /\ FName f <> EmptyString /\ (FScope f = ScopeType -> FName f = "type"%string).

Definition literal_ok (l : Literal) : Prop :=
  LPos l <= L /\ (LKind l = LitBool -> LText l ∈ ["true"; "false"]%string) /\
  (LUnit l <> EmptyString -> LKind l = LitNumber) /\
  (LKind l = LitIdent -> LText l <> EmptyString).

(** [tree h n]: [n] is well formed and its height is less than [h + 1]. *)
Inductive tree : nat -> Node -> Prop :=
  | tree_logical h k op es p :
      k < h -> 2 <= length es -> Forall (tree k) es -> p <= L -> tree h (Logical op es p)
  | tree_not h k e p : k < h -> tree k e -> p <= L -> tree h (Not e p)
  | tree_compare h fn f op l p :
      0 < h -> field_ok f -> op ∈ operators -> literal_ok l -> p <= L ->
      tree h (Compare fn f op l p)
  | tree_in h fn f vs p :
      0 < h -> field_ok f -> vs <> [] -> Forall literal_ok vs -> p <= L -> tree h (In fn f vs p)
  | tree_range h fn f lo hi p :
      0 < h -> field_ok f -> literal_ok lo -> literal_ok hi -> p <= L ->
      tree h (Range fn f lo hi p)
  | tree_has h f p : 0 < h -> field_ok f -> p <= L -> tree h (Has f p)
  | tree_match h k f l p :
      0 < h -> field_ok f -> literal_ok l -> p <= L -> tree h (StringMatch k f l p)
  | tree_matches h q p : 0 < h -> p <= L -> tree h (Matches q p)
  | tree_traversal h k d rel e p :
      k < h -> rel <> EmptyString -> tree k e -> p <= L -> tree h (Traversal d rel e p).

Lemma tree_higher h h' n : tree h n -> h <= h' -> tree h' n.
Proof. destruct 1; intros; econstructor; eauto; lia. Qed.

Lemma tree_position h n : tree h n -> Position n <= L.
Proof. by destruct 1. Qed.

End Tree.

Section ParserFacts.
Variables (L : nat) (tokens : list Token).
Hypothesis Htok : tokenized L tokens.

(** [reach Q s r]: [r] is safe, and where it returns, its value satisfies [Q]
    and its index is a token's, at [s] or later. *)
Definition reach {A} (Q : A -> Prop) (s : nat) (r : outcome (A * nat)) : Prop :=
  safe L (fun '(a, pos) => Q a /\ s <= pos < length tokens) r.

Lemma token_at pos :
  pos < length tokens -> exists t, tokens !! pos = Some t /\ TPos t <= L.
Proof.
  destruct Htok as (init & p & _ & _ & Hp). intros Hpos.
  destruct (lookup_lt_is_Some_2 tokens pos Hpos) as [t Ht]. exists t. split; [done|].
  by eapply Forall_lookup_1 in Hp.
Qed.

Lemma token_inner pos t :
  tokens !! pos = Some t -> TKind t <> TokenEOF -> S pos < length tokens /\ token_ok t.
Proof.
  destruct Htok as (init & p & -> & Hi & _). intros Ht Hk.
  apply lookup_app_Some in Ht as [Ht|[Hl Ht]].
  - split; [|by eapply Forall_lookup_1 in Hi]. apply lookup_lt_Some in Ht.
    rewrite length_app. simpl. lia.
  - apply list_lookup_singleton_Some in Ht as [_ <-]. by destruct Hk.
Qed.

Lemma reach_bind {A B} (P : A -> Prop) (Q : B -> Prop) s s' r (k : A * nat -> outcome (B * nat)) :
  reach P s r ->
  (forall a pos, P a -> s <= pos < length tokens -> reach Q s' (k (a, pos))) ->
  reach Q s' (obind r k).
Proof. intros Hr Hk. eapply safe_bind; [exact Hr|]. intros [a pos] [? ?]. by apply Hk. Qed.

Lemma reach_weaken {A} (P Q : A -> Prop) s s' r :
  reach P s r -> (forall a, P a -> Q a) -> s' <= s -> reach Q s' r.
Proof.
  intros Hr HPQ Hs. eapply safe_weaken; [exact Hr|]. intros [a pos] [? ?]. split; [auto|lia].
Qed.

Lemma reach_done {A} (Q : A -> Prop) s a pos :
  Q a -> s <= pos < length tokens -> reach Q s (Done (a, pos)).
Proof. by split. Qed.

Lemma peek_at {B} (Q : B -> Prop) s pos (k : Token -> outcome (B * nat)) :
  pos < length tokens ->
  (forall t, tokens !! pos = Some t -> TPos t <= L -> reach Q s (k t)) ->
  reach Q s (obind (peek tokens pos) k).
Proof.
  intros Hpos Hk. destruct (token_at pos Hpos) as (t & Ht & Hp).
  unfold peek. rewrite Ht. by apply Hk.
Qed.

Lemma keyword_at {B} (Q : B -> Prop) s word pos (k : bool -> outcome (B * nat)) :
  pos < length tokens ->
  (forall b t, tokens !! pos = Some t -> TPos t <= L ->
    (b = true -> TKind t <> TokenEOF) -> reach Q s (k b)) ->
  reach Q s (obind (keyword tokens word pos) k).
Proof.
  intros Hpos Hk. destruct (token_at pos Hpos) as (t & Ht & Hp).
  unfold keyword, peek. rewrite Ht. simpl. eapply Hk; [done|done|]. intros Hb. breflect.
  congruence.
Qed.

Lemma next_at pos t :
  tokens !! pos = Some t -> TKind t <> TokenEOF ->
  reach (fun u => u = t /\ token_ok t) (S pos) (next tokens pos).
Proof.
  intros Ht Hk. destruct (token_inner pos t Ht Hk) as [Hl Hok].
  unfold next, peek. rewrite Ht. simpl. rewrite bool_decide_false by done.
  split; [done|lia].
Qed.

Lemma expect_at kind what pos :
  kind <> TokenEOF -> pos < length tokens ->
  reach (fun t => TKind t = kind /\ token_ok t /\ TPos t <= L) (S pos)
    (expect tokens kind what pos).
Proof.
  intros Hk Hpos. unfold expect. apply peek_at; [done|]. intros t Ht Hp.
  case_bool_decide as E; [|done]. simpl. rewrite <- E in Hk.
  eapply reach_weaken; [by apply next_at| |lia]. naive_solver.
Qed.

Lemma parseField_at pos :
  pos < length tokens -> reach (field_ok L) (S pos) (parseField tokens pos).
Proof.
  intros Hpos. unfold parseField. eapply reach_bind; [by apply expect_at|].
  intros t p1 (Hk & (_ & _ & Ht) & Hp) Hp1. specialize (Ht Hk).
  case_match; [apply reach_done; [done|lia]|].
  case_match; [|apply reach_done; [done|lia]].
  apply peek_at; [lia|]. intros u Hu _. case_bool_decide as E; [|apply reach_done; [done|lia]].
  eapply reach_bind; [apply next_at; [done|congruence]|]. intros v p2 _ Hp2.
  eapply reach_bind; [apply expect_at; [done|lia]|]. intros a p3 (Hka & (_ & _ & Ha) & _) Hp3.
  apply reach_done; [|lia]. split; [done|]. split; [by apply Ha|done].
Qed.

Lemma bareOperand_at pos :
  pos < length tokens -> reach (fun '(_, f) => field_ok L f) (S pos) (bareOperand tokens pos).
Proof.
  intros Hpos. unfold bareOperand. eapply reach_bind; [by apply parseField_at|].
  intros f p1 Hf Hp1. by apply reach_done.
Qed.

Lemma parseOperand_at pos :
  pos < length tokens -> reach (fun '(_, f) => field_ok L f) (S pos) (parseOperand tokens pos).
Proof.
  intros Hpos. unfold parseOperand. apply peek_at; [done|]. intros t Ht _.
  case_bool_decide as E; [|by apply bareOperand_at].
  destruct (aggOf (lower (TText t))) as [fn|]; [|by apply bareOperand_at].
  assert (TKind t <> TokenEOF) as Hk by congruence.
  destruct (token_inner pos t Ht Hk) as [Hl _].
  apply peek_at; [done|]. intros u Hu _. case_bool_decide as E'; [|by apply bareOperand_at].
  unfold next at 1, peek. rewrite Ht. simpl. rewrite bool_decide_false by done. simpl.
  eapply reach_bind; [apply (next_at _ u); [done|congruence]|]. intros _ p2 _ Hp2.
  eapply reach_bind; [apply parseField_at; lia|]. intros f p3 Hf Hp3.
  eapply reach_bind; [apply expect_at; [done|lia]|]. intros _ p4 _ Hp4.
  apply reach_done; [done|lia].
Qed.

Lemma wordOps_operator w op : wordOps w = Some op -> op ∈ operators.
Proof. unfold wordOps. intros H. repeat case_match; simplify_eq; set_solver. Qed.

Lemma parseCompareOp_at pos :
  pos < length tokens -> reach (fun op => op ∈ operators) (S pos) (parseCompareOp tokens pos).
Proof.
  intros Hpos. unfold parseCompareOp. apply peek_at; [done|]. intros t Ht Hp.
  destruct (TKind t) eqn:Ek; try done.
  - destruct (wordOps (lower (TText t))) as [op|] eqn:E; [|done].
    eapply reach_bind; [apply next_at; [done|congruence]|]. intros _ p1 _ Hp1.
    apply reach_done; [by eapply wordOps_operator|lia].
  - eapply reach_bind; [apply next_at; [done|congruence]|]. intros _ p1 (_ & _ & Ho & _) Hp1.
    apply reach_done; [by apply Ho|lia].
Qed.

Lemma parseLiteral_at pos :
  pos < length tokens -> reach (literal_ok L) (S pos) (parseLiteral tokens pos).
Proof.
  intros Hpos. unfold parseLiteral. apply peek_at; [done|]. intros t Ht Hp.
  destruct (TKind t) eqn:Ek; try done; (eapply reach_bind; [apply next_at; [done|congruence]|]);
    intros _ p1 (_ & _ & _ & Hi) Hp1.
  - case_match eqn:Eb; (apply reach_done; [|lia]); repeat split; try done; intros _; simpl.
    + unfold EqualFold in Eb. apply orb_true_iff in Eb as [E|E]; breflect; rewrite E; set_solver.
    + by apply Hi.
  - by apply reach_done.
  - apply peek_at; [lia|]. intros u Hu _. case_match eqn:Eb.
    + breflect. eapply reach_bind; [apply next_at; [done|congruence]|]. intros _ p2 _ Hp2.
      apply reach_done; [done|lia].
    + by apply reach_done.
Qed.

(** One call of a parser function. *)
Ltac call :=
  eapply reach_bind;
  [ first [ apply expect_at; [done|lia] | apply parseField_at; lia | apply parseOperand_at; lia
          | apply parseCompareOp_at; lia | apply parseLiteral_at; lia
          | apply next_at; [eassumption|congruence] ] | ].

Lemma parseValues_at fuel vs pos :
  pos < length tokens -> length tokens <= pos + fuel -> Forall (literal_ok L) vs ->
  reach (fun ws => ws <> [] /\ Forall (literal_ok L) ws) (S pos)
    (parseValues tokens fuel vs pos).
Proof.
  revert vs pos. induction fuel as [|fuel IH]; intros vs pos Hpos Hf Hvs; [lia|].
  cbn [parseValues]. call. intros l p1 Hl Hp1.
  assert (Forall (literal_ok L) (vs ++ [l])) as Hvl by (apply Forall_app; by rewrite Forall_singleton).
  apply peek_at; [lia|]. intros u Hu _. case_bool_decide as E.
  - call. intros _ p2 _ Hp2. eapply reach_weaken; [apply IH; [lia|lia|done]|done|lia].
  - apply reach_done; [|lia]. split; [by destruct vs|done].
Qed.

Lemma parseComparisonOrIn_at h pos :
  pos < length tokens -> 0 < h -> reach (tree L h) (S pos) (parseComparisonOrIn tokens pos).
Proof.
  intros Hpos Hh. unfold parseComparisonOrIn. apply peek_at; [done|]. intros start _ Hp.
  call. intros [fn f] p1 Hf Hp1. apply keyword_at; [lia|]. intros b t Ht Htp Hb.
  destruct b.
  - specialize (Hb eq_refl). call. intros _ p2 _ Hp2. call. intros _ p3 _ Hp3.
    eapply reach_bind; [apply parseValues_at; [lia|lia|constructor]|]. intros vs p4 [Hv Hvs] Hp4.
    call. intros _ p5 _ Hp5. apply reach_done; [by constructor|lia].
  - call. intros op p2 Hop Hp2. call. intros l p3 Hl Hp3.
    apply reach_done; [by constructor|lia].
Qed.

Section Keyword.
Variables (pos h : nat) (t : Token).
Hypotheses (Ht : tokens !! pos = Some t) (Hk : TKind t <> TokenEOF) (Htp : TPos t <= L)
  (Hh : 0 < h).

(** The forms [keyword ( ... )], [t] being the keyword. *)

Lemma parseRange_at : reach (tree L h) (S pos) (parseRange tokens pos).
Proof using All.
  unfold parseRange. call. intros kw p1 [-> _] Hp1. call. intros _ p2 _ Hp2.
  call. intros [fn f] p3 Hf Hp3. call. intros _ p4 _ Hp4. call. intros lo p5 Hlo Hp5.
  call. intros _ p6 _ Hp6. call. intros hi p7 Hhi Hp7. call. intros _ p8 _ Hp8.
  apply reach_done; [by constructor|lia].
Qed.

Lemma parseHas_at : reach (tree L h) (S pos) (parseHas tokens pos).
Proof using All.
  unfold parseHas. call. intros kw p1 [-> _] Hp1. call. intros _ p2 _ Hp2.
  call. intros f p3 Hf Hp3. call. intros _ p4 _ Hp4. apply reach_done; [by constructor|lia].
Qed.

Lemma parseStringMatch_at kind : reach (tree L h) (S pos) (parseStringMatch tokens kind pos).
Proof using All.
  unfold parseStringMatch. call. intros kw p1 [-> _] Hp1. call. intros _ p2 _ Hp2.
  call. intros f p3 Hf Hp3. call. intros _ p4 _ Hp4. call. intros l p5 Hl Hp5.
  call. intros _ p6 _ Hp6. apply reach_done; [by constructor|lia].
Qed.

Lemma parseMatches_at : reach (tree L h) (S pos) (parseMatches tokens pos).
Proof using All.
  unfold parseMatches. call. intros kw p1 [-> _] Hp1. call. intros _ p2 _ Hp2.
  call. intros q p3 _ Hp3. call. intros _ p4 _ Hp4. apply reach_done; [by constructor|lia].
Qed.

Lemma parseTraversal_at k or_ d :
  k < h -> (forall p, p < length tokens -> reach (tree L k) (S p) (or_ p)) ->
  reach (tree L h) (S pos) (parseTraversal tokens or_ d pos).
Proof using All.
  intros Hkh Hor. unfold parseTraversal. call. intros kw p1 [-> _] Hp1. call. intros _ p2 _ Hp2.
  call. intros rel p3 (Hrk & (_ & _ & Hr) & _) Hp3. call. intros _ p4 _ Hp4.
  call. intros _ p5 _ Hp5.
  eapply reach_bind; [apply Hor; lia|]. intros e p6 He Hp6. call. intros _ p7 _ Hp7.
  apply reach_done; [|lia]. by apply (tree_traversal _ _ k); auto.
Qed.

End Keyword.

Lemma parsePrimary_at k h or_ pos :
  k < h -> (forall p, p < length tokens -> reach (tree L k) (S p) (or_ p)) ->
  pos < length tokens -> reach (tree L h) (S pos) (parsePrimary tokens or_ pos).
Proof.
  intros Hkh Hor Hpos. unfold parsePrimary. apply peek_at; [done|]. intros t Ht Htp.
  case_bool_decide as E.
  - call. intros _ p1 _ Hp1. eapply reach_bind; [apply Hor; lia|]. intros e p2 He Hp2.
    call. intros _ p3 _ Hp3. apply reach_done; [|lia]. eapply tree_higher; [done|lia].
  - case_bool_decide as Ek; [|done]. simpl.
    assert (TKind t <> TokenEOF) as Hk by congruence.
    destruct (directionOf _); [eapply parseTraversal_at; [done|done|done|lia|exact Hkh|done]|].
    destruct (matchOf _); [eapply parseStringMatch_at; [done|done|done|lia]|].
    case_match; [eapply parseRange_at; [done|done|done|lia]|].
    case_match; [eapply parseHas_at; [done|done|done|lia]|].
    case_match; [eapply parseMatches_at; [done|done|done|lia]|].
    apply parseComparisonOrIn_at; [done|lia].
Qed.

Lemma joinLoop_at word k operand fuel es pos :
  (forall p, p < length tokens -> reach (tree L k) (S p) (operand p)) ->
  pos < length tokens -> length tokens <= pos + fuel -> es <> [] -> Forall (tree L k) es ->
  reach (fun fs => Forall (tree L k) fs /\ exists more, fs = es ++ more) pos
    (joinLoop tokens word operand fuel es pos).
Proof.
  intros Hop. revert es pos. induction fuel as [|fuel IH]; intros es pos Hpos Hf He Hes; [lia|].
  cbn [joinLoop]. apply keyword_at; [done|]. intros b t Ht _ Hb. destruct b.
  - specialize (Hb eq_refl). call. intros _ p1 _ Hp1.
    eapply reach_bind; [apply Hop; lia|]. intros e p2 He' Hp2.
    eapply reach_weaken; [apply IH; [lia|lia|by destruct es|]| |lia].
    + apply Forall_app. by rewrite Forall_singleton.
    + intros fs (Hfs & more & ->). split; [done|]. exists (e :: more). by rewrite <- app_assoc.
  - apply reach_done; [|lia]. split; [done|]. exists []. by rewrite app_nil_r.
Qed.

Lemma joined_at op word k operand pos :
  (forall p, p < length tokens -> reach (tree L k) (S p) (operand p)) ->
  pos < length tokens -> reach (tree L (S k)) (S pos) (joined tokens op word operand pos).
Proof.
  intros Hop Hpos. unfold joined. eapply reach_bind; [by apply Hop|]. intros e p1 He Hp1.
  eapply reach_bind; [apply joinLoop_at; [exact Hop|lia|lia|done|by apply Forall_singleton]|].
  intros fs p2 (Hfs & more & ->) Hp2. apply reach_done; [|lia].
  destruct more as [|f more]; simpl in *; [eapply tree_higher; [done|lia]|].
  eapply (tree_logical _ _ k); [lia|simpl; lia|done|by eapply tree_position].
Qed.

Lemma tooDeep_at {A} (Q : A -> Prop) s pos : pos < length tokens -> reach Q s (tooDeep tokens pos).
Proof. intros Hpos. unfold tooDeep. by apply peek_at. Qed.

Lemma parseOrWith_at deeper k pos :
  (forall unary, deeper = Some unary ->
    forall p, p < length tokens -> reach (tree L k) (S p) (unary p)) ->
  pos < length tokens -> reach (tree L (k + 2)) (S pos) (parseOrWith tokens deeper pos).
Proof.
  intros Hd Hpos. destruct deeper as [unary|]; [|by apply tooDeep_at].
  replace (k + 2) with (S (S k)) by lia. apply joined_at; [|done].
  intros p Hp. apply joined_at; [by apply Hd|done].
Qed.

Lemma parseUnary_at budget pos :
  pos < length tokens -> reach (tree L (3 * budget + 1)) (S pos) (parseUnary tokens budget pos).
Proof.
  revert pos. induction budget as [|budget IH]; intros pos Hpos;
    cbn [parseUnary]; (apply keyword_at; [done|]); intros b t Ht Htp Hb; destruct b.
  - by apply tooDeep_at.
  - apply (parsePrimary_at 0); [lia| |done]. intros p Hp. by apply tooDeep_at.
  - specialize (Hb eq_refl). call. intros u p1 [-> _] Hp1.
    eapply reach_bind; [apply IH; lia|]. intros e p2 He Hp2.
    apply reach_done; [|lia]. apply (tree_not _ _ (3 * budget + 1)); [lia|done|done].
  - apply (parsePrimary_at (3 * budget + 1 + 2)); [lia| |done]. intros p Hp.
    apply parseOrWith_at; [|done]. by intros unary [= <-].
Qed.

Lemma parseOr_at budget pos :
  pos < length tokens -> reach (tree L (3 * budget)) (S pos) (parseOr tokens budget pos).
Proof.
  intros Hpos. destruct budget as [|budget]; [by apply tooDeep_at|].
  replace (3 * S budget) with (3 * budget + 1 + 2) by lia. apply parseOrWith_at; [|done].
  intros unary [= <-]. apply parseUnary_at.
Qed.

End ParserFacts.

(** [Parse] with its two bounds as variables. *)
Lemma parse_bounded_safe (maxLen depth : nat) input :
  safe (String.length input)
    (fun n => tree (String.length input) (3 * depth) n /\ String.length input <= maxLen)
    (if blank input then Fail 0 "empty query"
     else if maxLen <? String.length input then Fail 0 "query too long"
     else
       let? tokens := lex input in
       let? '(node, pos) := parseOr tokens depth 0 in
       let? t := peek tokens pos in
       if negb (bool_decide (TKind t = TokenEOF)) then Fail (TPos t) "unexpected"
       else Done node).
Proof.
  destruct (blank input); [simpl; lia|].
  destruct (maxLen <? String.length input) eqn:El; [simpl; lia|].
  apply Nat.ltb_ge in El. destruct (lex_exact input) as [Hl Hs].
  destruct (lex input) as [tokens| | |] eqn:E; try done. cbn [obind].
  assert (tokenized (String.length input) tokens) as Ht.
  { eapply covers_tokenized; [by apply Hl|lia]. }
  assert (0 < length tokens) as H0.
  { destruct Ht as (init & p & -> & _). rewrite length_app. simpl. lia. }
  eapply safe_bind; [by apply parseOr_at|]. intros [n pos] [Hn Hpos].
  destruct (token_at _ _ Ht pos) as (t & Hlook & Hp); [lia|].
  unfold peek. rewrite Hlook. simpl. by case_bool_decide.
Qed.

(** [Parse] always returns - it never indexes beyond the token array, never
    loops - and either fails at a position of the input or builds a well-formed
    tree (operators the binder knows, no empty name, list or logical node,
    positions inside the input) whose height is at most three per level of
    [maxParseDepth]. *)
Theorem Parse_safe input :
  safe (String.length input)
    (fun n => tree (String.length input) (3 * maxParseDepth) n /\
      String.length input <= maxQueryLen) (Parse input).
Proof. exact (parse_bounded_safe maxQueryLen maxParseDepth input). Qed.
