(* ===== verification/Delivery.v ===== *)
(** Event delivery: the outbox and its relay ([application/outbox],
    [infrastructure/postgres/outbox.go]), the feed and its retention
    ([application/feed], [feed_store.go]), webhook deliveries and their worker
    ([application/webhook], [webhook_store.go]).

    The tables are one record, [DB].  A store method is a function on it, a
    transaction being one step; rows locked by other transactions, which
    [FOR UPDATE SKIP LOCKED] passes over, are an argument.  The relay and the
    worker are programs ([prog]) over their calls to store, clock and endpoint. *)

From Stdlib Require Import ZArith Lia String Ascii List Permutation.
From stdpp Require Import base tactics list gmap sets strings option decidable.
From S2P Require Import Prelude GoText Ids.

Open Scope Z_scope.
Open Scope go_scope.

(** Durations are nanoseconds. *)
Definition Second : Z := 1000000000.
Definition Minute : Z := 60 * Second.

(** ** Tables *)

(** [events.Envelope].  The payload is the JSON value, whose text the [jsonb]
    column may lay out anew. *)
Record Envelope := mkEnvelope {
  EnvID : ID;
  EnvType : string;
  AggregateType : string;
  AggregateID : string;
  EnvTenantID : TenantID;
  EnvTypeDefinitionID : string;
  EnvEntityID : EntityID;
  EnvActor : string;
  OccurredAt : Z;
  RecordedAt : Z;
  SchemaVersion : Z;
  Payload : string }.

(** [flexitype_event_outbox] *)
Record OutboxRow := mkRow {
  envelope : Envelope;
  feed_seq : option Z;
  dispatched_at : option Z;
  attempts : Z;
  last_error : string;
  claimed_by : option string;
  claimed_at : option Z;
  next_attempt_at : Z;
  parked_at : option Z }.

Definition row_id (r : OutboxRow) : ID := EnvID (envelope r).

Record Subscription := mkSubscription {
  SubID : ID;
  SubTenantID : TenantID;
  SubName : string;
  URL : string;
  Secret : string;
  EventTypes : list string;
  Active : bool;
  SubCreatedAt : Z;
  SubUpdatedAt : Z }.

Inductive Status := StatusPending | StatusInflight | StatusDelivered | StatusDead.

#[export] Instance Status_eq_dec : EqDecision Status.
Proof. solve_decision. Defined.

(** [flexitype_webhook_delivery] *)
Record Delivery := mkDelivery {
  DID : ID;
  SubscriptionID : ID;
  EnvelopeID : ID;
  DTenantID : TenantID;
  DEventType : string;
  FeedSeq : Z;
  DStatus : Status;
  Attempts : Z;
  NextAttemptAt : Z;
  LeaseExpiresAt : option Z;
  LastError : string;
  ResponseCode : Z;
  DCreatedAt : Z;
  DUpdatedAt : Z }.

(** [sequence] is [flexitype_event_feed_seq]'s last value; [cursors] is
    [flexitype_event_cursor]. *)
Record DB := mkDB {
  outbox : gmap ID OutboxRow;
  sequence : Z;
  subscriptions : list Subscription;
  deliveries : list Delivery;
  cursors : gmap (TenantID * string) Z }.

Definition set_outbox (db : DB) (o : gmap ID OutboxRow) : DB :=
  mkDB o (sequence db) (subscriptions db) (deliveries db) (cursors db).

Definition set_deliveries (db : DB) (ds : list Delivery) : DB :=
  mkDB (outbox db) (sequence db) (subscriptions db) ds (cursors db).

(** ** Outbox ([outbox.go]) *)

Definition defaultOutboxMaxAttempts : Z := 25.
Definition defaultOutboxRetryCeiling : Z := 15 * Minute.

(** A row as [INSERT] and the column defaults leave it. *)
Definition newRow (now : Z) (e : Envelope) : OutboxRow :=
  mkRow e None None 0 EmptyString None None now None.

(** [Write]: one statement, so an id already taken fails all of it. *)
Definition Write (now : Z) (envs : list Envelope) (db : DB) : result DB :=
  guard! negb (bool_decide (NoDup (EnvID <$> envs) /\
      Forall (fun e => outbox db !! EnvID e = None) envs))
    else Errorf "write outbox" then
  Ok (set_outbox db (insert_all EnvID (newRow now) envs (outbox db))).

(** The predicate of [Claim]. *)
Definition claimable (now leaseTTL : Z) (r : OutboxRow) : bool :=
  negb (isSome (dispatched_at r)) && negb (isSome (parked_at r)) &&
  (next_attempt_at r <=? now) &&
  match claimed_at r with None => true | Some t => t <? now - leaseTTL end.

Definition by_id (a b : OutboxRow) : bool := (row_id a <=? row_id b)%N.

Definition claim_row (now : Z) (relayID : string) (r : OutboxRow) : OutboxRow :=
  mkRow (envelope r) (feed_seq r) (dispatched_at r) (attempts r) (last_error r)
    (Some relayID) (Some now) (next_attempt_at r) (parked_at r).

(** Updates the rows whose id is listed. *)
Definition update_rows (ids : list ID) (f : OutboxRow -> OutboxRow) (o : gmap ID OutboxRow) :
    gmap ID OutboxRow :=
  (fun r => if bool_decide (row_id r ∈ ids) then f r else r) <$> o.

Definition claimed_rows (limit : nat) (leaseTTL now : Z) (locked : list ID) (db : DB) :
    list OutboxRow :=
  take limit (List.filter (fun r => claimable now leaseTTL r && negb (bool_decide (row_id r ∈ locked)))
    (sort_by by_id (values (outbox db)))).

(** [Claim]; [RETURNING] lists the rows in any order. *)
Definition Claim (relayID : string) (limit : nat) (leaseTTL now : Z) (locked : list ID) (db : DB) :
    DB * list Envelope :=
  let picked := claimed_rows limit leaseTTL now locked db in
  (set_outbox db (update_rows (row_id <$> picked) (claim_row now relayID) (outbox db)),
   envelope <$> picked).

(** [outbox.Result]; [ResErr] is [nil] or an error's text. *)
Record Result := mkResult { ResEnvelopeID : ID; ResErr : option string }.

Section OutboxStore.
Variable maxAttempts retryCeiling : Z.

(** [least(power(4, least(attempts, 10)), ceiling)] seconds. *)
Definition outboxBackoff (attempts : Z) : Z :=
  Z.min (4 ^ Z.min attempts 10 * Second) retryCeiling.

(** Every column of the old row: SQL evaluates the right-hand sides first. *)
Definition fail_row (now : Z) (err : string) (r : OutboxRow) : OutboxRow :=
  mkRow (envelope r) (feed_seq r) (dispatched_at r) (attempts r + 1) err None None
    (now + outboxBackoff (attempts r))
    (if maxAttempts <=? attempts r + 1 then Some now else None).

Definition mark_failure (now : Z) (o : gmap ID OutboxRow) (res : ID * string) :
    gmap ID OutboxRow :=
  match o !! res.1 with
  | Some r => if isSome (dispatched_at r) then o else <[res.1 := fail_row now res.2 r]> o
  | None => o
  end.

(** [matchingSubscription.matches] *)
Definition matches (eventType : string) (s : Subscription) : bool :=
  bool_decide (EventTypes s = []) || bool_decide (eventType ∈ EventTypes s).

(** The subscriptions one expanded row fans out to. *)
Definition subscribers (db : DB) (r : OutboxRow) : list Subscription :=
  List.filter (fun s => Active s && bool_decide (SubTenantID s = EnvTenantID (envelope r)) &&
    matches (EnvType (envelope r)) s) (subscriptions db).

Definition newDelivery (now : Z) (id : ID) (target : OutboxRow * Z * Subscription) : Delivery :=
  let '(r, seq, s) := target in
  mkDelivery id (SubID s) (row_id r) (EnvTenantID (envelope r)) (EnvType (envelope r)) seq
    StatusPending 0 now None EmptyString 0 now now.

Definition dispatch_row (now : Z) (seq : Z) (r : OutboxRow) : OutboxRow :=
  mkRow (envelope r) (Some seq) (Some now) (attempts r + 1) (last_error r) (claimed_by r)
    (claimed_at r) (next_attempt_at r) (parked_at r).

(** The rows [expand] reads back, in id order. *)
Definition pending_rows (done : list ID) (db : DB) : list OutboxRow :=
  sort_by by_id (List.filter (fun r => bool_decide (row_id r ∈ done) &&
    negb (isSome (dispatched_at r))) (values (outbox db))).

Definition numbered (done : list ID) (db : DB) : list (OutboxRow * Z) :=
  imap (fun i r => (r, sequence db + 1 + Z.of_nat i)) (pending_rows done db).

Definition fanout (done : list ID) (db : DB) : list (OutboxRow * Z * Subscription) :=
  flat_map (fun '(r, seq) => (fun s => (r, seq, s)) <$> subscribers db r) (numbered done db).

(** [expand]; [fresh] are the ULIDs drawn for the delivery rows. *)
Definition expand (now : Z) (fresh : nat -> ID) (done : list ID) (db : DB) : DB :=
  mkDB
    (insert_all (fun p => row_id p.1) (fun p => dispatch_row now p.2 p.1)
       (numbered done db) (outbox db))
    (sequence db + Z.of_nat (length (numbered done db)))
    (subscriptions db)
    (deliveries db ++ imap (fun i t => newDelivery now (fresh i) t) (fanout done db))
    (cursors db).

Definition dones (results : list Result) : list ID :=
  omap (fun r => match ResErr r with None => Some (ResEnvelopeID r) | Some _ => None end) results.

Definition failures (results : list Result) : list (ID * string) :=
  omap (fun r => match ResErr r with None => None | Some e => Some (ResEnvelopeID r, e) end) results.

(** [Finalize]: one transaction under the advisory lock. *)
Definition Finalize (now : Z) (fresh : nat -> ID) (results : list Result) (db : DB) : DB :=
  if bool_decide (results = []) then db
  else
    let db := if bool_decide (dones results = []) then db else expand now fresh (dones results) db in
    set_outbox db (fold_left (mark_failure now) (failures results) (outbox db)).

End OutboxStore.

(** [outbox.ParkedFilter]; empty fields do not constrain. *)
Record ParkedFilter := mkParkedFilter {
  PFTenantID : TenantID; PFEventType : string; PFID : option ID }.

Definition parkedWhere (f : ParkedFilter) (r : OutboxRow) : bool :=
  bool_decide (EnvTenantID (envelope r) = PFTenantID f) && isSome (parked_at r) &&
  (str_IsZero (PFEventType f) || bool_decide (EnvType (envelope r) = PFEventType f)) &&
  match PFID f with None => true | Some i => bool_decide (row_id r = i) end.

Definition redrive_row (now : Z) (r : OutboxRow) : OutboxRow :=
  mkRow (envelope r) (feed_seq r) (dispatched_at r) 0 (last_error r) None None now None.

(** [outboxStore.Redrive]: the table and how many rows it moved. *)
Definition Redrive (now : Z) (f : ParkedFilter) (db : DB) : DB * nat :=
  let moved r := parkedWhere f r && negb (isSome (dispatched_at r)) in
  (set_outbox db ((fun r => if moved r then redrive_row now r else r) <$> outbox db),
   length (List.filter moved (values (outbox db)))).

(** ** Feed ([feed_store.go], [feed.go]) *)

Record Event := mkEvent { Seq : Z; EventEnvelope : Envelope }.

(** The rows with a sequence number, as events. *)
Definition events (o : gmap ID OutboxRow) : list Event :=
  omap (fun r => (fun q => mkEvent q (envelope r)) <$> feed_seq r) (values o).

Definition by_seq (a b : Event) : bool := Seq a <=? Seq b.

Definition feed_match (tenant : TenantID) (after : Z) (types : list string) (e : Event) : bool :=
  bool_decide (EnvTenantID (EventEnvelope e) = tenant) && (after <? Seq e) &&
  (bool_decide (types = []) || bool_decide (EnvType (EventEnvelope e) ∈ types)).

(** [feedStore.List] *)
Definition FeedList (tenant : TenantID) (after : Z) (types : list string) (limit : nat) (db : DB) :
    list Event :=
  take limit (sort_by by_seq (List.filter (feed_match tenant after types) (events (outbox db)))).

(** [feedStore.Floor]: the smallest retained number, 0 when there is none. *)
Definition Floor (tenant : TenantID) (db : DB) : Z :=
  match Seq <$> sort_by by_seq
    (List.filter (fun e => bool_decide (EnvTenantID (EventEnvelope e) = tenant)) (events (outbox db)))
  with [] => 0 | q :: _ => q end.

Record ListOutput := mkListOutput { Items : list Event; NextCursor : Z }.

Definition ErrGone : Error := Errorf "feed: cursor older than retention; re-baseline required".

(** [Interactor.List] with no field resolver: [redact] then returns the page. *)
Definition FeedPage (tenant : TenantID) (after : Z) (types : list string) (limit : Z) (db : DB) :
    result ListOutput :=
  guard! after <? 0 else NewValidation "after must not be negative" then
  let limit := if (limit <=? 0) || (500 <? limit) then 100 else limit in
  let floor := Floor tenant db in
  guard! (0 <? after) && (0 <? floor) && (after <? floor - 1) else ErrGone then
  let items := FeedList tenant after types (Z.to_nat limit) db in
  Ok (mkListOutput items (match list.last items with Some e => Seq e | None => after end)).

(** [^[a-z][a-z0-9_-]{1,63}$] *)
Definition consumerPattern (s : string) : bool :=
  match s with
  | EmptyString => false
  | String c rest =>
      is_lower c &&
      all_bytes (fun d => is_lower d || IsDigit d ||
        bool_decide (d = "_"%char) || bool_decide (d = "-"%char)) rest &&
      (1 <=? String.length rest)%nat && (String.length rest <=? 63)%nat
  end.

Definition ErrCursorConflict : Error := Errorf "feed: cursor position changed since read".

(** [cursorStore.Get] *)
Definition CursorGet (tenant : TenantID) (consumer : string) (db : DB) : Z :=
  default 0 (cursors db !! (tenant, consumer)).

(** [cursorStore.Commit] *)
Definition CursorCommit (tenant : TenantID) (consumer : string) (position expected : Z) (db : DB) :
    DB * result unit :=
  let written := mkDB (outbox db) (sequence db) (subscriptions db) (deliveries db)
    (<[(tenant, consumer) := position]> (cursors db)) in
  match cursors db !! (tenant, consumer) with
  | None => if expected =? 0 then (written, Ok tt) else (db, Err ErrCursorConflict)
  | Some stored => if stored =? expected then (written, Ok tt) else (db, Err ErrCursorConflict)
  end.

(** [Interactor.CommitCursor] *)
Definition CommitCursor (tenant : TenantID) (consumer : string) (position expected : Z) (db : DB) :
    DB * result unit :=
  if negb (consumerPattern consumer) then
    (db, Err (NewValidation "consumer name must be lowercase alphanumeric with _ or -, 2-64 chars"))
  else if (position <? 0) || (expected <? 0) then
    (db, Err (NewValidation "cursor positions must not be negative"))
  else if position <? expected then
    (db, Err (NewValidation "cursor cannot move backwards"))
  else CursorCommit tenant consumer position expected db.

(** *** Retention: one bounded statement of each pruner *)

Definition pruneBatch : nat := 5000.

(** Deleting envelopes deletes their deliveries: [ON DELETE CASCADE]. *)
Definition delete_rows (ids : list ID) (db : DB) : DB :=
  mkDB (filter (fun p => row_id p.2 ∉ ids) (outbox db)) (sequence db) (subscriptions db)
    (List.filter (fun d => negb (bool_decide (EnvelopeID d ∈ ids))) (deliveries db)) (cursors db).

Definition by_recorded (a b : OutboxRow) : bool :=
  RecordedAt (envelope a) <=? RecordedAt (envelope b).

(** A delivery that has not settled: it keeps its envelope. *)
Definition unsettled (db : DB) (r : OutboxRow) : bool :=
  existsb (fun d => bool_decide (EnvelopeID d = row_id r) &&
    negb (bool_decide (DStatus d = StatusDelivered))) (deliveries db).

Definition prunable (cutoff : Z) (db : DB) (r : OutboxRow) : bool :=
  isSome (feed_seq r) && (RecordedAt (envelope r) <? cutoff) && negb (unsettled db r).

Definition Prune_batch (cutoff : Z) (db : DB) : DB * nat :=
  let rows := take pruneBatch
    (sort_by by_recorded (List.filter (prunable cutoff db) (values (outbox db)))) in
  (delete_rows (row_id <$> rows) db, length rows).

Definition parked_before (cutoff : Z) (r : OutboxRow) : bool :=
  match parked_at r with Some t => t <? cutoff | None => false end.

Definition PruneParked_batch (cutoff : Z) (db : DB) : DB * nat :=
  let rows := take pruneBatch
    (sort_by by_id (List.filter (parked_before cutoff) (values (outbox db)))) in
  (delete_rows (row_id <$> rows) db, length rows).

Definition by_updated (a b : Delivery) : bool := DUpdatedAt a <=? DUpdatedAt b.

Definition active (db : DB) (sub : ID) : bool :=
  existsb (fun s => bool_decide (SubID s = sub) && Active s) (subscriptions db).

Definition set_status (now : Z) (st : Status) (d : Delivery) : Delivery :=
  mkDelivery (DID d) (SubscriptionID d) (EnvelopeID d) (DTenantID d) (DEventType d) (FeedSeq d)
    st (Attempts d) (NextAttemptAt d) (LeaseExpiresAt d) (LastError d) (ResponseCode d)
    (DCreatedAt d) now.

(** Updates the deliveries whose id is listed. *)
Definition update_deliveries (ids : list ID) (f : Delivery -> Delivery) (ds : list Delivery) :
    list Delivery :=
  (fun d => if bool_decide (DID d ∈ ids) then f d else d) <$> ds.

Definition stranded (cutoff : Z) (db : DB) (d : Delivery) : bool :=
  bool_decide (DStatus d = StatusPending) && (DUpdatedAt d <? cutoff) &&
  negb (active db (SubscriptionID d)).

Definition DeadLetterStranded_batch (now cutoff : Z) (db : DB) : DB * nat :=
  let ds := take pruneBatch (sort_by by_updated (List.filter (stranded cutoff db) (deliveries db))) in
  (set_deliveries db (update_deliveries (DID <$> ds) (set_status now StatusDead) (deliveries db)),
   length ds).

Definition dead_before (cutoff : Z) (d : Delivery) : bool :=
  bool_decide (DStatus d = StatusDead) && (DUpdatedAt d <? cutoff).

Definition PruneDeadLetters_batch (cutoff : Z) (db : DB) : DB * nat :=
  let ds := take pruneBatch (sort_by by_updated (List.filter (dead_before cutoff) (deliveries db))) in
  (set_deliveries db
     (List.filter (fun d => negb (bool_decide (DID d ∈ DID <$> ds))) (deliveries db)),
   length ds).

(** ** Webhook deliveries ([webhook_store.go]) *)

Definition by_feed (a b : Delivery) : bool := FeedSeq a <=? FeedSeq b.

(** No other pending delivery of the subscription precedes it. *)
Definition oldest_pending (ds : list Delivery) (d : Delivery) : bool :=
  forallb (fun e => negb (bool_decide (SubscriptionID e = SubscriptionID d) &&
    bool_decide (DStatus e = StatusPending)) || (FeedSeq d <=? FeedSeq e)) ds.

Definition has_inflight (ds : list Delivery) (sub : ID) : bool :=
  existsb (fun e => bool_decide (SubscriptionID e = sub) &&
    bool_decide (DStatus e = StatusInflight)) ds.

(** The predicate of [ClaimDue]. *)
Definition due_delivery (now : Z) (db : DB) (d : Delivery) : bool :=
  bool_decide (DStatus d = StatusPending) && (NextAttemptAt d <=? now) &&
  active db (SubscriptionID d) && negb (has_inflight (deliveries db) (SubscriptionID d)) &&
  oldest_pending (deliveries db) d.

Definition claim_delivery (now leaseFor : Z) (d : Delivery) : Delivery :=
  mkDelivery (DID d) (SubscriptionID d) (EnvelopeID d) (DTenantID d) (DEventType d) (FeedSeq d)
    StatusInflight (Attempts d) (NextAttemptAt d) (Some (now + leaseFor)) (LastError d)
    (ResponseCode d) (DCreatedAt d) now.

(** [ClaimedDelivery], the joined envelope and endpoint by reference. *)
Record ClaimedDelivery := mkClaimed { Claimed : Delivery; ClaimLease : Z }.

Definition due_deliveries (limit : nat) (now : Z) (locked : list ID) (db : DB) : list Delivery :=
  take limit (sort_by by_feed
    (List.filter (fun d => due_delivery now db d && negb (bool_decide (DID d ∈ locked)))
       (deliveries db))).

Definition ClaimDue (limit : nat) (leaseFor now : Z) (locked : list ID) (db : DB) :
    DB * list ClaimedDelivery :=
  let ds := due_deliveries limit now locked db in
  (set_deliveries db (update_deliveries (DID <$> ds) (claim_delivery now leaseFor) (deliveries db)),
   (fun d => mkClaimed (claim_delivery now leaseFor d) (now + leaseFor)) <$> ds).

Record Outcome := mkOutcome {
  OutDeliveryID : ID;
  OutLease : Z;
  Delivered : bool;
  OutResponseCode : Z;
  OutErr : string;
  OutNextAttemptAt : Z;
  Dead : bool }.

(** The row still inflight under the lease of the outcome. *)
Definition owned (o : Outcome) (d : Delivery) : bool :=
  bool_decide (DID d = OutDeliveryID o) && bool_decide (DStatus d = StatusInflight) &&
  bool_decide (LeaseExpiresAt d = Some (OutLease o)).

Definition record_delivery (now : Z) (o : Outcome) (d : Delivery) : Delivery :=
  mkDelivery (DID d) (SubscriptionID d) (EnvelopeID d) (DTenantID d) (DEventType d) (FeedSeq d)
    (if Delivered o then StatusDelivered else if Dead o then StatusDead else StatusPending)
    (Attempts d + 1)
    (if Delivered o || Dead o then NextAttemptAt d else OutNextAttemptAt o)
    None
    (if Delivered o then EmptyString else OutErr o)
    (OutResponseCode o) (DCreatedAt d) now.

Definition record_one (now : Z) (o : Outcome) (ds : list Delivery) : list Delivery :=
  (fun d => if owned o d then record_delivery now o d else d) <$> ds.

(** [Record]: the table and how many outcomes found their lease lost. *)
Fixpoint RecordOutcomes (now : Z) (outcomes : list Outcome) (ds : list Delivery) (lost : nat) :
    list Delivery * nat :=
  match outcomes with
  | [] => (ds, lost)
  | o :: outcomes =>
      RecordOutcomes now outcomes (record_one now o ds)
        (if existsb (owned o) ds then lost else S lost)
  end.

Definition expired (now : Z) (d : Delivery) : bool :=
  bool_decide (DStatus d = StatusInflight) &&
  match LeaseExpiresAt d with Some t => t <? now | None => false end.

Definition requeue (next now : Z) (d : Delivery) : Delivery :=
  mkDelivery (DID d) (SubscriptionID d) (EnvelopeID d) (DTenantID d) (DEventType d) (FeedSeq d)
    StatusPending (Attempts d) next None (LastError d) (ResponseCode d) (DCreatedAt d) now.

Definition ReleaseExpired (now : Z) (db : DB) : DB :=
  set_deliveries db ((fun d => if expired now d then requeue now now d else d) <$> deliveries db).

Definition fresh_budget (next now : Z) (d : Delivery) : Delivery :=
  mkDelivery (DID d) (SubscriptionID d) (EnvelopeID d) (DTenantID d) (DEventType d) (FeedSeq d)
    StatusPending 0 next None EmptyString 0 (DCreatedAt d) now.

Definition queued (d : Delivery) : bool :=
  bool_decide (DStatus d = StatusPending) || bool_decide (DStatus d = StatusInflight).

(** [Redeliver]; the guard inside the [UPDATE] makes it one step. *)
Definition Redeliver (tenant : TenantID) (id : ID) (now : Z) (db : DB) : DB * result unit :=
  let hit d := bool_decide (DTenantID d = tenant) && bool_decide (DID d = id) in
  match List.filter hit (deliveries db) with
  | [] => (db, Err (NewNotFound "webhook_delivery"))
  | d :: _ =>
      if queued d then (db, Err (NewConflict "delivery is already queued"))
      else
        (set_deliveries db
           ((fun d => if hit d && negb (queued d) then fresh_budget now now d else d) <$> deliveries db),
         Ok tt)
  end.

Definition redeliverBatch : nat := 500.

Definition by_delivery_id (a b : Delivery) : bool := (DID a <=? DID b)%N.

(** One statement of [RedeliverMatching]; [ramp] is the offset PostgreSQL's
    [md5] gives a subscription, in seconds below [redeliverRamp]. *)
Definition RedeliverMatching_batch (ramp : ID -> Z) (tenant : TenantID) (sub : ID) (now : Z) (db : DB) :
    DB * nat :=
  let dead d := bool_decide (DTenantID d = tenant) && bool_decide (DStatus d = StatusDead) &&
    (ID_IsZero sub || bool_decide (SubscriptionID d = sub)) in
  let ds := take redeliverBatch (sort_by by_delivery_id (List.filter dead (deliveries db))) in
  (set_deliveries db (update_deliveries (DID <$> ds)
     (fun d => mkDelivery (DID d) (SubscriptionID d) (EnvelopeID d) (DTenantID d) (DEventType d)
        (FeedSeq d) StatusPending 0 (now + ramp (SubscriptionID d) * Second) None (LastError d)
        (ResponseCode d) (DCreatedAt d) now) (deliveries db)),
   length ds).

(** *** Subscriptions *)

Definition SubscriptionCreate (s : Subscription) (db : DB) : result DB :=
  guard! bool_decide (Exists (fun t => SubTenantID t = SubTenantID s /\ SubName t = SubName s)
      (subscriptions db))
    else NewConflict "a subscription with this name already exists" then
  guard! bool_decide (Exists (fun t => SubID t = SubID s) (subscriptions db))
    else NewConflict "a subscription with this id already exists" then
  Ok (mkDB (outbox db) (sequence db) (subscriptions db ++ [s]) (deliveries db) (cursors db)).

Definition SubscriptionUpdate (s : Subscription) (db : DB) : DB :=
  mkDB (outbox db) (sequence db)
    ((fun t => if bool_decide (SubTenantID t = SubTenantID s /\ SubID t = SubID s) then
        mkSubscription (SubID t) (SubTenantID t) (SubName t) (URL s) (Secret s) (EventTypes s)
          (Active s) (SubCreatedAt t) (SubUpdatedAt s) else t) <$> subscriptions db)
    (deliveries db) (cursors db).

(** Deleting a subscription deletes its deliveries. *)
Definition SubscriptionDelete (tenant : TenantID) (id : ID) (db : DB) : DB :=
  if bool_decide (Exists (fun t => SubTenantID t = tenant /\ SubID t = id) (subscriptions db)) then
    mkDB (outbox db) (sequence db)
      (List.filter (fun t => negb (bool_decide (SubTenantID t = tenant /\ SubID t = id)))
         (subscriptions db))
      (List.filter (fun d => negb (bool_decide (SubscriptionID d = id))) (deliveries db)) (cursors db)
  else db.

(** ** Programs: the relay's drain and the worker's pass *)

(** What an endpoint answers to a POST, or why none was made. *)
Inductive Response :=
  | MarshalFailed (e : string)
  | RequestFailed (e : string)
  | NoResponse (e : string)
  | StatusCode (code : Z).

Inductive prog :=
  | Stop
  | CtxErr (k : bool -> prog)
  | Now (k : Z -> prog)
  | StoreClaim (relayID : string) (limit : nat) (leaseTTL : Z)
      (k : result (list Envelope) -> prog)
  | DispatchEnvelopes (env : Envelope) (k : option string -> prog)
  | StoreFinalize (results : list Result) (k : result unit -> prog)
  | AfterExpand (k : prog)
  | StoreReleaseExpired (now : Z) (k : result unit -> prog)
  | StoreClaimDue (limit : nat) (lease now : Z) (k : result (list ClaimedDelivery) -> prog)
  | Post (d : ClaimedDelivery) (k : Response -> prog)
  | Jitter (d : Z) (k : Z -> prog)
  | StoreRecord (now : Z) (outcomes : list Outcome) (k : result unit -> prog)
  | Report (e : Error) (k : prog).

(** [outbox.Relay] *)
Record Relay := mkRelay { relayID : string; batch : nat; leaseTTL : Z }.

Fixpoint dispatchAll (envs : list Envelope) (results : list Result)
    (k : list Result -> prog) : prog :=
  match envs with
  | [] => k results
  | e :: envs =>
      DispatchEnvelopes e (fun err =>
        dispatchAll envs (results ++ [mkResult (EnvID e) err]) k)
  end.

Definition drained (expanded : bool) : prog := if expanded then AfterExpand Stop else Stop.

(** [Relay.drain], cut after [rounds] batches. *)
Fixpoint drain (rounds : nat) (r : Relay) (expanded : bool) : prog :=
  match rounds with
  | O => Stop
  | S rounds =>
      CtxErr (fun cancelled =>
        if cancelled : bool then drained expanded
        else StoreClaim (relayID r) (batch r) (leaseTTL r) (fun res =>
          match res with
          | Err e => Report e (drained expanded)
          | Ok [] => drained expanded
          | Ok envs =>
              dispatchAll envs [] (fun results =>
                StoreFinalize results (fun res =>
                  match res with
                  | Err e => Report e (drained expanded)
                  | Ok _ => if (length envs <? batch r)%nat then drained true else drain rounds r true
                  end))
          end))
  end.

(** *** The worker ([worker.go]) *)

Record Worker := mkWorker { wLease : Z; wBatch : nat; wMaxAttempts : Z }.

Definition backoffCeiling : Z := 15 * Minute.

(** The loop of [Backoff]: [n] is [attempts - 1]. *)
Fixpoint backoffLoop (n : nat) (d : Z) : Z :=
  match n with
  | O => d
  | S n => if d <? backoffCeiling then backoffLoop n (d * 4) else d
  end.

(** [Backoff] before its jitter. *)
Definition Backoff (attempts : Z) : Z :=
  Z.min (backoffLoop (Z.to_nat (attempts - 1)) Second) backoffCeiling.

Definition retryOrDead (w : Worker) (d : ClaimedDelivery) (code : Z) (err : string)
    (k : Outcome -> prog) : prog :=
  let out := mkOutcome (DID (Claimed d)) (ClaimLease d) false code err in
  if wMaxAttempts w <=? Attempts (Claimed d) + 1 then k (out 0 true)
  else
    Now (fun now =>
      Jitter (Backoff (Attempts (Claimed d) + 1)) (fun delay => k (out (now + delay) false))).

Definition deliver (w : Worker) (d : ClaimedDelivery) (k : Outcome -> prog) : prog :=
  Post d (fun response =>
    match response with
    | MarshalFailed e | RequestFailed e =>
        k (mkOutcome (DID (Claimed d)) (ClaimLease d) false 0 e 0 true)
    | NoResponse e => retryOrDead w d 0 e k
    | StatusCode code =>
        if (200 <=? code) && (code <=? 299) then
          k (mkOutcome (DID (Claimed d)) (ClaimLease d) true code EmptyString 0 false)
        else retryOrDead w d code "endpoint returned an error status" k
    end).

(** The deliveries of one batch; they share nothing but the list of results. *)
Fixpoint deliverAll (w : Worker) (ds : list ClaimedDelivery) (outcomes : list Outcome)
    (k : list Outcome -> prog) : prog :=
  match ds with
  | [] => k outcomes
  | d :: ds =>
      Now (fun now =>
        if ClaimLease d <=? now then
          Report (Errorf "lease expired before the attempt started; abandoning to the new owner")
            (deliverAll w ds outcomes k)
        else deliver w d (fun out => deliverAll w ds (outcomes ++ [out]) k))
  end.

(** The loop of [pass], cut after [rounds] batches. *)
Fixpoint passLoop (rounds : nat) (w : Worker) : prog :=
  match rounds with
  | O => Stop
  | S rounds =>
      CtxErr (fun cancelled =>
        if cancelled : bool then Stop
        else Now (fun now => StoreClaimDue (wBatch w) (wLease w) now (fun res =>
          match res with
          | Err e => Report e Stop
          | Ok [] => Stop
          | Ok ds =>
              deliverAll w ds [] (fun outcomes =>
                Now (fun now => StoreRecord now outcomes (fun res =>
                  match res with
                  | Err e => Report e Stop
                  | Ok _ =>
                      CtxErr (fun cancelled => if cancelled : bool then Stop else passLoop rounds w)
                  end)))
          end)))
  end.

Definition pass (rounds : nat) (w : Worker) : prog :=
  Now (fun now => StoreReleaseExpired now (fun res =>
    match res with
    | Err e => Report e Stop
    | Ok _ => passLoop rounds w
    end)).
