(* ===== verification/DeliveryFacts.v ===== *)
(** The delivery system: any number of relays and workers, writers, operators
    and pruners interleaved on the tables of [Delivery].

    [Sys] is the tables, the clock, the programs under way and, as history, the
    envelopes whose external dispatch succeeded.  [sys_step] interleaves store
    calls (each may succeed, fail, or take effect with its answer lost), crashes
    and the operations of others.  [inv] is the invariant of every reachable
    state. *)

From Stdlib Require Import ZArith Lia String Ascii List Permutation.
From stdpp Require Import base tactics list gmap sets strings option decidable.
From S2P Require Import Prelude GoText Ids Delivery.

Open Scope Z_scope.
Open Scope go_scope.

(** ** Deliveries under update *)

(** What no operation changes of a delivery. *)
Definition dkey (d : Delivery) : ID * ID * ID * TenantID * string * Z :=
  (DID d, SubscriptionID d, EnvelopeID d, DTenantID d, DEventType d, FeedSeq d).

Definition pair_of (d : Delivery) : ID * ID := (SubscriptionID d, EnvelopeID d).

Definition one_inflight (ds : list Delivery) : Prop :=
  forall d e, d ∈ ds -> e ∈ ds -> SubscriptionID d = SubscriptionID e ->
    DStatus d = StatusInflight -> DStatus e = StatusInflight -> DID d = DID e.

Definition leased (d : Delivery) : Prop :=
  DStatus d = StatusInflight <-> exists t, LeaseExpiresAt d = Some t.

(** What a row says about the delivery that refers to it. *)
Definition refers (o : gmap ID OutboxRow) (d : Delivery) : Prop :=
  exists r, o !! EnvelopeID d = Some r /\ feed_seq r = Some (FeedSeq d) /\
    DTenantID d = EnvTenantID (envelope r) /\ DEventType d = EnvType (envelope r).

Record deliveries_ok (o : gmap ID OutboxRow) (subs : list Subscription) (ds : list Delivery) :
    Prop := {
  dok_refers : Forall (refers o) ds;
  dok_ids : NoDup (DID <$> ds);
  dok_pairs : NoDup (pair_of <$> ds);
  dok_subs : Forall (fun d => exists s, s ∈ subs /\ SubID s = SubscriptionID d) ds;
  dok_leased : Forall leased ds;
  dok_one : one_inflight ds }.

Lemma refers_key o d e : dkey d = dkey e -> refers o d -> refers o e.
Proof. unfold dkey. intros [= _ _ E1 E2 E3 E4] (r & H). exists r. by rewrite <- E1, <- E2, <- E3, <- E4. Qed.

Lemma elem_by_key {A B} (key : A -> B) l x y :
  NoDup (key <$> l) -> x ∈ l -> y ∈ l -> key x = key y -> x = y.
Proof.
  intros Hnd [i Hi]%list_elem_of_lookup [j Hj]%list_elem_of_lookup E.
  assert (i = j) as ->; [|congruence].
  eapply (NoDup_lookup _ _ _ (key x) Hnd); rewrite list_lookup_fmap;
    [by rewrite Hi|by rewrite Hj, E].
Qed.

(** An update that keeps keys. *)
Lemma deliveries_rekey o subs ds (f : Delivery -> Delivery) :
  deliveries_ok o subs ds ->
  (forall d, d ∈ ds -> dkey (f d) = dkey d) ->
  (forall d, d ∈ ds -> leased d -> leased (f d)) ->
  one_inflight (f <$> ds) ->
  deliveries_ok o subs (f <$> ds).
Proof.
  intros [H1 H2 H3 H4 H5 H6] Hk Hl Hi.
  assert (DID <$> (f <$> ds) = DID <$> ds) as E1.
  { rewrite <- list_fmap_compose. apply list_fmap_ext. intros i d Hd.
    apply list_elem_of_lookup_2, Hk in Hd. unfold dkey in Hd. simpl. congruence. }
  assert (pair_of <$> (f <$> ds) = pair_of <$> ds) as E2.
  { rewrite <- list_fmap_compose. apply list_fmap_ext. intros i d Hd.
    apply list_elem_of_lookup_2, Hk in Hd. unfold dkey, pair_of in *. simpl. congruence. }
  rewrite list.Forall_forall in H1, H4, H5.
  split; [|by rewrite E1|by rewrite E2| | |done];
    apply Forall_fmap, list.Forall_forall; intros d Hd; simpl.
  - eapply refers_key; [symmetry; by apply Hk|by apply H1].
  - destruct (H4 d Hd) as (s & Hs & E). exists s. split; [done|].
    specialize (Hk d Hd). unfold dkey in Hk. congruence.
  - by apply Hl, H5.
Qed.

(** An update that keeps keys and puts nothing in flight. *)
Lemma deliveries_update o subs ds (f : Delivery -> Delivery) :
  deliveries_ok o subs ds ->
  (forall d, d ∈ ds -> dkey (f d) = dkey d) ->
  (forall d, d ∈ ds -> leased d -> leased (f d)) ->
  (forall d, d ∈ ds -> DStatus (f d) = StatusInflight -> DStatus d = StatusInflight) ->
  deliveries_ok o subs (f <$> ds).
Proof.
  intros Hds Hk Hl Hi. apply deliveries_rekey; [done|done|done|].
  intros d e (d' & -> & Hd)%list_elem_of_fmap (e' & -> & He)%list_elem_of_fmap Es Sd Se.
  pose proof (Hk d' Hd) as Kd. pose proof (Hk e' He) as Ke. unfold dkey in Kd, Ke.
  assert (DID d' = DID e') as E by (apply (dok_one _ _ _ Hds); auto; congruence). congruence.
Qed.

Lemma deliveries_filter o subs ds (p : Delivery -> bool) :
  deliveries_ok o subs ds -> deliveries_ok o subs (List.filter p ds).
Proof.
  intros [H1 H2 H3 H4 H5 H6].
  assert (forall P : Delivery -> Prop, Forall P ds -> Forall P (List.filter p ds)) as HF.
  { intros P HP. rewrite list.Forall_forall in *. intros d Hd.
    apply elem_of_filter_b in Hd as [Hd _]. by apply HP. }
  split; [by apply HF|by apply filter_fmap_NoDup|by apply filter_fmap_NoDup|by apply HF|by apply HF|].
  intros d e [Hd _]%elem_of_filter_b [He _]%elem_of_filter_b. by apply H6.
Qed.

(** The rows may change as long as every delivery keeps what it refers to. *)
Lemma deliveries_rows o o' subs ds :
  deliveries_ok o subs ds -> (forall d, d ∈ ds -> refers o d -> refers o' d) ->
  deliveries_ok o' subs ds.
Proof.
  intros [H1 H2 H3 H4 H5 H6] Hr. split; try done.
  rewrite list.Forall_forall in *. auto.
Qed.

(** ** Rows *)

Section Rows.
Variables maxAttempts retryCeiling : Z.
Hypothesis Hmax : 0 < maxAttempts.
Hypothesis Hceil : 0 < retryCeiling.

Record row_ok (now : Z) (pub : list ID) (seq : Z) (i : ID) (r : OutboxRow) : Prop := {
  rok_id : row_id r = i;
  rok_dispatched : feed_seq r = None <-> dispatched_at r = None;
  rok_seq : forall q, feed_seq r = Some q -> 1 <= q <= seq /\ i ∈ pub;
  rok_attempts : 0 <= attempts r;
  rok_next : next_attempt_at r <= now + retryCeiling;
  rok_claimed : forall t, claimed_at r = Some t -> t <= now;
  rok_parked : forall t, parked_at r = Some t -> t <= now /\ maxAttempts <= attempts r;
  rok_budget : dispatched_at r = None -> parked_at r = None -> attempts r < maxAttempts }.

Definition seqs_unique (o : gmap ID OutboxRow) : Prop :=
  forall i j r r' q, o !! i = Some r -> o !! j = Some r' ->
    feed_seq r = Some q -> feed_seq r' = Some q -> i = j.

Record db_ok (now : Z) (pub : list ID) (db : DB) : Prop := {
  ok_rows : map_Forall (row_ok now pub (sequence db)) (outbox db);
  ok_unique : seqs_unique (outbox db);
  ok_deliveries : deliveries_ok (outbox db) (subscriptions db) (deliveries db);
  ok_subs : NoDup (SubID <$> subscriptions db);
  ok_sequence : 0 <= sequence db }.

Lemma row_ok_later now now' pub pub' seq seq' i r :
  now <= now' -> pub ⊆ pub' -> seq <= seq' ->
  row_ok now pub seq i r -> row_ok now' pub' seq' i r.
Proof.
  intros Hn Hp Hs [H1 H2 H3 H4 H5 H6 H7 H8]. split; try done; try lia.
  - intros q Hq. destruct (H3 q Hq). split; [lia|auto].
  - intros t Ht. specialize (H6 t Ht). lia.
  - intros t Ht. specialize (H7 t Ht). lia.
Qed.

Lemma db_ok_later now now' pub pub' db :
  now <= now' -> pub ⊆ pub' -> db_ok now pub db -> db_ok now' pub' db.
Proof.
  intros Hn Hp [H1 H2 H3 H4 H5]. split; try done.
  intros i r Hr. eapply row_ok_later; [done|done|reflexivity|by apply H1].
Qed.

(** An update that leaves what was dispatched alone. *)
Definition quiet (r r' : OutboxRow) : Prop :=
  envelope r' = envelope r /\ feed_seq r' = feed_seq r /\ dispatched_at r' = dispatched_at r.

Lemma rows_update now pub db (o : gmap ID OutboxRow) :
  db_ok now pub db ->
  (forall i r, o !! i = Some r -> exists r0, outbox db !! i = Some r0 /\ quiet r0 r) ->
  (forall i r0, outbox db !! i = Some r0 -> exists r, o !! i = Some r) ->
  (forall i r, o !! i = Some r -> row_ok now pub (sequence db) i r) ->
  db_ok now pub (set_outbox db o).
Proof.
  intros [H1 H2 H3 H4 H5] Hq Hk Hr. split; [exact Hr| | |done|done].
  - intros i j r r' q Hi Hj Eq Eq'.
    apply Hq in Hi as (r0 & Hi & _ & E & _), Hj as (r0' & Hj & _ & E' & _).
    apply (H2 i j r0 r0' q Hi Hj); congruence.
  - eapply deliveries_rows; [exact H3|]. intros d _ (r0 & Hd & Hs & Ht & He).
    destruct (Hk _ _ Hd) as [r Hi]. destruct (Hq _ _ Hi) as (r1 & Hr1 & Ee & Es & _).
    exists r. assert (r1 = r0) as -> by congruence. by rewrite Ee, Es.
Qed.

Lemma rows_fmap now pub db (g : OutboxRow -> OutboxRow) :
  db_ok now pub db -> (forall r, quiet r (g r)) ->
  (forall i r, outbox db !! i = Some r -> row_ok now pub (sequence db) i r ->
     row_ok now pub (sequence db) i (g r)) ->
  db_ok now pub (set_outbox db (g <$> outbox db)).
Proof.
  intros Hok Hq Hr. apply rows_update; [done| | |].
  - intros i r Hi. rewrite lookup_fmap in Hi. apply fmap_Some in Hi as (r0 & Hi & ->). eauto.
  - intros i r Hi. rewrite lookup_fmap, Hi. by eexists.
  - intros i r Hi. rewrite lookup_fmap in Hi. apply fmap_Some in Hi as (r0 & Hi & ->).
    apply Hr; [done|]. by apply (ok_rows _ _ _ Hok).
Qed.

Lemma update_rows_fmap ids f o :
  update_rows ids f o = (fun r => if bool_decide (row_id r ∈ ids) then f r else r) <$> o.
Proof. done. Qed.

Lemma Claim_ok now pub relayID limit leaseTTL locked db :
  db_ok now pub db -> db_ok now pub (Claim relayID limit leaseTTL now locked db).1.
Proof.
  intros Hok. apply rows_fmap; [done| |].
  - intros r. by case_bool_decide.
  - intros i r Hr [H1 H2 H3 H4 H5 H6 H7 H8]. case_bool_decide; [|done].
    split; try done. simpl. intros t [= <-]. lia.
Qed.

Lemma Redrive_ok now pub f db : db_ok now pub db -> db_ok now pub (Redrive now f db).1.
Proof.
  intros Hok. apply rows_fmap; [done| |].
  - intros r. by case_match.
  - intros i r Hr [H1 H2 H3 H4 H5 H6 H7 H8]. case_match; [|done]. split; simpl; try done; lia.
Qed.

Lemma outboxBackoff_range n : 0 <= n -> 0 < outboxBackoff retryCeiling n <= retryCeiling.
Proof.
  intros Hn. unfold outboxBackoff, Second.
  assert (0 < 4 ^ Z.min n 10) by (apply Z.pow_pos_nonneg; lia). lia.
Qed.

Lemma mark_failure_ok now pub db res :
  db_ok now pub db ->
  db_ok now pub (set_outbox db (mark_failure maxAttempts retryCeiling now (outbox db) res)).
Proof.
  intros Hok. unfold mark_failure.
  destruct (outbox db !! res.1) as [r0|] eqn:E; [|by destruct db].
  destruct (isSome (dispatched_at r0)) eqn:Ed; [by destruct db|].
  apply rows_update; [done| | |].
  - intros i r. destruct (decide (i = res.1)) as [->|Hne].
    + rewrite lookup_insert_eq. intros [= <-]. by exists r0.
    + rewrite lookup_insert_ne by done. intros Hr. by exists r.
  - intros i r Hr. destruct (decide (i = res.1)) as [->|Hne].
    + rewrite lookup_insert_eq. by eexists.
    + rewrite lookup_insert_ne by done. by eexists.
  - intros i r. destruct (decide (i = res.1)) as [->|Hne].
    + rewrite lookup_insert_eq. intros [= <-].
      destruct (ok_rows _ _ _ Hok _ _ E) as [H1 H2 H3 H4 H5 H6 H7 H8].
      pose proof (outboxBackoff_range (attempts r0) H4).
      split; simpl; try done; try lia;
        destruct (maxAttempts <=? attempts r0 + 1) eqn:El; try done.
      * apply Z.leb_le in El. intros t [= <-]. lia.
      * apply Z.leb_gt in El. lia.
    + rewrite lookup_insert_ne by done. apply (ok_rows _ _ _ Hok).
Qed.

Lemma failures_ok now pub rs db :
  db_ok now pub db ->
  db_ok now pub (set_outbox db (fold_left (mark_failure maxAttempts retryCeiling now) rs (outbox db))).
Proof.
  revert db. induction rs as [|res rs IH]; intros db Hok; [by destruct db|].
  exact (IH _ (mark_failure_ok now pub db res Hok)).
Qed.
End Rows.

(** ** Expansion *)

Section Expand.
Variables maxAttempts retryCeiling : Z.
Variables (now : Z) (pub : list ID) (db : DB).
Hypothesis Hok : db_ok maxAttempts retryCeiling now pub db.

Lemma row_key i r : outbox db !! i = Some r -> row_id r = i.
Proof using Hok. intros Hr. exact (rok_id _ _ _ _ _ _ _ (ok_rows _ _ _ _ _ Hok i r Hr)). Qed.

Lemma pending_rows_elem done r :
  r ∈ pending_rows done db <->
  outbox db !! row_id r = Some r /\ row_id r ∈ done /\ dispatched_at r = None.
Proof using Hok.
  unfold pending_rows. rewrite sort_by_elem, elem_of_filter_b, values_elem, andb_true_iff,
    bool_decide_eq_true, negb_true_iff.
  destruct (dispatched_at r); simpl; split; try naive_solver.
  - intros ([i Hi] & Hd & _). pose proof (row_key i r Hi) as E. subst i. done.
Qed.

Lemma pending_rows_NoDup done : NoDup (row_id <$> pending_rows done db).
Proof using Hok.
  unfold pending_rows. rewrite sort_by_perm. apply filter_fmap_NoDup, values_keys.
  intros i r. apply row_key.
Qed.

Lemma numbered_lookup done k r q :
  numbered done db !! k = Some (r, q) <->
  pending_rows done db !! k = Some r /\ q = sequence db + 1 + Z.of_nat k.
Proof.
  unfold numbered. rewrite list_lookup_imap.
  destruct (pending_rows done db !! k); simpl; naive_solver.
Qed.

Lemma numbered_fst done : (numbered done db).*1 = pending_rows done db.
Proof.
  unfold numbered. rewrite fmap_imap. simpl. apply list_eq. intros i.
  rewrite list_lookup_imap. by destruct (pending_rows done db !! i).
Qed.

Lemma numbered_NoDup done : NoDup ((fun p => row_id p.1) <$> numbered done db).
Proof using Hok.
  change (NoDup (row_id ∘ fst <$> numbered done db)).
  rewrite list_fmap_compose, numbered_fst. apply pending_rows_NoDup.
Qed.

Lemma expand_member fresh done k r :
  pending_rows done db !! k = Some r ->
  outbox (expand now fresh done db) !! row_id r =
    Some (dispatch_row now (sequence db + 1 + Z.of_nat k) r).
Proof using Hok.
  intros Hk. set (q := sequence db + 1 + Z.of_nat k).
  assert (numbered done db !! k = Some (r, q)) as Hn by (by apply numbered_lookup).
  change (row_id r) with ((fun p : OutboxRow * Z => row_id p.1) (r, q)).
  apply (insert_all_member (fun p : OutboxRow * Z => row_id p.1)
    (fun p => dispatch_row now p.2 p.1) _ _ (r, q)).
  - intros p Hp E. rewrite (elem_by_key _ _ p (r, q) (numbered_NoDup done)); [done|done| |done].
    by eapply list_elem_of_lookup_2.
  - by eapply list_elem_of_lookup_2.
Qed.

Lemma expand_other fresh done i :
  (forall r, r ∈ pending_rows done db -> row_id r <> i) ->
  outbox (expand now fresh done db) !! i = outbox db !! i.
Proof.
  intros Hi. apply insert_all_other. intros [r q] Hp. apply Hi.
  rewrite <- numbered_fst. apply list_elem_of_fmap. by exists (r, q).
Qed.

(** What [expand] does to each row. *)
Lemma expand_lookup fresh done i r' :
  outbox (expand now fresh done db) !! i = Some r' ->
  (outbox db !! i = Some r' /\ (i ∈ done -> dispatched_at r' <> None)) \/
  exists k r, pending_rows done db !! k = Some r /\ row_id r = i /\
    r' = dispatch_row now (sequence db + 1 + Z.of_nat k) r.
Proof using Hok.
  intros Hr. destruct (decide (i ∈ row_id <$> pending_rows done db)) as [Hin|Hin].
  - right. apply list_elem_of_fmap in Hin as (r & -> & Hin).
    apply list_elem_of_lookup in Hin as [k Hk]. exists k, r. split; [done|]. split; [done|].
    rewrite (expand_member fresh done k r Hk) in Hr. congruence.
  - left. rewrite expand_other in Hr.
    + split; [done|]. intros Hd Hn. apply Hin, list_elem_of_fmap. exists r'.
      pose proof (row_key i r' Hr) as E. split; [done|]. apply pending_rows_elem. by rewrite E.
    + intros r Hp E. apply Hin, list_elem_of_fmap. by exists r.
Qed.

Lemma expand_keeps fresh done i r :
  outbox db !! i = Some r ->
  exists r', outbox (expand now fresh done db) !! i = Some r' /\ envelope r' = envelope r /\
    (feed_seq r <> None -> r' = r).
Proof using Hok.
  intros Hr. destruct (decide (i ∈ row_id <$> pending_rows done db)) as [Hin|Hin].
  - apply list_elem_of_fmap in Hin as (r0 & -> & Hin).
    apply list_elem_of_lookup in Hin as Hk. destruct Hk as [k Hk].
    apply pending_rows_elem in Hin as (Hr0 & _ & Hn).
    assert (r0 = r) as -> by congruence. eexists. split; [by eapply expand_member|].
    split; [done|]. intros Hs. destruct Hs.
    by apply (rok_dispatched _ _ _ _ _ _ _ (ok_rows _ _ _ _ _ Hok _ _ Hr)).
  - exists r. split; [|done]. rewrite expand_other; [done|].
    intros r0 Hp E. apply Hin, list_elem_of_fmap. by exists r0.
Qed.

Lemma expand_dom fresh done : dom (outbox (expand now fresh done db)) = dom (outbox db).
Proof using Hok.
  apply set_eq. intros i. rewrite !elem_of_dom. split.
  - intros [r' Hr']. destruct (expand_lookup fresh done i r' Hr') as [[Hr _]|(k & r & Hk & <- & _)];
      [by eexists|].
    apply list_elem_of_lookup_2, pending_rows_elem in Hk as (Hr & _). by eexists.
  - intros [r Hr]. destruct (expand_keeps fresh done i r Hr) as (r' & Hr' & _). by eexists.
Qed.

Lemma fanout_elem done r q s :
  (r, q, s) ∈ fanout done db <->
  (r, q) ∈ numbered done db /\ s ∈ subscribers db r.
Proof.
  unfold fanout. rewrite list_elem_of_In, in_flat_map. split.
  - intros ([r0 q0] & Hn & Hs). apply list_elem_of_In in Hn, Hs.
    apply list_elem_of_fmap in Hs as (s0 & [= -> -> ->] & Hs). done.
  - intros [Hn Hs]. exists (r, q). rewrite <- !list_elem_of_In. split; [done|].
    apply list_elem_of_fmap. by exists s.
Qed.

Definition target_pair (t : OutboxRow * Z * Subscription) : ID * ID :=
  (SubID t.2, row_id t.1.1).

Lemma fanout_NoDup done : NoDup (target_pair <$> fanout done db).
Proof using Hok.
  unfold fanout. pose proof (numbered_NoDup done) as Hnd.
  induction (numbered done db) as [|[r q] l IH]; [constructor|].
  rewrite fmap_cons in Hnd. apply list.NoDup_cons in Hnd as [Hx Hnd].
  cbn [flat_map]. rewrite fmap_app. apply list.NoDup_app. split_and!.
  - rewrite <- list_fmap_compose.
    assert (NoDup (SubID <$> subscribers db r)) as Hs.
    { apply filter_fmap_NoDup, (ok_subs _ _ _ _ _ Hok). }
    change (NoDup ((fun i => (i, row_id r)) ∘ SubID <$> subscribers db r)).
    rewrite list_fmap_compose.
    apply NoDup_fmap_2; [intros a b; congruence|done].
  - intros p (t & -> & Ht)%list_elem_of_fmap (t' & E & Ht')%list_elem_of_fmap.
    apply list_elem_of_fmap in Ht as (s & -> & Hs).
    apply list_elem_of_In, in_flat_map in Ht' as ([r' q'] & Hn & Ht').
    apply list_elem_of_In, list_elem_of_fmap in Ht' as (s' & -> & Hs').
    apply Hx, list_elem_of_fmap. exists (r', q'). apply list_elem_of_In in Hn. split; [|done].
    unfold target_pair in E. simpl in *. congruence.
  - by apply IH.
Qed.

(** The identifiers drawn for new deliveries are new and differ. *)
Definition fresh_ids (fresh : nat -> ID) : Prop :=
  (forall i j, fresh i = fresh j -> i = j) /\ forall i, fresh i ∉ DID <$> deliveries db.

Lemma new_deliveries_elem fresh done d :
  d ∈ imap (fun i t => newDelivery now (fresh i) t) (fanout done db) <->
  exists i r q s, fanout done db !! i = Some (r, q, s) /\ d = newDelivery now (fresh i) (r, q, s).
Proof.
  rewrite list_elem_of_lookup. setoid_rewrite list_lookup_imap. split.
  - intros [i Hi]. apply fmap_Some in Hi as ([[r q] s] & Hi & ->). eauto 10.
  - intros (i & r & q & s & Hi & ->). exists i. by rewrite Hi.
Qed.

Lemma new_delivery_refers fresh done d :
  d ∈ imap (fun i t => newDelivery now (fresh i) t) (fanout done db) ->
  refers (outbox (expand now fresh done db)) d /\
  (exists s, s ∈ subscriptions db /\ SubID s = SubscriptionID d) /\
  DStatus d = StatusPending /\ LeaseExpiresAt d = None /\
  exists r, outbox db !! EnvelopeID d = Some r /\ feed_seq r = None.
Proof using Hok.
  intros Hd. apply new_deliveries_elem in Hd as (i & r & q & s & Hi & ->).
  apply list_elem_of_lookup_2, fanout_elem in Hi as [Hn Hs].
  apply list_elem_of_lookup in Hn as [k Hn]. apply numbered_lookup in Hn as [Hk ->].
  apply elem_of_filter_b in Hs as [Hs _]. split_and!; [|by exists s|done|done|].
  - eexists. split; [by apply expand_member|done].
  - apply list_elem_of_lookup_2, pending_rows_elem in Hk as (Hr & _ & Hnd). exists r.
    split; [done|]. by apply (rok_dispatched _ _ _ _ _ _ _ (ok_rows _ _ _ _ _ Hok _ _ Hr)).
Qed.

Lemma expand_deliveries_ok fresh done :
  fresh_ids fresh ->
  deliveries_ok (outbox (expand now fresh done db)) (subscriptions db)
    (deliveries (expand now fresh done db)).
Proof using Hok.
  intros [Hinj Hfr]. pose proof (ok_deliveries _ _ _ _ _ Hok) as [H1 H2 H3 H4 H5 H6].
  cbn [deliveries expand]. set (new := imap _ _).
  assert (forall d, d ∈ new -> _) as Hnew by exact (new_delivery_refers fresh done).
  assert (forall d, d ∈ deliveries db -> exists r, outbox db !! EnvelopeID d = Some r /\
    feed_seq r = Some (FeedSeq d)) as Hold.
  { rewrite list.Forall_forall in H1. intros d Hd. destruct (H1 d Hd) as (r & Hr & Hs & _). eauto. }
  rewrite list.Forall_forall in H1, H4, H5.
  split; try (apply list.Forall_forall; intros d [Hd|Hd]%elem_of_app).
  - destruct (H1 d Hd) as (r & Hr & Hs & Hrest).
    destruct (expand_keeps fresh done _ r Hr) as (r' & Hr' & _ & E).
    rewrite E in Hr' by congruence. by exists r.
  - by apply Hnew.
  - rewrite fmap_app. apply list.NoDup_app. split_and!; [done| |].
    + intros i Hi (d & -> & Hd)%list_elem_of_fmap.
      apply new_deliveries_elem in Hd as (k & r & q & s & _ & ->). by apply (Hfr k).
    + unfold new. rewrite fmap_imap. apply NoDup_alt. intros i j x Hi Hj.
      rewrite !list_lookup_imap in *.
      apply fmap_Some in Hi as ([[??]?] & _ & ->), Hj as ([[??]?] & _ & E). by apply Hinj.
  - rewrite fmap_app. apply list.NoDup_app. split_and!; [done| |].
    + intros p (d & -> & Hd)%list_elem_of_fmap (e & E & He)%list_elem_of_fmap.
      destruct (Hold d Hd) as (r & Hr & Hs), (Hnew e He) as (_ & _ & _ & _ & r' & Hr' & Hs').
      unfold pair_of in E. congruence.
    + assert (pair_of <$> new = target_pair <$> fanout done db) as ->; [|by apply fanout_NoDup].
      unfold new. rewrite fmap_imap. apply list_eq. intros i.
      rewrite list_lookup_imap, list_lookup_fmap.
      by destruct (fanout done db !! i) as [[[r q] s]|].
  - by apply H4.
  - by apply Hnew.
  - by apply H5.
  - destruct (Hnew d Hd) as (_ & _ & E1 & E2 & _). unfold leased. rewrite E1, E2. naive_solver.
  - intros d e [Hd|Hd]%elem_of_app [He|He]%elem_of_app Es Sd Se; [by apply H6| | |];
      exfalso; [apply Hnew in He|apply Hnew in Hd|apply Hnew in Hd]; destruct_and?; congruence.
Qed.

Lemma expand_ok fresh done :
  0 < maxAttempts -> fresh_ids fresh -> (forall i, i ∈ done -> i ∈ pub) ->
  db_ok maxAttempts retryCeiling now pub (expand now fresh done db).
Proof using Hok.
  intros Hmax Hfr Hdone. pose proof (ok_sequence _ _ _ _ _ Hok) as Hseq.
  split; [| |by apply expand_deliveries_ok|exact (ok_subs _ _ _ _ _ Hok)|simpl; lia].
  - intros i r' Hr'. destruct (expand_lookup fresh done i r' Hr') as [[Hr _]|(k & r & Hk & <- & ->)].
    + apply (row_ok_later _ _ now now pub pub (sequence db)); [lia|done|simpl; lia|].
      by apply (ok_rows _ _ _ _ _ Hok).
    + apply lookup_lt_Some in Hk as Hlt. apply list_elem_of_lookup_2, pending_rows_elem in Hk as (Hr & Hin & Hn).
      destruct (ok_rows _ _ _ _ _ Hok _ _ Hr) as [H1 H2 H3 H4 H5 H6 H7 H8].
      assert (length (numbered done db) = length (pending_rows done db)) as El.
      { unfold numbered. apply length_imap. }
      split; simpl; try done.
      * intros q [= <-]. split; [lia|by apply Hdone].
      * lia.
      * intros t Ht. specialize (H7 t Ht). lia.
  - intros i j r r' q Hi Hj Eq Eq'. pose proof (ok_rows _ _ _ _ _ Hok) as Hrows.
    destruct (expand_lookup fresh done i r Hi) as [[Hi' _]|(k & a & Hk & <- & ->)];
    destruct (expand_lookup fresh done j r' Hj) as [[Hj' _]|(k' & b & Hk' & <- & ->)].
    + by eapply (ok_unique _ _ _ _ _ Hok).
    + destruct (rok_seq _ _ _ _ _ _ _ (Hrows _ _ Hi') q Eq). simpl in Eq'. injection Eq' as <-. lia.
    + destruct (rok_seq _ _ _ _ _ _ _ (Hrows _ _ Hj') q Eq'). simpl in Eq. injection Eq as <-. lia.
    + simpl in Eq, Eq'. assert (k = k') as -> by congruence || (injection Eq as <-; injection Eq'; lia).
      congruence.
Qed.

End Expand.

Lemma Finalize_ok maxAttempts retryCeiling now pub db fresh results :
  0 < maxAttempts -> 0 < retryCeiling ->
  db_ok maxAttempts retryCeiling now pub db -> fresh_ids db fresh ->
  (forall i, i ∈ dones results -> i ∈ pub) ->
  db_ok maxAttempts retryCeiling now pub (Finalize maxAttempts retryCeiling now fresh results db).
Proof.
  intros Hmax Hceil Hok Hfr Hd. unfold Finalize. case_bool_decide; [done|].
  apply failures_ok; [done|]. case_bool_decide; [done|]. by apply expand_ok.
Qed.

(** ** The other operations *)

Section Operations.
Variables maxAttempts retryCeiling : Z.
Hypothesis Hmax : 0 < maxAttempts.
Hypothesis Hceil : 0 < retryCeiling.
Variables (now : Z) (pub : list ID) (db : DB).
Hypothesis Hok : db_ok maxAttempts retryCeiling now pub db.

Lemma written_lookup envs i r :
  insert_all EnvID (newRow now) envs (outbox db) !! i = Some r ->
  NoDup (EnvID <$> envs) ->
  outbox db !! i = Some r \/ exists e, e ∈ envs /\ EnvID e = i /\ r = newRow now e.
Proof.
  intros Hr Hnd. destruct (decide (i ∈ EnvID <$> envs)) as [Hin|Hin].
  - right. apply list_elem_of_fmap in Hin as (e & -> & He). exists e. split_and!; [done|done|].
    rewrite (insert_all_member EnvID (newRow now)) in Hr; [congruence| |done].
    intros e' He' E. f_equal. by eapply elem_by_key.
  - left. rewrite insert_all_other in Hr; [done|]. intros e He E.
    apply Hin, list_elem_of_fmap. by exists e.
Qed.

Lemma Write_ok envs db' : Write now envs db = Ok db' -> db_ok maxAttempts retryCeiling now pub db'.
Proof using All.
  unfold Write. case_bool_decide as Hg; [|done]. simpl. intros [= <-]. destruct Hg as [Hnd Hnew].
  destruct Hok as [H1 H2 H3 H4 H5]. split; [| | |done|done].
  - intros i r Hr. apply written_lookup in Hr as [Hr|(e & He & <- & ->)]; [by apply H1| |done].
    split; simpl; try done; lia.
  - intros i j r r' q Hi Hj Eq Eq'.
    apply written_lookup in Hi as [Hi|(e & _ & _ & ->)]; [|done|done].
    apply written_lookup in Hj as [Hj|(e & _ & _ & ->)]; [|done|done]. by eapply H2.
  - eapply deliveries_rows; [exact H3|]. intros d _ (r & Hr & Hrest). exists r. split; [|done].
    simpl. rewrite insert_all_other; [done|]. intros e He E.
    rewrite list.Forall_forall in Hnew. specialize (Hnew e He). congruence.
Qed.

Lemma delete_rows_ok ids : db_ok maxAttempts retryCeiling now pub (delete_rows ids db).
Proof using Hok.
  destruct Hok as [H1 H2 H3 H4 H5]. split; [| | |done|done]; simpl.
  - intros i r [Hr _]%map_lookup_filter_Some. by apply H1.
  - intros i j r r' q [Hi _]%map_lookup_filter_Some [Hj _]%map_lookup_filter_Some. by eapply H2.
  - eapply (deliveries_rows (outbox db)); [by apply deliveries_filter|].
    intros d Hd (r & Hr & Hrest). exists r. split; [|done].
    apply map_lookup_filter_Some. split; [done|]. simpl.
    apply elem_of_filter_b in Hd as [_ Hd]. breflect.
    by rewrite (rok_id _ _ _ _ _ _ _ (H1 _ _ Hr)).
Qed.

Lemma update_ok (f : Delivery -> Delivery) :
  (forall d, d ∈ deliveries db -> dkey (f d) = dkey d) ->
  (forall d, d ∈ deliveries db -> leased d -> leased (f d)) ->
  (forall d, d ∈ deliveries db -> DStatus (f d) = StatusInflight -> DStatus d = StatusInflight) ->
  db_ok maxAttempts retryCeiling now pub (set_deliveries db (f <$> deliveries db)).
Proof using Hok.
  intros Hk Hl Hi. destruct Hok as [H1 H2 H3 H4 H5]. split; try done.
  by apply deliveries_update.
Qed.

Lemma filter_ok (p : Delivery -> bool) :
  db_ok maxAttempts retryCeiling now pub (set_deliveries db (List.filter p (deliveries db))).
Proof using Hok.
  destruct Hok as [H1 H2 H3 H4 H5]. split; try done. by apply deliveries_filter.
Qed.

Lemma stranded_ok cutoff :
  db_ok maxAttempts retryCeiling now pub (DeadLetterStranded_batch now cutoff db).1.
Proof using Hok.
  apply update_ok.
  - intros d Hd. by case_bool_decide.
  - intros d Hd Hl. case_bool_decide as Hin; [|done].
    apply list_elem_of_fmap in Hin as (e & E & He).
    apply list_elem_of_lookup in He as [k Hk]. apply lookup_take_Some in Hk as [Hk _].
    apply list_elem_of_lookup_2, sort_by_elem, elem_of_filter_b in Hk as [He Hs].
    unfold stranded in Hs. breflect.
    assert (d = e) as -> by (eapply elem_by_key; eauto using dok_ids, ok_deliveries).
    unfold leased in *. split; [done|]. intros Hx. apply Hl in Hx. congruence.
  - intros d Hd. case_bool_decide; [done|done].
Qed.

(** *** Claims of deliveries *)

Lemma existsb_false {A} (p : A -> bool) l x : existsb p l = false -> x ∈ l -> p x = false.
Proof.
  intros H Hx. destruct (p x) eqn:E; [|done]. apply list_elem_of_In in Hx.
  assert (existsb p l = true); [apply existsb_exists; eauto|congruence].
Qed.

Lemma due_delivery_true t d :
  due_delivery t db d = true ->
  DStatus d = StatusPending /\ NextAttemptAt d <= t /\ active db (SubscriptionID d) = true /\
  (forall e, e ∈ deliveries db -> SubscriptionID e = SubscriptionID d -> DStatus e <> StatusInflight) /\
  (forall e, e ∈ deliveries db -> SubscriptionID e = SubscriptionID d ->
     DStatus e = StatusPending -> FeedSeq d <= FeedSeq e).
Proof.
  unfold due_delivery. rewrite !andb_true_iff, bool_decide_eq_true, negb_true_iff, Z.leb_le.
  intros ((((Hst & Hn) & Ha) & Hi) & Ho). split_and!; [done|done|done| |].
  - intros e He Es Hs. pose proof (existsb_false _ _ e Hi He) as Hf. simpl in Hf.
    rewrite !bool_decide_true in Hf by done. done.
  - intros e He Es Hs. unfold oldest_pending in Ho. rewrite forallb_forall in Ho.
    specialize (Ho e (proj1 (list_elem_of_In _ _) He)). simpl in Ho.
    rewrite !bool_decide_true in Ho by done. simpl in Ho. lia.
Qed.

Lemma due_deliveries_elem limit t locked d :
  d ∈ due_deliveries limit t locked db -> d ∈ deliveries db /\ due_delivery t db d = true.
Proof.
  intros [k Hk]%list_elem_of_lookup. apply lookup_take_Some in Hk as [Hk _].
  apply list_elem_of_lookup_2, sort_by_elem, elem_of_filter_b in Hk as [Hd Hdue].
  by apply andb_true_iff in Hdue as [Hdue _].
Qed.

(** The rows two deliveries of one subscription and number refer to are one. *)
Lemma same_feed d e :
  d ∈ deliveries db -> e ∈ deliveries db -> SubscriptionID d = SubscriptionID e ->
  FeedSeq d = FeedSeq e -> d = e.
Proof using Hok.
  intros Hd He Es Ef. pose proof (ok_deliveries _ _ _ _ _ Hok) as Hds.
  pose proof (dok_refers _ _ _ Hds) as Hr. rewrite list.Forall_forall in Hr.
  destruct (Hr d Hd) as (r & Hrd & Hsd & _), (Hr e He) as (r' & Hre & Hse & _).
  assert (EnvelopeID d = EnvelopeID e) as Ee.
  { eapply (ok_unique _ _ _ _ _ Hok); [exact Hrd|exact Hre|exact Hsd|congruence]. }
  eapply (elem_by_key pair_of); [exact (dok_pairs _ _ _ Hds)|done|done|].
  unfold pair_of. congruence.
Qed.

Lemma ClaimDue_ok limit leaseFor t locked :
  db_ok maxAttempts retryCeiling now pub (ClaimDue limit leaseFor t locked db).1.
Proof using Hok.
  pose proof (ok_deliveries _ _ _ _ _ Hok) as Hds.
  destruct Hok as [H1 H2 H3 H4 H5]. split; try done. simpl.
  set (ids := DID <$> due_deliveries limit t locked db).
  assert (forall d, d ∈ deliveries db -> DID d ∈ ids -> due_delivery t db d = true) as Hin.
  { intros d Hd (e & E & He)%list_elem_of_fmap. apply due_deliveries_elem in He as [He Hdue].
    assert (d = e) as -> by (eapply elem_by_key; eauto using dok_ids). done. }
  apply deliveries_rekey; [done| | |].
  - intros d Hd. by case_bool_decide.
  - intros d Hd Hl. case_bool_decide; [|done]. unfold leased. simpl. naive_solver.
  - intros d e (d' & -> & Hd)%list_elem_of_fmap (e' & -> & He)%list_elem_of_fmap.
    repeat case_bool_decide; simpl; intros Es Sd Se.
    + apply Hin, due_delivery_true in H; [|done]. apply Hin, due_delivery_true in H0; [|done].
      assert (d' = e') as ->; [|done]. apply same_feed; [done..|].
      destruct_and?. assert (FeedSeq d' <= FeedSeq e') by auto.
      assert (FeedSeq e' <= FeedSeq d') by auto. lia.
    + apply Hin, due_delivery_true in H; [|done]. destruct_and?. exfalso. naive_solver.
    + apply Hin, due_delivery_true in H0; [|done]. destruct_and?. exfalso. naive_solver.
    + by apply (dok_one _ _ _ Hds).
Qed.

Lemma ReleaseExpired_ok t : db_ok maxAttempts retryCeiling now pub (ReleaseExpired t db).
Proof using Hok.
  apply update_ok; intros d Hd; case_match; try done.
  intros _. unfold leased. simpl. naive_solver.
Qed.

Lemma Redeliver_ok tenant id t : db_ok maxAttempts retryCeiling now pub (Redeliver tenant id t db).1.
Proof using Hok.
  unfold Redeliver. case_match; [done|]. case_match; [done|].
  apply update_ok; intros e He; case_match; try done.
  intros _. unfold leased. simpl. naive_solver.
Qed.

Lemma RedeliverMatching_ok ramp tenant sub t :
  db_ok maxAttempts retryCeiling now pub (RedeliverMatching_batch ramp tenant sub t db).1.
Proof using Hok.
  apply update_ok; intros e He; case_bool_decide; try done.
  intros _. unfold leased. simpl. naive_solver.
Qed.

End Operations.

Lemma RecordOutcomes_ok maxAttempts retryCeiling now pub t outcomes lost db :
  db_ok maxAttempts retryCeiling now pub db ->
  db_ok maxAttempts retryCeiling now pub
    (set_deliveries db (RecordOutcomes t outcomes (deliveries db) lost).1).
Proof.
  revert db lost. induction outcomes as [|o outcomes IH]; intros db lost Hok; [by destruct db|].
  refine (IH (set_deliveries db (record_one t o (deliveries db))) _ _).
  apply update_ok; [done|..]; intros d Hd; case_match; try done.
  - intros _. unfold leased. simpl. repeat case_match; naive_solver.
  - simpl. by repeat case_match.
Qed.

Section Subscriptions.
Variables maxAttempts retryCeiling : Z.
Variables (now : Z) (pub : list ID) (db : DB).
Hypothesis Hok : db_ok maxAttempts retryCeiling now pub db.

Lemma deliveries_subs o subs subs' ds :
  deliveries_ok o subs ds ->
  (forall d s, d ∈ ds -> s ∈ subs -> SubID s = SubscriptionID d ->
     exists s', s' ∈ subs' /\ SubID s' = SubID s) ->
  deliveries_ok o subs' ds.
Proof.
  intros [H1 H2 H3 H4 H5 H6] Hs. split; try done.
  rewrite list.Forall_forall in *. intros d Hd. destruct (H4 d Hd) as (s & Hin & E).
  destruct (Hs d s Hd Hin E) as (s' & Hin' & E'). exists s'. by rewrite E'.
Qed.

Lemma SubscriptionCreate_ok s db' :
  SubscriptionCreate s db = Ok db' -> db_ok maxAttempts retryCeiling now pub db'.
Proof using Hok.
  unfold SubscriptionCreate. case_bool_decide; [done|]. case_bool_decide as Hid; [done|].
  intros [= <-]. destruct Hok as [H1 H2 H3 H4 H5]. split; [done|done| | |done].
  - eapply deliveries_subs; [exact H3|]. intros d t _ Ht _. exists t.
    split; [|done]. apply elem_of_app. by left.
  - simpl. rewrite fmap_app. apply list.NoDup_app. split_and!; [done| |by apply NoDup_singleton].
    intros i (t & -> & Ht)%list_elem_of_fmap E%list_elem_of_singleton.
    apply Hid, list.Exists_exists. by exists t.
Qed.

Lemma SubscriptionUpdate_ok s : db_ok maxAttempts retryCeiling now pub (SubscriptionUpdate s db).
Proof using Hok.
  destruct Hok as [H1 H2 H3 H4 H5]. split; [done|done| | |done]; simpl.
  - eapply deliveries_subs; [exact H3|]. intros d t _ Ht _. eexists.
    split; [apply list_elem_of_fmap; by exists t|]. by case_bool_decide.
  - rewrite <- list_fmap_compose.
    rewrite (list_fmap_ext _ SubID); [done|]. intros i t _. simpl. by case_bool_decide.
Qed.

Lemma SubscriptionDelete_ok tenant id :
  db_ok maxAttempts retryCeiling now pub (SubscriptionDelete tenant id db).
Proof using Hok.
  unfold SubscriptionDelete. case_bool_decide; [|done].
  destruct Hok as [H1 H2 H3 H4 H5]. split; [done|done| |by apply filter_fmap_NoDup|done].
  eapply deliveries_subs; [by apply deliveries_filter|]. intros d t Hd Ht E. exists t.
  split; [|done]. apply elem_of_filter_b in Hd as [_ Hd]. breflect.
  apply elem_of_filter_b. split; [done|]. apply negb_true_iff, bool_decide_eq_false.
  intros [_ Hid]. congruence.
Qed.
End Subscriptions.

(** ** The system *)

Record Sys := mkSys {
  s_db : DB;
  s_clock : Z;
  s_threads : list prog;
  s_published : list ID }.

(** What a rolled-back [Finalize] leaves: numbers drawn from a sequence are not
    given back. *)
Definition skip_numbers (n : nat) (db : DB) : DB :=
  mkDB (outbox db) (sequence db + Z.of_nat n) (subscriptions db) (deliveries db) (cursors db).

Lemma skip_numbers_ok maxAttempts retryCeiling now pub n db :
  db_ok maxAttempts retryCeiling now pub db ->
  db_ok maxAttempts retryCeiling now pub (skip_numbers n db).
Proof.
  intros [H1 H2 H3 H4 H5]. split; try done; [|simpl; lia].
  intros i r Hr. eapply (row_ok_later _ _ now now pub pub); [lia|done| |exact (H1 i r Hr)]. simpl. lia.
Qed.

(** One call of a program: the tables and the history of published envelopes
    before and after, the program that goes on. *)
Section Calls.
Variables maxAttempts retryCeiling : Z.

Inductive call (db : DB) (now : Z) (pub : list ID) : prog -> DB -> list ID -> prog -> Prop :=
  | call_ctx b k : call db now pub (CtxErr k) db pub (k b)
  | call_now k : call db now pub (Now k) db pub (k now)
  | call_claim relay limit ttl locked envs k :
      Permutation envs (Claim relay limit ttl now locked db).2 ->
      call db now pub (StoreClaim relay limit ttl k)
        (Claim relay limit ttl now locked db).1 pub (k (Ok envs))
  | call_claim_lost relay limit ttl locked e k :
      call db now pub (StoreClaim relay limit ttl k)
        (Claim relay limit ttl now locked db).1 pub (k (Err e))
  | call_claim_fails relay limit ttl e k :
      call db now pub (StoreClaim relay limit ttl k) db pub (k (Err e))
  | call_dispatch env k :
      call db now pub (DispatchEnvelopes env k) db (EnvID env :: pub) (k None)
  | call_dispatch_fails env e k :
      call db now pub (DispatchEnvelopes env k) db pub (k (Some e))
  | call_finalize fresh results k :
      fresh_ids db fresh ->
      call db now pub (StoreFinalize results k)
        (Finalize maxAttempts retryCeiling now fresh results db) pub (k (Ok tt))
  | call_finalize_lost fresh results e k :
      fresh_ids db fresh ->
      call db now pub (StoreFinalize results k)
        (Finalize maxAttempts retryCeiling now fresh results db) pub (k (Err e))
  | call_finalize_fails n results e k :
      call db now pub (StoreFinalize results k) (skip_numbers n db) pub (k (Err e))
  | call_expand_hook k : call db now pub (AfterExpand k) db pub k
  | call_release t k :
      call db now pub (StoreReleaseExpired t k) (ReleaseExpired t db) pub (k (Ok tt))
  | call_release_lost t e k :
      call db now pub (StoreReleaseExpired t k) (ReleaseExpired t db) pub (k (Err e))
  | call_release_fails t e k : call db now pub (StoreReleaseExpired t k) db pub (k (Err e))
  | call_due limit lease t locked k :
      call db now pub (StoreClaimDue limit lease t k) (ClaimDue limit lease t locked db).1 pub
        (k (Ok (ClaimDue limit lease t locked db).2))
  | call_due_lost limit lease t locked e k :
      call db now pub (StoreClaimDue limit lease t k) (ClaimDue limit lease t locked db).1 pub
        (k (Err e))
  | call_due_fails limit lease t e k :
      call db now pub (StoreClaimDue limit lease t k) db pub (k (Err e))
  | call_post d r k : call db now pub (Post d k) db pub (k r)
  | call_jitter d delay k : call db now pub (Jitter d k) db pub (k delay)
  | call_record t outcomes k :
      call db now pub (StoreRecord t outcomes k)
        (set_deliveries db (RecordOutcomes t outcomes (deliveries db) 0).1) pub (k (Ok tt))
  | call_record_fails t n outcomes e k :
      call db now pub (StoreRecord t outcomes k)
        (set_deliveries db (RecordOutcomes t (take n outcomes) (deliveries db) 0).1) pub (k (Err e))
  | call_report e k : call db now pub (Report e k) db pub k.

(** What others do to the tables: writers, operators, pruners. *)
Inductive operation (now : Z) : DB -> DB -> Prop :=
  | op_write envs db db' : Write now envs db = Ok db' -> operation now db db'
  | op_redrive f db : operation now db (Redrive now f db).1
  | op_prune cutoff db : operation now db (Prune_batch cutoff db).1
  | op_prune_parked cutoff db : operation now db (PruneParked_batch cutoff db).1
  | op_strand cutoff db : operation now db (DeadLetterStranded_batch now cutoff db).1
  | op_prune_dead cutoff db : operation now db (PruneDeadLetters_batch cutoff db).1
  | op_redeliver tenant id db : operation now db (Redeliver tenant id now db).1
  | op_redeliver_all ramp tenant sub db :
      operation now db (RedeliverMatching_batch ramp tenant sub now db).1
  | op_subscribe s db db' : SubscriptionCreate s db = Ok db' -> operation now db db'
  | op_update s db : operation now db (SubscriptionUpdate s db)
  | op_unsubscribe tenant id db : operation now db (SubscriptionDelete tenant id db)
  | op_commit tenant consumer position expected db :
      operation now db (CommitCursor tenant consumer position expected db).1.

Inductive sys_step : Sys -> Sys -> Prop :=
  | step_relay db now ps pub rounds r :
      sys_step (mkSys db now ps pub) (mkSys db now (drain rounds r false :: ps) pub)
  | step_worker db now ps pub rounds w :
      sys_step (mkSys db now ps pub) (mkSys db now (pass rounds w :: ps) pub)
  | step_call db now pub ps1 ps2 p db' pub' p' :
      call db now pub p db' pub' p' ->
      sys_step (mkSys db now (ps1 ++ p :: ps2) pub) (mkSys db' now (ps1 ++ p' :: ps2) pub')
  | step_crash db now pub ps1 ps2 p :
      sys_step (mkSys db now (ps1 ++ p :: ps2) pub) (mkSys db now (ps1 ++ ps2) pub)
  | step_tick db now now' ps pub :
      now <= now' -> sys_step (mkSys db now ps pub) (mkSys db now' ps pub)
  | step_operation db now ps pub db' :
      operation now db db' -> sys_step (mkSys db now ps pub) (mkSys db' now ps pub).

Definition empty_db : DB := mkDB ∅ 0 [] [] ∅.

Inductive reachable : Sys -> Prop :=
  | reach_initial now : reachable (mkSys empty_db now [] [])
  | reach_step s s' : reachable s -> sys_step s s' -> reachable s'.

End Calls.

(** What a program may finalize: the envelopes it marks done were published. *)
Fixpoint wp (pub : list ID) (p : prog) : Prop :=
  match p with
  | Stop => True
  | CtxErr k => forall b, wp pub (k b)
  | Now k => forall t, wp pub (k t)
  | StoreClaim _ _ _ k => forall r, wp pub (k r)
  | DispatchEnvelopes env k => wp (EnvID env :: pub) (k None) /\ forall e, wp pub (k (Some e))
  | StoreFinalize rs k => (forall i, i ∈ dones rs -> i ∈ pub) /\ forall r, wp pub (k r)
  | AfterExpand k | Report _ k => wp pub k
  | StoreReleaseExpired _ k => forall r, wp pub (k r)
  | StoreClaimDue _ _ _ k => forall r, wp pub (k r)
  | Post _ k => forall r, wp pub (k r)
  | Jitter _ k => forall r, wp pub (k r)
  | StoreRecord _ _ k => forall r, wp pub (k r)
  end.

Lemma wp_published pub pub' p : pub ⊆ pub' -> wp pub p -> wp pub' p.
Proof.
  revert pub pub'. induction p as [|k IH|k IH|? ? ? k IH|env k IH|rs k IH|k IH|? k IH|? ? ? k IH
    |d k IH|d k IH|? ? k IH|e k IH]; intros pub pub' Hsub; simpl; try (by eauto); try (by intros; eauto).
  - intros [H1 H2]. split; [|by eauto]. eapply IH; [|exact H1]. set_solver.
  - intros [H1 H2]. split; [set_solver|by eauto].
Qed.

Lemma wp_drained pub b : wp pub (drained b).
Proof. by destruct b. Qed.

Lemma dones_app xs ys : dones (xs ++ ys) = dones xs ++ dones ys.
Proof. apply omap_app. Qed.

Lemma wp_dispatchAll envs results k pub :
  (forall i, i ∈ dones results -> i ∈ pub) ->
  (forall pub' rs, pub ⊆ pub' -> (forall i, i ∈ dones rs -> i ∈ pub') -> wp pub' (k rs)) ->
  wp pub (dispatchAll envs results k).
Proof.
  revert results pub. induction envs as [|env envs IH]; intros results pub Hr Hk; simpl.
  - by apply Hk.
  - split; [|intros e]; apply IH.
    + intros i. rewrite dones_app, elem_of_app. simpl. set_solver.
    + intros pub' rs Hsub. apply Hk. set_solver.
    + intros i. rewrite dones_app, elem_of_app. simpl. set_solver.
    + done.
Qed.

Lemma wp_drain rounds r expanded pub : wp pub (drain rounds r expanded).
Proof.
  revert expanded pub. induction rounds as [|rounds IH]; intros expanded pub; [done|]. simpl.
  intros [|]; [apply wp_drained|]. intros [envs|e]; [|apply wp_drained].
  destruct envs as [|env envs]; [apply wp_drained|].
  apply (wp_dispatchAll (env :: envs) []); [set_solver|]. intros pub' rs Hsub Hd. split; [done|].
  intros [[]|e]; [|apply wp_drained]. case_match; [done|apply IH].
Qed.

Lemma wp_deliverAll w ds outcomes k pub :
  (forall os, wp pub (k os)) -> wp pub (deliverAll w ds outcomes k).
Proof.
  intros Hk. revert outcomes. induction ds as [|d ds IH]; intros outcomes; simpl; [done|].
  intros t. case_match; simpl; [done|]. intros r. unfold retryOrDead.
  repeat case_match; simpl; auto.
Qed.

Lemma wp_pass rounds w pub : wp pub (pass rounds w).
Proof.
  simpl. intros _ [[]|e]; [|done].
  induction rounds as [|rounds IH]; [done|]. simpl. intros [|]; [done|]. intros _ [ds|e]; [|done].
  destruct ds as [|d ds]; [done|]. apply (wp_deliverAll w (d :: ds)). intros os _ [[]|e]; [|done].
  by intros [|].
Qed.

(** ** The invariant *)

Section Invariant.
Variables maxAttempts retryCeiling : Z.
Hypothesis Hmax : 0 < maxAttempts.
Hypothesis Hceil : 0 < retryCeiling.

Definition inv (s : Sys) : Prop :=
  db_ok maxAttempts retryCeiling (s_clock s) (s_published s) (s_db s) /\
  Forall (wp (s_published s)) (s_threads s).

Lemma call_inv db now pub p db' pub' p' :
  call maxAttempts retryCeiling db now pub p db' pub' p' ->
  db_ok maxAttempts retryCeiling now pub db -> wp pub p ->
  db_ok maxAttempts retryCeiling now pub' db' /\ wp pub' p' /\ pub ⊆ pub'.
Proof using Hmax Hceil.
  destruct 1; intros Hok Hwp; simpl in Hwp;
    try (split_and!; [|by apply Hwp|done]; auto using Claim_ok, ClaimDue_ok, ReleaseExpired_ok,
      RecordOutcomes_ok; fail).
  - split_and!; [|by apply Hwp|set_solver]. eapply db_ok_later; [reflexivity| |done]. set_solver.
  - destruct Hwp as [Hd Hk]. split_and!; [by apply Finalize_ok|apply Hk|done].
  - destruct Hwp as [Hd Hk]. split_and!; [by apply Finalize_ok|apply Hk|done].
  - destruct Hwp as [Hd Hk]. split_and!; [by apply skip_numbers_ok|apply Hk|done].
Qed.

Lemma operation_inv now pub db db' :
  operation now db db' ->
  db_ok maxAttempts retryCeiling now pub db -> db_ok maxAttempts retryCeiling now pub db'.
Proof using Hmax Hceil.
  destruct 1; intros Hok.
  - by eapply Write_ok.
  - by apply Redrive_ok.
  - by apply delete_rows_ok.
  - by apply delete_rows_ok.
  - by apply stranded_ok.
  - by apply filter_ok.
  - by apply Redeliver_ok.
  - by apply RedeliverMatching_ok.
  - by eapply SubscriptionCreate_ok.
  - by apply SubscriptionUpdate_ok.
  - by apply SubscriptionDelete_ok.
  - unfold CommitCursor, CursorCommit. destruct Hok. by repeat case_match.
Qed.

Lemma step_inv s s' : sys_step maxAttempts retryCeiling s s' -> inv s -> inv s'.
Proof using Hmax Hceil.
  unfold inv. destruct 1; simpl; intros [Hok Ht].
  - split; [done|]. constructor; [apply wp_drain|done].
  - split; [done|]. constructor; [apply wp_pass|done].
  - apply Forall_app in Ht as [Ht1 Ht2]. apply Forall_cons_iff in Ht2 as [Hp Ht2].
    destruct (call_inv _ _ _ _ _ _ _ H Hok Hp) as (Hok' & Hp' & Hsub).
    split; [done|]. apply Forall_app. split; [|constructor; [done|]];
      (eapply list.Forall_impl; [eassumption|intros q; by apply wp_published]).
  - apply Forall_app in Ht as [Ht1 Ht2]. apply Forall_cons_iff in Ht2 as [_ Ht2].
    split; [done|]. by apply Forall_app.
  - split; [|done]. by eapply db_ok_later.
  - split; [|done]. by eapply operation_inv.
Qed.

Lemma empty_db_ok now : db_ok maxAttempts retryCeiling now [] empty_db.
Proof.
  split; try done; [|constructor].
  split; [constructor|constructor|constructor|constructor|constructor|]. intros d e Hd. set_solver.
Qed.

Lemma delivery_inv s : reachable maxAttempts retryCeiling s -> inv s.
Proof using Hmax Hceil.
  induction 1 as [now|s s' _ IH Hs]; [|by eapply step_inv].
  split; [apply empty_db_ok|constructor].
Qed.
End Invariant.
