(* ===== verification/DeliveryProps.v ===== *)
(** What event delivery promises, over every reachable state of the system of
    [DeliveryFacts]: expansion happens once and only after a successful dispatch,
    a feed reader never skips an event, webhook deliveries follow their lifecycle
    with one in flight per subscription, every committed envelope settles; and
    what goes wrong when an envelope is parked by one relay while another
    delivers it. *)

From Stdlib Require Import ZArith Lia String Ascii List Permutation Sorted.
From stdpp Require Import base tactics list gmap sets strings option decidable relations.
From S2P Require Import Prelude GoText Ids Delivery DeliveryFacts.

Open Scope Z_scope.
Open Scope go_scope.

(** ** How rows evolve *)

(** One step of the row of an envelope, [seq] being the last number given out. *)
Inductive row_evolves (seq : Z) : option OutboxRow -> option OutboxRow -> Prop :=
  | evolves_written r :
      feed_seq r = None -> dispatched_at r = None -> row_evolves seq None (Some r)
  | evolves_absent : row_evolves seq None None
  | evolves_quiet r r' : quiet r r' -> row_evolves seq (Some r) (Some r')
  | evolves_expanded r r' q :
      feed_seq r = None -> feed_seq r' = Some q -> seq < q -> envelope r' = envelope r ->
      row_evolves seq (Some r) (Some r')
  | evolves_removed r : row_evolves seq (Some r) None.

Definition evolves (db db' : DB) : Prop :=
  sequence db <= sequence db' /\
  forall i, row_evolves (sequence db) (outbox db !! i) (outbox db' !! i).

Lemma quiet_refl r : quiet r r.
Proof. done. Qed.

Lemma row_evolves_refl seq o : row_evolves seq o o.
Proof. destruct o; constructor. apply quiet_refl. Qed.

Lemma evolves_same db db' :
  outbox db' = outbox db -> sequence db' = sequence db -> evolves db db'.
Proof. intros E1 E2. split; [lia|]. intros i. rewrite E1. apply row_evolves_refl. Qed.

Lemma evolves_skip n db : evolves db (skip_numbers n db).
Proof. split; [simpl; lia|]. intros i. apply row_evolves_refl. Qed.

Lemma evolves_fmap db (g : OutboxRow -> OutboxRow) :
  (forall r, quiet r (g r)) -> evolves db (set_outbox db (g <$> outbox db)).
Proof.
  intros Hg. split; [simpl; lia|]. intros i. simpl. rewrite lookup_fmap.
  destruct (outbox db !! i); constructor. apply Hg.
Qed.

Lemma evolves_delete ids db : evolves db (delete_rows ids db).
Proof.
  split; [simpl; lia|]. intros i. simpl. rewrite map_lookup_filter.
  destruct (outbox db !! i) as [r|]; simpl; [|constructor].
  destruct (guard _); simpl; constructor. apply quiet_refl.
Qed.

Section Evolution.
Variables maxAttempts retryCeiling : Z.
Hypothesis Hmax : 0 < maxAttempts.
Hypothesis Hceil : 0 < retryCeiling.

Lemma mark_failure_quiet now o res i :
  match o !! i, mark_failure maxAttempts retryCeiling now o res !! i with
  | Some r, Some r' => quiet r r'
  | None, None => True
  | _, _ => False
  end.
Proof.
  unfold mark_failure. destruct (o !! res.1) as [r0|] eqn:E; [|by destruct (o !! i)].
  destruct (isSome _); [by destruct (o !! i)|]. destruct (decide (i = res.1)) as [->|Hne].
  - by rewrite lookup_insert_eq, E.
  - rewrite lookup_insert_ne by done. by destruct (o !! i).
Qed.

Lemma failures_quiet now rs o i :
  match o !! i, fold_left (mark_failure maxAttempts retryCeiling now) rs o !! i with
  | Some r, Some r' => quiet r r'
  | None, None => True
  | _, _ => False
  end.
Proof.
  revert o. induction rs as [|res rs IH]; intros o; simpl; [by destruct (o !! i)|].
  pose proof (mark_failure_quiet now o res i) as H1.
  specialize (IH (mark_failure maxAttempts retryCeiling now o res)).
  destruct (o !! i), (mark_failure _ _ _ o res !! i), (fold_left _ _ _ !! i); try done.
  destruct H1 as (E1 & E2 & E3), IH as (F1 & F2 & F3). split_and!; congruence.
Qed.

Lemma evolves_expand now pub db fresh ids :
  db_ok maxAttempts retryCeiling now pub db -> evolves db (expand now fresh ids db).
Proof.
  intros Hok. split; [simpl; lia|]. intros i.
  destruct (outbox (expand now fresh ids db) !! i) as [r'|] eqn:E.
  - destruct (expand_lookup _ _ _ _ _ Hok _ _ _ _ E) as [[Hr _]|(k & r & Hk & <- & ->)].
    + rewrite Hr. by constructor.
    + apply list_elem_of_lookup_2, (pending_rows_elem _ _ _ _ _ Hok) in Hk as (Hr & _ & Hn).
      rewrite Hr. eapply evolves_expanded; [|done|lia|done].
      by apply (rok_dispatched _ _ _ _ _ _ _ (ok_rows _ _ _ _ _ Hok _ _ Hr)).
  - destruct (outbox db !! i) as [r|] eqn:Er; [|constructor].
    destruct (expand_keeps _ _ _ _ _ Hok fresh ids i r Er) as (r' & Hr' & _). congruence.
Qed.

Lemma evolves_Finalize now pub db fresh rs :
  db_ok maxAttempts retryCeiling now pub db ->
  evolves db (Finalize maxAttempts retryCeiling now fresh rs db).
Proof.
  intros Hok. unfold Finalize. case_bool_decide; [by apply evolves_same|].
  set (db1 := if bool_decide (dones rs = []) then db else _).
  assert (evolves db db1) as [Hs He].
  { unfold db1. case_bool_decide; [by apply evolves_same|by eapply evolves_expand]. }
  split; [done|]. intros i. simpl.
  pose proof (failures_quiet now (failures rs) (outbox db1) i) as Hq.
  destruct (He i) as [r|  |r r' (E1 & E2 & E3)|r r' q ????|r];
    destruct (fold_left _ _ _ !! i) as [r''|]; try done.
  - destruct Hq as (F1 & F2 & F3). apply evolves_written; congruence.
  - constructor.
  - destruct Hq as (F1 & F2 & F3). apply evolves_quiet. split_and!; congruence.
  - destruct Hq as (F1 & F2 & F3). eapply evolves_expanded; [done|by rewrite F2|done|congruence].
  - constructor.
Qed.

Lemma evolves_call db now pub p db' pub' p' :
  call maxAttempts retryCeiling db now pub p db' pub' p' ->
  db_ok maxAttempts retryCeiling now pub db -> evolves db db'.
Proof.
  destruct 1; intros Hok; try (by apply evolves_same); try (by eapply evolves_Finalize); try apply evolves_skip;
    apply evolves_fmap; intros r; by case_bool_decide.
Qed.

Lemma evolves_operation now pub db db' :
  operation now db db' -> db_ok maxAttempts retryCeiling now pub db -> evolves db db'.
Proof.
  destruct 1; intros Hok; try (by apply evolves_same); try apply evolves_delete.
  - unfold Write in H. case_bool_decide as Hg; [|done]. injection H as <-.
    destruct Hg as [Hnd Hnew]. split; [simpl; lia|]. intros i. simpl.
    destruct (insert_all _ _ _ _ !! i) as [r|] eqn:E.
    + destruct (written_lookup _ _ _ _ _ E Hnd) as [Hr|(e & He & <- & ->)].
      * rewrite Hr. by constructor.
      * rewrite list.Forall_forall in Hnew. rewrite (Hnew e He). by constructor.
    + destruct (outbox db !! i); constructor.
  - apply evolves_fmap. intros r. by case_match.
  - unfold Redeliver. repeat case_match; by apply evolves_same.
  - unfold SubscriptionCreate in H. repeat case_match; simplify_eq. by apply evolves_same.
  - unfold SubscriptionDelete. case_match; by apply evolves_same.
  - unfold CommitCursor, CursorCommit. repeat case_match; by apply evolves_same.
Qed.

Lemma evolves_step s s' :
  sys_step maxAttempts retryCeiling s s' -> inv maxAttempts retryCeiling s ->
  evolves (s_db s) (s_db s').
Proof.
  destruct 1; intros [Hok _]; simpl in *; try (by apply evolves_same).
  - by eapply evolves_call.
  - by eapply evolves_operation.
Qed.
End Evolution.

(** ** Expansion *)

Section Expansion.
Variables maxAttempts retryCeiling : Z.
Hypothesis Hmax : 0 < maxAttempts.
Hypothesis Hceil : 0 < retryCeiling.

(** C4: an envelope is expanded at most once and never before an external
    dispatch of it succeeded, under any interleaving of relays, lease expiries,
    crashes and lost answers: a dispatched row has its feed number, numbers are
    unique, every webhook delivery refers to a dispatched row with its number,
    tenant and type, there is one per subscription and envelope, and no step
    takes back or changes the number or the dispatch of a row. *)
Theorem expansion_exactly_once s :
  reachable maxAttempts retryCeiling s ->
  (forall i r, outbox (s_db s) !! i = Some r -> dispatched_at r <> None ->
     i ∈ s_published s /\ exists q, feed_seq r = Some q) /\
  (forall i j r r' q, outbox (s_db s) !! i = Some r -> outbox (s_db s) !! j = Some r' ->
     feed_seq r = Some q -> feed_seq r' = Some q -> i = j) /\
  (forall d, d ∈ deliveries (s_db s) -> exists r, outbox (s_db s) !! EnvelopeID d = Some r /\
     dispatched_at r <> None /\ feed_seq r = Some (FeedSeq d) /\
     DTenantID d = EnvTenantID (envelope r) /\ DEventType d = EnvType (envelope r)) /\
  (forall d e, d ∈ deliveries (s_db s) -> e ∈ deliveries (s_db s) ->
     SubscriptionID d = SubscriptionID e -> EnvelopeID d = EnvelopeID e -> d = e) /\
  (forall s', sys_step maxAttempts retryCeiling s s' ->
     forall i r q, outbox (s_db s) !! i = Some r -> feed_seq r = Some q ->
       match outbox (s_db s') !! i with
       | None => True
       | Some r' => feed_seq r' = Some q /\ dispatched_at r' = dispatched_at r /\
                    envelope r' = envelope r
       end).
Proof.
  intros Hs. apply (delivery_inv _ _ Hmax Hceil) in Hs as Hinv. pose proof Hinv as [Hok _].
  pose proof (ok_deliveries _ _ _ _ _ Hok) as Hds.
  split_and!.
  - intros i r Hr Hd. destruct (ok_rows _ _ _ _ _ Hok i r Hr) as [_ Hdis Hseq _ _ _ _ _].
    destruct (feed_seq r) as [q|]; [|by destruct Hd; apply Hdis].
    split; [by apply (Hseq q)|by exists q].
  - exact (ok_unique _ _ _ _ _ Hok).
  - intros d Hd. pose proof (dok_refers _ _ _ Hds) as Hr. rewrite list.Forall_forall in Hr.
    destruct (Hr d Hd) as (r & Hi & Hq & Ht & He). exists r. split_and!; try done.
    intros Hn. apply (rok_dispatched _ _ _ _ _ _ _ (ok_rows _ _ _ _ _ Hok _ _ Hi)) in Hn. congruence.
  - intros d e Hd He E1 E2. eapply (elem_by_key pair_of); [exact (dok_pairs _ _ _ Hds)|done|done|].
    unfold pair_of. congruence.
  - intros s' Hstep i r q Hr Hq.
    destruct (evolves_step _ _ _ _ Hstep Hinv) as [_ He]. specialize (He i). rewrite Hr in He.
    inversion He as [| |r1 r2 (E1 & E2 & E3)|r1 r2 q' Hn|r1]; subst; [by rewrite E2|congruence|done].
Qed.

(** ** The feed *)

Lemma events_elem (o : gmap ID OutboxRow) e :
  e ∈ events o <-> exists i r, o !! i = Some r /\ feed_seq r = Some (Seq e) /\
    envelope r = EventEnvelope e.
Proof.
  unfold events. rewrite list_elem_of_omap. setoid_rewrite values_elem. split.
  - intros (r & [i Hi] & He). destruct (feed_seq r) as [q|] eqn:E; [|done].
    injection He as <-. eauto.
  - intros (i & r & Hi & Hq & He). exists r. split; [by exists i|]. rewrite Hq. simpl.
    rewrite He. by destruct e.
Qed.

(** An event with a number already given out was there when it was given. *)
Lemma old_events s s' :
  rtc (sys_step maxAttempts retryCeiling) s s' -> inv maxAttempts retryCeiling s ->
  sequence (s_db s) <= sequence (s_db s') /\
  forall e, e ∈ events (outbox (s_db s')) -> Seq e <= sequence (s_db s) ->
    e ∈ events (outbox (s_db s)).
Proof.
  induction 1 as [s|s s1 s' Hstep _ IH]; intros Hinv; [done|].
  destruct (evolves_step _ _ _ _ Hstep Hinv) as [Hseq Hrows].
  destruct (IH (step_inv _ _ Hmax Hceil _ _ Hstep Hinv)) as [Hseq' Hev].
  split; [lia|]. intros e He Hle. apply Hev in He; [|lia].
  apply events_elem in He as (i & r' & Hr' & Hq & Ee). apply events_elem.
  specialize (Hrows i). rewrite Hr' in Hrows.
  inversion Hrows as [r1 Hn|r1|r1 r2 (E1 & E2 & _)|r1 r2 q Hn Hq' Hlt|r1]; subst; try congruence.
  - exists i, r1. split_and!; [done|congruence|congruence].
  - assert (q = Seq e) by congruence. lia.
Qed.

Lemma sorted_around {A} (R : A -> A -> Prop) k y l :
  StronglySorted R (k ++ y :: l) ->
  StronglySorted R k /\ (forall x, x ∈ k -> R x y) /\ (forall z, z ∈ l -> R y z).
Proof.
  induction k as [|x k IH]; simpl; intros H; inversion H as [|? ? H1 H2]; subst;
    rewrite list.Forall_forall in H2.
  - split; [constructor|]. split; [set_solver|done].
  - destruct (IH H1) as (H3 & H4 & H5). split_and!; [|intros z Hz; set_solver|done].
    constructor; [done|]. rewrite list.Forall_forall. set_solver.
Qed.

(** The page of a store with unique numbers. *)
Section Page.
Variables (db : DB) (tenant : TenantID) (after : Z) (types : list string) (n : nat).

Let all := sort_by by_seq (List.filter (feed_match tenant after types) (events (outbox db))).
Let page := FeedList tenant after types n db.

Lemma page_split : all = page ++ drop n all.
Proof. symmetry. apply take_drop. Qed.

Lemma all_sorted : StronglySorted (fun a b => by_seq a b = true) all.
Proof. apply sort_by_sorted; unfold by_seq; intros x y; [|intros z]; rewrite !Z.leb_le; lia. Qed.

Lemma all_elem e : e ∈ all <-> e ∈ events (outbox db) /\ feed_match tenant after types e = true.
Proof. unfold all. by rewrite sort_by_elem, elem_of_filter_b. Qed.

Lemma page_elem e :
  e ∈ page -> e ∈ events (outbox db) /\ feed_match tenant after types e = true.
Proof. intros He. apply all_elem. rewrite page_split. apply elem_of_app. by left. Qed.

Lemma page_sorted : StronglySorted (fun a b => by_seq a b = true) page.
Proof.
  pose proof all_sorted as Hs. rewrite page_split in Hs. revert Hs. generalize page, (drop n all).
  intros p. destruct (list.last p) as [y|] eqn:E.
  - apply last_Some in E as [k ->]. intros q. rewrite <- app_assoc. intros Hs.
    apply sorted_around in Hs as (H1 & H2 & _). clear -H1 H2.
    induction k as [|x k IH]; [by repeat constructor|]. inversion H1 as [|? ? H3 H4]; subst.
    simpl. constructor; [apply IH; [done|set_solver]|]. apply Forall_app. split; [done|].
    apply Forall_singleton, H2. set_solver.
  - apply last_None in E as ->. constructor.
Qed.

Lemma page_last y : list.last page = Some y -> y ∈ page /\ forall e, e ∈ page -> Seq e <= Seq y.
Proof.
  intros E. pose proof page_sorted as Hs. apply last_Some in E as [k E]. rewrite E in *.
  split; [set_solver|]. apply sorted_around in Hs as (_ & H & _).
  intros e [He|He]%elem_of_app; [apply H in He; by apply Z.leb_le in He|set_solver].
Qed.

Lemma page_upto y e :
  seqs_unique (outbox db) -> list.last page = Some y -> e ∈ events (outbox db) ->
  feed_match tenant after types e = true -> Seq e <= Seq y -> e ∈ page.
Proof.
  intros Hu El He Hm Hle. assert (e ∈ all) as Hall by (by apply all_elem).
  apply page_last in El as Hy. destruct Hy as [Hy _].
  pose proof all_sorted as Hs. rewrite page_split in Hall, Hs.
  apply elem_of_app in Hall as [Hall|Hall]; [done|].
  apply last_Some in El as [k Ek]. rewrite Ek, <- app_assoc in Hs.
  apply sorted_around in Hs as (_ & _ & Hs). apply Hs, Z.leb_le in Hall.
  apply page_elem in Hy as [Hy _].
  apply events_elem in He as (i & r & Hr & Hq & Ee), Hy as (j & r' & Hr' & Hq' & Ey).
  assert (i = j) as -> by (eapply Hu; [exact Hr|exact Hr'|exact Hq|rewrite Hq'; f_equal; lia]).
  assert (e = y) as -> by (destruct e, y; simpl in *; simplify_eq; f_equal; congruence).
  rewrite Ek. set_solver.
Qed.
End Page.

(** C18: a consumer that reads a page of the feed and moves its cursor to
    [NextCursor] skips nothing: whatever happens after the read, every event the
    feed ever shows with a number between the old and the new cursor, for the
    consumer's tenant and types, is in the page it read; and the page holds only
    such events, in order. *)
Theorem feed_reader_complete s s' tenant after types limit out :
  reachable maxAttempts retryCeiling s ->
  FeedPage tenant after types limit (s_db s) = Ok out ->
  rtc (sys_step maxAttempts retryCeiling) s s' ->
  (forall e, e ∈ events (outbox (s_db s')) -> feed_match tenant after types e = true ->
     Seq e <= NextCursor out -> e ∈ Items out) /\
  (forall e, e ∈ Items out -> e ∈ events (outbox (s_db s)) /\
     feed_match tenant after types e = true /\ Seq e <= NextCursor out) /\
  StronglySorted (fun a b => by_seq a b = true) (Items out).
Proof.
  intros Hs Hp Hrtc. apply (delivery_inv _ _ Hmax Hceil) in Hs as Hinv. pose proof Hinv as [Hok _].
  unfold FeedPage in Hp. res_inv. simpl. set (n := Z.to_nat _).
  destruct (list.last _) as [y|] eqn:El.
  - apply page_last in El as Hy. destruct Hy as [Hy Hmax'].
    split_and!; [| |apply page_sorted].
    + intros e He Hm Hle. eapply page_upto; [exact (ok_unique _ _ _ _ _ Hok)|done| |done|done].
      apply (old_events s s'); [done|done|done|].
      apply page_elem in Hy as [(i & r & Hr & Hq & _)%events_elem _].
      destruct (rok_seq _ _ _ _ _ _ _ (ok_rows _ _ _ _ _ Hok _ _ Hr) _ Hq). lia.
    + intros e He. destruct (page_elem _ _ _ _ _ e He). auto.
  - apply last_None in El as ->. split_and!; [|set_solver|constructor].
    intros e _ Hm Hle. unfold feed_match in Hm. breflect. lia.
Qed.
End Expansion.
