(* ===== verification/DeliveryLive.v ===== *)
(** Every committed envelope settles: a relay that runs alone, at intervals of
    at least the retry ceiling and its lease, dispatches or parks every envelope
    within [maxAttempts] passes, and parks only what failed every time. *)

From Stdlib Require Import ZArith Lia String Ascii List Permutation.
From stdpp Require Import base tactics list gmap sets strings option decidable.
From S2P Require Import Prelude GoText Ids Delivery DeliveryFacts DeliveryProps.

Open Scope Z_scope.
Open Scope go_scope.

(** ** Running a program alone

    [outcome] is what dispatching an envelope returns, [answer] an endpoint's
    response; the store neither fails nor skips rows. *)
Section Run.
Variables maxAttempts retryCeiling : Z.
Variable fresh : DB -> nat -> ID.
Variable answer : ClaimedDelivery -> Response.
Variables (now : Z) (outcome : ID -> option string).

Fixpoint run (p : prog) (db : DB) : DB :=
  match p with
  | Stop => db
  | CtxErr k => run (k false) db
  | Now k => run (k now) db
  | StoreClaim relay limit ttl k =>
      let (db', envs) := Claim relay limit ttl now [] db in run (k (Ok envs)) db'
  | DispatchEnvelopes env k => run (k (outcome (EnvID env))) db
  | StoreFinalize rs k =>
      run (k (Ok tt)) (Finalize maxAttempts retryCeiling now (fresh db) rs db)
  | AfterExpand k | Report _ k => run k db
  | StoreReleaseExpired t k => run (k (Ok tt)) (ReleaseExpired t db)
  | StoreClaimDue limit lease t k =>
      let (db', ds) := ClaimDue limit lease t [] db in run (k (Ok ds)) db'
  | Post d k => run (k (answer d)) db
  | Jitter d k => run (k d) db
  | StoreRecord t os k =>
      run (k (Ok tt)) (set_deliveries db (RecordOutcomes t os (deliveries db) 0).1)
  end.

Definition result_of (e : Envelope) : Result := mkResult (EnvID e) (outcome (EnvID e)).

Lemma run_dispatchAll envs results k db :
  run (dispatchAll envs results k) db = run (k (results ++ (result_of <$> envs))) db.
Proof.
  revert results. induction envs as [|e envs IH]; intros results; simpl; [by rewrite app_nil_r|].
  by rewrite IH, <- app_assoc.
Qed.

(** One pass over a table that fits in a batch. *)
Definition pass_db (r : Relay) (db : DB) : DB :=
  let (db', envs) := Claim (relayID r) (batch r) (leaseTTL r) now [] db in
  Finalize maxAttempts retryCeiling now (fresh db') (result_of <$> envs) db'.

Lemma length_claimed limit ttl locked db :
  (length (claimed_rows limit ttl now locked db) <= size (outbox db))%nat.
Proof.
  unfold claimed_rows. rewrite length_take.
  etrans; [apply Nat.le_min_r|]. etrans; [apply filter_length_le|].
  rewrite (Permutation_length (sort_by_perm _ _)). unfold values.
  by rewrite length_fmap, length_map_to_list.
Qed.

Lemma run_drain rounds r db :
  (size (outbox db) < batch r)%nat -> run (drain (S rounds) r false) db = pass_db r db.
Proof.
  intros Hb. cbn [drain run]. unfold pass_db, Claim.
  pose proof (length_claimed (batch r) (leaseTTL r) [] db) as Hl.
  set (rows := claimed_rows _ _ _ _ _) in *.
  destruct (envelope <$> rows) as [|e envs] eqn:E; [done|].
  rewrite run_dispatchAll. cbn [run app].
  rewrite (proj2 (Nat.ltb_lt _ _)); [done|]. rewrite <- E, length_fmap. lia.
Qed.
End Run.

(** The passes of a relay at the times and with the outcomes of a schedule. *)
Fixpoint passes (rounds : nat) (maxAttempts retryCeiling : Z) (fresh : DB -> nat -> ID)
    (answer : ClaimedDelivery -> Response) (r : Relay)
    (schedule : list (Z * (ID -> option string))) (db : DB) : DB :=
  match schedule with
  | [] => db
  | (t, outcome) :: schedule =>
      passes rounds maxAttempts retryCeiling fresh answer r schedule
        (run maxAttempts retryCeiling fresh answer t outcome (drain (S rounds) r false) db)
  end.

(** Each pass comes at least a retry ceiling and more than a lease after the
    one before. *)
Fixpoint spaced (retryCeiling leaseTTL : Z) (clock : Z) (schedule : list (Z * (ID -> option string))) : Prop :=
  match schedule with
  | [] => True
  | (t, _) :: schedule =>
      clock + retryCeiling <= t /\ clock + leaseTTL < t /\ spaced retryCeiling leaseTTL t schedule
  end.

Definition settled (r : OutboxRow) : bool := isSome (dispatched_at r) || isSome (parked_at r).

(** ** One pass, row by row *)

Section Pass.
Variables maxAttempts retryCeiling : Z.
Hypothesis Hmax : 0 < maxAttempts.
Hypothesis Hceil : 0 < retryCeiling.
Variable fresh : DB -> nat -> ID.
Hypothesis Hfresh : forall db, fresh_ids db (fresh db).
Variables (now : Z) (outcome : ID -> option string) (r : Relay).

Lemma failures_other rs o i :
  i ∉ rs.*1 -> fold_left (mark_failure maxAttempts retryCeiling now) rs o !! i = o !! i.
Proof.
  revert o. induction rs as [|[j e] rs IH]; intros o Hi; [done|]. simpl in *.
  rewrite IH by set_solver. unfold mark_failure. simpl.
  destruct (o !! j); [|done]. case_match; [done|]. apply lookup_insert_ne. set_solver.
Qed.

Lemma failures_member rs o i e row :
  NoDup rs.*1 -> (i, e) ∈ rs -> o !! i = Some row -> dispatched_at row = None ->
  fold_left (mark_failure maxAttempts retryCeiling now) rs o !! i =
    Some (fail_row maxAttempts retryCeiling now e row).
Proof.
  revert o. induction rs as [|[j e'] rs IH]; intros o Hnd Hin Hi Hd; [set_solver|].
  simpl in *. apply list.NoDup_cons in Hnd as [Hj Hnd].
  apply elem_of_cons in Hin as [[= <- <-]|Hin].
  - rewrite failures_other by done. unfold mark_failure. simpl. rewrite Hi, Hd. simpl.
    apply lookup_insert_eq.
  - apply IH; [done|done| |done]. unfold mark_failure. simpl.
    destruct (o !! j) eqn:Ej; [|done]. case_match; [done|].
    rewrite lookup_insert_ne; [done|]. intros ->. apply Hj, list_elem_of_fmap. by exists (i, e).
Qed.

Lemma results_dones envs i :
  i ∈ dones (result_of outcome <$> envs) <-> i ∈ EnvID <$> envs /\ outcome i = None.
Proof.
  unfold dones. rewrite list_elem_of_omap. setoid_rewrite list_elem_of_fmap. split.
  - intros (x & (e & -> & He) & Hx). simpl in Hx. destruct (outcome (EnvID e)) eqn:E; [done|].
    injection Hx as <-. eauto.
  - intros [(e & -> & He) Ho]. exists (result_of outcome e). split; [eauto|]. simpl. by rewrite Ho.
Qed.

Lemma results_failures envs i err :
  (i, err) ∈ failures (result_of outcome <$> envs) <-> i ∈ EnvID <$> envs /\ outcome i = Some err.
Proof.
  unfold failures. rewrite list_elem_of_omap. setoid_rewrite list_elem_of_fmap. split.
  - intros (x & (e & -> & He) & Hx). simpl in Hx. destruct (outcome (EnvID e)) eqn:E; [|done].
    injection Hx as <- <-. eauto.
  - intros [(e & -> & He) Ho]. exists (result_of outcome e). split; [eauto|]. simpl. by rewrite Ho.
Qed.

Lemma results_failures_NoDup envs :
  NoDup (EnvID <$> envs) -> NoDup (failures (result_of outcome <$> envs)).*1.
Proof.
  induction envs as [|e envs IH]; [constructor|]. rewrite fmap_cons, list.NoDup_cons.
  intros [He Hnd]. rewrite fmap_cons. unfold failures in *. simpl.
  destruct (outcome (EnvID e)) as [err|]; [|by apply IH]. simpl. constructor; [|by apply IH].
  intros ([i x] & E & Hin)%list_elem_of_fmap. simpl in E. subst i.
  change (omap _ _) with (failures (result_of outcome <$> envs)) in Hin.
  by apply results_failures in Hin as [Hin _].
Qed.

Context (pub : list ID) (clock : Z) (db : DB).
Hypothesis Hok : db_ok maxAttempts retryCeiling clock pub db.
Hypothesis Hsize : (size (outbox db) < batch r)%nat.
Hypothesis Hnext : clock + retryCeiling <= now.
Hypothesis Hlease : clock + leaseTTL r < now.

Let rows := claimed_rows (batch r) (leaseTTL r) now [] db.
Let ids := row_id <$> rows.
Let claimed := (Claim (relayID r) (batch r) (leaseTTL r) now [] db).1.

Lemma unsettled_claimable i row :
  outbox db !! i = Some row -> settled row = false -> claimable now (leaseTTL r) row = true.
Proof using Hok Hnext Hlease Hsize.
  intros Hr Hs. destruct (ok_rows _ _ _ _ _ Hok i row Hr) as [_ _ _ _ Hn Hc _ _].
  unfold settled in Hs. apply orb_false_iff in Hs as [Hd Hp]. unfold claimable.
  rewrite Hd, Hp. simpl. apply andb_true_iff. split; [apply Z.leb_le; lia|].
  destruct (claimed_at row) as [t|]; [|done]. specialize (Hc t eq_refl). apply Z.ltb_lt. lia.
Qed.

Lemma claimed_ids i row : outbox db !! i = Some row -> i ∈ ids <-> settled row = false.
Proof using Hok Hsize Hnext Hlease.
  intros Hr. assert (rows = List.filter (fun r0 => claimable now (leaseTTL r) r0 &&
    negb (bool_decide (row_id r0 ∈ []))) (sort_by by_id (values (outbox db)))) as E.
  { unfold rows, claimed_rows. apply take_ge. etrans; [apply filter_length_le|].
    rewrite (Permutation_length (sort_by_perm _ _)). unfold values.
    rewrite length_fmap, length_map_to_list. lia. }
  unfold ids. rewrite E, list_elem_of_fmap. setoid_rewrite elem_of_filter_b.
  setoid_rewrite sort_by_elem. setoid_rewrite values_elem. split.
  - intros (r' & -> & [j Hj] & Hc). pose proof (row_key _ _ _ _ _ Hok j r' Hj) as Ej.
    assert (r' = row) as -> by congruence. unfold claimable in Hc. unfold settled.
    destruct (dispatched_at row), (parked_at row); simpl in *; done.
  - intros Hs. exists row. split; [by rewrite (row_key _ _ _ _ _ Hok i row Hr)|].
    split; [by exists i|]. by rewrite (unsettled_claimable i row).
Qed.

Lemma ids_NoDup : NoDup ids.
Proof using Hok.
  unfold ids, rows, claimed_rows.
  assert (NoDup (row_id <$> List.filter (fun r0 => claimable now (leaseTTL r) r0 &&
    negb (bool_decide (row_id r0 ∈ []))) (sort_by by_id (values (outbox db))))) as Hnd.
  { apply filter_fmap_NoDup. rewrite sort_by_perm. apply values_keys.
    intros i row. apply (row_key _ _ _ _ _ Hok). }
  rewrite fmap_take. revert Hnd. generalize (row_id <$> List.filter (fun r0 =>
    claimable now (leaseTTL r) r0 && negb (bool_decide (row_id r0 ∈ [])))
    (sort_by by_id (values (outbox db)))). intros l Hnd.
  rewrite <- (take_drop (batch r) l) in Hnd. by apply list.NoDup_app in Hnd as (H & _).
Qed.

Lemma claimed_lookup i row :
  outbox db !! i = Some row ->
  outbox claimed !! i = Some (if settled row then row else claim_row now (relayID r) row).
Proof using Hok Hsize Hnext Hlease outcome.
  intros Hr. unfold claimed, Claim, update_rows. simpl. rewrite lookup_fmap, Hr. simpl. f_equal.
  rewrite (row_key _ _ _ _ _ Hok i row Hr). fold ids.
  pose proof (claimed_ids i row Hr) as Hc.
  destruct (settled row) eqn:E; case_bool_decide as Hd; try done; naive_solver.
Qed.
Lemma claimed_ok pub' :
  pub ⊆ pub' -> db_ok maxAttempts retryCeiling now pub' claimed.
Proof using All.
  intros Hp. apply Claim_ok. eapply db_ok_later; [|exact Hp|exact Hok]. lia.
Qed.

(** What the pass finalizes: the claimed identifiers. *)
Lemma claimed_results : EnvID <$> (envelope <$> rows) = ids.
Proof. by rewrite <- list_fmap_compose. Qed.

Let results := result_of outcome <$> (envelope <$> rows).

Definition after_pass (row : OutboxRow) (row' : option OutboxRow) : Prop :=
  if settled row then row' = Some row
  else match outcome (row_id row) with
       | Some e => row' = Some (fail_row maxAttempts retryCeiling now e
                                  (claim_row now (relayID r) row))
       | None => exists q, row' = Some (dispatch_row now q (claim_row now (relayID r) row))
       end.

(** The rows after the expansion of a pass, before its failures are counted. *)
Lemma expanded_row i row :
  outbox db !! i = Some row ->
  outbox (if bool_decide (dones results = []) then claimed
          else expand now (fresh claimed) (dones results) claimed) !! i =
    outbox claimed !! i /\ (settled row = true \/ outcome i <> None) \/
  settled row = false /\ outcome i = None /\
  exists q, outbox (if bool_decide (dones results = []) then claimed
          else expand now (fresh claimed) (dones results) claimed) !! i =
    Some (dispatch_row now q (claim_row now (relayID r) row)).
Proof using All.
  intros Hr. pose proof (claimed_lookup i row Hr) as Hc. pose proof (claimed_ids i row Hr) as Hin.
  pose proof (claimed_ok pub (reflexivity pub)) as Hcok.
  assert (i ∈ dones results <-> i ∈ ids /\ outcome i = None) as Hd.
  { unfold results. rewrite results_dones. by rewrite claimed_results. }
  case_bool_decide as Hnil.
  - left. split; [done|]. rewrite Hnil in Hd. destruct (settled row), (outcome i); set_solver.
  - destruct (expand_keeps _ _ _ _ _ Hcok (fresh claimed) (dones results) i _ Hc)
      as (row' & Hrow' & _).
    destruct (decide (settled row = false /\ outcome i = None)) as [[Hs Ho]|Hne].
    + right. split_and!; [done|done|]. rewrite Hs in Hc.
      destruct (expand_lookup _ _ _ _ _ Hcok (fresh claimed) (dones results) i row' Hrow')
        as [[Hl Hx]|(k & a & Hk & Ea & ->)].
      * exfalso. apply Hx; [by apply Hd; split; [apply Hin|]|].
        assert (row' = claim_row now (relayID r) row) as -> by congruence.
        unfold settled in Hs. apply orb_false_iff in Hs as [Hs _]. simpl.
        by destruct (dispatched_at row).
      * apply list_elem_of_lookup_2, (pending_rows_elem _ _ _ _ _ Hcok) in Hk as (Hk & _).
        rewrite Ea in Hk. assert (a = claim_row now (relayID r) row) as -> by congruence.
        rewrite Hrow'. eauto.
    + left. split; [|destruct (settled row), (outcome i); naive_solver].
      apply expand_other. intros a Ha Ea. apply (pending_rows_elem _ _ _ _ _ Hcok) in Ha as (_ & Ha & _).
      rewrite Ea in Ha. apply Hd in Ha as [Ha Ho]. apply Hne. split; [by apply Hin|done].
Qed.

Lemma pass_row i row :
  outbox db !! i = Some row ->
  after_pass row (outbox (pass_db maxAttempts retryCeiling fresh now outcome r db) !! i).
Proof using All.
  intros Hr. pose proof (claimed_lookup i row Hr) as Hc. pose proof (claimed_ids i row Hr) as Hin.
  pose proof (row_key _ _ _ _ _ Hok i row Hr) as Ei.
  unfold pass_db, Claim. fold rows. fold results. change (set_outbox db _) with claimed.
  unfold Finalize, after_pass. rewrite Ei. case_bool_decide as Hnil.
  - assert (settled row = true) as Hs; [|by rewrite Hc, Hs].
    destruct (settled row) eqn:E; [done|]. assert (i ∈ ids) as Hi by (by apply Hin).
    unfold results in Hnil. apply fmap_nil_inv, fmap_nil_inv in Hnil. unfold ids in Hi.
    rewrite Hnil in Hi. set_solver.
  - simpl. assert (NoDup (failures results).*1) as Hnd.
    { apply results_failures_NoDup. rewrite claimed_results. apply ids_NoDup. }
    assert (forall e, (i, e) ∈ failures results <-> i ∈ ids /\ outcome i = Some e) as Hf.
    { intros e. unfold results. rewrite results_failures. by rewrite claimed_results. }
    assert ((settled row = true \/ outcome i = None) -> i ∉ (failures results).*1) as Hno.
    { intros Hso ([j e] & E & He)%list_elem_of_fmap. simpl in E. subst j.
      apply Hf in He as [He Ho]. apply Hin in He. naive_solver congruence. }
    destruct (expanded_row i row Hr) as [[E Hso]|(Hs & Ho & q & E)].
    + destruct (settled row) eqn:Es.
      * rewrite failures_other by auto. by rewrite E, Hc.
      * destruct (outcome i) as [e|] eqn:Eo; [|naive_solver].
        apply failures_member; [done|by apply Hf; split; [apply Hin|]|by rewrite E|].
        unfold settled in Es. apply orb_false_iff in Es as [Es _]. simpl.
        by destruct (dispatched_at row).
    + rewrite Hs, Ho. exists q. rewrite failures_other by auto. by rewrite E.
Qed.

Lemma pass_ok :
  exists pub', db_ok maxAttempts retryCeiling now pub' (pass_db maxAttempts retryCeiling fresh now outcome r db).
Proof using All.
  exists (ids ++ pub). unfold pass_db, Claim. fold rows. change (set_outbox db _) with claimed.
  apply Finalize_ok; [done|done|apply claimed_ok; set_solver|apply Hfresh|].
  intros i Hi. apply results_dones in Hi as [Hi _]. rewrite claimed_results in Hi. set_solver.
Qed.

Lemma pass_none i :
  outbox db !! i = None ->
  outbox (pass_db maxAttempts retryCeiling fresh now outcome r db) !! i = None.
Proof using All.
  intros Hr. unfold pass_db, Claim. fold rows. fold results. change (set_outbox db _) with claimed.
  assert (outbox claimed !! i = None) as Hc.
  { unfold claimed, Claim, update_rows. simpl. by rewrite lookup_fmap, Hr. }
  unfold Finalize. case_bool_decide; [done|]. simpl.
  set (db1 := if bool_decide (dones results = []) then claimed else _).
  assert (outbox db1 !! i = None) as H1.
  { unfold db1. case_bool_decide; [done|]. apply not_elem_of_dom.
    rewrite (expand_dom _ _ _ _ _ (claimed_ok pub (reflexivity pub))). by apply not_elem_of_dom. }
  pose proof (failures_quiet maxAttempts retryCeiling now (failures results) (outbox db1) i) as Hq.
  rewrite H1 in Hq. by destruct (fold_left _ _ _ !! i).
Qed.

Lemma pass_size :
  size (outbox (pass_db maxAttempts retryCeiling fresh now outcome r db)) = size (outbox db).
Proof using All.
  rewrite <- !size_dom. f_equal. apply set_eq. intros i. rewrite !elem_of_dom. split.
  - intros [row Hr]. destruct (outbox db !! i) eqn:E; [by eexists|]. by rewrite pass_none in Hr.
  - intros [row Hr]. apply pass_row in Hr. unfold after_pass in Hr.
    destruct (settled row); [by rewrite Hr|]. destruct (outcome (row_id row)); [by rewrite Hr|].
    destruct Hr as [q ->]. by eexists.
Qed.
End Pass.

(** ** Schedules *)

Section Passes.
Variables maxAttempts retryCeiling : Z.
Hypothesis Hmax : 0 < maxAttempts.
Hypothesis Hceil : 0 < retryCeiling.
Variable fresh : DB -> nat -> ID.
Hypothesis Hfresh : forall db, fresh_ids db (fresh db).
Variables (answer : ClaimedDelivery -> Response) (rounds : nat) (r : Relay).

Let run_all := passes rounds maxAttempts retryCeiling fresh answer r.

Lemma passes_cons t outcome sched db :
  (size (outbox db) < batch r)%nat ->
  run_all ((t, outcome) :: sched) db =
    run_all sched (pass_db maxAttempts retryCeiling fresh t outcome r db).
Proof using. intros Hs. unfold run_all. cbn [passes]. by rewrite run_drain. Qed.

Lemma passes_ok sched clock pub db :
  db_ok maxAttempts retryCeiling clock pub db -> (size (outbox db) < batch r)%nat ->
  spaced retryCeiling (leaseTTL r) clock sched ->
  exists clock' pub', db_ok maxAttempts retryCeiling clock' pub' (run_all sched db).
Proof using All.
  revert clock pub db. induction sched as [|[t outcome] sched IH]; intros clock pub db Hok Hs Hsp;
    [by exists clock, pub|].
  destruct Hsp as (H1 & H2 & Hsp). rewrite passes_cons by done.
  edestruct (pass_ok maxAttempts retryCeiling Hmax Hceil fresh Hfresh t outcome r pub clock db)
    as [pub' Hok']; [done..|].
  eapply IH; [exact Hok'| |exact Hsp]. erewrite pass_size; eauto.
Qed.

(** What becomes of a row over a schedule. *)
Definition fate (sched : list (Z * (ID -> option string))) (row row' : OutboxRow) : Prop :=
  (exists (n : nat) (t : Z) (o : ID -> option string), sched !! n = Some (t, o) /\
     o (row_id row) = None /\ Z.of_nat n < maxAttempts - attempts row /\ dispatched_at row' = Some t) \/
  ((forall (n : nat) (t : Z) (o : ID -> option string), sched !! n = Some (t, o) ->
      Z.of_nat n < maxAttempts - attempts row -> o (row_id row) <> None) /\
   dispatched_at row' = None /\
   (parked_at row' <> None \/
    settled row' = false /\ attempts row' = attempts row + Z.of_nat (length sched))).

Lemma passes_row sched clock pub db i row :
  db_ok maxAttempts retryCeiling clock pub db -> (size (outbox db) < batch r)%nat ->
  spaced retryCeiling (leaseTTL r) clock sched -> outbox db !! i = Some row ->
  exists row', outbox (run_all sched db) !! i = Some row' /\ envelope row' = envelope row /\
    if settled row then row' = row else fate sched row row'.
Proof using All.
  revert clock pub db row. induction sched as [|[t outcome] sched IH];
    intros clock pub db row Hok Hs Hsp Hr.
  - exists row. split_and!; [done|done|]. destruct (settled row) eqn:E; [done|]. right.
    split; [done|]. split; [|right; split; [done|simpl; lia]].
    unfold settled in E. by destruct (dispatched_at row).
  - destruct Hsp as (H1 & H2 & Hsp). rewrite passes_cons by done.
    edestruct (pass_ok maxAttempts retryCeiling Hmax Hceil fresh Hfresh t outcome r pub clock db)
      as [pub' Hok']; [done..|].
    pose proof (pass_row maxAttempts retryCeiling Hmax Hceil fresh Hfresh t outcome r pub clock db
      Hok Hs H1 H2 i row Hr) as Hp.
    assert (size (outbox (pass_db maxAttempts retryCeiling fresh t outcome r db)) < batch r)%nat
      as Hs' by (erewrite pass_size; eauto).
    pose proof (fun row1 => IH t pub' _ row1 Hok' Hs' Hsp) as IH'. clear IH.
    unfold after_pass in Hp. destruct (settled row) eqn:Es.
    + destruct (IH' _ Hp) as (row' & Hr' & He & Hx). rewrite Es in Hx. by exists row'.
    + pose proof Es as [Ed _]%orb_false_iff.
      assert (attempts row < maxAttempts) as Hb.
      { unfold settled in Es. apply orb_false_iff in Es as [Hd Hpk].
        apply (rok_budget _ _ _ _ _ _ _ (ok_rows _ _ _ _ _ Hok _ _ Hr));
          [by destruct (dispatched_at row)|by destruct (parked_at row)]. }
      destruct (outcome (row_id row)) as [err|] eqn:Eo.
      * destruct (IH' _ Hp) as (row' & Hr' & He & Hx). exists row'. split_and!; [done|done|].
        destruct (settled (fail_row _ _ _ _ _)) eqn:Es'; simpl in Hx.
        -- subst row'. right. simpl. destruct (maxAttempts <=? attempts row + 1) eqn:El.
           ++ split_and!; [|by destruct (dispatched_at row)|by left].
              intros [|n] t' o Hn Hlt; simpl in Hn; [|lia]. injection Hn as <- <-. by rewrite Eo.
           ++ unfold settled in Es'. simpl in Es'. rewrite El in Es'.
              by destruct (dispatched_at row).
        -- destruct Hx as [(n & t' & o & Hn & Ho & Hlt & Hd)|(Hn & Hd & Hx)].
           ++ left. exists (S n), t', o. split_and!; [done|done|simpl in Hlt; lia|done].
           ++ right. split_and!; [|done|].
              ** intros [|n] t' o Hn' Hlt; simpl in Hn'; [injection Hn' as <- <-; by rewrite Eo|].
                 apply (Hn n t' o Hn'). simpl. lia.
              ** destruct Hx as [Hx|[Hx1 Hx2]]; [by left|right]. simpl in Hx2. split; [done|].
                 cbn [length]. lia.
      * destruct Hp as [q Hp]. destruct (IH' _ Hp) as (row' & Hr' & He & Hx). exists row'.
        split_and!; [done|done|]. simpl in Hx. subst row'. left. exists 0%nat, t, outcome.
        split_and!; [done|done|lia|done].
Qed.
End Passes.

(** Identifiers no delivery of the table has. *)
Definition next_ids (db : DB) (n : nat) : ID :=
  (foldr N.max 0 (DID <$> deliveries db) + 1 + N.of_nat n)%N.

Lemma next_ids_fresh db : fresh_ids db (next_ids db).
Proof.
  split; [unfold next_ids; lia|]. intros n. unfold next_ids.
  assert (forall i, i ∈ DID <$> deliveries db -> (i <= foldr N.max 0 (DID <$> deliveries db))%N) as H.
  { generalize (DID <$> deliveries db) as l. induction l as [|x l IH]; [set_solver|].
    simpl. intros i [->|Hi]%elem_of_cons; [lia|]. apply IH in Hi. lia. }
  intros Hin. apply H in Hin. lia.
Qed.

(** C5: every committed envelope settles.  From any reachable state, however
    many relays died holding claims, one relay that keeps making passes (spaced
    by the retry ceiling and its lease, with a batch larger than the outbox)
    dispatches or parks every envelope within [maxAttempts] passes: dispatched
    when one of the attempts left to it succeeds, parked only when all of them
    failed; settled envelopes are left alone, and none is lost. *)
Theorem outbox_settles maxAttempts retryCeiling fresh answer rounds r sched s i row :
  0 < maxAttempts -> 0 < retryCeiling -> (forall db, fresh_ids db (fresh db)) ->
  reachable maxAttempts retryCeiling s ->
  (size (outbox (s_db s)) < batch r)%nat ->
  spaced retryCeiling (leaseTTL r) (s_clock s) sched ->
  maxAttempts <= Z.of_nat (length sched) ->
  outbox (s_db s) !! i = Some row ->
  exists row', outbox (passes rounds maxAttempts retryCeiling fresh answer r sched (s_db s)) !! i =
      Some row' /\ envelope row' = envelope row /\
    if settled row then row' = row
    else
      (exists (n : nat) (t : Z) (o : ID -> option string), sched !! n = Some (t, o) /\ o i = None /\
         Z.of_nat n < maxAttempts - attempts row /\ dispatched_at row' = Some t) \/
      ((forall (n : nat) (t : Z) (o : ID -> option string), sched !! n = Some (t, o) ->
         Z.of_nat n < maxAttempts - attempts row -> o i <> None) /\
       dispatched_at row' = None /\ parked_at row' <> None).
Proof.
  intros Hmax Hceil Hfresh Hs Hsize Hsp Hlen Hr.
  apply (delivery_inv _ _ Hmax Hceil) in Hs as [Hok _].
  destruct (passes_row maxAttempts retryCeiling Hmax Hceil fresh Hfresh answer rounds r sched _ _ _
    i row Hok Hsize Hsp Hr) as (row' & Hr' & He & Hx).
  exists row'. split_and!; [done|done|]. destruct (settled row) eqn:Es; [done|].
  pose proof (row_key _ _ _ _ _ Hok i row Hr) as Ei. unfold fate in Hx. rewrite Ei in Hx.
  destruct Hx as [Hx|(Hn & Hd & [Hp|[Hu Ha]])]; [by left|by right|].
  destruct (passes_ok maxAttempts retryCeiling Hmax Hceil fresh Hfresh answer rounds r sched _ _ _
    Hok Hsize Hsp) as (clock' & pub' & Hok').
  pose proof (rok_attempts _ _ _ _ _ _ _ (ok_rows _ _ _ _ _ Hok _ _ Hr)).
  pose proof (rok_budget _ _ _ _ _ _ _ (ok_rows _ _ _ _ _ Hok' _ _ Hr')) as Hb.
  apply orb_false_iff in Hu as [_ Hu]. destruct (parked_at row'); [done|].
  specialize (Hb Hd eq_refl). lia.
Qed.

(** A written envelope, a relay that fails once and then succeeds. *)
Module Example.
Definition envelope1 : Envelope :=
  mkEnvelope 1%N "value.set" "entity" "e1" "default" EmptyString "e1" "ada" 0 0 1 "{}".

Definition written : Sys :=
  mkSys (mkDB (insert_all EnvID (newRow 0) [envelope1] ∅) 0 [] [] ∅) 0 [] [].

Lemma written_reachable m c : reachable m c written.
Proof.
  eapply reach_step; [apply (reach_initial _ _ 0)|]. apply step_operation.
  apply op_write with [envelope1]. vm_compute. done.
Defined.

Definition schedule : list (Z * (ID -> option string)) :=
  [(16 * Minute, fun _ => Some "timeout"); (32 * Minute, fun _ => None)].
End Example.

Lemma outbox_settles_witness :
  exists row', outbox (passes 0 2 defaultOutboxRetryCeiling next_ids (fun _ => StatusCode 200)
      (mkRelay "r1" 2 Minute) Example.schedule (s_db Example.written)) !! 1%N = Some row' /\
    dispatched_at row' = Some (32 * Minute).
Proof.
  destruct (outbox_settles 2 defaultOutboxRetryCeiling next_ids (fun _ => StatusCode 200) 0
    (mkRelay "r1" 2 Minute) Example.schedule Example.written 1%N (newRow 0 Example.envelope1)
    ltac:(lia) ltac:(vm_compute; reflexivity) next_ids_fresh (Example.written_reachable _ _)
    ltac:(vm_compute; lia) ltac:(vm_compute; intuition congruence) ltac:(simpl; lia)
    ltac:(vm_compute; reflexivity)) as (row' & Hr & _ & _).
  exists row'. split; [exact Hr|]. vm_compute in Hr. injection Hr as <-. vm_compute. reflexivity.
Defined.
