(* ===== verification/DeliveryQueue.v ===== *)
(** The queue of webhook deliveries: the lifecycle every delivery follows under
    any interleaving of workers, operators, subscription edits and retention, and
    what parking an envelope that another relay delivers does to its deliveries. *)

From Stdlib Require Import ZArith Lia String Ascii List Permutation.
From stdpp Require Import base tactics list gmap sets strings option decidable.
From S2P Require Import Prelude GoText Ids Delivery DeliveryFacts.

Open Scope Z_scope.
Open Scope go_scope.

(** ** The lifecycle *)

(** The subscription of a delivery exists and is on. *)
Definition subscribed (db : DB) (d : Delivery) : Prop :=
  exists sub, sub ∈ subscriptions db /\ SubID sub = SubscriptionID d /\ Active sub = true.

(** The outcome is of this delivery, still in flight under the outcome's lease. *)
Definition holds (o : Outcome) (d : Delivery) : Prop :=
  DID d = OutDeliveryID o /\ DStatus d = StatusInflight /\ LeaseExpiresAt d = Some (OutLease o).

(** What an outcome makes of the delivery. *)
Definition settled_by (o : Outcome) (d d' : Delivery) : Prop :=
  dkey d' = dkey d /\ Attempts d' = Attempts d + 1 /\ LeaseExpiresAt d' = None /\
  (Delivered o = true -> DStatus d' = StatusDelivered) /\
  (Delivered o = false -> Dead o = true -> DStatus d' = StatusDead) /\
  (Delivered o = false -> Dead o = false ->
     DStatus d' = StatusPending /\ NextAttemptAt d' = OutNextAttemptAt o).

(** What a batch of outcomes makes of it: the first that holds its lease counts. *)
Definition batch_effect (os : list Outcome) (d d' : Delivery) : Prop :=
  (d' = d /\ Forall (fun o => ~ holds o d) os) \/
  exists os1 o os2, os = os1 ++ o :: os2 /\ Forall (fun o => ~ holds o d) os1 /\
    holds o d /\ settled_by o d d'.

(** One move of a delivery in the step from [s] to [s']; [None] is its removal.
    A worker's move is the effect of the very call it is about to make; the moves
    of operators and retention leave every worker's program alone. *)
Inductive move (s s' : Sys) (d : Delivery) : option Delivery -> Prop :=
  | move_stays : move s s' d (Some d)
  | move_claimed limit lease t k d' :
      StoreClaimDue limit lease t k ∈ s_threads s ->
      DStatus d = StatusPending -> NextAttemptAt d <= t -> subscribed (s_db s) d ->
      (forall e, e ∈ deliveries (s_db s) -> SubscriptionID e = SubscriptionID d ->
         DStatus e <> StatusInflight) ->
      (forall e, e ∈ deliveries (s_db s) -> SubscriptionID e = SubscriptionID d ->
         DStatus e = StatusPending -> FeedSeq d <= FeedSeq e) ->
      dkey d' = dkey d -> DStatus d' = StatusInflight -> Attempts d' = Attempts d ->
      LeaseExpiresAt d' = Some (t + lease) ->
      move s s' d (Some d')
  | move_recorded t os k o d' :
      StoreRecord t os k ∈ s_threads s -> o ∈ os -> holds o d -> settled_by o d d' ->
      move s s' d (Some d')
  | move_expired t k lease d' :
      StoreReleaseExpired t k ∈ s_threads s ->
      DStatus d = StatusInflight -> LeaseExpiresAt d = Some lease -> lease < t ->
      dkey d' = dkey d -> DStatus d' = StatusPending -> Attempts d' = Attempts d ->
      LeaseExpiresAt d' = None ->
      move s s' d (Some d')
  | move_redelivered d' :
      s_threads s' = s_threads s -> DStatus d = StatusDelivered \/ DStatus d = StatusDead ->
      dkey d' = dkey d -> DStatus d' = StatusPending -> Attempts d' = 0 ->
      LeaseExpiresAt d' = None ->
      move s s' d (Some d')
  | move_stranded d' :
      s_threads s' = s_threads s -> DStatus d = StatusPending -> ~ subscribed (s_db s) d ->
      dkey d' = dkey d -> DStatus d' = StatusDead -> Attempts d' = Attempts d ->
      LeaseExpiresAt d' = LeaseExpiresAt d ->
      move s s' d (Some d')
  | move_pruned :
      s_threads s' = s_threads s -> DStatus d = StatusDelivered ->
      outbox (s_db s') !! EnvelopeID d = None -> move s s' d None
  | move_pruned_dead :
      s_threads s' = s_threads s -> DStatus d = StatusDead -> move s s' d None
  | move_parked r t :
      s_threads s' = s_threads s ->
      outbox (s_db s) !! EnvelopeID d = Some r -> parked_at r = Some t ->
      outbox (s_db s') !! EnvelopeID d = None -> move s s' d None
  | move_unsubscribed sub :
      s_threads s' = s_threads s ->
      sub ∈ subscriptions (s_db s) -> SubID sub = SubscriptionID d ->
      (forall sub', sub' ∈ subscriptions (s_db s') -> SubID sub' <> SubscriptionID d) ->
      move s s' d None.

(** A delivery that enters the queue. *)
Definition newborn (db : DB) (d : Delivery) : Prop :=
  DStatus d = StatusPending /\ Attempts d = 0 /\ LeaseExpiresAt d = None /\
  sequence db < FeedSeq d /\ subscribed db d.

Definition moves (s s' : Sys) : Prop :=
  (forall d, d ∈ deliveries (s_db s) ->
     (exists d', d' ∈ deliveries (s_db s') /\ DID d' = DID d /\ move s s' d (Some d')) \/
     ((forall d', d' ∈ deliveries (s_db s') -> DID d' <> DID d) /\ move s s' d None)) /\
  (forall d', d' ∈ deliveries (s_db s') ->
     (exists d, d ∈ deliveries (s_db s) /\ DID d = DID d') \/ newborn (s_db s) d').

Lemma active_spec db d : active db (SubscriptionID d) = true <-> subscribed db d.
Proof.
  unfold active, subscribed. rewrite existsb_exists. split.
  - intros (sub & Hin & Hs). breflect. exists sub. by rewrite <- list_elem_of_In in Hin.
  - intros (sub & Hin & E & Ha). exists sub. rewrite <- list_elem_of_In.
    split; [done|]. by rewrite bool_decide_true, Ha.
Qed.

Lemma owned_spec o d : owned o d = true <-> holds o d.
Proof.
  unfold owned, holds. rewrite !andb_true_iff, !bool_decide_eq_true. tauto.
Qed.

Lemma record_settles t o d : settled_by o d (record_delivery t o d).
Proof. unfold settled_by, record_delivery. simpl. by destruct (Delivered o), (Dead o). Qed.

(** A delivery out of flight is none of the outcomes'. *)
Lemma RecordOutcomes_settled t os d lost :
  DStatus d <> StatusInflight -> (RecordOutcomes t os [d] lost).1 = [d].
Proof.
  intros Hd. revert lost. induction os as [|o os IH]; intros lost; simpl; [done|].
  unfold record_one. simpl. destruct (owned o d) eqn:E; [|apply IH].
  apply owned_spec in E as (_ & ? & _). congruence.
Qed.

(** Every delivery is recorded on its own. *)
Lemma RecordOutcomes_fmap t os ds lost :
  (RecordOutcomes t os ds lost).1 = (fun d => hd d (RecordOutcomes t os [d] 0).1) <$> ds.
Proof.
  revert ds lost. induction os as [|o os IH]; intros ds lost; simpl; [by rewrite list_fmap_id|].
  rewrite IH. unfold record_one. rewrite <- list_fmap_compose. apply list_fmap_ext.
  intros i d _. simpl. by rewrite (IH [_] (if owned o d || false then 0%nat else 1%nat)).
Qed.

Lemma RecordOutcomes_effect t os d lost : batch_effect os d (hd d (RecordOutcomes t os [d] lost).1).
Proof.
  revert lost. induction os as [|o os IH]; intros lost; simpl; [left; by split|].
  unfold record_one. simpl. destruct (owned o d) eqn:E.
  - right. exists [], o, os. split; [done|]. split; [constructor|].
    split; [by apply owned_spec|]. rewrite RecordOutcomes_settled; [apply record_settles|].
    simpl. by repeat case_match.
  - assert (~ holds o d) as Hn by (rewrite <- owned_spec; congruence).
    destruct (IH (if false || false then lost else S lost))
      as [[E' Hos]|(os1 & o' & os2 & -> & Hos & Hh & Hs)].
    + left. split; [exact E'|by constructor].
    + right. exists (o :: os1), o', os2. split; [done|]. split; [by constructor|done].
Qed.

Section MovesOf.
Variables s s' : Sys.

Lemma moves_fmap (f : Delivery -> Delivery) :
  deliveries (s_db s') = f <$> deliveries (s_db s) ->
  (forall d, d ∈ deliveries (s_db s) -> DID (f d) = DID d /\ move s s' d (Some (f d))) ->
  moves s s'.
Proof using.
  intros E Hf. split; rewrite E.
  - intros d Hd. left. destruct (Hf d Hd) as [Hi Hm]. exists (f d).
    split; [apply list_elem_of_fmap; by exists d|done].
  - intros d' (d & -> & Hd)%list_elem_of_fmap. left. exists d. split; [done|]. symmetry. by apply Hf.
Qed.

Lemma moves_same : deliveries (s_db s') = deliveries (s_db s) -> moves s s'.
Proof using.
  intros E. apply (moves_fmap id); [by rewrite list_fmap_id|].
  intros d Hd. split; [done|constructor].
Qed.

Lemma moves_RecordOutcomes t os n k lost :
  StoreRecord t os k ∈ s_threads s ->
  deliveries (s_db s') = (RecordOutcomes t (take n os) (deliveries (s_db s)) lost).1 ->
  moves s s'.
Proof using.
  intros Hk E. eapply moves_fmap; [by rewrite E, RecordOutcomes_fmap|]. intros d Hd. simpl.
  destruct (RecordOutcomes_effect t (take n os) d 0)
    as [[-> _]|(os1 & o & os2 & Eo & _ & Hh & Hs)]; [split; [done|constructor]|].
  split; [by destruct Hs as ([= -> _ _ _ _ _] & _)|].
  eapply move_recorded; [done| |done|done].
  rewrite <- (take_drop n os), Eo. set_solver.
Qed.

Lemma moves_ReleaseExpired t k :
  StoreReleaseExpired t k ∈ s_threads s -> s_db s' = ReleaseExpired t (s_db s) -> moves s s'.
Proof using.
  intros Hk E. eapply moves_fmap; [by rewrite E|]. intros d Hd. simpl. unfold expired.
  destruct (decide (DStatus d = StatusInflight)) as [Ei|]; [rewrite bool_decide_true by done|
    rewrite bool_decide_false by done; split; [done|constructor]].
  destruct (LeaseExpiresAt d) as [l|] eqn:El; simpl; [|split; [done|constructor]].
  destruct (l <? t) eqn:Et; [|split; [done|constructor]]. apply Z.ltb_lt in Et.
  split; [done|]. by eapply move_expired.
Qed.

Lemma moves_expand fresh ids :
  deliveries (s_db s') = deliveries (expand (s_clock s) fresh ids (s_db s)) -> moves s s'.
Proof using.
  intros E. split; rewrite E.
  - intros d Hd. left. exists d. split_and!; [|done|constructor]. simpl.
    apply elem_of_app. by left.
  - intros d' [Hd'|Hd']%elem_of_app; [left; by exists d'|right].
    apply new_deliveries_elem in Hd' as (i & r & q & sub & Hi & ->).
    apply list_elem_of_lookup_2, fanout_elem in Hi as [Hn Hs].
    apply list_elem_of_lookup in Hn as [k Hn]. apply numbered_lookup in Hn as [Hk ->].
    apply elem_of_filter_b in Hs as [Hs Ha]. breflect.
    split_and!; [done|done|done|simpl; lia|]. by exists sub.
Qed.

Lemma moves_Finalize maxAttempts retryCeiling fresh rs :
  s_db s' = Finalize maxAttempts retryCeiling (s_clock s) fresh rs (s_db s) -> moves s s'.
Proof using.
  unfold Finalize. case_bool_decide; [intros E; apply moves_same; by rewrite E|].
  case_bool_decide; intros E; [apply moves_same; by rewrite E|].
  apply (moves_expand fresh (dones rs)). by rewrite E.
Qed.

Lemma unqueued d : queued d = false -> DStatus d = StatusDelivered \/ DStatus d = StatusDead.
Proof using. unfold queued. intros H. breflect. destruct (DStatus d); auto; congruence. Qed.

Lemma moves_Redeliver tenant id :
  s_threads s' = s_threads s -> s_db s' = (Redeliver tenant id (s_clock s) (s_db s)).1 ->
  moves s s'.
Proof using.
  intros Ht. unfold Redeliver. case_match; [intros E; apply moves_same; by rewrite E|].
  case_match; intros E; [apply moves_same; by rewrite E|].
  eapply moves_fmap; [by rewrite E|]. intros e He. simpl. case_match; [|split; [done|constructor]].
  breflect. split; [done|]. apply move_redelivered; [done|by apply unqueued|done..].
Qed.

Variables maxAttempts retryCeiling : Z.
Hypothesis Hok : db_ok maxAttempts retryCeiling (s_clock s) (s_published s) (s_db s).

Lemma ids_unique : NoDup (DID <$> deliveries (s_db s)).
Proof using Hok. exact (dok_ids _ _ _ (ok_deliveries _ _ _ _ _ Hok)). Qed.

Lemma moves_filter (p : Delivery -> bool) :
  deliveries (s_db s') = List.filter p (deliveries (s_db s)) ->
  (forall d, d ∈ deliveries (s_db s) -> p d = false -> move s s' d None) ->
  moves s s'.
Proof using Hok.
  intros E Hp. pose proof ids_unique as Hnd. split; rewrite E.
  - intros d Hd. destruct (p d) eqn:Ep.
    + left. exists d. split_and!; [by apply elem_of_filter_b|done|constructor].
    + right. split; [|by apply Hp]. intros d' [Hd' Hp']%elem_of_filter_b Ei.
      assert (d' = d) as -> by (by eapply elem_by_key). congruence.
  - intros d' [Hd' _]%elem_of_filter_b. left. by exists d'.
Qed.

(** The deliveries a bounded statement picks are the ones its predicate holds of. *)
Lemma picked_elem (p : Delivery -> bool) le n d :
  d ∈ deliveries (s_db s) ->
  DID d ∈ DID <$> take n (sort_by le (List.filter p (deliveries (s_db s)))) -> p d = true.
Proof using Hok.
  intros Hd (e & E & [k Hk]%list_elem_of_lookup)%list_elem_of_fmap.
  apply lookup_take_Some in Hk as [Hk _].
  apply list_elem_of_lookup_2, sort_by_elem, elem_of_filter_b in Hk as [He Hp].
  assert (d = e) as -> by (eapply elem_by_key; eauto using ids_unique). done.
Qed.

Lemma moves_ClaimDue limit lease t locked k :
  StoreClaimDue limit lease t k ∈ s_threads s ->
  s_db s' = (ClaimDue limit lease t locked (s_db s)).1 -> moves s s'.
Proof using Hok.
  intros Hk E. eapply moves_fmap; [by rewrite E|]. intros d Hd. simpl.
  case_bool_decide as Hin; [|split; [done|constructor]].
  split; [done|]. apply picked_elem in Hin; [|done]. apply andb_true_iff in Hin as [Hdue _].
  apply due_delivery_true in Hdue as (H1 & H2 & H3%active_spec & H4 & H5). by eapply move_claimed.
Qed.

Lemma moves_RedeliverMatching ramp tenant sub :
  s_threads s' = s_threads s ->
  s_db s' = (RedeliverMatching_batch ramp tenant sub (s_clock s) (s_db s)).1 -> moves s s'.
Proof using Hok.
  intros Ht E. eapply moves_fmap; [by rewrite E|]. intros d Hd. simpl.
  case_bool_decide as Hin; [|split; [done|constructor]].
  split; [done|]. apply picked_elem in Hin; [|done]. breflect. apply move_redelivered; auto.
Qed.

Lemma moves_strand cutoff :
  s_threads s' = s_threads s ->
  s_db s' = (DeadLetterStranded_batch (s_clock s) cutoff (s_db s)).1 -> moves s s'.
Proof using Hok.
  intros Ht E. eapply moves_fmap; [by rewrite E|]. intros d Hd. simpl.
  case_bool_decide as Hin; [|split; [done|constructor]].
  split; [done|]. apply picked_elem in Hin; [|done]. unfold stranded in Hin. breflect.
  apply move_stranded; try done. rewrite <- active_spec. congruence.
Qed.

Lemma moves_prune_dead cutoff :
  s_threads s' = s_threads s -> s_db s' = (PruneDeadLetters_batch cutoff (s_db s)).1 -> moves s s'.
Proof using Hok.
  intros Ht E. eapply moves_filter; [by rewrite E|]. intros d Hd Hp. simpl in Hp. breflect.
  apply picked_elem in Hp; [|done]. unfold dead_before in Hp. breflect. by apply move_pruned_dead.
Qed.

(** The rows a bounded statement picks. *)
Lemma picked_row (p : OutboxRow -> bool) le n i :
  i ∈ row_id <$> take n (sort_by le (List.filter p (values (outbox (s_db s))))) ->
  exists r, outbox (s_db s) !! i = Some r /\ p r = true.
Proof using Hok.
  intros (r & -> & [k Hk]%list_elem_of_lookup)%list_elem_of_fmap.
  apply lookup_take_Some in Hk as [Hk _].
  apply list_elem_of_lookup_2, sort_by_elem, elem_of_filter_b in Hk as [Hr Hp].
  apply values_elem in Hr as [i Hr]. exists r. by rewrite (row_key _ _ _ _ _ Hok i r Hr).
Qed.

Lemma delete_rows_gone ids i : i ∈ ids -> outbox (delete_rows ids (s_db s)) !! i = None.
Proof using Hok.
  intros Hi. apply map_lookup_filter_None. right. intros r Hr Hx. apply Hx. simpl.
  by rewrite (row_key _ _ _ _ _ Hok i r Hr).
Qed.

Lemma moves_prune cutoff :
  s_threads s' = s_threads s -> s_db s' = (Prune_batch cutoff (s_db s)).1 -> moves s s'.
Proof using Hok.
  intros Ht E. eapply moves_filter; [by rewrite E|]. intros d Hd Hp. simpl in Hp. breflect.
  pose proof (delete_rows_gone _ _ Hp) as Hgone.
  apply picked_row in Hp as (r & Hr & Hp). unfold prunable in Hp. breflect.
  apply move_pruned; [done| |by rewrite E]. pose proof (existsb_false _ _ d H0 Hd) as Hu. simpl in Hu.
  rewrite (row_key _ _ _ _ _ Hok _ _ Hr), bool_decide_true in Hu by done. simpl in Hu. by breflect.
Qed.

Lemma moves_prune_parked cutoff :
  s_threads s' = s_threads s -> s_db s' = (PruneParked_batch cutoff (s_db s)).1 -> moves s s'.
Proof using Hok.
  intros Ht E. eapply moves_filter; [by rewrite E|]. intros d Hd Hp. simpl in Hp. breflect.
  pose proof (delete_rows_gone _ _ Hp) as Hgone.
  apply picked_row in Hp as (r & Hr & Hp). unfold parked_before in Hp.
  destruct (parked_at r) as [t|] eqn:Et; [|done].
  eapply move_parked; [done|exact Hr|exact Et|by rewrite E].
Qed.

Lemma moves_unsubscribe tenant id :
  s_threads s' = s_threads s -> s_db s' = SubscriptionDelete tenant id (s_db s) -> moves s s'.
Proof using Hok.
  intros Ht. unfold SubscriptionDelete. case_bool_decide as Hex;
    intros E; [|apply moves_same; by rewrite E].
  eapply moves_filter; [by rewrite E|]. intros d Hd Hp. simpl in Hp. breflect.
  apply list.Exists_exists in Hex as (sub & Hs & Etn & Eid).
  eapply move_unsubscribed; [done|exact Hs|congruence|]. rewrite E. simpl.
  intros sub' [Hs' Hf]%elem_of_filter_b E'. breflect. apply Hf.
  assert (sub' = sub) as ->; [|done].
  eapply (elem_by_key SubID); [exact (ok_subs _ _ _ _ _ Hok)|done|done|congruence].
Qed.

End MovesOf.

Lemma moves_call maxAttempts retryCeiling db now pub p db' pub' p' ps1 ps2 :
  call maxAttempts retryCeiling db now pub p db' pub' p' ->
  db_ok maxAttempts retryCeiling now pub db ->
  moves (mkSys db now (ps1 ++ p :: ps2) pub) (mkSys db' now (ps1 ++ p' :: ps2) pub').
Proof.
  intros Hc Hok. assert (p ∈ ps1 ++ p :: ps2) as Hp by (apply elem_of_app; right; left).
  destruct Hc;
    lazymatch type of Hp with
    | StoreFinalize _ _ ∈ _ => first [by apply moves_same|eapply moves_Finalize; reflexivity]
    | StoreReleaseExpired _ _ ∈ _ =>
        first [eapply moves_same; reflexivity|eapply moves_ReleaseExpired; [exact Hp|reflexivity]]
    | StoreClaimDue _ _ _ _ ∈ _ =>
        first [eapply moves_same; reflexivity
              |eapply moves_ClaimDue; [exact Hok|exact Hp|reflexivity]]
    | StoreRecord _ _ _ ∈ _ => idtac
    | _ => apply moves_same; reflexivity
    end.
  - eapply (moves_RecordOutcomes _ _ t outcomes (length outcomes)); [exact Hp|].
    by rewrite firstn_all.
  - by eapply (moves_RecordOutcomes _ _ t outcomes n).
Qed.

Lemma moves_operation maxAttempts retryCeiling now ps pub db db' :
  operation now db db' -> db_ok maxAttempts retryCeiling now pub db ->
  moves (mkSys db now ps pub) (mkSys db' now ps pub).
Proof.
  intros Hop Hok. destruct Hop;
    pose proof (Hok : db_ok maxAttempts retryCeiling (s_clock (mkSys db now ps pub))
      (s_published (mkSys db now ps pub)) (s_db (mkSys db now ps pub))) as Hok';
    try (apply moves_same; reflexivity).
  - apply moves_same. simpl. unfold Write in H. by res_inv.
  - apply (moves_prune _ _ _ _ Hok' cutoff); reflexivity.
  - apply (moves_prune_parked _ _ _ _ Hok' cutoff); reflexivity.
  - apply (moves_strand _ _ _ _ Hok' cutoff); reflexivity.
  - apply (moves_prune_dead _ _ _ _ Hok' cutoff); reflexivity.
  - apply (moves_Redeliver _ _ tenant id); reflexivity.
  - apply (moves_RedeliverMatching _ _ _ _ Hok' ramp tenant sub); reflexivity.
  - apply moves_same. simpl. unfold SubscriptionCreate in H. by res_inv.
  - apply (moves_unsubscribe _ _ _ _ Hok' tenant id); reflexivity.
  - apply moves_same. simpl. unfold CommitCursor, CursorCommit. by repeat case_match.
Qed.

Lemma moves_step maxAttempts retryCeiling s s' :
  sys_step maxAttempts retryCeiling s s' -> inv maxAttempts retryCeiling s -> moves s s'.
Proof.
  destruct 1; intros [Hok _]; simpl in *; try (by apply moves_same).
  - by eapply moves_call.
  - by eapply moves_operation.
Qed.

(** C6: webhook deliveries follow their lifecycle, whatever workers, operators
    and pruners do.  In every reachable state a subscription has at most one
    delivery in flight, and exactly the deliveries in flight hold a lease.  In
    every step each delivery stays, is claimed by a worker (only the oldest
    pending one of an active subscription with nothing in flight), is settled or
    rescheduled with the outcome of a worker that still holds its lease (an
    outcome whose lease was lost changes nothing), returns to pending once that
    lease expired, is redelivered by an operator once settled, is dead-lettered
    when its subscription is off, or is removed: once delivered, with its
    envelope; once dead; with its envelope, if that is parked; or with its
    subscription.  A recorded batch changes every delivery by the first outcome
    that holds its lease and by no other.  New deliveries come last in their
    queue. *)
Theorem webhook_lifecycle maxAttempts retryCeiling s :
  0 < maxAttempts -> 0 < retryCeiling -> reachable maxAttempts retryCeiling s ->
  (forall d e, d ∈ deliveries (s_db s) -> e ∈ deliveries (s_db s) ->
     SubscriptionID d = SubscriptionID e -> DStatus d = StatusInflight ->
     DStatus e = StatusInflight -> d = e) /\
  (forall d, d ∈ deliveries (s_db s) ->
     DStatus d = StatusInflight <-> exists t, LeaseExpiresAt d = Some t) /\
  (forall d, d ∈ deliveries (s_db s) -> FeedSeq d <= sequence (s_db s)) /\
  (forall t os, Forall2 (batch_effect os) (deliveries (s_db s))
     (RecordOutcomes t os (deliveries (s_db s)) 0).1) /\
  (forall s', sys_step maxAttempts retryCeiling s s' -> moves s s').
Proof.
  intros Hmax Hceil Hs. apply (delivery_inv _ _ Hmax Hceil) in Hs as Hinv.
  pose proof Hinv as [Hok _]. pose proof (ok_deliveries _ _ _ _ _ Hok) as Hds.
  split_and!.
  - intros d e Hd He Es Sd Se. eapply (elem_by_key DID); [exact (dok_ids _ _ _ Hds)|done|done|].
    by apply (dok_one _ _ _ Hds).
  - pose proof (dok_leased _ _ _ Hds) as Hl. by rewrite list.Forall_forall in Hl.
  - intros d Hd. pose proof (dok_refers _ _ _ Hds) as Hr. rewrite list.Forall_forall in Hr.
    destruct (Hr d Hd) as (r & Hi & Hq & _).
    destruct (rok_seq _ _ _ _ _ _ _ (ok_rows _ _ _ _ _ Hok _ _ Hi) _ Hq). lia.
  - intros t os. rewrite RecordOutcomes_fmap. apply Forall2_fmap_r, Forall_Forall2_diag.
    apply Forall_true. intros d. apply RecordOutcomes_effect.
  - intros s' Hstep. by eapply moves_step.
Qed.

(** ** An envelope parked by one relay and delivered by another *)

Section ParkedAndDelivered.
Variables maxAttempts retryCeiling : Z.
Hypothesis Hmax : 0 < maxAttempts.
Hypothesis Hceil : 0 < retryCeiling.
Variables (now : Z) (pub : list ID) (db : DB).
Hypothesis Hok : db_ok maxAttempts retryCeiling now pub db.

(** An expanded row and its new deliveries. *)
Lemma expand_delivers fresh ids i row sub :
  outbox db !! i = Some row -> dispatched_at row = None -> i ∈ ids -> sub ∈ subscribers db row ->
  exists q d, outbox (expand now fresh ids db) !! i = Some (dispatch_row now q row) /\
    d ∈ deliveries (expand now fresh ids db) /\ SubscriptionID d = SubID sub /\ EnvelopeID d = i /\
    DStatus d = StatusPending.
Proof using Hok.
  intros Hr Hd Hi Hs. pose proof (row_key _ _ _ _ _ Hok i row Hr) as Ei.
  assert (row ∈ pending_rows ids db) as Hp.
  { apply (pending_rows_elem _ _ _ _ _ Hok). by rewrite Ei. }
  apply list_elem_of_lookup in Hp as [k Hk]. set (q := sequence db + 1 + Z.of_nat k).
  assert ((row, q, sub) ∈ fanout ids db) as Hf.
  { apply fanout_elem. split; [|done]. eapply list_elem_of_lookup_2. by apply numbered_lookup. }
  apply list_elem_of_lookup in Hf as [n Hn].
  exists q, (newDelivery now (fresh n) (row, q, sub)). split_and!; [|  |done|done|done].
  - rewrite <- Ei. by apply (expand_member _ _ _ _ _ Hok).
  - simpl. apply elem_of_app. right. apply new_deliveries_elem. eauto 10.
Qed.

Lemma values_size (o : gmap ID OutboxRow) p le :
  (length (sort_by le (List.filter p (values o))) <= size o)%nat.
Proof using.
  rewrite (Permutation_length (sort_by_perm _ _)). etrans; [apply filter_length_le|].
  unfold values. by rewrite length_fmap, length_map_to_list.
Qed.

(** A bounded purge of parked rows takes a parked row and its deliveries. *)
Lemma PruneParked_takes cutoff i row :
  (size (outbox db) <= pruneBatch)%nat -> outbox db !! i = Some row ->
  parked_before cutoff row = true ->
  outbox (PruneParked_batch cutoff db).1 !! i = None /\
  forall d, d ∈ deliveries (PruneParked_batch cutoff db).1 -> EnvelopeID d <> i.
Proof using Hok.
  intros Hsize Hr Hp. pose proof (row_key _ _ _ _ _ Hok i row Hr) as Ei.
  unfold PruneParked_batch. simpl. rewrite take_ge.
  2:{ etrans; [apply values_size|exact Hsize]. }
  assert (i ∈ row_id <$> sort_by by_id (List.filter (parked_before cutoff) (values (outbox db)))) as Hin.
  { apply list_elem_of_fmap. exists row. split; [done|].
    apply sort_by_elem, elem_of_filter_b. split; [|done]. apply values_elem. by exists i. }
  split.
  - apply map_lookup_filter_None. right. intros r' Hr' Hx. apply Hx. simpl.
    by rewrite (row_key _ _ _ _ _ Hok i r' Hr').
  - intros d [_ Hd]%elem_of_filter_b <-. by breflect.
Qed.
End ParkedAndDelivered.

(** C39: a relay's failure that comes late, after its claim lapsed and another
    relay's dispatch of the envelope succeeded, can park the envelope just before
    that success expands it.  Expansion leaves [parked_at] set, so the envelope is
    at once dispatched with its deliveries queued, and parked: an operator's
    redrive does not touch it, and the purge of parked envelopes deletes it from
    the feed together with deliveries no worker has made yet. *)
Theorem parked_delivery_lost maxAttempts retryCeiling db now ps pub i row sub err fresh k1 k2 :
  0 < maxAttempts -> 0 < retryCeiling -> fresh_ids db fresh ->
  reachable maxAttempts retryCeiling
    (mkSys db now (StoreFinalize [mkResult i (Some err)] k1 ::
                   StoreFinalize [mkResult i None] k2 :: ps) pub) ->
  outbox db !! i = Some row -> dispatched_at row = None -> maxAttempts <= attempts row + 1 ->
  sub ∈ subscribers db row -> (size (outbox db) <= pruneBatch)%nat ->
  let db1 := Finalize maxAttempts retryCeiling now fresh [mkResult i (Some err)] db in
  let db2 := Finalize maxAttempts retryCeiling now fresh [mkResult i None] db1 in
  reachable maxAttempts retryCeiling (mkSys db2 now (k1 (Ok tt) :: k2 (Ok tt) :: ps) pub) /\
  (exists row' d, outbox db2 !! i = Some row' /\ dispatched_at row' = Some now /\
     parked_at row' = Some now /\ d ∈ deliveries db2 /\ SubscriptionID d = SubID sub /\
     EnvelopeID d = i /\ DStatus d = StatusPending) /\
  (forall t f, outbox (Redrive t f db2).1 !! i = outbox db2 !! i) /\
  (forall cutoff, now < cutoff -> outbox (PruneParked_batch cutoff db2).1 !! i = None /\
     forall d, d ∈ deliveries (PruneParked_batch cutoff db2).1 -> EnvelopeID d <> i).
Proof.
  intros Hmax Hceil Hfr Hs Hr Hd Ha Hsub Hsize db1 db2.
  set (row1 := fail_row maxAttempts retryCeiling now err row).
  assert (parked_at row1 = Some now) as Hpk by (simpl; by rewrite (proj2 (Z.leb_le _ _) Ha)).
  assert (db1 = set_outbox db (<[i := row1]> (outbox db))) as E1.
  { unfold db1, Finalize. simpl. unfold mark_failure. simpl. by rewrite Hr, Hd. }
  assert (outbox db1 !! i = Some row1) as Hr1 by (rewrite E1; apply lookup_insert_eq).
  assert (db2 = set_outbox (expand now fresh [i] db1) (outbox (expand now fresh [i] db1))) as E2 by done.
  assert (fresh_ids db1 fresh) as Hfr1 by (by rewrite E1).
  assert (reachable maxAttempts retryCeiling
    (mkSys db1 now (k1 (Ok tt) :: StoreFinalize [mkResult i None] k2 :: ps) pub)) as Hs1.
  { eapply reach_step; [exact Hs|].
    apply (step_call _ _ _ _ _ [] (StoreFinalize [mkResult i None] k2 :: ps)). by constructor. }
  assert (reachable maxAttempts retryCeiling
    (mkSys db2 now (k1 (Ok tt) :: k2 (Ok tt) :: ps) pub)) as Hs2.
  { eapply reach_step; [exact Hs1|].
    apply (step_call _ _ _ _ _ [k1 (Ok tt)] ps). by constructor. }
  pose proof (delivery_inv _ _ Hmax Hceil _ Hs1) as [Hok1 _]. simpl in Hok1.
  pose proof (delivery_inv _ _ Hmax Hceil _ Hs2) as [Hok2 _]. simpl in Hok2.
  assert (sub ∈ subscribers db1 row1) as Hsub1 by (by rewrite E1).
  destruct (expand_delivers _ _ _ _ _ Hok1 fresh [i] i row1 sub Hr1 Hd ltac:(set_solver) Hsub1)
    as (q & d & Hr2 & Hd2 & Es & Ee & Est).
  change (outbox (expand now fresh [i] db1)) with (outbox db2) in Hr2.
  change (deliveries (expand now fresh [i] db1)) with (deliveries db2) in Hd2.
  assert (size (outbox db2) = size (outbox db)) as Esize.
  { change (outbox db2) with (outbox (expand now fresh [i] db1)).
    rewrite <- !size_dom, (expand_dom _ _ _ _ _ Hok1), E1. simpl.
    rewrite dom_insert_L. f_equal. apply subseteq_union_1_L. apply elem_of_dom_2 in Hr. set_solver. }
  split_and!.
  - exact Hs2.
  - exists (dispatch_row now q row1), d. split_and!; done.
  - intros t f. unfold Redrive. cbn [outbox set_outbox fst]. rewrite lookup_fmap, Hr2. simpl.
    by rewrite andb_false_r.
  - intros cutoff Hc. eapply (PruneParked_takes _ _ _ _ _ Hok2); [|exact Hr2|].
    + by rewrite Esize.
    + unfold parked_before. simpl. rewrite (proj2 (Z.leb_le _ _) Ha). by apply Z.ltb_lt.
Qed.
