(* ===== verification/DeliveryExample.v ===== *)
(** A run of the delivery system in which two relays race for one envelope, and
    the promises of [DeliveryProps] and [DeliveryQueue] at the states of that run. *)

From Stdlib Require Import ZArith Lia String Ascii List Permutation Sorted.
From stdpp Require Import base tactics list gmap sets strings option decidable relations.
From S2P Require Import Prelude GoText Ids Delivery DeliveryFacts DeliveryProps DeliveryLive DeliveryQueue.

Open Scope Z_scope.
Open Scope go_scope.

Lemma reach_call m c db now pub ps1 ps2 p db' pub' p' :
  reachable m c (mkSys db now (ps1 ++ p :: ps2) pub) -> call m c db now pub p db' pub' p' ->
  reachable m c (mkSys db' now (ps1 ++ p' :: ps2) pub').
Proof. intros Hs Hc. eapply reach_step; [exact Hs|by constructor]. Qed.

Lemma reach_operation m c db now pub ps db' :
  reachable m c (mkSys db now ps pub) -> operation now db db' ->
  reachable m c (mkSys db' now ps pub).
Proof. intros Hs Ho. eapply reach_step; [exact Hs|by constructor]. Qed.

(** One attempt is allowed; relay "a" claims the envelope and is slow, relay "b"
    claims it again once the lease of "a" is over and fails. *)
Module Race.
Definition ceiling : Z := defaultOutboxRetryCeiling.

Definition subscription1 : Subscription :=
  mkSubscription 7%N "default" "audit" "https://example.org" "secret" [] true 0 0.

Definition subscribed : DB := mkDB ∅ 0 [subscription1] [] ∅.

Definition written : DB :=
  set_outbox subscribed (insert_all EnvID (newRow 0) [Example.envelope1] ∅).

Definition relay_a : Relay := mkRelay "a" 2 Minute.
Definition relay_b : Relay := mkRelay "b" 2 Minute.

Definition claimed_by (r : Relay) (now : Z) (db : DB) : DB :=
  (Claim (relayID r) (batch r) (leaseTTL r) now [] db).1.

Definition claimed_a : DB := claimed_by relay_a 0 written.
Definition claimed_b : DB := claimed_by relay_b (2 * Minute) claimed_a.

(** How a relay goes on after a batch of one. *)
Definition after_finalize (res : result unit) : prog :=
  match res with
  | Err e => Report e (drained false)
  | Ok _ => drained true
  end.

Definition failed : list Result := [mkResult 1%N (Some "timeout")].
Definition done : list Result := [mkResult 1%N None].

Definition racing : Sys :=
  mkSys claimed_b (2 * Minute)
    [StoreFinalize failed after_finalize; StoreFinalize done after_finalize] [1%N].

Definition parked : DB :=
  Finalize 1 ceiling (2 * Minute) (next_ids claimed_b) failed claimed_b.
Definition delivered : DB :=
  Finalize 1 ceiling (2 * Minute) (next_ids claimed_b) done parked.

Definition finished : Sys :=
  mkSys delivered (2 * Minute) [after_finalize (Ok tt); after_finalize (Ok tt)] [1%N].

(** The purge of parked envelopes, after the race. *)
Definition purged : Sys :=
  mkSys (PruneParked_batch (3 * Minute) (s_db finished)).1 (s_clock finished)
    (s_threads finished) (s_published finished).

Lemma race_written : reachable 1 ceiling (mkSys written 0 [] []).
Proof.
  eapply reach_operation; [eapply reach_operation; [apply (reach_initial _ _ 0)|]|].
  - apply op_subscribe with subscription1. vm_compute. reflexivity.
  - apply op_write with [Example.envelope1]. vm_compute. reflexivity.
Qed.

(** A relay starts, claims the only envelope and is about to dispatch it. *)
Definition dispatching : prog :=
  DispatchEnvelopes Example.envelope1 (fun err =>
    StoreFinalize [mkResult 1%N err] after_finalize).

Lemma relay_claims m c r db now ps :
  (1 <? batch r)%nat = true ->
  (Claim (relayID r) (batch r) (leaseTTL r) now [] db).2 = [Example.envelope1] ->
  reachable m c (mkSys db now ps []) ->
  reachable m c (mkSys (claimed_by r now db) now (dispatching :: ps) []).
Proof.
  intros Hb Hc Hs.
  pose proof (reach_step _ _ _ _ Hs (step_relay _ _ _ _ _ _ 1 r)) as H. cbn [drain] in H.
  pose proof (reach_call _ _ _ _ _ [] ps _ _ _ _ H (call_ctx _ _ _ _ _ false _)) as H1.
  cbn [app] in H1.
  assert (Permutation [Example.envelope1] (Claim (relayID r) (batch r) (leaseTTL r) now [] db).2)
    as HP by (by rewrite Hc).
  pose proof (reach_call _ _ _ _ _ [] ps _ _ _ _ H1
    (call_claim _ _ _ _ _ _ _ _ [] [Example.envelope1] _ HP)) as H2.
  cbn [app dispatchAll length] in H2. by rewrite Hb in H2.
Qed.

Lemma claimed_b_reachable :
  reachable 1 ceiling (mkSys claimed_b (2 * Minute) [dispatching; dispatching] []).
Proof.
  apply (relay_claims _ _ relay_b); [done|vm_compute; reflexivity|].
  eapply reach_step; [|apply (step_tick _ _ _ 0); vm_compute; discriminate].
  apply (relay_claims _ _ relay_a); [done|vm_compute; reflexivity|exact race_written].
Qed.

Lemma racing_reachable : reachable 1 ceiling racing.
Proof.
  pose proof (reach_call _ _ _ _ _ [] _ _ _ _ _ claimed_b_reachable
    (call_dispatch_fails _ _ _ _ _ _ "timeout" _)) as H1.
  exact (reach_call _ _ _ _ _ [_] [] _ _ _ _ H1 (call_dispatch _ _ _ _ _ _ _)).
Qed.

Lemma finished_reachable : reachable 1 ceiling finished.
Proof.
  pose proof (reach_call _ _ _ _ _ [] _ _ _ _ _ racing_reachable
    (call_finalize _ _ _ _ _ _ failed _ (next_ids_fresh claimed_b))) as H1.
  refine (reach_call _ _ _ _ _ [_] [] _ _ _ _ H1 (call_finalize _ _ _ _ _ _ done _ _)).
  exact (next_ids_fresh claimed_b).
Qed.
End Race.

Lemma expansion_exactly_once_witness :
  exists d, deliveries (s_db Race.finished) = [d] /\
    exists r, outbox (s_db Race.finished) !! EnvelopeID d = Some r /\ dispatched_at r <> None.
Proof.
  pose proof (expansion_exactly_once 1 Race.ceiling ltac:(lia) ltac:(vm_compute; reflexivity)
    Race.finished Race.finished_reachable) as (_ & _ & H & _).
  eexists. split; [vm_compute; reflexivity|].
  destruct (H (hd (newDelivery 0 0%N (newRow 0 Example.envelope1, 0, Race.subscription1))
    (deliveries (s_db Race.finished)))) as (r & Hr & Hd & _); [vm_compute; left|].
  exists r. split; [exact Hr|exact Hd].
Defined.

Lemma feed_reader_complete_witness :
  exists out, FeedPage "default" 0 [] 10 (s_db Race.finished) = Ok out /\ NextCursor out = 1 /\
    StronglySorted (fun a b => by_seq a b = true) (Items out) /\ length (Items out) = 1%nat.
Proof.
  eexists. split; [vm_compute; reflexivity|]. split; [reflexivity|]. split; [|reflexivity].
  apply (feed_reader_complete 1 Race.ceiling ltac:(lia) ltac:(vm_compute; reflexivity)
    Race.finished Race.finished "default" 0 [] 10 _ Race.finished_reachable); [|apply rtc_refl].
  vm_compute. reflexivity.
Defined.

Lemma webhook_lifecycle_witness :
  moves Race.finished Race.purged /\
  length (deliveries (s_db Race.finished)) = 1%nat /\ deliveries (s_db Race.purged) = [].
Proof.
  split; [|split; vm_compute; reflexivity].
  refine (proj2 (proj2 (proj2 (proj2 (webhook_lifecycle 1 Race.ceiling Race.finished _ _
    Race.finished_reachable)))) Race.purged _).
  - lia.
  - vm_compute. reflexivity.
  - apply step_operation, op_prune_parked.
Defined.

Lemma parked_delivery_lost_witness :
  reachable 1 Race.ceiling Race.finished /\
  outbox (PruneParked_batch (3 * Minute) Race.delivered).1 !! 1%N = None.
Proof.
  destruct (parked_delivery_lost 1 Race.ceiling Race.claimed_b (2 * Minute) [] [1%N] 1%N
    (claim_row (2 * Minute) "b" (newRow 0 Example.envelope1)) Race.subscription1 "timeout"
    (next_ids Race.claimed_b) Race.after_finalize Race.after_finalize) as (H1 & _ & _ & H2).
  - lia.
  - vm_compute. reflexivity.
  - apply next_ids_fresh.
  - exact Race.racing_reachable.
  - vm_compute. reflexivity.
  - reflexivity.
  - vm_compute. discriminate.
  - vm_compute. left.
  - apply Nat.leb_le. vm_compute. reflexivity.
  - split; [exact H1|]. apply (H2 (3 * Minute)). vm_compute. reflexivity.
Defined.
