(* ===== verification/ChangeSet.v ===== *)
(** Change-sets: the Go package [application/changeset] and its Postgres store
    ([infrastructure/postgres/changeset_store.go]).

    A usecase is a program ([prog]) over the calls it makes to the store, the
    clock and the value interactor, each call a node whose continuation takes
    the answer.  The same program is run alone ([run]) and, in
    [ChangeSetFacts], interleaved with any number of others. *)

From Stdlib Require Import ZArith Lia String Ascii List.
From stdpp Require Import base tactics list gmap strings option decidable.
From S2P Require Import Prelude GoText Values Ids Attribute Access.

Open Scope Z_scope.
Open Scope go_scope.

(** ** Data *)

Inductive State :=
  | StateDraft | StateInReview | StateApproved | StatePublishing | StatePublished
  | StateRejected | StateOther (s : string).

#[export] Instance State_eq_dec : EqDecision State.
Proof. solve_decision. Defined.

Record Mutation := mkMutation {
  MKind : string;
  MAttributeDefinitionID : string;
  MEntityID : string;
  MTypeDefinitionID : string;
  MLocale : string;
  MChannel : string;
  MValue : option string;
  Redacted : bool;
  Erased : bool }.

#[export] Instance Mutation_eq_dec : EqDecision Mutation.
Proof. solve_decision. Defined.

Definition MutationSet : string := "set".
Definition MutationRemove : string := "remove".

(** Instants are nanoseconds on one time line. *)
Record ChangeSet := mkChangeSet {
  csID : ID;
  csTenant : TenantID;
  csName : string;
  csState : State;
  RequireApproval : bool;
  Author : string;
  Approver : string;
  Mutations : list Mutation;
  PublishAt : option Z;
  csCreatedAt : Z;
  csUpdatedAt : Z;
  csPublishedAt : option Z;
  csVersion : Z }.

(** Field updates. *)
Definition set_state (cs : ChangeSet) (s : State) : ChangeSet :=
  mkChangeSet (csID cs) (csTenant cs) (csName cs) s (RequireApproval cs) (Author cs)
    (Approver cs) (Mutations cs) (PublishAt cs) (csCreatedAt cs) (csUpdatedAt cs)
    (csPublishedAt cs) (csVersion cs).

Definition set_approver (cs : ChangeSet) (a : string) : ChangeSet :=
  mkChangeSet (csID cs) (csTenant cs) (csName cs) (csState cs) (RequireApproval cs) (Author cs)
    a (Mutations cs) (PublishAt cs) (csCreatedAt cs) (csUpdatedAt cs)
    (csPublishedAt cs) (csVersion cs).

Definition set_mutations (cs : ChangeSet) (ms : list Mutation) : ChangeSet :=
  mkChangeSet (csID cs) (csTenant cs) (csName cs) (csState cs) (RequireApproval cs) (Author cs)
    (Approver cs) ms (PublishAt cs) (csCreatedAt cs) (csUpdatedAt cs)
    (csPublishedAt cs) (csVersion cs).

Definition set_updated (cs : ChangeSet) (t : Z) : ChangeSet :=
  mkChangeSet (csID cs) (csTenant cs) (csName cs) (csState cs) (RequireApproval cs) (Author cs)
    (Approver cs) (Mutations cs) (PublishAt cs) (csCreatedAt cs) t
    (csPublishedAt cs) (csVersion cs).

Definition set_published (cs : ChangeSet) (t : option Z) : ChangeSet :=
  mkChangeSet (csID cs) (csTenant cs) (csName cs) (csState cs) (RequireApproval cs) (Author cs)
    (Approver cs) (Mutations cs) (PublishAt cs) (csCreatedAt cs) (csUpdatedAt cs)
    t (csVersion cs).

Definition set_version (cs : ChangeSet) (v : Z) : ChangeSet :=
  mkChangeSet (csID cs) (csTenant cs) (csName cs) (csState cs) (RequireApproval cs) (Author cs)
    (Approver cs) (Mutations cs) (PublishAt cs) (csCreatedAt cs) (csUpdatedAt cs)
    (csPublishedAt cs) v.

(** 15 minutes. *)
Definition PublishClaimTTL : Z := 15 * 60 * 1000000000.

(** ** Programs *)

Inductive prog (A : Type) : Type :=
  | Ret (a : A)
  | Now (k : Z -> prog A)
  | NewID (k : ID -> prog A)
  | StoreCreate (cs : ChangeSet) (k : result unit -> prog A)
  | StoreGet (tenant : TenantID) (id : ID) (k : result ChangeSet -> prog A)
  | StoreList (tenant : TenantID) (k : result (list ChangeSet) -> prog A)
  | StoreUpdate (cs : ChangeSet) (k : result unit -> prog A)
  | DueForPublish (now : Z) (k : result (list ChangeSet) -> prog A)
  | StalePublishing (before : Z) (k : result (list ChangeSet) -> prog A)
  | ApplyMutations (tenant : TenantID) (ms : list Mutation) (k : result unit -> prog A)
  | OnPublishFailure (cs : ChangeSet) (e : Error) (k : prog A).

Arguments Ret {A} a.
Arguments Now {A} k.
Arguments NewID {A} k.
Arguments StoreCreate {A} cs k.
Arguments StoreGet {A} tenant id k.
Arguments StoreList {A} tenant k.
Arguments StoreUpdate {A} cs k.
Arguments DueForPublish {A} now k.
Arguments StalePublishing {A} before k.
Arguments ApplyMutations {A} tenant ms k.
Arguments OnPublishFailure {A} cs e k.

Fixpoint pbind {A B} (p : prog A) (f : A -> prog B) : prog B :=
  match p with
  | Ret a => f a
  | Now k => Now (fun t => pbind (k t) f)
  | NewID k => NewID (fun i => pbind (k i) f)
  | StoreCreate cs k => StoreCreate cs (fun r => pbind (k r) f)
  | StoreGet tn i k => StoreGet tn i (fun r => pbind (k r) f)
  | StoreList tn k => StoreList tn (fun r => pbind (k r) f)
  | StoreUpdate cs k => StoreUpdate cs (fun r => pbind (k r) f)
  | DueForPublish now k => DueForPublish now (fun r => pbind (k r) f)
  | StalePublishing b k => StalePublishing b (fun r => pbind (k r) f)
  | ApplyMutations tn ms k => ApplyMutations tn ms (fun r => pbind (k r) f)
  | OnPublishFailure cs e k => OnPublishFailure cs e (pbind k f)
  end.

(** [x <- call; k] binds the answer of a call; [x <-! call; k] also returns its
    error. *)
Notation "x <- c ; k" := (c (fun x => k))
  (at level 90, c at level 10, k at level 200, right associativity, only parsing) : prog_scope.
Notation "x <-! c ; k" :=
  (c (fun r => match r with Ok x => k | Err e => Ret (Err e) end))
  (at level 90, c at level 10, k at level 200, right associativity, only parsing) : prog_scope.
Notation "x '<=!' r ; k" :=
  (match r with Ok x => k | Err e => Ret (Err e) end)
  (at level 90, r at level 10, k at level 200, right associativity, only parsing) : prog_scope.
Declare Scope prog_scope.
Delimit Scope prog_scope with prog.
Open Scope prog_scope.

(** ** The usecases *)

Section Interactor.
Context `{GoUlid}.
(** The attribute repository of the field ACL and the process-wide
    fail-closed flag. *)
Variable GetMany : list ID -> result (list AttrDefinition).
Variable failClosed : bool.

Definition invalid_id {A} (raw : string) (k : ID -> prog (result A)) : prog (result A) :=
  match ParseID raw with
  | Ok i => k i
  | Err e => Ret (Err (NewValidation (Message e)))
  end.

(** *** Field ACL *)

Definition assertWritable (ctx : Context) (m : Mutation) : result unit :=
  match ParseID (MAttributeDefinitionID m) with
  | Err e => Err (NewValidation (Message e))
  | Ok i =>
      let! ok := MayWrite GetMany (AccessFromContext failClosed ctx) i in
      guard! negb ok else NewForbidden "the attribute is not writable" then Ok tt
  end.

Definition mask (m : Mutation) : Mutation :=
  mkMutation (MKind m) (MAttributeDefinitionID m) (MEntityID m) (MTypeDefinitionID m)
    (MLocale m) (MChannel m) None true (Erased m).

Definition parsed_ids (ms : list Mutation) : list ID :=
  omap (fun m => match ParseID (MAttributeDefinitionID m) with Ok i => Some i | Err _ => None end) ms.

Definition redactMutations (readable : gmap string bool) (ms : list Mutation) : list Mutation :=
  (fun m => if lookup_bool readable (MAttributeDefinitionID m) then m else mask m) <$> ms.

Definition redact (ctx : Context) (cs : ChangeSet) : result ChangeSet :=
  if bool_decide (Mutations cs = []) then Ok cs
  else
    let! readable := Readable GetMany (AccessFromContext failClosed ctx)
      (parsed_ids (Mutations cs)) in
    Ok (set_mutations cs (redactMutations readable (Mutations cs))).

(** *** Drafts and reviews *)

Record CreateInput := mkCreateInput {
  inName : string; inRequireApproval : bool; inPublishAt : option Z }.

Definition Create (ctx : Context) (input : CreateInput) : prog (result ChangeSet) :=
  if str_IsZero (inName input) then Ret (Err (NewValidation "change-set name is required"))
  else
    now <- Now;
    i <- NewID;
    let cs := mkChangeSet i (TenantFromContext ctx) (inName input) StateDraft
      (inRequireApproval input) (ActorID (ActorFromContext ctx)) "" [] (inPublishAt input)
      now now None 1 in
    _ <-! StoreCreate cs;
    Ret (Ok cs).

(** [mutate]: load, apply [fn], persist. *)
Definition mutate (ctx : Context) (rawID : string) (fn : ChangeSet -> result ChangeSet) :
    prog (result ChangeSet) :=
  invalid_id rawID (fun i =>
    cs <-! StoreGet (TenantFromContext ctx) i;
    cs <=! fn cs;
    now <- Now;
    let cs := set_updated cs now in
    _ <-! StoreUpdate cs;
    Ret (Ok (set_version cs (bump (csVersion cs))))).

Definition addMutation (ctx : Context) (m : Mutation) (cs : ChangeSet) : result ChangeSet :=
  guard! negb (bool_decide (csState cs = StateDraft))
    else NewValidation "change-set is not a draft" then
  guard! negb (bool_decide (MKind m = MutationSet)) && negb (bool_decide (MKind m = MutationRemove))
    else NewValidation "unknown mutation kind" then
  check! assertWritable ctx m then
  Ok (set_mutations cs (Mutations cs ++ [m])).

Definition AddMutation (ctx : Context) (rawID : string) (m : Mutation) :=
  mutate ctx rawID (addMutation ctx m).

Definition submit (cs : ChangeSet) : result ChangeSet :=
  guard! negb (bool_decide (csState cs = StateDraft))
    else NewValidation "only a draft can be submitted" then
  guard! bool_decide (Mutations cs = [])
    else NewValidation "change-set has no mutations" then
  Ok (set_state cs StateInReview).

Definition Submit (ctx : Context) (rawID : string) := mutate ctx rawID submit.

Definition approve (actor : string) (cs : ChangeSet) : result ChangeSet :=
  guard! negb (bool_decide (csState cs = StateInReview))
    else NewValidation "only an in-review change-set can be approved" then
  guard! RequireApproval cs && bool_decide (actor = EmptyString)
    else NewForbidden "approval requires an authenticated account distinct from the author" then
  guard! RequireApproval cs && bool_decide (actor = Author cs)
    else NewForbidden "approval requires a different account than the author" then
  Ok (set_approver (set_state cs StateApproved) actor).

Definition Approve (ctx : Context) (rawID : string) :=
  mutate ctx rawID (approve (ActorID (ActorFromContext ctx))).

Definition reject (cs : ChangeSet) : result ChangeSet :=
  guard! bool_decide (csState cs = StatePublished)
    else NewValidation "a published change-set cannot be rejected" then
  guard! bool_decide (csState cs = StatePublishing)
    else NewValidation "a publishing change-set cannot be rejected; publish it again once the claim goes stale" then
  Ok (set_state cs StateRejected).

Definition Reject (ctx : Context) (rawID : string) := mutate ctx rawID reject.

(** *** Publishing *)

(** After the guards: claim, apply, then finalise or hand the claim back.
    The answer carries the record as the caller's pointer sees it. *)
Definition publishClaimed (ctx : Context) (cs : ChangeSet) : prog (ChangeSet * result unit) :=
  now <- Now;
  let claimed := set_updated (set_state cs StatePublishing) now in
  StoreUpdate claimed (fun r =>
    match r with
    | Err e => Ret (cs, Err e)
    | Ok _ =>
        let claimed := set_version claimed (bump (csVersion claimed)) in
        ApplyMutations (TenantFromContext ctx) (Mutations claimed) (fun r =>
          match r with
          | Err e =>
              let release := set_state claimed
                (if bool_decide (csState cs = StatePublishing) then StateApproved
                 else csState cs) in
              now <- Now;
              let release := set_updated release now in
              StoreUpdate release (fun rerr =>
                match rerr with
                | Ok _ => Ret (set_version release (bump (csVersion release)), Err e)
                | Err _ => Ret (cs, Err e)
                end)
          | Ok _ =>
              now <- Now;
              let claimed := set_updated
                (set_published (set_state claimed StatePublished) (Some now)) now in
              StoreUpdate claimed (fun r =>
                match r with
                | Err e => Ret (cs, Err e)
                | Ok _ => Ret (set_version claimed (bump (csVersion claimed)), Ok tt)
                end)
          end)
    end).

Definition publish (ctx : Context) (cs : ChangeSet) : prog (ChangeSet * result unit) :=
  match csState cs with
  | StateApproved => publishClaimed ctx cs
  | StateDraft | StateInReview =>
      if RequireApproval cs then
        Ret (cs, Err (NewValidation "change-set must be approved before publishing"))
      else publishClaimed ctx cs
  | StatePublishing =>
      now <- Now;
      if now - csUpdatedAt cs <? PublishClaimTTL then
        Ret (cs, Err (NewValidation "the change-set is publishing; it can be published again once the claim goes stale"))
      else publishClaimed ctx cs
  | _ => Ret (cs, Err (NewValidation "change-set cannot be published"))
  end.

Definition Publish (ctx : Context) (rawID : string) : prog (result ChangeSet) :=
  invalid_id rawID (fun i =>
    cs <-! StoreGet (TenantFromContext ctx) i;
    pbind (publish ctx cs) (fun res =>
      match res.2 with
      | Err e => Ret (Err e)
      | Ok _ => Ret (Ok res.1)
      end)).

(** One pass over the due sets; [observed] tells whether an observer of
    failures is wired. *)
Fixpoint publishEach (observed : bool) (ctx : Context) (due : list ChangeSet) (published : Z) :
    prog (result Z) :=
  match due with
  | [] => Ret (Ok published)
  | cs :: due =>
      pbind (publish (WithTenant ctx (csTenant cs)) cs) (fun res =>
        match res.2 with
        | Err e =>
            if observed then OnPublishFailure res.1 e (publishEach observed ctx due published)
            else publishEach observed ctx due published
        | Ok _ => publishEach observed ctx due (published + 1)
        end)
  end.

(** Both stores implement [ClaimReclaimer]. *)
Definition PublishDue (observed : bool) (ctx : Context) : prog (result Z) :=
  now <- Now;
  due <-! DueForPublish now;
  stale <-! StalePublishing (now - PublishClaimTTL);
  publishEach observed ctx (due ++ stale) 0.

(** *** Reads *)

Definition Get (ctx : Context) (rawID : string) : prog (result ChangeSet) :=
  invalid_id rawID (fun i =>
    cs <-! StoreGet (TenantFromContext ctx) i;
    Ret (redact ctx cs)).

Fixpoint redactAll (ctx : Context) (sets : list ChangeSet) : result (list ChangeSet) :=
  match sets with
  | [] => Ok []
  | cs :: sets =>
      let! cs := redact ctx cs in
      let! sets := redactAll ctx sets in
      Ok (cs :: sets)
  end.

Definition ListSets (ctx : Context) : prog (result (list ChangeSet)) :=
  sets <-! StoreList (TenantFromContext ctx);
  Ret (redactAll ctx sets).

End Interactor.

(** ** The Postgres store *)

Abbreviation Rows := (gmap ID ChangeSet).

Definition ErrStaleVersion : Error :=
  NewConflict "the change-set was modified by someone else; re-read it and retry".

(** The [INTEGER] column [version] holds at most this; incrementing it fails. *)
Definition integerMax : Z := 2 ^ 31 - 1.

(** The columns the [UPDATE] writes; tenant, author and creation time stay. *)
Definition updated_row (stored cs : ChangeSet) : ChangeSet :=
  mkChangeSet (csID stored) (csTenant stored) (csName cs) (csState cs) (RequireApproval cs)
    (Author stored) (Approver cs) (Mutations cs) (PublishAt cs) (csCreatedAt stored)
    (csUpdatedAt cs) (csPublishedAt cs) (csVersion stored + 1).

Definition store_update (rows : Rows) (cs : ChangeSet) : Rows * result unit :=
  match rows !! csID cs with
  | Some stored =>
      if bool_decide (csTenant stored = csTenant cs) && (csVersion stored =? csVersion cs) then
        if csVersion stored <? integerMax
        then (<[csID cs := updated_row stored cs]> rows, Ok tt)
        else (rows, Err (Errorf "save change-set: integer out of range"))
      else (rows, Err ErrStaleVersion)
  | None => (rows, Err ErrStaleVersion)
  end.

(** The primary key refuses a second insert. *)
Definition store_create (rows : Rows) (cs : ChangeSet) : Rows * result unit :=
  let cs := if csVersion cs =? 0 then set_version cs 1 else cs in
  match rows !! csID cs with
  | Some _ => (rows, Err (Errorf "save change-set: duplicate key"))
  | None => (<[csID cs := cs]> rows, Ok tt)
  end.

Definition store_get (rows : Rows) (tenant : TenantID) (i : ID) : result ChangeSet :=
  match rows !! i with
  | Some cs =>
      if bool_decide (csTenant cs = tenant) then Ok cs else Err (NewNotFound "changeset")
  | None => Err (NewNotFound "changeset")
  end.

(** Newest first. *)
Definition store_list (rows : Rows) (tenant : TenantID) : list ChangeSet :=
  sort_by (fun a b => csCreatedAt b <=? csCreatedAt a)
    (List.filter (fun cs => bool_decide (csTenant cs = tenant)) (values rows)).

Definition due (now : Z) (cs : ChangeSet) : bool :=
  bool_decide (csState cs = StateApproved) &&
  match PublishAt cs with Some t => t <=? now | None => false end.

Definition store_due (rows : Rows) (now : Z) : list ChangeSet :=
  List.filter (due now) (values rows).

Definition stale (before : Z) (cs : ChangeSet) : bool :=
  bool_decide (csState cs = StatePublishing) && (csUpdatedAt cs <=? before).

Definition store_stale (rows : Rows) (before : Z) : list ChangeSet :=
  sort_by (fun a b => csUpdatedAt a <=? csUpdatedAt b)
    (List.filter (stale before) (values rows)).

(** [RedactEntity] ([residual_eraser.go]): the values staged for an erased
    entity are dropped and marked, in place. *)
Definition erase (m : Mutation) : Mutation :=
  mkMutation (MKind m) (MAttributeDefinitionID m) (MEntityID m) (MTypeDefinitionID m)
    (MLocale m) (MChannel m) None (Redacted m) true.

Definition erase_entity (entity : EntityID) (ms : list Mutation) : list Mutation :=
  (fun m => if bool_decide (MEntityID m = entity) then erase m else m) <$> ms.

Definition RedactEntity (rows : Rows) (tenant : TenantID) (entity : EntityID) : Rows :=
  (fun cs => if bool_decide (csTenant cs = tenant)
             then set_mutations cs (erase_entity entity (Mutations cs)) else cs) <$> rows.

(** ** A usecase running alone *)

(** The store, a clock that stands still during the call, and the log of the
    batches the value interactor applied. *)
Record World := mkWorld {
  rows : Rows;
  clock : Z;
  applied : list (TenantID * list Mutation);
  failures : list (ChangeSet * Error);
  nextID : ID }.

Definition set_rows (w : World) (r : Rows) : World :=
  mkWorld r (clock w) (applied w) (failures w) (nextID w).

Section Run.
(** [mutationApplier]: the verdict on a batch, applied as a whole or not at all. *)
Variable applier : TenantID -> list Mutation -> result unit.

Definition apply_batch (w : World) (tn : TenantID) (ms : list Mutation) : World * result unit :=
  match applier tn ms with
  | Ok _ => (mkWorld (rows w) (clock w) (applied w ++ [(tn, ms)]) (failures w) (nextID w), Ok tt)
  | Err e => (w, Err e)
  end.

Fixpoint run {A} (p : prog A) (w : World) : World * A :=
  match p with
  | Ret a => (w, a)
  | Now k => run (k (clock w)) w
  | NewID k =>
      run (k (nextID w))
        (mkWorld (rows w) (clock w) (applied w) (failures w) (N.succ (nextID w)))
  | StoreCreate cs k =>
      let (r, res) := store_create (rows w) cs in run (k res) (set_rows w r)
  | StoreGet tn i k => run (k (store_get (rows w) tn i)) w
  | StoreList tn k => run (k (Ok (store_list (rows w) tn))) w
  | StoreUpdate cs k =>
      let (r, res) := store_update (rows w) cs in run (k res) (set_rows w r)
  | DueForPublish now k => run (k (Ok (store_due (rows w) now))) w
  | StalePublishing before k => run (k (Ok (store_stale (rows w) before))) w
  | ApplyMutations tn ms k =>
      let (w', res) := apply_batch w tn ms in run (k res) w'
  | OnPublishFailure cs e k =>
      run k (mkWorld (rows w) (clock w) (applied w) (failures w ++ [(cs, e)]) (nextID w))
  end.

End Run.
