(* ===== verification/ChangeSetFacts.v ===== *)
(** Change-set usecases interleaved: any number of API calls and scheduler
    ticks, on any number of servers, share the store; calls fail, also after
    their effect, callers vanish half way, and erasures rewrite staged values.

    Each program of [ChangeSet] satisfies a rely/guarantee condition ([wp]): what
    it writes is one lifecycle step from a record it read, or from the claim it
    owns.  The compare-and-swap then makes every stored record follow the
    abstract lifecycle ([edge]), from which the safety properties follow. *)

From Stdlib Require Import ZArith Lia String Ascii List Permutation.
From stdpp Require Import base tactics list gmap strings option decidable.
From S2P Require Import Prelude GoText Values Ids Attribute Access ChangeSet.

Open Scope Z_scope.

(** ** The lifecycle, one record at a time *)

(** [edge own c t c']: the write [c'], stamped [t], that the lifecycle permits
    on record [c]; [own] marks the steps reserved to the holder of the claim. *)
Inductive edge (c : ChangeSet) (t : Z) : bool -> ChangeSet -> Prop :=
  | edge_add m :
      csState c = StateDraft -> (MKind m = MutationSet \/ MKind m = MutationRemove) ->
      edge c t false (set_updated (set_mutations c (Mutations c ++ [m])) t)
  | edge_submit :
      csState c = StateDraft -> Mutations c <> [] ->
      edge c t false (set_updated (set_state c StateInReview) t)
  | edge_approve actor :
      csState c = StateInReview ->
      (RequireApproval c = true -> actor <> EmptyString /\ actor <> Author c) ->
      edge c t false (set_updated (set_approver (set_state c StateApproved) actor) t)
  | edge_reject :
      csState c <> StatePublished -> csState c <> StatePublishing ->
      edge c t false (set_updated (set_state c StateRejected) t)
  | edge_claim :
      csState c = StateApproved \/
        (csState c = StateDraft \/ csState c = StateInReview) /\ RequireApproval c = false ->
      edge c t false (set_updated (set_state c StatePublishing) t)
  | edge_reclaim :
      csState c = StatePublishing -> csUpdatedAt c + PublishClaimTTL <= t ->
      edge c t false (set_updated (set_state c StatePublishing) t)
  | edge_release s :
      csState c = StatePublishing ->
      s = StateApproved \/ (s = StateDraft \/ s = StateInReview) /\ RequireApproval c = false ->
      edge c t true (set_updated (set_state c s) t)
  | edge_publish :
      csState c = StatePublishing ->
      edge c t true (set_updated (set_published (set_state c StatePublished) (Some t)) t).

(** *** Erased values *)

Definition mut_le (m m' : Mutation) : Prop := m' = m \/ m' = erase m.

#[export] Instance mut_le_preorder : PreOrder mut_le.
Proof.
  split; [by left|]. intros m m' m'' [->| ->] [->| ->]; [by left|by right|by right|].
  right. done.
Qed.

(** [c'] is [c] with some staged values erased. *)
Definition erased_from (c c' : ChangeSet) : Prop :=
  exists ms, Forall2 mut_le (Mutations c) ms /\ c' = set_mutations c ms.

Lemma set_mutations_same c : set_mutations c (Mutations c) = c.
Proof. by destruct c. Qed.

#[export] Instance erased_from_preorder : PreOrder erased_from.
Proof.
  split.
  - intros c. exists (Mutations c). split; [reflexivity|]. by rewrite set_mutations_same.
  - intros c c' c'' (ms & Hms & ->) (ms' & Hms' & ->). exists ms'. split; [|done].
    by etrans.
Qed.

Lemma erased_entity_from entity c :
  erased_from c (set_mutations c (erase_entity entity (Mutations c))).
Proof.
  eexists. split; [|done]. unfold erase_entity. induction (Mutations c) as [|m ms IH]; simpl; [done|].
  constructor; [|done]. case_bool_decide; [by right|by left].
Qed.

(** One change of a stored record: an erasure, or a lifecycle step from the
    record as its writer read it, before any erasure since. *)
Definition row_next (r r' : ChangeSet) : Prop :=
  erased_from r r' \/
  exists c own t c', erased_from c r /\ edge c t own c' /\ csUpdatedAt c <= t /\
    csVersion r < integerMax /\ r' = set_version c' (csVersion r + 1).

(** ** Programs and what they may write *)

(** What a program knows: the records it read ([R]), the one it wrote last
    ([O]) and a bound on the time ([lo]). *)
Section Wp.

Definition write_ok (R : list ChangeSet) (O : option ChangeSet) (lo : Z) (cs : ChangeSet) : Prop :=
  exists c t own, edge c t own cs /\ csUpdatedAt c <= t <= lo /\
    if own : bool then O = Some c else c ∈ R.

(** A stored record as a read returns it. *)
Definition read_ok (c : ChangeSet) (t : Z) : Prop :=
  1 <= csVersion c <= integerMax /\ csUpdatedAt c <= t /\ csTenant c <> EmptyString.

Definition fresh_draft (cs : ChangeSet) (lo : Z) : Prop :=
  csState cs = StateDraft /\ csVersion cs = 1 /\ csUpdatedAt cs <= lo /\
  csTenant cs <> EmptyString /\
  Approver cs = EmptyString /\ Mutations cs = [].

Fixpoint wp {A} (R : list ChangeSet) (O : option ChangeSet) (lo : Z) (p : prog A)
    (Q : list ChangeSet -> Z -> A -> Prop) : Prop :=
  match p with
  | Ret a => Q R lo a
  | Now k => forall t, lo <= t -> wp R O t (k t) Q
  | NewID k => forall i, wp R O lo (k i) Q
  | StoreCreate cs k => fresh_draft cs lo /\ forall r, wp R O lo (k r) Q
  | StoreGet tn i k =>
      (forall c t, lo <= t -> read_ok c t -> csID c = i -> csTenant c = tn ->
         wp (c :: R) O t (k (Ok c)) Q) /\
      (forall e, wp R O lo (k (Err e)) Q)
  | StoreList tn k => forall r, wp R O lo (k r) Q
  | StoreUpdate cs k =>
      write_ok R O lo cs /\
      wp R (Some (set_version cs (bump (csVersion cs)))) lo (k (Ok tt)) Q /\
      (forall e, wp R None lo (k (Err e)) Q)
  | DueForPublish _ k | StalePublishing _ k =>
      (forall l t, lo <= t -> Forall (fun c => read_ok c t) l -> wp (l ++ R) O t (k (Ok l)) Q) /\
      (forall e, wp R O lo (k (Err e)) Q)
  | ApplyMutations tn ms k =>
      (exists c, O = Some c /\ csState c = StatePublishing /\ ms = Mutations c /\ tn = csTenant c) /\
      (forall r, wp R O lo (k r) Q)
  | OnPublishFailure _ _ k => wp R O lo k Q
  end.

Lemma wp_bind {A B} (p : prog A) (f : A -> prog B) R O lo Q :
  wp R O lo p (fun R' lo' a => forall O', wp R' O' lo' (f a) Q) ->
  wp R O lo (pbind p f) Q.
Proof.
  revert R O lo. induction p; simpl; intros R O lo Hp; try naive_solver.
Qed.

Lemma wp_mono {A} (p : prog A) R O lo (Q Q' : list ChangeSet -> Z -> A -> Prop) :
  (forall R lo a, Q R lo a -> Q' R lo a) -> wp R O lo p Q -> wp R O lo p Q'.
Proof.
  intros HQ. revert R O lo. induction p; simpl; intros R O lo Hp; naive_solver.
Qed.

End Wp.

(** ** The usecases keep to the lifecycle *)

Section Usecases.
Context `{GoUlid}.
Variable GetMany : list ID -> result (list AttrDefinition).
Variable failClosed : bool.

Definition done_with (R : list ChangeSet) (lo : Z) {A} : list ChangeSet -> Z -> A -> Prop :=
  fun R' lo' _ => R ⊆ R' /\ lo <= lo'.

(** [fn] makes the record the lifecycle permits, before its stamp. *)
Definition mutator_ok (fn : ChangeSet -> result ChangeSet) : Prop :=
  forall c c' t, fn c = Ok c' -> edge c t false (set_updated c' t).

Lemma addMutation_ok ctx m : mutator_ok (addMutation GetMany failClosed ctx m).
Proof.
  intros c c' t. unfold addMutation. intros Hf. res_inv. breflect. apply edge_add; [done|].
  match goal with E : _ && _ = false |- _ => apply andb_false_iff in E as [?|?] end;
    breflect; auto.
Qed.

Lemma submit_ok : mutator_ok submit.
Proof. intros c c' t. unfold submit. intros Hf. res_inv. breflect. by apply edge_submit. Qed.

Lemma approve_ok actor : mutator_ok (approve actor).
Proof.
  intros c c' t. unfold approve. intros Hf. res_inv. breflect. apply edge_approve; [done|].
  intros Hr. rewrite Hr in *. simpl in *. by breflect.
Qed.

Lemma reject_ok : mutator_ok reject.
Proof. intros c c' t. unfold reject. intros Hf. res_inv. breflect. by apply edge_reject. Qed.

Lemma wp_mutate ctx raw fn R O lo :
  mutator_ok fn -> wp R O lo (mutate ctx raw fn) (fun _ _ _ => True).
Proof.
  intros Hfn. unfold mutate, invalid_id. destruct (ParseID raw); [|done]. simpl.
  split; [|done]. intros c t Hlo (_ & Hc & _) _ _. destruct (fn c) as [c'|] eqn:Ef; [|done].
  intros t' Ht'. split; [|done]. exists c, t', false.
  split; [by apply Hfn|]. split; [lia|by left].
Qed.

Lemma TenantFromContext_set ctx : TenantFromContext ctx <> EmptyString.
Proof.
  unfold TenantFromContext, str_IsZero. destruct (tenantKey ctx); [|done]. by case_bool_decide.
Qed.

Lemma wp_Create ctx input R O lo : wp R O lo (Create ctx input) (fun _ _ _ => True).
Proof.
  unfold Create. destruct (str_IsZero _); [done|]. simpl. intros t Ht i.
  split; [|by intros []]. split_and!; try done. apply TenantFromContext_set.
Qed.

(** The claim: a state from which one may publish. *)
Definition claimable (c : ChangeSet) : Prop :=
  csState c = StateApproved \/
  (csState c = StateDraft \/ csState c = StateInReview) /\ RequireApproval c = false.

Lemma wp_publishClaimed ctx c R O lo :
  TenantFromContext ctx = csTenant c -> c ∈ R -> csUpdatedAt c <= lo ->
  claimable c \/ csState c = StatePublishing /\ csUpdatedAt c + PublishClaimTTL <= lo ->
  wp R O lo (publishClaimed ctx c) (done_with R lo).
Proof.
  intros Hctx Hin Hlo Hcl. unfold publishClaimed. simpl. intros t Ht.
  assert (forall t', t <= t' -> R ⊆ R /\ lo <= t') as Hend by (split; [done|lia]).
  split; [|split; [|intros ?; by apply Hend]].
  { exists c, t, false. split; [|split; [lia|done]].
    destruct Hcl as [Hcl|[Hs Hst]]; [by apply edge_claim|apply edge_reclaim; [done|lia]]. }
  split; [by eexists|]. intros [[]|e] t' Ht';
    (split; [|split; [by apply Hend|intros ?; by apply Hend]]);
    exists (set_version (set_updated (set_state c StatePublishing) t) (bump (csVersion c))), t', true;
    (split; [|split; [simpl; lia|done]]).
  - by apply edge_publish.
  - apply edge_release; [done|].
    case_bool_decide as Hp; [by left|]. simpl. destruct Hcl as [Hcl|[Hs _]]; [exact Hcl|done].
Qed.

Lemma wp_publish ctx c R O lo :
  TenantFromContext ctx = csTenant c -> c ∈ R -> csUpdatedAt c <= lo ->
  wp R O lo (publish ctx c) (done_with R lo).
Proof.
  intros Hctx Hin Hlo.
  unfold publish. destruct (csState c) eqn:Hs; try (simpl; by split).
  - destruct (RequireApproval c) eqn:Hr; [simpl; by split|].
    apply wp_publishClaimed; try done. left. right. auto.
  - destruct (RequireApproval c) eqn:Hr; [simpl; by split|].
    apply wp_publishClaimed; try done. left. right. auto.
  - apply wp_publishClaimed; try done. left. by left.
  - cbn [wp]. intros t Ht. destruct (Z.ltb_spec (t - csUpdatedAt c) PublishClaimTTL);
      [split; [done|lia]|].
    eapply wp_mono; [|apply wp_publishClaimed; try done; try lia; right; split; [done|lia]].
    intros R' lo' a [? ?]. split; [done|lia].
Qed.

Lemma wp_Publish ctx raw R O lo : wp R O lo (Publish ctx raw) (fun _ _ _ => True).
Proof.
  unfold Publish, invalid_id. destruct (ParseID raw); [|done]. cbn [wp]. split; [|done].
  intros c t Ht (_ & Hc & _) _ Htn. apply wp_bind.
  eapply wp_mono; [|apply wp_publish; [by symmetry|by left|done]].
  intros R' lo' [c' [[]|e]] _ O'; done.
Qed.

(** A stored record always has a tenant. *)
Lemma WithTenant_tenant ctx tn : tn <> EmptyString -> TenantFromContext (WithTenant ctx tn) = tn.
Proof. intros Hn. unfold TenantFromContext, WithTenant, str_IsZero. simpl. by rewrite bool_decide_eq_false_2. Qed.

Lemma wp_publishEach observed ctx l n R O lo :
  Forall (fun c => c ∈ R /\ csUpdatedAt c <= lo /\ csTenant c <> EmptyString) l ->
  wp R O lo (publishEach observed ctx l n) (fun _ _ _ => True).
Proof.
  revert n R O lo. induction l as [|c l IH]; intros n R O lo Hl; simpl; [done|].
  apply Forall_cons_iff in Hl as [(Hin & Hc & Htn) Hl]. apply wp_bind.
  eapply wp_mono; [|apply wp_publish; [by apply WithTenant_tenant|done|done]].
  intros R' lo' [c' res] [HR Hlo'] O'.
  assert (Forall (fun c => c ∈ R' /\ csUpdatedAt c <= lo' /\ csTenant c <> EmptyString) l) as Hl'.
  { eapply list.Forall_impl; [exact Hl|]. simpl. intros d (? & ? & ?). split_and!; [by apply HR|lia|done]. }
  destruct res as [[]|e]; [by apply IH|]. destruct observed; simpl; by apply IH.
Qed.

Lemma wp_PublishDue observed ctx R O lo : wp R O lo (PublishDue observed ctx) (fun _ _ _ => True).
Proof.
  unfold PublishDue. cbn [wp]. intros t Ht. split; [|done]. intros l t1 Ht1 Hl. split; [|done].
  intros l2 t2 Ht2 Hl2. apply wp_publishEach. apply Forall_app.
  rewrite list.Forall_forall in Hl, Hl2. split; apply list.Forall_forall; intros c Hc.
  - destruct (Hl c Hc) as (_ & ? & ?). split_and!; [set_solver|lia|done].
  - destruct (Hl2 c Hc) as (_ & ? & ?). split_and!; [set_solver|lia|done].
Qed.

Lemma wp_Get ctx raw R O lo : wp R O lo (Get GetMany failClosed ctx raw) (fun _ _ _ => True).
Proof. unfold Get, invalid_id. by destruct (ParseID raw). Qed.

Lemma wp_ListSets ctx R O lo : wp R O lo (ListSets GetMany failClosed ctx) (fun _ _ _ => True).
Proof. intros []; done. Qed.

(** A program whose answer nobody reads. *)
Definition forget {A} (p : prog A) : prog unit := pbind p (fun _ => Ret tt).

Lemma wp_forget {A} (p : prog A) R O lo :
  wp R O lo p (fun _ _ _ => True) -> wp R O lo (forget p) (fun _ _ _ => True).
Proof. intros Hp. apply wp_bind. eapply wp_mono; [|exact Hp]. done. Qed.

(** Everything the API and the scheduler can start. *)
Inductive usecase : prog unit -> Prop :=
  | u_create ctx input : usecase (forget (Create ctx input))
  | u_add ctx raw m : usecase (forget (AddMutation GetMany failClosed ctx raw m))
  | u_submit ctx raw : usecase (forget (Submit ctx raw))
  | u_approve ctx raw : usecase (forget (Approve ctx raw))
  | u_reject ctx raw : usecase (forget (Reject ctx raw))
  | u_publish ctx raw : usecase (forget (Publish ctx raw))
  | u_publish_due observed ctx : usecase (forget (PublishDue observed ctx))
  | u_get ctx raw : usecase (forget (Get GetMany failClosed ctx raw))
  | u_list ctx : usecase (forget (ListSets GetMany failClosed ctx)).

Lemma usecase_wp p lo : usecase p -> wp [] None lo p (fun _ _ _ => True).
Proof.
  destruct 1; apply wp_forget.
  - apply wp_Create.
  - apply wp_mutate, addMutation_ok.
  - apply wp_mutate, submit_ok.
  - apply wp_mutate, approve_ok.
  - apply wp_mutate, reject_ok.
  - apply wp_Publish.
  - apply wp_PublishDue.
  - apply wp_Get.
  - apply wp_ListSets.
Qed.
End Usecases.

(** ** The system *)

Record Sys := mkSys { s_rows : Rows; s_clock : Z; s_threads : list (prog unit) }.

(** One call of a program, on the shared rows.  A store call can fail before or
    after its effect; the batch of a publish can succeed or fail. *)
Inductive call (rows : Rows) (now : Z) : prog unit -> Rows -> prog unit -> Prop :=
  | call_now k : call rows now (Now k) rows (k now)
  | call_id k i : call rows now (NewID k) rows (k i)
  | call_create cs k :
      call rows now (StoreCreate cs k) (store_create rows cs).1 (k (store_create rows cs).2)
  | call_create_lost cs k e :
      call rows now (StoreCreate cs k) (store_create rows cs).1 (k (Err e))
  | call_create_fails cs k e : call rows now (StoreCreate cs k) rows (k (Err e))
  | call_get tn i k : call rows now (StoreGet tn i k) rows (k (store_get rows tn i))
  | call_get_fails tn i k e : call rows now (StoreGet tn i k) rows (k (Err e))
  | call_list tn k r : call rows now (StoreList tn k) rows (k r)
  | call_update cs k :
      call rows now (StoreUpdate cs k) (store_update rows cs).1 (k (store_update rows cs).2)
  | call_update_lost cs k e :
      call rows now (StoreUpdate cs k) (store_update rows cs).1 (k (Err e))
  | call_update_fails cs k e : call rows now (StoreUpdate cs k) rows (k (Err e))
  | call_due t k l :
      Permutation l (store_due rows t) -> call rows now (DueForPublish t k) rows (k (Ok l))
  | call_due_fails t k e : call rows now (DueForPublish t k) rows (k (Err e))
  | call_stale t k l :
      Permutation l (store_stale rows t) -> call rows now (StalePublishing t k) rows (k (Ok l))
  | call_stale_fails t k e : call rows now (StalePublishing t k) rows (k (Err e))
  | call_apply tn ms k r : call rows now (ApplyMutations tn ms k) rows (k r)
  | call_report cs e k : call rows now (OnPublishFailure cs e k) rows k.

Section System.
Context `{GoUlid}.
Variable GetMany : list ID -> result (list AttrDefinition).
Variable failClosed : bool.

Inductive sys_step : Sys -> Sys -> Prop :=
  | sys_start rows now ps p :
      usecase GetMany failClosed p -> sys_step (mkSys rows now ps) (mkSys rows now (p :: ps))
  | sys_call rows now ps1 ps2 p rows' p' :
      call rows now p rows' p' ->
      sys_step (mkSys rows now (ps1 ++ p :: ps2)) (mkSys rows' now (ps1 ++ p' :: ps2))
  | sys_crash rows now ps1 ps2 p :
      sys_step (mkSys rows now (ps1 ++ p :: ps2)) (mkSys rows now (ps1 ++ ps2))
  | sys_tick rows now now' ps : now <= now' -> sys_step (mkSys rows now ps) (mkSys rows now' ps)
  | sys_erase rows now ps tn entity :
      sys_step (mkSys rows now ps) (mkSys (RedactEntity rows tn entity) now ps).

Inductive sys_reach : Sys -> Sys -> Prop :=
  | sys_refl s : sys_reach s s
  | sys_next s s' s'' : sys_reach s s' -> sys_step s' s'' -> sys_reach s s''.

(** A new deployment: no set stored, no call under way. *)
Inductive reachable : Sys -> Prop :=
  | reach_initial now : reachable (mkSys ∅ now [])
  | reach_step s s' : reachable s -> sys_step s s' -> reachable s'.
End System.

(** *** What every call last wrote

    The same system, in which each call under way remembers the record its last
    update left in the store, if it was told that the update succeeded.  The
    memory only observes: it never decides a step. *)

(** The record an answered update left in the store. *)
Definition written (rows : Rows) (cs : ChangeSet) : option ChangeSet :=
  match store_update rows cs with
  | (rows', Ok _) => rows' !! csID cs
  | (_, Err _) => None
  end.

Inductive tcall (rows : Rows) (now : Z) :
    option ChangeSet * prog unit -> Rows -> option ChangeSet * prog unit -> Prop :=
  | tcall_update o cs k :
      tcall rows now (o, StoreUpdate cs k) (store_update rows cs).1
        (written rows cs, k (store_update rows cs).2)
  | tcall_update_lost o cs k e :
      tcall rows now (o, StoreUpdate cs k) (store_update rows cs).1 (None, k (Err e))
  | tcall_update_fails o cs k e :
      tcall rows now (o, StoreUpdate cs k) rows (None, k (Err e))
  | tcall_other o p rows' p' :
      (forall cs k, p <> StoreUpdate cs k) -> call rows now p rows' p' ->
      tcall rows now (o, p) rows' (o, p').

Record TSys := mkTSys {
  t_rows : Rows; t_clock : Z; t_threads : list (option ChangeSet * prog unit) }.

Definition untracked (s : TSys) : Sys := mkSys (t_rows s) (t_clock s) (t_threads s).*2.

Section Tracked.
Context `{GoUlid}.
Variable GetMany : list ID -> result (list AttrDefinition).
Variable failClosed : bool.

Inductive tracked_step : TSys -> TSys -> Prop :=
  | tr_start rows now xs p :
      usecase GetMany failClosed p ->
      tracked_step (mkTSys rows now xs) (mkTSys rows now ((None, p) :: xs))
  | tr_call rows now xs1 xs2 x rows' x' :
      tcall rows now x rows' x' ->
      tracked_step (mkTSys rows now (xs1 ++ x :: xs2)) (mkTSys rows' now (xs1 ++ x' :: xs2))
  | tr_crash rows now xs1 xs2 x :
      tracked_step (mkTSys rows now (xs1 ++ x :: xs2)) (mkTSys rows now (xs1 ++ xs2))
  | tr_tick rows now now' xs :
      now <= now' -> tracked_step (mkTSys rows now xs) (mkTSys rows now' xs)
  | tr_erase rows now xs tn entity :
      tracked_step (mkTSys rows now xs) (mkTSys (RedactEntity rows tn entity) now xs).

Inductive tracked : TSys -> Prop :=
  | tracked_initial now : tracked (mkTSys ∅ now [])
  | tracked_next s s' : tracked s -> tracked_step s s' -> tracked s'.

Lemma call_tracked rows now o p rows' p' :
  call rows now p rows' p' -> exists o', tcall rows now (o, p) rows' (o', p').
Proof.
  intros Hc. destruct Hc;
    try (exists o; apply tcall_other; [by intros|by constructor]); eexists; constructor.
Qed.

Lemma tracked_call rows now x rows' x' : tcall rows now x rows' x' -> call rows now x.2 rows' x'.2.
Proof. destruct 1; simpl; [constructor..|done]. Qed.

(** The memory forbids no step and adds none. *)
Lemma step_tracked s s' t :
  sys_step GetMany failClosed s s' -> untracked t = s ->
  exists t', tracked_step t t' /\ untracked t' = s'.
Proof.
  destruct t as [rows0 now0 xs]. unfold untracked. cbn [t_rows t_clock t_threads].
  intros Hst E. destruct Hst as [rows now ps p Hu|rows now ps1 ps2 p rows' p' Hc|rows now ps1 ps2 p
    |rows now now' ps Hnow|rows now ps tn entity]; injection E as -> -> E.
  - eexists. split; [by apply tr_start|]. unfold untracked. cbn [t_rows t_clock t_threads].
    by rewrite ?fmap_cons, E.
  - apply fmap_app_inv in E as (xs1 & xs' & -> & E' & ->).
    symmetry in E'. apply fmap_cons_inv in E' as ([o q] & xs2 & Eq & -> & ->). simpl in Eq. subst q.
    destruct (call_tracked rows now o p rows' p' Hc) as [o' Ht].
    eexists. split; [by apply tr_call|]. unfold untracked. cbn [t_rows t_clock t_threads].
    by rewrite !fmap_app.
  - apply fmap_app_inv in E as (xs1 & xs' & -> & E' & ->).
    symmetry in E'. apply fmap_cons_inv in E' as (x & xs2 & -> & -> & ->).
    eexists. split; [apply tr_crash|]. unfold untracked. cbn [t_rows t_clock t_threads].
    by rewrite !fmap_app.
  - eexists. split; [by apply tr_tick|]. unfold untracked. cbn [t_rows t_clock t_threads].
    by rewrite ?fmap_cons, E.
  - eexists. split; [apply tr_erase|]. unfold untracked. cbn [t_rows t_clock t_threads].
    by rewrite ?fmap_cons, E.
Qed.

Lemma tracked_sys_step t t' :
  tracked_step t t' -> sys_step GetMany failClosed (untracked t) (untracked t').
Proof.
  destruct 1 as [| rows now xs1 xs2 x rows' x' Hc| | |]; unfold untracked; cbn [t_rows t_clock t_threads];
    rewrite ?fmap_app, ?fmap_cons; try (by constructor).
  by apply sys_call, tracked_call.
Qed.

Lemma reachable_tracked s :
  reachable GetMany failClosed s <-> exists t, tracked t /\ untracked t = s.
Proof.
  split.
  - induction 1 as [now|s s' _ (t & Ht & Hts) Hst].
    + exists (mkTSys ∅ now []). split; [apply tracked_initial|done].
    + destruct (step_tracked s s' t Hst Hts) as (t' & Hstep & Ht').
      exists t'. split; [by eapply tracked_next|done].
  - intros (t & Ht & <-). induction Ht as [now|t t' _ IH Hst]; [apply reach_initial|].
    eapply reach_step; [exact IH|by apply tracked_sys_step].
Qed.
End Tracked.

(** ** The invariant *)

Lemma edge_frame c t own c' :
  edge c t own c' ->
  csID c' = csID c /\ csTenant c' = csTenant c /\ csName c' = csName c /\
  RequireApproval c' = RequireApproval c /\ Author c' = Author c /\
  PublishAt c' = PublishAt c /\ csCreatedAt c' = csCreatedAt c /\
  csUpdatedAt c' = t /\ csVersion c' = csVersion c.
Proof. destruct 1; done. Qed.

(** Who does not hold the claim can only take over a stale one. *)
Lemma edge_from_publishing c t c' :
  edge c t false c' -> csState c = StatePublishing -> csUpdatedAt c + PublishClaimTTL <= t.
Proof. inversion 1; intros Hs; try congruence. naive_solver congruence. Qed.

Record Know := mkKnow { kR : list ChangeSet; kO : option ChangeSet; kLo : Z }.

Definition rows_ok (rows : Rows) (now : Z) : Prop :=
  map_Forall (fun i r => csID r = i /\ read_ok r now) rows.

(** A record once read or written: still current up to erasures, or outdated. *)
Definition known (rows : Rows) (c : ChangeSet) : Prop :=
  exists r, rows !! csID c = Some r /\ csVersion c <= csVersion r /\
    (csVersion c = csVersion r -> erased_from c r).

(** A claim somebody still holds is superseded only once it is stale. *)
Definition claim_ok (rows : Rows) (c : ChangeSet) : Prop :=
  csState c = StatePublishing -> forall r, rows !! csID c = Some r ->
    csVersion c < csVersion r -> csUpdatedAt c + PublishClaimTTL <= csUpdatedAt r.

Definition thread_ok (rows : Rows) (now : Z) (x : Know * prog unit) : Prop :=
  kLo x.1 <= now /\ Forall (known rows) (kR x.1) /\
  (forall c, kO x.1 = Some c -> known rows c /\ claim_ok rows c) /\
  wp (kR x.1) (kO x.1) (kLo x.1) x.2 (fun _ _ _ => True).

Definition spaced (a b : ChangeSet) : Prop :=
  csVersion a < csVersion b -> csState a = StatePublishing ->
  csUpdatedAt a + PublishClaimTTL <= csUpdatedAt b.

(** Two threads never own the same version of the same set. *)
Definition pair_ok (x y : Know * prog unit) : Prop :=
  forall a b, kO x.1 = Some a -> kO y.1 = Some b -> csID a = csID b ->
    csVersion a <> csVersion b /\ spaced a b /\ spaced b a.

(** What the system remembers of a thread is what the thread owns. *)
Definition shown (x : Know * prog unit) : option ChangeSet * prog unit := (kO x.1, x.2).

Definition inv (s : TSys) : Prop :=
  rows_ok (t_rows s) (t_clock s) /\
  exists xs, t_threads s = shown <$> xs /\ Forall (thread_ok (t_rows s) (t_clock s)) xs /\
    ForallOrdPairs pair_ok xs.

Lemma pair_ok_sym x y : pair_ok x y -> pair_ok y x.
Proof. intros Hp a b Ha Hb E. destruct (Hp b a) as (? & ? & ?); auto. Qed.

Lemma ordpairs_app_cons {A} (P : A -> A -> Prop) l1 x l2 :
  (forall a b, P a b -> P b a) ->
  ForallOrdPairs P (l1 ++ x :: l2) <-> ForallOrdPairs P (l1 ++ l2) /\ Forall (P x) (l1 ++ l2).
Proof.
  intros Hs. induction l1 as [|y l1 IH]; simpl.
  - split; [inversion 1; subst; done|]. intros [? ?]. by constructor.
  - split.
    + inversion 1 as [|? ? Hy Hl]; subst. apply IH in Hl as [Hl Hx].
      apply Forall_app in Hy as [Hy1 Hy2]. apply Forall_cons_iff in Hy2 as [Hyx Hy2].
      split; [constructor; [by apply Forall_app|done]|]. constructor; [by apply Hs|done].
    + intros [Hl Hx]. inversion Hl as [|? ? Hy Hl']; subst.
      apply Forall_cons_iff in Hx as [Hxy Hx]. constructor; [|by apply IH].
      apply Forall_app in Hy as [Hy1 Hy2]. apply Forall_app. split; [done|].
      constructor; [by apply Hs|done].
Qed.

(** Knowledge survives erasures and newer versions. *)
Lemma known_next rows rows' c :
  known rows c ->
  (forall r, rows !! csID c = Some r -> exists r', rows' !! csID c = Some r' /\
     (erased_from r r' \/ csVersion r < csVersion r')) ->
  known rows' c.
Proof.
  intros (r & Hr & Hv & He) Hnext. destruct (Hnext r Hr) as (r' & Hr' & Hcase).
  exists r'. split; [done|]. destruct Hcase as [Her|Hlt].
  - assert (csVersion r' = csVersion r) as -> by (by destruct Her as (? & _ & ->)).
    split; [done|]. intros Ev. etrans; [by apply He|done].
  - split; [lia|]. lia.
Qed.

Lemma erased_frame c r :
  erased_from c r -> r = set_mutations c (Mutations r) /\ Forall2 mut_le (Mutations c) (Mutations r).
Proof. by intros (ms & Hms & ->). Qed.

Lemma updated_row_edge c r t own c' :
  erased_from c r -> edge c t own c' -> updated_row r c' = set_version c' (csVersion r + 1).
Proof.
  intros (ms & _ & ->) He. pose proof (edge_frame _ _ _ _ He) as (E1 & E2 & _ & _ & E3 & _ & E4 & _).
  unfold updated_row, set_version. simpl. by rewrite <- E1, <- E2, <- E3, <- E4.
Qed.

(** What a permitted write does to the store. *)
Lemma store_update_cases rows now R O lo cs :
  rows_ok rows now -> Forall (known rows) R -> (forall c, O = Some c -> known rows c) ->
  write_ok R O lo cs ->
  (exists e, store_update rows cs = (rows, Err e)) \/
  exists r c own t,
    rows !! csID cs = Some r /\ erased_from c r /\ edge c t own cs /\
    csUpdatedAt c <= t <= lo /\ csVersion r < integerMax /\
    (own = true -> O = Some c) /\ csVersion cs = csVersion r /\
    store_update rows cs = (<[csID cs := set_version cs (csVersion r + 1)]> rows, Ok tt).
Proof.
  intros Hok HR HO (c & t & own & He & Ht & Hk).
  pose proof (edge_frame _ _ _ _ He) as (Eid & _ & _ & _ & _ & _ & _ & _ & Ev).
  assert (known rows c) as (r & Hr & _ & Her).
  { destruct own; [by apply HO|]. by eapply list.Forall_forall in HR. }
  rewrite <- Eid in Hr. unfold store_update. rewrite Hr.
  destruct (bool_decide _); simpl; [|by left; eexists].
  destruct (Z.eqb_spec (csVersion r) (csVersion cs)) as [E|E]; [|by left; eexists].
  destruct (Z.ltb_spec (csVersion r) integerMax) as [Hlt|Hlt]; [|by left; eexists].
  right. assert (erased_from c r) as Hcr by (apply Her; congruence).
  exists r, c, own, t. split_and!; try done; [lia..|by destruct own|].
  by rewrite (updated_row_edge c r t own cs).
Qed.

(** *** Preservation *)

(** Rows only get erased values: nobody's knowledge suffers. *)
Definition only_erased (rows rows' : Rows) : Prop :=
  forall i r, rows !! i = Some r -> exists r', rows' !! i = Some r' /\ erased_from r r'.

Lemma thread_ok_erased rows rows' now now' y :
  only_erased rows rows' -> now <= now' -> thread_ok rows now y -> thread_ok rows' now' y.
Proof.
  intros He Hnow (Hlo & HR & HO & Hwp).
  assert (forall c, known rows c -> known rows' c) as Hk.
  { intros c Hc. eapply known_next; [exact Hc|]. intros r Hr.
    destruct (He _ _ Hr) as (r' & ? & ?). eauto. }
  split_and!; [lia|by eapply list.Forall_impl| |done].
  intros c Hc. destruct (HO c Hc) as [Hkn Hcl]. split; [auto|].
  intros Hp r' Hr' Hv. destruct Hkn as (r & Hr & _). destruct (He _ _ Hr) as (r'' & Hr'' & Her).
  assert (r'' = r') as -> by congruence. destruct Her as (ms & _ & ->).
  exact (Hcl Hp r Hr Hv).
Qed.

Lemma only_erased_refl rows : only_erased rows rows.
Proof. intros i r Hr. by exists r. Qed.

Lemma only_erased_create rows cs : only_erased rows (store_create rows cs).1.
Proof.
  intros i r Hr. exists r. split; [|done]. unfold store_create. cbv zeta.
  set (cs' := if csVersion cs =? 0 then _ else _).
  destruct (rows !! csID cs') eqn:E; [done|]. simpl.
  rewrite lookup_insert_ne; [done|]. intros E'. congruence.
Qed.

Lemma only_erased_redact rows tn entity : only_erased rows (RedactEntity rows tn entity).
Proof.
  intros i r Hr. unfold RedactEntity. rewrite lookup_fmap, Hr. simpl.
  eexists. split; [done|]. case_bool_decide; [apply erased_entity_from|done].
Qed.

(** A permitted write of thread [x], seen by another thread [y]. *)
Lemma thread_ok_written rows now x y cs r c own t :
  rows !! csID cs = Some r -> erased_from c r -> edge c t own cs -> csUpdatedAt c <= t ->
  csVersion cs = csVersion r -> (own = true -> kO x.1 = Some c) ->
  pair_ok x y -> thread_ok rows now y ->
  thread_ok (<[csID cs := set_version cs (csVersion r + 1)]> rows) now y.
Proof.
  intros Hr Hcr He Ht Hv Hown Hp (Hlo & HR & HO & Hwp).
  set (r' := set_version cs (csVersion r + 1)).
  assert (forall a, known rows a -> known (<[csID cs := r']> rows) a) as Hk.
  { intros a Ha. eapply known_next; [exact Ha|]. intros ra Hra.
    destruct (decide (csID cs = csID a)) as [E|E].
    - exists r'. rewrite E, lookup_insert_eq. split; [done|]. right.
      assert (ra = r) as -> by congruence. simpl. lia.
    - exists ra. rewrite lookup_insert_ne by done. split; [done|]. by left. }
  split_and!; [done|by eapply list.Forall_impl| |done].
  intros a Ha. destruct (HO a Ha) as [Hka Hcl]. split; [auto|]. intros Hpub ra Hra Hlt.
  destruct (decide (csID cs = csID a)) as [E|E];
    [|rewrite lookup_insert_ne in Hra by done; by apply Hcl].
  rewrite E, lookup_insert_eq in Hra. injection Hra as <-. rewrite E in Hr.
  destruct Hka as (r0 & Hr0 & Hle & Heq). assert (r0 = r) as -> by congruence.
  pose proof (edge_frame _ _ _ _ He) as (Eid & _ & _ & _ & _ & _ & _ & Et & Ev).
  assert (csUpdatedAt r = csUpdatedAt c) as Eu by (by destruct Hcr as (? & _ & ->)).
  change (csUpdatedAt r') with (csUpdatedAt cs). rewrite Et.
  destruct (decide (csVersion a = csVersion r)) as [Ea|Ea].
  - apply Heq in Ea as Har. assert (csState c = StatePublishing) as Hc.
    { destruct Har as (? & _ & Har). destruct Hcr as (? & _ & Hcr).
      rewrite Har in Hcr. by destruct a, c; simplify_eq/=. }
    assert (csUpdatedAt a = csUpdatedAt c) as ->.
    { rewrite <- Eu. by destruct Har as (? & _ & ->). }
    destruct own.
    + destruct (Hp c a (Hown eq_refl) Ha) as [Hne _]; [congruence|]. congruence.
    + by eapply edge_from_publishing.
  - assert (csUpdatedAt a + PublishClaimTTL <= csUpdatedAt r) by (apply Hcl; [done|done|lia]). lia.
Qed.

Lemma pair_ok_written rows now x y cs r O' c own t :
  rows !! csID cs = Some r -> erased_from c r -> edge c t own cs -> csUpdatedAt c <= t ->
  csVersion cs = csVersion r -> (own = true -> kO x.1 = Some c) ->
  pair_ok x y -> thread_ok rows now y ->
  O' = None \/ O' = Some (set_version cs (csVersion r + 1)) ->
  forall x', kO x'.1 = O' -> pair_ok x' y.
Proof.
  intros Hr Hcr He Ht Hv Hown Hp Hy HO' x' Hx'.
  pose proof (thread_ok_written rows now x y cs r c own t Hr Hcr He Ht Hv Hown Hp Hy)
    as (_ & _ & HO & _).
  destruct Hy as (_ & _ & HOy & _).
  intros a b Ha Hb E. rewrite Hx' in Ha. destruct HO' as [->| ->]; [done|]. injection Ha as <-.
  simpl in E. destruct (HOy b Hb) as [(rb & Hrb & Hle & _) _].
  assert (rb = r) as -> by congruence. simpl. split; [lia|]. split; [intros Hlt; simpl in Hlt; lia|].
  intros Hlt Hpub. destruct (HO b Hb) as [_ Hcl].
  apply (Hcl Hpub (set_version cs (csVersion r + 1))); [|done].
  by rewrite <- E, lookup_insert_eq.
Qed.

(** What one step may do to one row. *)
Definition row_change (o o' : option ChangeSet) : Prop :=
  match o, o' with
  | None, None => True
  | None, Some r' => csState r' = StateDraft /\ csVersion r' = 1 /\ Approver r' = EmptyString /\
      Mutations r' = []
  | Some r, Some r' => row_next r r'
  | Some _, None => False
  end.

Definition rows_change (rows rows' : Rows) : Prop := forall i, row_change (rows !! i) (rows' !! i).

Lemma rows_change_refl rows : rows_change rows rows.
Proof. intros i. unfold row_change. destruct (rows !! i); [by left|done]. Qed.

(** The outcome of a step of thread [x], for it and for everybody else. *)
Definition call_outcome (rows : Rows) (now : Z) (x : Know * prog unit) (rows' : Rows)
    (o' : option ChangeSet) (p' : prog unit) : Prop :=
  rows_change rows rows' /\ rows_ok rows' now /\
  exists K', kO K' = o' /\ thread_ok rows' now (K', p') /\
    forall y, thread_ok rows now y -> pair_ok x y ->
      thread_ok rows' now y /\ pair_ok (K', p') y.

(** A step that does not touch the store and keeps what is owned. *)
Lemma outcome_local rows now K p R lo p' :
  rows_ok rows now -> thread_ok rows now (K, p) ->
  Forall (known rows) R -> lo <= now -> wp (R ++ kR K) (kO K) lo p' (fun _ _ _ => True) ->
  call_outcome rows now (K, p) rows (kO K) p'.
Proof.
  intros Hok (_ & HR & HO & _) HR' Hlo Hwp. split; [apply rows_change_refl|]. split; [done|].
  exists (mkKnow (R ++ kR K) (kO K) lo). split; [done|]. split; [|by intros y Hy Hp].
  split_and!; [done|by apply Forall_app|done|done].
Qed.

Lemma known_stored rows now i r : rows_ok rows now -> rows !! i = Some r -> known rows r /\ read_ok r now.
Proof.
  intros Hok Hr. destruct (Hok i r Hr) as [Hid Hread]. split; [|done].
  exists r. by rewrite Hid.
Qed.

Lemma listed_known rows now f l :
  rows_ok rows now -> (forall c, c ∈ l -> c ∈ List.filter f (values rows)) ->
  Forall (known rows) l /\ Forall (fun c => read_ok c now) l.
Proof.
  intros Hok Hl.
  assert (forall c, c ∈ l -> known rows c /\ read_ok c now) as Hall.
  { intros c Hc. apply Hl, elem_of_filter_b in Hc as [Hc _].
    apply values_elem in Hc as [i Hi]. by eapply known_stored. }
  split; apply list.Forall_forall; intros c Hc; by apply Hall.
Qed.

(** The write of a thread, whatever it is told of it. *)
Lemma outcome_update rows now K cs k o' res :
  rows_ok rows now -> thread_ok rows now (K, StoreUpdate cs k) ->
  res = (store_update rows cs).2 /\ o' = written rows cs \/ (exists e, res = Err e) /\ o' = None ->
  call_outcome rows now (K, StoreUpdate cs k) (store_update rows cs).1 o' (k res).
Proof.
  intros Hok Hx Hres. pose proof Hx as (Hlo & HR & HO & Hw & Hwp & Hwpe). simpl in *.
  unfold written in Hres.
  assert (forall c, kO K = Some c -> known rows c) as HO' by (intros c Hc; by apply HO).
  destruct (store_update_cases rows now (kR K) (kO K) (kLo K) cs Hok HR HO' Hw)
    as [(e & E)|(r & c & own & t & Hr & Hcr & He & Ht & Hmax & Hown & Hv & E)]; rewrite E in *; simpl in *.
  { split; [apply rows_change_refl|]. split; [done|].
    exists (mkKnow (kR K) None (kLo K)). split; [by destruct Hres as [[_ ->]|[_ ->]]|].
    split; [|by intros y Hy Hp].
    split_and!; [done..|]. destruct Hres as [[-> _]|[[e' ->] _]]; apply Hwpe. }
  pose proof (edge_frame _ _ _ _ He) as (_ & Etn & _ & _ & _ & _ & _ & Eu & _).
  destruct (Hok _ _ Hr) as [Hid (Hver & Hupd & Htn)].
  set (r' := set_version cs (csVersion r + 1)) in *.
  assert (csTenant cs <> EmptyString) as Htn'.
  { rewrite Etn. by destruct Hcr as (? & _ & ->). }
  split; [|split].
  - intros i. destruct (decide (csID cs = i)) as [<-|Hne].
    + rewrite lookup_insert_eq, Hr. right. exists c, own, t, cs. split_and!; try done; lia.
    + rewrite lookup_insert_ne by done. apply rows_change_refl.
  - intros i r0 Hr0. destruct (decide (csID cs = i)) as [<-|Hne].
    + rewrite lookup_insert_eq in Hr0. injection Hr0 as <-. split; [done|].
      unfold read_ok, integerMax in *. simpl. rewrite Eu. split_and!; [lia|lia|lia|done].
    + rewrite lookup_insert_ne in Hr0 by done. by apply Hok.
  - assert ((o' = None \/ o' = Some r') /\
      wp (kR K) o' (kLo K) (k res) (fun _ _ _ => True)) as (HO1 & Hwp').
    { destruct Hres as [[-> ->]|[[e ->] ->]]; [|by split; [left|]].
      rewrite lookup_insert_eq. split; [by right|]. unfold r'. rewrite <- Hv.
      unfold bump in Hwp. rewrite wrap64_id in Hwp; [done|].
      unfold in_int64, integerMax in *. lia. }
    exists (mkKnow (kR K) o' (kLo K)). split; [done|]. split.
    + split_and!; [done| | |done].
      * eapply list.Forall_impl; [exact HR|]. intros a Ha. eapply known_next; [exact Ha|].
        intros ra Hra. destruct (decide (csID cs = csID a)) as [Ea|Ea].
        -- exists r'. rewrite Ea, lookup_insert_eq. split; [done|]. right.
           assert (ra = r) as -> by congruence. simpl. lia.
        -- exists ra. rewrite lookup_insert_ne by done. split; [done|]. by left.
      * intros a Ha. simpl in Ha. destruct HO1 as [->| ->]; [done|]. injection Ha as <-.
        assert (<[csID cs := r']> rows !! csID r' = Some r') as Hl by apply lookup_insert_eq.
        split; [exists r'; done|]. intros _ r0 Hr0. rewrite Hl in Hr0. injection Hr0 as <-. lia.
    + intros y Hy Hp. split.
      * exact (thread_ok_written rows now (K, StoreUpdate cs k) y cs r c own t
          Hr Hcr He (proj1 Ht) Hv Hown Hp Hy).
      * exact (pair_ok_written rows now (K, StoreUpdate cs k) y cs r o' c own t
          Hr Hcr He (proj1 Ht) Hv Hown Hp Hy HO1 (mkKnow (kR K) o' (kLo K), k res) eq_refl).
Qed.

Lemma outcome_create rows now K cs k res :
  rows_ok rows now -> thread_ok rows now (K, StoreCreate cs k) ->
  call_outcome rows now (K, StoreCreate cs k) (store_create rows cs).1 (kO K) (k res).
Proof.
  intros Hok Hx. pose proof Hx as (Hlo & HR & HO & Hf & Hwp). simpl in *.
  destruct Hf as (Hst & Hv & Hu & Htn & Hap & Hm).
  pose proof (only_erased_create rows cs) as Her.
  split; [|split].
  - intros i. unfold store_create. rewrite Hv. simpl.
    destruct (rows !! csID cs) eqn:E; [apply rows_change_refl|]. simpl.
    destruct (decide (csID cs = i)) as [<-|Hne].
    + by rewrite E, lookup_insert_eq.
    + rewrite lookup_insert_ne by done. apply rows_change_refl.
  - unfold store_create. rewrite Hv. simpl. destruct (rows !! csID cs) eqn:E; [done|]. simpl.
    intros i r0 Hr0. destruct (decide (csID cs = i)) as [<-|Hne].
    + rewrite lookup_insert_eq in Hr0. injection Hr0 as <-. split; [done|].
      unfold read_ok, integerMax. rewrite Hv. split_and!; [lia|lia|lia|done].
    + rewrite lookup_insert_ne in Hr0 by done. by apply Hok.
  - exists K. split; [done|]. split.
    + apply (thread_ok_erased rows _ now now (K, k res)); [done|lia|].
      split_and!; [done|done|done|apply Hwp].
    + intros y Hy Hp. split; [|done]. apply (thread_ok_erased rows _ now now y); [done|lia|done].
Qed.

(** Every call but an update leaves what is owned alone. *)
Lemma call_preserves rows now K p rows' p' :
  rows_ok rows now -> thread_ok rows now (K, p) -> (forall cs k, p <> StoreUpdate cs k) ->
  call rows now p rows' p' -> call_outcome rows now (K, p) rows' (kO K) p'.
Proof.
  intros Hok Hx Hne Hc. pose proof Hx as (Hlo & HR & HO & Hwp).
  destruct Hc; simpl in Hwp; try (by edestruct Hne);
    try (by apply outcome_create);
    try (apply (outcome_local _ _ _ _ [] (kLo K)); [done|done|done|done|]; simpl; naive_solver; fail).
  - apply (outcome_local _ _ _ _ [] now); [done|done|done|done|]. by apply Hwp.
  - unfold store_get. destruct Hwp as [Hwp Hwpe].
    destruct (rows !! i) as [c|] eqn:E;
      [|apply (outcome_local _ _ _ _ [] (kLo K)); [done|done|done|done|]; apply Hwpe].
    case_bool_decide; [|apply (outcome_local _ _ _ _ [] (kLo K)); [done|done|done|done|]; apply Hwpe].
    destruct (known_stored rows now i c Hok E) as [Hkn Hread].
    apply (outcome_local _ _ _ _ [c] now); [done|done|by constructor|done|].
    apply Hwp; [done|done| |done]. by apply (Hok i c).
  - destruct (listed_known rows now (due t) l Hok) as [H1 H2].
    { intros c Hc. by rewrite H in Hc. }
    apply (outcome_local _ _ _ _ l now); [done|done|done|done|]. by apply Hwp.
  - destruct (listed_known rows now (stale t) l Hok) as [H1 H2].
    { intros c Hc. rewrite H in Hc. by eapply sort_by_elem. }
    apply (outcome_local _ _ _ _ l now); [done|done|done|done|]. by apply Hwp.
Qed.

Lemma tcall_preserves rows now x rows' x' :
  rows_ok rows now -> thread_ok rows now x -> tcall rows now (shown x) rows' x' ->
  call_outcome rows now x rows' x'.1 x'.2.
Proof.
  intros Hok Hx. destruct x as [K p]. unfold shown. simpl. intros Hc. inversion Hc; subst.
  - apply outcome_update; [done|done|]. by left.
  - apply outcome_update; [done|done|]. right. eauto.
  - destruct Hx as (Hlo & HR & _ & _ & _ & Hwpe).
    split; [apply rows_change_refl|]. split; [done|].
    exists (mkKnow (kR K) None (kLo K)). split; [done|]. split; [|by intros y Hy Hp].
    split_and!; [done|done|done|apply Hwpe].
  - by apply call_preserves.
Qed.

Lemma threads_split (xs : list (Know * prog unit)) ps1 p ps2 :
  shown <$> xs = ps1 ++ p :: ps2 ->
  exists xs1 x xs2, xs = xs1 ++ x :: xs2 /\ shown <$> xs1 = ps1 /\ shown x = p /\ shown <$> xs2 = ps2.
Proof.
  intros (xs1 & xs' & -> & E & ->)%fmap_app_inv.
  symmetry in E. apply fmap_cons_inv in E as (x & xs2 & -> & -> & ->).
  by exists xs1, x, xs2.
Qed.

Lemma rows_ok_redact rows now tn entity : rows_ok rows now -> rows_ok (RedactEntity rows tn entity) now.
Proof.
  intros Hok i r. unfold RedactEntity. rewrite lookup_fmap, fmap_Some.
  intros (r0 & Hr0 & ->). destruct (Hok i r0 Hr0) as [Hid Hread]. by case_bool_decide.
Qed.

Lemma rows_change_redact rows tn entity : rows_change rows (RedactEntity rows tn entity).
Proof.
  intros i. destruct (rows !! i) as [r|] eqn:E.
  - destruct (only_erased_redact rows tn entity i r E) as (r' & -> & Her). by left.
  - unfold RedactEntity. rewrite lookup_fmap, E. done.
Qed.

Section Safety.
Context `{GoUlid}.
Variable GetMany : list ID -> result (list AttrDefinition).
Variable failClosed : bool.

Abbreviation sys_step := (sys_step GetMany failClosed).
Abbreviation reachable := (reachable GetMany failClosed).

Abbreviation tracked_step := (tracked_step GetMany failClosed).
Abbreviation tracked := (tracked GetMany failClosed).

Lemma tracked_step_preserves s s' :
  inv s -> tracked_step s s' -> inv s' /\ rows_change (t_rows s) (t_rows s').
Proof.
  intros (Hok & xs & Hxs & Hall & Hpairs) Hst.
  destruct Hst as [rows now ps p Hu|rows now ps1 ps2 p rows' p' Hc|rows now ps1 ps2 p
    |rows now now' ps Hnow|rows now ps tn entity]; simpl in *.
  - split; [|apply rows_change_refl]. split; [done|].
    exists ((mkKnow [] None now, p) :: xs). split; [by rewrite Hxs|]. split.
    + constructor; [|done]. split_and!; [simpl; lia|constructor|done|].
      by eapply usecase_wp.
    + constructor; [|done]. apply list.Forall_forall. intros y _ a b Ha. done.
  - symmetry in Hxs. apply threads_split in Hxs as (xs1 & x & xs2 & -> & <- & <- & <-).
    apply Forall_app in Hall as [Hall1 Hall2]. apply Forall_cons_iff in Hall2 as [Hx Hall2].
    apply ordpairs_app_cons in Hpairs as [Hpairs Hxp]; [|exact pair_ok_sym].
    destruct (tcall_preserves rows now x rows' p' Hok Hx Hc) as (Hch & Hok' & K' & HK & Hx' & Hy).
    assert (forall l, Forall (thread_ok rows now) l -> Forall (pair_ok x) l ->
      Forall (thread_ok rows' now) l /\ Forall (pair_ok (K', p'.2)) l) as Hl.
    { intros l Ht Hp. rewrite !list.Forall_forall in *.
      split; intros y Hin; apply Hy; auto. }
    pose proof Hxp as Hxp'. apply Forall_app in Hxp' as [Hxp1 Hxp2].
    split; [|done]. split; [done|]. exists (xs1 ++ (K', p'.2) :: xs2). split_and!.
    + rewrite fmap_app, fmap_cons. unfold shown at 4. simpl. rewrite HK. by destruct p'.
    + apply Forall_app. split; [by apply Hl|]. constructor; [done|by apply Hl].
    + apply ordpairs_app_cons; [exact pair_ok_sym|]. split; [done|].
      apply Forall_app. split; by apply Hl.
  - split; [|apply rows_change_refl]. split; [done|].
    symmetry in Hxs. apply threads_split in Hxs as (xs1 & x & xs2 & -> & <- & <- & <-).
    apply ordpairs_app_cons in Hpairs as [Hpairs _]; [|exact pair_ok_sym].
    exists (xs1 ++ xs2). split_and!; [by rewrite fmap_app| |done].
    apply Forall_app in Hall as [Hall1 Hall2]. apply Forall_cons_iff in Hall2 as [_ Hall2].
    by apply Forall_app.
  - split; [|apply rows_change_refl]. split.
    + intros i r Hr. destruct (Hok i r Hr) as (? & ? & ? & ?). split; [done|].
      split_and!; simpl; [lia|lia|lia|done].
    + exists xs. split_and!; [done| |done]. eapply list.Forall_impl; [exact Hall|].
      intros y. apply (thread_ok_erased _ _ now now' y); [apply only_erased_refl|done].
  - split; [|apply rows_change_redact]. split; [by apply rows_ok_redact|].
    exists xs. split_and!; [done| |done]. eapply list.Forall_impl; [exact Hall|].
    intros y. apply (thread_ok_erased _ _ now now y); [apply only_erased_redact|lia].
Qed.

Lemma tracked_inv s : tracked s -> inv s.
Proof.
  induction 1 as [now|s s' _ IH Hst]; [|by eapply tracked_step_preserves].
  split; [apply map_Forall_empty|]. exists []. by repeat constructor.
Qed.

Lemma reachable_rows_change s s' :
  reachable s -> sys_step s s' -> rows_change (s_rows s) (s_rows s').
Proof.
  intros (t & Ht & <-)%reachable_tracked Hst.
  destruct (step_tracked _ _ _ s' t Hst eq_refl) as (t' & Hstep & <-).
  exact (proj2 (tracked_step_preserves t t' (tracked_inv t Ht) Hstep)).
Qed.

(** *** Consequences for one row *)

(** The records a row may hold, whatever interleaving wrote them. *)
Definition approved_ok (r : ChangeSet) : Prop :=
  RequireApproval r = true ->
  csState r = StateApproved \/ csState r = StatePublishing \/ csState r = StatePublished ->
  Approver r <> EmptyString /\ Approver r <> Author r.

Lemma approved_ok_edge c own t c' : approved_ok c -> edge c t own c' -> approved_ok c'.
Proof. unfold approved_ok. destruct 2; simpl in *; naive_solver congruence. Qed.

Lemma approved_ok_next r r' : approved_ok r -> row_next r r' -> approved_ok r'.
Proof.
  intros Hr [(ms & _ & ->)|(c & own & t & c' & (ms & _ & ->) & He & _ & _ & ->)]; [done|].
  exact (approved_ok_edge c own t c' Hr He).
Qed.

Lemma reachable_approved s i r : reachable s -> s_rows s !! i = Some r -> approved_ok r.
Proof.
  intros Hs. revert i r. induction Hs as [now|s s' Hs IH Hst]; intros i r Hr; [done|].
  pose proof (reachable_rows_change s s' Hs Hst i) as Hch. unfold row_change in Hch. rewrite Hr in Hch.
  destruct (s_rows s !! i) as [r0|] eqn:E0; [exact (approved_ok_next r0 r (IH i r0 E0) Hch)|].
  destruct Hch as (Hd & _). intros _ Hst'. rewrite Hd in Hst'. naive_solver.
Qed.

(** What stays of a mutation when its value is erased. *)
Definition skeleton (r : ChangeSet) : list Mutation := erase <$> Mutations r.

(** How a row relates to what it later becomes. *)
Definition row_later (r r' : ChangeSet) : Prop :=
  csID r' = csID r /\ csTenant r' = csTenant r /\ Author r' = Author r /\
  RequireApproval r' = RequireApproval r /\ csVersion r <= csVersion r' /\
  skeleton r `prefix_of` skeleton r' /\
  (csState r = StatePublished -> csState r' = StatePublished /\ csVersion r' = csVersion r) /\
  (csState r = StateRejected -> csState r' = StateRejected) /\
  (csState r <> StateDraft -> RequireApproval r = true ->
     csState r' <> StateDraft /\ skeleton r' = skeleton r).

#[export] Instance row_later_preorder : PreOrder row_later.
Proof.
  split; [by intros r; split_and!|]. intros a b c Hab Hbc. unfold row_later in *.
  destruct Hab as (?&?&?&Hr&?&?&Hp&Hj&Hf), Hbc as (?&?&?&?&?&?&Hp'&Hj'&Hf').
  split_and!; try congruence; [lia|by etrans|naive_solver congruence|naive_solver|].
  intros Hd Hq. destruct (Hf Hd Hq) as [Hd' E]. rewrite Hr in Hf'.
  destruct (Hf' Hd' Hq) as [Hd'' E']. split; [done|congruence].
Qed.

Lemma mut_le_skeleton ms ms' : Forall2 mut_le ms ms' -> erase <$> ms' = erase <$> ms.
Proof. induction 1 as [|m m' ms ms' [->| ->] _ IH]; [done|..];
    rewrite !fmap_cons, IH; done. Qed.

Lemma row_later_edge c own t c' v :
  edge c t own c' -> csVersion c <= v -> row_later c (set_version c' v).
Proof.
  intros He Hv. pose proof (edge_frame _ _ _ _ He) as (?&?&?&?&?&?&?&?&?).
  split_and!; simpl; try done.
  - destruct He; simpl; try done. unfold skeleton. simpl. rewrite fmap_app. by eexists.
  - destruct He; naive_solver congruence.
  - destruct He; naive_solver congruence.
  - destruct He; simpl; intros; split; try done; naive_solver congruence.
Qed.

Lemma row_later_erased r r' : erased_from r r' -> row_later r r' /\ row_later r' r.
Proof.
  intros (ms & Hms & ->). apply mut_le_skeleton in Hms.
  split; split_and!; simpl; try done; unfold skeleton; simpl; rewrite Hms; by try split.
Qed.

Lemma row_later_next r r' : row_next r r' -> row_later r r'.
Proof.
  intros [He|(c & own & t & c' & Her & He & _ & _ & ->)]; [exact (proj1 (row_later_erased r r' He))|].
  assert (csVersion r = csVersion c) as Ev by (by destruct Her as (? & _ & ->)).
  etrans; [exact (proj2 (row_later_erased c r Her))|]. eapply row_later_edge; [exact He|lia].
Qed.
End Safety.
