(* ===== verification/ChangeSetProps.v ===== *)
(** What the change-set workflow guarantees, from the invariant of
    [ChangeSetFacts], and what its usecases do when they run alone. *)

From Stdlib Require Import ZArith Lia String Ascii List Permutation.
From stdpp Require Import base tactics list gmap strings option decidable.
From S2P Require Import Prelude GoText Values Ids Attribute Access ChangeSet ChangeSetFacts.

Open Scope Z_scope.

(** ** Under any interleaving *)

Section Concurrent.
Context `{GoUlid}.
Variable GetMany : list ID -> result (list AttrDefinition).
Variable failClosed : bool.

(** C3: refinement: in every reachable system, whatever calls, ticks, crashes,
    lost answers and erasures interleave, one step changes a stored set only by
    creating a draft, by erasing staged values, or by one permitted lifecycle
    step ([edge]) that bumps the version, taken from that very record as it was
    before any erasure since it was read; no set is ever deleted. *)
Theorem changeset_refines_lifecycle s s' :
  reachable GetMany failClosed s -> sys_step GetMany failClosed s s' ->
  forall i, row_change (s_rows s !! i) (s_rows s' !! i).
Proof.
  intros Hs Hst. exact (reachable_rows_change _ _ s s' Hs Hst).
Qed.

(** C1: separation of duties: whenever a stored set that requires approval is
    approved, publishing or published, it names an approver, who is an
    identified principal other than the author. *)
Theorem separation_of_duties s i r :
  reachable GetMany failClosed s -> s_rows s !! i = Some r ->
  RequireApproval r = true ->
  csState r = StateApproved \/ csState r = StatePublishing \/ csState r = StatePublished ->
  Approver r <> EmptyString /\ Approver r <> Author r.
Proof. intros Hs Hr. exact (reachable_approved _ _ s i r Hs Hr). Qed.

Lemma rows_later s s' i r :
  reachable GetMany failClosed s -> sys_reach GetMany failClosed s s' ->
  s_rows s !! i = Some r ->
  reachable GetMany failClosed s' /\ exists r', s_rows s' !! i = Some r' /\ row_later r r'.
Proof.
  intros Hs Hr Hrow. induction Hr as [s|s s1 s2 _ IH Hst]; [split; [done|by exists r]|].
  destruct (IH Hs Hrow) as (Hs1 & r1 & Hr1 & Hl1).
  split; [by eapply reach_step|].
  pose proof (reachable_rows_change _ _ s1 s2 Hs1 Hst i) as Hch. unfold row_change in Hch. rewrite Hr1 in Hch.
  destruct (s_rows s2 !! i) as [r2|]; [|done]. exists r2. split; [done|].
  etrans; [exact Hl1|]. by apply row_later_next.
Qed.

(** What history can do to a stored set: it is never lost; its identity,
    tenant, author and approval rule never change and its version never
    decreases; no staged mutation is ever lost, reordered or retargeted (values
    can only be erased); published and rejected are final; and a set that
    requires approval is frozen once submitted: what is published is what was
    reviewed. *)
Theorem changeset_history s s' i r :
  reachable GetMany failClosed s -> sys_reach GetMany failClosed s s' ->
  s_rows s !! i = Some r ->
  exists r', s_rows s' !! i = Some r' /\
    csID r' = csID r /\ csTenant r' = csTenant r /\ Author r' = Author r /\
    RequireApproval r' = RequireApproval r /\ csVersion r <= csVersion r' /\
    skeleton r `prefix_of` skeleton r' /\
    (csState r = StatePublished -> csState r' = StatePublished /\ csVersion r' = csVersion r) /\
    (csState r = StateRejected -> csState r' = StateRejected) /\
    (csState r <> StateDraft -> RequireApproval r = true ->
       csState r' <> StateDraft /\ skeleton r' = skeleton r).
Proof.
  intros Hs Hr Hrow. destruct (rows_later s s' i r Hs Hr Hrow) as (_ & r' & Hr' & Hl).
  by exists r'.
Qed.

(** A thread about to hand a batch to the value interactor. *)
Definition applying (p : prog unit) : option (TenantID * list Mutation) :=
  match p with ApplyMutations tn ms _ => Some (tn, ms) | _ => None end.

Lemma ordpairs_lookup {A} (P : A -> A -> Prop) l j k x y :
  (forall a b, P a b -> P b a) -> ForallOrdPairs P l -> j <> k ->
  l !! j = Some x -> l !! k = Some y -> P x y.
Proof.
  intros Hs Hp. revert j k. induction Hp as [|z l Hz _ IH]; intros j k Hne Hx Hy; [done|].
  rewrite list.Forall_forall in Hz. destruct j as [|j], k as [|k]; simpl in *; simplify_eq.
  - apply Hz. by eapply list_elem_of_lookup_2.
  - apply Hs, Hz. by eapply list_elem_of_lookup_2.
  - eapply (IH j k); [|done..]. congruence.
Qed.

(** C2: a batch is applied only under a claim, in every reachable system with
    every call remembering the record its last update left in the store (the
    memory observes and never decides: the systems it ranges over are exactly
    the reachable ones).  A call about to hand a batch over was told that its
    last update succeeded, and the record it left is the claim: in state
    publishing, with this batch for this tenant; the row of that set is still
    this very record up to erased values, or a later version written at least
    [PublishClaimTTL] after the claim.  Two calls never own the same version of
    a set, and when the earlier one is a claim the later record was written at
    least [PublishClaimTTL] after it. *)
Theorem publish_claims_exclusive :
  (forall s, reachable GetMany failClosed s <->
     exists t, tracked GetMany failClosed t /\ untracked t = s) /\
  (forall t, tracked GetMany failClosed t ->
     (forall j o p tn ms, t_threads t !! j = Some (o, p) -> applying p = Some (tn, ms) ->
        exists c r, o = Some c /\ csState c = StatePublishing /\
          ms = Mutations c /\ tn = csTenant c /\ t_rows t !! csID c = Some r /\
          (erased_from c r \/
           csVersion c < csVersion r /\ csUpdatedAt c + PublishClaimTTL <= csUpdatedAt r)) /\
     (forall j k a p b q, j <> k -> t_threads t !! j = Some (Some a, p) ->
        t_threads t !! k = Some (Some b, q) -> csID a = csID b ->
        csVersion a <> csVersion b /\
        (csVersion a < csVersion b -> csState a = StatePublishing ->
           csUpdatedAt a + PublishClaimTTL <= csUpdatedAt b))).
Proof.
  split; [apply reachable_tracked|].
  intros t Ht. destruct (tracked_inv _ _ t Ht) as (Hok & xs & Hxs & Hall & Hp). rewrite Hxs. split.
  - intros j o p tn ms (x & [= -> ->] & Hx)%list_lookup_fmap_Some Ha.
    eapply Forall_lookup_1 in Hall as (_ & _ & HO & Hwp); [|exact Hx].
    destruct (x.2); try discriminate. simpl in Ha. injection Ha as -> ->.
    destruct Hwp as [(c & Hc & Hst & -> & ->) _].
    destruct (HO c Hc) as [(r & Hr & Hv & He) Hcl]. exists c, r. split_and!; try done.
    destruct (Z.eq_dec (csVersion c) (csVersion r)) as [Ev|Ev]; [left; by apply He|].
    right. split; [lia|]. apply Hcl; [done|done|lia].
  - intros j k a p b q Hne (x & [= Ha ->] & Hx)%list_lookup_fmap_Some
      (y & [= Hb ->] & Hy)%list_lookup_fmap_Some E.
    by destruct (ordpairs_lookup pair_ok xs j k x y pair_ok_sym Hp Hne Hx Hy a b) as (? & ? & _).
Qed.

Lemma RedactEntity_lookup rows cs entity :
  rows !! csID cs = Some cs ->
  RedactEntity rows (csTenant cs) entity !! csID cs =
  Some (set_mutations cs (erase_entity entity (Mutations cs))).
Proof.
  intros Hr. unfold RedactEntity. rewrite lookup_fmap, Hr. simpl.
  by rewrite bool_decide_eq_true_2.
Qed.

(** C40: the erasure does not bump the version, so a write under way undoes it: a
    submission that read the draft before [RedactEntity] passes the
    compare-and-swap after it, and every erased value is stored again. *)
Theorem erasure_undone_by_inflight_write rows i cs entity now :
  rows !! i = Some cs -> csID cs = i -> csState cs = StateDraft ->
  csVersion cs < integerMax -> Mutations cs <> [] ->
  exists written rows' stored,
    submit cs = Ok written /\
    store_update (RedactEntity rows (csTenant cs) entity) (set_updated written now) =
      (rows', Ok tt) /\
    rows' !! i = Some stored /\ Mutations stored = Mutations cs /\
    (forall erased m, RedactEntity rows (csTenant cs) entity !! i = Some erased ->
       m ∈ Mutations erased -> MEntityID m = entity -> MValue m = None).
Proof.
  intros Hr <- Hst Hv Hm. exists (set_state cs StateInReview).
  pose proof (RedactEntity_lookup rows cs entity Hr) as Hrow.
  set (rows1 := RedactEntity rows (csTenant cs) entity) in *.
  unfold submit, store_update. rewrite Hst, (bool_decide_eq_false_2 _ Hm), bool_decide_eq_true_2 by done.
  cbn [csID set_updated set_state]. rewrite Hrow. simpl.
  rewrite bool_decide_eq_true_2, Z.eqb_refl by done. simpl.
  rewrite (proj2 (Z.ltb_lt _ _) Hv).
  eexists _, _. split; [done|]. split; [done|]. rewrite lookup_insert_eq.
  split; [done|]. split; [done|]. intros erased m [= <-] Hin He. simpl in Hin.
  unfold erase_entity in Hin. apply list_elem_of_fmap in Hin as (m' & -> & _).
  by case_bool_decide.
Qed.

End Concurrent.

(** ** Alone *)

Section Alone.
Context `{GoUlid}.
Variable applier : TenantID -> list Mutation -> result unit.

Abbreviation exec := (run applier).

Lemma run_bind {A B} (p : prog A) (f : A -> prog B) w :
  exec (pbind p f) w = let (w', a) := exec p w in exec (f a) w'.
Proof.
  revert w. induction p; intros w; simpl; auto.
  - by destruct (store_create _ _).
  - by destruct (store_update _ _).
  - by destruct (apply_batch _ _ _).
Qed.

(** A record as the store holds it, with two versions left for a publish. *)
Definition stored (w : World) (cs : ChangeSet) : Prop :=
  rows w !! csID cs = Some cs /\ 1 <= csVersion cs <= integerMax - 2 /\
  csTenant cs <> EmptyString.

(** Which records may be published, at time [now]. *)
Definition publishable (now : Z) (cs : ChangeSet) : bool :=
  match csState cs with
  | StateApproved => true
  | StateDraft | StateInReview => negb (RequireApproval cs)
  | StatePublishing => PublishClaimTTL <=? now - csUpdatedAt cs
  | _ => false
  end.

(** The record a publish leaves: published, or handed back. *)
Definition publishedAt_ (now : Z) (cs : ChangeSet) : ChangeSet :=
  set_version (set_updated (set_published (set_state cs StatePublished) (Some now)) now)
    (csVersion cs + 2).

Definition handedBack (now : Z) (cs : ChangeSet) : ChangeSet :=
  set_version (set_updated
    (set_state cs (if bool_decide (csState cs = StatePublishing) then StateApproved
                   else csState cs)) now) (csVersion cs + 2).

Lemma bump_small v : 1 <= v < integerMax -> bump v = v + 1.
Proof. intros Hv. unfold bump. apply wrap64_id. unfold in_int64, integerMax in *. lia. Qed.

Lemma store_update_hit (rs : gmap ID ChangeSet) cs r :
  rs !! csID cs = Some r -> csTenant r = csTenant cs -> csVersion r = csVersion cs ->
  csVersion r < integerMax ->
  store_update rs cs = (<[csID cs := updated_row r cs]> rs, Ok tt).
Proof.
  intros Hr Ht Hv Hm. unfold store_update. rewrite Hr, bool_decide_eq_true_2 by done.
  rewrite (proj2 (Z.eqb_eq _ _) Hv). simpl. by rewrite (proj2 (Z.ltb_lt _ _) Hm).
Qed.

Lemma updated_row_same r cs :
  csID r = csID cs -> csTenant r = csTenant cs -> Author r = Author cs ->
  csCreatedAt r = csCreatedAt cs -> updated_row r cs = set_version cs (csVersion r + 1).
Proof. intros E1 E2 E3 E4. unfold updated_row, set_version. by rewrite E1, E2, E3, E4. Qed.

Lemma run_publishClaimed ctx cs w :
  stored w cs ->
  exec (publishClaimed ctx cs) w =
  match applier (TenantFromContext ctx) (Mutations cs) with
  | Ok _ => (mkWorld (<[csID cs := publishedAt_ (clock w) cs]> (rows w)) (clock w)
               (applied w ++ [(TenantFromContext ctx, Mutations cs)]) (failures w) (nextID w),
             (publishedAt_ (clock w) cs, Ok tt))
  | Err e => (set_rows w (<[csID cs := handedBack (clock w) cs]> (rows w)),
              (handedBack (clock w) cs, Err e))
  end.
Proof.
  intros (Hr & Hv & _). unfold publishClaimed. cbn [run].
  set (claimed := set_updated (set_state cs StatePublishing) (clock w)).
  rewrite (store_update_hit _ claimed cs) by (done || unfold integerMax in *; simpl; lia).
  rewrite updated_row_same by done. cbn [run].
  unfold apply_batch. cbn [Mutations set_version set_updated set_state claimed].
  rewrite bump_small by (simpl; lia).
  destruct (applier _ _) as [[]|e]; cbn [run rows clock applied failures nextID set_rows].
  - rewrite (store_update_hit _ _ (set_version claimed (csVersion cs + 1)));
      [|apply lookup_insert_eq|done|done|simpl; lia].
    rewrite updated_row_same by done. cbn [run rows set_rows clock applied failures nextID].
    unfold publishedAt_, set_version, set_updated, set_published, set_state. simpl.
    rewrite insert_insert_eq, bump_small by lia.
    by replace (csVersion cs + 1 + 1) with (csVersion cs + 2) by lia.
  - rewrite (store_update_hit _ _ (set_version claimed (csVersion cs + 1)));
      [|apply lookup_insert_eq|done|done|simpl; lia].
    rewrite updated_row_same by done. cbn [run rows set_rows clock applied failures nextID].
    unfold handedBack, set_version, set_updated, set_state, set_rows. simpl.
    rewrite insert_insert_eq, bump_small by lia.
    by replace (csVersion cs + 1 + 1) with (csVersion cs + 2) by lia.
Qed.

(** What a publish by a caller of tenant [tn] leaves. *)
Definition published_world (w : World) (tn : TenantID) (cs : ChangeSet) : World :=
  mkWorld (<[csID cs := publishedAt_ (clock w) cs]> (rows w)) (clock w)
    (applied w ++ [(tn, Mutations cs)]) (failures w) (nextID w).

Definition handed_back_world (w : World) (cs : ChangeSet) : World :=
  set_rows w (<[csID cs := handedBack (clock w) cs]> (rows w)).

Lemma run_publish ctx cs w :
  stored w cs ->
  (publishable (clock w) cs = true ->
   exec (publish ctx cs) w =
   match applier (TenantFromContext ctx) (Mutations cs) with
   | Ok _ => (published_world w (TenantFromContext ctx) cs, (publishedAt_ (clock w) cs, Ok tt))
   | Err e => (handed_back_world w cs, (handedBack (clock w) cs, Err e))
   end) /\
  (publishable (clock w) cs = false ->
   exists e, exec (publish ctx cs) w = (w, (cs, Err e)) /\ ErrorCode e = CodeValidation).
Proof.
  intros Hst. unfold publishable, publish.
  destruct (csState cs) eqn:Hs; (split; intros Hp; [|try discriminate]);
    try (eexists; split; [reflexivity|done]); try discriminate;
    try (by apply run_publishClaimed).
  - apply negb_true_iff in Hp. rewrite Hp. by apply run_publishClaimed.
  - apply negb_false_iff in Hp. rewrite Hp. by eexists.
  - apply negb_true_iff in Hp. rewrite Hp. by apply run_publishClaimed.
  - apply negb_false_iff in Hp. rewrite Hp. by eexists.
  - apply Z.leb_le in Hp. cbn [run].
    rewrite (proj2 (Z.ltb_ge _ _) Hp). by apply run_publishClaimed.
  - apply Z.leb_gt in Hp. cbn [run].
    rewrite (proj2 (Z.ltb_lt _ _) Hp). by eexists.
Qed.

(** An undisturbed publish by identifier: of a set that may not be
    published (a state that is final, lacks a required approval, or a claim not
    yet stale) it is a validation error that touches nothing; otherwise, when
    the value interactor accepts the batch, the batch is applied exactly once
    and the set is published, and when it refuses, the error is returned,
    nothing is applied and the set is handed back publishable: in the state it
    came from, or approved when a stale claim was taken over. *)
Theorem publish_outcome ctx raw cs w :
  ParseID raw = Ok (csID cs) -> stored w cs -> csTenant cs = TenantFromContext ctx ->
  let (w', res) := exec (Publish ctx raw) w in
  if publishable (clock w) cs then
    match applier (csTenant cs) (Mutations cs) with
    | Ok _ =>
        w' = published_world w (csTenant cs) cs /\ res = Ok (publishedAt_ (clock w) cs)
    | Err e =>
        w' = handed_back_world w cs /\ res = Err e /\
        publishable (clock w) (handedBack (clock w) cs) = true
    end
  else w' = w /\ exists e, res = Err e /\ ErrorCode e = CodeValidation.
Proof.
  intros Hid Hst Htn. unfold Publish, invalid_id. rewrite Hid. cbn [run].
  unfold store_get. rewrite (proj1 Hst), bool_decide_eq_true_2 by done.
  rewrite run_bind. destruct (run_publish ctx cs w Hst) as [Hyes Hno].
  destruct (publishable (clock w) cs) eqn:Hp.
  - rewrite Hyes, <- Htn by done.
    destruct (applier (csTenant cs) (Mutations cs)) as [[]|e]; simpl; [done|].
    split; [done|]. split; [done|]. unfold publishable, handedBack in *. simpl.
    case_bool_decide as Hs; [done|]. by destruct (csState cs).
  - destruct (Hno eq_refl) as (e & -> & He). simpl. eauto.
Qed.

(** *** One tick of the scheduler *)

Definition accepted (cs : ChangeSet) : bool := is_ok (applier (csTenant cs) (Mutations cs)).

(** The record a tick leaves of a set it tries. *)
Definition outcome (now : Z) (cs : ChangeSet) : ChangeSet :=
  if accepted cs then publishedAt_ now cs else handedBack now cs.

Definition reported (observed : bool) (now : Z) (cs : ChangeSet) : list (ChangeSet * Error) :=
  match applier (csTenant cs) (Mutations cs) with
  | Err e => if observed then [(handedBack now cs, e)] else []
  | Ok _ => []
  end.

Definition tick_world (observed : bool) (l : list ChangeSet) (w : World) : World :=
  mkWorld (insert_all csID (outcome (clock w)) l (rows w)) (clock w)
    (applied w ++ ((fun cs => (csTenant cs, Mutations cs)) <$> List.filter accepted l))
    (failures w ++ concat (reported observed (clock w) <$> l)) (nextID w).

Lemma run_publishEach observed ctx l n w :
  NoDup (csID <$> l) -> Forall (stored w) l -> Forall (fun cs => publishable (clock w) cs = true) l ->
  exec (publishEach observed ctx l n) w =
  (tick_world observed l w, Ok (n + Z.of_nat (length (List.filter accepted l)))).
Proof.
  revert n w. induction l as [|cs l IH]; intros n w Hnd Hst Hp.
  { unfold tick_world. simpl. rewrite !app_nil_r, Z.add_0_r. by destruct w. }
  rewrite fmap_cons, list.NoDup_cons in Hnd. destruct Hnd as [Hnotin Hnd].
  apply Forall_cons_iff in Hst as [Hcs Hst]. apply Forall_cons_iff in Hp as [Hpc Hp].
  destruct (run_publish (WithTenant ctx (csTenant cs)) cs w Hcs) as [Hrun _].
  cbn [publishEach]. rewrite run_bind, (Hrun Hpc), WithTenant_tenant by apply Hcs. clear Hrun.
  assert (forall r (a : list (TenantID * list Mutation)) f, csID r = csID cs ->
    Forall (stored (mkWorld (<[csID cs := r]> (rows w)) (clock w) a f (nextID w))) l) as Hst'.
  { intros r a f Hr. rewrite list.Forall_forall in *. intros d Hd.
    destruct (Hst d Hd) as (Hrow & Hv & Ht). split_and!; [|lia|lia|done]. simpl.
    rewrite lookup_insert_ne; [done|]. intros E. apply Hnotin, list_elem_of_fmap. by exists d. }
  unfold tick_world, reported. cbn [List.filter fmap list_fmap concat].
  assert (accepted cs = is_ok (applier (csTenant cs) (Mutations cs))) as Hacc by done.
  change (insert_all csID (outcome (clock w)) (cs :: l) (rows w)) with
    (insert_all csID (outcome (clock w)) l (<[csID cs := outcome (clock w) cs]> (rows w))).
  assert (outcome (clock w) cs = if accepted cs then publishedAt_ (clock w) cs
                                 else handedBack (clock w) cs) as Hout by done.
  rewrite Hout, Hacc. clear Hout Hacc.
  destruct (applier (csTenant cs) (Mutations cs)) as [u|e]; cbn [is_ok snd fst].
  - rewrite IH by (done || by apply Hst'). unfold tick_world, published_world.
    cbn [rows clock applied failures nextID fmap list_fmap length app]. f_equal.
    + rewrite <- (app_assoc (applied w)). done.
    + f_equal. lia.
  - destruct observed; cbn [run]; rewrite IH by (done || by apply Hst');
      unfold tick_world, handed_back_world, set_rows;
      cbn [rows clock applied failures nextID fmap list_fmap length app].
    + by rewrite <- (app_assoc (failures w)).
    + done.
Qed.

Definition world_ok (w : World) : Prop :=
  map_Forall (fun i r => csID r = i /\ stored w r) (rows w).

(** The sets a tick at time [now] picks up. *)
Definition picked (now : Z) (cs : ChangeSet) : bool :=
  due now cs || stale (now - PublishClaimTTL) cs.

Definition picked_list (w : World) : list ChangeSet :=
  store_due (rows w) (clock w) ++ store_stale (rows w) (clock w - PublishClaimTTL).

Lemma picked_list_elem w r :
  r ∈ picked_list w <-> (exists i, rows w !! i = Some r) /\ picked (clock w) r = true.
Proof.
  unfold picked_list, picked, store_due, store_stale.
  rewrite elem_of_app, sort_by_elem, !elem_of_filter_b, values_elem, orb_true_iff. naive_solver.
Qed.

Lemma due_stale_disjoint now b r : due now r = true -> stale b r = true -> False.
Proof. unfold due, stale. intros. breflect. congruence. Qed.

Lemma picked_list_ids w : world_ok w -> NoDup (csID <$> picked_list w).
Proof.
  intros Hok. unfold picked_list, store_due, store_stale.
  rewrite sort_by_perm, fmap_app. apply list.NoDup_app.
  assert (forall f, NoDup (csID <$> List.filter f (values (rows w)))) as Hf.
  { intros f. apply filter_fmap_NoDup, values_keys. intros i r Hr. by destruct (Hok i r Hr). }
  split_and!; [apply Hf| |apply Hf].
  intros i (x & -> & Hx)%list_elem_of_fmap (y & E & Hy)%list_elem_of_fmap.
  apply elem_of_filter_b in Hx as [Hx Hdx], Hy as [Hy Hsy].
  apply values_elem in Hx as [i Hi], Hy as [j Hj].
  destruct (Hok i x Hi) as [Eix _], (Hok j y Hj) as [Ejy _].
  assert (x = y) as -> by congruence. by eapply due_stale_disjoint.
Qed.

(** A scheduler tick tries every due or stranded set exactly once: those
    whose batch the value interactor accepts are applied and published, the
    others are handed back (approved, to be retried) and reported to the
    observer, and one failure does not keep another set from being published;
    no other set changes and the answer counts the published ones. *)
Theorem publish_due_exact observed ctx w :
  world_ok w ->
  let (w', res) := exec (PublishDue observed ctx) w in
  exists tried, NoDup tried /\
    (forall r, r ∈ tried <-> (exists i, rows w !! i = Some r) /\ picked (clock w) r = true) /\
    res = Ok (Z.of_nat (length (List.filter accepted tried))) /\
    applied w' = applied w ++ ((fun cs => (csTenant cs, Mutations cs)) <$> List.filter accepted tried) /\
    failures w' = failures w ++ concat (reported observed (clock w) <$> tried) /\
    forall i r, rows w !! i = Some r ->
      rows w' !! i = Some (if picked (clock w) r
                           then if accepted r then publishedAt_ (clock w) r
                                else handedBack (clock w) r
                           else r).
Proof.
  intros Hok. unfold PublishDue. cbn [run]. fold (picked_list w).
  pose proof (picked_list_ids w Hok) as Hnd.
  rewrite run_publishEach; [|done| |].
  - exists (picked_list w). split; [by apply NoDup_fmap_1 in Hnd|].
    split; [apply picked_list_elem|]. split_and!; [done..|].
    intros i r Hr. destruct (Hok i r Hr) as [<- _]. simpl. destruct (picked (clock w) r) eqn:Hp.
    + assert (r ∈ picked_list w) as Hin by (apply picked_list_elem; eauto).
      rewrite insert_all_member; [done| |done]. intros j Hj E. f_equal.
      apply picked_list_elem in Hj as [[k Hk] _]. destruct (Hok k j Hk) as [Ek _]. congruence.
    + rewrite insert_all_other; [done|]. intros j Hj E.
      apply picked_list_elem in Hj as [[k Hk] Hpj]. destruct (Hok k j Hk) as [Ek _]. congruence.
  - apply list.Forall_forall. intros r Hr. apply picked_list_elem in Hr as [[i Hi] _].
    exact (proj2 (Hok i r Hi)).
  - apply list.Forall_forall. intros r Hr. apply picked_list_elem in Hr as [_ Hp].
    unfold picked, due, stale in Hp. unfold publishable.
    apply orb_true_iff in Hp as [Hp|Hp]; breflect; [by destruct (csState r)|].
    destruct (csState r); try discriminate. apply Z.leb_le. lia.
Qed.
End Alone.

(** ** A call running alone is one interleaving *)

Section Embedding.
Context `{GoUlid}.
Variable GetMany : list ID -> result (list AttrDefinition).
Variable failClosed : bool.
Variable applier : TenantID -> list Mutation -> result unit.

Lemma sys_reach_trans s1 s2 s3 :
  sys_reach GetMany failClosed s1 s2 -> sys_reach GetMany failClosed s2 s3 ->
  sys_reach GetMany failClosed s1 s3.
Proof. intros H12. induction 1 as [s|s s' s'' _ IH Hst]; [done|]. eapply sys_next; [by apply IH|done]. Qed.

Lemma sys_reach_call rs now p rs' p' :
  call rs now p rs' p' ->
  sys_reach GetMany failClosed (mkSys rs now [p]) (mkSys rs' now [p']).
Proof.
  intros Hc. eapply sys_next; [apply sys_refl|]. exact (sys_call _ _ rs now [] [] p rs' p' Hc).
Qed.

Lemma run_reach (p : prog unit) w :
  sys_reach GetMany failClosed (mkSys (rows w) (clock w) [p])
    (mkSys (rows (run applier p w).1) (clock w) [Ret tt]).
Proof.
  revert w. induction p; intros w; simpl.
  - destruct a. apply sys_refl.
  - eapply sys_reach_trans; [apply sys_reach_call, call_now|done].
  - eapply sys_reach_trans; [apply sys_reach_call, (call_id _ _ _ (nextID w))|].
    match goal with |- context [run _ _ ?w'] => by apply (H0 _ w') end.
  - eapply sys_reach_trans; [apply sys_reach_call, call_create|].
    destruct (store_create (rows w) cs) as [r res]. by apply (H0 res (set_rows w r)).
  - eapply sys_reach_trans; [apply sys_reach_call, call_get|done].
  - eapply sys_reach_trans; [apply sys_reach_call, call_list|done].
  - eapply sys_reach_trans; [apply sys_reach_call, call_update|].
    destruct (store_update (rows w) cs) as [r res]. by apply (H0 res (set_rows w r)).
  - eapply sys_reach_trans; [apply sys_reach_call, (call_due _ _ _ _ _ (reflexivity _))|done].
  - eapply sys_reach_trans; [apply sys_reach_call, (call_stale _ _ _ _ _ (reflexivity _))|done].
  - unfold apply_batch. destruct (applier _ _) as [[]|e];
      (eapply sys_reach_trans; [apply sys_reach_call, call_apply|]).
    + match goal with |- context [run _ _ ?w'] => by apply (H0 _ w') end.
    + by apply (H0 _ w).
  - eapply sys_reach_trans; [apply sys_reach_call, call_report|].
    match goal with |- context [run _ _ ?w'] => by apply (IHp w') end.
Qed.

(** The world a call leaves, with time passing until the next one. *)
Definition after (w : World) (p : prog unit) (now : Z) : World :=
  let w' := (run applier p w).1 in
  mkWorld (rows w') now (applied w') (failures w') (nextID w').

Lemma after_reach w p now :
  usecase GetMany failClosed p -> clock w <= now ->
  sys_reach GetMany failClosed (mkSys (rows w) (clock w) [])
    (mkSys (rows (after w p now)) now []).
Proof.
  intros Hu Hnow. eapply sys_reach_trans.
  { eapply sys_next; [apply sys_refl|]. by apply sys_start. }
  eapply sys_reach_trans; [apply run_reach|].
  eapply sys_next; [eapply sys_next; [apply sys_refl|]|].
  - exact (sys_crash GetMany failClosed _ _ [] [] (Ret tt)).
  - by apply sys_tick.
Qed.

Lemma reachable_trans s s' :
  reachable GetMany failClosed s -> sys_reach GetMany failClosed s s' ->
  reachable GetMany failClosed s'.
Proof.
  intros Hs Hr. induction Hr as [s|s s1 s2 _ IH Hst]; [done|].
  eapply reach_step; [by apply IH|exact Hst].
Qed.
End Embedding.

(** ** Witnesses *)

Module Example.

#[local] Existing Instance AccessExample.ulid.

Definition GetMany := AccessExample.GetMany.

Definition as_actor (name : string) : Context :=
  mkContext (Some "acme"%string) (Some (mkActor name "" "user")) None.

Definition raise : Mutation :=
  mkMutation "set" "7" "emp-1" "3" "" "" (Some "9000"%string) false false.

Definition accepting (tn : TenantID) (ms : list Mutation) : result unit := Ok tt.
Definition refusing (tn : TenantID) (ms : list Mutation) : result unit :=
  Err (NewValidation "constraint").

Definition w0 : World := mkWorld ∅ 0 [] [] 1.

Definition next (w : World) (p : prog unit) : World := after accepting w p (clock w + 1).

Definition w1 : World :=
  next w0 (forget (Create (as_actor "ann") (mkCreateInput "pay" true None))).
Definition w2 : World :=
  next w1 (forget (AddMutation GetMany false (as_actor "ann") "1" raise)).
Definition w3 : World := next w2 (forget (Submit (as_actor "ann") "1")).
Definition w4 : World := next w3 (forget (Approve (as_actor "bob") "1")).

Definition sys (w : World) : Sys := mkSys (rows w) (clock w) [].

Definition staged (s : State) (t v : Z) (approver : string) : ChangeSet :=
  mkChangeSet 1 "acme" "pay" s true "ann" approver [raise] None 0 t None v.

Lemma next_reach w p :
  usecase GetMany false p -> sys_reach GetMany false (sys w) (sys (next w p)).
Proof. intros Hu. apply (after_reach GetMany false accepting w p (clock w + 1)); [exact Hu|lia]. Qed.

Lemma reach2 : reachable GetMany false (sys w2).
Proof.
  eapply reachable_trans; [eapply reachable_trans; [apply (reach_initial _ _ 0)|]|].
  - apply (next_reach w0), u_create.
  - apply (next_reach w1), u_add.
Qed.

Lemma reach4 : reachable GetMany false (sys w4).
Proof.
  eapply reachable_trans; [eapply reachable_trans; [exact reach2|]|].
  - apply (next_reach w2), u_submit.
  - apply (next_reach w3), u_approve.
Qed.

Example w4_row : rows w4 !! 1%N = Some (staged StateApproved 3 4 "bob").
Proof. vm_compute. reflexivity. Qed.

(** One answered call of the only thread. *)
Definition advance (s : Sys) : Sys :=
  match s_threads s with
  | [Now k] => mkSys (s_rows s) (s_clock s) [k (s_clock s)]
  | [StoreGet tn i k] => mkSys (s_rows s) (s_clock s) [k (store_get (s_rows s) tn i)]
  | [StoreUpdate cs k] =>
      mkSys (store_update (s_rows s) cs).1 (s_clock s) [k (store_update (s_rows s) cs).2]
  | _ => s
  end.

Lemma advance_reachable s : reachable GetMany false s -> reachable GetMany false (advance s).
Proof.
  intros Hs. destruct s as [rows now [|[] [|q ps]]]; try exact Hs;
    (eapply reach_step; [exact Hs|]); apply (sys_call _ _ _ _ [] []); constructor.
Qed.

(** bob publishes the approved set: read, claimed, about to apply. *)
Definition publishing : Sys :=
  Nat.iter 4 advance
    (mkSys (rows w4) (clock w4) [forget (Publish (as_actor "bob") "1")]).

Lemma publishing_reachable : reachable GetMany false publishing.
Proof.
  unfold publishing. cbn [Nat.iter]. do 4 apply advance_reachable.
  eapply reach_step; [exact reach4|]. apply sys_start, u_publish.
Qed.

(** The same author cannot approve. *)
Example self_approval :
  rows (next w3 (forget (Approve (as_actor "ann") "1"))) !! 1%N =
  Some (staged StateInReview 2 3 "").
Proof. vm_compute. reflexivity. Qed.

(** Scheduled for time 4; it is 5. *)
Definition scheduled : ChangeSet :=
  mkChangeSet 1 "acme" "pay" StateApproved true "ann" "bob" [raise] (Some 4) 0 3 None 4.

Definition approved_world : World := mkWorld {[ 1%N := scheduled ]} 5 [] [] 2.

Lemma approved_world_ok : world_ok approved_world.
Proof. apply map_Forall_singleton. split; [done|]. split_and!; [done|done|done|done]. Qed.

End Example.

Lemma changeset_refines_lifecycle_witness :
  row_change (s_rows (Example.sys Example.w4) !! 1%N)
    (RedactEntity (s_rows (Example.sys Example.w4)) "acme" "emp-1" !! 1%N).
Proof.
  exact (changeset_refines_lifecycle (H := AccessExample.ulid) Example.GetMany false
    (Example.sys Example.w4)
    (mkSys (RedactEntity (rows Example.w4) "acme" "emp-1") (clock Example.w4) [])
    Example.reach4 (sys_erase (H := AccessExample.ulid) _ _ _ _ _ _ _) 1%N).
Defined.

Lemma separation_of_duties_witness :
  "bob"%string <> EmptyString /\ "bob"%string <> "ann"%string.
Proof.
  exact (separation_of_duties (H := AccessExample.ulid) Example.GetMany false
    (Example.sys Example.w4) 1%N (Example.staged StateApproved 3 4 "bob")
    Example.reach4 Example.w4_row eq_refl (or_introl eq_refl)).
Defined.

Lemma changeset_history_witness :
  exists r', s_rows (Example.sys Example.w4) !! 1%N = Some r' /\
    skeleton (Example.staged StateDraft 1 2 "") `prefix_of` skeleton r'.
Proof.
  assert (sys_reach (H := AccessExample.ulid) Example.GetMany false
    (Example.sys Example.w2) (Example.sys Example.w4)) as Hr.
  { eapply sys_reach_trans.
    - apply (Example.next_reach Example.w2), u_submit.
    - apply (Example.next_reach Example.w3), u_approve. }
  destruct (changeset_history (H := AccessExample.ulid) Example.GetMany false
    (Example.sys Example.w2) (Example.sys Example.w4) 1%N (Example.staged StateDraft 1 2 "")
    Example.reach2 Hr) as (r' & Hr' & _ & _ & _ & _ & _ & Hp & _).
  { vm_compute. reflexivity. }
  exists r'. split; [exact Hr'|exact Hp].
Defined.

Lemma publish_claims_exclusive_witness :
  applying <$> s_threads Example.publishing = [Some ("acme"%string, [Example.raise])] /\
  exists t c p r, untracked t = Example.publishing /\ t_threads t !! 0%nat = Some (Some c, p) /\
    csState c = StatePublishing /\ Mutations c = [Example.raise] /\
    s_rows Example.publishing !! csID c = Some r.
Proof.
  assert (applying <$> s_threads Example.publishing = [Some ("acme"%string, [Example.raise])]) as Ha
    by (vm_compute; reflexivity).
  split; [exact Ha|].
  destruct (publish_claims_exclusive (H := AccessExample.ulid) Example.GetMany false) as [Hiff Hcl].
  destruct (proj1 (Hiff Example.publishing) Example.publishing_reachable) as (t & Ht & Ets).
  destruct (Hcl t Ht) as [Hj _]. clear Hiff Hcl Ht. rewrite <- Ets in Ha |- *.
  destruct t as [rows now [|[o p] xs]]; [discriminate Ha|]. injection Ha as Ha _.
  destruct (Hj 0%nat o p _ _ eq_refl Ha) as (c & r & Ho & Hc & Hm & _ & Hr & _).
  exists (mkTSys rows now ((o, p) :: xs)), c, p, r. rewrite <- Ho.
  split; [reflexivity|]. split; [reflexivity|]. split; [exact Hc|].
  split; [exact (eq_sym Hm)|exact Hr].
Defined.

Lemma erasure_undone_by_inflight_write_witness :
  exists written rows' stored,
    submit (Example.staged StateDraft 1 2 "") = Ok written /\
    store_update (RedactEntity (rows Example.w2) "acme" "emp-1") (set_updated written 9) =
      (rows', Ok tt) /\
    rows' !! 1%N = Some stored /\ Mutations stored = [Example.raise].
Proof.
  destruct (erasure_undone_by_inflight_write (rows Example.w2) 1%N
    (Example.staged StateDraft 1 2 "") "emp-1" 9) as (written & rows' & stored & H1 & H2 & H3 & H4 & _);
    [vm_compute; reflexivity|reflexivity|reflexivity|reflexivity|done|].
  exists written, rows', stored. done.
Defined.

Lemma publish_outcome_witness :
  let (w', res) := run Example.refusing (Publish (H := AccessExample.ulid) (Example.as_actor "bob") "1")
    Example.approved_world in
  res = Err (NewValidation "constraint").
Proof.
  pose proof (publish_outcome (H := AccessExample.ulid) Example.refusing (Example.as_actor "bob") "1"
    Example.scheduled Example.approved_world eq_refl
    (proj2 (Example.approved_world_ok 1%N _ eq_refl)) eq_refl) as Hp.
  destruct (run _ _ _) as [w' res]. exact (proj1 (proj2 Hp)).
Defined.

Lemma publish_due_exact_witness :
  let (w', res) := run Example.accepting (PublishDue false (Example.as_actor "sys"))
    Example.approved_world in
  rows w' !! 1%N = Some (publishedAt_ 5 Example.scheduled).
Proof.
  pose proof (publish_due_exact Example.accepting false
    (Example.as_actor "sys") Example.approved_world Example.approved_world_ok) as Hp.
  destruct (run _ _ _) as [w' res]. destruct Hp as (tried & _ & _ & _ & _ & _ & Hrow).
  exact (Hrow 1%N _ eq_refl).
Defined.

