(* ===== verification/ChangeSetMemory.v ===== *)
(** The in-memory change-set store ([infrastructure/memory/changeset_store.go])
    under the usecases of [application/changeset].

    A Go slice is a window on a backing array, and the store hands out the very
    slice header it keeps: [Get] copies the record, not the mutations.  The heap
    of arrays is therefore part of the state here, and the two usecases that write
    through the slice, [append] in [AddMutation] and the in-place masking of
    [redact], are followed step by step. *)

From Stdlib Require Import ZArith Lia String Ascii List.
From stdpp Require Import base tactics list gmap strings option decidable.
From S2P Require Import Prelude GoText Values Ids Attribute Access ChangeSet.

Open Scope Z_scope.
Open Scope go_scope.

(** ** Slices *)

(** Element [i] of a slice is element [i] of the array at [ptr]. *)
Record Slice := mkSlice { ptr : nat; len : nat; cap : nat }.

Abbreviation Heap := (gmap nat (list Mutation)).

Definition array (h : Heap) (p : nat) : list Mutation := default [] (h !! p).

Definition contents (h : Heap) (s : Slice) : list Mutation := take (len s) (array h (ptr s)).

Definition zeroMutation : Mutation := mkMutation "" "" "" "" "" "" None false false.

(** A slice of the heap: its array has [cap] elements. *)
Definition slice_ok (h : Heap) (s : Slice) : Prop :=
  length (array h (ptr s)) = cap s /\ (len s <= cap s)%nat.

Section Memory.
(** The capacity [append] gives a slice it reallocates for one more element,
    which Go leaves to the implementation: at least the new length. *)
Variable grow : nat -> nat.

Definition append (h : Heap) (s : Slice) (m : Mutation) : Heap * Slice :=
  if (len s <? cap s)%nat then
    (<[ptr s := <[len s := m]> (array h (ptr s))]> h, mkSlice (ptr s) (S (len s)) (cap s))
  else
    let c := Nat.max (S (len s)) (grow (cap s)) in
    let p := fresh (dom h) in
    (<[p := contents h s ++ m :: replicate (c - S (len s)) zeroMutation]> h,
     mkSlice p (S (len s)) c).

(** ** The store *)

(** A record with its slice; the [Mutations] field of [base] is not used. *)
Record MemSet := mkMemSet { base : ChangeSet; muts : Slice }.

Record Mem := mkMem { sets : gmap ID MemSet; heap : Heap }.

(** The record as a reader of the slice sees it. *)
Definition view (h : Heap) (cs : MemSet) : ChangeSet :=
  set_mutations (base cs) (contents h (muts cs)).

Definition memCreate (st : Mem) (cs : MemSet) : Mem * result unit :=
  let cs := if csVersion (base cs) =? 0 then mkMemSet (set_version (base cs) 1) (muts cs) else cs in
  (mkMem (<[csID (base cs) := cs]> (sets st)) (heap st), Ok tt).

Definition memUpdate (st : Mem) (cs : MemSet) : Mem * result unit :=
  match sets st !! csID (base cs) with
  | Some stored =>
      if bool_decide (csTenant (base stored) = csTenant (base cs)) then
        if csVersion (base stored) =? csVersion (base cs) then
          let cs := mkMemSet (set_version (base cs) (bump (csVersion (base stored)))) (muts cs) in
          (mkMem (<[csID (base cs) := cs]> (sets st)) (heap st), Ok tt)
        else (st, Err ErrStaleVersion)
      else (st, Err (NewNotFound "changeset"))
  | None => (st, Err (NewNotFound "changeset"))
  end.

Definition memGet (st : Mem) (tenant : TenantID) (i : ID) : result MemSet :=
  match sets st !! i with
  | Some cs =>
      if bool_decide (csTenant (base cs) = tenant) then Ok cs else Err (NewNotFound "changeset")
  | None => Err (NewNotFound "changeset")
  end.

(** [changeSetEraser.redact] of one set: the mutations are copied first. *)
Definition memErase (st : Mem) (tenant : TenantID) (match_ : Mutation -> bool) (i : ID) : Mem :=
  match sets st !! i with
  | Some cs =>
      let ms := contents (heap st) (muts cs) in
      let hit m := match_ m && isSome (MValue m) in
      if bool_decide (csTenant (base cs) = tenant) && existsb hit ms then
        let p := fresh (dom (heap st)) in
        mkMem (<[i := mkMemSet (base cs) (mkSlice p (length ms) (length ms))]> (sets st))
          (<[p := (fun m => if hit m then erase m else m) <$> ms]> (heap st))
      else st
  | None => st
  end.

(** ** The usecases, on the heap *)

(** What [mutate] does between its [Get] and its [Update] for [AddMutation], once
    the guards passed: the append, then the stamp. *)
Definition stageMutation (h : Heap) (cs : MemSet) (m : Mutation) (now : Z) : Heap * MemSet :=
  let (h, s) := append h (muts cs) m in
  (h, mkMemSet (set_updated (base cs) now) s).

(** The loop of [redact]: masks each unreadable mutation in place. *)
Fixpoint maskFrom (readable : gmap string bool) (p idx todo : nat) (h : Heap) : Heap :=
  match todo with
  | O => h
  | S todo =>
      let h :=
        match array h p !! idx with
        | Some m =>
            if lookup_bool readable (MAttributeDefinitionID m) then h
            else <[p := <[idx := mask m]> (array h p)]> h
        | None => h
        end in
      maskFrom readable p (S idx) todo h
  end.

Definition maskInPlace (readable : gmap string bool) (h : Heap) (s : Slice) : Heap :=
  maskFrom readable (ptr s) 0 (len s) h.

(** [Interactor.Get], once the access map is resolved: the answer is a view of
    the store's own array. *)
Definition memGetRedacted (st : Mem) (tenant : TenantID) (i : ID) (readable : gmap string bool) :
    Mem * result ChangeSet :=
  match memGet st tenant i with
  | Err e => (st, Err e)
  | Ok cs =>
      let h := maskInPlace readable (heap st) (muts cs) in
      (mkMem (sets st) h, Ok (view h cs))
  end.

(** ** What the aliasing does *)

Lemma memUpdate_ok st stored cs :
  sets st !! csID (base cs) = Some stored -> csTenant (base stored) = csTenant (base cs) ->
  csVersion (base stored) = csVersion (base cs) ->
  memUpdate st cs =
    (mkMem (<[csID (base cs) := mkMemSet (set_version (base cs) (bump (csVersion (base cs))))
                                  (muts cs)]> (sets st)) (heap st), Ok tt).
Proof.
  intros Hs Ht Hv. unfold memUpdate. rewrite Hs, bool_decide_eq_true_2 by done.
  rewrite (proj2 (Z.eqb_eq _ _) Hv). by rewrite Hv.
Qed.

Lemma memUpdate_stale st stored cs :
  sets st !! csID (base cs) = Some stored -> csTenant (base stored) = csTenant (base cs) ->
  csVersion (base stored) <> csVersion (base cs) ->
  memUpdate st cs = (st, Err ErrStaleVersion).
Proof.
  intros Hs Ht Hv. unfold memUpdate. rewrite Hs, bool_decide_eq_true_2 by done.
  by rewrite (proj2 (Z.eqb_neq _ _) Hv).
Qed.

Lemma take_insert_len (l : list Mutation) n m :
  (n < length l)%nat -> take (S n) (<[n := m]> l) = take n l ++ [m].
Proof.
  intros Hn. rewrite (take_S_r _ _ m) by (by apply list_lookup_insert_eq).
  by rewrite take_insert_ge by lia.
Qed.

Lemma append_spare h s m :
  slice_ok h s -> (len s < cap s)%nat ->
  let (h', s') := append h s m in
  ptr s' = ptr s /\ len s' = S (len s) /\ cap s' = cap s /\ slice_ok h' s' /\
  contents h' s' = contents h s ++ [m].
Proof.
  intros [Ha Hl] Hc. unfold append. rewrite (proj2 (Nat.ltb_lt _ _) Hc).
  unfold slice_ok, contents, array in *. simpl. rewrite lookup_insert_eq. simpl.
  split_and!; try done; [by rewrite length_insert|]. apply take_insert_len. lia.
Qed.

Lemma bump_differs v : in_int64 v -> bump v <> v.
Proof.
  unfold bump, wrap64, in_int64. intros Hv E.
  pose proof (Z.mod_pos_bound (v + 1 + 2 ^ 63) (2 ^ 64)).
  destruct (decide (v = 2 ^ 63 - 1)) as [->|Hne].
  - vm_compute in E. discriminate.
  - rewrite Z.mod_small in E by lia. lia.
Qed.

(** On the in-memory store the compare-and-swap does not protect the array:
    two editors read the same draft, whose slice has spare capacity; the first
    stages [m1] and is told it is saved, the second stages [m2] and gets the
    stale-version conflict - and the stored draft now contains [m2] in the place
    of [m1]. *)
Theorem memory_append_loses_update st i cs m1 m2 t1 t2 :
  sets st !! i = Some cs -> csID (base cs) = i -> in_int64 (csVersion (base cs)) ->
  slice_ok (heap st) (muts cs) -> (len (muts cs) < cap (muts cs))%nat ->
  let (h1, cs1) := stageMutation (heap st) cs m1 t1 in
  let (st1, r1) := memUpdate (mkMem (sets st) h1) cs1 in
  let (h2, cs2) := stageMutation (heap st1) cs m2 t2 in
  let (st2, r2) := memUpdate (mkMem (sets st1) h2) cs2 in
  r1 = Ok tt /\ r2 = Err ErrStaleVersion /\
  exists stored, sets st2 !! i = Some stored /\
    contents (heap st1) (muts stored) = contents (heap st) (muts cs) ++ [m1] /\
    contents (heap st2) (muts stored) = contents (heap st) (muts cs) ++ [m2].
Proof.
  intros Hs <- Hv Hok Hc. unfold stageMutation.
  pose proof (append_spare (heap st) (muts cs) m1 Hok Hc) as H1.
  destruct (append (heap st) (muts cs) m1) as [h1 s1] eqn:E1.
  destruct H1 as (Hp1 & Hl1 & Hc1 & Hok1 & Hv1).
  rewrite (memUpdate_ok _ cs) by done. cbn [heap sets base].
  assert (h1 = <[ptr (muts cs) := <[len (muts cs) := m1]> (array (heap st) (ptr (muts cs)))]> (heap st)) as Eh1.
  { unfold append in E1. rewrite (proj2 (Nat.ltb_lt _ _) Hc) in E1. by injection E1. }
  assert (array h1 (ptr (muts cs)) = <[len (muts cs) := m1]> (array (heap st) (ptr (muts cs)))) as Ea1.
  { rewrite Eh1. unfold array at 1. by rewrite lookup_insert_eq. }
  assert (slice_ok h1 (muts cs)) as Hok1'.
  { destruct Hok as [Ha Hl]. split; [|done]. by rewrite Ea1, length_insert. }
  pose proof (append_spare h1 (muts cs) m2 Hok1' Hc) as H2.
  destruct (append h1 (muts cs) m2) as [h2 s2] eqn:E2.
  destruct H2 as (Hp2 & Hl2 & Hc2 & Hok2 & Hv2).
  erewrite memUpdate_stale; [|apply lookup_insert_eq|done|simpl; by apply bump_differs].
  split; [done|]. split; [done|]. eexists. cbn [sets heap]. split; [apply lookup_insert_eq|].
  cbn [muts]. split; [exact Hv1|].
  assert (s1 = s2) as -> by (destruct s1, s2; simpl in *; congruence).
  rewrite Hv2. f_equal. unfold contents. rewrite Ea1. apply take_insert_ge. lia.
Qed.

Lemma maskFrom_array readable p todo idx h :
  (idx + todo <= length (array h p))%nat ->
  array (maskFrom readable p idx todo h) p =
  take idx (array h p) ++
  redactMutations readable (take todo (drop idx (array h p))) ++
  drop (idx + todo) (array h p).
Proof.
  revert idx h. induction todo as [|todo IH]; intros idx h Hlen; simpl.
  { by rewrite Nat.add_0_r, take_drop. }
  destruct (lookup_lt_is_Some_2 (array h p) idx) as [m Hm]; [lia|]. rewrite Hm.
  set (m' := if lookup_bool readable (MAttributeDefinitionID m) then m else mask m).
  set (h' := if lookup_bool _ _ then h else _).
  assert (array h' p = <[idx := m']> (array h p)) as Ea.
  { unfold h', m'. destruct (lookup_bool _ _).
    - by rewrite list_insert_id.
    - unfold array at 1. by rewrite lookup_insert_eq. }
  rewrite IH by (rewrite Ea, length_insert; lia). rewrite Ea.
  rewrite (take_S_r _ idx m') by (apply list_lookup_insert_eq; lia).
  rewrite take_insert_ge, drop_insert_lt, drop_insert_lt by lia.
  rewrite <- app_assoc. f_equal. rewrite (drop_S _ m idx Hm). simpl.
  unfold redactMutations. simpl. f_equal. f_equal. f_equal. lia.
Qed.

(** On the in-memory store reading redacts the stored set: after [Get] by a
    principal, every reader sees, and a publish would apply, the mutations as
    masked for that principal - the staged value of an attribute it may not read
    is gone from the store, with no write and no version bump. *)
Theorem memory_get_redacts_store st tenant i cs readable :
  sets st !! i = Some cs -> csTenant (base cs) = tenant -> slice_ok (heap st) (muts cs) ->
  let (st', r) := memGetRedacted st tenant i readable in
  let masked := set_mutations (base cs) (redactMutations readable (contents (heap st) (muts cs))) in
  r = Ok masked /\
  exists stored, sets st' !! i = Some stored /\ view (heap st') stored = masked /\
    csVersion (base stored) = csVersion (base cs).
Proof.
  intros Hs Ht [Ha Hl]. unfold memGetRedacted, memGet.
  rewrite Hs, bool_decide_eq_true_2 by done. cbv zeta.
  assert (contents (maskInPlace readable (heap st) (muts cs)) (muts cs) =
    redactMutations readable (contents (heap st) (muts cs))) as Hc.
  { unfold contents, maskInPlace. rewrite maskFrom_array by (simpl; lia). simpl.
    rewrite drop_0, take_app_le by (unfold redactMutations; rewrite length_fmap, length_take; lia).
    apply take_ge. unfold redactMutations. rewrite length_fmap, length_take. lia. }
  unfold view. rewrite Hc. split; [done|]. exists cs. simpl. by rewrite Hc.
Qed.

End Memory.

(** ** Witnesses *)

Module MemoryExample.

(** Doubling, as the runtime does below 256 elements. *)
Definition grow (c : nat) : nat := (2 * c)%nat.

Definition raise (v : string) : Mutation :=
  mkMutation "set" "7" "emp-1" "3" "" "" (Some v) false false.

Definition draft : ChangeSet :=
  mkChangeSet 1 "acme" "pay" StateDraft true "ann" "" [] None 0 1 None 4.

(** Three appends to the empty slice of [Create]. *)
Definition three : Heap * Slice :=
  let (h, s) := append grow {[ 0%nat := [] ]} (mkSlice 0 0 0) (raise "1") in
  let (h, s) := append grow h s (raise "2") in
  append grow h s (raise "3").

Definition st : Mem := mkMem {[ 1%N := mkMemSet draft three.2 ]} three.1.

Example three_spare : (len three.2, cap three.2) = (3, 4)%nat.
Proof. vm_compute. reflexivity. Qed.

Lemma three_ok : slice_ok (heap st) three.2.
Proof. split; [vm_compute; reflexivity|]. vm_compute. lia. Qed.

End MemoryExample.

Lemma memory_append_loses_update_witness :
  let (h1, cs1) := stageMutation MemoryExample.grow (heap MemoryExample.st)
    (mkMemSet MemoryExample.draft MemoryExample.three.2) (MemoryExample.raise "first") 5 in
  let (st1, r1) := memUpdate (mkMem (sets MemoryExample.st) h1) cs1 in
  let (h2, cs2) := stageMutation MemoryExample.grow (heap st1)
    (mkMemSet MemoryExample.draft MemoryExample.three.2) (MemoryExample.raise "second") 6 in
  let (st2, r2) := memUpdate (mkMem (sets st1) h2) cs2 in
  r1 = Ok tt /\ r2 = Err ErrStaleVersion /\
  exists stored, sets st2 !! 1%N = Some stored /\
    contents (heap st1) (muts stored) =
      contents (heap MemoryExample.st) MemoryExample.three.2 ++ [MemoryExample.raise "first"] /\
    contents (heap st2) (muts stored) =
      contents (heap MemoryExample.st) MemoryExample.three.2 ++ [MemoryExample.raise "second"].
Proof.
  exact (memory_append_loses_update MemoryExample.grow MemoryExample.st 1%N
    (mkMemSet MemoryExample.draft MemoryExample.three.2)
    (MemoryExample.raise "first") (MemoryExample.raise "second") 5 6
    eq_refl eq_refl ltac:(unfold in_int64; simpl; lia) MemoryExample.three_ok
    ltac:(vm_compute; lia)).
Defined.

Lemma memory_get_redacts_store_witness :
  let (st', r) := memGetRedacted MemoryExample.st "acme" 1%N ∅ in
  exists stored, sets st' !! 1%N = Some stored /\
    (MValue <$> contents (heap st') (muts stored)) = [None; None; None].
Proof.
  pose proof (memory_get_redacts_store MemoryExample.st "acme" 1%N
    (mkMemSet MemoryExample.draft MemoryExample.three.2) ∅ eq_refl eq_refl
    MemoryExample.three_ok) as Hm.
  destruct (memGetRedacted _ _ _ _) as [st' r]. destruct Hm as (_ & stored & Hs & Hv & _).
  exists stored. split; [exact Hs|].
  change (contents (heap st') (muts stored)) with (Mutations (view (heap st') stored)).
  rewrite Hv. vm_compute. reflexivity.
Defined.
