(* ===== verification/Dependency.v ===== *)
(** Attribute dependencies: the Go package [domain/dependency].

    [condition.go] (one predicate over a source value), [aggregate.go] (the
    effect of a rule, the [Dependency] aggregate and its matching) and
    [resolver.go] (the effective schema of a target attribute under all its
    rules, and the check of a value against it). *)

From Stdlib Require Import ZArith Lia String Ascii List Permutation.
From stdpp Require Import base tactics list gmap strings option decidable.
From S2P Require Import Prelude GoText Values Ids Attribute.

Open Scope Z_scope.
Open Scope go_scope.

(** ** Conditions ([condition.go]) *)

Inductive ConditionKind :=
  | CondEquals | CondIn | CondRange | CondPattern | CondDynamic | CondOther (s : string).

#[export] Instance ConditionKind_eq_dec : EqDecision ConditionKind.
Proof. solve_decision. Defined.

Inductive DynamicOp := OpBefore | OpAfter | OpOnBefore | OpOnAfter | OpOther (s : string).

Record Condition := mkCondition {
  CKind : ConditionKind;
  CValue : option Value;
  CValues : list Value;
  CMin : option Value;
  CMax : option Value;
  MinExclusive : bool;
  MaxExclusive : bool;
  CPattern : string;
  PatternSubstring : bool;
  CDynamic : option DynamicValue;
  COp : DynamicOp;
  ContextKey : string;
  ContextType : DataType }.

(** [conditionPattern] anchors exactly as [attribute.Pattern] does. *)
Definition conditionPattern (c : Condition) : string :=
  if PatternSubstring c then CPattern c
  else String.append "\A(?:" (String.append (CPattern c) ")\z").

Section Conditions.
  Context `{GoStd}.

(** The first half of [Validate]: the type of the condition's subject. *)
Definition subjectType (c : Condition) (sourceType : DataType) : result DataType :=
  if negb (str_IsZero (ContextKey c)) then
    guard! bool_decide (ContextType c = DataTypeNone)
      else NewValidation "a context condition requires context_type: the data type of the caller-supplied fact" then
    match ParseDataType (ContextType c) with
    | Err _ => Err (NewValidation "unknown context_type")
    | Ok _ => Ok (ContextType c)
    end
  else
    guard! negb (bool_decide (ContextType c = DataTypeNone))
      else NewValidation "context_type requires context_key" then
    Ok sourceType.

Definition validateBound (sourceType : DataType) (bound : option Value) : result unit :=
  match bound with
  | None => Ok tt
  | Some b =>
      guard! negb (bool_decide (dataType b = sourceType))
        else NewValidation "range bound type must match the source attribute type" then
      Ok tt
  end.

Definition ConditionValidate (c : Condition) (declared : DataType) : result unit :=
  let! sourceType := subjectType c declared in
  guard! negb (bool_decide (CKind c = CondRange)) && (MinExclusive c || MaxExclusive c)
    else NewValidation "min_exclusive and max_exclusive apply to a range condition only" then
  match CKind c with
  | CondEquals =>
      match CValue c with
      | None => Err (NewValidation "equals condition requires a value")
      | Some v =>
          guard! negb (bool_decide (dataType v = sourceType))
            else NewValidation "equals operand type must match the source attribute type" then
          Ok tt
      end
  | CondIn =>
      guard! bool_decide (CValues c = [])
        else NewValidation "in condition requires at least one value" then
      each (fun v =>
        guard! negb (bool_decide (dataType v = sourceType))
          else NewValidation "in member type must match the source attribute type" then
        Ok tt) (CValues c)
  | CondRange =>
      guard! negb (isSome (CMin c)) && negb (isSome (CMax c))
        else NewValidation "range condition requires min and/or max" then
      guard! MinExclusive c && negb (isSome (CMin c))
        else NewValidation "min_exclusive requires a min bound" then
      guard! MaxExclusive c && negb (isSome (CMax c))
        else NewValidation "max_exclusive requires a max bound" then
      guard! negb (IsOrdered sourceType)
        else NewValidation "range condition requires an ordered source attribute" then
      check! validateBound sourceType (CMin c) then
      validateBound sourceType (CMax c)
  | CondPattern =>
      guard! negb (IsTextual sourceType)
        else NewValidation "pattern condition requires a textual source attribute" then
      match regexp_Compile (CPattern c) with
      | None => Err (NewValidation "invalid pattern")
      | Some _ => Ok tt
      end
  | CondDynamic =>
      guard! negb (IsTemporal sourceType)
        else NewValidation "dynamic condition requires a temporal source attribute" then
      match CDynamic c with
      | None => Err (NewValidation "dynamic condition requires a dynamic value")
      | Some d =>
          match DynamicValidate d sourceType with
          | Err e => Err (NewValidation (Message e))
          | Ok _ =>
              match COp c with
              | OpOther _ => Err (NewValidation "unknown dynamic operator")
              | _ => Ok tt
              end
          end
      end
  | CondOther _ => Err (NewValidation "unknown condition kind")
  end.

(** One bound of a range: [stop] tells which comparisons end the match. *)
Definition withinBound (source : Value) (bound : option Value) (stop : Z -> bool) :
    result bool :=
  match bound with
  | None => Ok true
  | Some b => let! cmp := Compare source b in Ok (negb (stop cmp))
  end.

(** [Condition.Matches] *)
Definition ConditionMatches (c : Condition) (source : Value) (now : GoTime) : result bool :=
  if IsZero source then Ok false else
  match CKind c with
  | CondEquals =>
      Ok (match CValue c with Some v => Equal source v | None => false end)
  | CondIn => Ok (existsb (Equal source) (CValues c))
  | CondRange =>
      let! lo := withinBound source (CMin c)
        (fun cmp => (cmp <? 0) || (MinExclusive c && (cmp =? 0))) in
      if negb lo then Ok false else
      let! hi := withinBound source (CMax c)
        (fun cmp => (0 <? cmp) || (MaxExclusive c && (cmp =? 0))) in
      Ok hi
  | CondPattern =>
      match regexp_Compile (conditionPattern c) with
      | None => Err (Errorf "error parsing regexp")
      | Some match_ => Ok (match_ (textVal source))
      end
  | CondDynamic =>
      match CDynamic c with
      | None => Ok false
      | Some d =>
          let! ref := DynamicResolve d (dataType source) now in
          let! cmp := Compare source ref in
          match COp c with
          | OpBefore => Ok (cmp <? 0)
          | OpAfter => Ok (0 <? cmp)
          | OpOnBefore => Ok (cmp <=? 0)
          | OpOnAfter => Ok (0 <=? cmp)
          | OpOther _ => Err (Errorf "unknown dynamic operator")
          end
      end
  | CondOther _ => Err (Errorf "unknown condition kind")
  end.

End Conditions.

(** ** Effects and the aggregate ([aggregate.go]) *)

(** [EnforceDefault] is the empty string. *)
Inductive Enforcement :=
  | EnforceDefault | EnforceOnWrite | EnforceOnRead | EnforceOther (s : string).

#[export] Instance Enforcement_eq_dec : EqDecision Enforcement.
Proof. solve_decision. Defined.

Definition DefaultEnforcement : Enforcement := EnforceOnRead.

Definition EnforcementValid (e : Enforcement) : bool :=
  match e with EnforceOther _ => false | _ => true end.

Definition EnforcementOr (e fallback : Enforcement) : Enforcement :=
  match e with EnforceDefault => fallback | _ => e end.

Record Effect := mkEffect {
  AllowedValues : list Value;
  EffConstraints : Constraints;
  EffRequired : option bool;
  Enforce : Enforcement }.

Definition EffEnforcement (e : Effect) : Enforcement := EnforcementOr (Enforce e) DefaultEnforcement.

Definition DemandsValue (e : Effect) : bool :=
  match EffRequired e with Some b => b | None => false end.

Definition isEmpty (e : Effect) : bool :=
  bool_decide (AllowedValues e = []) && bool_decide (EffConstraints e = []) &&
  negb (isSome (EffRequired e)).

Record Dependency := mkDependency {
  depID : ID;
  depTenant : TenantID;
  sourceID : ID;
  targetID : ID;
  conditions : list Condition;
  effect : Effect;
  depDescription : string;
  depVersion : Z;
  depCreatedAt : Z;
  depUpdatedAt : Z;
  depArchivedAt : option Z }.

Inductive DepEvent :=
  | DepCreated (d : ID) (tenant : TenantID) (source target : ID) (at_ : Z)
  | DepUpdated (d : ID) (tenant : TenantID) (source target : ID) (ver : Z) (at_ : Z)
  | DepArchived (d : ID) (tenant : TenantID) (source target : ID) (at_ : Z).

(** The caller's facts by context key; a nil map is the empty one. *)
Abbreviation Facts := (gmap string Value).

Definition DepAggregateType : string := "attribute_value_dependency".

Definition DepIsArchived (d : Dependency) : bool := isSome (depArchivedAt d).

Section Aggregate.
  Context `{GoStd}.

Definition validateRule (source target : AttrDefinition) (conds : list Condition)
    (eff : Effect) : result unit :=
  guard! bool_decide (conds = []) else NewValidation "at least one condition is required" then
  check! each (fun c => ConditionValidate c (attrType source)) conds then
  guard! negb (EnforcementValid (Enforce eff))
    else NewValidation "enforce must be on_write or on_read" then
  guard! negb (bool_decide (Enforce eff = EnforceDefault)) && negb (DemandsValue eff)
    else NewValidation "enforce applies to an effect that requires a value, which this effect does not" then
  guard! bool_decide (EffEnforcement eff = EnforceOnWrite) && DemandsValue eff &&
    IsComputed target
    else NewValidation "a computed attribute cannot be required on write: its value is materialized after the write commits" then
  guard! isEmpty eff
    else NewValidation "effect must narrow values, add constraints or override required" then
  check! each (fun v =>
      guard! negb (bool_decide (dataType v = attrType target))
        else NewValidation "allowed value type must match the target attribute type" then
      Ok tt) (AllowedValues eff) then
  ConstraintsValidate (attrType target) (EffConstraints eff).

(** [New]: the source and target are pointers, nil when absent. *)
Definition DepNew (tenant : TenantID) (source target : option AttrDefinition)
    (conds : list Condition) (eff : Effect) (desc : string) (fresh : ID) (now : Z) :
    result (Dependency * list DepEvent) :=
  let tenant := if str_IsZero tenant then DefaultTenant else tenant in
  match source, target with
  | Some source, Some target =>
      guard! bool_decide (id source = id target)
        else NewValidation "source and target attributes must differ" then
      check! validateRule source target conds eff then
      let d := mkDependency fresh tenant (id source) (id target) conds eff desc 1 now now None in
      Ok (d, [DepCreated (depID d) (depTenant d) (sourceID d) (targetID d) now])
  | _, _ => Err (NewValidation "source and target attributes are required")
  end.

Definition DepUpdate (d : Dependency) (source target : option AttrDefinition)
    (conds : list Condition) (eff : Effect) (desc : string) (now : Z) :
    result (Dependency * list DepEvent) :=
  guard! DepIsArchived d else NewArchived DepAggregateType then
  match source, target with
  | Some source, Some target =>
      guard! negb (bool_decide (id source = sourceID d)) ||
        negb (bool_decide (id target = targetID d))
        else NewValidation "source and target must match the dependency's attributes" then
      check! validateRule source target conds eff then
      let d := mkDependency (depID d) (depTenant d) (sourceID d) (targetID d) conds eff desc
        (bump (depVersion d)) (depCreatedAt d) now (depArchivedAt d) in
      Ok (d, [DepUpdated (depID d) (depTenant d) (sourceID d) (targetID d) (depVersion d) now])
  | _, _ => Err (NewValidation "source and target must match the dependency's attributes")
  end.

Definition DepArchive (d : Dependency) (now : Z) : result (Dependency * list DepEvent) :=
  guard! DepIsArchived d else NewArchived DepAggregateType then
  let d := mkDependency (depID d) (depTenant d) (sourceID d) (targetID d) (conditions d)
    (effect d) (depDescription d) (depVersion d) (depCreatedAt d) now (Some now) in
  Ok (d, [DepArchived (depID d) (depTenant d) (sourceID d) (targetID d) now]).

(** [Dependency.matches]: every condition of the rule on one source value. *)
Fixpoint matchConditions (conds : list Condition) (source : Value) (facts : Facts)
    (now : GoTime) : result bool :=
  match conds with
  | [] => Ok true
  | c :: conds =>
      let evaluate (subject : Value) (on_error : Error -> result bool) :=
        match ConditionMatches c subject now with
        | Err e => on_error e
        | Ok false => Ok false
        | Ok true => matchConditions conds source facts now
        end in
      if negb (str_IsZero (ContextKey c)) then
        match facts !! ContextKey c with
        | None => Ok false
        | Some v =>
            if negb (bool_decide (ContextType c = DataTypeNone)) &&
               negb (bool_decide (dataType v = ContextType c))
            then Ok false
            else evaluate v (fun _ => Ok false)
        end
      else evaluate source (fun e => Err e)
  end.

Definition depMatches (d : Dependency) (source : Value) (facts : Facts) (now : GoTime) :
    result bool :=
  matchConditions (conditions d) source facts now.

Fixpoint anyMatch (d : Dependency) (sources : list Value) (facts : Facts) (now : GoTime) :
    result bool :=
  match sources with
  | [] => Ok false
  | v :: sources =>
      let! ok := depMatches d v facts now in
      if ok : bool then Ok true else anyMatch d sources facts now
  end.

Definition MatchesAnyWithContext (d : Dependency) (sources : list Value) (facts : Facts)
    (now : GoTime) : result bool :=
  match sources with
  | [] => depMatches d zeroValue facts now
  | _ => anyMatch d sources facts now
  end.

End Aggregate.

(** ** The effective schema ([resolver.go]) *)

Record EffectiveSchema := mkSchema {
  SRequired : bool;
  SAllowed : list Value;
  SConstraints : Constraints;
  Restricted : bool;
  RequiredByDependency : bool;
  RequiredEnforcement : Enforcement }.

Section Resolver.
  Context `{GoStd}.

Definition intersect (current next : list Value) : list Value :=
  List.filter (fun v => existsb (Equal v) next) current.

(** The local variables of the loop. *)
Record Acc := mkAcc {
  accAllowed : list Value;
  accRestricted : bool;
  accConstraints : Constraints;
  overridden : bool;
  requiredByAny : bool;
  enforceOnWrite : bool }.

(** A dependency the loop does not skip. *)
Definition applies (target : AttrDefinition) (d : Dependency) : bool :=
  negb (DepIsArchived d || negb (bool_decide (targetID d = id target))).

(** The body of the loop for a matched dependency. *)
Definition applyEffect (a : Acc) (e : Effect) : Acc :=
  let narrows := negb (bool_decide (AllowedValues e = [])) in
  mkAcc
    (if narrows then
       if accRestricted a then intersect (accAllowed a) (AllowedValues e) else AllowedValues e
     else accAllowed a)
    (narrows || accRestricted a)
    (accConstraints a ++ EffConstraints e)
    (isSome (EffRequired e) || overridden a)
    (requiredByAny a || DemandsValue e)
    (enforceOnWrite a ||
       (DemandsValue e && bool_decide (EffEnforcement e = EnforceOnWrite))).

Definition sourcesOf (values : gmap ID (list Value)) (d : Dependency) : list Value :=
  default [] (values !! sourceID d).

Fixpoint resolveLoop (target : AttrDefinition) (deps : list Dependency)
    (values : gmap ID (list Value)) (facts : Facts) (now : GoTime) (a : Acc) : result Acc :=
  match deps with
  | [] => Ok a
  | d :: deps =>
      if negb (applies target d) then resolveLoop target deps values facts now a
      else
        let! matched := MatchesAnyWithContext d (sourcesOf values d) facts now in
        resolveLoop target deps values facts now
          (if matched : bool then applyEffect a (effect d) else a)
  end.

Definition schemaOf (target : AttrDefinition) (a : Acc) : EffectiveSchema :=
  mkSchema
    (if overridden a then requiredByAny a else required target)
    (accAllowed a) (accConstraints a) (accRestricted a)
    (if overridden a then requiredByAny a else false)
    (if overridden a && requiredByAny a && enforceOnWrite a
     then EnforceOnWrite else DefaultEnforcement).

Definition ResolveEffectiveWithContext (target : AttrDefinition) (deps : list Dependency)
    (values : gmap ID (list Value)) (facts : Facts) (now : GoTime) : result EffectiveSchema :=
  let! a := resolveLoop target deps values facts now
    (mkAcc [] false (constraints target) false false false) in
  Ok (schemaOf target a).

(** [EffectiveSchema.Check] *)
Definition SchemaCheck (s : EffectiveSchema) (v : Value) : result unit :=
  if IsZero v then
    guard! SRequired s
      else NewDependencyViolation "value is required by an attribute dependency" then
    Ok tt
  else
    guard! Restricted s && negb (existsb (Equal v) (SAllowed s))
      else NewDependencyViolation "value is not allowed by the entity's attribute dependencies" then
    each (fun c =>
      match ConstraintCheck v c with
      | Ok _ => Ok tt
      | Err e => Err (NewDependencyViolation (Message e))
      end) (SConstraints s).

End Resolver.
