(* ===== verification/DependencyFacts.v ===== *)
(** What the dependency rules of [Dependency] mean.

    Conditions: the predicate each one is ([holds]) and that a validated one is
    never an evaluation error.  Rules: matching over the many values of an
    attribute.  Resolution: the effective schema is the conjunction of the
    effects of the matched rules, whatever order the store returns them in. *)

From Stdlib Require Import ZArith Lia String Ascii List Permutation SpecFloat.
From stdpp Require Import base tactics list gmap strings option decidable.
From S2P Require Import Prelude GoText Values Ids Attribute Dependency.

Open Scope Z_scope.

(** ** Conditions *)

Section Conditions.
Context `{GoStd}.

(** A bound of a range, strict when the author asked for it. *)
Definition above (v : Value) (strict : bool) (bound : option Value) : Prop :=
  match bound with
  | None => True
  | Some b => if strict then vcmp v b = Gt else vcmp v b <> Lt
  end.

Definition below (v : Value) (strict : bool) (bound : option Value) : Prop :=
  match bound with
  | None => True
  | Some b => if strict then vcmp v b = Lt else vcmp v b <> Gt
  end.

Definition op_holds (op : DynamicOp) (c : comparison) : Prop :=
  match op with
  | OpBefore => c = Lt
  | OpAfter => c = Gt
  | OpOnBefore => c <> Gt
  | OpOnAfter => c <> Lt
  | OpOther _ => False
  end.

(** The predicate a condition states of its subject. *)
Definition holds (c : Condition) (v : Value) (now : GoTime) : Prop :=
  match CKind c with
  | CondEquals => exists w, CValue c = Some w /\ veq v w
  | CondIn => exists w, w ∈ CValues c /\ veq v w
  | CondRange => above v (MinExclusive c) (CMin c) /\ below v (MaxExclusive c) (CMax c)
  | CondPattern =>
      exists match_, regexp_Compile (conditionPattern c) = Some match_ /\
        match_ (textVal v) = true
  | CondDynamic =>
      exists d, CDynamic c = Some d /\
        op_holds (COp c)
          (vcmp v (valueAt (dataType v) (timeAdd now (wrap64 (dynamicOffset d)))))
  | CondOther _ => False
  end.

(** Bounds that came through [ParseValue]. *)
Definition bounds_ok (c : Condition) : Prop :=
  forall b, CMin c = Some b \/ CMax c = Some b -> wf_value b /\ comparable b.

(** A pattern whose anchored form compiles: what the evaluation needs, and what
    [Condition.Validate], which compiles the pattern as written, does not see to. *)
Definition anchors (c : Condition) : Prop :=
  CKind c = CondPattern -> exists m, regexp_Compile (conditionPattern c) = Some m.

#[global] Instance anchors_dec c : Decision (anchors c).
Proof.
  destruct (CKind c) eqn:Ek; try (left; intros E; congruence).
  destruct (regexp_Compile (conditionPattern c)) as [m|] eqn:Em; [left; intros _; by exists m|].
  right. intros Ha. destruct (Ha Ek) as [m E]. congruence.
Defined.

Lemma anchors_not c :
  ~ anchors c -> CKind c = CondPattern /\ regexp_Compile (conditionPattern c) = None.
Proof.
  intros Hn. destruct (regexp_Compile (conditionPattern c)) as [m|] eqn:Em.
  { destruct Hn. intros _. by exists m. }
  split; [|done]. destruct (CKind c) eqn:Ek; try done; destruct Hn; unfold anchors; by rewrite Ek.
Qed.

Definition condition_ok (c : Condition) : Prop := bounds_ok c /\ anchors c.

Lemma withinBound_exact dt v bound stop :
  ordered dt v -> validateBound dt bound = Ok tt ->
  (forall b, bound = Some b -> wf_value b /\ comparable b) ->
  exists r, withinBound v bound stop = Ok r /\
    r = match bound with None => true | Some b => negb (stop (of_comparison (vcmp v b))) end.
Proof.
  intros Hv Hb Hw. destruct bound as [b|]; simpl; [|by eexists].
  simpl in Hb. res_inv. breflect. destruct (Hw b eq_refl).
  destruct Hv as (Hd & Ho & Hwf & Hc).
  rewrite (Compare_vcmp dt) by done. simpl. by eexists.
Qed.

Lemma subjectType_known c dt st :
  ParseDataType dt = Ok dt -> subjectType c dt = Ok st -> st <> DataTypeNone.
Proof.
  unfold subjectType. intros Hdt Hs. case_match.
  - res_inv. destruct (ParseDataType (ContextType c)) eqn:E; res_inv.
    intros E'. by rewrite E' in E.
  - res_inv. intros ->. done.
Qed.

Lemma IsZero_false v : dataType v <> DataTypeNone -> IsZero v = false.
Proof. intros Hv. by apply bool_decide_eq_false_2. Qed.

Lemma temporal_ordered dt : IsTemporal dt = true -> IsOrdered dt = true.
Proof. by destruct dt. Qed.

Lemma valueAt_comparable dt t : comparable (valueAt dt t).
Proof. by destruct dt. Qed.

Lemma dynamic_matches c d v now :
  CKind c = CondDynamic -> CDynamic c = Some d ->
  DynamicValidate d (dataType v) = Ok tt ->
  (forall s, COp c <> OpOther s) -> wf_value v -> comparable v ->
  IsZero v = false ->
  exists b, ConditionMatches c v now = Ok b /\ (b = true <-> holds c v now).
Proof.
  intros Hk Hd Hv Ho Hwf Hc Hz.
  destruct (DynamicInstant_valid _ _ now Hv) as [Ht _].
  destruct (valueAt_wf (dataType v) (timeAdd now (wrap64 (dynamicOffset d))) Ht) as [Hrd Hrw].
  unfold ConditionMatches, holds. rewrite Hz, Hk, Hd, DynamicResolve_valid by done.
  assert (IsOrdered (dataType v) = true) as Hio by eauto using temporal_ordered.
  cbn [res_bind]. rewrite (Compare_vcmp (dataType v)) by (unfold ordered; eauto using valueAt_comparable).
  cbn [res_bind]. set (r := vcmp v _).
  destruct (COp c) eqn:Ec; [..|by destruct (Ho s)];
    (eexists; split; [done|]; split;
      [intros Hr; exists d; split; [done|]; fold r; by destruct r
      |intros (d' & [= <-] & Hr); fold r in Hr; by destruct r]).
Qed.

Lemma range_matches c dt v now :
  CKind c = CondRange -> IsOrdered dt = true -> dataType v = dt ->
  validateBound dt (CMin c) = Ok tt -> validateBound dt (CMax c) = Ok tt ->
  condition_ok c -> wf_value v -> comparable v -> IsZero v = false ->
  exists b, ConditionMatches c v now = Ok b /\ (b = true <-> holds c v now).
Proof.
  intros Hk Ho Hd Hmin Hmax [Hops _] Hwf Hc Hz.
  assert (ordered dt v) as Hv by done.
  unfold ConditionMatches, holds. rewrite Hz, Hk.
  destruct (withinBound_exact dt v (CMin c)
    (fun cmp => (cmp <? 0) || (MinExclusive c && (cmp =? 0))) Hv Hmin) as (lo & -> & Hlo).
  { intros b Hb. apply Hops. by left. }
  destruct (withinBound_exact dt v (CMax c)
    (fun cmp => (0 <? cmp) || (MaxExclusive c && (cmp =? 0))) Hv Hmax) as (hi & -> & Hhi).
  { intros b Hb. apply Hops. by right. }
  cbn [res_bind].
  assert (lo = true <-> above v (MinExclusive c) (CMin c)) as Elo.
  { rewrite Hlo. unfold above. destruct (CMin c) as [b|]; [|done].
    by destruct (vcmp v b), (MinExclusive c). }
  assert (hi = true <-> below v (MaxExclusive c) (CMax c)) as Ehi.
  { rewrite Hhi. unfold below. destruct (CMax c) as [b|]; [|done].
    by destruct (vcmp v b), (MaxExclusive c). }
  clear Hlo Hhi. destruct lo; cbn [negb]; eexists; (split; [done|]).
  - rewrite Ehi. naive_solver.
  - split; [done|]. intros [Habove _]. by apply Elo in Habove.
Qed.

(** A condition that passed [Validate], evaluated on a well-formed value of its
    subject's type, never fails and answers exactly the predicate it states. *)
Lemma ConditionMatches_holds c dt v now :
  ParseDataType dt = Ok dt -> ConditionValidate c dt = Ok tt ->
  subjectType c dt = Ok (dataType v) -> condition_ok c ->
  wf_value v -> comparable v ->
  exists b, ConditionMatches c v now = Ok b /\ (b = true <-> holds c v now).
Proof.
  intros Hdt Hval Hst Hok Hwf Hc.
  assert (IsZero v = false) as Hz by (eapply IsZero_false, subjectType_known; eauto).
  unfold ConditionValidate in Hval. rewrite Hst in Hval. cbn [res_bind] in Hval.
  destruct (_ && _); [discriminate|]. destruct (CKind c) eqn:Hk; try discriminate.
  - unfold ConditionMatches, holds. rewrite Hz, Hk. eexists. split; [done|].
    destruct (CValue c) as [w|]; unfold veq; naive_solver.
  - unfold ConditionMatches, holds. rewrite Hz, Hk. eexists. split; [done|].
    apply existsb_Equal.
  - res_inv. breflect. by eapply range_matches.
  - destruct (proj2 Hok Hk) as [m Hm]. unfold ConditionMatches, holds. rewrite Hz, Hk, Hm.
    eexists. split; [done|]. naive_solver.
  - res_inv. destruct (CDynamic c) as [d|] eqn:Hd; [|discriminate].
    destruct (DynamicValidate d _) as [[]|] eqn:Hv; [|discriminate].
    eapply dynamic_matches; eauto. intros s Hs. by rewrite Hs in Hval.
Qed.

(** [Condition.Validate] compiles the pattern as written, [Matches] its
    anchored form.  For a pattern whose anchored form does not compile (such
    as [\Qx], whose quoting swallows the closing parenthesis), a rule is
    accepted whose every evaluation on a textual value then fails, while the
    attribute constraint of the same expression is refused. *)
Theorem pattern_condition_gap p m :
  regexp_Compile p = Some m ->
  regexp_Compile (pattern p false) = None ->
  exists c, CPattern c = p /\ ConditionValidate c DataTypeString = Ok tt /\
    (forall s now, exists e, ConditionMatches c (NewStringValue s) now = Err e) /\
    (exists e, ConstraintValidate DataTypeString (Pattern p false) = Err e).
Proof.
  intros Hp Ha.
  exists (mkCondition CondPattern None [] None None false false p false None OpBefore
    EmptyString DataTypeNone).
  split_and!; [done| |intros s now|].
  - unfold ConditionValidate. cbn. by rewrite Hp.
  - unfold ConditionMatches. cbn. unfold conditionPattern. cbn.
    unfold pattern in Ha. rewrite Ha. by eexists.
  - unfold pattern in Ha. cbn -[String.append]. rewrite Ha. by eexists.
Qed.

End Conditions.

(** ** Rules *)

Section Rules.
Context `{GoStd}.

(** Values the store and the API hand to the matcher: parsed ones. *)
Definition parsed (v : Value) : Prop := wf_value v /\ comparable v.

(** The value a condition of a rule looks at: the caller's fact of its key, when
    that has the declared type, or the source value. *)
Definition subjectOf (c : Condition) (source : Value) (facts : Facts) : option Value :=
  if str_IsZero (ContextKey c) then Some source
  else f ← facts !! ContextKey c;
    if bool_decide (dataType f = ContextType c) then Some f else None.

(** A condition is met by a subject that is present and satisfies it. *)
Definition condition_met (source : Value) (facts : Facts) (now : GoTime) (c : Condition) : Prop :=
  exists s, subjectOf c source facts = Some s /\ IsZero s = false /\ holds c s now.

Definition rule_met (d : Dependency) (facts : Facts) (now : GoTime) (source : Value) : Prop :=
  Forall (condition_met source facts now) (conditions d).

(** A source value is absent, or a parsed value of the source's type. *)
Definition source_ok (dt : DataType) (v : Value) : Prop :=
  v = zeroValue \/ dataType v = dt /\ parsed v.

Definition conditions_ok (dt : DataType) (cs : list Condition) : Prop :=
  Forall (fun c => ConditionValidate c dt = Ok tt /\ condition_ok c) cs.

Lemma IsZero_zero v : wf_value v -> IsZero v = true -> v = zeroValue.
Proof.
  unfold IsZero. intros Hwf Hz. breflect. unfold wf_value in Hwf. by rewrite Hz in Hwf.
Qed.

(** Validation fixed the subject's type. *)
Lemma subject_known c dt :
  ConditionValidate c dt = Ok tt ->
  if str_IsZero (ContextKey c) then subjectType c dt = Ok dt
  else subjectType c dt = Ok (ContextType c) /\ ContextType c <> DataTypeNone.
Proof.
  unfold ConditionValidate. intros Hv. apply res_bind_ok in Hv as (st & Hst & _).
  rewrite Hst. unfold subjectType in Hst. destruct (str_IsZero _); simpl in Hst.
  - by res_inv.
  - res_inv. breflect. destruct (ParseDataType _); [|done]. by res_inv.
Qed.

Lemma condition_on_subject c dt s now :
  ParseDataType dt = Ok dt -> ConditionValidate c dt = Ok tt -> condition_ok c ->
  (s = zeroValue \/ subjectType c dt = Ok (dataType s) /\ parsed s) ->
  exists b, ConditionMatches c s now = Ok b /\ (b = true <-> IsZero s = false /\ holds c s now).
Proof.
  intros Hdt Hval Hok [->|(Hst & Hwf & Hc)].
  { exists false. split; [done|]. split; [done|]. by intros [? _]. }
  destruct (ConditionMatches_holds c dt s now) as (b & Hb & Hh); try done.
  exists b. split; [done|]. rewrite Hh.
  assert (IsZero s = false) by (eapply IsZero_false, subjectType_known; eauto). tauto.
Qed.

Lemma matchConditions_met dt cs source facts now :
  ParseDataType dt = Ok dt -> conditions_ok dt cs -> source_ok dt source ->
  map_Forall (fun _ => parsed) facts ->
  exists b, matchConditions cs source facts now = Ok b /\
    (b = true <-> Forall (condition_met source facts now) cs).
Proof.
  intros Hdt Hcs Hs Hf. induction cs as [|c cs IH]; [by exists true|].
  apply Forall_cons_iff in Hcs as [[Hval Hok] Hcs].
  destruct (IH Hcs) as (r & Hr & Hrm). clear IH.
  assert (forall s, (s = zeroValue \/ subjectType c dt = Ok (dataType s) /\ parsed s) ->
    subjectOf c source facts = Some s -> forall on_error,
    exists b, match ConditionMatches c s now with
      | Err e => on_error e | Ok false => Ok false
      | Ok true => matchConditions cs source facts now end = Ok b /\
      (b = true <-> Forall (condition_met source facts now) (c :: cs))) as Hev.
  { intros s Hsub Hso on_error.
    destruct (condition_on_subject c dt s now Hdt Hval Hok Hsub) as (b & -> & Hb).
    assert (b = true <-> condition_met source facts now c) as Hm.
    { unfold condition_met. rewrite Hb, Hso. naive_solver. }
    destruct b; [exists r|exists false]; (split; [done|]); rewrite Forall_cons_iff;
      assert (false <> true) by done; tauto. }
  pose proof (subject_known c dt Hval) as Hk. simpl.
  unfold subjectOf in Hev. destruct (str_IsZero (ContextKey c)) eqn:Ez; simpl.
  - apply Hev; [|done]. destruct Hs as [->|[<- Hp]]; eauto.
  - destruct Hk as [Hst Hne].
    assert (forall o, subjectOf c source facts = o -> o = None ->
      exists b, Ok false = Ok b /\
        (b = true <-> Forall (condition_met source facts now) (c :: cs))) as Hno.
    { intros o Ho ->. exists false. split; [done|]. split; [done|].
      rewrite Forall_cons_iff. intros [(s & E & _) _]. by rewrite E in Ho. }
    unfold subjectOf in Hno. rewrite Ez in Hno.
    destruct (facts !! ContextKey c) as [f|] eqn:Ef; [|by eapply Hno].
    cbn [mbind option_bind] in *.
    rewrite (bool_decide_eq_false_2 _ Hne). simpl.
    destruct (decide (dataType f = ContextType c)) as [E|E].
    + rewrite bool_decide_eq_true_2 in * by done. simpl. apply Hev; [|done].
      right. rewrite E. split; [done|]. by eapply Hf.
    + rewrite bool_decide_eq_false_2 in * by done. simpl. by eapply Hno.
Qed.

Lemma anyMatch_met dt d sources facts now :
  ParseDataType dt = Ok dt -> conditions_ok dt (conditions d) ->
  Forall (source_ok dt) sources -> map_Forall (fun _ => parsed) facts ->
  exists b, anyMatch d sources facts now = Ok b /\
    (b = true <-> Exists (rule_met d facts now) sources).
Proof.
  intros Hdt Hcs Hs Hf. induction Hs as [|v sources Hv _ IH]; simpl.
  { exists false. by rewrite Exists_nil. }
  destruct (matchConditions_met dt (conditions d) v facts now) as (b & Hb & Hm); try done.
  unfold depMatches. rewrite Hb. simpl.
  change (Forall _ _) with (rule_met d facts now v) in Hm.
  destruct IH as (r & Hr & Hrm). assert (false <> true) by done.
  destruct b; [exists true|exists r]; (split; [done|]); rewrite Exists_cons; tauto.
Qed.

(** The source values a rule is tried on: an unset attribute counts as one
    absent value. *)
Definition candidates (sources : list Value) : list Value :=
  match sources with [] => [zeroValue] | _ => sources end.

Lemma MatchesAny_met dt d sources facts now :
  ParseDataType dt = Ok dt -> conditions_ok dt (conditions d) ->
  Forall (source_ok dt) sources -> map_Forall (fun _ => parsed) facts ->
  exists b, MatchesAnyWithContext d sources facts now = Ok b /\
    (b = true <-> Exists (rule_met d facts now) (candidates sources)).
Proof.
  intros Hdt Hcs Hs Hf. destruct sources as [|v vs]; [|by eapply anyMatch_met].
  destruct (matchConditions_met dt (conditions d) zeroValue facts now) as (b & Hb & Hm); try done.
  { by left. }
  exists b. split; [done|]. simpl. rewrite Exists_cons, Exists_nil. unfold rule_met. tauto.
Qed.

(** A rule whose conditions passed [Validate] never fails on parsed
    values: it matches exactly when some value of the source attribute (or the
    absent one, when there is none) meets every condition at once - equality
    and membership up to [Equal], inclusive or strict bounds in the order of
    the type, the anchored pattern, the comparison with the resolved dynamic
    instant - a condition with a context key reading the caller's fact, and
    failing closed when that is missing or of another type. *)
Theorem rule_matching_exact dt d sources facts now :
  ParseDataType dt = Ok dt -> conditions_ok dt (conditions d) ->
  Forall (source_ok dt) sources -> map_Forall (fun _ => parsed) facts ->
  exists b, MatchesAnyWithContext d sources facts now = Ok b /\
    (b = true <-> exists v, v ∈ candidates sources /\
       forall c, c ∈ conditions d ->
         exists s, subjectOf c v facts = Some s /\ IsZero s = false /\ holds c s now).
Proof.
  intros Hdt Hcs Hs Hf. destruct (MatchesAny_met dt d sources facts now) as (b & Hb & Hm); try done.
  exists b. split; [done|]. rewrite Hm, list.Exists_exists.
  by setoid_rewrite list.Forall_forall.
Qed.

End Rules.

(** ** Witnesses *)

Module Example.

#[local] Existing Instance Demo.std.

Definition fragile : Value := NewStringValue "fragile".

Definition equals (v : Value) : Condition :=
  mkCondition CondEquals (Some v) [] None None false false "" false None OpBefore
    "" DataTypeNone.

(** A condition on the caller's fact "channel". *)
Definition on_channel (v : Value) : Condition :=
  mkCondition CondIn None [v] None None false false "" false None OpBefore
    "channel" DataTypeString.

Definition at_most (n : Z) : Effect :=
  mkEffect [] [MaxValue (NewIntegerValue n)] (Some true) EnforceOnWrite.

(** While attribute 1 is "fragile" and the channel is "web", attribute 2 is
    required and at most 10. *)
Definition rule : Dependency :=
  mkDependency 9 DefaultTenant 1 2 [equals fragile; on_channel (NewStringValue "web")]
    (at_most 10) "" 1 100 100 None.

Definition facts : Facts := {[ "channel"%string := NewStringValue "web" ]}.

Lemma no_operands_ok c :
  CMin c = None -> CMax c = None -> CKind c <> CondPattern -> condition_ok c.
Proof.
  intros Hlo Hhi Hk. split; [|by intros ?]. intros b [E|E]; congruence.
Qed.

Lemma rule_conditions_ok : conditions_ok DataTypeString (conditions rule).
Proof.
  apply Forall_cons; [|apply Forall_cons; [|apply Forall_nil]];
    (split; [reflexivity|by apply no_operands_ok]).
Qed.

Lemma facts_parsed : map_Forall (fun _ => parsed) facts.
Proof. apply map_Forall_singleton. done. Qed.

(** A regexp compiler that knows one construct, [\Q] quoting: it runs to [\E]
    or to the end of the expression, and a group left open is an error. *)
Definition quoted (e : string) : option (string -> bool) :=
  if String.prefix "\A(?:\Q" e then
    match String.index 0 "\E" e with Some _ => Some (fun _ => true) | None => None end
  else Some (fun s => bool_decide (String.append "\Q" s = e)).

#[local] Instance quoting : GoStd := {
  json_Decode := Demo.decode;
  json_Unmarshal := Demo.decode;
  json_Compact := fun raw => raw;
  json_Canonical := Some;
  strconv_ParseFloat := fun _ => Some (S754_zero false);
  time_Parse := fun _ _ => Some Demo.epoch;
  url_Parse := fun s => Some (s, s);
  mail_ParseAddress := Some;
  regexp_Compile := quoted
}.

End Example.

Lemma rule_matching_exact_witness :
  exists b,
    MatchesAnyWithContext (H := Demo.std) Example.rule [NewStringValue "heavy"; Example.fragile]
      Example.facts Demo.epoch = Ok b /\
    (b = true <-> exists v, v ∈ candidates [NewStringValue "heavy"; Example.fragile] /\
       forall c, c ∈ conditions Example.rule ->
         exists s, subjectOf c v Example.facts = Some s /\ IsZero s = false /\
           holds (H := Demo.std) c s Demo.epoch).
Proof.
  apply (rule_matching_exact (H := Demo.std) DataTypeString Example.rule);
    [reflexivity|exact Example.rule_conditions_ok| |exact Example.facts_parsed].
  repeat constructor; right; done.
Defined.

Example rule_matches :
  MatchesAnyWithContext (H := Demo.std) Example.rule [NewStringValue "heavy"; Example.fragile]
    Example.facts Demo.epoch = Ok true /\
  MatchesAnyWithContext (H := Demo.std) Example.rule [Example.fragile] ∅ Demo.epoch = Ok false.
Proof. split; reflexivity. Qed.

Lemma pattern_condition_gap_witness :
  exists c, CPattern c = "\Qabc"%string /\
    ConditionValidate (H := Example.quoting) c DataTypeString = Ok tt /\
    (forall s now, exists e,
       ConditionMatches (H := Example.quoting) c (NewStringValue s) now = Err e) /\
    (exists e,
       ConstraintValidate (H := Example.quoting) DataTypeString (Pattern "\Qabc" false) = Err e).
Proof.
  exact (pattern_condition_gap (H := Example.quoting) "\Qabc" _ eq_refl eq_refl).
Defined.
