(* ===== verification/ResolverFacts.v ===== *)
(** The dependency resolver of [Dependency] against its specification: the
    effective schema of a target attribute is the conjunction of the effects of
    the rules that match, whatever the order in which the store lists them.
    Also the invariant of the dependency aggregate. *)

From Stdlib Require Import ZArith Lia String Ascii List Permutation.
From stdpp Require Import base tactics list gmap strings option decidable.
From S2P Require Import Prelude GoText Values Ids Attribute Dependency DependencyFacts.

Open Scope Z_scope.

(** ** The fold over the matched effects *)

Section Fold.
Context `{GoStd}.

Definition applyEffects (a : Acc) (es : list Effect) : Acc := fold_left applyEffect es a.

(** What an effect allows of a present value. *)
Definition effAllows (e : Effect) (v : Value) : Prop :=
  AllowedValues e = [] \/ exists w, w ∈ AllowedValues e /\ veq v w.

Definition accAllows (a : Acc) (v : Value) : Prop :=
  accRestricted a = true -> existsb (Equal v) (accAllowed a) = true.

Lemma existsb_intersect v xs ys :
  existsb (Equal v) (intersect xs ys) = existsb (Equal v) xs && existsb (Equal v) ys.
Proof.
  apply eq_bool_prop_intro. rewrite !Is_true_true, andb_true_iff, !existsb_Equal.
  unfold intersect. setoid_rewrite list_elem_of_In. setoid_rewrite filter_In. split.
  - intros (w & [Hw Hy] & Hv). apply existsb_Equal in Hy as (y & Hy & Hwy).
    split; [eauto|]. exists y. rewrite <- list_elem_of_In. split; [done|]. by etrans.
  - intros [(x & Hx & Hvx) (y & Hy & Hvy)]. exists x. split; [|done]. split; [done|].
    apply existsb_Equal. exists y. rewrite list_elem_of_In. split; [done|].
    etrans; [symmetry; exact Hvx|exact Hvy].
Qed.

Lemma applyEffect_allows a e v :
  accAllows (applyEffect a e) v <-> accAllows a v /\ effAllows e v.
Proof.
  unfold accAllows, effAllows, applyEffect. cbn [accRestricted accAllowed].
  rewrite <- existsb_Equal.
  destruct (decide (AllowedValues e = [])) as [E|E].
  - rewrite bool_decide_eq_true_2 by done. simpl. tauto.
  - rewrite bool_decide_eq_false_2 by done. simpl.
    destruct (accRestricted a); [rewrite existsb_intersect, andb_true_iff|]; naive_solver.
Qed.

Lemma applyEffects_allows es a v :
  accAllows (applyEffects a es) v <-> accAllows a v /\ Forall (fun e => effAllows e v) es.
Proof.
  revert a. induction es as [|e es IH]; intros a; simpl.
  - split; [by split|by intros []].
  - rewrite (IH (applyEffect a e)), applyEffect_allows, Forall_cons_iff. tauto.
Qed.

Lemma applyEffects_constraints es a :
  accConstraints (applyEffects a es) = accConstraints a ++ concat (EffConstraints <$> es).
Proof.
  revert a. induction es as [|e es IH]; intros a; simpl; [by rewrite app_nil_r|].
  rewrite (IH (applyEffect a e)). simpl. by rewrite app_assoc.
Qed.

(** The three flags are disjunctions over the effects. *)
Lemma applyEffects_flag (f : Acc -> bool) (g : Effect -> bool) es a :
  (forall a e, f (applyEffect a e) = f a || g e) ->
  f (applyEffects a es) = f a || existsb g es.
Proof.
  intros Hf. revert a. induction es as [|e es IH]; intros a; simpl; [by rewrite orb_false_r|].
  rewrite (IH (applyEffect a e)), Hf. by rewrite orb_assoc.
Qed.

Definition demandsOnWrite (e : Effect) : bool :=
  DemandsValue e && bool_decide (EffEnforcement e = EnforceOnWrite).

Lemma applyEffects_flags es a :
  overridden (applyEffects a es) = overridden a || existsb (fun e => isSome (EffRequired e)) es /\
  requiredByAny (applyEffects a es) = requiredByAny a || existsb DemandsValue es /\
  enforceOnWrite (applyEffects a es) = enforceOnWrite a || existsb demandsOnWrite es.
Proof.
  split_and!; apply applyEffects_flag; [|done|done].
  intros b e. apply orb_comm.
Qed.

End Fold.

(** ** Resolution *)

Section Resolve.
Context `{GoStd}.
(** The attribute under resolution, the declared type of each attribute, the
    entity's values, the caller's facts and the clock. *)
Variable target : AttrDefinition.
Variable types : ID -> DataType.
Variable values : gmap ID (list Value).
Variable facts : Facts.
Variable now : GoTime.

(** The rule's conditions were validated against its source attribute. *)
Definition rule_ok (d : Dependency) : Prop :=
  ParseDataType (types (sourceID d)) = Ok (types (sourceID d)) /\
  conditions_ok (types (sourceID d)) (conditions d).

(** Stored values and facts are parsed values of their attribute's type. *)
Definition inputs_ok : Prop :=
  map_Forall (fun i vs => Forall (source_ok (types i)) vs) values /\
  map_Forall (fun _ => parsed) facts.

(** The rule is live, aims at the target, and some value of its source meets it. *)
Definition matched (d : Dependency) : Prop :=
  applies target d = true /\
  Exists (rule_met d facts now) (candidates (sourcesOf values d)).

Lemma sourcesOf_ok d : inputs_ok -> Forall (source_ok (types (sourceID d))) (sourcesOf values d).
Proof.
  intros [Hv _]. unfold sourcesOf. destruct (values !! sourceID d) eqn:E; [|by constructor].
  exact (Hv _ _ E).
Qed.

(** The loop folds the effects of exactly the matched rules. *)
Lemma resolveLoop_fold deps a :
  inputs_ok -> Forall rule_ok deps ->
  exists ms, resolveLoop target deps values facts now a =
               Ok (applyEffects a (effect <$> ms)) /\
    forall d, d ∈ ms <-> d ∈ deps /\ matched d.
Proof.
  intros Hin Hr. revert a. induction Hr as [|d deps [Hdt Hcs] _ IH]; intros a.
  { exists []. split; [done|]. set_solver. }
  simpl. destruct (applies target d) eqn:Ea; simpl.
  - destruct (MatchesAny_met (types (sourceID d)) d (sourcesOf values d) facts now)
      as (b & -> & Hb); [done|done|by apply sourcesOf_ok|apply Hin|].
    simpl. destruct b.
    + destruct (IH (applyEffect a (effect d))) as (ms & -> & Hms).
      exists (d :: ms). split; [done|]. intros d'. rewrite !elem_of_cons, Hms.
      assert (matched d) by (split; tauto). naive_solver.
    + destruct (IH a) as (ms & -> & Hms). exists ms. split; [done|]. intros d'.
      rewrite elem_of_cons, Hms. assert (~ matched d) by (intros [_ ?]; naive_solver).
      naive_solver.
  - destruct (IH a) as (ms & -> & Hms). exists ms. split; [done|]. intros d'.
    rewrite elem_of_cons, Hms. assert (~ matched d) by (intros [? _]; congruence).
    naive_solver.
Qed.

(** *** The specification *)

Definition someMatched (deps : list Dependency) (p : Effect -> bool) : Prop :=
  exists d, d ∈ deps /\ matched d /\ p (effect d) = true.

Definition overrides (e : Effect) : bool := isSome (EffRequired e).

(** The requiredness the rules settle on: when some matched rule states one,
    any demand wins; otherwise the attribute's own. *)
Definition valueRequired (deps : list Dependency) : Prop :=
  someMatched deps DemandsValue \/
  (~ someMatched deps overrides /\ required target = true).

(** A present value is admitted by the attribute's constraints and by every
    matched rule. *)
Definition valueAdmitted (deps : list Dependency) (v : Value) : Prop :=
  Forall (fun c => ConstraintCheck v c = Ok tt) (constraints target) /\
  forall d, d ∈ deps -> matched d ->
    effAllows (effect d) v /\
    Forall (fun c => ConstraintCheck v c = Ok tt) (EffConstraints (effect d)).

Definition resolves (deps : list Dependency) (s : EffectiveSchema) : Prop :=
  (SRequired s = true <-> valueRequired deps) /\
  (RequiredByDependency s = true <-> someMatched deps DemandsValue) /\
  (RequiredEnforcement s = EnforceOnWrite <-> someMatched deps demandsOnWrite) /\
  (RequiredEnforcement s = EnforceOnWrite \/ RequiredEnforcement s = EnforceOnRead) /\
  forall v, SchemaCheck s v = Ok tt <->
    if IsZero v then ~ valueRequired deps else valueAdmitted deps v.

Lemma someMatched_existsb deps ms p :
  (forall d, d ∈ ms <-> d ∈ deps /\ matched d) ->
  existsb p (effect <$> ms) = true <-> someMatched deps p.
Proof.
  intros Hms. rewrite existsb_exists. setoid_rewrite <- list_elem_of_In.
  setoid_rewrite list_elem_of_fmap. unfold someMatched. split.
  - intros (e & (d & -> & Hd) & Hp). apply Hms in Hd. naive_solver.
  - intros (d & Hd & Hm & Hp). exists (effect d). split; [|done]. exists d.
    split; [done|]. by apply Hms.
Qed.

Lemma demands_overrides e : DemandsValue e = true -> overrides e = true.
Proof. unfold DemandsValue, overrides. by destruct (EffRequired e). Qed.

Lemma demandsOnWrite_demands e : demandsOnWrite e = true -> DemandsValue e = true.
Proof. unfold demandsOnWrite. intros. by breflect. Qed.

Lemma someMatched_mono deps p q :
  (forall e, p e = true -> q e = true) -> someMatched deps p -> someMatched deps q.
Proof. intros Hpq (d & Hd & Hm & Hp). exists d. auto. Qed.

Lemma each_violation v cs :
  each (fun c => match ConstraintCheck v c with
    | Ok _ => Ok tt | Err e => Err (NewDependencyViolation (Message e)) end) cs = Ok tt <->
  Forall (fun c => ConstraintCheck v c = Ok tt) cs.
Proof.
  rewrite each_ok. apply Forall_iff. intros c. destruct (ConstraintCheck v c) as [[]|]; naive_solver.
Qed.

Lemma SchemaCheck_present s v :
  IsZero v = false ->
  SchemaCheck s v = Ok tt <->
  (Restricted s = true -> existsb (Equal v) (SAllowed s) = true) /\
  Forall (fun c => ConstraintCheck v c = Ok tt) (SConstraints s).
Proof.
  intros Hz. unfold SchemaCheck. rewrite Hz, <- each_violation.
  destruct (Restricted s), (existsb (Equal v) (SAllowed s)); simpl; naive_solver.
Qed.

Definition initialAcc : Acc := mkAcc [] false (constraints target) false false false.

Lemma schemaOf_flags deps ms (a := applyEffects initialAcc (effect <$> ms)) :
  (forall d, d ∈ ms <-> d ∈ deps /\ matched d) ->
  (overridden a = true <-> someMatched deps overrides) /\
  (requiredByAny a = true <-> someMatched deps DemandsValue) /\
  (enforceOnWrite a = true <-> someMatched deps demandsOnWrite).
Proof.
  intros Hms. subst a. destruct (applyEffects_flags (effect <$> ms) initialAcc) as (-> & -> & ->).
  cbn [initialAcc overridden requiredByAny enforceOnWrite orb].
  split_and!; by apply someMatched_existsb.
Qed.

Lemma schemaOf_required deps ms (s := schemaOf target (applyEffects initialAcc (effect <$> ms))) :
  (forall d, d ∈ ms <-> d ∈ deps /\ matched d) ->
  (SRequired s = true <-> valueRequired deps) /\
  (RequiredByDependency s = true <-> someMatched deps DemandsValue) /\
  (RequiredEnforcement s = EnforceOnWrite <-> someMatched deps demandsOnWrite) /\
  (RequiredEnforcement s = EnforceOnWrite \/ RequiredEnforcement s = EnforceOnRead).
Proof.
  intros Hms. destruct (schemaOf_flags deps ms Hms) as (Ho & Hr & He). subst s.
  pose proof (someMatched_mono deps _ _ demands_overrides) as Hdo.
  pose proof (someMatched_mono deps _ _ demandsOnWrite_demands) as Hwd.
  unfold valueRequired. rewrite <- Ho, <- Hr, <- He in *. cbn.
  assert (false <> true) by done. assert (EnforceOnRead <> EnforceOnWrite) by done.
  destruct (overridden _), (requiredByAny _), (enforceOnWrite _), (required target); cbn in *;
    unfold DefaultEnforcement in *; tauto.
Qed.

Lemma schemaOf_present deps ms v :
  (forall d, d ∈ ms <-> d ∈ deps /\ matched d) -> IsZero v = false ->
  SchemaCheck (schemaOf target (applyEffects initialAcc (effect <$> ms))) v = Ok tt <->
  valueAdmitted deps v.
Proof.
  intros Hms Hz. rewrite SchemaCheck_present by done. cbn [schemaOf Restricted SAllowed SConstraints].
  rewrite applyEffects_constraints. cbn [initialAcc accConstraints].
  change (_ -> _) with (accAllows (applyEffects initialAcc (effect <$> ms)) v).
  rewrite applyEffects_allows, Forall_app, Forall_concat, !Forall_fmap. unfold valueAdmitted.
  assert (accAllows initialAcc v) as Ha by (intros Hr; discriminate Hr).
  rewrite !list.Forall_forall. setoid_rewrite Hms. unfold compose. naive_solver.
Qed.

Lemma resolves_ok deps :
  inputs_ok -> Forall rule_ok deps ->
  exists s, ResolveEffectiveWithContext target deps values facts now = Ok s /\ resolves deps s.
Proof.
  intros Hin Hr. unfold ResolveEffectiveWithContext. fold initialAcc.
  destruct (resolveLoop_fold deps initialAcc Hin Hr) as (ms & -> & Hms).
  eexists. split; [done|]. pose proof (schemaOf_required deps ms Hms) as (H1 & H2 & H3 & H4).
  split_and!; [done..|]. intros v. destruct (IsZero v) eqn:Hz.
  - rewrite <- H1. unfold SchemaCheck. rewrite Hz. destruct (SRequired _); naive_solver.
  - by apply schemaOf_present.
Qed.

(** The picklist is the intersection of the matched rules' allowed values. *)
Lemma resolve_allows deps s v :
  inputs_ok -> Forall rule_ok deps ->
  ResolveEffectiveWithContext target deps values facts now = Ok s ->
  (Restricted s = true -> existsb (Equal v) (SAllowed s) = true) <->
  forall d, d ∈ deps -> matched d -> effAllows (effect d) v.
Proof.
  intros Hin Hr Hs. unfold ResolveEffectiveWithContext in Hs. fold initialAcc in Hs.
  destruct (resolveLoop_fold deps initialAcc Hin Hr) as (ms & E & Hms). rewrite E in Hs.
  injection Hs as <-. cbn [schemaOf Restricted SAllowed].
  change (accAllows (applyEffects initialAcc (effect <$> ms)) v <-> forall d, d ∈ deps -> matched d -> effAllows (effect d) v).
  rewrite applyEffects_allows, Forall_fmap, list.Forall_forall.
  assert (accAllows initialAcc v) as Ha by (intros Hx; discriminate Hx).
  setoid_rewrite Hms. unfold compose. naive_solver.
Qed.

Lemma resolves_same deps deps' s s' :
  (forall d, d ∈ deps <-> d ∈ deps') -> resolves deps s -> resolves deps' s' ->
  SRequired s = SRequired s' /\ RequiredByDependency s = RequiredByDependency s' /\
  RequiredEnforcement s = RequiredEnforcement s' /\
  forall v, SchemaCheck s v = Ok tt <-> SchemaCheck s' v = Ok tt.
Proof.
  intros Hd (H1 & H2 & H3 & H4 & H5) (H1' & H2' & H3' & H4' & H5').
  assert (forall p, someMatched deps p <-> someMatched deps' p) as Hs
    by (unfold someMatched; by setoid_rewrite Hd).
  assert (valueRequired deps <-> valueRequired deps') as Hvr
    by (unfold valueRequired; by rewrite !Hs).
  split_and!.
  - apply eq_bool_prop_intro. rewrite !Is_true_true. by rewrite H1, H1'.
  - apply eq_bool_prop_intro. rewrite !Is_true_true. by rewrite H2, H2'.
  - rewrite Hs in H3. destruct H4 as [E|E], H4' as [E'|E']; rewrite E, E' in *; naive_solver.
  - intros v. rewrite H5, H5'. destruct (IsZero v); [by rewrite Hvr|].
    unfold valueAdmitted. by setoid_rewrite Hd.
Qed.

End Resolve.

(** ** Properties of resolution *)

Section Properties.
Context `{GoStd}.

(** With validated rules and parsed values the resolver always succeeds,
    and its schema is the specification: required exactly when a matched live
    rule of the target demands a value, or no matched rule states a
    requirement and the attribute itself is required; enforced on write
    exactly when a demanding matched rule says so; and [Check] accepts exactly
    the present values that satisfy the attribute's constraints, every matched
    rule's constraints and every matched rule's allowed set (and an absent one
    exactly when none is required). *)
Theorem resolve_exact target types values facts now deps :
  inputs_ok types values facts -> Forall (rule_ok types) deps ->
  exists s, ResolveEffectiveWithContext target deps values facts now = Ok s /\
    (SRequired s = true <-> valueRequired target values facts now deps) /\
    (RequiredByDependency s = true <-> someMatched target values facts now deps DemandsValue) /\
    (RequiredEnforcement s = EnforceOnWrite <->
       someMatched target values facts now deps demandsOnWrite) /\
    (RequiredEnforcement s = EnforceOnWrite \/ RequiredEnforcement s = EnforceOnRead) /\
    forall v, SchemaCheck s v = Ok tt <->
      if IsZero v then ~ valueRequired target values facts now deps
      else valueAdmitted target values facts now deps v.
Proof. intros Hin Hr. exact (resolves_ok target types values facts now deps Hin Hr). Qed.

(** The order in which the store returns the rules, and repetitions, do
    not matter: resolving two listings of the same rules gives the same
    requirement, the same enforcement and the same verdict on every value. *)
Theorem resolve_order_independent target types values facts now deps deps' :
  inputs_ok types values facts -> Forall (rule_ok types) deps ->
  (forall d, d ∈ deps <-> d ∈ deps') ->
  exists s s', ResolveEffectiveWithContext target deps values facts now = Ok s /\
    ResolveEffectiveWithContext target deps' values facts now = Ok s' /\
    SRequired s = SRequired s' /\ RequiredByDependency s = RequiredByDependency s' /\
    RequiredEnforcement s = RequiredEnforcement s' /\
    forall v, SchemaCheck s v = Ok tt <-> SchemaCheck s' v = Ok tt.
Proof.
  intros Hin Hr Hd.
  assert (Forall (rule_ok types) deps') as Hr'.
  { rewrite list.Forall_forall in *. intros d Hin'. by apply Hr, Hd. }
  destruct (resolves_ok target types values facts now deps Hin Hr) as (s & Hs & Hrs).
  destruct (resolves_ok target types values facts now deps' Hin Hr') as (s' & Hs' & Hrs').
  exists s, s'. split; [done|]. split; [done|]. by eapply resolves_same.
Qed.

(** Rules only narrow: a present value the schema of more rules accepts is
    accepted by the schema of fewer, and by the attribute's own constraints. *)
Theorem resolve_narrows target types values facts now deps deps' s' v :
  inputs_ok types values facts -> Forall (rule_ok types) deps' ->
  (forall d, d ∈ deps -> d ∈ deps') -> IsZero v = false ->
  ResolveEffectiveWithContext target deps' values facts now = Ok s' ->
  SchemaCheck s' v = Ok tt ->
  (exists s, ResolveEffectiveWithContext target deps values facts now = Ok s /\
     SchemaCheck s v = Ok tt) /\
  ConstraintsCheck v (constraints target) = Ok tt.
Proof.
  intros Hin Hr' Hd Hz Hs' Hv.
  assert (Forall (rule_ok types) deps) as Hr.
  { rewrite list.Forall_forall in *. intros d Hin'. by apply Hr', Hd. }
  destruct (resolves_ok target types values facts now deps Hin Hr)
    as (s & Hs & _ & _ & _ & _ & Hc).
  destruct (resolves_ok target types values facts now deps' Hin Hr')
    as (s'' & Hs'' & _ & _ & _ & _ & Hc').
  assert (s'' = s') as -> by congruence.
  apply Hc' in Hv. rewrite Hz in Hv. destruct Hv as [Hown Hdeps].
  split; [|by apply each_ok].
  exists s. split; [done|]. apply Hc. rewrite Hz. split; [done|]. eauto.
Qed.

End Properties.

(** ** The aggregate *)

Section Aggregate.
Context `{GoStd}.
(** The type of each attribute definition, which no operation changes. *)
Variable types : ID -> DataType.

Definition typed (a : option AttrDefinition) : Prop :=
  match a with Some a => types (id a) = attrType a | None => True end.

(** One operation of the aggregate, on the definitions the store holds. *)
Inductive dep_step (d d' : Dependency) : Prop :=
  | dep_update source target conds eff desc now evs :
      typed source -> typed target ->
      DepUpdate d source target conds eff desc now = Ok (d', evs) -> dep_step d d'
  | dep_archive now evs : DepArchive d now = Ok (d', evs) -> dep_step d d'.

Inductive dep_reachable : Dependency -> Prop :=
  | dep_new tenant source target conds eff desc fresh now d evs :
      typed source -> typed target ->
      DepNew tenant source target conds eff desc fresh now = Ok (d, evs) -> dep_reachable d
  | dep_next d d' : dep_reachable d -> dep_step d d' -> dep_reachable d'.

(** What [validateRule] settles. *)
Definition rule_valid (source target : ID) (conds : list Condition) (e : Effect) : Prop :=
  conds <> [] /\
  Forall (fun c => ConditionValidate c (types source) = Ok tt) conds /\
  (AllowedValues e <> [] \/ EffConstraints e <> [] \/ EffRequired e <> None) /\
  Forall (fun v => dataType v = types target) (AllowedValues e) /\
  ConstraintsValidate (types target) (EffConstraints e) = Ok tt /\
  (demandsOnWrite e = true \/ EffEnforcement e = EnforceOnRead) .

Definition dep_valid (d : Dependency) : Prop :=
  sourceID d <> targetID d /\ depTenant d <> EmptyString /\
  rule_valid (sourceID d) (targetID d) (conditions d) (effect d).

Lemma isEmpty_false e :
  isEmpty e = false -> AllowedValues e <> [] \/ EffConstraints e <> [] \/ EffRequired e <> None.
Proof.
  unfold isEmpty. rewrite !andb_false_iff, !bool_decide_eq_false, negb_false_iff.
  destruct (EffRequired e); naive_solver.
Qed.

Lemma validateRule_valid source target conds e :
  typed (Some source) -> typed (Some target) ->
  validateRule source target conds e = Ok tt ->
  rule_valid (id source) (id target) conds e.
Proof.
  simpl. intros Hs Ht Hv. unfold validateRule in Hv. rewrite <- Hs, <- Ht in Hv. res_inv.
  unfold rule_valid. split_and!; [by breflect|by apply each_ok|by apply isEmpty_false| |done|].
  - match goal with Ha : each _ (AllowedValues e) = Ok tt |- _ => apply each_ok in Ha end.
    eapply list.Forall_impl; [done|]. intros v Hd. cbv beta in Hd. res_inv. by breflect.
  - unfold demandsOnWrite, EffEnforcement, EnforcementValid, EnforcementOr in *.
    destruct (Enforce e), (DemandsValue e); simpl in *; auto; discriminate.
Qed.

Lemma dep_step_identity d d' :
  dep_step d d' ->
  depArchivedAt d = None /\ depID d' = depID d /\ depTenant d' = depTenant d /\
  sourceID d' = sourceID d /\ targetID d' = targetID d /\ depCreatedAt d' = depCreatedAt d.
Proof.
  destruct 1 as [source target conds eff desc now evs _ _ Hu|now evs Ha].
  - unfold DepUpdate in Hu. res_inv. destruct source, target; try discriminate. res_inv.
    unfold DepIsArchived in *. by destruct (depArchivedAt d).
  - unfold DepArchive in Ha. res_inv. unfold DepIsArchived in *. by destruct (depArchivedAt d).
Qed.

Lemma dep_step_rule d d' :
  dep_step d d' ->
  rule_valid (sourceID d) (targetID d) (conditions d) (effect d) ->
  rule_valid (sourceID d) (targetID d) (conditions d') (effect d').
Proof.
  destruct 1 as [source target conds eff desc now evs Hs Ht Hu|now evs Ha]; intros Hv.
  - unfold DepUpdate in Hu. res_inv. destruct source as [s|], target as [t|]; try discriminate.
    res_inv. breflect. simpl. replace (sourceID d) with (id s). replace (targetID d) with (id t).
    by apply validateRule_valid.
  - unfold DepArchive in Ha. by res_inv.
Qed.

Lemma dep_reachable_valid d : dep_reachable d -> dep_valid d.
Proof.
  induction 1 as [tenant source target conds eff desc fresh now d evs Hs Ht Hn|d d' _ IH Hst].
  - unfold DepNew in Hn. cbv zeta in Hn. destruct source as [s|], target as [t|]; try discriminate.
    res_inv. breflect. split_and!; simpl; [done| |by apply validateRule_valid].
    unfold str_IsZero. by case_bool_decide.
  - destruct IH as (Hne & Hte & Hr).
    pose proof (dep_step_identity _ _ Hst) as (_ & _ & E1 & E2 & E3 & _).
    pose proof (dep_step_rule _ _ Hst Hr) as Hr'. unfold dep_valid. by rewrite E1, E2, E3.
Qed.

(** Whatever sequence of [New], [Update] and [Archive] produced it, a
    dependency relates two different attributes, has at least one condition,
    all valid for the source's type, and an effect that does something, whose
    allowed values and constraints fit the target's type and whose [on_write]
    enforcement always comes with a demand; and an operation succeeds only on
    a dependency not archived, and keeps its identity, tenant and attributes. *)
Theorem dependency_invariant d :
  dep_reachable d ->
  (sourceID d <> targetID d /\ depTenant d <> EmptyString /\
   rule_valid (sourceID d) (targetID d) (conditions d) (effect d)) /\
  (forall d', dep_step d d' -> depArchivedAt d = None /\ depID d' = depID d /\
     depTenant d' = depTenant d /\ sourceID d' = sourceID d /\ targetID d' = targetID d).
Proof.
  intros Hr. split; [exact (dep_reachable_valid d Hr)|].
  intros d' Hst. pose proof (dep_step_identity d d' Hst). naive_solver.
Qed.

End Aggregate.

(** ** Witnesses *)

Module Example.

#[local] Existing Instance Demo.std.

Definition types (i : ID) : DataType :=
  if bool_decide (i = 1%N) then DataTypeString else DataTypeInteger.

Definition attr (i : ID) (dt : DataType) (cs : Constraints) : AttrDefinition :=
  mkAttr i DefaultTenant 3 "attr" "Attr" "" dt false false false false false
    "" "" None cs None "" 0 "" 1 100 100 None.

Definition source : AttrDefinition := attr 1 DataTypeString [].
Definition target : AttrDefinition := attr 2 DataTypeInteger [MinValue (NewIntegerValue 1)].

Definition rule : Dependency := DependencyFacts.Example.rule.

Definition values : gmap ID (list Value) := {[ 1%N := [DependencyFacts.Example.fragile] ]}.

Definition facts : Facts := DependencyFacts.Example.facts.

Lemma rules_ok : Forall (rule_ok types) [rule].
Proof.
  apply Forall_cons; [|apply Forall_nil]. split; [reflexivity|].
  exact DependencyFacts.Example.rule_conditions_ok.
Qed.

Lemma inputs : inputs_ok types values facts.
Proof.
  split; [|exact DependencyFacts.Example.facts_parsed].
  apply map_Forall_singleton, Forall_cons; [by right|apply Forall_nil].
Qed.

Definition schema : EffectiveSchema :=
  mkSchema true [] [MinValue (NewIntegerValue 1); MaxValue (NewIntegerValue 10)] false true
    EnforceOnWrite.

Example resolved :
  ResolveEffectiveWithContext target [rule] values facts Demo.epoch = Ok schema.
Proof. reflexivity. Qed.

Example created :
  DepNew "" (Some source) (Some target) (conditions rule) (effect rule) "" 9 100 =
  Ok (rule, [DepCreated 9 DefaultTenant 1 2 100]).
Proof. reflexivity. Qed.

End Example.

Lemma resolve_exact_witness :
  exists s, ResolveEffectiveWithContext (H := Demo.std) Example.target [Example.rule]
      Example.values Example.facts Demo.epoch = Ok s /\
    SRequired s = true.
Proof.
  destruct (resolve_exact (H := Demo.std) Example.target Example.types Example.values Example.facts
    Demo.epoch [Example.rule] Example.inputs Example.rules_ok) as (s & Hs & _).
  exists s. split; [exact Hs|]. rewrite Example.resolved in Hs. by injection Hs as <-.
Defined.

Lemma resolve_order_independent_witness :
  exists s s',
    ResolveEffectiveWithContext (H := Demo.std) Example.target [Example.rule]
      Example.values Example.facts Demo.epoch = Ok s /\
    ResolveEffectiveWithContext (H := Demo.std) Example.target [Example.rule; Example.rule]
      Example.values Example.facts Demo.epoch = Ok s' /\
    SRequired s = SRequired s'.
Proof.
  destruct (resolve_order_independent (H := Demo.std) Example.target Example.types Example.values
    Example.facts Demo.epoch [Example.rule] [Example.rule; Example.rule] Example.inputs
    Example.rules_ok ltac:(set_solver)) as (s & s' & Hs & Hs' & Hr & _).
  exists s, s'. done.
Defined.

Lemma resolve_narrows_witness :
  (exists s, ResolveEffectiveWithContext (H := Demo.std) Example.target []
      Example.values Example.facts Demo.epoch = Ok s /\
    SchemaCheck (H := Demo.std) s (NewIntegerValue 5) = Ok tt) /\
  ConstraintsCheck (H := Demo.std) (NewIntegerValue 5) (constraints Example.target) = Ok tt.
Proof.
  exact (resolve_narrows (H := Demo.std) Example.target Example.types Example.values Example.facts
    Demo.epoch [] [Example.rule] Example.schema (NewIntegerValue 5) Example.inputs
    Example.rules_ok ltac:(set_solver) eq_refl Example.resolved eq_refl).
Defined.

Lemma dependency_invariant_witness :
  sourceID Example.rule <> targetID Example.rule.
Proof.
  refine (proj1 (proj1 (dependency_invariant (H := Demo.std) Example.types Example.rule _))).
  eapply (dep_new (H := Demo.std) Example.types); [| |exact Example.created]; reflexivity.
Defined.
