(* ===== verification/ValueWrite.v ===== *)
(** Writing attribute values: the aggregate ([domain/value/aggregate.go]), the
    table behind it ([infrastructure/memory/instances.go]) and the write usecases
    ([application/value/interactor.go], [mutation.go], [lockorder.go]).

    [Tables] holds what a write reads and changes.  A usecase is one unit of work
    ([application/uow/uow.go]): [Execute] runs it and the checks it registered,
    and either commits the new tables or leaves the old ones.  Bulk imports, which
    read through a cache of their own, are not covered. *)

From Stdlib Require Import ZArith Lia String Ascii List.
From stdpp Require Import base tactics list gmap fin_maps strings option decidable.
From S2P Require Import Prelude GoText Values Ids Attribute Access TypeDef Units Dependency.

Open Scope Z_scope.
Open Scope go_scope.

(** ** The aggregate *)

Record AttributeValue := mkAV {
  avID : ID;
  avTenantID : TenantID;
  avTypeID : ID;
  avAttrID : ID;
  avEntityID : EntityID;
  avScope : Scope;
  avValue : Value;
  avDefVersion : Z;
  avCreatedAt : Z;
  avUpdatedAt : Z;
  avArchivedAt : option Z }.

(** [Set], [Updated], [Removed]. *)
Inductive ValueEvent :=
  | ValueSet (av : AttributeValue) (at_ : Z)
  | ValueUpdated (av : AttributeValue) (old : Value) (at_ : Z)
  | ValueRemoved (av : AttributeValue) (at_ : Z).

Definition ValueAggregate : string := "attribute_value".

Definition AvIsArchived (av : AttributeValue) : bool := isSome (avArchivedAt av).

Definition set_value (av : AttributeValue) (v : Value) (ver now : Z) : AttributeValue :=
  mkAV (avID av) (avTenantID av) (avTypeID av) (avAttrID av) (avEntityID av) (avScope av)
    v ver (avCreatedAt av) now (avArchivedAt av).

Definition set_av_type (av : AttributeValue) (t : ID) : AttributeValue :=
  mkAV (avID av) (avTenantID av) t (avAttrID av) (avEntityID av) (avScope av)
    (avValue av) (avDefVersion av) (avCreatedAt av) (avUpdatedAt av) (avArchivedAt av).

Definition set_av_archived (av : AttributeValue) (now : Z) : AttributeValue :=
  mkAV (avID av) (avTenantID av) (avTypeID av) (avAttrID av) (avEntityID av) (avScope av)
    (avValue av) (avDefVersion av) (avCreatedAt av) now (Some now).

Section Aggregate.
Context `{GoStd}.

Definition AvNew (def : AttrDefinition) (entityType : ID) (entity : EntityID) (scope : Scope)
    (v : Value) (fresh : ID) (now : Z) : result (AttributeValue * list ValueEvent) :=
  guard! str_IsZero entity else NewValidation "entity ID is required" then
  guard! ID_IsZero entityType else NewValidation "entity type is required" then
  guard! IsZero v else NewValidation "value is required" then
  check! ValidateValue def v then
  let av := mkAV fresh (tenantID def) entityType (id def) entity scope v (version def) now now None in
  Ok (av, [ValueSet av now]).

Definition UpdateValue (av : AttributeValue) (def : AttrDefinition) (v : Value) (now : Z) :
    result (AttributeValue * list ValueEvent) :=
  guard! AvIsArchived av else NewArchived ValueAggregate then
  guard! negb (bool_decide (id def = avAttrID av))
    else NewValidation "definition does not match the stored value's attribute" then
  guard! IsZero v else NewValidation "value is required" then
  check! ValidateValue def v then
  if Equal (avValue av) v && (avDefVersion av =? version def) then Ok (av, [])
  else
    let av' := set_value av v (version def) now in
    Ok (av', [ValueUpdated av' (avValue av) now]).

Definition AvRemove (av : AttributeValue) (now : Z) : result (AttributeValue * list ValueEvent) :=
  guard! AvIsArchived av else NewArchived ValueAggregate then
  Ok (set_av_archived av now, [ValueRemoved (set_av_archived av now) now]).
End Aggregate.

(** ** The tables *)

Record Tables := mkTables {
  types : Catalogue;
  attrs : gmap ID AttrDefinition;
  deps : gmap ID Dependency;
  vals : gmap ID AttributeValue;
  families : option (gmap ID Family) }.

Definition set_vals (T : Tables) (vs : gmap ID AttributeValue) : Tables :=
  mkTables (types T) (attrs T) (deps T) vs (families T).

Definition by_av (a b : AttributeValue) : bool := (avID a <=? avID b)%N.
Definition by_created (a b : AttributeValue) : bool :=
  (avCreatedAt a <? avCreatedAt b) || ((avCreatedAt a =? avCreatedAt b) && (avID a <=? avID b)%N).
Definition by_dep (a b : Dependency) : bool := (depID a <=? depID b)%N.
Definition by_attr (a b : AttrDefinition) : bool := (id a <=? id b)%N.

(** Rows of one entity, archived ones included. *)
Definition of_entity (tenant : TenantID) (entity : EntityID) (av : AttributeValue) : bool :=
  bool_decide (avTenantID av = tenant) && bool_decide (avEntityID av = entity).

Definition AttrGet (T : Tables) (i : ID) : result AttrDefinition :=
  match attrs T !! i with Some a => Ok a | None => Err (NewNotFound AggregateType) end.

(** [GetMany] skips identifiers with no row. *)
Definition AttrGetMany (T : Tables) (ids : list ID) : result (list AttrDefinition) :=
  Ok (omap (fun i => attrs T !! i) ids).

Definition AvGet (T : Tables) (i : ID) : result AttributeValue :=
  match vals T !! i with Some av => Ok av | None => Err (NewNotFound ValueAggregate) end.

Definition AvSave (T : Tables) (av : AttributeValue) : Tables :=
  set_vals T (<[avID av := av]> (vals T)).

Definition EntityAnchor (T : Tables) (tenant : TenantID) (entity : EntityID) : option ID :=
  avTypeID <$> head (sort_by by_created (List.filter (of_entity tenant entity) (values (vals T)))).

Definition ReanchorEntity (T : Tables) (tenant : TenantID) (entity : EntityID) (to : ID) : Tables :=
  set_vals T ((fun av => if of_entity tenant entity av then set_av_type av to else av) <$> vals T).

(** [ListByEntity] *)
Definition AvListByEntity (T : Tables) (tenant : TenantID) (type_id : ID) (entity : EntityID) :
    list AttributeValue :=
  sort_by by_av (List.filter (fun av => of_entity tenant entity av &&
    bool_decide (avTypeID av = type_id) && negb (AvIsArchived av)) (values (vals T))).

Definition FindByDefinitionAndEntity (T : Tables) (def : ID) (entity : EntityID) :
    list AttributeValue :=
  sort_by by_av (List.filter (fun av => bool_decide (avAttrID av = def) &&
    bool_decide (avEntityID av = entity) && negb (AvIsArchived av)) (values (vals T))).

Definition clashes `{GoStd} (def : ID) (scope : Scope) (v : Value) (exclude : EntityID)
    (av : AttributeValue) : bool :=
  bool_decide (avAttrID av = def) && negb (bool_decide (avEntityID av = exclude)) &&
  ScopeEquals (avScope av) scope && negb (AvIsArchived av) && Equal (avValue av) v.

Definition CountByDefinitionAndValue `{GoStd} (T : Tables) (def : ID) (scope : Scope) (v : Value)
    (exclude : EntityID) : nat :=
  length (List.filter (clashes def scope v exclude) (values (vals T))).

Definition media_of (tenant : TenantID) (key : string) (av : AttributeValue) : bool :=
  bool_decide (avTenantID av = tenant) && bool_decide (dataType (avValue av) = DataTypeMedia) &&
  bool_decide (ObjectKey (Media (avValue av)) = key).

(** The earliest row that references the object. *)
Definition MediaValueForKey (T : Tables) (tenant : TenantID) (key : string) : option AttributeValue :=
  head (sort_by by_created (List.filter (media_of tenant key) (values (vals T)))).

Definition MediaKeyRefCount (T : Tables) (key : string) (exclude : ID) : nat :=
  length (List.filter (fun av => bool_decide (dataType (avValue av) = DataTypeMedia) &&
    bool_decide (ObjectKey (Media (avValue av)) = key) && negb (bool_decide (avID av = exclude)) &&
    negb (AvIsArchived av)) (values (vals T))).

Definition live_deps (T : Tables) (p : Dependency -> bool) : list Dependency :=
  sort_by by_dep (List.filter (fun d => negb (DepIsArchived d) && p d) (values (deps T))).

Definition ListByTarget (T : Tables) (target : ID) : list Dependency :=
  live_deps T (fun d => bool_decide (targetID d = target)).

Definition ListEnforcedOnWrite (T : Tables) (tenant : TenantID) : list Dependency :=
  live_deps T (fun d => bool_decide (depTenant d = tenant) && DemandsValue (effect d) &&
    bool_decide (EffEnforcement (effect d) = EnforceOnWrite)).

Definition MaxPerType : nat := 1000.

(** [ListByTypeDefinition], all pages. *)
Definition ListByTypeDefinition (T : Tables) (type_id : ID) : list AttrDefinition :=
  sort_by by_attr (List.filter (fun a => bool_decide (typeDefinitionID a = type_id) &&
    negb (IsArchived a)) (values (attrs T))).

(** [ListAllForType] *)
Definition ListAllForType (T : Tables) (type_id : ID) : result (list AttrDefinition) :=
  let items := ListByTypeDefinition T type_id in
  guard! (MaxPerType <? length items)%nat
    else NewValidation "type declares more attributes than flexitype can resolve in one schema walk" then
  Ok items.

(** The attributes of every type of a list. *)
Fixpoint listAll (T : Tables) (links : list TypeDefinition) : result (list AttrDefinition) :=
  match links with
  | [] => Ok []
  | link :: links =>
      let! here := ListAllForType T (tdID link) in
      let! rest := listAll T links in
      Ok (here ++ rest)
  end.

(** ** One unit of work *)

Inductive Action := ActionCreated | ActionUpdated | ActionRemoved.

(** [activity.Change] of an attribute value. *)
Record Change := mkChange {
  chEntityID : ID;
  chAction : Action;
  chBefore : option AttributeValue;
  chAfter : option AttributeValue }.

Record EntityRef := mkRef {
  refTenant : TenantID;
  refType : ID;
  refEntity : EntityID;
  fullView : bool }.

#[export] Instance EntityRef_eq_dec : EqDecision EntityRef.
Proof. solve_decision. Defined.

(** [requiredGate]; its [seen] map is membership in [order]. *)
Record Gate := mkGate { order : list EntityRef; removed : list (EntityID * AttributeValue) }.

(** [uow.Collector], the stashed gate (its check is registered with it) and the
    media values whose bytes are collected after the commit. *)
Record Collector := mkCollector {
  collected : list ValueEvent;
  changes : list Change;
  gate : option Gate;
  mediaGC : list (ID * Value) }.

Definition newCollector : Collector := mkCollector [] [] None [].

Definition collect (evts : list ValueEvent) (ch : Change) (gc : list (ID * Value)) (c : Collector) :
    Collector :=
  mkCollector (collected c ++ evts) (changes c ++ [ch]) (gate c) (mediaGC c ++ gc).

Definition gate_add (ref : EntityRef) (g : Gate) : Gate :=
  if bool_decide (ref ∈ order g) then g else mkGate (order g ++ [ref]) (removed g).

Definition stash (c : Collector) : Gate := default (mkGate [] []) (gate c).

Definition set_gate (c : Collector) (g : Gate) : Collector :=
  mkCollector (collected c) (changes c) (Some g) (mediaGC c).

Definition noteWrite (ref : EntityRef) (internal : bool) (c : Collector) : Collector :=
  if internal then c else set_gate c (gate_add ref (stash c)).

Definition noteRemoval (ref : EntityRef) (av : AttributeValue) (internal : bool) (c : Collector) :
    Collector :=
  if internal then c
  else
    let g := gate_add (mkRef (refTenant ref) (refType ref) (refEntity ref) true) (stash c) in
    set_gate c (mkGate (order g) (removed g ++ [(refEntity ref, av)])).

(** What a request carries: its context, the caller's facts, the tenant's local
    time, the clock; [probe] says which objects the blob store holds, if one is
    configured. *)
Record Request := mkRequest {
  rqContext : Context;
  rqFailClosed : bool;
  rqFacts : Facts;
  rqLocalNow : GoTime;
  rqNow : Z;
  rqProbe : option (string -> bool) }.

Definition rqTenant (rq : Request) : TenantID := TenantFromContext (rqContext rq).
Definition rqAccess (rq : Request) : Access := AccessFromContext (rqFailClosed rq) (rqContext rq).

Record SetInput := mkSetInput {
  siAttributeDefinitionID : string;
  siEntityID : string;
  siTypeDefinitionID : string;
  siLocale : string;
  siChannel : string;
  siValue : string;
  siInternal : bool;
  siFromUpload : bool }.

(** Values by attribute, in list order. *)
Definition group_values (m : gmap ID (list Value)) (avs : list AttributeValue) :
    gmap ID (list Value) :=
  fold_left (fun m av => <[avAttrID av := default [] (m !! avAttrID av) ++ [avValue av]]> m) avs m.

Section Write.
Context `{GoStd} `{GoUlid} `{GoNumeric}.

(** The type the entity is, or becomes, anchored to. *)
Definition resolveType (T : Tables) (tenant : TenantID) (def : AttrDefinition) (entity : EntityID)
    (raw : string) : result (Tables * ID) :=
  let anchor := EntityAnchor T tenant entity in
  if str_IsZero raw then Ok (T, default (typeDefinitionID def) anchor)
  else
    match ParseID raw with
    | Err e => Err (NewValidation (Message e))
    | Ok supplied =>
        match anchor with
        | None => Ok (T, supplied)
        | Some a =>
            if bool_decide (supplied = a) then Ok (T, supplied)
            else
              let! suppliedType := TypeGet (types T) supplied in
              let! narrowing := IsAncestorOrSelf (types T) suppliedType a in
              if narrowing : bool then Ok (ReanchorEntity T tenant entity supplied, supplied)
              else
                let! anchorType := TypeGet (types T) a in
                let! widening := IsAncestorOrSelf (types T) anchorType supplied in
                guard! negb widening
                  else NewValidation "the entity is already anchored to an unrelated type" then
                Ok (T, a)
        end
    end.

Definition inSchema (T : Tables) (def : AttrDefinition) (entityType : ID) : result unit :=
  if bool_decide (entityType = typeDefinitionID def) then Ok tt
  else
    let! declared := TypeGet (types T) entityType in
    let! ok := IsAncestorOrSelf (types T) declared (typeDefinitionID def) in
    guard! negb ok
      else NewValidation "the attribute is not part of the entity type's inherited schema" then
    Ok tt.

Definition liveChain (T : Tables) (entityType : ID) : result unit :=
  let! t := TypeGet (types T) entityType in
  let! chain := Chain (types T) t in
  guard! existsb TypeIsArchived chain else NewArchived TypeAggregate then
  Ok tt.

(** [adoptMediaValue] *)
Definition adoptMediaValue (T : Tables) (rq : Request) (raw : string) : result Value :=
  match ParseValue DataTypeMedia raw with
  | Err e => Err (NewValidation (Message e))
  | Ok declared =>
      let key := ObjectKey (Media declared) in
      guard! str_IsZero key else NewValidation "media value requires an object key" then
      let unknownKey :=
        NewValidation "unknown media object key; upload the file through the media endpoint" in
      match MediaValueForKey T (rqTenant rq) key with
      | None => Err unknownKey
      | Some stored =>
          let! readable := MayRead (AttrGetMany T) (rqAccess rq) (avAttrID stored) in
          guard! negb readable else unknownKey then
          guard! match rqProbe rq with
                 | Some probe => (MediaKeyRefCount T key 0 =? 0)%nat && negb (probe key)
                 | None => false
                 end
            else NewValidation "media object key has no stored bytes; upload the file again" then
          Ok (avValue stored)
      end
  end.

Definition decodeValue (T : Tables) (rq : Request) (def : AttrDefinition) (i : SetInput) :
    result Value :=
  if bool_decide (attrType def = DataTypeMedia) && negb (siFromUpload i) then
    adoptMediaValue T rq (siValue i)
  else if bool_decide (attrType def = DataTypeQuantity) then
    quantityValue (families T) (rqTenant rq) def (siValue i)
  else
    match ParseValue (attrType def) (siValue i) with
    | Ok v => Ok v
    | Err e => Err (NewValidation (Message e))
    end.

(** [checkDependencies], the dependencies targeting the attribute at hand. *)
Definition checkTargeting (T : Tables) (rq : Request) (def : AttrDefinition) (entityType : ID)
    (entity : EntityID) (v : Value) (targeting : list Dependency) : result unit :=
  if bool_decide (length targeting = 0%nat) then Ok tt
  else
    let sources := group_values ∅ (AvListByEntity T (tenantID def) entityType entity) in
    match ResolveEffectiveWithContext def targeting sources (rqFacts rq) (rqLocalNow rq) with
    | Err _ => Err (Errorf "resolve effective schema")
    | Ok schema => SchemaCheck schema v
    end.

Definition checkDependencies (T : Tables) (rq : Request) (def : AttrDefinition) (entityType : ID)
    (entity : EntityID) (v : Value) : result unit :=
  checkTargeting T rq def entityType entity v (ListByTarget T (id def)).

(** A new row, unless one of the rows found holds the value. *)
Definition insertRow (T : Tables) (c : Collector) (def : AttrDefinition) (entityType : ID)
    (entity : EntityID) (scope : Scope) (v : Value) (fresh : ID) (now : Z)
    (existing : list AttributeValue) : result (Tables * Collector * AttributeValue) :=
  match List.find (fun av => Equal (avValue av) v) existing with
  | Some av => Ok (T, c, av)
  | None =>
      let! r := AvNew def entityType entity scope v fresh now in
      Ok (AvSave T r.1, collect r.2 (mkChange (avID r.1) ActionCreated None (Some r.1)) [] c, r.1)
  end.

(** The write itself: update in place, keep, or insert. *)
Definition upsert (T : Tables) (c : Collector) (def : AttrDefinition) (entityType : ID)
    (entity : EntityID) (scope : Scope) (v : Value) (fresh : ID) (now : Z) :
    result (Tables * Collector * AttributeValue) :=
  let existing := List.filter (fun av => ScopeEquals (avScope av) scope)
    (FindByDefinitionAndEntity T (id def) entity) in
  match existing with
  | av :: _ =>
      if multiValued def then insertRow T c def entityType entity scope v fresh now existing
      else
        let! r := UpdateValue av def v now in
        if bool_decide (length r.2 = 0%nat) then Ok (T, c, r.1)
        else
          let gc := if bool_decide (dataType (avValue av) = DataTypeMedia) &&
                       negb (bool_decide (ObjectKey (Media (avValue av)) = ObjectKey (Media (avValue r.1))))
                    then [(avID av, avValue av)] else [] in
          Ok (AvSave T r.1, collect r.2 (mkChange (avID r.1) ActionUpdated (Some av) (Some r.1)) gc c, r.1)
  | [] => insertRow T c def entityType entity scope v fresh now existing
  end.

(** [setWithin] between the load of the definition and the load of the existing
    values: what the write must satisfy, the dependencies that target the
    attribute being given. *)
Definition admitWrite (rq : Request) (i : SetInput) (def : AttrDefinition) (entity : EntityID)
    (targeting : list Dependency) (T : Tables) (c : Collector) :
    result (Tables * Collector * (ID * Value)) :=
  let internal := false in
  check! EnsureTenant (rqTenant rq) (tenantID def) "attribute_definition" then
  let! Tt := resolveType T (rqTenant rq) def entity (siTypeDefinitionID i) in
  let T := Tt.1 in
  let entityType := Tt.2 in
  check! inSchema T def entityType then
  check! (if negb internal then liveChain T entityType else Ok tt) then
  let internal := siInternal i && IsComputed def in
  guard! IsComputed def && negb internal
    else NewValidation "attribute is computed (read-only)" then
  guard! negb internal && negb (CanWrite (rqAccess rq) (internalName def))
    else NewForbidden "not permitted to write this attribute" then
  let! v := decodeValue T rq def i in
  let scope := mkScope (siLocale i) (siChannel i) in
  guard! negb (str_IsZero (siLocale i)) && negb (localizable def)
    else NewValidation "attribute is not localizable" then
  guard! negb (str_IsZero (siChannel i)) && negb (scopable def)
    else NewValidation "attribute is not scopable" then
  check! checkTargeting T rq def entityType entity v targeting then
  let c := noteWrite (mkRef (tenantID def) entityType entity false) internal c in
  guard! unique def && negb (CountByDefinitionAndValue T (id def) scope v entity =? 0)%nat
    else NewConflict "value already used by another entity" then
  Ok (T, c, (entityType, v)).

(** [setWithin], outside an import. *)
Definition setWithin (rq : Request) (i : SetInput) (fresh : ID) (T : Tables) (c : Collector) :
    result (Tables * Collector * AttributeValue) :=
  match ParseID (siAttributeDefinitionID i), ParseEntityID (siEntityID i) with
  | Err e, _ | _, Err e => Err (NewValidation (Message e))
  | Ok defID, Ok entity =>
      guard! str_IsZero (siValue i) || bool_decide (siValue i = "null")
        else NewValidation "value is required" then
      let! def := AttrGet T defID in
      let! admitted := admitWrite rq i def entity (ListByTarget T (id def)) T c in
      let '(T, c, (entityType, v)) := admitted in
      upsert T c def entityType entity (mkScope (siLocale i) (siChannel i)) v fresh (rqNow rq)
  end.

(** *** The check at the end of the unit of work ([requiredgate.go]) *)

(** [readableOnly] *)
Definition readableOnly (T : Tables) (rq : Request) (avs : list AttributeValue) :
    result (list AttributeValue) :=
  if bool_decide (length avs = 0%nat) || Admin (rqAccess rq) then Ok avs
  else
    let! readable := Readable (AttrGetMany T) (rqAccess rq) (avAttrID <$> avs) in
    Ok (List.filter (fun av => lookup_bool readable (ulid_String (avAttrID av))) avs).

Fixpoint dedupeAttrs (seen : list ID) (l : list AttrDefinition) : list AttrDefinition :=
  match l with
  | [] => []
  | a :: l =>
      if bool_decide (id a ∈ seen) then dedupeAttrs seen l else a :: dedupeAttrs (id a :: seen) l
  end.

(** [gateSchema] *)
Definition gateSchema (T : Tables) (type_id : ID) : result (list AttrDefinition) :=
  let! t := TypeGet (types T) type_id in
  let! chain := Chain (types T) t in
  let! all := listAll T chain in
  Ok (dedupeAttrs [] all).

(** The schema demands a value now. *)
Definition demands (s : EffectiveSchema) : bool :=
  SRequired s && bool_decide (EnforcementOr (RequiredEnforcement s) DefaultEnforcement = EnforceOnWrite).

Definition resolveFor (rq : Request) (a : AttrDefinition) (targets : list Dependency)
    (held : gmap ID (list Value)) : result EffectiveSchema :=
  ResolveEffectiveWithContext a targets held (rqFacts rq) (rqLocalNow rq).

Definition violatedBefore (rq : Request) (a : AttrDefinition) (targets : list Dependency)
    (filled : gmap ID (list Value)) (gone : list AttributeValue) : result bool :=
  if bool_decide (length gone = 0%nat) then Ok false
  else
    let before := group_values filled gone in
    let! eff := resolveFor rq a targets before in
    Ok (demands eff && negb (isSome (before !! id a))).

Definition ErrDemand (rq : Request) (a : AttrDefinition) : Error :=
  if CanRead (rqAccess rq) (internalName a)
  then NewDependencyViolation "an attribute dependency requires a value for"
  else NewDependencyViolation "an attribute dependency requires a value this entity does not have".

(** One attribute of the schema of one entity. *)
Definition enforceAttr (T : Tables) (rq : Request) (ref : EntityRef) (gone : list AttributeValue)
    (blocking : list Dependency) (filled : gmap ID (list Value)) (a : AttrDefinition) : result unit :=
  if negb (existsb (fun d => bool_decide (targetID d = id a)) blocking) then Ok tt
  else if negb (fullView ref) && negb (CanRead (rqAccess rq) (internalName a)) then Ok tt
  else
    let targets := ListByTarget T (id a) in
    if bool_decide (length targets = 0%nat) then Ok tt
    else
      let! eff := resolveFor rq a targets filled in
      if negb (demands eff) then Ok tt
      else if isSome (filled !! id a) then Ok tt
      else if fullView ref then
        let! was := violatedBefore rq a targets filled gone in
        if was : bool then Ok tt else Err (ErrDemand rq a)
      else Err (ErrDemand rq a).

Definition enforceRef (T : Tables) (rq : Request) (g : Gate) (blocking : list Dependency)
    (ref : EntityRef) : result unit :=
  let held := AvListByEntity T (refTenant ref) (refType ref) (refEntity ref) in
  if bool_decide (length held = 0%nat) then Ok tt
  else
    let! seen := (if fullView ref then Ok held else readableOnly T rq held) in
    let filled := group_values ∅ seen in
    let! schema := gateSchema T (refType ref) in
    let gone := (List.filter (fun p => bool_decide (p.1 = refEntity ref)) (removed g)).*2 in
    each (enforceAttr T rq ref gone blocking filled) schema.

(** [enforceRequiredOnWrite] *)
Definition enforceRequiredOnWrite (T : Tables) (rq : Request) (g : Gate) : result unit :=
  match order g with
  | [] => Ok tt
  | first :: _ =>
      let blocking := ListEnforcedOnWrite T (refTenant first) in
      if bool_decide (length blocking = 0%nat) then Ok tt
      else each (enforceRef T rq g blocking) (order g)
  end.

(** [Execute]: the usecase, then the registered check, then the commit. *)
Definition Execute {A} (rq : Request) (f : Tables -> Collector -> result (Tables * Collector * A))
    (T : Tables) : result (Tables * Collector * A) :=
  let! r := f T newCollector in
  let '(T', c, a) := r in
  check! (match gate c with Some g => enforceRequiredOnWrite T' rq g | None => Ok tt end) then
  Ok (T', c, a).

(** *** Usecases *)

(** [Interactor.Set] *)
Definition ValueSetCase (rq : Request) (i : SetInput) (fresh : ID) (T : Tables) :
    result (Tables * Collector * AttributeValue) :=
  Execute rq (setWithin rq i fresh) T.

(** [canonicalOrder]: indices by entity, ties in input order. *)
Definition canonicalOrder {A} (entityOf : A -> EntityID) (items : list A) : list (nat * A) :=
  sort_by (fun a b => String.leb (entityOf a.2) (entityOf b.2)) (imap pair items).

Definition maxBatchItems : nat := 1000.

(** The loop of [SetBatch]; each item's snapshot with its index. *)
Fixpoint setEach (rq : Request) (items : list (nat * SetInput)) (fresh : nat -> ID) (T : Tables)
    (c : Collector) (out : list (nat * AttributeValue)) :
    result (Tables * Collector * list (nat * AttributeValue)) :=
  match items with
  | [] => Ok (T, c, out)
  | (idx, i) :: items =>
      let! r := setWithin rq i (fresh idx) T c in
      let '(T', c', av) := r in
      setEach rq items fresh T' c' (out ++ [(idx, av)])
  end.

Definition SetBatch (rq : Request) (items : list SetInput) (fresh : nat -> ID) (T : Tables) :
    result (Tables * Collector * list (nat * AttributeValue)) :=
  guard! bool_decide (length items = 0%nat) else NewValidation "at least one item is required" then
  guard! (maxBatchItems <? length items)%nat
    else NewValidation "batch exceeds the maximum item count" then
  Execute rq (fun T c => setEach rq (canonicalOrder siEntityID items) fresh T c []) T.

(** [Remove] *)
Definition ValueRemove (rq : Request) (raw : string) (T : Tables) :
    result (Tables * Collector * AttributeValue) :=
  match ParseID raw with
  | Err e => Err (NewValidation (Message e))
  | Ok i =>
      Execute rq (fun T c =>
        let! av := AvGet T i in
        check! EnsureTenant (rqTenant rq) (avTenantID av) ValueAggregate then
        let! def := AttrGet T (avAttrID av) in
        guard! negb (CanWrite (rqAccess rq) (internalName def))
          else NewForbidden "not permitted to write this attribute" then
        let! r := AvRemove av (rqNow rq) in
        let ref := mkRef (avTenantID av) (avTypeID av) (avEntityID av) false in
        let c := noteRemoval ref r.1 (IsComputed def) c in
        Ok (AvSave T r.1,
            collect r.2 (mkChange (avID av) ActionRemoved (Some av) None) [(avID av, avValue av)] c,
            r.1)) T
  end.

(** *** Mutations of a change-set ([mutation.go]) *)

Inductive MutationKind := MutationSet | MutationRemove | MutationOther.

Record Mutation := mkMutation {
  mKind : MutationKind;
  mAttributeDefinitionID : string;
  mEntityID : string;
  mTypeDefinitionID : string;
  mLocale : string;
  mChannel : string;
  mValue : string }.

Definition asInput (m : Mutation) : SetInput :=
  mkSetInput (mAttributeDefinitionID m) (mEntityID m) (mTypeDefinitionID m) (mLocale m) (mChannel m)
    (mValue m) false false.

(** The loop of [removeScopedWithin]. *)
Fixpoint removeEach (rq : Request) (scope : Scope) (internal : bool) (avs : list AttributeValue)
    (T : Tables) (c : Collector) : result (Tables * Collector) :=
  match avs with
  | [] => Ok (T, c)
  | av :: avs =>
      if negb (bool_decide (avTenantID av = rqTenant rq)) || negb (ScopeEquals (avScope av) scope) then
        removeEach rq scope internal avs T c
      else
        let! r := AvRemove av (rqNow rq) in
        let c := noteRemoval (mkRef (avTenantID av) (avTypeID av) (avEntityID av) false) r.1 internal c in
        removeEach rq scope internal avs (AvSave T r.1)
          (collect r.2 (mkChange (avID av) ActionRemoved (Some av) None) [(avID av, avValue av)] c)
  end.

Definition removeScopedWithin (rq : Request) (m : Mutation) (T : Tables) (c : Collector) :
    result (Tables * Collector) :=
  match ParseID (mAttributeDefinitionID m), ParseEntityID (mEntityID m) with
  | Err e, _ | _, Err e => Err (NewValidation (Message e))
  | Ok defID, Ok entity =>
      let! def := AttrGet T defID in
      check! EnsureTenant (rqTenant rq) (tenantID def) AggregateType then
      guard! negb (CanWrite (rqAccess rq) (internalName def))
        else NewForbidden "not permitted to write this attribute" then
      removeEach rq (mkScope (mLocale m) (mChannel m)) (IsComputed def)
        (FindByDefinitionAndEntity T defID entity) T c
  end.

Fixpoint applyEach (rq : Request) (muts : list (nat * Mutation)) (fresh : nat -> ID) (T : Tables)
    (c : Collector) : result (Tables * Collector) :=
  match muts with
  | [] => Ok (T, c)
  | (idx, m) :: muts =>
      match mKind m with
      | MutationSet =>
          let! r := setWithin rq (asInput m) (fresh idx) T c in
          applyEach rq muts fresh r.1.1 r.1.2
      | MutationRemove =>
          let! r := removeScopedWithin rq m T c in
          applyEach rq muts fresh r.1 r.2
      | MutationOther => Err (NewValidation "unknown mutation kind")
      end
  end.

(** [ApplyMutations] *)
Definition ApplyMutations (rq : Request) (muts : list Mutation) (fresh : nat -> ID) (T : Tables) :
    result (Tables * Collector * unit) :=
  if bool_decide (length muts = 0%nat) then Ok (T, newCollector, tt)
  else
    Execute rq (fun T c =>
      let! r := applyEach rq (canonicalOrder mEntityID muts) fresh T c in
      Ok (r.1, r.2, tt)) T.
End Write.
