(* ===== verification/AttributeWrite.v ===== *)
(** The usecases of attribute definitions ([application/attribute/interactor.go]):
    creation, update, archival and restoration within a hierarchy of types, the
    guards that protect stored values ([assertStructuralChangeIsSafe], over
    [AttributeDataShape] of [infrastructure/memory/instances.go] and
    [EqualityKey] of [domain/valueobjects/value.go]) and those that keep
    computed attributes meaningful.

    The JSON of constraints, defaults and computed specifications is decoded
    before; an input carries what the decoder answered. *)

From Stdlib Require Import ZArith QArith Lia String Ascii List SpecFloat.
From stdpp Require Import base tactics list gmap fin_maps strings option decidable pretty.
From S2P Require Import Prelude GoText Values Ids Formula Attribute Access TypeDef Relationship Units.
From S2P Require Import Dependency ValueWrite.

Open Scope Z_scope.
Open Scope go_scope.

(** ** The identity of a value ([EqualityKey]) *)

(** Renderings of the standard library. *)
Class GoKeys := {
  (** [Rat.RatString] of a rational in lowest terms *)
  RatString : Q -> string;
  (** [strconv.FormatFloat(f, 'x', -1, 64)] *)
  FormatHex : spec_float -> string;
  (** [t.UTC().Format(time.RFC3339Nano)] of an instant *)
  FormatNano : Z -> string;
  (** The JSON text of a media value *)
  payload_text : JsonPayload -> string
}.

Definition unit_separator : string := String "031" EmptyString.

(** [string(dataType)] *)
Definition dataType_text (dt : DataType) : string :=
  match dt with
  | DataTypeNone => ""
  | DataTypeBool => "bool"
  | DataTypeString => "string"
  | DataTypeText => "text"
  | DataTypeInteger => "integer"
  | DataTypeFloat => "float"
  | DataTypeDecimal => "decimal"
  | DataTypeDate => "date"
  | DataTypeTime => "time"
  | DataTypeDateTime => "datetime"
  | DataTypeEnum => "enum"
  | DataTypeURL => "url"
  | DataTypeEmail => "email"
  | DataTypeJSON => "json"
  | DataTypeMedia => "media"
  | DataTypeQuantity => "quantity"
  | DataTypeUnknown s => s
  end.

Definition content_key `{GoStd} `{GoKeys} (v : Value) : string :=
  match dataType v with
  | DataTypeDecimal =>
      match rat_of_decimal (textVal v) with
      | Some r => RatString (Qreduction.Qred r)
      | None => textVal v
      end
  | DataTypeJSON => default (rawJSON (jsonVal v)) (json_Canonical (rawJSON (jsonVal v)))
  | DataTypeMedia => payload_text (jsonVal v)
  | DataTypeDate | DataTypeTime | DataTypeDateTime => FormatNano (timeVal v)
  | DataTypeBool => if boolVal v then "true" else "false"
  | DataTypeInteger => pretty (intVal v)
  | DataTypeFloat | DataTypeQuantity =>
      if SFeqb (floatVal v) (S754_zero false) then "0" else FormatHex (floatVal v)
  | _ => textVal v
  end.

Definition EqualityKey `{GoStd} `{GoKeys} (v : Value) : string :=
  String.append (dataType_text (dataType v)) (String.append unit_separator (content_key v)).

(** ** The shape of stored data ([AttributeDataShape]) *)

Record DataShape := mkShape {
  LiveValues : nat; EntitiesWithMany : nat; ScopedValues : nat; DuplicateValues : nat }.

(** [a + "\x1f" + b + "\x1f" + c] *)
Definition join_key (a b c : string) : string :=
  String.append a (String.append unit_separator (String.append b (String.append unit_separator c))).

Definition scope_key (av : AttributeValue) : string :=
  join_key (avEntityID av) (Locale (avScope av)) (Channel (avScope av)).

Section Shape.
Context `{GoStd} `{GoKeys}.

Definition value_key (av : AttributeValue) : string :=
  join_key (EqualityKey (avValue av)) (Locale (avScope av)) (Channel (avScope av)).

Definition live_of (tenant : TenantID) (attrID : ID) (av : AttributeValue) : bool :=
  bool_decide (avTenantID av = tenant) && bool_decide (avAttrID av = attrID) &&
  negb (AvIsArchived av).

(** One row of the scan: the two counts per key and the set of entities. *)
Record Scan := mkScan {
  perScope : gmap string nat;
  manyEntities : gset EntityID;
  perValue : gmap string (gset EntityID);
  liveCount : nat;
  scopedCount : nat }.

Definition scan_row (s : Scan) (av : AttributeValue) : Scan :=
  let n := S (default 0%nat (perScope s !! scope_key av)) in
  mkScan (<[scope_key av := n]> (perScope s))
    (if (1 <? n)%nat then {[avEntityID av]} ∪ manyEntities s else manyEntities s)
    (<[value_key av := {[avEntityID av]} ∪ default ∅ (perValue s !! value_key av)]> (perValue s))
    (S (liveCount s))
    (if negb (str_IsZero (Locale (avScope av))) || negb (str_IsZero (Channel (avScope av)))
     then S (scopedCount s) else scopedCount s).

Definition scan (rows : list AttributeValue) : Scan :=
  fold_left scan_row rows (mkScan ∅ ∅ ∅ 0 0).

(** The entities of every value held by more than one. *)
Definition count_duplicates (m : gmap string (gset EntityID)) : nat :=
  sum_list_with (fun es => if (1 <? size es)%nat then size es else 0%nat) (values m).

Definition AttributeDataShape (T : Tables) (tenant : TenantID) (attrID : ID) : DataShape :=
  let s := scan (List.filter (live_of tenant attrID) (values (vals T))) in
  mkShape (liveCount s) (size (manyEntities s)) (scopedCount s) (count_duplicates (perValue s)).

(** [assertStructuralChangeIsSafe]; [u] is the update asked for. *)
Definition assertStructuralChangeIsSafe (T : Tables) (before : AttrDefinition) (u : UpdateInput)
    (comp : option Computed) : result unit :=
  let losingMulti := multiValued before && negb (inMultiValued u) in
  let gainingUnique := negb (unique before) && inUnique u in
  let losingLocale := localizable before && negb (inLocalizable u) in
  let losingChannel := scopable before && negb (inScopable u) in
  let gainingComputed := negb (isSome (computed before)) && isSome comp in
  let changingFamily := negb (str_IsZero (unitFamilyID before)) &&
    negb (bool_decide (unitFamilyID before = inUnitFamilyID u)) in
  if negb losingMulti && negb gainingUnique && negb losingLocale && negb losingChannel &&
     negb gainingComputed && negb changingFamily then Ok tt
  else
    let shape := AttributeDataShape T (tenantID before) (id before) in
    guard! losingMulti && (0 <? EntitiesWithMany shape)%nat
      else NewConflict "cannot make the attribute single-valued: entities already hold more than one value" then
    guard! gainingUnique && (0 <? DuplicateValues shape)%nat
      else NewConflict "cannot make the attribute unique: stored values already contain duplicates" then
    guard! (losingLocale || losingChannel) && (0 <? ScopedValues shape)%nat
      else NewConflict "cannot turn off localizable/scopable: stored values carry a locale or channel" then
    guard! changingFamily && (0 <? LiveValues shape)%nat
      else (if str_IsZero (inUnitFamilyID u)
            then NewConflict "cannot clear the unit family: stored quantities hold a magnitude in its base unit"
            else NewConflict "cannot change the unit family: stored quantities hold a magnitude in the current base unit") then
    guard! gainingComputed && (0 <? LiveValues shape)%nat
      else NewConflict "cannot make the attribute computed: it already holds written values" then
    Ok tt.
End Shape.

(** ** Formulas of a hierarchy *)

(** [formulaRefs] *)
Record formulaRefs := mkRefs { allRefs : list string; bareRefs : list string }.

Definition formula_refs (a : AttrDefinition) : option formulaRefs :=
  match computed a with
  | Some c =>
      match CompKind c with
      | ComputedFormula =>
          match ComputedValidate c, parse_formula (CompFormula c) with
          | Ok refs, Ok expr => Some (mkRefs refs (ScalarRefs expr))
          | _, _ => None
          end
      | _ => None
      end
  | None => None
  end.

(** [computedRefs] *)
Definition computedRefs (T : Tables) (hierarchy : list TypeDefinition) :
    result (gmap string formulaRefs) :=
  let! all := listAll T hierarchy in
  Ok (fold_left (fun out a =>
        match formula_refs a with Some r => <[internalName a := r]> out | None => out end) all ∅).

Definition computedDeps (T : Tables) (hierarchy : list TypeDefinition) :
    result (gmap string (list string)) :=
  let! full := computedRefs T hierarchy in Ok (allRefs <$> full).

(** The closure [visit] of [checkFormulaCycle] and the map it fills; [None] is
    fuel exhausted.  First the loop over the references of one formula. *)
Fixpoint loopRefs (visit : string -> gset string -> option (bool * gset string)) (name : string)
    (rs : list string) (seen : gset string) : option (bool * gset string) :=
  match rs with
  | [] => Some (false, seen)
  | ref :: rs =>
      if bool_decide (ref = name) then Some (true, seen)
      else if bool_decide (ref ∈ seen) then loopRefs visit name rs seen
      else
        match visit ref ({[ref]} ∪ seen) with
        | Some (false, seen) => loopRefs visit name rs seen
        | r => r
        end
  end.

Fixpoint visitRefs (fuel : nat) (graph : gmap string (list string)) (name cur : string)
    (seen : gset string) : option (bool * gset string) :=
  match fuel with
  | O => None
  | S fuel => loopRefs (visitRefs fuel graph name) name (default [] (graph !! cur)) seen
  end.

(** Every name the graph mentions is visited at most once. *)
Definition graph_fuel (graph : gmap string (list string)) : nat :=
  S (size (list_to_set (concat (values graph)) : gset string)).

Definition checkFormulaCycle (name : string) (rs : list string) (deps : gmap string (list string)) :
    result unit :=
  let graph := <[name := rs]> deps in
  match visitRefs (graph_fuel graph) graph name name {[name]} with
  | Some (true, _) => Err (NewValidation "computed formula introduces a dependency cycle")
  | Some (false, _) => Ok tt
  | None => Err (Errorf "unreachable")
  end.

(** [refuseFormulaReaders] *)
Definition refuseFormulaReaders (name : string) (deps : gmap string formulaRefs)
    (gainingMulti gainingScope : bool) : result unit :=
  each (fun r : formulaRefs =>
    each (fun ref =>
      if negb (bool_decide (ref = name)) then Ok tt
      else
        guard! gainingScope
          else NewConflict "cannot make the attribute localizable or scopable: a computed formula reads it" then
        if gainingMulti && negb (bool_decide (ref ∈ bareRefs r)) then Ok tt
        else Err (NewConflict "cannot make the attribute multi-valued: a computed formula reads it bare"))
      (allRefs r)) (values deps).

Definition isNumericDataType (dt : DataType) : bool :=
  match dt with
  | DataTypeBool | DataTypeInteger | DataTypeFloat | DataTypeDecimal | DataTypeQuantity => true
  | _ => false
  end.

Definition errUnknownFormulaSource : Error :=
  NewValidation "the formula references an unknown attribute in this type hierarchy".

(** One attribute of the hierarchy a formula reads. *)
Definition sourceIsScalar (access : Access) (scalar numeric : list string) (a : AttrDefinition) :
    result unit :=
  guard! negb (CanRead access (internalName a)) else errUnknownFormulaSource then
  guard! multiValued a && bool_decide (internalName a ∈ scalar)
    else NewValidation "a formula cannot read a multi-valued attribute directly" then
  guard! localizable a || scopable a
    else NewValidation "a formula cannot read a localizable or scopable attribute" then
  guard! bool_decide (internalName a ∈ numeric) && negb (isNumericDataType (attrType a))
    else NewValidation "a formula can only read or fold a numeric attribute" then
  Ok tt.

(** [assertFormulaSourcesAreScalar] *)
Definition assertFormulaSourcesAreScalar (T : Tables) (access : Access)
    (hierarchy : list TypeDefinition) (rs scalar numeric : list string) : result unit :=
  if bool_decide (rs = []) then Ok tt
  else
    check! each (fun link =>
      let! here := ListAllForType T (tdID link) in
      each (fun a => if bool_decide (internalName a ∈ rs) then sourceIsScalar access scalar numeric a
                     else Ok tt) here) hierarchy then
    let! all := listAll T hierarchy in
    guard! negb (Admin access) && negb (forallb (fun r => bool_decide (r ∈ internalName <$> all)) rs)
      else errUnknownFormulaSource then
    Ok tt.

(** [appendUnseenTypes]; the head of [seen] moves along [more]. *)
Fixpoint unseenTypes (seen : list ID) (more : list TypeDefinition) : list TypeDefinition :=
  match more with
  | [] => []
  | t :: more =>
      if bool_decide (tdID t ∈ seen) then unseenTypes seen more
      else t :: unseenTypes (tdID t :: seen) more
  end.

Definition appendUnseenTypes (into more : list TypeDefinition) : list TypeDefinition :=
  into ++ unseenTypes (tdID <$> into) more.

(** ** Rollups *)

(** [GetByInternalName] of attributes. *)
Definition named (type_id : ID) (name : string) (a : AttrDefinition) : bool :=
  bool_decide (typeDefinitionID a = type_id) && bool_decide (internalName a = name) &&
  negb (IsArchived a).

Definition AttrByInternalName (T : Tables) (type_id : ID) (name : string) : option AttrDefinition :=
  head (List.filter (named type_id name) (values (attrs T))).

Definition isAggregatable (dt : DataType) : bool :=
  match dt with
  | DataTypeInteger | DataTypeFloat | DataTypeDecimal | DataTypeQuantity => true
  | _ => false
  end.

Definition errUnresolvedRollup : Error :=
  NewValidation "this rollup does not resolve: check the relationship, the direction and the target".

(** [refuse] *)
Definition refuseRollup (access : Access) (m : string) : result unit :=
  Err (if Admin access then NewValidation m else errUnresolvedRollup).

Definition direction_ok (direction : string) (isParent isChild : bool) : bool :=
  if bool_decide (direction = "child"%string) then isParent
  else if bool_decide (direction = "parent"%string) then isChild
  else isParent || isChild.

(** [assertRollupResolves]; [relDefs] is absent when no repository is wired.  A
    rollup whose specification is missing dereferences a nil pointer. *)
Definition assertRollupResolves (T : Tables) (relDefs : option (gmap ID RelDefinition))
    (rq : Request) (td : TypeDefinition) (comp : Computed) : result unit :=
  let access := rqAccess rq in
  match CompRollup comp with
  | None => Err panic
  | Some spec =>
      match relDefs with
      | None => if CanRead access (RollupTarget spec) then Ok tt else Err errUnresolvedRollup
      | Some defs =>
          match RelByInternalName defs (rqTenant rq) (RollupRelationship spec) with
          | None => refuseRollup access "rollup relationship does not exist"
          | Some def =>
              let isParent := bool_decide (ParentTypeID def = tdID td) in
              let isChild := bool_decide (ChildTypeID def = tdID td) in
              if negb (direction_ok (RollupDirection spec) isParent isChild) then
                refuseRollup access "the rollup does not start from this type"
              else
                match RollupAgg spec with
                | RollupCount => Ok tt
                | _ =>
                    let counterpart :=
                      if bool_decide (RollupDirection spec = "parent"%string) ||
                         (bool_decide (RollupDirection spec = "linked"%string) && isChild)
                      then ParentTypeID def else ChildTypeID def in
                    match AttrByInternalName T counterpart (RollupTarget spec) with
                    | None => refuseRollup access "rollup target does not exist on the type reached"
                    | Some target =>
                        if negb (CanRead access (RollupTarget spec)) then
                          refuseRollup access "rollup target does not exist on the type reached"
                        else if negb (isAggregatable (attrType target)) then
                          refuseRollup access "rollup target is not numeric, so it cannot be aggregated"
                        else Ok tt
                    end
                end
          end
      end
  end.

(** ** Inputs *)

(** [CreateInput]; [acFields] holds the plain fields, whose rules are replaced by
    the decoded ones. *)
Record AttrCreateInput := mkAttrCreate {
  acTypeDefinitionID : string;
  acInternalName : string;
  acDataType : DataType;
  acRules : result (Constraints * option Values.Default);
  acComputed : result (option Computed);
  acFields : UpdateInput }.

Record AttrUpdateInput := mkAttrUpdate {
  auID : string;
  auRules : result (Constraints * option Values.Default);
  auComputed : result (option Computed);
  auFields : UpdateInput;
  auVersion : option Z }.

Definition with_rules (u : UpdateInput) (cs : Constraints) (d : option Values.Default)
    (c : option Computed) : UpdateInput :=
  mkUpdateInput (inDisplayName u) (inDescription u) (inRequired u) (inMultiValued u) (inUnique u)
    (inLocalizable u) (inScopable u) (inUnitFamilyID u) (inDisplayUnit u) c cs d (inGroup u)
    (inSortOrder u) (inHelpText u).

(** [for] with an error: every element replaced. *)
Fixpoint eachMap {A B} (f : A -> result B) (l : list A) : result (list B) :=
  match l with
  | [] => Ok []
  | x :: l => let! y := f x in let! ys := eachMap f l in Ok (y :: ys)
  end.

Section Usecases.
Context `{GoStd} `{GoUlid} `{GoNumeric} `{GoKeys}.

Definition rebaseConstraint (f : Family) (c : Constraint) : result Constraint :=
  match c with
  | MinValue m => let! v := Rebase f m in Ok (MinValue v)
  | MaxValue m => let! v := Rebase f m in Ok (MaxValue v)
  | OneOf vs => let! vs := eachMap (Rebase f) vs in Ok (OneOf vs)
  | _ => Ok c
  end.

Definition has_operand (c : Constraint) : bool :=
  bool_decide (Kind c = KindMinValue) || bool_decide (Kind c = KindMaxValue) ||
  bool_decide (Kind c = KindOneOf).

(** [normalizeQuantityConstraints] *)
Definition normalizeQuantityConstraints (T : Tables) (rq : Request) (dt : DataType)
    (unitFamilyID : string) (cs : Constraints) (def : option Values.Default) :
    result (Constraints * option Values.Default) :=
  if negb (bool_decide (dt = DataTypeQuantity)) then Ok (cs, def)
  else if negb (isSome (def ≫= Static)) && negb (existsb has_operand cs) then Ok (cs, def)
  else
    match families T with
    | None => Err (NewValidation "unit families are not configured in this deployment")
    | Some fs =>
        guard! str_IsZero unitFamilyID
          else NewValidation "quantity attribute with value constraints requires a unit family" then
        match ParseID unitFamilyID with
        | Err e => Err (NewValidation (Message e))
        | Ok i =>
            let! f := FamilyGet fs (rqTenant rq) i in
            let! cs := eachMap (rebaseConstraint f) cs in
            match def with
            | Some d =>
                match Static d with
                | Some v => let! v := Rebase f v in Ok (cs, Some (mkDefault (Some v) (Dynamic d)))
                | None => Ok (cs, def)
                end
            | None => Ok (cs, def)
            end
        end
    end.

(** The checks of a formula about to be stored under [name]. *)
Definition checkFormulaSources (T : Tables) (rq : Request) (hierarchy : list TypeDefinition)
    (comp : Computed) (rs : list string) : result unit :=
  match parse_formula (CompFormula comp) with
  | Err e => Err (NewValidation (Message e))
  | Ok expr =>
      assertFormulaSourcesAreScalar T (rqAccess rq) hierarchy rs (ScalarRefs expr) (NumericRefs expr)
  end.

Definition is_formula (comp : option Computed) : option Computed :=
  match comp with
  | Some c => match CompKind c with ComputedFormula => Some c | _ => None end
  | None => None
  end.

Definition is_rollup (comp : option Computed) : option Computed :=
  match comp with
  | Some c => match CompKind c with ComputedRollup => Some c | _ => None end
  | None => None
  end.

(** [Save] of the attribute table. *)
Definition set_attrs (T : Tables) (as_ : gmap ID AttrDefinition) : Tables :=
  mkTables (types T) as_ (deps T) (vals T) (families T).

Definition AttrSave (T : Tables) (a : AttrDefinition) : result Tables :=
  guard! negb (IsArchived a) &&
      existsb (fun o => negb (bool_decide (id o = id a)) &&
        named (typeDefinitionID a) (internalName a) o) (values (attrs T))
    else NewConflict "an attribute with this internal name already exists on this type" then
  Ok (set_attrs T (<[id a := a]> (attrs T))).

(** The types a name must be unique over. *)
Definition wholeHierarchy (T : Tables) (td root : TypeDefinition) : result (list TypeDefinition) :=
  let! chain := Chain (types T) td in
  Ok (appendUnseenTypes chain (Descendants (types T) root)).

(** The loop over the hierarchy of [Create]. *)
Definition nameUnused (T : Tables) (td : TypeDefinition) (name : string)
    (hierarchy : list TypeDefinition) : result unit :=
  each (fun link =>
    match AttrByInternalName T (tdID link) name with
    | Some _ =>
        if bool_decide (tdID link = tdID td) then Err (NewConflict "internal name already in use")
        else Err (NewConflict "internal name is already declared elsewhere in the type hierarchy")
    | None => Ok tt
    end) hierarchy.

(** [Create] *)
Definition AttrCreate (relDefs : option (gmap ID RelDefinition)) (rq : Request)
    (i : AttrCreateInput) (fresh : ID) (T : Tables) : result (Tables * AttrDefinition * list Event) :=
  match ParseID (acTypeDefinitionID i), ParseDataType (acDataType i) with
  | Err e, _ | _, Err e => Err (NewValidation (Message e))
  | Ok typeID, Ok dt =>
      let! rules := acRules i in
      let! rules := normalizeQuantityConstraints T rq dt (inUnitFamilyID (acFields i)) rules.1 rules.2 in
      let! comp := acComputed i in
      let u := with_rules (acFields i) rules.1 rules.2 comp in
      let! td := TypeGet (types T) typeID in
      check! EnsureTenant (rqTenant rq) (tdTenantID td) TypeAggregate then
      guard! TypeIsArchived td else NewArchived TypeAggregate then
      let! root := Root (types T) td in
      let! hierarchy := wholeHierarchy T td root in
      check! match is_rollup comp with
             | Some c => assertRollupResolves T relDefs rq td c
             | None => Ok tt
             end then
      check! match is_formula comp with
             | Some c =>
                 let! rs := ComputedValidate c in
                 let! dps := computedDeps T hierarchy in
                 check! checkFormulaCycle (acInternalName i) rs dps then
                 checkFormulaSources T rq hierarchy c rs
             | None => Ok tt
             end then
      check! (if inMultiValued u || inLocalizable u || inScopable u then
                let! dps := computedRefs T hierarchy in
                refuseFormulaReaders (acInternalName i) dps (inMultiValued u)
                  (inLocalizable u || inScopable u)
              else Ok tt) then
      check! nameUnused T td (acInternalName i) hierarchy then
      guard! (MaxPerType <=? length (ListByTypeDefinition T typeID))%nat
        else NewValidation "type already declares the maximum number of attributes" then
      let! ae := New (mkNewInput (tdTenantID td) typeID (acInternalName i) dt u) fresh (rqNow rq) in
      let! T' := AttrSave T ae.1 in
      Ok (T', ae.1, ae.2)
  end.

(** [assertNoFormulaReadsScopedSource] *)
Definition assertNoFormulaReadsScopedSource (T : Tables) (before : AttrDefinition)
    (u : UpdateInput) : result unit :=
  let gainingMulti := negb (multiValued before) && inMultiValued u in
  let gainingScope := (negb (localizable before) && inLocalizable u) ||
                      (negb (scopable before) && inScopable u) in
  if negb (gainingMulti || gainingScope) then Ok tt
  else
    let! td := TypeGet (types T) (typeDefinitionID before) in
    let! chain := Chain (types T) td in
    let! dps := computedRefs T (appendUnseenTypes chain (Descendants (types T) td)) in
    refuseFormulaReaders (internalName before) dps gainingMulti gainingScope.

(** The formula branch of [Update]. *)
Definition checkUpdatedFormula (T : Tables) (rq : Request) (a : AttrDefinition) (c : Computed) :
    result unit :=
  let! rs := ComputedValidate c in
  let! td := TypeGet (types T) (typeDefinitionID a) in
  let! root := Root (types T) td in
  let! _ := TypeGet (types T) (tdID root) in
  let! chain := Chain (types T) td in
  let hierarchy := chain ++ Descendants (types T) td in
  let! dps := computedDeps T hierarchy in
  check! checkFormulaSources T rq hierarchy c rs then
  checkFormulaCycle (internalName a) rs dps.

(** [Update] *)
Definition AttrUpdate (relDefs : option (gmap ID RelDefinition)) (rq : Request)
    (i : AttrUpdateInput) (T : Tables) : result (Tables * AttrDefinition * list Event) :=
  match ParseID (auID i) with
  | Err e => Err (NewValidation (Message e))
  | Ok aid =>
      let! rules := auRules i in
      let! comp := auComputed i in
      let! a := AttrGet T aid in
      check! EnsureTenant (rqTenant rq) (tenantID a) AggregateType then
      guard! match auVersion i with Some v => negb (v =? version a) | None => false end
        else NewConflict "the attribute definition was modified by someone else; reload it and retry" then
      check! assertStructuralChangeIsSafe T a (auFields i) comp then
      check! assertNoFormulaReadsScopedSource T a (auFields i) then
      check! match is_rollup comp with
             | Some c =>
                 let! owner := TypeGet (types T) (typeDefinitionID a) in
                 assertRollupResolves T relDefs rq owner c
             | None => Ok tt
             end then
      check! match is_formula comp with
             | Some c => checkUpdatedFormula T rq a c
             | None => Ok tt
             end then
      let! rules := normalizeQuantityConstraints T rq (attrType a) (inUnitFamilyID (auFields i))
                      rules.1 rules.2 in
      let! ae := Update a (with_rules (auFields i) rules.1 rules.2 comp) (rqNow rq) in
      let! T' := AttrSave T ae.1 in
      Ok (T', ae.1, ae.2)
  end.

(** [assertNameFreeInHierarchy] *)
Definition assertNameFreeInHierarchy (T : Tables) (a : AttrDefinition) : result unit :=
  let! td := TypeGet (types T) (typeDefinitionID a) in
  let! root := Root (types T) td in
  let! hierarchy := wholeHierarchy T td root in
  each (fun link =>
    match AttrByInternalName T (tdID link) (internalName a) with
    | Some o =>
        if bool_decide (id o = id a) then Ok tt
        else Err (NewConflict "another live attribute in this hierarchy already uses this internal name")
    | None => Ok tt
    end) hierarchy.

(** [transition] for [Archive] and [Restore]. *)
Definition AttrTransition (archive : bool) (rq : Request) (raw : string) (T : Tables) :
    result (Tables * AttrDefinition * list Event) :=
  match ParseID raw with
  | Err e => Err (NewValidation (Message e))
  | Ok aid =>
      let! a := AttrGet T aid in
      check! EnsureTenant (rqTenant rq) (tenantID a) AggregateType then
      let! ae := (if archive then Archive a (rqNow rq)
                  else check! assertNameFreeInHierarchy T a then Restore a (rqNow rq)) in
      let! T' := AttrSave T ae.1 in
      Ok (T', ae.1, ae.2)
  end.

(** [ValidateValue], the dry run. *)
Definition AttrValidateValue (rq : Request) (raw value : string) (T : Tables) : result unit :=
  match ParseID raw with
  | Err e => Err (NewValidation (Message e))
  | Ok aid =>
      let! a := AttrGet T aid in
      check! EnsureTenant (rqTenant rq) (tenantID a) AggregateType then
      match ParseValue (attrType a) value with
      | Err e => Err (NewValidation (Message e))
      | Ok v => ValidateValue a v
      end
  end.
End Usecases.
