(* ===== verification/AttributeWriteFacts.v ===== *)
(** What the guards of the attribute usecases mean: the equality key groups equal
    values, the shape of the stored data reports what a structural change would
    break, and the search for formula cycles finds them all. *)

From Stdlib Require Import ZArith QArith Lia String Ascii List SpecFloat.
From stdpp Require Import base tactics list gmap fin_maps fin_sets strings option decidable pretty relations.
From S2P Require Import Prelude GoText Values Ids Formula Attribute Access TypeDef Units.
From S2P Require Import Dependency ValueWrite AttributeWrite.

Open Scope Z_scope.
Open Scope go_scope.

(** ** Equality keys *)

Section Keys.
Context `{GoStd} `{GoKeys}.

Lemma SFeqb_zero f : SFeqb f (S754_zero false) = true <-> exists s, f = S754_zero s.
Proof. split; [destruct f as [[]|[]| |[] m e]; try done; by eexists|by intros [[] ->]]. Qed.

(** Off zero and NaN the position on the number line determines the float. *)
Lemma float_key_eq f g :
  SFeqb f (S754_zero false) = false -> is_nan f = false -> is_nan g = false ->
  float_key f = float_key g -> f = g.
Proof.
  intros Hz Hf Hg E.
  destruct f as [[]|[]| |[] m e], g as [[]|[]| |[] m' e']; simpl in *; try done; simplify_eq; try done.
  f_equal; lia.
Qed.

Lemma zero_or_same f g :
  is_nan f = false -> is_nan g = false -> float_key f = float_key g ->
  (if SFeqb f (S754_zero false) then "0"%string else FormatHex f) =
  (if SFeqb g (S754_zero false) then "0"%string else FormatHex g).
Proof.
  intros Hf Hg E. destruct (SFeqb f (S754_zero false)) eqn:Ez.
  - apply SFeqb_zero in Ez as [s ->]. by destruct g as [[]|[]| |[] m e].
  - by rewrite <- (float_key_eq _ _ Ez Hf Hg E), Ez.
Qed.

(** Equal values have one key, whatever the renderings are. *)
Lemma Equal_key v w : Equal v w = true -> EqualityKey v = EqualityKey w.
Proof.
  rewrite Equal_content. intros [Hd Hs]. unfold EqualityKey. rewrite <- Hd. do 2 f_equal.
  unfold content_key, same_content in *. rewrite <- Hd.
  destruct (dataType v); try (by rewrite Hs).
  - destruct Hs as (Hv & Hw & E). by rewrite (zero_or_same _ _ Hv Hw E).
  - destruct Hs as (p & q & -> & -> & E). by rewrite (Qreduction.Qred_complete _ _ E).
  - unfold equalJSON in Hs. destruct (json_Canonical (rawJSON (jsonVal v))) eqn:E1,
      (json_Canonical (rawJSON (jsonVal w))) eqn:E2; simpl; apply bool_decide_eq_true in Hs; congruence.
  - destruct Hs as (Hv & Hw & E). by rewrite (zero_or_same _ _ Hv Hw E).
Qed.
End Keys.

(** ** The shape of stored data *)

Section Shape.
Context `{GoStd} `{GoKeys}.

(** What the scan knows after the rows. *)
Record scanned (rows : list AttributeValue) (s : Scan) : Prop := {
  sc_scope : forall r, r ∈ rows -> (1 <= default 0 (perScope s !! scope_key r))%nat;
  sc_many : manyEntities s = ∅ -> NoDup (scope_key <$> rows);
  sc_value : forall r, r ∈ rows -> avEntityID r ∈ default ∅ (perValue s !! value_key r);
  sc_live : liveCount s = length rows;
  sc_scoped : scopedCount s = 0%nat -> Forall (fun r => avScope r = mkScope "" "") rows }.

Lemma scan_row_ok rows s r : scanned rows s -> scanned (rows ++ [r]) (scan_row s r).
Proof.
  intros [S1 S2 S3 S4 S5]. unfold scan_row. cbv zeta.
  destruct (default 0%nat (perScope s !! scope_key r)) as [|n] eqn:En; split; simpl.
  1,6: intros x [Hx| ->%list_elem_of_singleton]%elem_of_app;
    [destruct (decide (scope_key x = scope_key r)) as [->|Hne];
      [rewrite lookup_insert_eq; simpl; lia|rewrite lookup_insert_ne by done; by apply S1]
    |rewrite lookup_insert_eq; simpl; lia].
  2,6: intros x [Hx| ->%list_elem_of_singleton]%elem_of_app;
    [destruct (decide (value_key x = value_key r)) as [E|Hne];
      [rewrite E, lookup_insert_eq; simpl; specialize (S3 x Hx); rewrite E in S3; set_solver
      |rewrite lookup_insert_ne by done; by apply S3]
    |rewrite lookup_insert_eq; simpl; set_solver].
  - intros Hm. rewrite fmap_app. apply list.NoDup_app. split_and!; [by apply S2| |apply NoDup_singleton].
    intros k (x & -> & Hx)%list_elem_of_fmap E%list_elem_of_singleton.
    specialize (S1 x Hx). rewrite E in S1. lia.
  - rewrite length_app. simpl. lia.
  - unfold str_IsZero. do 2 case_bool_decide; simpl; try done. intros Hz. apply Forall_app. split; [by apply S5|].
    constructor; [|done]. by destruct (avScope r) as [l c]; simpl in *; subst.
  - intros Hm. set_solver.
  - rewrite length_app. simpl. lia.
  - unfold str_IsZero. do 2 case_bool_decide; simpl; try done. intros Hz. apply Forall_app. split; [by apply S5|].
    constructor; [|done]. by destruct (avScope r) as [l c]; simpl in *; subst.
Qed.

Lemma scan_ok rows : scanned rows (scan rows).
Proof.
  induction rows as [|r rows IH] using rev_ind.
  - split; simpl; try done; [set_solver|intros _; apply NoDup_nil_2|set_solver].
  - unfold scan in *. rewrite fold_left_app. simpl. by apply scan_row_ok.
Qed.

Lemma count_duplicates_0 m k es a b :
  count_duplicates m = 0%nat -> m !! k = Some es -> a ∈ es -> b ∈ es -> a = b.
Proof.
  intros Hm Hk Ha Hb. unfold count_duplicates in Hm.
  assert (es ∈ values m) as Hin by (apply values_elem; by exists k).
  assert (size es <= 1)%nat as Hsz.
  { revert Hm Hin. generalize (values m). induction l as [|x l IH]; simpl; [set_solver|].
    destruct (1 <? size x)%nat eqn:E; [apply Nat.ltb_lt in E; lia|]. apply Nat.ltb_ge in E.
    intros Hm [->|Hin]%elem_of_cons; [done|]. by apply IH. }
  assert (size es = 1)%nat as H1.
  { destruct (decide (size es = 0)%nat) as [E|]; [|lia]. apply size_empty_inv in E. set_solver. }
  by apply (size_singleton_inv es).
Qed.

Lemma NoDup_fmap_inj {A B} (f : A -> B) l x y :
  NoDup (f <$> l) -> x ∈ l -> y ∈ l -> f x = f y -> x = y.
Proof.
  intros Hnd (i & Hi)%list_elem_of_lookup (j & Hj)%list_elem_of_lookup E.
  assert (i = j) as ->; [|congruence].
  eapply NoDup_lookup; [exact Hnd| |]; rewrite list_lookup_fmap; [by rewrite Hi|rewrite Hj; simpl; congruence].
Qed.

Lemma shape_rows T tenant a r i :
  vals T !! i = Some r -> live_of tenant a r = true ->
  r ∈ List.filter (live_of tenant a) (values (vals T)).
Proof. intros Hi Hl. apply elem_of_filter_b. split; [apply values_elem; by exists i|done]. Qed.

(** Nothing would be lost by holding one value per entity and scope. *)
Lemma shape_single T tenant a r s i j :
  EntitiesWithMany (AttributeDataShape T tenant a) = 0%nat ->
  vals T !! i = Some r -> vals T !! j = Some s ->
  live_of tenant a r = true -> live_of tenant a s = true ->
  avEntityID r = avEntityID s -> avScope r = avScope s -> r = s.
Proof.
  intros Hz Hi Hj Hr Hs E1 E2. simpl in Hz. apply size_empty_inv in Hz. apply leibniz_equiv in Hz.
  eapply (NoDup_fmap_inj scope_key); [by eapply sc_many, Hz; apply scan_ok| | |];
    [by eapply shape_rows|by eapply shape_rows|]. unfold scope_key. by rewrite E1, E2.
Qed.

Lemma shape_unique T tenant a r s i j :
  DuplicateValues (AttributeDataShape T tenant a) = 0%nat ->
  vals T !! i = Some r -> vals T !! j = Some s ->
  live_of tenant a r = true -> live_of tenant a s = true ->
  avScope r = avScope s -> Equal (avValue r) (avValue s) = true -> avEntityID r = avEntityID s.
Proof.
  intros Hz Hi Hj Hr Hs E1 E2. simpl in Hz.
  pose proof (scan_ok (List.filter (live_of tenant a) (values (vals T)))) as Hsc.
  pose proof (sc_value _ _ Hsc r (shape_rows _ _ _ _ _ Hi Hr)) as H1.
  pose proof (sc_value _ _ Hsc s (shape_rows _ _ _ _ _ Hj Hs)) as H2.
  assert (value_key r = value_key s) as E by (unfold value_key; by rewrite E1, (Equal_key _ _ E2)).
  rewrite E in H1. destruct (perValue _ !! value_key s) as [es|] eqn:Ek; [|by apply not_elem_of_empty in H1].
  by eapply count_duplicates_0.
Qed.

Lemma shape_scoped T tenant a r i :
  ScopedValues (AttributeDataShape T tenant a) = 0%nat ->
  vals T !! i = Some r -> live_of tenant a r = true -> avScope r = mkScope "" "".
Proof.
  intros Hz Hi Hr. simpl in Hz.
  pose proof (sc_scoped _ _ (scan_ok _) Hz) as Hf. rewrite Forall_forall in Hf.
  by eapply Hf, shape_rows.
Qed.

Lemma shape_live T tenant a r i :
  LiveValues (AttributeDataShape T tenant a) = 0%nat ->
  vals T !! i = Some r -> live_of tenant a r = false.
Proof.
  intros Hz Hi. simpl in Hz. rewrite (sc_live _ _ (scan_ok _)) in Hz.
  destruct (live_of tenant a r) eqn:Hr; [|done]. apply nil_length_inv in Hz.
  pose proof (shape_rows _ _ _ _ _ Hi Hr) as Hin. rewrite Hz in Hin. by apply not_elem_of_nil in Hin.
Qed.

(** What a structural change that was let through found in the data. *)
Record change_safe (T : Tables) (before : AttrDefinition) (u : UpdateInput) (comp : option Computed) : Prop := {
  cs_multi : multiValued before = true -> inMultiValued u = false ->
    EntitiesWithMany (AttributeDataShape T (tenantID before) (id before)) = 0%nat;
  cs_unique : unique before = false -> inUnique u = true ->
    DuplicateValues (AttributeDataShape T (tenantID before) (id before)) = 0%nat;
  cs_scope : localizable before = true /\ inLocalizable u = false \/
      scopable before = true /\ inScopable u = false ->
    ScopedValues (AttributeDataShape T (tenantID before) (id before)) = 0%nat;
  cs_family : unitFamilyID before <> EmptyString -> unitFamilyID before <> inUnitFamilyID u ->
    LiveValues (AttributeDataShape T (tenantID before) (id before)) = 0%nat;
  cs_computed : computed before = None -> comp <> None ->
    LiveValues (AttributeDataShape T (tenantID before) (id before)) = 0%nat }.

Lemma structural_safe T before u comp :
  assertStructuralChangeIsSafe T before u comp = Ok tt -> change_safe T before u comp.
Proof.
  unfold assertStructuralChangeIsSafe, str_IsZero. cbv zeta. intros Hs.
  assert (forall n, (0 <? n)%nat = false -> n = 0%nat) as Hz by (intros n E; apply Nat.ltb_ge in E; lia).
  split; revert Hs; generalize (AttributeDataShape T (tenantID before) (id before)); intros shape Hs.
  - intros E1 E2. rewrite E1, E2 in Hs. simpl in Hs. res_inv. by apply Hz.
  - intros E1 E2. rewrite E1, E2 in Hs. simpl in Hs. rewrite ?andb_false_r in Hs. simpl in Hs.
    res_inv. by apply Hz.
  - intros [[E1 E2]|[E1 E2]]; rewrite E1, E2 in Hs; simpl in Hs; rewrite ?andb_false_r, ?orb_true_r in Hs;
      simpl in Hs; res_inv; by apply Hz.
  - intros E1 E2. rewrite (bool_decide_false _ E1), (bool_decide_false _ E2) in Hs. simpl in Hs.
    rewrite ?andb_false_r in Hs. simpl in Hs. res_inv. by apply Hz.
  - intros E1 E2. rewrite E1 in Hs. destruct comp; [|done]. simpl in Hs.
    rewrite ?andb_false_r in Hs. simpl in Hs. res_inv. by apply Hz.
Qed.
End Shape.

(** ** The search for cycles *)

Section Cycle.
Variable graph : gmap string (list string).
Variable name : string.

(** The formula of [x] reads [y]. *)
Definition reads (x y : string) : Prop := y ∈ default [] (graph !! x).

Lemma loop_sound (visit : string -> gset string -> option (bool * gset string)) rs seen s :
  (forall x k k', visit x k = Some (true, k') -> tc reads x name) ->
  loopRefs visit name rs seen = Some (true, s) ->
  exists x, x ∈ rs /\ (x = name \/ tc reads x name).
Proof.
  intros Hv. revert seen. induction rs as [|x rs IH]; intros seen; simpl; [done|].
  case_bool_decide as E; [intros _; exists x; split; [by left|by left]|].
  assert (forall k, loopRefs visit name rs k = Some (true, s) ->
    exists y, y ∈ x :: rs /\ (y = name \/ tc reads y name)) as Hk.
  { intros k Hk. destruct (IH k Hk) as (y & Hy & Hr). exists y. split; [by right|done]. }
  case_bool_decide; [by apply Hk|].
  destruct (visit x _) as [[[] k]|] eqn:Ev; [|by apply Hk|done].
  intros _. exists x. split; [by left|]. right. by eapply Hv.
Qed.

Lemma visit_sound fuel cur seen s :
  visitRefs fuel graph name cur seen = Some (true, s) -> tc reads cur name.
Proof.
  revert cur seen s. induction fuel as [|fuel IH]; intros cur seen s; simpl; [done|].
  intros Hl. apply loop_sound in Hl as (x & Hx & [->|Hr]); [by apply tc_once| |by intros ? ? ?; apply IH].
  by eapply tc_l.
Qed.

(** A search that finds nothing has closed the set it returns. *)
Lemma loop_complete (visit : string -> gset string -> option (bool * gset string)) rs seen s :
  (forall x k k', visit x k = Some (false, k') -> k ⊆ k' /\
     forall z y, z = x \/ z ∈ k' /\ z ∉ k -> reads z y -> y <> name /\ y ∈ k') ->
  loopRefs visit name rs seen = Some (false, s) ->
  seen ⊆ s /\ (forall y, y ∈ rs -> y <> name /\ y ∈ s) /\
  forall z y, z ∈ s -> z ∉ seen -> reads z y -> y <> name /\ y ∈ s.
Proof.
  intros Hv. revert seen. induction rs as [|x rs IH]; intros seen; simpl.
  { intros [= ->]. split_and!; [done|set_solver|set_solver]. }
  case_bool_decide as E; [done|]. case_bool_decide as Hs.
  - intros Hl. destruct (IH seen Hl) as (I1 & I2 & I3). split_and!; [done| |done].
    intros y [->|Hy]%elem_of_cons; [split; [done|by apply I1]|by apply I2].
  - destruct (visit x _) as [[[] k]|] eqn:Ev; [done| |done]. intros Hl.
    destruct (IH k Hl) as (I1 & I2 & I3), (Hv _ _ _ Ev) as [V1 V2]. split_and!; [set_solver| |].
    + intros y [->|Hy]%elem_of_cons; [split; [done|set_solver]|by apply I2].
    + intros z y Hz Hzs Hr. destruct (decide (z ∈ k)) as [Hk|Hk]; [|by eapply I3].
      destruct (V2 z y) as [K1 K2]; [|done|split; [done|by apply I1]].
      destruct (decide (z = x)); [by left|right; set_solver].
Qed.

Lemma visit_complete fuel cur seen s :
  visitRefs fuel graph name cur seen = Some (false, s) -> seen ⊆ s /\
  forall z y, z = cur \/ z ∈ s /\ z ∉ seen -> reads z y -> y <> name /\ y ∈ s.
Proof.
  revert cur seen s. induction fuel as [|fuel IH]; intros cur seen s; simpl; [done|].
  intros Hl. destruct (loop_complete _ _ _ _ (fun x k k' => IH x k k') Hl) as (L1 & L2 & L3).
  split; [done|]. intros z y [->|[Hz Hn]] Hr; [by apply L2|by eapply L3].
Qed.

(** The names a formula mentions. *)
Definition mentioned : gset string := list_to_set (concat (values graph)).

Lemma reads_mentioned x y : reads x y -> y ∈ mentioned.
Proof.
  unfold reads, mentioned. destruct (graph !! x) as [l|] eqn:E; simpl; [|set_solver].
  intros Hy. apply elem_of_list_to_set. rewrite list_elem_of_In. apply in_concat. exists l.
  split; [|by apply list_elem_of_In]. apply list_elem_of_In, values_elem. by exists x.
Qed.

Lemma loop_total (visit : string -> gset string -> option (bool * gset string)) rs seen n :
  (forall x, x ∈ rs -> x ∈ mentioned) -> (size (mentioned ∖ seen) <= n)%nat ->
  (forall x k, x ∈ mentioned -> x ∈ k -> (size (mentioned ∖ k) < n)%nat ->
     exists b k', visit x k = Some (b, k') /\ k ⊆ k') ->
  exists b s, loopRefs visit name rs seen = Some (b, s) /\ seen ⊆ s.
Proof.
  intros Hm Hn Hv. revert seen Hn. induction rs as [|x rs IH]; intros seen Hn; simpl; [by eexists _, _|].
  case_bool_decide; [by eexists _, _|]. case_bool_decide as Hs; [apply IH; [set_solver|done]|].
  assert (x ∈ mentioned) as Hx by (apply Hm; by left).
  assert (size (mentioned ∖ ({[x]} ∪ seen)) < size (mentioned ∖ seen))%nat as Hlt
    by (apply subset_size; set_solver).
  destruct (Hv x ({[x]} ∪ seen)) as ([] & k & E & Hk); [done|set_solver|lia| |].
  - rewrite E. eexists _, _. split; [done|set_solver].
  - rewrite E. destruct (IH ltac:(set_solver) k) as (b & s & Es & Hss).
    { assert (size (mentioned ∖ k) <= size (mentioned ∖ seen))%nat; [|lia].
      apply subseteq_size. set_solver. }
    exists b, s. split; [done|set_solver].
Qed.

Lemma visit_total fuel cur seen :
  (size (mentioned ∖ seen) < fuel)%nat ->
  exists b s, visitRefs fuel graph name cur seen = Some (b, s) /\ seen ⊆ s.
Proof.
  revert cur seen. induction fuel as [|fuel IH]; intros cur seen Hf; [lia|]. simpl.
  apply (loop_total _ _ _ fuel); [intros x; apply reads_mentioned|lia|].
  intros x k _ _ Hk. by apply IH.
Qed.
End Cycle.

(** The graph the candidate formula is checked against. *)
Definition with_formula (name : string) (rs : list string) (deps : gmap string (list string)) :=
  <[name := rs]> deps.

(** The search from [cur] finds [name] exactly when a chain of formulas leads to it. *)
Lemma search_exact g name cur :
  exists b s, visitRefs (graph_fuel g) g name cur {[name]} = Some (b, s) /\
    (b = true <-> tc (reads g) cur name).
Proof.
  destruct (visit_total g name (graph_fuel g) cur {[name]}) as (b & s & E & Hs).
  { unfold graph_fuel. fold (mentioned g).
    apply Nat.lt_succ_r, subseteq_size. set_solver. }
  exists b, s. split; [done|]. destruct b.
  - split; [|done]. intros _. by eapply visit_sound.
  - split; [done|]. intros Hc. exfalso. apply visit_complete in E as [_ Hcl].
    assert (forall x y, x = cur \/ x <> name /\ x ∈ s -> reads g x y -> y <> name /\ y ∈ s) as Hstep.
    { intros x y [->|[Hne Hx]]; [by apply (Hcl cur); left|apply (Hcl x); right; set_solver]. }
    assert (forall x y, tc (reads g) x y -> x = cur \/ x <> name /\ x ∈ s -> y <> name /\ y ∈ s) as Hall.
    { induction 1 as [x y Hr|x y z Hr _ IH]; intros Hx; [by eapply Hstep|].
      apply IH. right. by eapply Hstep. }
    destruct (Hall cur name Hc) as [Hne _]; [by left|done].
Qed.

Lemma checkFormulaCycle_exact name rs deps :
  checkFormulaCycle name rs deps = Ok tt <-> ~ tc (reads (with_formula name rs deps)) name name.
Proof.
  unfold checkFormulaCycle, with_formula. set (g := <[name := rs]> deps).
  destruct (search_exact g name name) as (b & s & -> & Hb). destruct b; naive_solver.
Qed.

(** ** A rollup without its specification *)

Section Rollup.
Context `{GoStd} `{GoUlid} `{GoNumeric} `{GoKeys}.

(** A rollup sent without its specification crashes the request: once the
    type is found, [Create] reads the relationship's name through a nil pointer,
    although [Validate], which comes later, has an error for it. *)
Theorem rollup_without_spec_panics relDefs rq i fresh T ti td l c rules :
  ParseID (acTypeDefinitionID i) = Ok ti -> ParseDataType (acDataType i) = Ok (acDataType i) ->
  acDataType i <> DataTypeQuantity -> acRules i = Ok rules -> acComputed i = Ok (Some c) ->
  TypeGet (types T) ti = Ok td -> tdTenantID td = rqTenant rq -> TypeIsArchived td = false ->
  Ancestors (types T) td = Ok l ->
  CompKind c = ComputedRollup -> CompRollup c = None ->
  AttrCreate relDefs rq i fresh T = Err panic /\
  ComputedValidate c = Err (NewValidation "computed rollup spec is required").
Proof.
  intros E1 E2 E3 E4 E5 E6 E7 E8 E9 E10 E11. split; [|unfold ComputedValidate; by rewrite E10, E11].
  unfold AttrCreate. rewrite E1, E2, E4. simpl. unfold normalizeQuantityConstraints.
  rewrite (bool_decide_false _ E3). simpl. rewrite E5. simpl. rewrite E6. simpl.
  unfold EnsureTenant. rewrite bool_decide_true by done. simpl. rewrite E8.
  unfold Root, wholeHierarchy, Chain. rewrite E9. simpl. unfold is_rollup. rewrite E10.
  unfold assertRollupResolves. by rewrite E11.
Qed.
End Rollup.
