(* ===== verification/SchemaFacts.v ===== *)
(** The schema as a whole: types and attributes changed in any order by their
    usecases, while values and dependencies change freely.

    [schema_step] has a flag per kind of restoration, because the two invariants
    proved here - one attribute per name in a tree of live types, and no cycle of
    formulas in a schema - are exactly what restoring a type or an attribute can
    break; both defects are shown on runs from the empty schema. *)

From Stdlib Require Import ZArith QArith Lia String Ascii List SpecFloat.
From stdpp Require Import base tactics list gmap fin_maps fin_sets strings option decidable pretty relations.
From S2P Require Import Prelude GoText Values Ids Formula Attribute Access TypeDef TypeDefFacts.
From S2P Require Import Units Dependency ValueWrite AttributeWrite AttributeWriteFacts.

Open Scope Z_scope.
Open Scope go_scope.

Abbreviation live_types := (Forall (fun a => TypeIsArchived a = false)).

(** ** Schemas of live types *)

(** The types of the schema of type [i], from [i] up, none archived. *)
Definition live_chain (c : Catalogue) (i : ID) (ids : list ID) : Prop :=
  exists t l, c !! i = Some t /\ Ancestors c t = Ok l /\ live_types (t :: l) /\
    ids = tdID <$> t :: l.

Section Chains.
Variable c : Catalogue.
Hypothesis Hok : catalogue_ok c.

Local Lemma Hkey : keyed c.
Proof using Hok. apply (cok_keyed _ Hok). Qed.

(** A stretch of a chain is the chain of the type it starts from. *)
Lemma chain_suffix t l m u :
  c !! tdID t = Some t -> Ancestors c t = Ok l -> (t :: l) !! m = Some u ->
  c !! tdID u = Some u /\ Ancestors c u = Ok (drop (S m) (t :: l)).
Proof using Hok.
  intros Ht Hl Hm. destruct m as [|m]; simpl in Hm.
  { injection Hm as <-. done. }
  apply (Ancestors_exact _ _ _ Hkey) in Hl as (Hl & Hlen & Hnd).
  assert (c !! tdID u = Some u) as Hu.
  { eapply lineage_stored; [exact Hkey|exact Hl|]. by eapply list_elem_of_lookup_2. }
  split; [done|]. apply (Ancestors_exact _ _ _ Hkey). simpl.
  pose proof (lineage_drop _ _ _ _ _ Hl Hm) as Hu'. split_and!; [done|rewrite length_drop; lia|].
  eapply lineage_NoDup; [exact Hkey|exact Hu|exact Hu'].
Qed.

Lemma chain_id i t : c !! i = Some t -> tdID t = i.
Proof using Hok. intros Ht. by apply (Hkey i). Qed.

(** Every type of a live chain has a live chain to the same root. *)
Lemma live_suffix i ids j :
  live_chain c i ids -> j ∈ ids ->
  exists ids', live_chain c j ids' /\ list.last ids' = list.last ids /\ ids' ⊆ ids.
Proof using Hok.
  intros (t & l & Ht & Hl & Hlive & ->) (u & -> & [m Hm]%list_elem_of_lookup)%list_elem_of_fmap.
  rewrite <- (chain_id _ _ Ht) in Ht. destruct (chain_suffix t l m u Ht Hl Hm) as [Hu Hl'].
  assert (drop m (t :: l) = u :: drop (S m) (t :: l)) as E by by apply drop_S.
  exists (tdID <$> u :: drop (S m) (t :: l)). rewrite <- E. split_and!.
  - exists u, (drop (S m) (t :: l)). split_and!; [done|done| |by rewrite E].
    rewrite <- E. by apply Forall_drop.
  - rewrite <- (take_drop m (t :: l)) at 2. rewrite E, fmap_app, fmap_cons. by rewrite last_app_cons.
  - intros x (y & -> & Hy)%list_elem_of_fmap. apply list_elem_of_fmap. exists y. split; [done|].
    by eapply subseteq_drop.
Qed.

(** A live chain that reaches [td] lies in the chain of [td] and its descendants. *)
Lemma hierarchy_complete td l i ids j :
  c !! tdID td = Some td -> Ancestors c td = Ok l -> live_chain c i ids ->
  tdID td ∈ ids -> j ∈ ids -> j ∈ tdID <$> (td :: l) ++ Descendants c td.
Proof using Hok.
  intros Htd Hl (t & lt & Ht & Hlt & Hlive & ->) Hin Hj.
  rewrite <- (chain_id _ _ Ht) in Ht.
  apply list_elem_of_fmap in Hin as (td' & E & [k Hk]%list_elem_of_lookup),
    Hj as (u & -> & [m Hm]%list_elem_of_lookup).
  destruct (chain_suffix t lt k td' Ht Hlt Hk) as [Htd' Hl'], (chain_suffix t lt m u Ht Hlt Hm) as [Hu Hlu].
  assert (td' = td) as -> by congruence. rewrite Hl in Hl'. injection Hl' as El.
  apply list_elem_of_fmap. exists u. split; [done|]. apply elem_of_app.
  destruct (decide (k <= m)%nat) as [Hkm|Hkm].
  - left. assert (td :: l = drop k (t :: lt)) as -> by (rewrite (drop_S _ _ _ Hk), El; done).
    apply list_elem_of_lookup. exists (m - k)%nat. rewrite lookup_drop. rewrite <- Hm. f_equal. lia.
  - right. destruct (descendants_exact c td Hok Htd) as (_ & Hd & _).
    apply (Hd u _ Hu Hlu). exists (k - m - 1)%nat. split_and!.
    + rewrite lookup_drop. rewrite <- Hk. f_equal. lia.
    + by apply (Forall_lookup_1 _ _ _ _ Hlive Hm).
    + apply Forall_take, Forall_drop. done.
Qed.

(** What lies below a type with a live chain has one, to the same root. *)
Lemma descendant_live td ids u lu :
  live_chain c (tdID td) ids -> c !! tdID td = Some td ->
  u ∈ Descendants c td -> Ancestors c u = Ok lu ->
  exists ids', live_chain c (tdID u) ids' /\ list.last ids' = list.last ids.
Proof using Hok.
  intros (t & l & Ht & Hl & Hlive & ->) Htd Hin Hlu. assert (t = td) as -> by congruence.
  destruct (descendants_exact c td Hok Htd) as (_ & Hd & Hst). pose proof (Hst u Hin) as Hu.
  apply (Hd u lu Hu Hlu) in Hin as (k & Hk & Ha & Hf).
  destruct (chain_suffix u lu (S k) td Hu Hlu Hk) as [_ Hl']. rewrite Hl in Hl'. injection Hl' as El.
  assert (lu = take k lu ++ td :: l) as E.
  { rewrite <- (take_drop k lu) at 1. f_equal. rewrite (drop_S _ _ _ Hk). by rewrite El. }
  exists (tdID <$> u :: lu). split.
  - exists u, lu. split_and!; [done|done| |done]. constructor; [done|]. rewrite E. by apply Forall_app.
  - rewrite E, app_comm_cons, fmap_app, (fmap_cons tdID td l). by rewrite last_app_cons.
Qed.

Lemma Root_last td l root :
  Ancestors c td = Ok l -> Root c td = Ok root -> list.last (td :: l) = Some root.
Proof using.
  unfold Root. intros ->. simpl. intros [= <-]. rewrite last_cons. by destruct (list.last l).
Qed.

(** The root of a live chain, and what hangs from it. *)
Lemma root_live td l root :
  c !! tdID td = Some td -> Ancestors c td = Ok l -> Root c td = Ok root ->
  c !! tdID root = Some root /\ Ancestors c root = Ok [] /\ root ∈ td :: l.
Proof using Hok.
  intros Htd Hl Hr. pose proof (Root_last _ _ _ Hl Hr) as Hlast.
  assert ((td :: l) !! (length l) = Some root) as Hk.
  { rewrite <- Hlast, last_lookup. done. }
  destruct (chain_suffix td l _ root Htd Hl Hk) as [H1 H2]. split_and!; [done| |].
  - rewrite H2, drop_ge by (simpl; lia). done.
  - by eapply list_elem_of_lookup_2.
Qed.
End Chains.

(** ** Changes of types *)

(** Every row keeps its place; with no restoration, none comes back to life. *)
Definition keeps (restores : bool) (c c' : Catalogue) : Prop :=
  forall i t, c !! i = Some t ->
    exists t', c' !! i = Some t' /\ tdExtendsID t' = tdExtendsID t /\ tdTenantID t' = tdTenantID t /\
      (restores = false -> TypeIsArchived t' = false -> TypeIsArchived t = false).

Lemma keeps_refl r c : keeps r c c.
Proof. intros i t Ht. exists t. by split_and!. Qed.

Lemma keeps_insert r c t t' :
  keyed c -> c !! tdID t = Some t -> type_identity t' = type_identity t ->
  (r = false -> TypeIsArchived t' = false -> TypeIsArchived t = false) ->
  keeps r c (<[tdID t' := t']> c).
Proof.
  unfold type_identity. intros Hkey Ht Hid Hr i u Hu.
  destruct (decide (i = tdID t')) as [->|Hne].
  - exists t'. rewrite lookup_insert_eq. assert (u = t) as -> by congruence.
    split_and!; [done|congruence|congruence|done].
  - exists u. by rewrite lookup_insert_ne.
Qed.

Lemma keeps_fresh r c i t : c !! i = None -> keeps r c (<[i := t]> c).
Proof. intros Hi j u Hu. exists u. rewrite lookup_insert_ne by congruence. by split_and!. Qed.

Section Keeps.
Variables (c c' : Catalogue) (r : bool).
Hypothesis (Hok : catalogue_ok c) (Hok' : catalogue_ok c') (Hk : keeps r c c').

Lemma lineage_keeps t l t' :
  lineage c t l -> tdExtendsID t' = tdExtendsID t ->
  exists l', lineage c' t' l' /\ tdID <$> l' = tdID <$> l /\
    (r = false -> live_types l' -> live_types l).
Proof using Hk Hok Hok'.
  intros Hl. revert t'. induction Hl as [t Ht|t i p l Ht Hp Hl IH]; intros t' E.
  - exists []. split_and!; [constructor; congruence|done|done].
  - destruct (Hk i p Hp) as (p' & Hp' & Ep & _ & Ha). destruct (IH p' Ep) as (l' & Hl' & Ei & Hlive).
    exists (p' :: l'). split_and!.
    + econstructor; [by rewrite E|exact Hp'|done].
    + rewrite !fmap_cons, Ei. f_equal.
      rewrite (chain_id c Hok i p Hp). by apply (chain_id c' Hok').
    + intros Hr [H1 H2]%Forall_cons_iff. constructor; [by apply Ha|by apply Hlive].
Qed.

Lemma Ancestors_keeps i t t' l :
  c !! i = Some t -> c' !! i = Some t' -> Ancestors c t = Ok l ->
  exists l', Ancestors c' t' = Ok l' /\ tdID <$> l' = tdID <$> l.
Proof using Hk Hok Hok'.
  intros Ht Ht' Hl. destruct (Hk i t Ht) as (u & Hu & Ex & _). assert (u = t') as -> by congruence.
  apply (Ancestors_exact _ _ _ (cok_keyed _ Hok)) in Hl as (Hl & Hlen & Hnd).
  destruct (lineage_keeps t l t' Hl Ex) as (l' & Hl' & Ei & _). exists l'. split; [|done].
  apply (Ancestors_exact _ _ _ (cok_keyed _ Hok')). split_and!; [done| |].
  - apply (f_equal length) in Ei. rewrite !length_fmap in Ei. lia.
  - rewrite fmap_cons, Ei. rewrite (chain_id c' Hok' i t' Ht'), <- (chain_id c Hok i t Ht).
    by rewrite fmap_cons in Hnd.
Qed.

(** A live chain of a type that was there was live before. *)
Lemma live_chain_back i ids t :
  r = false -> c !! i = Some t -> live_chain c' i ids -> live_chain c i ids.
Proof using Hk Hok Hok'.
  intros Hr Ht (t' & l' & Ht' & Hl' & [Hlt Hll]%Forall_cons_iff & ->).
  destruct (Hk i t Ht) as (u & Hu & Ex & _ & Ha). assert (u = t') as -> by congruence.
  destruct (cok_lineage _ Hok t i Ht) as (l & Hl & _).
  apply (Ancestors_exact _ _ _ (cok_keyed _ Hok')) in Hl' as (Hl' & Hlen & Hnd).
  destruct (lineage_keeps t l t' Hl Ex) as (l2 & Hl2 & Ei & Hlive).
  assert (l2 = l') as -> by by eapply lineage_unique.
  assert (tdID t' = tdID t) as Et
    by (rewrite (chain_id c' Hok' i t' Ht'); symmetry; by apply (chain_id c Hok)).
  exists t, l. split_and!; [done| | |].
  - apply (Ancestors_exact _ _ _ (cok_keyed _ Hok)). split_and!; [done| |].
    + apply (f_equal length) in Ei. rewrite !length_fmap in Ei. lia.
    + rewrite fmap_cons, <- Ei, <- Et. by rewrite fmap_cons in Hnd.
  - constructor; [by apply Ha|by apply Hlive].
  - by rewrite !fmap_cons, Et, Ei.
Qed.

(** The live chain of a new type continues with one that was there. *)
Lemma live_chain_new i ids :
  r = false -> c !! i = None -> live_chain c' i ids ->
  (forall j t, c' !! j = Some t -> j <> i -> exists u, c !! j = Some u) ->
  ids = [i] \/ exists p ids', ids = i :: ids' /\ live_chain c p ids'.
Proof using Hk Hok Hok'.
  intros Hr Hi (t & l & Ht & Hl & Hlive & ->) Hold. rewrite fmap_cons, (chain_id c' Hok' i t Ht).
  destruct l as [|p l]; [by left|]. right.
  pose proof (chain_id c' Hok' i t Ht) as Ei. rewrite <- Ei in Ht.
  destruct (chain_suffix c' Hok' t (p :: l) 1 p Ht Hl eq_refl) as [Hp Hlp]. simpl in Hlp.
  exists (tdID p), (tdID <$> p :: l). split; [done|].
  assert (tdID p <> i) as Hne.
  { apply (Ancestors_exact _ _ _ (cok_keyed _ Hok')) in Hl as (_ & _ & Hnd).
    rewrite !fmap_cons, !list.NoDup_cons in Hnd. destruct Hnd as [Hx _]. intros E. apply Hx.
    rewrite Ei, E. by left. }
  destruct (Hold _ _ Hp Hne) as [u Hu]. eapply (live_chain_back _ _ u); [done|done|].
  exists p, l. rewrite drop_0 in Hlp. split_and!; [done|done| |done].
  by apply Forall_cons_iff in Hlive as [_ Hlive].
Qed.
End Keeps.

Section System.
Context `{GoStd} `{GoUlid} `{GoNumeric} `{GoKeys}.

(** The changes of the catalogue, with or without restorations. *)
Inductive type_step (restores : bool) (c c' : Catalogue) : Prop :=
  | ts_create tenant i fresh now t evs :
      c !! fresh = None -> TypeCreate tenant i fresh now c = Ok (c', t, evs) ->
      type_step restores c c'
  | ts_update tenant raw display description version now t evs :
      TypeUpdateCase tenant raw display description version now c = Ok (c', t, evs) ->
      type_step restores c c'
  | ts_archive tenant raw now t evs :
      TypeTransition TypeArchive tenant raw now c = Ok (c', t, evs) -> type_step restores c c'
  | ts_restore tenant raw now t evs :
      restores = true -> TypeTransition TypeRestore tenant raw now c = Ok (c', t, evs) ->
      type_step restores c c'
  | ts_attribute_set tenant name display fresh now t evs :
      c !! fresh = None -> NewAttributeSet tenant name display fresh now = Ok (t, evs) ->
      TypeSave c t = Ok c' -> type_step restores c c'.

Lemma type_step_cat r c c' : type_step r c c' -> cat_step c c'.
Proof. destruct 1; [by eapply cat_create|by eapply cat_update|by eapply cat_archive|by eapply cat_restore|by eapply cat_attribute_set]. Qed.

(** At most one row is new. *)
Definition grows_by_one (c c' : Catalogue) : Prop :=
  exists i, forall j t, c' !! j = Some t -> j <> i -> exists u, c !! j = Some u.

Lemma grows_insert c i t : grows_by_one c (<[i := t]> c).
Proof. exists i. intros j u Hu Hne. rewrite lookup_insert_ne in Hu by done. by eexists. Qed.

Lemma grows_same c : grows_by_one c c.
Proof. exists 0%N. intros j u Hu _. by eexists. Qed.

Lemma transition_keeps r change c tenant raw now c' t evs :
  keyed c ->
  (forall u u' es, change u now = Ok (u', es) -> type_identity u' = type_identity u /\
     (r = false -> TypeIsArchived u' = false -> TypeIsArchived u = false)) ->
  TypeTransition change tenant raw now c = Ok (c', t, evs) ->
  keeps r c c' /\ grows_by_one c c'.
Proof.
  intros Hkey Hc. unfold TypeTransition. destruct (ParseID raw) as [i|]; [|done]. intros Ht. res_inv.
  unfold TypeGet in *. destruct (c !! i) as [u|] eqn:Eu; [|done]. simplify_eq.
  match goal with E : change _ _ = Ok ?te |- _ => destruct te as [u' es]; apply Hc in E as [E1 E2] end.
  match goal with E : TypeSave _ _ = Ok _ |- _ => apply (save_names _ _ _ Hkey) in E as [-> _] end.
  pose proof (Hkey i _ Eu) as Ei. simpl in Ei.
  split; [|apply grows_insert]. eapply keeps_insert; [done| |done|done]. by rewrite Ei.
Qed.

Lemma type_step_keeps r c c' :
  catalogue_ok c -> type_step r c c' -> keeps r c c' /\ grows_by_one c c'.
Proof.
  intros Hok. pose proof (cok_keyed _ Hok) as Hkey.
  destruct 1 as [tenant i fresh now t evs Hf Hc|tenant raw display description version now t evs Hc
    |tenant raw now t evs Hc|tenant raw now t evs Hr Hc|tenant name display fresh now t evs Hf Hn Hs].
  - unfold TypeCreate in Hc. res_inv.
    match goal with E2 : TypeNew _ _ _ = Ok ?te, E3 : TypeSave _ _ = Ok _ |- _ =>
      destruct te as [u es]; apply TypeNew_spec in E2 as (K1 & _);
      apply (save_names _ _ _ Hkey) in E3 as [-> _] end.
    simpl in *. rewrite K1. split; [by apply keeps_fresh|apply grows_insert].
  - unfold TypeUpdateCase in Hc. destruct (ParseID raw) as [i|]; [|done]. res_inv.
    unfold TypeGet in *. destruct (c !! i) as [u|] eqn:Eu; [|done]. simplify_eq.
    case_bool_decide; [simplify_eq; split; [apply keeps_refl|apply grows_same]|]. res_inv.
    pose proof (Hkey i _ Eu) as Ei. simpl in Ei.
    match goal with E : TypeUpdate _ _ _ _ = Ok ?te |- _ => unfold TypeUpdate in E end. res_inv.
    match goal with E : TypeSave _ _ = Ok _ |- _ => apply (save_names _ _ _ Hkey) in E as [-> _] end.
    split; [|apply grows_insert].
    destruct (_ && _); simplify_eq; eapply keeps_insert; try done; by rewrite Ei.
  - eapply transition_keeps; [done| |exact Hc]. intros u u' es Ha.
    pose proof (archive_keeps _ _ _ _ Ha) as [E _]. split; [done|]. intros _.
    unfold TypeArchive in Ha. by res_inv.
  - eapply transition_keeps; [done| |exact Hc]. intros u u' es Ha.
    pose proof (restore_keeps _ _ _ _ Ha) as [E _]. split; [done|]. congruence.
  - unfold NewAttributeSet in Hn. res_inv.
    match goal with E : TypeNew _ _ _ = Ok ?te |- _ =>
      destruct te as [u es]; apply TypeNew_spec in E as (K1 & _) end.
    apply (save_names _ _ _ Hkey) in Hs as [-> _]. simpl in *. rewrite K1.
    split; [by apply keeps_fresh|apply grows_insert].
Qed.

(** ** Attributes of a hierarchy *)

Lemma ListByTypeDefinition_elem T i a :
  a ∈ ListByTypeDefinition T i <->
  (exists j, attrs T !! j = Some a) /\ typeDefinitionID a = i /\ IsArchived a = false.
Proof.
  unfold ListByTypeDefinition. rewrite sort_by_elem, elem_of_filter_b, values_elem.
  by rewrite andb_true_iff, bool_decide_eq_true, negb_true_iff.
Qed.

Lemma listAll_elem T links all a :
  listAll T links = Ok all ->
  a ∈ all <-> (exists j, attrs T !! j = Some a) /\ IsArchived a = false /\
    typeDefinitionID a ∈ tdID <$> links.
Proof.
  revert all. induction links as [|link links IH]; intros all Hl; simpl in Hl.
  { injection Hl as <-. set_solver. }
  res_inv. match goal with E : listAll _ links = Ok ?x |- _ => specialize (IH x E) end.
  rewrite elem_of_app, IH, fmap_cons, elem_of_cons.
  match goal with E : ListAllForType _ _ = Ok _ |- _ => unfold ListAllForType in E; res_inv end.
  rewrite ListByTypeDefinition_elem. naive_solver.
Qed.

Lemma AttrByInternalName_None T i name a j :
  AttrByInternalName T i name = None -> attrs T !! j = Some a -> IsArchived a = false ->
  typeDefinitionID a = i -> internalName a <> name.
Proof.
  unfold AttrByInternalName. intros Hh Ha Hl Ht En.
  apply head_None in Hh.
  assert (a ∈ List.filter (named i name) (values (attrs T))) as Hin; [|rewrite Hh in Hin; set_solver].
  apply elem_of_filter_b. split; [apply values_elem; by exists j|]. unfold named.
  by rewrite Ht, En, Hl, !bool_decide_true.
Qed.

Lemma AttrByInternalName_Some T i name a :
  AttrByInternalName T i name = Some a ->
  (exists j, attrs T !! j = Some a) /\ IsArchived a = false /\ typeDefinitionID a = i /\
  internalName a = name.
Proof.
  unfold AttrByInternalName. intros Hh. apply head_Some_elem_of in Hh.
  apply elem_of_filter_b in Hh as [Hv Hn]. apply values_elem in Hv. unfold named in Hn. by breflect.
Qed.

Lemma AttrSave_spec T a T' : AttrSave T a = Ok T' -> T' = set_attrs T (<[id a := a]> (attrs T)).
Proof. unfold AttrSave. intros Hs. by res_inv. Qed.

(** The formulas of a list of attributes, when a name means one of them. *)
Lemma computedDeps_exact T links dps :
  computedDeps T links = Ok dps ->
  (forall i j a b, attrs T !! i = Some a -> attrs T !! j = Some b ->
     IsArchived a = false -> IsArchived b = false ->
     typeDefinitionID a ∈ tdID <$> links -> typeDefinitionID b ∈ tdID <$> links ->
     internalName a = internalName b -> a = b) ->
  forall i a r, attrs T !! i = Some a -> IsArchived a = false ->
    typeDefinitionID a ∈ tdID <$> links -> formula_refs a = Some r ->
    dps !! internalName a = Some (allRefs r).
Proof.
  unfold computedDeps, computedRefs. intros Hd Hn i a r Ha Hl Ht Hr. res_inv.
  match goal with E : listAll _ _ = Ok ?x |- _ => rename x into all; rename E into Hall end.
  assert (a ∈ all) as Hin by (apply (listAll_elem _ _ _ _ Hall); split_and!; [by eexists|done|done]).
  assert (forall b, b ∈ all -> internalName b = internalName a -> b = a) as Huniq.
  { intros b [(j & Hj) [Hb Hbt]]%(listAll_elem _ _ _ _ Hall) E. by eapply (Hn j i). }
  clear Hall Hn. rewrite lookup_fmap. revert Hin Huniq. generalize (∅ : gmap string formulaRefs).
  induction all as [|b all IH] using rev_ind; intros m Hin Huniq; [by apply not_elem_of_nil in Hin|].
  rewrite fold_left_app. simpl.
  destruct (decide (internalName b = internalName a)) as [E|E].
  - assert (b = a) as -> by (apply Huniq; [apply elem_of_app; right; by left|done]).
    by rewrite Hr, lookup_insert_eq.
  - assert (a ∈ all) as Hin'.
    { apply elem_of_app in Hin as [|Hx]; [done|]. apply list_elem_of_singleton in Hx. congruence. }
    specialize (IH m Hin' ltac:(intros; apply Huniq; [apply elem_of_app; by left|done])).
    destruct (formula_refs b); [by rewrite lookup_insert_ne|done].
Qed.

(** ** The state of a schema *)

(** In the schema of the types [ids], the formula of [x] reads [y]. *)
Definition edge (T : Tables) (ids : list ID) (x y : string) : Prop :=
  exists i a r, attrs T !! i = Some a /\ IsArchived a = false /\ typeDefinitionID a ∈ ids /\
    formula_refs a = Some r /\ internalName a = x /\ y ∈ allRefs r.

Record schema_ok (T : Tables) : Prop := {
  so_types : catalogue_ok (types T);
  so_keyed : map_Forall (fun i a => id a = i) (attrs T);
  so_declared : forall i a, attrs T !! i = Some a ->
    exists t l, types T !! typeDefinitionID a = Some t /\ Ancestors (types T) t = Ok l /\
      tdTenantID t = tenantID a }.

(** One name, one attribute: over the live types of a tree. *)
Definition names_ok (T : Tables) : Prop :=
  forall i j a b ids ids', attrs T !! i = Some a -> attrs T !! j = Some b ->
    IsArchived a = false -> IsArchived b = false ->
    live_chain (types T) (typeDefinitionID a) ids -> live_chain (types T) (typeDefinitionID b) ids' ->
    list.last ids = list.last ids' -> internalName a = internalName b -> i = j.

(** No formula reads itself, through whatever formulas of its schema. *)
Definition acyclic_ok (T : Tables) : Prop :=
  forall i ids, live_chain (types T) i ids -> forall x, ~ tc (edge T ids) x x.

Definition set_types (T : Tables) (c : Catalogue) : Tables :=
  mkTables c (attrs T) (deps T) (vals T) (families T).

Definition put (T : Tables) (a : AttrDefinition) : Tables := set_attrs T (<[id a := a]> (attrs T)).

Lemma tc_mono {A} (R S : relation A) x y : (forall u v, R u v -> S u v) -> tc R x y -> tc S x y.
Proof. intros HRS. induction 1; [by apply tc_once, HRS|by eapply tc_l; [apply HRS|]]. Qed.

(** Replacing what leaves [n] creates a cycle only through [n]. *)
Lemma acyclic_change {A} `{EqDecision A} (R S : relation A) n :
  (forall x, ~ tc R x x) -> (forall x y, S x y -> x <> n -> R x y) -> ~ tc S n n ->
  forall x, ~ tc S x x.
Proof.
  intros HR HS Hn x Hx.
  assert (forall u v, tc S u v -> tc R u v \/ (rtc S u n /\ tc S n v)) as Hsplit.
  { induction 1 as [u v Huv|u w v Huw Hwv IH].
    - destruct (decide (u = n)) as [->|Hne]; [right; split; [done|by apply tc_once]|].
      left. by apply tc_once, HS.
    - destruct (decide (u = n)) as [->|Hne]; [right; split; [done|by eapply tc_l]|].
      destruct IH as [IH|[K1 K2]]; [left; eapply tc_l; [by apply HS|done]|].
      right. split; [by eapply rtc_l|done]. }
  destruct (Hsplit x x Hx) as [Hc|[K1 K2]]; [by eapply HR|]. apply Hn. by eapply tc_rtc_r.
Qed.

(** ** Types change *)

Lemma types_ok r T c :
  schema_ok T -> type_step r (types T) c -> schema_ok (set_types T c).
Proof.
  intros [S1 S2 S3] Hs. assert (catalogue_ok c) as Hc by (eapply cat_step_ok; [by eapply type_step_cat|done]).
  destruct (type_step_keeps _ _ _ S1 Hs) as [Hk _]. split; simpl; [done|done|].
  intros i a Ha. destruct (S3 i a Ha) as (t & l & Ht & Hl & Ht').
  destruct (Hk _ _ Ht) as (t2 & Ht2 & _ & E & _).
  destruct (Ancestors_keeps _ _ r S1 Hc Hk _ _ _ _ Ht Ht2 Hl) as (l2 & Hl2 & _).
  exists t2, l2. split_and!; [done|done|congruence].
Qed.

Lemma declared_live_back T c i ids a :
  schema_ok T -> type_step false (types T) c -> attrs T !! i = Some a ->
  live_chain c (typeDefinitionID a) ids -> live_chain (types T) (typeDefinitionID a) ids.
Proof.
  intros HT Hs Ha. destruct (so_declared _ HT i a Ha) as (t & l & Ht & _).
  destruct (type_step_keeps _ _ _ (so_types _ HT) Hs) as [Hk _].
  eapply live_chain_back; [exact (so_types _ HT)| |exact Hk|done|exact Ht].
  by eapply types_ok.
Qed.

Lemma types_names T c : schema_ok T -> names_ok T -> type_step false (types T) c -> names_ok (set_types T c).
Proof.
  intros HT Hn Hs i j a b ids ids' Ha Hb La Lb Ca Cb. simpl in *.
  apply (Hn i j a b ids ids' Ha Hb La Lb);
    [by eapply (declared_live_back T c i)|by eapply (declared_live_back T c j)].
Qed.

Lemma types_acyclic T c :
  schema_ok T -> acyclic_ok T -> type_step false (types T) c -> acyclic_ok (set_types T c).
Proof.
  intros HT Hn Hs i ids Hc x. simpl in Hc.
  pose proof (so_types _ HT) as Hok. pose proof (so_types _ (types_ok _ _ _ HT Hs)) as Hok'. simpl in Hok'.
  destruct (type_step_keeps _ _ _ Hok Hs) as [Hk [new Hg]].
  destruct (types T !! i) as [t|] eqn:Ei.
  - apply (live_chain_back _ _ false Hok Hok' Hk i ids t eq_refl Ei) in Hc. by apply (Hn i).
  - assert (forall j t, c !! j = Some t -> j <> i -> exists u, types T !! j = Some u) as Hold.
    { intros j t Ht Hne. destruct (decide (j = new)) as [->|Hj]; [|by eapply Hg].
      destruct Hc as (u & _ & Hu & _). destruct (decide (i = new)) as [->|Hi]; [done|].
      destruct (Hg i u Hu Hi) as [? ?]. congruence. }
    assert (forall a j, attrs T !! j = Some a -> typeDefinitionID a <> i) as Hnone.
    { intros a j Ha <-. destruct (so_declared _ HT j a Ha) as (? & ? & ? & _). congruence. }
    destruct (live_chain_new _ _ false Hok Hok' Hk i ids eq_refl Ei Hc Hold) as [->|(p & ids' & -> & Hp)].
    + intros Hx. assert (edge (set_types T c) [i] x x \/ exists y, edge (set_types T c) [i] x y) as [He|[y He]]
        by (inversion Hx; subst; eauto).
      * destruct He as (j & a & r & Ha & _ & Ht%list_elem_of_singleton & _). by eapply Hnone.
      * destruct He as (j & a & r & Ha & _ & Ht%list_elem_of_singleton & _). by eapply Hnone.
    + intros Hx. apply (Hn p ids' Hp x). eapply tc_mono; [|exact Hx].
      intros u v (j & a & r & Ha & Hl & [E|Ht]%elem_of_cons & Hr & Hu & Hv); [by eapply Hnone in E|].
      by exists j, a, r.
Qed.

(** ** Attributes change *)

Lemma put_lookup T a j b :
  attrs (put T a) !! j = Some b -> (j = id a /\ b = a) \/ (j <> id a /\ attrs T !! j = Some b).
Proof.
  simpl. intros [[-> ->]|[Hne Hb]]%lookup_insert_Some; [by left|by right].
Qed.

Lemma put_ok T a t l :
  schema_ok T -> types T !! typeDefinitionID a = Some t -> Ancestors (types T) t = Ok l ->
  tdTenantID t = tenantID a -> schema_ok (put T a).
Proof.
  intros [S1 S2 S3] Ht Hl Hten. split; simpl; [done|by apply map_Forall_insert_2|].
  intros j b [[-> ->]|[Hne Hb]]%put_lookup; [by exists t, l|by apply (S3 j)].
Qed.

(** The name of a live attribute is free among the others of its tree. *)
Definition name_free (T : Tables) (a : AttrDefinition) : Prop :=
  forall j b ids ids', attrs T !! j = Some b -> j <> id a -> IsArchived b = false ->
    live_chain (types T) (typeDefinitionID a) ids -> live_chain (types T) (typeDefinitionID b) ids' ->
    list.last ids = list.last ids' -> internalName b <> internalName a.

Lemma put_names T a :
  names_ok T -> (IsArchived a = false -> name_free T a) -> names_ok (put T a).
Proof.
  intros Hn Hf i j b b' ids ids' Hb Hb' Lb Lb' Cb Cb' El En.
  apply put_lookup in Hb as [[-> ->]|[Hi Hb]], Hb' as [[-> ->]|[Hj Hb']]; [done| | |by apply (Hn i j b b' ids ids')].
  - exfalso. by apply (Hf Lb j b' ids ids').
  - exfalso. by apply (Hf Lb' i b ids' ids).
Qed.

(** The formula of [a] was checked against the others of every schema it joins. *)
Definition formula_checked (T : Tables) (a : AttrDefinition) : Prop :=
  forall i ids r, live_chain (types T) i ids -> typeDefinitionID a ∈ ids ->
    formula_refs a = Some r ->
    exists dps, checkFormulaCycle (internalName a) (allRefs r) dps = Ok tt /\
      forall j b rb, attrs T !! j = Some b -> j <> id a -> IsArchived b = false ->
        typeDefinitionID b ∈ ids -> formula_refs b = Some rb ->
        internalName b <> internalName a /\ dps !! internalName b = Some (allRefs rb).

Lemma put_acyclic T a :
  acyclic_ok T -> (IsArchived a = false -> formula_checked T a) -> acyclic_ok (put T a).
Proof.
  intros Hn Hf i ids Hc. change (types (put T a)) with (types T) in Hc.
  destruct (decide (IsArchived a = false /\ typeDefinitionID a ∈ ids /\ is_Some (formula_refs a)))
    as [(Ha & Ht & [r Hr])|Hno].
  - destruct (Hf Ha i ids r Hc Ht Hr) as (dps & Hcy & Hd). apply checkFormulaCycle_exact in Hcy.
    assert (forall x y, edge (put T a) ids x y ->
      (x = internalName a /\ y ∈ allRefs r) \/
      (x <> internalName a /\ edge T ids x y /\ exists l, dps !! x = Some l /\ y ∈ l)) as Hsrc.
    { intros x y (j & b & rb & Hb & Lb & Htb & Hrb & <- & Hy).
      apply put_lookup in Hb as [[-> ->]|[Hj Hb]]; [left; split; [done|congruence]|]. right.
      destruct (Hd j b rb Hb Hj Lb Htb Hrb) as [D1 D2].
      split_and!; [done|by exists j, b, rb|by eexists]. }
    refine (acyclic_change (edge T ids) _ (internalName a) (Hn i ids Hc) _ _).
    + intros x y Hxy Hne. apply Hsrc in Hxy as [[-> _]|(_ & He & _)]; done.
    + intros Hx. apply Hcy. eapply tc_mono; [|exact Hx]. intros x y Hxy. unfold reads, with_formula.
      apply Hsrc in Hxy as [[-> Hy]|(Hne & _ & ls & El & Hy)].
      * by rewrite lookup_insert_eq.
      * by rewrite lookup_insert_ne, El by done.
  - intros x Hx. apply (Hn i ids Hc x). eapply tc_mono; [|exact Hx].
    intros u v (j & b & rb & Hb & Lb & Htb & Hrb & Hu & Hv).
    apply put_lookup in Hb as [[-> ->]|[Hj Hb]]; [|by exists j, b, rb].
    destruct Hno. split_and!; [done|done|by eexists].
Qed.

(** *** The hierarchies the usecases look at *)

Lemma unseen_ids seen more i :
  i ∈ seen \/ i ∈ tdID <$> unseenTypes seen more <-> i ∈ seen \/ i ∈ tdID <$> more.
Proof.
  revert seen. induction more as [|t more IH]; intros seen; [done|].
  cbn [unseenTypes]. rewrite fmap_cons, elem_of_cons. case_bool_decide as Ht.
  - rewrite IH. naive_solver.
  - specialize (IH (tdID t :: seen)). rewrite !elem_of_cons in IH. rewrite fmap_cons, elem_of_cons. clear -IH. tauto.
Qed.

Lemma appendUnseen_ids into more i :
  i ∈ tdID <$> appendUnseenTypes into more <-> i ∈ tdID <$> into ++ more.
Proof. unfold appendUnseenTypes. rewrite !fmap_app, !elem_of_app. apply unseen_ids. Qed.

Lemma appendUnseen_elem into more t : t ∈ appendUnseenTypes into more -> t ∈ into \/ t ∈ more.
Proof.
  unfold appendUnseenTypes. rewrite elem_of_app. intros [|Hin]; [by left|]. right.
  revert Hin. generalize (tdID <$> into). induction more as [|x more IH]; intros seen; simpl; [set_solver|].
  case_bool_decide; [intros Hin; right; by eapply IH|]. intros [->|Hin]%elem_of_cons; [by left|].
  right. by eapply IH.
Qed.

Section Hierarchy.
Variable T : Tables.
Hypothesis HT : schema_ok T.
Variables (td : TypeDefinition) (l : list TypeDefinition).
Hypothesis (Htd : types T !! tdID td = Some td) (Hl : Ancestors (types T) td = Ok l).

Let Hok : catalogue_ok (types T) := so_types T HT.

Lemma whole_covers root links i ids :
  Root (types T) td = Ok root -> wholeHierarchy T td root = Ok links ->
  live_chain (types T) i ids -> list.last ids = Some (tdID root) ->
  i ∈ tdID <$> links.
Proof using HT Htd Hl Hok.
  intros Hr Hw Hc Hlast. unfold wholeHierarchy, Chain in Hw. rewrite Hl in Hw. simpl in Hw.
  injection Hw as <-. apply appendUnseen_ids. rewrite fmap_app, elem_of_app.
  destruct (root_live _ Hok td l root Htd Hl Hr) as (R1 & R2 & R3).
  assert (tdID root ∈ ids) as Hin by by apply last_Some_elem_of.
  assert (i ∈ ids) as Hi.
  { destruct Hc as (t & lt & Ht & _ & _ & ->). rewrite fmap_cons, (chain_id _ Hok i t Ht). by left. }
  pose proof (hierarchy_complete _ Hok root [] i ids i R1 R2 Hc Hin Hi) as Hx.
  rewrite fmap_app, elem_of_app in Hx. destruct Hx as [->%list_elem_of_singleton|Hx]; [left|by right].
  apply list_elem_of_fmap. by exists root.
Qed.

(** Attributes of the hierarchy of a type with a live chain live in its tree. *)
Lemma links_live ids (links : list TypeDefinition) j b :
  live_chain (types T) (tdID td) ids ->
  (forall u, u ∈ links -> u ∈ td :: l \/ exists p, p ∈ td :: l /\ u ∈ Descendants (types T) p) ->
  attrs T !! j = Some b -> typeDefinitionID b ∈ tdID <$> links ->
  exists ids', live_chain (types T) (typeDefinitionID b) ids' /\ list.last ids' = list.last ids.
Proof using HT Htd Hl Hok.
  intros Hc Hlinks Hb (u & Eu & Hu)%list_elem_of_fmap.
  destruct (so_declared _ HT j b Hb) as (t & lt & Ht & Hlt & _).
  assert (forall p, p ∈ td :: l -> tdID p ∈ ids) as Hids.
  { intros p Hp. destruct Hc as (t' & l' & Ht' & Hl' & _ & ->). assert (t' = td) as -> by congruence.
    assert (l' = l) as -> by congruence. apply list_elem_of_fmap. by exists p. }
  destruct (Hlinks u Hu) as [Hin|(p & Hp & Hin)].
  - rewrite Eu. destruct (live_suffix _ Hok _ ids (tdID u) Hc) as (ids' & H1' & H2' & _); [by apply Hids|].
    by exists ids'.
  - destruct (live_suffix _ Hok _ ids (tdID p) Hc) as (idsp & P1 & P2 & _); [by apply Hids|].
    assert (types T !! tdID p = Some p) as Hps.
    { apply list_elem_of_lookup in Hp as [m Hm]. by destruct (chain_suffix _ Hok td l m p Htd Hl Hm). }
    destruct (descendants_exact _ p Hok Hps) as (_ & _ & Hst). pose proof (Hst u Hin) as Hus.
    assert (u = t) as -> by (rewrite Eu in Ht; congruence).
    destruct (descendant_live _ Hok p idsp t lt P1 Hps Hin Hlt) as (ids' & D1 & D2).
    exists ids'. split; [by rewrite Eu|congruence].
Qed.

(** What the dependencies computed over such a hierarchy say of its formulas. *)
Lemma links_deps ids (links : list TypeDefinition) dps :
  names_ok T -> live_chain (types T) (tdID td) ids ->
  (forall u, u ∈ links -> u ∈ td :: l \/ exists p, p ∈ td :: l /\ u ∈ Descendants (types T) p) ->
  computedDeps T links = Ok dps ->
  forall j b rb, attrs T !! j = Some b -> IsArchived b = false ->
    typeDefinitionID b ∈ tdID <$> links -> formula_refs b = Some rb ->
    dps !! internalName b = Some (allRefs rb).
Proof using HT Htd Hl Hok.
  intros Hn Hc Hlinks Hd. apply (computedDeps_exact T links dps Hd).
  intros i j a b Ha Hb La Lb Ta Tb E.
  destruct (links_live ids links i a Hc Hlinks Ha Ta) as (idsa & A1 & A2).
  destruct (links_live ids links j b Hc Hlinks Hb Tb) as (idsb & B1 & B2).
  assert (i = j) as ->; [|congruence].
  apply (Hn i j a b idsa idsb); congruence.
Qed.
End Hierarchy.

(** *** What a successful usecase has checked and done *)

Lemma formula_refs_spec a r :
  formula_refs a = Some r ->
  exists c, is_formula (computed a) = Some c /\ ComputedValidate c = Ok (allRefs r).
Proof.
  unfold formula_refs, is_formula. destruct (computed a) as [c|]; [|done].
  destruct (CompKind c); try done. destruct (ComputedValidate c) as [rs|] eqn:E; [|done].
  destruct (parse_formula _); [|done]. intros [= <-]. by exists c.
Qed.

Lemma Chain_ok c td l : Chain c td = Ok l -> exists k, Ancestors c td = Ok k /\ l = td :: k.
Proof. unfold Chain. intros Hc. res_inv. by eexists. Qed.

Lemma whole_links T td l root links u :
  schema_ok T -> types T !! tdID td = Some td ->
  Ancestors (types T) td = Ok l -> Root (types T) td = Ok root ->
  wholeHierarchy T td root = Ok links -> u ∈ links ->
  u ∈ td :: l \/ exists p, p ∈ td :: l /\ u ∈ Descendants (types T) p.
Proof.
  intros HT Htd Hl Hr Hw Hu. unfold wholeHierarchy, Chain in Hw. rewrite Hl in Hw. simpl in Hw.
  injection Hw as <-. apply appendUnseen_elem in Hu as [Hu|Hu]; [by left|]. right.
  exists root. split; [|done]. by destruct (root_live _ (so_types T HT) td l root Htd Hl Hr) as (_ & _ & ?).
Qed.

Lemma TypeGet_spec T i td : schema_ok T -> TypeGet (types T) i = Ok td -> tdID td = i /\ types T !! tdID td = Some td.
Proof.
  intros HT. unfold TypeGet. destruct (types T !! i) as [t|] eqn:E; [|done]. intros [= <-].
  pose proof (chain_id _ (so_types T HT) i t E) as <-. done.
Qed.

Lemma AttrGet_spec T i a : schema_ok T -> AttrGet T i = Ok a -> id a = i /\ attrs T !! id a = Some a.
Proof.
  intros HT. unfold AttrGet. destruct (attrs T !! i) as [t|] eqn:E; [|done]. intros [= <-].
  pose proof (so_keyed _ HT i t E) as Ei. simpl in Ei. by subst.
Qed.

(** Where a name is free: nowhere in the tree of the type is it taken. *)
Record placed (T : Tables) (a : AttrDefinition) (td : TypeDefinition) (l : list TypeDefinition)
    (root : TypeDefinition) (links : list TypeDefinition) : Prop := {
  pl_type : types T !! tdID td = Some td;
  pl_decl : typeDefinitionID a = tdID td;
  pl_anc : Ancestors (types T) td = Ok l;
  pl_root : Root (types T) td = Ok root;
  pl_links : wholeHierarchy T td root = Ok links;
  pl_free : forall j b, attrs T !! j = Some b -> j <> id a -> IsArchived b = false ->
    typeDefinitionID b ∈ tdID <$> links -> internalName b <> internalName a }.

Lemma create_spec relDefs rq i fresh T T' a evs :
  schema_ok T -> AttrCreate relDefs rq i fresh T = Ok (T', a, evs) ->
  exists td l root links, placed T a td l root links /\
    TypeIsArchived td = false /\ tenantID a = tdTenantID td /\ id a = fresh /\
    IsArchived a = false /\ T' = put T a /\
    (forall r, formula_refs a = Some r -> exists dps, computedDeps T links = Ok dps /\
       checkFormulaCycle (internalName a) (allRefs r) dps = Ok tt).
Proof.
  intros HT. unfold AttrCreate. destruct (ParseID _) as [ti|]; [|done].
  destruct (ParseDataType _) as [dt|] eqn:Edt; [|done]. intros Hc. res_inv.
  match goal with
  | E1 : TypeGet _ _ = Ok ?t, E2 : Root _ _ = Ok ?r, E3 : wholeHierarchy _ _ _ = Ok ?ls,
    E4 : New _ _ _ = Ok ?ae, E5 : AttrSave _ _ = Ok _, E6 : nameUnused _ _ _ _ = Ok _ |- _ =>
      rename t into td, r into root, ls into links; apply (TypeGet_spec _ _ _ HT) in E1 as [<- Htd];
      destruct ae as [b es]; apply AttrSave_spec in E5 as ->; rename E2 into Hroot, E3 into Hlinks,
      E4 into Hnew, E6 into Hname end.
  cbn [fst snd] in *. pose proof Hroot as (l & Hl & _)%res_bind_ok.
  destruct (cok_fields _ (so_types T HT) td _ Htd) as (_ & _ & Hten).
  unfold New in Hnew. cbv zeta in Hnew. unfold str_IsZero in Hnew. simpl in Hnew.
  rewrite (bool_decide_false _ Hten) in Hnew. res_inv.
  destruct (ParseDataType dt) as [dt'|]; [|done]. res_inv.
  exists td, l, root, links. split_and!; try done.
  - split; try done. simpl. intros j b Hb _ Hlive (u & Eu & Hu)%list_elem_of_fmap.
    apply each_ok in Hname. rewrite Forall_forall in Hname. specialize (Hname u Hu). simpl in Hname.
    destruct (AttrByInternalName T (tdID u) _) eqn:En; [by destruct (bool_decide _)|].
    exact (AttrByInternalName_None _ _ _ _ _ En Hb Hlive Eu).
  - intros r Hr. apply formula_refs_spec in Hr as (c & Hc & Hv). cbn in Hc.
    match goal with E : match is_formula _ with _ => _ end = Ok _ |- _ => rewrite Hc in E; res_inv end.
    match goal with E : ComputedValidate c = Ok ?rs |- _ => assert (rs = allRefs r) as -> by congruence end.
    by eexists.
Qed.

Lemma update_spec relDefs rq i T T' a evs :
  schema_ok T -> AttrUpdate relDefs rq i T = Ok (T', a, evs) ->
  exists a0 comp, attrs T !! id a = Some a0 /\ identity a = identity a0 /\
    IsArchived a0 = false /\ IsArchived a = false /\ T' = put T a /\
    assertStructuralChangeIsSafe T a0 (auFields i) comp = Ok tt /\ computed a = comp /\
    multiValued a = inMultiValued (auFields i) /\ unique a = inUnique (auFields i) /\
    localizable a = inLocalizable (auFields i) /\ scopable a = inScopable (auFields i) /\
    unitFamilyID a = inUnitFamilyID (auFields i) /\
    (forall r, formula_refs a = Some r -> exists td l dps,
       types T !! tdID td = Some td /\ tdID td = typeDefinitionID a /\ Ancestors (types T) td = Ok l /\
       computedDeps T ((td :: l) ++ Descendants (types T) td) = Ok dps /\
       checkFormulaCycle (internalName a) (allRefs r) dps = Ok tt).
Proof.
  intros HT. unfold AttrUpdate. destruct (ParseID _) as [ai|]; [|done]. intros Hc. res_inv.
  match goal with
  | E1 : AttrGet _ _ = Ok ?b, E4 : Update _ _ _ = Ok ?ae, E5 : AttrSave _ _ = Ok _ |- _ =>
      rename b into a0; apply (AttrGet_spec _ _ _ HT) in E1 as [<- Ha0];
      destruct ae as [b es]; apply AttrSave_spec in E5 as ->; rename E4 into Hup end.
  simpl in *. unfold Update in Hup. cbv zeta in Hup. res_inv.
  exists a0. eexists. simpl. split_and!; try done.
  intros r Hr. apply formula_refs_spec in Hr as (c & Hc & Hv). simpl in *.
  match goal with E : match is_formula _ with _ => _ end = Ok _ |- _ => rewrite Hc in E; rename E into Hf end.
  unfold checkUpdatedFormula in Hf. res_inv.
  match goal with
  | E : ComputedValidate c = Ok ?rs, E1 : TypeGet _ (typeDefinitionID a0) = Ok ?t,
    E2 : Chain _ _ = Ok ?ls |- _ =>
      assert (rs = allRefs r) as -> by congruence;
      apply (TypeGet_spec _ _ _ HT) in E1 as [Et Htd]; apply Chain_ok in E2 as (l & Hl & ->);
      by eexists t, l, _ end.
Qed.

Lemma transition_spec archive rq raw T T' a evs :
  schema_ok T -> AttrTransition archive rq raw T = Ok (T', a, evs) ->
  exists a0, attrs T !! id a = Some a0 /\ T' = put T a /\ IsArchived a = archive /\
    IsArchived a0 = negb archive /\ (exists at_, a = set_archived a0 at_ (rqNow rq)) /\
    (archive = false -> exists td l root links, placed T a td l root links).
Proof.
  intros HT. unfold AttrTransition. destruct (ParseID _) as [ai|]; [|done]. intros Hc. res_inv.
  match goal with
  | E1 : AttrGet _ _ = Ok ?b, E5 : AttrSave _ _ = Ok _ |- _ =>
      rename b into a0; apply (AttrGet_spec _ _ _ HT) in E1 as [<- Ha0];
      apply AttrSave_spec in E5 as -> end.
  match goal with E : _ = Ok ?ae |- _ =>
    lazymatch type of ae with (_ * _)%type => destruct ae as [b es] end end.
  exists a0. simpl. destruct archive.
  - match goal with E : Archive _ _ = Ok _ |- _ => apply Archive_shape in E as [E1 ->] end.
    unfold IsArchived. rewrite E1. split_and!; try done. by eexists.
  - res_inv. match goal with E : Restore _ _ = Ok _ |- _ => apply Restore_shape in E as [[t E1] ->] end.
    unfold IsArchived. rewrite E1. split_and!; try done; [by eexists|]. intros _.
    match goal with E : assertNameFreeInHierarchy _ _ = Ok _ |- _ =>
      unfold assertNameFreeInHierarchy in E; res_inv; rename E into Hname end.
    match goal with E1 : TypeGet _ _ = Ok ?t, E2 : Root _ _ = Ok ?r, E3 : wholeHierarchy _ _ _ = Ok ?ls |- _ =>
      apply (TypeGet_spec _ _ _ HT) in E1 as [Et Htd]; pose proof E2 as (l & Hl & _)%res_bind_ok;
      exists t, l, r, ls; split; try done end. simpl.
    intros j b Hb Hne Hlive (u & Eu & Hu)%list_elem_of_fmap.
    apply each_ok in Hname. rewrite Forall_forall in Hname. specialize (Hname u Hu). simpl in Hname.
    destruct (AttrByInternalName T (tdID u) _) as [o|] eqn:En; [|exact (AttrByInternalName_None _ _ _ _ _ En Hb Hlive Eu)].
    case_bool_decide as Eo; [|done]. apply AttrByInternalName_Some in En as ([k Hk] & Lo & _ & _).
    pose proof (so_keyed _ HT k o Hk) as Ek. simpl in Ek. subst k. rewrite Eo in Hk.
    assert (o = a0) as -> by congruence. unfold IsArchived in Lo. by rewrite E1 in Lo.
Qed.

(** ** Histories *)

(** One change of the tables; restorations of types and of attributes are
    allowed by [tr] and [ar].  Values, dependencies and unit families change as
    they like. *)
Inductive schema_step (tr ar : bool) (T T' : Tables) : Prop :=
  | ss_type c : type_step tr (types T) c -> T' = set_types T c -> schema_step tr ar T T'
  | ss_create relDefs rq i fresh a evs :
      attrs T !! fresh = None -> AttrCreate relDefs rq i fresh T = Ok (T', a, evs) ->
      schema_step tr ar T T'
  | ss_update relDefs rq i a evs :
      AttrUpdate relDefs rq i T = Ok (T', a, evs) -> schema_step tr ar T T'
  | ss_archive rq raw a evs :
      AttrTransition true rq raw T = Ok (T', a, evs) -> schema_step tr ar T T'
  | ss_restore rq raw a evs :
      ar = true -> AttrTransition false rq raw T = Ok (T', a, evs) -> schema_step tr ar T T'
  | ss_data : types T' = types T -> attrs T' = attrs T -> schema_step tr ar T T'.

Inductive schema_reachable (tr ar : bool) : Tables -> Prop :=
  | sr_empty T : types T = ∅ -> attrs T = ∅ -> schema_reachable tr ar T
  | sr_step T T' : schema_reachable tr ar T -> schema_step tr ar T T' -> schema_reachable tr ar T'.

Lemma identity_eq a b :
  identity a = identity b -> id a = id b /\ typeDefinitionID a = typeDefinitionID b /\
    internalName a = internalName b /\ tenantID a = tenantID b /\ attrType a = attrType b.
Proof. unfold identity. intros [=]. done. Qed.

(** A definition of the same identity as a stored one. *)
Lemma put_same_ok T a a0 :
  schema_ok T -> attrs T !! id a = Some a0 -> identity a = identity a0 -> schema_ok (put T a).
Proof.
  intros HT Ha0 (Ei & Et & _ & En & _)%identity_eq.
  destruct (so_declared _ HT _ a0 Ha0) as (t & l & Ht & Hl & Hten).
  eapply put_ok; [done|by rewrite Et|done|congruence].
Qed.

Lemma schema_step_ok tr ar T T' : schema_ok T -> schema_step tr ar T T' -> schema_ok T'.
Proof.
  intros HT. destruct 1 as [c Hs ->|relDefs rq i fresh a evs Hf Hc|relDefs rq i a evs Hc
    |rq raw a evs Hc|rq raw a evs _ Hc|Et Ea].
  - by eapply types_ok.
  - destruct (create_spec _ _ _ _ _ _ _ _ HT Hc) as (td & l & root & links & Hpl & _ & Hten & _ & _ & -> & _).
    eapply put_ok; [done|rewrite (pl_decl _ _ _ _ _ _ Hpl)|exact (pl_anc _ _ _ _ _ _ Hpl)|done].
    exact (pl_type _ _ _ _ _ _ Hpl).
  - destruct (update_spec _ _ _ _ _ _ _ HT Hc) as (a0 & comp & Ha0 & Hid & _ & _ & -> & _).
    by eapply put_same_ok.
  - destruct (transition_spec _ _ _ _ _ _ _ HT Hc) as (a0 & Ha0 & -> & _ & _ & (at_ & E) & _).
    eapply put_same_ok; [done|exact Ha0|by rewrite E].
  - destruct (transition_spec _ _ _ _ _ _ _ HT Hc) as (a0 & Ha0 & -> & _ & _ & (at_ & E) & _).
    eapply put_same_ok; [done|exact Ha0|by rewrite E].
  - destruct HT as [S1 S2 S3]. split; [by rewrite Et|by rewrite Ea|].
    rewrite Et, Ea. done.
Qed.

Lemma schema_reachable_ok tr ar T : schema_reachable tr ar T -> schema_ok T.
Proof.
  induction 1 as [T Et Ea|T T' _ IH Hs]; [|by eapply schema_step_ok].
  split; rewrite ?Et, ?Ea; [|by apply map_Forall_empty|intros i a Ha; by rewrite lookup_empty in Ha].
  apply cat_reachable_ok. constructor.
Qed.

Lemma last_fmap_ids (td : TypeDefinition) l root :
  list.last (td :: l) = Some root -> list.last (tdID <$> td :: l) = Some (tdID root).
Proof. intros Hl. by rewrite fmap_last, Hl. Qed.

Lemma live_last T td l root ids :
  types T !! tdID td = Some td -> Ancestors (types T) td = Ok l -> Root (types T) td = Ok root ->
  live_chain (types T) (tdID td) ids -> list.last ids = Some (tdID root).
Proof.
  intros Htd Hl Hr (t & k & Ht & Hk & _ & ->).
  assert (t = td) as -> by congruence. assert (k = l) as -> by congruence.
  eapply last_fmap_ids, Root_last; done.
Qed.

(** A name placed by the sweep is free in the tree. *)
Lemma placed_free T a td l root links :
  schema_ok T -> placed T a td l root links -> name_free T a.
Proof.
  intros HT [P1 P2 P3 P4 P5 P6] j b ids ids' Hb Hne Hlive Hc Hc' El. rewrite P2 in Hc.
  apply (P6 j b Hb Hne Hlive). eapply (whole_covers T HT td l P1 P3 root links _ ids' P4 P5 Hc').
  rewrite <- El. by eapply live_last.
Qed.

(** A live definition updated in place keeps its name free. *)
Lemma updated_free T a a0 :
  names_ok T -> attrs T !! id a = Some a0 -> identity a = identity a0 -> IsArchived a0 = false ->
  name_free T a.
Proof.
  intros Hn Ha0 (_ & Et & En & _)%identity_eq La0 j b ids ids' Hb Hne Lb Hc Hc' El E.
  apply Hne, (Hn j (id a) b a0 ids' ids); try done; [by rewrite <- Et|congruence].
Qed.

Lemma schema_step_names ar T T' :
  schema_ok T -> names_ok T -> schema_step false ar T T' -> names_ok T'.
Proof.
  intros HT Hn. destruct 1 as [c Hs ->|relDefs rq i fresh a evs Hf Hc|relDefs rq i a evs Hc
    |rq raw a evs Hc|rq raw a evs _ Hc|Et Ea].
  - by apply types_names.
  - destruct (create_spec _ _ _ _ _ _ _ _ HT Hc) as (td & l & root & links & Hpl & _ & _ & _ & _ & -> & _).
    apply put_names; [done|]. intros _. by eapply placed_free.
  - destruct (update_spec _ _ _ _ _ _ _ HT Hc) as (a0 & comp & Ha0 & Hid & La0 & _ & -> & _).
    apply put_names; [done|]. intros _. by eapply updated_free.
  - destruct (transition_spec _ _ _ _ _ _ _ HT Hc) as (a0 & _ & -> & La & _).
    apply put_names; [done|congruence].
  - destruct (transition_spec _ _ _ _ _ _ _ HT Hc) as (a0 & _ & -> & _ & _ & _ & Hpl).
    apply put_names; [done|]. intros _. destruct (Hpl eq_refl) as (td & l & root & links & Hp).
    by eapply placed_free.
  - unfold names_ok. by rewrite Et, Ea.
Qed.

(** The other attributes of a schema the type belongs to, by name. *)
Lemma checked_others T a td l links dps :
  schema_ok T -> names_ok T -> name_free T a ->
  types T !! tdID td = Some td -> typeDefinitionID a = tdID td -> Ancestors (types T) td = Ok l ->
  (forall u, u ∈ links -> u ∈ td :: l \/ exists p, p ∈ td :: l /\ u ∈ Descendants (types T) p) ->
  (forall i ids j, live_chain (types T) i ids -> tdID td ∈ ids -> j ∈ ids -> j ∈ tdID <$> links) ->
  computedDeps T links = Ok dps ->
  forall i ids, live_chain (types T) i ids -> typeDefinitionID a ∈ ids ->
    forall j b rb, attrs T !! j = Some b -> j <> id a -> IsArchived b = false ->
      typeDefinitionID b ∈ ids -> formula_refs b = Some rb ->
      internalName b <> internalName a /\ dps !! internalName b = Some (allRefs rb).
Proof.
  intros HT Hn Hfree Htd Ht Hl Hlinks Hcov Hd i ids Hc Hin j b rb Hb Hne Hlive Hbin Hrb.
  pose proof (so_types _ HT) as Hok.
  destruct (live_suffix _ Hok i ids _ Hc Hin) as (idsa & A1 & A2 & _).
  destruct (live_suffix _ Hok i ids _ Hc Hbin) as (idsb & B1 & B2 & _).
  split; [apply (Hfree j b idsa idsb); congruence|]. rewrite Ht in A1, Hin.
  eapply (links_deps T HT td l Htd Hl idsa links dps); try done. exact (Hcov i ids _ Hc Hin Hbin).
Qed.

Lemma schema_step_acyclic T T' :
  schema_ok T -> names_ok T -> acyclic_ok T -> schema_step false false T T' -> acyclic_ok T'.
Proof.
  intros HT Hn Hy. destruct 1 as [c Hs ->|relDefs rq i fresh a evs Hf Hc|relDefs rq i a evs Hc
    |rq raw a evs Hc|rq raw a evs Hno Hc|Et Ea]; [| | | |discriminate Hno|].
  - by apply types_acyclic.
  - destruct (create_spec _ _ _ _ _ _ _ _ HT Hc) as (td & l & root & links & Hpl & _ & _ & _ & _ & -> & Hfo).
    pose proof (placed_free _ _ _ _ _ _ HT Hpl) as Hfree. destruct Hpl as [P1 P2 P3 P4 P5 P6].
    apply put_acyclic; [done|]. intros _ j ids r Hids Hin Hr. destruct (Hfo r Hr) as (dps & Hd & Hcy).
    exists dps. split; [done|].
    apply (checked_others T a td l links dps) with (i := j); try done.
    + intros u. by eapply whole_links.
    + intros i' ids' k Hc' Htd' Hk.
      destruct (live_suffix _ (so_types _ HT) _ _ _ Hc' Htd') as (idsa & A1 & A2 & _).
      destruct (live_suffix _ (so_types _ HT) _ _ _ Hc' Hk) as (idsb & B1 & B2 & _).
      apply (whole_covers T HT td l P1 P3 root links k idsb P4 P5 B1).
      rewrite B2, <- A2. by eapply live_last.
  - destruct (update_spec _ _ _ _ _ _ _ HT Hc)
      as (a0 & comp & Ha0 & Hid & La0 & _ & -> & _ & _ & _ & _ & _ & _ & _ & Hfo).
    apply put_acyclic; [done|]. intros _ j ids r Hids Hin Hr.
    destruct (Hfo r Hr) as (td & l & dps & Htd & Et & Hl & Hd & Hcy). exists dps. split; [done|].
    apply (checked_others T a td l ((td :: l) ++ Descendants (types T) td) dps) with (i := j); try done.
    + by eapply updated_free.
    + intros u [Hu|Hu]%elem_of_app; [by left|right]. exists td. split; [by left|done].
    + intros i' ids' k Hc' Htd' Hk. by eapply (hierarchy_complete _ (so_types _ HT)).
  - destruct (transition_spec _ _ _ _ _ _ _ HT Hc) as (a0 & _ & -> & La & _).
    apply put_acyclic; [done|congruence].
  - unfold acyclic_ok, edge. by rewrite Et, Ea.
Qed.

Lemma schema_reachable_names ar T : schema_reachable false ar T -> names_ok T.
Proof.
  induction 1 as [T Et Ea|T T' Hr IH Hs].
  - intros i j a b ids ids' Ha. by rewrite Ea, lookup_empty in Ha.
  - eapply schema_step_names; [by eapply schema_reachable_ok|exact IH|exact Hs].
Qed.

(** C11: one name means one attribute across a tree of types: whatever types and
    attributes are created, edited and archived, in any order and by any caller,
    and whatever attributes are restored, two live attributes declared on types
    with the same root and no archived type above them never share their name -
    as long as no archived type is restored. *)
Theorem one_name_one_attribute ar T :
  schema_reachable false ar T ->
  forall i j a b ids ids', attrs T !! i = Some a -> attrs T !! j = Some b ->
    IsArchived a = false -> IsArchived b = false ->
    live_chain (types T) (typeDefinitionID a) ids -> live_chain (types T) (typeDefinitionID b) ids' ->
    list.last ids = list.last ids' -> internalName a = internalName b -> i = j.
Proof. intros Hr. exact (schema_reachable_names ar T Hr). Qed.

(** C12: formulas never read themselves: along any history of creations, updates
    and archivals of types and attributes, no chain of live formulas of a live
    type's schema leads from an attribute back to it - as long as nothing is
    restored.  An update is checked against the ancestors and descendants of its
    type only, and that is enough. *)
Theorem formulas_acyclic T :
  schema_reachable false false T ->
  forall i ids, live_chain (types T) i ids -> forall x, ~ tc (edge T ids) x x.
Proof.
  intros Hr. enough (acyclic_ok T) by done.
  induction Hr as [T Et Ea|T T' Hr IH Hs].
  - intros i ids _ x Hx.
    assert (exists y, edge T ids x y) as (y & j & a & r & Ha & _) by (inversion Hx; eauto).
    by rewrite Ea, lookup_empty in Ha.
  - eapply schema_step_acyclic; [by eapply schema_reachable_ok|by eapply schema_reachable_names|exact IH|exact Hs].
Qed.

(** The search for cycles is exact: a formula is refused exactly when, with it
    in place, its attribute reads itself through the formulas of the hierarchy;
    the search always ends. *)
Theorem formula_cycle_exact name rs dps :
  (checkFormulaCycle name rs dps = Ok tt <-> ~ tc (reads (<[name := rs]> dps)) name name) /\
  (checkFormulaCycle name rs dps <> Ok tt ->
     checkFormulaCycle name rs dps = Err (NewValidation "computed formula introduces a dependency cycle")).
Proof.
  split; [apply checkFormulaCycle_exact|].
  unfold checkFormulaCycle. set (g := <[name := rs]> dps).
  destruct (visit_total g name (graph_fuel g) name {[name]}) as ([] & s & -> & _); [|done|done].
  unfold graph_fuel. fold (mentioned g). apply Nat.lt_succ_r, subseteq_size. set_solver.
Qed.
End System.
