(* ===== verification/SchemaExample.v ===== *)
(** Runs of the schema from nothing: what restoring an attribute or a type lets
    in, and a tree that meets the invariants. *)

From Stdlib Require Import ZArith QArith Lia String Ascii List SpecFloat.
From stdpp Require Import base tactics list gmap fin_maps fin_sets strings option decidable pretty relations.
From S2P Require Import Prelude GoText Values Ids Formula Attribute Access TypeDef TypeDefFacts.
From S2P Require Import Units Dependency ValueWrite AttributeWrite AttributeWriteFacts.
From S2P Require Import SchemaFacts.

Open Scope Z_scope.
Open Scope go_scope.

Module SchemaRun.
#[export] Existing Instance Demo.std.
#[export] Existing Instance AccessExample.ulid.

(** Numerals without a fraction; factors all one. *)
#[export] Instance numeric : GoNumeric := {
  rat_SetString := fun s => option_map inject_Z (ParseInt s);
  FormatFloat := fun _ => "1"%string;
  rat_Float64 := fun q => float_of_Z (Qnum q / Zpos (Qden q))
}.

#[export] Instance keys : GoKeys := {
  RatString := fun q => pretty (encode (Qnum q, Qden q));
  FormatHex := fun f => String "x" (pretty (encode (float_key f)));
  FormatNano := fun n => pretty n;
  payload_text := fun p => match p with RawPayload raw => raw | _ => EmptyString end
}.

(** An administrator of the default tenant. *)
Definition admin : Request :=
  mkRequest (mkContext None None (Some SystemAccess)) false ∅
    Demo.epoch 100 None.

Definition fields (display : string) (multi uniq : bool) : UpdateInput :=
  mkUpdateInput display EmptyString false multi uniq false false EmptyString EmptyString None [] None
    EmptyString 0 EmptyString.

Definition formula (src : string) : Computed := mkComputed ComputedFormula src None.

Definition attribute (type_id name : string) (dt : DataType) (comp : option Computed) : AttrCreateInput :=
  mkAttrCreate type_id name dt (Ok ([], None)) (Ok comp) (fields name false false).

(** The tables after a usecase, unchanged if it failed. *)
Definition after {A B} (r : result (Tables * A * B)) (T : Tables) : Tables :=
  match r with Ok (T', _, _) => T' | Err _ => T end.

Definition add_type (name parent : string) (fresh : ID) (T : Tables) : Tables :=
  match TypeCreate "default" (mkCreateInput name name EmptyString parent) fresh 100 (types T) with
  | Ok (c, _, _) => set_types T c
  | Err _ => T
  end.

Definition move_type (change : TypeDefinition -> Z -> result (TypeDefinition * list TypeEvent))
    (raw : string) (T : Tables) : Tables :=
  match TypeTransition change "default" raw 100 (types T) with
  | Ok (c, _, _) => set_types T c
  | Err _ => T
  end.

Definition add (i : AttrCreateInput) (fresh : ID) (T : Tables) : Tables :=
  after (AttrCreate None admin i fresh T) T.

Definition move (archive : bool) (raw : string) (T : Tables) : Tables :=
  after (AttrTransition archive admin raw T) T.

Definition nothing : Tables := mkTables ∅ ∅ ∅ ∅ None.

Section Reach.
Variables (tr ar : bool) (T : Tables).
Hypothesis HT : schema_reachable tr ar T.

Lemma add_type_reachable name parent fresh :
  types T !! fresh = None -> schema_reachable tr ar (add_type name parent fresh T).
Proof using HT.
  intros Hf. unfold add_type. destruct (TypeCreate _ _ _ _ _) as [[[c t] evs]|] eqn:E; [|done].
  eapply sr_step; [exact HT|]. eapply ss_type; [|done]. by eapply ts_create.
Qed.

Lemma archive_type_reachable raw : schema_reachable tr ar (move_type TypeArchive raw T).
Proof using HT.
  unfold move_type. destruct (TypeTransition _ _ _ _ _) as [[[c t] evs]|] eqn:E; [|done].
  eapply sr_step; [exact HT|]. eapply ss_type; [|done]. by eapply ts_archive.
Qed.

Lemma restore_type_reachable raw :
  tr = true -> schema_reachable tr ar (move_type TypeRestore raw T).
Proof using HT.
  intros Htr. unfold move_type. destruct (TypeTransition _ _ _ _ _) as [[[c t] evs]|] eqn:E; [|done].
  eapply sr_step; [exact HT|]. eapply ss_type; [|done]. by eapply ts_restore.
Qed.

Lemma add_reachable i fresh : attrs T !! fresh = None -> schema_reachable tr ar (add i fresh T).
Proof using HT.
  intros Hf. unfold add, after. destruct (AttrCreate _ _ _ _ _) as [[[T' a] evs]|] eqn:E; [|done].
  eapply sr_step; [exact HT|]. by eapply ss_create.
Qed.

Lemma archive_reachable raw : schema_reachable tr ar (move true raw T).
Proof using HT.
  unfold move, after. destruct (AttrTransition _ _ _ _) as [[[T' a] evs]|] eqn:E; [|done].
  eapply sr_step; [exact HT|]. by eapply ss_archive.
Qed.

Lemma restore_reachable raw : ar = true -> schema_reachable tr ar (move false raw T).
Proof using HT.
  intros Har. unfold move, after. destruct (AttrTransition _ _ _ _) as [[[T' a] evs]|] eqn:E; [|done].
  eapply sr_step; [exact HT|]. by eapply ss_restore.
Qed.
End Reach.

Lemma nothing_reachable tr ar : schema_reachable tr ar nothing.
Proof. by apply sr_empty. Qed.

(** A formula archived, its reader's formula written the other way, restored. *)
Definition product : Tables := add_type "product" EmptyString 1 nothing.

Definition cost_first : Tables :=
  move true "1" (add (attribute "1" "cost" DataTypeDecimal (Some (formula "price + 1"))) 1 product).

Definition price_second : Tables :=
  add (attribute "1" "price" DataTypeDecimal (Some (formula "cost * 2"))) 2 cost_first.

Definition revived : Tables := move false "1" price_second.

(** A subtype archived, the name of its attribute given to the parent type. *)
Definition book : Tables :=
  add (attribute "2" "title" DataTypeString None) 1 (add_type "book" "1" 2 product).

Definition renamed : Tables :=
  add (attribute "1" "title" DataTypeString None) 2 (move_type TypeArchive "2" book).

Definition shadowed : Tables := move_type TypeRestore "2" renamed.

(** A formula over an inherited attribute. *)
Definition sound : Tables :=
  add (attribute "2" "total" DataTypeDecimal (Some (formula "weight * 3"))) 2
    (add (attribute "1" "weight" DataTypeDecimal None) 1 (add_type "book" "1" 2 product)).

Lemma sound_reachable ar : schema_reachable false ar sound.
Proof.
  unfold sound, product. apply add_reachable; [|vm_compute; reflexivity].
  apply add_reachable; [|vm_compute; reflexivity].
  do 2 (apply add_type_reachable; [|vm_compute; reflexivity]). apply nothing_reachable.
Qed.

Definition weight : AttrDefinition := default AccessExample.salary (attrs sound !! 1%N).
Definition total : AttrDefinition := default AccessExample.salary (attrs sound !! 2%N).

Lemma sound_chains :
  live_chain (types sound) (typeDefinitionID weight) [1%N] /\
  live_chain (types sound) (typeDefinitionID total) [2%N; 1%N].
Proof.
  split; eexists _, _;
    (split_and!; [vm_compute; reflexivity|vm_compute; reflexivity|by repeat constructor|done]).
Qed.
End SchemaRun.

Import SchemaRun.

(** Restoring an attribute does not check its formula: write [cost] as
    [price + 1], archive it, write [price] as [cost * 2], restore [cost] - every
    step succeeds, and the schema's two formulas read each other. *)
Theorem restore_revives_cycle :
  schema_reachable false true revived /\
  live_chain (types revived) 1 [1%N] /\
  tc (edge revived [1%N]) "cost" "cost" /\
  is_ok (AttrTransition false admin "1" price_second) = true.
Proof.
  split_and!.
  - unfold revived, price_second, cost_first, product. apply restore_reachable; [|done].
    apply add_reachable; [|vm_compute; reflexivity]. apply archive_reachable.
    apply add_reachable; [|vm_compute; reflexivity].
    apply add_type_reachable; [apply nothing_reachable|vm_compute; reflexivity].
  - eexists _, _. split_and!; [vm_compute; reflexivity|vm_compute; reflexivity|by repeat constructor|done].
  - eapply (tc_l _ _ "price"%string); [|apply tc_once].
    + eexists 1%N, _, _. split_and!; [vm_compute; reflexivity|done|by left|vm_compute; reflexivity|done|by left].
    + eexists 2%N, _, _. split_and!; [vm_compute; reflexivity|done|by left|vm_compute; reflexivity|done|by left].
  - vm_compute. reflexivity.
Qed.

(** Restoring a type does not check its attributes' names: archive [book],
    declare its [title] again on its parent [product], restore [book] - every
    step succeeds, and the schema of [book] holds two live attributes of one
    name. *)
Theorem type_restore_shadows :
  schema_reachable true false shadowed /\
  live_chain (types shadowed) 2 [2%N; 1%N] /\
  (exists a b, attrs shadowed !! 1%N = Some a /\ attrs shadowed !! 2%N = Some b /\
     IsArchived a = false /\ IsArchived b = false /\ typeDefinitionID a = 2%N /\
     typeDefinitionID b = 1%N /\ internalName a = internalName b) /\
  is_ok (TypeTransition TypeRestore "default" "2" 100 (types renamed)) = true.
Proof.
  split_and!.
  - unfold shadowed, renamed, book, product. apply restore_type_reachable; [|done].
    apply add_reachable; [|vm_compute; reflexivity]. apply archive_type_reachable.
    apply add_reachable; [|vm_compute; reflexivity].
    do 2 (apply add_type_reachable; [|vm_compute; reflexivity]). apply nothing_reachable.
  - eexists _, _. split_and!; [vm_compute; reflexivity|vm_compute; reflexivity|by repeat constructor|done].
  - eexists _, _. split_and!; [vm_compute; reflexivity|vm_compute; reflexivity|done..].
  - vm_compute. reflexivity.
Qed.

Lemma one_name_one_attribute_witness :
  exists a b, attrs sound !! 1%N = Some a /\ attrs sound !! 2%N = Some b /\
    live_chain (types sound) (typeDefinitionID a) [1%N] /\
    live_chain (types sound) (typeDefinitionID b) [2%N; 1%N] /\ internalName a <> internalName b.
Proof.
  exists weight, total. split; [vm_compute; reflexivity|]. split; [vm_compute; reflexivity|].
  destruct sound_chains as [H1 H2]. split; [exact H1|]. split; [exact H2|]. intros Hn.
  assert (1%N = 2%N) as [=].
  refine (one_name_one_attribute false sound (sound_reachable false) 1%N 2%N weight total [1%N] [2%N; 1%N]
    _ _ _ _ H1 H2 _ Hn); vm_compute; reflexivity.
Defined.

Lemma formulas_acyclic_witness :
  edge sound [2%N; 1%N] "total" "weight" /\ ~ tc (edge sound [2%N; 1%N]) "total" "total".
Proof.
  split.
  - eexists 2%N, _, _. split_and!; [vm_compute; reflexivity|done|by left|vm_compute; reflexivity|done|by left].
  - refine (formulas_acyclic sound (sound_reachable false) 2%N [2%N; 1%N] _ _).
    eexists _, _. split_and!; [vm_compute; reflexivity|vm_compute; reflexivity|by repeat constructor|done].
Defined.
