(* ===== verification/Computed.v ===== *)
(** Materialized computed attributes ([application/computed/materializer.go],
    [rollup.go]): conversions, rollups, one recompute, and the events that drive it.

    The materializer works through the interactors of the application
    ([application.Interactors]); they are the class [Interactors], with the
    in-memory stack as its instance [memory].  A write that emits an event
    dispatches it before the call returns, so a recompute runs inside another;
    [Recompute] has fuel for the depth of this nesting, and [None] is a recursion
    deeper than the fuel. *)

From Stdlib Require Import ZArith QArith Lia String Ascii List SpecFloat.
From stdpp Require Import base tactics list gmap fin_maps fin_sets strings option decidable pretty.
From S2P Require Import Prelude GoText Values Ids Formula Attribute Access TypeDef Relationship Units Dependency.
From S2P Require Import ValueWrite AttributeWrite.

Open Scope Z_scope.
Open Scope go_scope.

(** [json.Marshal] of a finite [float64]. *)
Class GoJsonFloat := { json_Float : spec_float -> string }.

#[export] Instance spec_float_eq_dec : EqDecision spec_float.
Proof. solve_decision. Defined.
#[export] Instance Value_eq_dec : EqDecision Value.
Proof. solve_decision. Defined.

(** ** Numbers *)

(** [Rat.SetFloat64] *)
Definition rat_of_float (f : spec_float) : option Q :=
  match f with
  | S754_zero _ => Some 0%Q
  | S754_finite s m e =>
      let z := if s then Zneg m else Zpos m in
      Some (if 0 <=? e then inject_Z (z * 2 ^ e) else (z # Z.to_pos (2 ^ (- e)))%Q)
  | _ => None
  end.

Definition toRat (v : Value) : option Q :=
  match dataType v with
  | DataTypeBool => Some (if boolVal v then 1%Q else 0%Q)
  | DataTypeInteger => Some (inject_Z (intVal v))
  | DataTypeDecimal => rat_of_decimal (textVal v)
  | DataTypeFloat | DataTypeQuantity => rat_of_float (floatVal v)
  | _ => None
  end.

Definition maxDecimalScale : nat := 20.

(** Text of a string literal in JSON; the texts here need no escape. *)
Definition quoted (s : string) : string :=
  String "034" (String.append s (String "034" EmptyString)).

Definition digit_of (d : Z) : ascii := ascii_of_nat (48 + Z.to_nat d).

(** Decimal digits of [n], the last [k] of them. *)
Fixpoint fixed_digits (k : nat) (n : Z) : string :=
  match k with
  | O => EmptyString
  | S k => String.append (fixed_digits k (n / 10)) (String (digit_of (n mod 10)) EmptyString)
  end.

(** [Rat.FloatString]: the last digit is rounded to nearest, halves away from zero. *)
Definition FloatString (prec : nat) (r : Q) : string :=
  let scale := 10 ^ Z.of_nat prec in
  let n := (2 * Z.abs (Qnum r) * scale + Zpos (Qden r)) / (2 * Zpos (Qden r)) in
  let sign := if Qnum r <? 0 then "-"%string else EmptyString in
  let whole := String.append sign (pretty (n / scale)) in
  match prec with
  | O => whole
  | S _ => String.append whole (String "." (fixed_digits prec (n mod scale)))
  end.

(** [strings.TrimRight(s, "0")] *)
Fixpoint drop_zeros (s : string) : string :=
  match s with
  | String "0" s => drop_zeros s
  | _ => s
  end.

Definition TrimRightZeros (s : string) : string := rev_string (drop_zeros (rev_string s)).

(** [strings.TrimSuffix(s, ".")] *)
Definition TrimSuffixDot (s : string) : string :=
  match rev_string s with String "." t => rev_string t | _ => s end.

Definition IsInt (r : Q) : bool := Qnum r mod Zpos (Qden r) =? 0.

Definition decimal_text (r : Q) : string :=
  if IsInt r then pretty (Qnum r / Zpos (Qden r))
  else TrimSuffixDot (TrimRightZeros (FloatString maxDecimalScale r)).

Definition decimalForRat (r : option Q) : option string := quoted ∘ decimal_text <$> r.

(** [QuoRem] truncates; the magnitude is rounded up from one half. *)
Definition round_rat (r : Q) : Z :=
  let q := Z.quot (Qnum r) (Zpos (Qden r)) in
  let rem := Z.rem (Qnum r) (Zpos (Qden r)) in
  if Zpos (Qden r) <=? 2 * Z.abs rem then (if Qnum r <? 0 then q - 1 else q + 1) else q.

Definition integerForRat (r : option Q) : option string :=
  r ← r;
  let z := round_rat r in
  if bool_decide (in_int64 z) then Some (pretty z) else None.

(** [math.Round] of a finite float, as the integer it is. *)
Definition round_float (f : spec_float) : option Z := round_rat <$> rat_of_float f.

Section Numbers.
Context `{GoStd} `{GoNumeric} `{GoJsonFloat}.

Definition toFloat (v : Value) : option spec_float :=
  match dataType v with
  | DataTypeBool => Some (if boolVal v then one else S754_zero false)
  | DataTypeInteger => Some (float_of_Z (intVal v))
  | DataTypeFloat | DataTypeQuantity => Some (floatVal v)
  | DataTypeDecimal => strconv_ParseFloat (textVal v)
  | _ => None
  end.

Definition is_finite (f : spec_float) : bool :=
  match f with S754_zero _ | S754_finite _ _ _ => true | _ => false end.

Definition numberForType (dt : DataType) (f : option spec_float) : option string :=
  f ← f;
  if negb (is_finite f) then None
  else
    match dt with
    | DataTypeInteger =>
        z ← round_float f;
        if bool_decide (in_int64 z) then Some (pretty z) else None
    | DataTypeFloat => Some (json_Float f)
    | DataTypeDecimal => Some (quoted (FormatFloat f))
    | _ => None
    end.
End Numbers.

(** ** The schema *)

Definition is_computed (a : AttrDefinition) : bool :=
  match computed a with
  | Some c => match CompKind c with ComputedFormula | ComputedRollup => true | _ => false end
  | None => false
  end.

Definition is_rollup_attr (a : AttrDefinition) : bool :=
  match computed a with
  | Some c => match CompKind c with ComputedRollup => true | _ => false end
  | None => false
  end.

(** The graph of [cyclicNames]: references to other computed attributes. *)
Definition within_deps (cs : list AttrDefinition) : gmap string (list string) :=
  let names := internalName <$> cs in
  fold_left (fun m a =>
    match computed a with
    | Some c =>
        match ComputedValidate c with
        | Ok refs => <[internalName a := List.filter (fun r => bool_decide (r ∈ names)) refs]> m
        | Err _ => m
        end
    | None => m
    end) cs ∅.

Definition on_cycle (deps : gmap string (list string)) (name : string) : bool :=
  match visitRefs (graph_fuel deps) deps name name {[name]} with
  | Some (b, _) => b
  | None => false
  end.

Definition cyclicNames (cs : list AttrDefinition) : list string :=
  let deps := within_deps cs in
  List.filter (on_cycle deps) (map_to_list deps).*1.

(** [EffectiveAttributes] of the type interactor: the schema of a type and its
    ancestors, by group and sort order. *)
Definition by_group (a b : AttrDefinition) : bool :=
  if bool_decide (group a = group b) then sortOrder a <=? sortOrder b
  else String.ltb (group a) (group b).

Definition EffectiveAttributes `{GoUlid} (T : Tables) (tenant : TenantID) (access : Access)
    (raw : string) : result (list AttrDefinition) :=
  match ParseID raw with
  | Err e => Err (NewValidation (Message e))
  | Ok i =>
      let! t := TypeGet (types T) i in
      check! EnsureTenant tenant (tdTenantID t) TypeAggregate then
      let! chain := Chain (types T) t in
      let! all := listAll T chain in
      Ok (sort_by by_group (List.filter (fun a => CanRead access (internalName a)) all))
  end.

(** ** Links *)

Record EntityLink := mkEntityLink {
  elRelationship : Relationship;
  elDefinition : RelDefinition;
  elRole : string }.

(** [ListByEntity] of links, with their definitions. *)
Definition by_link (a b : Relationship) : bool := (lkID a <=? lkID b)%N.

Definition linksOf (L : LinkTables) (tenant : TenantID) (entity : EntityID) : list Relationship :=
  sort_by by_link (List.filter (fun l => bool_decide (lkTenantID l = tenant) && negb (LinkIsArchived l) &&
    (bool_decide (lkParent l = entity) || bool_decide (lkChild l = entity))) (values (links L))).

Fixpoint eachLink (L : LinkTables) (entity : EntityID) (ls : list Relationship) :
    result (list EntityLink) :=
  match ls with
  | [] => Ok []
  | l :: ls =>
      let! d := RelGet L (lkDefinitionID l) in
      let! rest := eachLink L entity ls in
      Ok (mkEntityLink l d (if bool_decide (lkParent l = entity) then "parent" else "child") :: rest)
  end.

Definition LinkListByEntity (L : LinkTables) (tenant : TenantID) (raw : string) :
    result (list EntityLink) :=
  match ParseEntityID raw with
  | Err e => Err (NewValidation (Message e))
  | Ok entity => eachLink L entity (linksOf L tenant entity)
  end.

Definition counterpartOf (l : EntityLink) (entity : EntityID) : EntityID :=
  let parent := lkParent (elRelationship l) in
  let child := lkChild (elRelationship l) in
  if bool_decide (entity = parent) then child
  else if bool_decide (entity = child) then parent
  else EmptyString.

(** The zero type identifier is the empty string of the code. *)
Definition declaredTypeOf (l : EntityLink) (entity : EntityID) : option ID :=
  if bool_decide (lkParent (elRelationship l) = entity) then Some (ParentTypeID (elDefinition l))
  else if bool_decide (lkChild (elRelationship l) = entity) then Some (ChildTypeID (elDefinition l))
  else None.

Definition directionMatches (direction role : string) : bool :=
  if bool_decide (direction = "child"%string) then bool_decide (role = "parent"%string)
  else if bool_decide (direction = "parent"%string) then bool_decide (role = "child"%string)
  else true.

(** The loop of [counterparts]: each entity once, in link order. *)
Definition counterpartsOf (ls : list EntityLink) (entity : EntityID) (relationship direction : string) :
    list EntityID :=
  fold_left (fun out l =>
    if negb (bool_decide (relInternalName (elDefinition l) = relationship)) then out
    else
      let other := counterpartOf l entity in
      if str_IsZero other || negb (directionMatches direction (elRole l)) then out
      else if bool_decide (other ∈ out) then out
      else out ++ [other]) ls [].

(** ** The interactors the materializer calls

    A write answers whether it emitted an event, and for which type. *)

Class Interactors (S : Type) := {
  SchemaOf : S -> ID -> result (list AttrDefinition);
  ValuesOf : S -> ID -> EntityID -> list AttributeValue;
  ValuesOfMany : S -> list EntityID -> list AttributeValue;
  SetInternal : S -> AttrDefinition -> ID -> EntityID -> string -> result (S * option ID);
  RemoveValue : S -> ID -> result (S * option ID);
  LinksOf : S -> EntityID -> result (list EntityLink);
  EndpointTypes : S -> ID -> option (ID * ID)
}.

(** The materializer: the store behind it, its cache of types that have computed
    attributes, and what it asked of its callbacks. *)
Record Mat (S : Type) := mkMat {
  store : S;
  hasComputed : gmap ID bool;
  scheduled : list ID;
  reported : list string }.
Arguments mkMat {S}.
Arguments store {S}.
Arguments hasComputed {S}.
Arguments scheduled {S}.
Arguments reported {S}.

(** The inputs of the formulas of one entity. *)
Record FormulaInputs := mkInputs {
  inputs : Inputs;
  exact : RatInputs;
  members : gmap string Z }.

Section Materializer.
Context `{GoStd} `{GoNumeric} `{GoJsonFloat} {S : Type} `{Interactors S}.

Definition set_store (m : Mat S) (s : S) : Mat S := mkMat s (hasComputed m) (scheduled m) (reported m).
Definition set_cache (m : Mat S) (c : gmap ID bool) : Mat S := mkMat (store m) c (scheduled m) (reported m).
Definition report (m : Mat S) (name : string) : Mat S :=
  mkMat (store m) (hasComputed m) (scheduled m) (reported m ++ [name]).

(** *** Rollups *)

Definition typesOf (s : S) (entities : list EntityID) : gset ID :=
  list_to_set (avTypeID <$> ValuesOfMany s entities).

Fixpoint idsNamed (s : S) (name : string) (types : list ID) : result (list ID) :=
  match types with
  | [] => Ok []
  | t :: types =>
      let! attrs := SchemaOf s t in
      let! rest := idsNamed s name types in
      Ok ((id <$> List.filter (fun a => bool_decide (internalName a = name)) attrs) ++ rest)
  end.

Definition attributeIDsNamed (s : S) (entities : list EntityID) (name : string) : result (list ID) :=
  idsNamed s name (elements (typesOf s entities)).

Definition base_scope (v : AttributeValue) : bool :=
  str_IsZero (Locale (avScope v)) && str_IsZero (Channel (avScope v)).

(** One number of the aggregate; the first one starts it. *)
Definition accumulate (agg : RollupAggregate) (acc : option Q) (r : Q) : option Q :=
  match acc with
  | None => Some r
  | Some a =>
      match agg with
      | RollupSum => Some (a + r)%Q
      | RollupMin => Some (if Qltb r a then r else a)
      | RollupMax => Some (if Qltb a r then r else a)
      | _ => Some a
      end
  end.

(** The numbers a rollup folds. *)
Definition rollup_numbers (targets : list ID) (vs : list AttributeValue) : list Q :=
  omap (fun v => if base_scope v && bool_decide (avAttrID v ∈ targets) then toRat (avValue v) else None) vs.

Definition evalRollup (s : S) (attr : AttrDefinition) (entity : EntityID) : result (option string) :=
  match computed attr ≫= CompRollup with
  | None => Err panic
  | Some spec =>
      let! ls := LinksOf s entity in
      let others := counterpartsOf ls entity (RollupRelationship spec) (RollupDirection spec) in
      match RollupAgg spec with
      | RollupCount => Ok (integerForRat (Some (inject_Z (Z.of_nat (length others)))))
      | agg =>
          if bool_decide (length others = 0%nat) then Ok None
          else
            let! targets := attributeIDsNamed s others (RollupTarget spec) in
            match fold_left (accumulate agg) (rollup_numbers targets (ValuesOfMany s others)) None with
            | None => Ok None
            | Some acc =>
                match attrType attr with
                | DataTypeDecimal => Ok (decimalForRat (Some acc))
                | DataTypeInteger => Ok (integerForRat (Some acc))
                | dt => Ok (numberForType dt (Some (rat_Float64 acc)))
                end
            end
      end
  end.

(** *** The inputs *)

(** One base-scope row under the name of its attribute. *)
Definition add_member (name : string) (v : Value) (fi : FormulaInputs) : FormulaInputs :=
  mkInputs
    (match toFloat v with
     | Some f => <[name := default [] (inputs fi !! name) ++ [f]]> (inputs fi)
     | None => inputs fi
     end)
    (match toRat v with
     | Some r => <[name := default [] (exact fi !! name) ++ [Some r]]> (exact fi)
     | None => exact fi
     end)
    (<[name := default 0 (members fi !! name) + 1]> (members fi)).

Definition nameByID (schema : list AttrDefinition) : gmap ID string :=
  fold_left (fun m a => <[id a := internalName a]> m) schema ∅.

Definition gather (names : gmap ID string) (vs : list AttributeValue) : FormulaInputs :=
  fold_left (fun fi v =>
    match names !! avAttrID v with
    | Some name => add_member name (avValue v) fi
    | None => fi
    end) vs (mkInputs ∅ ∅ ∅).

Definition valueIDs (vs : list AttributeValue) : gmap ID ID :=
  fold_left (fun m v => <[avAttrID v := avID v]> m) vs ∅.

Definition drop_name (name : string) (fi : FormulaInputs) : FormulaInputs :=
  mkInputs (delete name (inputs fi)) (delete name (exact fi)) (delete name (members fi)).

(** A rollup's result in the inputs of the formulas behind it. *)
Definition feed (a : AttrDefinition) (raw : string) (fi : FormulaInputs) : FormulaInputs :=
  match ParseValue (attrType a) raw with
  | Err _ => fi
  | Ok v =>
      let name := internalName a in
      mkInputs (<[name := match toFloat v with Some f => [f] | None => [] end]> (inputs fi))
        (<[name := match toRat v with Some r => [Some r] | None => [] end]> (exact fi))
        (<[name := 1]> (members fi))
  end.

(** The value of a formula in the wire form of its target, if it has one. *)
Definition evalFormula (dt : DataType) (e : Expr) (fi : FormulaInputs) : option string :=
  match dt with
  | DataTypeDecimal => decimalForRat (EvalRatWithMembers e (exact fi) (Some (members fi)))
  | DataTypeInteger => integerForRat (EvalRatWithMembers e (exact fi) (Some (members fi)))
  | _ => numberForType dt (EvalWithMembers e (inputs fi) (Some (members fi)))
  end.

(** *** One recompute

    [dispatch] is what an event of a write sets off before the write returns. *)
Section Frame.
Context (dispatch : Mat S -> ID -> EntityID -> option (Mat S)).

Definition settle (m : Mat S) (entity : EntityID) (r : result (S * option ID)) :
    option (Mat S * result unit) :=
  match r with
  | Err e => Some (m, Err e)
  | Ok (s, None) => Some (set_store m s, Ok tt)
  | Ok (s, Some t) => m' ← dispatch (set_store m s) t entity; Some (m', Ok tt)
  end.

Definition write_value (m : Mat S) (a : AttrDefinition) (typeID : ID) (entity : EntityID) (raw : string) :
    option (Mat S * result unit) :=
  settle m entity (SetInternal (store m) a typeID entity raw).

Definition tolerated (e : Error) : bool :=
  bool_decide (ErrorCode e = CodeNotFound) || bool_decide (ErrorCode e = CodeArchived).

Definition clearStale (allowClear : bool) (m : Mat S) (entity : EntityID) (valueID : option ID) :
    option (Mat S * result unit) :=
  match valueID with
  | Some i =>
      if negb allowClear then Some (m, Ok tt)
      else
        match RemoveValue (store m) i with
        | Err e => Some (m, if tolerated e then Ok tt else Err e)
        | r => settle m entity r
        end
  | None => Some (m, Ok tt)
  end.

(** The value of one computed attribute: its wire form, if it has one, and a
    rollup's effect on the inputs; [Ok None] skips the attribute. *)
Definition derive (s : S) (c : AttrDefinition) (entity : EntityID) (fi : FormulaInputs) :
    result (option (option string)) :=
  if is_rollup_attr c then
    let! r := evalRollup s c entity in Ok (Some r)
  else
    match computed c with
    | Some comp =>
        match parse_formula (CompFormula comp) with
        | Err _ => Ok None
        | Ok e => Ok (Some (evalFormula (attrType c) e fi))
        end
    | None => Ok None
    end.

Definition fed (c : AttrDefinition) (raw : option string) (fi : FormulaInputs) : FormulaInputs :=
  if is_rollup_attr c then
    match raw with Some raw => feed c raw fi | None => drop_name (internalName c) fi end
  else fi.

Fixpoint computeEach (allowClear : bool) (typeID : ID) (entity : EntityID) (cyclic : list string)
    (ids : gmap ID ID) (cs : list AttrDefinition) (fi : FormulaInputs) (m : Mat S) :
    option (Mat S * result unit) :=
  match cs with
  | [] => Some (m, Ok tt)
  | c :: cs =>
      if bool_decide (internalName c ∈ cyclic) then
        computeEach allowClear typeID entity cyclic ids cs fi m
      else
        match derive (store m) c entity fi with
        | Err e => Some (m, Err e)
        | Ok None => computeEach allowClear typeID entity cyclic ids cs fi (report m (internalName c))
        | Ok (Some raw) =>
            r ← match raw with
                | Some raw => write_value m c typeID entity raw
                | None => clearStale allowClear m entity (ids !! id c)
                end;
            match r with
            | (m, Ok _) => computeEach allowClear typeID entity cyclic ids cs (fed c raw fi) m
            | (m, Err e) => Some (m, Err e)
            end
        end
  end.

Definition rollupsFirst (cs : list AttrDefinition) : list AttrDefinition :=
  List.filter is_rollup_attr cs ++ List.filter (fun a => negb (is_rollup_attr a)) cs.

(** [recompute] *)
Definition recompute (allowClear : bool) (typeID : ID) (entity : EntityID) (m : Mat S) :
    option (Mat S * result unit) :=
  if bool_decide (hasComputed m !! typeID = Some false) then Some (m, Ok tt)
  else
    match SchemaOf (store m) typeID with
    | Err e => Some (m, Err e)
    | Ok schema =>
        let cs := List.filter is_computed schema in
        let m := set_cache m (<[typeID := negb (bool_decide (length cs = 0%nat))]> (hasComputed m)) in
        if bool_decide (length cs = 0%nat) then Some (m, Ok tt)
        else
          let vs := List.filter base_scope (ValuesOf (store m) typeID entity) in
          computeEach allowClear typeID entity (cyclicNames cs) (valueIDs vs) (rollupsFirst cs)
            (gather (nameByID schema) vs) m
    end.
End Frame.

(** *** Events *)

Definition maxCascadeDepth : nat := 8.

(** Several steps whose errors are joined: all run. *)
Fixpoint runAll {A} (f : A -> Mat S -> option (Mat S * result unit)) (xs : list A) (m : Mat S) :
    option (Mat S * list Error) :=
  match xs with
  | [] => Some (m, [])
  | x :: xs =>
      r ← f x m;
      r' ← runAll f xs r.1;
      Some (r'.1, match r.2 with Ok _ => r'.2 | Err e => e :: r'.2 end)
  end.

Section Cascade.
(** A nested recompute at a depth of the cascade. *)
Context (rec : nat -> ID -> EntityID -> Mat S -> option (Mat S * result unit)).

(** [recomputeEntityByID]; the code ranges over a Go map of types. *)
Definition recomputeEntityByID (depth : nat) (entity : EntityID) (declared : option ID) (m : Mat S) :
    option (Mat S * list Error) :=
  let types := typesOf (store m) [entity] ∪ match declared with Some t => {[t]} | None => ∅ end in
  runAll (fun t => rec depth t entity) (elements types) m.

(** The neighbours of an entity, each once. *)
Fixpoint neighbours (entity : EntityID) (seen : list EntityID) (ls : list EntityLink) :
    list (EntityID * option ID) :=
  match ls with
  | [] => []
  | l :: ls =>
      let other := counterpartOf l entity in
      if str_IsZero other || bool_decide (other ∈ seen) then neighbours entity seen ls
      else (other, declaredTypeOf l other) :: neighbours entity (other :: seen) ls
  end.

(** Steps whose errors are collected, not raised. *)
Fixpoint joinAll {A} (f : A -> Mat S -> option (Mat S * list Error)) (xs : list A) (m : Mat S) :
    option (Mat S * list Error) :=
  match xs with
  | [] => Some (m, [])
  | x :: xs => r ← f x m; r' ← joinAll f xs r.1; Some (r'.1, r.2 ++ r'.2)
  end.

Definition cascadeToNeighbours (depth : nat) (entity : EntityID) (m : Mat S) :
    option (Mat S * list Error) :=
  if (maxCascadeDepth <=? depth)%nat then Some (m, [])
  else
    match LinksOf (store m) entity with
    | Err e => Some (m, [e])
    | Ok ls => joinAll (fun p => recomputeEntityByID (Datatypes.S depth) p.1 p.2) (neighbours entity [] ls) m
    end.

(** One value key of a batch: its entity, then the entities that aggregate it. *)
Definition handleKey (depth : nat) (key : ID * EntityID) (m : Mat S) : option (Mat S * list Error) :=
  r ← rec depth key.1 key.2 m;
  r' ← cascadeToNeighbours depth key.2 r.1;
  Some (r'.1, (match r.2 with Ok _ => [] | Err e => [e] end) ++ r'.2).
End Cascade.

(** [Recompute] with the dispatch of its own writes: the batch of one value
    event, whose errors are observed and dropped. *)
Fixpoint Recompute (fuel : nat) (allowClear : bool) (depth : nat) (typeID : ID) (entity : EntityID)
    (m : Mat S) : option (Mat S * result unit) :=
  match fuel with
  | O => None
  | Datatypes.S fuel =>
      recompute (fun m t e => fst <$> handleKey (Recompute fuel true) depth (t, e) m)
        allowClear typeID entity m
  end.

(** *** Batches *)

(** The envelopes of one commit, decoded; those of a tenant. *)
Inductive Envelope :=
  | DefinitionEvent (target : option ID)
  | LinkEvent (def : ID) (parent child : EntityID)
  | ValueEvent (typeID : ID) (entity : EntityID)
  | Undecodable.

Definition invalidate (m : Mat S) : Mat S := set_cache m ∅.
Definition schedule (m : Mat S) (t : ID) : Mat S :=
  mkMat (store m) (hasComputed m) (scheduled m ++ [t]) (reported m).

Section Batch.
Context (rec : nat -> ID -> EntityID -> Mat S -> option (Mat S * result unit)).

Definition handleLink (depth : nat) (def : ID) (parent child : EntityID) (m : Mat S) :
    option (Mat S * list Error) :=
  let ends := EndpointTypes (store m) def in
  joinAll (fun p => if str_IsZero p.1 then (fun m => Some (m, [])) else recomputeEntityByID rec depth p.1 p.2)
    [(parent, fst <$> ends); (child, snd <$> ends)] m.

(** The variables of the first loop of [HandleBatch]. *)
Record Batch := mkBatch {
  bKeys : list (ID * EntityID);
  bInvalidated : bool;
  bRebuilt : list ID;
  bErrors : list Error }.

Definition fail_batch (b : Batch) (es : list Error) : Batch :=
  mkBatch (bKeys b) (bInvalidated b) (bRebuilt b) (bErrors b ++ es).

Definition batch_step (depth : nat) (env : Envelope) (m : Mat S) (b : Batch) : option (Mat S * Batch) :=
  match env with
  | DefinitionEvent target =>
      let m := if bInvalidated b then m else invalidate m in
      match target with
      | Some t =>
          if bool_decide (t ∈ bRebuilt b) then Some (m, mkBatch (bKeys b) true (bRebuilt b) (bErrors b))
          else Some (schedule m t, mkBatch (bKeys b) true (bRebuilt b ++ [t]) (bErrors b))
      | None => Some (m, mkBatch (bKeys b) true (bRebuilt b) (bErrors b))
      end
  | LinkEvent def parent child =>
      r ← handleLink depth def parent child m; Some (r.1, fail_batch b r.2)
  | ValueEvent t e =>
      Some (m, if bool_decide ((t, e) ∈ bKeys b) then b
               else mkBatch (bKeys b ++ [(t, e)]) (bInvalidated b) (bRebuilt b) (bErrors b))
  | Undecodable => Some (m, fail_batch b [Errorf "decode value event payload"])
  end.

Fixpoint batch_loop (depth : nat) (envs : list Envelope) (m : Mat S) (b : Batch) :
    option (Mat S * Batch) :=
  match envs with
  | [] => Some (m, b)
  | env :: envs => r ← batch_step depth env m b; batch_loop depth envs r.1 r.2
  end.

(** [HandleBatch] *)
Definition HandleBatch (depth : nat) (envs : list Envelope) (m : Mat S) : option (Mat S * list Error) :=
  r ← batch_loop depth envs m (mkBatch [] false [] []);
  r' ← joinAll (handleKey rec depth) (bKeys r.2) r.1;
  Some (r'.1, bErrors r.2 ++ r'.2).
End Batch.

(** A commit's events, dispatched to the materializer. *)
Definition Dispatch (fuel : nat) (envs : list Envelope) (m : Mat S) : option (Mat S * list Error) :=
  HandleBatch (Recompute fuel true) 0 envs m.

(** *** Rebuilds *)

(** [typeHasComputed] *)
Definition typeHasComputed (typeID : ID) (m : Mat S) : result (Mat S * bool) :=
  match hasComputed m !! typeID with
  | Some has => Ok (m, has)
  | None =>
      let! schema := SchemaOf (store m) typeID in
      let has := existsb is_computed schema in
      Ok (set_cache m (<[typeID := has]> (hasComputed m)), has)
  end.

Definition maxRecomputeAttempts : nat := 3.

(** What [sourceFingerprint] hashes: the values of attributes that are not
    computed, as texts in order: two are equal when they are permutations. *)
Definition source_row (v : AttributeValue) : ID * Scope * Value * Z :=
  (avAttrID v, avScope v, avValue v, avUpdatedAt v).

Definition sourceFingerprint (s : S) (typeID : ID) (entity : EntityID) :
    result (list (ID * Scope * Value * Z)) :=
  let! schema := SchemaOf s typeID in
  let derived := id <$> List.filter IsComputed schema in
  Ok (source_row <$> List.filter (fun v => negb (bool_decide (avAttrID v ∈ derived))) (ValuesOf s typeID entity)).

(** [recomputeStable]; [interfere] is what other writers commit between the
    fingerprint and the recompute of each attempt, and after it. *)
Fixpoint recomputeStable (attempts fuel : nat) (interfere : nat -> Mat S -> Mat S) (allowClear : bool)
    (typeID : ID) (entity : EntityID) (m : Mat S) : option (Mat S * result unit) :=
  match attempts with
  | O => Some (m, Ok tt)
  | Datatypes.S attempts =>
      match sourceFingerprint (store m) typeID entity with
      | Err e => Some (m, Err e)
      | Ok before =>
          r ← Recompute fuel allowClear 0 typeID entity (interfere (2 * attempts)%nat m);
          match r with
          | (m, Err e) => Some (m, Err e)
          | (m, Ok _) =>
              let m := interfere (2 * attempts + 1)%nat m in
              match sourceFingerprint (store m) typeID entity with
              | Err e => Some (m, Err e)
              | Ok after =>
                  if bool_decide (after ≡ₚ before) then Some (m, Ok tt)
                  else recomputeStable attempts fuel interfere allowClear typeID entity m
              end
          end
      end
  end.
End Materializer.

(** ** The in-memory stack behind the interactors *)

Section Memory.
Context `{GoStd} `{GoUlid} `{GoNumeric} `{GoJsonFloat}.

(** The table of values and the next identifier to be drawn.  The schema and the
    links stand still while values are recomputed. *)
Record World := mkWorld { wVals : gmap ID AttributeValue; wNext : ID }.

Definition emitted (r : Tables * Collector * AttributeValue) : option ID :=
  if bool_decide (length (collected r.1.2) = 0%nat) then None else Some (avTypeID r.2).

(** After a write: an identifier that was used is not drawn again. *)
Definition after_write (r : Tables * Collector * AttributeValue) (next : ID) : World :=
  mkWorld (vals r.1.1) (if isSome (vals r.1.1 !! next) then next + 1 else next)%N.

(** [T] and [L] are the schema and the links; [rq] is the request, under system
    access. *)
#[export] Instance memory (T : Tables) (L : LinkTables) (rq : Request) : Interactors World := {|
  SchemaOf _ t := EffectiveAttributes T (rqTenant rq) (rqAccess rq) (ulid_String t);
  ValuesOf w t e := AvListByEntity (set_vals T (wVals w)) (rqTenant rq) t e;
  ValuesOfMany w es := sort_by by_av (List.filter (fun av => bool_decide (avTenantID av = rqTenant rq) &&
    bool_decide (avEntityID av ∈ es) && negb (AvIsArchived av)) (Prelude.values (wVals w)));
  SetInternal w a t e raw :=
    let! r := ValueSetCase rq (mkSetInput (ulid_String (id a)) e (ulid_String t) EmptyString EmptyString raw
      true false) (wNext w) (set_vals T (wVals w)) in
    Ok (after_write r (wNext w), emitted r);
  RemoveValue w i :=
    let! r := ValueRemove rq (ulid_String i) (set_vals T (wVals w)) in
    Ok (after_write r (wNext w), emitted r);
  LinksOf _ e := LinkListByEntity L (rqTenant rq) e;
  EndpointTypes _ d :=
    match RelGet L d with
    | Ok def => if bool_decide (relTenantID def = rqTenant rq) then Some (ParentTypeID def, ChildTypeID def) else None
    | Err _ => None
    end
|}.
End Memory.
