(* ===== verification/ComputedNumbers.v ===== *)
(** Results of formulas as the values that are stored: rounding to 64-bit integers
    and to decimals of twenty places. *)

From Stdlib Require Import ZArith QArith Lia String Ascii List SpecFloat.
From stdpp Require Import base tactics list gmap fin_maps strings option decidable pretty.
From S2P Require Import Prelude GoText Values Formula FormulaEval Computed.

Open Scope Z_scope.
Open Scope go_scope.

(** [n / d] rounded half up. *)
Definition half_up (n d : Z) : Z := (2 * n + d) / (2 * d).

Lemma half_up_cancel n d k : 0 < d -> 0 < k -> half_up (n * k) (d * k) = half_up n d.
Proof.
  intros Hd Hk. unfold half_up. replace (2 * (n * k) + d * k) with ((2 * n + d) * k) by ring.
  replace (2 * (d * k)) with (2 * d * k) by ring. apply Z.div_mul_cancel_r; lia.
Qed.

(** The nearest multiple, up from the middle. *)
Lemma half_up_near n d : 0 < d -> - d <= 2 * (n - half_up n d * d) < d.
Proof.
  intros Hd. unfold half_up. pose proof (Z.div_mod (2 * n + d) (2 * d)) as E.
  pose proof (Z.mod_pos_bound (2 * n + d) (2 * d)). set (z := (2 * n + d) / (2 * d)) in *. lia.
Qed.

Section Equal.
Variables p q : Q.
Hypothesis Hpq : (p == q)%Q.

Lemma cross : Qnum p * Zpos (Qden q) = Qnum q * Zpos (Qden p).
Proof using Hpq. exact Hpq. Qed.

Lemma abs_cross : Z.abs (Qnum p) * Zpos (Qden q) = Z.abs (Qnum q) * Zpos (Qden p).
Proof using Hpq. pose proof (f_equal Z.abs cross) as E. by rewrite !Z.abs_mul in E. Qed.

Lemma half_up_eq k : half_up (Z.abs (Qnum p) * k) (Zpos (Qden p)) = half_up (Z.abs (Qnum q) * k) (Zpos (Qden q)).
Proof using Hpq.
  pose proof (half_up_cancel (Z.abs (Qnum p) * k) (Zpos (Qden p)) (Zpos (Qden q)) ltac:(lia) ltac:(lia)) as <-.
  pose proof (half_up_cancel (Z.abs (Qnum q) * k) (Zpos (Qden q)) (Zpos (Qden p)) ltac:(lia) ltac:(lia)) as <-.
  f_equal; [|ring].
  replace (Z.abs (Qnum p) * k * Zpos (Qden q)) with (Z.abs (Qnum p) * Zpos (Qden q) * k) by ring.
  rewrite abs_cross. ring.
Qed.

Lemma sign_eq : (Qnum p <? 0) = (Qnum q <? 0).
Proof using Hpq. pose proof cross. destruct (Z.ltb_spec (Qnum p) 0), (Z.ltb_spec (Qnum q) 0); try done; nia. Qed.

Lemma IsInt_eq : IsInt p = IsInt q.
Proof using Hpq.
  unfold IsInt. pose proof cross as E.
  assert (Qnum p mod Zpos (Qden p) = 0 <-> Qnum q mod Zpos (Qden q) = 0) as Hiff.
  { split; intros Hm; apply Z.mod_divide in Hm as [k Hk]; try lia; apply Z.mod_divide; try lia; exists k; nia. }
  destruct (Z.eqb_spec (Qnum p mod Zpos (Qden p)) 0), (Z.eqb_spec (Qnum q mod Zpos (Qden q)) 0); tauto.
Qed.

Lemma quotient_eq : Qnum p / Zpos (Qden p) = Qnum q / Zpos (Qden q).
Proof using Hpq.
  rewrite <- (Z.div_mul_cancel_r (Qnum p) (Zpos (Qden p)) (Zpos (Qden q))) by lia.
  rewrite <- (Z.div_mul_cancel_r (Qnum q) (Zpos (Qden q)) (Zpos (Qden p))) by lia.
  rewrite cross. f_equal. lia.
Qed.
End Equal.

Lemma FloatString_half_up prec r :
  FloatString prec r =
  let scale := 10 ^ Z.of_nat prec in
  let n := half_up (Z.abs (Qnum r) * scale) (Zpos (Qden r)) in
  let whole := String.append (if Qnum r <? 0 then "-"%string else EmptyString) (pretty (n / scale)) in
  match prec with
  | O => whole
  | S _ => String.append whole (String "." (fixed_digits prec (n mod scale)))
  end.
Proof. unfold FloatString, half_up. cbv zeta. by rewrite !Z.mul_assoc. Qed.

(** The rendering of a rational is that of its value. *)
Lemma decimal_text_eq p q : (p == q)%Q -> decimal_text p = decimal_text q.
Proof.
  intros E. unfold decimal_text. rewrite (IsInt_eq p q E), (quotient_eq p q E).
  destruct (IsInt q); [done|]. rewrite !FloatString_half_up. cbv zeta.
  by rewrite (half_up_eq p q E), (sign_eq p q E).
Qed.

(** Rounded to nearest, halves away from zero. *)
Lemma round_half_up r : round_rat r = Z.sgn (Qnum r) * half_up (Z.abs (Qnum r)) (Zpos (Qden r)).
Proof.
  destruct r as [a b]. unfold round_rat. simpl Qnum. simpl Qden.
  assert (forall n, 0 <= n -> half_up n (Zpos b) = n / Zpos b + (if Zpos b <=? 2 * (n mod Zpos b) then 1 else 0)) as Hh.
  { intros n Hn. unfold half_up. pose proof (Z.div_mod n (Zpos b)). pose proof (Z.mod_pos_bound n (Zpos b)).
    symmetry. destruct (Zpos b <=? 2 * (n mod Zpos b)) eqn:E; [apply Z.leb_le in E|apply Z.leb_gt in E];
      apply (Z.div_unique_pos _ _ _ (2 * n + Zpos b - 2 * Zpos b * (n / Zpos b +
        (if Zpos b <=? 2 * (n mod Zpos b) then 1 else 0)))); destruct (Zpos b <=? 2 * (n mod Zpos b)) eqn:E'; lia. }
  rewrite Hh by lia. destruct (Z.lt_trichotomy a 0) as [Ha|[->|Ha]].
  - assert (exists n, 0 < n /\ a = - n) as (n & Hn & ->) by (exists (- a); lia).
    rewrite Z.quot_opp_l, Z.rem_opp_l, !Z.abs_opp by lia.
    rewrite Z.quot_div_nonneg, Z.rem_mod_nonneg, (Z.abs_eq n) by lia.
    rewrite (Z.abs_eq (n mod Zpos b)) by (apply Z.mod_pos_bound; lia).
    replace (- n <? 0) with true by (symmetry; apply Z.ltb_lt; lia). rewrite (Z.sgn_neg (- n)) by lia.
    destruct (_ <=? _); lia.
  - by rewrite Z.quot_0_l, Z.rem_0_l by lia.
  - rewrite (Z.abs_eq a), (Z.sgn_pos a) by lia. rewrite Z.quot_div_nonneg, Z.rem_mod_nonneg by lia.
    rewrite (Z.abs_eq (a mod Zpos b)) by (apply Z.mod_pos_bound; lia).
    replace (a <? 0) with false by (symmetry; apply Z.ltb_ge; lia). destruct (_ <=? _); lia.
Qed.

Lemma round_eq p q : (p == q)%Q -> round_rat p = round_rat q.
Proof.
  intros E. rewrite !round_half_up. pose proof (half_up_eq p q E 1) as Hh. rewrite !Z.mul_1_r in Hh.
  rewrite Hh. f_equal. pose proof (cross p q E). nia.
Qed.

Lemma decimalForRat_eq a b : oeq a b -> decimalForRat a = decimalForRat b.
Proof. destruct a, b; simpl; try done. intros E. unfold decimalForRat. simpl. by rewrite (decimal_text_eq _ _ E). Qed.

Lemma integerForRat_eq a b : oeq a b -> integerForRat a = integerForRat b.
Proof. destruct a, b; simpl; try done. intros E. unfold integerForRat. simpl. by rewrite (round_eq _ _ E). Qed.
