(* ===== verification/ComputedFacts.v ===== *)
(** What nesting means for a recompute: more fuel never changes an answer, and a
    call that needs its own answer first has none. *)

From Stdlib Require Import ZArith QArith Lia String Ascii List SpecFloat.
From stdpp Require Import base tactics list gmap fin_maps fin_sets strings option decidable pretty.
From S2P Require Import Prelude GoText Values Ids Formula Attribute Access TypeDef Relationship Units Dependency.
From S2P Require Import ValueWrite AttributeWrite Computed.

Open Scope Z_scope.
Open Scope go_scope.

(** ** Three runs side by side

    [a] and [b] differ at most in one call, which has no answer in [a]; [c] agrees
    with [a] on what is known, and has no answer at that call either.  When [a] has
    no answer but [b] has one, the lack is due to the call, and [c] has none. *)
Definition tri {A} (a b c : option A) : Prop :=
  (exists x, a = Some x /\ b = Some x /\ c = Some x) \/ (a = None /\ c = None) \/ (a = None /\ b = None).

Lemma tri_ret {A} (x : A) : tri (Some x) (Some x) (Some x).
Proof. left. by exists x. Qed.

Lemma tri_bind {A B} (a b c : option A) (f g h : A -> option B) :
  tri a b c -> (forall x, tri (f x) (g x) (h x)) -> tri (a ≫= f) (b ≫= g) (c ≫= h).
Proof.
  intros [(x & -> & -> & ->)|[[-> ->]|[-> ->]]] Hf; simpl; [apply Hf| |]; unfold tri; auto.
Qed.

Lemma tri_fmap {A B} (a b c : option A) (f : A -> B) : tri a b c -> tri (f <$> a) (f <$> b) (f <$> c).
Proof. intros [(x & -> & -> & ->)|[[-> ->]|[-> ->]]]; unfold tri; simpl; eauto. Qed.

Create HintDb tri discriminated.
#[export] Hint Resolve tri_ret tri_fmap : tri.

Section Runs.
Context `{GoStd} `{GoNumeric} `{GoJsonFloat} {S : Type} `{Interactors S}.

Definition call := (nat * ID * EntityID * Mat S)%type.
Abbreviation Rec := (nat -> ID -> EntityID -> Mat S -> option (Mat S * result unit)).
Abbreviation Disp := (Mat S -> ID -> EntityID -> option (Mat S)).

Section Frames.
Context (d1 d2 d3 : Disp) (Hd : forall m t e, tri (d1 m t e) (d2 m t e) (d3 m t e)).

Lemma settle_tri m e r : tri (settle d1 m e r) (settle d2 m e r) (settle d3 m e r).
Proof using Hd.
  destruct r as [[s [t|]]|err]; simpl; auto with tri. apply tri_bind; [apply Hd|]. intros x. apply tri_ret.
Qed.

Lemma clear_tri allow m e i : tri (clearStale d1 allow m e i) (clearStale d2 allow m e i) (clearStale d3 allow m e i).
Proof using Hd.
  unfold clearStale. destruct i as [i|]; [|auto with tri]. destruct (negb allow); [auto with tri|].
  destruct (RemoveValue (store m) i); [apply settle_tri|auto with tri].
Qed.

Lemma compute_tri allow t e cyclic ids cs fi m :
  tri (computeEach d1 allow t e cyclic ids cs fi m) (computeEach d2 allow t e cyclic ids cs fi m)
    (computeEach d3 allow t e cyclic ids cs fi m).
Proof using Hd.
  revert fi m. induction cs as [|c cs IH]; intros fi m; simpl; [auto with tri|].
  destruct (bool_decide _); [apply IH|]. destruct (derive _ _ _ _) as [[raw|]|err]; [|apply IH|auto with tri].
  apply tri_bind.
  - destruct raw; [apply settle_tri|apply clear_tri].
  - intros [m' [u|err]]; [apply IH|apply tri_ret].
Qed.

Lemma recompute_tri allow t e m :
  tri (recompute d1 allow t e m) (recompute d2 allow t e m) (recompute d3 allow t e m).
Proof using Hd.
  unfold recompute. destruct (bool_decide _); [auto with tri|].
  destruct (SchemaOf _ _) as [schema|err]; [|auto with tri]. cbv zeta.
  destruct (bool_decide _); [auto with tri|apply compute_tri].
Qed.
End Frames.

Section Cascades.
Context (r1 r2 r3 : Rec) (Hr : forall d t e m, tri (r1 d t e m) (r2 d t e m) (r3 d t e m)).

Lemma runAll_tri {A} (f g h : A -> Mat S -> option (Mat S * result unit)) xs m :
  (forall x m, tri (f x m) (g x m) (h x m)) -> tri (runAll f xs m) (runAll g xs m) (runAll h xs m).
Proof.
  intros Hf. revert m. induction xs as [|x xs IH]; intros m; simpl; [auto with tri|].
  apply tri_bind; [apply Hf|]. intros r. apply tri_bind; [apply IH|]. intros r'. apply tri_ret.
Qed.

Lemma joinAll_tri {A} (f g h : A -> Mat S -> option (Mat S * list Error)) xs m :
  (forall x m, tri (f x m) (g x m) (h x m)) -> tri (joinAll f xs m) (joinAll g xs m) (joinAll h xs m).
Proof.
  intros Hf. revert m. induction xs as [|x xs IH]; intros m; simpl; [auto with tri|].
  apply tri_bind; [apply Hf|]. intros r. apply tri_bind; [apply IH|]. intros r'. apply tri_ret.
Qed.

Lemma handleKey_tri d k m : tri (handleKey r1 d k m) (handleKey r2 d k m) (handleKey r3 d k m).
Proof using Hr.
  unfold handleKey. apply tri_bind; [apply Hr|]. intros [m' o]. apply tri_bind; [|intros; apply tri_ret].
  unfold cascadeToNeighbours. destruct (_ <=? _)%nat; [auto with tri|].
  destruct (LinksOf _ _); [|auto with tri]. apply joinAll_tri. intros [o' t] m''.
  apply runAll_tri. intros. apply Hr.
Qed.

Lemma batch_tri d envs m : tri (HandleBatch r1 d envs m) (HandleBatch r2 d envs m) (HandleBatch r3 d envs m).
Proof using Hr.
  unfold HandleBatch. apply tri_bind.
  - generalize (mkBatch [] false [] []). revert m. induction envs as [|env envs IH]; intros m b; simpl; [auto with tri|].
    apply tri_bind; [|intros r; apply IH]. destruct env as [[t|]|def p c|t e|]; simpl; auto with tri.
    + destruct (bool_decide _); auto with tri.
    + apply tri_bind; [|intros; apply tri_ret]. apply joinAll_tri. intros x m'.
      destruct (str_IsZero _); [auto with tri|]. apply runAll_tri. intros. apply Hr.
  - intros r. apply tri_bind; [|intros; apply tri_ret]. apply joinAll_tri. intros. apply handleKey_tri.
Qed.
End Cascades.

(** ** More fuel, the same answer *)

Lemma Recompute_more n allow d t e m r :
  Recompute n allow d t e m = Some r -> Recompute (Datatypes.S n) allow d t e m = Some r.
Proof.
  revert allow d t e m r. induction n as [|n IH]; intros allow d t e m r; [done|].
  intros E. cbn [Recompute] in E.
  assert (forall m t e, tri (fst <$> handleKey (Recompute n true) d (t, e) m)
    (fst <$> handleKey (Recompute n true) d (t, e) m)
    (fst <$> handleKey (Recompute (Datatypes.S n) true) d (t, e) m)) as Ht.
  { intros m' t' e'. apply tri_fmap, handleKey_tri. intros d1 t1 e1 m1.
    destruct (Recompute n true d1 t1 e1 m1) as [r1|] eqn:E1; [|unfold tri; auto].
    left. exists r1. split_and!; [done|done|]. by apply IH. }
  pose proof (recompute_tri _ _ _ Ht allow t e m) as [(x & Ea & _ & Ec)|[[Ea _]|[Ea _]]]; [|congruence|congruence].
  change (Recompute (Datatypes.S (Datatypes.S n)) allow d t e m) with
    (recompute (fun m t e => fst <$> handleKey (Recompute (Datatypes.S n) true) d (t, e) m) allow t e m).
  congruence.
Qed.

Lemma Recompute_mono n k allow d t e m r :
  (n <= k)%nat -> Recompute n allow d t e m = Some r -> Recompute k allow d t e m = Some r.
Proof. intros Hk E. induction Hk as [|k Hk IH]; [done|]. by apply Recompute_more. Qed.

(** ** A call that waits for another *)

Context `{EqDecision S}.

#[export] Instance Mat_eq_dec : EqDecision (Mat S).
Proof. solve_decision. Defined.

(** [Recompute] cut at one call, which answers [answer]. *)
Definition cut (c : nat) (at_ : call) (answer : option (Mat S * result unit)) : Rec :=
  fun d t e m => if decide ((d, t, e, m) = at_) then answer else Recompute c true d t e m.

Definition frame_with (rec : Rec) (k : call) : option (Mat S * result unit) :=
  let '(d, t, e, m) := k in recompute (fun m t e => fst <$> handleKey rec d (t, e) m) true t e m.

(** [k] needs the answer of [k']: cut there it has none, and would have one if [k']
    answered [m]. *)
Definition waits_for (c : nat) (m : Mat S) (k k' : call) : bool :=
  match frame_with (cut c k' None) k, frame_with (cut c k' (Some (m, Ok tt))) k with
  | None, Some _ => true
  | _, _ => false
  end.

Definition run (n : nat) (k : call) : option (Mat S * result unit) :=
  let '(d, t, e, m) := k in Recompute n true d t e m.

Lemma cut_tri c n k' ans :
  (c <= n)%nat -> run n k' = None -> forall d t e m,
  tri (cut c k' None d t e m) (cut c k' ans d t e m) (Recompute n true d t e m).
Proof.
  intros Hn Hk d t e m. unfold cut. destruct (decide _) as [<-|Hne]; [unfold tri; auto|].
  destruct (Recompute c true d t e m) as [r|] eqn:E; [|unfold tri; auto].
  left. exists r. split_and!; [done|done|]. by eapply Recompute_mono.
Qed.

Lemma waits_none c ans n k k' :
  (c <= n)%nat -> waits_for c ans k k' = true -> run n k' = None -> run (Datatypes.S n) k = None.
Proof.
  destruct k as [[[d t] e] m]. unfold waits_for, frame_with, run. intros Hn Hw Hk.
  destruct k' as [[[d' t'] e'] m'] eqn:Ek. simpl in Hw.
  pose proof (recompute_tri _ _ _ (fun m0 t0 e0 => tri_fmap _ _ _ fst
    (handleKey_tri _ _ _ (cut_tri c n (d', t', e', m') (Some (ans, Ok tt)) Hn Hk) d (t0, e0) m0)) true t e m) as Ht.
  destruct Ht as [(x & Ea & _)|[[_ Ec]|[_ Eb]]]; [by rewrite Ea in Hw|exact Ec|].
  simpl in Eb. rewrite Eb in Hw. by destruct (recompute _ _ _ _ _).
Qed.

(** A call that waits for itself has no answer, however much fuel there is; nor has
    one that waits for a call without. *)
Lemma waits_itself c ans k : run c k = None -> waits_for c ans k k = true -> forall n, run n k = None.
Proof.
  intros Hc Hw. assert (forall n, (c <= n)%nat -> run n k = None) as Hall.
  { intros n Hn. induction Hn as [|n Hn IH]; [done|]. by eapply waits_none. }
  intros n. destruct (decide (c <= n)%nat) as [?|Hlt]; [by apply Hall|].
  destruct (run n k) as [r|] eqn:E; [|done]. exfalso. destruct k as [[[d t] e] m]. simpl in *.
  apply (Recompute_mono n c) in E; [congruence|lia].
Qed.

Lemma waits_chain c ans k k' :
  waits_for c ans k k' = true -> (forall n, run n k' = None) -> forall n, run n k = None.
Proof.
  intros Hw Hk. assert (forall n, (c <= n)%nat -> run (Datatypes.S n) k = None) as Hall.
  { intros n Hn. by eapply waits_none. }
  intros n. destruct (run n k) as [r|] eqn:E; [|done]. exfalso. destruct k as [[[d t] e] m].
  assert (Recompute (Datatypes.S (Nat.max n c)) true d t e m = Some r) as E'.
  { eapply Recompute_mono; [|exact E]. lia. }
  specialize (Hall (Nat.max n c) ltac:(lia)). simpl in Hall, E'. congruence.
Qed.

(** A batch that waits for such a call does not return. *)
Definition batch_waits (c : nat) (ans : Mat S) (envs : list Envelope) (m : Mat S) (k' : call) : bool :=
  match HandleBatch (cut c k' None) 0 envs m, HandleBatch (cut c k' (Some (ans, Ok tt))) 0 envs m with
  | None, Some _ => true
  | _, _ => false
  end.

Lemma batch_waits_none c ans envs m k' :
  batch_waits c ans envs m k' = true -> (forall n, run n k' = None) ->
  forall n, Dispatch n envs m = None.
Proof.
  intros Hw Hk.
  assert (forall n, (c <= n)%nat -> Dispatch n envs m = None) as Hall.
  { intros n Hn. unfold batch_waits in Hw. unfold Dispatch.
    destruct (batch_tri _ _ _ (cut_tri c n k' (Some (ans, Ok tt)) Hn (Hk n)) 0 envs m) as [(x & Ea & _)|[[_ Ec]|[_ Eb]]];
      [by rewrite Ea in Hw|exact Ec|]. rewrite Eb in Hw. by destruct (HandleBatch _ _ _ _). }
  intros n. destruct (Dispatch n envs m) as [r|] eqn:E; [|done]. exfalso.
  assert (forall d t e m, tri (Recompute n true d t e m) (Recompute n true d t e m)
    (Recompute (Nat.max n c) true d t e m)) as Ht.
  { intros d t e m'. destruct (Recompute n true d t e m') as [r'|] eqn:E'; [|unfold tri; auto].
    left. exists r'. split_and!; [done|done|]. eapply Recompute_mono; [|exact E']. lia. }
  unfold Dispatch in *. destruct (batch_tri _ _ _ Ht 0 envs m) as [(x & Ea & _ & Ec)|[[Ea _]|[Ea _]]]; [|congruence|congruence].
  rewrite (Hall (Nat.max n c)) in Ec; [done|lia].
Qed.
End Runs.
