(* ===== verification/ComputedExample.v ===== *)
(** A cycle of aggregates: a dish takes the greatest score of its lines, a line the
    greatest of its dishes, and derives its own score from it.  Every definition is
    accepted, and a write to the dish never returns. *)

From Stdlib Require Import ZArith QArith Lia String Ascii List SpecFloat.
From stdpp Require Import base tactics list gmap fin_maps fin_sets strings option decidable pretty relations.
From S2P Require Import Prelude GoText Values Ids Formula Attribute Access TypeDef Relationship RelationshipExample.
From S2P Require Import Units Dependency ValueWrite AttributeWrite SchemaFacts SchemaExample Computed ComputedFacts.

Open Scope Z_scope.
Open Scope go_scope.

Import SchemaRun.

#[export] Instance AttributeValue_eq_dec : EqDecision AttributeValue.
Proof. solve_decision. Defined.
#[export] Instance World_eq_dec : EqDecision World.
Proof. solve_decision. Defined.

Module CycleRun.

#[export] Instance json_float : GoJsonFloat := {| json_Float := FormatFloat |}.

(** Dishes (type 1) use lines (type 2); a dish feeds a line. *)
Definition kitchen_types : Tables := add_type "line" EmptyString 2 (add_type "dish" EmptyString 1 nothing).

Definition uses : CreateRelInput :=
  mkCreateRel "uses" RelDirected "1" "2" EmptyString (LinkRun.rel_fields LinkRun.unbounded).

Definition kitchen_links : LinkTables :=
  LinkRun.connect "11" "soup" "stock" 1
    (LinkRun.keep (CreateDefinition "default" uses 10 11 100 (mkLinkTables (types kitchen_types) ∅ ∅))
      (mkLinkTables (types kitchen_types) ∅ ∅)).

Definition rollup (direction target : string) : Computed :=
  mkComputed ComputedRollup EmptyString (Some (mkRollup "uses" direction RollupMax target)).

Definition add_with (i : AttrCreateInput) (fresh : ID) (T : Tables) : Tables :=
  after (AttrCreate (Some (relDefs kitchen_links)) admin i fresh T) T.

(** First a line scores nothing. *)
Definition kitchen : Tables :=
  add_with (attribute "1" "label" DataTypeString None) 4 (add_with (attribute "2" "above" DataTypeInteger (Some (rollup "parent" "best"))) 3
    (add_with (attribute "1" "best" DataTypeInteger (Some (rollup "child" "score"))) 2
      (add_with (attribute "2" "score" DataTypeInteger (Some (formula "0"))) 1 kitchen_types))).

(** Then its score is one less the best of the dishes above it. *)
Definition rescore : AttrUpdateInput :=
  mkAttrUpdate "1" (Ok ([], None)) (Ok (Some (formula "1 - above"))) (fields "score" false false) None.

Definition rescored : Tables :=
  after (AttrUpdate (Some (relDefs kitchen_links)) admin rescore kitchen) kitchen.

Abbreviation stack T := (memory T kitchen_links admin).
Abbreviation dispatch T n envs m := (Dispatch (H2 := stack T) n envs m).

Definition mat (w : World) : Mat World := mkMat w ∅ [] [].
Definition world_of (r : option (Mat World * list Error)) : World :=
  match r with Some (m, _) => store m | None => mkWorld ∅ 1 end.

(** The values after the two are linked: all zero. *)
Definition scored : World := world_of (dispatch kitchen 9 [LinkEvent 11 "soup" "stock"] (mat (mkWorld ∅ 1))).
Definition label : SetInput :=
  mkSetInput "4" "soup" "1" EmptyString EmptyString (quoted "soup") false false.

(** The write of a label, and what it emits. *)
Definition labelling : result (World * option ID) :=
  let! r := ValueSetCase admin label (wNext scored) (set_vals rescored (wVals scored)) in
  Ok (after_write r (wNext scored), emitted r).

Definition labelled : World := match labelling with Ok (w, _) => w | Err _ => scored end.

(** The table with other scores; [v] is the version of the definition the line's
    own was written under. *)
Definition with_score (w : World) (row : ID) (z v : Z) : World :=
  match wVals w !! row with
  | Some av =>
      mkWorld (<[row := mkAV (avID av) (avTenantID av) (avTypeID av) (avAttrID av) (avEntityID av)
        (avScope av) (NewIntegerValue z) v (avCreatedAt av) (avUpdatedAt av) None]> (wVals w)) (wNext w)
  | None => w
  end.

Definition scores (best above score v : Z) : World :=
  with_score (with_score (with_score labelled 2 best 1) 3 above 1) 1 score v.

Definition running (w : World) : Mat World := mkMat w {[ 1%N := true; 2%N := true ]} [] [].

Definition on_dish (depth : nat) (w : World) : call := (depth, 1%N, "soup"%string, running w).
Definition on_line (depth : nat) (w : World) : call := (depth, 2%N, "stock"%string, running w).

(** A recompute of the line, five neighbours deep, that starts itself. *)
Definition trap : call := on_line 5 (scores 0 1 1 2).

(** The calls that lead there from the first event. *)
Definition way_in : list call :=
  [ (1%nat, 2%N, "stock"%string, mkMat (scores 0 0 0 1) {[ 1%N := true ]} [] []);
    on_dish 2 (scores 0 0 1 2); on_line 3 (scores 1 0 1 2); on_line 3 (scores 1 1 1 2);
    on_dish 4 (scores 1 1 0 2); on_line 5 (scores 0 1 0 2) ].

(** What a call is answered when its run is compared with and without an answer. *)
Definition answer : Mat World := running (scores 0 0 0 2).
End CycleRun.
Import CycleRun.

Lemma trap_never n : run (H2 := stack rescored) n trap = None.
Proof.
  apply (waits_itself (H2 := stack rescored) 14 answer); vm_compute; reflexivity.
Qed.

(** Every call on the way waits for the next. *)
Lemma way_in_waits :
  Forall (fun p => waits_for (H2 := stack rescored) 14 answer p.1 p.2 = true)
    (zip way_in (tail way_in ++ [trap])).
Proof. repeat (apply Forall_cons; split; [vm_compute; reflexivity|]). apply Forall_nil. done. Qed.

Lemma chain_never T c ans k ks last :
  Forall (fun p => waits_for (H2 := stack T) c ans p.1 p.2 = true) (zip (k :: ks) (ks ++ [last])) ->
  (forall n, run (H2 := stack T) n last = None) -> forall n, run (H2 := stack T) n k = None.
Proof.
  revert k. induction ks as [|k' ks IH]; intros k Hall Hl n; apply Forall_cons in Hall as [Hw Hall].
  - by apply (waits_chain (H2 := stack T) c ans k last).
  - apply (waits_chain (H2 := stack T) c ans k k'); [exact Hw|]. intros n'. by apply IH.
Qed.

(** C38: the bound on the depth of the cascade does not bound the recompute: with two
    rollups and a formula in a cycle across two linked entities - definitions that
    were all accepted - a write to one of the entities commits, and the
    maintenance it dispatches does not return, however deep the recursion may go:
    five neighbours deep, a recompute that has lost a race against its own writes
    restarts itself in the state it started from. *)
Theorem aggregate_cycle_never_returns :
  is_ok (AttrUpdate (Some (relDefs kitchen_links)) admin rescore kitchen) = true /\
  labelling = Ok (labelled, Some 1%N) /\
  forall fuel, dispatch rescored fuel [ValueEvent 1 "soup"] (mat labelled) = None.
Proof.
  split; [vm_compute; reflexivity|]. split; [vm_compute; reflexivity|].
  apply (batch_waits_none (H2 := stack rescored) 14 answer _ _ (hd trap way_in)); [vm_compute; reflexivity|].
  apply (chain_never rescored 14 answer _ (tail way_in) trap); [exact way_in_waits|exact trap_never].
Qed.
