(* ===== verification/ValueWriteFacts.v ===== *)
(** What the write usecases of attribute values keep true of the tables, together
    with every change of types and attributes: one type per entity, values of
    their attribute's type, one value where one is allowed, no duplicate of a
    unique one, no scope where none is allowed. *)

From Stdlib Require Import ZArith QArith Lia String Ascii List SpecFloat.
From stdpp Require Import base tactics list gmap fin_maps fin_sets strings option decidable pretty relations.
From S2P Require Import Prelude GoText Values Ids Formula Attribute Access TypeDef TypeDefFacts.
From S2P Require Import Units Dependency ValueWrite AttributeWrite AttributeWriteFacts.
From S2P Require Import SchemaFacts.

Open Scope Z_scope.
Open Scope go_scope.

(** ** The invariant *)

(** The attribute [a] belongs to the schema of the type [i]. *)
Definition in_schema (c : Catalogue) (i : ID) (a : AttrDefinition) : Prop :=
  exists t l, c !! i = Some t /\ Ancestors c t = Ok l /\ typeDefinitionID a ∈ tdID <$> t :: l.

Definition live (r : AttributeValue) : Prop := AvIsArchived r = false.

Section Invariant.
Context `{GoStd}.

(** What a row owes to its attribute. *)
Record row_ok (T : Tables) (r : AttributeValue) (a : AttrDefinition) : Prop := {
  ro_attr : attrs T !! avAttrID r = Some a;
  ro_tenant : tenantID a = avTenantID r;
  ro_type : dataType (avValue r) = attrType a;
  ro_schema : in_schema (types T) (avTypeID r) a;
  ro_locale : live r -> localizable a = false -> Locale (avScope r) = EmptyString;
  ro_channel : live r -> scopable a = false -> Channel (avScope r) = EmptyString;
  ro_wf : wf_value (avValue r) }.

Record vals_ok (T : Tables) : Prop := {
  vo_keyed : map_Forall (fun i r => avID r = i) (vals T);
  vo_anchor : forall i j r s, vals T !! i = Some r -> vals T !! j = Some s ->
    avTenantID r = avTenantID s -> avEntityID r = avEntityID s -> avTypeID r = avTypeID s;
  vo_row : forall i r, vals T !! i = Some r -> exists a, row_ok T r a;
  vo_single : forall i j r s a, vals T !! i = Some r -> vals T !! j = Some s -> live r -> live s ->
    attrs T !! avAttrID r = Some a -> multiValued a = false ->
    avAttrID r = avAttrID s -> avEntityID r = avEntityID s -> avScope r = avScope s -> i = j;
  vo_unique : forall i j r s a, vals T !! i = Some r -> vals T !! j = Some s -> live r -> live s ->
    attrs T !! avAttrID r = Some a -> unique a = true -> avAttrID r = avAttrID s ->
    avScope r = avScope s -> Equal (avValue r) (avValue s) = true -> avEntityID r = avEntityID s }.
End Invariant.

Lemma of_entity_true tenant entity r :
  of_entity tenant entity r = true <-> avTenantID r = tenant /\ avEntityID r = entity.
Proof. unfold of_entity. by rewrite andb_true_iff, !bool_decide_eq_true. Qed.

Lemma ScopeEquals_true s t : ScopeEquals s t = true <-> s = t.
Proof.
  unfold ScopeEquals. rewrite andb_true_iff, !bool_decide_eq_true.
  destruct s, t; simpl. split; [by intros [-> ->]|by intros [= -> ->]].
Qed.

(** ** Anchors *)

Lemma EntityAnchor_None T tenant entity i r :
  EntityAnchor T tenant entity = None -> vals T !! i = Some r ->
  ~ (avTenantID r = tenant /\ avEntityID r = entity).
Proof.
  unfold EntityAnchor. intros Hn Hr Hof. apply fmap_None, head_None in Hn.
  assert (r ∈ sort_by by_created (List.filter (of_entity tenant entity) (values (vals T)))) as Hin.
  { apply sort_by_elem, elem_of_filter_b. split; [apply values_elem; by exists i|by apply of_entity_true]. }
  rewrite Hn in Hin. by apply not_elem_of_nil in Hin.
Qed.

Lemma EntityAnchor_Some T tenant entity a :
  EntityAnchor T tenant entity = Some a ->
  exists i r, vals T !! i = Some r /\ avTenantID r = tenant /\ avEntityID r = entity /\ avTypeID r = a.
Proof.
  unfold EntityAnchor. intros (r & Hr & ->)%fmap_Some.
  apply head_Some_elem_of, sort_by_elem, elem_of_filter_b in Hr as [[i Hi]%values_elem Hof].
  apply of_entity_true in Hof as [E1 E2]. by exists i, r.
Qed.

(** The rows of an entity carry the type [t]. *)
Definition anchored (T : Tables) (tenant : TenantID) (entity : EntityID) (t : ID) : Prop :=
  forall i r, vals T !! i = Some r -> avTenantID r = tenant -> avEntityID r = entity -> avTypeID r = t.

Lemma in_schema_ancestor c i a t l j :
  catalogue_ok c -> in_schema c i a -> c !! j = Some t -> Ancestors c t = Ok l ->
  i ∈ tdID <$> t :: l -> in_schema c j a.
Proof.
  intros Hok (u & k & Hu & Hk & Ha) Ht Hl (u' & -> & [m Hm]%list_elem_of_lookup)%list_elem_of_fmap.
  pose proof (chain_id _ Hok j t Ht) as Ej. rewrite <- Ej in Ht.
  destruct (chain_suffix _ Hok t l m u' Ht Hl Hm) as [Hu' Hk'].
  assert (u' = u) as -> by congruence. rewrite Hk in Hk'. injection Hk' as ->.
  exists t, l. rewrite <- Ej. split_and!; [done|done|].
  rewrite <- (take_drop m (t :: l)), (drop_S _ _ _ Hm), fmap_app, elem_of_app. by right.
Qed.

Lemma IsAncestorOrSelf_true c t candidate :
  IsAncestorOrSelf c t candidate = Ok true ->
  tdID t = candidate \/ exists l, Ancestors c t = Ok l /\ candidate ∈ tdID <$> l.
Proof.
  unfold IsAncestorOrSelf. case_bool_decide; [by left|]. intros Hi. res_inv. right.
  eexists. split; [done|]. match goal with E : existsb _ _ = true |- _ =>
    apply existsb_exists in E as (a & Ha & E) end. breflect.
  apply list_elem_of_fmap. exists a. split; [done|]. by apply list_elem_of_In.
Qed.

Section Writes.
Context `{GoStd} `{GoUlid} `{GoNumeric} `{GoKeys}.

Lemma vals_shape T T' :
  types T' = types T -> attrs T' = attrs T -> vals T' = vals T -> vals_ok T -> vals_ok T'.
Proof.
  intros Et Ea Ev [V1 V2 V3 V4 V5]. split; rewrite ?Ev, ?Ea; try done.
  intros i r Hr. destruct (V3 i r Hr) as [a [R1 R2 R3 R4 R5 R6 R7]]. exists a.
  split; rewrite ?Et, ?Ea; done.
Qed.

(** The row of an entity moved to another type. *)
Definition moved (tenant : TenantID) (entity : EntityID) (to : ID) (r : AttributeValue) : AttributeValue :=
  if of_entity tenant entity r then set_av_type r to else r.

Lemma Reanchor_lookup T tenant entity to i r' :
  vals (ReanchorEntity T tenant entity to) !! i = Some r' ->
  exists r, vals T !! i = Some r /\ r' = moved tenant entity to r.
Proof. simpl. rewrite lookup_fmap. intros (r & Hr & ->)%fmap_Some. by exists r. Qed.

Lemma moved_keeps tenant entity to r :
  let m := moved tenant entity to r in
  avID m = avID r /\ avTenantID m = avTenantID r /\ avEntityID m = avEntityID r /\
  avAttrID m = avAttrID r /\ avScope m = avScope r /\ avValue m = avValue r /\
  AvIsArchived m = AvIsArchived r.
Proof. unfold moved. by destruct (of_entity tenant entity r). Qed.

Lemma moved_type tenant entity to r :
  avTypeID (moved tenant entity to r) =
  if of_entity tenant entity r then to else avTypeID r.
Proof. unfold moved. by destruct (of_entity tenant entity r). Qed.

Lemma reanchor_anchored T tenant entity to : anchored (ReanchorEntity T tenant entity to) tenant entity to.
Proof.
  intros i r' (r & Hr & ->)%Reanchor_lookup Et Ee.
  destruct (moved_keeps tenant entity to r) as (_ & K2 & K3 & _). rewrite moved_type.
  assert (of_entity tenant entity r = true) as -> by (apply of_entity_true; split; congruence). done.
Qed.

Lemma reanchor_ok T tenant entity from to t l :
  catalogue_ok (types T) -> vals_ok T -> anchored T tenant entity from ->
  types T !! to = Some t -> Ancestors (types T) t = Ok l -> from ∈ tdID <$> t :: l ->
  vals_ok (ReanchorEntity T tenant entity to).
Proof.
  intros Hok [V1 V2 V3 V4 V5] Hanc Ht Hl Hin. split.
  - intros i r' (r & Hr & ->)%Reanchor_lookup.
    destruct (moved_keeps tenant entity to r) as (-> & _). by apply (V1 i r).
  - intros i j r' s' (r & Hr & ->)%Reanchor_lookup (s & Hs & ->)%Reanchor_lookup.
    destruct (moved_keeps tenant entity to r) as (_ & -> & -> & _),
      (moved_keeps tenant entity to s) as (_ & -> & -> & _).
    intros Et Ee. rewrite !moved_type.
    assert (of_entity tenant entity r = of_entity tenant entity s) as -> by (unfold of_entity; by rewrite Et, Ee).
    destruct (of_entity tenant entity s); [done|]. by apply (V2 i j).
  - intros i r' (r & Hr & ->)%Reanchor_lookup. destruct (V3 i r Hr) as [a [R1 R2 R3 R4 R5 R6 R7]].
    destruct (moved_keeps tenant entity to r) as (_ & K2 & K3 & K4 & K5 & K6 & K7).
    exists a. split; rewrite ?K2, ?K4, ?K5, ?K6; try done; unfold live; rewrite ?K7; try done.
    rewrite moved_type. destruct (of_entity tenant entity r) eqn:Eo; [|done].
    apply of_entity_true in Eo as [E1 E2]. rewrite (Hanc i r Hr E1 E2) in R4.
    by eapply (in_schema_ancestor _ from).
  - intros i j r' s' a (r & Hr & ->)%Reanchor_lookup (s & Hs & ->)%Reanchor_lookup. unfold live.
    destruct (moved_keeps tenant entity to r) as (_ & _ & -> & -> & -> & _ & ->),
      (moved_keeps tenant entity to s) as (_ & _ & -> & -> & -> & _ & ->). by apply (V4 i j).
  - intros i j r' s' a (r & Hr & ->)%Reanchor_lookup (s & Hs & ->)%Reanchor_lookup. unfold live.
    destruct (moved_keeps tenant entity to r) as (_ & _ & -> & -> & -> & -> & ->),
      (moved_keeps tenant entity to s) as (_ & _ & -> & -> & -> & -> & ->). by apply (V5 i j).
Qed.

(** Only rows may have changed, and no row came or went. *)
Definition same_rows (T T' : Tables) : Prop :=
  types T' = types T /\ attrs T' = attrs T /\ forall i, vals T' !! i = None <-> vals T !! i = None.

Lemma same_rows_refl T : same_rows T T.
Proof. by split_and!. Qed.

Lemma resolveType_spec T tenant def entity raw T1 et :
  catalogue_ok (types T) -> vals_ok T -> resolveType T tenant def entity raw = Ok (T1, et) ->
  same_rows T T1 /\ vals_ok T1 /\ anchored T1 tenant entity et.
Proof.
  intros Hok HV Hr. pose proof HV as [V1 V2 V3 V4 V5].
  assert (forall a, EntityAnchor T tenant entity = Some a -> anchored T tenant entity a) as Ha.
  { intros a (j & s & Hs & Es1 & Es2 & Es3)%EntityAnchor_Some i r Hi E1 E2.
    rewrite <- Es3. apply (V2 i j); congruence. }
  assert (forall a, EntityAnchor T tenant entity = None -> anchored T tenant entity a) as Hn.
  { intros a HN i r Hi E1 E2. destruct (EntityAnchor_None T tenant entity i r HN Hi). done. }
  unfold resolveType in Hr. destruct (str_IsZero raw).
  { injection Hr as <- <-. refine (conj (same_rows_refl T) (conj HV _)).
    destruct (EntityAnchor T tenant entity) eqn:E; simpl; auto. }
  destruct (ParseID raw) as [supplied|]; [|done].
  destruct (EntityAnchor T tenant entity) as [a|] eqn:E;
    [|injection Hr as <- <-; exact (conj (same_rows_refl T) (conj HV (Hn _ eq_refl)))].
  case_bool_decide as Ea;
    [injection Hr as <- <-; subst; exact (conj (same_rows_refl T) (conj HV (Ha _ eq_refl)))|].
  res_inv. match goal with E1 : TypeGet _ supplied = Ok ?t, E2 : IsAncestorOrSelf _ _ _ = Ok ?b |- _ =>
    rename t into t', b into narrowing, E1 into Hget, E2 into Hnar end.
  destruct narrowing; cycle 1.
  { res_inv. exact (conj (same_rows_refl _) (conj HV (Ha _ eq_refl))). }
  injection Hr as <- <-. unfold TypeGet in Hget. destruct (types T !! supplied) as [t|] eqn:Et; [|done].
  injection Hget as <-. apply IsAncestorOrSelf_true in Hnar as [Hid|(l & Hl & Hin)].
  { by rewrite (chain_id _ Hok supplied t Et) in Hid. }
  refine (conj _ (conj _ (reanchor_anchored _ _ _ _))).
  - split_and!; [done|done|]. intros i. simpl. rewrite lookup_fmap. apply fmap_None.
  - apply (reanchor_ok T tenant entity a supplied t l); try done; [by apply Ha|].
    rewrite fmap_cons. by right.
Qed.

(** ** The row a write leaves *)

Lemma resolveType_deps T tenant def entity raw T1 et :
  resolveType T tenant def entity raw = Ok (T1, et) -> deps T1 = deps T.
Proof.
  unfold resolveType. destruct (str_IsZero raw); [by intros [= <- _]|]. destruct (ParseID raw); [|done].
  destruct (EntityAnchor _ _ _) as [a0|]; [|by intros [= <- _]]. case_bool_decide; [by intros [= <- _]|].
  intros Hr. res_inv. match goal with H : (if ?b then _ else _) = Ok (T1, et) |- _ => destruct b end; res_inv; done.
Qed.

(** What a write has established about the value, the attribute, the entity. *)
Record write_ok (T : Tables) (def : AttrDefinition) (et : ID) (entity : EntityID) (scope : Scope)
    (v : Value) : Prop := {
  wo_attr : attrs T !! id def = Some def;
  wo_schema : in_schema (types T) et def;
  wo_anchor : anchored T (tenantID def) entity et;
  wo_locale : localizable def = false -> Locale scope = EmptyString;
  wo_channel : scopable def = false -> Channel scope = EmptyString;
  wo_unique : unique def = true -> forall i r, vals T !! i = Some r -> live r ->
    avAttrID r = id def -> avScope r = scope -> Equal (avValue r) v = true -> avEntityID r = entity;
  wo_wf : wf_value v }.

Lemma AvSave_lookup T r i s :
  vals (AvSave T r) !! i = Some s -> (i = avID r /\ s = r) \/ (i <> avID r /\ vals T !! i = Some s).
Proof. simpl. intros [[-> ->]|[Hne Hs]]%lookup_insert_Some; [by left|by right]. Qed.

(** A row stored under a fresh identifier, or in place of one of its key. *)
Lemma save_ok T def et entity scope v r :
  vals_ok T -> write_ok T def et entity scope v ->
  avTenantID r = tenantID def -> avAttrID r = id def -> avEntityID r = entity -> avScope r = scope ->
  avValue r = v -> avTypeID r = et -> dataType v = attrType def ->
  (multiValued def = false -> forall i s, vals T !! i = Some s -> live s -> i <> avID r ->
     avAttrID s = id def -> avEntityID s = entity -> avScope s <> scope) ->
  vals_ok (AvSave T r).
Proof.
  intros [V1 V2 V3 V4 V5] [W1 W2 W3 W4 W5 W6 W7] Rt Ra Re Rs Rv Ry Hd Hsingle. split.
  - apply map_Forall_insert_2; done.
  - intros i j s u Hs Hu Et Ee.
    apply AvSave_lookup in Hs as [[-> ->]|[Hi Hs]], Hu as [[-> ->]|[Hj Hu]]; [done| | |by apply (V2 i j)].
    + rewrite Ry. symmetry. apply (W3 j u Hu); congruence.
    + rewrite Ry. apply (W3 i s Hs); congruence.
  - intros i s Hs. apply AvSave_lookup in Hs as [[-> ->]|[Hi Hs]].
    + exists def. split; simpl; rewrite ?Ra, ?Rt, ?Ry, ?Rs, ?Rv; done.
    + destruct (V3 i s Hs) as [a [R1 R2 R3 R4 R5 R6 R7]]. exists a. by split.
  - intros i j s u a Hs Hu Ls Lu Ha Hm Ea Ee Es. simpl in Ha.
    apply AvSave_lookup in Hs as [[-> ->]|[Hi Hs]], Hu as [[-> ->]|[Hj Hu]]; [done| | |by apply (V4 i j s u a)].
    + exfalso. rewrite Ra, W1 in Ha. injection Ha as <-.
      by apply (Hsingle Hm j u Hu Lu Hj); congruence.
    + exfalso. rewrite Ea, Ra, W1 in Ha. injection Ha as <-.
      by apply (Hsingle Hm i s Hs Ls Hi); congruence.
  - intros i j s u a Hs Hu Ls Lu Ha Hun Ea Es Eq. simpl in Ha.
    apply AvSave_lookup in Hs as [[-> ->]|[Hi Hs]], Hu as [[-> ->]|[Hj Hu]]; [done| | |by apply (V5 i j s u a)].
    + rewrite Ra, W1 in Ha. injection Ha as <-. rewrite Rv in Eq.
      rewrite (W6 Hun j u Hu Lu); [done|congruence|congruence|by apply Equal_sym].
    + rewrite Ea, Ra, W1 in Ha. injection Ha as <-. rewrite Rv in Eq.
      rewrite (W6 Hun i s Hs Ls); [done|congruence|congruence|done].
Qed.

(** A live row archived. *)
Lemma remove_ok T r now :
  vals_ok T -> vals T !! avID r = Some r -> vals_ok (AvSave T (set_av_archived r now)).
Proof.
  intros [V1 V2 V3 V4 V5] Hr.
  assert (forall i s, vals (AvSave T (set_av_archived r now)) !! i = Some s ->
    exists s0, vals T !! i = Some s0 /\ avTenantID s = avTenantID s0 /\ avEntityID s = avEntityID s0 /\
      avTypeID s = avTypeID s0 /\ avAttrID s = avAttrID s0 /\ avScope s = avScope s0 /\
      avValue s = avValue s0 /\ (live s -> live s0)) as Hold.
  { intros i s [[-> ->]|[Hi Hs]]%AvSave_lookup; [|by exists s]. exists r. by split_and!. }
  split.
  - apply map_Forall_insert_2; done.
  - intros i j s u (s0 & Hs & E1 & E2 & E3 & _)%Hold (u0 & Hu & F1 & F2 & F3 & _)%Hold Et Ee.
    rewrite E3, F3. apply (V2 i j); congruence.
  - intros i s (s0 & Hs & E1 & E2 & E3 & E4 & E5 & E6 & E7)%Hold.
    destruct (V3 i s0 Hs) as [a [R1 R2 R3 R4 R5 R6 R7]].
    exists a. split; simpl; rewrite ?E4, ?E1, ?E3, ?E5, ?E6; auto.
  - intros i j s u a (s0 & Hs & E1 & E2 & E3 & E4 & E5 & E6 & E7)%Hold
      (u0 & Hu & F1 & F2 & F3 & F4 & F5 & F6 & F7)%Hold Ls Lu Ha Hm Ea Ee Es. simpl in Ha.
    apply (V4 i j s0 u0 a); auto; congruence.
  - intros i j s u a (s0 & Hs & E1 & E2 & E3 & E4 & E5 & E6 & E7)%Hold
      (u0 & Hu & F1 & F2 & F3 & F4 & F5 & F6 & F7)%Hold Ls Lu Ha Hun Ea Es Eq. simpl in Ha.
    rewrite E2, F2. apply (V5 i j s0 u0 a); auto; congruence.
Qed.

(** What a usecase leaves alone: the schema, and every key but the fresh ones. *)
Definition writes (fresh : ID -> Prop) (T T' : Tables) : Prop :=
  types T' = types T /\ attrs T' = attrs T /\
  forall i, vals T !! i = None -> ~ fresh i -> vals T' !! i = None.

Lemma writes_refl P T : writes P T T.
Proof. by split_and!. Qed.

Lemma writes_trans P T T' T'' : writes P T T' -> writes P T' T'' -> writes P T T''.
Proof. intros (A1 & A2 & A3) (B1 & B2 & B3). split_and!; [congruence|congruence|auto]. Qed.

Lemma writes_mono (P Q : ID -> Prop) T T' : (forall i, P i -> Q i) -> writes P T T' -> writes Q T T'.
Proof. intros HPQ (A1 & A2 & A3). split_and!; auto. Qed.

Lemma save_writes (P : ID -> Prop) T r :
  P (avID r) \/ is_Some (vals T !! avID r) -> writes P T (AvSave T r).
Proof.
  intros Hr. split_and!; [done|done|]. intros i Hi Hf. simpl. rewrite lookup_insert_ne; [done|].
  intros <-. destruct Hr as [|[x Hx]]; [done|congruence].
Qed.

Lemma ValidateValue_type def v : ValidateValue def v = Ok tt -> IsZero v = false -> dataType v = attrType def.
Proof. unfold ValidateValue. intros Hv Hz. rewrite Hz in Hv. res_inv. by breflect. Qed.

Lemma FindByDefinitionAndEntity_elem T d entity r :
  r ∈ FindByDefinitionAndEntity T d entity <->
  (exists i, vals T !! i = Some r) /\ avAttrID r = d /\ avEntityID r = entity /\ live r.
Proof.
  unfold FindByDefinitionAndEntity, live. rewrite sort_by_elem, elem_of_filter_b, values_elem.
  rewrite !andb_true_iff, !bool_decide_eq_true, negb_true_iff. tauto.
Qed.

Lemma upsert_ok T c def et entity scope v fresh now T' c' av :
  vals_ok T -> write_ok T def et entity scope v -> vals T !! fresh = None ->
  upsert T c def et entity scope v fresh now = Ok (T', c', av) ->
  vals_ok T' /\ writes (eq fresh) T T'.
Proof.
  intros HV HW Hfresh. unfold upsert.
  set (existing := List.filter _ _).
  assert (Hin : forall r, r ∈ existing <-> (exists i, vals T !! i = Some r) /\ avAttrID r = id def /\
    avEntityID r = entity /\ live r /\ avScope r = scope).
  { intros r. unfold existing. rewrite elem_of_filter_b, FindByDefinitionAndEntity_elem, ScopeEquals_true. tauto. }
  clearbody existing.
  assert (Hins : (multiValued def = false -> existing = []) ->
    insertRow T c def et entity scope v fresh now existing = Ok (T', c', av) ->
    vals_ok T' /\ writes (eq fresh) T T').
  { intros Hex. unfold insertRow. destruct (List.find _ _).
    - intros [= <- <- <-]. split; [done|apply writes_refl].
    - intros Hi. res_inv. match goal with E : AvNew _ _ _ _ _ _ _ = Ok _ |- _ => unfold AvNew in E; res_inv end.
      simpl. split; [|apply save_writes; by left].
      eapply (save_ok T def et entity scope v); try done.
      + by apply ValidateValue_type.
      + intros Hm j s Hs Ls _ E1 E2 E3. specialize (Hex Hm).
        assert (s ∈ existing) as Hse by (apply Hin; split_and!; [by exists j|done..]).
        rewrite Hex in Hse. by apply not_elem_of_nil in Hse. }
  destruct existing as [|r rest]; [by apply Hins|].
  destruct (multiValued def) eqn:Em; [intros Hi; by apply Hins|].
  intros Hu. res_inv. match goal with E : UpdateValue _ _ _ _ = Ok ?x |- _ => destruct x as [r' evs]; rename E into Hup end.
  simpl in Hu. assert (r ∈ r :: rest) as Hr by by left. apply Hin in Hr as ((j & Hj) & Ra & Re & Rl & Rs).
  pose proof (vo_keyed _ HV j r Hj) as Ej. simpl in Ej. subst j.
  case_bool_decide.
  { injection Hu as <- <- <-. split; [done|apply writes_refl]. }
  unfold UpdateValue in Hup. res_inv.
  match type of Hup with (if ?b then _ else _) = _ => destruct b end;
    injection Hup as <- <-; [simpl in *; lia|].
  simpl. split; [|apply save_writes; right; by exists r].
  destruct (vo_row _ HV _ r Hj) as [a [Q1 Q2 Q3 Q4 Q5 Q6]].
  assert (a = def) as -> by (pose proof (wo_attr _ _ _ _ _ _ HW); congruence).
  eapply (save_ok T def et _ _ _ _ HV HW); try done.
  - by apply (wo_anchor _ _ _ _ _ _ HW _ r Hj).
  - by apply ValidateValue_type.
  - intros _ j s Hs Ls Hne E1 E2 E3. apply Hne. simpl.
    apply (vo_single _ HV j (avID r) s r def Hs Hj Ls Rl); congruence.
Qed.

Lemma inSchema_spec T def et :
  schema_ok T -> inSchema T def et = Ok tt -> liveChain T et = Ok tt -> in_schema (types T) et def.
Proof.
  intros HT Hi Hlive. unfold liveChain in Hlive. res_inv. clear Hlive.
  match goal with E1 : TypeGet _ et = Ok ?t, E2 : Chain _ _ = Ok ?ls |- _ =>
    pose proof E1 as Hget; apply (TypeGet_spec _ _ _ HT) in E1 as [<- Ht];
    apply Chain_ok in E2 as (l & Hl & ->); exists t, l; split_and!; [done|done|] end.
  unfold inSchema in Hi. rewrite fmap_cons, elem_of_cons. case_bool_decide as E; [by left|]. right.
  rewrite Hget in Hi. simpl in Hi. res_inv. breflect. subst.
  match goal with E : IsAncestorOrSelf _ _ _ = Ok true |- _ =>
    apply IsAncestorOrSelf_true in E as [E|(k & Hk & Hin)]; [done|] end.
  by assert (k = l) as -> by congruence.
Qed.

Lemma no_clash T d scope v entity i r :
  CountByDefinitionAndValue T d scope v entity = 0%nat -> vals T !! i = Some r -> live r ->
  avAttrID r = d -> avScope r = scope -> Equal (avValue r) v = true -> avEntityID r = entity.
Proof.
  unfold CountByDefinitionAndValue. intros Hz Hr Hl Ea Es Eq. apply nil_length_inv in Hz.
  destruct (decide (avEntityID r = entity)) as [|Hne]; [done|].
  assert (r ∈ List.filter (clashes d scope v entity) (values (vals T))) as Hin.
  { apply elem_of_filter_b. split; [apply values_elem; by exists i|]. unfold clashes.
    unfold live in Hl. rewrite Hl, Eq, (bool_decide_true _ Ea), (bool_decide_false _ Hne). simpl.
    by rewrite (proj2 (ScopeEquals_true _ _) Es). }
  rewrite Hz in Hin. by apply not_elem_of_nil in Hin.
Qed.

Lemma schema_same T T' : types T' = types T -> attrs T' = attrs T -> schema_ok T -> schema_ok T'.
Proof. intros Et Ea [S1 S2 S3]. split; rewrite ?Et, ?Ea; done. Qed.

(** What [setWithin] has checked before it writes the value [v] of [def]. *)
Record accepted (rq : Request) (i : SetInput) (T : Tables) (def : AttrDefinition)
    (entity : EntityID) (T1 : Tables) (et : ID) (v : Value) : Prop := {
  ac_id : ParseID (siAttributeDefinitionID i) = Ok (id def);
  ac_def : attrs T !! id def = Some def;
  ac_entity : ParseEntityID (siEntityID i) = Ok entity;
  ac_tenant : tenantID def = rqTenant rq;
  ac_type : resolveType T (rqTenant rq) def entity (siTypeDefinitionID i) = Ok (T1, et);
  ac_schema : inSchema T1 def et = Ok tt;
  ac_live : liveChain T1 et = Ok tt;
  ac_write : IsComputed def = true /\ siInternal i = true \/
    IsComputed def = false /\ CanWrite (rqAccess rq) (internalName def) = true;
  ac_value : decodeValue T1 rq def i = Ok v;
  ac_locale : localizable def = false -> siLocale i = EmptyString;
  ac_channel : scopable def = false -> siChannel i = EmptyString;
  ac_deps : checkDependencies T1 rq def et entity v = Ok tt;
  ac_unique : unique def = true ->
    CountByDefinitionAndValue T1 (id def) (mkScope (siLocale i) (siChannel i)) v entity = 0%nat }.

Lemma empty_unless (s : string) (b : bool) :
  negb (str_IsZero s) && negb b = false -> b = false -> s = EmptyString.
Proof.
  intros Hg ->. rewrite andb_true_r in Hg. by apply negb_false_iff, bool_decide_eq_true in Hg.
Qed.

(** What [admitWrite] checks, whatever the dependencies it was given. *)
Lemma admit_inv rq i def entity targeting T c T1 c1 et v :
  admitWrite rq i def entity targeting T c = Ok (T1, c1, (et, v)) ->
  c1 = noteWrite (mkRef (tenantID def) et entity false) (siInternal i && IsComputed def) c /\
  tenantID def = rqTenant rq /\
  resolveType T (rqTenant rq) def entity (siTypeDefinitionID i) = Ok (T1, et) /\
  inSchema T1 def et = Ok tt /\ liveChain T1 et = Ok tt /\
  (IsComputed def = true /\ siInternal i = true \/
   IsComputed def = false /\ CanWrite (rqAccess rq) (internalName def) = true) /\
  decodeValue T1 rq def i = Ok v /\
  (localizable def = false -> siLocale i = EmptyString) /\
  (scopable def = false -> siChannel i = EmptyString) /\
  checkTargeting T1 rq def et entity v targeting = Ok tt /\
  (unique def = true ->
   CountByDefinitionAndValue T1 (id def) (mkScope (siLocale i) (siChannel i)) v entity = 0%nat).
Proof.
  unfold admitWrite. cbv zeta. cbn [negb]. intros Hs. res_inv.
  match goal with
  | E2 : resolveType _ _ _ _ _ = Ok ?x, E3 : EnsureTenant _ _ _ = Ok _ |- _ =>
      destruct x; unfold EnsureTenant in E3; case_bool_decide as Eten; [|done] end.
  cbn [fst snd] in *. subst. split_and!; try done; try (by apply empty_unless).
  - destruct (IsComputed def) eqn:Ec.
    + left. split; [done|]. destruct (siInternal i); [done|]. by simpl in *.
    + right. split; [done|]. rewrite andb_false_r in *. simpl in *. by breflect.
  - intros Hu. match goal with E : unique def && _ = false |- _ =>
      rewrite Hu in E; simpl in E; by apply negb_false_iff, Nat.eqb_eq in E end.
Qed.

Lemma set_inv rq i fresh T c T' c' av :
  schema_ok T -> setWithin rq i fresh T c = Ok (T', c', av) ->
  exists def entity T1 et v, accepted rq i T def entity T1 et v /\
    upsert T1 (noteWrite (mkRef (tenantID def) et entity false) (siInternal i && IsComputed def) c)
      def et entity (mkScope (siLocale i) (siChannel i)) v fresh (rqNow rq) = Ok (T', c', av).
Proof.
  intros HT. unfold setWithin.
  destruct (ParseID _) as [defID|] eqn:Eid; [|done]. destruct (ParseEntityID _) as [entity|] eqn:Een; [|done].
  intros Hs. res_inv.
  match goal with E1 : AttrGet _ _ = Ok ?d, E2 : admitWrite _ _ _ _ _ _ _ = Ok ?x |- _ =>
    rename d into def, E2 into Ha; destruct x as [[T1 c1] [et v]];
    apply (AttrGet_spec _ _ _ HT) in E1 as [<- Hdef] end.
  pose proof Ha as (_ & _ & Hr & _)%admit_inv.
  assert (deps T1 = deps T) as Hdeps by (by apply resolveType_deps in Hr).
  apply admit_inv in Ha as (-> & A1 & A2 & A3 & A4 & A5 & A6 & A7 & A8 & A9 & A10).
  exists def, entity, T1, et, v. split; [|done]. split; try done.
  unfold checkDependencies, ListByTarget, live_deps. by rewrite Hdeps.
Qed.

Lemma decodeValue_wf T rq def i v : vals_ok T -> decodeValue T rq def i = Ok v -> wf_value v.
Proof.
  intros HV. unfold decodeValue. destruct (_ && _); [|case_bool_decide].
  - unfold adoptMediaValue. destruct (ParseValue _ _); [|done]. cbv zeta. intros Hd. res_inv.
    destruct (MediaValueForKey _ _ _) as [r|] eqn:Er; [|done]. res_inv.
    unfold MediaValueForKey in Er. apply head_Some_elem_of in Er.
    rewrite sort_by_elem, elem_of_filter_b, values_elem in Er. destruct Er as [(j & Hj) _].
    destruct (vo_row _ HV j r Hj) as [a1 Ha1]. by apply (ro_wf _ _ _ Ha1).
  - unfold quantityValue. destruct (families T); [|done]. intros Hd. res_inv.
    destruct (_ ≫= _) as [[m u]|]; [|done]. destruct (ParseID _); [|done]. res_inv.
    by eapply NewQuantityValue_wf.
  - destruct (ParseValue _ _) eqn:Ep; [|done]. intros [= <-]. by apply ParseValue_wf in Ep as [_ ?].
Qed.

Lemma accepted_write_ok rq i T def entity T1 et v :
  schema_ok T -> vals_ok T -> accepted rq i T def entity T1 et v ->
  same_rows T T1 /\ vals_ok T1 /\ write_ok T1 def et entity (mkScope (siLocale i) (siChannel i)) v.
Proof.
  intros HT HV [A1 A2 A3 A4 A5 A6 A7 A8 A9 A10 A11 A12 A13].
  apply (resolveType_spec _ _ _ _ _ _ _ (so_types _ HT) HV) in A5 as (HR & HV1 & Hanc).
  pose proof HR as (R1 & R2 & R3). pose proof (schema_same _ _ R1 R2 HT) as HT1.
  split; [done|]. split; [done|]. split; simpl; try done.
  - by rewrite R2.
  - by apply inSchema_spec.
  - by rewrite A4.
  - intros Hu j r Hr Lr Ea Es Eq. by apply (no_clash _ _ _ _ _ j r (A13 Hu) Hr Lr).
  - by apply (decodeValue_wf T1 rq def i).
Qed.

Lemma set_ok rq i fresh T c T' c' av :
  schema_ok T -> vals_ok T -> vals T !! fresh = None ->
  setWithin rq i fresh T c = Ok (T', c', av) -> vals_ok T' /\ writes (eq fresh) T T'.
Proof.
  intros HT HV Hfresh Hs. apply (set_inv _ _ _ _ _ _ _ _ HT) in Hs as (def & entity & T1 & et & v & Hacc & Hu).
  destruct (accepted_write_ok _ _ _ _ _ _ _ _ HT HV Hacc) as ((R1 & R2 & R3) & HV1 & HW).
  apply (upsert_ok _ _ _ _ _ _ _ _ _ _ _ _ HV1 HW) in Hu as [HV' (U1 & U2 & U3)]; [|by apply R3].
  split; [done|]. split_and!; [congruence|congruence|]. intros j Hj Hne. apply U3; [by apply R3|done].
Qed.

(** ** Loops *)

Section Loops.
Variable fresh : nat -> ID.
Hypothesis Hinj : Inj (=) (=) fresh.

Lemma setEach_ok rq items T c out T' c' out' :
  schema_ok T -> vals_ok T -> NoDup items.*1 ->
  (forall n, n ∈ items.*1 -> vals T !! fresh n = None) ->
  setEach rq items fresh T c out = Ok (T', c', out') ->
  vals_ok T' /\ types T' = types T /\ attrs T' = attrs T.
Proof using Hinj.
  revert T c out. induction items as [|[n i] items IH]; intros T c out HT HV Hnd Hf; cbn [setEach].
  { by intros [= <- <- <-]. }
  rewrite fmap_cons in Hnd, Hf. cbn [fst] in Hnd, Hf.
  intros Hs. res_inv. match goal with E : setWithin _ _ _ _ _ = Ok ?x |- _ => destruct x as [[T1 c1] av];
    apply (set_ok _ _ _ _ _ _ _ _ HT HV) in E as [HV1 (W1 & W2 & W3)]; [|apply Hf; by left] end.
  apply list.NoDup_cons in Hnd as [Hn Hnd]. cbn [fst snd] in *.
  assert (forall m, m ∈ items.*1 -> vals T1 !! fresh m = None) as Hf1.
  { intros m Hm. apply W3; [apply Hf; by right|]. intros E. by apply (inj fresh) in E as ->. }
  destruct (IH T1 c1 _ (schema_same _ _ W1 W2 HT) HV1 Hnd Hf1 Hs) as (I1 & I2 & I3).
  split_and!; [done|congruence|congruence].
Qed.

Lemma removeEach_ok rq scope internal rows T c T' c' :
  vals_ok T -> NoDup (avID <$> rows) -> (forall r, r ∈ rows -> vals T !! avID r = Some r) ->
  removeEach rq scope internal rows T c = Ok (T', c') -> vals_ok T' /\ writes (fun _ => False) T T'.
Proof using.
  revert T c. induction rows as [|r rows IH]; intros T c HV Hnd Hr; simpl.
  { intros [= <- <-]. split; [done|apply writes_refl]. }
  rewrite fmap_cons in Hnd. apply list.NoDup_cons in Hnd as [Hn Hnd].
  destruct (_ || _); [apply IH; [done|done|intros s Hs; apply Hr; by right]|].
  intros Hs. res_inv. match goal with E : AvRemove _ _ = Ok _ |- _ => unfold AvRemove in E; res_inv end.
  simpl in Hs. apply IH in Hs as [H1' H2'].
  - split; [done|]. eapply writes_trans; [|exact H2']. apply save_writes. right. exists r. exact (Hr r ltac:(by left)).
  - apply remove_ok; [done|]. apply Hr. by left.
  - done.
  - intros s Hin. simpl. rewrite lookup_insert_ne; [apply Hr; by right|]. intros E. apply Hn.
    apply list_elem_of_fmap. by exists s.
Qed.

Lemma FindByDefinitionAndEntity_rows T d entity :
  vals_ok T ->
  NoDup (avID <$> FindByDefinitionAndEntity T d entity) /\
  (forall r, r ∈ FindByDefinitionAndEntity T d entity -> vals T !! avID r = Some r).
Proof using.
  intros HV. split.
  - unfold FindByDefinitionAndEntity. rewrite sort_by_perm.
    apply filter_fmap_NoDup, values_keys, (vo_keyed _ HV).
  - intros r ((i & Hi) & _)%FindByDefinitionAndEntity_elem.
    by rewrite (vo_keyed _ HV i r Hi).
Qed.

Lemma applyEach_ok rq muts T c T' c' :
  schema_ok T -> vals_ok T -> NoDup muts.*1 ->
  (forall n, n ∈ muts.*1 -> vals T !! fresh n = None) ->
  applyEach rq muts fresh T c = Ok (T', c') ->
  vals_ok T' /\ types T' = types T /\ attrs T' = attrs T.
Proof using Hinj.
  revert T c. induction muts as [|[n m] muts IH]; intros T c HT HV Hnd Hf; cbn [applyEach].
  { by intros [= <- <-]. }
  rewrite fmap_cons in Hnd, Hf. cbn [fst] in Hnd, Hf.
  apply list.NoDup_cons in Hnd as [Hn Hnd]. intros Hs.
  assert (exists T1 c1, applyEach rq muts fresh T1 c1 = Ok (T', c') /\ vals_ok T1 /\
    writes (eq (fresh n)) T T1) as (T1 & c1 & Hk & HV1 & W1 & W2 & W3).
  { destruct (mKind m); [| |done]; res_inv.
    - match goal with E : setWithin _ _ _ _ _ = Ok ?x |- _ => destruct x as [[T1 c1] av];
        apply (set_ok _ _ _ _ _ _ _ _ HT HV) in E as [HV1 HW]; [|apply Hf; by left] end.
      by exists T1, c1.
    - match goal with E : removeScopedWithin _ _ _ _ = Ok ?x |- _ => destruct x as [T1 c1];
        unfold removeScopedWithin in E; rename E into Hrem end.
      destruct (ParseID _); [|done]. destruct (ParseEntityID _); [|done]. res_inv.
      destruct (FindByDefinitionAndEntity_rows T a a0 HV) as [F1 F2].
      apply (removeEach_ok _ _ _ _ _ _ _ _ HV F1 F2) in Hrem as [HV1 HW].
      exists T1, c1. split_and!; [done|done|]. by eapply writes_mono; [|exact HW]. }
  assert (forall m, m ∈ muts.*1 -> vals T1 !! fresh m = None) as Hf1.
  { intros k Hkm. apply W3; [apply Hf; by right|]. intros E. by apply (inj fresh) in E as ->. }
  destruct (IH T1 c1 (schema_same _ _ W1 W2 HT) HV1 Hnd Hf1 Hk) as (I1 & I2 & I3).
  split_and!; [done|congruence|congruence].
Qed.
End Loops.

Lemma canonicalOrder_indices {A} (f : A -> EntityID) (items : list A) :
  NoDup (canonicalOrder f items).*1.
Proof.
  unfold canonicalOrder. rewrite sort_by_perm. rewrite fmap_imap.
  assert (forall k, imap (fun n (x : A) => (k + n, x).1)%nat items = seq k (length items)) as E.
  { induction items as [|x items IH]; intros k; simpl; [done|]. f_equal; [lia|].
    rewrite <- IH. apply imap_ext. intros. simpl. lia. }
  specialize (E 0%nat). simpl in E. unfold compose. simpl. rewrite E. apply NoDup_seq.
Qed.

Lemma Execute_ok {A} rq (f : Tables -> Collector -> result (Tables * Collector * A)) T T' c a :
  Execute rq f T = Ok (T', c, a) -> f T newCollector = Ok (T', c, a) /\
  match gate c with Some g => enforceRequiredOnWrite T' rq g = Ok tt | None => True end.
Proof.
  unfold Execute. intros He. res_inv.
  match goal with E : f _ _ = Ok ?x |- _ => destruct x as [[T1 c1] a1] end.
  res_inv. split; [done|]. destruct (gate c); [done|done].
Qed.

(** ** The schema changes under the values *)

(** What the live values of one attribute satisfy. *)
Record fits (T : Tables) (a : AttrDefinition) : Prop := {
  ft_locale : localizable a = false -> forall i r, vals T !! i = Some r -> live r ->
    avAttrID r = id a -> Locale (avScope r) = EmptyString;
  ft_channel : scopable a = false -> forall i r, vals T !! i = Some r -> live r ->
    avAttrID r = id a -> Channel (avScope r) = EmptyString;
  ft_single : multiValued a = false -> forall i j r s, vals T !! i = Some r -> vals T !! j = Some s ->
    live r -> live s -> avAttrID r = id a -> avAttrID s = id a -> avEntityID r = avEntityID s ->
    avScope r = avScope s -> i = j;
  ft_unique : unique a = true -> forall i j r s, vals T !! i = Some r -> vals T !! j = Some s ->
    live r -> live s -> avAttrID r = id a -> avAttrID s = id a -> avScope r = avScope s ->
    Equal (avValue r) (avValue s) = true -> avEntityID r = avEntityID s }.

Lemma vals_fit T a : vals_ok T -> attrs T !! id a = Some a -> fits T a.
Proof.
  intros [V1 V2 V3 V4 V5] Ha. split.
  - intros E i r Hr Lr Er. destruct (V3 i r Hr) as [b [R1 R2 R3 R4 R5 R6 R7]].
    assert (b = a) as -> by congruence. auto.
  - intros E i r Hr Lr Er. destruct (V3 i r Hr) as [b [R1 R2 R3 R4 R5 R6 R7]].
    assert (b = a) as -> by congruence. auto.
  - intros E i j r s Hr Hs Lr Ls Er Es. apply (V4 i j r s a); try done; congruence.
  - intros E i j r s Hr Hs Lr Ls Er Es. apply (V5 i j r s a); try done; congruence.
Qed.

(** A definition of the same identity that the values fit. *)
Lemma put_vals T a a0 :
  vals_ok T -> attrs T !! id a = Some a0 -> identity a = identity a0 -> fits T a -> vals_ok (put T a).
Proof.
  intros [V1 V2 V3 V4 V5] Ha0 Hid [F1 F2 F3 F4]. apply identity_eq in Hid as (Ei & Et & En & Eten & Ety).
  split; simpl; [done|done| | |].
  - intros i r Hr. destruct (V3 i r Hr) as [b [R1 R2 R3 R4 R5 R6 R7]].
    destruct (decide (avAttrID r = id a)) as [E|E].
    + assert (b = a0) as -> by congruence. destruct R4 as (t & l & Ht & Hl & Hin).
      exists a. split; simpl; [by rewrite E, lookup_insert_eq|congruence|congruence| | | |done].
      * exists t, l. by rewrite Et.
      * intros Lr Hlo. by apply (F1 Hlo i r).
      * intros Lr Hsc. by apply (F2 Hsc i r).
    + exists b. split; simpl; try done. by rewrite lookup_insert_ne.
  - intros i j r s b Hr Hs Lr Ls Hb Hm E1 E2 E3.
    destruct (decide (avAttrID r = id a)) as [E|E].
    + rewrite E, lookup_insert_eq in Hb. injection Hb as <-.
      apply (F3 Hm i j r s); try done; congruence.
    + rewrite lookup_insert_ne in Hb by done. by apply (V4 i j r s b).
  - intros i j r s b Hr Hs Lr Ls Hb Hm E1 E2 E3.
    destruct (decide (avAttrID r = id a)) as [E|E].
    + rewrite E, lookup_insert_eq in Hb. injection Hb as <-.
      apply (F4 Hm i j r s); try done; congruence.
    + rewrite lookup_insert_ne in Hb by done. by apply (V5 i j r s b).
Qed.

(** A new definition: no value refers to it. *)
Lemma put_vals_new T a : vals_ok T -> attrs T !! id a = None -> vals_ok (put T a).
Proof.
  intros [V1 V2 V3 V4 V5] Ha.
  assert (forall i r, vals T !! i = Some r -> avAttrID r <> id a) as Hne.
  { intros i r Hr E. destruct (V3 i r Hr) as [b [R1 _ _ _ _ _ _]]. congruence. }
  split; simpl; [done|done| | |].
  - intros i r Hr. destruct (V3 i r Hr) as [b [R1 R2 R3 R4 R5 R6 R7]]. exists b. split; simpl; try done.
    rewrite lookup_insert_ne; [done|]. intros E. by apply (Hne i r Hr).
  - intros i j r s b Hr Hs Lr Ls Hb. rewrite lookup_insert_ne in Hb; [by apply (V4 i j r s b)|].
    intros E. by apply (Hne i r Hr).
  - intros i j r s b Hr Hs Lr Ls Hb. rewrite lookup_insert_ne in Hb; [by apply (V5 i j r s b)|].
    intros E. by apply (Hne i r Hr).
Qed.

Lemma row_live_of T a i r :
  vals_ok T -> attrs T !! id a = Some a -> vals T !! i = Some r -> live r -> avAttrID r = id a ->
  live_of (tenantID a) (id a) r = true.
Proof.
  intros HV Ha Hr Lr Er. destruct (vo_row _ HV i r Hr) as [b [R1 R2 _ _ _ _ _]].
  assert (b = a) as -> by congruence. unfold live_of, live in *.
  rewrite Lr. by rewrite !bool_decide_true by congruence.
Qed.

(** An update let through by the structural guard leaves values that fit it. *)
Lemma safe_fits T a a0 u comp :
  vals_ok T -> attrs T !! id a0 = Some a0 -> id a = id a0 -> change_safe T a0 u comp ->
  multiValued a = inMultiValued u -> unique a = inUnique u ->
  localizable a = inLocalizable u -> scopable a = inScopable u -> fits T a.
Proof.
  intros HV Ha0 Ei [C1 C2 C3 _ _] Em Eu El Es. destruct (vals_fit T a0 HV Ha0) as [F1 F2 F3 F4].
  pose proof (fun i r => row_live_of T a0 i r HV Ha0) as Hlive.
  split; rewrite Ei.
  - intros E i r Hr Lr Er. destruct (localizable a0) eqn:E0; [|by apply (F1 eq_refl i r)].
    rewrite (shape_scoped T _ _ r i (C3 (or_introl (conj eq_refl (eq_trans (eq_sym El) E)))) Hr); [done|].
    by apply (Hlive i r).
  - intros E i r Hr Lr Er. destruct (scopable a0) eqn:E0; [|by apply (F2 eq_refl i r)].
    rewrite (shape_scoped T _ _ r i (C3 (or_intror (conj eq_refl (eq_trans (eq_sym Es) E)))) Hr); [done|].
    by apply (Hlive i r).
  - intros E i j r s Hr Hs Lr Ls Er Es' Ee Esc. destruct (multiValued a0) eqn:E0; [|by apply (F3 eq_refl i j r s)].
    assert (r = s) as <-.
    { apply (shape_single T (tenantID a0) (id a0) r s i j (C1 eq_refl (eq_trans (eq_sym Em) E)) Hr Hs);
        [by apply (Hlive i r)|by apply (Hlive j s)|done|done]. }
    pose proof (vo_keyed _ HV i r Hr) as Ki. pose proof (vo_keyed _ HV j r Hs) as Kj. simpl in *. congruence.
  - intros E i j r s Hr Hs Lr Ls Er Es' Esc Eq. destruct (unique a0) eqn:E0; [by apply (F4 eq_refl i j r s)|].
    apply (shape_unique T (tenantID a0) (id a0) r s i j (C2 eq_refl (eq_trans (eq_sym Eu) E)) Hr Hs);
      [by apply (Hlive i r)|by apply (Hlive j s)|done|done].
Qed.

Lemma types_vals T c : schema_ok T -> vals_ok T -> type_step true (types T) c -> vals_ok (set_types T c).
Proof.
  intros HT [V1 V2 V3 V4 V5] Hs. destruct (type_step_keeps _ _ _ (so_types _ HT) Hs) as [Hk _].
  pose proof (so_types _ (types_ok _ _ _ HT Hs)) as Hok'. simpl in Hok'.
  split; simpl; [done|done| |done|done].
  intros i r Hr. destruct (V3 i r Hr) as [a [R1 R2 R3 (t & l & Ht & Hl & Hin) R5 R6 R7]]. exists a.
  split; try done. simpl. destruct (Hk _ _ Ht) as (t' & Ht' & _).
  destruct (Ancestors_keeps _ _ true (so_types _ HT) Hok' Hk _ _ _ _ Ht Ht' Hl) as (l' & Hl' & Ei).
  exists t', l'. split_and!; [done|done|]. rewrite fmap_cons, Ei.
  rewrite (chain_id _ Hok' _ _ Ht'), <- (chain_id _ (so_types _ HT) _ _ Ht). by rewrite fmap_cons in Hin.
Qed.

Lemma schema_step_vals T T' :
  schema_ok T -> vals_ok T -> schema_step true true T T' -> vals T' = vals T -> vals_ok T'.
Proof.
  intros HT HV. destruct 1 as [c Hs ->|relDefs rq i fresh a evs Hf Hc|relDefs rq i a evs Hc
    |rq raw a evs Hc|rq raw a evs _ Hc|Et Ea]; intros Ev.
  - by apply types_vals.
  - destruct (create_spec _ _ _ _ _ _ _ _ HT Hc) as (td & l & root & links & _ & _ & _ & Eid & _ & -> & _).
    apply put_vals_new; [done|by rewrite Eid].
  - destruct (update_spec _ _ _ _ _ _ _ HT Hc)
      as (a0 & comp & Ha0 & Hid & La0 & La & -> & Hsafe & Ec & Em & Eu & El & Es & _).
    pose proof (identity_eq _ _ Hid) as (Ei & _). apply (put_vals T a a0); [done|done|done|].
    apply (safe_fits T a a0 (auFields i) comp); try done; [by rewrite <- Ei|by apply structural_safe].
  - destruct (transition_spec _ _ _ _ _ _ _ HT Hc) as (a0 & Ha0 & -> & _ & _ & (at_ & ->) & _).
    simpl in Ha0. apply (put_vals T _ a0); [done|done|done|].
    destruct (vals_fit T a0 HV) as [F1 F2 F3 F4]; [done|]. by split.
  - destruct (transition_spec _ _ _ _ _ _ _ HT Hc) as (a0 & Ha0 & -> & _ & _ & (at_ & ->) & _).
    simpl in Ha0. apply (put_vals T _ a0); [done|done|done|].
    destruct (vals_fit T a0 HV) as [F1 F2 F3 F4]; [done|]. by split.
  - by apply (vals_shape T).
Qed.

(** ** Histories *)

(** Everything that changes the tables: the write usecases, each one unit of
    work, any other unit of work of several writes, and the changes of the schema,
    restorations included. *)
Inductive table_step (T T' : Tables) : Prop :=
  | tb_schema : schema_step true true T T' -> vals T' = vals T -> table_step T T'
  | tb_set rq i fresh c av :
      vals T !! fresh = None -> ValueSetCase rq i fresh T = Ok (T', c, av) -> table_step T T'
  | tb_batch rq items fresh c out :
      Inj (=) (=) fresh -> (forall n, vals T !! fresh n = None) ->
      SetBatch rq items fresh T = Ok (T', c, out) -> table_step T T'
  | tb_writes rq items fresh c out :
      Inj (=) (=) fresh -> NoDup items.*1 -> (forall n, n ∈ items.*1 -> vals T !! fresh n = None) ->
      Execute rq (fun T c => setEach rq items fresh T c []) T = Ok (T', c, out) -> table_step T T'
  | tb_apply rq muts fresh c u :
      Inj (=) (=) fresh -> (forall n, vals T !! fresh n = None) ->
      ApplyMutations rq muts fresh T = Ok (T', c, u) -> table_step T T'
  | tb_remove rq raw c av : ValueRemove rq raw T = Ok (T', c, av) -> table_step T T'.

Inductive table_reachable : Tables -> Prop :=
  | tr_empty T : types T = ∅ -> attrs T = ∅ -> vals T = ∅ -> table_reachable T
  | tr_step T T' : table_reachable T -> table_step T T' -> table_reachable T'.

Lemma table_step_ok T T' :
  schema_ok T -> vals_ok T -> table_step T T' -> schema_ok T' /\ vals_ok T'.
Proof.
  intros HT HV. destruct 1 as [Hs Ev|rq i fresh c av Hf Hs|rq items fresh c out Hinj Hf Hs
    |rq items fresh c out Hinj Hnd Hf Hs|rq muts fresh c u Hinj Hf Hs|rq raw c av Hs].
  - split; [by eapply schema_step_ok|by eapply schema_step_vals].
  - apply Execute_ok in Hs as [Hs _]. apply (set_ok _ _ _ _ _ _ _ _ HT HV Hf) in Hs as [HV' (E1 & E2 & _)].
    split; [by eapply schema_same|done].
  - unfold SetBatch in Hs. res_inv. apply Execute_ok in Hs as [Hs _].
    apply (setEach_ok fresh Hinj _ _ _ _ _ _ _ _ HT HV) in Hs as (HV' & E1 & E2);
      [|apply canonicalOrder_indices|auto]. split; [by eapply schema_same|done].
  - apply Execute_ok in Hs as [Hs _].
    apply (setEach_ok fresh Hinj _ _ _ _ _ _ _ _ HT HV) in Hs as (HV' & E1 & E2); [|done|done].
    split; [by eapply schema_same|done].
  - unfold ApplyMutations in Hs. case_bool_decide; [by injection Hs as <- _ _|].
    apply Execute_ok in Hs as [Hs _]. res_inv.
    match goal with E : applyEach _ _ _ _ _ = Ok ?x |- _ => destruct x as [T1 c1];
      apply (applyEach_ok fresh Hinj _ _ _ _ _ _ HT HV) in E as (HV' & E1 & E2);
      [|apply canonicalOrder_indices|auto] end. split; [by eapply schema_same|done].
  - unfold ValueRemove in Hs. destruct (ParseID raw) as [i|]; [|done]. apply Execute_ok in Hs as [Hs _].
    res_inv. unfold AvGet in *. destruct (vals T !! i) as [r|] eqn:Er; [|done]. simplify_eq.
    match goal with E : AvRemove _ _ = Ok _ |- _ => unfold AvRemove in E; res_inv end. simpl.
    split; [by apply (schema_same T)|]. apply remove_ok; [done|].
    match goal with E : vals T !! i = Some ?q |- _ =>
      pose proof (vo_keyed _ HV i q E) as Ei; simpl in Ei; by rewrite Ei end.
Qed.

Lemma table_reachable_ok T : table_reachable T -> schema_ok T /\ vals_ok T.
Proof.
  induction 1 as [T Et Ea Ev|T T' _ [IH1 IH2] Hs]; [|by eapply table_step_ok].
  split; [by apply (schema_reachable_ok true true), sr_empty|].
  split; rewrite ?Ev; [apply map_Forall_empty|..]; intros i.
  - intros j r s Hr. by rewrite lookup_empty in Hr.
  - intros r Hr. by rewrite lookup_empty in Hr.
  - intros j r s a Hr. by rewrite lookup_empty in Hr.
  - intros j r s a Hr. by rewrite lookup_empty in Hr.
Qed.
End Writes.
