(* ===== verification/ValueWriteProps.v ===== *)
(** What the writes of attribute values promise: the soundness of the table they
    share with the schema, the effect of one write, the check at the end of the
    unit of work, and a difference between the code and its comment. *)

From Stdlib Require Import ZArith QArith Lia String Ascii List SpecFloat.
From stdpp Require Import base tactics list gmap fin_maps fin_sets strings option decidable pretty relations.
From S2P Require Import Prelude GoText Values Ids Formula Attribute Access TypeDef TypeDefFacts.
From S2P Require Import Units Dependency ValueWrite AttributeWrite AttributeWriteFacts.
From S2P Require Import SchemaFacts SchemaExample ValueWriteFacts.

Open Scope Z_scope.
Open Scope go_scope.

Section Properties.
Context `{GoStd} `{GoUlid} `{GoNumeric} `{GoKeys}.

(** C7: the table of values stays sound along every history of writes, batches,
    change-set applications and removals, interleaved with every change of types
    and attributes: an entity has one type, carried by all its values, archived
    ones included; each value has its attribute's data type and tenant, and the
    attribute belongs to the schema of the entity's type; a single-valued
    attribute holds one live value per entity and scope, a unique one never the
    same value for two entities; a value has a locale or a channel only where
    the attribute allows it - even after the attribute was made single-valued,
    unique or unscoped. *)
Theorem value_table_sound T :
  table_reachable T ->
  (forall i j r s, vals T !! i = Some r -> vals T !! j = Some s ->
     avTenantID r = avTenantID s -> avEntityID r = avEntityID s -> avTypeID r = avTypeID s) /\
  (forall i r, vals T !! i = Some r -> exists a, attrs T !! avAttrID r = Some a /\
     tenantID a = avTenantID r /\ dataType (avValue r) = attrType a /\
     (exists t l, types T !! avTypeID r = Some t /\ Ancestors (types T) t = Ok l /\
        typeDefinitionID a ∈ tdID <$> t :: l) /\
     (AvIsArchived r = false -> (localizable a = false -> Locale (avScope r) = EmptyString) /\
        (scopable a = false -> Channel (avScope r) = EmptyString))) /\
  (forall i j r s a, vals T !! i = Some r -> vals T !! j = Some s ->
     AvIsArchived r = false -> AvIsArchived s = false -> attrs T !! avAttrID r = Some a ->
     avAttrID r = avAttrID s -> avScope r = avScope s ->
     (multiValued a = false -> avEntityID r = avEntityID s -> i = j) /\
     (unique a = true -> Equal (avValue r) (avValue s) = true -> avEntityID r = avEntityID s)).
Proof.
  intros Hr. destruct (table_reachable_ok T Hr) as [_ [V1 V2 V3 V4 V5]]. split_and!; [done| |].
  - intros i r Hi. destruct (V3 i r Hi) as [a [R1 R2 R3 R4 R5 R6 R7]]. exists a. split_and!; try done.
    intros Hl. split; [by apply R5|by apply R6].
  - intros i j r s a Hi Hj Lr Ls Ha Ea Es. split.
    + intros Hm Ee. by apply (V4 i j r s a).
    + intros Hu Eq. by apply (V5 i j r s a).
Qed.

(** ** One write *)

Lemma upsert_effect T c def et entity scope v fresh now T' c' av :
  vals_ok T -> write_ok T def et entity scope v ->
  upsert T c def et entity scope v fresh now = Ok (T', c', av) ->
  vals T' !! avID av = Some av /\ live av /\ avAttrID av = id def /\ avEntityID av = entity /\
  avScope av = scope /\ avTypeID av = et /\ (avValue av = v \/ Equal (avValue av) v = true) /\
  (avID av = fresh \/ is_Some (vals T !! avID av)) /\
  (forall j, j <> avID av -> vals T' !! j = vals T !! j) /\
  gate c' = gate c /\ types T' = types T /\ attrs T' = attrs T /\ deps T' = deps T.
Proof.
  intros HV HW. unfold upsert. set (existing := List.filter _ _).
  assert (Hin : forall r, r ∈ existing -> vals T !! avID r = Some r /\ avAttrID r = id def /\
    avEntityID r = entity /\ live r /\ avScope r = scope /\ avTypeID r = et).
  { intros r (Hf & Hs)%elem_of_filter_b. apply FindByDefinitionAndEntity_elem in Hf as ((j & Hj) & Ea & Ee & Hl).
    pose proof (vo_keyed _ HV j r Hj) as Ej. simpl in Ej. subst j. apply ScopeEquals_true in Hs.
    split_and!; try done. apply (wo_anchor _ _ _ _ _ _ HW _ r Hj); [|done].
    destruct (vo_row _ HV _ r Hj) as [a [Q1 Q2 _ _ _ _]].
    assert (a = def) as -> by (pose proof (wo_attr _ _ _ _ _ _ HW); congruence). done. }
  clearbody existing.
  assert (Hins : insertRow T c def et entity scope v fresh now existing = Ok (T', c', av) ->
    vals T' !! avID av = Some av /\ live av /\ avAttrID av = id def /\ avEntityID av = entity /\
    avScope av = scope /\ avTypeID av = et /\ (avValue av = v \/ Equal (avValue av) v = true) /\
    (avID av = fresh \/ is_Some (vals T !! avID av)) /\
    (forall j, j <> avID av -> vals T' !! j = vals T !! j) /\
    gate c' = gate c /\ types T' = types T /\ attrs T' = attrs T /\ deps T' = deps T).
  { unfold insertRow. destruct (List.find _ _) as [r|] eqn:Ef.
    - intros [= <- <- <-]. apply find_some in Ef as [Hr Eq]. apply list_elem_of_In in Hr.
      destruct (Hin r Hr) as (K1 & K2 & K3 & K4 & K5 & K6). split_and!; try done; [by right|right; by eexists].
    - intros Hi. res_inv. match goal with E : AvNew _ _ _ _ _ _ _ = Ok _ |- _ => unfold AvNew in E; res_inv end.
      simpl. rewrite lookup_insert_eq. split_and!; try done; [by left|by left|].
      intros j Hj. by rewrite lookup_insert_ne. }
  destruct existing as [|r rest]; [done|]. destruct (multiValued def); [done|]. clear Hins. intros Hu.
  destruct (Hin r ltac:(by left)) as (K1 & K2 & K3 & K4 & K5 & K6).
  res_inv. match goal with E : UpdateValue _ _ _ _ = Ok ?x |- _ => destruct x as [r' evs]; rename E into Hup end.
  unfold UpdateValue in Hup. res_inv. simpl in Hu.
  match type of Hup with (if ?b then _ else _) = _ => destruct b eqn:Eb end; injection Hup as <- <-; simpl in Hu.
  - injection Hu as <- <- <-. apply andb_true_iff in Eb as [Eb _].
    split_and!; try done; [by right|right; by eexists].
  - injection Hu as <- <- <-. simpl. rewrite lookup_insert_eq.
    split_and!; try done; [by left|right; by eexists|]. intros j Hj. by rewrite lookup_insert_ne.
Qed.

Lemma resolveType_rows T tenant def entity raw T1 et :
  vals_ok T -> resolveType T tenant def entity raw = Ok (T1, et) ->
  (forall j r, vals T !! j = Some r -> vals T1 !! j = Some (moved tenant entity et r)) /\
  (forall j, vals T !! j = None -> vals T1 !! j = None) /\ deps T1 = deps T.
Proof.
  intros HV Hr.
  assert (anchored T tenant entity et -> forall j r, vals T !! j = Some r ->
    vals T !! j = Some (moved tenant entity et r)) as Hsame.
  { intros Hanc j r Hj. rewrite Hj. f_equal. unfold moved.
    destruct (of_entity tenant entity r) eqn:Eo; [|done]. apply of_entity_true in Eo as [E1 E2].
    rewrite <- (Hanc j r Hj E1 E2). by destruct r. }
  assert (T1 = T /\ anchored T tenant entity et \/ T1 = ReanchorEntity T tenant entity et) as [[-> Hanc]| ->].
  { unfold resolveType in Hr.
    assert (forall a, EntityAnchor T tenant entity = Some a -> anchored T tenant entity a) as Ha.
    { intros a (j & s & Hs & Es1 & Es2 & Es3)%EntityAnchor_Some i r Hi E1 E2.
      rewrite <- Es3. apply (vo_anchor _ HV i j); congruence. }
    assert (forall a, EntityAnchor T tenant entity = None -> anchored T tenant entity a) as Hn.
    { intros a HN i r Hi E1 E2. by destruct (EntityAnchor_None T tenant entity i r HN Hi). }
    destruct (str_IsZero raw).
    { injection Hr as <- <-. left. split; [done|]. destruct (EntityAnchor T tenant entity); simpl; auto. }
    destruct (ParseID raw) as [supplied|]; [|done].
    destruct (EntityAnchor T tenant entity) as [a|]; [|injection Hr as <- <-; left; split; auto].
    case_bool_decide; [injection Hr as <- <-; subst; left; split; auto|].
    res_inv. match goal with E : IsAncestorOrSelf _ _ _ = Ok ?b |- _ => destruct b end; [by injection Hr as <- <-; right|].
    res_inv. left. split; auto. }
  - split_and!; [by apply Hsame|done|done].
  - simpl. split_and!; [|by intros j Hj; rewrite lookup_fmap, Hj|done].
    intros j r Hj. by rewrite lookup_fmap, Hj.
Qed.

(** C13: what a write does when it succeeds: the caller may write the attribute,
    or the write is internal and the attribute computed; the attribute is of the
    caller's tenant; the value returned is stored, live, under the attribute,
    entity and scope asked for, with the value decoded from the input (or an
    equal one that was there), and it is the only row stored; every other row is
    as before, but for the type of the entity's rows, which is that of the row
    returned; nothing else changes. *)
Theorem set_effect rq i fresh T T' c av :
  table_reachable T -> vals T !! fresh = None -> ValueSetCase rq i fresh T = Ok (T', c, av) ->
  exists def v,
    ParseID (siAttributeDefinitionID i) = Ok (id def) /\ attrs T !! id def = Some def /\
    tenantID def = rqTenant rq /\
    (IsComputed def = true /\ siInternal i = true \/
     IsComputed def = false /\ CanWrite (rqAccess rq) (internalName def) = true) /\
    (exists T1, resolveType T (rqTenant rq) def (avEntityID av) (siTypeDefinitionID i) =
       Ok (T1, avTypeID av) /\ decodeValue T1 rq def i = Ok v) /\ (avValue av = v \/ Equal (avValue av) v = true) /\
    vals T' !! avID av = Some av /\ AvIsArchived av = false /\ avAttrID av = id def /\
    ParseEntityID (siEntityID i) = Ok (avEntityID av) /\
    avScope av = mkScope (siLocale i) (siChannel i) /\
    (avID av = fresh \/ is_Some (vals T !! avID av)) /\
    (forall j r, vals T !! j = Some r -> j <> avID av ->
       vals T' !! j = Some (if of_entity (rqTenant rq) (avEntityID av) r
                            then set_av_type r (avTypeID av) else r)) /\
    (forall j, vals T !! j = None -> j <> fresh -> vals T' !! j = None) /\
    types T' = types T /\ attrs T' = attrs T /\ deps T' = deps T.
Proof.
  intros Hr Hfresh Hs. destruct (table_reachable_ok T Hr) as [HT HV].
  apply Execute_ok in Hs as [Hs _]. pose proof (set_ok _ _ _ _ _ _ _ _ HT HV Hfresh Hs) as [_ (W1 & W2 & W3)].
  apply (set_inv _ _ _ _ _ _ _ _ HT) in Hs as (def & entity & T1 & et & v & Hacc & Hu).
  destruct (accepted_write_ok _ _ _ _ _ _ _ _ HT HV Hacc) as ((R1 & R2 & R3) & HV1 & HW).
  destruct (upsert_effect _ _ _ _ _ _ _ _ _ _ _ _ HV1 HW Hu)
    as (U1 & U2 & U3 & U4 & U5 & U6 & U7 & U8 & U9 & _ & U10 & U11 & U12).
  destruct Hacc as [A1 A2 A3 A4 A5 A6 A7 A8 A9 A10 A11 A12 A13].
  destruct (resolveType_rows _ _ _ _ _ _ _ HV A5) as (P1 & P2 & P3).
  exists def, v. split_and!; try done.
  - exists T1. by rewrite U4, U6.
  - by rewrite U4.
  - destruct U8 as [|[r Hrow]]; [by left|right]. destruct (vals T !! avID av) eqn:E; [by eexists|].
    apply P2 in E. congruence.
  - intros j r Hj Hne. rewrite (U9 j Hne), (P1 j r Hj), U4, U6. done.
  - intros j Hj Hne. by apply W3; [|congruence].
  - congruence.
Qed.

(** ** The check at the end of the unit of work *)

Lemma group_values_some avs m k :
  isSome (group_values m avs !! k) = true -> isSome (m !! k) = true \/ exists r, r ∈ avs /\ avAttrID r = k.
Proof.
  revert m. induction avs as [|r avs IH]; intros m Hk; [by left|].
  destruct (IH _ Hk) as [Hm|(s & Hs & E)]; [|right; exists s; split; [by right|done]].
  destruct (decide (avAttrID r = k)) as [E|E]; [right; exists r; split; [by left|done]|].
  rewrite lookup_insert_ne in Hm by done. by left.
Qed.

Lemma AvListByEntity_elem T i r :
  vals T !! i = Some r -> live r -> r ∈ AvListByEntity T (avTenantID r) (avTypeID r) (avEntityID r).
Proof.
  intros Hr Hl. unfold AvListByEntity. apply sort_by_elem, elem_of_filter_b.
  split; [apply values_elem; by exists i|]. unfold live in Hl. rewrite Hl, bool_decide_true by done.
  by rewrite (proj2 (of_entity_true _ _ _) (conj eq_refl eq_refl)).
Qed.

Lemma enforced_targets T tenant d : d ∈ ListEnforcedOnWrite T tenant -> d ∈ ListByTarget T (targetID d).
Proof.
  unfold ListEnforcedOnWrite, ListByTarget, live_deps. rewrite !sort_by_elem, !elem_of_filter_b.
  intros [Hd Hf]. breflect. split; [done|]. match goal with E : DepIsArchived d = false |- _ => rewrite E end.
  by rewrite bool_decide_true.
Qed.

Lemma readableOnly_total T rq avs : exists seen, readableOnly T rq avs = Ok seen.
Proof.
  unfold readableOnly, Readable, permitted, Names, AttrGetMany. destruct (_ || _); [by eexists|].
  destruct (Admin _); [by eexists|]. destruct (bool_decide _); by eexists.
Qed.

(** C14: no write leaves a demand of its entity unmet: when a write by a caller
    commits, take the values of the entity that the caller can read; for every
    attribute of the schema that the caller can read and that some live rule
    enforces on write, the rules resolve over those values, and where they demand
    a value there is one. *)
Theorem required_on_write_met rq i fresh T T' c av :
  table_reachable T -> vals T !! fresh = None -> siInternal i = false ->
  ValueSetCase rq i fresh T = Ok (T', c, av) ->
  exists seen schema,
    readableOnly T' rq (AvListByEntity T' (avTenantID av) (avTypeID av) (avEntityID av)) = Ok seen /\
    (ListEnforcedOnWrite T' (avTenantID av) <> [] -> gateSchema T' (avTypeID av) = Ok schema) /\
    forall a d, a ∈ schema -> CanRead (rqAccess rq) (internalName a) = true ->
      d ∈ ListEnforcedOnWrite T' (avTenantID av) -> targetID d = id a ->
      exists eff, resolveFor rq a (ListByTarget T' (id a)) (group_values ∅ seen) = Ok eff /\
        (demands eff = true -> exists r, r ∈ seen /\ avAttrID r = id a).
Proof.
  intros Hr Hfresh Hint Hs. destruct (table_reachable_ok T Hr) as [HT HV].
  apply Execute_ok in Hs as [Hs Hgate].
  pose proof (set_ok _ _ _ _ _ _ _ _ HT HV Hfresh Hs) as [HV' _].
  apply (set_inv _ _ _ _ _ _ _ _ HT) in Hs as (def & entity & T1 & et & v & Hacc & Hu).
  destruct (accepted_write_ok _ _ _ _ _ _ _ _ HT HV Hacc) as ((R1 & R2 & R3) & HV1 & HW).
  destruct (upsert_effect _ _ _ _ _ _ _ _ _ _ _ _ HV1 HW Hu)
    as (U1 & U2 & U3 & U4 & U5 & U6 & U7 & U8 & U9 & Ug & U10 & U11 & U12).
  destruct (vo_row _ HV' _ av U1) as [b [Q1 Q2 _ _ _ _]].
  assert (b = def) as -> by (pose proof (wo_attr _ _ _ _ _ _ HW); congruence).
  rewrite Hint in Ug. rewrite Ug in Hgate. simpl in Hgate. unfold enforceRequiredOnWrite in Hgate.
  simpl in Hgate. pose proof (AvListByEntity_elem _ _ _ U1 U2) as Hheld.
  rewrite Q2, <- U4, <- U6 in Hgate.
  set (held := AvListByEntity T' (avTenantID av) (avTypeID av) (avEntityID av)) in *.
  destruct (decide (ListEnforcedOnWrite T' (avTenantID av) = [])) as [Eb|Eb].
  { destruct (readableOnly_total T' rq held) as [seen Hseen].
    exists seen, []. split_and!; [done|done|]. intros a d Ha. by apply not_elem_of_nil in Ha. }
  rewrite bool_decide_false in Hgate by (intros E; by apply nil_length_inv in E).
  match type of Hgate with match ?x with _ => _ end = _ => assert (x = Ok tt) as Hg end.
  { by match type of Hgate with match ?x with _ => _ end = _ => destruct x as [[]|] end. }
  clear Hgate. unfold enforceRef in Hg. simpl in Hg. fold held in Hg.
  rewrite bool_decide_false in Hg by (intros E; apply nil_length_inv in E; rewrite E in Hheld; by apply not_elem_of_nil in Hheld).
  res_inv. match goal with E1 : readableOnly _ _ _ = Ok ?s, E2 : gateSchema _ _ = Ok ?sc |- _ =>
    exists s, sc; split_and!; [done|done|]; rename s into seen end.
  intros a d Ha Hread Hd Htarget. apply each_ok in Hg. rewrite Forall_forall in Hg.
  specialize (Hg a Ha). unfold enforceAttr in Hg. simpl in Hg.
  rewrite (proj2 (existsb_exists _ _)) in Hg.
  2: { exists d. split; [by apply list_elem_of_In|by apply bool_decide_eq_true]. }
  rewrite Hread in Hg. simpl in Hg.
  rewrite bool_decide_false in Hg.
  2: { intros E%nil_length_inv. pose proof (enforced_targets _ _ _ Hd) as Hx.
       rewrite Htarget, E in Hx. by apply not_elem_of_nil in Hx. }
  apply res_bind_ok in Hg as (eff & He & Hg). exists eff. split; [done|]. intros Hdem.
  rewrite Hdem in Hg. simpl in Hg. destruct (isSome _) eqn:Ef; [|done].
  apply group_values_some in Ef as [Ef|Ef]; [by rewrite lookup_empty in Ef|done].
Qed.

(** A write under an archived type is refused whoever makes it, the
    materializer included: [internal] is decided only after this check, so a
    computed attribute cannot be rewritten once a type above it is archived,
    although the comment on the check says the materializer is exempt. *)
Theorem archived_type_refuses_all rq i fresh T c def entity T1 et t l :
  ParseID (siAttributeDefinitionID i) = Ok (id def) -> attrs T !! id def = Some def ->
  ParseEntityID (siEntityID i) = Ok entity -> siValue i <> EmptyString -> siValue i <> "null"%string ->
  tenantID def = rqTenant rq ->
  resolveType T (rqTenant rq) def entity (siTypeDefinitionID i) = Ok (T1, et) ->
  inSchema T1 def et = Ok tt -> TypeGet (types T1) et = Ok t -> Chain (types T1) t = Ok l ->
  existsb TypeIsArchived l = true ->
  IsComputed def = true -> siInternal i = true ->
  setWithin rq i fresh T c = Err (NewArchived TypeAggregate).
Proof.
  intros E1 E2 E3 E4 E4' E5 E6 E7 E8 E9 E10 _ _. unfold setWithin. rewrite E1, E3.
  unfold str_IsZero. rewrite (bool_decide_false _ E4), (bool_decide_false _ E4'). simpl.
  unfold AttrGet. rewrite E2. simpl. unfold admitWrite, EnsureTenant. rewrite bool_decide_true by done. simpl.
  rewrite E6. simpl. rewrite E7. simpl. unfold liveChain. rewrite E8. simpl. rewrite E9. simpl.
  by rewrite E10.
Qed.
End Properties.
