(* ===== verification/ValueExample.v ===== *)
(** A product with two attributes and a rule between them, written to twice; a
    write under an archived type; a rollup sent without its specification. *)

From Stdlib Require Import ZArith QArith Lia String Ascii List SpecFloat.
From stdpp Require Import base tactics list gmap fin_maps fin_sets strings option decidable pretty relations.
From S2P Require Import Prelude GoText Values Ids Formula Attribute Access TypeDef TypeDefFacts.
From S2P Require Import Units Dependency ValueWrite AttributeWrite AttributeWriteFacts.
From S2P Require Import SchemaFacts SchemaExample ValueWriteFacts ValueWriteProps.

Open Scope Z_scope.
Open Scope go_scope.

Import SchemaRun.

Module ValueRun.

(** A fragile product needs its packing, at once. *)
Definition needs_packing : Dependency :=
  mkDependency 1 DefaultTenant 1 2
    [mkCondition CondEquals (Some (NewIntegerValue 1)) [] None None false false "" false None
       (OpOther "") "" DataTypeNone]
    (mkEffect [] [] (Some true) EnforceOnWrite) "" 1 100 100 None.

Definition schema : Tables :=
  add (attribute "1" "packing" DataTypeInteger None) 2
    (add (attribute "1" "fragile" DataTypeInteger None) 1 product).

Definition ruled : Tables :=
  mkTables (types schema) (attrs schema) {[ 1%N := needs_packing ]} ∅ None.

Definition input (attribute_id value : string) : SetInput :=
  mkSetInput attribute_id "box-1" EmptyString EmptyString EmptyString value false false.

Definition put_value (i : SetInput) (fresh : ID) (T : Tables) : Tables :=
  after (match ValueSetCase admin i fresh T with
         | Ok (T', c, av) => Ok (T', av, c) | Err e => Err e end) T.

Definition packed : Tables := put_value (input "2" "5") 1 ruled.
Definition fragile : Tables := put_value (input "1" "1") 2 packed.

(** Alone, the fragile product is refused. *)
Example unpacked_refused :
  is_ok (ValueSetCase admin (input "1" "1") 2 ruled) = false /\
  is_ok (ValueSetCase admin (input "1" "1") 2 packed) = true.
Proof. vm_compute. done. Qed.

Lemma put_value_reachable i fresh T :
  table_reachable T -> vals T !! fresh = None -> table_reachable (put_value i fresh T).
Proof.
  intros HT Hf. unfold put_value, after. destruct (ValueSetCase _ _ _ _) as [[[T' c] av]|] eqn:E; [|done].
  eapply tr_step; [exact HT|]. by eapply tb_set.
Qed.

Lemma add_type_table name parent fresh T :
  table_reachable T -> types T !! fresh = None -> table_reachable (add_type name parent fresh T).
Proof.
  intros HT Hf. unfold add_type. destruct (TypeCreate _ _ _ _ _) as [[[c t] evs]|] eqn:E; [|done].
  eapply tr_step; [exact HT|]. apply tb_schema; [|done]. eapply ss_type; [|done]. by eapply ts_create.
Qed.

Lemma add_table i fresh T :
  table_reachable T -> attrs T !! fresh = None -> table_reachable (add i fresh T).
Proof.
  intros HT Hf. unfold add, after. destruct (AttrCreate _ _ _ _ _) as [[[T' a] evs]|] eqn:E; [|done].
  destruct (table_reachable_ok T HT) as [Hok _].
  eapply tr_step; [exact HT|]. apply tb_schema; [by eapply ss_create|].
  by destruct (create_spec _ _ _ _ _ _ _ _ Hok E) as (? & ? & ? & ? & _ & _ & _ & _ & _ & -> & _).
Qed.

Lemma packed_reachable : table_reachable packed.
Proof.
  unfold packed. apply put_value_reachable; [|vm_compute; reflexivity].
  eapply (tr_step schema); [|by apply tb_schema; [apply ss_data|]].
  unfold schema, product. apply add_table; [|vm_compute; reflexivity].
  apply add_table; [|vm_compute; reflexivity].
  apply add_type_table; [by apply tr_empty|vm_compute; reflexivity].
Qed.

Lemma fragile_reachable : table_reachable fragile.
Proof. apply put_value_reachable; [exact packed_reachable|vm_compute; reflexivity]. Qed.

(** The subtype's parent archived under a computed attribute. *)
Definition wound_down : Tables := move_type TypeArchive "1" sound.

Definition derived : SetInput :=
  mkSetInput "2" "box-1" EmptyString EmptyString EmptyString "6" true false.

Definition book_type : TypeDefinition :=
  default (mkType 0 "" KindEntity "" "" "" None 0 0 0 None) (types wound_down !! 2%N).

Definition product_type : TypeDefinition :=
  default (mkType 0 "" KindEntity "" "" "" None 0 0 0 None) (types product !! 1%N).

Definition empty_rollup : AttrCreateInput :=
  mkAttrCreate "1" "lines" DataTypeInteger (Ok ([], None))
    (Ok (Some (mkComputed ComputedRollup EmptyString None))) (fields "Lines" false false).

Definition written : AttributeValue :=
  mkAV 2 "default" 1 1 "box-1" (mkScope "" "") (NewIntegerValue 1) 1 100 100 None.
End ValueRun.

Import ValueRun.

Lemma value_table_sound_witness :
  exists r s, vals fragile !! 1%N = Some r /\ vals fragile !! 2%N = Some s /\ avTypeID r = avTypeID s.
Proof.
  eexists _, _. split; [vm_compute; reflexivity|]. split; [vm_compute; reflexivity|].
  refine (proj1 (value_table_sound fragile fragile_reachable) 1%N 2%N _ _ _ _ _ _);
    vm_compute; reflexivity.
Defined.

Lemma set_effect_witness :
  exists c def v, ValueSetCase admin (input "1" "1") 2 packed = Ok (fragile, c, written) /\
    attrs packed !! 1%N = Some def /\ IsComputed def = false /\ avValue written = v.
Proof.
  assert (exists c, ValueSetCase admin (input "1" "1") 2 packed = Ok (fragile, c, written)) as [c E].
  { eexists. vm_compute. reflexivity. }
  destruct (set_effect admin (input "1" "1") 2 packed fragile c written packed_reachable) as (def & v & H1 & H2 & _ & H4 & _);
    [vm_compute; reflexivity|exact E|].
  assert (ParseID "1" = Ok 1%N) as E1 by (vm_compute; reflexivity).
  cbn [siAttributeDefinitionID input] in H1. rewrite E1 in H1. injection H1 as Ei. rewrite <- Ei in H2.
  exists c, def, (avValue written). split; [exact E|]. split; [exact H2|]. split; [|reflexivity].
  destruct H4 as [[_ H4]|[H4 _]]; [discriminate H4|exact H4].
Defined.

Lemma required_on_write_met_witness :
  exists c seen schema, ValueSetCase admin (input "1" "1") 2 packed = Ok (fragile, c, written) /\
    readableOnly fragile admin (AvListByEntity fragile "default" 1 "box-1") = Ok seen /\
    gateSchema fragile 1 = Ok schema.
Proof.
  assert (exists c, ValueSetCase admin (input "1" "1") 2 packed = Ok (fragile, c, written)) as [c E].
  { eexists. vm_compute. reflexivity. }
  destruct (required_on_write_met admin (input "1" "1") 2 packed fragile c written packed_reachable)
    as (seen & schema & H1 & H2 & _); [vm_compute; reflexivity|reflexivity|exact E|].
  exists c, seen, schema. split; [exact E|]. split; [exact H1|]. apply H2. vm_compute. discriminate.
Defined.

Lemma archived_type_refuses_all_witness :
  setWithin admin derived 1 wound_down newCollector = Err (NewArchived TypeAggregate).
Proof.
  refine (archived_type_refuses_all admin derived 1 wound_down newCollector total "box-1" wound_down 2
    book_type [book_type; default book_type (types wound_down !! 1%N)] _ _ _ _ _ _ _ _ _ _ _ _ _);
    first [discriminate|vm_compute; reflexivity].
Defined.

Lemma rollup_without_spec_panics_witness :
  AttrCreate None admin empty_rollup 1 product = Err panic.
Proof.
  refine (proj1 (rollup_without_spec_panics None admin empty_rollup 1 product 1 product_type []
    (mkComputed ComputedRollup EmptyString None) ([], None) _ _ _ _ _ _ _ _ _ _ _));
    first [discriminate|vm_compute; reflexivity].
Defined.
