(* ===== verification/Query.v ===== *)
(** Queries: binding a parsed query to the schema ([application/query]: [bound.go],
    [binder.go], [interactor.go]), the search documents ([application/search/
    indexer.go], [infrastructure/memory/search_store.go]) and the evaluation of
    bound queries over the in-memory tables ([infrastructure/memory/query.go]).

    The evaluator ranges over Go maps, whose order is unspecified: [GoRange] is any
    order.  Case folding, word splitting and the JSON text of a literal are the
    standard library's ([GoQuery]). *)

From Stdlib Require Import ZArith Lia String Ascii List.
From stdpp Require Import base tactics list gmap fin_maps fin_sets strings option decidable.
From S2P Require Import Prelude GoText Values Ids Attribute Access TypeDef Units Relationship ValueWrite Fql Pagination.

Open Scope Z_scope.
Open Scope go_scope.

(** What the code uses of the standard library. *)
Class GoQuery := {
  (** [json.Marshal] of a string *)
  json_MarshalString : string -> string;
  (** [strings.ToLower] *)
  str_ToLower : string -> string;
  (** [strings.EqualFold] *)
  str_EqualFold : string -> string -> bool;
  (** [strings.FieldsFunc], cut at what is neither a letter nor a digit *)
  str_Fields : string -> list string;
  (** [KeysetTime]: an instant in the layout of cursors *)
  KeysetTime : Z -> string
}.

(** The order in which [range] visits a map. *)
Class GoRange := {
  ranged : forall {K A} `{Countable K}, gmap K A -> list A;
  ranged_perm : forall K A `{Countable K} (m : gmap K A), ranged m ≡ₚ values m
}.

(** ** Bound queries ([bound.go]) *)

Inductive BoundNode :=
  | BoundLogical (op : LogicalOp) (exprs : list BoundNode)
  | BoundNot (expr : BoundNode)
  | BoundCompare (attr : AttrDefinition) (link : bool) (func : AggFunc) (op : CompareOp) (value : Value)
  | BoundIn (attr : AttrDefinition) (link : bool) (values : list Value)
  | BoundRange (attr : AttrDefinition) (link : bool) (lo hi : Value)
  | BoundHas (attr : AttrDefinition) (link : bool)
  | BoundStringMatch (attr : AttrDefinition) (link : bool) (kind : StringMatchKind) (value : string)
  | BoundType (typeIDs : list ID) (negate : bool)
  | BoundMatches (query : string) (attrs : option (list string))
  | BoundTraversal (def : RelDefinition) (direction : Direction) (inner : BoundNode).

(** ** The schema a query is bound to *)

Definition by_type (a b : TypeDefinition) : bool := (tdID a <=? tdID b)%N.

(** The page of a list and the row that says whether another follows. *)
Definition first_page {A} (limit : nat) (items : list A) : list A := take (limit + 1) items.

(** [List] of the tenant's live entity types. *)
Definition TypeList (c : Catalogue) (tenant : TenantID) (limit : nat) : list TypeDefinition :=
  first_page limit (sort_by by_type (List.filter (fun t => bool_decide (tdTenantID t = tenant) &&
    negb (TypeIsArchived t) && negb (bool_decide (tdKind t = KindRelationshipAttributes))) (values c))).

(** [List] of the live relationship definitions that touch one of the types; no
    types is no filter. *)
Definition touches (types : list ID) (d : RelDefinition) : bool :=
  bool_decide (types = []) || bool_decide (ParentTypeID d ∈ types) || bool_decide (ChildTypeID d ∈ types).

Definition RelListTouching (L : LinkTables) (tenant : TenantID) (types : list ID) (limit : nat) :
    list RelDefinition :=
  first_page limit (sort_by by_rel (List.filter (fun d => bool_decide (relTenantID d = tenant) &&
    negb (RelIsArchived d) && touches types d) (values (relDefs L)))).

Definition schemaPage : nat := 500.

(** ** Binding ([binder.go]) *)

Definition maxTraversalDepth : nat := 5.

(** The names one level of a query sees. *)
Record scope := mkBindScope {
  scAttrs : gmap string AttrDefinition;
  scLinkAttrs : option (gmap string AttrDefinition);
  scRels : gmap string RelDefinition;
  scDepth : nat;
  scAmbiguous : gset string }.

Definition with_links (s : scope) (ls : gmap string AttrDefinition) : scope :=
  mkBindScope (scAttrs s) (Some ls) (scRels s) (scDepth s) (scAmbiguous s).

Record binder := mkBinder {
  bTenant : TenantID;
  bSearchIndex : bool;
  bAccess : Access;
  bTables : Tables;
  bLinks : LinkTables;
  bTypesByName : gmap string TypeDefinition }.

(** The error of a position; positions are details, which errors do not keep. *)
Definition positioned (pos : nat) (m : string) : Error := NewValidation m.

(** The attributes of a list of types that the principal may read, the last of a name. *)
Definition visible (access : Access) (a : AttrDefinition) : bool :=
  negb (IsArchived a) && CanRead access (internalName a).

Definition put_attr (m : gmap string AttrDefinition) (a : AttrDefinition) : gmap string AttrDefinition :=
  <[internalName a := a]> m.

Section Schema.
Context (b : binder).

Fixpoint scopeAttrs (ts : list TypeDefinition) (m : gmap string AttrDefinition) :
    result (gmap string AttrDefinition) :=
  match ts with
  | [] => Ok m
  | t :: ts =>
      if TypeIsArchived t then scopeAttrs ts m
      else
        let! here := ListAllForType (bTables b) (tdID t) in
        scopeAttrs ts (fold_left put_attr (List.filter (visible (bAccess b)) here) m)
  end.

Definition scopeFor (root : TypeDefinition) (depth : nat) :
    result (scope * list TypeDefinition) :=
  let! chain := Chain (types (bTables b)) root in
  let descendants := Descendants (types (bTables b)) root in
  let ts := chain ++ descendants in
  let! visible_attrs := scopeAttrs ts ∅ in
  let ids := tdID <$> List.filter (fun t => negb (TypeIsArchived t)) ts in
  let rels := RelListTouching (bLinks b) (bTenant b) ids schemaPage in
  Ok (mkBindScope visible_attrs None (fold_left (fun m d => <[relInternalName d := d]> m) rels ∅) depth ∅,
      root :: descendants).

(** The sets of a definition and its bases; the first attribute of a name stays. *)
Definition keep_attr (m : gmap string AttrDefinition) (a : AttrDefinition) : gmap string AttrDefinition :=
  match m !! internalName a with Some _ => m | None => <[internalName a := a]> m end.

Fixpoint linkAttrsLoop (rounds : nat) (current : RelDefinition)
    (out : gmap string AttrDefinition) : result (gmap string AttrDefinition) :=
  match rounds with
  | O => Ok out
  | S rounds =>
      let! here := ListAllForType (bTables b) (AttributeSetID current) in
      let out := fold_left keep_attr (List.filter (visible (bAccess b)) here) out in
      match relExtendsID current with
      | None => Ok out
      | Some base =>
          let! d := RelGet (bLinks b) base in
          linkAttrsLoop rounds d out
      end
  end.

Definition linkAttrsFor (def : RelDefinition) : result (gmap string AttrDefinition) :=
  linkAttrsLoop (maxTraversalDepth * 2) def ∅.
End Schema.

(** The names both endpoints declare with different attributes. *)
Definition redeclared (m : gmap string AttrDefinition) (name : string) (a : AttrDefinition) : bool :=
  match m !! name with Some existing => negb (bool_decide (id existing = id a)) | None => false end.

Definition ambiguous (m other : gmap string AttrDefinition) : gset string :=
  dom (filter (fun p => redeclared m p.1 p.2 = true) other).

Definition merge_scopes (s other : scope) : scope :=
  mkBindScope (scAttrs s ∪ scAttrs other) (scLinkAttrs s) (scRels s ∪ scRels other) (scDepth s)
    (ambiguous (scAttrs s) (scAttrs other)).

Definition scopeOf (b : binder) (depth : nat) (i : ID) : result scope :=
  let! t := TypeGet (types (bTables b)) i in
  let! r := scopeFor b t depth in
  Ok r.1.

Definition traversalScope (b : binder) (direction : Direction) (def : RelDefinition) (depth : nat) :
    result scope :=
  match direction with
  | DirChild => scopeOf b depth (ChildTypeID def)
  | DirParent => scopeOf b depth (ParentTypeID def)
  | DirAny =>
      let! merged := scopeOf b depth (ParentTypeID def) in
      if bool_decide (ChildTypeID def = ParentTypeID def) then Ok merged
      else
        let! other := scopeOf b depth (ChildTypeID def) in
        Ok (merge_scopes merged other)
  end.

Definition resolveField (f : Field) (s : scope) : result (AttrDefinition * bool) :=
  match FScope f with
  | ScopeLink =>
      match scLinkAttrs s with
      | None => Err (positioned (FPos f) "link attributes are only valid inside a relationship traversal")
      | Some ls =>
          match ls !! FName f with
          | Some a => Ok (a, true)
          | None => Err (positioned (FPos f) "unknown link attribute")
          end
      end
  | _ =>
      guard! bool_decide (FName f ∈ scAmbiguous s)
        else positioned (FPos f) "declared on both endpoints of this relationship" then
      match scAttrs s !! FName f with
      | Some a => Ok (a, false)
      | None => Err (positioned (FPos f) "unknown attribute")
      end
  end.

Section Binding.
Context `{GoStd} `{GoUlid} `{GoNumeric} `{GoQuery}.
Context (b : binder).

Definition intLiteral (lit : Literal) : result Value :=
  match ParseInt (LText lit) with
  | Some n => Ok (NewIntegerValue n)
  | None => Err (positioned (LPos lit) "expected a whole number")
  end.

(** The JSON text a literal is parsed from. *)
Definition literal_json (lit : Literal) : string :=
  match LKind lit with
  | LitNumber | LitBool => LText lit
  | _ => json_MarshalString (LText lit)
  end.

Definition coerce (dt : DataType) (lit : Literal) : result Value :=
  match ParseValue dt (literal_json lit) with
  | Ok v => Ok v
  | Err _ => Err (positioned (LPos lit) "not a valid value of the attribute's type")
  end.

(** A domain error keeps its message and gets a position. *)
Definition at_position (pos : nat) (e : Error) : Error :=
  if bool_decide (ErrorCode e = CodePlain) then e else positioned pos (Message e).

Definition coerceQuantity (attr : AttrDefinition) (lit : Literal) : result Value :=
  guard! negb (match LKind lit with LitNumber => true | _ => false end)
    else positioned (LPos lit) "quantity comparison expects a number with a unit" then
  guard! str_IsZero (LUnit lit)
    else positioned (LPos lit) "quantity comparison requires a unit" then
  match families (bTables b) with
  | None => Err (positioned (LPos lit) "unit families are not configured in this deployment")
  | Some fs =>
      guard! str_IsZero (unitFamilyID attr)
        else positioned (LPos lit) "quantity attribute has no unit family" then
      match ParseID (unitFamilyID attr) with
      | Err e => Err (positioned (LPos lit) "invalid unit family")
      | Ok i =>
          let! family := FamilyGet fs (bTenant b) i in
          match ToBase family (LText lit) (LUnit lit) with
          | Err e => Err (at_position (LPos lit) e)
          | Ok base => NewQuantityValue (LText lit) (LUnit lit) base
          end
      end
  end.

Definition coerceLiteral (attr : AttrDefinition) (lit : Literal) : result Value :=
  if bool_decide (attrType attr = DataTypeQuantity) then coerceQuantity attr lit
  else
    guard! negb (str_IsZero (LUnit lit))
      else positioned (LPos lit) "unit suffix is only valid on quantity attributes" then
    coerce (attrType attr) lit.

Fixpoint coerceAll (attr : AttrDefinition) (lits : list Literal) : result (list Value) :=
  match lits with
  | [] => Ok []
  | lit :: lits =>
      let! v := coerceLiteral attr lit in
      let! vs := coerceAll attr lits in
      Ok (v :: vs)
  end.

Definition lookupType (lit : Literal) : result TypeDefinition :=
  match bTypesByName b !! LText lit with
  | Some t => Ok t
  | None => Err (positioned (LPos lit) "unknown type")
  end.

Definition ordering (op : CompareOp) : bool := bool_decide (op ∈ [CmpGt; CmpGte; CmpLt; CmpLte]).

Definition bindCompare (func : AggFunc) (f : Field) (op : CompareOp) (lit : Literal) (pos : nat)
    (s : scope) : result BoundNode :=
  let! '(attr, link) := resolveField f s in
  guard! bool_decide (op = CmpIsa) else positioned pos "isa applies to the type field only" then
  match func with
  | FuncLength =>
      guard! negb (IsTextual (attrType attr))
        else positioned pos "length() requires a textual attribute" then
      let! v := intLiteral lit in Ok (BoundCompare attr link func op v)
  | FuncCount => let! v := intLiteral lit in Ok (BoundCompare attr link func op v)
  | FuncMin | FuncMax =>
      guard! negb (IsOrdered (attrType attr))
        else positioned pos "min() and max() require an ordered attribute" then
      let! v := coerceLiteral attr lit in Ok (BoundCompare attr link func op v)
  | FuncNone =>
      guard! ordering op && negb (IsOrdered (attrType attr))
        else positioned pos "the attribute does not support ordering comparisons" then
      let! v := coerceLiteral attr lit in Ok (BoundCompare attr link func op v)
  end.

Definition is_none (f : AggFunc) : bool := match f with FuncNone => true | _ => false end.

Definition bindIn (func : AggFunc) (f : Field) (lits : list Literal) (pos : nat) (s : scope) :
    result BoundNode :=
  let! '(attr, link) := resolveField f s in
  guard! negb (is_none func) else positioned pos "in does not combine with functions" then
  let! vs := coerceAll attr lits in
  Ok (BoundIn attr link vs).

Definition bindRange (func : AggFunc) (f : Field) (lo hi : Literal) (pos : nat) (s : scope) :
    result BoundNode :=
  let! '(attr, link) := resolveField f s in
  guard! negb (is_none func) else positioned pos "range does not combine with functions" then
  guard! negb (IsOrdered (attrType attr))
    else positioned pos "range() requires an ordered attribute" then
  let! lo := coerceLiteral attr lo in
  let! hi := coerceLiteral attr hi in
  Ok (BoundRange attr link lo hi).

Definition bindTypeCompare (func : AggFunc) (op : CompareOp) (lit : Literal) (pos : nat) : result BoundNode :=
  guard! negb (is_none func)
    else positioned pos "aggregate functions do not apply to the type field" then
  let! t := lookupType lit in
  if bool_decide (op = CmpEq) || bool_decide (op = CmpNeq) then
    Ok (BoundType [tdID t] (bool_decide (op = CmpNeq)))
  else if bool_decide (op = CmpIsa) then
    let! root := TypeGet (types (bTables b)) (tdID t) in
    Ok (BoundType (tdID t :: (tdID <$> Descendants (types (bTables b)) root)) false)
  else Err (positioned pos "the type field supports =, != and isa").

Fixpoint lookupTypes (lits : list Literal) : result (list ID) :=
  match lits with
  | [] => Ok []
  | lit :: lits =>
      let! t := lookupType lit in
      let! ts := lookupTypes lits in
      Ok (tdID t :: ts)
  end.

Definition bindMatches (query : string) (pos : nat) (s : scope) : result BoundNode :=
  guard! negb (bSearchIndex b)
    else positioned pos "matches() requires the search-index feature" then
  if ReadsEverything (bAccess b) then Ok (BoundMatches query None)
  else Ok (BoundMatches query (Some (sort_by String.leb (elements (dom (scAttrs s)))))).

(** The relationship of a traversal and the scope of its counterpart. *)
Definition enter (direction : Direction) (relationship : string) (pos : nat) (s : scope) :
    result (RelDefinition * scope) :=
  guard! (maxTraversalDepth <? scDepth s + 1)%nat
    else positioned pos "traversals nest too deep" then
  match scRels s !! relationship with
  | None => Err (positioned pos "unknown relationship for this type")
  | Some def =>
      guard! IsSymmetric def && negb (match direction with DirAny => true | _ => false end)
        else positioned pos "the relationship is symmetric; traverse it with linked()" then
      let! inner := traversalScope b direction def (scDepth s + 1) in
      let! ls := linkAttrsFor b def in
      Ok (def, with_links inner ls)
  end.

Section Loop.
Context (bind : Node -> scope -> result BoundNode) (s : scope).

Fixpoint bindEach (es : list Node) : result (list BoundNode) :=
  match es with
  | [] => Ok []
  | e :: es =>
      let! n := bind e s in
      let! ns := bindEach es in
      Ok (n :: ns)
  end.
End Loop.

Definition is_type_field (f : Field) : bool := match FScope f with ScopeType => true | _ => false end.

Fixpoint bind (node : Node) (s : scope) : result BoundNode :=
  match node with
  | Logical op es _ => let! ns := bindEach bind s es in Ok (BoundLogical op ns)
  | Not e _ => let! n := bind e s in Ok (BoundNot n)
  | Fql.Compare func f op lit pos =>
      if is_type_field f then bindTypeCompare func op lit pos else bindCompare func f op lit pos s
  | In func f lits pos =>
      if is_type_field f then let! ids := lookupTypes lits in Ok (BoundType ids false)
      else bindIn func f lits pos s
  | Range func f lo hi pos => bindRange func f lo hi pos s
  | Has f _ => let! '(attr, link) := resolveField f s in Ok (BoundHas attr link)
  | StringMatch kind f value pos =>
      let! '(attr, link) := resolveField f s in
      guard! negb (IsTextual (attrType attr))
        else positioned pos "a textual predicate requires a textual attribute" then
      Ok (BoundStringMatch attr link kind (LText value))
  | Matches query pos => bindMatches query pos s
  | Traversal direction rel inner pos =>
      let! '(def, s') := enter direction rel pos s in
      let! n := bind inner s' in
      Ok (BoundTraversal def direction n)
  end.
End Binding.

(** ** Search documents ([indexer.go], [search_store.go]) *)

Record searchDoc := mkSearchDoc {
  docEntity : EntityID;
  docValues : gmap string (list string);
  docText : string }.

(** The tables a query reads. *)
Record Store := mkStore {
  stTables : Tables;
  stLinks : LinkTables;
  searchDocs : gmap (TenantID * EntityID) searchDoc }.

(** [GetMany] of the values' attributes, by identifier; a missing one has no name. *)
Definition name_of (T : Tables) (v : AttributeValue) : string :=
  match attrs T !! avAttrID v with Some a => internalName a | None => EmptyString end.

Definition index_value (T : Tables) (d : searchDoc) (v : AttributeValue) : searchDoc :=
  let rendered := textVal (avValue v) in
  let name := name_of T v in
  if IsTextual (dataType (avValue v)) then
    mkSearchDoc (docEntity d) (<[name := default [] (docValues d !! name) ++ [rendered]]> (docValues d))
      (docText d ++ " " ++ rendered)
  else d.

(** The document of an entity's live values, if it has one. *)
Definition document (T : Tables) (tenant : TenantID) (type_id : ID) (entity : EntityID) : option searchDoc :=
  match AvListByEntity T tenant type_id entity with
  | [] => None
  | vs => Some (fold_left (index_value T) vs (mkSearchDoc entity ∅ entity))
  end.

(** [Rebuild]; the document goes with the last value. *)
Definition Rebuild (tenant : TenantID) (type_id : ID) (entity : EntityID) (S : Store) : Store :=
  mkStore (stTables S) (stLinks S)
    (match document (stTables S) tenant type_id entity with
     | None => delete (tenant, entity) (searchDocs S)
     | Some d => <[(tenant, entity) := d]> (searchDocs S)
     end).

(** ** Evaluation ([infrastructure/memory/query.go]) *)

(** The truth of SQL: a comparison with NULL is unknown. *)
Inductive tri := triFalse | triTrue | triUnknown.

#[export] Instance tri_eq_dec : EqDecision tri.
Proof. solve_decision. Defined.

Definition triOf (x : bool) : tri := if x then triTrue else triFalse.

(** The current entity; [evLink] is the enclosing link, empty at the root. *)
Record evalScope := mkEvalScope {
  evTenant : TenantID;
  evEntity : EntityID;
  evType : ID;
  evLink : string;
  evQuery : Scope }.

(** [strings.Contains] *)
Definition str_Contains (s sub : string) : bool := isSome (String.index 0 sub s).

Section Evaluation.
Context `{GoStd} `{GoUlid} `{GoQuery} `{GoRange}.
Context (S : Store).

Definition holds (op : CompareOp) (c : Z) : result bool :=
  if bool_decide (op = CmpGt) then Ok (0 <? c)
  else if bool_decide (op = CmpGte) then Ok (0 <=? c)
  else if bool_decide (op = CmpLt) then Ok (c <? 0)
  else if bool_decide (op = CmpLte) then Ok (c <=? 0)
  else Err (Errorf "unsupported operator").

(** [strings.Compare] *)
Definition str_Compare (a c : string) : Z :=
  if bool_decide (a = c) then 0 else if String.ltb a c then -1 else 1.

Definition compareValues (a v : Value) (op : CompareOp) : result bool :=
  if bool_decide (op = CmpEq) then Ok (Equal a v)
  else if bool_decide (op = CmpNeq) then Ok (negb (Equal a v))
  else
    match Values.Compare a v with
    | Ok c => holds op c
    | Err e =>
        guard! negb (IsTextual (dataType a)) else e then
        holds op (str_Compare (textVal a) (textVal v))
    end.

Definition compareInts (a v : Z) (op : CompareOp) : result bool :=
  if bool_decide (op = CmpEq) then Ok (a =? v)
  else if bool_decide (op = CmpNeq) then Ok (negb (a =? v))
  else if bool_decide (op = CmpGt) then Ok (v <? a)
  else if bool_decide (op = CmpGte) then Ok (v <=? a)
  else if bool_decide (op = CmpLt) then Ok (a <? v)
  else if bool_decide (op = CmpLte) then Ok (a <=? v)
  else Err (Errorf "unsupported operator").

(** The live values of one attribute that the scope selects. *)
Definition in_scope (attr : AttrDefinition) (link : bool) (s : evalScope) (v : AttributeValue) : bool :=
  bool_decide (avTenantID v = evTenant s) &&
  bool_decide (avEntityID v = if link then evLink s else evEntity s) &&
  bool_decide (avAttrID v = id attr) && negb (AvIsArchived v) &&
  (link || ((negb (localizable attr) || bool_decide (Locale (avScope v) = Locale (evQuery s))) &&
            (negb (scopable attr) || bool_decide (Channel (avScope v) = Channel (evQuery s))))).

Definition scopedValues (attr : AttrDefinition) (link : bool) (s : evalScope) : list AttributeValue :=
  List.filter (in_scope attr link s) (ranged (vals (stTables S))).

Definition live_of_entity (tenant : TenantID) (entity : EntityID) (v : AttributeValue) : bool :=
  of_entity tenant entity v && negb (AvIsArchived v).

Definition declaredType (tenant : TenantID) (entity : EntityID) : option ID :=
  avTypeID <$> head (List.filter (live_of_entity tenant entity) (ranged (vals (stTables S)))).

(** A loop that stops at the first value that satisfies [p]. *)
Fixpoint exists_loop {A} (p : A -> result bool) (l : list A) : result tri :=
  match l with
  | [] => Ok triFalse
  | x :: l => let! ok := p x in if ok then Ok triTrue else exists_loop p l
  end.

(** The least or greatest of the values, the first of equals. *)
Fixpoint bestLoop (func : AggFunc) (best : Value) (vs : list AttributeValue) : result Value :=
  match vs with
  | [] => Ok best
  | v :: vs =>
      let! cmp := Values.Compare (avValue v) best in
      let better := match func with FuncMin => cmp <? 0 | _ => 0 <? cmp end in
      bestLoop func (if better then avValue v else best) vs
  end.

Definition evalCompare (attr : AttrDefinition) (link : bool) (func : AggFunc) (op : CompareOp) (value : Value)
    (s : evalScope) : result tri :=
  let snaps := scopedValues attr link s in
  match func with
  | FuncMin | FuncMax =>
      match snaps with
      | [] => Ok triUnknown
      | v :: vs =>
          let! best := bestLoop func (avValue v) vs in
          let! ok := compareValues best value op in
          Ok (triOf ok)
      end
  | FuncCount =>
      let! ok := compareInts (Z.of_nat (length snaps)) (intVal value) op in
      Ok (triOf ok)
  | FuncLength => exists_loop (fun v => compareInts (Length (avValue v)) (intVal value) op) snaps
  | FuncNone => exists_loop (fun v => compareValues (avValue v) value op) snaps
  end.

Definition in_range (lo hi : Value) (v : AttributeValue) : result bool :=
  let! l := Values.Compare (avValue v) lo in
  let! h := Values.Compare (avValue v) hi in
  Ok ((0 <=? l) && (h <=? 0)).

Definition matches_string (kind : StringMatchKind) (needle text : string) : bool :=
  match kind with
  | MatchContains => str_Contains text needle
  | MatchIContains => str_Contains (str_ToLower text) (str_ToLower needle)
  | MatchIEquals => str_EqualFold text needle
  end.

Definition tokenize (s : string) : list string := str_Fields (str_ToLower s).

Definition matchesText (docText queryText : string) : bool :=
  let words := tokenize queryText in
  negb (bool_decide (words = [])) &&
  forallb (fun w => bool_decide (w ∈ tokenize docText)) words.

(** [strings.Join(parts, sep)] with a blank *)
Definition join_blank (parts : list string) : string := String.concat " " parts.

Definition evalMatches (query : string) (names : option (list string)) (s : evalScope) : tri :=
  match searchDocs S !! (evTenant s, evEntity s) with
  | None => triFalse
  | Some doc =>
      match names with
      | None => triOf (matchesText (docText doc) query)
      | Some names =>
          let readable := docEntity doc :: concat ((fun n => default [] (docValues doc !! n)) <$> names) in
          triOf (matchesText (join_blank readable) query)
      end
  end.

(** The other end of a link, seen from the current entity. *)
Definition far_end (direction : Direction) (entity : EntityID) (l : Relationship) : option EntityID :=
  match direction with
  | DirAny =>
      if bool_decide (entity = lkParent l) then Some (lkChild l)
      else if bool_decide (entity = lkChild l) then Some (lkParent l)
      else None
  | DirParent => if bool_decide (lkChild l = entity) then Some (lkParent l) else None
  | DirChild => if bool_decide (lkParent l = entity) then Some (lkChild l) else None
  end.

Definition crosses (def : RelDefinition) (s : evalScope) (l : Relationship) : bool :=
  bool_decide (lkTenantID l = evTenant s) && negb (LinkIsArchived l) && bool_decide (lkDefinitionID l = relID def).

(** The scope of the counterpart; [None] when the link does not lead to a live entity. *)
Definition across (def : RelDefinition) (direction : Direction) (s : evalScope) (l : Relationship) :
    option evalScope :=
  if crosses def s l then
    far ← far_end direction (evEntity s) l;
    farType ← declaredType (evTenant s) far;
    Some (mkEvalScope (evTenant s) far farType (ulid_String (lkID l)) (evQuery s))
  else None.

Section Loops.
Context (ev : BoundNode -> evalScope -> result tri).

Fixpoint logicalLoop (op : LogicalOp) (s : evalScope) (anyUnknown : bool) (es : list BoundNode) : result tri :=
  match es with
  | [] => Ok (if anyUnknown then triUnknown else triOf (match op with OpAnd => true | OpOr => false end))
  | e :: es =>
      let! res := ev e s in
      match op, res with
      | OpAnd, triFalse => Ok triFalse
      | OpOr, triTrue => Ok triTrue
      | _, _ => logicalLoop op s (anyUnknown || bool_decide (res = triUnknown)) es
      end
  end.

Fixpoint traversalLoop (def : RelDefinition) (direction : Direction) (inner : BoundNode) (s : evalScope)
    (ls : list Relationship) : result tri :=
  match ls with
  | [] => Ok triFalse
  | l :: ls =>
      match across def direction s l with
      | None => traversalLoop def direction inner s ls
      | Some s' =>
          let! res := ev inner s' in
          if bool_decide (res = triTrue) then Ok triTrue else traversalLoop def direction inner s ls
      end
  end.
End Loops.

Definition triNot (t : tri) : tri :=
  match t with triTrue => triFalse | triFalse => triTrue | triUnknown => triUnknown end.

Fixpoint eval (node : BoundNode) (s : evalScope) : result tri :=
  match node with
  | BoundLogical op es => logicalLoop eval op s false es
  | BoundNot e => let! res := eval e s in Ok (triNot res)
  | BoundType ids negate =>
      let member := bool_decide (evType s ∈ ids) in
      Ok (triOf (if negate then negb member else member))
  | BoundCompare attr link func op value => evalCompare attr link func op value s
  | BoundIn attr link values =>
      exists_loop (fun v => Ok (existsb (Equal (avValue v)) values)) (scopedValues attr link s)
  | BoundRange attr link lo hi => exists_loop (in_range lo hi) (scopedValues attr link s)
  | BoundHas attr link => Ok (triOf (0 <? Z.of_nat (length (scopedValues attr link s))))
  | BoundStringMatch attr link kind value =>
      exists_loop (fun v => Ok (matches_string kind value (textVal (avValue v)))) (scopedValues attr link s)
  | BoundMatches query names => Ok (evalMatches query names s)
  | BoundTraversal def direction inner =>
      traversalLoop eval def direction inner s (ranged (links (stLinks S)))
  end.
End Evaluation.

(** ** A query ([interactor.go], [Search]) *)

Record EntitySummary := mkSummary {
  esEntityID : EntityID;
  esTypeID : ID;
  ValueCount : Z;
  LastUpdatedAt : Z }.

Section Queries.
Context `{GoStd} `{GoUlid} `{GoNumeric} `{GoQuery} `{GoRange} `{GoCursor}.

(** One live row counted into its entity's summary. *)
Definition count_row (m : gmap (ID * EntityID) EntitySummary) (v : AttributeValue) :
    gmap (ID * EntityID) EntitySummary :=
  let key := (avTypeID v, avEntityID v) in
  let e := default (mkSummary (avEntityID v) (avTypeID v) 0 zeroTime) (m !! key) in
  <[key := mkSummary (esEntityID e) (esTypeID e) (ValueCount e + 1)
             (if LastUpdatedAt e <? avUpdatedAt v then avUpdatedAt v else LastUpdatedAt e)]> m.

Definition candidate_row (tenant : TenantID) (wanted : list ID) (v : AttributeValue) : bool :=
  bool_decide (avTenantID v = tenant) && negb (AvIsArchived v) && bool_decide (avTypeID v ∈ wanted).

Definition candidates (S : Store) (tenant : TenantID) (wanted : list ID) : gmap (ID * EntityID) EntitySummary :=
  fold_left count_row (List.filter (candidate_row tenant wanted) (ranged (vals (stTables S)))) ∅.

Definition root_scope (tenant : TenantID) (query : Scope) (e : EntitySummary) : evalScope :=
  mkEvalScope tenant (esEntityID e) (esTypeID e) EmptyString query.

(** The candidates for which the query is definitely true. *)
Fixpoint matchLoop (S : Store) (tenant : TenantID) (query : Scope) (node : BoundNode)
    (es : list EntitySummary) : result (list EntitySummary) :=
  match es with
  | [] => Ok []
  | e :: es =>
      let! res := eval S node (root_scope tenant query e) in
      let! rest := matchLoop S tenant query node es in
      Ok (if bool_decide (res = triTrue) then e :: rest else rest)
  end.

Definition by_entity (a b : EntitySummary) : bool := String.leb (esEntityID a) (esEntityID b).
Definition newest_first (a b : EntitySummary) : bool :=
  if LastUpdatedAt a =? LastUpdatedAt b then by_entity a b else LastUpdatedAt b <? LastUpdatedAt a.

Definition entityKey (e : EntitySummary) : list string := [KeysetTime (LastUpdatedAt e); esEntityID e].
Definition entityIDKey (e : EntitySummary) : list string := [esEntityID e].

Definition SearchEntities (S : Store) (tenant : TenantID) (rootTypes : list ID) (node : BoundNode)
    (query : Scope) (page : Page) : result (list EntitySummary * Z) :=
  let! matched := matchLoop S tenant query node (ranged (candidates S tenant rootTypes)) in
  if pgStable page then paginate (sort_by by_entity matched) page entityIDKeyset entityIDKey
  else paginate (sort_by newest_first matched) page entityKeyset entityKey.

Definition newBinder (tenant : TenantID) (access : Access) (searchIndex : bool) (S : Store) : binder :=
  mkBinder tenant searchIndex access (stTables S) (stLinks S)
    (fold_left (fun m t => <[tdInternalName t := t]> m) (TypeList (types (stTables S)) tenant schemaPage) ∅).

(** A parse error as the usecase reports it. *)
Definition parsed (query : string) : result Node :=
  match Parse query with
  | Done n => Ok n
  | Fail pos m => Err (positioned pos m)
  | Panic => Err panic
  | OutOfFuel => Err (Errorf "parser out of fuel")
  end.

Definition prepare (tenant : TenantID) (access : Access) (searchIndex : bool) (S : Store)
    (rootType query : string) : result (list ID * BoundNode) :=
  let! root := GetByInternalName (types (stTables S)) tenant rootType in
  let! node := parsed query in
  let b := newBinder tenant access searchIndex S in
  let! '(s, rowTypes) := scopeFor b root 0 in
  let! bound := bind b node s in
  Ok (tdID <$> rowTypes, bound).

(** [ExecuteInput] *)
Record ExecuteInput := mkExecute {
  exType : string;
  exQuery : string;
  exPage : PageArgs;
  exScope : Scope;
  exStable : bool }.

Definition with_stable (p : Page) (stable : bool) : Page :=
  mkPage (pgLimit p) (pgCursor p) (pgWantTotal p) stable.

Definition QueryExecute (tenant : TenantID) (access : Access) (searchIndex : bool) (S : Store)
    (i : ExecuteInput) : result (list EntitySummary * PageInfo) :=
  match Resolve (exPage i) with
  | Err e => Err (NewValidation (Message e))
  | Ok page =>
      let page := with_stable page (exStable i) in
      let! '(rootTypes, bound) := prepare tenant access searchIndex S (exType i) (exQuery i) in
      let! '(items, total) := SearchEntities S tenant rootTypes bound (exScope i) page in
      Ok (KeysetPage page items (KeysetTotal page total) (fun e =>
            if pgStable page then EncodeKeyset (entityIDKey e) else EncodeKeyset (entityKey e)))
  end.

(** [Validate] *)
Definition QueryValidate (tenant : TenantID) (access : Access) (searchIndex : bool) (S : Store)
    (rootType query : string) : result unit :=
  let! _ := prepare tenant access searchIndex S rootType query in Ok tt.
End Queries.
