(* ===== verification/QueryFacts.v ===== *)
(** What a bound query means, and that evaluating one does nothing else: the
    evaluator never fails on the queries the binder builds and answers the same
    whatever the order in which it meets rows and links. *)

From Stdlib Require Import ZArith QArith Lia String Ascii List SpecFloat.
From stdpp Require Import base tactics list gmap fin_maps fin_sets strings option decidable.
From S2P Require Import Prelude GoText Values Ids Attribute Access TypeDef Units Relationship ValueWrite SchemaFacts ValueWriteFacts Fql FqlFacts Pagination Query.

Open Scope Z_scope.
Open Scope go_scope.

(** ** The meaning of a query *)

(** An operator of a comparison, given equality and the sign of the order. *)
Definition op_holds (op : CompareOp) (eq : bool) (c : Z) : bool :=
  if bool_decide (op = CmpEq) then eq
  else if bool_decide (op = CmpNeq) then negb eq
  else if bool_decide (op = CmpGt) then 0 <? c
  else if bool_decide (op = CmpGte) then 0 <=? c
  else if bool_decide (op = CmpLt) then c <? 0
  else c <=? 0.

Definition known_op (op : CompareOp) : Prop := op ∈ [CmpEq; CmpNeq; CmpGt; CmpGte; CmpLt; CmpLte].

(** Kleene's conjunction and disjunction. *)
Definition kleene (op : LogicalOp) (ts : list tri) : tri :=
  let (short, full) := match op with OpAnd => (triFalse, triTrue) | OpOr => (triTrue, triFalse) end in
  if bool_decide (short ∈ ts) then short
  else if bool_decide (triUnknown ∈ ts) then triUnknown else full.

Section Meaning.
Context `{GoStd} `{GoUlid} `{GoQuery}.
Context (S : Store) (access : Access).

Definition sign_of (v w : Value) : Z := match Values.Compare v w with Ok c => c | Err _ => 0 end.

Definition relates (op : CompareOp) (v w : Value) : bool := op_holds op (Equal v w) (sign_of v w).

Definition relates_int (op : CompareOp) (a c : Z) : bool := op_holds op (a =? c) (a - c).

(** The rows a condition quantifies over: live values of the attribute, of the
    entity in the locale and channel asked for, or of the enclosing link. *)
Definition concerns (attr : AttrDefinition) (link : bool) (s : evalScope) (v : AttributeValue) : Prop :=
  avArchivedAt v = None /\ avTenantID v = evTenant s /\ avAttrID v = id attr /\
  if link then avEntityID v = evLink s
  else avEntityID v = evEntity s /\
       (localizable attr = true -> Locale (avScope v) = Locale (evQuery s)) /\
       (scopable attr = true -> Channel (avScope v) = Channel (evQuery s)).

#[export] Instance concerns_dec attr link s v : Decision (concerns attr link s v).
Proof. unfold concerns. destruct link; apply _. Defined.

Definition selected (attr : AttrDefinition) (link : bool) (s : evalScope) : list AttributeValue :=
  List.filter (fun v => bool_decide (concerns attr link s v)) (values (vals (stTables S))).

(** Falsehood and truth change places. *)
Definition negation (t : tri) : tri :=
  if bool_decide (t = triUnknown) then triUnknown else triOf (bool_decide (t = triFalse)).

(** A text holds every word of a query that has one. *)
Definition holds_words (text query : string) : Prop :=
  tokenize query <> [] /\ Forall (fun w => w ∈ tokenize text) (tokenize query).

(** What a search may read of a document: all of it, or the entity's name and the
    texts under some names. *)
Definition searched (names : option (list string)) (d : searchDoc) : string :=
  match names with
  | None => docText d
  | Some ns => join_blank (docEntity d :: concat (List.map (fun n => default [] (docValues d !! n)) ns))
  end.

Definition found (query : string) (names : option (list string)) (s : evalScope) : Prop :=
  exists d, searchDocs S !! (evTenant s, evEntity s) = Some d /\ holds_words (searched names d) query.

#[export] Instance found_dec query names s : Decision (found query names s).
Proof.
  destruct (searchDocs S !! (evTenant s, evEntity s)) as [d|] eqn:E.
  - destruct (decide (holds_words (searched names d) query)) as [Hd|Hd]; [left; by exists d|right].
    intros (d' & Ed & Hd'). congruence.
  - right. intros (d' & Ed & _). congruence.
Defined.

Definition extremal (func : AggFunc) (vs : list AttributeValue) (v : AttributeValue) : bool :=
  forallb (fun w => let c := sign_of (avValue v) (avValue w) in
    match func with FuncMin => c <=? 0 | _ => 0 <=? c end) vs.

Definition compare_truth (attr : AttrDefinition) (link : bool) (func : AggFunc) (op : CompareOp)
    (value : Value) (s : evalScope) : tri :=
  let vs := selected attr link s in
  match func with
  | FuncNone => triOf (existsb (fun v => relates op (avValue v) value) vs)
  | FuncLength => triOf (existsb (fun v => relates_int op (Length (avValue v)) (intVal value)) vs)
  | FuncCount => triOf (relates_int op (Z.of_nat (length vs)) (intVal value))
  | _ =>
      if bool_decide (vs = []) then triUnknown
      else triOf (existsb (fun v => extremal func vs v && relates op (avValue v) value) vs)
  end.

(** The type of an entity with live values. *)
Definition type_of (tenant : TenantID) (entity : EntityID) : option ID :=
  avTypeID <$> head (List.filter (live_of_entity tenant entity) (values (vals (stTables S)))).

Definition arrive (def : RelDefinition) (direction : Direction) (s : evalScope) (l : Relationship) :
    option evalScope :=
  if crosses def s l then
    far ← far_end direction (evEntity s) l;
    farType ← type_of (evTenant s) far;
    Some (mkEvalScope (evTenant s) far farType (ulid_String (lkID l)) (evQuery s))
  else None.

Definition between (lo hi v : Value) : bool := (0 <=? sign_of v lo) && (sign_of v hi <=? 0).

Fixpoint truth (node : BoundNode) (s : evalScope) : tri :=
  match node with
  | BoundLogical op es => kleene op (List.map (fun e => truth e s) es)
  | BoundNot e => negation (truth e s)
  | BoundType ids negate => triOf (xorb negate (bool_decide (evType s ∈ ids)))
  | BoundCompare attr link func op value => compare_truth attr link func op value s
  | BoundIn attr link vs =>
      triOf (existsb (fun v => existsb (Equal (avValue v)) vs) (selected attr link s))
  | BoundRange attr link lo hi => triOf (existsb (fun v => between lo hi (avValue v)) (selected attr link s))
  | BoundHas attr link => triOf (negb (bool_decide (selected attr link s = [])))
  | BoundStringMatch attr link kind value =>
      triOf (existsb (fun v => matches_string kind value (textVal (avValue v))) (selected attr link s))
  | BoundMatches query names => triOf (bool_decide (found query names s))
  | BoundTraversal def direction inner =>
      triOf (existsb (fun l =>
        match arrive def direction s l with
        | Some s' => bool_decide (truth inner s' = triTrue)
        | None => false
        end) (values (links (stLinks S))))
  end.

(** ** Well-bound queries *)

Definition typed_as (dt : DataType) (v : Value) : Prop := dataType v = dt /\ wf_value v.

(** An attribute of the tables that the principal may read. *)
Definition known_attr (attr : AttrDefinition) : Prop :=
  attrs (stTables S) !! id attr = Some attr /\ CanRead access (internalName attr) = true.

Inductive well_bound : BoundNode -> Prop :=
  | wb_logical op es : Forall well_bound es -> well_bound (BoundLogical op es)
  | wb_not e : well_bound e -> well_bound (BoundNot e)
  | wb_type ids negate : well_bound (BoundType ids negate)
  | wb_compare attr link op value :
      known_attr attr -> known_op op -> typed_as (attrType attr) value ->
      (ordering op = true -> IsOrdered (attrType attr) = true) ->
      well_bound (BoundCompare attr link FuncNone op value)
  | wb_extremal attr link func op value :
      known_attr attr -> known_op op -> typed_as (attrType attr) value ->
      func = FuncMin \/ func = FuncMax -> IsOrdered (attrType attr) = true ->
      well_bound (BoundCompare attr link func op value)
  | wb_measure attr link func op n :
      known_attr attr -> known_op op ->
      func = FuncCount \/ (func = FuncLength /\ IsTextual (attrType attr) = true) -> in_int64 n ->
      well_bound (BoundCompare attr link func op (NewIntegerValue n))
  | wb_in attr link vs :
      known_attr attr -> Forall (typed_as (attrType attr)) vs ->
      well_bound (BoundIn attr link vs)
  | wb_range attr link lo hi :
      known_attr attr -> IsOrdered (attrType attr) = true ->
      typed_as (attrType attr) lo -> typed_as (attrType attr) hi -> well_bound (BoundRange attr link lo hi)
  | wb_has attr link : known_attr attr -> well_bound (BoundHas attr link)
  | wb_match attr link kind value :
      known_attr attr -> IsTextual (attrType attr) = true ->
      well_bound (BoundStringMatch attr link kind value)
  | wb_matches query names :
      match names with None => ReadsEverything access = true | Some ns => Forall (fun n => CanRead access n = true) ns end ->
      well_bound (BoundMatches query names)
  | wb_traversal def direction inner :
      well_bound inner ->
      well_bound (BoundTraversal def direction inner).
End Meaning.

(** Induction on well-bound queries, through the lists of their operands. *)
Section Induction.
Context (S : Store) (access : Access) (P : BoundNode -> Prop).
Context (Hlogical : forall op es, Forall (well_bound S access) es -> Forall P es -> P (BoundLogical op es)).
Context (Hnot : forall e, well_bound S access e -> P e -> P (BoundNot e)).
Context (Htraversal : forall def direction inner, well_bound S access inner -> P inner -> P (BoundTraversal def direction inner)).
Context (Hleaf : forall n, well_bound S access n ->
  match n with BoundLogical _ _ | BoundNot _ | BoundTraversal _ _ _ => False | _ => True end -> P n).

Lemma well_bound_rect n : well_bound S access n -> P n.
Proof using Hlogical Hnot Htraversal Hleaf.
  revert n. fix IH 2. intros n Hn. destruct Hn as [op es He|e He| | | | | | | | | |def d inner Hi].
  2: { apply Hnot; [exact He|by apply IH]. }
  11: { apply Htraversal; [exact Hi|by apply IH]. }
  { apply Hlogical; [exact He|]. induction He as [|x l Hx Hl IHl]; constructor; [by apply IH|exact IHl]. }
  all: apply Hleaf; [by econstructor|exact I].
Qed.
End Induction.

(** ** Lists in any order *)

Lemma existsb_perm {A} (p : A -> bool) l l' : l ≡ₚ l' -> existsb p l = existsb p l'.
Proof.
  intros HP. apply eq_true_iff_eq. rewrite !existsb_exists.
  split; intros (x & Hx & Hp); exists x; (split; [|exact Hp]).
  - by apply (Permutation_in _ HP).
  - by apply (Permutation_in _ (Permutation_sym HP)).
Qed.

Lemma existsb_ext {A} (p q : A -> bool) l : (forall x, x ∈ l -> p x = q x) -> existsb p l = existsb q l.
Proof.
  induction l as [|x l IH]; intros Hpq; [done|]. simpl. rewrite (Hpq x) by left. f_equal.
  apply IH. intros y Hy. apply Hpq. by right.
Qed.

Lemma forallb_perm {A} (p : A -> bool) l l' : l ≡ₚ l' -> forallb p l = forallb p l'.
Proof.
  intros HP. apply eq_true_iff_eq. rewrite !forallb_forall.
  split; intros Hp x Hx; apply Hp; [by apply (Permutation_in _ (Permutation_sym HP))|by apply (Permutation_in _ HP)].
Qed.

Lemma exists_loop_ok {A} (p : A -> result bool) (q : A -> bool) l :
  (forall x, x ∈ l -> p x = Ok (q x)) -> exists_loop p l = Ok (triOf (existsb q l)).
Proof.
  induction l as [|x l IH]; intros Hp; [done|]. simpl. rewrite Hp by left. simpl.
  destruct (q x); simpl; [done|]. apply IH. intros y Hy. apply Hp. by right.
Qed.

(** ** Comparisons never fail *)

Section Comparisons.
Context `{GoStd}.

Lemma Compare_typed dt v w :
  typed_as dt v -> typed_as dt w -> IsOrdered dt = true -> Values.Compare v w = Ok (sign_of v w).
Proof.
  intros [Dv Wv] [Dw Ww] Ho.
  assert (exists c, Values.Compare v w = Ok c) as [c E]; [|unfold sign_of; by rewrite E].
  unfold Values.Compare, wf_value in *. rewrite Dv, Dw in *. rewrite bool_decide_eq_true_2 by done. simpl.
  destruct dt; try discriminate; try (by eexists).
  destruct Wv as (_ & _ & p & ->), Ww as (_ & _ & q & ->). by eexists.
Qed.

Lemma holds_op op eq c : known_op op -> ordering op = true -> holds op c = Ok (op_holds op eq c).
Proof.
  intros Hk Ho. apply bool_decide_eq_true in Ho. unfold holds, op_holds.
  rewrite !list_elem_of_In in Ho. simpl in Ho. by destruct Ho as [<-|[<-|[<-|[<-|[]]]]].
Qed.

Lemma known_ordering op : known_op op -> op <> CmpEq -> op <> CmpNeq -> ordering op = true.
Proof.
  intros Hk Ne Nn. apply bool_decide_eq_true. unfold known_op in Hk. rewrite list_elem_of_In in Hk |- *. simpl in *.
  destruct Hk as [E|[E|Hk]]; [by destruct Ne|by destruct Nn|tauto].
Qed.

Lemma compareValues_ok dt v w op :
  known_op op -> typed_as dt v -> typed_as dt w -> (ordering op = true -> IsOrdered dt = true) ->
  compareValues v w op = Ok (relates op v w).
Proof.
  intros Hk Tv Tw Ho. unfold compareValues, relates.
  destruct (decide (op = CmpEq)) as [->|Ne]; [done|]. destruct (decide (op = CmpNeq)) as [->|Nn]; [done|].
  rewrite !bool_decide_eq_false_2 by done.
  assert (ordering op = true) as Hord by by apply known_ordering.
  rewrite (Compare_typed dt) by auto. by apply holds_op.
Qed.

Lemma compareInts_ok a c op : known_op op -> compareInts a c op = Ok (relates_int op a c).
Proof.
  unfold known_op. rewrite list_elem_of_In. simpl. unfold relates_int, compareInts, op_holds.
  intros [<-|[<-|[<-|[<-|[<-|[<-|[]]]]]]]; simpl; f_equal; apply eq_true_iff_eq;
    rewrite ?Z.ltb_lt, ?Z.leb_le; first [done|lia].
Qed.

(** *** The least and the greatest *)

Lemma ordered_sign dt v w : ordered dt v -> ordered dt w -> sign_of v w = of_comparison (vcmp v w).
Proof. intros Hv Hw. unfold sign_of. by rewrite (Compare_vcmp dt). Qed.

Lemma sign_total dt v w : ordered dt v -> ordered dt w -> sign_of v w = - sign_of w v.
Proof.
  intros Hv Hw. rewrite (ordered_sign dt v w), (ordered_sign dt w v) by done.
  rewrite (cmp_opp w v) by done. by rewrite of_comparison_opp.
Qed.

Lemma sign_trans dt u v w :
  ordered dt u -> ordered dt v -> ordered dt w -> sign_of u v <= 0 -> sign_of v w <= 0 -> sign_of u w <= 0.
Proof.
  intros Hu Hv Hw. rewrite !(ordered_sign dt) by done. pose proof (cmp_le_trans u v w Hu Hv Hw) as HT.
  destruct (vcmp u v), (vcmp v w), (vcmp u w); simpl; try lia; intros; destruct (HT ltac:(done) ltac:(done)); done.
Qed.

Lemma sign_refl dt v : ordered dt v -> sign_of v v = 0.
Proof. intros Hv. pose proof (sign_total dt v v Hv Hv). lia. Qed.

Lemma sign_zero_Equal dt v w : ordered dt v -> ordered dt w -> sign_of v w = 0 -> Equal v w = true.
Proof. intros Hv Hw E. apply (Equal_vcmp dt); [done|done|]. by rewrite <- (ordered_sign dt). Qed.

(** A NaN compares as neither greater nor less. *)
Lemma sign_nan dt v w :
  typed_as dt v -> typed_as dt w -> IsOrdered dt = true -> ~ comparable w -> sign_of v w = 0.
Proof.
  intros [Dv Wv] [Dw Ww] Ho Hn. unfold sign_of, Values.Compare. rewrite Dv, Dw, bool_decide_eq_true_2 by done.
  unfold comparable in Hn. apply not_false_iff_true in Hn.
  assert (floatVal w = S754_nan) as Ew by by destruct (floatVal w).
  assert (compareFloat (floatVal v) (floatVal w) = 0) as Ec.
  { rewrite Ew. unfold compareFloat, SFltb, SFcompare. by destruct (floatVal v) as [[]|[]| |[]]. }
  unfold wf_value in Ww. rewrite Dw in Ww. destruct dt; try discriminate; simpl; try exact Ec.
  - destruct Ww as [E _]. rewrite E in Ew. discriminate Ew.
  - destruct Ww as (E & _). rewrite E in Ew. discriminate Ew.
  - destruct Ww as (E & _). rewrite E in Ew. discriminate Ew.
  - destruct Ww as (E & _). rewrite E in Ew. discriminate Ew.
  - rewrite Ww in Ew. discriminate Ew.
Qed.

Lemma sign_congr dt u v w :
  ordered dt u -> ordered dt v -> sign_of u v = 0 -> typed_as dt w -> sign_of u w = sign_of v w.
Proof.
  intros Hu Hv E Hw. pose proof Hu as (Du & Ho & Wu & Cu). pose proof Hv as (Dv & _ & Wv & Cv).
  destruct (decide (is_nan (floatVal w) = false)) as [Cw|Nw].
  - assert (ordered dt w) as Hw'. { destruct Hw. by split_and!. }
    pose proof (sign_total dt u v Hu Hv). pose proof (sign_total dt u w Hu Hw').
    pose proof (sign_total dt v w Hv Hw').
    pose proof (sign_trans dt u v w Hu Hv Hw'). pose proof (sign_trans dt v u w Hv Hu Hw').
    pose proof (sign_trans dt w v u Hw' Hv Hu). pose proof (sign_trans dt w u v Hw' Hu Hv).
    revert H0 H1 H2 H3 H4 H5 H6. rewrite (ordered_sign dt u w), (ordered_sign dt v w) by done.
    destruct (vcmp u w), (vcmp v w); simpl; lia.
  - rewrite (sign_nan dt u w), (sign_nan dt v w) by done. done.
Qed.

Lemma relates_congr dt op u v w :
  ordered dt u -> ordered dt v -> sign_of u v = 0 -> typed_as dt w -> relates op u w = relates op v w.
Proof.
  intros Hu Hv E Hw. unfold relates. rewrite (sign_congr dt u v w) by done.
  assert (Equal u v = true) as Euv by by apply (sign_zero_Equal dt).
  assert (Equal u w = Equal v w) as ->; [|done]. apply eq_true_iff_eq. split; intros E'.
  - eapply Equal_trans; [by apply Equal_sym|done].
  - by eapply Equal_trans.
Qed.

(** [bestLoop] picks one of the values, before or after all the others. *)
Definition beats (func : AggFunc) (v w : Value) : Prop :=
  match func with FuncMin => sign_of v w <= 0 | _ => 0 <= sign_of v w end.

Lemma beats_trans dt func u v w :
  ordered dt u -> ordered dt v -> ordered dt w -> beats func u v -> beats func v w -> beats func u w.
Proof.
  intros Hu Hv Hw. destruct func; simpl; try (by apply (sign_trans dt));
    rewrite (sign_total dt u v), (sign_total dt v w), (sign_total dt u w) by done;
    intros A1 A2; pose proof (sign_trans dt w v u Hw Hv Hu); lia.
Qed.

Lemma bestLoop_ok dt func vs best :
  ordered dt best -> Forall (fun v => ordered dt (avValue v)) vs ->
  exists r, bestLoop func best vs = Ok r /\ r ∈ best :: (avValue <$> vs) /\
    Forall (beats func r) (best :: (avValue <$> vs)).
Proof.
  revert best. induction vs as [|v vs IH]; intros best Hb Hvs.
  { exists best. split_and!; [done|by left|]. repeat constructor.
    unfold beats. rewrite (sign_refl dt) by done. by destruct func. }
  apply Forall_cons_iff in Hvs as [Hv Hvs]. cbn [bestLoop].
  pose proof Hv as (Dv & Ho & Wv & Cv). pose proof Hb as (Db & _ & Wb & Cb).
  rewrite (Compare_typed dt) by done. cbn [res_bind].
  set (better := match func with FuncMin => _ | _ => _ end). set (b' := if better then avValue v else best).
  assert (ordered dt b') as Hb' by (unfold b'; by destruct better).
  assert (beats func b' best /\ beats func b' (avValue v)) as [B1 B2].
  { pose proof (sign_total dt (avValue v) best Hv Hb) as Ht. pose proof (sign_refl dt best Hb).
    pose proof (sign_refl dt (avValue v) Hv).
    unfold b', better, beats. destruct func;
      match goal with |- context [if ?t then _ else _] => destruct t eqn:E end;
      rewrite ?Z.ltb_lt, ?Z.ltb_ge in E; split; lia. }
  destruct (IH b' Hb' Hvs) as (r & Er & Hin & Hall). exists r. split_and!; [exact Er| |].
  - rewrite fmap_cons. apply elem_of_cons in Hin as [->|Hin]; [|by do 2 right].
    unfold b'. destruct better; [by right; left|by left].
  - apply Forall_cons_iff in Hall as [Hr Hall]. rewrite fmap_cons.
    assert (ordered dt r) as Hor.
    { apply elem_of_cons in Hin as [->|Hin]; [done|]. apply list_elem_of_fmap in Hin as (x & -> & Hx).
      rewrite list.Forall_forall in Hvs. by apply Hvs. }
    constructor; [by apply (beats_trans dt func r b')|].
    constructor; [by apply (beats_trans dt func r b')|exact Hall].
Qed.
End Comparisons.

(** ** Evaluation is the meaning *)

(** What evaluation relies on: the table of values is sound and holds no NaN, which
    a JSON document cannot carry. *)
Record readable_store `{GoStd} (S : Store) : Prop := {
  rs_vals : vals_ok (stTables S);
  rs_nan : forall i r, vals (stTables S) !! i = Some r -> live r -> comparable (avValue r) }.

Section Evaluation.
Context `{GoStd} `{GoUlid} `{GoQuery} `{GoRange}.
Context (S : Store) (access : Access) (HS : readable_store S).

Lemma in_scope_concerns attr link s v : in_scope attr link s v = bool_decide (concerns attr link s v).
Proof using.
  apply eq_true_iff_eq. rewrite bool_decide_eq_true. unfold in_scope, concerns, AvIsArchived.
  rewrite !andb_true_iff, !bool_decide_eq_true.
  assert (negb (isSome (avArchivedAt v)) = true <-> avArchivedAt v = None) as -> by by destruct (avArchivedAt v).
  destruct link; simpl; [naive_solver|]. rewrite andb_true_iff, !orb_true_iff, !bool_decide_eq_true.
  destruct (localizable attr), (scopable attr); naive_solver.
Qed.

Lemma scoped_selected attr link s : scopedValues S attr link s ≡ₚ selected S attr link s.
Proof using.
  unfold scopedValues, selected. rewrite (List.filter_ext _ _ (in_scope_concerns attr link s)).
  apply filter_perm, ranged_perm.
Qed.

Lemma negation_not t : triNot t = negation t.
Proof using. by destruct t. Qed.

Lemma matchesText_words text query : matchesText text query = bool_decide (holds_words text query).
Proof using.
  apply eq_true_iff_eq. rewrite bool_decide_eq_true. unfold matchesText, holds_words.
  rewrite andb_true_iff, negb_true_iff, bool_decide_eq_false, forallb_forall, list.Forall_forall.
  split; intros [Hne Hw]; (split; [done|]); intros w Hin.
  - apply list_elem_of_In in Hin. apply Hw in Hin. by apply bool_decide_eq_true in Hin.
  - apply bool_decide_eq_true, Hw. by apply list_elem_of_In.
Qed.

Lemma evalMatches_found query names s : evalMatches S query names s = triOf (bool_decide (found S query names s)).
Proof using.
  unfold evalMatches. destruct (searchDocs S !! _) as [d|] eqn:E.
  - assert (bool_decide (found S query names s) = bool_decide (holds_words (searched names d) query)) as ->.
    { apply bool_decide_ext. unfold found. rewrite E. naive_solver. }
    by destruct names; rewrite matchesText_words.
  - rewrite bool_decide_eq_false_2; [done|]. intros (d & Ed & _). congruence.
Qed.

Lemma selected_row attr link s v :
  v ∈ selected S attr link s ->
  (exists i, vals (stTables S) !! i = Some v) /\ live v /\ avAttrID v = id attr.
Proof.
  unfold selected. rewrite elem_of_filter_b, values_elem, bool_decide_eq_true. intros [Hi (Hl & _ & Ha & _)]. split; [done|split; [|done]]. unfold live, AvIsArchived. by rewrite Hl.
Qed.

Lemma selected_typed attr link s v :
  known_attr S access attr -> v ∈ selected S attr link s -> typed_as (attrType attr) (avValue v).
Proof using HS.
  intros [Ha _] ((i & Hi) & Hl & Ea)%selected_row. destruct (vo_row _ (rs_vals _ HS) i v Hi) as [b [R1 R2 R3 R4 R5 R6 R7]].
  assert (b = attr) as -> by congruence. by split.
Qed.

Lemma selected_ordered attr link s v :
  known_attr S access attr -> IsOrdered (attrType attr) = true ->
  v ∈ selected S attr link s -> ordered (attrType attr) (avValue v).
Proof using HS.
  intros Ha Ho Hv. destruct (selected_typed attr link s v Ha Hv) as [D W].
  apply selected_row in Hv as ((i & Hi) & Hl & _). split_and!; try done. by apply (rs_nan _ HS i).
Qed.

(** A loop over the scoped rows that may stop early. *)
Lemma scoped_exists attr link s (p : AttributeValue -> result bool) (q : AttributeValue -> bool) :
  (forall v, v ∈ selected S attr link s -> p v = Ok (q v)) ->
  exists_loop p (scopedValues S attr link s) = Ok (triOf (existsb q (selected S attr link s))).
Proof.
  intros Hp. rewrite (exists_loop_ok p q).
  - by rewrite (existsb_perm q _ _ (scoped_selected attr link s)).
  - intros v Hv. apply Hp. by rewrite <- scoped_selected.
Qed.

Lemma extremal_spec func vs v :
  func = FuncMin \/ func = FuncMax ->
  extremal func vs v = true <-> Forall (fun w => beats func (avValue v) (avValue w)) vs.
Proof.
  intros Hf. unfold extremal. rewrite forallb_forall, list.Forall_forall. unfold beats.
  setoid_rewrite list_elem_of_In.
  destruct Hf as [-> | ->]; split; intros Hx w Hw; specialize (Hx w Hw); by apply Z.leb_le.
Qed.

(** The value the loop settles on decides for all the extremal ones. *)
Lemma extremal_truth dt func op value vs best r :
  func = FuncMin \/ func = FuncMax -> typed_as dt value ->
  Forall (fun v => ordered dt (avValue v)) (best :: vs) ->
  r ∈ avValue best :: (avValue <$> vs) -> Forall (beats func r) (avValue best :: (avValue <$> vs)) ->
  existsb (fun v => extremal func (best :: vs) v && relates op (avValue v) value) (best :: vs) = relates op r value.
Proof.
  intros Hf Ht Ho Hr Hb. change (avValue best :: (avValue <$> vs)) with (avValue <$> best :: vs) in *.
  set (all := best :: vs) in *. apply list_elem_of_fmap in Hr as (w & -> & Hw).
  rewrite list.Forall_fmap in Hb. rewrite list.Forall_forall in Ho.
  assert (extremal func all w = true) as Hx by by apply extremal_spec.
  apply eq_true_iff_eq. rewrite existsb_exists. split.
  - intros (v & Hv%list_elem_of_In & [Ev Er]%andb_true_iff). apply extremal_spec in Ev; [|done].
    rewrite list.Forall_forall in Ev, Hb. specialize (Ev w Hw). specialize (Hb v Hv). simpl in Hb.
    rewrite (relates_congr dt op (avValue w) (avValue v)); auto.
    pose proof (sign_total dt (avValue v) (avValue w) (Ho v Hv) (Ho w Hw)).
    unfold beats in *. destruct Hf as [-> | ->]; lia.
  - intros Er. exists w. split; [by apply list_elem_of_In|]. by rewrite Hx.
Qed.

Lemma evalCompare_truth attr link func op value s :
  well_bound S access (BoundCompare attr link func op value) ->
  evalCompare S attr link func op value s = Ok (compare_truth S attr link func op value s).
Proof using HS.
  intros Hw. unfold evalCompare, compare_truth. inversion Hw; subst.
  - apply scoped_exists. intros v Hv. apply (compareValues_ok (attrType attr)); auto.
    by apply (selected_typed attr link s).
  - pose proof (scoped_selected attr link s) as HP.
    assert (Forall (fun v => ordered (attrType attr) (avValue v)) (scopedValues S attr link s)) as Ho.
    { rewrite list.Forall_forall. intros v Hv. rewrite HP in Hv. by apply (selected_ordered attr link s). }
    assert (forall func', func' = FuncMin \/ func' = FuncMax ->
      match scopedValues S attr link s with
      | [] => Ok triUnknown
      | v :: vs => let! best := bestLoop func' (avValue v) vs in
                   let! ok := compareValues best value op in Ok (triOf ok)
      end = Ok (if bool_decide (selected S attr link s = []) then triUnknown
        else triOf (existsb (fun v => extremal func' (selected S attr link s) v && relates op (avValue v) value)
                (selected S attr link s)))) as Hgen.
    { intros func' Hf. destruct (scopedValues S attr link s) as [|v vs] eqn:E.
      - apply Permutation_nil in HP. by rewrite HP.
      - rewrite bool_decide_eq_false_2 by (intros Hn; rewrite Hn in HP; by apply Permutation_sym, Permutation_nil in HP).
        pose proof Ho as [Hv Hvs]%Forall_cons_iff.
        destruct (bestLoop_ok (attrType attr) func' vs (avValue v) Hv Hvs) as (r & -> & Hin & Hall). cbn [res_bind].
        assert (ordered (attrType attr) r) as Hor.
        { rewrite list.Forall_forall in Ho. apply list_elem_of_fmap_1 with (f := avValue) (l := v :: vs) in Hin
            as (x & -> & Hx). by apply Ho. }
        rewrite (compareValues_ok (attrType attr) r value op) by (try done; destruct Hor as (? & ? & ? & ?); done).
        cbn [res_bind]. f_equal. f_equal.
        rewrite <- (extremal_truth (attrType attr) func' op value vs v r) by done.
        rewrite (existsb_perm _ _ _ HP). apply existsb_ext. intros x _. f_equal.
        unfold extremal. by apply forallb_perm. }
    match goal with Hf : func = FuncMin \/ func = FuncMax |- _ => destruct Hf as [-> | ->] end;
      [apply (Hgen FuncMin)|apply (Hgen FuncMax)]; auto.
  - match goal with Hf : func = FuncCount \/ _ |- _ => destruct Hf as [-> | [-> _]] end.
    + rewrite compareInts_ok by done. by rewrite (Permutation_length (scoped_selected attr link s)).
    + apply scoped_exists. intros v _. by apply compareInts_ok.
Qed.

(** *** Kleene's connectives, left to right *)

Lemma member_cons (x y : tri) l : bool_decide (x ∈ y :: l) = bool_decide (x = y) || bool_decide (x ∈ l).
Proof. apply eq_true_iff_eq. rewrite orb_true_iff, !bool_decide_eq_true. apply elem_of_cons. Qed.

Lemma kleene_cons op t ts :
  kleene op (t :: ts) =
  match op, t with
  | OpAnd, triFalse => triFalse
  | OpOr, triTrue => triTrue
  | _, _ => if bool_decide (t = triUnknown)
            then match kleene op ts with triFalse => match op with OpAnd => triFalse | OpOr => triUnknown end
                 | triTrue => match op with OpAnd => triUnknown | OpOr => triTrue end | triUnknown => triUnknown end
            else kleene op ts
  end.
Proof.
  unfold kleene. destruct op, t; rewrite !member_cons; simpl; rewrite ?orb_false_r, ?orb_true_r; simpl;
    repeat match goal with |- context [bool_decide (?x ∈ ts)] => destruct (bool_decide (x ∈ ts)) end; done.
Qed.

(** What an undecided loop has seen. *)
Definition pending (op : LogicalOp) (anyUnknown : bool) (t : tri) : tri :=
  if anyUnknown then
    match op, t with
    | OpAnd, triFalse => triFalse
    | OpOr, triTrue => triTrue
    | _, _ => triUnknown
    end
  else t.

Lemma logicalLoop_kleene ev op s es u (f : BoundNode -> tri) :
  (forall e, e ∈ es -> ev e s = Ok (f e)) ->
  logicalLoop ev op s u es = Ok (pending op u (kleene op (List.map f es))).
Proof.
  revert u. induction es as [|e es IH]; intros u Hev.
  { unfold kleene, pending. destruct op, u; reflexivity. }
  cbn [logicalLoop List.map]. rewrite Hev by left. cbn [res_bind].
  assert (forall u', logicalLoop ev op s u' es = Ok (pending op u' (kleene op (List.map f es)))) as IH'.
  { intros u'. apply IH. intros y Hy. apply Hev. by right. }
  rewrite kleene_cons. generalize (f e) as t. intros t. rewrite !IH'.
  destruct op, t; simpl; rewrite ?IH'; unfold pending; destruct u; simpl;
    repeat (case_bool_decide; simplify_eq); destruct (kleene _ _); reflexivity.
Qed.

(** *** Traversals *)

Lemma declaredType_type tenant entity : declaredType S tenant entity = type_of S tenant entity.
Proof using HS.
  unfold declaredType, type_of. set (p := live_of_entity tenant entity).
  assert (forall l : list AttributeValue, (forall v, v ∈ l -> v ∈ values (vals (stTables S)) /\ p v = true) -> forall v w, v ∈ l -> w ∈ l ->
    avTypeID v = avTypeID w) as Hone.
  { intros l Hl v w Hv Hw. destruct (Hl v Hv) as [(i & Hi)%values_elem Pv], (Hl w Hw) as [(j & Hj)%values_elem Pw].
    unfold p, live_of_entity in *. apply andb_true_iff in Pv as [Pv _], Pw as [Pw _].
    apply of_entity_true in Pv as [P1 P2], Pw as [P3 P4].
    apply (vo_anchor _ (rs_vals _ HS) i j v w Hi Hj); congruence. }
  pose proof (filter_perm p _ _ (ranged_perm _ _ (vals (stTables S)))) as HP.
  assert (forall v, v ∈ List.filter p (values (vals (stTables S))) ->
    v ∈ values (vals (stTables S)) /\ p v = true) as Hall by (intros v; apply elem_of_filter_b).
  destruct (List.filter p (ranged _)) as [|v l]; destruct (List.filter p (values _)) as [|w l'] eqn:E; simpl; try done.
  - by apply Permutation_nil in HP.
  - by apply Permutation_sym, Permutation_nil in HP.
  - f_equal. apply (Hone (w :: l')); [done| |by left]. rewrite <- HP. by left.
Qed.

Lemma across_arrive def direction s l : across S def direction s l = arrive S def direction s l.
Proof using HS.
  unfold across, arrive. destruct (crosses def s l); [|done].
  destruct (far_end direction (evEntity s) l) as [far|]; [|done]. simpl. by rewrite declaredType_type.
Qed.

Lemma traversalLoop_exists ev def direction inner s ls (f : evalScope -> tri) :
  (forall s', ev inner s' = Ok (f s')) ->
  traversalLoop S ev def direction inner s ls = Ok (triOf (existsb (fun l =>
    match arrive S def direction s l with Some s' => bool_decide (f s' = triTrue) | None => false end) ls)).
Proof using HS.
  intros Hev. induction ls as [|l ls IH]; [done|]. cbn [traversalLoop existsb].
  rewrite across_arrive. destruct (arrive S def direction s l) as [s'|]; [|exact IH].
  rewrite Hev. cbn [res_bind]. by destruct (bool_decide (f s' = triTrue)).
Qed.

Lemma sign_range dt v lo hi :
  typed_as dt v -> typed_as dt lo -> typed_as dt hi -> IsOrdered dt = true ->
  (let! l := Values.Compare v lo in let! h := Values.Compare v hi in Ok ((0 <=? l) && (h <=? 0))) = Ok (between lo hi v).
Proof. intros Tv Tl Th Ho. rewrite (Compare_typed dt v lo), (Compare_typed dt v hi) by done. done. Qed.

(** The evaluator computes the meaning of every well-bound query. *)
Lemma eval_truth n : well_bound S access n -> forall s, eval S n s = Ok (truth S n s).
Proof using HS.
  intros Hn. pattern n. apply (well_bound_rect S access); [| | | |exact Hn]; clear n Hn.
  - intros op es _ IH s. cbn [eval truth]. rewrite list.Forall_forall in IH.
    rewrite (logicalLoop_kleene _ op s es false (fun e => truth S e s)); [done|]. intros e He. by apply IH.
  - intros e _ IH s. cbn [eval truth]. rewrite IH. simpl. by rewrite negation_not.
  - intros def d inner _ IH s. cbn [eval truth].
    rewrite (traversalLoop_exists (eval S) def d inner s _ (truth S inner) IH).
    by rewrite (existsb_perm _ _ _ (ranged_perm _ _ (links (stLinks S)))).
  - intros n Hn Hl s. destruct n as [| |attr link func op value|attr link vs|attr link lo hi|attr link
      |attr link kind value|ids negate|query names|]; try done; cbn [eval truth].
    + by apply evalCompare_truth.
    + by apply scoped_exists.
    + inversion Hn; subst. apply scoped_exists. intros v Hv. unfold in_range.
      apply (sign_range (attrType attr)); try done. by apply (selected_typed attr link s).
    + rewrite (Permutation_length (scoped_selected attr link s)). by destruct (selected S attr link s).
    + by apply scoped_exists.
    + by rewrite evalMatches_found.
Qed.
End Evaluation.

(** ** The binder builds well-bound queries *)

Section Binding.
Context `{GoStd} `{GoUlid} `{GoNumeric} `{GoQuery}.
Context (S : Store) (b : binder).
Context (Hb : bTables b = stTables S) (HT : schema_ok (stTables S)).

Abbreviation known := (known_attr S (bAccess b)).

Definition names_known (m : gmap string AttrDefinition) : Prop :=
  map_Forall (fun name a => internalName a = name /\ known a) m.

Definition scope_ok (s : scope) : Prop :=
  names_known (scAttrs s) /\ forall ls, scLinkAttrs s = Some ls -> names_known ls.

Lemma ListAll_known t l :
  ListAllForType (bTables b) t = Ok l -> Forall known (List.filter (visible (bAccess b)) l).
Proof using Hb HT.
  unfold ListAllForType. rewrite Hb. intros Hl. res_inv. rewrite list.Forall_forall. intros a Ha.
  unfold ListByTypeDefinition in Ha. rewrite elem_of_filter_b, sort_by_elem, elem_of_filter_b, values_elem in Ha.
  destruct Ha as [[(i & Hi) _] Hv]. pose proof (so_keyed _ HT i a Hi) as E. simpl in E. subst i.
  split; [done|]. unfold visible in Hv. by breflect.
Qed.

Lemma fold_known (put : gmap string AttrDefinition -> AttrDefinition -> gmap string AttrDefinition) l m :
  (forall m a, put m a = m \/ put m a = <[internalName a := a]> m) ->
  Forall known l -> names_known m -> names_known (fold_left put l m).
Proof using.
  intros Hput. revert m. induction l as [|a l IH]; intros m Hl Hm; [done|].
  apply Forall_cons_iff in Hl as [Ha Hl]. simpl. apply IH; [done|].
  destruct (Hput m a) as [-> | ->]; [done|]. by apply map_Forall_insert_2.
Qed.

Lemma scopeAttrs_known ts m m' : scopeAttrs b ts m = Ok m' -> names_known m -> names_known m'.
Proof using Hb HT.
  revert m. induction ts as [|t ts IH]; intros m; simpl; [by intros [= <-]|].
  destruct (TypeIsArchived t); [apply IH|]. intros Hs Hm. res_inv. eapply IH; [done|].
  apply fold_known; [by right|by eapply ListAll_known|done].
Qed.

Lemma scopeFor_ok root depth s rows : scopeFor b root depth = Ok (s, rows) -> scope_ok s.
Proof using Hb HT.
  unfold scopeFor. intros Hs. res_inv. split; [|done]. simpl. eapply scopeAttrs_known; [done|]. apply map_Forall_empty.
Qed.

Lemma linkAttrsLoop_known rounds d out m :
  linkAttrsLoop b rounds d out = Ok m -> names_known out -> names_known m.
Proof using Hb HT.
  revert d out. induction rounds as [|rounds IH]; intros d out; simpl; [by intros [= <-]|].
  intros Hl Ho. res_inv. match goal with E : ListAllForType _ _ = Ok ?l |- _ => pose proof (ListAll_known _ _ E) as Hk end.
  assert (names_known (fold_left keep_attr (List.filter (visible (bAccess b)) x) out)) as Ho'.
  { apply fold_known; [|done|done]. intros m' a. unfold keep_attr. destruct (m' !! internalName a); auto. }
  destruct (relExtendsID d) as [base|]; [|by injection Hl as <-]. res_inv. by eapply IH.
Qed.

Lemma merge_ok s other : scope_ok s -> scope_ok other -> scope_ok (merge_scopes s other).
Proof using.
  intros [S1 S2] [O1 O2]. split; simpl; [|done].
  intros name a [Ha|[_ Ha]]%lookup_union_Some_raw; [by apply S1|by apply O1].
Qed.

Lemma scopeOf_ok depth i s : scopeOf b depth i = Ok s -> scope_ok s.
Proof using Hb HT. unfold scopeOf. intros Hs. res_inv. destruct x0 as [s rows]. by eapply scopeFor_ok. Qed.

Lemma traversalScope_ok direction def depth s : traversalScope b direction def depth = Ok s -> scope_ok s.
Proof using Hb HT.
  unfold traversalScope. destruct direction; [by apply scopeOf_ok|by apply scopeOf_ok|].
  intros Hs. res_inv. case_bool_decide; [injection Hs as <-; by eapply scopeOf_ok|]. res_inv.
  apply merge_ok; by eapply scopeOf_ok.
Qed.

Lemma enter_ok direction rel pos s def s' : enter b direction rel pos s = Ok (def, s') -> scope_ok s'.
Proof using Hb HT.
  unfold enter. intros He. res_inv. destruct (scRels s !! rel) as [d|]; [|done]. res_inv.
  match goal with E : traversalScope _ _ _ _ = Ok _ |- _ => apply traversalScope_ok in E as [E1 E2] end.
  split; [done|]. simpl. intros ls [= <-]. unfold linkAttrsFor in *. eapply linkAttrsLoop_known; [done|].
  apply map_Forall_empty.
Qed.

Lemma resolveField_known f s attr link : scope_ok s -> resolveField f s = Ok (attr, link) -> known attr.
Proof using.
  intros [S1 S2]. unfold resolveField. destruct (FScope f).
  - intros Hr. res_inv. destruct (scAttrs s !! FName f) eqn:E; [|done]. simplify_eq. by apply S1 in E as [_ ?].
  - destruct (scLinkAttrs s) as [ls|]; [|done]. destruct (ls !! FName f) eqn:E; [|done]. intros [= <- <-].
    by apply (S2 ls) in E as [_ ?].
  - intros Hr. res_inv. destruct (scAttrs s !! FName f) eqn:E; [|done]. simplify_eq. by apply S1 in E as [_ ?].
Qed.

Lemma coerceLiteral_typed attr lit v : coerceLiteral b attr lit = Ok v -> typed_as (attrType attr) v.
Proof using.
  unfold coerceLiteral. case_bool_decide as Eq.
  - rewrite Eq. unfold coerceQuantity. intros Hc. res_inv. destruct (families _); [|done]. res_inv.
    destruct (ParseID _); [|done]. res_inv. destruct (ToBase _ _ _); [|done]. by eapply NewQuantityValue_wf.
  - intros Hc. res_inv. unfold coerce in Hc. destruct (ParseValue _ _) eqn:Ep; [|done]. injection Hc as <-.
    by apply ParseValue_wf in Ep.
Qed.

Lemma coerceAll_typed attr lits vs : coerceAll b attr lits = Ok vs -> Forall (typed_as (attrType attr)) vs.
Proof using.
  revert vs. induction lits as [|lit lits IH]; intros vs; simpl; [by intros [= <-]|].
  intros Hc. res_inv. constructor; [by eapply coerceLiteral_typed|by apply IH].
Qed.

Lemma operators_known op : op ∈ operators -> op <> CmpIsa -> known_op op.
Proof using.
  unfold operators, known_op. rewrite !list_elem_of_In. simpl. intros. intuition congruence.
Qed.

Lemma bindCompare_ok func f op lit pos s n :
  scope_ok s -> op ∈ operators -> bindCompare b func f op lit pos s = Ok n -> well_bound S (bAccess b) n.
Proof using.
  intros Hs Hop. unfold bindCompare. intros Hb'. apply res_bind_ok in Hb' as ([attr link] & Hr & Hb').
  apply resolveField_known in Hr; [|done]. cbn [fst snd] in Hb'.
  destruct (bool_decide (op = CmpIsa)) eqn:Ei; [done|]. apply bool_decide_eq_false in Ei.
  pose proof (operators_known op Hop Ei) as Hk.
  destruct func; res_inv.
  - apply wb_compare; [done|done|by eapply coerceLiteral_typed|]. intros Ho. rewrite Ho in *. simpl in *. by breflect.
  - apply wb_extremal; [done|done|by eapply coerceLiteral_typed|by left|by breflect].
  - apply wb_extremal; [done|done|by eapply coerceLiteral_typed|by right|by breflect].
  - unfold intLiteral in *. destruct (ParseInt _) eqn:Ep; [|done]. simplify_eq.
    apply wb_measure; [done|done|by left|by eapply ParseInt_range].
  - unfold intLiteral in *. destruct (ParseInt _) eqn:Ep; [|done]. simplify_eq.
    apply wb_measure; [done|done|right; split; [done|by breflect]|by eapply ParseInt_range].
Qed.

Lemma bindMatches_ok query pos s n : scope_ok s -> bindMatches b query pos s = Ok n -> well_bound S (bAccess b) n.
Proof using.
  intros [Hs _]. unfold bindMatches. intros Hm. res_inv.
  destruct (ReadsEverything (bAccess b)) eqn:Er; res_inv; apply wb_matches; [done|].
  rewrite list.Forall_forall. intros name Hn. rewrite sort_by_elem, elem_of_elements in Hn.
  apply elem_of_dom in Hn as [a Ha]. apply Hs in Ha as [<- [_ Hr]]. exact Hr.
Qed.

Lemma bind_type_ok func op lit pos n : bindTypeCompare b func op lit pos = Ok n -> well_bound S (bAccess b) n.
Proof using.
  unfold bindTypeCompare. intros Hb'. res_inv. destruct (_ || _); [|case_bool_decide]; res_inv; constructor.
Qed.

Lemma bind_well_bound L h node s n :
  tree L h node -> scope_ok s -> bind b node s = Ok n -> well_bound S (bAccess b) n.
Proof using Hb HT.
  revert node s n. induction h as [h IH] using lt_wf_ind. intros node s n Ht Hs.
  destruct Ht as [h k op es p Hk _ Hes _|h k e p Hk He _|h fn f op l p _ _ Hop _ _|h fn f vs p _ _ _ _ _
    |h fn f lo hi p _ _ _ _ _|h f p _ _ _|h kind f l p _ _ _ _|h q p _ _|h k d rel e p Hk _ He _]; cbn [bind].
  - intros Hb'. res_inv. apply wb_logical. rename x into ns, H3 into En. revert ns En.
    induction Hes as [|e es He Hes IHes]; intros ns; simpl; [by intros [= <-]|].
    intros En. res_inv. constructor; [by eapply (IH k)|by apply IHes].
  - intros Hb'. res_inv. apply wb_not. by eapply (IH k).
  - destruct (is_type_field f); [apply bind_type_ok|by apply bindCompare_ok].
  - destruct (is_type_field f); [intros Hb'; res_inv; constructor|].
    unfold bindIn. intros Hb'. apply res_bind_ok in Hb' as ([attr link] & Hr & Hb'). cbn [fst snd] in Hb'. res_inv.
    apply wb_in; [by eapply resolveField_known|by eapply coerceAll_typed].
  - unfold bindRange. intros Hb'. apply res_bind_ok in Hb' as ([attr link] & Hr & Hb'). cbn [fst snd] in Hb'. res_inv.
    apply wb_range; [by eapply resolveField_known|by breflect|by eapply coerceLiteral_typed|by eapply coerceLiteral_typed].
  - intros Hb'. apply res_bind_ok in Hb' as ([attr link] & Hr & [= <-]). apply wb_has. by eapply resolveField_known.
  - intros Hb'. apply res_bind_ok in Hb' as ([attr link] & Hr & Hb'). cbn [fst snd] in Hb'. res_inv.
    apply wb_match; [by eapply resolveField_known|by breflect].
  - by apply bindMatches_ok.
  - intros Hb'. apply res_bind_ok in Hb' as ([def s'] & He' & Hb'). cbn [fst snd] in Hb'. res_inv.
    apply wb_traversal. eapply (IH k); [done|done|by eapply enter_ok|done].
Qed.
End Binding.

Section Prepared.
Context `{GoStd} `{GoUlid} `{GoNumeric} `{GoQuery}.

Lemma prepare_well_bound tenant access searchIndex S rootType query ids n :
  schema_ok (stTables S) -> prepare tenant access searchIndex S rootType query = Ok (ids, n) ->
  well_bound S access n.
Proof.
  intros HT. unfold prepare. intros Hp. apply res_bind_ok in Hp as (root & _ & Hp).
  apply res_bind_ok in Hp as (node & Hn & Hp). cbv zeta in Hp.
  apply res_bind_ok in Hp as ([s rows] & Hs & Hp). cbn [fst snd] in Hp. res_inv.
  set (b := newBinder tenant access searchIndex S) in *.
  change access with (bAccess b). unfold parsed in Hn.
  pose proof (parse_bounded_safe maxQueryLen maxParseDepth query) as Hsafe. fold (Parse query) in Hsafe.
  destruct (Parse query) as [m| | |]; try done. injection Hn as ->.
  destruct Hsafe as [Ht _]. eapply (bind_well_bound S b); [done|done|exact Ht| |done].
  by eapply (scopeFor_ok S b).
Qed.
End Prepared.
