(* ===== verification/QueryProps.v ===== *)
(** What a query answers: exactly the entities for which its meaning is true, in
    one order whatever the order of Go's maps, and nothing that depends on values
    the principal may not read. *)

From Stdlib Require Import ZArith QArith Lia String Ascii List SpecFloat Sorted.
From stdpp Require Import base tactics list gmap fin_maps fin_sets strings option decidable sorting.
From S2P Require Import Prelude GoText Values Ids Attribute Access TypeDef Units Relationship Dependency ValueWrite AttributeWrite SchemaFacts ValueWriteFacts Fql FqlFacts Pagination Query QueryFacts.

Open Scope Z_scope.
Open Scope go_scope.

(** ** The candidates of a query *)

Definition row_key (v : AttributeValue) : ID * EntityID := (avTypeID v, avEntityID v).

Definition newest (vs : list AttributeValue) : Z := foldr Z.max zeroTime (avUpdatedAt <$> vs).

Definition rows_of (k : ID * EntityID) (vs : list AttributeValue) : list AttributeValue :=
  List.filter (fun v => bool_decide (row_key v = k)) vs.

(** The summary of an entity with live rows [vs]. *)
Definition summarize (k : ID * EntityID) (vs : list AttributeValue) : EntitySummary :=
  mkSummary k.2 k.1 (Z.of_nat (length vs)) (newest vs).

Lemma newest_snoc vs v : newest (vs ++ [v]) = Z.max (newest vs) (avUpdatedAt v).
Proof.
  unfold newest. rewrite fmap_app, foldr_app. cbn [fmap list_fmap foldr].
  induction (avUpdatedAt <$> vs) as [|x l IH]; cbn [foldr]; lia.
Qed.

Lemma newest_perm vs vs' : vs ≡ₚ vs' -> newest vs = newest vs'.
Proof. unfold newest. induction 1; cbn [fmap list_fmap foldr] in *; lia. Qed.

Lemma fold_count vs k :
  fold_left count_row vs ∅ !! k =
  if bool_decide (rows_of k vs = []) then None else Some (summarize k (rows_of k vs)).
Proof.
  induction vs as [|v vs IH] using rev_ind; [done|].
  rewrite fold_left_app. cbn [fold_left]. unfold rows_of in *. rewrite List.filter_app. cbn [List.filter].
  unfold count_row at 1. fold (row_key v). destruct (decide (row_key v = k)) as [<-|Hne].
  - rewrite lookup_insert_eq, IH, (bool_decide_eq_true_2 (row_key v = row_key v)) by done.
    generalize (List.filter (fun v0 => bool_decide (row_key v0 = row_key v)) vs) as rows. clear IH. intros rows.
    rewrite (bool_decide_eq_false_2 (rows ++ [v] = [])) by (by destruct rows). f_equal.
    unfold summarize. rewrite newest_snoc, length_app. cbn [length].
    case_bool_decide as E; [subst rows|]; simpl; f_equal; try lia; case_match; breflect; unfold newest in *; simpl in *; lia.
  - rewrite lookup_insert_ne by done. rewrite (bool_decide_eq_false_2 (row_key v = k)) by done.
    by rewrite app_nil_r.
Qed.

Lemma fold_count_perm vs vs' : vs ≡ₚ vs' -> fold_left count_row vs ∅ = fold_left count_row vs' ∅.
Proof.
  intros HP. apply map_eq. intros k. rewrite !fold_count.
  pose proof (filter_perm (fun v => bool_decide (row_key v = k)) _ _ HP) as HF. fold (rows_of k vs) (rows_of k vs') in HF.
  unfold summarize. rewrite (Permutation_length HF), (newest_perm _ _ HF).
  assert (rows_of k vs = [] <-> rows_of k vs' = []) as E.
  { split; intros E; rewrite E in HF; [by apply Permutation_nil in HF|by apply Permutation_sym, Permutation_nil in HF]. }
  by rewrite (bool_decide_ext _ _ E).
Qed.

(** ** Sorting fixes the order *)

Lemma leb_ltb a b : String.leb a b = negb (String.ltb b a).
Proof.
  unfold String.leb, String.ltb. rewrite (String.compare_antisym a b). by destruct (String.compare b a).
Qed.

Lemma leb_total a b : String.leb a b = true \/ String.leb b a = true.
Proof. rewrite !leb_ltb. destruct (String.ltb b a) eqn:E; [right|by left]. by rewrite (ltb_flip _ _ E). Qed.

Lemma leb_trans a b c : String.leb a b = true -> String.leb b c = true -> String.leb a c = true.
Proof.
  rewrite !leb_ltb, !negb_true_iff. intros E1 E2. apply not_true_iff_false. intros E3.
  destruct (String.ltb a b) eqn:E4.
  - rewrite (ltb_trans c a b) in E2; done.
  - rewrite (ltb_antisym a b E4 E1) in *. congruence.
Qed.

Lemma leb_antisym a b : String.leb a b = true -> String.leb b a = true -> a = b.
Proof. rewrite !leb_ltb, !negb_true_iff. intros E1 E2. by apply ltb_antisym. Qed.

Lemma newest_first_total a b : newest_first a b = true \/ newest_first b a = true.
Proof.
  unfold newest_first. rewrite (Z.eqb_sym (LastUpdatedAt b)). destruct (_ =? _) eqn:E; [apply leb_total|].
  rewrite !Z.ltb_lt. apply Z.eqb_neq in E. lia.
Qed.

Lemma newest_first_trans a b c : newest_first a b = true -> newest_first b c = true -> newest_first a c = true.
Proof.
  unfold newest_first. destruct (LastUpdatedAt a =? LastUpdatedAt b) eqn:E1, (LastUpdatedAt b =? LastUpdatedAt c) eqn:E2;
    destruct (LastUpdatedAt a =? LastUpdatedAt c) eqn:E3; unfold by_entity; rewrite ?Z.ltb_lt; breflect;
    try lia. apply leb_trans.
Qed.

Lemma newest_first_entity a b : newest_first a b = true -> newest_first b a = true -> esEntityID a = esEntityID b.
Proof.
  unfold newest_first. rewrite (Z.eqb_sym (LastUpdatedAt b)). destruct (_ =? _) eqn:E; [apply leb_antisym|].
  rewrite !Z.ltb_lt. lia.
Qed.

Lemma insert_by_ext {A} (le le' : A -> A -> bool) x l :
  (forall y, y ∈ l -> le x y = le' x y) -> insert_by le x l = insert_by le' x l.
Proof.
  induction l as [|y l IH]; intros Hle; simpl; [done|]. rewrite (Hle y) by left.
  destruct (le' x y); [done|]. f_equal. apply IH. intros z Hz. apply Hle. by right.
Qed.

Lemma sort_by_ext {A} (le le' : A -> A -> bool) l :
  (forall x y, x ∈ l -> y ∈ l -> le x y = le' x y) -> sort_by le l = sort_by le' l.
Proof.
  induction l as [|x l IH]; intros Hle; simpl; [done|].
  rewrite IH by (intros y z Hy Hz; apply Hle; by right). apply insert_by_ext.
  intros y Hy%sort_by_elem. apply Hle; [left|by right].
Qed.

Lemma sort_by_perm_eq {A} (le : A -> A -> bool) (l l' : list A) :
  (forall x y, le x y = true \/ le y x = true) ->
  (forall x y z, le x y = true -> le y z = true -> le x z = true) ->
  (forall x y, x ∈ l -> y ∈ l -> le x y = true -> le y x = true -> x = y) ->
  l ≡ₚ l' -> sort_by le l = sort_by le l'.
Proof.
  intros Htot Htr Hanti HP. eapply StronglySorted_unique_strong;
    [|by apply sort_by_sorted|by apply sort_by_sorted|by rewrite !sort_by_perm].
  intros x y Hx Hy. rewrite sort_by_elem in Hx, Hy. rewrite <- HP in Hy. by apply Hanti.
Qed.

(** ** Answers *)

Section Answers.
Context `{GoStd} `{GoUlid} `{GoQuery}.

(** The live entities of the wanted types. *)
Definition entities (S : Store) (tenant : TenantID) (wanted : list ID) : gmap (ID * EntityID) EntitySummary :=
  fold_left count_row (List.filter (candidate_row tenant wanted) (values (vals (stTables S)))) ∅.

(** The live values of an entity under a type. *)
Definition live_rows (S : Store) (tenant : TenantID) (type_id : ID) (entity : EntityID) : list AttributeValue :=
  List.filter (fun v => live_of_entity tenant entity v && bool_decide (avTypeID v = type_id))
    (values (vals (stTables S))).

(** The entities of which a query is true. *)
Definition answers (S : Store) (tenant : TenantID) (wanted : list ID) (node : BoundNode) (query : Scope) :
    list EntitySummary :=
  List.filter (fun e => bool_decide (truth S node (root_scope tenant query e) = triTrue))
    (values (entities S tenant wanted)).

Lemma rows_of_candidates S tenant wanted k :
  rows_of k (List.filter (candidate_row tenant wanted) (values (vals (stTables S)))) =
  if bool_decide (k.1 ∈ wanted) then live_rows S tenant k.1 k.2 else [].
Proof.
  unfold rows_of, live_rows. rewrite filter_filter. case_bool_decide as Hin.
  - apply filter_ext. intros v. unfold candidate_row, live_of_entity, of_entity, row_key. apply eq_true_iff_eq.
    rewrite !andb_true_iff, !bool_decide_eq_true. destruct k as [t e]. simpl in *. naive_solver.
  - apply filter_none. intros v _. apply not_true_iff_false. unfold candidate_row, row_key.
    rewrite !andb_true_iff, !bool_decide_eq_true. intros [[_ Hw] <-]. done.
Qed.

Lemma entities_lookup S tenant wanted k :
  entities S tenant wanted !! k =
  if bool_decide (k.1 ∈ wanted) && negb (bool_decide (live_rows S tenant k.1 k.2 = [])) then
    Some (summarize k (live_rows S tenant k.1 k.2)) else None.
Proof.
  unfold entities. rewrite fold_count, rows_of_candidates.
  destruct (bool_decide (k.1 ∈ wanted)); simpl; [|done]. by destruct (bool_decide (live_rows _ _ _ _ = [])).
Qed.

Lemma entities_elem S tenant wanted e :
  e ∈ values (entities S tenant wanted) <->
  esTypeID e ∈ wanted /\ live_rows S tenant (esTypeID e) (esEntityID e) <> [] /\
  e = summarize (esTypeID e, esEntityID e) (live_rows S tenant (esTypeID e) (esEntityID e)).
Proof.
  rewrite values_elem. split.
  - intros [[t x] Hk]. rewrite entities_lookup in Hk. simpl in Hk. case_bool_decide as Hw; [|done].
    case_bool_decide as Hn; [done|]. injection Hk as <-. simpl. by split_and!.
  - intros (Hw & Hn & E). exists (esTypeID e, esEntityID e). rewrite entities_lookup. simpl.
    rewrite bool_decide_eq_true_2, bool_decide_eq_false_2 by done. simpl. by rewrite <- E.
Qed.

Lemma one_entity S tenant wanted e e' :
  vals_ok (stTables S) -> e ∈ values (entities S tenant wanted) -> e' ∈ values (entities S tenant wanted) ->
  esEntityID e = esEntityID e' -> e = e'.
Proof.
  intros HV (_ & Hn & E)%entities_elem (_ & Hn' & E')%entities_elem Ee.
  assert (esTypeID e = esTypeID e') as Et; [|rewrite E, E', Et, Ee; done].
  destruct (live_rows S tenant (esTypeID e) _) as [|v l] eqn:L; [done|].
  destruct (live_rows S tenant (esTypeID e') _) as [|v' l'] eqn:L'; [done|].
  assert (v ∈ v :: l) as Hv by by left. assert (v' ∈ v' :: l') as Hv' by by left.
  rewrite <- L in Hv. rewrite <- L' in Hv'. unfold live_rows in Hv, Hv'.
  rewrite elem_of_filter_b, values_elem in Hv, Hv'. destruct Hv as [(i & Hi) Pv], Hv' as [(j & Hj) Pv'].
  unfold live_of_entity in *. breflect.
  repeat match goal with X : of_entity _ _ _ = true |- _ => apply of_entity_true in X as [? ?] end.
  enough (avTypeID v = avTypeID v') by congruence. apply (vo_anchor _ HV i j v v' Hi Hj); congruence.
Qed.

Lemma matchLoop_filter `{GoRange} S tenant query node es :
  (forall s, eval S node s = Ok (truth S node s)) ->
  matchLoop S tenant query node es =
  Ok (List.filter (fun e => bool_decide (truth S node (root_scope tenant query e) = triTrue)) es).
Proof.
  intros He. induction es as [|e es IH]; [done|]. cbn [matchLoop List.filter]. rewrite He, IH. cbn [res_bind].
  by destruct (bool_decide _).
Qed.

(** Answers are sorted in one way, whatever order they are found in. *)
Lemma sort_answers S tenant ids n sc l (stable : bool) :
  vals_ok (stTables S) -> l ≡ₚ answers S tenant ids n sc ->
  sort_by (if stable then by_entity else newest_first) l =
  sort_by (if stable then by_entity else newest_first) (answers S tenant ids n sc).
Proof.
  intros HV HP.
  assert (forall e e', e ∈ l -> e' ∈ l -> esEntityID e = esEntityID e' -> e = e') as Hone.
  { intros e e' He He'. rewrite HP in He, He'. apply elem_of_filter_b in He as [He _], He' as [He' _].
    by apply (one_entity S tenant ids e e' HV). }
  destruct stable.
  - apply sort_by_perm_eq; [intros; apply leb_total|intros ???; apply leb_trans| |done].
    intros e e' He He' E1 E2. apply Hone; [done|done|]. by apply leb_antisym.
  - apply sort_by_perm_eq; [apply newest_first_total|apply newest_first_trans| |done].
    intros e e' He He' E1 E2. apply Hone; [done|done|]. by apply newest_first_entity.
Qed.

(** The pages of a query are those of its sorted answers. *)
Lemma search_answers `{GoRange} `{GoCursor} S access tenant ids n sc page :
  readable_store S -> well_bound S access n ->
  SearchEntities S tenant ids n sc page =
    if pgStable page then paginate (sort_by by_entity (answers S tenant ids n sc)) page entityIDKeyset entityIDKey
    else paginate (sort_by newest_first (answers S tenant ids n sc)) page entityKeyset entityKey.
Proof.
  intros HS Hn. unfold SearchEntities. rewrite matchLoop_filter by (intros s; by apply (eval_truth S access)).
  cbn [res_bind]. set (p := fun e => _).
  assert (List.filter p (ranged (candidates S tenant ids)) ≡ₚ answers S tenant ids n sc) as HP.
  { apply filter_perm. rewrite ranged_perm. unfold candidates, entities.
    erewrite fold_count_perm; [done|]. apply filter_perm, ranged_perm. }
  pose proof (fun stable => sort_answers S tenant ids n sc _ stable (rs_vals _ HS) HP) as Hsort.
  destruct (pgStable page); [by rewrite (Hsort true)|by rewrite (Hsort false)].
Qed.
End Answers.

Section Properties.
Context `{GoStd} `{GoUlid} `{GoNumeric} `{GoKeys} `{GoQuery} `{GoRange} `{GoCursor}.

(** C8: a query that binds never fails to run and answers exactly the entities of
    which it is true: over the tables of any history of writes, its pages are those
    of one sorted list - whatever order Go's maps are ranged in - that holds the
    live entities of the queried type and its subtypes for which the bound query
    is true (not false, not unknown) in the sense of SQL, each once, with the number
    of its live values and the instant of the newest. *)
Theorem query_exact tenant access si S rootType query ids n sc page :
  table_reachable (stTables S) ->
  (forall i r, vals (stTables S) !! i = Some r -> AvIsArchived r = false -> comparable (avValue r)) ->
  prepare tenant access si S rootType query = Ok (ids, n) ->
  SearchEntities S tenant ids n sc page =
    (if pgStable page then paginate (sort_by by_entity (answers S tenant ids n sc)) page entityIDKeyset entityIDKey
     else paginate (sort_by newest_first (answers S tenant ids n sc)) page entityKeyset entityKey) /\
  NoDup (esEntityID <$> answers S tenant ids n sc) /\
  forall e, e ∈ answers S tenant ids n sc <->
    truth S n (root_scope tenant sc e) = triTrue /\ esTypeID e ∈ ids /\
    live_rows S tenant (esTypeID e) (esEntityID e) <> [] /\
    e = summarize (esTypeID e, esEntityID e) (live_rows S tenant (esTypeID e) (esEntityID e)).
Proof.
  intros Hr Hnan Hp. destruct (table_reachable_ok _ Hr) as [HT HV].
  apply (prepare_well_bound _ _ _ _ _ _ _ _ HT) in Hp. split_and!.
  - by apply (search_answers S access).
  - apply filter_fmap_NoDup. apply NoDup_fmap_2_strong.
    + intros e e'. by apply one_entity.
    + apply (NoDup_fmap_1 (fun e => (esTypeID e, esEntityID e))). apply values_keys.
      intros [t x] e He. rewrite entities_lookup in He. by case_match; simplify_eq.
  - intros e. unfold answers. rewrite elem_of_filter_b, entities_elem, bool_decide_eq_true. tauto.
Qed.
End Properties.
