(* ===== verification/QueryAccess.v ===== *)
(** Queries and field access: what a principal may not read does not decide which
    entities its queries select. *)

From Stdlib Require Import ZArith QArith Lia String Ascii List SpecFloat Sorted.
From stdpp Require Import base tactics list gmap fin_maps fin_sets strings option decidable sorting.
From S2P Require Import Prelude GoText Values Ids Attribute Access TypeDef Units Relationship Dependency ValueWrite AttributeWrite SchemaFacts ValueWriteFacts Fql FqlFacts Pagination Query QueryFacts QueryProps.

Open Scope Z_scope.
Open Scope go_scope.

(** The same schema and links, other values and search documents. *)
Definition with_values (S : Store) (vs : gmap ID AttributeValue)
    (docs : gmap (TenantID * EntityID) searchDoc) : Store :=
  mkStore (set_vals (stTables S) vs) (stLinks S) docs.

(** Every document is the one a rebuild leaves. *)
Definition indexed (S : Store) : Prop :=
  forall tenant entity, searchDocs S !! (tenant, entity) =
    type_of S tenant entity ≫= fun t => document (stTables S) tenant t entity.

(** A value of an attribute the principal may read. *)
Definition readable_row (T : Tables) (access : Access) (r : AttributeValue) : Prop :=
  exists a, attrs T !! avAttrID r = Some a /\ CanRead access (internalName a) = true.

Definition has_live (vs : gmap ID AttributeValue) (tenant : TenantID) (entity : EntityID) (t : ID) : Prop :=
  exists i r, vs !! i = Some r /\ live_of_entity tenant entity r = true /\ avTypeID r = t.

(** Two tables of values that the principal reads alike: the same readable values
    and the same entities. *)
Record same_view (T : Tables) (access : Access) (vs vs' : gmap ID AttributeValue) : Prop := {
  sv_rows : forall i r, readable_row T access r -> vs !! i = Some r <-> vs' !! i = Some r;
  sv_live : forall tenant entity t, has_live vs tenant entity t <-> has_live vs' tenant entity t }.

(** Rows that two tables share, in some order. *)
Lemma values_filter_perm {A} (p : A -> bool) (key : A -> ID) (m m' : gmap ID A) :
  map_Forall (fun i r => key r = i) m -> map_Forall (fun i r => key r = i) m' ->
  (forall i r, p r = true -> m !! i = Some r <-> m' !! i = Some r) ->
  List.filter p (values m) ≡ₚ List.filter p (values m').
Proof.
  intros Hm Hm' Hp. apply NoDup_Permutation.
  - apply (NoDup_fmap_1 key). by apply filter_fmap_NoDup, values_keys.
  - apply (NoDup_fmap_1 key). by apply filter_fmap_NoDup, values_keys.
  - intros r. rewrite !elem_of_filter_b, !values_elem. split; intros [[i Hi] Pr]; (split; [|done]); exists i;
      by apply (Hp i r Pr).
Qed.

Lemma filter_sorted {A} (R : A -> A -> Prop) (p : A -> bool) l :
  StronglySorted R l -> StronglySorted R (List.filter p l).
Proof.
  induction 1 as [|x l Hl IH Hx]; simpl; [constructor|]. destruct (p x); [|done]. constructor; [done|].
  rewrite list.Forall_forall in Hx |- *. intros y [Hy _]%elem_of_filter_b. by apply Hx.
Qed.

Lemma by_av_total (x y : AttributeValue) : by_av x y = true \/ by_av y x = true.
Proof. unfold by_av. rewrite !N.leb_le. lia. Qed.

Lemma by_av_trans (x y z : AttributeValue) : by_av x y = true -> by_av y z = true -> by_av x z = true.
Proof. unfold by_av. rewrite !N.leb_le. lia. Qed.

(** The rows that two tables share, as the store lists them. *)
Lemma sorted_rows_alike (p q : AttributeValue -> bool) (vs vs' : gmap ID AttributeValue) :
  map_Forall (fun i r => avID r = i) vs -> map_Forall (fun i r => avID r = i) vs' ->
  (forall i r, vs !! i = Some r \/ vs' !! i = Some r -> p r = true -> q r = true ->
     vs !! i = Some r <-> vs' !! i = Some r) ->
  List.filter q (sort_by by_av (List.filter p (values vs))) =
  List.filter q (sort_by by_av (List.filter p (values vs'))).
Proof.
  intros Hk Hk' Hpq.
  eapply (StronglySorted_unique_strong (fun x y => by_av x y = true));
    [|apply filter_sorted, sort_by_sorted; [apply by_av_total|apply by_av_trans]
     |apply filter_sorted, sort_by_sorted; [apply by_av_total|apply by_av_trans]|].
  - intros x y Hx Hy Hxy Hyx. rewrite !elem_of_filter_b, !sort_by_elem, !elem_of_filter_b, !values_elem in Hx, Hy.
    destruct Hx as [[[i Hi] Px] Qx], Hy as [[[j Hj] Py] Qy].
    pose proof (Hk i x Hi) as Ki. pose proof (Hk' j y Hj) as Kj. simpl in Ki, Kj.
    unfold by_av in Hxy, Hyx. apply N.leb_le in Hxy, Hyx. assert (i = j) as -> by lia.
    apply (Hpq j y) in Hj; [congruence|by right|done|done].
  - etrans; [apply filter_perm, sort_by_perm|]. etrans; [|symmetry; apply filter_perm, sort_by_perm].
    rewrite !filter_filter. apply NoDup_Permutation.
    + apply (NoDup_fmap_1 avID). by apply filter_fmap_NoDup, values_keys.
    + apply (NoDup_fmap_1 avID). by apply filter_fmap_NoDup, values_keys.
    + intros r. rewrite !elem_of_filter_b, !values_elem, andb_true_iff.
      split; intros [[i Hi] [Pr Qr]]; (split; [exists i; apply (Hpq i r); auto|done]).
Qed.

(** *** The words of a document, by attribute name *)

Definition indexed_under (T : Tables) (name : string) (v : AttributeValue) : bool :=
  IsTextual (dataType (avValue v)) && bool_decide (name_of T v = name).

Lemma document_values T vs d name :
  default [] (docValues (fold_left (index_value T) vs d) !! name) =
  default [] (docValues d !! name) ++ ((fun v => textVal (avValue v)) <$> List.filter (indexed_under T name) vs).
Proof.
  revert d. induction vs as [|v vs IH]; intros d; [by rewrite app_nil_r|]. cbn [fold_left List.filter].
  rewrite IH. unfold index_value, indexed_under at 2. destruct (IsTextual _); simpl; [|done].
  case_bool_decide as E; simpl.
  - rewrite E, lookup_insert_eq. simpl. by rewrite <- app_assoc.
  - by rewrite lookup_insert_ne.
Qed.

Lemma document_entity T vs d : docEntity (fold_left (index_value T) vs d) = docEntity d.
Proof.
  revert d. induction vs as [|v vs IH]; intros d; [done|]. simpl. rewrite IH. unfold index_value.
  by destruct (IsTextual _).
Qed.

Lemma nil_alike {A} `{forall l : list A, Decision (l = [])} (l l' : list A) :
  l ≡ₚ l' -> bool_decide (l = []) = bool_decide (l' = []).
Proof.
  intros HP. apply bool_decide_ext. split; intros E; rewrite E in HP;
    [by apply Permutation_nil in HP|by apply Permutation_sym, Permutation_nil in HP].
Qed.

Lemma extremal_alike `{GoStd} func op value (l l' : list AttributeValue) :
  l ≡ₚ l' ->
  (if bool_decide (l = []) then triUnknown
   else triOf (existsb (fun v => extremal func l v && relates op (avValue v) value) l)) =
  (if bool_decide (l' = []) then triUnknown
   else triOf (existsb (fun v => extremal func l' v && relates op (avValue v) value) l')).
Proof.
  intros HP. rewrite (nil_alike l l' HP). case_match; [done|]. f_equal. rewrite (existsb_perm _ _ _ HP).
  apply existsb_ext. intros v _. f_equal. by apply forallb_perm.
Qed.

Lemma answers_key `{GoStd} `{GoUlid} `{GoQuery} S tenant ids n sc t entity :
  (t, entity) ∈ (fun e => (esTypeID e, esEntityID e)) <$> answers S tenant ids n sc <->
  t ∈ ids /\ has_live (vals (stTables S)) tenant entity t /\
  truth S n (mkEvalScope tenant entity t EmptyString sc) = triTrue.
Proof.
  assert (live_rows S tenant t entity <> [] <-> has_live (vals (stTables S)) tenant entity t) as Hl.
  { unfold has_live. split.
    - destruct (live_rows S tenant t entity) as [|v l] eqn:E; [done|]. intros _.
      assert (v ∈ v :: l) as Hv by by left. unfold live_rows in E. rewrite <- E, elem_of_filter_b, values_elem in Hv.
      destruct Hv as [[i Hi] Pv]. breflect. by exists i, v.
    - intros (i & r & Hi & Pr & Et) E. apply (not_elem_of_nil r). rewrite <- E. unfold live_rows.
      rewrite elem_of_filter_b, values_elem, Pr, bool_decide_eq_true_2 by done. by split; [exists i|]. }
  rewrite list_elem_of_fmap. unfold answers. split.
  - intros (e & [= -> ->] & He). rewrite elem_of_filter_b, entities_elem, bool_decide_eq_true in He.
    destruct He as [(Hw & Hn & _) Ht]. by rewrite <- Hl.
  - intros (Hw & Hn%Hl & Ht). exists (summarize (t, entity) (live_rows S tenant t entity)). split; [done|].
    rewrite elem_of_filter_b, entities_elem, bool_decide_eq_true. by split_and!.
Qed.

(** ** Two stores alike *)

Section Alike.
Context `{GoStd} `{GoUlid} `{GoQuery}.
Context (S : Store) (access : Access) (vs : gmap ID AttributeValue) (docs : gmap (TenantID * EntityID) searchDoc).
Abbreviation S' := (with_values S vs docs).
Context (Hpol : policy_ok access) (HS : readable_store S) (HS' : readable_store S').
Context (Hsame : same_view (stTables S) access (vals (stTables S)) vs).
Context (Hdoc : indexed S) (Hdoc' : indexed S').

Lemma readable_perm p :
  (forall i r, vals (stTables S) !! i = Some r \/ vs !! i = Some r -> p r = true -> readable_row (stTables S) access r) ->
  List.filter p (values (vals (stTables S))) ≡ₚ List.filter p (values vs).
Proof using HS HS' Hsame.
  intros Hp. apply (values_filter_perm p avID); [apply (vo_keyed _ (rs_vals _ HS))|apply (vo_keyed _ (rs_vals _ HS'))|].
  intros i r Pr. split; intros Hr; (apply (sv_rows _ _ _ _ Hsame i r); [|done]); by eapply (Hp i r); auto.
Qed.

Lemma selected_alike attr link s : known_attr S access attr -> selected S attr link s ≡ₚ selected S' attr link s.
Proof using HS HS' Hsame.
  intros [Ha Hr]. apply readable_perm. intros i r _ Pr. exists attr. split; [|done].
  apply bool_decide_eq_true in Pr as (_ & _ & Ea & _). congruence.
Qed.

Lemma type_of_spec S0 tenant entity t :
  readable_store S0 -> type_of S0 tenant entity = Some t <-> has_live (vals (stTables S0)) tenant entity t.
Proof using.
  intros Hst. unfold type_of. set (p := live_of_entity tenant entity). split.
  - destruct (List.filter p _) as [|v l] eqn:E; [done|]. simpl. intros [= <-].
    assert (v ∈ v :: l) as Hv by by left. rewrite <- E, elem_of_filter_b, values_elem in Hv.
    destruct Hv as [[i Hi] Pv]. by exists i, v.
  - intros (i & r & Hi & Pr & <-). assert (r ∈ List.filter p (values (vals (stTables S0)))) as Hr.
    { rewrite elem_of_filter_b, values_elem. split; [by exists i|done]. }
    destruct (List.filter p _) as [|v l] eqn:E; [by apply not_elem_of_nil in Hr|]. simpl. f_equal.
    assert (v ∈ v :: l) as Hv by by left. rewrite <- E, elem_of_filter_b, values_elem in Hv.
    destruct Hv as [[j Hj] Pv]. unfold p, live_of_entity in *. breflect.
    repeat match goal with X : of_entity _ _ _ = true |- _ => apply of_entity_true in X as [? ?] end.
    apply (vo_anchor _ (rs_vals _ Hst) j i v r Hj Hi); congruence.
Qed.

Lemma type_of_alike tenant entity : type_of S tenant entity = type_of S' tenant entity.
Proof using HS HS' Hsame.
  apply option_eq. intros t. rewrite (type_of_spec S), (type_of_spec S') by done. simpl.
  apply (sv_live _ _ _ _ Hsame).
Qed.

Lemma arrive_alike def direction s l : arrive S def direction s l = arrive S' def direction s l.
Proof using HS HS' Hsame.
  unfold arrive. destruct (crosses def s l); [|done]. destruct (far_end direction (evEntity s) l) as [far|]; [|done].
  simpl. by rewrite type_of_alike.
Qed.

(** The values a document keeps under a readable name, in the order of their rows. *)
Lemma rows_under_alike tenant t entity name :
  CanRead access name = true ->
  List.filter (indexed_under (stTables S) name) (AvListByEntity (stTables S) tenant t entity) =
  List.filter (indexed_under (stTables S') name) (AvListByEntity (stTables S') tenant t entity).
Proof using HS HS' Hsame.
  intros Hn. change (indexed_under (stTables S') name) with (indexed_under (stTables S) name).
  apply sorted_rows_alike; [apply (vo_keyed _ (rs_vals _ HS))|apply (vo_keyed _ (rs_vals _ HS'))|].
  intros i r Hi _ Qr. unfold indexed_under in Qr. breflect.
  assert (exists a, row_ok (stTables S) r a) as [a Ra].
  { destruct Hi as [Hi|Hi]; [apply (vo_row _ (rs_vals _ HS) i r Hi)|].
    destruct (vo_row _ (rs_vals _ HS') i r Hi) as [a [R1 R2 R3 R4 R5 R6 R7]]. exists a. by split. }
  apply (sv_rows _ _ _ _ Hsame). exists a. split; [apply (ro_attr _ _ _ Ra)|].
  match goal with E : name_of _ r = name |- _ => unfold name_of in E; rewrite (ro_attr _ _ _ Ra) in E; by subst name end.
Qed.

(** All is readable: nothing differs. *)
Lemma all_readable : ReadsEverything access = true -> vals (stTables S) = vs.
Proof using Hpol HS HS' Hsame.
  intros Hr. apply map_eq. intros i. apply option_eq. intros r.
  assert (forall a, CanRead access (internalName a) = true) as Hall by (intros a; by apply ReadsEverything_reads).
  split; intros Hi; (apply (sv_rows _ _ _ _ Hsame); [|done]).
  - destruct (vo_row _ (rs_vals _ HS) i r Hi) as [a Ra]. exists a. split; [apply (ro_attr _ _ _ Ra)|done].
  - destruct (vo_row _ (rs_vals _ HS') i r Hi) as [a Ra]. exists a. split; [apply (ro_attr _ _ _ Ra)|done].
Qed.

Lemma has_document S0 tenant t entity :
  has_live (vals (stTables S0)) tenant entity t ->
  exists v l, AvListByEntity (stTables S0) tenant t entity = v :: l.
Proof using.
  intros (i & r & Hi & Pr & Et).
  assert (r ∈ AvListByEntity (stTables S0) tenant t entity) as Hin.
  { unfold AvListByEntity. rewrite sort_by_elem, elem_of_filter_b, values_elem. split; [by exists i|].
    unfold live_of_entity in Pr. apply andb_true_iff in Pr as [-> ->].
    by rewrite bool_decide_eq_true_2. }
  destruct (AvListByEntity _ _ _ _) as [|v l]; [by apply not_elem_of_nil in Hin|]. by exists v, l.
Qed.

(** The documents of two stores alike keep the same readable words. *)
Lemma searchDocs_alike tenant entity names :
  Forall (fun n => CanRead access n = true) names ->
  match searchDocs S !! (tenant, entity), searchDocs S' !! (tenant, entity) with
  | Some d, Some d' => docEntity d = docEntity d' /\
      forall n, n ∈ names -> default [] (docValues d !! n) = default [] (docValues d' !! n)
  | None, None => True
  | _, _ => False
  end.
Proof using HS HS' Hsame Hdoc Hdoc'.
  intros Hn. rewrite Hdoc, Hdoc', <- type_of_alike. destruct (type_of S tenant entity) as [t|] eqn:Et; [|done].
  cbn [mbind option_bind]. apply (type_of_spec S) in Et; [|done].
  destruct (has_document S tenant t entity Et) as (v & l & E).
  apply (sv_live _ _ _ _ Hsame) in Et. destruct (has_document S' tenant t entity Et) as (v' & l' & E').
  unfold document. rewrite E, E', !document_entity. split; [done|]. intros n Hin.
  rewrite !document_values, <- E, <- E', rows_under_alike; [done|]. rewrite list.Forall_forall in Hn. by apply Hn.
Qed.

Lemma evalMatches_alike query names s :
  well_bound S access (BoundMatches query names) -> truth S (BoundMatches query names) s = truth S' (BoundMatches query names) s.
Proof using Hpol HS HS' Hsame Hdoc Hdoc'.
  intros Hw. cbn [truth]. rewrite <- !evalMatches_found. inversion Hw as [| | | | | | | | | |q ns Hns|]; subst. unfold evalMatches. destruct names as [names|].
  - pose proof (searchDocs_alike (evTenant s) (evEntity s) names Hns) as Hd.
    destruct (searchDocs S !! _) as [d|], (searchDocs S' !! _) as [d'|]; try done. destruct Hd as [-> Hd].
    do 4 f_equal. f_equal. apply list_fmap_ext. intros j n Hj. apply Hd. by apply list_elem_of_lookup_2 in Hj.
  - pose proof (all_readable Hns) as Ev. rewrite Hdoc, Hdoc', <- type_of_alike.
    destruct (type_of S _ _) as [t|]; [|done]. cbn [mbind option_bind].
    assert (document (stTables S') (evTenant s) t (evEntity s) = document (stTables S) (evTenant s) t (evEntity s)) as ->;
      [|done]. simpl. rewrite <- Ev. by destruct (stTables S).
Qed.

(** Well-bound queries are true of the same entities. *)
Lemma truth_alike n : well_bound S access n -> forall s, truth S n s = truth S' n s.
Proof using Hpol HS HS' Hsame Hdoc Hdoc'.
  intros Hn. pattern n. apply (well_bound_rect S access); [| | | |exact Hn]; clear n Hn.
  - intros op es _ IH s. cbn [truth]. f_equal. apply map_ext_in. intros e He.
    rewrite list.Forall_forall in IH. apply IH. by apply list_elem_of_In.
  - intros e _ IH s. cbn [truth]. by rewrite IH.
  - intros def d inner _ IH s. cbn [truth]. f_equal. apply existsb_ext. intros l _.
    rewrite arrive_alike. destruct (arrive S' def d s l); [|done]. by rewrite IH.
  - intros n Hn Hl s. destruct n as [| |attr link func op value|attr link ws|attr link lo hi|attr link
      |attr link kind value|ids negate|query names|]; try done; cbn [truth].
    + assert (known_attr S access attr) as Ha by by inversion Hn. pose proof (selected_alike attr link s Ha) as HP.
      unfold compare_truth. destruct func.
      * f_equal. by apply existsb_perm.
      * by apply extremal_alike.
      * by apply extremal_alike.
      * by rewrite (Permutation_length HP).
      * f_equal. by apply existsb_perm.
    + f_equal. apply existsb_perm, selected_alike. by inversion Hn.
    + f_equal. apply existsb_perm, selected_alike. by inversion Hn.
    + pose proof (selected_alike attr link s ltac:(by inversion Hn)) as HP. f_equal. f_equal.
      by apply nil_alike.
    + f_equal. apply existsb_perm, selected_alike. by inversion Hn.
    + by apply evalMatches_alike.
Qed.
End Alike.

Section Properties.
Context `{GoStd} `{GoUlid} `{GoNumeric} `{GoKeys} `{GoQuery}.

(** Binding reads no value. *)
Lemma prepare_alike tenant access si S vs docs rootType query :
  prepare tenant access si (with_values S vs docs) rootType query = prepare tenant access si S rootType query.
Proof. reflexivity. Qed.

(** C9: a query is no oracle on values its principal may not read: change, add or
    remove such values in any way that leaves each entity with its type and at
    least one value - the tables before and after are those of any histories, the
    search documents rebuilt - and every query of the principal, full-text
    searches and conditions on link attributes included, binds to the same
    bound query and selects the same entities. *)
Theorem hidden_values_unobservable tenant access si S vs docs rootType query ids n sc :
  policy_ok access ->
  table_reachable (stTables S) -> table_reachable (set_vals (stTables S) vs) ->
  (forall i r, vals (stTables S) !! i = Some r \/ vs !! i = Some r -> AvIsArchived r = false ->
     comparable (avValue r)) ->
  same_view (stTables S) access (vals (stTables S)) vs ->
  indexed S -> indexed (with_values S vs docs) ->
  prepare tenant access si S rootType query = Ok (ids, n) ->
  prepare tenant access si (with_values S vs docs) rootType query = Ok (ids, n) /\
  forall t entity,
    (t, entity) ∈ (fun e => (esTypeID e, esEntityID e)) <$> answers S tenant ids n sc <->
    (t, entity) ∈ (fun e => (esTypeID e, esEntityID e)) <$> answers (with_values S vs docs) tenant ids n sc.
Proof.
  intros Hpol Hr Hr' Hnan Hsame Hd Hd' Hp. split; [by rewrite prepare_alike|]. intros t entity.
  destruct (table_reachable_ok _ Hr) as [HT HV]. destruct (table_reachable_ok _ Hr') as [_ HV'].
  assert (readable_store S) as HS by (split; [done|]; intros i r Hi; apply (Hnan i r); by left).
  assert (readable_store (with_values S vs docs)) as HS' by (split; [done|]; intros i r Hi; apply (Hnan i r); by right).
  apply (prepare_well_bound _ _ _ _ _ _ _ _ HT) in Hp.
  assert (forall S0, (t, entity) ∈ (fun e => (esTypeID e, esEntityID e)) <$> answers S0 tenant ids n sc <->
    t ∈ ids /\ has_live (vals (stTables S0)) tenant entity t /\
    truth S0 n (mkEvalScope tenant entity t EmptyString sc) = triTrue) as Hin.
  { intros S0. apply answers_key. }
  rewrite !Hin, (truth_alike S access vs docs Hpol HS HS' Hsame Hd Hd' n Hp). simpl.
  by rewrite (sv_live _ _ _ _ Hsame).
Qed.
End Properties.
