(* ===== verification/QueryExample.v ===== *)
(** Two boxes, a query, and a principal who may not read one of the attributes. *)

From Stdlib Require Import ZArith QArith Lia String Ascii List SpecFloat Sorted.
From stdpp Require Import base tactics list gmap fin_maps fin_sets strings option decidable.
From S2P Require Import Prelude GoText Values Ids Attribute Access TypeDef Units Relationship Dependency ValueWrite AttributeWrite SchemaFacts SchemaExample ValueWriteFacts ValueExample.
From S2P Require Import Fql FqlFacts Pagination Query QueryFacts QueryProps QueryAccess.

Open Scope Z_scope.
Open Scope go_scope.

Import SchemaRun.
Import ValueRun.

Module QueryRun.

(** Words end at blanks; case is ASCII's. *)
#[export] Instance text : GoQuery := {|
  json_MarshalString s := String "034" (s ++ String "034" "");
  str_ToLower := lower;
  str_EqualFold a c := bool_decide (lower a = lower c);
  str_Fields s := [s];
  KeysetTime _ := EmptyString |}.

(** Maps are ranged in the reverse of the order of their keys. *)
#[export] Instance backwards : GoRange.
Proof.
  refine {| ranged K A _ _ m := List.rev (values m) |}. intros K A HE HC m. symmetry. apply Permutation_rev.
Defined.

#[export] Instance cursors : GoCursor := {|
  cursor_text key := match key with v :: _ => String "k" v | [] => EmptyString end;
  cursor_values c := match c with String _ v => Some [v] | EmptyString => None end;
  parsesAsTime _ := true;
  parsesAsNumber _ := true |}.

Definition no_links : LinkTables := mkLinkTables (types fragile) ∅ ∅.

(** The second box holds a packing only. *)
Definition other_box : SetInput := mkSetInput "2" "box-2" "1" EmptyString EmptyString "7" false false.
Definition boxes : Tables := put_value other_box 3 fragile.

(** Whether the first box is fragile, said otherwise. *)
Definition retold : Tables := put_value (input "1" "0") 9 boxes.

Definition shelf (T : Tables) : Store := mkStore T no_links
  (<[("default", "box-2")%string := mkSearchDoc "box-2" ∅ "box-2"]> {[ ("default", "box-1")%string := mkSearchDoc "box-1" ∅ "box-1" ]}).

(** A principal who may not read [fragile]. *)
Definition clerk : Access := mkAccess false {[ "fragile"%string := PermNone ]} "read".

Definition question : string := "packing >= 5 and not (packing in (7))".
Definition page : Page := mkPage 10 EmptyString true false.

Definition bound (access : Access) (q : string) : result (list ID * BoundNode) :=
  prepare "default" access true (shelf boxes) "product" q.

Definition asked : BoundNode :=
  match bound clerk question with Ok (_, n) => n | Err _ => BoundHas (default (mkAttr 0 "" 0 "" "" "" DataTypeNone false false false false false "" "" None [] None "" 0 "" 0 0 0 None) None) false end.

Example clerk_asks : bound clerk question = Ok ([1%N], asked).
Proof. vm_compute. reflexivity. Qed.

(** To the clerk the hidden attribute does not exist. *)
Example clerk_cannot_name_it : bound clerk "fragile = 1" = Err (NewValidation "unknown attribute").
Proof. vm_compute. reflexivity. Qed.

Example clerk_sees_one_box :
  option_map (fun r => (esEntityID <$> r.1, r.2))
    (match SearchEntities (shelf boxes) "default" [1%N] asked (mkScope "" "") page with Ok r => Some r | Err _ => None end) =
  Some (["box-1"%string], 1).
Proof. vm_compute. reflexivity. Qed.
End QueryRun.
Import QueryRun.

(** ** Checks on concrete tables *)

Lemma no_nan_check (vs : gmap ID AttributeValue) :
  forallb (fun r => negb (is_nan (floatVal (avValue r)))) (values vs) = true ->
  forall i r, vs !! i = Some r -> comparable (avValue r).
Proof.
  rewrite forallb_forall. intros Hall i r Hr. apply negb_true_iff, Hall, list_elem_of_In, values_elem. by exists i.
Qed.

(** What a row says of its entity's presence. *)
Definition presence (r : AttributeValue) : TenantID * EntityID * ID * bool :=
  (avTenantID r, avEntityID r, avTypeID r, AvIsArchived r).

Lemma same_presence (vs vs' : gmap ID AttributeValue) tenant entity t :
  presence <$> vs = presence <$> vs' -> has_live vs tenant entity t -> has_live vs' tenant entity t.
Proof.
  intros E (i & r & Hi & Pr & Et). assert ((presence <$> vs') !! i = Some (presence r)) as Hi'.
  { by rewrite <- E, lookup_fmap, Hi. }
  rewrite lookup_fmap, fmap_Some in Hi'. destruct Hi' as (r' & Hi' & Ep). exists i, r'. split; [done|].
  injection Ep as E1 E2 E3 E4. unfold live_of_entity, of_entity in *. rewrite <- E1, <- E2, <- E4, <- E3. done.
Qed.

Lemma same_view_check T access (vs vs' : gmap ID AttributeValue) :
  presence <$> vs = presence <$> vs' ->
  (forall i r, vs !! i = Some r \/ vs' !! i = Some r -> readable_row T access r -> vs !! i = vs' !! i) ->
  same_view T access vs vs'.
Proof.
  intros E Hd. split.
  - intros i r Hr. split; intros Hi; (rewrite <- (Hd i r) || rewrite (Hd i r)); auto.
  - intros tenant entity t. split; by apply same_presence.
Qed.

Lemma indexed_check `{GoStd} `{GoUlid} S (keys : list (TenantID * EntityID)) :
  forallb (fun r => bool_decide ((avTenantID r, avEntityID r) ∈ keys)) (values (vals (stTables S))) = true ->
  forallb (fun k => bool_decide (k ∈ keys)) (fst <$> map_to_list (searchDocs S)) = true ->
  Forall (fun k => searchDocs S !! k = type_of S k.1 k.2 ≫= fun t => document (stTables S) k.1 t k.2) keys ->
  indexed S.
Proof.
  rewrite !forallb_forall, list.Forall_forall. intros Hr Hd Hk tenant entity.
  destruct (decide ((tenant, entity) ∈ keys)) as [Hin|Hout]; [by apply (Hk (tenant, entity))|].
  assert (searchDocs S !! (tenant, entity) = None) as ->.
  { apply eq_None_not_Some. intros [d Hl]. apply Hout.
    assert ((tenant, entity) ∈ fst <$> map_to_list (searchDocs S)) as Hm.
    { apply list_elem_of_fmap. exists ((tenant, entity), d). split; [done|]. by apply elem_of_map_to_list. }
    apply list_elem_of_In, Hd in Hm. by apply bool_decide_eq_true in Hm. }
  unfold type_of. rewrite filter_none; [done|]. intros v Hv. apply not_true_iff_false. intros Pv.
  apply list_elem_of_In, Hr, bool_decide_eq_true in Hv. apply Hout. unfold live_of_entity in Pv.
  apply andb_true_iff in Pv as [Pv _]. apply of_entity_true in Pv as [<- <-]. exact Hv.
Qed.

Lemma boxes_reachable : table_reachable boxes.
Proof. apply put_value_reachable; [exact fragile_reachable|vm_compute; reflexivity]. Qed.

Lemma retold_reachable : table_reachable retold.
Proof. apply put_value_reachable; [exact boxes_reachable|vm_compute; reflexivity]. Qed.

Lemma boxes_no_nan i r : vals boxes !! i = Some r -> comparable (avValue r).
Proof. revert i r. apply (no_nan_check (vals boxes)). vm_compute. reflexivity. Qed.

Lemma retold_no_nan i r : vals retold !! i = Some r -> comparable (avValue r).
Proof. revert i r. apply (no_nan_check (vals retold)). vm_compute. reflexivity. Qed.

Lemma boxes_alike : same_view boxes clerk (vals boxes) (vals retold).
Proof.
  apply same_view_check; [vm_compute; reflexivity|]. intros i r Hi (a & Ha & Hc).
  assert (vals retold = <[2%N := default written (vals retold !! 2%N)]> (vals boxes)) as E by (vm_compute; reflexivity).
  destruct (decide (i = 2%N)) as [->|Hne]; [|by rewrite E, lookup_insert_ne].
  exfalso. assert (avAttrID r = 1%N) as Er.
  { assert (avAttrID <$> vals boxes !! 2%N = Some 1%N /\ avAttrID <$> vals retold !! 2%N = Some 1%N) as [E1 E2]
      by (split; vm_compute; reflexivity).
    destruct Hi as [Hi|Hi]; [rewrite Hi in E1; by injection E1|rewrite Hi in E2; by injection E2]. }
  rewrite Er in Ha. assert (internalName <$> attrs boxes !! 1%N = Some "fragile"%string) as Ea by (vm_compute; reflexivity).
  rewrite Ha in Ea. injection Ea as Ea. rewrite Ea in Hc. revert Hc. vm_compute. discriminate.
Qed.

Lemma shelf_indexed : indexed (shelf boxes) /\ indexed (with_values (shelf boxes) (vals retold) (searchDocs (shelf boxes))).
Proof.
  split; (apply (indexed_check _ [("default", "box-1"); ("default", "box-2")]%string);
    [vm_compute; reflexivity|vm_compute; reflexivity|]); repeat constructor; vm_compute; reflexivity.
Qed.

Lemma clerk_prepares : prepare "default" clerk true (shelf boxes) "product" question = Ok ([1%N], asked).
Proof. exact clerk_asks. Qed.

Lemma query_exact_witness :
  SearchEntities (shelf boxes) "default" [1%N] asked (mkScope "" "") page =
    paginate (sort_by newest_first (answers (shelf boxes) "default" [1%N] asked (mkScope "" ""))) page
      entityKeyset entityKey.
Proof.
  refine (proj1 (query_exact "default" clerk true (shelf boxes) "product" question [1%N] asked (mkScope "" "") page
    boxes_reachable (fun i r Hr _ => boxes_no_nan i r Hr) clerk_prepares)).
Defined.

Lemma hidden_values_unobservable_witness :
  (intVal ∘ avValue) <$> vals boxes !! 2%N <> (intVal ∘ avValue) <$> vals retold !! 2%N /\
  bound clerk question = Ok ([1%N], asked) /\
  prepare "default" clerk true (with_values (shelf boxes) (vals retold) (searchDocs (shelf boxes))) "product" question =
    Ok ([1%N], asked).
Proof.
  split; [vm_compute; discriminate|]. split; [exact clerk_asks|].
  refine (proj1 (hidden_values_unobservable "default" clerk true (shelf boxes) (vals retold) (searchDocs (shelf boxes))
    "product" question [1%N] asked (mkScope "" "") _ boxes_reachable retold_reachable _ boxes_alike
    (proj1 shelf_indexed) (proj2 shelf_indexed) clerk_prepares)).
  - split; [|by right; right; left]. intros k p. unfold clerk. simpl. intros [<- <-]%lookup_singleton_Some. by left.
  - intros i r [Hr|Hr] _; [exact (boxes_no_nan i r Hr)|exact (retold_no_nan i r Hr)].
Defined.
