(* ===== verification/QuerySql.v ===== *)
(** The SQL of a query ([infrastructure/postgres/query.go], [value_columns.go]): the
    statement a bound query is compiled to, as a tree whose leaves stand in the
    order of the text, and what the statement means over the rows of the tables.

    Placeholders take the arguments in the order of the text, as the driver binds
    them; an alias is its prefix and its number.  Conjunctions are evaluated from the
    left.  What is left to PostgreSQL - its case folding, its text search, its
    equality of documents, the precision of its instants, the order of its
    collation - is the class [Postgres]. *)

From Stdlib Require Import ZArith QArith Lia String Ascii List SpecFloat.
From stdpp Require Import base tactics list gmap fin_maps strings option decidable.
From S2P Require Import Prelude GoText Values Ids Attribute TypeDef Relationship ValueWrite Fql Pagination Query.

Open Scope Z_scope.
Open Scope go_scope.

(** ** Columns and values *)

Inductive Column :=
  | tenant_id | entity_id | type_definition_id | attribute_definition_id | archived_at | locale | channel
  | value_bool | value_int | value_float | value_text | value_time | value_json
  | row_id | parent_entity_id | child_entity_id | relationship_definition_id | attribute_name.

Inductive Datum :=
  | DNull
  | DBool (b : bool)
  | DInt (z : Z)
  | DFloat (f : spec_float)
  | DNumeric (q : Q)
  | DText (s : string)
  | DTime (micros : Z)
  | DJson (p : JsonPayload)
  | DArray (ds : list Datum).

Class Postgres := {
  (** an instant in the precision of a [timestamptz], in microseconds *)
  pg_time : Z -> Z;
  (** the order of [TEXT] under the database's collation *)
  pg_text_leb : string -> string -> bool;
  (** [jsonb] equality with the document of a text *)
  pg_json_eq : JsonPayload -> string -> bool;
  (** the text of a JSON value: [v.JSON()] *)
  json_text : JsonPayload -> string;
  (** [ILIKE] and [lower] *)
  pg_ilike : string -> string -> bool;
  pg_lower : string -> string;
  (** the lexemes of [to_tsvector('simple', text)] *)
  pg_lexemes : string -> list string
}.

Section Columns.
Context `{Postgres}.

(** [valueColumnName] *)
Definition valueColumnName (dt : DataType) : Column :=
  match dt with
  | DataTypeBool => value_bool
  | DataTypeInteger => value_int
  | DataTypeFloat => value_float
  | DataTypeDate | DataTypeTime | DataTypeDateTime => value_time
  | DataTypeJSON | DataTypeMedia => value_json
  | DataTypeQuantity => value_float
  | _ => value_text
  end.

(** [columnsFromValue]: what a value leaves in a column. *)
Definition columnsFromValue (v : Value) (c : Column) : Datum :=
  match dataType v, c with
  | DataTypeBool, value_bool => DBool (boolVal v)
  | DataTypeInteger, value_int => DInt (intVal v)
  | DataTypeFloat, value_float => DFloat (floatVal v)
  | (DataTypeDate | DataTypeTime | DataTypeDateTime), value_time => DTime (pg_time (timeVal v))
  | (DataTypeJSON | DataTypeMedia), value_json => DJson (jsonVal v)
  | DataTypeQuantity, value_float => DFloat (floatVal v)
  | DataTypeQuantity, value_json => DJson (jsonVal v)
  | (DataTypeBool | DataTypeInteger | DataTypeFloat | DataTypeDate | DataTypeTime | DataTypeDateTime
     | DataTypeJSON | DataTypeMedia | DataTypeQuantity), _ => DNull
  | _, value_text => DText (textVal v)
  | _, _ => DNull
  end.

(** [valueArg] *)
Definition valueArg (v : Value) : Datum :=
  match dataType v with
  | DataTypeBool => DBool (boolVal v)
  | DataTypeInteger => DInt (intVal v)
  | DataTypeFloat | DataTypeQuantity => DFloat (floatVal v)
  | DataTypeDate | DataTypeTime | DataTypeDateTime => DTime (pg_time (timeVal v))
  | DataTypeJSON | DataTypeMedia => DText (json_text (jsonVal v))
  | _ => DText (textVal v)
  end.
End Columns.

(** ** Statements *)

Inductive Table := attribute_value | relationship | entity_summary | entity_search | entity_search_attr.

Abbreviation Alias := (string * nat)%type.

Inductive Sql :=
  | SCol (alias : Alias) (c : Column)
  | SParam
  | SNothing
  | SNumeric (e : Sql)
  | SCaseEq (a b t f : Sql)
  | SCmp (op : CompareOp) (a b : Sql)
  | SAny (a : Sql) (array : Sql)
  | SAnyNumeric (a : Sql) (array : Sql)
  | SBetween (a lo hi : Sql)
  | SIsNull (a : Sql)
  | SAnd (es : list Sql)
  | SOr (es : list Sql)
  | SNot (e : Sql)
  | SCharLength (e : Sql)
  | SLike (a pattern : Sql)
  | SILike (a pattern : Sql)
  | SLowerEq (a b : Sql)
  | SExists (table : Table) (alias : Alias) (where_ : Sql)
  | SAggregate (f : AggFunc) (arg : Sql) (table : Table) (alias : Alias) (where_ : Sql)
  | SCount (table : Table) (alias : Alias) (where_ : Sql)
  | SDeclaredType (tenant entity : Sql)
  | SSearches (alias : Alias) (query : Sql)
  | STermsCovered (guard terms : Sql) (alias : Alias) (tenant entity names : Sql).

(** ** Compilation *)

(** [entityRef]; at the root there is no enclosing link. *)
Record entityRef := mkRef {
  refTenant : Sql;
  refEntity : Sql;
  refType : Sql;
  refLink : option Sql }.

(** [compiler] *)
Record compiler := mkCompiler { args : list Datum; aliasNo : nat }.

Definition next_alias (prefix : string) (c : compiler) : Alias * compiler :=
  ((prefix, S (aliasNo c)), mkCompiler (args c) (S (aliasNo c))).

Definition arg (d : Datum) (c : compiler) : compiler := mkCompiler (args c ++ [d]) (aliasNo c).

(** [likeEscaper], [containsPattern] *)
Definition like_special (c : ascii) : bool := bool_decide (c ∈ ["\"; "%"; "_"]%char).

Fixpoint likeEscape (s : string) : string :=
  match s with
  | EmptyString => EmptyString
  | String c s => if like_special c then String "\" (String c (likeEscape s)) else String c (likeEscape s)
  end.

Definition containsPattern (needle : string) : string :=
  String "%" (likeEscape needle ++ "%").

Section Compile.
Context `{GoUlid} `{Postgres}.
Context (scope : Scope).

(** [valueScope]: the conditions on the rows of one attribute of the entity. *)
Definition valueScope (alias : Alias) (attr : AttrDefinition) (link : bool) (e : entityRef) (c : compiler) :
    list Sql * compiler :=
  let entity := if link then default SNothing (refLink e) else refEntity e in
  let c := arg (DText (ulid_String (id attr))) c in
  let base := [SCmp CmpEq (SCol alias tenant_id) (refTenant e); SCmp CmpEq (SCol alias entity_id) entity;
    SCmp CmpEq (SCol alias attribute_definition_id) SParam; SIsNull (SCol alias archived_at)] in
  if link then (base, c)
  else
    let (base, c) :=
      if localizable attr then (base ++ [SCmp CmpEq (SCol alias locale) SParam], arg (DText (Locale scope)) c)
      else (base, c) in
    if scopable attr then (base ++ [SCmp CmpEq (SCol alias channel) SParam], arg (DText (Channel scope)) c)
    else (base, c).

(** [columnExpr] *)
Definition columnExpr (alias : Alias) (dt : DataType) : Sql :=
  if bool_decide (dt = DataTypeDecimal) then SNumeric (SCol alias value_text)
  else SCol alias (valueColumnName dt).

(** [arrayExpr], under the equality it is used in *)
Definition any_of (dt : DataType) (a : Sql) : Sql :=
  if bool_decide (dt = DataTypeDecimal) then SAnyNumeric a SParam else SAny a SParam.

(** [sqlOps] *)
Definition sqlOps (op : CompareOp) : option CompareOp :=
  if bool_decide (op ∈ [CmpEq; CmpNeq; CmpGt; CmpGte; CmpLt; CmpLte]) then Some op else None.

Definition compileCompare (attr : AttrDefinition) (link : bool) (func : AggFunc) (op : CompareOp)
    (value : Value) (e : entityRef) (c : compiler) : result (Sql * compiler) :=
  match sqlOps op with
  | None => Err (Errorf "unsupported operator")
  | Some op =>
      let (v, c) := next_alias "v" c in
      let col := columnExpr v (attrType attr) in
      let (conds, c) := valueScope v attr link e c in
      match func with
      | FuncMin | FuncMax =>
          Ok (SCmp op (SAggregate func col attribute_value v (SAnd conds)) SParam, arg (valueArg value) c)
      | FuncCount =>
          Ok (SCmp op (SCount attribute_value v (SAnd conds)) SParam, arg (DInt (intVal value)) c)
      | FuncLength =>
          Ok (SExists attribute_value v (SAnd (conds ++ [SCmp op (SCharLength (SCol v value_text)) SParam])),
              arg (DInt (intVal value)) c)
      | FuncNone =>
          Ok (SExists attribute_value v (SAnd (conds ++ [SCmp op col SParam])), arg (valueArg value) c)
      end
  end.

(** An [EXISTS] over the rows of an attribute. *)
Definition exists_value (attr : AttrDefinition) (link : bool) (e : entityRef) (c : compiler)
    (pred : Alias -> list Sql) (ds : list Datum) : Sql * compiler :=
  let (v, c) := next_alias "v" c in
  let (conds, c) := valueScope v attr link e c in
  (SExists attribute_value v (SAnd (conds ++ pred v)), fold_left (fun c d => arg d c) ds c).

Definition compileMatch (attr : AttrDefinition) (link : bool) (kind : StringMatchKind) (value : string)
    (e : entityRef) (c : compiler) : Sql * compiler :=
  match kind with
  | MatchContains =>
      exists_value attr link e c (fun v => [SLike (SCol v value_text) SParam]) [DText (containsPattern value)]
  | MatchIContains =>
      exists_value attr link e c (fun v => [SILike (SCol v value_text) SParam]) [DText (containsPattern value)]
  | MatchIEquals =>
      exists_value attr link e c (fun v => [SLowerEq (SCol v value_text) SParam]) [DText value]
  end.

Definition compileMatches (query : string) (names : option (list string)) (e : entityRef) (c : compiler) :
    Sql * compiler :=
  let (s, c) := next_alias "s" c in
  match names with
  | Some names =>
      (STermsCovered SParam SParam s (refTenant e) (refEntity e) SParam,
       arg (DArray (DText <$> EmptyString :: names)) (arg (DText query) (arg (DText query) c)))
  | None =>
      (SExists entity_search s (SAnd [SCmp CmpEq (SCol s tenant_id) (refTenant e);
         SCmp CmpEq (SCol s entity_id) (refEntity e); SSearches s SParam]), arg (DText query) c)
  end.

(** The near condition of a traversal and the entity at the far end. *)
Definition nearCond (direction : Direction) (rel : Alias) (e : entityRef) : Sql :=
  match direction with
  | DirAny => SOr [SCmp CmpEq (SCol rel parent_entity_id) (refEntity e); SCmp CmpEq (SCol rel child_entity_id) (refEntity e)]
  | DirParent => SCmp CmpEq (SCol rel child_entity_id) (refEntity e)
  | DirChild => SCmp CmpEq (SCol rel parent_entity_id) (refEntity e)
  end.

Definition farExpr (direction : Direction) (rel : Alias) (e : entityRef) : Sql :=
  match direction with
  | DirAny => SCaseEq (SCol rel parent_entity_id) (refEntity e) (SCol rel child_entity_id) (SCol rel parent_entity_id)
  | DirParent => SCol rel parent_entity_id
  | DirChild => SCol rel child_entity_id
  end.

Definition liveGuard (es rel : Alias) (far : Sql) : Sql :=
  SExists entity_summary es (SAnd [SCmp CmpEq (SCol es tenant_id) (SCol rel tenant_id); SCmp CmpEq (SCol es entity_id) far]).

(** [counterpartType]: the type of the oldest live value. *)
Definition counterpartType (rel : Alias) (far : Sql) : Sql := SDeclaredType (SCol rel tenant_id) far.

Section Each.
Context (compile : BoundNode -> entityRef -> compiler -> result (Sql * compiler)) (e : entityRef).

Fixpoint compileEach (ns : list BoundNode) (c : compiler) : result (list Sql * compiler) :=
  match ns with
  | [] => Ok ([], c)
  | n :: ns =>
      let! '(q, c) := compile n e c in
      let! '(qs, c) := compileEach ns c in
      Ok (q :: qs, c)
  end.
End Each.

Fixpoint compile (node : BoundNode) (e : entityRef) (c : compiler) : result (Sql * compiler) :=
  match node with
  | BoundLogical op ns =>
      let! '(qs, c) := compileEach compile e ns c in
      Ok (match op with OpAnd => SAnd qs | OpOr => SOr qs end, c)
  | BoundNot n => let! '(q, c) := compile n e c in Ok (SNot q, c)
  | BoundType ids negate =>
      let q := SAny (refType e) SParam in
      Ok (if negate then SNot q else q, arg (DArray ((fun i => DText (ulid_String i)) <$> ids)) c)
  | BoundCompare attr link func op value => compileCompare attr link func op value e c
  | BoundIn attr link vs =>
      Ok (exists_value attr link e c (fun v => [any_of (attrType attr) (columnExpr v (attrType attr))])
            [DArray (valueArg <$> vs)])
  | BoundRange attr link lo hi =>
      Ok (exists_value attr link e c (fun v => [SBetween (columnExpr v (attrType attr)) SParam SParam])
            [valueArg lo; valueArg hi])
  | BoundHas attr link => Ok (exists_value attr link e c (fun _ => []) [])
  | BoundStringMatch attr link kind value => Ok (compileMatch attr link kind value e c)
  | BoundMatches query names => Ok (compileMatches query names e c)
  | BoundTraversal def direction inner =>
      let (rel, c) := next_alias "r" c in
      let c := arg (DText (ulid_String (relID def))) c in
      let far := farExpr direction rel e in
      let (es, c) := next_alias "es" c in
      let! '(q, c) := compile inner
        (mkRef (SCol rel tenant_id) far (counterpartType rel far) (Some (SCol rel row_id))) c in
      Ok (SExists relationship rel (SAnd [SCmp CmpEq (SCol rel tenant_id) (refTenant e);
            SCmp CmpEq (SCol rel relationship_definition_id) SParam; SIsNull (SCol rel archived_at);
            nearCond direction rel e; liveGuard es rel far; q]), c)
  end.

(** The current entity of the outermost statement. *)
Definition root_alias : Alias := ("e"%string, 0%nat).
Definition root_ref : entityRef :=
  mkRef (SCol root_alias tenant_id) (SCol root_alias entity_id) (SCol root_alias type_definition_id) None.
End Compile.

(** ** What a statement means *)

Inductive Row :=
  | ValueRow (v : AttributeValue)
  | LinkRow (l : Relationship)
  | SummaryRow (tenant : TenantID) (type_id : ID) (entity : EntityID)
  | SearchRow (tenant : TenantID) (entity : EntityID) (text : string)
  | SearchAttrRow (tenant : TenantID) (entity : EntityID) (name : string) (texts : list string).

Definition null_unless (o : option Z) : Datum := match o with Some t => DTime t | None => DNull end.

Section Rows.
Context `{GoUlid} `{Postgres}.

Definition column (r : Row) (c : Column) : option Datum :=
  match r, c with
  | ValueRow v, tenant_id => Some (DText (avTenantID v))
  | ValueRow v, entity_id => Some (DText (avEntityID v))
  | ValueRow v, type_definition_id => Some (DText (ulid_String (avTypeID v)))
  | ValueRow v, attribute_definition_id => Some (DText (ulid_String (avAttrID v)))
  | ValueRow v, archived_at => Some (null_unless (avArchivedAt v))
  | ValueRow v, locale => Some (DText (Locale (avScope v)))
  | ValueRow v, channel => Some (DText (Channel (avScope v)))
  | ValueRow v, (value_bool | value_int | value_float | value_text | value_time | value_json) =>
      Some (columnsFromValue (avValue v) c)
  | ValueRow v, row_id => Some (DText (ulid_String (avID v)))
  | LinkRow l, tenant_id => Some (DText (lkTenantID l))
  | LinkRow l, row_id => Some (DText (ulid_String (lkID l)))
  | LinkRow l, relationship_definition_id => Some (DText (ulid_String (lkDefinitionID l)))
  | LinkRow l, parent_entity_id => Some (DText (lkParent l))
  | LinkRow l, child_entity_id => Some (DText (lkChild l))
  | LinkRow l, archived_at => Some (null_unless (lkArchivedAt l))
  | SummaryRow t _ _, tenant_id => Some (DText t)
  | SummaryRow _ i _, type_definition_id => Some (DText (ulid_String i))
  | SummaryRow _ _ e, entity_id => Some (DText e)
  | SearchRow t _ _, tenant_id => Some (DText t)
  | SearchRow _ e _, entity_id => Some (DText e)
  | SearchAttrRow t _ _ _, tenant_id => Some (DText t)
  | SearchAttrRow _ e _ _, entity_id => Some (DText e)
  | SearchAttrRow _ _ n _, attribute_name => Some (DText n)
  | _, _ => None
  end.

Definition live_value (v : AttributeValue) : bool := negb (AvIsArchived v).

(** The tables; the summaries and the search rows are the projections the triggers
    and the indexer keep. *)
Definition rows (S : Store) (t : Table) : list Row :=
  match t with
  | attribute_value => ValueRow <$> values (vals (stTables S))
  | relationship => LinkRow <$> values (links (stLinks S))
  | entity_summary =>
      (fun v => SummaryRow (avTenantID v) (avTypeID v) (avEntityID v)) <$>
        List.filter live_value (values (vals (stTables S)))
  | entity_search => (fun p => SearchRow p.1.1 p.1.2 (docText p.2)) <$> map_to_list (searchDocs S)
  | entity_search_attr =>
      concat ((fun p => SearchAttrRow p.1.1 p.1.2 EmptyString [docEntity p.2] ::
                ((fun q => SearchAttrRow p.1.1 p.1.2 q.1 q.2) <$> map_to_list (docValues p.2))) <$>
              map_to_list (searchDocs S))
  end.
End Rows.

(** *** Comparisons *)

(** NaN is above every number and equal to itself. *)
Definition pg_float_cmp (a b : spec_float) : comparison :=
  match is_nan a, is_nan b with
  | true, true => Eq
  | true, false => Gt
  | false, true => Lt
  | false, false => fcmp a b
  end.

Definition cmp_datum (a b : Datum) : option comparison :=
  match a, b with
  | DInt x, DInt y => Some (x ?= y)
  | DFloat x, DFloat y => Some (pg_float_cmp x y)
  | DNumeric x, DNumeric y => Some (x ?= y)%Q
  | DNumeric x, DText s => y ← rat_of_decimal s; Some (x ?= y)%Q
  | DTime x, DTime y => Some (x ?= y)
  | _, _ => None
  end.

Definition eq_datum `{Postgres} (a b : Datum) : option bool :=
  match a, b with
  | DBool x, DBool y => Some (eqb x y)
  | DText x, DText y => Some (bool_decide (x = y))
  | DJson p, DText t => Some (pg_json_eq p t)
  | _, _ => c ← cmp_datum a b; Some (match c with Eq => true | _ => false end)
  end.

Definition is_null (d : Datum) : bool := match d with DNull => true | _ => false end.

Definition op_datum `{Postgres} (op : CompareOp) (a b : Datum) : option Datum :=
  if is_null a || is_null b then Some DNull
  else if bool_decide (op = CmpEq) then x ← eq_datum a b; Some (DBool x)
  else if bool_decide (op = CmpNeq) then x ← eq_datum a b; Some (DBool (negb x))
  else
    c ← cmp_datum a b;
    Some (DBool (if bool_decide (op = CmpGt) then match c with Gt => true | _ => false end
                 else if bool_decide (op = CmpGte) then match c with Lt => false | _ => true end
                 else if bool_decide (op = CmpLt) then match c with Lt => true | _ => false end
                 else match c with Gt => false | _ => true end)).

(** [LIKE] with the escape character [\]. *)
Fixpoint any_suffix (f : string -> bool) (s : string) : bool :=
  f s || match s with String _ s => any_suffix f s | EmptyString => false end.

Fixpoint like (p s : string) : bool :=
  match p with
  | EmptyString => str_IsZero s
  | String c p' =>
      if bool_decide (c = "%"%char) then any_suffix (like p') s
      else if bool_decide (c = "_"%char) then
        negb (str_IsZero s) && like p' (drop_bytes (rune_size s) s)
      else if bool_decide (c = "\"%char) then
        match p', s with
        | String d p'', String x s' => bool_decide (x = d) && like p'' s'
        | _, _ => false
        end
      else
        match s with
        | String x s' => bool_decide (x = c) && like p' s'
        | EmptyString => false
        end
  end.

(** The placeholders of a statement. *)
Fixpoint holes (q : Sql) : nat :=
  match q with
  | SCol _ _ | SNothing => 0
  | SParam => 1
  | SNumeric a | SIsNull a | SNot a | SCharLength a => holes a
  | SCaseEq a b t f => holes a + holes b + holes t + holes f
  | SCmp _ a b | SAny a b | SAnyNumeric a b | SLike a b | SILike a b | SLowerEq a b | SDeclaredType a b =>
      holes a + holes b
  | SBetween a lo hi => holes a + holes lo + holes hi
  | SAnd es | SOr es => list_sum (List.map holes es)
  | SExists _ _ w => holes w
  | SAggregate _ a _ _ w => holes a + holes w
  | SCount _ _ w => holes w
  | SSearches _ q => holes q
  | STermsCovered g t _ tn en ns => holes g + holes t + holes tn + holes en + holes ns
  end.

Section Loops.
Context (sem : Sql -> nat -> option Datum).

(** Conjuncts and disjuncts from the left. *)
Fixpoint sem_and (k : nat) (es : list Sql) : option Datum :=
  match es with
  | [] => Some (DBool true)
  | e :: es =>
      d ← sem e k;
      match d with
      | DBool false => Some (DBool false)
      | DBool true => sem_and (k + holes e) es
      | DNull => r ← sem_and (k + holes e) es; Some (match r with DBool true => DNull | _ => r end)
      | _ => None
      end
  end.

Fixpoint sem_or (k : nat) (es : list Sql) : option Datum :=
  match es with
  | [] => Some (DBool false)
  | e :: es =>
      d ← sem e k;
      match d with
      | DBool true => Some (DBool true)
      | DBool false => sem_or (k + holes e) es
      | DNull => r ← sem_or (k + holes e) es; Some (match r with DBool false => DNull | _ => r end)
      | _ => None
      end
  end.
End Loops.

(** The rows a condition selects. *)
Fixpoint select_rows (p : Row -> option Datum) (rs : list Row) : option (list Row) :=
  match rs with
  | [] => Some []
  | r :: rs =>
      d ← p r;
      match d with
      | DBool true => out ← select_rows p rs; Some (r :: out)
      | DBool false | DNull => select_rows p rs
      | _ => None
      end
  end.

(** [min] and [max]; no row is NULL. *)
Fixpoint best_datum (f : AggFunc) (best : Datum) (ds : list Datum) : option Datum :=
  match ds with
  | [] => Some best
  | d :: ds =>
      c ← cmp_datum d best;
      best_datum f (match f, c with FuncMin, Lt => d | FuncMin, _ => best | _, Gt => d | _, _ => best end) ds
  end.

Definition member_of `{Postgres} (d : Datum) (ds : list Datum) : option bool :=
  foldr (fun x acc => e ← eq_datum d x; a ← acc; Some (e || a)) (Some false) ds.

Section Semantics.
Context `{GoUlid} `{Postgres}.
Context (S : Store) (A : list Datum).

Abbreviation Env := (gmap Alias Row).

Definition numeric_of (d : Datum) : option Datum :=
  match d with
  | DText s => q ← rat_of_decimal s; Some (DNumeric q)
  | DNull => Some DNull
  | _ => None
  end.

Definition not_datum (d : Datum) : option Datum :=
  match d with DBool b => Some (DBool (negb b)) | DNull => Some DNull | _ => None end.

Definition any_datum (d : Datum) (ds : list Datum) : option Datum :=
  if is_null d then Some DNull else b ← member_of d ds; Some (DBool b).

(** [BETWEEN]: [a >= lo AND a <= hi]. *)
Definition between_datum (d lo hi : Datum) : option Datum :=
  x ← op_datum CmpGte d lo;
  y ← op_datum CmpLte d hi;
  match x, y with
  | DBool b, DBool c => Some (DBool (b && c))
  | _, _ => Some DNull
  end.

Definition by_age (v w : AttributeValue) : bool := by_created v w.

(** The type in the oldest live value of an entity. *)
Definition declared_datum (tenant entity : Datum) : option Datum :=
  match tenant, entity with
  | DText t, DText e =>
      Some (match sort_by by_age (List.filter (live_of_entity t e) (values (vals (stTables S)))) with
            | v :: _ => DText (ulid_String (avTypeID v))
            | [] => DNull
            end)
  | _, _ => None
  end.

(** Every lexeme of the query is one of the text's; no lexeme matches nothing. *)
Definition ts_matches (text query : string) : bool :=
  negb (bool_decide (pg_lexemes query = [])) &&
  forallb (fun w => bool_decide (w ∈ pg_lexemes text)) (pg_lexemes query).

Definition attr_covers (t e : string) (names : list Datum) (word : string) (r : Row) : bool :=
  match r with
  | SearchAttrRow t' e' n texts =>
      bool_decide (t = t') && bool_decide (e = e') &&
      existsb (fun d => match d with DText m => bool_decide (m = n) | _ => false end) names &&
      existsb (fun text => bool_decide (word ∈ pg_lexemes text)) texts
  | _ => false
  end.

Definition terms_covered (guard terms tenant entity names : Datum) : option Datum :=
  match guard, terms, tenant, entity, names with
  | DText g, DText q, DText t, DText e, DArray ns =>
      Some (DBool (negb (bool_decide (pg_lexemes g = [])) &&
        forallb (fun w => existsb (attr_covers t e ns w) (rows S entity_search_attr)) (pg_lexemes q)))
  | _, _, _, _, _ => None
  end.

(** [k] is the number of placeholders before the expression. *)
Fixpoint sem (q : Sql) (k : nat) (env : Env) {struct q} : option Datum :=
  match q with
  | SCol alias c => r ← env !! alias; column r c
  | SParam => A !! k
  | SNothing => None
  | SNumeric a => d ← sem a k env; numeric_of d
  | SCaseEq a b t f =>
      x ← sem a k env;
      y ← sem b (k + holes a) env;
      d ← op_datum CmpEq x y;
      match d with
      | DBool true => sem t (k + holes a + holes b) env
      | _ => sem f (k + holes a + holes b + holes t) env
      end
  | SCmp op a b =>
      x ← sem a k env;
      y ← sem b (k + holes a) env;
      op_datum op x y
  | SAny a arr =>
      x ← sem a k env;
      y ← sem arr (k + holes a) env;
      match y with DArray ds => any_datum x ds | _ => None end
  | SAnyNumeric a arr =>
      x ← sem a k env;
      y ← sem arr (k + holes a) env;
      match y with DArray ds => ns ← mapM numeric_of ds; any_datum x ns | _ => None end
  | SBetween a lo hi =>
      x ← sem a k env;
      l ← sem lo (k + holes a) env;
      h ← sem hi (k + holes a + holes lo) env;
      between_datum x l h
  | SIsNull a => d ← sem a k env; Some (DBool (is_null d))
  | SAnd es => if bool_decide (length es = 0%nat) then None else sem_and (fun e j => sem e j env) k es
  | SOr es => if bool_decide (length es = 0%nat) then None else sem_or (fun e j => sem e j env) k es
  | SNot a => d ← sem a k env; not_datum d
  | SCharLength a =>
      d ← sem a k env;
      match d with
      | DText s => Some (DInt (Z.of_nat (RuneCountInString s)))
      | DNull => Some DNull
      | _ => None
      end
  | SLike a p =>
      x ← sem a k env;
      y ← sem p (k + holes a) env;
      match x, y with DText s, DText pat => Some (DBool (like pat s)) | DNull, _ => Some DNull | _, _ => None end
  | SILike a p =>
      x ← sem a k env;
      y ← sem p (k + holes a) env;
      match x, y with DText s, DText pat => Some (DBool (pg_ilike s pat)) | DNull, _ => Some DNull | _, _ => None end
  | SLowerEq a b =>
      x ← sem a k env;
      y ← sem b (k + holes a) env;
      match x, y with
      | DText s, DText t => Some (DBool (bool_decide (pg_lower s = pg_lower t)))
      | DNull, _ => Some DNull
      | _, _ => None
      end
  | SExists t alias w =>
      rs ← select_rows (fun r => sem w k (<[alias := r]> env)) (rows S t);
      Some (DBool (negb (bool_decide (length rs = 0%nat))))
  | SAggregate f a t alias w =>
      rs ← select_rows (fun r => sem w (k + holes a) (<[alias := r]> env)) (rows S t);
      ds ← mapM (fun r => sem a k (<[alias := r]> env)) rs;
      match ds with [] => Some DNull | d :: ds => best_datum f d ds end
  | SCount t alias w =>
      rs ← select_rows (fun r => sem w k (<[alias := r]> env)) (rows S t);
      Some (DInt (Z.of_nat (length rs)))
  | SDeclaredType tn en =>
      x ← sem tn k env;
      y ← sem en (k + holes tn) env;
      declared_datum x y
  | SSearches alias q =>
      r ← env !! alias;
      d ← sem q k env;
      match r, d with
      | SearchRow _ _ text, DText query => Some (DBool (ts_matches text query))
      | _, _ => None
      end
  | STermsCovered g t _ tn en ns =>
      dg ← sem g k env;
      dt ← sem t (k + holes g) env;
      dtn ← sem tn (k + holes g + holes t) env;
      den ← sem en (k + holes g + holes t + holes tn) env;
      dns ← sem ns (k + holes g + holes t + holes tn + holes en) env;
      terms_covered dg dt dtn den dns
  end.
End Semantics.

(** ** The search ([Search]) *)

Section Search.
Context `{GoUlid} `{Postgres}.

(** [typeDefPredicate] takes one type or an array of them; either selects the same
    rows of the summaries. *)
Definition base_args (tenant : TenantID) (rootTypes : list ID) : list Datum :=
  [DText tenant; match rootTypes with
                 | [i] => DText (ulid_String i)
                 | _ => DArray ((fun i => DText (ulid_String i)) <$> rootTypes)
                 end].

Definition summary_row (tenant : TenantID) (e : EntitySummary) : Row :=
  SummaryRow tenant (esTypeID e) (esEntityID e).

(** The entities of the base query for which the condition is true. *)
Fixpoint where_loop (S : Store) (A : list Datum) (tenant : TenantID) (q : Sql) (k : nat)
    (es : list EntitySummary) : option (list EntitySummary) :=
  match es with
  | [] => Some []
  | e :: es =>
      d ← sem S A q k {[ root_alias := summary_row tenant e ]};
      rest ← where_loop S A tenant q k es;
      match d with
      | DBool true => Some (e :: rest)
      | DBool false | DNull => Some rest
      | _ => None
      end
  end.

(** A row of [flexitype_entity_summary] as it is read back: its instant has the
    precision of the column. *)
Definition pg_row (e : EntitySummary) : EntitySummary :=
  mkSummary (esEntityID e) (esTypeID e) (ValueCount e) (1000 * pg_time (LastUpdatedAt e)).

(** [ORDER BY e.entity_id] and [ORDER BY e.last_updated_at DESC, e.entity_id] *)
Definition pg_by_entity (a b : EntitySummary) : bool := pg_text_leb (esEntityID a) (esEntityID b).

Definition pg_newest_first (a b : EntitySummary) : bool :=
  if LastUpdatedAt a =? LastUpdatedAt b then pg_by_entity a b else LastUpdatedAt b <? LastUpdatedAt a.

(** The first page: [ORDER BY], then [LIMIT]. *)
Definition sql_search (S : Store) (tenant : TenantID) (rootTypes : list ID) (node : BoundNode)
    (scope : Scope) (summaries : list EntitySummary) (page : Page) : option (list EntitySummary) :=
  match compile scope node root_ref (mkCompiler (base_args tenant rootTypes) 0) with
  | Err _ => None
  | Ok (q, c) =>
      es ← where_loop S (args c) tenant q (length (base_args tenant rootTypes)) summaries;
      Some (take (Z.to_nat (FetchLimit page))
              (sort_by (if pgStable page then pg_by_entity else pg_newest_first) (pg_row <$> es)))
  end.
End Search.
