(* ===== verification/QuerySqlFacts.v ===== *)
(** What the SQL of a bound query means: the statement is true of the entities of
    which the query is, with its arguments in the order of its placeholders. *)

From Stdlib Require Import ZArith QArith Lia String Ascii List SpecFloat.
From stdpp Require Import base tactics list gmap fin_maps strings option decidable.
From S2P Require Import Prelude GoText Values Ids Attribute Access TypeDef Relationship ValueWrite ValueWriteFacts Fql Pagination Query QueryFacts QueryProps QuerySql.

Open Scope Z_scope.
Open Scope go_scope.

(** ** [LIKE] on an escaped pattern *)

Definition like_char (c : ascii) (p s : string) : bool :=
  match s with String x s' => bool_decide (x = c) && like p s' | EmptyString => false end.

Lemma like_escaped c p s : like (String "\" (String c p)) s = like_char c p s.
Proof. by destruct s. Qed.

Lemma like_plain c p s : like_special c = false -> like (String c p) s = like_char c p s.
Proof.
  unfold like_special. rewrite bool_decide_eq_false, !list_elem_of_In. simpl. intros Hc.
  unfold like_char. cbn [like]. rewrite !bool_decide_eq_false_2 by naive_solver. by destruct s.
Qed.

Lemma like_literal n s : like (likeEscape n ++ "%") s = String.prefix n s.
Proof.
  revert s. induction n as [|c n IH]; intros s.
  - change (any_suffix str_IsZero s = String.prefix EmptyString s).
    assert (String.prefix EmptyString s = true) as -> by by destruct s.
    induction s as [|x s IHs]; [done|exact IHs].
  - assert (like (likeEscape (String c n) ++ "%") s = like_char c (likeEscape n ++ "%") s) as ->.
    { cbn [likeEscape]. destruct (like_special c) eqn:Es; [apply like_escaped|by apply like_plain]. }
    destruct s as [|x s]; [done|]. cbn [like_char String.prefix]. rewrite IH.
    case_bool_decide as Ex; destruct (ascii_dec c x); subst; done.
Qed.

Lemma any_suffix_ext f g s : (forall t, f t = g t) -> any_suffix f s = any_suffix g s.
Proof. intros E. induction s as [|c s IH]; cbn [any_suffix]; by rewrite E, ?IH. Qed.

Lemma like_contains n s : like (containsPattern n) s = str_Contains s n.
Proof.
  unfold containsPattern. cbn [like]. rewrite bool_decide_eq_true_2 by done.
  rewrite (any_suffix_ext _ (String.prefix n)) by apply like_literal. unfold str_Contains.
  induction s as [|c s IH].
  - destruct n; done.
  - cbn [any_suffix String.index]. destruct (String.prefix n (String c s)); [done|].
    simpl. rewrite IH. by destruct (String.index 0 n s).
Qed.

(** ** Columns against arguments *)

(** Whole numbers, as counts and lengths are compared. *)
Lemma op_ints `{Postgres} op a c : known_op op -> op_datum op (DInt a) (DInt c) = Some (DBool (relates_int op a c)).
Proof.
  unfold known_op. rewrite list_elem_of_In. simpl. unfold relates_int, op_holds, op_datum. cbn [is_null orb].
  intros [<-|[<-|[<-|[<-|[<-|[<-|[]]]]]]]; simpl; do 2 f_equal; rewrite <- ?(Z.compare_antisym a c);
    destruct (Z.compare_spec a c); symmetry; rewrite ?Z.eqb_eq, ?Z.eqb_neq, ?negb_true_iff, ?negb_false_iff,
      ?Z.ltb_lt, ?Z.ltb_ge, ?Z.leb_le, ?Z.leb_gt, ?Z.eqb_eq, ?Z.eqb_neq; lia.
Qed.

Section Comparisons.
Context `{Std : GoStd} `{Postgres}.
Context (Htime : forall k, pg_time (1000 * k) = k).

(** Instants a [timestamptz] keeps. *)
Definition whole_micros (v : Value) : Prop := timeVal v mod 1000 = 0.

(** The column of a value under its comparison. *)
Definition cell (dt : DataType) (v : Value) : Datum :=
  if bool_decide (dt = DataTypeDecimal) then DNumeric (decimal_of v)
  else columnsFromValue v (valueColumnName dt).

(** Types whose equality the database decides as the program does. *)
Definition plain_equality (dt : DataType) : bool :=
  negb (bool_decide (dt ∈ [DataTypeNone; DataTypeJSON; DataTypeMedia])).

Lemma micros_compare v w :
  whole_micros v -> whole_micros w -> (pg_time (timeVal v) ?= pg_time (timeVal w)) = (timeVal v ?= timeVal w).
Proof using Htime.
  unfold whole_micros. intros Hv Hw.
  assert (forall t, t mod 1000 = 0 -> exists k, t = 1000 * k) as Hd.
  { intros t Ht. exists (t / 1000). pose proof (Z.div_mod t 1000). lia. }
  destruct (Hd _ Hv) as [k ->], (Hd _ Hw) as [j ->]. rewrite !Htime.
  destruct (Z.compare_spec k j), (Z.compare_spec (1000 * k) (1000 * j)); lia || done.
Qed.

Lemma cmp_cell_arg dt v w :
  ordered dt v -> ordered dt w -> whole_micros v -> whole_micros w ->
  cmp_datum (cell dt v) (valueArg w) = Some (vcmp v w).
Proof using Htime.
  intros Hv Hw Mv Mw. pose proof Hv as (Dv & Ho & _ & Cv). pose proof Hw as (Dw & _ & _ & Cw).
  unfold cell, columnsFromValue, valueArg, vcmp. rewrite Dv, Dw.
  destruct dt; try discriminate; simpl; try done; try (by rewrite micros_compare).
  - unfold pg_float_cmp. by rewrite Cv, Cw.
  - by rewrite (ordered_decimal w).
  - unfold pg_float_cmp. by rewrite Cv, Cw.
Qed.

Lemma cmp_cells dt v w :
  ordered dt v -> ordered dt w -> whole_micros v -> whole_micros w ->
  cmp_datum (cell dt v) (cell dt w) = Some (vcmp v w).
Proof using Htime.
  intros Hv Hw Mv Mw. pose proof Hv as (Dv & Ho & _ & Cv). pose proof Hw as (Dw & _ & _ & Cw).
  unfold cell, columnsFromValue, vcmp. rewrite Dv, Dw.
  destruct dt; try discriminate; simpl; try done; try (by rewrite micros_compare).
  - unfold pg_float_cmp. by rewrite Cv, Cw.
  - unfold pg_float_cmp. by rewrite Cv, Cw.
Qed.

(** A value of a type as a row and a literal may hold it. *)
Definition portable_value (dt : DataType) (v : Value) : Prop :=
  typed_as dt v /\ comparable v /\ whole_micros v.

Lemma portable_ordered dt v : IsOrdered dt = true -> portable_value dt v -> ordered dt v /\ whole_micros v.
Proof using. intros Ho ([D W] & C & M). by split_and!. Qed.

Lemma cell_not_null dt v : dt <> DataTypeNone -> dataType v = dt -> is_null (cell dt v) = false.
Proof using. intros Hd Dv. unfold cell, columnsFromValue. rewrite Dv. by destruct dt. Qed.

Lemma arg_not_null v : is_null (valueArg v) = false.
Proof using. unfold valueArg. by destruct (dataType v). Qed.

Lemma eq_cell_arg dt v w :
  plain_equality dt = true -> portable_value dt v -> portable_value dt w ->
  eq_datum (cell dt v) (valueArg w) = Some (Equal v w).
Proof using Htime.
  intros Hp Hv Hw. destruct (IsOrdered dt) eqn:Ho.
  - destruct (portable_ordered dt v Ho Hv) as [Ov Mv], (portable_ordered dt w Ho Hw) as [Ow Mw].
    assert (eq_datum (cell dt v) (valueArg w) =
      Some (match vcmp v w with Eq => true | _ => false end)) as ->.
    { pose proof (cmp_cell_arg dt v w Ov Ow Mv Mw) as E. destruct Ov as (Dv & _), Ow as (Dw & _).
      revert E. unfold eq_datum, cell, columnsFromValue, valueArg. rewrite Dv, Dw.
      destruct dt; try discriminate; cbn -[Qcompare]; intros E; (by rewrite E) || (injection E as E; by rewrite E). }
    f_equal. apply eq_true_iff_eq. rewrite (Equal_vcmp dt) by done. by destruct (vcmp v w).
  - destruct Hv as ([Dv _] & _), Hw as ([Dw _] & _). unfold cell, columnsFromValue, valueArg, Equal.
    rewrite Dv, Dw, (bool_decide_eq_true_2 (dt = dt)) by done. by destruct dt.
Qed.

Lemma op_cell_arg dt op v w :
  known_op op -> plain_equality dt = true -> (ordering op = true -> IsOrdered dt = true) ->
  portable_value dt v -> portable_value dt w ->
  op_datum op (cell dt v) (valueArg w) = Some (DBool (relates op v w)).
Proof using Htime.
  intros Hk Hp Ho Hv Hw. unfold op_datum, relates, op_holds.
  rewrite arg_not_null, (cell_not_null dt v); [|by intros ->|by destruct Hv as [[Dv _] _]]. cbn [orb].
  rewrite (eq_cell_arg dt v w) by done. cbn [mbind option_bind].
  destruct (decide (op = CmpEq)) as [->|Ne]; [done|]. rewrite (bool_decide_eq_false_2 (op = CmpEq)) by done.
  destruct (decide (op = CmpNeq)) as [->|Nn]; [done|]. rewrite (bool_decide_eq_false_2 (op = CmpNeq)) by done.
  assert (ordering op = true) as Hord by by apply known_ordering.
  destruct (portable_ordered dt v (Ho Hord) Hv) as [Ov Mv], (portable_ordered dt w (Ho Hord) Hw) as [Ow Mw].
  rewrite (cmp_cell_arg dt) by done. cbn [mbind option_bind]. rewrite (ordered_sign dt) by done. f_equal. f_equal.
  apply bool_decide_eq_true in Hord. rewrite list_elem_of_In in Hord. simpl in Hord.
  destruct Hord as [<-|[<-|[<-|[<-|[]]]]]; by destruct (vcmp v w).
Qed.

Lemma eq_cells dt v w :
  IsOrdered dt = true -> portable_value dt v -> portable_value dt w ->
  cmp_datum (cell dt v) (cell dt w) = Some (vcmp v w) /\ (match vcmp v w with Eq => true | _ => false end) = Equal v w.
Proof using Htime.
  intros Ho Hv Hw. destruct (portable_ordered dt v Ho Hv) as [Ov Mv], (portable_ordered dt w Ho Hw) as [Ow Mw].
  split; [by apply cmp_cells|]. apply eq_true_iff_eq. rewrite (Equal_vcmp dt) by done. by destruct (vcmp v w).
Qed.

(** The least or greatest column is that of the value the program settles on. *)
Lemma best_cell dt func vs best r :
  IsOrdered dt = true -> func = FuncMin \/ func = FuncMax -> portable_value dt best ->
  Forall (fun v => portable_value dt (avValue v)) vs -> bestLoop func best vs = Ok r ->
  best_datum func (cell dt best) (List.map (fun v => cell dt (avValue v)) vs) = Some (cell dt r).
Proof using Htime.
  intros Ho Hf. revert best. induction vs as [|v vs IH]; intros best Hb Hvs; simpl; [by intros [= <-]|].
  apply Forall_cons_iff in Hvs as [Hv Hvs]. destruct (portable_ordered dt _ Ho Hv) as [Ov Mv].
  destruct (portable_ordered dt _ Ho Hb) as [Ob Mb].
  rewrite (Compare_vcmp dt) by done. cbn [res_bind]. rewrite (cmp_cells dt) by done. cbn [mbind option_bind].
  intros Hr. destruct Hf as [-> | ->], (vcmp (avValue v) best); simpl in *; by apply IH.
Qed.

(** [BETWEEN] *)
Lemma between_cell dt v lo hi :
  IsOrdered dt = true -> plain_equality dt = true -> portable_value dt v -> portable_value dt lo -> portable_value dt hi ->
  between_datum (cell dt v) (valueArg lo) (valueArg hi) = Some (DBool (between lo hi v)).
Proof using Std Htime.
  intros Ho Hp Hv Hl Hh. unfold between_datum.
  rewrite !(op_cell_arg dt) by (try done; by repeat constructor). done.
Qed.
End Comparisons.

(** A run of the compiler, step by step. *)
Ltac run_inv :=
  repeat (progress (res_inv; repeat match goal with x : (_ * compiler)%type |- _ => destruct x end;
    cbn beta iota in * |-)).

(** ** Placeholders *)

Section Shape.
Context `{GoUlid} `{Postgres}.
Context (scope : Scope).

(** The references of an entity take no argument. *)
Record closed_ref (e : entityRef) : Prop := {
  cr_tenant : holes (refTenant e) = 0%nat;
  cr_entity : holes (refEntity e) = 0%nat;
  cr_type : holes (refType e) = 0%nat;
  cr_link : forall q, refLink e = Some q -> holes q = 0%nat }.

(** The compiler appends one argument per placeholder of what it wrote. *)
Definition grows (c : compiler) (k : nat) (c' : compiler) : Prop :=
  (aliasNo c <= aliasNo c')%nat /\ exists new, args c' = args c ++ new /\ length new = k.

Lemma emits_none c : grows c 0 c.
Proof. split; [lia|]. exists []. by rewrite app_nil_r. Qed.

Lemma emits_trans c j c' k c'' : grows c j c' -> grows c' k c'' -> grows c (j + k) c''.
Proof.
  intros [L (n & E & Ln)] [L' (n' & E' & Ln')]. split; [lia|]. exists (n ++ n').
  rewrite E', E, <- app_assoc, length_app. split; [done|lia].
Qed.

Lemma grows_eq c j k c' : grows c j c' -> j = k -> grows c k c'.
Proof. by intros ? <-. Qed.

Lemma grows_arg d c : grows c 1 (arg d c).
Proof. split; [done|]. by exists [d]. Qed.

Lemma grows_alias p c : grows c 0 (next_alias p c).2.
Proof. split; [simpl; lia|]. exists []. by rewrite app_nil_r. Qed.

Lemma grows_args ds c : grows c (length ds) (fold_left (fun c d => arg d c) ds c).
Proof.
  revert c. induction ds as [|d ds IH]; intros c; [apply emits_none|].
  apply (emits_trans _ 1 (arg d c)); [apply grows_arg|apply IH].
Qed.

Definition holes_of (es : list Sql) : nat := list_sum (List.map holes es).

Lemma holes_app es es' : holes_of (es ++ es') = (holes_of es + holes_of es')%nat.
Proof. unfold holes_of. by rewrite map_app, list_sum_app. Qed.

Lemma valueScope_grows alias attr link e c conds c' :
  closed_ref e -> valueScope scope alias attr link e c = (conds, c') -> grows c (holes_of conds) c'.
Proof.
  intros [Ht He Hy Hl]. unfold valueScope.
  assert (holes (if link then default SNothing (refLink e) else refEntity e) = 0%nat) as Hent.
  { destruct link; [|done]. destruct (refLink e) as [q|] eqn:El; [by apply Hl|done]. }
  destruct link; [|destruct (localizable attr), (scopable attr)]; intros [= <- <-]; unfold holes_of; simpl in *;
    rewrite Ht, Hent; (split; [done|]); eexists; (split; [cbn [args arg]; rewrite <- ?app_assoc; reflexivity|done]).
Qed.

Lemma columnExpr_closed v dt : holes (columnExpr v dt) = 0%nat.
Proof. unfold columnExpr. by destruct (bool_decide _). Qed.

Lemma scoped_grows attr link e c conds c1 ds :
  closed_ref e -> valueScope scope (next_alias "v" c).1 attr link e (next_alias "v" c).2 = (conds, c1) ->
  grows c (holes_of conds + length ds) (fold_left (fun c d => arg d c) ds c1).
Proof.
  intros He Hv. apply valueScope_grows in Hv; [|done].
  apply (emits_trans c (holes_of conds) c1); [|apply grows_args]. apply (emits_trans _ 0 _ _ _ (grows_alias "v" c)), Hv.
Qed.

Lemma exists_value_grows attr link e c pred ds q c' :
  closed_ref e -> (forall v, holes_of (pred v) = length ds) ->
  exists_value scope attr link e c pred ds = (q, c') -> grows c (holes q) c'.
Proof.
  intros He Hp. unfold exists_value. cbn [next_alias].
  destruct (valueScope _ _ _ _ _ _) as [conds c1] eqn:E. intros [= <- <-].
  change (grows c (holes_of (conds ++ pred ("v"%string, S (aliasNo c)))) (fold_left (fun c d => arg d c) ds c1)).
  rewrite holes_app, Hp. by eapply scoped_grows.
Qed.

(** Comparisons of rows are conditions on rows. *)
Lemma compareNone_exists attr link op value e c :
  sqlOps op = Some op ->
  compileCompare scope attr link FuncNone op value e c =
  Ok (exists_value scope attr link e c (fun v => [SCmp op (columnExpr v (attrType attr)) SParam]) [valueArg value]).
Proof. intros E. unfold compileCompare, exists_value. rewrite E. cbn [next_alias]. by destruct (valueScope _ _ _ _ _ _). Qed.

Lemma compareLength_exists attr link op value e c :
  sqlOps op = Some op ->
  compileCompare scope attr link FuncLength op value e c =
  Ok (exists_value scope attr link e c (fun v => [SCmp op (SCharLength (SCol v value_text)) SParam]) [DInt (intVal value)]).
Proof. intros E. unfold compileCompare, exists_value. rewrite E. cbn [next_alias]. by destruct (valueScope _ _ _ _ _ _). Qed.

Lemma sqlOps_known op op' : sqlOps op = Some op' -> op' = op /\ known_op op.
Proof. unfold sqlOps. case_bool_decide; [by intros [= <-]|done]. Qed.

Lemma known_sqlOps op : known_op op -> sqlOps op = Some op.
Proof. intros Hk. unfold sqlOps. by rewrite bool_decide_eq_true_2. Qed.

Lemma compileCompare_grows attr link func op value e c q c' :
  closed_ref e -> compileCompare scope attr link func op value e c = Ok (q, c') -> grows c (holes q) c'.
Proof.
  intros He Hc. destruct (sqlOps op) as [op'|] eqn:Eo; [|unfold compileCompare in Hc; by rewrite Eo in Hc].
  destruct (sqlOps_known _ _ Eo) as [-> _].
  destruct func; [rewrite compareNone_exists in Hc by done| | | |rewrite compareLength_exists in Hc by done].
  1, 5: injection Hc as Hc; eapply (exists_value_grows _ _ _ _ _ _ _ _ He); [|exact Hc]; intros v;
    unfold holes_of; simpl; by rewrite ?columnExpr_closed.
  all: unfold compileCompare in Hc; rewrite Eo in Hc; cbn [next_alias] in Hc;
    destruct (valueScope _ _ _ _ _ _) as [conds c1] eqn:E; injection Hc as <- <-; cbn [holes];
    rewrite ?columnExpr_closed; by eapply (scoped_grows _ _ _ _ _ _ [_]).
Qed.

Lemma compileMatches_grows query names e c q c' :
  closed_ref e -> compileMatches query names e c = (q, c') -> grows c (holes q) c'.
Proof.
  intros [Ht He _ _]. unfold compileMatches. cbn [next_alias].
  destruct names as [ns|]; intros [= <- <-]; simpl; rewrite Ht, He; (split; [simpl; lia|]); eexists;
    (split; [cbn [args arg]; rewrite <- ?app_assoc; reflexivity|done]).
Qed.

(** The reference to the far end of a traversal. *)
Definition far_ref (direction : Direction) (rel : Alias) (e : entityRef) : entityRef :=
  mkRef (SCol rel tenant_id) (farExpr direction rel e) (counterpartType rel (farExpr direction rel e))
    (Some (SCol rel row_id)).

Lemma far_closed direction rel e : closed_ref e -> closed_ref (far_ref direction rel e).
Proof.
  intros [_ He _ _]. unfold far_ref. split; simpl; [done| | |by intros q [= <-]];
    destruct direction; simpl; by rewrite ?He.
Qed.

Lemma nearCond_closed direction rel e : closed_ref e -> holes (nearCond direction rel e) = 0%nat.
Proof. intros [_ He _ _]. destruct direction; simpl; by rewrite ?He. Qed.

Context (S : Store) (access : Access) `{GoStd}.

Lemma compileEach_grows e es :
  Forall (fun n => forall e c q c', closed_ref e -> compile scope n e c = Ok (q, c') -> grows c (holes q) c') es ->
  closed_ref e -> forall c qs c', compileEach (compile scope) e es c = Ok (qs, c') -> grows c (holes_of qs) c'.
Proof.
  intros Hes He. induction Hes as [|n es Hn _ IH]; intros c qs c' Hc; simpl in Hc.
  { injection Hc as <- <-. apply emits_none. }
  run_inv. eapply (emits_trans c (holes _) _ (holes_of _)); [by eapply Hn|by eapply IH].
Qed.

Lemma compile_grows n :
  well_bound S access n -> forall e c q c', closed_ref e -> compile scope n e c = Ok (q, c') -> grows c (holes q) c'.
Proof.
  intros Hn. pattern n. apply (well_bound_rect S access); [| | | |exact Hn]; clear n Hn.
  - intros op es _ IH e c q c' He Hc. cbn [compile] in Hc. run_inv.
    pose proof (compileEach_grows e es IH He _ _ _ ltac:(eassumption)) as Hg. by destruct op.
  - intros n _ IH e c q c' He Hc. cbn [compile] in Hc. run_inv. cbn [holes]. by eapply IH.
  - intros def d inner _ IH e c q c' He Hc. cbn [compile next_alias] in Hc. run_inv.
    match goal with E : compile _ inner _ _ = _ |- _ =>
      apply IH in E as Hg; [|by apply (far_closed d ("r"%string, Datatypes.S (aliasNo c)) e)] end.
    pose proof (far_closed d ("r"%string, Datatypes.S (aliasNo c)) e He) as [_ Hf _ _]. simpl in Hf.
    pose proof (nearCond_closed d ("r"%string, Datatypes.S (aliasNo c)) e He) as Hnear.
    simpl. rewrite (cr_tenant _ He), Hnear, Hf, Nat.add_0_r. destruct Hg as [La (new & Ea & Ln)].
    split; [simpl in La; lia|]. eexists (_ :: new). split; [rewrite Ea; cbn [args arg]; by rewrite <- app_assoc|].
    simpl. by rewrite Ln.
  - intros n Hn Hl e c q c' He Hc. destruct n as [| |attr link func op value|attr link vs|attr link lo hi|attr link
      |attr link kind value|ids negate|query names|]; try done; cbn [compile] in Hc; [| | | | |
        |injection Hc as Hc].
    + by eapply compileCompare_grows.
    + injection Hc as Hc. eapply exists_value_grows; [done| |exact Hc]. intros v. unfold any_of.
      destruct (bool_decide _); unfold holes_of; simpl; by rewrite columnExpr_closed.
    + injection Hc as Hc. eapply exists_value_grows; [done| |exact Hc]. intros v. unfold holes_of. simpl.
      by rewrite columnExpr_closed.
    + injection Hc as Hc. eapply exists_value_grows; [done| |exact Hc]. done.
    + injection Hc as Hc. unfold compileMatch in Hc.
      destruct kind; (eapply exists_value_grows; [done| |exact Hc]); done.
    + injection Hc as <- <-. apply (grows_eq _ 1); [apply grows_arg|].
      destruct negate; simpl; by rewrite (cr_type _ He).
    + by eapply compileMatches_grows.
Qed.

Lemma each_grows e es c qs c' :
  Forall (well_bound S access) es -> closed_ref e -> compileEach (compile scope) e es c = Ok (qs, c') ->
  grows c (holes_of qs) c'.
Proof.
  intros Hes He. apply compileEach_grows; [|done]. eapply list.Forall_impl; [exact Hes|]. intros n Hn ????. by apply compile_grows.
Qed.
End Shape.

(** ** Conditions on rows *)

Section Conditions.
Context (sem : Sql -> nat -> option Datum).

(** Conjuncts with their values, from the placeholder [k] on. *)
Fixpoint conj_values (k : nat) (es : list Sql) (bs : list bool) : Prop :=
  match es, bs with
  | [], [] => True
  | e :: es, b :: bs => sem e k = Some (DBool b) /\ conj_values (k + holes e) es bs
  | _, _ => False
  end.

Lemma conj_snoc k es bs e b :
  conj_values k es bs -> sem e (k + holes_of es) = Some (DBool b) -> conj_values k (es ++ [e]) (bs ++ [b]).
Proof.
  revert k bs. induction es as [|e' es IH]; intros k [|b' bs]; try done; cbn.
  - rewrite Nat.add_0_r. by intros _ ->.
  - intros [E Hc] Hs. split; [done|]. apply IH; [done|]. by rewrite <- Nat.add_assoc.
Qed.

Lemma sem_and_app k es bs rest :
  conj_values k es bs ->
  sem_and sem k (es ++ rest) =
    if forallb (fun b => b) bs then sem_and sem (k + holes_of es) rest else Some (DBool false).
Proof.
  revert k bs. induction es as [|e es IH]; intros k [|b bs]; try done; simpl.
  - intros _. by rewrite Nat.add_0_r.
  - intros [-> Hc]. cbn [mbind option_bind]. destruct b; [|done]. rewrite (IH _ _ Hc). unfold holes_of. simpl. by rewrite Nat.add_assoc.
Qed.
End Conditions.

(** The truth of a condition as a datum. *)
Definition dat (t : tri) : Datum :=
  match t with triTrue => DBool true | triFalse => DBool false | triUnknown => DNull end.

Lemma dat_of b : dat (triOf b) = DBool b.
Proof. by destruct b. Qed.

Lemma select_rows_true {X} (f : X -> Row) (p : Row -> option Datum) (t : X -> tri) xs :
  (forall x, x ∈ xs -> p (f x) = Some (dat (t x))) ->
  select_rows p (List.map f xs) = Some (List.map f (List.filter (fun x => bool_decide (t x = triTrue)) xs)).
Proof.
  induction xs as [|x xs IH]; intros Hp; [done|]. cbn [List.map select_rows List.filter].
  rewrite (Hp x) by left. cbn [mbind option_bind].
  assert (select_rows p (List.map f xs) = Some (List.map f (List.filter (fun x => bool_decide (t x = triTrue)) xs))) as ->
    by (apply IH; intros y Hy; apply Hp; by right).
  by destruct (t x).
Qed.

Lemma exists_length {X} (p : X -> bool) xs : negb (bool_decide (length (List.filter p xs) = 0%nat)) = existsb p xs.
Proof. induction xs as [|x xs IH]; [done|]. simpl. by destruct (p x). Qed.

Lemma triTrue_of b : bool_decide (triOf b = triTrue) = b.
Proof. by destruct b. Qed.

(** An [EXISTS] whose condition has a truth value on every row. *)
Lemma select_rows_bool {X} (f : X -> Row) (p : Row -> option Datum) (b : X -> bool) xs :
  (forall x, x ∈ xs -> p (f x) = Some (DBool (b x))) ->
  select_rows p (List.map f xs) = Some (List.map f (List.filter b xs)).
Proof.
  intros Hp. rewrite (select_rows_true f p (fun x => triOf (b x))).
  - do 2 f_equal. apply List.filter_ext. intros x. apply triTrue_of.
  - intros x Hx. rewrite Hp by done. by rewrite dat_of.
Qed.

Lemma mapM_map {X Y Z} (f : Y -> option Z) (g : X -> Y) (h : X -> Z) xs :
  (forall x, x ∈ xs -> f (g x) = Some (h x)) -> mapM f (List.map g xs) = Some (List.map h xs).
Proof.
  induction xs as [|x xs IH]; intros Hf; [done|]. cbn [List.map mapM]. rewrite (Hf x) by left. cbn [mbind option_bind].
  rewrite IH; [done|]. intros y Hy. apply Hf. by right.
Qed.

(** Queries the two stores answer alike: no equality of documents, no case folding and
    no full-text search, whose rules are the database's own, and instants to the
    microsecond. *)
Definition portable_literal (v : Value) : bool := negb (is_nan (floatVal v)) && (timeVal v mod 1000 =? 0).

Fixpoint portable (n : BoundNode) : bool :=
  match n with
  | BoundLogical _ es => forallb portable es
  | BoundNot e => portable e
  | BoundCompare attr _ func _ value =>
      match func with
      | FuncCount | FuncLength => true
      | _ => plain_equality (attrType attr) && portable_literal value
      end
  | BoundIn attr _ vs => plain_equality (attrType attr) && forallb portable_literal vs
  | BoundRange attr _ lo hi => plain_equality (attrType attr) && portable_literal lo && portable_literal hi
  | BoundStringMatch _ _ kind _ => match kind with MatchContains => true | _ => false end
  | BoundHas _ _ | BoundType _ _ => true
  | BoundMatches _ _ => false
  | BoundTraversal _ _ inner => portable inner
  end.

(** What the parser and the binder see to: no empty conjunction or disjunction, and
    attributes of a link only behind a traversal. *)
Fixpoint shaped (inside : bool) (n : BoundNode) : bool :=
  match n with
  | BoundLogical _ es => negb (bool_decide (length es = 0%nat)) && forallb (shaped inside) es
  | BoundNot e => shaped inside e
  | BoundCompare _ link _ _ _ | BoundIn _ link _ | BoundRange _ link _ _ | BoundHas _ link
  | BoundStringMatch _ link _ _ => inside || negb link
  | BoundType _ _ | BoundMatches _ _ => true
  | BoundTraversal _ _ inner => shaped true inner
  end.

(** Kleene's logic is that of SQL. *)
Section Kleene.
Context (sem : Sql -> nat -> option Datum).

Fixpoint conj_dats (k : nat) (es : list Sql) (ts : list tri) : Prop :=
  match es, ts with
  | [], [] => True
  | e :: es, t :: ts => sem e k = Some (dat t) /\ conj_dats (k + holes e) es ts
  | _, _ => False
  end.

Lemma sem_and_kleene k es ts : conj_dats k es ts -> sem_and sem k es = Some (dat (kleene OpAnd ts)).
Proof.
  revert k ts. induction es as [|e es IH]; intros k [|t ts]; try done. intros [E Hc]. specialize (IH _ _ Hc).
  cbn [sem_and]. rewrite E. cbn [mbind option_bind]. rewrite kleene_cons.
  destruct t; simpl; [done|exact IH|]. rewrite IH. by destruct (kleene OpAnd ts).
Qed.

Lemma sem_or_kleene k es ts : conj_dats k es ts -> sem_or sem k es = Some (dat (kleene OpOr ts)).
Proof.
  revert k ts. induction es as [|e es IH]; intros k [|t ts]; try done. intros [E Hc]. specialize (IH _ _ Hc).
  cbn [sem_or]. rewrite E. cbn [mbind option_bind]. rewrite kleene_cons.
  destruct t; simpl; [exact IH|done|]. rewrite IH. by destruct (kleene OpOr ts).
Qed.
End Kleene.

(** ** The meaning of the compiled statement *)

Lemma existsb_filter {X} (p q : X -> bool) xs : existsb (fun x => p x && q x) xs = existsb q (List.filter p xs).
Proof. induction xs as [|x xs IH]; [done|]. simpl. rewrite IH. by destruct (p x). Qed.

Section Meaning.
Context `{GoStd} `{GoUlid} `{GoQuery} `{Postgres}.
Context (Htime : forall k, pg_time (1000 * k) = k).
Context (Hulid : forall i j, ulid_String i = ulid_String j -> i = j).
Context (S : Store) (access : Access) (HS : readable_store S).
Context (A : list Datum) (scope : Scope).

(** Rows whose instants a [timestamptz] keeps. *)
Context (Hmicros : forall i r, vals (stTables S) !! i = Some r -> live r -> whole_micros (avValue r)).

Abbreviation Env := (gmap Alias Row).

(** Bindings that agree on the aliases made so far. *)
Definition agree (n : nat) (env env' : Env) : Prop := forall a : Alias, (a.2 <= n)%nat -> env !! a = env' !! a.

Lemma agree_refl (n : nat) (env : Env) : agree n env env.
Proof using. done. Qed.

Lemma agree_insert (n : nat) (env : Env) (p : string) (m : nat) (r : Row) : (n < m)%nat -> agree n env (<[(p, m) := r]> env).
Proof using. intros Hn a Ha. rewrite lookup_insert_ne; [done|]. intros <-. simpl in Ha. lia. Qed.

Lemma agree_trans (n m : nat) (env env' env'' : Env) : (n <= m)%nat -> agree n env env' -> agree m env' env'' -> agree n env env''.
Proof using. intros Hnm E1 E2 a Ha. rewrite E1 by done. apply E2. lia. Qed.

(** A term without placeholders denotes a datum wherever the aliases it mentions are. *)
Record denotes (n : nat) (env : Env) (q : Sql) (d : Datum) : Prop := {
  dn_closed : holes q = 0%nat;
  dn_sem : forall k env', agree n env env' -> sem S A q k env' = Some d }.

Lemma denotes_mono n m env env' q d : (n <= m)%nat -> agree n env env' -> denotes n env q d -> denotes m env' q d.
Proof using.
  intros Hnm Ha [Hc Hs]. split; [done|]. intros k env'' Ha'. apply Hs. by apply (agree_trans n m env env').
Qed.

(** The reference of a scope. *)
Record ref_denotes (n : nat) (env : Env) (e : entityRef) (s : evalScope) : Prop := {
  rd_tenant : denotes n env (refTenant e) (DText (evTenant s));
  rd_entity : denotes n env (refEntity e) (DText (evEntity s));
  rd_type : denotes n env (refType e) (DText (ulid_String (evType s)));
  rd_link : forall q, refLink e = Some q -> denotes n env q (DText (evLink s));
  rd_query : evQuery s = scope }.

Lemma ref_closed n env e s : ref_denotes n env e s -> closed_ref e.
Proof using. intros [[Ht _] [He _] [Hy _] Hl _]. split; try done. intros q Hq. by apply Hl in Hq as [Hc _]. Qed.

Lemma ref_mono n m env env' e s : (n <= m)%nat -> agree n env env' -> ref_denotes n env e s -> ref_denotes m env' e s.
Proof using.
  intros Hnm Ha [Ht He Hy Hl Hq]. split; [by eapply denotes_mono..| |done].
  intros q Hq'. eapply denotes_mono; [done|done|by apply Hl].
Qed.

(** The arguments of a compiler stand where its placeholders are read. *)
Definition holds_args (c : compiler) : Prop := args c `prefix_of` A.

Lemma holds_back c k c' : grows c k c' -> holds_args c' -> holds_args c.
Proof using. intros [_ (new & E & _)] HA. unfold holds_args in *. rewrite E in HA. by eapply prefix_app_l. Qed.

Lemma holds_arg c d : holds_args (arg d c) -> A !! length (args c) = Some d.
Proof using.
  unfold holds_args. cbn [args arg]. intros [rest ->]. rewrite <- app_assoc. rewrite lookup_app_r by lia. by rewrite Nat.sub_diag.
Qed.

Lemma grows_length c k c' : grows c k c' -> length (args c') = (length (args c) + k)%nat.
Proof using. intros [_ (new & -> & <-)]. by rewrite length_app. Qed.

Lemma sem_col (k : nat) (env : Env) (a : Alias) (r : Row) (col : Column) : env !! a = Some r -> sem S A (SCol a col) k env = column r col.
Proof using. intros E. simpl. by rewrite E. Qed.

Lemma sem_eq_col (k : nat) (env : Env) (a : Alias) (r : Row) (col : Column) (q : Sql) (x y : string) :
  env !! a = Some r -> column r col = Some (DText x) -> sem S A q k env = Some (DText y) ->
  sem S A (SCmp CmpEq (SCol a col) q) k env = Some (DBool (bool_decide (x = y))).
Proof using. intros Er Ec Eq. cbn [sem holes]. rewrite Er. cbn [mbind option_bind]. by rewrite Ec, Nat.add_0_r, Eq. Qed.

Lemma sem_denoted (n : nat) (env : Env) (q : Sql) (d : Datum) (k : nat) : denotes n env q d -> sem S A q k env = Some d.
Proof using. intros [_ Hs]. by apply Hs. Qed.

(** The conditions every scope has. *)
Definition base_conds (alias : Alias) (tenant entity : Sql) : list Sql :=
  [SCmp CmpEq (SCol alias tenant_id) tenant; SCmp CmpEq (SCol alias entity_id) entity;
   SCmp CmpEq (SCol alias attribute_definition_id) SParam; SIsNull (SCol alias archived_at)].

Definition base_values (attr : AttrDefinition) (tenant entity : string) (v : AttributeValue) : list bool :=
  [bool_decide (avTenantID v = tenant); bool_decide (avEntityID v = entity); bool_decide (avAttrID v = id attr);
   negb (AvIsArchived v)].

Lemma base_conj (n k : nat) (env : Env) (alias : Alias) (v : AttributeValue) (attr : AttrDefinition)
    (qt qe : Sql) (t e : string) :
  env !! alias = Some (ValueRow v) -> denotes n env qt (DText t) -> denotes n env qe (DText e) ->
  A !! k = Some (DText (ulid_String (id attr))) ->
  conj_values (fun q j => sem S A q j env) k (base_conds alias qt qe) (base_values attr t e v).
Proof using Hulid.
  intros Ev Ht He HA. cbn [conj_values base_conds base_values holes]. rewrite (dn_closed _ _ _ _ Ht), (dn_closed _ _ _ _ He).
  rewrite !Nat.add_0_r. split_and!; [| | | |done].
  - eapply sem_eq_col; [done|done|by eapply sem_denoted].
  - eapply sem_eq_col; [done|done|by eapply sem_denoted].
  - rewrite (sem_eq_col k env alias (ValueRow v) attribute_definition_id SParam (ulid_String (avAttrID v)) _ Ev eq_refl HA). do 2 f_equal. apply bool_decide_ext. split; [apply Hulid|by intros ->].
  - cbn [sem]. rewrite Ev. cbn. unfold AvIsArchived. by destruct (avArchivedAt v).
Qed.

(** One more condition on a text column. *)
Lemma conj_arg (c c1 : compiler) (env : Env) (alias : Alias) (v : AttributeValue) (es : list Sql) (bs : list bool)
    (col : Column) (x d : string) :
  grows c (holes_of es) c1 -> holds_args (arg (DText d) c1) -> env !! alias = Some (ValueRow v) ->
  column (ValueRow v) col = Some (DText x) ->
  conj_values (fun q j => sem S A q j env) (length (args c)) es bs ->
  conj_values (fun q j => sem S A q j env) (length (args c)) (es ++ [SCmp CmpEq (SCol alias col) SParam])
    (bs ++ [bool_decide (x = d)]).
Proof using.
  intros Hg HA Ev Hx Hb. apply conj_snoc; [done|]. rewrite <- (grows_length _ _ _ Hg).
  eapply sem_eq_col; [done|done|by apply holds_arg].
Qed.

Lemma holds_arg_back c d : holds_args (arg d c) -> holds_args c.
Proof using. apply (holds_back c 1), grows_arg. Qed.

(** The conditions on the rows of an attribute select the rows it concerns. *)
Lemma valueScope_sem (alias : Alias) (attr : AttrDefinition) (link : bool) (e : entityRef) (c : compiler) (conds : list Sql)
    (c' : compiler) (env : Env) (s : evalScope) (v : AttributeValue) (rest : list Sql) :
  valueScope scope alias attr link e c = (conds, c') -> holds_args c' ->
  ref_denotes (aliasNo c) env e s -> (link = true -> is_Some (refLink e)) -> env !! alias = Some (ValueRow v) ->
  sem_and (fun e j => sem S A e j env) (length (args c)) (conds ++ rest) =
    if bool_decide (concerns attr link s v) then sem_and (fun e j => sem S A e j env) (length (args c')) rest
    else Some (DBool false).
Proof using Hulid.
  intros Hv HA Hr Hl Ev. pose proof (ref_closed _ _ _ _ Hr) as Hc. pose proof (valueScope_grows _ _ _ _ _ _ _ _ Hc Hv) as Hg.
  rewrite (grows_length _ _ _ Hg), <- in_scope_concerns. destruct Hr as [Ht He _ Hlk <-].
  enough (exists bs, conj_values (fun q j => sem S A q j env) (length (args c)) conds bs /\
    forallb (fun b => b) bs = in_scope attr link s v) as (bs & Hbs & <-) by by apply sem_and_app.
  unfold valueScope in Hv. destruct link.
  { destruct (Hl eq_refl) as [ql Eql]. rewrite Eql in Hv. simpl in Hv. injection Hv as <- <-.
    exists (base_values attr (evTenant s) (evLink s) v). split.
    - eapply base_conj; [done|done|by apply Hlk|by apply holds_arg].
    - unfold base_values, in_scope. cbn [forallb]. by rewrite !andb_assoc, orb_true_l. }
  set (c0 := arg (DText (ulid_String (id attr))) c) in *. set (base := base_conds alias (refTenant e) (refEntity e)).
  set (bs0 := base_values attr (evTenant s) (evEntity s) v).
  assert (holds_args c0 -> conj_values (fun q j => sem S A q j env) (length (args c)) base bs0) as Hb.
  { intros HA'. eapply base_conj; [done|done|done|by apply holds_arg]. }
  assert (grows c (holes_of base) c0) as Hg0.
  { apply (grows_eq _ 1); [apply grows_arg|]. unfold holes_of. simpl. by rewrite (cr_tenant _ Hc), (cr_entity _ Hc). }
  pose (ql := bool_decide (Locale (avScope v) = Locale (evQuery s))).
  pose (qc := bool_decide (Channel (avScope v) = Channel (evQuery s))).
  pose (el := SCmp CmpEq (SCol alias locale) SParam). 
  unfold in_scope. destruct (localizable attr), (scopable attr); simpl in Hv; injection Hv as <- <-.
  - exists ((bs0 ++ [ql]) ++ [qc]). split; [|by unfold bs0, base_values; cbn [forallb app negb orb andb]; rewrite ?andb_true_r, ?andb_assoc].
    pose proof (holds_arg_back _ _ HA) as HA1.
    apply (conj_arg c (arg (DText (Locale (evQuery s))) c0) env alias v (base ++ [el]) (bs0 ++ [ql]) channel); [|done|done|done|].
    + rewrite holes_app. eapply emits_trans; [exact Hg0|apply grows_arg].
    + apply (conj_arg c c0 env alias v base bs0 locale); try done. apply Hb, (holds_arg_back _ _ HA1).
  - exists (bs0 ++ [ql]). split; [|by unfold bs0, base_values; cbn [forallb app negb orb andb]; rewrite ?andb_true_r, ?andb_assoc].
    apply (conj_arg c c0 env alias v base bs0 locale); try done. apply Hb, (holds_arg_back _ _ HA).
  - exists (bs0 ++ [qc]). split; [|by unfold bs0, base_values; cbn [forallb app negb orb andb]; rewrite ?andb_true_r, ?andb_assoc].
    apply (conj_arg c c0 env alias v base bs0 channel); try done. apply Hb, (holds_arg_back _ _ HA).
  - exists bs0. split; [by apply Hb|]. unfold bs0, base_values. cbn [forallb negb orb andb]. by rewrite ?andb_true_r, ?andb_assoc.
Qed.

Lemma holds_args_all c ds i d :
  holds_args (fold_left (fun c d => arg d c) ds c) -> ds !! i = Some d -> A !! (length (args c) + i)%nat = Some d.
Proof using.
  intros HA Hi. destruct HA as [rest E].
  assert (args (fold_left (fun c d => arg d c) ds c) = args c ++ ds) as Ea.
  { clear. revert c. induction ds as [|x ds IH]; intros c; simpl; [by rewrite app_nil_r|]. rewrite IH. simpl. by rewrite <- app_assoc. }
  rewrite E, Ea, <- app_assoc, lookup_app_r by lia. rewrite Nat.add_comm, Nat.add_sub.
  apply lookup_app_l_Some. done.
Qed.

(** Below a new alias bound to a row, references denote what they did. *)
Lemma ref_fresh (p : string) (c : compiler) (env : Env) (e : entityRef) (s : evalScope) (r : Row) :
  ref_denotes (aliasNo c) env e s ->
  ref_denotes (aliasNo (next_alias p c).2) (<[(next_alias p c).1 := r]> env) e s.
Proof using.
  intros Hr. apply (ref_mono (aliasNo c) _ env); [simpl; lia| |done].
  apply (agree_insert _ _ p (Datatypes.S (aliasNo c))). lia.
Qed.

Lemma sem_SAnd (es : list Sql) (k : nat) (env : Env) :
  es <> [] -> sem S A (SAnd es) k env = sem_and (fun e j => sem S A e j env) k es.
Proof using. intros Hes. cbn [sem]. rewrite bool_decide_eq_false_2; [done|]. by destruct es. Qed.

Lemma valueScope_nonempty alias attr link e c : (valueScope scope alias attr link e c).1 <> [].
Proof using. unfold valueScope. by destruct link, (localizable attr), (scopable attr). Qed.

(** The rows of the attribute that pass the conditions and [p]. *)
Lemma scoped_rows (attr : AttrDefinition) (link : bool) (e : entityRef) (c : compiler) (conds pred : list Sql)
    (c' : compiler) (env : Env) (s : evalScope) (p : AttributeValue -> bool) :
  valueScope scope (next_alias "v" c).1 attr link e (next_alias "v" c).2 = (conds, c') -> holds_args c' ->
  ref_denotes (aliasNo c) env e s -> (link = true -> is_Some (refLink e)) ->
  (forall v (env' : Env), v ∈ selected S attr link s -> env' !! (next_alias "v" c).1 = Some (ValueRow v) ->
    sem_and (fun e j => sem S A e j env') (length (args c')) pred = Some (DBool (p v))) ->
  select_rows (fun r => sem S A (SAnd (conds ++ pred)) (length (args c)) (<[(next_alias "v" c).1 := r]> env))
    (rows S attribute_value) = Some (List.map ValueRow (List.filter p (selected S attr link s))).
Proof using Hulid.
  intros Hv HA Hr Hl Hp. change (rows S attribute_value) with (List.map ValueRow (values (vals (stTables S)))).
  rewrite (select_rows_bool ValueRow _ (fun v => bool_decide (concerns attr link s v) && p v)).
  - unfold selected. by rewrite filter_filter.
  - intros v Hin. rewrite sem_SAnd.
    2: { pose proof (valueScope_nonempty (next_alias "v" c).1 attr link e (next_alias "v" c).2) as Hne.
         rewrite Hv in Hne. simpl in Hne. by destruct conds. }
    change (args c) with (args (next_alias "v" c).2).
    rewrite (valueScope_sem _ _ _ _ _ _ _ _ s v _ Hv HA); [|by apply ref_fresh|done|by rewrite lookup_insert_eq].
    case_bool_decide as Hc; [|done]. simpl. apply Hp; [|by rewrite lookup_insert_eq].
    unfold selected. rewrite elem_of_filter_b. split; [done|]. by apply bool_decide_eq_true.
Qed.

Lemma sem_SExists (t : Table) (a : Alias) (w : Sql) (k : nat) (env : Env) :
  sem S A (SExists t a w) k env =
    rs ← select_rows (fun r => sem S A w k (<[a := r]> env)) (rows S t);
    Some (DBool (negb (bool_decide (length rs = 0%nat)))).
Proof using. done. Qed.

Lemma sem_SNot (q : Sql) (k : nat) (env : Env) : sem S A (SNot q) k env = d ← sem S A q k env; not_datum d.
Proof using. done. Qed.

Lemma sem_SCount (t : Table) (a : Alias) (w : Sql) (k : nat) (env : Env) :
  sem S A (SCount t a w) k env =
    rs ← select_rows (fun r => sem S A w k (<[a := r]> env)) (rows S t);
    Some (DInt (Z.of_nat (length rs))).
Proof using. done. Qed.

Lemma sem_SAggregate (f : AggFunc) (x : Sql) (t : Table) (a : Alias) (w : Sql) (k : nat) (env : Env) :
  sem S A (SAggregate f x t a w) k env =
    rs ← select_rows (fun r => sem S A w (k + holes x) (<[a := r]> env)) (rows S t);
    ds ← mapM (fun r => sem S A x k (<[a := r]> env)) rs;
    match ds with [] => Some DNull | d :: ds => best_datum f d ds end.
Proof using. done. Qed.

Lemma sem_SCmp (op : CompareOp) (x y : Sql) (k : nat) (env : Env) :
  sem S A (SCmp op x y) k env =
    d ← sem S A x k env; d' ← sem S A y (k + holes x) env; op_datum op d d'.
Proof using. done. Qed.

Lemma exists_value_sem (attr : AttrDefinition) (link : bool) (e : entityRef) (c : compiler) (pred : Alias -> list Sql)
    (ds : list Datum) (q : Sql) (c' : compiler) (env : Env) (s : evalScope) (p : AttributeValue -> bool) :
  exists_value scope attr link e c pred ds = (q, c') -> holds_args c' ->
  ref_denotes (aliasNo c) env e s -> (link = true -> is_Some (refLink e)) ->
  (forall a v (k : nat) (env' : Env), v ∈ selected S attr link s -> env' !! a = Some (ValueRow v) ->
    (forall i d, ds !! i = Some d -> A !! (k + i)%nat = Some d) ->
    sem_and (fun e j => sem S A e j env') k (pred a) = Some (DBool (p v))) ->
  sem S A q (length (args c)) env = Some (DBool (existsb p (selected S attr link s))).
Proof using Hulid.
  intros Hq HA Hr Hl Hp. unfold exists_value in Hq. cbn [next_alias] in Hq.
  destruct (valueScope _ _ _ _ _ _) as [conds c1] eqn:Hv. injection Hq as <- <-. rewrite sem_SExists.
  change ("v"%string, Datatypes.S (aliasNo c)) with (next_alias "v" c).1.
  assert (holds_args c1) as HA1 by (eapply holds_back; [apply grows_args|exact HA]).
  rewrite (scoped_rows attr link e c conds (pred (next_alias "v" c).1) c1 env s p Hv HA1 Hr Hl).
  - cbn [mbind option_bind]. by rewrite length_map, exists_length.
  - intros v env' Hin Ev. apply Hp; [done|done|]. intros i d Hd. by eapply holds_args_all.
Qed.

(** *** Conditions on a value *)

Lemma selected_portable attr link s v :
  known_attr S access attr -> v ∈ selected S attr link s -> portable_value (attrType attr) (avValue v).
Proof using HS Hmicros.
  intros Ha Hv. destruct (selected_typed S access HS attr link s v Ha Hv) as [D W].
  destruct (selected_row S attr link s v Hv) as ((i & Hi) & Hl & _).
  split_and!; [done|by apply (rs_nan _ HS i)|by apply (Hmicros i)].
Qed.

Lemma sem_columnExpr (a : Alias) (dt : DataType) (v : AttributeValue) (k : nat) (env : Env) :
  env !! a = Some (ValueRow v) -> typed_as dt (avValue v) ->
  sem S A (columnExpr a dt) k env = Some (cell dt (avValue v)).
Proof using.
  intros Ea [D W]. unfold columnExpr, cell. case_bool_decide as Hd; cbn [sem]; rewrite Ea; cbn.
  - subst dt. unfold wf_value in W. unfold columnsFromValue, decimal_of. rewrite Hd in *.
    destruct W as (_ & _ & q & Hq). cbn. by rewrite Hq.
  - by destruct dt.
Qed.

Lemma sem_text (a : Alias) (dt : DataType) (v : AttributeValue) (k : nat) (env : Env) :
  env !! a = Some (ValueRow v) -> typed_as dt (avValue v) -> IsTextual dt = true ->
  sem S A (SCol a value_text) k env = Some (DText (textVal (avValue v))).
Proof using.
  intros Ea [D _] Ht. cbn [sem]. rewrite Ea. cbn. unfold columnsFromValue. rewrite D. by destruct dt.
Qed.

Lemma sem_and_one (k : nat) (q : Sql) (env : Env) b :
  sem S A q k env = Some (DBool b) -> sem_and (fun e j => sem S A e j env) k [q] = Some (DBool b).
Proof using. intros E. cbn [sem_and]. rewrite E. by destruct b. Qed.

(** The first argument of a condition. *)
Lemma first_arg (ds : list Datum) (d : Datum) (k : nat) : (forall i d, ds !! i = Some d -> A !! (k + i)%nat = Some d) -> ds !! 0%nat = Some d -> A !! k = Some d.
Proof using. intros HA Hd. specialize (HA _ _ Hd). by rewrite Nat.add_0_r in HA. Qed.

Section Leaves.
Context (attr : AttrDefinition) (link : bool) (e : entityRef) (c c' : compiler) (env : Env) (s : evalScope) (q : Sql).
Context (Ha : known_attr S access attr) (HA : holds_args c') (Hr : ref_denotes (aliasNo c) env e s).
Context (Hl : link = true -> is_Some (refLink e)).

Lemma compare_sem op value :
  known_op op -> plain_equality (attrType attr) = true -> (ordering op = true -> IsOrdered (attrType attr) = true) ->
  portable_value (attrType attr) value ->
  compileCompare scope attr link FuncNone op value e c = Ok (q, c') ->
  sem S A q (length (args c)) env = Some (DBool (existsb (fun v => relates op (avValue v) value) (selected S attr link s))).
Proof using Htime Hulid HS Hmicros Ha HA Hr Hl.
  intros Hk Hp Ho Hval Hc. rewrite compareNone_exists in Hc by by apply known_sqlOps. injection Hc as Hc.
  eapply exists_value_sem; [exact Hc|done|done|done|]. intros a v k env' Hv Ea Hds. apply sem_and_one.
  pose proof (selected_portable attr link s v Ha Hv) as Hpv. cbn [sem].
  rewrite (sem_columnExpr a _ v) by (done || apply Hpv). cbn [mbind option_bind]. rewrite columnExpr_closed, Nat.add_0_r.
  rewrite (first_arg _ _ k Hds eq_refl). cbn [mbind option_bind]. by apply (op_cell_arg Htime (attrType attr)).
Qed.

Lemma length_sem op n :
  known_op op -> IsTextual (attrType attr) = true ->
  compileCompare scope attr link FuncLength op (NewIntegerValue n) e c = Ok (q, c') ->
  sem S A q (length (args c)) env =
    Some (DBool (existsb (fun v => relates_int op (Length (avValue v)) n) (selected S attr link s))).
Proof using Htime Hulid HS Hmicros Ha HA Hr Hl.
  intros Hk Ht Hc. rewrite compareLength_exists in Hc by by apply known_sqlOps. injection Hc as Hc.
  eapply exists_value_sem; [exact Hc|done|done|done|]. intros a v k env' Hv Ea Hds. apply sem_and_one.
  pose proof (selected_portable attr link s v Ha Hv) as Hpv. cbn [sem holes].
  rewrite Ea. cbn [mbind option_bind]. assert (column (ValueRow v) value_text = Some (DText (textVal (avValue v)))) as ->.
  { pose proof (sem_text a (attrType attr) v 0 env' Ea (proj1 Hpv) Ht) as E. cbn [sem] in E. by rewrite Ea in E. }
  cbn [mbind option_bind]. rewrite Nat.add_0_r, (first_arg _ _ k Hds eq_refl). cbn [mbind option_bind]. by apply op_ints.
Qed.

Lemma range_sem lo hi :
  IsOrdered (attrType attr) = true -> plain_equality (attrType attr) = true ->
  portable_value (attrType attr) lo -> portable_value (attrType attr) hi ->
  exists_value scope attr link e c (fun v => [SBetween (columnExpr v (attrType attr)) SParam SParam])
    [valueArg lo; valueArg hi] = (q, c') ->
  sem S A q (length (args c)) env = Some (DBool (existsb (fun v => between lo hi (avValue v)) (selected S attr link s))).
Proof using Htime Hulid HS Hmicros Ha HA Hr Hl.
  intros Ho Hp Hlo Hhi Hc. eapply exists_value_sem; [exact Hc|done|done|done|]. intros a v k env' Hv Ea Hds.
  apply sem_and_one. pose proof (selected_portable attr link s v Ha Hv) as Hpv. cbn [sem holes].
  rewrite (sem_columnExpr a _ v) by (done || apply Hpv). cbn [mbind option_bind]. rewrite columnExpr_closed, Nat.add_0_r.
  rewrite (first_arg _ _ k Hds eq_refl). cbn [mbind option_bind]. rewrite (Hds 1%nat _ eq_refl). cbn [mbind option_bind].
  by apply (between_cell Htime (attrType attr)).
Qed.

Lemma has_sem :
  exists_value scope attr link e c (fun _ => []) [] = (q, c') ->
  sem S A q (length (args c)) env = Some (DBool (negb (bool_decide (selected S attr link s = [])))).
Proof using Hulid HA Hr Hl.
  intros Hc. rewrite (exists_value_sem attr link e c _ _ q c' env s (fun _ => true) Hc HA Hr Hl) by done.
  do 2 f_equal. by destruct (selected S attr link s).
Qed.

Lemma contains_sem value :
  IsTextual (attrType attr) = true -> compileMatch scope attr link MatchContains value e c = (q, c') ->
  sem S A q (length (args c)) env =
    Some (DBool (existsb (fun v => str_Contains (textVal (avValue v)) value) (selected S attr link s))).
Proof using Hulid HS Hmicros Ha HA Hr Hl.
  intros Ht Hc. eapply exists_value_sem; [exact Hc|done|done|done|]. intros a v k env' Hv Ea Hds.
  apply sem_and_one. pose proof (selected_portable attr link s v Ha Hv) as Hpv. cbn [sem holes].
  pose proof (sem_text a (attrType attr) v k env' Ea (proj1 Hpv) Ht) as E. cbn [sem] in E. rewrite E.
  cbn [mbind option_bind]. rewrite Nat.add_0_r, (first_arg _ _ k Hds eq_refl). cbn [mbind option_bind].
  by rewrite like_contains.
Qed.

Lemma member_of_existsb {X} (d : Datum) (g : X -> Datum) (p : X -> bool) xs :
  (forall x, x ∈ xs -> eq_datum d (g x) = Some (p x)) -> member_of d (List.map g xs) = Some (existsb p xs).
Proof using.
  induction xs as [|x xs IH]; intros Hp; [done|].
  change (member_of d (List.map g (x :: xs))) with
    (b ← eq_datum d (g x); r ← member_of d (List.map g xs); Some (b || r)).
  rewrite (Hp x) by left. rewrite IH; [done|]. intros y Hy. apply Hp. by right.
Qed.

Lemma numeric_args vs :
  Forall (typed_as DataTypeDecimal) vs ->
  mapM numeric_of (List.map valueArg vs) = Some (List.map (cell DataTypeDecimal) vs).
Proof using.
  induction 1 as [|v vs [D W] _ IH]; [done|]. cbn [List.map mapM].
  assert (numeric_of (valueArg v) = Some (cell DataTypeDecimal v)) as ->; [|cbn [mbind option_bind]; by rewrite IH].
  unfold wf_value in W. rewrite D in W. destruct W as (_ & _ & p & Hp). unfold cell, decimal_of, valueArg.
  rewrite bool_decide_eq_true_2, D, Hp by done. cbn [numeric_of]. by rewrite Hp.
Qed.

Lemma in_sem vs :
  plain_equality (attrType attr) = true -> Forall (portable_value (attrType attr)) vs ->
  exists_value scope attr link e c (fun v => [any_of (attrType attr) (columnExpr v (attrType attr))])
    [DArray (valueArg <$> vs)] = (q, c') ->
  sem S A q (length (args c)) env =
    Some (DBool (existsb (fun v => existsb (Equal (avValue v)) vs) (selected S attr link s))).
Proof using Htime Hulid HS Hmicros Ha HA Hr Hl.
  intros Hp Hvs Hc. eapply exists_value_sem; [exact Hc|done|done|done|]. intros a v k env' Hv Ea Hds.
  apply sem_and_one. pose proof (selected_portable attr link s v Ha Hv) as Hpv. rewrite list.Forall_forall in Hvs.
  pose proof (cell_not_null (attrType attr) (avValue v)) as Hn.
  assert (any_datum (cell (attrType attr) (avValue v)) (List.map valueArg vs) = Some (DBool (existsb (Equal (avValue v)) vs)))
    as Hplain.
  { unfold any_datum. rewrite Hn; [|by intros E; rewrite E in Hp|apply Hpv].
    rewrite (member_of_existsb _ _ (Equal (avValue v))); [done|]. intros w Hw.
    apply (eq_cell_arg Htime (attrType attr)); auto. }
  unfold any_of. case_bool_decide as Hd; cbn [sem]; rewrite (sem_columnExpr a _ v) by (done || apply Hpv);
    cbn [mbind option_bind]; rewrite columnExpr_closed, Nat.add_0_r, (first_arg _ _ k Hds eq_refl); cbn [mbind option_bind];
    [|exact Hplain].
  change (valueArg <$> vs) with (List.map valueArg vs). rewrite numeric_args.
  2: { rewrite list.Forall_forall. intros w Hw. rewrite <- Hd. by apply Hvs. }
  cbn [mbind option_bind]. unfold any_datum. rewrite Hn; [|by rewrite Hd|apply Hpv].
  rewrite (member_of_existsb _ _ (Equal (avValue v))); [done|]. intros w Hw. rewrite <- Hd.
  assert (IsOrdered (attrType attr) = true) as Ho by by rewrite Hd.
  destruct (eq_cells Htime (attrType attr) (avValue v) w Ho Hpv (Hvs w Hw)) as [E <-].
  assert (forall x, cell (attrType attr) x = DNumeric (decimal_of x)) as Hnum by (intros; by rewrite Hd).
  rewrite !Hnum in E |- *. unfold eq_datum. by rewrite E.
Qed.

(** *** Counts and extrema *)

Lemma count_sem op n :
  known_op op -> compileCompare scope attr link FuncCount op (NewIntegerValue n) e c = Ok (q, c') ->
  sem S A q (length (args c)) env =
    Some (DBool (relates_int op (Z.of_nat (length (selected S attr link s))) n)).
Proof using Hulid HA Hr Hl.
  intros Hk Hc. unfold compileCompare in Hc. rewrite known_sqlOps in Hc by done. cbn [next_alias] in Hc.
  destruct (valueScope _ _ _ _ _ _) as [conds c1] eqn:Hv. injection Hc as <- <-.
  pose proof (holds_arg_back _ _ HA) as HA1. pose proof (scoped_grows scope attr link e c conds c1 [] (ref_closed _ _ _ _ Hr) Hv) as Hg.
  pose proof (scoped_rows attr link e c conds [] c1 env s (fun _ => true) Hv HA1 Hr Hl ltac:(done)) as E.
  rewrite app_nil_r in E. rewrite filter_all in E by done. rewrite sem_SCmp, sem_SCount.
  change ("v"%string, Datatypes.S (aliasNo c)) with (next_alias "v" c).1. rewrite E. cbn [mbind option_bind].
  rewrite length_map. cbn [sem holes]. change (list_sum (List.map holes conds)) with (holes_of conds).
  rewrite Nat.add_0_r in Hg. rewrite <- (grows_length _ _ _ Hg). cbn [fold_left].
  rewrite (holds_arg c1 _ HA). cbn [mbind option_bind]. by apply op_ints.
Qed.

Lemma extremal_sem func op value :
  func = FuncMin \/ func = FuncMax -> known_op op -> IsOrdered (attrType attr) = true ->
  portable_value (attrType attr) value -> compileCompare scope attr link func op value e c = Ok (q, c') ->
  sem S A q (length (args c)) env = Some (dat (compare_truth S attr link func op value s)).
Proof using Htime Hulid HS Hmicros Ha HA Hr Hl.
  intros Hf Hk Ho Hval Hc. unfold compileCompare in Hc. rewrite known_sqlOps in Hc by done. cbn [next_alias] in Hc.
  destruct (valueScope _ _ _ _ _ _) as [conds c1] eqn:Hv.
  assert (q = SCmp op (SAggregate func (columnExpr (next_alias "v" c).1 (attrType attr)) attribute_value
    (next_alias "v" c).1 (SAnd conds)) SParam /\ c' = arg (valueArg value) c1) as [-> ->].
  { destruct Hf as [-> | ->]; by injection Hc as <- <-. }
  pose proof (holds_arg_back _ _ HA) as HA1.
  pose proof (scoped_grows scope attr link e c conds c1 [] (ref_closed _ _ _ _ Hr) Hv) as Hg.
  pose proof (scoped_rows attr link e c conds [] c1 env s (fun _ => true) Hv HA1 Hr Hl ltac:(done)) as E.
  rewrite app_nil_r in E. rewrite filter_all in E by done. rewrite sem_SCmp, sem_SAggregate, columnExpr_closed, Nat.add_0_r, E.
  cbn [mbind option_bind]. set (sel := selected S attr link s) in *.
  assert (mapM (fun r => sem S A (columnExpr (next_alias "v" c).1 (attrType attr)) (length (args c))
      (<[(next_alias "v" c).1 := r]> env)) (List.map ValueRow sel) =
    Some (List.map (fun v => cell (attrType attr) (avValue v)) sel)) as ->.
  { apply mapM_map. intros v Hin. apply sem_columnExpr; [by rewrite lookup_insert_eq|]. by apply (selected_portable attr link s). }
  cbn [mbind option_bind].
  change (holes (SAggregate func (columnExpr (next_alias "v" c).1 (attrType attr)) attribute_value (next_alias "v" c).1 (SAnd conds)))
    with (holes (columnExpr (next_alias "v" c).1 (attrType attr)) + holes_of conds)%nat.
  rewrite columnExpr_closed, Nat.add_0_l. rewrite Nat.add_0_r in Hg. rewrite <- (grows_length _ _ _ Hg). cbn [fold_left sem].
  rewrite (holds_arg c1 _ HA).
  assert (compare_truth S attr link func op value s = if bool_decide (sel = []) then triUnknown
    else triOf (existsb (fun v => extremal func sel v && relates op (avValue v) value) sel)) as ->.
  { by destruct Hf as [-> | ->]. }
  assert (Forall (fun v => portable_value (attrType attr) (avValue v)) sel) as Hsel.
  { rewrite list.Forall_forall. intros v Hin. by apply (selected_portable attr link s). }
  clearbody sel. destruct sel as [|v vs]; [done|]. rewrite bool_decide_eq_false_2 by done.
  assert (Forall (fun v => ordered (attrType attr) (avValue v)) (v :: vs)) as Hord.
  { eapply list.Forall_impl; [exact Hsel|]. intros x Hx. by apply portable_ordered. }
  apply Forall_cons_iff in Hsel as [Hv0 Hvs]. pose proof Hord as [Ov Ovs]%Forall_cons_iff.
  destruct (bestLoop_ok (attrType attr) func vs (avValue v) Ov Ovs) as (r & Er & Hin & Hall).
  cbn [List.map]. rewrite (best_cell Htime (attrType attr) func vs (avValue v) r) by done. cbn [mbind option_bind].
  assert (portable_value (attrType attr) r) as Hpr.
  { apply elem_of_cons in Hin as [->|Hin]; [done|]. apply list_elem_of_fmap in Hin as (x & -> & Hx).
    rewrite list.Forall_forall in Hvs. by apply Hvs. }
  rewrite (op_cell_arg Htime (attrType attr)) by (try done; by destruct (attrType attr)).
  rewrite (extremal_truth (attrType attr) func op value vs v r); [|done|apply Hval|done|done|done]. by rewrite dat_of.
Qed.
End Leaves.

(** *** The type field *)

Lemma type_sem (ids : list ID) (negate : bool) (e : entityRef) (c : compiler) (env : Env) (s : evalScope) :
  holds_args (arg (DArray ((fun i => DText (ulid_String i)) <$> ids)) c) -> ref_denotes (aliasNo c) env e s ->
  sem S A (let q := SAny (refType e) SParam in if negate then SNot q else q) (length (args c)) env =
    Some (DBool (xorb negate (bool_decide (evType s ∈ ids)))).
Proof using Hulid.
  intros HA Hr. pose proof (ref_closed _ _ _ _ Hr) as Hc.
  assert (sem S A (SAny (refType e) SParam) (length (args c)) env = Some (DBool (bool_decide (evType s ∈ ids)))) as E.
  { cbn [sem]. rewrite (sem_denoted _ _ _ _ _ (rd_type _ _ _ _ Hr)), (cr_type _ Hc), Nat.add_0_r. cbn [mbind option_bind].
    rewrite (holds_arg _ _ HA). cbn [mbind option_bind]. unfold any_datum. cbn [is_null].
    change ((fun i => DText (ulid_String i)) <$> ids) with (List.map (fun i => DText (ulid_String i)) ids).
    rewrite (member_of_existsb _ _ (fun i => bool_decide (evType s = i))).
    - cbn [mbind option_bind]. do 2 f_equal. apply eq_true_iff_eq. rewrite existsb_exists, bool_decide_eq_true.
      setoid_rewrite bool_decide_eq_true. setoid_rewrite <- list_elem_of_In. naive_solver.
    - intros i _. cbn [eq_datum]. f_equal. apply bool_decide_ext. split; [apply Hulid|by intros ->]. }
  destruct negate; cbn zeta; [rewrite sem_SNot, E|by rewrite E, xorb_false_l]. by destruct (bool_decide _).
Qed.

(** *** Traversals *)

Section Cross.
Context (def : RelDefinition) (direction : Direction) (s : evalScope) (l : Relationship).

(** The entity at the other end, were the link one of the current entity's. *)
Definition far_text : EntityID :=
  match direction with
  | DirAny => if bool_decide (lkParent l = evEntity s) then lkChild l else lkParent l
  | DirParent => lkParent l
  | DirChild => lkChild l
  end.

Definition is_near : bool :=
  match direction with
  | DirAny => bool_decide (lkParent l = evEntity s) || bool_decide (lkChild l = evEntity s)
  | DirParent => bool_decide (lkChild l = evEntity s)
  | DirChild => bool_decide (lkParent l = evEntity s)
  end.

Lemma far_end_near : far_end direction (evEntity s) l = if is_near then Some far_text else None.
Proof using.
  unfold far_end, is_near, far_text. destruct direction; try (by case_bool_decide).
  repeat case_bool_decide; simpl; congruence.
Qed.

Definition far_visible : bool :=
  existsb (fun v => bool_decide (avTenantID v = lkTenantID l) && bool_decide (avEntityID v = far_text))
    (List.filter live_value (values (vals (stTables S)))).

Lemma visible_type : lkTenantID l = evTenant s -> far_visible = isSome (type_of S (evTenant s) far_text).
Proof using.
  intros Et. unfold far_visible, type_of. rewrite Et, <- existsb_filter, <- exists_length.
  rewrite (List.filter_ext _ (live_of_entity (evTenant s) far_text)).
  - by destruct (List.filter _ _).
  - intros v. unfold live_of_entity, of_entity, live_value. apply andb_comm.
Qed.

(** The conditions on a link hold when it leads to a live entity. *)
Lemma arrive_conditions :
  arrive S def direction s l =
    if bool_decide (lkTenantID l = evTenant s) && bool_decide (lkDefinitionID l = relID def) && negb (LinkIsArchived l) &&
       is_near && far_visible
    then ft ← type_of S (evTenant s) far_text; Some (mkEvalScope (evTenant s) far_text ft (ulid_String (lkID l)) (evQuery s))
    else None.
Proof using.
  unfold arrive, crosses. rewrite far_end_near.
  case_bool_decide as Et; simpl; [|done]. rewrite (visible_type Et).
  destruct (LinkIsArchived l), (bool_decide (lkDefinitionID l = relID def)), is_near; simpl; try done.
  by destruct (type_of S (evTenant s) far_text).
Qed.
End Cross.

Lemma insert_here (a : Alias) (r : Row) (env : Env) : (<[a := r]> env : Env) !! a = Some r.
Proof using. apply lookup_insert_eq. Qed.

(** What a term denotes that reads a column of a row bound below [n]. *)
Lemma col_denotes (n : nat) (env : Env) (a : Alias) (r : Row) (col : Column) (d : Datum) :
  (a.2 <= n)%nat -> env !! a = Some r -> column r col = Some d -> denotes n env (SCol a col) d.
Proof using.
  intros Hn Er Hd. split; [done|]. intros k env' Ha. cbn [sem]. rewrite <- (Ha a Hn), Er. exact Hd.
Qed.

Lemma sem_SCaseEq (a b t f : Sql) (k : nat) (env : Env) :
  sem S A (SCaseEq a b t f) k env =
    x ← sem S A a k env; y ← sem S A b (k + holes a) env; d ← op_datum CmpEq x y;
    match d with
    | DBool true => sem S A t (k + holes a + holes b) env
    | _ => sem S A f (k + holes a + holes b + holes t) env
    end.
Proof using. done. Qed.

Lemma far_denotes (direction : Direction) (e : entityRef) (s : evalScope) (l : Relationship) (n m : nat) (env : Env) (rel : Alias) :
  ref_denotes n env e s -> (n < m)%nat -> rel.2 = m ->
  denotes m (<[rel := LinkRow l]> env) (farExpr direction rel e) (DText (far_text direction s l)).
Proof using.
  intros Hr Hnm Hm. destruct rel as [p m']; simpl in Hm; subst m'. set (env1 := <[_ := _]> env).
  assert (ref_denotes m env1 e s) as Hr1 by (apply (ref_mono n m env); [lia|by apply agree_insert|done]).
  assert (env1 !! (p, m) = Some (LinkRow l)) as El by apply insert_here.
  destruct direction; simpl; try (by eapply col_denotes; [simpl; lia|exact El|]).
  split; [simpl; by rewrite (cr_entity _ (ref_closed _ _ _ _ Hr))|].
  intros k env' Ha. assert (env' !! (p, m) = Some (LinkRow l)) as El' by by rewrite <- (Ha (p, m)).
  rewrite sem_SCaseEq, !(sem_col _ env' (p, m) (LinkRow l)) by done. cbn [column mbind option_bind].
  destruct (rd_entity _ _ _ _ Hr1) as [_ Hs]. rewrite (Hs _ _ Ha). cbn [mbind option_bind].
  change (op_datum CmpEq (DText (lkParent l)) (DText (evEntity s))) with
    (Some (DBool (bool_decide (lkParent l = evEntity s)))). cbn [mbind option_bind]. by destruct (bool_decide _).
Qed.

(** The type of the far end, in its oldest value. *)
Lemma declared_type (tenant : TenantID) (entity : EntityID) (ft : ID) :
  type_of S tenant entity = Some ft -> declared_datum S (DText tenant) (DText entity) = Some (DText (ulid_String ft)).
Proof using HS.
  intros Ht. unfold declared_datum. f_equal.
  pose proof (sort_by_perm by_age (List.filter (live_of_entity tenant entity) (values (vals (stTables S))))) as HP.
  unfold type_of in Ht. destruct (List.filter _ _) as [|w ws] eqn:Ew; [done|]. simpl in Ht. injection Ht as <-.
  destruct (sort_by by_age (w :: ws)) as [|v vs] eqn:Es; [by apply Permutation_nil in HP|]. do 2 f_equal.
  assert (v ∈ w :: ws) as Hv by (rewrite <- HP; by left). assert (w ∈ w :: ws) as Hw by by left.
  rewrite <- Ew, elem_of_filter_b, values_elem in Hv, Hw.
  destruct Hv as [[i Hi] [[Tv Ev]%of_entity_true _]%andb_true_iff], Hw as [[j Hj] [[Tw Eww]%of_entity_true _]%andb_true_iff].
  apply (vo_anchor _ (rs_vals _ HS) i j v w Hi Hj); congruence.
Qed.

Lemma far_ref_denotes (direction : Direction) (def : RelDefinition) (e : entityRef) (s : evalScope) (l : Relationship)
    (n m j : nat) (env : Env) (rel : Alias) (ft : ID) :
  ref_denotes n env e s -> (n < m)%nat -> rel.2 = m -> (m <= j)%nat -> lkTenantID l = evTenant s ->
  type_of S (evTenant s) (far_text direction s l) = Some ft ->
  ref_denotes j (<[rel := LinkRow l]> env) (far_ref direction rel e)
    (mkEvalScope (evTenant s) (far_text direction s l) ft (ulid_String (lkID l)) (evQuery s)).
Proof using HS.
  intros Hr Hnm Hm Hj Et Hft. assert ((<[rel := LinkRow l]> env : Env) !! rel = Some (LinkRow l)) as El by apply insert_here.
  pose proof (far_denotes direction e s l n m env rel Hr Hnm Hm) as Hfar.
  apply (denotes_mono m j _ (<[rel := LinkRow l]> env)) in Hfar; [|done|done].
  assert (denotes j (<[rel := LinkRow l]> env) (SCol rel tenant_id) (DText (evTenant s))) as Hten.
  { rewrite <- Et. eapply col_denotes; [lia|exact El|done]. }
  split; simpl; [exact Hten|exact Hfar| | |by apply (rd_query _ _ _ _ Hr)].
  - unfold counterpartType. split; [simpl; apply (dn_closed _ _ _ _ Hfar)|]. intros k env' Ha.
    cbn [sem]. pose proof (dn_sem _ _ _ _ Hten k env' Ha) as E. cbn [sem] in E. rewrite E. cbn [mbind option_bind].
    rewrite (dn_sem _ _ _ _ Hfar _ env' Ha). cbn [mbind option_bind]. by apply declared_type.
  - intros q [= <-]. eapply col_denotes; [lia|exact El|done].
Qed.

(** The guard against entities without values. *)
Lemma liveGuard_sem (direction : Direction) (e : entityRef) (s : evalScope) (l : Relationship) (n m : nat) (env : Env)
    (rel : Alias) (p : string) (k : nat) :
  ref_denotes n env e s -> (n < m)%nat -> rel.2 = m ->
  sem S A (liveGuard (p, Datatypes.S m) rel (farExpr direction rel e)) k (<[rel := LinkRow l]> env) =
    Some (DBool (far_visible direction s l)).
Proof using.
  intros Hr Hnm Hm. pose proof (far_denotes direction e s l n m env rel Hr Hnm Hm) as Hfar.
  unfold liveGuard. rewrite sem_SExists. set (env1 := <[rel := LinkRow l]> env) in *.
  change (rows S entity_summary) with (List.map (fun v => SummaryRow (avTenantID v) (avTypeID v) (avEntityID v))
    (List.filter live_value (values (vals (stTables S))))).
  rewrite (select_rows_bool _ _ (fun v => bool_decide (avTenantID v = lkTenantID l) &&
    bool_decide (avEntityID v = far_text direction s l))).
  - cbn [mbind option_bind]. by rewrite length_map, exists_length.
  - intros v _. set (env2 := <[_ := _]> env1). set (r := SummaryRow _ _ _) in *.
    assert (env2 !! (p, Datatypes.S m) = Some r) as E2 by apply insert_here.
    assert (agree m env1 env2) as Ha by (apply agree_insert; lia).
    assert (env2 !! rel = Some (LinkRow l)) as El.
    { rewrite <- (Ha rel) by lia. apply insert_here. }
    rewrite sem_SAnd by done. cbn [sem_and].
    rewrite (sem_eq_col k env2 (p, Datatypes.S m) r tenant_id _ (avTenantID v) (lkTenantID l) E2 eq_refl)
      by by rewrite (sem_col _ env2 rel (LinkRow l)).
    cbn [mbind option_bind]. case_bool_decide; [|done].
    rewrite (sem_eq_col _ env2 (p, Datatypes.S m) r entity_id _ (avEntityID v) (far_text direction s l) E2 eq_refl)
      by apply (dn_sem _ _ _ _ Hfar _ env2 Ha).
    cbn [mbind option_bind]. by case_bool_decide.
Qed.

Lemma nearCond_sem (direction : Direction) (e : entityRef) (s : evalScope) (l : Relationship) (n : nat) (env : Env)
    (rel : Alias) (k : nat) :
  ref_denotes n env e s -> env !! rel = Some (LinkRow l) ->
  sem S A (nearCond direction rel e) k env = Some (DBool (is_near direction s l)).
Proof using.
  intros Hr El. pose proof (fun k => sem_denoted _ _ _ _ k (rd_entity _ _ _ _ Hr)) as He.
  assert (forall col x k, column (LinkRow l) col = Some (DText x) ->
    sem S A (SCmp CmpEq (SCol rel col) (refEntity e)) k env = Some (DBool (bool_decide (x = evEntity s)))) as Hc.
  { intros col x j Hx. by eapply sem_eq_col. }
  destruct direction; [by apply (Hc parent_entity_id)|by apply (Hc child_entity_id)|].
  change (sem S A (nearCond DirAny rel e) k env) with
    (sem_or (fun q j => sem S A q j env) k [SCmp CmpEq (SCol rel parent_entity_id) (refEntity e);
      SCmp CmpEq (SCol rel child_entity_id) (refEntity e)]).
  cbn [sem_or is_near]. rewrite (Hc parent_entity_id _ _ eq_refl). cbn [mbind option_bind].
  case_bool_decide; [done|]. rewrite (Hc child_entity_id _ _ eq_refl). cbn [mbind option_bind]. by case_bool_decide.
Qed.

Lemma traversal_sem (def : RelDefinition) (direction : Direction) (inner : BoundNode) (e : entityRef) (c c' : compiler)
    (q : Sql) (env : Env) (s : evalScope) (t : evalScope -> tri) :
  compile scope (BoundTraversal def direction inner) e c = Ok (q, c') -> holds_args c' ->
  ref_denotes (aliasNo c) env e s ->
  (forall e' c1 q', closed_ref e' -> compile scope inner e' c1 = Ok (q', c') -> grows c1 (holes q') c') ->
  (forall e' c1 q' (env' : Env) (s' : evalScope), compile scope inner e' c1 = Ok (q', c') -> ref_denotes (aliasNo c1) env' e' s' ->
     is_Some (refLink e') -> sem S A q' (length (args c1)) env' = Some (dat (t s'))) ->
  sem S A q (length (args c)) env = Some (DBool (existsb (fun l =>
    match arrive S def direction s l with Some s' => bool_decide (t s' = triTrue) | None => false end)
    (values (links (stLinks S))))).
Proof using Hulid HS.
  intros Hc HA Hr Hg IH. cbn [compile next_alias] in Hc. run_inv. rename s0 into qi.
  match goal with E : compile _ inner _ _ = _ |- _ => rename E into Hi end.
  set (rel := ("r"%string, Datatypes.S (aliasNo c))) in *.
  set (c3 := (next_alias "es" (arg (DText (ulid_String (relID def))) (next_alias "r" c).2)).2).
  change (compile scope inner (far_ref direction rel e) c3 = Ok (qi, c')) in Hi.
  pose proof (ref_closed _ _ _ _ Hr) as Hcl.
  assert (holds_args (arg (DText (ulid_String (relID def))) c)) as HAd.
  { eapply (holds_back c3), HA. eapply Hg; [|exact Hi]. by apply far_closed. }
  apply holds_arg in HAd.
  rewrite sem_SExists. change (rows S relationship) with (List.map LinkRow (values (links (stLinks S)))).
  rewrite (select_rows_true LinkRow _ (fun l => match arrive S def direction s l with Some s' => t s' | None => triFalse end)).
  - cbn [mbind option_bind]. rewrite length_map, exists_length. do 2 f_equal. apply existsb_ext. intros l _.
    by destruct (arrive S def direction s l).
  - intros l _. rewrite sem_SAnd by done. set (env1 := <[rel := LinkRow l]> env).
    assert (env1 !! rel = Some (LinkRow l)) as El by apply insert_here.
    assert (ref_denotes (Datatypes.S (aliasNo c)) env1 e s) as Hr1.
    { apply (ref_mono (aliasNo c) _ env); [lia|by apply agree_insert; lia|done]. }
    change [?a; ?b; ?d; ?n; ?g; qi] with ([a; b; d; n; g] ++ [qi]).
    assert (holes (farExpr direction rel e) = 0%nat) as Hfc by apply (cr_entity _ (far_closed direction rel e Hcl)).
    assert (holes (nearCond direction rel e) = 0%nat) as Hnc by by apply nearCond_closed.
    rewrite (sem_and_app _ _ _ [bool_decide (lkTenantID l = evTenant s); bool_decide (lkDefinitionID l = relID def);
      negb (LinkIsArchived l); is_near direction s l; far_visible direction s l]).
    2: { cbn [conj_values holes]. rewrite (cr_tenant _ Hcl), Hnc, !Nat.add_0_r. split_and!; [| | | | |done].
         - eapply sem_eq_col; [exact El|done|by eapply sem_denoted, Hr1].
         - rewrite (sem_eq_col (length (args c)) env1 rel (LinkRow l) relationship_definition_id SParam (ulid_String (lkDefinitionID l))
             _ El eq_refl HAd).
           do 2 f_equal. apply bool_decide_ext. split; [apply Hulid|by intros ->].
         - cbn [sem]. rewrite El. cbn. unfold LinkIsArchived. by destruct (lkArchivedAt l).
         - by eapply nearCond_sem.
         - eapply (liveGuard_sem direction e s l (aliasNo c)); [exact Hr|lia|done]. }
    unfold holes_of. cbn [List.map list_sum foldr holes liveGuard]. rewrite (cr_tenant _ Hcl), Hnc, Hfc. cbn [Nat.add].
    rewrite arrive_conditions. cbn [forallb]. rewrite !andb_true_r, <- !andb_assoc.
    case_bool_decide as Et; cbn [andb]; [|done].
    destruct (bool_decide (lkDefinitionID l = relID def) && _) eqn:Eb; [|done].
    breflect. rewrite visible_type in * by done.
    destruct (type_of S (evTenant s) (far_text direction s l)) as [ft|] eqn:Eft; [|done]. cbn [mbind option_bind].
    assert (sem S A qi (length (args c3)) env1 = Some (dat (t (mkEvalScope (evTenant s) (far_text direction s l) ft
      (ulid_String (lkID l)) (evQuery s))))) as Ei.
    { eapply IH; [exact Hi| |by eexists]. eapply (far_ref_denotes direction def e s l (aliasNo c)); [exact Hr| |done| |done|done]; simpl; lia. }
    simpl in Ei. rewrite length_app in Ei. cbn [length] in Ei. cbn [sem_and]. rewrite Ei. cbn [mbind option_bind]. by destruct (t _).
Qed.

Lemma literal_portable dt v : typed_as dt v -> portable_literal v = true -> portable_value dt v.
Proof using. intros Hv Hp. unfold portable_literal in Hp. breflect. by split_and!. Qed.

Lemma compileEach_sem inside e s es :
  Forall (fun n => well_bound S access n /\
    (portable n = true -> forall inside, shaped inside n = true ->
       forall e c q c' (env : Env) s, compile scope n e c = Ok (q, c') -> holds_args c' ->
       ref_denotes (aliasNo c) env e s -> (inside = true -> is_Some (refLink e)) ->
       sem S A q (length (args c)) env = Some (dat (truth S n s)))) es ->
  forallb portable es = true -> forallb (shaped inside) es = true -> (inside = true -> is_Some (refLink e)) ->
  forall c qs c' (env : Env), compileEach (compile scope) e es c = Ok (qs, c') -> holds_args c' ->
    ref_denotes (aliasNo c) env e s ->
    conj_dats (fun q j => sem S A q j env) (length (args c)) qs (List.map (fun n => truth S n s) es).
Proof using.
  intros Hes. induction Hes as [|n es [Hn IHn] Hes IH]; intros Hp Hs Hl c qs c' env Hc HA Hr; simpl in Hc.
  { by injection Hc as <- <-. }
  run_inv. simpl in Hp, Hs. apply andb_true_iff in Hp as [Hpn Hp], Hs as [Hsn Hs].
  match goal with E : compile _ n _ _ = Ok (?q, ?c1), E' : compileEach _ _ _ ?c1 = Ok (?qs, _) |- _ =>
    pose proof (compile_grows scope S access n Hn _ _ _ _ (ref_closed _ _ _ _ Hr) E) as Hg;
    assert (grows c1 (holes_of qs) c') as Hg' end.
  { eapply (each_grows scope S access); [|by apply (ref_closed _ _ _ _ Hr)|eassumption].
    eapply list.Forall_impl; [exact Hes|]. by intros ? [? _]. }
  simpl. split.
  - eapply IHn; eauto. by eapply holds_back.
  - rewrite <- (grows_length _ _ _ Hg). eapply IH; eauto. eapply ref_mono; [|apply agree_refl|exact Hr]. apply Hg.
Qed.

(** The compiled statement has the truth value of the query. *)
Lemma compile_sem n : well_bound S access n -> portable n = true -> forall inside, shaped inside n = true ->
  forall e c q c' (env : Env) s, compile scope n e c = Ok (q, c') -> holds_args c' -> ref_denotes (aliasNo c) env e s ->
  (inside = true -> is_Some (refLink e)) -> sem S A q (length (args c)) env = Some (dat (truth S n s)).
Proof using Htime Hulid HS Hmicros.
  intros Hn. pattern n. apply (well_bound_rect S access); [| | | |exact Hn]; clear n Hn.
  - intros op es Hes IH Hp inside Hsh e c q c' env s Hc HA Hr Hl. cbn [portable shaped] in Hp, Hsh.
    apply andb_true_iff in Hsh as [Hne%negb_true_iff%bool_decide_eq_false Hsh].
    cbn [compile] in Hc. run_inv. cbn [truth].
    assert (conj_dats (fun q j => sem S A q j env) (length (args c)) l (List.map (fun n => truth S n s) es)) as Hd.
    { eapply (compileEach_sem inside e s es); eauto. rewrite list.Forall_forall in Hes, IH |- *. intros n Hin.
      split; [by apply Hes|]. intros Hpn ins Hsn e' c1 q c2 env' s' Hc1 HA1 Hr1 Hl1. by eapply IH. }
    assert (l <> []) as Hln by (destruct es; [done|]; by destruct l).
    destruct op; [rewrite sem_SAnd by done; by apply sem_and_kleene|].
    transitivity (sem_or (fun e j => sem S A e j env) (length (args c)) l); [|by apply sem_or_kleene].
    cbn [sem]. by rewrite bool_decide_eq_false_2 by by destruct l.
  - intros n Hn IH Hp inside Hsh e c q c' env s Hc HA Hr Hl. cbn [compile] in Hc. run_inv. rewrite sem_SNot.
    rewrite (IH Hp inside Hsh e c _ c' env s) by done. cbn [truth mbind option_bind]. by destruct (truth S n s).
  - intros def d inner Hn IH Hp inside Hsh e c q c' env s Hc HA Hr _. cbn [truth]. rewrite dat_of.
    eapply (traversal_sem def d inner e c c' q env s (truth S inner)); eauto.
    intros e' c1 q' He' Hc'. by eapply (compile_grows scope S access).
  - intros n Hn Hl Hp inside Hsh e c q c' env s Hc HA Hr Hin.
    destruct n as [| |attr link func op value|attr link vs|attr link lo hi|attr link
      |attr link kind value|ids negate|query names|]; try done; cbn [compile] in Hc; cbn [portable shaped] in Hp, Hsh;
      cbn [truth].
    6: { injection Hc as <- <-. rewrite dat_of. by apply type_sem. }
    all: assert (link = true -> is_Some (refLink e)) as Hlk by (intros ->; apply Hin; by destruct inside).
    + inversion Hn as [| | |? ? ? ? Ha Hk Ht Ho|? ? ? ? ? Ha Hk Ht Hf Ho|? ? ? ? ? Ha Hk Hf Hi| | | | | |]; subst.
      * apply andb_true_iff in Hp as [Hpe Hpl]. unfold compare_truth. rewrite dat_of.
        eapply compare_sem; eauto. by apply literal_portable.
      * assert (portable_literal value = true) as Hpl by (by destruct Hf as [-> | ->]; apply andb_true_iff in Hp as [_ Hp]).
        eapply extremal_sem; eauto. by apply literal_portable.
      * destruct Hf as [-> | [-> Ht]]; unfold compare_truth; rewrite dat_of; [by eapply count_sem|by eapply length_sem].
    + inversion Hn; subst. injection Hc as Hc. apply andb_true_iff in Hp as [Hpe Hpl]. rewrite dat_of.
      eapply in_sem; eauto. rewrite forallb_forall in Hpl. rewrite list.Forall_forall in *. intros v Hv.
      apply literal_portable; [by auto|]. by apply Hpl, list_elem_of_In.
    + inversion Hn; subst. injection Hc as Hc. breflect. rewrite dat_of.
      eapply range_sem; eauto; by apply literal_portable.
    + inversion Hn; subst. injection Hc as Hc. rewrite dat_of. by eapply has_sem.
    + inversion Hn; subst. injection Hc as Hc. rewrite dat_of. destruct kind; try done. by eapply contains_sem.
Qed.
End Meaning.
