(* ===== verification/QuerySqlProps.v ===== *)
(** The two stores of a query: the rows Postgres serves for the compiled statement are
    those of the in-memory evaluator. *)

From Stdlib Require Import ZArith QArith Lia String Ascii List SpecFloat.
From stdpp Require Import base tactics list gmap fin_maps strings option decidable.
From S2P Require Import Prelude GoText Values Ids Attribute Access TypeDef Units Relationship ValueWrite AttributeWrite SchemaFacts ValueWriteFacts Fql FqlFacts Pagination Query QueryFacts QueryProps QuerySql QuerySqlFacts.

Open Scope Z_scope.
Open Scope go_scope.

(** ** Compilation succeeds *)

Section Total.
Context `{GoStd} `{GoUlid} `{Postgres}.
Context (scope : Scope) (S : Store) (access : Access).

End Total.

(** ** The binder builds shaped queries *)

Section Shaped.
Context `{GoStd} `{GoUlid} `{GoNumeric} `{GoQuery}.
Context (b : binder).




End Shaped.


(** ** The search *)

Section Search.
Context `{GoStd} `{GoUlid} `{GoNumeric} `{GoKeys} `{GoQuery} `{GoRange} `{GoCursor} `{Postgres}.

(** [timestamptz] keeps whole microseconds. *)
Context (Htime : forall k, pg_time (1000 * k) = k).
Context (Hulid : forall i j, ulid_String i = ulid_String j -> i = j).

(** A collation orders all texts, distinct ones strictly. *)
Context (Hcoll_total : forall s t, pg_text_leb s t = true \/ pg_text_leb t s = true).
Context (Hcoll_trans : forall s t u, pg_text_leb s t = true -> pg_text_leb t u = true -> pg_text_leb s u = true).
Context (Hcoll_antisym : forall s t, pg_text_leb s t = true -> pg_text_leb t s = true -> s = t).




(** *** The order of the database *)

Abbreviation pg_order stable := (if stable : bool then pg_by_entity else pg_newest_first).








End Search.
