(* ===== verification/QuerySqlExample.v ===== *)
(** The statement of a query over two boxes, and what both stores answer. *)

From Stdlib Require Import ZArith QArith Lia String Ascii List SpecFloat.
From stdpp Require Import base tactics list gmap fin_maps fin_sets strings option decidable pretty.
From S2P Require Import Prelude GoText Values Ids Attribute Access TypeDef Units Relationship Dependency ValueWrite AttributeWrite SchemaFacts SchemaExample ValueWriteFacts ValueExample.
From S2P Require Import Fql FqlFacts Pagination Query QueryFacts QueryProps QueryExample QuerySql QuerySqlFacts QuerySqlProps.

Open Scope Z_scope.
Open Scope go_scope.

Import SchemaRun.
Import ValueRun.
Import QueryRun.

Module SqlRun.

#[export] Instance database : Postgres := {|
  pg_time t := t / 1000;
  pg_text_leb := String.leb;
  pg_json_eq _ _ := false;
  json_text _ := EmptyString;
  pg_ilike _ _ := false;
  pg_lower s := s;
  pg_lexemes s := [s] |}.

Definition tally : string := "count(packing) = 1 and min(packing) >= 5 and not (packing in (7, 9))".

(** The first box is packed anew, at a whole microsecond. *)
Definition later : Request :=
  mkRequest (mkContext None None (Some SystemAccess)) false ∅ Demo.epoch 200000 None.

Definition repacked : Tables :=
  after (match ValueSetCase later (input "2" "6") 9 boxes with
         | Ok (T', c, av) => Ok (T', av, c) | Err e => Err e end) boxes.


Definition counted : BoundNode :=
  match prepare "default" clerk true (shelf repacked) "product" tally with Ok (_, n) => n | Err _ => asked end.


(** The summaries, last entity first. *)
Definition summaries : list EntitySummary := List.rev (values (entities (shelf repacked) "default" [1%N])).

(** One argument per placeholder: the tenant and the type, the attribute three times,
    and the literals. *)
Example arguments :
  option_map (fun c => args c.2)
    (match compile (mkScope "" "") counted root_ref (mkCompiler (base_args "default" [1%N]) 0) with Ok r => Some r | Err _ => None end) =
  Some [DText "default"; DText "1"; DText "2"; DInt 1; DText "2"; DInt 5; DText "2"; DArray [DInt 7; DInt 9]].
Proof. vm_compute. reflexivity. Qed.

Example rows_served :
  option_map (fmap esEntityID) (sql_search (shelf repacked) "default" [1%N] counted (mkScope "" "") summaries page) =
  Some ["box-1"%string].
Proof. vm_compute. reflexivity. Qed.
End SqlRun.
Import SqlRun.







