(* ===== verification/DependencyWrite.v ===== *)
(** The usecases of attribute dependencies ([application/dependency]): creation,
    update and archival of a rule ([interactor.go]), the schema a rule set
    resolves to for one entity, and how complete an entity or the entities of a
    type are against it ([completeness.go]).

    The JSON of conditions and effects is decoded before ([decodeRule]); an input
    carries what the decoder answered. *)

From Stdlib Require Import ZArith QArith Lia String Ascii List SpecFloat.
From stdpp Require Import base tactics list gmap fin_maps strings option decidable.
From S2P Require Import Prelude GoText Values Ids Formula Attribute Access TypeDef Units Pagination.
From S2P Require Import Dependency ValueWrite AttributeWrite Query.

Open Scope Z_scope.
Open Scope go_scope.

(** ** The table ([infrastructure/memory/instances.go]) *)

Definition DepGet (T : Tables) (i : ID) : result Dependency :=
  match deps T !! i with Some d => Ok d | None => Err (NewNotFound DepAggregateType) end.

Definition DepSave (T : Tables) (d : Dependency) : Tables :=
  mkTables (types T) (attrs T) (<[depID d := d]> (deps T)) (vals T) (families T).

(** [Filter]; a zero identifier filters nothing. *)
Record DepFilter := mkDepFilter {
  dfTenantID : TenantID;
  dfSourceID : ID;
  dfTargetID : ID;
  dfIncludeArchived : bool }.

Definition dep_listed (f : DepFilter) (d : Dependency) : bool :=
  bool_decide (depTenant d = dfTenantID f) &&
  (dfIncludeArchived f || negb (DepIsArchived d)) &&
  (bool_decide (dfSourceID f = 0%N) || bool_decide (sourceID d = dfSourceID f)) &&
  (bool_decide (dfTargetID f = 0%N) || bool_decide (targetID d = dfTargetID f)).

Definition dep_key `{GoUlid} (d : Dependency) : list string := [ulid_String (depID d)].

Definition DepList `{GoUlid} `{GoCursor} (T : Tables) (f : DepFilter) (p : Page) :
    result (list Dependency * Z) :=
  paginate (sort_by by_dep (List.filter (dep_listed f) (values (deps T)))) p idKeyset dep_key.

Definition ListByEntities (T : Tables) (tenant : TenantID) (entities : list EntityID) :
    list AttributeValue :=
  sort_by by_av (List.filter (fun av => bool_decide (avTenantID av = tenant) &&
    bool_decide (avEntityID av ∈ entities) && negb (AvIsArchived av)) (values (vals T))).

(** [ListEntities] of a full sweep. *)
Definition ListEntities `{GoCursor} `{GoQuery} (T : Tables) (tenant : TenantID) (wanted : list ID) (p : Page) :
    result (list EntitySummary * Z) :=
  let agg := fold_left count_row (List.filter (candidate_row tenant wanted) (values (vals T))) ∅ in
  if pgStable p then paginate (sort_by by_entity (values agg)) p entityIDKeyset entityIDKey
  else paginate (sort_by newest_first (values agg)) p entityKeyset entityKey.

(** ** Quantity operands *)

Section Rebasing.
Variable rebase : Value -> result Value.

Definition rebaseOpt (ref : option Value) : result (option Value) :=
  match ref with
  | None => Ok None
  | Some v => let! nv := rebase v in Ok (Some nv)
  end.

Definition rebaseCondition (c : Condition) : result Condition :=
  let! v := rebaseOpt (CValue c) in
  let! lo := rebaseOpt (CMin c) in
  let! hi := rebaseOpt (CMax c) in
  let! vs := eachMap rebase (CValues c) in
  Ok (mkCondition (CKind c) v vs lo hi (MinExclusive c) (MaxExclusive c) (CPattern c)
        (PatternSubstring c) (CDynamic c) (COp c) (ContextKey c) (ContextType c)).

Definition rebaseMember (c : Constraint) : result Constraint :=
  match c with
  | MinValue m => let! nv := rebase m in Ok (MinValue nv)
  | MaxValue m => let! nv := rebase m in Ok (MaxValue nv)
  | OneOf vs => let! members := eachMap rebase vs in Ok (OneOf members)
  | _ => Ok c
  end.

Definition rebaseEffect (e : Effect) : result Effect :=
  let! allowed := eachMap rebase (AllowedValues e) in
  let! cs := eachMap rebaseMember (EffConstraints e) in
  Ok (mkEffect allowed cs (EffRequired e) (Enforce e)).
End Rebasing.

(** [RebaseRuleOperands]; without an effect [rebaseTarget] is not used. *)
Definition RebaseRuleOperands (conds : list Condition) (eff : option Effect)
    (rebaseSource rebaseTarget : Value -> result Value) : result (list Condition * option Effect) :=
  let! conds := eachMap (rebaseCondition rebaseSource) conds in
  match eff with
  | None => Ok (conds, None)
  | Some e => let! e := rebaseEffect rebaseTarget e in Ok (conds, Some e)
  end.

Record DepCreateInput := mkDepCreate {
  dcSourceAttributeID : string;
  dcTargetAttributeID : string;
  dcRule : result (list Condition * Effect);
  dcDescription : string }.

Record DepUpdateInput := mkDepUpdateInput {
  duID : string;
  duRule : result (list Condition * Effect);
  duDescription : string;
  duVersion : option Z }.

(** [ListInput] *)
Record DepListInput := mkDepListInput {
  dlSourceAttributeID : string;
  dlTargetAttributeID : string;
  dlIncludeArchived : bool;
  dlPage : PageArgs }.

Section Usecases.
Context `{GoStd} `{GoUlid} `{GoNumeric} `{GoCursor} `{GoQuery}.

(** [rebaseWith]: the conversion of one attribute's operands. *)
Definition rebaseWith (T : Tables) (rq : Request) (def : AttrDefinition) :
    result (Value -> result Value) :=
  if negb (bool_decide (attrType def = DataTypeQuantity)) then Ok (fun v => Ok v)
  else
    match families T with
    | None => Err (NewValidation "unit families are not configured in this deployment")
    | Some fs =>
        guard! str_IsZero (unitFamilyID def)
          else NewValidation "quantity attribute in a dependency requires a unit family" then
        match ParseID (unitFamilyID def) with
        | Err e => Err (NewValidation (Message e))
        | Ok i => let! f := FamilyGet fs (rqTenant rq) i in Ok (Rebase f)
        end
    end.

Definition normalizeQuantityOperands (T : Tables) (rq : Request) (source target : AttrDefinition)
    (conds : list Condition) (eff : Effect) : result (list Condition * Effect) :=
  let! rebaseSource := rebaseWith T rq source in
  let! rebaseTarget := rebaseWith T rq target in
  let! r := RebaseRuleOperands conds (Some eff) rebaseSource rebaseTarget in
  Ok (r.1, default eff r.2).

(** ** Who may write a rule, and over what *)

Definition assertRuleAccess (rq : Request) (source target : AttrDefinition) : result unit :=
  guard! negb (CanRead (rqAccess rq) (internalName source)) else NewNotFound AggregateType then
  guard! negb (CanRead (rqAccess rq) (internalName target)) else NewNotFound AggregateType then
  guard! negb (CanWrite (rqAccess rq) (internalName target))
    else NewForbidden "a dependency requires write permission on its target attribute" then
  Ok tt.

Definition checkSameChain (T : Tables) (source target : AttrDefinition) : result unit :=
  if bool_decide (typeDefinitionID source = typeDefinitionID target) then Ok tt
  else
    let! sourceType := TypeGet (types T) (typeDefinitionID source) in
    let! ok := IsAncestorOrSelf (types T) sourceType (typeDefinitionID target) in
    let! ok := (if ok : bool then Ok true
                else
                  let! targetType := TypeGet (types T) (typeDefinitionID target) in
                  IsAncestorOrSelf (types T) targetType (typeDefinitionID source)) in
    guard! negb ok
      else NewValidation "source and target attributes must belong to the same type hierarchy" then
    Ok tt.

(** ** Writes *)

(** [Create] *)
Definition DepCreate (rq : Request) (i : DepCreateInput) (fresh : ID) (T : Tables) :
    result (Tables * Dependency * list DepEvent) :=
  match ParseID (dcSourceAttributeID i), ParseID (dcTargetAttributeID i) with
  | Err e, _ | _, Err e => Err (NewValidation (Message e))
  | Ok source, Ok target =>
      let! rule := dcRule i in
      let! source := AttrGet T source in
      check! EnsureTenant (rqTenant rq) (tenantID source) AggregateType then
      let! target := AttrGet T target in
      check! EnsureTenant (rqTenant rq) (tenantID target) AggregateType then
      check! assertRuleAccess rq source target then
      check! checkSameChain T source target then
      let! rule := normalizeQuantityOperands T rq source target rule.1 rule.2 in
      let! de := DepNew (tenantID source) (Some source) (Some target) rule.1 rule.2
                   (dcDescription i) fresh (rqNow rq) in
      Ok (DepSave T de.1, de.1, de.2)
  end.

(** [Update] *)
Definition DepUpdateCase (rq : Request) (i : DepUpdateInput) (T : Tables) :
    result (Tables * Dependency * list DepEvent) :=
  match ParseID (duID i) with
  | Err e => Err (NewValidation (Message e))
  | Ok did =>
      let! rule := duRule i in
      let! d := DepGet T did in
      check! EnsureTenant (rqTenant rq) (depTenant d) DepAggregateType then
      guard! match duVersion i with Some v => negb (v =? depVersion d) | None => false end
        else NewConflict "the dependency was modified by someone else; reload it and retry" then
      let! source := AttrGet T (sourceID d) in
      let! target := AttrGet T (targetID d) in
      check! assertRuleAccess rq source target then
      let! rule := normalizeQuantityOperands T rq source target rule.1 rule.2 in
      let! de := DepUpdate d (Some source) (Some target) rule.1 rule.2 (duDescription i) (rqNow rq) in
      Ok (DepSave T de.1, de.1, de.2)
  end.

(** [Archive] *)
Definition DepArchiveCase (rq : Request) (raw : string) (T : Tables) :
    result (Tables * Dependency * list DepEvent) :=
  match ParseID raw with
  | Err e => Err (NewValidation (Message e))
  | Ok did =>
      let! d := DepGet T did in
      check! EnsureTenant (rqTenant rq) (depTenant d) DepAggregateType then
      let! target := AttrGet T (targetID d) in
      guard! negb (CanRead (rqAccess rq) (internalName target))
        else NewNotFound DepAggregateType then
      guard! negb (CanWrite (rqAccess rq) (internalName target))
        else NewForbidden "archiving a dependency requires write permission on its target attribute" then
      let! de := DepArchive d (rqNow rq) in
      Ok (DepSave T de.1, de.1, de.2)
  end.

(** ** Reads *)

(** [Get] *)
Definition DepGetCase (rq : Request) (raw : string) (T : Tables) : result Dependency :=
  match ParseID raw with
  | Err e => Err (NewValidation (Message e))
  | Ok did =>
      let! d := DepGet T did in
      check! EnsureTenant (rqTenant rq) (depTenant d) DepAggregateType then
      Ok d
  end.

(** One identifier of the filter of [List]. *)
Definition filterID (raw : string) : result ID :=
  if str_IsZero raw then Ok 0%N
  else match ParseID raw with Err e => Err (NewValidation (Message e)) | Ok i => Ok i end.

(** [List] *)
Definition DepListCase (rq : Request) (i : DepListInput) (T : Tables) :
    result (list Dependency * PageInfo) :=
  match Resolve (dlPage i) with
  | Err e => Err (NewValidation (Message e))
  | Ok page =>
      let! source := filterID (dlSourceAttributeID i) in
      let! target := filterID (dlTargetAttributeID i) in
      let! r := DepList T (mkDepFilter (rqTenant rq) source target (dlIncludeArchived i)) page in
      Ok (KeysetPage page r.1 (KeysetTotal page r.2) (fun d => EncodeKeyset (dep_key d)))
  end.

(** [EffectiveSchemaOutput] *)
Record SchemaOutput := mkSchemaOutput {
  soAttributeID : ID;
  soEntityID : EntityID;
  soRequired : bool;
  soRestricted : bool;
  soAllowedValues : list Value;
  soEnforcement : Enforcement }.

(** [EffectiveSchema] *)
Definition EffectiveSchemaCase (rq : Request) (rawAttr rawEntity : string) (T : Tables) :
    result SchemaOutput :=
  match ParseID rawAttr, ParseEntityID rawEntity with
  | Err e, _ | _, Err e => Err (NewValidation (Message e))
  | Ok attrID, Ok entity =>
      let! def := AttrGet T attrID in
      check! EnsureTenant (rqTenant rq) (tenantID def) AggregateType then
      guard! negb (CanRead (rqAccess rq) (internalName def)) else NewNotFound AggregateType then
      let targeting := ListByTarget T attrID in
      let! sources := (if bool_decide (length targeting = 0%nat) then Ok ∅
        else
          let! avs := readableOnly T rq (ListByEntities T (tenantID def) [entity]) in
          Ok (group_values ∅ avs)) in
      let! s := ResolveEffectiveWithContext def targeting sources (rqFacts rq) (rqLocalNow rq) in
      Ok (mkSchemaOutput attrID entity (SRequired s) (Restricted s) (SAllowed s)
            (EnforcementOr (RequiredEnforcement s) DefaultEnforcement))
  end.

(** ** Completeness ([completeness.go]) *)

Record MissingAttribute := mkMissing {
  maAttributeID : ID;
  maInternalName : string;
  maDisplayName : string;
  maGroup : string }.

Record CompletenessOutput := mkCompleteness {
  coEntityID : EntityID;
  coTypeID : ID;
  coRequired : Z;
  coFilled : Z;
  coScore : spec_float;
  coMissing : list MissingAttribute }.

Definition entityFilled (T : Tables) (rq : Request) (tenant : TenantID) (type_id : ID)
    (entity : EntityID) : result (gmap ID (list Value)) :=
  let! avs := readableOnly T rq (AvListByEntity T tenant type_id entity) in
  Ok (group_values ∅ avs).

Definition attributeRequired (T : Tables) (rq : Request) (a : AttrDefinition)
    (filled : gmap ID (list Value)) : result bool :=
  let targets := ListByTarget T (id a) in
  if bool_decide (length targets = 0%nat) then Ok (required a)
  else let! s := resolveFor rq a targets filled in Ok (SRequired s).

(** The variables of [scoreEntity]. *)
Record Tally := mkTally {
  taSeen : list ID;
  taRequired : Z;
  taFilled : Z;
  taMissing : list MissingAttribute }.

Definition missing (a : AttrDefinition) : MissingAttribute :=
  mkMissing (id a) (internalName a) (displayName a) (group a).

Definition tallyAttr (T : Tables) (rq : Request) (filled : gmap ID (list Value)) (t : Tally)
    (a : AttrDefinition) : result Tally :=
  if bool_decide (id a ∈ taSeen t) then Ok t
  else
    let t := mkTally (id a :: taSeen t) (taRequired t) (taFilled t) (taMissing t) in
    if negb (CanRead (rqAccess rq) (internalName a)) then Ok t
    else
      let! required := attributeRequired T rq a filled in
      if negb required then Ok t
      else if isSome (filled !! id a)
      then Ok (mkTally (taSeen t) (taRequired t + 1) (taFilled t + 1) (taMissing t))
      else Ok (mkTally (taSeen t) (taRequired t + 1) (taFilled t) (taMissing t ++ [missing a])).

(** [for] with an error that threads a state. *)
Fixpoint eachFold {A B} (f : B -> A -> result B) (l : list A) (b : B) : result B :=
  match l with
  | [] => Ok b
  | x :: l => let! b := f b x in eachFold f l b
  end.

(** The loop over the types of the chain; a page of attributes is listed when its
    type is reached. *)
Definition tallyLink (T : Tables) (rq : Request) (filled : gmap ID (list Value)) (t : Tally)
    (link : TypeDefinition) : result Tally :=
  let! here := ListAllForType T (tdID link) in
  eachFold (tallyAttr T rq filled) here t.

Definition missing_before (a b : MissingAttribute) : bool :=
  if bool_decide (maGroup a = maGroup b) then String.ltb (maInternalName a) (maInternalName b)
  else String.ltb (maGroup a) (maGroup b).

Definition scoreOf (filled required : Z) : spec_float :=
  if 0 <? required then fdiv (float_of_Z filled) (float_of_Z required) else one.

Definition scoreEntity (T : Tables) (rq : Request) (t : TypeDefinition) (entity : EntityID)
    (filled : gmap ID (list Value)) : result CompletenessOutput :=
  let! chain := Chain (types T) t in
  let! tally := eachFold (tallyLink T rq filled) chain (mkTally [] 0 0 []) in
  Ok (mkCompleteness entity (tdID t) (taRequired tally) (taFilled tally)
        (scoreOf (taFilled tally) (taRequired tally))
        (sort_by (fun a b => negb (missing_before b a)) (taMissing tally))).

(** [Completeness] *)
Definition CompletenessCase (rq : Request) (rawType rawEntity : string) (T : Tables) :
    result CompletenessOutput :=
  match ParseID rawType, ParseEntityID rawEntity with
  | Err e, _ | _, Err e => Err (NewValidation (Message e))
  | Ok type_id, Ok entity =>
      let! t := TypeGet (types T) type_id in
      check! EnsureTenant (rqTenant rq) (tdTenantID t) TypeAggregate then
      let! filled := entityFilled T rq (tdTenantID t) type_id entity in
      scoreEntity T rq t entity filled
  end.

(** *** All the entities of a type *)

Record EntityScore := mkEntityScore {
  scEntityID : EntityID; scScore : spec_float; scFilled : Z; scRequired : Z }.

Record TypeCompletenessOutput := mkTypeCompleteness {
  tcTypeID : ID;
  tcCount : Z;
  tcScored : Z;
  tcTruncated : bool;
  tcAverageScore : spec_float;
  tcComplete : Z;
  tcIncomplete : Z;
  tcEntities : list EntityScore }.

Definition maxCompletenessScan : Z := 1000.

(** The variables of the sweep: the cache of types and what is scored. *)
Record Sweep := mkSweep {
  swTypes : gmap ID TypeDefinition;
  swSum : spec_float;
  swComplete : Z;
  swIncomplete : Z;
  swEntities : list EntityScore }.

Definition scoreSummary (T : Tables) (rq : Request) (tenant : TenantID) (w : Sweep)
    (s : EntitySummary) : result Sweep :=
  let! et := match swTypes w !! esTypeID s with
             | Some et => Ok et
             | None => TypeGet (types T) (esTypeID s)
             end in
  let! filled := entityFilled T rq tenant (esTypeID s) (esEntityID s) in
  let! score := scoreEntity T rq et (esEntityID s) filled in
  let complete := SFleb one (coScore score) in
  Ok (mkSweep (<[esTypeID s := et]> (swTypes w)) (fadd (swSum w) (coScore score))
        (if complete then swComplete w + 1 else swComplete w)
        (if complete then swIncomplete w else swIncomplete w + 1)
        (swEntities w ++ [mkEntityScore (coEntityID score) (coScore score) (coFilled score)
                            (coRequired score)])).

(** The loop over the pages; [first] until one has been read.  What is scored, the
    number of entities, and whether the cap stopped it. *)
Fixpoint sweepPages (T : Tables) (rq : Request) (tenant : TenantID) (type_id : ID)
    (rounds : nat) (first : bool) (count : Z) (p : Page) (w : Sweep) : result (Sweep * Z * bool) :=
  match rounds with
  | O => Err (Errorf "unreachable")
  | S rounds =>
      let! '(summaries, total) := ListEntities T tenant [type_id] p in
      let count := if first then total else count in
      let! w := eachFold (scoreSummary T rq tenant) summaries w in
      if maxCompletenessScan <=? Z.of_nat (length (swEntities w)) then Ok (w, count, true)
      else
        match (if Z.of_nat (length summaries) <=? pgLimit p then None else list.last summaries) with
        | None => Ok (w, count, false)
        | Some l =>
            sweepPages T rq tenant type_id rounds false count
              (mkPage (pgLimit p) (EncodeKeyset (entityIDKey l)) false (pgStable p)) w
        end
  end.

(** A page that does not end the loop has 201 entities. *)
Definition sweepRounds : nat := 5.

(** [TypeCompleteness] *)
Definition TypeCompletenessCase (rq : Request) (rawType : string) (T : Tables) :
    result TypeCompletenessOutput :=
  match ParseID rawType with
  | Err e => Err (NewValidation (Message e))
  | Ok type_id =>
      let! t := TypeGet (types T) type_id in
      check! EnsureTenant (rqTenant rq) (tdTenantID t) TypeAggregate then
      let! '(w, count, truncated) :=
        sweepPages T rq (tdTenantID t) type_id sweepRounds true 0 (mkPage 200 EmptyString true true)
          (mkSweep {[type_id := t]} (S754_zero false) 0 0 []) in
      let scored := Z.of_nat (length (swEntities w)) in
      Ok (mkTypeCompleteness type_id count scored truncated
            (if 0 <? scored then fdiv (swSum w) (float_of_Z scored) else S754_zero false)
            (swComplete w) (swIncomplete w) (swEntities w))
  end.
End Usecases.
