(* ===== verification/Scores.v ===== *)
(** The quotient of two counts in 64-bit floats ([float64(a) / float64(b)]), far
    enough to know when it reaches 1: a score counts as complete exactly when
    nothing is missing. *)

From Stdlib Require Import ZArith Lia SpecFloat.
From stdpp Require Import base tactics.
From S2P Require Import Prelude Values Formula Units.

Open Scope Z_scope.

(** ** Mantissas *)

Lemma digits_spec p : 2 ^ (Zdigits2 (Zpos p) - 1) <= Zpos p < 2 ^ Zdigits2 (Zpos p).
Proof.
  assert (forall q, 0 <= Zpos (digits2_pos q) - 1) as Hd by lia.
  induction p as [p IH|p IH|]; [| |done]; simpl in *;
    rewrite Pos2Z.inj_succ; (replace (Z.succ _ - 1) with (Z.succ (Zpos (digits2_pos p) - 1)) by lia);
    rewrite !Z.pow_succ_r by lia; lia.
Qed.

Lemma digits_range p n : 2 ^ (n - 1) <= Zpos p < 2 ^ n -> 0 < n -> Zdigits2 (Zpos p) = n.
Proof.
  intros Hp Hn. pose proof (digits_spec p) as Hd. set (d := Zdigits2 (Zpos p)) in *.
  assert (0 < d) by (unfold d; simpl; lia).
  assert (~ d < n). { intros Hl. pose proof (Z.pow_le_mono_r 2 d (n - 1)). lia. }
  assert (~ n < d). { intros Hl. pose proof (Z.pow_le_mono_r 2 n (d - 1)). lia. }
  lia.
Qed.

Lemma iter_xO p n : Zpos (Pos.iter xO p n) = Zpos p * 2 ^ Zpos n.
Proof.
  induction n as [|n IH] using Pos.peano_ind; [simpl; lia|].
  rewrite Pos.iter_succ, Pos2Z.inj_xO, IH, Pos2Z.inj_succ, Z.pow_succ_r by lia. ring.
Qed.

(** ** Rounding a mantissa of 53 or 54 digits *)

Definition normal (e : Z) : Prop := -1000 <= e <= 900.

Lemma fexp_normal d e : normal e -> 53 <= d <= 54 -> fexp fprec femax (d + e) = d + e - 53.
Proof. unfold normal, fexp, emin, fprec, femax. lia. Qed.

Lemma shift_none p e l :
  normal e -> 2 ^ 52 <= Zpos p < 2 ^ 53 ->
  shr_fexp fprec femax (Zpos p) e l = (shr_record_of_loc (Zpos p) l, e).
Proof.
  intros He Hp. unfold shr_fexp. rewrite (digits_range p 53), fexp_normal by (done || lia).
  by replace (53 + e - 53 - e) with 0 by lia.
Qed.

Lemma shift_one p e l :
  normal e -> 2 ^ 53 <= Zpos p < 2 ^ 54 ->
  shr_fexp fprec femax (Zpos p) e l = (shr_1 (shr_record_of_loc (Zpos p) l), e + 1).
Proof.
  intros He Hp. unfold shr_fexp. rewrite (digits_range p 54), fexp_normal by (done || lia).
  by replace (54 + e - 53 - e) with 1 by lia.
Qed.

Lemma nearest_one m l : round_nearest_even m l = m \/ round_nearest_even m l = m + 1.
Proof. destruct l as [|[]]; simpl; try case_match; auto. Qed.

(** The mantissa [m], rounded up or not. *)
Definition rounded (m e : Z) (f : spec_float) : Prop :=
  exists p, (f = S754_finite false p e /\ (Zpos p = m \/ Zpos p = m + 1)) \/
    (m = 2 ^ 53 - 1 /\ f = S754_finite false p (e + 1)).

Lemma second_shift m n e :
  normal e -> 2 ^ 52 <= m < 2 ^ 53 -> n = m \/ n = m + 1 ->
  rounded m e
    (let '(mrs, e') := shr_fexp fprec femax n e loc_Exact in
     match shr_m mrs with
     | Z0 => S754_zero false
     | Zpos p => if e' <=? femax - fprec then S754_finite false p e' else S754_infinity false
     | _ => S754_nan
     end).
Proof.
  intros He Hm Hn. destruct n as [|p|]; [lia| |lia].
  assert (forall e', e' <= 901 -> (e' <=? femax - fprec) = true) as Hlim
    by (intros; apply Z.leb_le; unfold femax, fprec; lia).
  destruct (Z.lt_ge_cases (Zpos p) (2 ^ 53)).
  - rewrite shift_none by (done || lia). simpl. rewrite Hlim by (unfold normal in *; lia).
    exists p. left. split; [done|lia].
  - rewrite shift_one by (done || lia). assert (m = 2 ^ 53 - 1) by lia.
    assert (Zpos p = 2 ^ 53) as Ep by lia. injection Ep as ->. cbn [shr_record_of_loc shr_1 shr_m orb].
    rewrite Hlim by (unfold normal in *; lia). eexists. by right.
Qed.

Lemma round_53 p e l :
  normal e -> 2 ^ 52 <= Zpos p < 2 ^ 53 -> rounded (Zpos p) e (binary_round_aux fprec femax false (Zpos p) e l).
Proof.
  intros He Hp. unfold binary_round_aux. rewrite shift_none by done. cbn [shr_m].
  assert (shr_m (shr_record_of_loc (Zpos p) l) = Zpos p) as -> by (by destruct l as [|[]]).
  apply second_shift; [done|done|apply nearest_one].
Qed.

Lemma shr_1_half p l : 1 < Zpos p -> shr_m (shr_1 (shr_record_of_loc (Zpos p) l)) = Zpos p / 2.
Proof.
  intros Hp. destruct p as [p|p|]; [| |lia].
  - trans (Zpos p); [by destruct l as [|[]]|]. apply (Z.div_unique _ 2 _ 1); lia.
  - trans (Zpos p); [by destruct l as [|[]]|]. apply (Z.div_unique _ 2 _ 0); lia.
Qed.

Lemma round_54 p e l :
  normal e -> normal (e + 1) -> 2 ^ 53 <= Zpos p < 2 ^ 54 ->
  rounded (Zpos p / 2) (e + 1) (binary_round_aux fprec femax false (Zpos p) e l).
Proof.
  intros He He' Hp. unfold binary_round_aux. rewrite shift_one, shr_1_half by (done || lia).
  assert (2 ^ 52 <= Zpos p / 2 < 2 ^ 53)
    by (split; [apply Z.div_le_lower_bound|apply Z.div_lt_upper_bound]; lia).
  apply second_shift; [done|done|apply nearest_one].
Qed.

(** ** Counts *)

(** A count below 2^53 is a float whose mantissa is shifted to 53 digits. *)
Lemma float_of_count p (d := Zdigits2 (Zpos p)) :
  Zpos p < 2 ^ 53 ->
  exists m, float_of_Z (Zpos p) = S754_finite false m (d - 53) /\ Zpos m = Zpos p * 2 ^ (53 - d) /\
    1 <= d <= 53 /\ 2 ^ 52 <= Zpos m < 2 ^ 53.
Proof.
  intros Hp. pose proof (digits_spec p) as Hd. fold d in Hd.
  assert (1 <= d <= 53) as Hr.
  { split; [unfold d; simpl; lia|]. apply Z.lt_succ_r, (Z.pow_lt_mono_r_iff 2); [lia..|].
    change (Z.succ 53) with 54. destruct (Z.lt_ge_cases d 54); [by apply Z.pow_lt_mono_r|].
    pose proof (Z.pow_le_mono_r 2 53 (d - 1)). lia. }
  assert (exists m, shl_align p 0 (fexp fprec femax (d + 0)) = (m, d - 53) /\ Zpos m = Zpos p * 2 ^ (53 - d))
    as (m & Em & Vm).
  { unfold shl_align. assert (fexp fprec femax (d + 0) = d - 53) as ->
      by (unfold fexp, emin, fprec, femax; lia).
    replace (d - 53 - 0) with (- (53 - d)) by lia. destruct (53 - d) as [|k|k] eqn:Ek; simpl; [| |lia].
    - exists p. split; [f_equal; lia|lia].
    - exists (Pos.iter xO p k). split; [done|apply iter_xO]. }
  assert (2 ^ 52 <= Zpos m < 2 ^ 53) as Hm.
  { assert (2 ^ 52 = 2 ^ (d - 1) * 2 ^ (53 - d)) as -> by (rewrite <- Z.pow_add_r by lia; f_equal; lia).
    assert (2 ^ 53 = 2 ^ d * 2 ^ (53 - d)) as -> by (rewrite <- Z.pow_add_r by lia; f_equal; lia).
    rewrite Vm. pose proof (Z.pow_pos_nonneg 2 (53 - d)). nia. }
  exists m. split_and!; try done; try lia.
  unfold float_of_Z, binary_normalize, binary_round. change (Zpos (digits2_pos p)) with d. rewrite Em.
  unfold binary_round_aux.
  assert (normal (d - 53)) by (unfold normal; lia).
  rewrite shift_none by done. cbn [shr_record_of_loc shr_m loc_of_shr_record round_nearest_even].
  rewrite shift_none by done. cbn [shr_record_of_loc shr_m].
  by replace (d - 53 <=? femax - fprec) with true by (symmetry; apply Z.leb_le; unfold femax, fprec; lia).
Qed.

Lemma log2_le a b : Zpos a <= Zpos b -> Zdigits2 (Zpos a) <= Zdigits2 (Zpos b).
Proof.
  intros Hab. pose proof (digits_spec a). pose proof (digits_spec b).
  destruct (Z.le_gt_cases (Zdigits2 (Zpos a)) (Zdigits2 (Zpos b))) as [|Hl]; [done|].
  pose proof (Z.pow_le_mono_r 2 (Zdigits2 (Zpos b)) (Zdigits2 (Zpos a) - 1)). lia.
Qed.

(** The division of two mantissas of 53 digits. *)
Lemma mantissa_quotient m1 m2 x y :
  2 ^ 52 <= Zpos m1 < 2 ^ 53 -> 2 ^ 52 <= Zpos m2 < 2 ^ 53 -> normal (x - y - 53) ->
  exists q l, SFdiv_core_binary fprec femax (Zpos m1) (x - 53) (Zpos m2) (y - 53) = (Zpos q, x - y - 53, l) /\
    Zpos q = Zpos m1 * 2 ^ 53 / Zpos m2 /\ 2 ^ 52 <= Zpos q < 2 ^ 54.
Proof.
  intros H1 H2 He. unfold SFdiv_core_binary. rewrite !(digits_range _ 53) by (done || lia).
  replace (53 + (x - 53) - (53 + (y - 53))) with (x - y) by lia.
  replace (x - 53 - (y - 53)) with (x - y) by lia.
  assert (Z.min (fexp fprec femax (x - y)) (x - y) = x - y - 53) as ->
    by (unfold fexp, emin, fprec, femax, normal in *; lia).
  replace (x - y - (x - y - 53)) with 53 by lia. rewrite Z.shiftl_mul_pow2 by lia.
  pose proof (Z.div_mod (Zpos m1 * 2 ^ 53) (Zpos m2) ltac:(done)) as Ed.
  pose proof (Z.mod_pos_bound (Zpos m1 * 2 ^ 53) (Zpos m2) ltac:(lia)) as Em.
  unfold Z.div, Z.modulo in *. destruct (Z.div_eucl (Zpos m1 * 2 ^ 53) (Zpos m2)) as [q r].
  assert (2 ^ 52 <= q < 2 ^ 54) as Hq by nia. destruct q as [|q|q]; [lia| |lia].
  eexists _, _. split; [done|]. done.
Qed.

Section Quotient.
Variables a b : positive.
Hypothesis Hb : Zpos b < 2 ^ 53.

(** A proper fraction stays below 1, whatever the rounding. *)
Lemma proper_fraction : Zpos a < Zpos b -> SFleb one (fdiv (float_of_Z (Zpos a)) (float_of_Z (Zpos b))) = false.
Proof using Hb.
  intros Hab. destruct (float_of_count a) as (m1 & -> & V1 & D1 & R1); [lia|].
  destruct (float_of_count b Hb) as (m2 & -> & V2 & D2 & R2). pose proof (log2_le a b ltac:(lia)) as Hd.
  set (x := Zdigits2 (Zpos a)) in *. set (y := Zdigits2 (Zpos b)) in *.
  destruct (mantissa_quotient m1 m2 x y R1 R2) as (q & l & Eq & Vq & Rq); [unfold normal; lia|].
  unfold fdiv, SFdiv. rewrite Eq. cbn [xorb].
  assert (forall p e, e <= -53 -> SFleb one (S754_finite false p e) = false) as Hlow.
  { intros p e He. unfold SFleb, one, SFcompare. by replace (-52 ?= e) with Gt by (symmetry; apply Z.compare_gt_iff; lia). }
  assert (0 < 2 ^ (53 - x)) as Hpx by (apply Z.pow_pos_nonneg; lia).
  assert (0 < 2 ^ (53 - y)) as Hpy by (apply Z.pow_pos_nonneg; lia).
  pose proof (Z.mul_div_le (Zpos m1 * 2 ^ 53) (Zpos m2) ltac:(lia)) as Hmul. rewrite <- Vq in Hmul.
  destruct (Z.lt_ge_cases (Zpos q) (2 ^ 53)) as [Hlt|Hge].
  - destruct (round_53 q (x - y - 53) l) as (p & [[-> _]|[E ->]]); [unfold normal; lia|lia| |];
      apply Hlow; [lia|]. destruct (decide (x = y)) as [Exy|]; [|lia]. exfalso.
    assert (Zpos m1 + 1 <= Zpos m2) by (rewrite V1, V2, Exy in *; nia). nia.
  - assert (x <> y) as Hxy.
    { intros Exy. assert (Zpos m1 + 1 <= Zpos m2) by (rewrite V1, V2, Exy in *; nia). nia. }
    destruct (round_54 q (x - y - 53) l) as (p & [[-> _]|[E ->]]); [unfold normal; lia..|lia| |];
      apply Hlow; [lia|]. exfalso.
    assert (2 <= 2 ^ (53 - x)) by (change 2 with (2 ^ 1) at 1; apply Z.pow_le_mono_r; lia).
    assert (Zpos m1 <= 2 ^ 53 - 2 ^ (53 - x)) as Hm1.
    { assert (2 ^ 53 = 2 ^ x * 2 ^ (53 - x)) as E53 by (rewrite <- Z.pow_add_r by lia; f_equal; lia).
      pose proof (digits_spec a) as Ha. fold x in Ha. rewrite V1, E53. nia. }
    assert (Zpos q <= 2 ^ 54 - 4) by nia.
    assert (Zpos q / 2 <= 2 ^ 53 - 2) by (apply Z.div_le_upper_bound; lia). lia.
Qed.

Lemma whole_fraction : fdiv (float_of_Z (Zpos b)) (float_of_Z (Zpos b)) = one.
Proof using Hb.
  destruct (float_of_count b Hb) as (m & -> & V & D & R). set (y := Zdigits2 (Zpos b)) in *.
  unfold fdiv, SFdiv. cbn [xorb]. unfold SFdiv_core_binary. rewrite !(digits_range _ 53) by (done || lia).
  replace (53 + (y - 53) - (53 + (y - 53))) with 0 by lia. rewrite Z.sub_diag.
  change (Z.min (fexp fprec femax 0) 0) with (-53). change (0 - -53) with 53.
  rewrite Z.shiftl_mul_pow2 by lia.
  assert (Z.div_eucl (Zpos m * 2 ^ 53) (Zpos m) = (2 ^ 53, 0)) as ->.
  { rewrite Z.mul_comm. pose proof (Z.div_mul (2 ^ 53) (Zpos m) ltac:(done)) as Ed.
    pose proof (Z.mod_mul (2 ^ 53) (Zpos m) ltac:(done)) as Em. unfold Z.div, Z.modulo in *.
    by destruct (Z.div_eucl (2 ^ 53 * Zpos m) (Zpos m)) as [q r]; subst. }
  assert (new_location (Zpos m) 0 = loc_Exact) as -> by (unfold new_location; by destruct (Z.even (Zpos m))).
  vm_compute. reflexivity.
Qed.
End Quotient.

(** The quotient of two counts reaches 1 exactly when they are equal. *)
Lemma quotient_reaches_one a b :
  0 <= a <= b -> 0 < b < 2 ^ 53 ->
  SFleb one (fdiv (float_of_Z a) (float_of_Z b)) = true <-> a = b.
Proof.
  intros Ha Hb. destruct b as [|b|]; [lia| |lia]. destruct a as [|a|]; [| |lia].
  - destruct (float_of_count b ltac:(lia)) as (m & -> & _). split; [done|lia].
  - destruct (decide (a = b)) as [->|Hne].
    + rewrite whole_fraction by lia. split; [done|]. intros _. vm_compute. reflexivity.
    + rewrite proper_fraction by lia. split; [done|congruence].
Qed.

(** ** Rounding never makes a NaN *)

Lemma shr_1_nonneg r : 0 <= shr_m r -> 0 <= shr_m (shr_1 r).
Proof. destruct r as [[|[p|p|]|p] b s]; simpl; lia. Qed.

Lemma iter_nonneg n r : 0 <= shr_m r -> 0 <= shr_m (iter_pos shr_1 n r).
Proof. revert r. induction n as [n IH|n IH|]; intros r Hr; simpl; auto using shr_1_nonneg. Qed.

Lemma shr_fexp_nonneg m e l : 0 <= m -> 0 <= shr_m (shr_fexp fprec femax m e l).1.
Proof.
  intros Hm. assert (0 <= shr_m (shr_record_of_loc m l)) as Hr by (by destruct l as [|[]]).
  unfold shr_fexp, shr. destruct (_ - _); simpl; auto using iter_nonneg.
Qed.

Lemma round_number s m e l : 0 <= m -> is_nan (binary_round_aux fprec femax s m e l) = false.
Proof.
  intros Hm. unfold binary_round_aux. pose proof (shr_fexp_nonneg m e l Hm) as H1.
  destruct (shr_fexp _ _ m e l) as [r1 e1]. simpl in H1.
  assert (0 <= round_nearest_even (shr_m r1) (loc_of_shr_record r1)) as H2
    by (destruct (nearest_one (shr_m r1) (loc_of_shr_record r1)) as [-> | ->]; lia).
  pose proof (shr_fexp_nonneg _ e1 loc_Exact H2) as H3.
  destruct (shr_fexp _ _ _ e1 loc_Exact) as [r2 e2]. simpl in H3.
  destruct (shr_m r2); [done|by destruct (e2 <=? _)|lia].
Qed.

Lemma float_of_Z_number z : is_nan (float_of_Z z) = false.
Proof.
  unfold float_of_Z, binary_normalize, binary_round.
  destruct z as [|p|p]; [done|..]; destruct (shl_align _ _ _); by apply round_number.
Qed.
