(* ===== verification/DependencyWriteFacts.v ===== *)
(** What the usecases of dependencies keep: every stored rule relates two attributes
    of one tenant and one hierarchy and is valid for their types, along every
    history of the tables - so that rules resolve, whoever asks. *)

From Stdlib Require Import ZArith QArith Lia String Ascii List SpecFloat.
From stdpp Require Import base tactics list gmap fin_maps fin_sets strings option decidable.
From S2P Require Import Prelude GoText Values Ids Formula Attribute Access TypeDef TypeDefFacts Units.
From S2P Require Import Pagination Query Dependency DependencyFacts ResolverFacts ValueWrite AttributeWrite.
From S2P Require Import SchemaFacts ValueWriteFacts DependencyWrite.

Open Scope Z_scope.
Open Scope go_scope.

(** ** Loops *)

Lemma eachMap_Forall2 {A B} (f : A -> result B) l k :
  eachMap f l = Ok k <-> Forall2 (fun x y => f x = Ok y) l k.
Proof.
  revert k. induction l as [|x l IH]; intros k; simpl.
  - split; [intros [= <-]; constructor|]. by inversion 1.
  - split.
    + intros E. res_inv. constructor; [done|]. by apply IH.
    + inversion 1 as [|x' y l' k' Hx Hl]; subst. rewrite Hx. simpl. apply IH in Hl. by rewrite Hl.
Qed.

Lemma eachMap_keeps {A B} (P : A -> Prop) (Q : B -> Prop) (f : A -> result B) l k :
  (forall x y, P x -> f x = Ok y -> Q y) -> Forall P l -> eachMap f l = Ok k -> Forall Q k.
Proof.
  intros Hf Hl Hk. apply eachMap_Forall2 in Hk. revert Hl.
  induction Hk as [|x y l k Hxy _ IH]; intros Hl; [constructor|].
  apply Forall_cons_iff in Hl as [Hx Hl]. constructor; [by eapply Hf|by apply IH].
Qed.

Section Rules.
Context `{GoStd} `{GoUlid} `{GoNumeric} `{GoKeys}.

(** ** What the other steps keep of the schema *)

Lemma table_step_schema T T' : schema_ok T -> vals_ok T -> table_step T T' -> schema_step true true T T'.
Proof.
  intros HT HV. destruct 1 as [Hs Ev|rq i fresh c av Hf Hs|rq items fresh c out Hinj Hf Hs
    |rq items fresh c out Hinj Hnd Hf Hs|rq muts fresh c u Hinj Hf Hs|rq raw c av Hs]; [done|..]; apply ss_data.
  1,2: apply Execute_ok in Hs as [Hs _];
    apply (set_ok _ _ _ _ _ _ _ _ HT HV Hf) in Hs as [_ (E1 & E2 & _)]; done.
  1,2: unfold SetBatch in Hs; res_inv; apply Execute_ok in Hs as [Hs _];
    apply (setEach_ok fresh Hinj _ _ _ _ _ _ _ _ HT HV) in Hs as (_ & E1 & E2);
      [done|apply canonicalOrder_indices|auto].
  1,2: apply Execute_ok in Hs as [Hs _];
    apply (setEach_ok fresh Hinj _ _ _ _ _ _ _ _ HT HV) in Hs as (_ & E1 & E2); done.
  1,2: unfold ApplyMutations in Hs; case_bool_decide; [by injection Hs as <- _ _|];
    apply Execute_ok in Hs as [Hs _]; res_inv;
    match goal with E : applyEach _ _ _ _ _ = Ok ?x |- _ => destruct x as [T1 c1];
      apply (applyEach_ok fresh Hinj _ _ _ _ _ _ HT HV) in E as (_ & E1 & E2);
      [done|apply canonicalOrder_indices|auto] end.
  1,2: unfold ValueRemove in Hs; destruct (ParseID raw) as [i|]; [|done]; apply Execute_ok in Hs as [Hs _];
    by res_inv.
Qed.

(** A new attribute has a data type. *)
Lemma AttrCreate_typed relDefs rq i fresh T T' a evs :
  AttrCreate relDefs rq i fresh T = Ok (T', a, evs) -> ParseDataType (attrType a) = Ok (attrType a).
Proof.
  unfold AttrCreate. destruct (ParseID _) as [ti|]; [|done].
  destruct (ParseDataType (acDataType i)) as [dt|] eqn:Edt; [|done]. intros Hc. res_inv.
  match goal with E : New _ _ _ = Ok ?ae |- _ => destruct ae as [b es]; unfold New in E;
    cbv zeta in E; rename E into Hn end. simpl in Hn. res_inv.
  destruct (ParseDataType dt) as [dt'|] eqn:Ed; [|done]. res_inv. simpl.
  pose proof (ParseDataType_ok _ _ Ed) as ->. done.
Qed.

(** One attribute stored, new or of the identity of the one it replaces. *)
Definition puts (T T' : Tables) (b : AttrDefinition) : Prop :=
  T' = put T b /\
  (attrs T !! id b = None /\ ParseDataType (attrType b) = Ok (attrType b) \/
   exists b0, attrs T !! id b = Some b0 /\ identity b = identity b0).

Lemma schema_step_cases T T' :
  schema_ok T -> schema_step true true T T' ->
  attrs T' = attrs T /\ (types T' = types T \/ type_step true (types T) (types T')) \/
  exists b, puts T T' b.
Proof.
  intros HT. destruct 1 as [c Hs ->|relDefs rq j fresh b evs Hf Hc|relDefs rq j b evs Hc
    |rq raw b evs Hc|rq raw b evs _ Hc|Et Ea]; [left; by auto| | | | |left; by auto]; right; exists b.
  - pose proof (AttrCreate_typed _ _ _ _ _ _ _ _ Hc) as Hb.
    destruct (create_spec _ _ _ _ _ _ _ _ HT Hc) as (td & l & root & links & _ & _ & _ & Eid & _ & -> & _).
    split; [done|]. left. by rewrite Eid.
  - destruct (update_spec _ _ _ _ _ _ _ HT Hc) as (b0 & comp & Hb0 & Hid & _ & _ & -> & _).
    split; [done|]. right. by exists b0.
  - destruct (transition_spec _ _ _ _ _ _ _ HT Hc) as (b0 & Hb0 & -> & _ & _ & (at_ & E) & _).
    split; [done|]. right. exists b0. by rewrite E at 2.
  - destruct (transition_spec _ _ _ _ _ _ _ HT Hc) as (b0 & Hb0 & -> & _ & _ & (at_ & E) & _).
    split; [done|]. right. exists b0. by rewrite E at 2.
Qed.

(** Attributes keep their identity. *)
Lemma schema_step_attr T T' i a :
  schema_ok T -> schema_step true true T T' -> attrs T !! i = Some a ->
  exists a', attrs T' !! i = Some a' /\ identity a' = identity a.
Proof.
  intros HT Hs Ha. destruct (schema_step_cases T T' HT Hs) as [[Ea _]|(b & -> & Hb)].
  { exists a. by rewrite Ea. }
  simpl. destruct (decide (i = id b)) as [->|Hne].
  - destruct Hb as [[Hn _]|(b0 & Hb0 & Hid)]; [congruence|]. exists b. rewrite lookup_insert_eq.
    split; [done|congruence].
  - exists a. by rewrite lookup_insert_ne.
Qed.

Definition typed_ok (T : Tables) : Prop :=
  forall i a, attrs T !! i = Some a -> ParseDataType (attrType a) = Ok (attrType a).

Lemma schema_step_typed T T' :
  schema_ok T -> typed_ok T -> schema_step true true T T' -> typed_ok T'.
Proof.
  intros HT Hty Hs i a. destruct (schema_step_cases T T' HT Hs) as [[-> _]|(b & -> & Hb)]; [apply Hty|].
  simpl. destruct (decide (i = id b)) as [->|Hne]; [|rewrite lookup_insert_ne by done; apply Hty].
  rewrite lookup_insert_eq. intros [= <-]. destruct Hb as [[_ Hb]|(b0 & Hb0 & Hid)]; [done|].
  apply identity_eq in Hid as (_ & _ & _ & _ & ->). by eapply Hty.
Qed.

(** Types keep their lines. *)
Lemma schema_step_line T T' t a a' :
  schema_ok T -> schema_step true true T T' -> typeDefinitionID a' = typeDefinitionID a ->
  in_schema (types T) t a -> in_schema (types T') t a'.
Proof.
  intros HT Hs E (u & l & Hu & Hl & Hin). unfold in_schema. rewrite E.
  pose proof (schema_step_ok _ _ _ _ HT Hs) as HT'.
  destruct (schema_step_cases T T' HT Hs) as [[_ [Et|Hty]]|(b & -> & _)];
    [rewrite Et; by exists u, l| |by exists u, l].
  destruct (type_step_keeps _ _ _ (so_types _ HT) Hty) as [Hk _]. destruct (Hk _ _ Hu) as (u' & Hu' & _).
  destruct (Ancestors_keeps _ _ true (so_types _ HT) (so_types _ HT') Hk _ _ _ _ Hu Hu' Hl) as (l' & Hl' & Ei).
  exists u', l'. split_and!; [done|done|]. rewrite fmap_cons, Ei.
  rewrite (chain_id _ (so_types _ HT') _ _ Hu'), <- (chain_id _ (so_types _ HT) _ _ Hu). by rewrite fmap_cons in Hin.
Qed.

(** ** What a stored rule owes to its attributes *)

Definition same_line (c : Catalogue) (a b : AttrDefinition) : Prop :=
  in_schema c (typeDefinitionID a) b \/ in_schema c (typeDefinitionID b) a.

Record rule_row (T : Tables) (d : Dependency) (source target : AttrDefinition) : Prop := {
  rr_source : attrs T !! sourceID d = Some source;
  rr_target : attrs T !! targetID d = Some target;
  rr_differ : sourceID d <> targetID d;
  rr_tenants : tenantID source = depTenant d /\ tenantID target = depTenant d;
  rr_line : same_line (types T) source target;
  rr_conditions : conditions d <> [] /\
    Forall (fun c => ConditionValidate c (attrType source) = Ok tt /\ bounds_ok c) (conditions d);
  rr_allowed : Forall (fun v => dataType v = attrType target) (AllowedValues (effect d));
  rr_constraints : ConstraintsValidate (attrType target) (EffConstraints (effect d)) = Ok tt;
  rr_enforce : demandsOnWrite (effect d) = true \/ EffEnforcement (effect d) = EnforceOnRead }.

Record rules_ok (T : Tables) : Prop := {
  ru_keyed : map_Forall (fun i d => depID d = i) (deps T);
  ru_row : forall i d, deps T !! i = Some d -> exists s t, rule_row T d s t }.

Lemma schema_step_rules T T' :
  schema_ok T -> schema_step true true T T' -> deps T' = deps T -> rules_ok T -> rules_ok T'.
Proof.
  intros HT Hs Ed [R1 R2]. split; rewrite Ed; [done|]. intros i d Hd.
  destruct (R2 i d Hd) as (s & t & [Q1 Q2 Q3 [Q4 Q4'] Q5 Q6 Q7 Q8 Q9]).
  destruct (schema_step_attr T T' _ s HT Hs Q1) as (s' & Hs' & (_ & Es & _ & Ens & Ets)%identity_eq).
  destruct (schema_step_attr T T' _ t HT Hs Q2) as (t' & Ht' & (_ & Et & _ & Ent & Ett)%identity_eq).
  exists s', t'. split; rewrite ?Ets, ?Ett, ?Ens, ?Ent; try done.
  unfold same_line in *. rewrite Es, Et. destruct Q5 as [Q5|Q5]; [left|right];
    by eapply schema_step_line.
Qed.

(** ** Rebased operands *)

(** [Rat.Float64] answers a number or an infinity. *)
Hypothesis rat_number : forall q, is_nan (rat_Float64 q) = false.

Lemma Rebase_parsed f v w : Rebase f v = Ok w -> parsed v -> parsed w.
Proof using rat_number.
  intros Hr Hv. unfold Rebase in Hr. case_bool_decide; [|simpl in Hr; by injection Hr as <-].
  simpl in Hr. destruct (match jsonVal v with QuantityPayload m u => _ | _ => _ end) as [m u]. res_inv.
  pose proof (NewQuantityValue_wf _ _ _ _ Hr) as [_ Hw]. split; [done|].
  unfold ToBase in *. repeat case_match; try done. simplify_eq.
  unfold NewQuantityValue in Hr. res_inv. unfold comparable. simpl. apply rat_number.
Qed.

Lemma rebaseWith_parsed T rq def f v w :
  rebaseWith T rq def = Ok f -> f v = Ok w -> parsed v -> parsed w.
Proof using rat_number.
  unfold rebaseWith. case_bool_decide; simpl; [|by intros [= <-] [= <-]].
  destruct (families T); [|done]. intros Hf. res_inv. destruct (ParseID _); [|done]. res_inv.
  by apply Rebase_parsed.
Qed.

Lemma rebaseCondition_ok (f : Value -> result Value) c c' :
  (forall v w, f v = Ok w -> parsed v -> parsed w) ->
  bounds_ok c -> rebaseCondition f c = Ok c' -> bounds_ok c'.
Proof.
  intros Hf Hop Hc. unfold rebaseCondition in Hc. res_inv. unfold bounds_ok. simpl.
  assert (forall o o' b, rebaseOpt f o = Ok o' -> o' = Some b ->
    (forall a, o = Some a -> parsed a) -> parsed b) as Hopt.
  { intros [a|] o' b Ho -> Ha; simpl in Ho; res_inv; [|done]. simplify_eq. by eapply Hf; [|apply Ha]. }
  intros b [Hb|Hb];
    match goal with E : rebaseOpt f _ = Ok ?o, Ho : ?o = Some b |- _ => apply (Hopt _ _ _ E Ho) end;
    intros a Ha; apply Hop; [by left|by right].
Qed.

(** What [decodeRule] hands over: bounds that came through [ParseValue].  It does
    not compile patterns, and the usecases compile them as written only, so a rule
    whose pattern does not compile anchored is stored like any other. *)
Definition decoded_ok (r : result (list Condition * Effect)) : Prop :=
  forall cs e, r = Ok (cs, e) -> Forall bounds_ok cs.

Lemma normalize_ok T rq source target cs e cs' e' :
  normalizeQuantityOperands T rq source target cs e = Ok (cs', e') ->
  Forall bounds_ok cs -> Forall bounds_ok cs'.
Proof using rat_number.
  unfold normalizeQuantityOperands, RebaseRuleOperands. intros Hn Hcs. res_inv.
  match goal with E : rebaseWith T rq source = Ok ?f, E2 : eachMap _ _ = Ok ?l |- Forall _ ?k =>
    assert (k = l) as -> by (by simplify_eq/=);
    apply (eachMap_keeps bounds_ok bounds_ok) in E2; [done| |done];
    intros c c' Hc; apply rebaseCondition_ok; [|done]; intros v w Hv; by apply (rebaseWith_parsed _ _ _ _ _ _ E Hv) end.
Qed.

(** ** The usecases *)

(** The declared type of each attribute. *)
Definition type_at (T : Tables) (i : ID) : DataType :=
  match attrs T !! i with Some a => attrType a | None => DataTypeNone end.

Lemma type_at_typed T a : attrs T !! id a = Some a -> typed (type_at T) (Some a).
Proof. intros Ha. simpl. unfold type_at. by rewrite Ha. Qed.

Lemma checkSameChain_line T source target :
  schema_ok T -> checkSameChain T source target = Ok tt ->
  attrs T !! id source = Some source -> attrs T !! id target = Some target ->
  same_line (types T) source target.
Proof.
  intros HT Hc Hs Ht.
  destruct (so_declared _ HT _ _ Hs) as (ts & ls & Hts & Hls & _).
  destruct (so_declared _ HT _ _ Ht) as (tt_ & lt & Htt & Hlt & _).
  assert (forall a b t l, types T !! typeDefinitionID a = Some t -> Ancestors (types T) t = Ok l ->
    IsAncestorOrSelf (types T) t (typeDefinitionID b) = Ok true -> in_schema (types T) (typeDefinitionID a) b) as Hanc.
  { intros a b t l Ha Hl Hi. exists t, l. split_and!; [done|done|]. rewrite fmap_cons, elem_of_cons.
    apply IsAncestorOrSelf_true in Hi as [Hi|(l' & Hl' & Hi)]; [by left|right]. by assert (l' = l) as <- by congruence. }
  unfold checkSameChain in Hc. case_bool_decide as E.
  - left. exists ts, ls. split_and!; [done|done|]. rewrite <- E. apply elem_of_cons. left.
    by rewrite (chain_id _ (so_types _ HT) _ _ Hts).
  - res_inv. unfold TypeGet in *. rewrite Hts in *. simplify_eq.
    match goal with E1 : IsAncestorOrSelf _ ?t _ = Ok ?b, Hneg : negb ?ok = false |- _ =>
      destruct b; [left; by eapply Hanc|right]; destruct ok; [|done] end.
    res_inv. rewrite Htt in *. simplify_eq. by eapply Hanc.
Qed.

Lemma rule_valid_row T d source target :
  attrs T !! id source = Some source -> attrs T !! id target = Some target ->
  sourceID d = id source -> targetID d = id target -> id source <> id target ->
  tenantID source = depTenant d -> tenantID target = depTenant d ->
  same_line (types T) source target -> Forall bounds_ok (conditions d) ->
  validateRule source target (conditions d) (effect d) = Ok tt -> rule_row T d source target.
Proof.
  intros Hs Ht Es Et Hne Tns Tnt Hl Hc Hv.
  apply (validateRule_valid (type_at T)) in Hv as (V1 & V2 & _ & V4 & V5 & V6); [|by apply type_at_typed..].
  pose proof (type_at_typed T source Hs) as Ets. pose proof (type_at_typed T target Ht) as Ett. simpl in Ets, Ett.
  rewrite Ets in V2. rewrite Ett in V4, V5. split; rewrite ?Es, ?Et; try done. split; [done|].
  rewrite list.Forall_forall in *. intros c Hin. split; [by apply V2|by apply Hc].
Qed.

Lemma save_rules T d s t : rules_ok T -> rule_row T d s t -> rules_ok (DepSave T d).
Proof.
  intros [R1 R2] Hrow. split; simpl.
  - by apply map_Forall_insert_2.
  - intros i d'. destruct (decide (i = depID d)) as [->|Hne].
    + rewrite lookup_insert_eq. intros [= <-]. exists s, t. by destruct Hrow.
    + rewrite lookup_insert_ne by done. intros Hd. destruct (R2 i d' Hd) as (s' & t' & Hr).
      exists s', t'. by destruct Hr.
Qed.

Lemma DepGet_row T i d :
  rules_ok T -> DepGet T i = Ok d -> depID d = i /\ deps T !! i = Some d /\ exists s t, rule_row T d s t.
Proof.
  intros [R1 R2] Hd. unfold DepGet in Hd. destruct (deps T !! i) as [d'|] eqn:E; [|done].
  injection Hd as ->. split_and!; [by apply R1|done|by eapply R2].
Qed.

Lemma EnsureTenant_ok tenant owner e : EnsureTenant tenant owner e = Ok tt -> owner = tenant.
Proof. unfold EnsureTenant. by case_bool_decide. Qed.

Lemma stored_tenant T a i :
  schema_ok T -> attrs T !! i = Some a -> str_IsZero (tenantID a) = false.
Proof.
  intros HT Ha. destruct (so_declared _ HT _ _ Ha) as (t & l & Ht & _ & <-).
  destruct (cok_fields _ (so_types T HT) _ _ Ht) as (_ & _ & Hne). by apply bool_decide_eq_false_2.
Qed.

Lemma create_row rq i fresh T T' d evs :
  schema_ok T -> decoded_ok (dcRule i) -> DepCreate rq i fresh T = Ok (T', d, evs) ->
  T' = DepSave T d /\ depID d = fresh /\ exists s t, rule_row T d s t.
Proof using rat_number.
  intros HT Hdec. unfold DepCreate. destruct (ParseID _) as [si|]; [|done].
  destruct (ParseID _) as [ti|]; [|done]. intros Hc. res_inv.
  match goal with E1 : AttrGet T si = Ok ?s, E2 : AttrGet T ti = Ok ?t, E3 : dcRule i = Ok ?r,
    E4 : normalizeQuantityOperands _ _ _ _ _ _ = Ok ?r', E5 : DepNew _ _ _ _ _ _ _ _ = Ok ?de |- _ =>
      rename s into source, t into target; apply (AttrGet_spec _ _ _ HT) in E1 as [_ Hs];
      apply (AttrGet_spec _ _ _ HT) in E2 as [_ Ht]; destruct r as [cs e], r' as [cs' e'], de as [d' es];
      pose proof (normalize_ok _ _ _ _ _ _ _ _ E4 (Hdec _ _ E3)) as Hcs; rename E5 into Hn end.
  simpl in *. split; [done|].
  match goal with E1 : EnsureTenant _ (tenantID source) _ = Ok _, E2 : EnsureTenant _ (tenantID target) _ = Ok _ |- _ =>
    apply EnsureTenant_ok in E1; apply EnsureTenant_ok in E2; rename E1 into Tns, E2 into Tnt end.
  unfold DepNew in Hn. res_inv. breflect. simpl. split; [done|].
  exists source, target. apply rule_valid_row; simpl; try done.
  - by rewrite (stored_tenant T source (id source)).
  - rewrite (stored_tenant T source (id source)) by done. congruence.
  - by apply checkSameChain_line.
Qed.

Lemma update_row rq i T T' d evs :
  schema_ok T -> rules_ok T -> decoded_ok (duRule i) -> DepUpdateCase rq i T = Ok (T', d, evs) ->
  T' = DepSave T d /\ (exists d0, deps T !! depID d = Some d0 /\ DepIsArchived d0 = false) /\
  exists s t, rule_row T d s t.
Proof using rat_number.
  intros HT HR Hdec. unfold DepUpdateCase. destruct (ParseID _) as [di|]; [|done]. intros Hc. res_inv.
  match goal with E0 : DepGet T di = Ok ?o, E1 : AttrGet T (sourceID ?o) = Ok ?s, E2 : AttrGet T (targetID ?o) = Ok ?t,
    E3 : duRule i = Ok ?r, E4 : normalizeQuantityOperands _ _ _ _ _ _ = Ok ?r',
    E5 : DepUpdate _ _ _ _ _ _ _ = Ok ?de |- _ =>
      apply (DepGet_row _ _ _ HR) in E0 as (Ei & Hd0 & s0 & t0 & [Q1 Q2 Q3 [Q4 Q4'] Q5 Q6 Q7 Q8 Q9]);
      rename o into d0, s into source, t into target;
      apply (AttrGet_spec _ _ _ HT) in E1 as [Es Hs]; apply (AttrGet_spec _ _ _ HT) in E2 as [Et Ht];
      destruct r as [cs e], r' as [cs' e'], de as [d' es];
      pose proof (normalize_ok _ _ _ _ _ _ _ _ E4 (Hdec _ _ E3)) as Hcs; rename E5 into Hu end.
  simpl in *. assert (s0 = source) as -> by congruence. assert (t0 = target) as -> by congruence.
  unfold DepUpdate in Hu. res_inv. simpl. split; [done|]. split; [by exists d0|].
  exists source, target. apply rule_valid_row; simpl; congruence || done.
Qed.

Lemma archive_row rq raw T T' d evs :
  rules_ok T -> DepArchiveCase rq raw T = Ok (T', d, evs) ->
  T' = DepSave T d /\ (exists d0, deps T !! depID d = Some d0 /\ DepIsArchived d0 = false) /\
  exists s t, rule_row T d s t.
Proof.
  intros HR. unfold DepArchiveCase. destruct (ParseID _) as [di|]; [|done]. intros Hc. res_inv.
  match goal with E0 : DepGet T di = Ok ?d0, E5 : DepArchive _ _ = Ok ?de |- _ =>
    apply (DepGet_row _ _ _ HR) in E0 as (Ei & Hd0 & s & t & Hrow); destruct de as [d' es];
    unfold DepArchive in E5; res_inv; simpl; split; [done|]; split; [by exists d0|] end.
  exists s, t. by destruct Hrow.
Qed.

(** ** Histories *)

(** Every change of the tables, those of the rules included. *)
Inductive rule_step (T T' : Tables) : Prop :=
  | ru_table : table_step T T' -> deps T' = deps T -> rule_step T T'
  | ru_create rq i fresh d evs :
      deps T !! fresh = None -> decoded_ok (dcRule i) ->
      DepCreate rq i fresh T = Ok (T', d, evs) -> rule_step T T'
  | ru_update rq i d evs :
      decoded_ok (duRule i) -> DepUpdateCase rq i T = Ok (T', d, evs) -> rule_step T T'
  | ru_archive rq raw d evs : DepArchiveCase rq raw T = Ok (T', d, evs) -> rule_step T T'.

Inductive rule_reachable : Tables -> Prop :=
  | rur_empty T : types T = ∅ -> attrs T = ∅ -> vals T = ∅ -> deps T = ∅ -> rule_reachable T
  | rur_step T T' : rule_reachable T -> rule_step T T' -> rule_reachable T'.

Record tables_ok (T : Tables) : Prop := {
  tb_schema_ok : schema_ok T;
  tb_vals_ok : vals_ok T;
  tb_typed : typed_ok T;
  tb_rules : rules_ok T }.

Lemma dep_save_ok T d s t : tables_ok T -> rule_row T d s t -> tables_ok (DepSave T d).
Proof.
  intros [K1 K2 K3 K4] Hr. split; [by apply (schema_same T)|by apply (vals_shape T)|exact K3|by eapply save_rules].
Qed.

Lemma rule_step_ok T T' : tables_ok T -> rule_step T T' -> tables_ok T'.
Proof using rat_number.
  intros HT. pose proof HT as [K1 K2 K3 K4]. destruct 1 as [Hs Ed|rq i fresh d evs _ Hd Hc|rq i d evs Hd Hc|rq raw d evs Hc].
  - pose proof (table_step_ok _ _ K1 K2 Hs) as [K1' K2']. apply table_step_schema in Hs; [|done|done].
    split; [done|done|by apply (schema_step_typed T)|by apply (schema_step_rules T)].
  - destruct (create_row _ _ _ _ _ _ _ K1 Hd Hc) as (-> & _ & s & t & Hr). by eapply dep_save_ok.
  - destruct (update_row _ _ _ _ _ _ K1 K4 Hd Hc) as (-> & _ & s & t & Hr). by eapply dep_save_ok.
  - destruct (archive_row _ _ _ _ _ _ K4 Hc) as (-> & _ & s & t & Hr). by eapply dep_save_ok.
Qed.

Lemma rule_reachable_ok T : rule_reachable T -> tables_ok T.
Proof using rat_number.
  induction 1 as [T E1 E2 E3 E4|T T' _ IH Hs]; [|by eapply rule_step_ok].
  destruct (table_reachable_ok T (tr_empty T E1 E2 E3)) as [K1 K2]. split; [done|done| |].
  - intros i a. by rewrite E2, lookup_empty.
  - split; rewrite E4; [apply map_Forall_empty|]. intros i d. by rewrite lookup_empty.
Qed.

(** ** Properties *)

(** C32: every rule stored, along every history of schema changes, value writes and
    rule usecases - whatever patterns its conditions have, compiling anchored or
    not - relates two different stored attributes of its tenant, one
    declared on a type of the other's line; it has conditions, all valid for the
    source's data type, allowed values and constraints of the target's, and
    refuses writes only where it demands a value - whatever became of the two
    attributes and their types since. *)
Theorem rules_sound T i d :
  rule_reachable T -> deps T !! i = Some d ->
  depID d = i /\ sourceID d <> targetID d /\
  exists source target, attrs T !! sourceID d = Some source /\ attrs T !! targetID d = Some target /\
    tenantID source = depTenant d /\ tenantID target = depTenant d /\
    (exists t l, types T !! tdID t = Some t /\ Ancestors (types T) t = Ok l /\
       let line := tdID <$> t :: l in
       (typeDefinitionID source = tdID t /\ typeDefinitionID target ∈ line \/
        typeDefinitionID target = tdID t /\ typeDefinitionID source ∈ line)) /\
    conditions d <> [] /\
    Forall (fun c => ConditionValidate c (attrType source) = Ok tt) (conditions d) /\
    Forall (fun v => dataType v = attrType target) (AllowedValues (effect d)) /\
    ConstraintsValidate (attrType target) (EffConstraints (effect d)) = Ok tt /\
    (EffEnforcement (effect d) = EnforceOnWrite -> DemandsValue (effect d) = true).
Proof using rat_number.
  intros Hr Hd. destruct (rule_reachable_ok T Hr) as [K1 K2 K3 [K4 K5]].
  destruct (K5 i d Hd) as (s & t & [Q1 Q2 Q3 [Q4 Q4'] Q5 [Q6 Q6'] Q7 Q8 Q9]).
  split; [by apply K4|]. split; [done|]. exists s, t. split_and!; try done.
  - destruct Q5 as [(u & l & Hu & Hl & Hin)|(u & l & Hu & Hl & Hin)];
      pose proof (chain_id _ (so_types _ K1) _ _ Hu) as Eu; rewrite <- Eu in Hu; exists u, l;
      (split; [done|]; split; [done|]); [left|right]; done.
  - eapply list.Forall_impl; [exact Q6'|]. by intros c [? _].
  - intros E. destruct Q9 as [Q9|Q9]; [|congruence]. unfold demandsOnWrite in Q9. by breflect.
Qed.

(** Two updates that name the version they read: at most one succeeds. *)
Theorem update_once rq i T T' d evs v rq' i' T'' d' evs' :
  rule_reachable T -> depVersion d < 2 ^ 63 - 1 -> 0 <= v -> duVersion i = Some v -> duVersion i' = Some v -> duID i' = duID i ->
  DepUpdateCase rq i T = Ok (T', d, evs) -> DepUpdateCase rq' i' T' <> Ok (T'', d', evs').
Proof using rat_number.
  intros Hr Hmax Hv0 Ev Ev' Ei Hu Hu'. destruct (rule_reachable_ok T Hr) as [K1 K2 K3 K4].
  unfold DepUpdateCase in Hu, Hu'. rewrite Ei in Hu'. destruct (ParseID (duID i)) as [di|]; [|done].
  rewrite Ev in Hu. rewrite Ev' in Hu'.
  apply res_bind_ok in Hu as (r & _ & Hu). apply res_bind_ok in Hu as (d0 & Hd0 & Hu).
  apply (DepGet_row _ _ _ K4) in Hd0 as (Ed0 & _). apply res_bind_ok in Hu as (_ & _ & Hu).
  destruct (negb (v =? depVersion d0)) eqn:Ec; [done|]. breflect.
  do 4 (apply res_bind_ok in Hu as (? & _ & Hu)). apply res_bind_ok in Hu as (de & Hde & Hu).
  injection Hu as Hu1 Hu2 _. subst d. unfold DepUpdate in Hde. revert Hu'. res_inv. intros Hu'. cbn [fst] in *.
  apply res_bind_ok in Hu' as (r' & _ & Hu'). apply res_bind_ok in Hu' as (d1 & Hd1 & Hu').
  apply res_bind_ok in Hu' as (_ & _ & Hu'). unfold DepGet, DepSave in Hd1. simpl in Hd1.
  rewrite lookup_insert_eq in Hd1. injection Hd1 as <-. simpl in Hu', Hmax.
  destruct (negb (_ =? bump (depVersion d0))) eqn:Ec'; [done|]. breflect.
  unfold bump, wrap64 in *. rewrite Z.mod_small in * by lia. lia.
Qed.
End Rules.
