(* ===== verification/DependencyReads.v ===== *)
(** What the reads of dependencies answer: the schema of one attribute for one
    entity, the completeness of an entity, and that of the entities of a type -
    and that none of them depends on a value the caller may not read. *)

From Stdlib Require Import ZArith QArith Lia String Ascii List SpecFloat Sorted Permutation.
From stdpp Require Import base tactics list gmap fin_maps fin_sets strings option decidable.
From S2P Require Import Prelude GoText Values Ids Formula Attribute Access TypeDef TypeDefFacts Units.
From S2P Require Import Pagination PaginationFacts Query Dependency DependencyFacts ResolverFacts ValueWrite.
From S2P Require Import AttributeWrite SchemaFacts ValueWriteFacts ValueWriteProps DependencyWrite DependencyWriteFacts Scores.

Open Scope Z_scope.
Open Scope go_scope.

(** ** Attributes, each once *)

Lemma dedupe_app seen l k :
  dedupeAttrs seen (l ++ k) = dedupeAttrs seen l ++ dedupeAttrs (rev (id <$> dedupeAttrs seen l) ++ seen) k.
Proof.
  revert seen. induction l as [|a l IH]; intros seen; simpl; [done|]. case_bool_decide; [apply IH|].
  simpl. rewrite IH. by rewrite <- app_assoc.
Qed.

Lemma dedupe_not_seen seen l a : a ∈ dedupeAttrs seen l -> id a ∉ seen.
Proof.
  revert seen. induction l as [|b l IH]; intros seen; simpl; [by intros ?%not_elem_of_nil|].
  case_bool_decide as Hb; [apply IH|]. intros [->|Ha]%elem_of_cons; [done|]. apply IH in Ha. set_solver.
Qed.

Lemma dedupe_listed seen l a : a ∈ dedupeAttrs seen l -> a ∈ l.
Proof.
  revert seen. induction l as [|b l IH]; intros seen; simpl; [done|].
  case_bool_decide; [by right; eapply IH|]. intros [->|Ha]%elem_of_cons; [by left|right; by eapply IH].
Qed.

Lemma dedupe_nodup seen l : NoDup (id <$> dedupeAttrs seen l).
Proof.
  revert seen. induction l as [|a l IH]; intros seen; simpl; [constructor|].
  case_bool_decide as Ha; [apply IH|]. rewrite fmap_cons. constructor; [|apply IH].
  intros (b & E & Hb)%list_elem_of_fmap. apply dedupe_not_seen in Hb. rewrite E in Hb. set_solver.
Qed.

Lemma dedupe_length seen l : (length (dedupeAttrs seen l) <= length l)%nat.
Proof.
  revert seen. induction l as [|a l IH]; intros seen; simpl; [done|].
  case_bool_decide; simpl; [pose proof (IH seen)|pose proof (IH (id a :: seen))]; lia.
Qed.

Lemma listAll_length T links all : listAll T links = Ok all -> (length all <= 1000 * length links)%nat.
Proof.
  revert all. induction links as [|link links IH]; intros all Ha; simpl in Ha; [by simplify_eq|]. res_inv.
  match goal with E : ListAllForType _ _ = Ok ?here, E2 : listAll T links = Ok ?rest |- _ =>
    specialize (IH _ E2); unfold ListAllForType in E; cbv zeta in E; res_inv end.
  match goal with E : (MaxPerType <? _)%nat = false |- _ => apply Nat.ltb_ge in E; unfold MaxPerType in E end.
  rewrite length_app. simpl length. lia.
Qed.

Lemma ancestorsLoop_length c rounds seen t out l :
  ancestorsLoop c rounds seen t out = Ok l -> (length l <= length out + rounds)%nat.
Proof.
  revert seen t out. induction rounds as [|rounds IH]; intros seen t out Hl; simpl in Hl; [done|].
  destruct (tdExtendsID t) as [p|]; [|simplify_eq; lia]. res_inv. apply IH in Hl. rewrite length_app in Hl.
  simpl in Hl. lia.
Qed.

(** A schema has at most a thousand attributes for each of eleven types. *)
Lemma gateSchema_small T i schema : gateSchema T i = Ok schema -> Z.of_nat (length schema) <= 11000.
Proof.
  unfold gateSchema, Chain. intros Hg. res_inv.
  match goal with E : Ancestors _ _ = Ok _ |- _ => apply ancestorsLoop_length in E end.
  match goal with E : listAll _ _ = Ok ?all |- _ => apply listAll_length in E; pose proof (dedupe_length [] all) end.
  simpl length in *. unfold maxHierarchyDepth in *. lia.
Qed.

(** ** A type with one attribute too many *)

Lemma values_insert (m : gmap ID AttrDefinition) i a : values (<[i := a]> m) ≡ₚ a :: values (delete i m).
Proof.
  unfold values. rewrite <- insert_delete_eq, map_to_list_insert by apply lookup_delete_eq. done.
Qed.

(** Restoring an attribute does not count the ones its type has: a type with a
    thousand gets one more, and its schema cannot be walked any more. *)
Theorem restore_over_limit `{GoStd} `{GoUlid} `{GoNumeric} `{GoKeys} rq raw T T' a evs :
  schema_ok T -> AttrTransition false rq raw T = Ok (T', a, evs) ->
  length (ListByTypeDefinition T (typeDefinitionID a)) = MaxPerType ->
  exists e, ListAllForType T' (typeDefinitionID a) = Err e /\
    (forall t l, TypeGet (types T') (typeDefinitionID a) = Ok t -> Chain (types T') t = Ok l ->
       gateSchema T' (typeDefinitionID a) = Err e).
Proof.
  intros HT Hr Hlen. destruct (transition_spec _ _ _ _ _ _ _ HT Hr) as (a0 & Ha0 & -> & La & La0 & (at_ & Ea) & _).
  set (p := fun b => bool_decide (typeDefinitionID b = typeDefinitionID a) && negb (IsArchived b)).
  assert (length (ListByTypeDefinition (put T a) (typeDefinitionID a)) = S MaxPerType) as Hl.
  { rewrite <- Hlen. unfold ListByTypeDefinition. fold p. rewrite !sort_by_perm. simpl attrs.
    rewrite (filter_perm p _ _ (values_insert (attrs T) (id a) a)).
    rewrite <- (insert_id (attrs T) (id a) a0 Ha0) at 2.
    rewrite (filter_perm p _ _ (values_insert (attrs T) (id a) a0)). simpl.
    assert (p a = true) as -> by (unfold p; by rewrite bool_decide_true, La).
    assert (p a0 = false) as -> by (unfold p; by rewrite La0, andb_false_r). done. }
  assert (exists e, ListAllForType (put T a) (typeDefinitionID a) = Err e) as [e He].
  { unfold ListAllForType. cbv zeta. rewrite Hl. eexists. reflexivity. }
  exists e. split; [done|]. intros t l Ht Hc. unfold gateSchema. rewrite Ht. simpl in *. rewrite Hc. simpl.
  unfold Chain in Hc. apply res_bind_ok in Hc as (k & _ & Hc). injection Hc as <-. cbn [listAll].
  pose proof (chain_id _ (so_types _ HT) (typeDefinitionID a) t) as Et. unfold TypeGet in Ht.
  destruct (types T !! typeDefinitionID a) as [t'|]; [|done]. injection Ht as ->.
  by rewrite (Et eq_refl), He.
Qed.

Section Reads.
Context `{GoStd} `{GoUlid} `{GoNumeric} `{GoKeys} `{GoCursor} `{GoQuery}.
Hypothesis rat_number : forall q, is_nan (rat_Float64 q) = false.
Hypothesis ulid_inj : Inj (=) (=) ulid_String.

(** ** What a caller sees *)

Definition visible (T : Tables) (access : Access) (av : AttributeValue) : bool :=
  match attrs T !! avAttrID av with Some a => CanRead access (internalName a) | None => false end.

Lemma attrs_repository T : schema_ok T -> repository (attrs T) (AttrGetMany T).
Proof.
  intros HT. split; [apply (so_keyed _ HT)|]. intros ids. eexists. split; [done|]. intros d.
  rewrite list_elem_of_omap. split.
  - intros (i & Hi & Hd). pose proof (so_keyed _ HT i d Hd) as E. simpl in E. by subst.
  - intros [Hi Hd]. by exists (id d).
Qed.

Lemma readableOnly_exact T rq avs :
  schema_ok T -> (forall r, r ∈ avs -> exists a, attrs T !! avAttrID r = Some a) ->
  readableOnly T rq avs = Ok (List.filter (visible T (rqAccess rq)) avs).
Proof using ulid_inj.
  intros HT Hin. unfold readableOnly. destruct (bool_decide (length avs = 0%nat)) eqn:E0; simpl.
  { breflect. apply nil_length_inv in E0. by subst. }
  destruct (Admin (rqAccess rq)) eqn:Ea.
  { f_equal. symmetry. apply filter_all. intros r Hr. destruct (Hin r Hr) as [a Ha]. unfold visible. rewrite Ha.
    unfold CanRead. by rewrite Ea. }
  destruct (permitted_exact (attrs T) (AttrGetMany T) (attrs_repository T HT) ulid_inj CanRead (rqAccess rq)
    (avAttrID <$> avs)) as (m & Em & Hm).
  unfold Readable. rewrite Em. simpl. f_equal. apply List.filter_ext_in. intros r Hr%list_elem_of_In.
  rewrite Hm, bool_decide_true by (apply list_elem_of_fmap; by exists r).
  unfold allowed, visible. by rewrite Ea.
Qed.

Lemma group_values_forall (P : ID -> Value -> Prop) rows m :
  map_Forall (fun i vs => Forall (P i) vs) m -> Forall (fun r => P (avAttrID r) (avValue r)) rows ->
  map_Forall (fun i vs => Forall (P i) vs) (group_values m rows).
Proof.
  intros Hm Hr. revert m Hm. induction Hr as [|r rows Hr _ IH]; intros m Hm; [done|]. simpl. apply IH.
  intros i vs. destruct (decide (i = avAttrID r)) as [->|Hne].
  - rewrite lookup_insert_eq. intros [= <-]. apply Forall_app. split; [|by repeat constructor].
    destruct (m !! avAttrID r) eqn:E; [exact (Hm _ _ E)|constructor].
  - rewrite lookup_insert_ne by done. apply Hm.
Qed.

(** ** Patterns that do not compile anchored *)

(** Every pattern of the rules compiles in the form it is evaluated in. *)
Definition anchored_rules (rules : list Dependency) : Prop :=
  Forall (fun d => Forall anchors (conditions d)) rules.

(** One of the rules has a pattern that does not. *)
Definition unanchored (rules : list Dependency) : Prop :=
  exists d c, d ∈ rules /\ c ∈ conditions d /\
    CKind c = CondPattern /\ regexp_Compile (conditionPattern c) = None.

Lemma anchored_or rules : anchored_rules rules \/ unanchored rules.
Proof using.
  destruct (decide (anchored_rules rules)) as [Ha|Hn]; [by left|right].
  apply list.not_Forall_Exists in Hn; [|apply _].
  apply list.Exists_exists in Hn as (d & Hd & Hn). apply list.not_Forall_Exists in Hn; [|apply _].
  apply list.Exists_exists in Hn as (c & Hc & Hn). by exists d, c; destruct (anchors_not c Hn).
Qed.

(** ** One resolution *)

Section Resolution.
Variables (T : Tables) (rq : Request).
Hypothesis (HT : tables_ok T).
(** No stored value is a NaN; facts are parsed values. *)
Hypothesis no_nan : forall i r, vals T !! i = Some r -> comparable (avValue r).
Hypothesis facts_parsed : map_Forall (fun _ => parsed) (rqFacts rq).

Lemma ListByTarget_elem d target :
  d ∈ ListByTarget T target <->
  exists i, deps T !! i = Some d /\ DepIsArchived d = false /\ targetID d = target.
Proof using.
  unfold ListByTarget, live_deps. rewrite sort_by_elem, elem_of_filter_b, values_elem, andb_true_iff,
    negb_true_iff, bool_decide_eq_true. naive_solver.
Qed.

Lemma targets_rules target :
  anchored_rules (ListByTarget T target) -> Forall (rule_ok (type_at T)) (ListByTarget T target).
Proof using HT.
  unfold anchored_rules. rewrite !list.Forall_forall. intros Ha d Hin. specialize (Ha d Hin).
  apply ListByTarget_elem in Hin as (i & Hd & _).
  destruct (ru_row _ (tb_rules _ HT) i d Hd) as (s & t & [Q1 _ _ _ _ [_ Q6] _ _ _]).
  unfold rule_ok, type_at. rewrite Q1. split; [by eapply (tb_typed _ HT)|].
  unfold conditions_ok. rewrite list.Forall_forall in *. intros c Hc.
  destruct (Q6 c Hc) as [Hv Hb]. split; [done|]. split; [done|by apply Ha].
Qed.


Lemma rows_inputs (rows : list AttributeValue) :
  (forall r, r ∈ rows -> exists i, vals T !! i = Some r) ->
  inputs_ok (type_at T) (group_values ∅ rows) (rqFacts rq).
Proof using HT no_nan facts_parsed.
  intros Hrows. split; [|done]. apply group_values_forall; [apply map_Forall_empty|].
  apply list.Forall_forall. intros r Hr. destruct (Hrows r Hr) as [i Hi].
  destruct (vo_row _ (tb_vals_ok _ HT) i r Hi) as [a [R1 R2 R3 R4 R5 R6 R7]]. right.
  unfold type_at. rewrite R1. split; [done|]. split; [done|]. by apply (no_nan i).
Qed.

Lemma rows_attrs (rows : list AttributeValue) :
  (forall r, r ∈ rows -> exists i, vals T !! i = Some r) ->
  forall r, r ∈ rows -> exists a, attrs T !! avAttrID r = Some a.
Proof using HT.
  intros Hrows r Hr. destruct (Hrows r Hr) as [i Hi].
  destruct (vo_row _ (tb_vals_ok _ HT) i r Hi) as [a Ha]. exists a. by apply (ro_attr _ _ _ Ha).
Qed.
End Resolution.

(** ** The schema of an attribute for an entity *)

Lemma ListByEntities_elem T tenant es r :
  r ∈ ListByEntities T tenant es <->
  exists i, vals T !! i = Some r /\ avTenantID r = tenant /\ avEntityID r ∈ es /\ AvIsArchived r = false.
Proof.
  unfold ListByEntities. rewrite sort_by_elem, elem_of_filter_b, values_elem, !andb_true_iff,
    negb_true_iff, !bool_decide_eq_true. naive_solver.
Qed.

(** The values of the entity that the caller can read. *)
Definition seen_values (T : Tables) (rq : Request) (entity : EntityID) : gmap ID (list Value) :=
  group_values ∅ (List.filter (visible T (rqAccess rq)) (ListByEntities T (rqTenant rq) [entity])).

Lemma EffectiveSchema_inv T rq rawAttr rawEntity i entity def :
  tables_ok T -> ParseID rawAttr = Ok i -> ParseEntityID rawEntity = Ok entity ->
  attrs T !! i = Some def -> tenantID def = rqTenant rq -> CanRead (rqAccess rq) (internalName def) = true ->
  EffectiveSchemaCase rq rawAttr rawEntity T =
    (let! s := ResolveEffectiveWithContext def (ListByTarget T i)
       (if bool_decide (length (ListByTarget T i) = 0%nat) then ∅ else seen_values T rq entity)
       (rqFacts rq) (rqLocalNow rq) in
     Ok (mkSchemaOutput i entity (SRequired s) (Restricted s) (SAllowed s)
           (EnforcementOr (RequiredEnforcement s) DefaultEnforcement))).
Proof using ulid_inj.
  intros HT E1 E2 Ed Et Er. unfold EffectiveSchemaCase. rewrite E1, E2. unfold AttrGet. rewrite Ed. simpl.
  unfold EnsureTenant. rewrite Et, bool_decide_true by done. simpl. rewrite Er. simpl.
  case_bool_decide as El; [done|].
  rewrite readableOnly_exact; [done|apply HT|].
  apply (rows_attrs T HT). intros r (j & Hj & _)%ListByEntities_elem. by exists j.
Qed.

Lemma seen_inputs T rq entity :
  tables_ok T -> (forall i r, vals T !! i = Some r -> comparable (avValue r)) ->
  map_Forall (fun _ => parsed) (rqFacts rq) ->
  inputs_ok (type_at T) (seen_values T rq entity) (rqFacts rq).
Proof.
  intros HT Hn Hf. apply rows_inputs; [done..|].
  intros r [(j & Hj & _)%ListByEntities_elem _]%elem_of_filter_b. by exists j.
Qed.

(** C29: the schema a caller gets for an attribute and an entity, on every table any
    history of writes and rules leaves, given that no stored value is a NaN and
    that the facts are parsed values: an attribute that is not of the caller's
    tenant, or that the caller cannot read, is reported like an unknown one.  For
    every other, the request fails only if a live rule that targets it has a
    pattern that does not compile in the anchored form it is evaluated in, which
    [Condition.Validate] does not rule out ([pattern_condition_gap]).  When the
    patterns of those rules do compile anchored, the rules resolve over exactly
    the live values of the entity that the caller can read: required is required
    by those rules, enforced on write is demanded on write by a matched one, and
    the picklist holds a value exactly when every matched rule allows it. *)
Theorem effective_schema_exact T rq rawAttr rawEntity i entity def :
  rule_reachable T -> (forall j r, vals T !! j = Some r -> comparable (avValue r)) ->
  map_Forall (fun _ => parsed) (rqFacts rq) ->
  ParseID rawAttr = Ok i -> ParseEntityID rawEntity = Ok entity -> attrs T !! i = Some def ->
  let rules := ListByTarget T i in
  let seen := seen_values T rq entity in
  if bool_decide (tenantID def = rqTenant rq) && CanRead (rqAccess rq) (internalName def) then
    (forall e, EffectiveSchemaCase rq rawAttr rawEntity T = Err e -> unanchored rules) /\
    (anchored_rules rules ->
      exists out, EffectiveSchemaCase rq rawAttr rawEntity T = Ok out /\
        soAttributeID out = i /\ soEntityID out = entity /\
        (soRequired out = true <-> valueRequired def seen (rqFacts rq) (rqLocalNow rq) rules) /\
        (soEnforcement out = EnforceOnWrite <->
           someMatched def seen (rqFacts rq) (rqLocalNow rq) rules demandsOnWrite) /\
        (forall v, (soRestricted out = true -> existsb (Equal v) (soAllowedValues out) = true) <->
           forall d, d ∈ rules -> matched def seen (rqFacts rq) (rqLocalNow rq) d -> effAllows (effect d) v))
  else EffectiveSchemaCase rq rawAttr rawEntity T = Err (NewNotFound AggregateType).
Proof using rat_number ulid_inj.
  intros Hr Hnan Hfacts Ea Ee Ed rules seen. pose proof (rule_reachable_ok rat_number T Hr) as HT.
  destruct (bool_decide_reflect (tenantID def = rqTenant rq)) as [Et|Et]; simpl.
  2: { unfold EffectiveSchemaCase, AttrGet, EnsureTenant. rewrite Ea, Ee, Ed. simpl. by rewrite bool_decide_false. }
  destruct (CanRead _ _) eqn:Er.
  2: { unfold EffectiveSchemaCase, AttrGet, EnsureTenant. rewrite Ea, Ee, Ed. simpl.
       by rewrite bool_decide_true, Er. }
  rewrite (EffectiveSchema_inv T rq rawAttr rawEntity i entity def) by done. fold rules seen.
  set (vs := if bool_decide _ then _ else _).
  assert (resolution : anchored_rules rules -> exists s, ResolveEffectiveWithContext def rules vs (rqFacts rq) (rqLocalNow rq) = Ok s /\
    ResolveEffectiveWithContext def rules seen (rqFacts rq) (rqLocalNow rq) = Ok s /\
    resolves def seen (rqFacts rq) (rqLocalNow rq) rules s).
  { intros Ha. destruct (resolves_ok def (type_at T) seen (rqFacts rq) (rqLocalNow rq) rules) as (s & Es & Hs);
      [by apply seen_inputs|by apply targets_rules|]. exists s. split_and!; [|done|done].
    unfold vs. case_bool_decide as El; [|done]. apply nil_length_inv in El. by rewrite El in Es |- *. }
  split.
  { intros e He. destruct (anchored_or rules) as [Ha|]; [|done]. destruct (resolution Ha) as (s & Es & _).
    by rewrite Es in He. }
  intros Ha. destruct (resolution Ha) as (s & -> & Es & H1' & _ & H3' & H4' & _). simpl. eexists. split; [done|]. simpl.
  split_and!; [done|done|done| |].
  - rewrite <- H3'. by destruct H4' as [-> | ->].
  - intros v. apply (resolve_allows def (type_at T) seen (rqFacts rq) (rqLocalNow rq));
      [by apply seen_inputs|by apply targets_rules|done].
Qed.

(** ** Completeness *)

Lemma AvListByEntity_rows T tenant type_id entity r :
  r ∈ AvListByEntity T tenant type_id entity -> exists j, vals T !! j = Some r.
Proof. unfold AvListByEntity. rewrite sort_by_elem, elem_of_filter_b, values_elem. by intros [? _]. Qed.

Definition seen_held (T : Tables) (rq : Request) (type_id : ID) (entity : EntityID) : gmap ID (list Value) :=
  group_values ∅ (List.filter (visible T (rqAccess rq)) (AvListByEntity T (rqTenant rq) type_id entity)).

Lemma entityFilled_exact T rq type_id entity :
  tables_ok T -> entityFilled T rq (rqTenant rq) type_id entity = Ok (seen_held T rq type_id entity).
Proof using ulid_inj.
  intros HT. unfold entityFilled. rewrite readableOnly_exact; [done|apply HT|].
  apply (rows_attrs T HT). intros r. apply AvListByEntity_rows.
Qed.

Lemma held_inputs T rq type_id entity :
  tables_ok T -> (forall i r, vals T !! i = Some r -> comparable (avValue r)) ->
  map_Forall (fun _ => parsed) (rqFacts rq) ->
  inputs_ok (type_at T) (seen_held T rq type_id entity) (rqFacts rq).
Proof.
  intros HT Hn Hf. apply rows_inputs; [done..|].
  intros r [Hr _]%elem_of_filter_b. by eapply AvListByEntity_rows.
Qed.

Section Scoring.
Variables (T : Tables) (rq : Request) (filled : gmap ID (list Value)).
Hypothesis (HT : tables_ok T) (Hin : inputs_ok (type_at T) filled (rqFacts rq)).

(** If the caller can read the attribute, the rules that target it anchor. *)
Definition anchored_at (a : AttrDefinition) : Prop :=
  CanRead (rqAccess rq) (internalName a) = true -> anchored_rules (ListByTarget T (id a)).

(** The attribute is required of the entity by the rules that match. *)
Definition required_now (a : AttrDefinition) : Prop :=
  valueRequired a filled (rqFacts rq) (rqLocalNow rq) (ListByTarget T (id a)).

Definition is_required (a : AttrDefinition) : bool :=
  match attributeRequired T rq a filled with Ok b => b | Err _ => false end.

Lemma attributeRequired_exact a :
  anchored_rules (ListByTarget T (id a)) ->
  attributeRequired T rq a filled = Ok (is_required a) /\ (is_required a = true <-> required_now a).
Proof using HT Hin.
  intros Ha. assert (exists b, attributeRequired T rq a filled = Ok b /\ (b = true <-> required_now a)) as (b & E & Hb).
  { unfold attributeRequired, required_now. case_bool_decide as El.
    - apply nil_length_inv in El. exists (required a). split; [done|]. rewrite El. unfold valueRequired, someMatched.
      split; [intros ->; right; split; [|done]; intros (d & Hd & _); by apply not_elem_of_nil in Hd|].
      intros [(d & Hd & _)|[_ ?]]; [by apply not_elem_of_nil in Hd|done].
    - destruct (resolves_ok a (type_at T) filled (rqFacts rq) (rqLocalNow rq) (ListByTarget T (id a)) Hin)
        as (s & Es & Hs & _); [by apply targets_rules|].
      unfold resolveFor. rewrite Es. simpl. by exists (SRequired s). }
  unfold is_required. by rewrite E.
Qed.

(** The attributes that count: readable and required. *)
Definition counts (a : AttrDefinition) : bool :=
  CanRead (rqAccess rq) (internalName a) && is_required a.
Definition has_value (a : AttrDefinition) : bool := isSome (filled !! id a).
Definition lacks_value (a : AttrDefinition) : bool := negb (has_value a).

Definition tally_add (t : Tally) (k : list AttrDefinition) : Tally :=
  let due := List.filter counts k in
  mkTally (rev (id <$> k) ++ taSeen t)
    (taRequired t + Z.of_nat (length due))
    (taFilled t + Z.of_nat (length (List.filter has_value due)))
    (taMissing t ++ (missing <$> List.filter lacks_value due)).

Lemma tally_nil t : tally_add t [] = t.
Proof using. destruct t. unfold tally_add. simpl. by rewrite !Z.add_0_r, app_nil_r. Qed.

Lemma tally_app t k1 k2 : tally_add t (k1 ++ k2) = tally_add (tally_add t k1) k2.
Proof using.
  unfold tally_add. cbn [taSeen taRequired taFilled taMissing].
  rewrite !List.filter_app, !fmap_app, !length_app, rev_app_distr, !app_assoc.
  f_equal; lia.
Qed.

Lemma tallyAttr_step t a :
  anchored_at a ->
  tallyAttr T rq filled t a =
  Ok (if bool_decide (id a ∈ taSeen t) then t else tally_add t [a]).
Proof using HT Hin.
  intros Ha. unfold tallyAttr. case_bool_decide; [done|]. destruct t as [seen r f m].
  unfold tally_add, counts, lacks_value, has_value. cbn [taSeen taRequired taFilled taMissing].
  destruct (CanRead _ _) eqn:Er; simpl; [|by rewrite Er, !Z.add_0_r, app_nil_r].
  rewrite Er. destruct (attributeRequired_exact a (Ha Er)) as [-> _]. simpl.
  destruct (is_required a); simpl; [|by rewrite !Z.add_0_r, app_nil_r].
  destruct (isSome (filled !! id a)); simpl; [by rewrite app_nil_r|by rewrite Z.add_0_r].
Qed.

Lemma tally_list l t :
  Forall anchored_at l ->
  eachFold (tallyAttr T rq filled) l t = Ok (tally_add t (dedupeAttrs (taSeen t) l)).
Proof using HT Hin.
  intros Hl. revert t. induction Hl as [|a l Ha _ IH]; intros t; [simpl; by rewrite tally_nil|].
  cbn [eachFold]. rewrite tallyAttr_step by done. simpl. case_bool_decide as Es; [by rewrite IH|].
  rewrite IH, <- tally_app. done.
Qed.

(** The rules that target an attribute of these types that the caller can read. *)
Definition link_rules (link : TypeDefinition) : list Dependency :=
  List.filter (fun a => CanRead (rqAccess rq) (internalName a)) (ListByTypeDefinition T (tdID link))
    ≫= fun a => ListByTarget T (id a).
Definition links_rules (links : list TypeDefinition) : list Dependency := links ≫= link_rules.

Lemma listed_anchored link here :
  ListAllForType T (tdID link) = Ok here -> anchored_rules (link_rules link) -> Forall anchored_at here.
Proof using.
  unfold ListAllForType, anchored_rules. cbv zeta. intros E Ha. res_inv.
  apply list.Forall_forall. intros a Hia Hr. apply list.Forall_forall. intros d Hd.
  rewrite list.Forall_forall in Ha. apply Ha, list_elem_of_bind. exists a. split; [done|].
  by apply elem_of_filter_b.
Qed.

Lemma listAll_anchored links all :
  listAll T links = Ok all -> anchored_rules (links_rules links) -> Forall anchored_at all.
Proof using.
  revert all. induction links as [|link links IH]; intros all Hl Ha; simpl in Hl; [by simplify_eq|].
  apply Forall_app in Ha as [Ha Hr]. res_inv. apply Forall_app. split; [by eapply listed_anchored|by apply IH].
Qed.

Lemma tally_chain links t :
  anchored_rules (links_rules links) ->
  eachFold (tallyLink T rq filled) links t =
  let! all := listAll T links in Ok (tally_add t (dedupeAttrs (taSeen t) all)).
Proof using HT Hin.
  revert t. induction links as [|link links IH]; intros t Ha; [simpl; by rewrite tally_nil|].
  apply Forall_app in Ha as [Ha Hl].
  cbn [eachFold listAll]. unfold tallyLink at 1. destruct (ListAllForType T (tdID link)) as [here|e] eqn:E; [|done].
  simpl. rewrite tally_list by (by eapply listed_anchored). simpl. rewrite (IH _ Hl). destruct (listAll T links) as [rest|e]; [|done]. simpl.
  by rewrite dedupe_app, tally_app.
Qed.
End Scoring.

(** An order to read the gaps in: by group, then by name. *)
Definition gap_le (a b : MissingAttribute) : bool := negb (missing_before b a).

Lemma gap_le_total a b : gap_le a b = true \/ gap_le b a = true.
Proof.
  unfold gap_le, missing_before. rewrite (bool_decide_ext (maGroup b = maGroup a) (maGroup a = maGroup b)) by done.
  case_bool_decide; [set (x := maInternalName a); set (y := maInternalName b)|set (x := maGroup a); set (y := maGroup b)];
    (destruct (String.ltb x y) eqn:E; [left; by rewrite (ltb_flip _ _ E)|by right]).
Qed.

Lemma gap_le_trans a b c : gap_le a b = true -> gap_le b c = true -> gap_le a c = true.
Proof.
  unfold gap_le, missing_before. rewrite !negb_true_iff. intros H1' H2'.
  assert (forall x y z, String.ltb y x = false -> String.ltb z y = false -> String.ltb z x = false) as Htr.
  { intros x y z E1 E2. apply not_true_is_false. intros E.
    destruct (String.ltb x y) eqn:Exy; [|by rewrite (ltb_antisym x y Exy E1) in E; congruence].
    rewrite (ltb_trans z x y E Exy) in E2. done. }
  destruct a as [? na da ga], b as [? nb db gb], c as [? nc dc gc]. simpl in *.
  repeat case_bool_decide; subst; try done; eauto.
  exfalso. eauto using ltb_antisym.
Qed.

(** The rules that target an attribute of the type's schema that the caller can read. *)
Definition type_rules (T : Tables) (rq : Request) (t : TypeDefinition) : list Dependency :=
  match Chain (types T) t with Ok chain => links_rules T rq chain | Err _ => [] end.

(** The error of a type whose schema cannot be walked, or the schema. *)
Lemma scoreEntity_exact T rq t entity filled :
  tables_ok T -> inputs_ok (type_at T) filled (rqFacts rq) -> anchored_rules (type_rules T rq t) ->
  scoreEntity T rq t entity filled =
  let! chain := Chain (types T) t in
  let! all := listAll T chain in
  let due := List.filter (counts T rq filled) (dedupeAttrs [] all) in
  Ok (mkCompleteness entity (tdID t) (Z.of_nat (length due))
        (Z.of_nat (length (List.filter (has_value filled) due)))
        (scoreOf (Z.of_nat (length (List.filter (has_value filled) due))) (Z.of_nat (length due)))
        (sort_by gap_le (missing <$> List.filter (lacks_value filled) due))).
Proof.
  intros HT Hin Ha. unfold scoreEntity, type_rules in *. destruct (Chain (types T) t) as [chain|e]; [|done]. simpl.
  rewrite (tally_chain T rq filled HT Hin) by done. destruct (listAll T chain) as [all|e]; [|done]. done.
Qed.

Lemma filled_split (filled : gmap ID (list Value)) due :
  (length (List.filter (has_value filled) due) + length (List.filter (lacks_value filled) due))%nat = length due.
Proof.
  unfold lacks_value. induction due as [|a due IH]; simpl; [done|]. destruct (has_value filled a); simpl; lia.
Qed.

Lemma score_complete filled required :
  0 <= filled <= required -> required < 2 ^ 53 ->
  SFleb one (scoreOf filled required) = true <-> filled = required.
Proof.
  intros Hf Hr. unfold scoreOf. destruct (Z.ltb_spec 0 required); [by apply quotient_reaches_one|].
  split; [lia|]. intros _. vm_compute. reflexivity.
Qed.

(** C30: how complete an entity is, on every table any history of writes and rules
    leaves, given that no stored value is a NaN and that the facts are parsed
    values: the answer is an error only where the type's schema cannot be listed,
    or where a live rule that targets an attribute of that schema the caller can
    read has a pattern that does not compile in the anchored form it is evaluated
    in.  When those patterns compile anchored: the answer is the error of the
    schema, if it cannot be listed; otherwise, of the attributes of the schema
    that the caller can read, those are required that the matched rules require
    over the live values the caller can read, each once; [Filled] counts those that have a value, [Missing] lists
    exactly the others, by group and name; and the floating-point score reaches 1
    exactly when nothing is missing. *)
Theorem completeness_exact T rq rawType rawEntity type_id entity t :
  rule_reachable T -> (forall j r, vals T !! j = Some r -> comparable (avValue r)) ->
  map_Forall (fun _ => parsed) (rqFacts rq) ->
  ParseID rawType = Ok type_id -> ParseEntityID rawEntity = Ok entity ->
  types T !! type_id = Some t -> tdTenantID t = rqTenant rq ->
  let filled := seen_held T rq type_id entity in
  let rules := type_rules T rq t in
  (forall e, CompletenessCase rq rawType rawEntity T = Err e ->
     gateSchema T type_id = Err e \/ unanchored rules) /\
  (anchored_rules rules ->
   match gateSchema T type_id with
   | Err e => CompletenessCase rq rawType rawEntity T = Err e
   | Ok schema =>
      exists out due, CompletenessCase rq rawType rawEntity T = Ok out /\
        NoDup (id <$> due) /\
        (forall a, a ∈ due <-> a ∈ schema /\ CanRead (rqAccess rq) (internalName a) = true /\
                   required_now T rq filled a) /\
        coRequired out = Z.of_nat (length due) /\
        coFilled out + Z.of_nat (length (coMissing out)) = coRequired out /\
        coMissing out ≡ₚ missing <$> List.filter (lacks_value filled) due /\
        StronglySorted (fun a b => gap_le a b = true) (coMissing out) /\
        (SFleb one (coScore out) = true <-> coMissing out = [])
   end).
Proof using rat_number ulid_inj.
  intros Hr Hnan Hfacts E1 E2 Et Ht filled rules. pose proof (rule_reachable_ok rat_number T Hr) as HT.
  pose proof (held_inputs T rq type_id entity HT Hnan Hfacts) as Hin. fold filled in Hin.
  assert (CompletenessCase rq rawType rawEntity T = scoreEntity T rq t entity filled) as ->.
  { unfold CompletenessCase. rewrite E1, E2. unfold TypeGet, EnsureTenant. rewrite Et. simpl.
    rewrite Ht, bool_decide_true by done. simpl. by rewrite entityFilled_exact. }
  pose proof (gateSchema_small T type_id) as Hsmall.
  refine ((fun Hmain => conj _ Hmain) _).
  { intros e He. destruct (anchored_or rules) as [Ha|]; [left|by right]. specialize (Hmain Ha).
    destruct (gateSchema T type_id); [|congruence]. destruct Hmain as (out & due & Ho & _). congruence. }
  intros Ha. rewrite scoreEntity_exact by done. unfold gateSchema, TypeGet in *. rewrite Et in *. simpl in *.
  destruct (Chain (types T) t) as [chain|e] eqn:Ec; [|done]. simpl in *.
  destruct (listAll T chain) as [all|e] eqn:El; [|done]. simpl in *.
  specialize (Hsmall _ eq_refl). set (schema := dedupeAttrs [] all) in *. set (due := List.filter (counts T rq filled) schema).
  exists (mkCompleteness entity (tdID t) (Z.of_nat (length due))
        (Z.of_nat (length (List.filter (has_value filled) due)))
        (scoreOf (Z.of_nat (length (List.filter (has_value filled) due))) (Z.of_nat (length due)))
        (sort_by gap_le (missing <$> List.filter (lacks_value filled) due))), due.
  simpl. pose proof (filled_split filled due) as Hsplit.
  assert (length (sort_by gap_le (missing <$> List.filter (lacks_value filled) due)) =
    length (List.filter (lacks_value filled) due)) as Hlen by (by rewrite sort_by_perm, length_fmap).
  split_and!; try done.
  - apply filter_fmap_NoDup, dedupe_nodup.
  - intros a. unfold due, counts. rewrite elem_of_filter_b, andb_true_iff.
    assert (a ∈ schema -> CanRead (rqAccess rq) (internalName a) = true ->
      is_required T rq filled a = true <-> required_now T rq filled a); [|tauto].
    intros Hs Hc. apply (attributeRequired_exact T rq filled HT Hin a).
    eapply (list.Forall_forall (anchored_at T rq)); [|by apply dedupe_listed in Hs|done].
    unfold rules, type_rules in Ha. rewrite Ec in Ha. by eapply listAll_anchored.
  - lia.
  - apply sort_by_perm.
  - apply sort_by_sorted; [apply gap_le_total|apply gap_le_trans].
  - assert (length due <= length schema)%nat by apply filter_length_le. rewrite score_complete by lia. rewrite <- (length_zero_iff_nil (sort_by _ _)), Hlen. lia.
Qed.
End Reads.
