(* ===== verification/TypeCompleteness.v ===== *)
(** The completeness of the entities of a type: which of them the sweep over the
    pages scores, and what its totals say. *)

From Stdlib Require Import ZArith QArith Lia String Ascii List SpecFloat Sorted Permutation.
From stdpp Require Import base tactics list gmap fin_maps fin_sets strings option decidable sorting.
From S2P Require Import Prelude GoText Values Ids Formula Attribute Access TypeDef TypeDefFacts Units Relationship.
From S2P Require Import Pagination PaginationFacts Query QueryProps QueryAccess Dependency DependencyFacts ResolverFacts.
From S2P Require Import ValueWrite AttributeWrite SchemaFacts ValueWriteFacts DependencyWrite DependencyWriteFacts.
From S2P Require Import DependencyReads.

Open Scope Z_scope.
Open Scope go_scope.

Section Population.
Context `{GoStd} `{GoUlid} `{GoNumeric} `{GoKeys} `{GoCursor} `{GoQuery}.
Variables (T : Tables) (tenant : TenantID) (type_id : ID).

(** The store of a query, of which the entities read the values alone. *)
Definition bare : Store := mkStore T (mkLinkTables ∅ ∅ ∅) ∅.

(** The live entities of the type, in the order of the sweep. *)
Definition population : list EntitySummary := sort_by by_entity (values (entities bare tenant [type_id])).

Lemma population_elem e :
  e ∈ population ->
  esTypeID e = type_id /\ live_rows bare tenant type_id (esEntityID e) <> [].
Proof.
  unfold population. rewrite sort_by_elem, entities_elem, list_elem_of_singleton. intros (E & Hl & _).
  by rewrite E in Hl.
Qed.

Lemma population_keys : NoDup (esEntityID <$> population).
Proof.
  unfold population. rewrite sort_by_perm.
  assert (NoDup ((fun e => (esTypeID e, esEntityID e)) <$> values (entities bare tenant [type_id]))) as Hnd.
  { apply values_keys. intros k e Hk. rewrite entities_lookup in Hk. destruct (_ && _); [|done].
    injection Hk as <-. by destruct k. }
  revert Hnd. generalize (values (entities bare tenant [type_id])), (fun e => entities_elem bare tenant [type_id] e).
  intros l Hl. setoid_rewrite list_elem_of_singleton in Hl. clear -Hl.
  assert (forall e, e ∈ l -> esTypeID e = type_id) as Ht by (intros e He; by apply Hl in He as [? _]). clear Hl.
  induction l as [|e l IH]; intros Hnd; [constructor|].
  apply list.NoDup_cons in Hnd as [Hn Hnd]. constructor; [|apply IH; [set_solver|done]].
  intros (e' & E & He')%list_elem_of_fmap. apply Hn, list_elem_of_fmap. exists e'. split; [|done].
  rewrite E, !Ht; [done|by right|by left].
Qed.

Lemma strictly_sorted l :
  NoDup (esEntityID <$> l) -> StronglySorted (fun x y => by_entity x y = true) l ->
  StronglySorted (before entityIDKeyset entityIDKey) l.
Proof.
  intros Hnd Hs. induction Hs as [|e l Hs IH He]; [constructor|].
  apply list.NoDup_cons in Hnd as [Hn Hnd]. constructor; [by apply IH|].
  rewrite list.Forall_forall in He |- *. intros x Hx. specialize (He x Hx).
  unfold before, after, entityIDKey. simpl. case_bool_decide as E.
  - destruct Hn. apply list_elem_of_fmap. by exists x.
  - simpl. unfold by_entity in He. rewrite leb_ltb in He. apply negb_true_iff in He.
    apply not_false_iff_true. intros E'. by apply E, ltb_antisym.
Qed.

Lemma population_ids : StronglySorted (fun x y => String.leb x y = true) (esEntityID <$> population).
Proof.
  apply (StronglySorted_fmap _ (fun x y => by_entity x y = true)); [done|].
  apply sort_by_sorted; intros *; [apply leb_total|apply leb_trans].
Qed.

Lemma population_sorted : StronglySorted (before entityIDKeyset entityIDKey) population.
Proof.
  apply strictly_sorted; [apply population_keys|].
  apply sort_by_sorted; intros *; [apply leb_total|apply leb_trans].
Qed.

Lemma ListEntities_population limit tot cur :
  (forall e, EncodeKeyset (entityIDKey e) <> EmptyString /\
     ValidateKeyset entityIDKeyset (EncodeKeyset (entityIDKey e)) = Ok (entityIDKey e)) ->
  1 <= limit ->
  ListEntities T tenant [type_id] (mkPage limit (cursor_of entityIDKey cur) tot true) =
    Ok (take (Z.to_nat limit + 1) (remaining entityIDKeyset entityIDKey population (entityIDKey <$> cur)),
        Z.of_nat (length population)).
Proof.
  intros Hround Hl. unfold ListEntities. cbn [pgStable].
  apply (paginate_spec entityIDKeyset entityIDKey); [done|done|apply population_sorted|done].
Qed.
End Population.

Section Sweeps.
Context `{GoStd} `{GoUlid} `{GoNumeric} `{GoKeys} `{GoCursor} `{GoQuery}.
Hypothesis rat_number : forall q, is_nan (rat_Float64 q) = false.
Hypothesis ulid_inj : Inj (=) (=) ulid_String.
(** A cursor gives back the entity it was made from. *)
Hypothesis cursor_round : forall e, EncodeKeyset (entityIDKey e) <> EmptyString /\
  ValidateKeyset entityIDKeyset (EncodeKeyset (entityIDKey e)) = Ok (entityIDKey e).

(** ** One entity *)

Section Scores.
Variables (T : Tables) (rq : Request) (type_id : ID) (t : TypeDefinition) (schema : list AttrDefinition).
Hypothesis HT : tables_ok T.
Hypothesis no_nan : forall i r, vals T !! i = Some r -> comparable (avValue r).
Hypothesis facts_parsed : map_Forall (fun _ => parsed) (rqFacts rq).
Hypothesis type_found : types T !! type_id = Some t.
Hypothesis schema_found : gateSchema T type_id = Ok schema.
(** The patterns of the rules of the type compile anchored. *)
Hypothesis rules_anchor : anchored_rules (type_rules T rq t).

(** The attributes that count for the entity, and those of them it has. *)
Definition due_of (e : EntitySummary) : list AttrDefinition :=
  List.filter (counts T rq (seen_held T rq type_id (esEntityID e))) schema.
Definition held_of (e : EntitySummary) : list AttrDefinition :=
  List.filter (has_value (seen_held T rq type_id (esEntityID e))) (due_of e).

Definition scored (e : EntitySummary) : EntityScore :=
  let filled := Z.of_nat (length (held_of e)) in
  let required := Z.of_nat (length (due_of e)) in
  mkEntityScore (esEntityID e) (scoreOf filled required) filled required.

Definition is_full (s : EntityScore) : bool := SFleb one (scScore s).

Definition sweep_add (w : Sweep) (es : list EntitySummary) : Sweep :=
  let scores := scored <$> es in
  mkSweep (swTypes w) (fold_left fadd (scScore <$> scores) (swSum w))
    (swComplete w + Z.of_nat (length (List.filter is_full scores)))
    (swIncomplete w + Z.of_nat (length (List.filter (fun s => negb (is_full s)) scores)))
    (swEntities w ++ scores).

Lemma sweep_nil w : sweep_add w [] = w.
Proof using. destruct w. unfold sweep_add. simpl. by rewrite !Z.add_0_r, app_nil_r. Qed.

Lemma sweep_app w es es' : sweep_add w (es ++ es') = sweep_add (sweep_add w es) es'.
Proof using.
  unfold sweep_add. cbn [swTypes swSum swComplete swIncomplete swEntities].
  rewrite !fmap_app, fold_left_app, !List.filter_app, !length_app, app_assoc. f_equal; lia.
Qed.

Lemma score_one w e :
  swTypes w = {[type_id := t]} -> esTypeID e = type_id ->
  scoreSummary T rq (rqTenant rq) w e = Ok (sweep_add w [e]).
Proof using HT no_nan facts_parsed ulid_inj schema_found type_found rules_anchor.
  intros Hw Ee. unfold scoreSummary. rewrite Ee, Hw, lookup_singleton_eq. simpl.
  rewrite entityFilled_exact by done. simpl.
  rewrite (scoreEntity_exact T rq t (esEntityID e) _ HT) by (done || by apply held_inputs).
  unfold gateSchema, TypeGet in schema_found. rewrite type_found in schema_found. simpl in schema_found.
  apply res_bind_ok in schema_found as (chain & -> & Es). apply res_bind_ok in Es as (all & Ea & Es).
  simpl. rewrite Ea. simpl. injection Es as Es. rewrite Es. unfold sweep_add, is_full. cbn [fmap list_fmap List.filter fold_left].
  fold (due_of e). fold (held_of e). change (scScore (scored e)) with (coScore (mkCompleteness (esEntityID e) (tdID t)
    (Z.of_nat (length (due_of e))) (Z.of_nat (length (held_of e)))
    (scoreOf (Z.of_nat (length (held_of e))) (Z.of_nat (length (due_of e)))) [])). cbn [coScore].
  set (sc := scoreOf _ _). destruct w as [ts sum c i es]. cbn [swTypes swSum swComplete swIncomplete swEntities] in *.
  subst ts. rewrite insert_singleton_eq. by destruct (SFleb one sc); simpl; rewrite Z.add_0_r.
Qed.

Lemma score_page w es :
  swTypes w = {[type_id := t]} -> (forall e, e ∈ es -> esTypeID e = type_id) ->
  eachFold (scoreSummary T rq (rqTenant rq)) es w = Ok (sweep_add w es).
Proof using HT no_nan facts_parsed ulid_inj schema_found type_found rules_anchor.
  revert w. induction es as [|e es IH]; intros w Hw Hes; [simpl; by rewrite sweep_nil|].
  cbn [eachFold]. rewrite score_one by (done || (apply Hes; by left)). simpl.
  rewrite IH, <- sweep_app; [done|exact Hw|]. intros e' He'. apply Hes. by right.
Qed.

(** ** The pages *)

Lemma scored_length w es : length (swEntities (sweep_add w es)) = (length (swEntities w) + length es)%nat.
Proof using. unfold sweep_add. cbn [swEntities]. by rewrite length_app, length_fmap. Qed.

Lemma sweepPages_exact rounds first count cur w :
  let all := population T (rqTenant rq) type_id in
  let rest := remaining entityIDKeyset entityIDKey all (entityIDKey <$> cur) in
  let n := length (swEntities w) in
  swTypes w = {[type_id := t]} -> (n + 201 * rounds < 1201)%nat -> (1000 <= n + 201 * rounds)%nat -> (0 < rounds)%nat ->
  (first = true \/ count = Z.of_nat (length all)) ->
  sweepPages T rq (rqTenant rq) type_id rounds first count (mkPage 200 (cursor_of entityIDKey cur) first true) w =
  Ok (sweep_add w (take (201 * rounds) rest), Z.of_nat (length all),
      (1000 <=? n + length (take (201 * rounds) rest))%nat).
Proof using HT no_nan facts_parsed ulid_inj schema_found type_found rules_anchor cursor_round.
  intros all. revert first count cur w. induction rounds as [|rounds IH]; intros first count cur w rest n Hw Hn1 Hn2 Hr Hf; [lia|].
  cbn [sweepPages]. rewrite ListEntities_population by (done || lia). fold all. fold rest.
  change (Z.to_nat 200 + 1)%nat with 201%nat. cbn [res_bind].
  assert ((if first then Z.of_nat (length all) else count) = Z.of_nat (length all)) as -> by (destruct first, Hf; done).
  assert (forall e, e ∈ rest -> esTypeID e = type_id) as Hty.
  { intros e He. eapply population_elem with (T := T) (tenant := rqTenant rq). fold all. revert He. unfold rest, remaining.
    destruct (entityIDKey <$> cur); [|done]. by intros [? _]%elem_of_filter_b. }
  rewrite score_page by (done || (intros e He; apply Hty; by eapply (elem_of_take_drop 201); left)).
  cbn [res_bind]. rewrite scored_length. fold n.
  destruct (Nat.lt_ge_cases (length rest) 201) as [Hshort|Hlong].
  { rewrite !(take_ge rest) by lia. destruct (1000 <=? n + length rest)%nat eqn:E.
    - apply Nat.leb_le in E. by replace (maxCompletenessScan <=? _) with true by (symmetry; apply Z.leb_le; unfold maxCompletenessScan; lia).
    - apply Nat.leb_gt in E. replace (maxCompletenessScan <=? _) with false by (symmetry; apply Z.leb_gt; unfold maxCompletenessScan; lia).
      cbn [pgLimit]. by replace (Z.of_nat (length rest) <=? 200) with true by (symmetry; apply Z.leb_le; lia). }
  assert (length (take 201 rest) = 201%nat) as Hlen by (rewrite length_take; lia). rewrite Hlen.
  destruct rounds as [|rounds].
  { replace (201 * 1)%nat with 201%nat by lia. rewrite Hlen.
    replace (maxCompletenessScan <=? _) with true by (symmetry; apply Z.leb_le; unfold maxCompletenessScan; lia).
    by replace (1000 <=? n + 201)%nat with true by (symmetry; apply Nat.leb_le; lia). }
  replace (maxCompletenessScan <=? _) with false by (symmetry; apply Z.leb_gt; unfold maxCompletenessScan; lia).
  cbn [pgLimit pgStable]. change (Z.of_nat 201 <=? 200) with false. cbv iota.
  destruct (list.last (take 201 rest)) as [l|] eqn:El; [|apply last_None in El; by rewrite El in Hlen].
  pose proof (IH false (Z.of_nat (length all)) (Some l) (sweep_add w (take 201 rest))) as IHl.
  cbv zeta in IHl. cbn [cursor_of fmap option_fmap option_map] in IHl. rewrite scored_length, Hlen in IHl. fold n in IHl.
  rewrite IHl by (done || lia || by right). clear IHl.
  rewrite (remaining_next entityIDKeyset entityIDKey) with (cur := entityIDKey <$> cur) (n := 201%nat);
    [|done|apply population_sorted|exact El|by destruct cur].
  fold rest. rewrite <- sweep_app.
  assert (take 201 rest ++ take (201 * S rounds) (drop 201 rest) = take (201 * S (S rounds)) rest) as Et.
  { rewrite take_take_drop. f_equal. lia. }
  assert (length (take (201 * S (S rounds)) rest) = 201 + length (take (201 * S rounds) (drop 201 rest)))%nat as ->
    by (by rewrite <- Et, length_app, Hlen).
  by rewrite Et, Nat.add_assoc.
Qed.

Lemma scored_full e : is_full (scored e) = true <-> scFilled (scored e) = scRequired (scored e).
Proof using schema_found.
  unfold is_full, scored. cbn [scScore scFilled scRequired]. pose proof (gateSchema_small _ _ _ schema_found).
  assert (length (due_of e) <= length schema)%nat by apply filter_length_le.
  assert (length (held_of e) <= length (due_of e))%nat by apply filter_length_le.
  apply score_complete; lia.
Qed.

Lemma scored_as e :
  exists c, scoreEntity T rq t (esEntityID e) (seen_held T rq type_id (esEntityID e)) = Ok c /\
    scored e = mkEntityScore (coEntityID c) (coScore c) (coFilled c) (coRequired c) /\
    (is_full (scored e) = true <-> coMissing c = []).
Proof using HT no_nan facts_parsed schema_found type_found rules_anchor.
  rewrite (scoreEntity_exact T rq t (esEntityID e) _ HT) by (done || by apply held_inputs).
  pose proof schema_found as Hs. unfold gateSchema, TypeGet in Hs. rewrite type_found in Hs. simpl in Hs.
  apply res_bind_ok in Hs as (chain & -> & Es). apply res_bind_ok in Es as (all & Ea & Es).
  simpl. rewrite Ea. simpl. injection Es as Es. rewrite Es. fold (due_of e). fold (held_of e).
  eexists. split; [done|]. split; [done|]. rewrite scored_full. unfold scored. cbn [scFilled scRequired coMissing].
  pose proof (filled_split (seen_held T rq type_id (esEntityID e)) (due_of e)) as Hsp. fold (held_of e) in Hsp.
  rewrite <- length_zero_iff_nil, sort_by_perm, length_fmap. lia.
Qed.
End Scores.

Lemma filter_partition {A} (p : A -> bool) l :
  (length (List.filter p l) + length (List.filter (fun x => negb (p x)) l))%nat = length l.
Proof. induction l as [|x l IH]; simpl; [done|]. destruct (p x); simpl; lia. Qed.

Lemma sweep_error T rq type_id t e es w :
  types T !! type_id = Some t -> swTypes w = {[type_id := t]} -> gateSchema T type_id = Err e ->
  tables_ok T -> (forall i r, vals T !! i = Some r -> comparable (avValue r)) ->
  map_Forall (fun _ => parsed) (rqFacts rq) -> anchored_rules (type_rules T rq t) -> (forall s, s ∈ es -> esTypeID s = type_id) -> es <> [] ->
  eachFold (scoreSummary T rq (rqTenant rq)) es w = Err e.
Proof using ulid_inj.
  intros Et Hw Hg HT Hn Hf Ha Hes Hne. destruct es as [|s es]; [done|]. cbn [eachFold].
  unfold scoreSummary at 1. rewrite (Hes s) by left. rewrite Hw, lookup_singleton_eq. simpl.
  rewrite entityFilled_exact by done. simpl.
  rewrite (scoreEntity_exact T rq t (esEntityID s) _ HT) by (done || by apply held_inputs).
  unfold gateSchema, TypeGet in Hg. rewrite Et in Hg. simpl in Hg.
  destruct (Chain (types T) t) as [chain|e']; simpl in *; [|congruence].
  destruct (listAll T chain) as [all|e']; simpl in *; [done|congruence].
Qed.

(** The totals of a sweep that scored [es] of [n] entities. *)
Definition totals (type_id : ID) (n : nat) (scores : list EntityScore) : TypeCompletenessOutput :=
  let k := Z.of_nat (length scores) in
  mkTypeCompleteness type_id (Z.of_nat n) k (1000 <=? length scores)%nat
    (if 0 <? k then fdiv (fold_left fadd (scScore <$> scores) (S754_zero false)) (float_of_Z k) else S754_zero false)
    (Z.of_nat (length (List.filter is_full scores)))
    (Z.of_nat (length (List.filter (fun s => negb (is_full s)) scores))) scores.

Lemma TypeCompleteness_inv T rq rawType type_id t :
  tables_ok T -> (forall j r, vals T !! j = Some r -> comparable (avValue r)) ->
  map_Forall (fun _ => parsed) (rqFacts rq) ->
  ParseID rawType = Ok type_id -> types T !! type_id = Some t -> tdTenantID t = rqTenant rq ->
  anchored_rules (type_rules T rq t) ->
  let all := population T (rqTenant rq) type_id in
  match gateSchema T type_id with
  | Err e => TypeCompletenessCase rq rawType T =
      if bool_decide (length all = 0%nat) then Ok (totals type_id 0 []) else Err e
  | Ok schema => TypeCompletenessCase rq rawType T =
      Ok (totals type_id (length all) (scored T rq type_id schema <$> take 1005 all))
  end.
Proof using ulid_inj cursor_round.
  intros HT Hnan Hfacts Ei Et Ht Ha all.
  unfold TypeCompletenessCase. rewrite Ei. unfold TypeGet, EnsureTenant. rewrite Et. cbn [res_bind].
  rewrite Ht, bool_decide_true by done. cbn [res_bind].
  destruct (gateSchema T type_id) as [schema|e] eqn:Eg.
  - pose proof (sweepPages_exact T rq type_id t schema HT Hnan Hfacts Et Eg Ha sweepRounds true 0 None
      (mkSweep {[type_id := t]} (S754_zero false) 0 0 [])) as Hsw.
    cbv zeta in Hsw. cbn [cursor_of fmap option_fmap option_map remaining swEntities length] in Hsw.
    unfold sweepRounds in *. rewrite Hsw by (done || lia || by left). clear Hsw. cbn [res_bind].
    fold all. change (201 * 5)%nat with 1005%nat. unfold totals, sweep_add.
    cbn [swSum swComplete swIncomplete swEntities app]. by rewrite !length_fmap.
  - unfold sweepRounds. cbn [sweepPages].
    rewrite (ListEntities_population T (rqTenant rq) type_id 200 true None) by (done || lia).
    fold all. cbn [res_bind remaining fmap option_fmap option_map]. change (Z.to_nat 200 + 1)%nat with 201%nat.
    case_bool_decide as Hne; [by rewrite (nil_length_inv _ Hne)|].
    rewrite (sweep_error T rq type_id t e); try done.
    + intros s Hs. apply elem_of_take in Hs as (k & Hk & _). apply list_elem_of_lookup_2 in Hk.
      by apply population_elem in Hk as [? _].
    + by destruct all.
Qed.

(** The completeness of a type counts what it says, when the patterns of the rules
    of its attributes compile anchored: [Count] is the number of
    its live entities; the first 1005 of them in the order of their identifiers -
    all of them, unless there are more - are scored, each once and exactly as it
    is when asked for alone; [Complete] are those that lack nothing, [Incomplete]
    the others.  [Truncated] is set as soon as there are a thousand entities, even
    when every one of them was scored. *)
Theorem type_completeness_exact T rq rawType type_id t :
  rule_reachable T -> (forall j r, vals T !! j = Some r -> comparable (avValue r)) ->
  map_Forall (fun _ => parsed) (rqFacts rq) ->
  ParseID rawType = Ok type_id -> types T !! type_id = Some t -> tdTenantID t = rqTenant rq ->
  anchored_rules (type_rules T rq t) ->
  let all := population T (rqTenant rq) type_id in
  match gateSchema T type_id with
  | Err e => all <> [] -> TypeCompletenessCase rq rawType T = Err e
  | Ok _ =>
      exists out, TypeCompletenessCase rq rawType T = Ok out /\
        tcCount out = Z.of_nat (length all) /\
        scEntityID <$> tcEntities out = esEntityID <$> take 1005 all /\
        tcScored out = Z.min (tcCount out) 1005 /\
        (tcTruncated out = true <-> 1000 <= tcCount out) /\
        tcComplete out + tcIncomplete out = tcScored out /\
        tcComplete out = Z.of_nat (length (List.filter is_full (tcEntities out))) /\
        (forall s, s ∈ tcEntities out -> exists c,
           scoreEntity T rq t (scEntityID s) (seen_held T rq type_id (scEntityID s)) = Ok c /\
           s = mkEntityScore (coEntityID c) (coScore c) (coFilled c) (coRequired c) /\
           (is_full s = true <-> coMissing c = []))
  end.
Proof using rat_number ulid_inj cursor_round.
  intros Hr Hnan Hfacts Ei Et Ht Ha all. pose proof (rule_reachable_ok rat_number T Hr) as HT.
  pose proof (TypeCompleteness_inv T rq rawType type_id t HT Hnan Hfacts Ei Et Ht Ha) as Hinv. cbv zeta in Hinv. fold all in Hinv.
  destruct (gateSchema T type_id) as [schema|e] eqn:Eg; rewrite Hinv.
  2: { intros Hne. rewrite bool_decide_false; [done|]. by intros ?%nil_length_inv. }
  eexists. split; [done|]. unfold totals.
  cbn [tcCount tcEntities tcScored tcTruncated tcComplete tcIncomplete].
  pose proof (filter_partition is_full (scored T rq type_id schema <$> take 1005 all)) as Hp.
  rewrite !length_fmap, length_take in *. split_and!; try done.
  - by rewrite <- list_fmap_compose.
  - lia.
  - rewrite Nat.leb_le. lia.
  - lia.
  - intros s (x & -> & _)%list_elem_of_fmap. by apply (scored_as T rq type_id t schema).
Qed.

(** ** What a caller may not read *)

Section Alike.
Variables (T : Tables) (rq : Request) (vs : gmap ID AttributeValue).
Definition told : Tables := set_vals T vs.
Hypothesis (HT : tables_ok T) (HT' : tables_ok told).
Hypothesis same : same_view T (rqAccess rq) (vals T) vs.

Lemma visible_alike (p : AttributeValue -> bool) :
  List.filter (visible T (rqAccess rq)) (sort_by by_av (List.filter p (values (vals T)))) =
  List.filter (visible told (rqAccess rq)) (sort_by by_av (List.filter p (values vs))).
Proof using HT HT' same.
  change (visible told) with (visible T).
  apply sorted_rows_alike; [apply (vo_keyed _ (tb_vals_ok _ HT))|apply (vo_keyed _ (tb_vals_ok _ HT'))|].
  intros i r _ _ Hv. apply (sv_rows _ _ _ _ same). unfold visible in Hv.
  destruct (attrs T !! avAttrID r) as [a|] eqn:E; [|done]. by exists a.
Qed.

Lemma held_alike type_id entity : seen_held told rq type_id entity = seen_held T rq type_id entity.
Proof using HT HT' same. unfold seen_held, AvListByEntity. by rewrite <- visible_alike. Qed.

Lemma seen_alike entity : seen_values told rq entity = seen_values T rq entity.
Proof using HT HT' same. unfold seen_values, ListByEntities. by rewrite <- visible_alike. Qed.

Lemma live_rows_has T0 tenant t entity :
  live_rows (bare T0) tenant t entity <> [] <-> has_live (vals T0) tenant entity t.
Proof using.
  unfold live_rows, has_live. split.
  - intros Hne. destruct (List.filter _ _) as [|r l] eqn:E; [done|].
    assert (r ∈ r :: l) as Hr by left. rewrite <- E, elem_of_filter_b, values_elem, andb_true_iff, bool_decide_eq_true in Hr.
    destruct Hr as [[i Hi] [Hl Ht]]. by exists i, r.
  - intros (i & r & Hi & Hl & Ht) E. eapply (not_elem_of_nil r). rewrite <- E, elem_of_filter_b, values_elem.
    split; [by exists i|]. simpl. by rewrite Hl, bool_decide_true.
Qed.

Lemma population_alike tenant t : esEntityID <$> population told tenant t = esEntityID <$> population T tenant t.
Proof using HT HT' same.
  apply (StronglySorted_unique_strong (fun x y => String.leb x y = true)).
  - intros x y _ _. apply leb_antisym.
  - apply population_ids.
  - apply population_ids.
  - apply NoDup_Permutation; [apply population_keys..|]. intros e. rewrite !list_elem_of_fmap.
    assert (forall T0, (exists y, e = esEntityID y /\ y ∈ population T0 tenant t) <-> has_live (vals T0) tenant e t) as Hpop.
    { intros T0. rewrite <- live_rows_has. split.
      - intros (y & -> & Hy). by apply population_elem in Hy as [_ ?].
      - intros Hl. exists (summarize (t, e) (live_rows (bare T0) tenant t e)). split; [done|].
        unfold population. rewrite sort_by_elem, entities_elem. simpl. split_and!; [by left|done|done]. }
    rewrite !Hpop. symmetry. apply (sv_live _ _ _ _ same).
Qed.

(** A page of entities with the same identifiers, of the type, is scored alike: on
    the way every error is the same too. *)
Lemma summaries_alike t es es' w :
  esEntityID <$> es = esEntityID <$> es' ->
  Forall (fun e => esTypeID e = t) es -> Forall (fun e => esTypeID e = t) es' ->
  eachFold (scoreSummary told rq (rqTenant rq)) es w = eachFold (scoreSummary T rq (rqTenant rq)) es' w.
Proof using HT HT' same ulid_inj.
  revert es' w. induction es as [|e es IH]; intros [|e' es'] w E Ht Ht'; try done.
  rewrite !fmap_cons in E. injection E as E1 E2. apply Forall_cons_iff in Ht as [Ee Ht], Ht' as [Ee' Ht'].
  cbn [eachFold]. assert (scoreSummary told rq (rqTenant rq) w e = scoreSummary T rq (rqTenant rq) w e') as ->.
  { unfold scoreSummary. rewrite Ee, Ee', E1, !entityFilled_exact, held_alike by done. reflexivity. }
  destruct (scoreSummary T rq (rqTenant rq) w e'); [|done]. by apply IH.
Qed.

Lemma remaining_alike (es es' : list EntitySummary) cur :
  esEntityID <$> es = esEntityID <$> es' ->
  esEntityID <$> remaining entityIDKeyset entityIDKey es cur =
  esEntityID <$> remaining entityIDKeyset entityIDKey es' cur.
Proof using.
  destruct cur as [key|]; [|done]. simpl. revert es'.
  induction es as [|e es IH]; intros [|e' es'] E; try done.
  rewrite !fmap_cons in E. injection E as E1 E2. simpl.
  assert (after entityIDKeyset entityIDKey key e = after entityIDKeyset entityIDKey key e') as ->
    by (unfold after, entityIDKey; by rewrite E1).
  destruct (after _ _ _ _); [rewrite !fmap_cons, E1; f_equal|]; by apply IH.
Qed.

Lemma page_typed T0 tenant t cur n :
  Forall (fun e => esTypeID e = t) (take n (remaining entityIDKeyset entityIDKey (population T0 tenant t) cur)).
Proof using.
  apply list.Forall_forall. intros e (k & Hk & _)%elem_of_take. apply list_elem_of_lookup_2 in Hk.
  apply (population_elem T0 tenant t). revert Hk. unfold remaining. destruct cur; [|done].
  by intros [? _]%elem_of_filter_b.
Qed.

(** The sweep reads the same pages, whatever the values the caller may not read. *)
Lemma sweep_alike t rounds first count cur w :
  sweepPages told rq (rqTenant rq) t rounds first count (mkPage 200 (cursor_of entityIDKey cur) first true) w =
  sweepPages T rq (rqTenant rq) t rounds first count (mkPage 200 (cursor_of entityIDKey cur) first true) w.
Proof using HT HT' same ulid_inj cursor_round.
  revert first count cur w. induction rounds as [|rounds IH]; intros first count cur w; [done|].
  cbn [sweepPages]. rewrite !ListEntities_population by (done || lia).
  pose proof (population_alike (rqTenant rq) t) as Hp.
  assert (length (population told (rqTenant rq) t) = length (population T (rqTenant rq) t)) as ->
    by (by rewrite <- !(length_fmap esEntityID), Hp).
  pose proof (remaining_alike _ _ (entityIDKey <$> cur) Hp) as Hr.
  pose proof (page_typed told (rqTenant rq) t (entityIDKey <$> cur) 201) as Hty.
  pose proof (page_typed T (rqTenant rq) t (entityIDKey <$> cur) 201) as Hty'.
  change (Z.to_nat 200 + 1)%nat with 201%nat. cbn [res_bind].
  apply (f_equal (take 201)) in Hr. rewrite <- !fmap_take in Hr.
  revert Hr Hty Hty'. generalize (take 201 (remaining entityIDKeyset entityIDKey (population told (rqTenant rq) t) (entityIDKey <$> cur))),
    (take 201 (remaining entityIDKeyset entityIDKey (population T (rqTenant rq) t) (entityIDKey <$> cur))).
  intros es es' He Hty Hty'. rewrite (summaries_alike t es es' w He Hty Hty').
  destruct (eachFold _ es' w) as [w'|]; [|done]. cbn [res_bind pgLimit pgStable].
  assert (length es = length es') as -> by (by rewrite <- !(length_fmap esEntityID), He).
  destruct (_ <=? _); [done|]. destruct (_ <=? _); [done|].
  apply (f_equal list.last) in He. rewrite !fmap_last in He.
  destruct (list.last es) as [l|], (list.last es') as [l'|]; try done. simpl in He. injection He as He.
  assert (entityIDKey l = entityIDKey l') as -> by (unfold entityIDKey; by rewrite He).
  exact (IH false _ (Some l') w').
Qed.

Lemma reads_alike rawAttr rawType rawEntity :
  EffectiveSchemaCase rq rawAttr rawEntity told = EffectiveSchemaCase rq rawAttr rawEntity T /\
  CompletenessCase rq rawType rawEntity told = CompletenessCase rq rawType rawEntity T /\
  TypeCompletenessCase rq rawType told = TypeCompletenessCase rq rawType T.
Proof using HT HT' same ulid_inj cursor_round.
  split_and!.
  - destruct (ParseID rawAttr) as [i|] eqn:Ei; [|by unfold EffectiveSchemaCase; rewrite Ei].
    destruct (ParseEntityID rawEntity) as [e|] eqn:Ee; [|by unfold EffectiveSchemaCase; rewrite Ei, Ee].
    destruct (attrs T !! i) as [def|] eqn:Ed; [|by unfold EffectiveSchemaCase, AttrGet; simpl; rewrite Ei, Ee, Ed].
    destruct (decide (tenantID def = rqTenant rq)) as [Et|Et].
    2: { unfold EffectiveSchemaCase, AttrGet, EnsureTenant. simpl. rewrite Ei, Ee, Ed. simpl.
         by rewrite bool_decide_false. }
    destruct (CanRead (rqAccess rq) (internalName def)) eqn:Er.
    2: { unfold EffectiveSchemaCase, AttrGet, EnsureTenant. simpl. rewrite Ei, Ee, Ed. simpl.
         by rewrite bool_decide_true, Er. }
    rewrite (EffectiveSchema_inv ulid_inj T rq rawAttr rawEntity i e def) by done.
    rewrite (EffectiveSchema_inv ulid_inj told rq rawAttr rawEntity i e def) by done.
    by rewrite seen_alike.
  - unfold CompletenessCase. destruct (ParseID rawType) as [i|]; [|done]. destruct (ParseEntityID rawEntity) as [e|]; [|done].
    change (types told) with (types T). destruct (TypeGet (types T) i) as [t|]; [|done]. cbn [res_bind]. unfold EnsureTenant.
    case_bool_decide as Et; [|done]. cbn [res_bind]. rewrite Et.
    rewrite (entityFilled_exact ulid_inj told rq i e HT'), (entityFilled_exact ulid_inj T rq i e HT), held_alike.
    reflexivity.
  - unfold TypeCompletenessCase. destruct (ParseID rawType) as [i|]; [|done].
    change (types told) with (types T). destruct (TypeGet (types T) i) as [t|]; cbn [res_bind]; [|reflexivity].
    unfold EnsureTenant. case_bool_decide as Et; cbn [res_bind]; [|reflexivity]. rewrite Et.
    by rewrite (sweep_alike i sweepRounds true 0 None).
Qed.
End Alike.

(** C31: neither the schema of an attribute nor a completeness score is an oracle on
    values the caller may not read: change, add or remove such values in any way
    that leaves each entity with its type and at least one value, and the three
    reads of the caller answer as before - the entity and type scores included,
    and the errors, whether or not the patterns of the rules compile anchored. *)
Theorem reads_unobservable T rq vs rawAttr rawType rawEntity :
  rule_reachable T -> rule_reachable (set_vals T vs) -> same_view T (rqAccess rq) (vals T) vs ->
  let T' := set_vals T vs in
  EffectiveSchemaCase rq rawAttr rawEntity T' = EffectiveSchemaCase rq rawAttr rawEntity T /\
  CompletenessCase rq rawType rawEntity T' = CompletenessCase rq rawType rawEntity T /\
  TypeCompletenessCase rq rawType T' = TypeCompletenessCase rq rawType T.
Proof using rat_number ulid_inj cursor_round.
  intros Hr Hr' Hs. by apply reads_alike; [apply rule_reachable_ok..|].
Qed.
End Sweeps.
