(* ===== verification/DependencyExample.v ===== *)
(** A product whose packing is required when it is fragile: what two callers are told
    of it; and a rule that comes to demand a value nobody may write. *)

From Stdlib Require Import ZArith QArith Lia String Ascii List SpecFloat.
From stdpp Require Import base tactics list gmap fin_maps fin_sets strings option decidable pretty relations.
From S2P Require Import Prelude GoText Values Ids Formula Attribute Access TypeDef TypeDefFacts Units.
From S2P Require Import Pagination Query QueryAccess QueryExample Dependency DependencyFacts ResolverFacts.
From S2P Require Import ValueWrite AttributeWrite SchemaFacts SchemaExample ValueWriteFacts ValueExample.
From S2P Require Import DependencyWrite DependencyWriteFacts DependencyReads TypeCompleteness Scores.

Open Scope Z_scope.
Open Scope go_scope.

Import SchemaRun ValueRun QueryRun.

Module RuleRun.

Definition is_fragile : Condition :=
  mkCondition CondEquals (Some (NewIntegerValue 1)) [] None None false false "" false None
    (OpOther "") "" DataTypeNone.

(** A fragile product needs its packing. *)
Definition needs (e : Enforcement) : DepCreateInput :=
  mkDepCreate "1" "2" (Ok ([is_fragile], mkEffect [] [] (Some true) e)) "".

Definition add_rule (i : DepCreateInput) (fresh : ID) (T : Tables) : Tables :=
  after (DepCreate admin i fresh T) T.

Definition change (i : AttrUpdateInput) (T : Tables) : Tables := after (AttrUpdate None admin i T) T.

(** The rule first, the fragile box after. *)
Definition guarded : Tables := add_rule (needs EnforceDefault) 1 schema.
Definition fragile_box : Tables := put_value (input "1" "1") 1 guarded.
(** The same box, not fragile any more. *)
Definition sturdy_box : Tables := put_value (input "1" "0") 9 fragile_box.

(** The clerk of [QueryRun] may not read [fragile]. *)
Definition clerk_request : Request :=
  mkRequest (mkContext None None (Some clerk)) false ∅ Demo.epoch 100 None.

Lemma rat_number (q : Q) : is_nan (rat_Float64 q) = false.
Proof. apply float_of_Z_number. Qed.

Lemma cursor_round (e : EntitySummary) :
  EncodeKeyset (entityIDKey e) <> EmptyString /\
  ValidateKeyset entityIDKeyset (EncodeKeyset (entityIDKey e)) = Ok (entityIDKey e).
Proof. split; [done|]. reflexivity. Qed.

Lemma needs_decoded e : decoded_ok (dcRule (needs e)).
Proof.
  intros cs e' [= <- <-]. constructor; [|constructor].
  intros b [Hb|Hb]; discriminate Hb.
Qed.

Section Steps.
Variables (T : Tables).
Hypothesis HT : rule_reachable T.

Lemma rule_tables : schema_ok T.
Proof using HT. apply (rule_reachable_ok rat_number T HT). Qed.

Lemma add_rule_reachable i fresh :
  decoded_ok (dcRule i) -> deps T !! fresh = None -> rule_reachable (add_rule i fresh T).
Proof using HT.
  intros Hd Hf. unfold add_rule, after. destruct (DepCreate _ _ _ _) as [[[T' d] evs]|] eqn:E; [|done].
  eapply rur_step; [exact HT|]. by eapply ru_create.
Qed.

Lemma table_reaches T' : table_step T T' -> deps T' = deps T -> rule_reachable T'.
Proof using HT. intros Hs Ed. eapply rur_step; [exact HT|]. by apply ru_table. Qed.

Lemma put_value_rule i fresh :
  vals T !! fresh = None -> deps (put_value i fresh T) = deps T -> rule_reachable (put_value i fresh T).
Proof using HT.
  intros Hf Ed. apply table_reaches; [|done]. unfold put_value, after.
  destruct (ValueSetCase _ _ _ _) as [[[T' c] av]|] eqn:E; [|apply tb_schema; [by apply ss_data|done]].
  by eapply tb_set.
Qed.

Lemma add_rule_type name parent fresh :
  types T !! fresh = None -> rule_reachable (add_type name parent fresh T).
Proof using HT.
  intros Hf. unfold add_type. destruct (TypeCreate _ _ _ _ _) as [[[c t] evs]|] eqn:E; [|done].
  apply table_reaches; [|done]. apply tb_schema; [|done]. eapply ss_type; [|done]. by eapply ts_create.
Qed.

Lemma add_attr_rule i fresh :
  attrs T !! fresh = None -> rule_reachable (add i fresh T).
Proof using HT.
  intros Hf. unfold add, after. destruct (AttrCreate _ _ _ _ _) as [[[T' a] evs]|] eqn:E; [|done].
  destruct (create_spec _ _ _ _ _ _ _ _ rule_tables E) as (? & ? & ? & ? & _ & _ & _ & _ & _ & -> & _).
  apply table_reaches; [|done]. apply tb_schema; [by eapply ss_create|done].
Qed.

Lemma change_rule i : rule_reachable (change i T).
Proof using HT.
  unfold change, after. destruct (AttrUpdate _ _ _ _) as [[[T' a] evs]|] eqn:E; [|done].
  destruct (update_spec _ _ _ _ _ _ _ rule_tables E) as (? & ? & _ & _ & _ & _ & -> & _).
  apply table_reaches; [|done]. apply tb_schema; [by eapply ss_update|done].
Qed.
End Steps.

Lemma schema_rule : rule_reachable schema.
Proof.
  unfold schema, product. apply add_attr_rule; [|vm_compute; reflexivity].
  apply add_attr_rule; [|vm_compute; reflexivity].
  apply add_rule_type; [by apply rur_empty|vm_compute; reflexivity].
Qed.

Lemma guarded_reachable : rule_reachable guarded.
Proof. apply add_rule_reachable; [exact schema_rule|apply needs_decoded|vm_compute; reflexivity]. Qed.

Lemma fragile_box_reachable : rule_reachable fragile_box.
Proof. apply put_value_rule; [exact guarded_reachable|vm_compute; reflexivity..]. Qed.

Lemma sturdy_box_reachable : rule_reachable sturdy_box.
Proof. apply put_value_rule; [exact fragile_box_reachable|vm_compute; reflexivity..]. Qed.

Example told_to_admin :
  (match CompletenessCase admin "1" "box-1" fragile_box with
   | Ok c => Some (coRequired c, coFilled c, maInternalName <$> coMissing c, SFleb one (coScore c)) | Err _ => None end) =
  Some (1, 0, ["packing"%string], false).
Proof. vm_compute. reflexivity. Qed.

Example told_to_clerk :
  (match CompletenessCase clerk_request "1" "box-1" fragile_box with
   | Ok c => Some (coRequired c, coFilled c, coMissing c, SFleb one (coScore c)) | Err _ => None end) =
  Some (0, 0, [], true).
Proof. vm_compute. reflexivity. Qed.
End RuleRun.
Import RuleRun.

(** ** A demand that cannot be met *)

Module DemandRun.

(** Packing is required at once; then it becomes the result of a formula. *)
Definition strict : Tables := add_rule (needs EnforceOnWrite) 1 schema.
Definition derive_packing : AttrUpdateInput :=
  mkAttrUpdate "2" (Ok ([], None)) (Ok (Some (formula "fragile * 2"))) (fields "Packing" false false) None.
Definition derived : Tables := change derive_packing strict.

Definition the_rule : Dependency :=
  mkDependency 1 DefaultTenant 1 2 [is_fragile] (mkEffect [] [] (Some true) EnforceOnWrite) "" 1 100 100 None.

Lemma derived_reachable : rule_reachable derived.
Proof.
  apply change_rule, add_rule_reachable; [exact schema_rule|apply needs_decoded|vm_compute; reflexivity].
Qed.
End DemandRun.
Import DemandRun.

(** An attribute can be made computed under a rule that demands it on write,
    although creating such a rule is refused: the update of an attribute does not
    look at the rules that target it.  From then on a new entity cannot be made
    fragile - the write is refused for want of a value that only the materializer
    writes, after a commit that never comes - and the demanded value cannot be
    written first, for the attribute is computed. *)
Theorem computed_attribute_demanded :
  rule_reachable derived /\
  deps derived !! 1%N = Some the_rule /\ demandsOnWrite (effect the_rule) = true /\
  (exists a, attrs derived !! targetID the_rule = Some a /\ IsComputed a = true) /\
  DepCreate admin (needs EnforceOnWrite) 2 derived =
    Err (NewValidation "a computed attribute cannot be required on write: its value is materialized after the write commits") /\
  ValueSetCase admin (input "1" "1") 1 derived =
    Err (NewDependencyViolation "an attribute dependency requires a value for") /\
  is_ok (ValueSetCase admin (input "2" "2") 1 derived) = false.
Proof.
  split; [exact derived_reachable|]. split; [vm_compute; reflexivity|]. split; [vm_compute; reflexivity|].
  split; [eexists; split; vm_compute; reflexivity|]. split; [vm_compute; reflexivity|].
  split; vm_compute; reflexivity.
Qed.

(** ** Witnesses *)

Definition fragile_attr : AttrDefinition := default AccessExample.salary (attrs fragile_box !! 1%N).
Definition packing_attr : AttrDefinition := default AccessExample.salary (attrs fragile_box !! 2%N).
Definition product_definition : TypeDefinition :=
  default (mkType 0 "" KindEntity "" "" "" None 0 0 0 None) (types fragile_box !! 1%N).

Lemma fragile_no_nan i r : vals fragile_box !! i = Some r -> comparable (avValue r).
Proof. revert i r. apply (no_nan_check (vals fragile_box)). vm_compute. reflexivity. Qed.

Lemma packing_found : attrs fragile_box !! 2%N = Some packing_attr.
Proof. vm_compute. reflexivity. Qed.

Lemma product_found : types fragile_box !! 1%N = Some product_definition.
Proof. vm_compute. reflexivity. Qed.

Lemma no_facts rq : rqFacts rq = ∅ -> map_Forall (fun _ => parsed) (rqFacts rq).
Proof. intros ->. apply map_Forall_empty. Qed.

Lemma ids_one : ParseID "1" = Ok 1%N /\ ParseID "2" = Ok 2%N /\ ParseEntityID "box-1" = Ok "box-1"%string.
Proof. split_and!; vm_compute; reflexivity. Qed.

Lemma all_rows_check (P : AttributeValue -> Prop) `{!forall r, Decision (P r)} (vs vs' : gmap ID AttributeValue) :
  forallb (fun r => bool_decide (P r)) (values vs ++ values vs') = true ->
  forall i r, vs !! i = Some r \/ vs' !! i = Some r -> P r.
Proof.
  intros Hall i r Hi. rewrite forallb_forall in Hall. specialize (Hall r). rewrite bool_decide_eq_true in Hall.
  apply Hall, list_elem_of_In, elem_of_app. rewrite !values_elem. destruct Hi; [left|right]; by exists i.
Qed.

Lemma boxes_presence : same_view fragile_box clerk (vals fragile_box) (vals sturdy_box).
Proof.
  apply same_view_check; [vm_compute; reflexivity|]. intros i r Hi (a & Ha & Hc). exfalso.
  assert (avAttrID r = 1%N) as Er.
  { refine (all_rows_check (fun r => avAttrID r = 1%N) (vals fragile_box) (vals sturdy_box) _ i r Hi).
    vm_compute. reflexivity. }
  rewrite Er in Ha. assert (internalName <$> attrs fragile_box !! 1%N = Some "fragile"%string) as Ea by (vm_compute; reflexivity).
  rewrite Ha in Ea. injection Ea as Ea. rewrite Ea in Hc. revert Hc. vm_compute. discriminate.
Qed.

Lemma sturdy_values : set_vals fragile_box (vals sturdy_box) = sturdy_box.
Proof. vm_compute. reflexivity. Qed.

Lemma rules_of_box_anchor :
  anchored_rules (ListByTarget fragile_box 2) /\ anchored_rules (type_rules fragile_box admin product_definition).
Proof.
  assert (forall rules, Forall (fun d => Forall (fun c => CKind c = CondEquals) (conditions d)) rules ->
    anchored_rules rules) as Heq.
  { intros rules Hr. eapply list.Forall_impl; [exact Hr|]. intros d Hd. eapply list.Forall_impl; [exact Hd|].
    intros c E E'. congruence. }
  split; apply Heq.
  - assert (ListByTarget fragile_box 2 = omap (fun i => deps fragile_box !! i) [1%N]) as -> by (vm_compute; reflexivity).
    vm_compute. repeat constructor.
  - assert (type_rules fragile_box admin product_definition = omap (fun i => deps fragile_box !! i) [1%N]) as ->
      by (vm_compute; reflexivity).
    vm_compute. repeat constructor.
Qed.

Lemma rules_sound_witness :
  exists d, deps fragile_box !! 1%N = Some d /\ depID d = 1%N /\ sourceID d <> targetID d.
Proof.
  assert (exists d, deps fragile_box !! 1%N = Some d) as [d Hd] by (eexists; vm_compute; reflexivity).
  exists d. split; [exact Hd|]. destruct (rules_sound rat_number fragile_box 1 d fragile_box_reachable Hd) as (H1 & H2 & _).
  split; [exact H1|exact H2].
Defined.

Lemma effective_schema_exact_witness :
  exists out, EffectiveSchemaCase admin "2" "box-1" fragile_box = Ok out /\ soRequired out = true.
Proof.
  pose proof (effective_schema_exact rat_number AccessExample.ulid_inj fragile_box admin "2" "box-1" 2 "box-1" packing_attr
    fragile_box_reachable fragile_no_nan (no_facts admin eq_refl) (proj1 (proj2 ids_one)) (proj2 (proj2 ids_one)) packing_found) as Hs.
  cbv zeta in Hs. assert (bool_decide (tenantID packing_attr = rqTenant admin) &&
    CanRead (rqAccess admin) (internalName packing_attr) = true) as E by (vm_compute; reflexivity).
  rewrite E in Hs. destruct (proj2 Hs (proj1 rules_of_box_anchor)) as (out & Ho & _). exists out. split; [exact Ho|].
  assert (match EffectiveSchemaCase admin "2" "box-1" fragile_box with Ok o => soRequired o | Err _ => false end = true)
    as Er by (vm_compute; reflexivity).
  rewrite Ho in Er. exact Er.
Defined.

Lemma completeness_exact_witness :
  exists out, CompletenessCase admin "1" "box-1" fragile_box = Ok out /\
    coFilled out + Z.of_nat (length (coMissing out)) = coRequired out /\ maInternalName <$> coMissing out = ["packing"%string].
Proof.
  pose proof (completeness_exact rat_number AccessExample.ulid_inj fragile_box admin "1" "box-1" 1 "box-1" product_definition
    fragile_box_reachable fragile_no_nan (no_facts admin eq_refl) (proj1 ids_one) (proj2 (proj2 ids_one)) product_found eq_refl) as Hs.
  cbv zeta in Hs. apply proj2 in Hs. specialize (Hs (proj2 rules_of_box_anchor)).
  destruct (gateSchema fragile_box 1) as [schema|e] eqn:E; [|revert E; vm_compute; discriminate].
  destruct Hs as (out & due & Ho & _ & _ & _ & Hsum & _). exists out. split; [exact Ho|]. split; [exact Hsum|].
  assert (match CompletenessCase admin "1" "box-1" fragile_box with
          | Ok o => maInternalName <$> coMissing o | Err _ => [] end = ["packing"%string]) as Em by (vm_compute; reflexivity).
  rewrite Ho in Em. exact Em.
Defined.

Lemma type_completeness_exact_witness :
  exists out, TypeCompletenessCase admin "1" fragile_box = Ok out /\ tcScored out = 1 /\ tcIncomplete out = 1.
Proof.
  pose proof (type_completeness_exact rat_number AccessExample.ulid_inj cursor_round fragile_box admin "1" 1 product_definition
    fragile_box_reachable fragile_no_nan (no_facts admin eq_refl) (proj1 ids_one) product_found eq_refl
    (proj2 rules_of_box_anchor)) as Hs.
  cbv zeta in Hs. destruct (gateSchema fragile_box 1) as [schema|e] eqn:E; [|revert E; vm_compute; discriminate].
  destruct Hs as (out & Ho & Hc & _ & Hsc & _). exists out. split; [exact Ho|].
  assert (match TypeCompletenessCase admin "1" fragile_box with
          | Ok o => (tcCount o, tcIncomplete o) | Err _ => (0, 0) end = (1, 1)) as Em by (vm_compute; reflexivity).
  rewrite Ho in Em. injection Em as E1 E2. split; [rewrite Hsc, E1; reflexivity|exact E2].
Defined.

Lemma reads_unobservable_witness :
  CompletenessCase clerk_request "1" "box-1" sturdy_box = CompletenessCase clerk_request "1" "box-1" fragile_box /\
  CompletenessCase admin "1" "box-1" sturdy_box <> CompletenessCase admin "1" "box-1" fragile_box.
Proof.
  split; [|vm_compute; discriminate]. rewrite <- sturdy_values.
  refine (proj1 (proj2 (reads_unobservable rat_number AccessExample.ulid_inj cursor_round fragile_box clerk_request
    (vals sturdy_box) "2" "1" "box-1" fragile_box_reachable _ boxes_presence))).
  rewrite sturdy_values. exact sturdy_box_reachable.
Defined.
