(* ===== verification/ServiceAccount.v ===== *)
(** Machine identities ([pkg/serviceaccount]): tokens and secrets, the file-backed
    store, the merge of roles into an account, the success cache with its indexes
    ([cache.go]), and the decisions of the authentication middleware
    ([internal/interfaces/http/middleware.go]).

    [crypto/sha256] is a parameter ([GoHash]). *)

From Stdlib Require Import ZArith Lia String Ascii List.
From stdpp Require Import base tactics list gmap fin_maps fin_sets strings option decidable.
From S2P Require Import Prelude GoText Values Ids Attribute Access.

Open Scope Z_scope.
Open Scope go_scope.

(** ** Accounts *)

Abbreviation Scope := string.
Definition ScopeRead : Scope := "read".
Definition ScopeWrite : Scope := "write".
Definition ScopeAdmin : Scope := "admin".

Record Account := mkAccount {
  acID : string;
  acName : string;
  acTenantID : string;
  acScopes : list Scope;
  acFieldPermissions : gmap string string;
  acSecretHash : string;
  acUnresolvedRoles : list string }.

Definition HasScope (a : Account) (s : Scope) : bool :=
  existsb (fun have => bool_decide (have = s) || bool_decide (have = ScopeAdmin)) (acScopes a).

Definition AccountTenant (a : Account) : TenantID :=
  match ParseTenantID (acTenantID a) with Ok t => t | Err _ => DefaultTenant end.

(** ** Tokens and secrets *)

(** [hex.EncodeToString(sha256.Sum256(secret))] *)
Class GoHash := { HashSecret : string -> string }.

Definition TokenPrefix : string := "ft_".

Definition MintToken (accountID secret : string) : string :=
  String.append TokenPrefix (String.append accountID (String "_" secret)).

Definition SplitToken (token : string) : result (string * string) :=
  match CutPrefix token TokenPrefix with
  | None => Err (Errorf "malformed token")
  | Some rest =>
      match Cut "_" rest with
      | Some (i, secret) =>
          guard! str_IsZero i || str_IsZero secret else Errorf "malformed token" then Ok (i, secret)
      | None => Err (Errorf "malformed token")
      end
  end.

Section Secrets.
Context `{GoHash}.

Definition VerifySecret (secret storedHash : string) : result unit :=
  guard! negb (bool_decide (HashSecret secret = storedHash)) else Errorf "invalid credentials" then Ok tt.

(** The comparison it burns decides nothing. *)
Definition VerifyOnlyTiming (secret : string) : Error := Errorf "unknown service account".

(** *** The file-backed store *)

Definition NewStore (accounts : list Account) : gmap string Account :=
  fold_left (fun m a => <[acID a := a]> m) accounts ∅.

(** [LoadFile] on what [json.Unmarshal] decoded. *)
Definition LoadAccounts (accounts : list Account) : result (gmap string Account) :=
  check! each (fun a => guard! str_IsZero (acID a) || str_IsZero (acSecretHash a)
    else Errorf "service account missing id or secret_hash" then Ok tt) accounts then
  Ok (NewStore accounts).

Definition StoreAuthenticate (accounts : gmap string Account) (token : string) : result Account :=
  let! '(i, secret) := SplitToken token in
  match accounts !! i with
  | None => Err (VerifyOnlyTiming secret)
  | Some account => check! VerifySecret secret (acSecretHash account) then Ok account
  end.
End Secrets.

(** ** Roles *)

(** [permissionRank]: a missing key of the map reads as 0. *)
Definition permissionRank (level : string) : Z :=
  if bool_decide (level = "none"%string) then 1
  else if bool_decide (level = "read"%string) then 2
  else if bool_decide (level = "write"%string) then 3
  else 0.

Definition MorePermissive (a b : string) : bool := permissionRank b <? permissionRank a.

Record RoleGrant := mkGrant {
  rgName : string;
  rgScopes : list Scope;
  rgFieldPermissions : gmap string string }.

Definition grantsByName (grants : list RoleGrant) : gmap string RoleGrant :=
  fold_left (fun m g => <[rgName g := g]> m) grants ∅.

(** [held] and the scopes appended to the account. *)
Definition mergeScopes (scopes : list Scope) (s : gset Scope * list Scope) : gset Scope * list Scope :=
  fold_left (fun '(held, out) sc =>
    if bool_decide (sc = ScopeAdmin) || bool_decide (sc ∈ held) then (held, out)
    else ({[sc]} ∪ held, out ++ [sc])) scopes s.

(** The loop visits each key of [perms] once, and touches that key of [merged]. *)
Definition mergePermissions (perms merged : gmap string string) : gmap string string :=
  fold_left (fun m kv => if MorePermissive kv.2 (default EmptyString (m !! kv.1)) then <[kv.1 := kv.2]> m else m)
    (map_to_list perms) merged.

Definition overlay (perms merged : gmap string string) : gmap string string :=
  fold_left (fun m kv => <[kv.1 := kv.2]> m) (map_to_list perms) merged.

Record merging := mkMerging {
  mgHeld : gset Scope;
  mgScopes : list Scope;
  mgMerged : gmap string string;
  mgUnresolved : list string }.

Definition mergeRole (byName : gmap string RoleGrant) (m : merging) (name : string) : merging :=
  match byName !! name with
  | None => mkMerging (mgHeld m) (mgScopes m) (mgMerged m) (mgUnresolved m ++ [name])
  | Some g =>
      let s := mergeScopes (rgScopes g) (mgHeld m, mgScopes m) in
      mkMerging s.1 s.2 (mergePermissions (rgFieldPermissions g) (mgMerged m)) (mgUnresolved m)
  end.

Definition mergeRoles (byName : gmap string RoleGrant) (names : list string) (base : Account) : merging :=
  fold_left (mergeRole byName) names
    (mkMerging (list_to_set (acScopes base)) (acScopes base) ∅ (acUnresolvedRoles base)).

Definition Resolve (base : Account) (names : list string) (grants : list RoleGrant) : Account :=
  let m := mergeRoles (grantsByName grants) names base in
  let merged := overlay (acFieldPermissions base) (mgMerged m) in
  mkAccount (acID base) (acName base) (acTenantID base) (mgScopes m)
    (if (0 <? size merged)%nat then merged else acFieldPermissions base)
    (acSecretHash base) (mgUnresolved m).

(** [accessFor] of the middleware. *)
Definition accessFor (account : Account) : Access :=
  AccessFromPermissions (HasScope account ScopeAdmin) (Z.of_nat (length (acUnresolvedRoles account)))
    (acFieldPermissions account).

(** ** The middleware *)

(** How [authenticate] answers a request: it refuses it, or passes it on with a
    context and its scopes. *)
Inductive verdict :=
| Unauthorized (msg : string)
| Forbidden (msg : string)
| Next (ctx : Context) (scopes : list Scope).

Definition ActorServiceAccount : string := "service_account".
Definition ActorSystem : string := "system".

(** [auth] is nil in development mode; [header] is the Authorization header. *)
Definition authenticate (auth : option (string -> result Account)) (method header : string) (ctx : Context) : verdict :=
  match auth with
  | None =>
      Next (mkContext (tenantKey ctx) (Some (mkActor "" "dev" ActorSystem)) (Some (mkAccess true ∅ ""))) [ScopeAdmin]
  | Some lookup =>
      match CutPrefix header "Bearer " with
      | None => Unauthorized "missing bearer token"
      | Some token =>
          if str_IsZero token then Unauthorized "missing bearer token" else
          match lookup token with
          | Err _ => Unauthorized "invalid credentials"
          | Ok account =>
              let required := if bool_decide (method = "GET"%string) || bool_decide (method = "HEAD"%string)
                              then ScopeRead else ScopeWrite in
              if negb (HasScope account required) then Forbidden (String.append "missing scope " required) else
              Next (mkContext (Some (AccountTenant account))
                      (Some (mkActor (acID account) (acName account) ActorServiceAccount))
                      (Some (accessFor account)))
                   (acScopes account)
          end
      end
  end.

(** [hasScope] over the scopes the middleware stamped, and [requireAdmin]. *)
Definition hasScope (scopes : list Scope) (want : Scope) : bool :=
  existsb (fun s => bool_decide (s = want) || bool_decide (s = ScopeAdmin)) scopes.

Definition requireAdmin (scopes : list Scope) : bool := hasScope scopes ScopeAdmin.

(** ** The success cache *)

Record cacheEntry := mkEntry { ceAccount : Account; ceExpires : Z }.

(** The inner sets of the indexes are never nil once created: a missing key reads
    as the empty one. *)
Record Cache := mkCache {
  caEntries : gmap string cacheEntry;
  byAccount : gmap string (gset string);
  byTenant : gmap string (gset string) }.

Definition emptyCache : Cache := mkCache ∅ ∅ ∅.

(** [delete(tokens, token)], dropping the index entry that became empty. *)
Definition unindex (token key : string) (index : gmap string (gset string)) : gmap string (gset string) :=
  match index !! key with
  | None => index
  | Some tokens =>
      let tokens' := tokens ∖ {[token]} in
      if bool_decide (tokens' = ∅) then delete key index else <[key := tokens']> index
  end.

Definition forget (c : Cache) (token : string) : Cache :=
  match caEntries c !! token with
  | None => c
  | Some entry =>
      mkCache (delete token (caEntries c))
        (unindex token (acID (ceAccount entry)) (byAccount c))
        (unindex token (acTenantID (ceAccount entry)) (byTenant c))
  end.

Definition addIndex (token key : string) (index : gmap string (gset string)) : gmap string (gset string) :=
  <[key := {[token]} ∪ default ∅ (index !! key)]> index.

(** The probe of [AuthenticateCtx], under the read lock. *)
Definition cacheHit (c : Cache) (now : Z) (token : string) : option Account :=
  match caEntries c !! token with
  | Some entry => if now <? ceExpires entry then Some (ceAccount entry) else None
  | None => None
  end.

(** Its last part, under the lock: what the inner authenticator answered is kept. *)
Definition cacheFill (c : Cache) (now ttl : Z) (token : string) (account : Account) : Cache :=
  let c := if (1024 <? size (caEntries c))%nat
           then fold_left (fun c ke => if negb (now <? ceExpires ke.2) then forget c ke.1 else c)
                  (map_to_list (caEntries c)) c
           else c in
  mkCache (<[token := mkEntry account (now + ttl)]> (caEntries c))
    (addIndex token (acID account) (byAccount c))
    (addIndex token (acTenantID account) (byTenant c)).

Definition Invalidate (c : Cache) (accountID : string) : Cache :=
  let c := fold_left forget (elements (default ∅ (byAccount c !! accountID))) c in
  mkCache (caEntries c) (delete accountID (byAccount c)) (byTenant c).

Definition InvalidateTenant (c : Cache) (tenantID : string) : Cache :=
  let c := fold_left forget (elements (default ∅ (byTenant c !! tenantID))) c in
  mkCache (caEntries c) (byAccount c) (delete tenantID (byTenant c)).
