(* ===== verification/ServiceAccountFacts.v ===== *)
(** What tokens and merged roles mean: a minted token splits into the identifier and
    the secret it was made of; the merge of roles takes, of each attribute, the most
    permissive level a role lists, the account's own level before it. *)

From Stdlib Require Import ZArith Lia String Ascii List.
From stdpp Require Import base tactics list gmap fin_maps fin_sets strings option decidable.
From S2P Require Import Prelude GoText Values Ids Attribute Access ServiceAccount.

Open Scope Z_scope.
Open Scope go_scope.

(** ** Tokens *)

Definition plain_id (i : string) : Prop :=
  i <> EmptyString /\ all_bytes (fun d => negb (Ascii.eqb "_" d)) i = true.

Lemma str_IsZero_false s : str_IsZero s = false <-> s <> EmptyString.
Proof. unfold str_IsZero. by rewrite bool_decide_eq_false. Qed.

Lemma SplitToken_exact token i secret :
  SplitToken token = Ok (i, secret) <->
  token = MintToken i secret /\ plain_id i /\ secret <> EmptyString.
Proof.
  unfold SplitToken, plain_id. split.
  - destruct (CutPrefix token TokenPrefix) as [rest|] eqn:Ep; [|done].
    destruct (Cut "_" rest) as [[a b]|] eqn:Ec; [|done]. simpl.
    destruct (str_IsZero a || str_IsZero b) eqn:Ez; [done|]. intros [= -> ->].
    apply orb_false_iff in Ez as [Ha%str_IsZero_false Hb%str_IsZero_false].
    apply CutPrefix_Some in Ep as ->. apply Cut_Some in Ec as [-> Hu]. by split.
  - intros (-> & [Hi Hu] & Hs). unfold MintToken. rewrite CutPrefix_app, Cut_app by done.
    apply str_IsZero_false in Hi, Hs. by rewrite Hi, Hs.
Qed.

(** ** Levels *)

Lemma known_rank l : known_level l -> 1 <= permissionRank l <= 3.
Proof. intros [->|[->| ->]]; vm_compute; by split. Qed.

Lemma rank_injective a b : known_level a -> known_level b -> permissionRank a = permissionRank b -> a = b.
Proof. intros [->|[->| ->]] [->|[->| ->]]; vm_compute; congruence. Qed.

(** What a level that a role lists does to the level merged so far. *)
Definition keep (level : string) (merged : option string) : option string :=
  if MorePermissive level (default EmptyString merged) then Some level else merged.

Definition best (levels : list string) : option string :=
  fold_left (fun merged level => keep level merged) levels None.

Lemma best_snoc ls l : best (ls ++ [l]) = keep l (best ls).
Proof. unfold best. by rewrite fold_left_app. Qed.

Lemma best_exact ls :
  Forall known_level ls ->
  match best ls with
  | None => ls = []
  | Some l => l ∈ ls /\ forall l', l' ∈ ls -> permissionRank l' <= permissionRank l
  end.
Proof.
  induction ls as [|l ls IH] using rev_ind; [done|]. intros [Hls Hl]%Forall_app.
  apply Forall_singleton, known_rank in Hl. specialize (IH Hls).
  rewrite best_snoc. unfold keep, MorePermissive. destruct (best ls) as [b|]; simpl.
  - destruct IH as [Hb Hmax]. destruct (Z.ltb_spec (permissionRank b) (permissionRank l)).
    + split; [set_solver|]. intros l' [Hl'| ->%list_elem_of_singleton]%elem_of_app; [|done].
      specialize (Hmax _ Hl'). lia.
    + split; [set_solver|]. intros l' [Hl'| ->%list_elem_of_singleton]%elem_of_app; [auto|done].
  - subst ls. change (permissionRank "") with 0. destruct (Z.ltb_spec 0 (permissionRank l)); [|lia].
    split; [set_solver|]. by intros l' ->%list_elem_of_singleton.
Qed.

(** ** The merge of roles *)

Lemma mergePermissions_lookup perms merged k :
  mergePermissions perms merged !! k =
  match perms !! k with Some level => keep level (merged !! k) | None => merged !! k end.
Proof.
  unfold mergePermissions. apply (fold_pointwise _ keep). intros m [i v] j. unfold keep. simpl.
  destruct (decide (j = i)) as [->|Hne].
  - destruct (MorePermissive v (default EmptyString (m !! i))); [apply lookup_insert_eq|done].
  - destruct (MorePermissive v (default EmptyString (m !! i))); [by apply lookup_insert_ne|done].
Qed.

Lemma overlay_lookup perms merged k :
  overlay perms merged !! k = match perms !! k with Some level => Some level | None => merged !! k end.
Proof.
  unfold overlay. apply (fold_pointwise _ (fun v _ => Some v)). intros m [i v] j. simpl.
  destruct (decide (j = i)) as [->|Hne]; [apply lookup_insert_eq|by apply lookup_insert_ne].
Qed.

Lemma mergeScopes_exact scopes held out :
  held = list_to_set out ->
  let r := mergeScopes scopes (held, out) in
  r.1 = list_to_set r.2 /\ forall s, s ∈ r.2 <-> s ∈ out \/ (s ∈ scopes /\ s <> ScopeAdmin).
Proof.
  unfold mergeScopes. revert held out. induction scopes as [|sc scopes IH]; intros held out Hh; simpl.
  - split; [done|]. intros s. set_solver.
  - destruct (bool_decide_reflect (sc = ScopeAdmin)) as [->|Hne]; simpl.
    { destruct (IH held out Hh) as [H1 H2]. split; [done|]. intros s. rewrite H2. set_solver. }
    destruct (bool_decide_reflect (sc ∈ held)) as [Hin|Hin].
    { destruct (IH held out Hh) as [H1 H2]. split; [done|]. intros s. rewrite H2. set_solver. }
    destruct (IH ({[sc]} ∪ held) (out ++ [sc])) as [H1 H2]; [set_solver|].
    split; [done|]. intros s. rewrite H2. set_solver.
Qed.

Section Merge.
Variable byName : gmap string RoleGrant.
Variable base : Account.

(** What the held roles list for one attribute, in the order of their names. *)
Definition listed (names : list string) (attr : string) : list string :=
  omap (fun n => byName !! n ≫= fun g => rgFieldPermissions g !! attr) names.

Definition merge_ok (names : list string) (m : merging) : Prop :=
  mgHeld m = list_to_set (mgScopes m) /\
  (forall s, s ∈ mgScopes m <-> s ∈ acScopes base \/
     (s <> ScopeAdmin /\ exists n g, n ∈ names /\ byName !! n = Some g /\ s ∈ rgScopes g)) /\
  (forall attr, mgMerged m !! attr = best (listed names attr)) /\
  mgUnresolved m = acUnresolvedRoles base ++ filter (fun n => byName !! n = None) names.

Lemma mergeRole_ok names m name :
  merge_ok names m -> merge_ok (names ++ [name]) (mergeRole byName m name).
Proof.
  intros (Hh & Hs & Hp & Hu). unfold mergeRole, merge_ok, listed.
  setoid_rewrite omap_app. rewrite list.filter_app, filter_cons, filter_nil. simpl.
  destruct (byName !! name) as [g|] eqn:E; simpl.
  - destruct (mergeScopes_exact (rgScopes g) (mgHeld m) (mgScopes m) Hh) as [Hh' Hs'].
    split; [done|]. split; [|split].
    + intros s. rewrite Hs', Hs. split.
      * intros [[Hb|(Hne & n & g' & Hn & Hg & Hin)]|[Hin Hne]]; [by left| |].
        { right. split; [done|]. exists n, g'. split; [set_solver|done]. }
        { right. split; [done|]. exists name, g. split; [set_solver|done]. }
      * intros [Hb|(Hne & n & g' & [Hn| ->%list_elem_of_singleton]%elem_of_app & Hg & Hin)]; [by left; left| |].
        { left. right. split; [done|]. by exists n, g'. }
        { right. split; [|done]. congruence. }
    + intros attr. rewrite mergePermissions_lookup. destruct (rgFieldPermissions g !! attr) as [l|] eqn:El; simpl.
      * rewrite best_snoc. f_equal. apply Hp.
      * rewrite app_nil_r. apply Hp.
    + by rewrite app_nil_r.
  - split; [done|]. split; [|split].
    + intros s. rewrite Hs. split; (intros [Hb|(Hne & n & g' & Hn & Hg & Hin)]; [by left|right; split; [done|]]).
      * exists n, g'. split; [set_solver|done].
      * exists n, g'. apply elem_of_app in Hn as [Hn| ->%list_elem_of_singleton]; [done|congruence].
    + intros attr. rewrite app_nil_r. apply Hp.
    + rewrite app_assoc. by f_equal.
Qed.

Lemma mergeRoles_ok names : merge_ok names (mergeRoles byName names base).
Proof.
  unfold mergeRoles. induction names as [|n names IH] using rev_ind.
  - simpl. split; [done|]. split; [|split; [done|by rewrite filter_nil, app_nil_r]].
    intros s. simpl. set_solver.
  - rewrite fold_left_app. by apply mergeRole_ok.
Qed.
End Merge.

(** The effective account: its scopes, its levels, and the roles nobody defines. *)
Lemma Resolve_exact base names grants :
  let byName := grantsByName grants in
  let r := Resolve base names grants in
  (forall s, s ∈ acScopes r <-> s ∈ acScopes base \/
     (s <> ScopeAdmin /\ exists n g, n ∈ names /\ byName !! n = Some g /\ s ∈ rgScopes g)) /\
  (forall attr, acFieldPermissions r !! attr =
     match acFieldPermissions base !! attr with
     | Some own => Some own
     | None => best (listed byName names attr)
     end) /\
  acUnresolvedRoles r = acUnresolvedRoles base ++ filter (fun n => byName !! n = None) names.
Proof.
  intros byName. destruct (mergeRoles_ok byName base names) as (_ & Hs & Hp & Hu).
  unfold Resolve. fold byName. cbv zeta. simpl. split; [done|]. split; [|done]. intros attr.
  rewrite <- Hp, <- overlay_lookup.
  destruct (0 <? size (overlay (acFieldPermissions base) (mgMerged (mergeRoles byName names base))))%nat eqn:Em;
    [done|]. apply Nat.ltb_ge, Nat.le_0_r, map_size_empty_inv in Em.
  rewrite Em, lookup_empty. destruct (acFieldPermissions base !! attr) as [l|] eqn:El; [|done].
  pose proof (overlay_lookup (acFieldPermissions base) (mgMerged (mergeRoles byName names base)) attr) as Ho.
  by rewrite Em, El, lookup_empty in Ho.
Qed.

Lemma HasScope_exact a s : HasScope a s = true <-> s ∈ acScopes a \/ ScopeAdmin ∈ acScopes a.
Proof.
  unfold HasScope. rewrite existsb_exists. split.
  - intros (h & Hh%list_elem_of_In & Hd). apply orb_true_iff in Hd as [Hd|Hd]; breflect; subst; auto.
  - intros [Hs|Hs]; [exists s|exists ScopeAdmin]; (split; [by apply list_elem_of_In|]); apply orb_true_iff.
    + left. by apply bool_decide_eq_true.
    + right. by apply bool_decide_eq_true.
Qed.

(** A grant found under a name carries that name. *)
Lemma grantsByName_lookup grants n g : grantsByName grants !! n = Some g -> g ∈ grants /\ rgName g = n.
Proof.
  unfold grantsByName. induction grants as [|g' grants IH] using rev_ind; [done|].
  rewrite fold_left_app. simpl. destruct (decide (rgName g' = n)) as [<-|Hne].
  - rewrite lookup_insert_eq. intros [= <-]. set_solver.
  - rewrite lookup_insert_ne by done. intros [H1 H2]%IH. set_solver.
Qed.

Lemma grantsByName_unique grants g :
  (forall g', g' ∈ grants -> rgName g' = rgName g -> g' = g) -> g ∈ grants ->
  grantsByName grants !! rgName g = Some g.
Proof.
  intros Hu Hg. apply (insert_all_member rgName (fun g => g) grants ∅ g); [|done]. exact Hu.
Qed.
