(* ===== verification/Admin.v ===== *)
(** Provisioning ([application/admin], [infrastructure/postgres/admin_store.go]):
    tenants, service accounts and roles, the usecases that change them - each one
    transaction over the tables, with the cached authentications it evicts after
    its commit - the database-backed authenticator and the view of an account's
    effective permissions.  [flexitype.go]'s bootstrap composes them.

    A text compares with a CHAR(26) column as PostgreSQL compares them
    ([GoPgChar]); generated identifiers, secrets and instants are arguments. *)

From Stdlib Require Import ZArith Lia String Ascii List.
From stdpp Require Import base tactics list gmap fin_maps fin_sets strings option decidable.
From S2P Require Import Prelude GoText Values Ids Attribute Access ServiceAccount.

Open Scope Z_scope.
Open Scope go_scope.

(** ** The tables *)

Record Tenant := mkTenant {
  tnID : ID; tnName : string; tnActive : bool; tnCreatedAt : Z; tnUpdatedAt : Z }.

(** [secret_hash] is a column beside the entity; it is a field here. *)
Record ServiceAccount := mkServiceAccount {
  saID : ID; saTenantID : string; saName : string; saScopes : list Scope;
  saRoles : list string; saFieldPermissions : gmap string string; saActive : bool;
  saCreatedAt : Z; saUpdatedAt : Z; saSecretHash : string }.

Record Role := mkRole {
  roID : ID; roTenantID : string; roName : string; roDescription : string;
  roScopes : list Scope; roFieldPermissions : gmap string string;
  roCreatedAt : Z; roUpdatedAt : Z }.

Record AdminDB := mkAdminDB {
  dbTenants : gmap ID Tenant;
  dbAccounts : gmap ID ServiceAccount;
  dbRoles : gmap ID Role }.

Definition emptyDB : AdminDB := mkAdminDB ∅ ∅ ∅.

Definition setTenants (db : AdminDB) ts : AdminDB := mkAdminDB ts (dbAccounts db) (dbRoles db).
Definition setAccounts (db : AdminDB) xs : AdminDB := mkAdminDB (dbTenants db) xs (dbRoles db).
Definition setRoles (db : AdminDB) rs : AdminDB := mkAdminDB (dbTenants db) (dbAccounts db) rs.

(** ** The store *)

Definition tenantNamed (db : AdminDB) (name : string) : option Tenant :=
  find (fun t => bool_decide (tnName t = name)) (values (dbTenants db)).

Definition GetTenantByName (db : AdminDB) (name : string) : result Tenant :=
  match tenantNamed db name with Some t => Ok t | None => Err (NewNotFound "tenant") end.

(** The primary key, and the unique name. *)
Definition insertTenant (db : AdminDB) (t : Tenant) : result AdminDB :=
  match tenantNamed db (tnName t) with
  | Some _ => Err (NewConflict "a tenant with this name already exists")
  | None =>
      match dbTenants db !! tnID t with
      | Some _ => Err (NewConflict "a tenant with this id already exists")
      | None => Ok (setTenants db (<[tnID t := t]> (dbTenants db)))
      end
  end.

Definition updateTenantActive (db : AdminDB) (name : string) (active : bool) (now : Z) : AdminDB :=
  setTenants db ((fun t => if bool_decide (tnName t = name)
    then mkTenant (tnID t) (tnName t) active (tnCreatedAt t) now else t) <$> dbTenants db).

Definition accountNamed (db : AdminDB) (tenant name : string) : option ServiceAccount :=
  find (fun a => bool_decide (saTenantID a = tenant) && bool_decide (saName a = name)) (values (dbAccounts db)).

Definition insertAccount (db : AdminDB) (a : ServiceAccount) : result AdminDB :=
  match accountNamed db (saTenantID a) (saName a) with
  | Some _ => Err (NewConflict "a service account with this name already exists in this tenant")
  | None =>
      match dbAccounts db !! saID a with
      | Some _ => Err (NewConflict "a service account with this id already exists")
      | None => Ok (setAccounts db (<[saID a := a]> (dbAccounts db)))
      end
  end.

Definition GetAccount (db : AdminDB) (i : ID) : result ServiceAccount :=
  match dbAccounts db !! i with Some a => Ok a | None => Err (NewNotFound "service_account") end.

(** The UPDATE statements on one account; none of them touches an absent one. *)
Definition updateSecret (hash : string) (now : Z) (a : ServiceAccount) : ServiceAccount :=
  mkServiceAccount (saID a) (saTenantID a) (saName a) (saScopes a) (saRoles a) (saFieldPermissions a)
    (saActive a) (saCreatedAt a) now hash.

Definition updateActive (active : bool) (now : Z) (a : ServiceAccount) : ServiceAccount :=
  mkServiceAccount (saID a) (saTenantID a) (saName a) (saScopes a) (saRoles a) (saFieldPermissions a)
    active (saCreatedAt a) now (saSecretHash a).

Definition updateRoles (roles : list string) (perms : gmap string string) (now : Z) (a : ServiceAccount) :
    ServiceAccount :=
  mkServiceAccount (saID a) (saTenantID a) (saName a) (saScopes a) roles perms
    (saActive a) (saCreatedAt a) now (saSecretHash a).

Definition updateAccount (db : AdminDB) (i : ID) (f : ServiceAccount -> ServiceAccount) : AdminDB :=
  setAccounts db (alter f i (dbAccounts db)).

Definition SetAccountRoles (db : AdminDB) (i : ID) (roles : list string) (perms : gmap string string) (now : Z) :
    result AdminDB :=
  match dbAccounts db !! i with
  | None => Err (NewNotFound "service_account")
  | Some _ => Ok (updateAccount db i (updateRoles roles perms now))
  end.

(** The order of a list, by name, is not kept. *)
Definition ListTenants (db : AdminDB) : list Tenant := values (dbTenants db).

Definition ListAccounts (db : AdminDB) (tenant : string) : list ServiceAccount :=
  filter (fun a => saTenantID a = tenant) (values (dbAccounts db)).

Definition ListRoles (db : AdminDB) (tenant : string) : list Role :=
  filter (fun r => roTenantID r = tenant) (values (dbRoles db)).

Definition roleNamed (db : AdminDB) (tenant name : string) : option Role :=
  find (fun r => bool_decide (roName r = name)) (ListRoles db tenant).

Definition LockRole (db : AdminDB) (tenant name : string) : result Role :=
  match roleNamed db tenant name with Some r => Ok r | None => Err (NewNotFound "role") end.

Definition LockRolesShared (db : AdminDB) (tenant : string) (names : list string) : list string :=
  if bool_decide (names = []) then []
  else filter (fun n => n ∈ names) (roName <$> ListRoles db tenant).

(** [ON CONFLICT (tenant_id, name)]: the row keeps its id and creation time. *)
Definition StoreUpsertRole (db : AdminDB) (r : Role) : result (AdminDB * Role) :=
  match roleNamed db (roTenantID r) (roName r) with
  | Some old =>
      let r' := mkRole (roID old) (roTenantID r) (roName r) (roDescription r) (roScopes r)
                  (roFieldPermissions r) (roCreatedAt old) (roUpdatedAt r) in
      Ok (setRoles db (<[roID old := r']> (dbRoles db)), r')
  | None =>
      match dbRoles db !! roID r with
      | Some _ => Err (Errorf "upsert role")
      | None => Ok (setRoles db (<[roID r := r]> (dbRoles db)), r)
      end
  end.

Definition CountAccountsWithRole (db : AdminDB) (tenant name : string) : nat :=
  length (filter (fun a => name ∈ saRoles a) (ListAccounts db tenant)).

Definition StoreDeleteRole (db : AdminDB) (tenant name : string) : result AdminDB :=
  match roleNamed db tenant name with
  | None => Err (NewNotFound "role")
  | Some r => Ok (setRoles db (delete (roID r) (dbRoles db)))
  end.

(** ** Validation *)

(** [^[a-z][a-z0-9_-]{1,63}$] *)
Definition namePattern (s : string) : bool :=
  match s with
  | EmptyString => false
  | String c rest =>
      is_lower c &&
      all_bytes (fun d => is_lower d || IsDigit d ||
        bool_decide (d = "_"%char) || bool_decide (d = "-"%char)) rest &&
      (1 <=? String.length rest)%nat && (String.length rest <=? 63)%nat
  end.

Definition known_scope (s : string) : bool :=
  bool_decide (s = ScopeRead) || bool_decide (s = ScopeWrite) || bool_decide (s = ScopeAdmin).

Definition parseScopesAllowEmpty (raw : list string) : result (list Scope) :=
  check! each (fun s => guard! negb (known_scope s) else NewValidation "unknown scope" then Ok tt) raw then
  Ok raw.

Definition permission_level (level : string) : bool :=
  bool_decide (level = PermNone) || bool_decide (level = PermRead) || bool_decide (level = PermWrite).

Definition validateFieldPermissions (perms : gmap string string) : result unit :=
  each (fun kv => guard! negb (permission_level kv.2)
    else NewValidation "field permission must be none, read or write" then Ok tt) (map_to_list perms).

(** It reads the roles under a shared lock, held until its transaction ends. *)
Definition checkRolesExist (db : AdminDB) (tenant : string) (roles : list string) : result unit :=
  let existing := LockRolesShared db tenant roles in
  each (fun name => guard! negb (bool_decide (name ∈ existing)) else NewNotFound "role" then Ok tt) roles.

(** ** The usecases *)

(** What is dropped from the authentication cache once a usecase has committed. *)
Inductive Eviction :=
| EvictAccount (accountID : string)
| EvictTenant (tenantID : string).

Definition evict (c : Cache) (e : Eviction) : Cache :=
  match e with EvictAccount i => Invalidate c i | EvictTenant t => InvalidateTenant c t end.

Record CreateAccountInput := mkCreateAccountInput {
  ciTenantName : string; ciName : string; ciScopes : list string; ciRoles : list string;
  ciFieldPermissions : gmap string string; ciID : string; ciSecret : string }.

Definition MinSuppliedSecretLength : nat := 32.

Section Usecases.
Context `{GoUlid} `{GoHash}.

Definition CreateTenant (newID : ID) (now : Z) (name : string) (db : AdminDB) : result (AdminDB * Tenant) :=
  guard! negb (namePattern name)
    else NewValidation "tenant name must be lowercase alphanumeric with _ or -, 2-64 chars" then
  let t := mkTenant newID name true now now in
  match GetTenantByName db name with
  | Ok _ => Err (NewConflict "a tenant with this name already exists")
  | Err _ => let! db := insertTenant db t in Ok (db, t)
  end.

Definition SetTenantActive (now : Z) (name : string) (active : bool) (db : AdminDB) :
    result (AdminDB * list Eviction) :=
  let! before := GetTenantByName db name in
  Ok (updateTenantActive db name active now, [EvictTenant name]).

(** A generated identity, or a supplied one. *)
Definition identityFor (newID : ID) (newSecret : string) (inp : CreateAccountInput) : result (ID * string) :=
  if str_IsZero (ciID inp) && str_IsZero (ciSecret inp) then Ok (newID, newSecret)
  else
    guard! str_IsZero (ciID inp) || str_IsZero (ciSecret inp)
      else NewValidation "a supplied credential needs both an id and a secret: a token is ft_<id>_<secret>" then
    match ulid_ParseStrict (ciID inp) with
    | None => Err (NewValidation "the supplied account id is not a ULID")
    | Some i =>
        guard! (String.length (ciSecret inp) <? MinSuppliedSecretLength)%nat
          else NewValidation "a supplied secret must be at least 32 characters" then
        Ok (i, ciSecret inp)
    end.

Definition CreateAccount (newID : ID) (newSecret : string) (now : Z) (inp : CreateAccountInput) (db : AdminDB) :
    result (AdminDB * (ServiceAccount * string)) :=
  guard! negb (namePattern (ciName inp))
    else NewValidation "account name must be lowercase alphanumeric with _ or -, 2-64 chars" then
  let! scopes := parseScopesAllowEmpty (ciScopes inp) in
  guard! bool_decide (scopes = []) && bool_decide (ciRoles inp = [])
    else NewValidation "at least one scope or role is required" then
  let! '(acctID, secret) := identityFor newID newSecret inp in
  let! tenant := GetTenantByName db (ciTenantName inp) in
  check! validateFieldPermissions (ciFieldPermissions inp) then
  check! checkRolesExist db (tnName tenant) (ciRoles inp) then
  let acct := mkServiceAccount acctID (tnName tenant) (ciName inp) scopes (ciRoles inp)
                (ciFieldPermissions inp) true now now (HashSecret secret) in
  let! db := insertAccount db acct in
  Ok (db, (acct, MintToken (ulid_String acctID) secret)).

(** [ulid.Parse], its error a validation error here. *)
Definition parseAccountID (rawID : string) : result ID :=
  match ulid_ParseStrict rawID with
  | Some i => Ok i
  | None => Err (NewValidation "parse ulid")
  end.

Definition RotateSecret (newSecret : string) (now : Z) (rawID : string) (db : AdminDB) :
    result (AdminDB * (ServiceAccount * string) * list Eviction) :=
  let! i := parseAccountID rawID in
  let! acct := GetAccount db i in
  Ok (updateAccount db i (updateSecret (HashSecret newSecret) now),
      (acct, MintToken (ulid_String i) newSecret), [EvictAccount (ulid_String i)]).

Definition Revoke (now : Z) (rawID : string) (db : AdminDB) : result (AdminDB * list Eviction) :=
  let! i := parseAccountID rawID in
  let! before := GetAccount db i in
  Ok (updateAccount db i (updateActive false now), [EvictAccount (ulid_String i)]).

Definition AssignRoles (now : Z) (rawID : string) (roles : list string) (perms : gmap string string) (db : AdminDB) :
    result (AdminDB * list Eviction) :=
  let! i := parseAccountID rawID in
  check! validateFieldPermissions perms then
  let! acct := GetAccount db i in
  check! checkRolesExist db (saTenantID acct) roles then
  let! db := SetAccountRoles db i roles perms now in
  Ok (db, [EvictAccount (ulid_String i)]).

Definition UpsertRole (newID : ID) (now : Z) (tenantName name description : string) (rawScopes : list string)
    (perms : gmap string string) (db : AdminDB) : result (AdminDB * Role * list Eviction) :=
  guard! negb (namePattern name)
    else NewValidation "role name must be lowercase alphanumeric with _ or -, 2-64 chars" then
  let! scopes := parseScopesAllowEmpty rawScopes in
  guard! bool_decide (ScopeAdmin ∈ scopes) else NewValidation
    "a role may not grant the admin scope; grant it on the account, where it is visible in the account row" then
  check! validateFieldPermissions perms then
  let! tenant := GetTenantByName db tenantName in
  let! '(db, stored) := StoreUpsertRole db
    (mkRole newID (tnName tenant) name description scopes perms now now) in
  Ok (db, stored, [EvictTenant tenantName]).

(** The role is locked, an absent one tolerated, before its holders are counted. *)
Definition DeleteRole (tenant name : string) (db : AdminDB) : result (AdminDB * list Eviction) :=
  guard! (0 <? CountAccountsWithRole db tenant name)%nat
    else NewConflict "the role is still assigned; reassign those accounts before deleting it" then
  let! db := StoreDeleteRole db tenant name in
  Ok (db, [EvictTenant tenant]).

(** ** The first credential ([flexitype.go]) *)

Definition bootstrapTenant (newID : ID) (now : Z) (tenantName : string) (db : AdminDB) : result AdminDB :=
  match CreateTenant newID now tenantName db with
  | Ok (db, _) => Ok db
  | Err e => if bool_decide (ErrorCode e = CodeConflict) then Ok db else Err e
  end.

(** The tenant and the account are two transactions: the first one's effect stays
    when the second fails. *)
Definition bootstrapAccount (tenantID acctID : ID) (newSecret : string) (now : Z)
    (inp : CreateAccountInput) (db : AdminDB) : AdminDB * result string :=
  match bootstrapTenant tenantID now (ciTenantName inp) db with
  | Err e => (db, Err e)
  | Ok db1 =>
      match CreateAccount acctID newSecret now inp db1 with
      | Err e => (db1, Err e)
      | Ok (db2, out) => (db2, Ok out.2)
      end
  end.

Definition BootstrapAdmin (tenantID acctID : ID) (newSecret : string) (now : Z) (tenantName accountName : string)
    (db : AdminDB) : AdminDB * result string :=
  if (0 <? length (ListAccounts db tenantName))%nat then (db, Ok EmptyString)
  else bootstrapAccount tenantID acctID newSecret now
         (mkCreateAccountInput tenantName accountName [ScopeAdmin] [] ∅ "" "") db.

Definition BootstrapAdminWithToken (tenantID acctID : ID) (newSecret : string) (now : Z)
    (tenantName accountName token : string) (db : AdminDB) : AdminDB * result bool :=
  match SplitToken token with
  | Err _ =>
      (db, Err (NewValidation "the supplied bootstrap token is malformed: it must look like ft_<id>_<secret>"))
  | Ok (i, secret) =>
      if (0 <? length (ListAccounts db tenantName))%nat then (db, Ok false)
      else
        let out := bootstrapAccount tenantID acctID newSecret now
                     (mkCreateAccountInput tenantName accountName [ScopeAdmin] [] ∅ i secret) db in
        (out.1, match out.2 with Ok _ => Ok true | Err e => Err e end)
  end.
End Usecases.

(** ** The database-backed authenticator ([AccountLookup]) *)

(** The comparison of a CHAR(26) column with a text parameter. *)
Class GoPgChar := { bpchar_eq : string -> string -> bool }.

Record accountRow := mkAccountRow {
  arTenantID : string; arName : string; arSecretHash : string; arScopes : list Scope;
  arActive : bool; arTenantActive : bool; arRoles : list string;
  arFieldPerms : gmap string string }.

Section Authenticator.
Context `{GoUlid} `{GoHash} `{GoPgChar}.

Definition accountByText (db : AdminDB) (i : string) : option ServiceAccount :=
  find (fun a => bpchar_eq (ulid_String (saID a)) i) (values (dbAccounts db)).

(** The left join with the account's tenant, its flag true where there is none. *)
Definition joinTenant (db : AdminDB) (a : ServiceAccount) : accountRow :=
  mkAccountRow (saTenantID a) (saName a) (saSecretHash a) (saScopes a) (saActive a)
    (from_option tnActive true (tenantNamed db (saTenantID a))) (saRoles a) (saFieldPermissions a).

(** The first statement, and the check of the secret. *)
Definition readAccount (token : string) (db : AdminDB) : result (string * accountRow) :=
  let! '(i, secret) := SplitToken token in
  match accountByText db i with
  | None => Err (VerifyOnlyTiming secret)
  | Some a =>
      check! VerifySecret secret (saSecretHash a) then Ok (i, joinTenant db a)
  end.

Definition grantOf (r : Role) : RoleGrant := mkGrant (roName r) (roScopes r) (roFieldPermissions r).

(** The second statement ([applyRoles]). *)
Definition readRoles (row : accountRow) (db : AdminDB) : list RoleGrant :=
  grantOf <$> filter (fun r => roName r ∈ arRoles row) (ListRoles db (arTenantID row)).

Definition rowAccount (i : string) (row : accountRow) : Account :=
  mkAccount i (arName row) (arTenantID row) (arScopes row) (arFieldPerms row) (arSecretHash row) [].

(** The rest; [grants] is unused when the account has no role. *)
Definition finishAccount (i : string) (row : accountRow) (grants : list RoleGrant) : result Account :=
  let acct := if bool_decide (arRoles row = []) then rowAccount i row
              else Resolve (rowAccount i row) (arRoles row) grants in
  guard! negb (arActive row) else Errorf "service account is revoked" then
  guard! negb (arTenantActive row) else Errorf "tenant is deactivated" then
  Ok acct.

(** The two statements on the same tables. *)
Definition AuthenticateDB (token : string) (db : AdminDB) : result Account :=
  let! '(i, row) := readAccount token db in
  finishAccount i row (readRoles row db).

(** ** The effective permissions of an account *)

Record EffectiveAccountView := mkView {
  evID : ID; evTenantID : string; evName : string; evActive : bool; evRoles : list string;
  evScopes : list Scope; evFieldPermissions : gmap string string;
  evUnresolvedRoles : list string; evFieldACLBypassed : bool; evDeniedAll : bool }.

Definition EffectiveAccount (rawID : string) (db : AdminDB) : result EffectiveAccountView :=
  let! i := parseAccountID rawID in
  let! acct := GetAccount db i in
  let grants := grantOf <$> ListRoles db (saTenantID acct) in
  let resolved := Resolve (mkAccount (ulid_String (saID acct)) (saName acct) (saTenantID acct) (saScopes acct)
                             (saFieldPermissions acct) "" []) (saRoles acct) grants in
  let enforced := AccessFromPermissions (HasScope resolved ScopeAdmin)
                    (Z.of_nat (length (acUnresolvedRoles resolved))) (acFieldPermissions resolved) in
  Ok (mkView (saID acct) (saTenantID acct) (saName acct) (saActive acct) (saRoles acct)
        (acScopes resolved) (acFieldPermissions resolved) (acUnresolvedRoles resolved)
        (Admin enforced) (0 <? length (acUnresolvedRoles resolved))%nat).
End Authenticator.
