(* ===== verification/AdminFacts.v ===== *)
(** What provisioning keeps: along every history of its usecases names are unique, a
    role grants no admin scope, levels are known, and every role an account names
    exists.  On such tables the view of an account's effective permissions is what
    the request path enforces, which is what its roles and its own entries say. *)

From Stdlib Require Import ZArith Lia String Ascii List.
From stdpp Require Import base tactics list gmap fin_maps fin_sets strings option decidable.
From S2P Require Import Prelude GoText Values Ids Attribute Access ServiceAccount ServiceAccountFacts Admin.

Open Scope Z_scope.
Open Scope go_scope.

(** ** The invariant *)

Definition levels_ok (perms : gmap string string) : Prop := map_Forall (fun _ => known_level) perms.

Definition tenants_ok (ts : gmap ID Tenant) : Prop :=
  map_Forall (fun i t => tnID t = i) ts /\
  forall i j t t', ts !! i = Some t -> ts !! j = Some t' -> tnName t = tnName t' -> i = j.

Definition role_ok (ts : gmap ID Tenant) (r : Role) : Prop :=
  (exists i t, ts !! i = Some t /\ tnName t = roTenantID r) /\
  ScopeAdmin ∉ roScopes r /\ levels_ok (roFieldPermissions r).

Definition roles_ok (ts : gmap ID Tenant) (rs : gmap ID Role) : Prop :=
  map_Forall (fun i r => roID r = i /\ role_ok ts r) rs /\
  forall i j r r', rs !! i = Some r -> rs !! j = Some r' ->
    roTenantID r = roTenantID r' -> roName r = roName r' -> i = j.

Definition holds_role (rs : gmap ID Role) (tenant name : string) : Prop :=
  exists i r, rs !! i = Some r /\ roTenantID r = tenant /\ roName r = name.

Definition account_ok (ts : gmap ID Tenant) (rs : gmap ID Role) (a : ServiceAccount) : Prop :=
  (exists i t, ts !! i = Some t /\ tnName t = saTenantID a) /\
  levels_ok (saFieldPermissions a) /\
  Forall (holds_role rs (saTenantID a)) (saRoles a).

Definition accounts_ok (db : AdminDB) : Prop :=
  map_Forall (fun i a => saID a = i /\ account_ok (dbTenants db) (dbRoles db) a) (dbAccounts db) /\
  forall i j a a', dbAccounts db !! i = Some a -> dbAccounts db !! j = Some a' ->
    saTenantID a = saTenantID a' -> saName a = saName a' -> i = j.

Definition db_ok (db : AdminDB) : Prop :=
  tenants_ok (dbTenants db) /\ roles_ok (dbTenants db) (dbRoles db) /\ accounts_ok db.

(** ** The store's searches *)

Lemma GetTenantByName_ok db name t :
  GetTenantByName db name = Ok t -> tnName t = name /\ exists i, dbTenants db !! i = Some t.
Proof.
  unfold GetTenantByName, tenantNamed. destruct (find _ _) as [t'|] eqn:E; [|done]. intros [= ->].
  apply find_values_Some in E as [Hn Hi]. breflect. by split.
Qed.

Lemma tenantNamed_None db name i t :
  tenantNamed db name = None -> dbTenants db !! i = Some t -> tnName t <> name.
Proof. intros Hn Hi. pose proof (find_values_None _ _ _ _ Hn Hi) as E. simpl in E. by breflect. Qed.

Lemma ListRoles_elem db tenant r :
  r ∈ ListRoles db tenant <-> roTenantID r = tenant /\ exists i, dbRoles db !! i = Some r.
Proof. unfold ListRoles. by rewrite list_elem_of_filter, values_elem. Qed.

Lemma ListAccounts_elem db tenant a :
  a ∈ ListAccounts db tenant <-> saTenantID a = tenant /\ exists i, dbAccounts db !! i = Some a.
Proof. unfold ListAccounts. by rewrite list_elem_of_filter, values_elem. Qed.

Lemma roleNamed_Some db tenant name r :
  roleNamed db tenant name = Some r ->
  roName r = name /\ roTenantID r = tenant /\ exists i, dbRoles db !! i = Some r.
Proof.
  intros [Hr Hn]%find_some. apply list_elem_of_In, ListRoles_elem in Hr as [Ht Hi]. breflect. by split_and!.
Qed.

Lemma roleNamed_None db tenant name :
  roleNamed db tenant name = None -> ~ holds_role (dbRoles db) tenant name.
Proof.
  intros Hn (i & r & Hi & Ht & Hname).
  assert (r ∈ ListRoles db tenant) as Hr by (apply ListRoles_elem; eauto).
  pose proof (find_none _ _ Hn r (proj1 (list_elem_of_In _ _) Hr)) as Hf. simpl in Hf. by breflect.
Qed.

Lemma permission_level_known l : permission_level l = true <-> known_level l.
Proof.
  unfold permission_level, known_level. rewrite !orb_true_iff, !bool_decide_eq_true. tauto.
Qed.

Lemma validateFieldPermissions_ok perms : validateFieldPermissions perms = Ok tt <-> levels_ok perms.
Proof.
  unfold validateFieldPermissions, levels_ok. rewrite each_ok, map_Forall_to_list.
  apply Forall_iff. intros [k l]. simpl. by rewrite guard_ok, negb_false_iff, permission_level_known.
Qed.

Lemma checkRolesExist_ok db tenant roles :
  checkRolesExist db tenant roles = Ok tt -> Forall (holds_role (dbRoles db) tenant) roles.
Proof.
  unfold checkRolesExist. rewrite each_ok, !list.Forall_forall. intros Hall n Hn.
  specialize (Hall n Hn). rewrite guard_ok, negb_false_iff, bool_decide_eq_true in Hall.
  unfold LockRolesShared in Hall. rewrite bool_decide_eq_false_2 in Hall by (intros ->; set_solver).
  apply list_elem_of_filter in Hall as [_ Hin]. apply list_elem_of_fmap in Hin as (r & -> & Hr).
  apply ListRoles_elem in Hr as [Ht [i Hi]]. by exists i, r.
Qed.

(** ** The usecases keep it *)

Section Histories.
Context `{GoUlid} `{GoHash}.

(** One usecase that succeeded, with what it evicts from the authentication cache. *)
Inductive admin_step (db : AdminDB) : AdminDB -> list Eviction -> Prop :=
| step_create_tenant newID now name db' t :
    CreateTenant newID now name db = Ok (db', t) -> admin_step db db' []
| step_tenant_active now name active db' evs :
    SetTenantActive now name active db = Ok (db', evs) -> admin_step db db' evs
| step_create_account newID secret now inp db' out :
    CreateAccount newID secret now inp db = Ok (db', out) -> admin_step db db' []
| step_rotate secret now rawID db' out evs :
    RotateSecret secret now rawID db = Ok (db', out, evs) -> admin_step db db' evs
| step_revoke now rawID db' evs :
    Revoke now rawID db = Ok (db', evs) -> admin_step db db' evs
| step_assign now rawID roles perms db' evs :
    AssignRoles now rawID roles perms db = Ok (db', evs) -> admin_step db db' evs
| step_upsert_role newID now tenant name description scopes perms db' r evs :
    UpsertRole newID now tenant name description scopes perms db = Ok (db', r, evs) -> admin_step db db' evs
| step_delete_role tenant name db' evs :
    DeleteRole tenant name db = Ok (db', evs) -> admin_step db db' evs.

Inductive admin_reachable : AdminDB -> Prop :=
| admin_initial : admin_reachable emptyDB
| admin_next db db' evs : admin_reachable db -> admin_step db db' evs -> admin_reachable db'.
End Histories.

Lemma names_kept (ts ts' : gmap ID Tenant) :
  (forall i t, ts !! i = Some t -> exists t', ts' !! i = Some t' /\ tnName t' = tnName t) ->
  forall name, (exists i t, ts !! i = Some t /\ tnName t = name) -> exists i t, ts' !! i = Some t /\ tnName t = name.
Proof. intros Hk name (i & t & Hi & <-). destruct (Hk _ _ Hi) as (t' & Hi' & E). by exists i, t'. Qed.

(** A table of tenants that only gains names leaves roles and accounts sound. *)
Lemma tenants_grow db ts :
  db_ok db -> tenants_ok ts ->
  (forall i t, dbTenants db !! i = Some t -> exists t', ts !! i = Some t' /\ tnName t' = tnName t) ->
  db_ok (setTenants db ts).
Proof.
  intros (_ & [Hr Hru] & [Ha Hau]) Hts Hk. pose proof (names_kept _ _ Hk) as Hn.
  split; [done|]. split; split; try done; simpl.
  - intros i r (Hid & Ht & Hs)%Hr. exact (conj Hid (conj (Hn _ Ht) Hs)).
  - intros i a (Hid & Ht & Hs)%Ha. exact (conj Hid (conj (Hn _ Ht) Hs)).
Qed.

Lemma insertTenant_ok db t db' : db_ok db -> insertTenant db t = Ok db' -> db_ok db'.
Proof.
  intros Hok. unfold insertTenant. destruct (tenantNamed _ _) eqn:En; [done|].
  destruct (dbTenants db !! tnID t) eqn:Ei; [done|]. intros [= <-].
  pose proof Hok as ([Hk Hu] & _). apply tenants_grow; [done| |].
  - split; [by apply map_Forall_insert|]. intros i j x y Hx Hy E.
    apply lookup_insert_Some in Hx as [[<- <-]|[Hi Hx]]; apply lookup_insert_Some in Hy as [[<- <-]|[Hj Hy]].
    + done.
    + by destruct (tenantNamed_None _ _ _ _ En Hy).
    + by destruct (tenantNamed_None _ _ _ _ En Hx).
    + by apply (Hu i j x y).
  - intros i x Hx. exists x. split; [|done]. by rewrite lookup_insert_ne by congruence.
Qed.

Lemma updateTenantActive_ok db name active now : db_ok db -> db_ok (updateTenantActive db name active now).
Proof.
  intros Hok. pose proof Hok as ([Hk Hu] & _).
  set (f := fun t => if bool_decide (tnName t = name)
    then mkTenant (tnID t) (tnName t) active (tnCreatedAt t) now else t).
  assert (forall t, tnID (f t) = tnID t /\ tnName (f t) = tnName t) as Hf
    by (intros t; unfold f; by destruct (bool_decide _)).
  apply (tenants_grow db (f <$> dbTenants db)); [done| |].
  - split.
    + intros i t' Hi. rewrite lookup_fmap in Hi. apply fmap_Some in Hi as (t & Hi & ->).
      rewrite (proj1 (Hf t)). by apply Hk.
    + intros i j x y Hx Hy E. rewrite lookup_fmap in Hx, Hy.
      apply fmap_Some in Hx as (x' & Hx & ->). apply fmap_Some in Hy as (y' & Hy & ->).
      rewrite (proj2 (Hf x')), (proj2 (Hf y')) in E. by apply (Hu i j x' y').
  - intros i t Hi. exists (f t). rewrite lookup_fmap, Hi. split; [done|apply Hf].
Qed.

Lemma updateAccount_ok db i f :
  db_ok db ->
  (forall a, saID (f a) = saID a /\ saTenantID (f a) = saTenantID a /\ saName (f a) = saName a) ->
  (forall a, dbAccounts db !! i = Some a -> account_ok (dbTenants db) (dbRoles db) (f a)) ->
  db_ok (updateAccount db i f).
Proof.
  intros (Ht & Hr & Ha & Hu) Hf Hok. split; [done|]. split; [done|].
  assert (forall j x, alter f i (dbAccounts db) !! j = Some x -> exists x', dbAccounts db !! j = Some x' /\
    saTenantID x = saTenantID x' /\ saName x = saName x') as Hold.
  { intros j x Hx. apply lookup_alter_Some in Hx as [(<- & y & Hy & ->)|[_ Hx]]; [|by exists x].
    exists y. split; [done|]. apply Hf. }
  split; simpl.
  - intros j x Hx. apply lookup_alter_Some in Hx as [(<- & y & Hy & ->)|[_ Hx]]; [|by apply Ha].
    split; [|by apply Hok]. rewrite (proj1 (Hf y)). by apply Ha.
  - intros j k x y Hx Hy Et En.
    destruct (Hold _ _ Hx) as (x' & Hx' & E1 & E2), (Hold _ _ Hy) as (y' & Hy' & E3 & E4).
    apply (Hu j k x' y'); congruence.
Qed.

Lemma insertAccount_ok db a db' :
  db_ok db -> account_ok (dbTenants db) (dbRoles db) a -> insertAccount db a = Ok db' -> db_ok db'.
Proof.
  intros (Ht & Hr & Ha & Hu) Hok. unfold insertAccount. destruct (accountNamed _ _ _) eqn:En; [done|].
  destruct (dbAccounts db !! saID a) eqn:Ei; [done|]. intros [= <-]. split; [done|]. split; [done|]. split; simpl.
  - by apply map_Forall_insert.
  - assert (forall j y, dbAccounts db !! j = Some y -> saTenantID a = saTenantID y -> saName a = saName y -> False)
      as Hfree.
    { intros j y Hy Et Enm. pose proof (find_values_None _ _ _ _ En Hy) as E. simpl in E.
      apply andb_false_iff in E as [E|E]; by breflect. }
    intros i j x y Hx Hy Et E.
    apply lookup_insert_Some in Hx as [[<- <-]|[Hi Hx]]; apply lookup_insert_Some in Hy as [[<- <-]|[Hj Hy]].
    + done.
    + by destruct (Hfree _ _ Hy).
    + by destruct (Hfree _ _ Hx).
    + by apply (Hu i j x y).
Qed.

(** Roles may be written as long as those an account names stay. *)
Lemma roles_change db rs :
  db_ok db -> roles_ok (dbTenants db) rs ->
  (forall i a n, dbAccounts db !! i = Some a -> n ∈ saRoles a ->
     holds_role (dbRoles db) (saTenantID a) n -> holds_role rs (saTenantID a) n) ->
  db_ok (setRoles db rs).
Proof.
  intros (Ht & _ & Ha & Hu) Hrs Hk. split; [done|]. split; [done|]. split; [|done]. simpl.
  intros i a Hi. destruct (Ha _ _ Hi) as (Hid & Hat & Hal & Har). split; [done|]. split; [done|]. split; [done|].
  apply list.Forall_forall. intros n Hn. rewrite list.Forall_forall in Har. by apply (Hk i a); [..|apply Har].
Qed.

Lemma StoreUpsertRole_ok db r db' stored :
  db_ok db -> role_ok (dbTenants db) r -> StoreUpsertRole db r = Ok (db', stored) -> db_ok db'.
Proof.
  intros Hok Hr. pose proof Hok as (_ & [Hk Hu] & _). unfold StoreUpsertRole.
  destruct (roleNamed _ _ _) as [old|] eqn:En.
  - apply roleNamed_Some in En as (En & Et & i & Hi). intros [= <- <-].
    pose proof (proj1 (Hk _ _ Hi)) as Eid. set (r' := mkRole _ _ _ _ _ _ _ _).
    apply roles_change; [done| |].
    + split; [apply map_Forall_insert_2; [done|exact Hk]|]. intros j k x y Hx Hy E1 E2.
      assert (forall k y, dbRoles db !! k = Some y -> roTenantID r = roTenantID y -> roName r = roName y -> roID old = k)
        as Hsame by (intros k' y' Hy' F1 F2; rewrite Eid; apply (Hu i k' old y'); congruence).
      apply lookup_insert_Some in Hx as [[<- <-]|[Hj Hx]]; apply lookup_insert_Some in Hy as [[<- <-]|[Hk' Hy]].
      * done.
      * by apply (Hsame _ y).
      * symmetry. by apply (Hsame _ x).
      * by apply (Hu j k x y).
    + intros _ a n _ _ (j & x & Hx & F1 & F2). destruct (decide (roID old = j)) as [<-|Hne].
      * exists (roID old), r'. rewrite lookup_insert_eq. rewrite Eid, Hi in Hx. injection Hx as <-.
        split; [done|]. subst r'. simpl. split; congruence.
      * exists j, x. by rewrite lookup_insert_ne.
  - destruct (dbRoles db !! roID r) eqn:Ei; [done|]. intros [= <- <-]. pose proof (roleNamed_None _ _ _ En) as Hfree.
    apply roles_change; [done| |].
    + split; [by apply map_Forall_insert_2|]. intros j k x y Hx Hy E1 E2.
      apply lookup_insert_Some in Hx as [[<- <-]|[Hj Hx]]; apply lookup_insert_Some in Hy as [[<- <-]|[Hk' Hy]].
      * done.
      * destruct Hfree. exists k, y. by split_and!.
      * destruct Hfree. exists j, x. by split_and!.
      * by apply (Hu j k x y).
    + intros _ a n _ _ (j & x & Hx & F1 & F2). exists j, x. split; [|done]. by rewrite lookup_insert_ne by congruence.
Qed.

Lemma StoreDeleteRole_ok db tenant name db' :
  db_ok db -> CountAccountsWithRole db tenant name = 0%nat -> StoreDeleteRole db tenant name = Ok db' -> db_ok db'.
Proof.
  intros Hok Hcount. pose proof Hok as (_ & [Hk Hu] & Ha & _). unfold StoreDeleteRole.
  destruct (roleNamed _ _ _) as [r|] eqn:En; [|done]. intros [= <-].
  apply roleNamed_Some in En as (En & Et & i & Hi). apply roles_change; [done| |].
  - split; [by apply map_Forall_delete|]. intros j k x y [_ Hx]%lookup_delete_Some [_ Hy]%lookup_delete_Some.
    by apply (Hu j k x y).
  - intros j a n Hj Hn (k & x & Hx & F1 & F2). exists k, x. split; [|done]. apply lookup_delete_Some. split; [|done].
    intros Ek. rewrite (proj1 (Hk _ _ Hi)) in Ek. subst k. rewrite Hi in Hx. injection Hx as <-.
    unfold CountAccountsWithRole in Hcount. apply nil_length_inv in Hcount.
    assert (a ∈ filter (fun a => name ∈ saRoles a) (ListAccounts db tenant)) as Hin; [|rewrite Hcount in Hin; set_solver].
    apply list_elem_of_filter. split; [congruence|]. apply ListAccounts_elem. split; [congruence|eauto].
Qed.

Section Steps.
Context `{GoUlid} `{GoHash}.

(** An UPDATE of the secret or of the active flag. *)
Lemma account_kept db i f :
  db_ok db ->
  (forall a, saID (f a) = saID a /\ saTenantID (f a) = saTenantID a /\ saName (f a) = saName a) ->
  (forall a, saRoles (f a) = saRoles a /\ saFieldPermissions (f a) = saFieldPermissions a) ->
  db_ok (updateAccount db i f).
Proof.
  intros Hok Hf Hr. apply updateAccount_ok; [done|done|]. intros a Hi.
  destruct Hok as (_ & _ & Ha & _). destruct (Ha _ _ Hi) as (_ & Ht & Hl & Hroles). unfold account_ok.
  destruct (Hf a) as (_ & -> & _), (Hr a) as [-> ->]. by split_and!.
Qed.

Lemma GetAccount_ok db i a : GetAccount db i = Ok a <-> dbAccounts db !! i = Some a.
Proof. unfold GetAccount. destruct (dbAccounts db !! i); naive_solver. Qed.

Lemma parseScopes_ok raw scopes : parseScopesAllowEmpty raw = Ok scopes -> scopes = raw.
Proof. unfold parseScopesAllowEmpty. intros Hs. by res_inv. Qed.

Lemma CreateAccount_inv newID secret now inp db db' out :
  CreateAccount newID secret now inp db = Ok (db', out) ->
  exists acctID sec t,
    identityFor newID secret inp = Ok (acctID, sec) /\
    GetTenantByName db (ciTenantName inp) = Ok t /\
    levels_ok (ciFieldPermissions inp) /\
    Forall (holds_role (dbRoles db) (tnName t)) (ciRoles inp) /\
    let acct := mkServiceAccount acctID (tnName t) (ciName inp) (ciScopes inp) (ciRoles inp)
                  (ciFieldPermissions inp) true now now (HashSecret sec) in
    insertAccount db acct = Ok db' /\ out = (acct, MintToken (ulid_String acctID) sec).
Proof.
  unfold CreateAccount. intros Hc. res_inv. destruct x0 as [acctID sec]. res_inv.
  match goal with E : parseScopesAllowEmpty _ = Ok _ |- _ => apply parseScopes_ok in E; subst end.
  match goal with E : validateFieldPermissions _ = Ok _ |- _ => apply validateFieldPermissions_ok in E end.
  match goal with E : checkRolesExist _ _ _ = Ok _ |- _ => apply checkRolesExist_ok in E end.
  do 3 eexists. by split_and!.
Qed.

Lemma admin_step_ok db db' evs : db_ok db -> admin_step db db' evs -> db_ok db'.
Proof.
  intros Hok [newID now name db1 t Hc|now name active db1 evs1 Hc|newID secret now inp db1 out Hc
    |secret now rawID db1 out evs1 Hc|now rawID db1 evs1 Hc|now rawID roles perms db1 evs1 Hc
    |newID now tenant name desc scopes perms db1 r evs1 Hc|tenant name db1 evs1 Hc].
  - unfold CreateTenant in Hc. destruct (negb _); [done|]. destruct (GetTenantByName db name); [done|]. res_inv.
    by eapply insertTenant_ok.
  - unfold SetTenantActive in Hc. res_inv. by apply updateTenantActive_ok.
  - apply CreateAccount_inv in Hc as (acctID & sec & t & _ & Ht & Hl & Hr & Hi & _).
    eapply insertAccount_ok; [done| |exact Hi]. apply GetTenantByName_ok in Ht as (Hn & i & Ht).
    split; [by exists i, t|]. by split.
  - unfold RotateSecret in Hc. res_inv. by apply account_kept.
  - unfold Revoke in Hc. res_inv. by apply account_kept.
  - unfold AssignRoles, SetAccountRoles in Hc. res_inv.
    match goal with E : GetAccount _ _ = Ok _ |- _ => apply GetAccount_ok in E as Ea end.
    match goal with E : validateFieldPermissions _ = Ok _ |- _ => apply validateFieldPermissions_ok in E end.
    match goal with E : checkRolesExist _ _ _ = Ok _ |- _ => apply checkRolesExist_ok in E end.
    match goal with E : (match _ with _ => _ end) = Ok _ |- _ => rewrite Ea in E; injection E as <- end.
    apply updateAccount_ok; [done|done|]. intros a Hi. rewrite Ea in Hi. injection Hi as <-.
    destruct Hok as (_ & _ & Ha & _). destruct (Ha _ _ Ea) as (_ & Ht & _). by split_and!.
  - unfold UpsertRole in Hc. res_inv. destruct x2 as [db2 stored]. res_inv.
    match goal with E : parseScopesAllowEmpty _ = Ok _ |- _ => apply parseScopes_ok in E; subst end.
    match goal with E : validateFieldPermissions _ = Ok _ |- _ => apply validateFieldPermissions_ok in E end.
    match goal with E : GetTenantByName _ _ = Ok _ |- _ => apply GetTenantByName_ok in E as (Hn & i & Ht) end.
    eapply StoreUpsertRole_ok; [done| |done]. breflect. split; [by exists i; eexists|by split].
  - unfold DeleteRole in Hc. destruct (0 <? _)%nat eqn:Ec; [done|]. res_inv.
    apply Nat.ltb_ge in Ec. eapply StoreDeleteRole_ok; [done| |done]. lia.
Qed.

Lemma empty_ok : db_ok emptyDB.
Proof. by repeat split. Qed.

Lemma admin_reachable_ok db : admin_reachable db -> db_ok db.
Proof. induction 1; [exact empty_ok|by eapply admin_step_ok]. Qed.

(** C25: along every history of provisioning - tenants and accounts created, suspended
    and revoked, secrets rotated, roles written, assigned and deleted - tenants have
    unique names, a tenant's accounts and roles too; no role grants the admin scope
    or an unknown level; and every role an account names exists, so no account is
    ever left holding a role that resolves to nothing. *)
Theorem provisioning_sound db :
  admin_reachable db ->
  (forall i j t t', dbTenants db !! i = Some t -> dbTenants db !! j = Some t' -> tnName t = tnName t' -> i = j) /\
  (forall i j r r', dbRoles db !! i = Some r -> dbRoles db !! j = Some r' ->
     roTenantID r = roTenantID r' -> roName r = roName r' -> i = j) /\
  (forall i j a a', dbAccounts db !! i = Some a -> dbAccounts db !! j = Some a' ->
     saTenantID a = saTenantID a' -> saName a = saName a' -> i = j) /\
  (forall i r, dbRoles db !! i = Some r ->
     ScopeAdmin ∉ roScopes r /\ map_Forall (fun _ => known_level) (roFieldPermissions r)) /\
  (forall i a, dbAccounts db !! i = Some a ->
     map_Forall (fun _ => known_level) (saFieldPermissions a) /\
     forall n, n ∈ saRoles a -> exists j r, dbRoles db !! j = Some r /\ roTenantID r = saTenantID a /\ roName r = n).
Proof.
  intros ([_ Ht] & [Hr Hru] & Ha & Hau)%admin_reachable_ok. split; [exact Ht|]. split; [exact Hru|].
  split; [exact Hau|]. split.
  - intros i r Hi. apply (Hr i r Hi).
  - intros i a Hi. destruct (Ha i a Hi) as (_ & _ & Hl & Hroles). split; [done|]. by apply list.Forall_forall.
Qed.
End Steps.
