(* ===== verification/AdminAccess.v ===== *)
(** What a principal may do: the account a token authenticates as, on sound tables,
    carries the rights its own entries and its roles give, and the view of effective
    permissions an operator reads says the same. *)

From Stdlib Require Import ZArith Lia String Ascii List.
From stdpp Require Import base tactics list gmap fin_maps fin_sets strings option decidable.
From S2P Require Import Prelude GoText Values Ids Attribute Access ServiceAccount ServiceAccountFacts Admin AdminFacts.

Open Scope Z_scope.
Open Scope go_scope.

(** ** Grants read from the table *)

Lemma grants_lookup (rs : list Role) n g :
  (forall r r', r ∈ rs -> r' ∈ rs -> roName r = roName r' -> r = r') ->
  grantsByName (grantOf <$> rs) !! n = Some g <-> exists r, r ∈ rs /\ roName r = n /\ g = grantOf r.
Proof.
  intros Hu. split.
  - intros [Hg Hn]%grantsByName_lookup. apply list_elem_of_fmap in Hg as (r & -> & Hr). by exists r.
  - intros (r & Hr & <- & ->). apply (grantsByName_unique _ (grantOf r)).
    + intros g' Hg' E. apply list_elem_of_fmap in Hg' as (r' & -> & Hr'). by rewrite (Hu r' r).
    + apply list_elem_of_fmap. by exists r.
Qed.

Lemma Resolve_ext base names g1 g2 :
  (forall n, n ∈ names -> grantsByName g1 !! n = grantsByName g2 !! n) ->
  Resolve base names g1 = Resolve base names g2.
Proof.
  intros Hn. unfold Resolve.
  assert (mergeRoles (grantsByName g1) names base = mergeRoles (grantsByName g2) names base) as ->; [|done].
  unfold mergeRoles. generalize (mkMerging (list_to_set (acScopes base)) (acScopes base) ∅ (acUnresolvedRoles base)).
  revert Hn. induction names as [|n names IH]; intros Hn m; [done|]. simpl.
  assert (mergeRole (grantsByName g1) m n = mergeRole (grantsByName g2) m n) as ->
    by (unfold mergeRole; by rewrite (Hn n) by set_solver).
  apply IH. intros k Hk. apply Hn. by right.
Qed.

Lemma overlay_nil perms : overlay perms ∅ = perms.
Proof. apply map_eq. intros k. rewrite overlay_lookup, lookup_empty. by destruct (perms !! k). Qed.

Lemma Resolve_nil base grants : Resolve base [] grants = base.
Proof.
  unfold Resolve, mergeRoles. simpl. rewrite overlay_nil. destruct base. simpl. by destruct (0 <? size _)%nat.
Qed.

Section Effective.
Context `{GoUlid} `{GoHash} `{GoPgChar}.
Variable db : AdminDB.
Hypothesis Hdb : db_ok db.

Lemma tenant_roles_unique tenant r r' :
  r ∈ ListRoles db tenant -> r' ∈ ListRoles db tenant -> roName r = roName r' -> r = r'.
Proof using Hdb.
  intros [Ht [i Hi]]%ListRoles_elem [Ht' [j Hj]]%ListRoles_elem E.
  destruct Hdb as (_ & [_ Hu] & _). assert (i = j) as -> by (apply (Hu i j r r'); congruence). congruence.
Qed.

(** The roles of the tenant that are named, or all of them: the merge is the same. *)
Definition effective (i : string) (a : ServiceAccount) : Account :=
  Resolve (rowAccount i (joinTenant db a)) (saRoles a) (grantOf <$> ListRoles db (saTenantID a)).

Lemma finish_effective i a :
  saActive a = true -> arTenantActive (joinTenant db a) = true ->
  finishAccount i (joinTenant db a) (readRoles (joinTenant db a) db) = Ok (effective i a).
Proof using Hdb.
  intros Ha Ht. unfold finishAccount, effective. simpl in *. rewrite Ha, Ht. simpl. f_equal.
  case_bool_decide as E; [by rewrite E, Resolve_nil|]. apply Resolve_ext. intros n Hn.
  unfold readRoles. simpl. apply option_eq. intros g.
  rewrite !grants_lookup; [|intros r r'; apply tenant_roles_unique|].
  - split; intros (r & Hr & Hname & ->); exists r; split_and!; try done.
    + by apply list_elem_of_filter in Hr as [_ Hr].
    + apply list_elem_of_filter. by rewrite Hname. 
  - intros r r' [_ Hr]%list_elem_of_filter [_ Hr']%list_elem_of_filter. by apply tenant_roles_unique with (saTenantID a).
Qed.

(** A token authenticates exactly when it names an active account of an active tenant
    by the secret stored for it. *)
Lemma AuthenticateDB_exact token acct :
  AuthenticateDB token db = Ok acct <->
  exists i secret a, SplitToken token = Ok (i, secret) /\ accountByText db i = Some a /\
    HashSecret secret = saSecretHash a /\ saActive a = true /\ arTenantActive (joinTenant db a) = true /\
    acct = effective i a.
Proof using Hdb.
  unfold AuthenticateDB, readAccount. split.
  - intros Hok. res_inv. destruct x0 as [i secret]. destruct x as [i' row].
    match goal with E : (match accountByText _ _ with _ => _ end) = _ |- _ => rename E into Ea end.
    destruct (accountByText db i) as [a|] eqn:Ef; [|done]. unfold VerifySecret in Ea. res_inv. breflect.
    destruct (saActive a) eqn:Eact; [|unfold finishAccount in Hok; simpl in Hok; by rewrite Eact in Hok].
    destruct (arTenantActive (joinTenant db a)) eqn:Et; [|unfold finishAccount in Hok; simpl in Hok, Et; by rewrite Eact, Et in Hok].
    rewrite finish_effective in Hok by done. injection Hok as <-. by eexists _, secret, a.
  - intros (i & secret & a & -> & Ef & Hh & Ha & Ht & ->). simpl. rewrite Ef. unfold VerifySecret.
    rewrite bool_decide_eq_true_2 by done. simpl. by apply finish_effective.
Qed.

(** ** Rights *)

(** What the account's roles list for an attribute. *)
Definition role_lists (a : ServiceAccount) (attr level : string) : Prop :=
  exists j r, dbRoles db !! j = Some r /\ roTenantID r = saTenantID a /\ roName r ∈ saRoles a /\
    roFieldPermissions r !! attr = Some level.

(** The rule: admin; else the account's own entry; else what any of its roles lists,
    and anything where none lists the attribute. *)
Definition allowed (fits : string -> Prop) (a : ServiceAccount) (attr : string) : Prop :=
  ScopeAdmin ∈ saScopes a \/
  match saFieldPermissions a !! attr with
  | Some own => fits own
  | None => (exists l, role_lists a attr l /\ fits l) \/ forall l, ~ role_lists a attr l
  end.

Variable a : ServiceAccount.
Variable k : ID.
Hypothesis Hk : dbAccounts db !! k = Some a.

Lemma held_role n g :
  n ∈ saRoles a -> grantsByName (grantOf <$> ListRoles db (saTenantID a)) !! n = Some g <->
  exists j r, dbRoles db !! j = Some r /\ roTenantID r = saTenantID a /\ roName r = n /\ g = grantOf r.
Proof using Hdb.
  intros Hn. rewrite grants_lookup by (intros r r'; apply tenant_roles_unique). setoid_rewrite ListRoles_elem. naive_solver.
Qed.

Lemma listed_lists attr l :
  l ∈ listed (grantsByName (grantOf <$> ListRoles db (saTenantID a))) (saRoles a) attr <-> role_lists a attr l.
Proof using Hdb.
  unfold listed, role_lists. rewrite list_elem_of_omap. split.
  - intros (n & Hn & Hb). apply bind_Some in Hb as (g & Hg & Hl). apply held_role in Hg as (j & r & Hj & Ht & <- & ->); [|done].
    by exists j, r.
  - intros (j & r & Hj & Ht & Hn & Hl). exists (roName r). split; [done|].
    assert (grantsByName (grantOf <$> ListRoles db (saTenantID a)) !! roName r = Some (grantOf r)) as ->; [|done].
    apply held_role; [done|]. by exists j, r.
Qed.

Lemma effective_resolved i : acUnresolvedRoles (effective i a) = [].
Proof using Hdb Hk.
  unfold effective.
  destruct (Resolve_exact (rowAccount i (joinTenant db a)) (saRoles a) (grantOf <$> ListRoles db (saTenantID a)))
    as (_ & _ & ->). simpl.
  match goal with |- ?l = [] => destruct l as [|n l'] eqn:E end; [done|]. exfalso.
  assert (n ∈ n :: l') as Hn by (by left). rewrite <- E in Hn. apply list_elem_of_filter in Hn as [Hg Hn].
  destruct Hdb as (_ & _ & Ha & _). destruct (Ha _ _ Hk) as (_ & _ & _ & Hr). rewrite list.Forall_forall in Hr.
  destruct (Hr n Hn) as (j & r & Hj & Ht & Hname).
  assert (grantsByName (grantOf <$> ListRoles db (saTenantID a)) !! n = Some (grantOf r)); [|congruence].
  apply held_role; [done|]. by exists j, r.
Qed.

Lemma effective_scope i s :
  HasScope (effective i a) s = true <->
  s ∈ saScopes a \/ ScopeAdmin ∈ saScopes a \/
  (exists j r, dbRoles db !! j = Some r /\ roTenantID r = saTenantID a /\ roName r ∈ saRoles a /\ s ∈ roScopes r).
Proof using Hdb Hk.
  rewrite HasScope_exact. unfold effective.
  destruct (Resolve_exact (rowAccount i (joinTenant db a)) (saRoles a) (grantOf <$> ListRoles db (saTenantID a)))
    as (Hs & _ & _). rewrite !Hs. simpl. split.
  - intros [[Hb|(Hne & n & g & Hn & Hg & Hin)]|[Hb|(Hne & _)]]; [by left| |by right; left|done].
    apply held_role in Hg as (j & r & Hj & Ht & <- & ->); [|done]. right. right. by exists j, r.
  - intros [Hb|[Hb|(j & r & Hj & Ht & Hn & Hin)]]; [by left; left|by right; left|].
    left. right. assert (s <> ScopeAdmin) as Hne.
    { intros ->. destruct Hdb as (_ & [Hr _] & _). by destruct (Hr _ _ Hj) as (_ & _ & Hna & _). }
    split; [done|]. exists (roName r), (grantOf r). split; [done|]. split; [|done].
    apply held_role; [done|]. by exists j, r.
Qed.

Lemma effective_admin i : HasScope (effective i a) ScopeAdmin = true <-> ScopeAdmin ∈ saScopes a.
Proof using Hdb Hk.
  rewrite effective_scope. split; [|by left]. intros [?|[?|(j & r & Hj & _ & _ & Hin)]]; [done|done|].
  destruct Hdb as (_ & [Hr _] & _). by destruct (Hr _ _ Hj) as (_ & _ & Hna & _).
Qed.

Lemma listed_levels_known attr :
  Forall known_level (listed (grantsByName (grantOf <$> ListRoles db (saTenantID a))) (saRoles a) attr).
Proof using Hdb.
  apply list.Forall_forall. intros l (j & r & Hj & _ & _ & Hl)%listed_lists.
  destruct Hdb as (_ & [Hr _] & _). destruct (Hr _ _ Hj) as (_ & _ & _ & Hlv). by apply (Hlv attr).
Qed.

Lemma effective_level i attr :
  acFieldPermissions (effective i a) !! attr =
  match saFieldPermissions a !! attr with
  | Some own => Some own
  | None => best (listed (grantsByName (grantOf <$> ListRoles db (saTenantID a))) (saRoles a) attr)
  end.
Proof using.
  unfold effective.
  destruct (Resolve_exact (rowAccount i (joinTenant db a)) (saRoles a) (grantOf <$> ListRoles db (saTenantID a)))
    as (_ & -> & _). done.
Qed.

Lemma effective_known i : levels_ok (acFieldPermissions (effective i a)).
Proof using Hdb Hk.
  intros attr l. rewrite effective_level. destruct (saFieldPermissions a !! attr) as [own|] eqn:E.
  - intros [= <-]. destruct Hdb as (_ & _ & Ha & _). destruct (Ha _ _ Hk) as (_ & _ & Hl & _). by apply (Hl attr).
  - intros Hb. pose proof (listed_levels_known attr) as Hkn. pose proof (best_exact _ Hkn) as Hm. rewrite Hb in Hm.
    rewrite list.Forall_forall in Hkn. apply Hkn, Hm.
Qed.

(** A question that more permissive levels answer as well: what the merged level
    says is the rule. *)
Lemma merged_allowed (fits : string -> Prop) i attr :
  (forall l l', known_level l -> known_level l' -> permissionRank l <= permissionRank l' -> fits l -> fits l') ->
  (forall l, acFieldPermissions (effective i a) !! attr = Some l -> fits l) <->
  match saFieldPermissions a !! attr with
  | Some own => fits own
  | None => (exists l, role_lists a attr l /\ fits l) \/ forall l, ~ role_lists a attr l
  end.
Proof using Hdb Hk.
  intros Hup. rewrite effective_level. destruct (saFieldPermissions a !! attr) as [own|].
  { split; [by intros Hl; apply Hl|]. by intros Ho l [= <-]. }
  setoid_rewrite <- listed_lists. pose proof (listed_levels_known attr) as Hkn. pose proof (best_exact _ Hkn) as Hm.
  rewrite list.Forall_forall in Hkn. destruct (best _) as [b|].
  - destruct Hm as [Hb Hmax]. split; [intros Hl; left; exists b; auto|].
    intros [(l & Hl & Hf)|Hno] ? [= <-]; [|by destruct (Hno b)].
    apply (Hup l b); [by apply Hkn|by apply Hkn|by apply Hmax|done].
  - rewrite Hm. split; [intros _; right; set_solver|]. by intros _ l.
Qed.

Lemma rights i fits can attr :
  (forall l l', known_level l -> known_level l' -> permissionRank l <= permissionRank l' -> fits l -> fits l') ->
  (forall perms, levels_ok perms -> (0 < size perms)%nat ->
     can (mkAccess false perms "") attr = true <-> forall l, perms !! attr = Some l -> fits l) ->
  can (mkAccess true ∅ "") attr = true ->
  can (accessFor (effective i a)) attr = true <-> allowed fits a attr.
Proof using Hdb Hk.
  intros Hup Hcan Hadm. unfold accessFor, AccessFromPermissions, allowed. rewrite effective_resolved. simpl.
  rewrite <- (merged_allowed fits i attr Hup). destruct (HasScope (effective i a) ScopeAdmin) eqn:Ea; simpl.
  { apply effective_admin in Ea. tauto. }
  assert (ScopeAdmin ∉ saScopes a) as Hna by (rewrite <- (effective_admin i); congruence).
  case_bool_decide as Es.
  - apply map_size_empty_inv in Es. rewrite Es. setoid_rewrite lookup_empty. split; [by right|done].
  - rewrite Hcan by (exact (effective_known i) || lia). tauto.
Qed.
End Effective.

Lemma level_of perms attr :
  level (mkAccess false perms "") attr = match perms !! attr with Some l => l | None => PermWrite end.
Proof. unfold level. simpl. by destruct (perms !! attr). Qed.

(** Enforcement of resolved levels. *)
Lemma accessFor_read acct attr :
  acUnresolvedRoles acct = [] -> levels_ok (acFieldPermissions acct) ->
  CanRead (accessFor acct) attr =
    Admin (accessFor acct) || match acFieldPermissions acct !! attr with
                              | Some l => negb (bool_decide (l = PermNone))
                              | None => true
                              end.
Proof.
  intros Hu Hl. unfold accessFor, AccessFromPermissions. rewrite Hu. simpl.
  destruct (HasScope acct ScopeAdmin || _); [done|]. simpl.
  apply eq_true_iff_eq. rewrite CanRead_known by (by split; [|left]). simpl. rewrite level_of.
  destruct (acFieldPermissions acct !! attr) as [l|].
  - rewrite negb_true_iff, bool_decide_eq_false. naive_solver.
  - split; [done|]. by right.
Qed.

Section Exact.
Context `{GoUlid} `{GoHash} `{GoPgChar}.

Lemma read_rights db (Hok : db_ok db) a k (Hk : dbAccounts db !! k = Some a) i attr :
  CanRead (accessFor (effective db i a)) attr = true <-> allowed db (fun l => l <> PermNone) a attr.
Proof.
  apply (rights db Hok a k Hk i _ CanRead).
  - intros l l' Hl Hl' Hr Hne ->. destruct Hne. apply rank_injective; [done|by left|].
    pose proof (known_rank _ Hl). change (permissionRank PermNone) with 1 in *. lia.
  - intros perms Hp _. rewrite CanRead_known by (by split; [|left]). simpl. rewrite level_of.
    split; [intros [?|Hl] l E; [done|by rewrite E in Hl]|]. intros Hl. right.
    destruct (perms !! attr) eqn:E; [by apply Hl|done].
  - done.
Qed.

Lemma write_rights db (Hok : db_ok db) a k (Hk : dbAccounts db !! k = Some a) i attr :
  CanWrite (accessFor (effective db i a)) attr = true <-> allowed db (fun l => l = PermWrite) a attr.
Proof.
  apply (rights db Hok a k Hk i _ CanWrite).
  - intros l l' Hl Hl' Hr ->. apply rank_injective; [done|by right; right|].
    pose proof (known_rank _ Hl'). change (permissionRank PermWrite) with 3 in *. lia.
  - intros perms Hp _. unfold CanWrite. simpl. rewrite bool_decide_eq_true, level_of.
    split; [intros Hl l E; by rewrite E in Hl|]. intros Hl. destruct (perms !! attr) eqn:E; [by apply Hl|done].
  - done.
Qed.

(** C27: the view of an account's effective permissions reports what the request path
    enforces: for a live account of a live tenant, whatever token of it
    authenticates, the scopes and merged levels are those the principal carries, and
    the two flags say exactly when the levels do not apply. *)
Theorem effective_view_exact db token acct k :
  admin_reachable db -> AuthenticateDB token db = Ok acct ->
  accountByText db (acID acct) = dbAccounts db !! k ->
  ulid_ParseStrict (ulid_String k) = Some k ->
  exists v, EffectiveAccount (ulid_String k) db = Ok v /\ evID v = k /\
    evScopes v = acScopes acct /\ evFieldPermissions v = acFieldPermissions acct /\
    evUnresolvedRoles v = [] /\ evDeniedAll v = false /\
    evFieldACLBypassed v = Admin (accessFor acct) /\
    forall attr,
      CanRead (accessFor acct) attr =
        evFieldACLBypassed v || match evFieldPermissions v !! attr with Some l => negb (bool_decide (l = PermNone)) | None => true end.
Proof.
  intros Hok%admin_reachable_ok Hauth Hrow Hparse.
  apply (AuthenticateDB_exact db Hok) in Hauth as (i & secret & a & Hs & Ha & Hh & Hact & Ht & ->).
  change (acID (effective db i a)) with i in Hrow. rewrite Ha in Hrow. symmetry in Hrow. rename Hrow into Hk.
  unfold EffectiveAccount, parseAccountID, GetAccount. rewrite Hparse. cbn [res_bind]. rewrite Hk. cbn [res_bind].
  set (base := mkAccount (ulid_String (saID a)) (saName a) (saTenantID a) (saScopes a) (saFieldPermissions a) "" []).
  set (grants := grantOf <$> ListRoles db (saTenantID a)).
  assert (acScopes (Resolve base (saRoles a) grants) = acScopes (effective db i a)) as Esc by done.
  assert (acFieldPermissions (Resolve base (saRoles a) grants) = acFieldPermissions (effective db i a)) as Efp by done.
  assert (acUnresolvedRoles (Resolve base (saRoles a) grants) = acUnresolvedRoles (effective db i a)) as Eun by done.
  eexists. split; [reflexivity|].
  cbn [evID evScopes evFieldPermissions evUnresolvedRoles evDeniedAll evFieldACLBypassed].
  fold grants. fold base. pose proof Hok as (_ & _ & Hacc & _). destruct (Hacc _ _ Hk) as [Eid _].
  assert (Admin (AccessFromPermissions (HasScope (Resolve base (saRoles a) grants) ScopeAdmin)
    (Z.of_nat (length (acUnresolvedRoles (Resolve base (saRoles a) grants)))) (acFieldPermissions (Resolve base (saRoles a) grants)))
    = Admin (accessFor (effective db i a))) as Ead by done.
  rewrite Ead, Esc, Efp, Eun, (effective_resolved db Hok a k Hk i). split_and!; try done.
  intros attr. by apply accessFor_read; [apply (effective_resolved db Hok a k Hk)|apply (effective_known db Hok a k Hk)].
Qed.
(** What presents a token as the account [k]: its identifier finds the account, its
    secret is the one stored, and account and tenant are active. *)
Definition presents (db : AdminDB) (token i : string) (k : ID) (a : ServiceAccount) : Prop :=
  exists secret, token = MintToken i secret /\ plain_id i /\ secret <> EmptyString /\
    dbAccounts db !! k = Some a /\ bpchar_eq (ulid_String k) i = true /\
    HashSecret secret = saSecretHash a /\ saActive a = true /\
    (forall j t, dbTenants db !! j = Some t -> tnName t = saTenantID a -> tnActive t = true).

(** At most one identifier's text equals another text in a [CHAR] column. *)
Hypothesis char_one : forall i j t,
  bpchar_eq (ulid_String i) t = true -> bpchar_eq (ulid_String j) t = true -> i = j.

Lemma tenant_active db (Hok : db_ok db) a :
  arTenantActive (joinTenant db a) = true <->
  (forall j t, dbTenants db !! j = Some t -> tnName t = saTenantID a -> tnActive t = true).
Proof using.
  pose proof Hok as ([_ Hu] & _). simpl. split.
  - intros Ht j t Hj Hn. unfold tenantNamed in Ht.
    rewrite (find_values_unique _ _ j t) in Ht; [done| |done|by apply bool_decide_eq_true].
    intros j' t' Hj' Hn'. breflect. assert (j' = j) as -> by (apply (Hu j' j t' t); congruence). congruence.
  - intros Hall. destruct (tenantNamed db (saTenantID a)) as [t|] eqn:Et; [|done].
    apply find_values_Some in Et as (En & j & Hj). breflect. by apply (Hall j t).
Qed.

Lemma AuthenticateDB_presents db token acct :
  db_ok db ->
  AuthenticateDB token db = Ok acct <-> exists i k a, presents db token i k a /\ acct = effective db i a.
Proof using char_one.
  intros Hok. rewrite (AuthenticateDB_exact db Hok). pose proof Hok as (_ & _ & Hacc & _). split.
  - intros (i & secret & a & Hs & Ha & Hh & Hact & Ht & ->). apply SplitToken_exact in Hs as (-> & Hp & Hne).
    apply find_values_Some in Ha as (Hid & k & Hk). destruct (Hacc _ _ Hk) as [Eid _]. rewrite Eid in Hid.
    exists i, k, a. split; [|done]. exists secret. split_and!; try done. by apply tenant_active.
  - intros (i & k & a & (secret & Htok & Hp & Hne & Hk & Hid & Hh & Hact & Ht) & ->).
    exists i, secret, a. split_and!; try done; [by apply SplitToken_exact| |by apply tenant_active].
    destruct (Hacc _ _ Hk) as [Eid _]. apply (find_values_unique _ _ k); [|done|by rewrite Eid].
    intros j a' Hj Hid'. destruct (Hacc _ _ Hj) as [Eid' _]. rewrite Eid' in Hid'.
    assert (j = k) as -> by (by apply (char_one j k i)). congruence.
Qed.

(** C26: a token authenticates exactly when it presents an account: when its
    identifier finds one (equality of a [CHAR(26)] column, under which at most one
    account matches), its secret is the one stored, and the account and its tenant are
    active.  What the account may then read and write is the rule stated for roles:
    admin everything, else its own entry for the attribute, else the most permissive
    level its roles list, else - listed by none - everything; its scopes are its own
    and its roles', and a role never confers admin. *)
Theorem effective_permissions_exact db token :
  admin_reachable db ->
  ((exists acct, AuthenticateDB token db = Ok acct) <-> exists i k a, presents db token i k a) /\
  (forall acct, AuthenticateDB token db = Ok acct -> exists i k a, presents db token i k a /\
     acID acct = i /\ acTenantID acct = saTenantID a /\
     (forall attr, CanRead (accessFor acct) attr = true <-> allowed db (fun l => l <> PermNone) a attr) /\
     (forall attr, CanWrite (accessFor acct) attr = true <-> allowed db (fun l => l = PermWrite) a attr) /\
     forall s, HasScope acct s = true <-> s ∈ saScopes a \/ ScopeAdmin ∈ saScopes a \/
       exists j r, dbRoles db !! j = Some r /\ roTenantID r = saTenantID a /\ roName r ∈ saRoles a /\ s ∈ roScopes r).
Proof using char_one.
  intros Hok%admin_reachable_ok. pose proof (AuthenticateDB_presents db token) as Hex. split.
  - split; [intros [acct (i & k & a & Hp & _)%Hex]; [by exists i, k, a|done]|].
    intros (i & k & a & Hp). exists (effective db i a). apply Hex; [done|]. by exists i, k, a.
  - intros acct (i & k & a & Hp & ->)%Hex; [|done]. exists i, k, a. pose proof Hp as (secret & _ & _ & _ & Hk & _).
    split_and!; try done.
    + intros attr. by apply (read_rights db Hok a k Hk).
    + intros attr. by apply (write_rights db Hok a k Hk).
    + intros s. by apply (effective_scope db Hok a k Hk).
Qed.

End Exact.

(** ** Credentials *)

Section Credentials.
Context `{U : GoUlid} `{S : GoHash} `{P : GoPgChar}.
Hypothesis plain_ulid : forall i, plain_id (ulid_String i).
Hypothesis char_refl : forall i, bpchar_eq (ulid_String i) (ulid_String i) = true.
Hypothesis char_ids : forall i j, bpchar_eq (ulid_String i) (ulid_String j) = true -> i = j.

Lemma account_by_id db k a : db_ok db -> dbAccounts db !! k = Some a -> accountByText db (ulid_String k) = Some a.
Proof using char_ids char_refl.
  intros (_ & _ & Hacc & _) Hk. apply (find_values_unique _ _ k); [|done|].
  - intros j a' Hj Hid. destruct (Hacc _ _ Hj) as [Eid _]. rewrite Eid in Hid. apply char_ids in Hid as ->. congruence.
  - destruct (Hacc _ _ Hk) as [-> _]. apply char_refl.
Qed.

Lemma identity_secret newID secret inp acctID sec :
  secret <> EmptyString -> identityFor newID secret inp = Ok (acctID, sec) -> sec <> EmptyString.
Proof.
  intros Hne. unfold identityFor. destruct (str_IsZero (ciID inp) && _); [by intros [= <- <-]|].
  destruct (_ || _) eqn:Ez; [done|]. destruct (ulid_ParseStrict _); [|done]. destruct (_ <? _)%nat; [done|].
  intros [= <- <-]. apply orb_false_iff in Ez as [_ Ez]. by apply str_IsZero_false.
Qed.

(** C28: creating an account of an active tenant stores exactly what was asked for -
    its name, tenant, scopes, roles and field permissions, active - and the token
    returned with it, shown once, authenticates as that account: with its identifier,
    and with the rights to read and write and the scopes that the request's own
    scopes and field permissions and the roles it names give.  A token with that
    identifier authenticates only by a secret of the same hash. *)
Theorem minted_token_authenticates db newID secret now inp db' acct token :
  admin_reachable db -> secret <> EmptyString ->
  CreateAccount newID secret now inp db = Ok (db', (acct, token)) ->
  (forall j t, dbTenants db !! j = Some t -> tnName t = ciTenantName inp -> tnActive t = true) ->
  dbAccounts db' !! saID acct = Some acct /\ saActive acct = true /\
  saTenantID acct = ciTenantName inp /\ saName acct = ciName inp /\ saScopes acct = ciScopes inp /\
  saRoles acct = ciRoles inp /\ saFieldPermissions acct = ciFieldPermissions inp /\
  (exists principal, AuthenticateDB token db' = Ok principal /\ acID principal = ulid_String (saID acct) /\
     acTenantID principal = ciTenantName inp /\
     (forall attr, CanRead (accessFor principal) attr = true <-> allowed db' (fun l => l <> PermNone) acct attr) /\
     (forall attr, CanWrite (accessFor principal) attr = true <-> allowed db' (fun l => l = PermWrite) acct attr) /\
     forall s, HasScope principal s = true <-> s ∈ ciScopes inp \/ ScopeAdmin ∈ ciScopes inp \/
       exists j r, dbRoles db' !! j = Some r /\ roTenantID r = ciTenantName inp /\ roName r ∈ ciRoles inp /\ s ∈ roScopes r) /\
  forall other principal, AuthenticateDB (MintToken (ulid_String (saID acct)) other) db' = Ok principal ->
    exists minted, token = MintToken (ulid_String (saID acct)) minted /\ HashSecret other = HashSecret minted.
Proof using char_ids char_refl plain_ulid.
  intros Hreach Hne Hc Htn. assert (admin_reachable db') as Hreach'
    by (eapply admin_next; [done|by eapply step_create_account]).
  pose proof (admin_reachable_ok _ Hreach') as Hok'.
  apply CreateAccount_inv in Hc as (acctID & sec & t & Hid & Ht & _ & _ & Hins & Hout).
  injection Hout as -> ->. set (acct := mkServiceAccount _ _ _ _ _ _ _ _ _ _) in *. simpl.
  unfold insertAccount in Hins. destruct (accountNamed _ _ _); [done|]. destruct (dbAccounts db !! _) eqn:Ei; [done|].
  injection Hins as <-. apply GetTenantByName_ok in Ht as (Hname & j & Hj).
  set (db' := setAccounts _ _) in *.
  assert (dbAccounts db' !! acctID = Some acct) as Hk by (apply lookup_insert_eq).
  assert (accountByText db' (ulid_String acctID) = Some acct) as Hrow by (by apply account_by_id).
  do 7 (split; [done|]). split.
  - exists (effective db' (ulid_String acctID) acct). split_and!.
    + apply AuthenticateDB_exact; [done|]. exists (ulid_String acctID), sec, acct. split_and!; try done.
      * apply SplitToken_exact. split_and!; [done|apply plain_ulid|by eapply identity_secret].
      * simpl. unfold from_option. destruct (tenantNamed db' (tnName t)) as [t'|] eqn:Et; [|done].
        apply find_values_Some in Et as (En & j' & Hj'). breflect. apply (Htn j' t'); [done|congruence].
    + done.
    + done.
    + intros attr. by apply (read_rights db' Hok' acct acctID Hk).
    + intros attr. by apply (write_rights db' Hok' acct acctID Hk).
    + intros s. rewrite <- Hname. by apply (effective_scope db' Hok' acct acctID Hk).
  - intros other principal Hauth. exists sec. split; [done|].
    apply AuthenticateDB_exact in Hauth as (i & s' & a & Hs & Ha & Hh & _); [|done].
    apply SplitToken_exact in Hs as (E & Hi & Hs'). pose proof (proj2 (SplitToken_exact _ i s')
      (conj E (conj Hi Hs'))) as H1. clear E.
    destruct (decide (other = EmptyString)) as [->|Hoe].
    { unfold SplitToken in H1. unfold MintToken in H1. rewrite CutPrefix_app, Cut_app in H1 by apply plain_ulid.
      by rewrite orb_true_r in H1. }
    rewrite (proj2 (SplitToken_exact _ (ulid_String acctID) other)) in H1 by (split_and!; [done|apply plain_ulid|done]).
    injection H1 as <- <-. rewrite Hrow in Ha. injection Ha as <-. done.
Qed.

(** The check a supplied token passes lets through a spelling of its identifier that
    is not the one it is stored under; the tokens then do not match. *)
Lemma bootstrap_spelling tenantID acctID newSecret now tenantName accountName db i secret k :
  plain_id i -> ulid_ParseStrict i = Some k -> (forall j, bpchar_eq (ulid_String j) i = false) ->
  (32 <= String.length secret)%nat -> ListAccounts db tenantName = [] -> namePattern accountName = true ->
  (exists t, tenantNamed db tenantName = Some t) -> namePattern tenantName = true ->
  accountNamed db tenantName accountName = None -> dbAccounts db !! k = None ->
  let token := MintToken i secret in
  let out := BootstrapAdminWithToken tenantID acctID newSecret now tenantName accountName token db in
  out.2 = Ok true /\ AuthenticateDB token out.1 = Err (VerifyOnlyTiming secret).
Proof.
  intros Hi Hk Hsp Hlen Hnone Hacct [t Ht] Htn Hfree Hkfree token out.
  assert (secret <> EmptyString) as Hs by (intros ->; simpl in Hlen; lia).
  assert (SplitToken token = Ok (i, secret)) as Hsplit by (by apply SplitToken_exact).
  assert (tnName t = tenantName) as En by (apply find_values_Some in Ht as [Ht _]; by breflect).
  assert (out.2 = Ok true) as Hout.
  { unfold out, BootstrapAdminWithToken. rewrite Hsplit, Hnone. simpl. unfold bootstrapAccount, bootstrapTenant, CreateTenant.
    simpl. unfold GetTenantByName. rewrite Htn, Ht. simpl. unfold CreateAccount. simpl. rewrite Hacct. simpl.
    unfold identityFor. simpl. apply str_IsZero_false in Hs. rewrite (proj2 (str_IsZero_false i) (proj1 Hi)), Hs. simpl.
    rewrite Hk. unfold MinSuppliedSecretLength. rewrite (proj2 (Nat.ltb_ge _ _) Hlen). simpl. unfold GetTenantByName. rewrite Ht. simpl.
    unfold insertAccount. simpl. by rewrite En, Hfree, Hkfree. }
  split; [done|]. unfold AuthenticateDB, readAccount. rewrite Hsplit. simpl.
  assert (accountByText out.1 i = None) as ->; [|done]. unfold accountByText.
  match goal with |- find ?p ?l = None => destruct (find p l) eqn:E; [|done] end.
  apply find_some in E as [_ E]. by rewrite Hsp in E.
Qed.
End Credentials.
