(* ===== verification/AuthCache.v ===== *)
(** Authentication through the success cache ([pkg/serviceaccount/cache.go] over the
    database-backed authenticator), interleaved: any number of requests, each of whose
    steps - the clock, the probe, the two statements, the fill - may be separated by
    others', by provisioning on this server or another, by the evictions that follow
    it, and by restarts.

    Every answer is vouched for by what the tables held less than the cache's lifetime
    before the request began; and once a revocation's eviction has run with no lookup
    of that credential under way, it is never answered again. *)

From Stdlib Require Import ZArith Lia String Ascii List.
From stdpp Require Import base tactics list gmap fin_maps fin_sets strings option decidable.
From S2P Require Import Prelude GoText Values Ids Attribute Access ServiceAccount ServiceAccountFacts Admin AdminFacts.

Open Scope Z_scope.
Open Scope go_scope.

(** ** The cache's indexes *)

Definition indexed (index : gmap string (gset string)) (key token : string) : Prop :=
  token ∈ default ∅ (index !! key).

Definition cache_sound (c : Cache) : Prop :=
  forall token e, caEntries c !! token = Some e ->
    indexed (byAccount c) (acID (ceAccount e)) token /\ indexed (byTenant c) (acTenantID (ceAccount e)) token.

Lemma unindex_other index token token' key key' :
  token' <> token -> indexed index key' token' -> indexed (unindex token key index) key' token'.
Proof.
  intros Hne Hin. unfold unindex. destruct (index !! key) as [tokens|] eqn:E; [|done].
  unfold indexed in *. destruct (decide (key' = key)) as [->|Hk].
  - rewrite E in Hin. simpl in Hin. case_bool_decide as Hem; [set_solver|]. rewrite lookup_insert_eq. simpl. set_solver.
  - case_bool_decide; [by rewrite lookup_delete_ne|by rewrite lookup_insert_ne].
Qed.

Lemma forget_entries c token : caEntries (forget c token) = delete token (caEntries c).
Proof. unfold forget. destruct (caEntries c !! token) eqn:E; [done|]. symmetry. by apply delete_id. Qed.

Lemma forget_sound c token : cache_sound c -> cache_sound (forget c token).
Proof.
  intros Hs token' e'. rewrite forget_entries. intros [Hne He]%lookup_delete_Some.
  destruct (Hs _ _ He) as [Ha Ht]. unfold forget. destruct (caEntries c !! token); [|done]. simpl.
  split; by apply unindex_other.
Qed.

Lemma forget_all_sound tokens c : cache_sound c -> cache_sound (fold_left forget tokens c).
Proof. revert c. induction tokens as [|t tokens IH]; intros c Hc; [done|]. by apply IH, forget_sound. Qed.

Lemma forget_all_entries tokens c token e :
  caEntries (fold_left forget tokens c) !! token = Some e <-> token ∉ tokens /\ caEntries c !! token = Some e.
Proof.
  revert c. induction tokens as [|t tokens IH]; intros c; simpl; [set_solver|].
  rewrite IH, forget_entries, lookup_delete_Some. set_solver.
Qed.

Lemma Invalidate_entries c i token e :
  caEntries (Invalidate c i) !! token = Some e <-> ~ indexed (byAccount c) i token /\ caEntries c !! token = Some e.
Proof. unfold Invalidate. simpl. rewrite forget_all_entries. unfold indexed. by rewrite elem_of_elements. Qed.

Lemma InvalidateTenant_entries c t token e :
  caEntries (InvalidateTenant c t) !! token = Some e <-> ~ indexed (byTenant c) t token /\ caEntries c !! token = Some e.
Proof. unfold InvalidateTenant. simpl. rewrite forget_all_entries. unfold indexed. by rewrite elem_of_elements. Qed.

(** After an eviction nothing of that account, or that tenant, is cached. *)
Lemma Invalidate_account c i token e :
  cache_sound c -> caEntries (Invalidate c i) !! token = Some e -> acID (ceAccount e) <> i.
Proof. intros Hs [Hni He]%Invalidate_entries <-. by destruct Hni, (Hs _ _ He). Qed.

Lemma InvalidateTenant_tenant c t token e :
  cache_sound c -> caEntries (InvalidateTenant c t) !! token = Some e -> acTenantID (ceAccount e) <> t.
Proof. intros Hs [Hni He]%InvalidateTenant_entries <-. by destruct Hni, (Hs _ _ He). Qed.

Lemma Invalidate_sound c i : cache_sound c -> cache_sound (Invalidate c i).
Proof.
  intros Hs token e He. pose proof (Invalidate_account _ _ _ _ Hs He) as Hne.
  pose proof (forget_all_sound (elements (default ∅ (byAccount c !! i))) _ Hs token e He) as [Ha Ht].
  split; [|done]. unfold Invalidate, indexed in *. simpl. by rewrite lookup_delete_ne.
Qed.

Lemma InvalidateTenant_sound c t : cache_sound c -> cache_sound (InvalidateTenant c t).
Proof.
  intros Hs token e He. pose proof (InvalidateTenant_tenant _ _ _ _ Hs He) as Hne.
  pose proof (forget_all_sound (elements (default ∅ (byTenant c !! t))) _ Hs token e He) as [Ha Ht].
  split; [done|]. unfold InvalidateTenant, indexed in *. simpl. by rewrite lookup_delete_ne.
Qed.

Lemma evict_sound c ev : cache_sound c -> cache_sound (evict c ev).
Proof. destruct ev; [apply Invalidate_sound|apply InvalidateTenant_sound]. Qed.

Lemma evict_entries c ev token e : caEntries (evict c ev) !! token = Some e -> caEntries c !! token = Some e.
Proof. destruct ev; simpl; [by intros [_ He]%Invalidate_entries|by intros [_ He]%InvalidateTenant_entries]. Qed.

Definition sweep (now : Z) (c : Cache) (ke : string * cacheEntry) : Cache :=
  if negb (now <? ceExpires ke.2) then forget c ke.1 else c.

Lemma sweep_all now l c :
  cache_sound c ->
  cache_sound (fold_left (sweep now) l c) /\
  forall token e, caEntries (fold_left (sweep now) l c) !! token = Some e -> caEntries c !! token = Some e.
Proof.
  revert c. induction l as [|ke l IH]; intros c Hs; simpl; [done|].
  assert (cache_sound (sweep now c ke) /\ forall token e, caEntries (sweep now c ke) !! token = Some e -> caEntries c !! token = Some e)
    as [Hs' He'].
  { unfold sweep. destruct (negb _); [|done]. split; [by apply forget_sound|]. intros token e.
    rewrite forget_entries. by intros [_ He]%lookup_delete_Some. }
  destruct (IH _ Hs') as [H1 H2]. split; [done|]. intros token e Hte. by apply He', H2.
Qed.

Lemma addIndex_indexed index token key key' token' :
  indexed (addIndex token key index) key' token' <-> (key' = key /\ token' = token) \/ indexed index key' token'.
Proof.
  unfold addIndex, indexed. destruct (decide (key' = key)) as [->|Hne].
  - rewrite lookup_insert_eq. simpl. rewrite elem_of_union, elem_of_singleton. naive_solver.
  - rewrite lookup_insert_ne by done. naive_solver.
Qed.

Lemma cacheFill_sound c now ttl token acct :
  cache_sound c ->
  cache_sound (cacheFill c now ttl token acct) /\
  forall token' e, caEntries (cacheFill c now ttl token acct) !! token' = Some e ->
    (token' = token /\ e = mkEntry acct (now + ttl)) \/ caEntries c !! token' = Some e.
Proof.
  intros Hs. unfold cacheFill. fold (sweep now).
  set (c1 := if (1024 <? size (caEntries c))%nat then fold_left (sweep now) (map_to_list (caEntries c)) c else c).
  assert (cache_sound c1 /\ forall token e, caEntries c1 !! token = Some e -> caEntries c !! token = Some e) as [Hs1 He1]
    by (subst c1; destruct (_ <? _)%nat; [by apply sweep_all|done]).
  split; intros token' e; simpl.
  - setoid_rewrite addIndex_indexed. intros [[<- <-]|[Hne He]]%lookup_insert_Some; [simpl; auto|].
    destruct (Hs1 _ _ He). auto.
  - intros [[<- <-]|[Hne He]]%lookup_insert_Some; [by left|right; auto].
Qed.

(** ** The system *)

(** Where a request stands in [AuthenticateCtx]. *)
Inductive phase :=
| Started
| Missed
| GotRow (i : string) (row : accountRow)
| Looked (acct : Account)
| Answered (acct : Account)
| Refused.

(** [rqNow] is the instant it read before anything else. *)
Record request := mkRequest { rqToken : string; rqNow : Z; rqPhase : phase }.

Definition at_phase (r : request) (p : phase) : request := mkRequest (rqToken r) (rqNow r) p.

Record AuthSys := mkAuthSys {
  asDB : AdminDB;
  asCache : Cache;
  asClock : Z;
  asEvictions : list Eviction;
  asRequests : gmap nat request }.

Definition initial (db : AdminDB) (t : Z) : AuthSys := mkAuthSys db emptyCache t [] ∅.

Section System.
Context `{U : GoUlid} `{S : GoHash} `{P : GoPgChar}.
Variable ttl : Z.

Definition afterAccount (answer : result (string * accountRow)) : phase :=
  match answer with
  | Err _ => Refused
  | Ok (i, row) =>
      if bool_decide (arRoles row = []) then
        match finishAccount i row [] with Ok acct => Looked acct | Err _ => Refused end
      else GotRow i row
  end.

Definition afterRoles (answer : result Account) : phase :=
  match answer with Ok acct => Looked acct | Err _ => Refused end.

(** Only one server is followed: provisioning elsewhere changes the tables and evicts
    nothing here. *)
Inductive auth_step (s : AuthSys) : AuthSys -> Prop :=
| auth_tick d : 0 <= d ->
    auth_step s (mkAuthSys (asDB s) (asCache s) (asClock s + d) (asEvictions s) (asRequests s))
| auth_admin db' evs : admin_step (asDB s) db' evs ->
    auth_step s (mkAuthSys db' (asCache s) (asClock s) (asEvictions s ++ evs) (asRequests s))
| auth_elsewhere db' evs : admin_step (asDB s) db' evs ->
    auth_step s (mkAuthSys db' (asCache s) (asClock s) (asEvictions s) (asRequests s))
| auth_evict l ev l' : asEvictions s = l ++ ev :: l' ->
    auth_step s (mkAuthSys (asDB s) (evict (asCache s) ev) (asClock s) (l ++ l') (asRequests s))
| auth_arrive n token : asRequests s !! n = None ->
    auth_step s (mkAuthSys (asDB s) (asCache s) (asClock s) (asEvictions s)
      (<[n := mkRequest token (asClock s) Started]> (asRequests s)))
| auth_probe n r : asRequests s !! n = Some r -> rqPhase r = Started ->
    auth_step s (mkAuthSys (asDB s) (asCache s) (asClock s) (asEvictions s)
      (<[n := at_phase r match cacheHit (asCache s) (rqNow r) (rqToken r) with
                         | Some acct => Answered acct
                         | None => Missed
                         end]> (asRequests s)))
| auth_read_account n r : asRequests s !! n = Some r -> rqPhase r = Missed ->
    auth_step s (mkAuthSys (asDB s) (asCache s) (asClock s) (asEvictions s)
      (<[n := at_phase r (afterAccount (readAccount (rqToken r) (asDB s)))]> (asRequests s)))
| auth_read_roles n r i row : asRequests s !! n = Some r -> rqPhase r = GotRow i row ->
    auth_step s (mkAuthSys (asDB s) (asCache s) (asClock s) (asEvictions s)
      (<[n := at_phase r (afterRoles (finishAccount i row (readRoles row (asDB s))))]> (asRequests s)))
| auth_fill n r acct : asRequests s !! n = Some r -> rqPhase r = Looked acct ->
    auth_step s (mkAuthSys (asDB s) (cacheFill (asCache s) (rqNow r) ttl (rqToken r) acct) (asClock s)
      (asEvictions s) (<[n := at_phase r (Answered acct)]> (asRequests s)))
| auth_restart :
    auth_step s (mkAuthSys (asDB s) emptyCache (asClock s) [] ∅).

(** A run, with every state it went through. *)
Inductive auth_run (db0 : AdminDB) (t0 : Z) : list AuthSys -> AuthSys -> Prop :=
| run_start : auth_run db0 t0 [] (initial db0 t0)
| run_next past s s' : auth_run db0 t0 past s -> auth_step s s' -> auth_run db0 t0 (s :: past) s'.

(** ** Freshness *)

(** What an answer rests on: the two statements, each as the tables were at some moment
    not before [t]. *)
Definition vouched (seen : list AuthSys) (t : Z) (token : string) (acct : Account) : Prop :=
  exists s1 s2 i row, s1 ∈ seen /\ s2 ∈ seen /\ t <= asClock s1 /\ t <= asClock s2 /\
    readAccount token (asDB s1) = Ok (i, row) /\ finishAccount i row (readRoles row (asDB s2)) = Ok acct.

Definition request_fresh (seen : list AuthSys) (r : request) : Prop :=
  match rqPhase r with
  | GotRow i row => exists s1, s1 ∈ seen /\ rqNow r <= asClock s1 /\ readAccount (rqToken r) (asDB s1) = Ok (i, row)
  | Looked acct => vouched seen (rqNow r) (rqToken r) acct
  | Answered acct => exists t, rqNow r < t + ttl /\ vouched seen t (rqToken r) acct
  | _ => True
  end.

Definition entry_fresh (seen : list AuthSys) (now : Z) (token : string) (e : cacheEntry) : Prop :=
  exists t, t <= now /\ ceExpires e = t + ttl /\ vouched seen t token (ceAccount e).

Definition fresh (seen : list AuthSys) (s : AuthSys) : Prop :=
  cache_sound (asCache s) /\
  map_Forall (entry_fresh seen (asClock s)) (caEntries (asCache s)) /\
  map_Forall (fun _ r => rqNow r <= asClock s /\ request_fresh seen r) (asRequests s).

Lemma vouched_more seen seen' t token acct : seen ⊆ seen' -> vouched seen t token acct -> vouched seen' t token acct.
Proof. intros Hs (s1 & s2 & i & row & H1 & H2 & Hr). exists s1, s2, i, row. split_and!; [auto|auto|apply Hr..]. Qed.

Lemma request_more seen seen' r : seen ⊆ seen' -> request_fresh seen r -> request_fresh seen' r.
Proof.
  intros Hs. unfold request_fresh. destruct (rqPhase r); try done.
  - intros (s1 & H1 & Hr). exists s1. auto.
  - by apply vouched_more.
  - intros (t & Ht & Hv). exists t. split; [done|]. by eapply vouched_more.
Qed.

Lemma entry_more seen seen' now now' token e :
  seen ⊆ seen' -> now <= now' -> entry_fresh seen now token e -> entry_fresh seen' now' token e.
Proof. intros Hs Hn (t & Ht & He & Hv). exists t. split_and!; [lia|done|]. by eapply vouched_more. Qed.

Lemma requests_more seen seen' now now' (rs : gmap nat request) :
  seen ⊆ seen' -> now <= now' ->
  map_Forall (fun _ r => rqNow r <= now /\ request_fresh seen r) rs ->
  map_Forall (fun _ r => rqNow r <= now' /\ request_fresh seen' r) rs.
Proof. intros Hs Hn Ha n r Hr. destruct (Ha n r Hr) as [H1 H2]. split; [lia|by eapply request_more]. Qed.

Lemma entries_more seen seen' now now' (es : gmap string cacheEntry) :
  seen ⊆ seen' -> now <= now' -> map_Forall (entry_fresh seen now) es -> map_Forall (entry_fresh seen' now') es.
Proof. intros Hs Hn Ha token e He. by eapply entry_more, Ha. Qed.

Lemma finish_no_roles i row g g' :
  arRoles row = [] -> finishAccount i row g = finishAccount i row g'.
Proof. intros Hr. unfold finishAccount. by rewrite bool_decide_eq_true_2. Qed.

Lemma hit_fresh seen now c r :
  map_Forall (entry_fresh seen now) (caEntries c) ->
  request_fresh seen (at_phase r match cacheHit c (rqNow r) (rqToken r) with
                                 | Some acct => Answered acct
                                 | None => Missed
                                 end).
Proof.
  intros He. unfold request_fresh, cacheHit. simpl. destruct (caEntries c !! rqToken r) as [e|] eqn:E; [|done].
  destruct (Z.ltb_spec (rqNow r) (ceExpires e)) as [Hl|]; [|done].
  destruct (He _ _ E) as (t & _ & Hexp & Hv). exists t. split; [lia|done].
Qed.

Lemma account_fresh seen s r :
  s ∈ seen -> rqNow r <= asClock s ->
  request_fresh seen (at_phase r (afterAccount (readAccount (rqToken r) (asDB s)))).
Proof.
  intros Hin Hnow. unfold request_fresh, afterAccount. simpl.
  destruct (readAccount (rqToken r) (asDB s)) as [[i row]|e] eqn:E; [|done].
  case_bool_decide as Hroles; [|by exists s].
  destruct (finishAccount i row []) as [acct|] eqn:Ef; [|done].
  exists s, s, i, row. split_and!; try done. rewrite <- Ef. by apply finish_no_roles.
Qed.

Lemma roles_fresh seen s r i row :
  s ∈ seen -> rqNow r <= asClock s -> rqPhase r = GotRow i row -> request_fresh seen r ->
  request_fresh seen (at_phase r (afterRoles (finishAccount i row (readRoles row (asDB s))))).
Proof.
  intros Hin Hnow Hp Hr. unfold request_fresh in *. rewrite Hp in Hr. destruct Hr as (s1 & Hs1 & Ht & Hrow). simpl.
  destruct (finishAccount i row (readRoles row (asDB s))) as [acct|] eqn:Ef; [|done]. by exists s1, s, i, row.
Qed.

Lemma fresh_step seen s s' :
  0 < ttl -> s ∈ seen -> fresh seen s -> auth_step s s' -> fresh (s' :: seen) s'.
Proof.
  intros Httl Hin (Hc & He & Hr) Hstep.
  assert (forall s', seen ⊆ s' :: seen) as Hsub by (intros ?; set_solver).
  assert (forall n r p, asRequests s !! n = Some r -> request_fresh seen (at_phase r p) ->
    map_Forall (fun _ r => rqNow r <= asClock s /\ request_fresh (s' :: seen) r) (<[n := at_phase r p]> (asRequests s)))
    as Hset.
  { intros n r p Hn Hp. destruct (Hr n r Hn) as [Hnow _].
    apply map_Forall_insert_2; [split; [done|exact (request_more _ _ _ (Hsub _) Hp)]|].
    exact (requests_more _ _ _ _ _ (Hsub _) (Z.le_refl _) Hr). }
  destruct Hstep as [d Hd|db' evs Ha|db' evs Ha|l ev l' Hev|n token Hn|n r Hn Hp|n r Hn Hp|n r i row Hn Hp|n r acct Hn Hp|];
    (split; [|split]); simpl; try done.
  all: try (eapply entries_more; [exact (Hsub _)| |exact He]; lia).
  all: try (eapply requests_more; [exact (Hsub _)| |exact Hr]; lia).
  - by apply evict_sound.
  - intros token e Hte%evict_entries. exact (entry_more _ _ _ _ _ _ (Hsub _) (Z.le_refl _) (He _ _ Hte)).
  - apply map_Forall_insert_2; [by split|]. exact (requests_more _ _ _ _ _ (Hsub _) (Z.le_refl _) Hr).
  - apply Hset; [done|]. by eapply hit_fresh.
  - apply Hset; [done|]. destruct (Hr n r Hn). by apply account_fresh.
  - apply Hset; [done|]. destruct (Hr n r Hn). by apply roles_fresh.
  - by apply cacheFill_sound.
  - destruct (Hr n r Hn) as [Hnow Hf]. unfold request_fresh in Hf. rewrite Hp in Hf.
    intros token e Hte. apply cacheFill_sound in Hte as [[-> ->]|Hte]; [| |done].
    + exists (rqNow r). split_and!; [done|done|]. exact (vouched_more _ _ _ _ _ (Hsub _) Hf).
    + exact (entry_more _ _ _ _ _ _ (Hsub _) (Z.le_refl _) (He _ _ Hte)).
  - apply Hset; [done|]. destruct (Hr n r Hn) as [Hnow Hf]. unfold request_fresh in *. rewrite Hp in Hf. simpl.
    exists (rqNow r). split; [lia|done].
Qed.

Lemma run_fresh db0 t0 past s : 0 < ttl -> auth_run db0 t0 past s -> fresh (s :: past) s.
Proof.
  intros Httl. induction 1 as [|past s s' _ IH Hstep]; [by repeat split|].
  apply fresh_step with s; [done|by left|exact IH|exact Hstep].
Qed.

(** What the first statement found, and what the rest made of it. *)
Lemma readAccount_inv token db i row :
  readAccount token db = Ok (i, row) ->
  exists secret k a, SplitToken token = Ok (i, secret) /\ dbAccounts db !! k = Some a /\
    bpchar_eq (ulid_String (saID a)) i = true /\ HashSecret secret = saSecretHash a /\ row = joinTenant db a.
Proof.
  unfold readAccount. intros Hr. res_inv. destruct x as [i' secret]. destruct (accountByText db i') as [a|] eqn:Ea; [|done].
  unfold VerifySecret in Hr. res_inv. breflect. apply find_values_Some in Ea as (Hid & k & Hk). by eexists secret, k, a.
Qed.

Lemma finishAccount_inv i row grants acct :
  finishAccount i row grants = Ok acct -> arActive row = true /\ arTenantActive row = true /\ acID acct = i.
Proof.
  unfold finishAccount. destruct (arActive row); [|done]. destruct (arTenantActive row); [|done].
  simpl. intros [= <-]. split_and!; try done. by case_bool_decide.
Qed.

Lemma vouched_id seen t token acct :
  vouched seen t token acct -> exists secret, SplitToken token = Ok (acID acct, secret).
Proof.
  intros (s1 & s2 & i & row & _ & _ & _ & _ & Hr & Hf). apply readAccount_inv in Hr as (secret & _ & _ & Hs & _).
  apply finishAccount_inv in Hf as (_ & _ & <-). by exists secret.
Qed.

(** C24: whatever is interleaved - other requests, provisioning here or elsewhere, its
    evictions, restarts - a request that began at [rqNow] is answered only with an
    account whose row was read, by the token's secret and while it and its tenant were
    active, after [rqNow - ttl], and whose roles were read after that instant too. *)
Theorem authentication_fresh db0 t0 past s n r acct :
  0 < ttl -> auth_run db0 t0 past s -> asRequests s !! n = Some r -> rqPhase r = Answered acct ->
  exists s1 s2 i secret k a,
    s1 ∈ s :: past /\ s2 ∈ s :: past /\ rqNow r - ttl < asClock s1 /\ rqNow r - ttl < asClock s2 /\
    rqToken r = MintToken i secret /\ dbAccounts (asDB s1) !! k = Some a /\
    bpchar_eq (ulid_String (saID a)) i = true /\ HashSecret secret = saSecretHash a /\
    saActive a = true /\ arTenantActive (joinTenant (asDB s1) a) = true /\
    finishAccount i (joinTenant (asDB s1) a) (readRoles (joinTenant (asDB s1) a) (asDB s2)) = Ok acct.
Proof.
  intros Httl Hrun Hn Hp. destruct (run_fresh _ _ _ _ Httl Hrun) as (_ & _ & Hr).
  destruct (Hr n r Hn) as [_ Hf]. unfold request_fresh in Hf. rewrite Hp in Hf.
  destruct Hf as (t & Ht & s1 & s2 & i & row & H1 & H2 & Ht1 & Ht2 & Hrow & Hfin).
  apply readAccount_inv in Hrow as (secret & k & a & Hs & Hk & Hid & Hh & ->).
  apply SplitToken_exact in Hs as (Htok & _). pose proof (finishAccount_inv _ _ _ _ Hfin) as (Ha & Hta & _).
  exists s1, s2, i, secret, k, a. split_and!; try done; lia.
Qed.

(** ** Evictions *)

(** A token of the account spelled as tokens are minted: its identifier is the
    canonical text.  (Blanks behind the identifier make another spelling, which the
    lookup also accepts.) *)
Definition names (k : ID) (token : string) : Prop := exists secret, SplitToken token = Ok (ulid_String k, secret).

Definition inactive (k : ID) (db : AdminDB) : Prop := exists a, dbAccounts db !! k = Some a /\ saActive a = false.

Lemma inactive_alter k i f db :
  (forall a, saActive a = false -> saActive (f a) = false) -> inactive k db -> inactive k (updateAccount db i f).
Proof.
  intros Hf (a & Hk & Ha). unfold inactive. simpl. destruct (decide (i = k)) as [->|Hne].
  - exists (f a). rewrite lookup_alter_eq, Hk. auto.
  - exists a. by rewrite lookup_alter_ne.
Qed.

(** No usecase activates an account again. *)
Lemma admin_step_inactive k db db' evs : inactive k db -> admin_step db db' evs -> inactive k db'.
Proof.
  intros Hin Hstep. pose proof Hin as (a & Hk & Ha).
  destruct Hstep as [newID now name db1 t Hc|now name active db1 evs1 Hc|newID secret now inp db1 out Hc
    |secret now rawID db1 out evs1 Hc|now rawID db1 evs1 Hc|now rawID roles perms db1 evs1 Hc
    |newID now tenant name desc scopes perms db1 r evs1 Hc|tenant name db1 evs1 Hc].
  - unfold CreateTenant in Hc. destruct (negb _); [done|]. destruct (GetTenantByName db name); [done|]. res_inv.
    match goal with E : insertTenant _ _ = Ok _ |- _ => unfold insertTenant in E end.
    destruct (tenantNamed _ _); [done|]. destruct (dbTenants db !! _); [done|]. res_inv. by exists a.
  - unfold SetTenantActive in Hc. res_inv. by exists a.
  - apply CreateAccount_inv in Hc as (acctID & sec & t & _ & _ & _ & _ & Hi & _). unfold insertAccount in Hi.
    destruct (accountNamed _ _ _); [done|]. destruct (dbAccounts db !! _) eqn:E; [done|]. injection Hi as <-.
    exists a. simpl in *. split; [|done]. by rewrite lookup_insert_ne by congruence.
  - unfold RotateSecret in Hc. res_inv. by apply inactive_alter.
  - unfold Revoke in Hc. res_inv. by apply inactive_alter.
  - unfold AssignRoles, SetAccountRoles in Hc. res_inv.
    match goal with E : (match dbAccounts _ !! ?j with _ => _ end) = Ok _ |- _ => destruct (dbAccounts db !! j); [|done]; injection E as <- end.
    by apply inactive_alter.
  - unfold UpsertRole in Hc. res_inv. destruct x2 as [db2 stored]. res_inv.
    match goal with E : StoreUpsertRole _ _ = Ok _ |- _ => unfold StoreUpsertRole in E; rename E into Hu end.
    destruct (roleNamed _ _ _); [injection Hu as <- <-; by exists a|].
    destruct (dbRoles db !! _); [done|]. injection Hu as <- <-. by exists a.
  - unfold DeleteRole in Hc. destruct (0 <? _)%nat; [done|]. res_inv.
    match goal with E : StoreDeleteRole _ _ _ = Ok _ |- _ => unfold StoreDeleteRole in E; rename E into Hd end.
    destruct (roleNamed _ _ _); [|done]. injection Hd as <-. by exists a.
Qed.

Section Revoked.
Variable k : ID.
Hypothesis char_ids : forall i j, bpchar_eq (ulid_String i) (ulid_String j) = true -> i = j.

(** Nothing of a revoked account is cached or under way; what was answered before
    stays answered. *)
Definition request_quiet (before : gmap nat request) (n : nat) (r : request) : Prop :=
  names k (rqToken r) ->
  match rqPhase r with
  | GotRow i row => arActive row = false
  | Looked _ => False
  | Answered _ => before !! n = Some r
  | _ => True
  end.

Definition quiet (before : gmap nat request) (s : AuthSys) : Prop :=
  db_ok (asDB s) /\ inactive k (asDB s) /\
  (forall token e, caEntries (asCache s) !! token = Some e -> ~ names k token) /\
  map_Forall (request_quiet before) (asRequests s).

Lemma read_inactive token db i row :
  db_ok db -> inactive k db -> names k token -> readAccount token db = Ok (i, row) -> arActive row = false.
Proof using char_ids.
  intros (_ & _ & Hacc & _) (a & Hk & Ha) [secret Hs] Hr.
  apply readAccount_inv in Hr as (secret' & k' & a' & Hs' & Hk' & Hid & _ & ->).
  rewrite Hs in Hs'. injection Hs' as <- <-. destruct (Hacc _ _ Hk') as [Eid _]. rewrite Eid in Hid.
  apply char_ids in Hid as ->. rewrite Hk in Hk'. by injection Hk' as <-.
Qed.

Lemma finish_inactive i row grants acct : arActive row = false -> finishAccount i row grants <> Ok acct.
Proof. intros Ha Hf. apply finishAccount_inv in Hf as (Ha' & _). congruence. Qed.

Lemma account_quiet before n r s :
  db_ok (asDB s) -> inactive k (asDB s) ->
  request_quiet before n (at_phase r (afterAccount (readAccount (rqToken r) (asDB s)))).
Proof using char_ids.
  intros Hok Hin Hn. simpl in *. unfold afterAccount. destruct (readAccount _ _) as [[i row]|e] eqn:E; [|done].
  pose proof (read_inactive _ _ _ _ Hok Hin Hn E) as Ha. case_bool_decide; [|done].
  destruct (finishAccount i row []) eqn:Ef; [|done]. by apply finish_inactive in Ef.
Qed.

Lemma roles_quiet before n r i row db :
  rqPhase r = GotRow i row -> request_quiet before n r ->
  request_quiet before n (at_phase r (afterRoles (finishAccount i row (readRoles row db)))).
Proof.
  intros Hp Hq Hn. unfold request_quiet in Hq. rewrite Hp in Hq. simpl. unfold afterRoles.
  destruct (finishAccount _ _ _) eqn:Ef; [|done]. by apply finish_inactive in Ef; [|apply Hq].
Qed.

Lemma probe_quiet before n r c :
  (forall token e, caEntries c !! token = Some e -> ~ names k token) ->
  request_quiet before n (at_phase r match cacheHit c (rqNow r) (rqToken r) with
                                     | Some acct => Answered acct
                                     | None => Missed
                                     end).
Proof.
  intros Hc Hn. simpl in *. unfold cacheHit. destruct (caEntries c !! rqToken r) as [e|] eqn:E; [|done].
  by destruct (Hc _ _ E).
Qed.

Lemma sweep_incl now l c token e :
  caEntries (fold_left (sweep now) l c) !! token = Some e -> caEntries c !! token = Some e.
Proof.
  revert c. induction l as [|ke l IH]; intros c; simpl; [done|]. intros He%IH. unfold sweep in He.
  destruct (negb _); [|done]. rewrite forget_entries in He. by apply lookup_delete_Some in He as [_ He].
Qed.

Lemma fill_incl c now token acct token' e :
  caEntries (cacheFill c now ttl token acct) !! token' = Some e -> token' = token \/ caEntries c !! token' = Some e.
Proof.
  unfold cacheFill. fold (sweep now). simpl. intros [[<- <-]|[Hne He]]%lookup_insert_Some; [by left|right].
  destruct (_ <? _)%nat; [by eapply sweep_incl|done].
Qed.

Lemma quiet_step before s s' : quiet before s -> auth_step s s' -> quiet before s'.
Proof using char_ids.
  intros (Hok & Hin & Hc & Hr) Hstep. unfold quiet.
  destruct Hstep as [d Hd|db' evs Ha|db' evs Ha|l ev l' Hev|n token Hn|n r Hn Hp|n r Hn Hp|n r i row Hn Hp|n r acct Hn Hp|];
    simpl; (split; [|split; [|split]]); try done.
  - by eapply admin_step_ok.
  - by eapply admin_step_inactive.
  - by eapply admin_step_ok.
  - by eapply admin_step_inactive.
  - intros token e He%evict_entries. by eapply Hc.
  - by apply map_Forall_insert_2.
  - apply map_Forall_insert_2; [by apply probe_quiet|done].
  - apply map_Forall_insert_2; [by apply account_quiet|done].
  - apply map_Forall_insert_2; [apply roles_quiet; [done|by apply Hr]|done].
  - intros token e [-> |He]%fill_incl; [|by eapply Hc]. intros Hk.
    specialize (Hr n r Hn Hk). by rewrite Hp in Hr.
  - apply map_Forall_insert_2; [|done]. intros Hk. specialize (Hr n r Hn Hk). by rewrite Hp in Hr.
Qed.

Lemma quiet_after before s s' : quiet before s -> rtc auth_step s s' -> quiet before s'.
Proof using char_ids. intros Hq. induction 1; [done|]. eauto using quiet_step. Qed.

Lemma run_db_ok db0 t0 past s : db_ok db0 -> auth_run db0 t0 past s -> db_ok (asDB s).
Proof.
  intros Hok. induction 1 as [|past s s' _ IH Hstep]; [done|]. destruct Hstep; simpl; try done; by eapply admin_step_ok.
Qed.

(** C23: a token whose identifier is spelled as tokens are minted, in the canonical
    text of the account's identifier ([names]), is final once revoked: after the
    eviction that follows a revocation has run, with no lookup of the account's
    tokens so spelled under way at that moment, none of them is ever answered again -
    before the cache's lifetime is over as well as after.  The spelling matters: a
    token whose identifier is followed by blanks finds the account too
    ([CHAR(26)] ignores them) but is cached under its own text, which the eviction
    does not find, so it is still answered until its entry expires. *)
Theorem revocation_final db0 t0 past s l l' s' :
  0 < ttl -> admin_reachable db0 -> auth_run db0 t0 past s ->
  inactive k (asDB s) -> asEvictions s = l ++ EvictAccount (ulid_String k) :: l' ->
  (forall n r, asRequests s !! n = Some r -> names k (rqToken r) ->
     match rqPhase r with GotRow _ _ | Looked _ => False | _ => True end) ->
  let evicted := mkAuthSys (asDB s) (evict (asCache s) (EvictAccount (ulid_String k))) (asClock s) (l ++ l') (asRequests s) in
  rtc auth_step evicted s' ->
  forall n r acct, asRequests s' !! n = Some r -> names k (rqToken r) -> rqPhase r = Answered acct ->
    asRequests s !! n = Some r.
Proof using char_ids.
  intros Httl Hdb0 Hrun Hin Hev Hflight evicted Hsteps n r acct Hn Hk Hp.
  destruct (run_fresh _ _ _ _ Httl Hrun) as (Hc & He & _).
  assert (quiet (asRequests s) evicted) as Hq.
  { split; [exact (run_db_ok _ _ _ _ (admin_reachable_ok _ Hdb0) Hrun)|]. split; [done|]. split.
    - intros token e Hte [secret Hs]. simpl in Hte. pose proof (Invalidate_account _ _ _ _ Hc Hte) as Hne.
      apply Invalidate_entries in Hte as [_ Hte]. destruct (He _ _ Hte) as (t & _ & _ & Hv).
      apply vouched_id in Hv as [secret' Hs']. rewrite Hs in Hs'. by injection Hs' as ? ?.
    - intros m q Hm Hkq. specialize (Hflight m q Hm Hkq). revert Hflight. by destruct (rqPhase q). }
  pose proof (quiet_after _ _ _ Hq Hsteps) as (_ & _ & _ & Hr). specialize (Hr n r Hn Hk). by rewrite Hp in Hr.
Qed.
End Revoked.

(** The condition on lookups under way is needed.  A lookup that read the account
    before its revocation, and has not filled the cache when the eviction runs, puts
    it there afterwards: from then on, for as long as the entry lives, every new
    request with the revoked token is answered from the cache - although the
    revocation has been confirmed and its eviction has run. *)
Theorem revoked_token_cached_again db0 t0 past s k l l' n r acct m :
  auth_run db0 t0 past s -> inactive k (asDB s) -> asEvictions s = l ++ EvictAccount (ulid_String k) :: l' ->
  asRequests s !! n = Some r -> rqPhase r = Looked acct -> names k (rqToken r) ->
  asRequests s !! m = None -> asClock s < rqNow r + ttl ->
  let evicted := mkAuthSys (asDB s) (evict (asCache s) (EvictAccount (ulid_String k))) (asClock s) (l ++ l') (asRequests s) in
  auth_step s evicted /\
  exists s', rtc auth_step evicted s' /\ asDB s' = asDB s /\
    asRequests s' !! m = Some (mkRequest (rqToken r) (asClock s) (Answered acct)).
Proof.
  intros Hrun Hin Hev Hn Hp Hk Hm Hclock evicted. split; [by apply auth_evict|].
  assert (n <> m) as Hnm by congruence.
  eexists. split; [|split].
  - eapply rtc_l; [exact (auth_fill evicted n r acct Hn Hp)|].
    eapply rtc_l; [apply (auth_arrive _ m (rqToken r)); simpl; by rewrite lookup_insert_ne|].
    eapply rtc_l; [eapply (auth_probe _ m); [apply lookup_insert_eq|done]|]. apply rtc_refl.
  - done.
  - simpl. rewrite lookup_insert_eq. unfold at_phase, cacheHit, cacheFill. simpl. rewrite lookup_insert_eq. simpl.
    by rewrite (proj2 (Z.ltb_lt _ _) Hclock).
Qed.
End System.
