(* ===== verification/AdminExample.v ===== *)
(** Provisioning and authentication, run: a reviewer's account, its revocation while a
    request is under way, two spellings of one identifier, roles that do not add up,
    and an account read in two parts. *)

From Stdlib Require Import ZArith Lia String Ascii List.
From stdpp Require Import base tactics list gmap fin_maps fin_sets strings option decidable.
From S2P Require Import Prelude GoText Values Ids Attribute Access ServiceAccount ServiceAccountFacts Admin AdminFacts AdminAccess AuthCache.

Open Scope Z_scope.
Open Scope go_scope.

(** ** Parameters: identifiers that parse in either case, a hash, CHAR(26) *)

Module AdminRun.

Fixpoint tally (n : nat) : string := match n with O => EmptyString | S n => String "I" (tally n) end.

#[export] Instance tallies : GoUlid := {
  ulid_String := fun i => String "I" (tally (N.to_nat i));
  ulid_ParseStrict := fun s =>
    if all_bytes (fun c => Ascii.eqb c "I" || Ascii.eqb c "i") s && negb (str_IsZero s)
    then Some (N.of_nat (Nat.pred (String.length s))) else None
}.

#[export] Instance plain_hash : GoHash := { HashSecret := String.append "hash of " }.

Fixpoint rtrim (s : string) : string :=
  match s with
  | EmptyString => EmptyString
  | String c s =>
      let s' := rtrim s in if Ascii.eqb c " " && str_IsZero s' then EmptyString else String c s'
  end.

(** Trailing blanks are insignificant. *)
#[export] Instance blank_padded : GoPgChar := { bpchar_eq := fun a b => bool_decide (rtrim a = rtrim b) }.

Lemma rtrim_tally n : rtrim (tally n) = tally n.
Proof. induction n as [|n IH]; [done|]. simpl. by rewrite IH. Qed.

Lemma tally_length n : String.length (tally n) = n.
Proof. induction n as [|n IH]; [done|]. simpl. by rewrite IH. Qed.

Lemma tally_plain n : all_bytes (fun d => negb (Ascii.eqb "_" d)) (tally n) = true.
Proof. induction n as [|n IH]; [done|]. simpl. exact IH. Qed.

Lemma plain_ulid i : plain_id (ulid_String i).
Proof. split; [done|]. simpl. apply tally_plain. Qed.

Lemma char_refl i : bpchar_eq (ulid_String i) (ulid_String i) = true.
Proof. by apply bool_decide_eq_true. Qed.

Lemma char_ids i j : bpchar_eq (ulid_String i) (ulid_String j) = true -> i = j.
Proof.
  simpl. rewrite bool_decide_eq_true, !rtrim_tally. intros [= E]. apply (f_equal String.length) in E.
  rewrite !tally_length in E. lia.
Qed.

Definition built (r : result AdminDB) : AdminDB := match r with Ok db => db | Err _ => emptyDB end.

Definition with_tenant : AdminDB :=
  built (let! '(db, _) := CreateTenant 1 0 "acme" emptyDB in Ok db).

Definition restricted : gmap string string := {[ "salary"%string := PermNone ]}.

Definition with_role : AdminDB :=
  built (let! '(db, _, _) := UpsertRole 2 0 "acme" "reviewer" "" ["read"%string] restricted with_tenant in Ok db).

Definition asked : CreateAccountInput :=
  mkCreateAccountInput "acme" "mara" ["read"%string] ["reviewer"%string] ∅ "" "".

Definition with_account : AdminDB :=
  built (let! '(db, _) := CreateAccount 3 "s3cret" 0 asked with_role in Ok db).

Definition reviewer_token : string := MintToken (ulid_String 3) "s3cret".

Definition revoked : AdminDB := built (let! '(db, _) := Revoke 5 (ulid_String 3) with_account in Ok db).

Lemma tenant_reachable : admin_reachable with_tenant.
Proof. eapply admin_next; [apply admin_initial|]. eapply (step_create_tenant _ 1 0 "acme"). vm_compute. reflexivity. Qed.

Lemma role_reachable : admin_reachable with_role.
Proof.
  eapply admin_next; [exact tenant_reachable|].
  eapply (step_upsert_role _ 2 0 "acme" "reviewer" "" ["read"%string] restricted). vm_compute. reflexivity.
Qed.

Lemma account_reachable : admin_reachable with_account.
Proof.
  eapply admin_next; [exact role_reachable|]. eapply (step_create_account _ 3 "s3cret" 0 asked). vm_compute. reflexivity.
Qed.

Definition reviewer_account : ServiceAccount :=
  mkServiceAccount 3 "acme" "mara" ["read"%string] ["reviewer"%string] ∅ true 0 0 "hash of s3cret".

Lemma reviewer_stored : dbAccounts with_account !! 3%N = Some reviewer_account.
Proof. vm_compute. reflexivity. Qed.

Definition principal : Account :=
  match AuthenticateDB reviewer_token with_account with Ok a => a | Err _ => mkAccount "" "" "" [] ∅ "" [] end.

Lemma reviewer_authenticates : AuthenticateDB reviewer_token with_account = Ok principal.
Proof. vm_compute. reflexivity. Qed.

(** *** A run of requests *)

Definition ttl : Z := 60.

Inductive event :=
| EvTick (d : Z) | EvArrive (n : nat) (token : string) | EvProbe (n : nat) | EvRead (n : nat) | EvRoles (n : nat)
| EvFill (n : nat) | EvRevoke | EvEvict.

Definition at_request (s : AuthSys) (n : nat) (f : request -> option (Cache * phase)) : option AuthSys :=
  r ← asRequests s !! n;
  cp ← f r;
  Some (mkAuthSys (asDB s) cp.1 (asClock s) (asEvictions s) (<[n := at_phase r cp.2]> (asRequests s))).

Definition exec (s : AuthSys) (e : event) : option AuthSys :=
  match e with
  | EvTick d => if 0 <=? d then Some (mkAuthSys (asDB s) (asCache s) (asClock s + d) (asEvictions s) (asRequests s)) else None
  | EvArrive n token =>
      match asRequests s !! n with
      | Some _ => None
      | None => Some (mkAuthSys (asDB s) (asCache s) (asClock s) (asEvictions s)
                        (<[n := mkRequest token (asClock s) Started]> (asRequests s)))
      end
  | EvProbe n => at_request s n (fun r => match rqPhase r with
      | Started => Some (asCache s, match cacheHit (asCache s) (rqNow r) (rqToken r) with
                                    | Some acct => Answered acct | None => Missed end)
      | _ => None end)
  | EvRead n => at_request s n (fun r => match rqPhase r with
      | Missed => Some (asCache s, afterAccount (readAccount (rqToken r) (asDB s)))
      | _ => None end)
  | EvRoles n => at_request s n (fun r => match rqPhase r with
      | GotRow i row => Some (asCache s, afterRoles (finishAccount i row (readRoles row (asDB s))))
      | _ => None end)
  | EvFill n => at_request s n (fun r => match rqPhase r with
      | Looked acct => Some (cacheFill (asCache s) (rqNow r) ttl (rqToken r) acct, Answered acct)
      | _ => None end)
  | EvRevoke =>
      match Revoke 5 (ulid_String 3) (asDB s) with
      | Ok (db, evs) => Some (mkAuthSys db (asCache s) (asClock s) (asEvictions s ++ evs) (asRequests s))
      | Err _ => None
      end
  | EvEvict =>
      match asEvictions s with
      | ev :: l => Some (mkAuthSys (asDB s) (evict (asCache s) ev) (asClock s) l (asRequests s))
      | [] => None
      end
  end.

Lemma at_request_Some s n f s' :
  at_request s n f = Some s' ->
  exists r c p, asRequests s !! n = Some r /\ f r = Some (c, p) /\
    s' = mkAuthSys (asDB s) c (asClock s) (asEvictions s) (<[n := at_phase r p]> (asRequests s)).
Proof.
  unfold at_request. intros (r & Hr & Hf)%bind_Some. apply bind_Some in Hf as ([c p] & Hf & [= <-]). by exists r, c, p.
Qed.

Lemma exec_step s e s' : exec s e = Some s' -> auth_step ttl s s'.
Proof.
  destruct e as [d|n token|n|n|n|n| |]; simpl.
  - destruct (Z.leb_spec 0 d); [|done]. intros [= <-]. by apply auth_tick.
  - destruct (asRequests s !! n) eqn:E; [done|]. intros [= <-]. by apply auth_arrive.
  - intros (r & c & p & Hr & Hf & ->)%at_request_Some. destruct (rqPhase r) eqn:E; try done.
    injection Hf as <- <-. by apply auth_probe.
  - intros (r & c & p & Hr & Hf & ->)%at_request_Some. destruct (rqPhase r) eqn:E; try done.
    injection Hf as <- <-. by apply auth_read_account.
  - intros (r & c & p & Hr & Hf & ->)%at_request_Some. destruct (rqPhase r) eqn:E; try done.
    injection Hf as <- <-. by apply auth_read_roles.
  - intros (r & c & p & Hr & Hf & ->)%at_request_Some. destruct (rqPhase r) eqn:E; try done.
    injection Hf as <- <-. by apply auth_fill.
  - destruct (Revoke _ _ _) as [[db evs]|] eqn:E; [|done]. intros [= <-]. eapply auth_admin, step_revoke, E.
  - destruct (asEvictions s) as [|ev l] eqn:E; [done|]. intros [= <-]. by apply (auth_evict _ _ [] ev l).
Qed.

Fixpoint play (past : list AuthSys) (s : AuthSys) (es : list event) : option (list AuthSys * AuthSys) :=
  match es with
  | [] => Some (past, s)
  | e :: es => s' ← exec s e; play (s :: past) s' es
  end.

Lemma play_run db0 t0 past s es out :
  auth_run ttl db0 t0 past s -> play past s es = Some out -> auth_run ttl db0 t0 out.1 out.2.
Proof.
  revert past s. induction es as [|e es IH]; intros past s Hrun; simpl; [by intros [= <-]|].
  intros (s' & He & Hp)%bind_Some. eapply IH; [|exact Hp]. eapply run_next; [done|by eapply exec_step].
Qed.

Definition story (es : list event) : list AuthSys * AuthSys :=
  default ([], initial with_account 0) (play [] (initial with_account 0) es).

Lemma story_run es : isSome (play [] (initial with_account 0) es) = true ->
  auth_run ttl with_account 0 (story es).1 (story es).2.
Proof.
  unfold story. destruct (play _ _ _) as [out|] eqn:E; [|done]. intros _. eapply play_run; [apply run_start|exact E].
Qed.
End AdminRun.
Import AdminRun.

(** ** Witnesses *)

Lemma provisioning_sound_witness :
  exists j r, dbRoles with_account !! j = Some r /\ roTenantID r = "acme"%string /\ roName r = "reviewer"%string.
Proof.
  destruct (provisioning_sound with_account account_reachable) as (_ & _ & _ & _ & Ha).
  apply (proj2 (Ha 3%N reviewer_account reviewer_stored) "reviewer"%string). apply list_elem_of_singleton. reflexivity.
Defined.

Lemma char_one i j t :
  bpchar_eq (ulid_String i) t = true -> bpchar_eq (ulid_String j) t = true -> i = j.
Proof.
  intros Hi%bool_decide_eq_true Hj%bool_decide_eq_true. apply char_ids, bool_decide_eq_true. congruence.
Qed.

Lemma effective_permissions_exact_witness :
  acID principal = ulid_String 3 /\ exists k a, presents with_account reviewer_token (ulid_String 3) k a.
Proof.
  destruct (effective_permissions_exact char_one with_account reviewer_token account_reachable) as [_ Hex].
  destruct (Hex principal reviewer_authenticates) as (i & k & a & Hp & Hi & _). rewrite Hi.
  assert (i = ulid_String 3) as -> by (rewrite <- Hi; vm_compute; reflexivity).
  split; [reflexivity|]. exists k, a. exact Hp.
Defined.

Lemma effective_view_exact_witness :
  exists v, EffectiveAccount (ulid_String 3) with_account = Ok v /\ evFieldPermissions v = acFieldPermissions principal.
Proof.
  destruct (effective_view_exact with_account reviewer_token principal 3 account_reachable reviewer_authenticates)
    as (v & Hv & _ & _ & Hp & _); [vm_compute; reflexivity|vm_compute; reflexivity|]. exists v. split; [exact Hv|exact Hp].
Defined.

Lemma table_check {A} `{Countable K} (f : A -> bool) (m : gmap K A) n q :
  forallb f (values m) = true -> m !! n = Some q -> f q = true.
Proof. rewrite forallb_forall. intros Hall Hq. apply Hall, list_elem_of_In, values_elem. by exists n. Qed.

Lemma minted_token_authenticates_witness :
  saRoles reviewer_account = ["reviewer"%string] /\
  exists p, AuthenticateDB reviewer_token with_account = Ok p /\ acTenantID p = "acme"%string.
Proof.
  destruct (minted_token_authenticates plain_ulid char_refl char_ids with_role 3 "s3cret" 0 asked with_account
    reviewer_account reviewer_token role_reachable)
    as (_ & _ & _ & _ & _ & Hr & _ & (p & Hp & _ & Ht & _) & _); [done|vm_compute; reflexivity| |].
  - intros j t Hj _. refine (table_check tnActive (dbTenants with_role) j t _ Hj). vm_compute. reflexivity.
  - split; [exact Hr|]. exists p. split; [exact Hp|exact Ht].
Defined.

Definition answered_once : list event :=
  [EvArrive 0 reviewer_token; EvProbe 0; EvRead 0; EvRoles 0; EvFill 0; EvTick 10; EvArrive 1 reviewer_token; EvProbe 1].

Lemma answered_once_runs : auth_run ttl with_account 0 (story answered_once).1 (story answered_once).2.
Proof. apply story_run. vm_compute. reflexivity. Qed.

Lemma authentication_fresh_witness :
  exists r acct, asRequests (story answered_once).2 !! 1%nat = Some r /\ rqPhase r = Answered acct /\
    exists s1, s1 ∈ (story answered_once).2 :: (story answered_once).1 /\ rqNow r - ttl < asClock s1.
Proof.
  assert (exists r, asRequests (story answered_once).2 !! 1%nat = Some r /\ rqPhase r = Answered principal) as (r & Hr & Hp)
    by (eexists; split; vm_compute; reflexivity).
  exists r, principal. split; [exact Hr|]. split; [exact Hp|].
  destruct (authentication_fresh ttl with_account 0 _ _ 1 r principal eq_refl answered_once_runs Hr Hp)
    as (s1 & s2 & i & secret & k & a & H1 & _ & Ht & _). exists s1. split; [exact H1|exact Ht].
Defined.

(** A revocation with nothing under way. *)
Definition revoked_quietly : list event := answered_once ++ [EvRevoke].

Lemma revoked_quietly_runs : auth_run ttl with_account 0 (story revoked_quietly).1 (story revoked_quietly).2.
Proof. apply story_run. vm_compute. reflexivity. Qed.

Lemma inactive_check (k : ID) db : bool_decide (saActive <$> dbAccounts db !! k = Some false) = true -> inactive k db.
Proof. intros (a & Ha & Hk)%bool_decide_eq_true%fmap_Some. by exists a. Qed.

Definition idle (r : request) : bool := match rqPhase r with GotRow _ _ | Looked _ => false | _ => true end.

Lemma revocation_final_witness :
  exists s', rtc (auth_step ttl)
    (mkAuthSys (asDB (story revoked_quietly).2) (evict (asCache (story revoked_quietly).2) (EvictAccount (ulid_String 3)))
       (asClock (story revoked_quietly).2) ([] ++ []) (asRequests (story revoked_quietly).2)) s' /\
    forall r acct, asRequests s' !! 2%nat = Some r -> names 3 (rqToken r) -> rqPhase r <> Answered acct.
Proof.
  eexists. split; [apply rtc_refl|]. intros r acct Hr Hn Hp.
  assert (asRequests (story revoked_quietly).2 !! 2%nat = Some r) as Hold.
  { refine (revocation_final ttl 3 char_ids with_account 0 _ _ [] [] _ eq_refl account_reachable revoked_quietly_runs
      _ _ _ (rtc_refl _ _) 2 r acct Hr Hn Hp).
    - apply inactive_check. vm_compute. reflexivity.
    - vm_compute. reflexivity.
    - intros n q Hq _.
      assert (idle q = true) as Hi by (refine (table_check idle _ n q _ Hq); vm_compute; reflexivity).
      unfold idle in Hi. destruct (rqPhase q); try exact I; discriminate Hi. }
  assert (asRequests (story revoked_quietly).2 !! 2%nat = None) as Hnone by (vm_compute; reflexivity).
  rewrite Hnone in Hold. discriminate Hold.
Defined.

(** A lookup that read the account before the revocation, and fills the cache after it. *)
Definition overtaken : list event :=
  [EvArrive 0 reviewer_token; EvProbe 0; EvRead 0; EvRoles 0; EvTick 1; EvRevoke].

Lemma overtaken_runs : auth_run ttl with_account 0 (story overtaken).1 (story overtaken).2.
Proof. apply story_run. vm_compute. reflexivity. Qed.

Lemma revoked_token_cached_again_witness :
  exists s', asRequests s' !! 1%nat = Some (mkRequest reviewer_token 1 (Answered principal)) /\ inactive 3 (asDB s').
Proof.
  assert (inactive 3 (asDB (story overtaken).2)) as Hin by (apply inactive_check; vm_compute; reflexivity).
  assert (exists r, asRequests (story overtaken).2 !! 0%nat = Some r /\ rqPhase r = Looked principal /\
    rqToken r = reviewer_token /\ rqNow r = 0) as (r & Hr & Hp & Ht & Hz) by (eexists; repeat split; vm_compute; reflexivity).
  destruct (revoked_token_cached_again ttl with_account 0 _ _ 3 [] [] 0 r principal 1 overtaken_runs Hin)
    as [_ (s' & _ & Hdb & Hs')]; [vm_compute; reflexivity|exact Hr|exact Hp| |vm_compute; reflexivity| |].
  - rewrite Ht. exists "s3cret"%string. vm_compute. reflexivity.
  - rewrite Hz. vm_compute. reflexivity.
  - exists s'. rewrite Hdb. split; [|exact Hin]. rewrite Hs', Ht. reflexivity.
Defined.

(** ** Where code and documentation part *)

(** Roles are said to add up: "holding two roles is holding what either allows".  One
    that lists nothing lets its holder read the salary; held with one that hides it,
    it does not. *)
Definition open_grant : RoleGrant := mkGrant "open" ["read"%string] ∅.
Definition reviewer_grant : RoleGrant := mkGrant "reviewer" ["read"%string] restricted.
Definition nobody : Account := mkAccount "I" "" "acme" [] ∅ "" [].

Lemma roles_do_not_add_up :
  let grants := [open_grant; reviewer_grant] in
  CanRead (accessFor (Resolve nobody ["open"%string] grants)) "salary" = true /\
  CanRead (accessFor (Resolve nobody ["open"%string; "reviewer"%string] grants)) "salary" = false.
Proof. split; vm_compute; reflexivity. Qed.

(** The identifier of a token may be followed by blanks, which CHAR(26) ignores: the
    account is cached under the text it was asked by, and the eviction of its
    revocation, by the canonical text, does not find it. *)
Definition padded_token : string := MintToken (String.append (ulid_String 3) " ") "s3cret".

Definition padded : list event :=
  [EvArrive 0 padded_token; EvProbe 0; EvRead 0; EvRoles 0; EvFill 0; EvRevoke; EvEvict; EvTick 10;
   EvArrive 1 padded_token; EvProbe 1].

Lemma padded_token_survives :
  auth_run ttl with_account 0 (story padded).1 (story padded).2 /\
  asEvictions (story padded).2 = [] /\ inactive 3 (asDB (story padded).2) /\
  exists acct, (rqPhase <$> asRequests (story padded).2 !! 1%nat) = Some (Answered acct).
Proof.
  split; [apply story_run; vm_compute; reflexivity|]. split; [vm_compute; reflexivity|].
  split; [apply inactive_check; vm_compute; reflexivity|]. eexists. vm_compute. reflexivity.
Qed.

(** A bootstrap token whose identifier is spelled in lower case is accepted, reported
    as created, and authenticates nobody. *)
Definition spelled_token : string := MintToken "iii" "a-secret-of-thirty-two-characters".

Lemma bootstrap_in_lower_case :
  let out := BootstrapAdminWithToken 1 9 "" 0 "acme" "root" spelled_token emptyDB in
  out.2 = Ok true /\ size (dbAccounts out.1) = 1%nat /\
  AuthenticateDB spelled_token out.1 = Err (VerifyOnlyTiming "a-secret-of-thirty-two-characters").
Proof. split_and!; vm_compute; reflexivity. Qed.

(** The two statements of a lookup may see different tables.  The operator first gives
    the account an exception that hides the salary, then lifts the restriction of its
    role; at no moment may the account read the salary, but a lookup that reads its
    row before and its role after may. *)
Definition excepted : AdminDB := built (let! '(db, _) := AssignRoles 6 (ulid_String 3) ["reviewer"%string] restricted with_account in Ok db).
Definition lifted : AdminDB := built (let! '(db, _, _) := UpsertRole 8 7 "acme" "reviewer" "" ["read"%string] ∅ excepted in Ok db).

Definition may_read_salary (r : result Account) : option bool :=
  match r with Ok acct => Some (CanRead (accessFor acct) "salary") | Err _ => None end.

Definition torn : result Account :=
  let! '(i, row) := readAccount reviewer_token with_account in finishAccount i row (readRoles row lifted).

Lemma torn_lookup_widens :
  may_read_salary (AuthenticateDB reviewer_token with_account) = Some false /\
  may_read_salary (AuthenticateDB reviewer_token excepted) = Some false /\
  may_read_salary (AuthenticateDB reviewer_token lifted) = Some false /\
  may_read_salary torn = Some true.
Proof. split_and!; vm_compute; reflexivity. Qed.
