(* ===== verification/ImportExport.v ===== *)
(** Tabular import and export of attribute values
    ([application/value/importexport.go]): the cell format, the resolution of a
    header against a type's schema, the write through the import cache, the
    transactional and the best-effort commit with its fallback, and the export.

    A Go map that the code ranges over ([Mapping]) is the list of its entries in
    the order of that iteration, which the language leaves open.  The identifiers
    a run draws are [fresh 0], [fresh 1], ...; each unit of work takes the next
    ones, also when it is rolled back. *)

From Stdlib Require Import ZArith Lia String Ascii List SpecFloat.
From stdpp Require Import base tactics list gmap fin_maps fin_sets strings option decidable pretty.
From S2P Require Import Prelude GoText Values Ids Attribute Access TypeDef Units Pagination.
From S2P Require Import Dependency ValueWrite AttributeWrite Computed Query DependencyWrite.

Open Scope Z_scope.
Open Scope go_scope.

(** The JSON of cells and the display forms of numbers and instants. *)
Class GoCells := {
  (** [utf8.ValidString] *)
  utf8_Valid : string -> bool;
  (** [json.Marshal] of a raw message: compacted, [<], [>] and [&] escaped *)
  json_Reencode : string -> string;
  (** [json.Unmarshal] into a list of members: the text of "value" (empty when
      absent), "locale", "channel" *)
  json_UnmarshalEntries : string -> option (list (string * string * string));
  (** [json.Unmarshal] into an object whose "values" is such a list *)
  json_UnmarshalTagged : string -> option (list (string * string * string));
  (** [json.Marshal] of such a list; empty locales and channels are left out *)
  json_MarshalEntries : list (string * string * string) -> string;
  (** [json.Marshal] of a quantity: magnitude, unit, base *)
  json_MarshalQuantity : string -> string -> spec_float -> string;
  (** The JSON text a media value holds *)
  media_Text : MediaMeta -> string;
  (** [strconv.FormatFloat(f, 'g', -1, 64)] *)
  FormatFloatG : spec_float -> string;
  (** [t.Format(layout)] of an instant in UTC *)
  time_Format : TimeLayout -> Z -> string
}.

Definition maxImportRows : nat := 5000.
Definition maxExportRows : Z := 10000.
Definition importChunkSize : nat := 100.

(** ** The import cache *)

(** Present for the length of one unit of work; [cachedValues] holds pointers,
    which an update changes in place. *)
Record ImportCache := mkCache {
  cachedDefs : gmap ID AttrDefinition;
  cachedDeps : gmap ID (list Dependency);
  cachedValues : gmap EntityID (list AttributeValue) }.

Definition newImportCache : ImportCache := mkCache ∅ ∅ ∅.

Definition set_values (m : ImportCache) (vs : gmap EntityID (list AttributeValue)) : ImportCache :=
  mkCache (cachedDefs m) (cachedDeps m) vs.

(** [recordImportedValue] *)
Definition recordImportedValue (entity : EntityID) (av : AttributeValue) (m : ImportCache) : ImportCache :=
  set_values m (<[entity := default [] (cachedValues m !! entity) ++ [av]]> (cachedValues m)).

(** [prefetch] *)
Definition prefetch (T : Tables) (tenant : TenantID) (ids : list EntityID) (m : ImportCache) : ImportCache :=
  fold_left (fun m av => recordImportedValue (avEntityID av) av m)
    (if bool_decide (length ids = 0%nat) then [] else ListByEntities T tenant ids) (set_values m ∅).

Definition lockDefinition (T : Tables) (defID : ID) (m : ImportCache) : result (ImportCache * AttrDefinition) :=
  match cachedDefs m !! defID with
  | Some def => Ok (m, def)
  | None =>
      let! def := AttrGet T defID in
      Ok (mkCache (<[defID := def]> (cachedDefs m)) (cachedDeps m) (cachedValues m), def)
  end.

Definition targetingDependencies (T : Tables) (target : ID) (m : ImportCache) : ImportCache * list Dependency :=
  match cachedDeps m !! target with
  | Some ds => (m, ds)
  | None =>
      let ds := ListByTarget T target in
      (mkCache (cachedDefs m) (<[target := ds]> (cachedDeps m)) (cachedValues m), ds)
  end.

Definition existingValues (defID : ID) (entity : EntityID) (m : ImportCache) : list AttributeValue :=
  List.filter (fun av => bool_decide (avAttrID av = defID)) (default [] (cachedValues m !! entity)).

(** [UpdateValue] through the pointer the cache holds. *)
Definition updateCached (entity : EntityID) (av : AttributeValue) (m : ImportCache) : ImportCache :=
  set_values m (alter (fmap (fun r => if bool_decide (avID r = avID av) then av else r)) entity (cachedValues m)).

(** ** Rows *)

Record preparedRow := mkRow { pRow : nat; pInputs : list SetInput }.

Definition rowEntity (p : preparedRow) : EntityID :=
  match pInputs p with [] => EmptyString | i :: _ => siEntityID i end.

Definition ImportMode := string.
Definition ImportBestEffort : ImportMode := "best_effort".
Definition ImportTransactional : ImportMode := "transactional".

Record ImportInput := mkImport {
  imTypeDefinitionID : string;
  KeyColumn : string;
  Mapping : list (string * string);
  Columns : list string;
  Rows : list (list string);
  Mode : ImportMode;
  DryRun : bool;
  AllowLegacy : bool }.

(** [Row] 0 is the header. *)
Record ImportError := mkImportError { erRow : nat; erColumn : string; erAttribute : string; Reason : string }.

Record ImportReport := mkReport {
  RowsTotal : nat;
  RowsValid : nat;
  RowsWritten : nat;
  rpDryRun : bool;
  rpMode : ImportMode;
  Errors : list ImportError }.

Definition importErrorFrom (row : nat) (e : Error) : ImportError := mkImportError row "" "" (Message e).

Record mappedColumn := mkColumn {
  mcIndex : nat;
  mcColumn : string;
  mcAttrID : ID;
  mcAttrName : string;
  mcType : DataType;
  mcRequired : bool }.

(** [entityChunks]: how far a chunk that ends in [last] goes on. *)
Fixpoint sameEntity (last : EntityID) (rows : list preparedRow) : nat :=
  match rows with
  | p :: rows => if bool_decide (rowEntity p = last) then S (sameEntity last rows) else O
  | [] => O
  end.

Definition chunkEnd (rows : list preparedRow) : nat :=
  let n := Nat.min importChunkSize (length rows) in
  match list.last (take n rows) with
  | Some p => (n + sameEntity (rowEntity p) (drop n rows))%nat
  | None => n
  end.

Fixpoint chunksFrom (fuel : nat) (rows : list preparedRow) : list (list preparedRow) :=
  match fuel, rows with
  | S fuel, _ :: _ => take (chunkEnd rows) rows :: chunksFrom fuel (drop (chunkEnd rows) rows)
  | _, _ => []
  end.

Definition entityChunks (valid : list preparedRow) : list (list preparedRow) :=
  chunksFrom (length valid) valid.

(** [groupByEntity] *)
Definition groupByEntity (chunk : list preparedRow) : list (list preparedRow) :=
  (fold_left (fun '(index, out) p =>
     match index !! rowEntity p with
     | None => (<[rowEntity p := length out]> index, out ++ [[p]])
     | Some at_ => (index, alter (fun g => g ++ [p]) at_ out)
     end) chunk (∅ : gmap EntityID nat, [])).2.

(** [rowOfEntity]; 0 when there is none. *)
Definition rowOfEntity (valid : list preparedRow) (entity : string) : nat :=
  if str_IsZero entity then O
  else match List.find (fun p => bool_decide (rowEntity p = entity)) valid with
       | Some p => pRow p
       | None => O
       end.

(** [preparedEntityIDs]: the round of its loop, over [seen] and [ids]. *)
Definition idStep (acc : gset string * list EntityID) (i : SetInput) : gset string * list EntityID :=
  if bool_decide (siEntityID i ∈ acc.1) then acc
  else ({[siEntityID i]} ∪ acc.1,
        match ParseEntityID (siEntityID i) with Ok e => acc.2 ++ [e] | Err _ => acc.2 end).

Definition inputsOf (rows : list preparedRow) : list SetInput := mjoin (pInputs <$> rows).

Definition preparedEntityIDs (rows : list preparedRow) : list EntityID :=
  (fold_left idStep (inputsOf rows) (∅, [])).2.

(** ** The write through the cache *)

Section Importing.
Context `{GoStd} `{GoUlid} `{GoNumeric} `{GoQuery} `{GoJsonFloat} `{GoCells}.

(** The write itself, the rows found in the cache and the cache kept in step. *)
Definition insertImported (T : Tables) (c : Collector) (m : ImportCache) (def : AttrDefinition)
    (entityType : ID) (entity : EntityID) (scope : Scope) (v : Value) (fresh : ID) (now : Z)
    (existing : list AttributeValue) : result (Tables * Collector * ImportCache) :=
  match List.find (fun av => Equal (avValue av) v) existing with
  | Some _ => Ok (T, c, m)
  | None =>
      let! r := AvNew def entityType entity scope v fresh now in
      Ok (AvSave T r.1, collect r.2 (mkChange (avID r.1) ActionCreated None (Some r.1)) [] c,
          recordImportedValue entity r.1 m)
  end.

Definition upsertImported (T : Tables) (c : Collector) (m : ImportCache) (def : AttrDefinition)
    (entityType : ID) (entity : EntityID) (scope : Scope) (v : Value) (fresh : ID) (now : Z) :
    result (Tables * Collector * ImportCache) :=
  let existing := List.filter (fun av => ScopeEquals (avScope av) scope)
    (existingValues (id def) entity m) in
  match existing with
  | av :: _ =>
      if multiValued def then insertImported T c m def entityType entity scope v fresh now existing
      else
        let! r := UpdateValue av def v now in
        if bool_decide (length r.2 = 0%nat) then Ok (T, c, m)
        else
          let gc := if bool_decide (dataType (avValue av) = DataTypeMedia) &&
                       negb (bool_decide (ObjectKey (Media (avValue av)) = ObjectKey (Media (avValue r.1))))
                    then [(avID av, avValue av)] else [] in
          Ok (AvSave T r.1, collect r.2 (mkChange (avID r.1) ActionUpdated (Some av) (Some r.1)) gc c,
              updateCached entity r.1 m)
  | [] => insertImported T c m def entityType entity scope v fresh now existing
  end.

(** [setWithin], an import's cache on the context. *)
Definition setImported (rq : Request) (i : SetInput) (fresh : ID) (T : Tables) (c : Collector)
    (m : ImportCache) : result (Tables * Collector * ImportCache) :=
  match ParseID (siAttributeDefinitionID i), ParseEntityID (siEntityID i) with
  | Err e, _ | _, Err e => Err (NewValidation (Message e))
  | Ok defID, Ok entity =>
      guard! str_IsZero (siValue i) || bool_decide (siValue i = "null")
        else NewValidation "value is required" then
      let! '(m, def) := lockDefinition T defID m in
      let '(m, targeting) := targetingDependencies T (id def) m in
      let! '(T, c, (entityType, v)) := admitWrite rq i def entity targeting T c in
      upsertImported T c m def entityType entity (mkScope (siLocale i) (siChannel i)) v fresh (rqNow rq)
  end.

(** ** Units of work *)

(** The writes of some rows, each with the number of its row. *)
Definition rowWrites (rows : list preparedRow) : list (nat * SetInput) :=
  mjoin ((fun p => (fun i => (pRow p, i)) <$> pInputs p) <$> rows).

(** The loop over the rows and their inputs; the identifiers from [n] on.  A
    refusal comes with the row it happened at. *)
Fixpoint writeRows (rq : Request) (items : list (nat * SetInput)) (fresh : nat -> ID) (n : nat)
    (T : Tables) (c : Collector) (m : ImportCache) : (Tables * Collector) + (nat * Error) :=
  match items with
  | [] => inl (T, c)
  | (row, i) :: items =>
      match setImported rq i (fresh n) T c m with
      | Err e => inr (row, e)
      | Ok (T, c, m) => writeRows rq items fresh (S n) T c m
      end
  end.

(** What [writeChunk] and [importTransactional] run: the cache, then the rows in
    canonical order. *)
Definition writeAll (rq : Request) (rows : list preparedRow) (fresh : nat -> ID) (n : nat)
    (T : Tables) (c : Collector) : (Tables * Collector) + (nat * Error) :=
  let m := prefetch T (rqTenant rq) (preparedEntityIDs rows) newImportCache in
  writeRows rq (rowWrites (canonicalOrder rowEntity rows).*2) fresh n T c m.

Definition asResult (r : (Tables * Collector) + (nat * Error)) : result (Tables * Collector * unit) :=
  match r with inl (T, c) => Ok (T, c, tt) | inr (_, e) => Err e end.

(** [writeChunk] *)
Definition writeChunk (rq : Request) (rows : list preparedRow) (fresh : nat -> ID) (n : nat)
    (T : Tables) : result (Tables * Collector * unit) :=
  Execute rq (fun T c => asResult (writeAll rq rows fresh n T c)) T.

(** The detail "entity" of the error of the check at the end of the unit of
    work: a refused demand names the entity, a missing row the kind of row. *)
Fixpoint refusedEntity (T : Tables) (rq : Request) (g : Gate) (blocking : list Dependency)
    (refs : list EntityRef) : string :=
  match refs with
  | [] => EmptyString
  | ref :: refs =>
      match enforceRef T rq g blocking ref with
      | Ok _ => refusedEntity T rq g blocking refs
      | Err e =>
          match ErrorCode e with
          | CodeDependency => refEntity ref
          | CodeNotFound => TypeAggregate
          | _ => EmptyString
          end
      end
  end.

Definition detailEntity (rq : Request) (T : Tables) (c : Collector) : string :=
  match gate c with
  | Some g =>
      match order g with
      | [] => EmptyString
      | first :: _ => refusedEntity T rq g (ListEnforcedOnWrite T (refTenant first)) (order g)
      end
  | None => EmptyString
  end.

Definition numbered (n : nat) (inputs : list SetInput) : list (nat * SetInput) :=
  imap (fun k i => ((n + k)%nat, i)) inputs.

(** [applyRow]: a unit of work without a cache.  The sentinel of a dry run rolls
    back what passed the checks. *)
Definition applyRow (rq : Request) (inputs : list SetInput) (commit : bool) (fresh : nat -> ID) (n : nat)
    (T : Tables) : result (Tables * list Collector) :=
  if bool_decide (length inputs = 0%nat) then Ok (T, [])
  else
    let! r := Execute rq (fun T c => setEach rq (numbered n inputs) fresh T c []) T in
    if commit then Ok (r.1.1, [r.1.2]) else Ok (T, []).

(** ** Runs *)

(** The tables, the collectors of the committed units, the next identifier, and
    the report: [erroredRows], [RowsWritten], [Errors]. *)
Record Run := mkRun {
  rnTables : Tables;
  rnCommitted : list Collector;
  rnNext : nat;
  erroredRows : gset nat;
  rnWritten : nat;
  rnErrors : list ImportError }.

(** [importTransactional] *)
Definition importTransactional (rq : Request) (valid : list preparedRow) (fresh : nat -> ID) (s : Run) : Run :=
  if negb (bool_decide (length (rnErrors s) = 0%nat)) then s
  else
    let T := rnTables s in
    let body := writeAll rq valid fresh (rnNext s) in
    match Execute rq (fun T c => asResult (body T c)) T with
    | Ok (T', c, _) =>
        mkRun T' (rnCommitted s ++ [c]) (rnNext s + length (inputsOf valid))
          (erroredRows s) (length valid) (rnErrors s)
    | Err e =>
        let failedRow := match body T newCollector with
                         | inr (row, _) => row
                         | inl (T', c) => rowOfEntity valid (detailEntity rq T' c)
                         end in
        mkRun T (rnCommitted s) (rnNext s + length (inputsOf valid))
          (if bool_decide (failedRow = 0%nat) then erroredRows s else {[failedRow]} ∪ erroredRows s)
          (rnWritten s) (rnErrors s ++ [importErrorFrom failedRow e])
    end.

(** The rows of one entity, in a unit of work of their own. *)
Definition retryEntity (rq : Request) (fresh : nat -> ID) (s : Run) (rows : list preparedRow) : Run :=
  let next := (rnNext s + length (inputsOf rows))%nat in
  match applyRow rq (inputsOf rows) true fresh (rnNext s) (rnTables s) with
  | Ok (T', cs) =>
      mkRun T' (rnCommitted s ++ cs) next (erroredRows s) (rnWritten s + length rows) (rnErrors s)
  | Err e =>
      mkRun (rnTables s) (rnCommitted s) next (list_to_set (pRow <$> rows) ∪ erroredRows s) (rnWritten s)
        (rnErrors s ++ ((fun p => importErrorFrom (pRow p) e) <$> rows))
  end.

Definition importGroup (rq : Request) (fresh : nat -> ID) (s : Run) (group : list preparedRow) : Run :=
  let next := (rnNext s + length (inputsOf group))%nat in
  match writeChunk rq group fresh (rnNext s) (rnTables s) with
  | Ok (T', c, _) =>
      mkRun T' (rnCommitted s ++ [c]) next (erroredRows s) (rnWritten s + length group) (rnErrors s)
  | Err _ =>
      fold_left (retryEntity rq fresh) (groupByEntity group)
        (mkRun (rnTables s) (rnCommitted s) next (erroredRows s) (rnWritten s) (rnErrors s))
  end.

(** [importBestEffort] *)
Definition importBestEffort (rq : Request) (valid : list preparedRow) (fresh : nat -> ID) (s : Run) : Run :=
  fold_left (importGroup rq fresh) (entityChunks valid) s.

(** ** Cells *)

(** [cellEntry]: the text of its value, its locale, its channel. *)
Definition cellEntry : Type := string * string * string.
Definition entryValue (e : cellEntry) : string := e.1.1.
Definition entryLocale (e : cellEntry) : string := e.1.2.
Definition entryChannel (e : cellEntry) : string := e.2.

(** [text]: [null] decodes into a string as the empty one. *)
Definition entryText (e : cellEntry) : string :=
  match json_Unmarshal (entryValue e) with
  | Some (JString s) => s
  | Some JNull => EmptyString
  | _ => entryValue e
  end.

Definition multiValueCellPrefix : string := "#flexitype-values:".

Definition someEntries (entries : list cellEntry) : option (list cellEntry) :=
  if existsb (fun e => str_IsZero (entryValue e)) entries || bool_decide (length entries = 0%nat)
  then None else Some entries.

Definition decodeCellEntries (raw : string) : option (list cellEntry) :=
  json_UnmarshalEntries (TrimSpace raw) ≫= someEntries.

Definition scopedCell (cell : string) (dt : DataType) (allowLegacy : bool) : option (list cellEntry) :=
  let trimmed := TrimSpace cell in
  match CutPrefix trimmed multiValueCellPrefix with
  | Some rest => decodeCellEntries rest
  | None =>
      if negb allowLegacy then None
      else if bool_decide (dt = DataTypeJSON) then None
      else if isSome (CutPrefix trimmed "{") then json_UnmarshalTagged trimmed ≫= someEntries
      else if negb (isSome (CutPrefix trimmed "[")) then None
      else decodeCellEntries trimmed
  end.

(** [strconv.ParseBool] *)
Definition ParseBool (s : string) : option bool :=
  if bool_decide (s ∈ ["1"; "t"; "T"; "TRUE"; "true"; "True"]%string) then Some true
  else if bool_decide (s ∈ ["0"; "f"; "F"; "FALSE"; "false"; "False"]%string) then Some false
  else None.

Definition bool_text (b : bool) : string := if b then "true" else "false".

(** NaN and the infinities have no JSON. *)
Definition finite (f : spec_float) : bool :=
  match f with S754_zero _ | S754_finite _ _ _ => true | _ => false end.

Definition cellToRaw (dt : DataType) (cell : string) : result string :=
  match dt with
  | DataTypeBool =>
      match ParseBool cell with
      | Some b => Ok (bool_text b)
      | None => Err (NewValidation "expected a boolean (true/false)")
      end
  | DataTypeInteger =>
      match ParseInt cell with
      | Some n => Ok (pretty n)
      | None => Err (NewValidation "expected an integer")
      end
  | DataTypeFloat =>
      match strconv_ParseFloat cell with
      | Some f =>
          guard! negb (finite f) else Errorf "json: unsupported value" then Ok (json_Float f)
      | None => Err (NewValidation "expected a number")
      end
  | DataTypeJSON | DataTypeMedia | DataTypeQuantity =>
      match json_Unmarshal cell with
      | Some _ => Ok cell
      | None => Err (NewValidation "expected a JSON document")
      end
  | _ => Ok (json_MarshalString cell)
  end.

Definition cellInput (typeID : string) (c : mappedColumn) (entity : string) (locale channel raw : string) :
    SetInput :=
  mkSetInput (ulid_String (mcAttrID c)) entity typeID locale channel raw false false.

Definition cellError (c : mappedColumn) (row : nat) (reason : string) : ImportError :=
  mkImportError row (mcColumn c) (mcAttrName c) reason.

Definition cellOutcome (typeID : string) (c : mappedColumn) (entity : string) (row : nat)
    (locale channel text : string) : list SetInput * list ImportError :=
  match cellToRaw (mcType c) text with
  | Ok raw => ([cellInput typeID c entity locale channel raw], [])
  | Err e => ([], [cellError c row (Message e)])
  end.

Definition both {A B} (a b : list A * list B) : list A * list B := (a.1 ++ b.1, a.2 ++ b.2).

(** One cell of a row. *)
Definition cellInputs (typeID : string) (allowLegacy : bool) (entity : string) (rowNum : nat)
    (row : list string) (c : mappedColumn) : list SetInput * list ImportError :=
  match row !! mcIndex c with
  | None => ([], [])
  | Some cell =>
      if str_IsZero cell then
        ([], if mcRequired c then [cellError c rowNum "value is required"] else [])
      else
        match scopedCell cell (mcType c) allowLegacy with
        | Some entries =>
            foldr (fun e => both (cellOutcome typeID c entity rowNum (entryLocale e) (entryChannel e)
              (entryText e))) ([], []) entries
        | None => cellOutcome typeID c entity rowNum EmptyString EmptyString cell
        end
  end.

(** [rowInputs] *)
Definition rowInputs (typeID : string) (cols : list mappedColumn) (keyIdx rowNum : nat)
    (row : list string) (allowLegacy : bool) : list SetInput * list ImportError :=
  let entity := default EmptyString (row !! keyIdx) in
  if str_IsZero entity then
    ([], [mkImportError rowNum "" "" "missing entity id (key column is empty)"])
  else
    let out := foldr (fun c => both (cellInputs typeID allowLegacy entity rowNum row c)) ([], []) cols in
    if bool_decide (length out.2 = 0%nat) then (out.1, []) else ([], out.2).

(** ** The header *)

(** The first attribute of each internal name, the subtype's before its
    ancestors'. *)
Definition firstNamed (l : list AttrDefinition) : gmap string AttrDefinition :=
  fold_left (fun m a => match m !! internalName a with
                        | Some _ => m | None => <[internalName a := a]> m end) l ∅.

(** The last column of each name. *)
Definition columnIndex (columns : list string) : gmap string nat :=
  fold_left (fun m p => <[p.2 := p.1]> m) (imap pair columns) ∅.

Fixpoint bindColumns (colIndex : gmap string nat) (byName : gmap string AttrDefinition)
    (mapping : list (string * string)) : result (list mappedColumn) :=
  match mapping with
  | [] => Ok []
  | (column, attrName) :: mapping =>
      match colIndex !! column with
      | None => Err (NewValidation "mapped column not present in the header")
      | Some idx =>
          match byName !! attrName with
          | None => Err (NewValidation "mapped attribute not in the type schema")
          | Some a =>
              let! cols := bindColumns colIndex byName mapping in
              Ok (mkColumn idx column (id a) (internalName a) (attrType a) (required a) :: cols)
          end
      end
  end.

(** [resolveMapping] *)
Definition resolveMapping (rq : Request) (T : Tables) (im : ImportInput) :
    result (list mappedColumn * nat) :=
  match ParseID (imTypeDefinitionID im) with
  | Err e => Err (NewValidation (Message e))
  | Ok typeID =>
      let! t := TypeGet (types T) typeID in
      check! EnsureTenant (rqTenant rq) (tdTenantID t) TypeAggregate then
      guard! str_IsZero (KeyColumn im) else NewValidation "key_column is required" then
      let! chain := Chain (types T) t in
      let! all := listAll T chain in
      let colIndex := columnIndex (Columns im) in
      match colIndex !! KeyColumn im with
      | None => Err (NewValidation "key column not present in the header")
      | Some keyIdx =>
          let! cols := bindColumns colIndex (firstNamed all) (Mapping im) in
          guard! bool_decide (length cols = 0%nat)
            else NewValidation "no columns are mapped to attributes, so the import would write nothing" then
          Ok (cols, keyIdx)
      end
  end.

(** ** [Import] *)

(** The conversion of the rows: those that converted, the numbers of those that
    did not, their errors. *)
Fixpoint convertRows (typeID : string) (cols : list mappedColumn) (keyIdx rowNum : nat)
    (rows : list (list string)) (allowLegacy : bool) : list preparedRow * list nat * list ImportError :=
  match rows with
  | [] => ([], [], [])
  | row :: rows =>
      let '(valid, bad, errs) := convertRows typeID cols keyIdx (S rowNum) rows allowLegacy in
      match rowInputs typeID cols keyIdx rowNum row allowLegacy with
      | (inputs, []) => (mkRow rowNum inputs :: valid, bad, errs)
      | (_, cellErrs) => (valid, rowNum :: bad, cellErrs ++ errs)
      end
  end.

(** One row of a dry run. *)
Definition previewRow (rq : Request) (fresh : nat -> ID) (s : Run) (p : preparedRow) : Run :=
  let next := (rnNext s + length (pInputs p))%nat in
  match applyRow rq (pInputs p) false fresh (rnNext s) (rnTables s) with
  | Ok (T', cs) => mkRun T' (rnCommitted s ++ cs) next (erroredRows s) (rnWritten s) (rnErrors s)
  | Err e =>
      mkRun (rnTables s) (rnCommitted s) next ({[pRow p]} ∪ erroredRows s) (rnWritten s)
        (rnErrors s ++ [importErrorFrom (pRow p) e])
  end.

Definition report (im : ImportInput) (mode : ImportMode) (s : Run) : ImportReport :=
  mkReport (length (Rows im)) (length (Rows im) - size (erroredRows s)) (rnWritten s) (DryRun im) mode
    (rnErrors s).

Definition Import (rq : Request) (im : ImportInput) (fresh : nat -> ID) (T : Tables) :
    result (Run * ImportReport) :=
  guard! (maxImportRows <? length (Rows im))%nat
    else NewValidation "import exceeds the maximum row count" then
  let mode := if str_IsZero (Mode im) then ImportBestEffort else Mode im in
  guard! negb (bool_decide (mode = ImportBestEffort)) && negb (bool_decide (mode = ImportTransactional))
    else NewValidation "unknown import mode" then
  let! '(cols, keyIdx) := resolveMapping rq T im in
  let '(valid, bad, errs) :=
    convertRows (imTypeDefinitionID im) cols keyIdx 1 (Rows im) (AllowLegacy im) in
  let s := mkRun T [] 0 (list_to_set bad) 0 errs in
  let s := if DryRun im then fold_left (previewRow rq fresh) valid s
           else if bool_decide (mode = ImportTransactional) then importTransactional rq valid fresh s
           else importBestEffort rq valid fresh s in
  Ok (s, report im mode s).
End Importing.

(** ** Export *)

Section Exporting.
Context `{GoStd} `{GoUlid} `{GoNumeric} `{GoQuery} `{GoJsonFloat} `{GoCells} `{GoCursor}.

(** [Value.String] *)
Definition ValueString (v : Value) : string :=
  match dataType v with
  | DataTypeBool => bool_text (boolVal v)
  | DataTypeInteger => pretty (intVal v)
  | DataTypeFloat => FormatFloatG (floatVal v)
  | DataTypeDate => time_Format DateFormat (timeVal v)
  | DataTypeTime => time_Format TimeFormat (timeVal v)
  | DataTypeDateTime => time_Format RFC3339Nano (timeVal v)
  | DataTypeJSON => rawJSON (jsonVal v)
  | DataTypeMedia => ObjectKey (Media v)
  | DataTypeQuantity =>
      match jsonVal v with
      | QuantityPayload m u => String.append m (String.append " " u)
      | _ => " "
      end
  | _ => textVal v
  end.

(** [Value.MarshalJSON] *)
Definition ValueJSON (v : Value) : result string :=
  match dataType v with
  | DataTypeBool => Ok (bool_text (boolVal v))
  | DataTypeInteger => Ok (pretty (intVal v))
  | DataTypeFloat =>
      guard! negb (finite (floatVal v)) else Errorf "json: unsupported value" then
      Ok (json_Float (floatVal v))
  | DataTypeJSON => Ok (rawJSON (jsonVal v))
  | DataTypeMedia => Ok (media_Text (Media v))
  | DataTypeQuantity =>
      match jsonVal v with
      | QuantityPayload m u =>
          guard! negb (finite (floatVal v)) else Errorf "json: unsupported value" then
          Ok (json_MarshalQuantity m u (floatVal v))
      | _ => Ok (json_MarshalQuantity EmptyString EmptyString (S754_zero false))
      end
  | DataTypeNone => Ok "null"%string
  | _ => Ok (json_MarshalString (ValueString v))
  end.

(** [exportScalar] *)
Definition exportScalar (v : Value) : string :=
  match dataType v with
  | DataTypeQuantity | DataTypeMedia | DataTypeJSON =>
      match ValueJSON v with Ok raw => raw | Err _ => ValueString v end
  | _ => ValueString v
  end.

(** [exportScoped], before it is encoded. *)
Definition exportScoped (av : AttributeValue) : cellEntry :=
  (match ValueJSON (avValue av) with
   | Ok raw => raw
   | Err _ => json_MarshalString (ValueString (avValue av))
   end, Locale (avScope av), Channel (avScope av)).

(** [exportCell] *)
Definition exportCell (vals : list AttributeValue) : string :=
  let marked := String.append multiValueCellPrefix (json_MarshalEntries (exportScoped <$> vals)) in
  match vals with
  | [] => EmptyString
  | [av] => if ScopeIsZero (avScope av) then exportScalar (avValue av) else marked
  | _ => marked
  end.

Record ExportInput := mkExport {
  exTypeDefinitionID : string;
  exAttributes : list string;
  exEntityIDs : list string;
  exKeyColumn : string }.

Record ExportOutput := mkExported { exColumns : list string; exRows : list (list string) }.

(** The pages of the sweep over a type's entities; [rounds] bounds them. *)
Fixpoint exportPages (T : Tables) (tenant : TenantID) (type_id : ID) (rounds : nat) (p : Page)
    (ids : list EntityID) : result (list EntityID) :=
  match rounds with
  | O => Err (Errorf "unreachable")
  | S rounds =>
      let! '(summaries, _) := ListEntities T tenant [type_id] p in
      let ids := ids ++ (esEntityID <$> summaries) in
      if (maxExportRows <=? Z.of_nat (length ids)) then Ok ids
      else
        match (if Z.of_nat (length summaries) <=? pgLimit p then None else list.last summaries) with
        | None => Ok ids
        | Some l =>
            exportPages T tenant type_id rounds
              (mkPage (pgLimit p) (EncodeKeyset [esEntityID l]) false (pgStable p)) ids
        end
  end.

(** A page that does not end the sweep has 501 entities. *)
Definition exportRounds : nat := 20.

Definition exportEntityIDs (T : Tables) (tenant : TenantID) (type_id : ID) (explicit : list string) :
    result (list EntityID) :=
  if negb (bool_decide (length explicit = 0%nat)) then
    guard! maxExportRows <? Z.of_nat (length explicit)
      else NewValidation "export exceeds the maximum row count" then
    Ok explicit
  else
    let! ids := exportPages T tenant type_id exportRounds (mkPage 500 EmptyString false true) [] in
    Ok (take (Z.to_nat maxExportRows) ids).

(** [forEachValueBatched]: the values of the entities, 500 entities at a time. *)
Fixpoint valueBatches (T : Tables) (tenant : TenantID) (fuel : nat) (ids : list EntityID) :
    list AttributeValue :=
  match fuel, ids with
  | S fuel, _ :: _ => ListByEntities T tenant (take 500 ids) ++ valueBatches T tenant fuel (drop 500 ids)
  | _, _ => []
  end.

Definition forEachValueBatched (T : Tables) (tenant : TenantID) (ids : list EntityID) : list AttributeValue :=
  valueBatches T tenant (length ids) ids.

(** The values of one cell, in the order they were read. *)
Definition cellOf (avs : list AttributeValue) (entity : EntityID) (attr : ID) : list AttributeValue :=
  List.filter (fun av => bool_decide (avEntityID av = entity) && bool_decide (avAttrID av = attr)) avs.

(** [dropUnreadable] *)
Definition readableNames (access : Access) (byName : gmap string AttrDefinition) : gmap string AttrDefinition :=
  if Admin access then byName else filter (fun kv => CanRead access kv.1 = true) byName.

Fixpoint namedColumns (byName : gmap string AttrDefinition) (names : list string) :
    result (list (string * ID)) :=
  match names with
  | [] => Ok []
  | name :: names =>
      match byName !! name with
      | None => Err (NewValidation "attribute not in the type schema")
      | Some a => let! cols := namedColumns byName names in Ok ((name, id a) :: cols)
      end
  end.

(** Names in the order of the schema, each once. *)
Fixpoint firstNames (seen : gset string) (l : list AttrDefinition) : list string :=
  match l with
  | [] => []
  | a :: l =>
      if bool_decide (internalName a ∈ seen) then firstNames seen l
      else internalName a :: firstNames ({[internalName a]} ∪ seen) l
  end.

Fixpoint parseEntities (ids : list string) : result (list EntityID) :=
  match ids with
  | [] => Ok []
  | i :: ids =>
      match ParseEntityID i with
      | Err e => Err (NewValidation (Message e))
      | Ok e => let! es := parseEntities ids in Ok (e :: es)
      end
  end.

Definition Export (rq : Request) (ex : ExportInput) (T : Tables) : result ExportOutput :=
  match ParseID (exTypeDefinitionID ex) with
  | Err e => Err (NewValidation (Message e))
  | Ok typeID =>
      let! t := TypeGet (types T) typeID in
      check! EnsureTenant (rqTenant rq) (tdTenantID t) TypeAggregate then
      let tenant := tdTenantID t in
      let! chain := Chain (types T) t in
      let! all := listAll T chain in
      let byName := readableNames (rqAccess rq) (firstNamed all) in
      let order := List.filter (fun name => isSome (byName !! name)) (firstNames ∅ all) in
      let! cols := namedColumns byName
        (if negb (bool_decide (length (exAttributes ex) = 0%nat)) then exAttributes ex else order) in
      let! entityIDs := exportEntityIDs T tenant typeID (exEntityIDs ex) in
      let key := if str_IsZero (exKeyColumn ex) then "entity_id"%string else exKeyColumn ex in
      let! ids := parseEntities entityIDs in
      let avs := forEachValueBatched T tenant ids in
      Ok (mkExported (key :: cols.*1)
            ((fun eid => eid :: ((fun c => exportCell (cellOf avs eid c.2)) <$> cols)) <$> entityIDs))
  end.
End Exporting.
