(* ===== verification/ImportFacts.v ===== *)
(** An import that reads through its cache writes what the plain write path
    would: the cache agrees with the tables, one write through it is the plain
    write, and so is a unit of work, as long as no write narrows its entity. *)

From Stdlib Require Import ZArith QArith Lia String Ascii List SpecFloat.
From stdpp Require Import base tactics list gmap fin_maps fin_sets strings option decidable pretty relations.
From S2P Require Import Prelude GoText Values Ids Formula Attribute Access TypeDef TypeDefFacts.
From S2P Require Import Units Pagination Dependency ValueWrite AttributeWrite AttributeWriteFacts.
From S2P Require Import SchemaFacts ValueWriteFacts ValueWriteProps Computed Query DependencyWrite ImportExport.

Open Scope Z_scope.
Open Scope go_scope.

(** ** Rows of a table *)

Section Rows.
Context `{Countable K} {A : Type}.

Lemma values_insert_new (m : gmap K A) i x : m !! i = None -> values (<[i := x]> m) ≡ₚ x :: values m.
Proof. intros Hi. unfold values. rewrite (map_to_list_insert m i x Hi). by rewrite fmap_cons. Qed.

Lemma values_insert_old (m : gmap K A) i x y :
  m !! i = Some x -> exists rest, values m ≡ₚ x :: rest /\ values (<[i := y]> m) ≡ₚ y :: rest /\
    forall z, z ∈ rest -> exists j, j <> i /\ m !! j = Some z.
Proof.
  intros Hi. exists (values (delete i m)). split_and!.
  - rewrite <- (insert_delete_id m i x Hi) at 1. apply values_insert_new, lookup_delete_eq.
  - rewrite <- insert_delete_eq. apply values_insert_new, lookup_delete_eq.
  - intros z (j & [Hj Hz]%lookup_delete_Some)%values_elem. by exists j.
Qed.
End Rows.

Lemma find_perm_none {A} (p : A -> bool) l l' : l ≡ₚ l' -> List.find p l = None -> List.find p l' = None.
Proof.
  intros HP Hn. destruct (List.find p l') as [x|] eqn:E; [|done]. apply find_some in E as [Hx Hp].
  rewrite (find_none _ _ Hn x) in Hp; [done|]. apply list_elem_of_In. rewrite HP. by apply list_elem_of_In.
Qed.

Lemma find_perm {A} (p : A -> bool) l l' :
  l ≡ₚ l' -> isSome (List.find p l) = isSome (List.find p l').
Proof.
  intros HP. destruct (List.find p l) eqn:E, (List.find p l') eqn:E'; try done.
  - by rewrite (find_perm_none p l' l) in E.
  - by rewrite (find_perm_none p l l') in E'.
Qed.

Definition live_of_entity (tenant : TenantID) (entity : EntityID) (av : AttributeValue) : bool :=
  of_entity tenant entity av && negb (AvIsArchived av).

Definition live_rows (T : Tables) (tenant : TenantID) (entity : EntityID) : list AttributeValue :=
  List.filter (live_of_entity tenant entity) (values (vals T)).

Section Cache.
Context `{GoStd} `{GoUlid} `{GoNumeric} `{GoKeys}.

(** The cache says what the tables say. *)
Record cache_ok (T : Tables) (tenant : TenantID) (ids : list EntityID) (m : ImportCache) : Prop := {
  co_defs : map_Forall (fun i a => attrs T !! i = Some a) (cachedDefs m);
  co_deps : map_Forall (fun i ds => ds = ListByTarget T i) (cachedDeps m);
  co_vals : forall e, e ∈ ids -> default [] (cachedValues m !! e) ≡ₚ live_rows T tenant e }.

Lemma record_lookup entity av m e :
  default [] (cachedValues (recordImportedValue entity av m) !! e) =
  default [] (cachedValues m !! e) ++ (if bool_decide (entity = e) then [av] else []).
Proof.
  simpl. case_bool_decide as E; [subst; by rewrite lookup_insert_eq|].
  by rewrite lookup_insert_ne, app_nil_r.
Qed.

Lemma prefetch_fold l m e :
  let m' := fold_left (fun m av => recordImportedValue (avEntityID av) av m) l m in
  default [] (cachedValues m' !! e) =
    default [] (cachedValues m !! e) ++ List.filter (fun av => bool_decide (avEntityID av = e)) l /\
  cachedDefs m' = cachedDefs m /\ cachedDeps m' = cachedDeps m.
Proof.
  revert m. induction l as [|av l IH]; intros m; simpl; [by rewrite app_nil_r|].
  destruct (IH (recordImportedValue (avEntityID av) av m)) as (I1 & I2 & I3). split_and!; [|done|done].
  rewrite I1, record_lookup, <- app_assoc. by case_bool_decide.
Qed.

Lemma prefetch_ok T tenant ids : cache_ok T tenant ids (prefetch T tenant ids newImportCache).
Proof.
  unfold prefetch. set (l := if bool_decide _ then _ else _).
  destruct (prefetch_fold l (set_values newImportCache ∅) EmptyString) as (_ & E2 & E3).
  split; rewrite ?E2, ?E3; [apply map_Forall_empty..|].
  intros e He. rewrite (proj1 (prefetch_fold l _ e)). simpl. rewrite lookup_empty. simpl.
  assert (bool_decide (length ids = 0%nat) = false) as Hne.
  { apply bool_decide_eq_false. intros ->%nil_length_inv. by apply not_elem_of_nil in He. }
  unfold l. rewrite Hne. unfold ListByEntities, live_rows.
  rewrite (filter_perm _ _ _ (sort_by_perm _ _)), filter_filter.
  apply reflexive_eq, filter_ext. intros av. unfold live_of_entity, of_entity.
  destruct (decide (avEntityID av = e)) as [->|Hn].
  - rewrite (bool_decide_true (e ∈ ids)), (bool_decide_true (e = e)) by done. by rewrite !andb_true_r.
  - rewrite !(bool_decide_false (avEntityID av = e)) by done. by rewrite !andb_false_r.
Qed.

(** The rows the cache finds are those the store finds. *)
Lemma existing_perm T tenant ids m def entity :
  vals_ok T -> cache_ok T tenant ids m -> entity ∈ ids -> attrs T !! id def = Some def ->
  tenantID def = tenant -> existingValues (id def) entity m ≡ₚ FindByDefinitionAndEntity T (id def) entity.
Proof.
  intros HV [_ _ HC] He Hd Ht. unfold existingValues, FindByDefinitionAndEntity.
  rewrite (filter_perm _ _ _ (HC entity He)). unfold live_rows. rewrite filter_filter, sort_by_perm.
  apply reflexive_eq, filter_ext_in. intros r (i & Hi)%list_elem_of_In%values_elem.
  destruct (vo_row _ HV i r Hi) as [a [R1 R2 _ _ _ _ _]].
  unfold live_of_entity, of_entity. destruct (decide (avAttrID r = id def)) as [Ea|Ea].
  - rewrite (bool_decide_true (avTenantID r = tenant)), (bool_decide_true (avAttrID r = id def)) by congruence.
    by rewrite andb_true_r.
  - rewrite !(bool_decide_false (avAttrID r = id def)) by done. by rewrite !andb_false_r.
Qed.

(** *** The cache after a write *)

Lemma live_rows_new T r tenant e :
  vals T !! avID r = None -> live r ->
  live_rows (AvSave T r) tenant e ≡ₚ
    (if of_entity tenant e r then [r] else []) ++ live_rows T tenant e.
Proof.
  intros Hn Hl. unfold live_rows. simpl. rewrite (filter_perm _ _ _ (values_insert_new _ _ r Hn)). simpl.
  unfold live_of_entity. rewrite Hl, andb_true_r. by destruct (of_entity tenant e r).
Qed.

Lemma live_rows_old T r r0 tenant e :
  vals T !! avID r = Some r0 -> map_Forall (fun i s => avID s = i) (vals T) ->
  avTenantID r = avTenantID r0 -> avEntityID r = avEntityID r0 -> live r -> live r0 ->
  live_rows (AvSave T r) tenant e ≡ₚ
    (fun s => if bool_decide (avID s = avID r) then r else s) <$> live_rows T tenant e.
Proof.
  intros Hr Hk Et Ee Hl Hl0. unfold live_rows. simpl.
  destruct (values_insert_old (vals T) (avID r) r0 r Hr) as (rest & P1 & P2 & Hrest).
  rewrite (filter_perm _ _ _ P1), (filter_perm _ _ _ P2). simpl.
  pose proof (Hk _ _ Hr) as E0. simpl in E0.
  assert ((fun s => if bool_decide (avID s = avID r) then r else s) <$>
    List.filter (live_of_entity tenant e) rest = List.filter (live_of_entity tenant e) rest) as Hid.
  { rewrite <- (list_fmap_id (List.filter _ rest)) at 2. apply list_fmap_ext. intros j s Hs.
    apply list_elem_of_lookup_2, elem_of_filter_b in Hs as [(i & Hne & Hi)%Hrest _].
    pose proof (Hk _ _ Hi) as Es. simpl in Es. rewrite bool_decide_false; [done|congruence]. }
  assert (live_of_entity tenant e r = live_of_entity tenant e r0) as ->.
  { unfold live_of_entity, of_entity. unfold live in *. by rewrite Et, Ee, Hl, Hl0. }
  destruct (live_of_entity tenant e r0); [|by rewrite Hid].
  rewrite fmap_cons, Hid. by rewrite bool_decide_true.
Qed.

Lemma cache_insert T tenant ids m r :
  cache_ok T tenant ids m -> vals T !! avID r = None -> live r -> avTenantID r = tenant ->
  cache_ok (AvSave T r) tenant ids (recordImportedValue (avEntityID r) r m).
Proof.
  intros [C1 C2 C3] Hn Hl Et. split; [done|done|]. intros e He.
  rewrite record_lookup, (C3 e He), live_rows_new, Permutation_app_comm by done.
  unfold of_entity. rewrite (bool_decide_true (avTenantID r = tenant)) by done. done.
Qed.

Lemma cache_update T tenant ids m r r0 :
  cache_ok T tenant ids m -> vals T !! avID r = Some r0 -> map_Forall (fun i s => avID s = i) (vals T) ->
  avTenantID r = avTenantID r0 -> avEntityID r = avEntityID r0 -> live r -> live r0 ->
  cache_ok (AvSave T r) tenant ids (updateCached (avEntityID r) r m).
Proof.
  intros [C1 C2 C3] Hr Hk Et Ee Hl Hl0. split; [done|done|]. intros e He.
  rewrite (live_rows_old T r r0) by done. rewrite <- (C3 e He). simpl.
  destruct (decide (e = avEntityID r)) as [->|Hne].
  - rewrite lookup_alter_eq. by destruct (cachedValues m !! avEntityID r).
  - rewrite lookup_alter_ne by done. rewrite <- (list_fmap_id (default [] (cachedValues m !! e))) at 1.
    apply reflexive_eq, list_fmap_ext. intros j s Hs.
    apply list_elem_of_lookup_2 in Hs. rewrite (C3 e He) in Hs. unfold live_rows in Hs.
    apply elem_of_filter_b in Hs as [(i & Hi)%values_elem Hs].
    unfold live_of_entity in Hs. breflect. apply of_entity_true in H3 as [_ E].
    pose proof (Hk _ _ Hi) as Es. simpl in Es. rewrite bool_decide_false; [done|].
    intros Eq. simplify_eq. congruence.
Qed.

(** *** One write *)

(** Same error, or related answers. *)
Definition agrees {A B} (R : A -> B -> Prop) (r : result A) (r' : result B) : Prop :=
  match r, r' with Ok a, Ok b => R a b | Err e, Err e' => e = e' | _, _ => False end.

Lemma agrees_bind {A B A' B'} (P : A -> A' -> Prop) (R : B -> B' -> Prop) r r' k k' :
  agrees P r r' -> (forall a a', r = Ok a -> P a a' -> agrees R (k a) (k' a')) ->
  agrees R (res_bind r k) (res_bind r' k').
Proof. destruct r, r'; simpl; try done. intros HP Hk. by apply Hk. Qed.

Lemma AvNew_row def et entity scope v fresh now r :
  AvNew def et entity scope v fresh now = Ok r ->
  avID r.1 = fresh /\ avEntityID r.1 = entity /\ avTenantID r.1 = tenantID def /\ live r.1.
Proof. unfold AvNew. intros Hn. by res_inv. Qed.

Lemma UpdateValue_row av def v now r :
  UpdateValue av def v now = Ok r ->
  avID r.1 = avID av /\ avEntityID r.1 = avEntityID av /\ avTenantID r.1 = avTenantID av /\ live r.1 /\ live av.
Proof. unfold UpdateValue. intros Hn. res_inv. unfold live. destruct (_ && _) in Hn; by res_inv. Qed.

Section Upsert.
Context (T : Tables) (c : Collector) (m : ImportCache) (ids : list EntityID).
Context (def : AttrDefinition) (et : ID) (entity : EntityID) (scope : Scope) (v : Value) (fresh : ID) (now : Z).
Context (HV : vals_ok T) (HW : write_ok T def et entity scope v) (HC : cache_ok T (tenantID def) ids m).
Context (Hids : entity ∈ ids) (Hfresh : vals T !! fresh = None).

Definition same_write (x : Tables * Collector * AttributeValue) (y : Tables * Collector * ImportCache) : Prop :=
  x.1 = y.1 /\ cache_ok x.1.1 (tenantID def) ids y.2.

Lemma insert_imported l l' :
  l ≡ₚ l' ->
  agrees same_write (insertRow T c def et entity scope v fresh now l)
    (insertImported T c m def et entity scope v fresh now l').
Proof using HC Hfresh.
  intros HP. unfold insertRow, insertImported. pose proof (find_perm (fun av => Equal (avValue av) v) _ _ HP) as Hf.
  destruct (List.find _ l), (List.find _ l'); try done.
  apply (agrees_bind eq); [by destruct (AvNew _ _ _ _ _ _ _)|]. intros r r' Hr <-. split; [done|].
  destruct (AvNew_row _ _ _ _ _ _ _ _ Hr) as (E1 & E2 & E3 & E4). simpl. rewrite <- E2.
  apply cache_insert; [done|by rewrite E1|done|done].
Qed.

Lemma upsert_imported :
  agrees same_write (upsert T c def et entity scope v fresh now)
    (upsertImported T c m def et entity scope v fresh now).
Proof using HV HW HC Hids Hfresh.
  unfold upsert, upsertImported.
  pose proof (filter_perm (fun av => ScopeEquals (avScope av) scope) _ _
    (existing_perm T (tenantID def) ids m def entity HV HC Hids (wo_attr _ _ _ _ _ _ HW) eq_refl)) as HP.
  assert (Hrow : forall r, r ∈ List.filter (fun av => ScopeEquals (avScope av) scope)
      (FindByDefinitionAndEntity T (id def) entity) ->
    vals T !! avID r = Some r /\ avEntityID r = entity /\ avAttrID r = id def /\ live r /\ avScope r = scope).
  { intros r (Hf & Hs)%elem_of_filter_b. apply FindByDefinitionAndEntity_elem in Hf as ((j & Hj) & Ea & Ee & Hl).
    pose proof (vo_keyed _ HV j r Hj) as Ej. simpl in Ej. subst j. by apply ScopeEquals_true in Hs. }
  assert (Hnd : NoDup (avID <$> List.filter (fun av => ScopeEquals (avScope av) scope)
      (FindByDefinitionAndEntity T (id def) entity))).
  { apply filter_fmap_NoDup, FindByDefinitionAndEntity_rows, HV. }
  revert HP Hrow Hnd. generalize (List.filter (fun av => ScopeEquals (avScope av) scope)
    (FindByDefinitionAndEntity T (id def) entity)) as l.
  generalize (List.filter (fun av => ScopeEquals (avScope av) scope) (existingValues (id def) entity m)) as l'.
  intros l' l HP Hrow Hnd.
  destruct l as [|r l]; [apply Permutation_sym, Permutation_nil in HP as ->; by apply insert_imported|].
  destruct l' as [|r' l']; [by apply Permutation_nil in HP|].
  destruct (multiValued def) eqn:Em; [by apply insert_imported|].
  destruct (Hrow r ltac:(by left)) as (K1 & K2 & K3 & K4 & K5).
  assert (r' = r) as ->.
  { assert (r' ∈ r :: l) as (L1 & L2 & L3 & L4 & L5)%Hrow by (rewrite <- HP; by left).
    assert (avID r' = avID r) as E.
    { apply (vo_single _ HV (avID r') (avID r) r' r def L1 K1 L4 K4); try congruence.
      rewrite L3. apply (wo_attr _ _ _ _ _ _ HW). }
    rewrite E in L1. congruence. }
  apply (agrees_bind eq); [by destruct (UpdateValue _ _ _ _)|]. intros u u' Hu <-.
  destruct (UpdateValue_row _ _ _ _ _ Hu) as (U1 & U2 & U3 & U4 & U5).
  case_bool_decide; simpl; split; try done; simpl.
  assert (entity = avEntityID u.1) as -> by congruence.
  apply (cache_update T _ _ _ _ r); try done; [by rewrite U1|apply HV].
Qed.
End Upsert.

(** ** A write that narrows its entity *)

(** Naming [raw] moves the entity to a subtype of the type its values carry. *)
Definition narrows (T : Tables) (tenant : TenantID) (raw : string) (entity : EntityID) : bool :=
  negb (str_IsZero raw) &&
  match ParseID raw, EntityAnchor T tenant entity with
  | Ok supplied, Some a =>
      negb (bool_decide (supplied = a)) &&
      match TypeGet (types T) supplied with
      | Ok t => match IsAncestorOrSelf (types T) t a with Ok b => b | Err _ => false end
      | Err _ => false
      end
  | _, _ => false
  end.

Lemma not_narrowing T tenant def entity raw T1 et :
  narrows T tenant raw entity = false -> resolveType T tenant def entity raw = Ok (T1, et) -> T1 = T.
Proof.
  unfold narrows, resolveType. destruct (str_IsZero raw); [by intros _ [= <- _]|].
  destruct (ParseID raw) as [supplied|]; [|done].
  destruct (EntityAnchor T tenant entity) as [a|]; [|by intros _ [= <- _]].
  case_bool_decide; [by intros _ [= <- _]|]. simpl. intros Hn Hr. res_inv.
  match goal with E1 : TypeGet _ supplied = Ok _, E2 : IsAncestorOrSelf _ _ a = Ok _ |- _ =>
    rewrite E1, E2 in Hn; rewrite Hn in Hr end. by res_inv.
Qed.

Lemma anchor_of T tenant entity a :
  vals_ok T -> EntityAnchor T tenant entity = Some a <->
  exists i r, vals T !! i = Some r /\ avTenantID r = tenant /\ avEntityID r = entity /\ avTypeID r = a.
Proof.
  intros HV. split; [apply EntityAnchor_Some|]. intros (i & r & Hr & E1 & E2 & E3).
  destruct (EntityAnchor T tenant entity) as [b|] eqn:E;
    [|by destruct (EntityAnchor_None _ _ _ _ _ E Hr)].
  apply EntityAnchor_Some in E as (j & s & Hs & F1 & F2 & F3). f_equal.
  rewrite <- E3, <- F3. apply (vo_anchor _ HV j i); congruence.
Qed.

(** ** One write through the cache *)

Definition through (tenant : TenantID) (ids : list EntityID) (x : Tables * Collector * AttributeValue)
    (y : Tables * Collector * ImportCache) : Prop :=
  x.1 = y.1 /\ cache_ok x.1.1 tenant ids y.2.

Lemma lockDefinition_agrees T tenant ids m defID :
  cache_ok T tenant ids m ->
  agrees (fun d p => p.2 = d /\ cache_ok T tenant ids p.1) (AttrGet T defID) (lockDefinition T defID m).
Proof.
  intros [C1 C2 C3]. unfold lockDefinition. destruct (cachedDefs m !! defID) as [def|] eqn:E.
  - unfold AttrGet. rewrite (C1 _ _ E). done.
  - unfold AttrGet. destruct (attrs T !! defID) as [def|] eqn:Ed; [|done]. split; [done|].
    split; [by apply map_Forall_insert_2|done|done].
Qed.

Lemma targeting_agrees T tenant ids m target :
  cache_ok T tenant ids m ->
  (targetingDependencies T target m).2 = ListByTarget T target /\
  cache_ok T tenant ids (targetingDependencies T target m).1.
Proof.
  intros [C1 C2 C3]. unfold targetingDependencies. destruct (cachedDeps m !! target) as [ds|] eqn:E.
  - by rewrite (C2 _ _ E).
  - split; [done|]. split; [done|by apply map_Forall_insert_2|done].
Qed.

Lemma set_imported rq i fresh T c m ids :
  schema_ok T -> vals_ok T -> cache_ok T (rqTenant rq) ids m -> vals T !! fresh = None ->
  (forall e, ParseEntityID (siEntityID i) = Ok e ->
    e ∈ ids /\ narrows T (rqTenant rq) (siTypeDefinitionID i) e = false) ->
  agrees (through (rqTenant rq) ids) (setWithin rq i fresh T c) (setImported rq i fresh T c m).
Proof.
  intros HT HV HC Hf He. unfold setWithin, setImported.
  destruct (ParseID (siAttributeDefinitionID i)) as [defID|] eqn:Eid; [|done].
  destruct (ParseEntityID (siEntityID i)) as [entity|] eqn:Een; [|done].
  assert (entity = siEntityID i) as E0 by (unfold ParseEntityID in Een; by res_inv). subst entity.
  destruct (He _ eq_refl) as [Hids Hn].
  destruct (str_IsZero (siValue i) || _); [done|].
  apply (agrees_bind _ _ _ _ _ _ (lockDefinition_agrees T (rqTenant rq) ids m defID HC)).
  intros def [m1 d] Hd [E HC1]. simpl in E, HC1. subst d.
  destruct (targeting_agrees T (rqTenant rq) ids m1 (id def) HC1) as [Et HC2].
  destruct (targetingDependencies T (id def) m1) as [m2 ds]. simpl in Et, HC2. subst ds.
  apply (agrees_bind eq); [by destruct (admitWrite _ _ _ _ _ _ _)|].
  intros [[T1 c1] [et v]] x Ha <-. apply (AttrGet_spec _ _ _ HT) in Hd as [<- Hdef].
  apply admit_inv in Ha as (-> & A1 & A2 & A3 & A4 & A5 & A6 & A7 & A8 & A9 & A10).
  pose proof (not_narrowing _ _ _ _ _ _ _ Hn A2) as ->.
  assert (accepted rq i T def (siEntityID i) T et v) as Hacc by (by split).
  destruct (accepted_write_ok _ _ _ _ _ _ _ _ HT HV Hacc) as (_ & _ & HW).
  unfold through. rewrite <- A1 in *. by apply upsert_imported.
Qed.

Lemma narrows_ext T T' tenant raw entity :
  types T' = types T ->
  (forall a, EntityAnchor T' tenant entity = Some a -> ParseID raw = Ok a \/ EntityAnchor T tenant entity = Some a) ->
  narrows T tenant raw entity = false -> narrows T' tenant raw entity = false.
Proof.
  unfold narrows. intros Et Ha. rewrite Et. destruct (str_IsZero raw); [done|]. simpl.
  destruct (ParseID raw) as [s|]; [|done].
  destruct (EntityAnchor T' tenant entity) as [a|]; [|done].
  destruct (Ha a eq_refl) as [[= ->]|E]; [by rewrite bool_decide_true|]. by rewrite E.
Qed.

Lemma resolved_anchor T tenant def entity raw T1 et :
  str_IsZero raw = false -> narrows T tenant raw entity = false ->
  resolveType T tenant def entity raw = Ok (T1, et) ->
  ParseID raw = Ok et \/ EntityAnchor T tenant entity = Some et.
Proof.
  intros Hz Hn. unfold resolveType, narrows in *. rewrite Hz in *. destruct (ParseID raw) as [s|]; [|done].
  destruct (EntityAnchor T tenant entity) as [a|]; [|intros [= _ <-]; by left].
  case_bool_decide; [intros [= _ <-]; by left|]. intros Hr. res_inv. simpl in Hn.
  match goal with E1 : TypeGet _ s = Ok _, E2 : IsAncestorOrSelf _ _ a = Ok _ |- _ =>
    rewrite E1, E2 in Hn; rewrite Hn in Hr end. res_inv. by right.
Qed.

Lemma narrows_kept rq i fresh T c T' c' av e :
  schema_ok T -> vals_ok T -> vals T !! fresh = None -> setWithin rq i fresh T c = Ok (T', c', av) ->
  narrows T (rqTenant rq) (siTypeDefinitionID i) (siEntityID i) = false ->
  narrows T (rqTenant rq) (siTypeDefinitionID i) e = false ->
  narrows T' (rqTenant rq) (siTypeDefinitionID i) e = false.
Proof.
  intros HT HV Hf Hs Hn He. destruct (str_IsZero (siTypeDefinitionID i)) eqn:Hz.
  { unfold narrows. by rewrite Hz. }
  pose proof (set_ok _ _ _ _ _ _ _ _ HT HV Hf Hs) as [HV' (Et & _)].
  apply (set_inv _ _ _ _ _ _ _ _ HT) in Hs as (def & entity & T1 & et & v & Hacc & Hu).
  destruct (accepted_write_ok _ _ _ _ _ _ _ _ HT HV Hacc) as (_ & _ & HW).
  assert (entity = siEntityID i) as -> by (pose proof (ac_entity _ _ _ _ _ _ _ _ Hacc) as E; unfold ParseEntityID in E; by res_inv).
  pose proof (not_narrowing _ _ _ _ _ _ _ Hn (ac_type _ _ _ _ _ _ _ _ Hacc)) as ->.
  destruct (upsert_effect _ _ _ _ _ _ _ _ _ _ _ _ HV HW Hu)
    as (U1 & _ & _ & U4 & _ & U6 & _ & _ & U9 & _).
  apply (narrows_ext T); [done| |done]. intros a (j & r & Hr & R1 & R2 & R3)%(anchor_of _ _ _ _ HV').
  destruct (decide (j = avID av)) as [->|Hne].
  - assert (r = av) as -> by congruence. subst.
    destruct (resolved_anchor _ _ _ _ _ _ _ Hz Hn (ac_type _ _ _ _ _ _ _ _ Hacc)); [by left|right; congruence].
  - right. apply (anchor_of _ _ _ _ HV). exists j, r. by rewrite <- U9.
Qed.

(** ** A unit of work through the cache *)

Lemma inputsOf_cons p rows : inputsOf (p :: rows) = pInputs p ++ inputsOf rows.
Proof. done. Qed.

Lemma rowWrites_inputs rows : (rowWrites rows).*2 = inputsOf rows.
Proof.
  induction rows as [|p rows IH]; [done|]. rewrite inputsOf_cons, <- IH. unfold rowWrites. simpl.
  rewrite fmap_app, <- list_fmap_compose. f_equal. apply list_fmap_id.
Qed.

Lemma canonical_perm (rows : list preparedRow) : (canonicalOrder rowEntity rows).*2 ≡ₚ rows.
Proof.
  unfold canonicalOrder. rewrite sort_by_perm. rewrite fmap_imap.
  apply reflexive_eq. clear. assert (forall k : nat, imap (fun n (x : preparedRow) => ((k + n)%nat, x).2) rows = rows) as E.
  { induction rows as [|p rows IH]; intros k; [done|]. simpl. f_equal. apply (IH (S k)). }
  exact (E 0%nat).
Qed.

Lemma inputsOf_perm rows rows' : rows ≡ₚ rows' -> inputsOf rows ≡ₚ inputsOf rows'.
Proof.
  induction 1 as [|p rows rows' HP IH|p q rows|]; [done| | |by etrans]; rewrite !inputsOf_cons.
  - by rewrite IH.
  - by rewrite !app_assoc, (Permutation_app_comm (pInputs p)).
Qed.

Lemma canonical_inputs rows : inputsOf (canonicalOrder rowEntity rows).*2 ≡ₚ inputsOf rows.
Proof. apply inputsOf_perm, canonical_perm. Qed.

Lemma ids_fold l acc e :
  e ∈ (fold_left idStep l acc).2 <->
  e ∈ acc.2 \/ exists i, i ∈ l /\ siEntityID i ∉ acc.1 /\ ParseEntityID (siEntityID i) = Ok e.
Proof.
  revert acc. induction l as [|i l IH]; intros acc; simpl.
  { split; [by left|]. intros [|(j & Hj & _)]; [done|by apply not_elem_of_nil in Hj]. }
  rewrite IH. unfold idStep. case_bool_decide as Hs; simpl.
  { split; (intros [?|(j & Hj & Hn & Hp)]; [by left|]).
    - right. exists j. split; [by right|done].
    - apply elem_of_cons in Hj as [->|Hj]; [done|]. right. by exists j. }
  destruct (ParseEntityID (siEntityID i)) as [e0|x] eqn:Ep; split.
  - intros [[?|Hx%list_elem_of_singleton]%elem_of_app|(j & Hj & Hn & Hp)]; [by left| |].
    + subst. right. exists i. split; [by left|done].
    + right. exists j. split; [by right|]. split; [set_solver|done].
  - intros [?|(j & Hj & Hn & Hp)]; [left; by apply elem_of_app; left|].
    apply elem_of_cons in Hj as [->|Hj]; [left; rewrite Ep in Hp; injection Hp as ->; apply elem_of_app; right; by left|].
    destruct (decide (siEntityID j = siEntityID i)) as [E|E].
    + left. rewrite E, Ep in Hp. injection Hp as ->. apply elem_of_app. right. by left.
    + right. exists j. split; [done|]. split; [set_solver|done].
  - intros [?|(j & Hj & Hn & Hp)]; [by left|]. right. exists j. split; [by right|]. split; [set_solver|done].
  - intros [?|(j & Hj & Hn & Hp)]; [by left|].
    apply elem_of_cons in Hj as [->|Hj]; [congruence|].
    destruct (decide (siEntityID j = siEntityID i)) as [E|E]; [congruence|].
    right. exists j. split; [done|]. split; [set_solver|done].
Qed.

Lemma preparedEntityIDs_spec rows e :
  e ∈ preparedEntityIDs rows <-> exists i, i ∈ inputsOf rows /\ ParseEntityID (siEntityID i) = Ok e.
Proof.
  unfold preparedEntityIDs.
  rewrite ids_fold. simpl. split.
  - intros [[]%not_elem_of_nil|(i & Hi & _ & Hp)]. by exists i.
  - intros (i & Hi & Hp). right. exists i. split; [done|]. split; [set_solver|done].
Qed.

Section Unit.
Context (rq : Request) (fresh : nat -> ID) (raw : string) (ids : list EntityID).
Context (Hinj : Inj (=) (=) fresh).

(** What a unit of work of an import starts from, [n] the next identifier. *)
Record quiet (n : nat) (T : Tables) : Prop := {
  qu_schema : schema_ok T;
  qu_vals : vals_ok T;
  qu_fresh : forall k, (n <= k)%nat -> vals T !! fresh k = None;
  qu_still : forall e, e ∈ ids -> narrows T (rqTenant rq) raw e = false }.

(** The write of an import. *)
Definition imports (i : SetInput) : Prop :=
  siTypeDefinitionID i = raw /\ forall e, ParseEntityID (siEntityID i) = Ok e -> e ∈ ids.

Lemma quiet_set n T i c T' c' av :
  quiet n T -> imports i -> setWithin rq i (fresh n) T c = Ok (T', c', av) -> quiet (S n) T'.
Proof using Hinj.
  intros [Q1 Q2 Q3 Q4] [Er Ei] Hs. pose proof (Q3 n ltac:(lia)) as Hf.
  destruct (set_ok _ _ _ _ _ _ _ _ Q1 Q2 Hf Hs) as [HV' (Et & Ea & Hw)]. split.
  - by apply (schema_same T).
  - done.
  - intros k Hk. apply Hw; [apply Q3; lia|]. intros E. apply (inj fresh) in E. lia.
  - intros e He. rewrite <- Er. eapply narrows_kept; try done; rewrite Er; [|auto].
    apply Q4. unfold setWithin in Hs. destruct (ParseID _); [|done].
    destruct (ParseEntityID (siEntityID i)) as [e'|] eqn:Ee; [|done].
    assert (e' = siEntityID i) as <- by (unfold ParseEntityID in Ee; by res_inv). by apply Ei.
Qed.

Definition same_unit (x : result (Tables * Collector * list (nat * AttributeValue)))
    (y : (Tables * Collector) + (nat * Error)) : Prop :=
  match x, y with Ok (T, c, _), inl (T', c') => T = T' /\ c = c' | Err e, inr (_, e') => e = e' | _, _ => False end.

Lemma numbered_cons n i items : numbered n (i :: items) = (n, i) :: numbered (S n) items.
Proof.
  unfold numbered. simpl. f_equal; [f_equal; lia|]. apply imap_ext. intros k x _. simpl. f_equal. lia.
Qed.

Lemma rows_imported items n T c m out :
  quiet n T -> cache_ok T (rqTenant rq) ids m -> Forall imports items.*2 ->
  same_unit (setEach rq (numbered n items.*2) fresh T c out) (writeRows rq items fresh n T c m).
Proof using Hinj.
  revert n T c m out. induction items as [|[row i] items IH]; intros n T c m out HQ HC Hall; [done|].
  rewrite fmap_cons in Hall. apply list.Forall_cons in Hall as [[Er Ei] Hall]. simpl in Er, Ei.
  rewrite fmap_cons, numbered_cons. cbn [setEach writeRows snd].
  pose proof (set_imported rq i (fresh n) T c m ids (qu_schema _ _ HQ) (qu_vals _ _ HQ) HC
    (qu_fresh _ _ HQ n ltac:(lia))
    ltac:(intros e He; rewrite Er; split; [by apply Ei|by apply (qu_still _ _ HQ), Ei])) as Hag.
  destruct (setWithin rq i (fresh n) T c) as [[[T1 c1] av]|e] eqn:Es,
    (setImported rq i (fresh n) T c m) as [[[T2 c2] m2]|e']; try done.
  destruct Hag as [[= <- <-] HC']. simpl in HC'. cbn [res_bind]. apply IH; [|done|done].
  by eapply quiet_set.
Qed.

Lemma writeAll_plain rows n T c m out :
  quiet n T -> cache_ok T (rqTenant rq) ids m -> Forall imports (inputsOf rows) ->
  same_unit (setEach rq (numbered n (inputsOf (canonicalOrder rowEntity rows).*2)) fresh T c out)
    (writeRows rq (rowWrites (canonicalOrder rowEntity rows).*2) fresh n T c m).
Proof using Hinj.
  intros HQ HC Hall. rewrite <- rowWrites_inputs. apply rows_imported; [done|done|].
  rewrite rowWrites_inputs. by rewrite canonical_inputs.
Qed.
End Unit.

End Cache.
