(* ===== verification/ImportProps.v ===== *)
(** What an import promises: the cache is transparent, the tables stay sound, a
    transactional import is all or nothing, a best-effort import writes or
    reports every row, a dry run writes nothing. *)

From Stdlib Require Import ZArith QArith Lia String Ascii List SpecFloat.
From stdpp Require Import base tactics list gmap fin_maps fin_sets strings option decidable pretty relations.
From S2P Require Import Prelude GoText Values Ids Formula Attribute Access TypeDef TypeDefFacts.
From S2P Require Import Units Pagination Dependency ValueWrite AttributeWrite AttributeWriteFacts.
From S2P Require Import SchemaFacts ValueWriteFacts ValueWriteProps Computed Query DependencyWrite ImportExport ImportFacts.

Open Scope Z_scope.
Open Scope go_scope.

(** ** Chunks and groups *)

Lemma mjoin_cons {A} (l : list A) (ls : list (list A)) : mjoin (l :: ls) = l ++ mjoin ls.
Proof. done. Qed.

Lemma mjoin_app {A} (ls ls' : list (list A)) : mjoin (ls ++ ls') = mjoin ls ++ mjoin ls'.
Proof. induction ls as [|l ls IH]; [done|]. simpl. by rewrite IH, app_assoc. Qed.

Lemma sameEntity_le last rows : (sameEntity last rows <= length rows)%nat.
Proof. induction rows as [|p rows IH]; simpl; [lia|]. case_bool_decide; lia. Qed.

Lemma chunkEnd_pos p rows : (0 < chunkEnd (p :: rows))%nat.
Proof. unfold chunkEnd, importChunkSize. destruct (list.last _); simpl length; lia. Qed.

Lemma chunks_join fuel rows : (length rows <= fuel)%nat -> mjoin (chunksFrom fuel rows) = rows.
Proof.
  revert rows. induction fuel as [|fuel IH]; intros [|p rows] Hl; try done; [simpl in Hl; lia|].
  cbn [chunksFrom]. rewrite mjoin_cons, IH; [apply take_drop|].
  rewrite length_drop. pose proof (chunkEnd_pos p rows). simpl in *. lia.
Qed.

(** The chunks are the rows, in order. *)
Lemma entityChunks_join rows : mjoin (entityChunks rows) = rows.
Proof. by apply chunks_join. Qed.

Lemma join_alter_perm {A} (p : A) i (out : list (list A)) :
  (i < length out)%nat -> mjoin (alter (fun g => g ++ [p]) i out) ≡ₚ p :: mjoin out.
Proof.
  revert i. induction out as [|g out IH]; intros [|i] Hi; simpl in Hi; try lia.
  - change (alter _ 0%nat (g :: out)) with ((g ++ [p]) :: out). rewrite !mjoin_cons.
    by rewrite <- app_assoc, Permutation_middle.
  - change (alter _ (S i) (g :: out)) with (g :: alter (fun g => g ++ [p]) i out).
    rewrite !mjoin_cons, IH by lia. by rewrite Permutation_middle.
Qed.

(** The groups are the rows of the chunk. *)
Lemma groupByEntity_perm chunk : mjoin (groupByEntity chunk) ≡ₚ chunk.
Proof.
  unfold groupByEntity.
  assert (forall (index : gmap EntityID nat) (out : list (list preparedRow)),
    map_Forall (fun _ i => (i < length out)%nat) index ->
    mjoin (fold_left (fun '(index, out) p =>
      match index !! rowEntity p with
      | None => (<[rowEntity p := length out]> index, out ++ [[p]])
      | Some at_ => (index, alter (fun g => g ++ [p]) at_ out)
      end) chunk (index, out)).2 ≡ₚ mjoin out ++ chunk) as Hg.
  { induction chunk as [|p chunk IH]; intros index out Hi; [simpl; by rewrite app_nil_r|]. simpl.
    destruct (index !! rowEntity p) as [at_|] eqn:E.
    - rewrite IH; [|intros e i Hei; rewrite length_alter; by eapply Hi].
      rewrite join_alter_perm by (by eapply Hi). simpl. by rewrite Permutation_middle.
    - rewrite IH; [rewrite mjoin_app; simpl; by rewrite <- app_assoc|].
      apply map_Forall_insert_2; [rewrite length_app; simpl; lia|].
      intros e i Hei. rewrite length_app. specialize (Hi e i Hei). simpl in *. lia. }
  rewrite Hg by apply map_Forall_empty. done.
Qed.

Section Props.
Context `{GoStd} `{GoUlid} `{GoNumeric} `{GoKeys} `{GoQuery} `{GoJsonFloat} `{GoCells}.

(** ** The conversion of the rows *)

Definition names_row (n : nat) (e : ImportError) : Prop := erRow e = n.

Lemma cellOutcome_errors typeID c entity n locale channel text :
  Forall (names_row n) (cellOutcome typeID c entity n locale channel text).2.
Proof. unfold cellOutcome. destruct (cellToRaw _ _); repeat constructor. Qed.

Lemma cellInputs_errors typeID legacy entity n row c :
  Forall (names_row n) (cellInputs typeID legacy entity n row c).2.
Proof.
  unfold cellInputs. destruct (row !! _) as [cell|]; [|constructor].
  destruct (str_IsZero cell); [destruct (mcRequired c); repeat constructor|].
  destruct (scopedCell _ _ _) as [es|]; [|apply cellOutcome_errors].
  induction es as [|e es IH]; simpl; [constructor|]. apply Forall_app. split; [apply cellOutcome_errors|done].
Qed.

Lemma rowInputs_errors typeID cols keyIdx n row legacy :
  Forall (names_row n) (rowInputs typeID cols keyIdx n row legacy).2.
Proof.
  unfold rowInputs. destruct (str_IsZero _); [repeat constructor|]. case_bool_decide; simpl; [constructor|].
  clear. induction cols as [|c cols IH]; simpl; [constructor|].
  apply Forall_app. split; [apply cellInputs_errors|done].
Qed.

(** An input of a converted row names the type and the entity of the row. *)
Definition input_of (typeID entity : string) (i : SetInput) : Prop :=
  siTypeDefinitionID i = typeID /\ siEntityID i = entity.

Lemma cellOutcome_inputs typeID c entity n locale channel text :
  Forall (input_of typeID entity) (cellOutcome typeID c entity n locale channel text).1.
Proof. unfold cellOutcome. destruct (cellToRaw _ _); repeat constructor. Qed.

Lemma cellInputs_inputs typeID legacy entity n row c :
  Forall (input_of typeID entity) (cellInputs typeID legacy entity n row c).1.
Proof.
  unfold cellInputs. destruct (row !! _) as [cell|]; [|constructor].
  destruct (str_IsZero cell); [constructor|].
  destruct (scopedCell _ _ _) as [es|]; [|apply cellOutcome_inputs].
  induction es as [|e es IH]; simpl; [constructor|]. apply Forall_app. split; [apply cellOutcome_inputs|done].
Qed.

Lemma rowInputs_inputs typeID cols keyIdx n row legacy :
  exists entity, Forall (input_of typeID entity) (rowInputs typeID cols keyIdx n row legacy).1 /\
    ((rowInputs typeID cols keyIdx n row legacy).1 = [] \/ row !! keyIdx = Some entity).
Proof.
  unfold rowInputs. destruct (row !! keyIdx) as [e|]; [|by exists EmptyString; split; [constructor|left]].
  exists e. simpl. destruct (str_IsZero e); [by split; [constructor|left]|].
  case_bool_decide; simpl; [|by split; [constructor|left]]. split; [|by right].
  clear. induction cols as [|c cols IH]; simpl; [constructor|].
  apply Forall_app. split; [apply cellInputs_inputs|done].
Qed.

Lemma convertRows_spec typeID cols keyIdx n rows legacy valid bad errs :
  convertRows typeID cols keyIdx n rows legacy = (valid, bad, errs) ->
  (pRow <$> valid) ++ bad ≡ₚ seq n (length rows) /\
  (forall k, k ∈ bad <-> exists e, e ∈ errs /\ erRow e = k) /\
  (forall i, i ∈ inputsOf valid -> siTypeDefinitionID i = typeID /\
     exists row, row ∈ rows /\ row !! keyIdx = Some (siEntityID i)).
Proof.
  revert n valid bad errs. induction rows as [|row rows IH]; intros n valid bad errs; simpl.
  { intros [= <- <- <-]. split_and!; [done| |by intros i Hi%not_elem_of_nil].
    intros k. split; [by intros ?%not_elem_of_nil|by intros (e & ?%not_elem_of_nil & _)]. }
  destruct (convertRows typeID cols keyIdx (S n) rows legacy) as [[valid1 bad1] errs1] eqn:E.
  destruct (IH _ _ _ _ E) as (I1 & I2 & I3).
  pose proof (rowInputs_errors typeID cols keyIdx n row legacy) as He.
  destruct (rowInputs_inputs typeID cols keyIdx n row legacy) as (entity & Hi & Hk).
  destruct (rowInputs typeID cols keyIdx n row legacy) as [inputs [|e0 cellErrs]] eqn:Er; simpl in *; intros [= <- <- <-].
  - split_and!; [simpl; by rewrite I1|done|]. intros i [Hin|Hin]%elem_of_app.
    + rewrite list.Forall_forall in Hi. destruct (Hi i Hin) as [E1 E2]. split; [done|].
      destruct Hk as [->|Hk]; [by apply not_elem_of_nil in Hin|]. exists row. rewrite E2. split; [by left|done].
    + destruct (I3 i Hin) as (J1 & row' & J2 & J3). split; [done|]. exists row'. split; [by right|done].
  - split_and!.
    + rewrite <- Permutation_middle. simpl. by rewrite I1.
    + intros k. rewrite elem_of_cons, I2. rewrite list.Forall_forall in He. split.
      * intros [->|(e & Hin & Ek)].
        -- exists e0. split; [by left|]. apply He. by left.
        -- exists e. split; [|done]. right. apply elem_of_app. by right.
      * intros (e & Hin & <-). apply (elem_of_app (e0 :: cellErrs)) in Hin as [Hin|Hin]; [left; by apply He|right; by exists e].
    + intros i Hin. destruct (I3 i Hin) as (J1 & row' & J2 & J3). split; [done|]. exists row'. split; [by right|done].
Qed.

(** The prepared rows are the rows without an error, converted; the bad ones are
    those with one. *)
Lemma convertRows_rows typeID cols keyIdx n rows legacy valid bad errs :
  convertRows typeID cols keyIdx n rows legacy = (valid, bad, errs) ->
  (forall p, p ∈ valid <-> exists i row, pRow p = (n + i)%nat /\ rows !! i = Some row /\
     rowInputs typeID cols keyIdx (n + i) row legacy = (pInputs p, [])) /\
  (forall k, k ∈ bad <-> exists i row, k = (n + i)%nat /\ rows !! i = Some row /\
     (rowInputs typeID cols keyIdx (n + i) row legacy).2 <> []).
Proof.
  assert (forall (P : nat -> list string -> Prop) n row rows,
    (exists i row', P (n + i)%nat row' /\ (row :: rows) !! i = Some row') <->
    P n row \/ exists i row', P (S n + i)%nat row' /\ rows !! i = Some row') as Hcons.
  { clear. intros P n row rows. split.
    - intros ([|i] & row' & HP & Hi); simpl in Hi; [left; rewrite Nat.add_0_r in HP; by simplify_eq|].
      right. exists i, row'. by replace (S n + i)%nat with (n + S i)%nat by lia.
    - intros [HP|(i & row' & HP & Hi)]; [exists 0%nat, row; by rewrite Nat.add_0_r|].
      exists (S i), row'. by replace (n + S i)%nat with (S n + i)%nat by lia. }
  revert n valid bad errs. induction rows as [|row rows IH]; intros n valid bad errs; simpl.
  { intros [= <- <- <-]. split; intros x;
      (split; [by intros ?%not_elem_of_nil|by intros (i & row & _ & Hi & _)]). }
  destruct (convertRows typeID cols keyIdx (S n) rows legacy) as [[valid1 bad1] errs1] eqn:E.
  destruct (IH _ _ _ _ E) as [I1 I2].
  assert (valid = (match (rowInputs typeID cols keyIdx n row legacy).2 with
      [] => [mkRow n (rowInputs typeID cols keyIdx n row legacy).1] | _ => [] end) ++ valid1 /\
    bad = (match (rowInputs typeID cols keyIdx n row legacy).2 with [] => [] | _ => [n] end) ++ bad1 ->
    (forall p, p ∈ valid <-> exists i row', (pRow p = (n + i)%nat /\
       rowInputs typeID cols keyIdx (n + i) row' legacy = (pInputs p, [])) /\ (row :: rows) !! i = Some row') /\
    (forall k, k ∈ bad <-> exists i row', (k = (n + i)%nat /\
       (rowInputs typeID cols keyIdx (n + i) row' legacy).2 <> []) /\ (row :: rows) !! i = Some row')) as Hend.
  { intros [-> ->]. split.
    - intros p. rewrite (Hcons (fun k row' => pRow p = k /\ rowInputs typeID cols keyIdx k row' legacy = (pInputs p, []))).
      rewrite elem_of_app, I1. destruct (rowInputs typeID cols keyIdx n row legacy) as [inputs [|e es]]; simpl.
      + rewrite list_elem_of_singleton. split; [intros [->|?]; [by left|right; naive_solver]|].
        intros [[Ep [= ->]]|?]; [left; by destruct p; simpl in *; subst|right; naive_solver].
      + split; [intros [Hp%not_elem_of_nil|?]; [done|right; naive_solver]|intros [[_ [=]]|?]; right; naive_solver].
    - intros k. rewrite (Hcons (fun k' row' => k = k' /\ (rowInputs typeID cols keyIdx k' row' legacy).2 <> [])).
      rewrite elem_of_app, I2. destruct (rowInputs typeID cols keyIdx n row legacy) as [inputs [|e es]]; simpl.
      + split; [intros [Hp%not_elem_of_nil|?]; [done|right; naive_solver]|intros [[_ ?]|?]; [done|right; naive_solver]].
      + rewrite list_elem_of_singleton. split; [intros [->|?]; [by left|right; naive_solver]|].
        intros [[-> _]|?]; [by left|right; naive_solver]. }
  intros Hout. destruct Hend as [H1' H2'].
  { by destruct (rowInputs typeID cols keyIdx n row legacy) as [inputs [|e es]]; simplify_eq/=. }
  split; intros x; [rewrite H1'|rewrite H2']; naive_solver.
Qed.

(** ** Units of work *)

(** A unit of work of plain writes, with identifiers from the [n]th on. *)
Definition unit_of (rq : Request) (fresh : nat -> ID) (n : nat) (items : list SetInput) (T : Tables) :
    result (Tables * Collector * list (nat * AttributeValue)) :=
  Execute rq (fun T c => setEach rq (numbered n items) fresh T c []) T.

(** A row by row account of a run from [T]: what it committed, the rows each unit
    of work wrote, the rows refused, what is said of them, and the tables.  A unit
    writes every input of its rows, in the order of the file or the canonical one. *)
Inductive account (rq : Request) (fresh : nat -> ID) (T : Tables) :
    list Collector -> list preparedRow -> list preparedRow -> list ImportError -> Tables -> Prop :=
  | ac_start : account rq fresh T [] [] [] [] T
  | ac_written cs written refused es T1 n rows items c out T2 :
      account rq fresh T cs written refused es T1 ->
      items = inputsOf rows \/ items = inputsOf (canonicalOrder rowEntity rows).*2 ->
      unit_of rq fresh n items T1 = Ok (T2, c, out) ->
      account rq fresh T (cs ++ [c]) (written ++ rows) refused es T2
  | ac_empty cs written refused es T1 rows :
      account rq fresh T cs written refused es T1 -> inputsOf rows = [] ->
      account rq fresh T cs (written ++ rows) refused es T1
  | ac_refused cs written refused es T1 n rows e :
      account rq fresh T cs written refused es T1 ->
      unit_of rq fresh n (inputsOf rows) T1 = Err e ->
      account rq fresh T cs written (refused ++ rows)
        (es ++ ((fun p => importErrorFrom (pRow p) e) <$> rows)) T1.

(** What is said names the rows refused. *)
Lemma account_named rq fresh T cs written refused es T' k :
  account rq fresh T cs written refused es T' ->
  k ∈ pRow <$> refused <-> exists e, e ∈ es /\ erRow e = k.
Proof.
  induction 1 as [|cs w r es T1 n rows items c out T2 _ IH _ _|cs w r es T1 rows _ IH _|cs w r es T1 n rows e _ IH _];
    [|done|done|].
  - split; [by intros ?%not_elem_of_nil|by intros (e & ?%not_elem_of_nil & _)].
  - rewrite fmap_app, elem_of_app, IH. setoid_rewrite elem_of_app. split.
    + intros [(x & Hx & Ek)|(p & -> & Hp)%list_elem_of_fmap]; [exists x; split; [by left|done]|].
      exists (importErrorFrom (pRow p) e). split; [right|done]. apply list_elem_of_fmap. by exists p.
    + intros (x & [Hx|(p & -> & Hp)%list_elem_of_fmap] & Ek); [left; by exists x|].
      right. rewrite <- Ek. apply list_elem_of_fmap. by exists p.
Qed.


Section Runs.
Context (rq : Request) (fresh : nat -> ID) (raw : string) (ids : list EntityID).
Context (Hinj : Inj (=) (=) fresh).

Lemma setEach_quiet items n T c out T' c' out' :
  quiet rq fresh raw ids n T -> Forall (imports raw ids) items ->
  setEach rq (numbered n items) fresh T c out = Ok (T', c', out') ->
  quiet rq fresh raw ids (n + length items) T'.
Proof using Hinj.
  revert n T c out. induction items as [|i items IH]; intros n T c out HQ Hall.
  { simpl. intros [= <- <- <-]. by rewrite Nat.add_0_r. }
  apply list.Forall_cons in Hall as [Hi Hall]. cbn [length]. rewrite numbered_cons. cbn [setEach]. intros Hs.
  apply res_bind_ok in Hs as ([[T1 c1] av] & Hw & Hs). simpl in Hs.
  rewrite Nat.add_succ_r. eapply (IH (S n) T1 c1); [|done|exact Hs]. by eapply quiet_set.
Qed.

Lemma numbered_indices n items : (numbered n items).*1 = seq n (length items).
Proof.
  revert n. induction items as [|i items IH]; intros n; [done|]. rewrite numbered_cons, fmap_cons, IH. done.
Qed.

(** A unit of work of plain writes, from the next identifier on. *)
Lemma unit_step items n T T' c out :
  quiet rq fresh raw ids n T -> table_reachable T -> Forall (imports raw ids) items ->
  Execute rq (fun T c => setEach rq (numbered n items) fresh T c []) T = Ok (T', c, out) ->
  quiet rq fresh raw ids (n + length items) T' /\ table_reachable T'.
Proof using Hinj.
  intros HQ HT Hall He. split.
  - apply Execute_ok in He as [He _]. by eapply setEach_quiet.
  - eapply tr_step; [exact HT|]. eapply (tb_writes _ _ rq (numbered n items) fresh); [done| | |exact He].
    + rewrite numbered_indices. apply NoDup_seq.
    + intros k Hk. rewrite numbered_indices in Hk. apply elem_of_seq in Hk. apply (qu_fresh _ _ _ _ _ _ HQ). lia.
Qed.

(** The writes of an import, without its cache. *)
Definition plainWrites (rows : list preparedRow) (n : nat) (T : Tables) (c : Collector) :
    result (Tables * Collector * list (nat * AttributeValue)) :=
  setEach rq (numbered n (inputsOf (canonicalOrder rowEntity rows).*2)) fresh T c [].

Lemma writeAll_agrees rows n T c :
  quiet rq fresh raw ids n T -> Forall (imports raw ids) (inputsOf rows) ->
  (forall e, e ∈ preparedEntityIDs rows -> e ∈ ids) ->
  same_unit (plainWrites rows n T c) (writeAll rq rows fresh n T c).
Proof using Hinj.
  intros HQ Hall Hids. unfold plainWrites, writeAll.
  apply (writeAll_plain rq fresh raw (preparedEntityIDs rows)); [done| |apply prefetch_ok|].
  - destruct HQ as [Q1 Q2 Q3 Q4]. split; auto.
  - rewrite list.Forall_forall in *. intros i Hi. split; [by apply Hall|]. intros e He.
    apply preparedEntityIDs_spec. by exists i.
Qed.

Lemma execute_agrees {A B} (f : Tables -> Collector -> result (Tables * Collector * A))
    (g : Tables -> Collector -> result (Tables * Collector * B)) T :
  agrees (fun x y => x.1 = y.1) (f T newCollector) (g T newCollector) ->
  agrees (fun x y => x.1 = y.1) (Execute rq f T) (Execute rq g T).
Proof using.
  intros Hag. unfold Execute. apply (agrees_bind _ _ _ _ _ _ Hag). intros [[T1 c1] a] [[T2 c2] b] _ [= <- <-].
  apply (agrees_bind eq); [by destruct (gate c1) as [g0|]; [destruct (enforceRequiredOnWrite _ _ _)|]|]. done.
Qed.

Lemma unit_agrees rows n T c :
  quiet rq fresh raw ids n T -> Forall (imports raw ids) (inputsOf rows) ->
  (forall e, e ∈ preparedEntityIDs rows -> e ∈ ids) ->
  agrees (fun x y => x.1 = y.1) (plainWrites rows n T c) (asResult (writeAll rq rows fresh n T c)).
Proof using Hinj.
  intros HQ Hall Hids. pose proof (writeAll_agrees rows n T c HQ Hall Hids) as Hs. revert Hs.
  destruct (plainWrites rows n T c) as [[[T1 c1] o]|e], (writeAll rq rows fresh n T c) as [[T2 c2]|[row e']];
    simpl; try done. by intros [-> ->].
Qed.

Lemma chunk_agrees rows n T :
  quiet rq fresh raw ids n T -> Forall (imports raw ids) (inputsOf rows) ->
  (forall e, e ∈ preparedEntityIDs rows -> e ∈ ids) ->
  agrees (fun x y => x.1 = y.1) (Execute rq (plainWrites rows n) T) (writeChunk rq rows fresh n T).
Proof using Hinj. intros HQ Hall Hids. apply execute_agrees. by apply unit_agrees. Qed.

Lemma chunk_step rows n T T' c u :
  quiet rq fresh raw ids n T -> table_reachable T -> Forall (imports raw ids) (inputsOf rows) ->
  (forall e, e ∈ preparedEntityIDs rows -> e ∈ ids) ->
  writeChunk rq rows fresh n T = Ok (T', c, u) ->
  quiet rq fresh raw ids (n + length (inputsOf rows)) T' /\ table_reachable T'.
Proof using Hinj.
  intros HQ HT Hall Hids Hw. pose proof (chunk_agrees rows n T HQ Hall Hids) as Hag.
  rewrite Hw in Hag. destruct (Execute rq (plainWrites rows n) T) as [[[T1 c1] o]|] eqn:E; [|done].
  injection Hag as -> ->.
  rewrite <- (Permutation_length (canonical_inputs rows)). eapply unit_step; [done|done| |exact E].
  by rewrite canonical_inputs.
Qed.

(** ** The books of a run *)

Lemma quiet_later n n' T : quiet rq fresh raw ids n T -> (n <= n')%nat -> quiet rq fresh raw ids n' T.
Proof using. intros [Q1 Q2 Q3 Q4] Hn. split; try done. intros k Hk. apply Q3. lia. Qed.

Context (T0 : Tables) (bad : list nat) (errs : list ImportError).

(** [seen] are the converted rows dealt with: each written, or refused and
    reported; [bad] and [errs] are what the conversion left. *)
Record run_ok (seen : list preparedRow) (s : Run) : Prop := {
  rk_reach : table_reachable (rnTables s);
  rk_quiet : quiet rq fresh raw ids (rnNext s) (rnTables s);
  rk_account : exists written refused es,
    account rq fresh T0 (rnCommitted s) written refused es (rnTables s) /\
    written ++ refused ≡ₚ seen /\ rnWritten s = length written /\
    erroredRows s = list_to_set (bad ++ (pRow <$> refused)) /\ rnErrors s = errs ++ es }.

Lemma run_ok_perm seen seen' s : seen ≡ₚ seen' -> run_ok seen s -> run_ok seen' s.
Proof using.
  intros HP [R1 R2 (w & r & es & A1 & A2 & A3)]. split; [done|done|]. exists w, r, es. by rewrite <- HP.
Qed.

Lemma written_ok seen s T' cs c n n' out (rows : list preparedRow) items :
  run_ok seen s -> table_reachable T' -> quiet rq fresh raw ids n' T' ->
  items = inputsOf rows \/ items = inputsOf (canonicalOrder rowEntity rows).*2 ->
  unit_of rq fresh n items (rnTables s) = Ok (T', c, out) -> cs = rnCommitted s ++ [c] ->
  run_ok (seen ++ rows) (mkRun T' cs n' (erroredRows s) (rnWritten s + length rows) (rnErrors s)).
Proof using.
  intros [R1 R2 (w & r & es & A1 & A2 & A3 & A4 & A5)] HT HQ Hi Hu ->. split; simpl; [done|done|].
  exists (w ++ rows), r, es. split_and!; [by eapply ac_written| |by rewrite length_app, A3|done|done].
  by rewrite <- A2, <- app_assoc, (Permutation_app_comm rows r), app_assoc.
Qed.

Lemma failed_ok seen s n n' (rows : list preparedRow) e :
  run_ok seen s -> (rnNext s <= n')%nat -> unit_of rq fresh n (inputsOf rows) (rnTables s) = Err e ->
  run_ok (seen ++ rows)
    (mkRun (rnTables s) (rnCommitted s) n' (list_to_set (pRow <$> rows) ∪ erroredRows s) (rnWritten s)
      (rnErrors s ++ ((fun p => importErrorFrom (pRow p) e) <$> rows))).
Proof using Hinj.
  intros [R1 R2 (w & r & es & A1 & A2 & A3 & A4 & A5)] Hn Hu. split; simpl; [done|by eapply quiet_later|].
  exists w, (r ++ rows), (es ++ ((fun p => importErrorFrom (pRow p) e) <$> rows)).
  split_and!; [by eapply ac_refused|by rewrite app_assoc, A2|done| |by rewrite A5, app_assoc].
  rewrite A4, fmap_app, !list_to_set_app_L. set_solver.
Qed.

Lemma retry_ok seen s rows :
  run_ok seen s -> Forall (imports raw ids) (inputsOf rows) ->
  run_ok (seen ++ rows) (retryEntity rq fresh s rows).
Proof using Hinj.
  intros HR Hall. unfold retryEntity, applyRow. case_bool_decide as E0.
  { destruct HR as [R1 R2 (w & r & es & A1 & A2 & A3 & A4 & A5)]. split; simpl; [done|by rewrite E0, Nat.add_0_r|].
    exists (w ++ rows), r, es. rewrite app_nil_r.
    split_and!; [by apply ac_empty; [|apply nil_length_inv]| |by rewrite length_app, A3|done|done].
    by rewrite <- A2, <- app_assoc, (Permutation_app_comm rows r), app_assoc. }
  destruct (Execute rq _ _) as [[[T' c] out]|e] eqn:Ee; simpl; [|by eapply failed_ok; [|lia|]].
  destruct (unit_step _ _ _ _ _ _ (rk_quiet _ _ HR) (rk_reach _ _ HR) Hall Ee).
  eapply written_ok; [done|done|done|by left|exact Ee|done].
Qed.

Lemma retries_ok groups seen s :
  run_ok seen s -> Forall (imports raw ids) (inputsOf (mjoin groups)) ->
  run_ok (seen ++ mjoin groups) (fold_left (retryEntity rq fresh) groups s).
Proof using Hinj.
  revert seen s. induction groups as [|g groups IH]; intros seen s HR Hall; [by rewrite app_nil_r|].
  rewrite mjoin_cons in *. rewrite app_assoc in *. unfold inputsOf in Hall.
  rewrite fmap_app, mjoin_app in Hall. apply Forall_app in Hall as [Hg Hall]. cbn [fold_left].
  apply IH; [|done]. by apply retry_ok.
Qed.

Definition within (rows : list preparedRow) : Prop := forall e, e ∈ preparedEntityIDs rows -> e ∈ ids.

Lemma group_ok seen s group :
  run_ok seen s -> Forall (imports raw ids) (inputsOf group) ->
  within group -> run_ok (seen ++ group) (importGroup rq fresh s group).
Proof using Hinj.
  intros HR Hall Hw. unfold importGroup.
  pose proof (chunk_agrees group _ _ (rk_quiet _ _ HR) Hall Hw) as Hag. revert Hag.
  destruct (writeChunk rq group fresh (rnNext s) (rnTables s)) as [[[T' c] u]|e] eqn:E.
  - destruct (Execute rq _ (rnTables s)) as [[[T1 c1] out]|] eqn:Ee; [|done]. intros [= -> ->].
    destruct (chunk_step _ _ _ _ _ _ (rk_quiet _ _ HR) (rk_reach _ _ HR) Hall Hw E).
    eapply written_ok; [done|done|done|by right|exact Ee|done].
  - intros _. pose proof (groupByEntity_perm group) as HP.
    apply (run_ok_perm (seen ++ mjoin (groupByEntity group))); [by rewrite HP|].
    apply retries_ok; [|by rewrite (inputsOf_perm _ _ HP)].
    destruct HR as [R1 R2 R3]. split; simpl; try done. apply (quiet_later (rnNext s)); [done|lia].
Qed.

Lemma within_app rows rows' : within (rows ++ rows') -> within rows /\ within rows'.
Proof using.
  intros Hw. split; intros e (i & Hi & He)%preparedEntityIDs_spec; apply Hw, preparedEntityIDs_spec;
    exists i; (split; [|done]); unfold inputsOf; rewrite fmap_app, mjoin_app; apply elem_of_app; [by left|by right].
Qed.

Lemma groups_ok groups seen s :
  run_ok seen s -> Forall (imports raw ids) (inputsOf (mjoin groups)) ->
  within (mjoin groups) -> run_ok (seen ++ mjoin groups) (fold_left (importGroup rq fresh) groups s).
Proof using Hinj.
  revert seen s. induction groups as [|g groups IH]; intros seen s HR Hall Hw; [by rewrite app_nil_r|].
  rewrite mjoin_cons in *. apply within_app in Hw as [Hw1 Hw2].
  rewrite app_assoc in *. unfold inputsOf in Hall.
  rewrite fmap_app, mjoin_app in Hall. apply Forall_app in Hall as [Hg Hall]. cbn [fold_left].
  apply IH; [|done|done]. by apply group_ok.
Qed.

Lemma best_effort_ok valid s :
  run_ok [] s -> Forall (imports raw ids) (inputsOf valid) -> within valid ->
  run_ok valid (importBestEffort rq valid fresh s).
Proof using Hinj.
  intros HR Hall Hw. unfold importBestEffort.
  pose proof (groups_ok (entityChunks valid) [] s HR) as Hg. rewrite entityChunks_join in Hg. by apply Hg.
Qed.
End Runs.

(** ** The three ways to run *)

(** A dry run keeps the tables and commits nothing; it refuses the rows whose unit
    of work would be refused. *)
Record preview_ok (rq : Request) (fresh : nat -> ID) (T : Tables) (bad : list nat) (errs : list ImportError)
    (seen : list preparedRow) (s : Run) : Prop := {
  pv_tables : rnTables s = T;
  pv_committed : rnCommitted s = [];
  pv_written : rnWritten s = 0%nat;
  pv_rows : exists passed refused es, passed ++ refused ≡ₚ seen /\
    Forall (fun p => pInputs p = [] \/ exists n r, unit_of rq fresh n (pInputs p) T = Ok r) passed /\
    Forall (fun p => exists n e, unit_of rq fresh n (pInputs p) T = Err e) refused /\
    erroredRows s = list_to_set (bad ++ (pRow <$> refused)) /\
    rnErrors s = errs ++ es /\ erRow <$> es = pRow <$> refused }.

Lemma preview_step rq fresh T bad errs seen s p :
  preview_ok rq fresh T bad errs seen s -> preview_ok rq fresh T bad errs (seen ++ [p]) (previewRow rq fresh s p).
Proof.
  intros [P1 P2 P3 (w & r & es & A1 & A2 & A3 & A4 & A5 & A6)]. unfold previewRow, applyRow.
  assert (pInputs p = [] \/ (exists n r, unit_of rq fresh n (pInputs p) T = Ok r) ->
    exists passed refused es', passed ++ refused ≡ₚ seen ++ [p] /\
    Forall (fun p => pInputs p = [] \/ exists n r, unit_of rq fresh n (pInputs p) T = Ok r) passed /\
    Forall (fun p => exists n e, unit_of rq fresh n (pInputs p) T = Err e) refused /\
    erroredRows s = list_to_set (bad ++ (pRow <$> refused)) /\
    rnErrors s = errs ++ es' /\ erRow <$> es' = pRow <$> refused) as Hpass.
  { intros Hp. exists (w ++ [p]), r, es. split_and!; try done; [|by apply Forall_app; split; [|constructor]].
    by rewrite <- A1, <- app_assoc, (Permutation_app_comm [p] r), app_assoc. }
  case_bool_decide as E0.
  { apply nil_length_inv in E0. split; simpl; [done|by rewrite app_nil_r|done|]. apply Hpass. by left. }
  fold (unit_of rq fresh (rnNext s) (pInputs p) (rnTables s)). rewrite P1.
  destruct (unit_of rq fresh (rnNext s) (pInputs p) T) as [[[T' c] out]|e] eqn:Ee; simpl.
  { split; simpl; [done|by rewrite app_nil_r|done|]. apply Hpass. right. eauto. }
  split; simpl; [done|done|done|].
  exists w, (r ++ [p]), (es ++ [importErrorFrom (pRow p) e]). split_and!.
  - by rewrite app_assoc, A1.
  - done.
  - apply Forall_app. split; [done|]. repeat constructor. by exists (rnNext s), e.
  - rewrite A4, fmap_app, !list_to_set_app_L. set_solver.
  - by rewrite A5, app_assoc.
  - by rewrite !fmap_app, A6.
Qed.

Lemma previews_ok rq fresh T bad errs valid seen s :
  preview_ok rq fresh T bad errs seen s ->
  preview_ok rq fresh T bad errs (seen ++ valid) (fold_left (previewRow rq fresh) valid s).
Proof.
  revert seen s. induction valid as [|p valid IH]; intros seen s HP; [by rewrite app_nil_r|].
  rewrite (cons_middle p seen valid), app_assoc. cbn [fold_left]. by apply IH, preview_step.
Qed.

Lemma writeRows_row rq items fresh n T c m row e :
  writeRows rq items fresh n T c m = inr (row, e) -> row ∈ items.*1.
Proof.
  revert n T c m. induction items as [|[r i] items IH]; intros n T c m; [done|]. cbn [writeRows].
  destruct (setImported _ _ _ _ _ _) as [[[T1 c1] m1]|e1]; [|intros [= -> _]; by left].
  intros Hw. right. by eapply IH.
Qed.

Lemma rowWrites_rows rows k : k ∈ (rowWrites rows).*1 -> k ∈ pRow <$> rows.
Proof.
  intros ([r i] & -> & Hin)%list_elem_of_fmap. unfold rowWrites in Hin.
  apply list_elem_of_join in Hin as (l & Hin & (p & -> & Hp)%list_elem_of_fmap).
  apply list_elem_of_fmap in Hin as (j & [= -> ->] & _). apply list_elem_of_fmap. by exists p.
Qed.

Lemma writeAll_row rq rows fresh n T c row e :
  writeAll rq rows fresh n T c = inr (row, e) -> row ∈ pRow <$> rows.
Proof.
  intros Hk%writeRows_row%rowWrites_rows. by rewrite canonical_perm in Hk.
Qed.

Lemma rowOfEntity_row valid entity :
  rowOfEntity valid entity = 0%nat \/ rowOfEntity valid entity ∈ pRow <$> valid.
Proof.
  unfold rowOfEntity. destruct (str_IsZero entity); [by left|].
  destruct (List.find _ valid) as [p|] eqn:E; [|by left]. right. apply find_some in E as [Hp _].
  apply list_elem_of_fmap. exists p. split; [done|by apply list_elem_of_In].
Qed.

(** All or nothing. *)
Lemma transactional_cases rq valid fresh s :
  let s' := importTransactional rq valid fresh s in
  (rnErrors s = [] /\ rnErrors s' = [] /\ erroredRows s' = erroredRows s /\ rnWritten s' = length valid /\
   exists c u, writeChunk rq valid fresh (rnNext s) (rnTables s) = Ok (rnTables s', c, u) /\
     rnCommitted s' = rnCommitted s ++ [c]) \/
  (rnErrors s' <> [] /\ rnTables s' = rnTables s /\ rnCommitted s' = rnCommitted s /\
   rnWritten s' = rnWritten s /\
   (rnErrors s <> [] \/ exists e, writeChunk rq valid fresh (rnNext s) (rnTables s) = Err e) /\
   forall k, k ∈ erroredRows s' -> k ∈ erroredRows s \/ k ∈ pRow <$> valid).
Proof.
  unfold importTransactional. case_bool_decide as E0; simpl.
  2: { assert (rnErrors s <> []) as Hne by (by intros E; rewrite E in E0). right. split_and!; try done; by left. }
  apply nil_length_inv in E0. unfold writeChunk. destruct (Execute rq _ _) as [[[T' c] u]|e] eqn:Ee; simpl.
  { left. split_and!; try done. by exists c, u. }
  right. split_and!; try done; [by rewrite E0|right; by exists e|].
  set (failed := match writeAll rq valid fresh (rnNext s) (rnTables s) newCollector with
                 | inl _ => _ | inr _ => _ end).
  assert (failed = 0%nat \/ failed ∈ pRow <$> valid) as Hf.
  { unfold failed. destruct (writeAll _ _ _ _ _ _) as [[T1 c1]|[row e1]] eqn:Ew; [apply rowOfEntity_row|].
    right. by eapply writeAll_row. }
  intros k. case_bool_decide as Ez; [by left|].
  rewrite elem_of_union, elem_of_singleton. intros [->|Hk]; [destruct Hf; [done|by right]|by left].
Qed.

(** ** The theorems *)

Lemma quiet_start rq fresh raw ids n T :
  table_reachable T -> (forall k, (n <= k)%nat -> vals T !! fresh k = None) ->
  (forall e, e ∈ ids -> narrows T (rqTenant rq) raw e = false) -> quiet rq fresh raw ids n T.
Proof. intros [HT HV]%table_reachable_ok Hf Hn. by split. Qed.

(** C16: an import that reads definitions, rules and values through the cache of
    its unit of work does exactly what the plain write path does cell by cell:
    for any rows of one type, none of whose writes narrows its entity, the unit
    of work through the prefetched cache and the same writes in the canonical
    order without a cache end in the same tables, events, changes and media to
    collect, or are refused with the same error. *)
Theorem import_cache_transparent rq rows fresh n T raw :
  table_reachable T -> Inj (=) (=) fresh -> (forall k, (n <= k)%nat -> vals T !! fresh k = None) ->
  (forall i, i ∈ inputsOf rows ->
     siTypeDefinitionID i = raw /\ narrows T (rqTenant rq) raw (siEntityID i) = false) ->
  writeChunk rq rows fresh n T =
    (let! r := Execute rq (fun T c =>
       setEach rq (numbered n (inputsOf (canonicalOrder rowEntity rows).*2)) fresh T c []) T in
     Ok (r.1, tt)).
Proof.
  intros HT Hinj Hf Hi. pose proof (chunk_agrees rq fresh raw (preparedEntityIDs rows) Hinj rows n T) as Hag.
  revert Hag. unfold plainWrites. destruct (Execute rq _ T) as [[[T1 c1] o]|e]; intros Hag.
  all: simpl; destruct (writeChunk rq rows fresh n T) as [[[T2 c2] []]|e']; simpl in Hag.
  all: assert (quiet rq fresh raw (preparedEntityIDs rows) n T) as HQ by
    (apply quiet_start; [done|done|]; intros e0 (i & Hin & He)%preparedEntityIDs_spec;
     assert (e0 = siEntityID i) as -> by (unfold ParseEntityID in He; by res_inv); by apply Hi).
  all: assert (Forall (imports raw (preparedEntityIDs rows)) (inputsOf rows)) as Hall by
    (apply list.Forall_forall; intros i Hin; split; [by apply Hi|];
     intros e0 He; apply preparedEntityIDs_spec; by exists i).
  all: specialize (Hag HQ Hall (fun _ Hx => Hx)); by simplify_eq.
Qed.

(** *** The parts of a run *)

(** A prepared row is a row of the file that converts without an error: its number
    and its inputs. *)
Definition converts (im : ImportInput) (cols : list mappedColumn) (keyIdx : nat) (p : preparedRow) : Prop :=
  exists i row, pRow p = S i /\ Rows im !! i = Some row /\
    rowInputs (imTypeDefinitionID im) cols keyIdx (S i) row (AllowLegacy im) = (pInputs p, []).

Definition unconvertible (im : ImportInput) (cols : list mappedColumn) (keyIdx k : nat) : Prop :=
  exists i row, k = S i /\ Rows im !! i = Some row /\
    (rowInputs (imTypeDefinitionID im) cols keyIdx (S i) row (AllowLegacy im)).2 <> [].

(** Every row of the file is written, refused, or did not convert; the errored rows
    are the last two kinds. *)
Definition accounted (im : ImportInput) (cols : list mappedColumn) (keyIdx : nat) (s : Run)
    (written refused : list preparedRow) : Prop :=
  (forall p, p ∈ written ++ refused <-> converts im cols keyIdx p) /\
  NoDup (pRow <$> (written ++ refused)) /\
  (forall k, k ∈ erroredRows s <-> k ∈ pRow <$> refused \/ unconvertible im cols keyIdx k).

Section Outcome.
Context (rq : Request) (im : ImportInput) (fresh : nat -> ID) (T : Tables).
Context (valid : list preparedRow) (bad : list nat) (errs : list ImportError).

(** The run before the first unit of work. *)
Definition started : Run := mkRun T [] 0 (list_to_set bad) 0 errs.

Definition importMode : ImportMode := if str_IsZero (Mode im) then ImportBestEffort else Mode im.

Definition finished : Run :=
  if DryRun im then fold_left (previewRow rq fresh) valid started
  else if bool_decide (importMode = ImportTransactional) then importTransactional rq valid fresh started
  else importBestEffort rq valid fresh started.

Context (cols : list mappedColumn) (keyIdx : nat).
Context (Ec : convertRows (imTypeDefinitionID im) cols keyIdx 1 (Rows im) (AllowLegacy im) = (valid, bad, errs)).

Lemma rows_partition : bad ++ (pRow <$> valid) ≡ₚ seq 1 (length (Rows im)).
Proof using Ec. rewrite Permutation_app_comm. by destruct (convertRows_spec _ _ _ _ _ _ _ _ _ Ec) as (C1 & _). Qed.

Lemma rows_distinct : NoDup (bad ++ (pRow <$> valid)).
Proof using Ec. rewrite rows_partition. apply NoDup_seq. Qed.

Lemma rows_count : (length bad + length valid = length (Rows im))%nat.
Proof using Ec.
  pose proof (Permutation_length rows_partition) as Hl. by rewrite length_app, length_fmap, length_seq in Hl.
Qed.

(** Rows of the file that errored leave as many valid rows as the report says. *)
Lemma report_adds (s : Run) :
  (forall k, k ∈ erroredRows s -> k ∈ bad ++ (pRow <$> valid)) ->
  (length (Rows im) - size (erroredRows s) + size (erroredRows s) = length (Rows im))%nat /\
  forall k, k ∈ erroredRows s -> (1 <= k <= length (Rows im))%nat.
Proof using Ec.
  intros Hs. split.
  - assert (size (erroredRows s) <= length (Rows im))%nat; [|lia].
    rewrite <- (length_seq (length (Rows im)) 1), <- rows_partition.
    rewrite <- (size_list_to_set (C := gset nat) _ rows_distinct). apply subseteq_size. intros k Hk.
    apply elem_of_list_to_set. auto.
  - intros k Hk. apply Hs in Hk. rewrite rows_partition in Hk. apply elem_of_seq in Hk. lia.
Qed.

Lemma started_preview : preview_ok rq fresh T bad errs [] started.
Proof using.
  split; try done. exists [], [], []. rewrite !app_nil_r. split_and!; constructor.
Qed.

(** What the rows of the file became. *)
Lemma rows_accounted (s : Run) written refused :
  written ++ refused ≡ₚ valid -> erroredRows s = list_to_set (bad ++ (pRow <$> refused)) ->
  accounted im cols keyIdx s written refused /\
  (length written + size (erroredRows s) = length (Rows im))%nat.
Proof using Ec fresh.
  intros HP He. destruct (convertRows_rows _ _ _ _ _ _ _ _ _ Ec) as [C1 C2]. pose proof rows_distinct as Hnd.
  rewrite <- HP, fmap_app, app_assoc, (Permutation_app_comm bad), <- app_assoc in Hnd.
  pose proof Hnd as (N1 & N2 & N3)%NoDup_app. split; [split_and!|].
  - intros p. rewrite HP. apply C1.
  - rewrite fmap_app. rewrite Permutation_app_comm, <- app_assoc in Hnd.
    rewrite Permutation_app_comm. apply NoDup_app in Hnd as (_ & _ & Hnd). done.
  - intros k. rewrite He, elem_of_list_to_set, elem_of_app, C2. unfold unconvertible. tauto.
  - rewrite He, size_list_to_set by done. rewrite length_app, length_fmap, <- rows_count.
    rewrite <- (Permutation_length HP), length_app. lia.
Qed.

Context (Hinj : Inj (=) (=) fresh) (HT : table_reachable T) (Hf : forall k, vals T !! fresh k = None).
Context (Hn : forall row e, row ∈ Rows im -> row !! keyIdx = Some e ->
  narrows T (rqTenant rq) (imTypeDefinitionID im) e = false).

Lemma converted_imports : Forall (imports (imTypeDefinitionID im) (preparedEntityIDs valid)) (inputsOf valid).
Proof using Ec.
  destruct (convertRows_spec _ _ _ _ _ _ _ _ _ Ec) as (_ & _ & C3).
  apply list.Forall_forall. intros i Hin. split; [by apply C3|]. intros e He.
  apply preparedEntityIDs_spec. by exists i.
Qed.

Lemma started_ok : run_ok rq fresh (imTypeDefinitionID im) (preparedEntityIDs valid) T bad errs [] started.
Proof using Ec HT Hf Hn.
  split; simpl; [done| |].
  - apply quiet_start; [done|auto|]. intros e (i & Hin & He)%preparedEntityIDs_spec.
    destruct (convertRows_spec _ _ _ _ _ _ _ _ _ Ec) as (_ & _ & C3).
    destruct (C3 i Hin) as (_ & row & Hrow & Hk). apply (Hn row); [done|].
    unfold ParseEntityID in He. by res_inv.
  - exists [], [], []. rewrite !app_nil_r. split_and!; try done. apply ac_start.
Qed.

Lemma errors_of_bad : errs <> [] -> exists k, k ∈ bad.
Proof using Ec.
  destruct (convertRows_spec _ _ _ _ _ _ _ _ _ Ec) as (_ & C2 & _). intros He.
  destruct errs as [|e l]; [done|]. exists (erRow e). apply C2. exists e. split; [left|done].
Qed.

Lemma transactional_outcome :
  let s := importTransactional rq valid fresh started in
  let plain := inputsOf (canonicalOrder rowEntity valid).*2 in
  table_reachable (rnTables s) /\ (forall k, k ∈ erroredRows s -> k ∈ bad ++ (pRow <$> valid)) /\
  ((rnErrors s = [] /\ erroredRows s = ∅ /\ bad = [] /\ rnWritten s = length valid /\
    exists c out, rnCommitted s = [c] /\ unit_of rq fresh 0 plain T = Ok (rnTables s, c, out)) \/
   (rnErrors s <> [] /\ rnTables s = T /\ rnCommitted s = [] /\ rnWritten s = 0%nat /\
    ((exists k, k ∈ bad) \/ exists e, unit_of rq fresh 0 plain T = Err e))).
Proof using Ec HT Hf Hn Hinj.
  cbv zeta. pose proof (rk_quiet _ _ _ _ _ _ _ _ _ started_ok) as HQ.
  pose proof (chunk_agrees _ _ _ _ Hinj _ _ _ HQ converted_imports (fun _ Hx => Hx)) as Hag. cbn [rnTables rnNext started] in Hag.
  change (Execute rq (plainWrites rq fresh valid 0) T)
    with (unit_of rq fresh 0 (inputsOf (canonicalOrder rowEntity valid).*2) T) in Hag.
  destruct (transactional_cases rq valid fresh started)
    as [(E1 & E2 & E3 & E4 & c & u & Hw & Ecs)|(E1 & E2 & E3 & E4 & E5 & E6)].
  - destruct (chunk_step _ _ _ _ Hinj _ _ _ _ _ _ HQ HT converted_imports (fun _ Hx => Hx) Hw) as [_ HT'].
    cbn [rnTables rnNext rnErrors rnCommitted erroredRows started] in *. rewrite Hw in Hag.
    assert (bad = []) as Eb.
    { destruct (convertRows_spec _ _ _ _ _ _ _ _ _ Ec) as (_ & C2 & _). clear -C2 E1. destruct bad as [|k b]; [done|].
      destruct (proj1 (C2 k)) as (e & He & _); [left|]. rewrite E1 in He. by apply not_elem_of_nil in He. }
    assert (erroredRows (importTransactional rq valid fresh started) = ∅) as E0 by (by rewrite E3, Eb).
    split_and!; [done|intros k Hk; rewrite E0 in Hk; by apply not_elem_of_empty in Hk|left].
    split_and!; [done|done|done|done|]. exists c.
    destruct (unit_of _ _ _ _ T) as [[[T1 c1] out]|]; [|done]. injection Hag as -> ->. by exists out.
  - cbn [rnTables rnNext rnErrors rnCommitted erroredRows started] in *.
    split_and!; [by rewrite E2| |right].
    + intros k Hk. apply elem_of_app.
      destruct (E6 k Hk) as [Hk'|]; [left; by apply elem_of_list_to_set in Hk'|by right].
    + split_and!; [done|done|done|done|]. destruct E5 as [He|[e He]]; [left; by apply errors_of_bad|].
      right. exists e. rewrite He in Hag. destruct (unit_of _ _ _ _ T) as [[[T1 c1] out]|]; [done|by simpl in Hag; subst].
Qed.
End Outcome.

(** C15: the outcome of an import, none of whose rows narrows its entity.  The
    tables stay reachable by plain writes, so everything proved of them holds.
    The report adds up: every row of the file is either valid or errored.  A dry
    run changes nothing and commits nothing, and calls a row errored exactly when it
    does not convert or a unit of work with its inputs is refused.  A transactional
    import writes every row, in one unit of plain writes, and reports no error; or,
    where a row does not convert or that unit is refused, reports an error and leaves
    the tables untouched.  A best-effort import ends in the tables that units of
    plain writes of exactly the rows it calls valid make, one after the other, each
    row's inputs all in one unit; every other row did not convert, or was in a unit
    that was refused and left nothing; and the errors name exactly those rows. *)
Theorem import_outcome rq im fresh T s rep :
  table_reachable T -> Inj (=) (=) fresh -> (forall k, vals T !! fresh k = None) ->
  (forall cols k row e, resolveMapping rq T im = Ok (cols, k) -> row ∈ Rows im -> row !! k = Some e ->
     narrows T (rqTenant rq) (imTypeDefinitionID im) e = false) ->
  Import rq im fresh T = Ok (s, rep) ->
  table_reachable (rnTables s) /\
  RowsTotal rep = length (Rows im) /\
  (RowsValid rep + size (erroredRows s) = RowsTotal rep)%nat /\
  (forall k, k ∈ erroredRows s -> (1 <= k <= RowsTotal rep)%nat) /\
  exists cols keyIdx, resolveMapping rq T im = Ok (cols, keyIdx) /\
  if DryRun im then
    rnTables s = T /\ rnCommitted s = [] /\ RowsWritten rep = 0%nat /\
    (forall k, k ∈ erroredRows s <-> exists e, e ∈ Errors rep /\ erRow e = k) /\
    exists passed refused, accounted im cols keyIdx s passed refused /\
      Forall (fun p => pInputs p = [] \/ exists n r, unit_of rq fresh n (pInputs p) T = Ok r) passed /\
      Forall (fun p => exists n e, unit_of rq fresh n (pInputs p) T = Err e) refused
  else if bool_decide (Mode im = ImportTransactional) then
    (Errors rep = [] /\ RowsWritten rep = RowsTotal rep /\ RowsValid rep = RowsTotal rep /\
     exists written c out, accounted im cols keyIdx s written [] /\ rnCommitted s = [c] /\
       unit_of rq fresh 0 (inputsOf (canonicalOrder rowEntity written).*2) T = Ok (rnTables s, c, out)) \/
    (Errors rep <> [] /\ rnTables s = T /\ rnCommitted s = [] /\ RowsWritten rep = 0%nat /\
     ((exists k, unconvertible im cols keyIdx k) \/
      exists rows e, (forall p, p ∈ rows <-> converts im cols keyIdx p) /\
        unit_of rq fresh 0 (inputsOf (canonicalOrder rowEntity rows).*2) T = Err e))
  else
    RowsWritten rep = RowsValid rep /\
    (forall k, k ∈ erroredRows s <-> exists e, e ∈ Errors rep /\ erRow e = k) /\
    exists written refused es, accounted im cols keyIdx s written refused /\
      RowsWritten rep = length written /\
      account rq fresh T (rnCommitted s) written refused es (rnTables s).
Proof.
  intros HT Hinj Hf Hn Hi. unfold Import in Hi. res_inv.
  match goal with E : resolveMapping rq T im = Ok ?x |- _ => destruct x as [cols keyIdx]; rename E into Hmap end.
  destruct (convertRows _ _ _ _ _ _) as [[valid bad] errs] eqn:Ec. injection Hi as Es Er. rewrite Es in Er. subst rep.
  change (finished rq im fresh T valid bad errs = s) in Es.
  pose proof (convertRows_spec _ _ _ _ _ _ _ _ _ Ec) as (_ & Cbad & _).
  pose proof (convertRows_rows _ _ _ _ _ _ _ _ _ Ec) as [Crows Cbad'].
  pose proof (report_adds im valid bad errs cols keyIdx Ec s) as Hadd.
  pose proof (rows_accounted im fresh valid bad errs cols keyIdx Ec s) as Hacc.
  cbn [RowsTotal RowsValid RowsWritten Errors report]. unfold finished in Es. destruct (DryRun im).
  { pose proof (previews_ok rq fresh T bad errs valid [] _ (started_preview rq fresh T bad errs)) as HP.
    rewrite Es in HP. destruct HP as [P1 P2 P3 (w & r & es & A1 & A2 & A3 & A4 & A5 & A6)].
    destruct (Hacc w r A1 A4) as [Ha _]. destruct Hadd as [V1 V2].
    { intros k. rewrite A4, elem_of_list_to_set, <- A1, fmap_app, !elem_of_app. tauto. }
    rewrite P1. split_and!; try done. exists cols, keyIdx. split_and!; try done; [|by exists w, r].
    intros k. rewrite A4, elem_of_list_to_set, elem_of_app, Cbad, A5. setoid_rewrite elem_of_app.
    rewrite <- A6, list_elem_of_fmap. naive_solver. }
  assert (bool_decide (importMode im = ImportTransactional) = bool_decide (Mode im = ImportTransactional)) as Emode.
  { unfold importMode, str_IsZero. destruct (decide (Mode im = EmptyString)) as [E|E]; [by rewrite E|].
    by rewrite (bool_decide_false (Mode im = EmptyString)). }
  rewrite Emode in Es. destruct (bool_decide (Mode im = ImportTransactional)).
  - pose proof (transactional_outcome rq im fresh T valid bad errs cols keyIdx Ec Hinj HT Hf
      (fun row e => Hn cols keyIdx row e Hmap)) as Ht. cbv zeta in Ht. rewrite Es in Ht. destruct Ht as (T1 & T2 & T3).
    destruct (Hadd T2) as [V1 V2]. split_and!; try done. exists cols, keyIdx. split; [done|].
    destruct T3 as [(E1 & E2 & E3 & E4 & c & out & E5 & E6)|(E1 & E2 & E3 & E4 & E5)]; [left|right].
    + destruct (Hacc valid [] ltac:(by rewrite app_nil_r)) as [Ha Hc]; [by rewrite E2, E3|].
      rewrite E1, E4, E2, size_empty in *. split_and!; [done|lia|lia|]. by exists valid, c, out.
    + split_and!; try done. destruct E5 as [[k Hk]|[e He]]; [left; exists k; by apply Cbad'|].
      right. by exists valid, e.
  - pose proof (started_ok rq im fresh T valid bad errs cols keyIdx Ec HT Hf (fun row e => Hn cols keyIdx row e Hmap)) as HR.
    pose proof (best_effort_ok rq fresh _ _ Hinj T bad errs valid _ HR
      (converted_imports im valid bad errs cols keyIdx Ec) (fun _ Hx => Hx)) as HR'.
    rewrite Es in HR'. destruct HR' as [R1 R2 (w & r & es & A1 & A2 & A3 & A4 & A5)].
    destruct (Hacc w r A2 A4) as [Ha Hc]. destruct Hadd as [V1 V2].
    { intros k. rewrite A4, elem_of_list_to_set, <- A2, fmap_app, !elem_of_app. tauto. }
    split_and!; try done. exists cols, keyIdx. split_and!; try done; [lia| |by exists w, r, es].
    intros k. rewrite A4, elem_of_list_to_set, elem_of_app, Cbad, A5. setoid_rewrite elem_of_app.
    rewrite (account_named _ _ _ _ _ _ _ _ _ A1). naive_solver.
Qed.
End Props.
