(* ===== verification/CellFacts.v ===== *)
(** What an export writes in a cell, an import reads back: the cell format of
    [application/value/importexport.go], over the documented behaviour of the
    encoders it calls. *)

From Stdlib Require Import ZArith QArith Lia String Ascii List SpecFloat.
From stdpp Require Import base tactics list gmap fin_maps fin_sets strings option decidable pretty.
From S2P Require Import Prelude GoText Values Ids Attribute Access TypeDef Units Pagination.
From S2P Require Import Dependency ValueWrite AttributeWrite Computed Query DependencyWrite ImportExport.

Open Scope Z_scope.
Open Scope go_scope.

(** ** Numbers in decimal *)

Lemma digit_char x : (x < 10)%N -> digit (pretty_N_char x) = Some (Z.of_N x).
Proof.
  intros Hx. assert (x = 0 \/ x = 1 \/ x = 2 \/ x = 3 \/ x = 4 \/ x = 5 \/ x = 6 \/ x = 7 \/ x = 8 \/ x = 9)%N as Hc by lia.
  by repeat destruct Hc as [->|Hc]; subst.
Qed.

Lemma digits_go x s c :
  exists k, digits 0 c (pretty_N_go x s) = digits (Z.of_N x) (k + c)%nat s /\ ((0 < x)%N -> (0 < k)%nat).
Proof.
  revert s c. induction (N.lt_wf_0 x) as [x _ IH]. intros s c.
  destruct (decide (x = 0)%N) as [->|Hx]; [exists 0%nat; split; [done|lia]|].
  rewrite pretty_N_go_step by lia.
  destruct (IH (x `div` 10)%N) with (s := String (pretty_N_char (x mod 10)) s) (c := c) as (k & Hk & _);
    [apply N.div_lt; lia|].
  rewrite Hk. cbn [digits]. rewrite digit_char by (apply N.mod_lt; lia).
  exists (S k). split; [|lia]. f_equal. rewrite N2Z.inj_div, N2Z.inj_mod. pose proof (Z.div_mod (Z.of_N x) 10). lia.
Qed.

Lemma go_first x s : (0 < x)%N -> exists y t, (y < 10)%N /\ pretty_N_go x s = String (pretty_N_char y) t.
Proof.
  revert s. induction (N.lt_wf_0 x) as [x _ IH]. intros s Hx. rewrite pretty_N_go_step by lia.
  destruct (decide (x < 10)%N) as [Hl|Hl].
  - rewrite N.div_small by done. exists (x mod 10)%N, s. split; [apply N.mod_lt; lia|done].
  - apply IH; [apply N.div_lt; lia|]. apply N.div_str_pos. lia.
Qed.

Lemma digits_pretty x : exists k, digits 0 0 (pretty_N_go x "") = (Z.of_N x, k, EmptyString) /\ ((0 < x)%N -> (0 < k)%nat).
Proof.
  destruct (digits_go x "" 0) as (k & Hk & Hp). exists k. rewrite Hk. simpl. rewrite Nat.add_0_r.
  split; [done|]. intros Hx. specialize (Hp Hx). lia.
Qed.

Lemma ParseInt_pretty z : in_int64 z -> ParseInt (pretty z) = Some z.
Proof.
  intros Hz. destruct z as [|p|p]; [done| |].
  - change (pretty (Z.pos p)) with (pretty_N_go (N.pos p) "").
    destruct (go_first (N.pos p) "" ltac:(lia)) as (y & t & Hy & E).
    destruct (digits_pretty (N.pos p)) as (k & Hk & Hp). specialize (Hp ltac:(lia)).
    unfold ParseInt. assert (split_sign (pretty_N_go (N.pos p) "") = (false, pretty_N_go (N.pos p) "")) as ->.
    { rewrite E. assert (y = 0 \/ y = 1 \/ y = 2 \/ y = 3 \/ y = 4 \/ y = 5 \/ y = 6 \/ y = 7 \/ y = 8 \/ y = 9)%N as Hc by lia.
      by repeat destruct Hc as [->|Hc]; subst. }
    rewrite Hk. destruct k; [lia|]. simpl in *. by rewrite decide_True.
  - change (pretty (Z.neg p)) with (String "-" (pretty_N_go (N.pos p) "")).
    destruct (digits_pretty (N.pos p)) as (k & Hk & Hp). specialize (Hp ltac:(lia)).
    unfold ParseInt. cbn [split_sign]. rewrite Hk. destruct k; [lia|]. simpl in *. by rewrite decide_True.
Qed.

(** ** Trimming *)

Lemma list_ascii_app a b :
  list_ascii_of_string (String.append a b) = list_ascii_of_string a ++ list_ascii_of_string b.
Proof. induction a as [|c a IH]; [done|]. exact (f_equal (cons c) IH). Qed.

Lemma rev_string_last a c : rev_string (String.append a (String c EmptyString)) = String c (rev_string a).
Proof. unfold rev_string. rewrite list_ascii_app, rev_app_distr. done. Qed.

Lemma rev_string_rev s : rev_string (rev_string s) = s.
Proof.
  unfold rev_string. by rewrite list_ascii_of_string_of_list_ascii, rev_involutive, string_of_list_ascii_of_string.
Qed.

(** Nothing to trim at either end. *)
Lemma TrimSpace_framed c s d :
  IsSpace c = false -> IsSpace d = false ->
  TrimSpace (String c (String.append s (String d EmptyString))) = String c (String.append s (String d EmptyString)).
Proof.
  intros Hc Hd. unfold TrimSpace.
  assert (skip_space (String c (String.append s (String d EmptyString))) = String.append (String c s) (String d EmptyString)) as ->.
  { cbn [skip_space]. by rewrite Hc. }
  rewrite rev_string_last. cbn [skip_space]. rewrite Hd. by rewrite <- rev_string_last, rev_string_rev.
Qed.

(** ** What the encoders promise *)

(** A number of Go's [float64]. *)
Definition double (f : spec_float) : Prop := valid_binary 53 1024 f = true.

Definition yearTenThousand : Z := 253402300800 * second.

(** Instants a layout writes and reads back. *)
Definition representable (l : TimeLayout) (t : Z) : Prop :=
  yearZero <= t < yearTenThousand /\
  match l with
  | DateFormat => t mod day = 0
  | TimeFormat => t < yearZero + day /\ t mod second = 0
  | RFC3339Nano => True
  end.

(** The instant a value made of a parsed time holds. *)
Definition instant (l : TimeLayout) (g : GoTime) : Z :=
  timeVal (match l with
           | DateFormat => NewDateValue g | TimeFormat => NewTimeValue g | RFC3339Nano => NewDateTimeValue g end).

Class GoCellLaws `{GoStd} `{GoQuery} `{GoJsonFloat} `{GoCells} : Prop := {
  (** A number does not begin with a quote. *)
  law_number r lit : json_Decode r = Some (JNumber lit) -> jsonIsString r = false;
  (** Decoded texts are valid UTF-8, and so is the empty one. *)
  law_decoded r s : json_Decode r = Some (JString s) \/ json_Decode r = Some (JNumber s) -> utf8_Valid s = true;
  law_empty : utf8_Valid EmptyString = true /\ json_Unmarshal EmptyString = None;
  (** Scalars are written and read back. *)
  law_string s : utf8_Valid s = true ->
    json_Decode (json_MarshalString s) = Some (JString s) /\ json_Unmarshal (json_MarshalString s) = Some (JString s);
  law_bool b : json_Decode (bool_text b) = Some (JBool b) /\ json_Unmarshal (bool_text b) = Some (JBool b);
  law_int (z : Z) : in_int64 z ->
    json_Decode (pretty z) = Some (JNumber (pretty z)) /\ json_Unmarshal (pretty z) = Some (JNumber (pretty z));
  law_float_read s f : strconv_ParseFloat s = Some f -> double f;
  law_float f : double f -> finite f = true ->
    strconv_ParseFloat (FormatFloatG f) = Some f /\ strconv_ParseFloat (json_Float f) = Some f /\
    exists lit, json_Decode (json_Float f) = Some (JNumber lit) /\ json_Unmarshal (json_Float f) = Some (JNumber lit) /\
      strconv_ParseFloat lit = Some f;
  law_time l t : representable l t ->
    utf8_Valid (time_Format l t) = true /\ exists g, time_Parse l (time_Format l t) = Some g /\ instant l g = t;
  (** Objects are written with the fields they are read from. *)
  law_media raw m : json_Unmarshal raw ≫= decode_media = Some m ->
    json_Unmarshal (media_Text m) ≫= decode_media = Some m;
  law_quantity m u b : utf8_Valid m = true -> utf8_Valid u = true -> finite b = true ->
    exists b', json_Unmarshal (json_MarshalQuantity m u b) ≫= decode_quantity = Some (m, u, b');
  (** Compacting and escaping keep the document; a scalar has nothing to escape. *)
  law_compact r : json_Unmarshal r <> None -> json_Unmarshal (json_Compact r) = json_Unmarshal r;
  law_reencode r : json_Unmarshal r <> None -> json_Unmarshal (json_Reencode r) = json_Unmarshal r;
  law_reencode_bool b : json_Reencode (bool_text b) = bool_text b;
  law_reencode_int (z : Z) : json_Reencode (pretty z) = pretty z;
  law_reencode_float f : finite f = true -> json_Reencode (json_Float f) = json_Float f;
  (** A list of members is written between brackets and read back. *)
  law_framed es : exists body, json_MarshalEntries es = String "[" (String.append body "]");
  law_entries es :
    Forall (fun e => json_Unmarshal (entryValue e) <> None /\ utf8_Valid (entryLocale e) = true /\
                     utf8_Valid (entryChannel e) = true) es ->
    json_UnmarshalEntries (json_MarshalEntries es) =
      Some ((fun e => (json_Reencode (entryValue e), entryLocale e, entryChannel e)) <$> es)
}.

Section Cells.
Context `{GoStd} `{GoUlid} `{GoNumeric} `{GoQuery} `{GoJsonFloat} `{GoCells} `{!GoCellLaws}.

(** A value the API has accepted: parsed, or a quantity converted by its family. *)
Definition accepted_value (v : Value) : Prop :=
  match dataType v with
  | DataTypeQuantity =>
      exists m u b, NewQuantityValue m u b = Ok v /\ utf8_Valid m = true /\ utf8_Valid u = true
  | dt => exists raw, ParseValue dt raw = Ok v
  end.

Definition layout_of (dt : DataType) : option TimeLayout :=
  match dt with
  | DataTypeDate => Some DateFormat
  | DataTypeTime => Some TimeFormat
  | DataTypeDateTime => Some RFC3339Nano
  | _ => None
  end.

(** A value with a text: a finite number, an instant in four-digit years. *)
Record exportable (dt : DataType) (v : Value) : Prop := {
  xp_type : dataType v = dt;
  xp_accepted : accepted_value v;
  xp_finite : dt = DataTypeFloat \/ dt = DataTypeQuantity -> finite (floatVal v) = true;
  xp_time : forall l, layout_of dt = Some l -> representable l (timeVal v) }.

(** The same value; for a JSON document the same document, for a quantity the same
    magnitude and unit. *)
Definition same_value (v' v : Value) : Prop :=
  match dataType v with
  | DataTypeJSON => dataType v' = DataTypeJSON /\
      json_Unmarshal (rawJSON (jsonVal v')) = json_Unmarshal (rawJSON (jsonVal v))
  | DataTypeQuantity => dataType v' = DataTypeQuantity /\ jsonVal v' = jsonVal v
  | _ => v' = v
  end.

(** What an accepted value of each type is. *)
Lemma accepted_parsed v :
  accepted_value v -> dataType v <> DataTypeQuantity -> exists raw, ParseValue (dataType v) raw = Ok v.
Proof. unfold accepted_value. by destruct (dataType v). Qed.

Lemma decodeString_utf8 raw s : decodeString raw = Ok s -> utf8_Valid s = true.
Proof.
  unfold decodeString. destruct (json_Decode raw) as [[]|] eqn:E; try done; intros [= <-]; [apply law_empty|].
  eapply law_decoded. by left.
Qed.

Lemma decodeString_marshal s : utf8_Valid s = true -> decodeString (json_MarshalString s) = Ok s.
Proof. intros Hs. unfold decodeString. by destruct (law_string s Hs) as [-> _]. Qed.

(** The text of a value of a type written as a string. *)
Definition texts (dt : DataType) : bool :=
  match dt with
  | DataTypeString | DataTypeText | DataTypeEnum | DataTypeDecimal | DataTypeURL | DataTypeEmail
  | DataTypeDate | DataTypeTime | DataTypeDateTime => true
  | _ => false
  end.

Lemma timed_roundtrip dt l v :
  layout_of dt = Some l -> dataType v = dt -> representable l (timeVal v) -> v = timeOf dt (timeVal v) ->
  utf8_Valid (ValueString v) = true /\ ParseValue dt (json_MarshalString (ValueString v)) = Ok v.
Proof.
  intros Hl Et Hr Ev. destruct (law_time l (timeVal v) Hr) as (Hu & g & Hp & Hi).
  assert (ValueString v = time_Format l (timeVal v)) as ->.
  { unfold ValueString. rewrite Et. destruct dt; try discriminate Hl; by injection Hl as <-. }
  split; [done|]. unfold ParseValue, parseTime. rewrite (decodeString_marshal _ Hu). simpl.
  transitivity (@Ok Value (timeOf dt (timeVal v))); [|by rewrite <- Ev].
  destruct dt; try discriminate Hl; injection Hl as <-; rewrite Hp; f_equal; rewrite <- Hi; done.
Qed.

Lemma texts_roundtrip v :
  exportable (dataType v) v -> texts (dataType v) = true ->
  utf8_Valid (ValueString v) = true /\ ParseValue (dataType v) (json_MarshalString (ValueString v)) = Ok v.
Proof.
  intros [_ Ha _ Ht] Htx. apply accepted_parsed in Ha as [raw Hp]; [|by intros E; rewrite E in Htx].
  destruct (layout_of (dataType v)) as [l|] eqn:El.
  { apply (timed_roundtrip _ l); [done|done|by apply Ht|].
    destruct (dataType v) eqn:Ed; try discriminate El; unfold ParseValue in Hp; res_inv; done. }
  unfold ValueString. destruct (dataType v) eqn:Ed; try done; unfold ParseValue in Hp; res_inv.
  all: try match goal with E : decodeString _ = Ok ?s |- _ =>
    pose proof (decodeString_utf8 _ _ E) as Hu; unfold ParseValue end.
  - simpl. by rewrite (decodeString_marshal _ Hu).
  - simpl. by rewrite (decodeString_marshal _ Hu).
  - destruct (json_Decode raw) as [[]|] eqn:Er; try done; unfold NewDecimalValue in *; res_inv; simpl;
      (assert (utf8_Valid _ = true) as Hu by (eapply law_decoded; eauto)); split; try done;
      unfold ParseValue; destruct (law_string _ Hu) as [-> _]; unfold NewDecimalValue; by rewrite Hg.
  - simpl. rewrite (decodeString_marshal _ Hu). simpl. by rewrite Hg.
  - unfold NewURLValue in *. res_inv. destruct (url_Parse _) as [[sc ho]|] eqn:Eu; [|done]. res_inv. simpl.
    rewrite (decodeString_marshal _ Hu). simpl. unfold NewURLValue. by rewrite Hg, Eu, Hg0.
  - unfold NewEmailValue in *. res_inv. destruct (mail_ParseAddress _) as [addr|] eqn:Eu; [|done]. res_inv. simpl.
    rewrite (decodeString_marshal _ Hu). simpl. unfold NewEmailValue. by rewrite Hg, Eu, Hg0.
Qed.

(** ** One text of a cell *)

(** The importer makes of the text a value that is the same. *)
Definition reads (dt : DataType) (text : string) (v : Value) : Prop :=
  exists raw v', cellToRaw dt text = Ok raw /\ ParseValue dt raw = Ok v' /\ same_value v' v.

(** A document that is neither a text nor null: a member spelled that way is not
    unquoted. *)
Definition spelled (raw : string) : Prop :=
  match json_Unmarshal raw with Some (JString _) | Some JNull | None => False | Some _ => True end.

Lemma reads_texts v : exportable (dataType v) v -> texts (dataType v) = true -> reads (dataType v) (ValueString v) v.
Proof.
  intros Hx Ht. destruct (texts_roundtrip v Hx Ht) as [_ Hp]. exists (json_MarshalString (ValueString v)), v.
  split; [by destruct (dataType v)|]. split; [done|]. unfold same_value. by destruct (dataType v).
Qed.

(** Numbers and booleans, in either of the forms an export writes. *)
Lemma reads_scalar v text :
  exportable (dataType v) v -> dataType v ∈ [DataTypeBool; DataTypeInteger; DataTypeFloat] ->
  text = ValueString v \/ ValueJSON v = Ok text ->
  reads (dataType v) text v /\ (ValueJSON v = Ok text -> spelled text /\ json_Reencode text = text).
Proof.
  intros [_ Ha Hf _] Hin Htext. apply accepted_parsed in Ha as [raw Hp]; [|intros E; rewrite E in Hin; set_solver].
  unfold ValueString, ValueJSON, reads, spelled, same_value in *.
  destruct (dataType v) eqn:Ed; try (exfalso; set_solver); clear Hin.
  - assert (v = NewBoolValue (boolVal v)) as Ev by (unfold ParseValue in Hp; destruct (json_Decode raw) as [[]|]; by simplify_eq).
    assert (text = bool_text (boolVal v)) as -> by (by destruct Htext; simplify_eq).
    destruct (law_bool (boolVal v)) as [L1 L2]. rewrite L2, law_reencode_bool. split; [|done].
    exists (bool_text (boolVal v)), v. split; [by destruct (boolVal v)|]. split; [|done].
    unfold ParseValue. rewrite L1. by rewrite <- Ev.
  - assert (exists z, v = NewIntegerValue z /\ in_int64 z) as (z & -> & Hz).
    { unfold ParseValue in Hp. res_inv. destruct (_ ≫= ParseInt) as [z|] eqn:Ez; [|done]. simplify_eq.
      exists z. split; [done|]. apply bind_Some in Ez as (lit & _ & Ez). by eapply ParseInt_range. }
    cbn [intVal NewIntegerValue] in *. assert (text = pretty z) as -> by (by destruct Htext; simplify_eq).
    destruct (law_int z Hz) as [L1 L2]. rewrite L2, law_reencode_int. split; [|done].
    exists (pretty z), (NewIntegerValue z). split; [simpl; by rewrite ParseInt_pretty|]. split; [|done].
    unfold ParseValue. rewrite (law_number _ _ L1). unfold decodeNumber. rewrite L1. simpl. by rewrite ParseInt_pretty.
  - assert (exists f, v = NewFloatValue f /\ double f) as (f & -> & Hd).
    { unfold ParseValue in Hp. res_inv. destruct (_ ≫= strconv_ParseFloat) as [f|] eqn:Ef; [|done]. simplify_eq.
      exists f. split; [done|]. apply bind_Some in Ef as (lit & _ & Ef). by eapply law_float_read. }
    cbn [floatVal NewFloatValue] in *. assert (finite f = true) as Hfin by (apply Hf; by left).
    destruct (law_float f Hd Hfin) as (L1 & L2 & lit & L3 & L4 & L5). rewrite Hfin in *. cbn [negb] in *.
    assert (strconv_ParseFloat text = Some f) as Ht by (by destruct Htext; simplify_eq).
    split; [|intros [= <-]; by rewrite L4, law_reencode_float].
    exists (json_Float f), (NewFloatValue f). split; [simpl; by rewrite Ht, Hfin|]. split; [|done].
    unfold ParseValue. rewrite (law_number _ _ L3). unfold decodeNumber. rewrite L3. simpl. by rewrite L5.
Qed.

(** A document, however it is spelled. *)
Lemma reads_document v text :
  exportable (dataType v) v -> dataType v ∈ [DataTypeJSON; DataTypeMedia; DataTypeQuantity] ->
  exists raw, ValueJSON v = Ok raw /\ json_Unmarshal raw <> None /\
    (dataType v <> DataTypeJSON -> spelled raw) /\
    (json_Unmarshal text = json_Unmarshal raw -> reads (dataType v) text v).
Proof.
  intros [_ Ha Hf _] Hin. unfold reads, same_value, ValueJSON, accepted_value, spelled in *.
  destruct (dataType v) eqn:Ed; try (exfalso; set_solver); clear Hin.
  - destruct Ha as [raw0 Hp]. unfold ParseValue, NewJSONValue in Hp.
    destruct (json_Unmarshal raw0) as [j|] eqn:Ej; [|done]. injection Hp as <-. simpl.
    assert (json_Unmarshal (json_Compact raw0) = Some j) as Ec by (rewrite law_compact; congruence).
    exists (json_Compact raw0). split_and!; [done|congruence|done|]. rewrite Ec. intros Et.
    exists text. eexists. split; [by rewrite Et|]. unfold ParseValue, NewJSONValue. rewrite Et.
    split; [done|]. split; [done|]. simpl. rewrite law_compact; congruence.
  - destruct Ha as [raw0 Hp]. unfold ParseValue, NewMediaValue in Hp.
    destruct (json_Unmarshal raw0 ≫= decode_media) as [m|] eqn:Em; [|done]. res_inv. simpl.
    pose proof (law_media _ _ Em) as Hm. exists (media_Text m).
    destruct (json_Unmarshal (media_Text m)) as [j|] eqn:Ej; [|done]. split_and!; try done.
    + intros _. destruct j; try done. simpl in Hm. injection Hm as <-. by rewrite bool_decide_true in Hg.
    + intros Et. exists text. eexists. split; [by rewrite Et|].
      unfold ParseValue, NewMediaValue. rewrite Et. simpl in Hm |- *. rewrite Hm, Hg, Hg0, Hg1. done.
  - destruct Ha as (m & u & b & Hq & Um & Uu). unfold NewQuantityValue in Hq. res_inv. simpl in *.
    assert (finite b = true) as Hfin by (apply Hf; by right). rewrite Hfin.
    destruct (law_quantity m u b Um Uu Hfin) as (b' & Hb). exists (json_MarshalQuantity m u b).
    destruct (json_Unmarshal (json_MarshalQuantity m u b)) as [j|] eqn:Ej; [|done]. split_and!; try done.
    + intros _. destruct j; try done. simpl in Hb. injection Hb as <- <- <-. by rewrite bool_decide_true in Hg.
    + intros Et. exists text. eexists. split; [by rewrite Et|].
      unfold ParseValue, NewQuantityValue. rewrite Et. simpl in Hb |- *. rewrite Hb. rewrite Hg, Hg0. done.
Qed.

Lemma type_cases v :
  accepted_value v ->
  texts (dataType v) = true \/ dataType v ∈ [DataTypeBool; DataTypeInteger; DataTypeFloat] \/
  dataType v ∈ [DataTypeJSON; DataTypeMedia; DataTypeQuantity].
Proof.
  unfold accepted_value. destruct (dataType v); try (by left); intros Ha.
  1, 8: by destruct Ha as [raw Ha].
  all: set_solver.
Qed.

(** *** A value in a cell of its own *)
Lemma scalar_reads dt v : exportable dt v -> reads dt (exportScalar v) v.
Proof.
  intros Hx. pose proof (xp_type _ _ Hx) as <-.
  destruct (type_cases v (xp_accepted _ _ Hx)) as [Ht|[Ht|Ht]].
  - assert (exportScalar v = ValueString v) as -> by (unfold exportScalar; by destruct (dataType v)).
    by apply reads_texts.
  - assert (exportScalar v = ValueString v) as -> by (unfold exportScalar; destruct (dataType v); set_solver).
    apply reads_scalar; [done|done|by left].
  - assert (exportScalar v = match ValueJSON v with Ok raw => raw | Err _ => ValueString v end) as ->
      by (unfold exportScalar; destruct (dataType v); set_solver).
    destruct (reads_document v (match ValueJSON v with Ok raw => raw | Err _ => ValueString v end) Hx Ht)
      as (raw & Ej & _ & _ & Hr). rewrite Ej in *. by apply Hr.
Qed.

(** *** A member of a cell of several *)

(** A document that is itself a text, or null, is not written as a member. *)
Definition member_ok (v : Value) : Prop := dataType v = DataTypeJSON -> spelled (rawJSON (jsonVal v)).

Definition reencoded (e : cellEntry) : cellEntry := (json_Reencode (entryValue e), entryLocale e, entryChannel e).

Lemma member_reads dt av :
  exportable dt (avValue av) -> member_ok (avValue av) ->
  json_Unmarshal (entryValue (exportScoped av)) <> None /\
  reads dt (entryText (reencoded (exportScoped av))) (avValue av).
Proof.
  intros Hx Hm. pose proof (xp_type _ _ Hx) as <-. set (v := avValue av) in *.
  assert (forall raw, ValueJSON v = Ok raw -> entryValue (exportScoped av) = raw) as Hv
    by (intros raw E; unfold exportScoped, entryValue; simpl; fold v; by rewrite E).
  unfold entryText, reencoded. cbn [entryValue fst snd].
  destruct (type_cases v (xp_accepted _ _ Hx)) as [Ht|[Ht|Ht]].
  - assert (ValueJSON v = Ok (json_MarshalString (ValueString v))) as E by (unfold ValueJSON; by destruct (dataType v)).
    destruct (texts_roundtrip v Hx Ht) as [Hu _]. destruct (law_string _ Hu) as [_ L].
    rewrite (Hv _ E). change ((json_Reencode ?r, _, _).1.1) with (json_Reencode r).
    rewrite law_reencode, L by (by rewrite L). split; [done|]. by apply reads_texts.
  - assert (exists raw, ValueJSON v = Ok raw) as [raw E].
    { unfold ValueJSON. pose proof (xp_finite _ _ Hx) as Hf. destruct (dataType v); try (by eexists); try set_solver.
      rewrite Hf by (by left). by eexists. }
    destruct (reads_scalar v raw Hx Ht (or_intror E)) as [Hr Hs]. destruct (Hs E) as [Hs1 Hs2].
    rewrite (Hv _ E), Hs2. unfold spelled in Hs1. by destruct (json_Unmarshal raw) as [[]|].
  - destruct (reads_document v (json_Reencode (entryValue (exportScoped av))) Hx Ht) as (raw & E & Hn & Hs & Hr).
    rewrite (Hv _ E) in *. rewrite law_reencode in * by done. split; [done|].
    assert (spelled raw) as Hsp.
    { destruct (decide (dataType v = DataTypeJSON)) as [Ed|Ed]; [|by apply Hs].
      specialize (Hm Ed). unfold ValueJSON in E. rewrite Ed in E. by injection E as <-. }
    unfold spelled in Hsp. destruct (json_Unmarshal raw) as [[]|]; try done; by apply Hr.
Qed.

(** ** The cell *)

Definition utf8_scope (s : Scope) : Prop := utf8_Valid (Locale s) = true /\ utf8_Valid (Channel s) = true.

Lemma marked_trim es :
  TrimSpace (String.append multiValueCellPrefix (json_MarshalEntries es)) =
    String.append multiValueCellPrefix (json_MarshalEntries es) /\
  TrimSpace (json_MarshalEntries es) = json_MarshalEntries es.
Proof.
  destruct (law_framed es) as [body ->]. split; [|by apply TrimSpace_framed].
  exact (TrimSpace_framed "#" (String.append "flexitype-values:[" body) "]" eq_refl eq_refl).
Qed.

(** The marker, then members: the members are read. *)
Lemma marked_cell es dt legacy :
  es <> [] ->
  Forall (fun e => json_Unmarshal (entryValue e) <> None /\ utf8_Valid (entryLocale e) = true /\
                   utf8_Valid (entryChannel e) = true) es ->
  scopedCell (String.append multiValueCellPrefix (json_MarshalEntries es)) dt legacy = Some (reencoded <$> es).
Proof.
  intros Hne Hall. unfold scopedCell. destruct (marked_trim es) as [-> E2].
  rewrite CutPrefix_app. unfold decodeCellEntries. rewrite E2, (law_entries es Hall). simpl.
  unfold someEntries. rewrite bool_decide_false by (by destruct es).
  rewrite orb_false_r. destruct (existsb _ _) eqn:Ex; [exfalso|done]. revert Ex.
  intros (e & (e0 & -> & Hin)%list_elem_of_In%list_elem_of_fmap & E%bool_decide_eq_true)%existsb_exists.
  change (json_Reencode (entryValue e0) = EmptyString) in E. rewrite list.Forall_forall in Hall.
  destruct (Hall e0 Hin) as (Hn & _). rewrite <- (law_reencode _ Hn), E in Hn. by apply Hn, law_empty.
Qed.

(** The write an import makes of a value. *)
Definition writes_value (typeID entity : string) (c : mappedColumn) (av : AttributeValue) (i : SetInput) : Prop :=
  siTypeDefinitionID i = typeID /\ siEntityID i = entity /\
  siAttributeDefinitionID i = ulid_String (mcAttrID c) /\
  siLocale i = Locale (avScope av) /\ siChannel i = Channel (avScope av) /\
  exists v', ParseValue (mcType c) (siValue i) = Ok v' /\ same_value v' (avValue av).

Lemma outcome_reads typeID entity n c av locale channel text :
  reads (mcType c) text (avValue av) -> locale = Locale (avScope av) -> channel = Channel (avScope av) ->
  exists i, cellOutcome typeID c entity n locale channel text = ([i], []) /\ writes_value typeID entity c av i.
Proof.
  intros (raw & v' & E & Hp & Hs) -> ->. unfold cellOutcome. rewrite E. eexists. split; [done|].
  split_and!; try done. by exists v'.
Qed.

Lemma members_written typeID entity n c avs :
  Forall (fun av => exportable (mcType c) (avValue av) /\ utf8_scope (avScope av)) avs ->
  Forall (fun av => member_ok (avValue av)) avs ->
  exists inputs,
    foldr (fun e => both (cellOutcome typeID c entity n (entryLocale e) (entryChannel e) (entryText e))) ([], [])
      (reencoded <$> (exportScoped <$> avs)) = (inputs, []) /\
    Forall2 (writes_value typeID entity c) avs inputs.
Proof.
  induction avs as [|av avs IH]; intros Hall Hmem; [by exists []|].
  apply list.Forall_cons in Hall as [[Hx _] Hall]. apply list.Forall_cons in Hmem as [Hm Hmem].
  destruct (IH Hall Hmem) as (is_ & Ei & HF). rewrite !fmap_cons. cbn [foldr]. rewrite Ei.
  destruct (member_reads _ _ Hx Hm) as [_ Hr].
  destruct (outcome_reads typeID entity n c av (Locale (avScope av)) (Channel (avScope av)) _ Hr eq_refl eq_refl)
    as (i & Eo & Hi). exists (i :: is_). split; [|by constructor].
  change (entryLocale (reencoded (exportScoped av))) with (Locale (avScope av)).
  change (entryChannel (reencoded (exportScoped av))) with (Channel (avScope av)). by rewrite Eo.
Qed.

(** A value that shares its cell, or has a scope, is a member. *)
Definition alone (avs : list AttributeValue) : Prop :=
  match avs with [av] => ScopeIsZero (avScope av) = true | _ => False end.

(** C17: what an export writes an import reads back.  For any values of one entity
    and attribute, of any type, whose numbers are finite and whose instants lie in
    years of four digits: the importer makes of their cell exactly one write per
    value, in order, with the value's own locale and channel and an equal value
    (the same document for JSON, the same magnitude and unit for a quantity), and
    reports no error.  A value alone in its cell must have a text that is not blank
    and does not begin with the marker of several; a JSON document that shares its
    cell must not be itself a text or null - the cases where the code loses it. *)
Theorem cell_roundtrip typeID entity n row c avs :
  avs <> [] -> Forall (fun av => exportable (mcType c) (avValue av) /\ utf8_scope (avScope av)) avs ->
  (alone avs -> exportCell avs <> EmptyString /\ CutPrefix (TrimSpace (exportCell avs)) multiValueCellPrefix = None) ->
  (~ alone avs -> Forall (fun av => member_ok (avValue av)) avs) ->
  row !! mcIndex c = Some (exportCell avs) ->
  exists inputs, cellInputs typeID false entity n row c = (inputs, []) /\
    Forall2 (writes_value typeID entity c) avs inputs.
Proof.
  intros Hne Hall Halone Hmem Hrow. unfold cellInputs. rewrite Hrow.
  assert (alone avs \/ ~ alone avs /\
    exportCell avs = String.append multiValueCellPrefix (json_MarshalEntries (exportScoped <$> avs))) as [Ha|[Ha Ec]].
  { unfold alone, exportCell. destruct avs as [|av [|av' avs]]; [done| |by right; split; [intros []|]].
    destruct (ScopeIsZero (avScope av)); [by left|by right]. }
  - destruct (Halone Ha) as [Hz Hp]. unfold str_IsZero. rewrite bool_decide_false by done.
    unfold scopedCell. rewrite Hp. cbn [negb]. destruct avs as [|av [|av' avs]]; [done| |done].
    simpl in Ha. apply list.Forall_cons in Hall as [[Hx _] _].
    assert (exportCell [av] = exportScalar (avValue av)) as -> by (unfold exportCell; by rewrite Ha).
    assert (avScope av = mkScope EmptyString EmptyString) as Es.
    { unfold ScopeIsZero in Ha. breflect. destruct (avScope av); simpl in *. congruence. }
    destruct (outcome_reads typeID entity n c av EmptyString EmptyString _ (scalar_reads _ _ Hx)) as (i & -> & Hi);
      [by rewrite Es..|]. exists [i]. split; [done|]. by constructor.
  - rewrite Ec. unfold str_IsZero. rewrite bool_decide_false by done.
    specialize (Hmem Ha). rewrite marked_cell; [|by destruct avs|].
    + by apply members_written.
    + apply Forall_fmap. rewrite list.Forall_forall in *. intros av Hin. destruct (Hall av Hin) as [Hx [U1 U2]].
      split_and!; [|done|done]. by apply (member_reads (mcType c)); [|apply Hmem].
Qed.

(** ** What the format loses *)

(** A text that spells the marker and members is taken for them: the export
    writes it as it is, the import reads several values. *)
Lemma forged_marker av es dt legacy :
  es <> [] ->
  Forall (fun e => json_Unmarshal (entryValue e) <> None /\ utf8_Valid (entryLocale e) = true /\
                   utf8_Valid (entryChannel e) = true) es ->
  ScopeIsZero (avScope av) = true ->
  avValue av = NewStringValue (String.append multiValueCellPrefix (json_MarshalEntries es)) ->
  scopedCell (exportCell [av]) dt legacy = Some (reencoded <$> es).
Proof. intros Hne Hall Hs Hv. unfold exportCell. rewrite Hs, Hv. by apply marked_cell. Qed.

(** A JSON document that is a text shares a cell unquoted: what the import parses
    is the text's content, another document or none. *)
Lemma json_text_unquoted av s :
  utf8_Valid s = true -> dataType (avValue av) = DataTypeJSON ->
  jsonVal (avValue av) = RawPayload (json_MarshalString s) ->
  entryText (reencoded (exportScoped av)) = s.
Proof.
  intros Hs Et Ej. destruct (law_string s Hs) as [_ L]. unfold entryText, reencoded, exportScoped, ValueJSON.
  rewrite Et, Ej. unfold entryValue. simpl. rewrite law_reencode by (by rewrite L). by rewrite L.
Qed.
End Cells.
