(* ===== verification/CellExample.v ===== *)
(** Encoders with the documented behaviour, of a toy format: a scalar is its JSON
    text, anything else a tag and the bits of an injective encoding; and a cell of
    two values that goes out and comes back. *)

From Stdlib Require Import ZArith QArith Lia String Ascii List SpecFloat.
From stdpp Require Import base tactics list gmap fin_maps fin_sets strings option decidable countable pretty.
From S2P Require Import Prelude GoText Values Ids Attribute Access TypeDef Units Pagination.
From S2P Require Import Dependency ValueWrite AttributeWrite Computed Query DependencyWrite ImportExport CellFacts.

Open Scope Z_scope.
Open Scope go_scope.

Module ToyCells.

(** ** Bits *)

Fixpoint bits (p : positive) : string :=
  match p with
  | xH => EmptyString
  | xO p => String "0" (bits p)
  | xI p => String "1" (bits p)
  end.

Fixpoint unbits (s : string) : positive :=
  match s with
  | String "0" s => xO (unbits s)
  | String "1" s => xI (unbits s)
  | _ => xH
  end.

Lemma unbits_bits p rest : unbits rest = xH -> unbits (String.append (bits p) rest) = p.
Proof. intros Hr. induction p as [p IH|p IH|]; [exact (f_equal xI IH)|exact (f_equal xO IH)|exact Hr]. Qed.

Definition word `{Countable A} (x : A) : string := bits (encode x).
Definition unword `{Countable A} (s : string) : option A := decode (unbits s).

Lemma unword_word `{Countable A} (x : A) : unword (word x) = Some x.
Proof.
  unfold unword, word. rewrite <- (append_nil_r (bits _)), unbits_bits by done. apply decode_encode.
Qed.

#[export] Instance spec_float_eq : EqDecision spec_float.
Proof. solve_decision. Defined.

#[export] Instance spec_float_countable : Countable spec_float.
Proof.
  refine (inj_countable'
    (fun f => match f with
              | S754_zero s => inl (inl s) | S754_infinity s => inl (inr (Some s)) | S754_nan => inl (inr None)
              | S754_finite s m e => inr (s, m, e) end)
    (fun x => match x with
              | inl (inl s) => S754_zero s | inl (inr (Some s)) => S754_infinity s | inl (inr None) => S754_nan
              | inr (s, m, e) => S754_finite s m e end) _).
  by intros [].
Defined.

(** ** The encoders *)

Definition quote (s : string) : string := String "034" (String.append s (String "034" EmptyString)).

Definition media_fields (k m : string) (size : Z) (c n : string) : Json :=
  JObject [("object_key", JString k); ("mime", JString m); ("size", JNumber (pretty size));
           ("checksum", JString c); ("filename", JString n)]%string.

Definition toy_decode (raw : string) : option Json :=
  if bool_decide (raw = EmptyString) then None
  else if bool_decide (raw = "null"%string) then Some JNull
  else if bool_decide (raw = "true"%string) then Some (JBool true)
  else if bool_decide (raw = "false"%string) then Some (JBool false)
  else if jsonIsString raw then Some (JString (Demo.unquote raw))
  else match raw with
       | String "m" w =>
           (fun '(k, m, size, c, n) => media_fields k m size c n) <$>
             (unword w : option (string * string * Z * string * string))
       | String "q" w =>
           (fun '(m, u) => JObject [("magnitude", JString m); ("unit", JString u)]%string) <$>
             (unword w : option (string * string))
       | _ => Some (JNumber raw)
       end.

Definition toy_float (s : string) : option spec_float :=
  match s with
  | String "x" w => f ← (unword w : option spec_float); if bool_decide (double f) then Some f else None
  | _ => None
  end.

Definition toy_time (_ : TimeLayout) (s : string) : option GoTime :=
  (fun t => mkGoTime t Demo.utc) <$> (unword s : option Z).

#[export] Instance std : GoStd := {
  json_Decode := toy_decode;
  json_Unmarshal := toy_decode;
  json_Compact := fun r => r;
  json_Canonical := Some;
  strconv_ParseFloat := toy_float;
  time_Parse := toy_time;
  url_Parse := fun s => Some (s, s);
  mail_ParseAddress := Some;
  regexp_Compile := fun e => Some (fun s => bool_decide (s = e))
}.

#[export] Instance text : GoQuery := {
  json_MarshalString := quote;
  str_ToLower := fun s => s;
  str_EqualFold := fun a b => bool_decide (a = b);
  str_Fields := fun s => [s];
  KeysetTime := fun _ => EmptyString
}.

#[export] Instance floats : GoJsonFloat := {| json_Float f := String "x" (word f) |}.

#[export] Instance cells : GoCells := {
  utf8_Valid := fun _ => true;
  json_Reencode := fun r => r;
  json_UnmarshalEntries := fun s =>
    match s with
    | String "[" w => (unword w : option (list (string * string * string)))
    | _ => None
    end;
  json_UnmarshalTagged := fun _ => None;
  json_MarshalEntries := fun es => String "[" (String.append (word es) "]");
  json_MarshalQuantity := fun m u _ => String "q" (word (m, u));
  media_Text := fun m =>
    String "m" (word (ObjectKey m, MIME m, Size m, Checksum m, Filename m));
  FormatFloatG := fun f => String "x" (word f);
  time_Format := fun _ t => word t
}.

(** ** Their laws *)

Lemma substring_all s rest : String.substring 0 (String.length s) (String.append s rest) = s.
Proof. induction s as [|c s IH]; [by destruct rest|]. exact (f_equal (String c) IH). Qed.

Lemma decode_quote s : toy_decode (quote s) = Some (JString s).
Proof.
  unfold toy_decode, quote. rewrite !bool_decide_false by done. cbn [jsonIsString byte_of]. simpl.
  f_equal. f_equal. rewrite length_append. simpl. rewrite Nat.add_sub. apply substring_all.
Qed.

(** A number is written with a digit or a sign first. *)
Lemma pretty_first (z : Z) : exists c t, pretty z = String c t /\ (IsDigit c || Ascii.eqb c "-") = true.
Proof.
  destruct z as [|p|p]; [by eexists _, _| |].
  - change (pretty (Z.pos p)) with (pretty_N_go (N.pos p) "").
    destruct (go_first (N.pos p) "" ltac:(lia)) as (y & t & Hy & E). rewrite E. eexists _, _. split; [done|].
    assert (y = 0 \/ y = 1 \/ y = 2 \/ y = 3 \/ y = 4 \/ y = 5 \/ y = 6 \/ y = 7 \/ y = 8 \/ y = 9)%N as Hc by lia.
    by repeat destruct Hc as [->|Hc]; subst.
  - by eexists _, _.
Qed.

Lemma decode_number c t :
  (IsDigit c || Ascii.eqb c "-" || Ascii.eqb c "x") = true -> toy_decode (String c t) = Some (JNumber (String c t)).
Proof.
  intros Hc. unfold toy_decode.
  assert (forall d u, (IsDigit d || Ascii.eqb d "-" || Ascii.eqb d "x") = false -> String c t <> String d u) as Hne
    by (intros d u Hd [= -> _]; congruence).
  rewrite (bool_decide_false (String c t = EmptyString)) by done.
  rewrite !(bool_decide_false (String c t = _)) by (by apply Hne).
  assert (jsonIsString (String c t) = false) as ->.
  { simpl. revert Hc. destruct c as [[] [] [] [] [] [] [] []]; by vm_compute. }
  destruct c as [[] [] [] [] [] [] [] []]; try done; by vm_compute in Hc.
Qed.

Lemma not_string_number r lit : toy_decode r = Some (JNumber lit) -> jsonIsString r = false.
Proof.
  unfold toy_decode. case_bool_decide; [by subst|]. case_bool_decide; [done|]. case_bool_decide; [done|].
  case_bool_decide; [done|]. by destruct (jsonIsString r).
Qed.

Lemma decode_pretty (z : Z) : toy_decode (pretty z) = Some (JNumber (pretty z)).
Proof. destruct (pretty_first z) as (c & t & -> & Hc). apply decode_number. by rewrite Hc. Qed.

Lemma decode_media_fields k m size c n :
  in_int64 size -> decode_media (media_fields k m size c n) = Some (mkMediaMeta k m size c n).
Proof.
  intros Hs. unfold decode_media, media_fields, decode_field.
  repeat (match goal with |- context [bool_decide (fold_name ?a = fold_name ?b)] =>
    let v := eval vm_compute in (bool_decide (fold_name a = fold_name b)) in
    change (bool_decide (fold_name a = fold_name b)) with v end).
  simpl. by rewrite ParseInt_pretty.
Qed.

Lemma size_in_range fs acc z :
  in_int64 acc -> decode_field "size" as_int64 acc fs = Some z -> in_int64 z.
Proof.
  revert acc. induction fs as [|[k j] fs IH]; intros acc Ha; simpl; [by intros [= <-]|].
  case_bool_decide; [|by apply IH]. destruct j; try (by apply IH); try done.
  simpl. destruct (ParseInt lit) as [x|] eqn:E; [|done]. apply IH. by eapply ParseInt_range.
Qed.

Lemma decoded_size raw m : toy_decode raw ≫= decode_media = Some m -> in_int64 (Size m).
Proof.
  intros (j & _ & Hm)%bind_Some. destruct j; try done; [by injection Hm as <-|].
  unfold decode_media in Hm.
  apply bind_Some in Hm as (k & _ & Hm). apply bind_Some in Hm as (mi & _ & Hm).
  apply bind_Some in Hm as (s & Hs & Hm). apply bind_Some in Hm as (ch & _ & Hm).
  apply bind_Some in Hm as (n & _ & [= <-]). simpl. apply (size_in_range fields 0 s); [by vm_compute|done].
Qed.

Lemma toy_instant l t : representable l t -> instant l (mkGoTime t Demo.utc) = t.
Proof.
  unfold representable, instant, NewDateValue, NewTimeValue, NewDateTimeValue, localNano, Demo.utc, yearTenThousand.
  intros [Hb Hl]. destruct l; simpl; rewrite ?Z.add_0_r.
  - pose proof (Z.div_mod t day ltac:(unfold day, second; lia)). lia.
  - destruct Hl as [Hl Hs]. unfold yearZero, day, second in *.
    pose proof (Z.div_mod t 1000000000 ltac:(lia)). rewrite Hs in *.
    pose proof (Z.div_mod (t / 1000000000) 86400 ltac:(lia)).
    pose proof (Z.mod_pos_bound (t / 1000000000) 86400 ltac:(lia)). lia.
  - done.
Qed.

Lemma decode_media_text m :
  toy_decode (media_Text m) = Some (media_fields (ObjectKey m) (MIME m) (Size m) (Checksum m) (Filename m)).
Proof.
  transitivity ((fun '(k, m, size, c, n) => media_fields k m size c n) <$>
    (unword (word (ObjectKey m, MIME m, Size m, Checksum m, Filename m)) :
      option (string * string * Z * string * string))); [|by rewrite unword_word].
  unfold toy_decode. simpl media_Text. by rewrite !bool_decide_false by done.
Qed.

Lemma decode_quantity_text m u b :
  toy_decode (json_MarshalQuantity m u b) =
    Some (JObject [("magnitude", JString m); ("unit", JString u)]%string).
Proof.
  transitivity ((fun '(m, u) => JObject [("magnitude", JString m); ("unit", JString u)]%string) <$>
    (unword (word (m, u)) : option (string * string))); [|by rewrite unword_word].
  unfold toy_decode. simpl json_MarshalQuantity. by rewrite !bool_decide_false by done.
Qed.

#[export] Instance laws : GoCellLaws.
Proof.
  split; cbn -[toy_decode bits word unword decode_media decode_quantity]; try done.
  - exact not_string_number.
  - intros s _. by split; apply decode_quote.
  - by intros [].
  - intros z _. split; apply decode_pretty.
  - intros s f. destruct s as [|[[] [] [] [] [] [] [] []] w]; try done. simpl.
    intros (g & _ & Hg)%bind_Some. case_bool_decide; [by simplify_eq|done].
  - intros f Hd Hf. assert (toy_float (String "x" (word f)) = Some f) as E.
    { cbn [toy_float]. rewrite unword_word. simpl. by rewrite bool_decide_true. }
    split; [done|]. split; [done|]. exists (String "x" (word f)).
    split; [by apply decode_number|]. split; [by apply decode_number|done].
  - intros l t Ht. split; [done|]. exists (mkGoTime t Demo.utc). unfold toy_time. rewrite unword_word.
    split; [done|]. by apply toy_instant.
  - intros raw m Hm. pose proof (decoded_size _ _ Hm) as Hs.
    change (toy_decode (media_Text m) ≫= decode_media = Some m). rewrite decode_media_text.
    change (decode_media (media_fields (ObjectKey m) (MIME m) (Size m) (Checksum m) (Filename m)) = Some m).
    rewrite decode_media_fields by done. by destruct m.
  - intros m u b _ _ _. exists (S754_zero false).
    change (toy_decode (json_MarshalQuantity m u b) ≫= decode_quantity = Some (m, u, S754_zero false)).
    by rewrite decode_quantity_text.
  - intros es. by exists (word es).
  - intros es _. unfold unword, word. rewrite unbits_bits by done. rewrite decode_encode.
    f_equal. rewrite <- (list_fmap_id es) at 1. apply list_fmap_ext. by intros i [[v l] c] _.
Qed.
End ToyCells.

Module CellRun.
#[export] Existing Instance ToyCells.std.
#[export] Existing Instance ToyCells.text.
#[export] Existing Instance ToyCells.floats.
#[export] Existing Instance ToyCells.cells.
#[export] Existing Instance ToyCells.laws.
#[export] Existing Instance AccessExample.ulid.

(** Two stock counts of one product, one for a locale. *)
Definition stock (locale : string) (n : Z) : AttributeValue :=
  mkAV 1 "default" 1 1 "box-1" (mkScope locale EmptyString) (NewIntegerValue n) 1 100 100 None.

Definition stocks : list AttributeValue := [stock "en" 5; stock EmptyString 7].

Definition stock_column : mappedColumn := mkColumn 1 "stock" 1 "stock" DataTypeInteger false.

Definition stock_row : list string := ["box-1"%string; exportCell stocks].

Lemma stock_exportable locale n :
  in_int64 n -> exportable DataTypeInteger (avValue (stock locale n)) /\ utf8_scope (avScope (stock locale n)).
Proof.
  intros Hn. split; [|done]. split; try done.
  exists (pretty n). destruct (law_int n Hn) as [L _]. unfold ParseValue. rewrite (law_number _ _ L).
  unfold decodeNumber. rewrite L. simpl. by rewrite ParseInt_pretty.
Qed.

(** A text that begins with the marker. *)
Definition slogan : AttributeValue :=
  mkAV 2 "default" 1 2 "box-1" (mkScope EmptyString EmptyString)
    (NewStringValue (String.append multiValueCellPrefix
      (json_MarshalEntries [(json_MarshalString "a", EmptyString, EmptyString);
                            (json_MarshalString "b", EmptyString, EmptyString)]))) 1 100 100 None.

(** A JSON document that is the text of a number, for a locale. *)
Definition quoted_number : AttributeValue :=
  mkAV 3 "default" 1 3 "box-1" (mkScope "en" EmptyString)
    (mkValue DataTypeJSON false 0 (S754_zero false) "" zeroTime (RawPayload (json_MarshalString "12"))) 1 100 100 None.
End CellRun.

Import CellRun.

Lemma cell_roundtrip_witness :
  exists inputs, cellInputs "1" false "box-1" 1 stock_row stock_column = (inputs, []) /\
    (siLocale <$> inputs) = ["en"%string; EmptyString] /\ length inputs = 2%nat.
Proof.
  destruct (cell_roundtrip "1" "box-1" 1 stock_row stock_column stocks) as (inputs & E & HF);
    [discriminate| |intros []|intros _; repeat constructor; intros Hd; discriminate Hd|reflexivity|].
  - repeat (constructor; [apply stock_exportable; unfold in_int64; lia|]). constructor.
  - exists inputs. split; [exact E|]. inversion HF as [|x i xs is_ (_ & _ & _ & E1 & _) HF1]; subst.
    inversion HF1 as [|x2 i2 xs2 is2 (_ & _ & _ & E2 & _) HF2]; subst. inversion HF2; subst.
    split; [|reflexivity]. cbn [fmap list_fmap]. rewrite E1, E2. reflexivity.
Defined.

(** One text goes out, two values come back. *)
Example slogan_split :
  exists e1 e2, scopedCell (exportCell [slogan]) DataTypeString false = Some [e1; e2] /\
    entryText e1 = "a"%string /\ entryText e2 = "b"%string.
Proof.
  eexists _, _. split; [|split].
  - apply (forged_marker slogan [(json_MarshalString "a", EmptyString, EmptyString);
      (json_MarshalString "b", EmptyString, EmptyString)]); [discriminate| |reflexivity|reflexivity].
    repeat constructor; discriminate.
  - vm_compute. reflexivity.
  - vm_compute. reflexivity.
Qed.

(** A text goes out, a number comes back. *)
Example text_becomes_number :
  json_Unmarshal (rawJSON (jsonVal (avValue quoted_number))) = Some (JString "12") /\
  cellToRaw DataTypeJSON (entryText (reencoded (exportScoped quoted_number))) = Ok "12"%string /\
  json_Unmarshal "12" = Some (JNumber "12").
Proof. vm_compute. done. Qed.
