(* ===== verification/ImportExample.v ===== *)
(** A file of two products imported twice; an import that narrows its entity and
    splits it; an entity whose rows are apart. *)

From Stdlib Require Import ZArith QArith Lia String Ascii List SpecFloat.
From stdpp Require Import base tactics list gmap fin_maps fin_sets strings option decidable pretty relations.
From S2P Require Import Prelude GoText Values Ids Formula Attribute Access TypeDef TypeDefFacts.
From S2P Require Import Units Pagination Dependency ValueWrite AttributeWrite AttributeWriteFacts.
From S2P Require Import SchemaFacts SchemaExample ValueWriteFacts ValueWriteProps ValueExample Computed Query DependencyWrite QueryExample.
From S2P Require Import ImportExport ImportFacts ImportProps CellFacts CellExample.

Open Scope Z_scope.
Open Scope go_scope.

Import SchemaRun.
Import ValueRun.

Module ImportRun.

#[export] Existing Instance ToyCells.text.
#[export] Existing Instance ToyCells.floats.
#[export] Existing Instance ToyCells.cells.
#[export] Existing Instance QueryRun.cursors.

(** Products, books below them; every product has a code, books have pages. *)
Definition shop : Tables :=
  add (attribute "2" "pages" DataTypeInteger None) 2
    (add (attribute "1" "code" DataTypeInteger None) 1
      (add_type "book" "1" 2 (add_type "product" EmptyString 1 nothing))).

Lemma shop_reachable : table_reachable shop.
Proof.
  unfold shop. apply add_table; [|vm_compute; reflexivity]. apply add_table; [|vm_compute; reflexivity].
  apply add_type_table; [|vm_compute; reflexivity]. apply add_type_table; [by apply tr_empty|vm_compute; reflexivity].
Qed.

Definition file (type_id : string) (mapping : list (string * string)) (columns : list string)
    (rows : list (list string)) (mode : ImportMode) : ImportInput :=
  mkImport type_id "key" mapping ("key"%string :: columns) rows mode false false.

(** Three rows, the second without a number. *)
Definition products : ImportInput :=
  file "1" [("code", "code")]%string ["code"%string]
    [["p1"; "10"]; ["p2"; "ten"]; ["p1"; "11"]]%string EmptyString.

Definition fresh (k : nat) : ID := N.of_nat k + 1.

Definition outcome (im : ImportInput) (T : Tables) : result (Run * ImportReport) := Import admin im fresh T.

Definition ran (im : ImportInput) (T : Tables) : Run * ImportReport :=
  match outcome im T with Ok r => r | Err _ => (mkRun T [] 0 ∅ 0 [], mkReport 0 0 0 false "" []) end.

Example products_report :
  (ran products shop).2 =
    mkReport 3 2 2 false "best_effort" [mkImportError 2 "code" "code" "expected an integer"].
Proof. vm_compute. done. Qed.

(** All or nothing: the bad row refuses the file. *)
Example products_transactional :
  let r := ran (file "1" [("code", "code")]%string ["code"%string] (Rows products) ImportTransactional) shop in
  RowsWritten r.2 = 0%nat /\ vals (rnTables r.1) = ∅.
Proof. vm_compute. done. Qed.

(** ** Narrowing *)

(** One product, written under its parent type. *)
Definition coded : Tables :=
  put_value (mkSetInput "1" "p1" "1" EmptyString EmptyString "10" false false) 1 shop.

(** It turns out to be a book: pages and a new code arrive in one row. *)
Definition books : ImportInput :=
  file "2" [("pages", "pages"); ("code", "code")]%string ["pages"; "code"]%string
    [["p1"; "300"; "12"]]%string EmptyString.

Definition imported : Tables :=
  match Import admin books (fun k => N.of_nat k + 2)%N coded with
  | Ok r => rnTables r.1 | Err _ => coded end.

(** The row of the code is saved from the cache, which still has the old type. *)
Example narrowing_import_splits :
  avTypeID <$> (vals imported !! 1%N) = Some 1%N /\ avTypeID <$> (vals imported !! 2%N) = Some 2%N /\
  avEntityID <$> (vals imported !! 1%N) = avEntityID <$> (vals imported !! 2%N).
Proof. vm_compute. done. Qed.

(** The same two writes without the cache keep the entity in one piece. *)
Example plain_writes_do_not :
  let plain := after (match SetBatch admin
    [mkSetInput "2" "p1" "2" EmptyString EmptyString "300" false false;
     mkSetInput "1" "p1" "2" EmptyString EmptyString "12" false false] (fun k => N.of_nat k + 2)%N coded with
    | Ok (T, c, o) => Ok (T, o, c) | Err e => Err e end) coded in
  avTypeID <$> (vals plain !! 1%N) = Some 2%N /\ avTypeID <$> (vals plain !! 2%N) = Some 2%N.
Proof. vm_compute. done. Qed.

(** ** Rows that are apart *)

Definition row_of (n : nat) (entity : string) : preparedRow :=
  mkRow n [mkSetInput "1" entity "1" EmptyString EmptyString "1" false false].

(** A hundred and two rows, the first and the last of one entity. *)
Definition spread : list preparedRow :=
  row_of 1 "p1" :: ((fun n => row_of n (pretty n)) <$> seq 2 100) ++ [row_of 102 "p1"].

(** They fall into two chunks, each judged on its own. *)
Example spread_split :
  (fun chunk => pRow <$> List.filter (fun p => bool_decide (rowEntity p = "p1"%string)) chunk) <$>
    entityChunks spread = [[1%nat]; [102%nat]].
Proof. vm_compute. done. Qed.

(** ** The export of an entity named twice *)

Definition twice : ExportInput :=
  mkExport "1" [] ("p1"%string :: ((fun n => pretty n) <$> seq 2 499) ++ ["p1"%string]) EmptyString.

Definition cell_of_first (ex : ExportInput) : option string :=
  match Export admin ex coded with Ok out => head (exRows out) ≫= (fun row => row !! 1%nat) | Err _ => None end.

(** Named once, the product exports its code; named twice, five hundred apart, its
    one value is exported as two. *)
Example named_twice :
  cell_of_first (mkExport "1" [] ["p1"%string] EmptyString) = Some "10"%string /\
  (cell_of_first twice ≫= fun cell => length <$> scopedCell cell DataTypeInteger false) = Some 2%nat.
Proof. vm_compute. done. Qed.
End ImportRun.

Import ImportRun.

Lemma fresh_inj : Inj (=) (=) fresh.
Proof. intros i j E. unfold fresh in E. lia. Qed.

Lemma shop_fresh k : vals shop !! fresh k = None.
Proof. assert (vals shop = ∅) as -> by (vm_compute; reflexivity). apply lookup_empty. Qed.

Lemma import_cache_transparent_witness :
  exists T' c, writeChunk admin [row_of 1 "p1"; row_of 2 "p2"] fresh 0 shop = Ok (T', c, tt) /\
    Execute admin (fun T c => setEach admin
      (numbered 0 (inputsOf (canonicalOrder rowEntity [row_of 1 "p1"; row_of 2 "p2"]).*2)) fresh T c []) shop =
      Ok (T', c, match setEach admin
        (numbered 0 (inputsOf (canonicalOrder rowEntity [row_of 1 "p1"; row_of 2 "p2"]).*2)) fresh shop newCollector [] with
        | Ok r => r.2 | Err _ => [] end).
Proof.
  pose proof (import_cache_transparent admin [row_of 1 "p1"; row_of 2 "p2"] fresh 0 shop "1" shop_reachable
    fresh_inj (fun k _ => shop_fresh k)) as Ht.
  match type of Ht with ?P -> _ => assert P as Hi end.
  { intros i Hin. apply list_elem_of_In in Hin. cbn in Hin.
    destruct Hin as [<-|[<-|[]]]; (split; [reflexivity|vm_compute; reflexivity]). }
  specialize (Ht Hi). eexists _, _. split; [|vm_compute; reflexivity].
  rewrite Ht. vm_compute. reflexivity.
Defined.

Lemma import_outcome_witness :
  let r := ran products shop in
  table_reachable (rnTables r.1) /\ RowsWritten r.2 = RowsValid r.2 /\ RowsWritten r.2 = 2%nat /\
  exists written refused es, length written = 2%nat /\
    account admin fresh shop (rnCommitted r.1) written refused es (rnTables r.1).
Proof.
  cbv zeta.
  assert (Import admin products fresh shop = Ok (ran products shop)) as E by (vm_compute; reflexivity).
  assert (RowsWritten (ran products shop).2 = 2%nat) as E2 by (vm_compute; reflexivity).
  destruct (ran products shop) as [s rep] eqn:Er.
  destruct (import_outcome admin products fresh shop s rep shop_reachable fresh_inj shop_fresh)
    as (H1 & _ & _ & _ & cols & keyIdx & _ & H5).
  - intros cols k row e _ Hrow _. unfold narrows.
    assert (EntityAnchor shop (rqTenant admin) e = None) as ->; [|by rewrite andb_false_r || (destruct (ParseID _); by rewrite andb_false_r)].
    unfold EntityAnchor. assert (vals shop = ∅) as -> by (vm_compute; reflexivity). reflexivity.
  - exact E.
  - destruct H5 as (H5 & _ & written & refused & es & _ & H6 & H7).
    split; [exact H1|]. split; [exact H5|]. split; [exact E2|]. exists written, refused, es.
    split; [exact (eq_trans (eq_sym H6) E2)|exact H7].
Defined.
