(* ===== verification/Transactor.v ===== *)
(** The in-memory store's transactions ([infrastructure/memory/store.go],
    [transactor.go], the writes of [definitions.go] and [instances.go]): the undo
    journal a transaction keeps, what its repositories write into the shared maps,
    the locks on media keys, and begin, commit and rollback.

    The six maps of [Store] are one map here, keyed as the journal keys them, by
    collection and identifier.  The audit log is a slice of a backing array, because
    the journal keeps its header.  Any number of transactions interleave; the step
    of the store's mutex is one operation. *)

From Stdlib Require Import ZArith Lia String Ascii List.
From stdpp Require Import base tactics list gmap strings option decidable countable.
From S2P Require Import Prelude.

Open Scope Z_scope.
Open Scope go_scope.

(** ** Keys of the journal *)

(** The collection tags. *)
Inductive Coll :=
  | collTypeDefs
  | collAttrs
  | collValues
  | collDeps
  | collRelDefs
  | collRels.

#[export] Instance Coll_eq_dec : EqDecision Coll.
Proof. solve_decision. Defined.

Definition tag (c : Coll) : string :=
  match c with
  | collTypeDefs => "type_definitions"
  | collAttrs => "attributes"
  | collValues => "values"
  | collDeps => "dependencies"
  | collRelDefs => "relationship_definitions"
  | collRels => "relationships"
  end.

Record rowKey := mkKey { coll : Coll; id : string }.

#[export] Instance rowKey_eq_dec : EqDecision rowKey.
Proof. solve_decision. Defined.

Definition untag (s : string) : option Coll :=
  List.find (fun c => bool_decide (tag c = s))
    [collTypeDefs; collAttrs; collValues; collDeps; collRelDefs; collRels].

#[export, program] Instance rowKey_countable : Countable rowKey :=
  inj_countable (fun k => (tag (coll k), id k)) (fun p => (fun c => mkKey c p.2) <$> untag p.1) _.
Next Obligation. intros [[] i]; reflexivity. Qed.

(** [journalKey]: a row's, or the log's, whose tag [collActivities] no row has. *)
Definition journalKey : Type := option rowKey.

Definition collActivities : journalKey := None.

#[export] Instance journalKey_eq_dec : EqDecision journalKey := option_eq_dec.
#[export] Instance journalKey_countable : Countable journalKey := option_countable.

(** A Go slice: elements [0..len) of the array at [ptr], which has [cap]. *)
Record Slice := mkSlice { ptr : nat; len : nat; cap : nat }.

Section Transactor.
(** Snapshots of the six collections, and entries of the audit log. *)
Context {Row Entry : Type}.
(** The capacity [append] gives a slice it reallocates. *)
Variable grow : nat -> nat.

Abbreviation Rows := (gmap rowKey Row).

(** ** The store *)

Record Store := mkStore {
  rows : Rows;
  arrays : gmap nat (list Entry);
  activities : Slice;
  schemaVersions : gmap string Z;
  mediaKeyHeld : gset string }.

Definition NewStore : Store := mkStore ∅ ∅ (mkSlice 0 0 0) ∅ ∅.

Definition set_rows (s : Store) (m : Rows) : Store :=
  mkStore m (arrays s) (activities s) (schemaVersions s) (mediaKeyHeld s).
Definition set_log (s : Store) (a : gmap nat (list Entry)) (l : Slice) : Store :=
  mkStore (rows s) a l (schemaVersions s) (mediaKeyHeld s).
Definition set_held (s : Store) (h : gset string) : Store :=
  mkStore (rows s) (arrays s) (activities s) (schemaVersions s) h.

(** The entries a reader of the log sees. *)
Definition logEntries (s : Store) : list Entry :=
  take (len (activities s)) (default [] (arrays s !! ptr (activities s))).

(** [bumpSchemaVersion]: an unsigned 64-bit counter. *)
Definition bumpSchemaVersion (s : Store) (tenant : string) : Store :=
  mkStore (rows s) (arrays s) (activities s)
    (<[tenant := (default 0 (schemaVersions s !! tenant) + 1) mod 2 ^ 64]> (schemaVersions s))
    (mediaKeyHeld s).

(** ** The undo journal *)

(** What a closure of [undos] puts back: a key's prior row or its absence, the
    log's prior header. *)
Inductive Undo :=
  | UndoRow (k : rowKey) (prior : option Row)
  | UndoLog (prior : Slice).

Record undoJournal := mkJournal {
  seen : gset journalKey;
  undos : list Undo;
  heldMediaKeys : list string }.

Definition newUndoJournal : undoJournal := mkJournal ∅ [] [].

Definition holdsMediaKey (j : undoJournal) (key : string) : bool :=
  bool_decide (key ∈ heldMediaKeys j).

(** [captureMap] and [captureActivities], for a journal. *)
Definition capture (j : undoJournal) (k : journalKey) (u : Undo) : undoJournal :=
  if bool_decide (k ∈ seen j) then j
  else mkJournal ({[k]} ∪ seen j) (undos j ++ [u]) (heldMediaKeys j).

Definition captureMap (j : undoJournal) (s : Store) (k : rowKey) : undoJournal :=
  capture j (Some k) (UndoRow k (rows s !! k)).

Definition captureActivities (j : undoJournal) (s : Store) : undoJournal :=
  capture j collActivities (UndoLog (activities s)).

Definition undo (u : Undo) (s : Store) : Store :=
  match u with
  | UndoRow k prior => set_rows s (partial_alter (fun _ => prior) k (rows s))
  | UndoLog prior => set_log s (arrays s) prior
  end.

(** [Store.rollback]: newest entry first. *)
Definition rollback (s : Store) (j : undoJournal) : Store := foldr undo s (undos j).

(** ** Locks on media keys *)

Definition tryLockMediaKey (s : Store) (key : string) : option Store :=
  if bool_decide (key ∈ mediaKeyHeld s) then None
  else Some (set_held s ({[key]} ∪ mediaKeyHeld s)).

Definition releaseMediaKeys (s : Store) (j : undoJournal) : Store * undoJournal :=
  (set_held s (mediaKeyHeld s ∖ list_to_set (heldMediaKeys j)),
   mkJournal (seen j) (undos j) []).

(** ** What a repository writes

    [SaveRow] is the [Save] of values, dependencies and links; [SaveDefinition]
    that of types, attributes and relationship definitions, which also moves the
    tenant's schema version; [DeleteRow] what a purge does to each of its rows;
    [WriteLog] the activity log's [Write]; [RedactLog] the audit log's eraser, which
    works on the entries in place; [LockKey] one poll of [LockMediaKey]. *)
Inductive Op :=
  | SaveRow (k : rowKey) (v : Row)
  | SaveDefinition (k : rowKey) (tenant : string) (v : Row)
  | DeleteRow (k : rowKey)
  | WriteLog (es : list Entry)
  | RedactLog (f : Entry -> Entry)
  | LockKey (key : string).

(** Go's [append] of several elements. *)
Definition appendLog (s : Store) (es : list Entry) : Store :=
  let l := activities s in
  let a := default [] (arrays s !! ptr l) in
  let n := (len l + length es)%nat in
  if (n <=? cap l)%nat then
    set_log s (<[ptr l := take (len l) a ++ es ++ drop n a]> (arrays s)) (mkSlice (ptr l) n (cap l))
  else
    let p := fresh (dom (arrays s)) in
    set_log s (<[p := take (len l) a ++ es]> (arrays s)) (mkSlice p n (Nat.max n (grow (cap l)))).

(** [activityEraser.redact]: the loop over the entries of the header. *)
Definition redactLog (s : Store) (f : Entry -> Entry) : Store :=
  let l := activities s in
  let a := default [] (arrays s !! ptr l) in
  set_log s (<[ptr l := (f <$> take (len l) a) ++ drop (len l) a]> (arrays s)) l.

(** The journal is that of the transaction the repository is bound to; without
    one nothing is journalled, and a lock is refused. *)
Definition perform (o : Op) (s : Store) (oj : option undoJournal) : Store * option undoJournal :=
  match o with
  | SaveRow k v => (set_rows s (<[k := v]> (rows s)), (fun j => captureMap j s k) <$> oj)
  | SaveDefinition k tenant v =>
      (bumpSchemaVersion (set_rows s (<[k := v]> (rows s))) tenant, (fun j => captureMap j s k) <$> oj)
  | DeleteRow k => (set_rows s (delete k (rows s)), (fun j => captureMap j s k) <$> oj)
  | WriteLog es => (appendLog s es, (fun j => captureActivities j s) <$> oj)
  | RedactLog f => (redactLog s f, oj)
  | LockKey key =>
      match oj with
      | None => (s, None)
      | Some j =>
          if holdsMediaKey j key then (s, Some j)
          else match tryLockMediaKey s key with
               | None => (s, Some j)
               | Some s => (s, Some (mkJournal (seen j) (undos j) (heldMediaKeys j ++ [key])))
               end
      end
  end.

(** ** Transactions *)

(** [memTx], without its hooks. *)
Record memTx := mkTx { journal : undoJournal; depth : nat; done : bool }.

Definition errFinished : Error := Errorf "memory: transaction already finished".
Definition errNested : Error := Errorf "memory: rollback inside nested transaction".

(** [transactor.Begin] *)
Definition freshTx : memTx := mkTx newUndoJournal 0 false.

(** [memTx.Begin] *)
Definition Begin (t : memTx) : result memTx :=
  guard! done t else errFinished then Ok (mkTx (journal t) (S (depth t)) (done t)).

(** The part of [memTx.Commit] before the hooks: [Some t] is an answer without
    running them, the frame of a nested transaction closing. *)
Definition enterCommit (t : memTx) : result (option memTx) :=
  guard! done t else errFinished then
  match depth t with
  | S d => Ok (Some (mkTx (journal t) d (done t)))
  | O => Ok None
  end.

(** The part between the pre-commit and the post-commit hooks. *)
Definition seal (s : Store) (t : memTx) : Store * memTx :=
  let (s, j) := releaseMediaKeys s (journal t) in (s, mkTx j (depth t) true).

(** [memTx.Rollback], but for the rollback hooks; the flag says that they run. *)
Definition Rollback (s : Store) (t : memTx) : Store * memTx * bool * option Error :=
  if done t then (s, t, false, None)
  else match depth t with
       | S d => (s, mkTx (journal t) d (done t), false, Some errNested)
       | O => (seal (rollback s (journal t)) t, true, None)
       end.

(** ** Interleavings *)

Record World := mkWorld { store : Store; txs : gmap nat memTx }.

Inductive Act :=
  | ABegin
  | AWrite (o : Op)
  | ACommit
  | ARollback.

(** One step of transaction [i], or of a write bound to none.  [ABegin] opens a
    transaction, or nests in an open one. *)
Definition step (w : World) (x : option nat * Act) : World :=
  match x.1 with
  | None =>
      match x.2 with
      | AWrite o => mkWorld (perform o (store w) None).1 (txs w)
      | _ => w
      end
  | Some i =>
      match txs w !! i, x.2 with
      | None, ABegin => mkWorld (store w) (<[i := freshTx]> (txs w))
      | None, _ => w
      | Some t, ABegin =>
          match Begin t with
          | Ok t => mkWorld (store w) (<[i := t]> (txs w))
          | Err _ => w
          end
      | Some t, AWrite o =>
          let (s, oj) := perform o (store w) (Some (journal t)) in
          mkWorld s (<[i := mkTx (default (journal t) oj) (depth t) (done t)]> (txs w))
      | Some t, ACommit =>
          match enterCommit t with
          | Err _ => w
          | Ok (Some t) => mkWorld (store w) (<[i := t]> (txs w))
          | Ok None => let (s, t) := seal (store w) t in mkWorld s (<[i := t]> (txs w))
          end
      | Some t, ARollback =>
          let '(s, t, _, _) := Rollback (store w) t in mkWorld s (<[i := t]> (txs w))
      end
  end.

Definition run (w : World) (xs : list (option nat * Act)) : World := foldl step w xs.

(** The steps of a run that are not transaction [i]'s. *)
Definition without (i : nat) (xs : list (option nat * Act)) : list (option nat * Act) :=
  List.filter (fun x => negb (bool_decide (x.1 = Some i))) xs.

(** The row a step writes. *)
Definition target (a : Act) : option rowKey :=
  match a with
  | AWrite (SaveRow k _) | AWrite (SaveDefinition k _ _) | AWrite (DeleteRow k) => Some k
  | _ => None
  end.

(** The rows transaction [i] writes along a run. *)
Definition touched (i : nat) (xs : list (option nat * Act)) : gset rowKey :=
  list_to_set (omap (fun x => if bool_decide (x.1 = Some i) then target x.2 else None) xs).

(** The rows a list of undo entries puts back. *)
Fixpoint coveredBy (us : list Undo) : gset rowKey :=
  match us with
  | [] => ∅
  | UndoRow k _ :: us => {[k]} ∪ coveredBy us
  | UndoLog _ :: us => coveredBy us
  end.

End Transactor.

Arguments Store : clear implicits.
Arguments Op : clear implicits.
Arguments Undo : clear implicits.
Arguments undoJournal : clear implicits.
Arguments memTx : clear implicits.
Arguments World : clear implicits.
Arguments Act : clear implicits.
