(* ===== verification/TransactorFacts.v ===== *)
(** What the undo journal achieves under interleavings ([Transactor]).

    [sim] relates a run to the same run with one transaction's steps left out: as
    long as that transaction is open, undoing its journal gives the other run's
    rows.  A transaction that is rolled back has therefore left no row behind,
    provided nobody else writes the rows it wrote while it is open; without that
    proviso it takes committed rows with it.  The second half is the mutual
    exclusion of the locks on media keys. *)

From Stdlib Require Import ZArith Lia String Ascii List.
From stdpp Require Import base tactics list gmap strings option decidable countable.
From S2P Require Import Prelude Transactor.

Section Facts.
Context {Row Entry : Type}.
Variable grow : nat -> nat.

Abbreviation Rows := (gmap rowKey Row).
Abbreviation Store := (Store Row Entry).
Abbreviation World := (World Row Entry).
Abbreviation Act := (Act Row Entry).
Abbreviation Op := (Op Row Entry).
Abbreviation Journal := (undoJournal Row).
Abbreviation Tx := (memTx Row).
Abbreviation run := (run (Row:=Row) (Entry:=Entry) grow).
Abbreviation step := (step (Row:=Row) (Entry:=Entry) grow).
Abbreviation perform := (perform (Row:=Row) (Entry:=Entry) grow).
Abbreviation Trace := (list (option nat * Act)).

(** ** Rows under undo *)

Definition undoRow (u : Undo Row) (m : Rows) : Rows :=
  match u with UndoRow k prior => partial_alter (fun _ => prior) k m | UndoLog _ => m end.

Definition undoRows (us : list (Undo Row)) (m : Rows) : Rows := foldr undoRow m us.

Lemma rows_rollback (s : Store) (j : Journal) :
  rows (rollback s j) = undoRows (undos j) (rows s).
Proof. unfold rollback. induction (undos j) as [|[k p|p] us IH]; simpl; congruence. Qed.

(** A write to a row the undo list restores is invisible after it. *)
Lemma undo_overwrites us k (g : option Row -> option Row) (m : Rows) :
  k ∈ coveredBy us -> undoRows us (partial_alter g k m) = undoRows us m.
Proof.
  induction us as [|[k' p|p] us IH]; simpl; [set_solver| |exact IH].
  destruct (decide (k ∈ coveredBy us)) as [Hk|Hk]; [rewrite IH by exact Hk; done|].
  intros [->%elem_of_singleton|?]%elem_of_union; [|done]. clear IH.
  apply map_eq. intros k2. destruct (decide (k2 = k')) as [->|Hne];
    [by rewrite !lookup_partial_alter_eq|rewrite !lookup_partial_alter_ne by congruence].
  revert Hk. induction us as [|[k3 p3|p3] us IH]; simpl; intros Hk.
  - by rewrite lookup_partial_alter_ne by congruence.
  - destruct (decide (k3 = k2)) as [->|Hne3]; [by rewrite !lookup_partial_alter_eq|].
    rewrite !lookup_partial_alter_ne by done. apply IH. set_solver.
  - apply IH, Hk.
Qed.

(** A write to any other row stays. *)
Lemma undo_keeps us k (g : option Row -> option Row) (m : Rows) :
  k ∉ coveredBy us -> undoRows us (partial_alter g k m) = partial_alter g k (undoRows us m).
Proof.
  induction us as [|[k' p|p] us IH]; simpl; intros Hk; [done| |by apply IH].
  rewrite IH by set_solver. apply partial_alter_partial_alter_ne. set_solver.
Qed.

Lemma undo_elsewhere us (m : Rows) k : k ∉ coveredBy us -> undoRows us m !! k = m !! k.
Proof.
  induction us as [|[k' p|p] us IH]; simpl; intros Hk; [done| |by apply IH].
  rewrite lookup_partial_alter_ne by set_solver. apply IH. set_solver.
Qed.

Lemma undo_disjoint us us' (m : Rows) :
  coveredBy us ## coveredBy us' -> undoRows us (undoRows us' m) = undoRows us' (undoRows us m).
Proof.
  induction us' as [|[k p|p] us' IH]; simpl; intros Hd; [done| |by apply IH].
  rewrite undo_keeps; [rewrite IH; [done|]|];
    revert Hd; simpl; set_solver.
Qed.

(** Restoring a row to what it holds changes nothing. *)
Lemma undo_last us k (m : Rows) :
  undoRows (us ++ [UndoRow k (m !! k)]) m = undoRows us m.
Proof. unfold undoRows. rewrite foldr_app. simpl. by rewrite partial_alter_self. Qed.

(** ** One operation *)

(** What an operation does to the rows: at most one is set or removed. *)
Definition written (o : Op) : option (rowKey * option Row) :=
  match o with
  | SaveRow k v | SaveDefinition k _ v => Some (k, Some v)
  | DeleteRow k => Some (k, None)
  | _ => None
  end.

Lemma target_written (o : Op) : target (AWrite o) = fst <$> written o.
Proof. destruct o; reflexivity. Qed.

Lemma rows_perform (o : Op) (s : Store) oj :
  rows (perform o s oj).1 =
    match written o with
    | Some (k, x) => partial_alter (fun _ => x) k (rows s)
    | None => rows s
    end.
Proof.
  destruct o as [| | | |f|key]; try reflexivity; simpl.
  - unfold appendLog. case_match; reflexivity.
  - destruct oj as [j|]; [|done]. unfold tryLockMediaKey. repeat case_match; simplify_eq/=; done.
Qed.

(** The row part of a journal. *)
Definition isRow (u : Undo Row) : bool := match u with UndoRow _ _ => true | UndoLog _ => false end.

Definition rowUndos (us : list (Undo Row)) : list (Undo Row) := List.filter isRow us.

Lemma rowUndos_app us us' : rowUndos (us ++ us') = rowUndos us ++ rowUndos us'.
Proof. apply List.filter_app. Qed.

Lemma undo_rowUndos us (m : Rows) : undoRows (rowUndos us) m = undoRows us m.
Proof. unfold rowUndos, undoRows. induction us as [|[k p|p] us IH]; simpl; [done|by rewrite IH|exact IH]. Qed.

Lemma covered_rowUndos us : coveredBy (rowUndos us) = coveredBy us.
Proof.
  unfold rowUndos. induction us as [|[k p|p] us IH]; simpl; [done|by rewrite IH|exact IH].
Qed.

Definition journal_ok (j : Journal) : Prop := forall k, k ∈ coveredBy (undos j) <-> Some k ∈ seen j.

Lemma covered_app (us us' : list (Undo Row)) : coveredBy (us ++ us') = coveredBy us ∪ coveredBy us'.
Proof. induction us as [|[k p|p] us IH]; simpl; [set_solver|rewrite IH; set_solver|exact IH]. Qed.

(** What an operation adds to the journal of its transaction. *)
Definition journalled (o : Op) (s : Store) (j : Journal) : Journal :=
  default j (perform o s (Some j)).2.

Lemma perform_journal (o : Op) s j : perform o s (Some j) = ((perform o s (Some j)).1, Some (journalled o s j)).
Proof.
  unfold journalled. destruct o as [| | | | |key]; simpl; try done.
  destruct (holdsMediaKey j key); [done|]. destruct (tryLockMediaKey s key); done.
Qed.

Lemma journalled_written (o : Op) s j k x :
  written o = Some (k, x) -> journalled o s j = captureMap j s k.
Proof. destruct o; simpl; intros [= <- <-]; reflexivity. Qed.

Lemma journalled_other (o : Op) s j :
  written o = None ->
  exists seen' log held, journalled o s j = mkJournal (seen' ∪ seen j) (undos j ++ log) held /\
    (forall k, Some k ∉ seen') /\ rowUndos log = [].
Proof.
  destruct o as [| | | es|f|key]; simpl; try discriminate; intros _; unfold journalled; simpl.
  - unfold captureActivities, capture. case_bool_decide.
    + exists ∅, [], (heldMediaKeys j). rewrite app_nil_r. destruct j; split_and!; [f_equal; set_solver|set_solver|done].
    + exists {[collActivities]}, [UndoLog (activities s)], (heldMediaKeys j).
      split_and!; [done|unfold collActivities; set_solver|done].
  - exists ∅, [], (heldMediaKeys j). rewrite app_nil_r. destruct j; split_and!; [f_equal; set_solver|set_solver|done].
  - assert (forall h, exists seen' log held, mkJournal (seen j) (undos j) h = mkJournal (seen' ∪ seen j) (undos j ++ log) held /\
      (forall k, Some k ∉ seen') /\ rowUndos log = []) as H.
    { intros h. exists ∅, [], h. rewrite app_nil_r. split_and!; [f_equal; set_solver|set_solver|done]. }
    destruct (holdsMediaKey j key); [destruct j; apply H|].
    destruct (tryLockMediaKey s key); [apply H|destruct j; apply H].
Qed.

(** ** Two runs side by side *)

(** Journals that put the same rows back. *)
Definition jeq (j1 j2 : Journal) : Prop :=
  rowUndos (undos j1) = rowUndos (undos j2) /\ forall k, Some k ∈ seen j1 <-> Some k ∈ seen j2.

Definition teq (t1 t2 : Tx) : Prop :=
  jeq (journal t1) (journal t2) /\ depth t1 = depth t2 /\ done t1 = done t2.

Lemma jeq_refl j : jeq j j.
Proof. split; [done|intros; reflexivity]. Qed.

Lemma jeq_undo j1 j2 (m : Rows) : jeq j1 j2 -> undoRows (undos j1) m = undoRows (undos j2) m.
Proof. intros [H _]. by rewrite <- undo_rowUndos, H, undo_rowUndos. Qed.

Lemma jeq_journalled (o : Op) s1 s2 j1 j2 :
  jeq j1 j2 ->
  (forall k x, written o = Some (k, x) -> rows s1 !! k = rows s2 !! k) ->
  jeq (journalled o s1 j1) (journalled o s2 j2).
Proof.
  intros [Hu Hs] Hr. destruct (written o) as [[k x]|] eqn:Hw.
  - rewrite !(journalled_written _ _ _ _ _ Hw). unfold captureMap, capture.
    specialize (Hr k x eq_refl).
    repeat case_bool_decide; [by split|naive_solver|naive_solver|split; simpl].
    + rewrite !rowUndos_app, Hu. simpl. by rewrite Hr.
    + intros k2. specialize (Hs k2). set_solver.
  - destruct (journalled_other o s1 j1 Hw) as (a1 & l1 & h1 & -> & Ha1 & Hl1).
    destruct (journalled_other o s2 j2 Hw) as (a2 & l2 & h2 & -> & Ha2 & Hl2).
    split; simpl.
    + by rewrite !rowUndos_app, Hu, Hl1, Hl2.
    + intros k. specialize (Hs k). specialize (Ha1 k). specialize (Ha2 k). set_solver.
Qed.

Lemma covered_journalled (o : Op) s j k :
  k ∈ coveredBy (undos (journalled o s j)) -> k ∈ coveredBy (undos j) \/ target (AWrite o) = Some k.
Proof.
  rewrite target_written. destruct (written o) as [[k' x]|] eqn:Hw.
  - rewrite (journalled_written _ _ _ _ _ Hw). unfold captureMap, capture.
    case_bool_decide; [by left|]. simpl. rewrite covered_app. intros [?|Hk]%elem_of_union; [by left|].
    right. simpl in *. f_equal. set_solver.
  - destruct (journalled_other o s j Hw) as (a & l & h & -> & _ & Hl). simpl.
    rewrite covered_app, <- (covered_rowUndos l), Hl. simpl. set_solver.
Qed.

Lemma journal_ok_journalled (o : Op) s j : journal_ok j -> journal_ok (journalled o s j).
Proof.
  intros Hok k. destruct (written o) as [[k' x]|] eqn:Hw.
  - rewrite (journalled_written _ _ _ _ _ Hw). unfold captureMap, capture.
    case_bool_decide; [apply Hok|]. simpl. rewrite covered_app, elem_of_union, (Hok k).
    simpl. set_solver.
  - destruct (journalled_other o s j Hw) as (a & l & h & -> & Ha & Hl). simpl.
    rewrite covered_app, <- (covered_rowUndos l), Hl, elem_of_union, (Hok k).
    specialize (Ha k). simpl. set_solver.
Qed.

(** Transactions of two runs, but for [i], correspond, and those of the first
    would put back no row of [W]. *)
Definition others (i : nat) (W : gset rowKey) (m1 m2 : gmap nat Tx) : Prop :=
  forall u, u <> i ->
  match m1 !! u, m2 !! u with
  | Some a, Some b => teq a b /\ coveredBy (undos (journal a)) ## W
  | None, None => True
  | _, _ => False
  end.

Definition sim (i : nat) (W : gset rowKey) (us : list (Undo Row)) (w1 w2 : World) : Prop :=
  undoRows us (rows (store w1)) = rows (store w2) /\ coveredBy us ⊆ W /\
  others i W (txs w1) (txs w2).

Lemma others_insert i W (m1 m2 : gmap nat Tx) u a b :
  others i W m1 m2 -> teq a b -> coveredBy (undos (journal a)) ## W ->
  others i W (<[u := a]> m1) (<[u := b]> m2).
Proof.
  intros Ho Ht Hd v Hv. destruct (decide (v = u)) as [->|Hne].
  - by rewrite !lookup_insert_eq.
  - rewrite !lookup_insert_ne by done. by apply Ho.
Qed.

Lemma sim_write W us (s1 s2 : Store) o oj1 oj2 :
  undoRows us (rows s1) = rows s2 -> coveredBy us ⊆ W ->
  (forall k, target (AWrite o) = Some k -> k ∉ W) ->
  undoRows us (rows (perform o s1 oj1).1) = rows (perform o s2 oj2).1.
Proof.
  intros Hr Hc Ht. rewrite !rows_perform. rewrite target_written in Ht.
  destruct (written o) as [[k x]|]; [|done]. rewrite undo_keeps; [by rewrite Hr|].
  specialize (Ht k eq_refl). set_solver.
Qed.

(** A step of anybody else keeps the relation. *)
Lemma sim_other i W us w1 w2 x :
  sim i W us w1 w2 -> x.1 <> Some i ->
  (forall k, target x.2 = Some k -> k ∉ W) ->
  sim i W us (step w1 x) (step w2 x).
Proof.
  intros (Hr & Hc & Ho) Hx Ht. destruct x as [[u|] a]; simpl in *; unfold step; simpl.
  2: { destruct a as [|o| |]; [done| |done|done]. split; [|done]. simpl. by eapply sim_write. }
  assert (u <> i) as Hu by congruence. pose proof (Ho u Hu) as Hu'.
  destruct (txs w1 !! u) as [t1|], (txs w2 !! u) as [t2|]; try done.
  2: { destruct a; try done. split; [done|]. split; [done|]. apply others_insert; [done| |].
       - split; [apply jeq_refl|done].
       - simpl. set_solver. }
  destruct Hu' as ((Hj & Hd & Hf) & Hdis). destruct a as [|o| |].
  - unfold Begin. rewrite Hf. destruct (done t2); simpl; [done|].
    split; [done|]. split; [done|]. apply others_insert; [done| |done]. split; [exact Hj|split; simpl; congruence].
  - rewrite (perform_journal o (store w1)), (perform_journal o (store w2)). split; [|split; [done|]]; simpl.
    + by eapply sim_write.
    + apply others_insert; [done| |].
      * split; [|done]. apply jeq_journalled; [done|]. intros k x Hw.
        rewrite <- Hr. symmetry. apply undo_elsewhere.
        specialize (Ht k). rewrite target_written, Hw in Ht. specialize (Ht eq_refl). set_solver.
      * simpl. intros k Hk HW. apply covered_journalled in Hk as [Hk|Hk]; [set_solver|].
        by apply (Ht k Hk).
  - unfold enterCommit. rewrite Hf, Hd. destruct (done t2); simpl; [done|].
    destruct (depth t2) as [|d] eqn:Hd2; simpl.
    + split; [done|]. split; [done|]. apply others_insert; [done| |done]. split; [exact Hj|split; simpl; congruence].
    + split; [done|]. split; [done|]. apply others_insert; [done| |done]. split; [exact Hj|split; simpl; congruence].
  - unfold Rollback. rewrite Hf, Hd. destruct (done t2) eqn:Hf2; simpl; [|destruct (depth t2) as [|d] eqn:Hd2; simpl].
    + split; [done|]. split; [done|]. apply others_insert; [done| |done]. split; [exact Hj|split; congruence].
    + split; [|split; [done|]]; simpl.
      * rewrite !rows_rollback, undo_disjoint, Hr; [by apply jeq_undo|]. set_solver.
      * apply others_insert; [done| |done]. split; [exact Hj|split; simpl; congruence].
    + split; [done|]. split; [done|]. apply others_insert; [done| |done]. split; [exact Hj|split; simpl; congruence].
Qed.

(** ** The transaction left out *)

Definition undosOf (w : World) (i : nat) : list (Undo Row) :=
  match txs w !! i with Some t => undos (journal t) | None => [] end.

(** While [i] is open: undoing its journal gives the run without it. *)
Definition shadow (i : nat) (W : gset rowKey) (w1 w2 : World) : Prop :=
  sim i W (undosOf w1 i) w1 w2 /\ txs w2 !! i = None /\
  (forall t, txs w1 !! i = Some t -> journal_ok (journal t)).

Lemma others_own i W (m1 m2 : gmap nat Tx) t : others i W m1 m2 -> others i W (<[i := t]> m1) m2.
Proof. intros Ho u Hu. rewrite lookup_insert_ne by congruence. by apply Ho. Qed.

(** A write of the transaction itself, undone, is no write. *)
Lemma undo_journalled (o : Op) s j :
  journal_ok j ->
  undoRows (undos (journalled o s j)) (rows (perform o s (Some j)).1) = undoRows (undos j) (rows s).
Proof.
  intros Hok. rewrite rows_perform. destruct (written o) as [[k x]|] eqn:Hw.
  - rewrite (journalled_written _ _ _ _ _ Hw). unfold captureMap, capture. case_bool_decide as Hk.
    + apply undo_overwrites. by apply Hok.
    + simpl. rewrite undo_overwrites, undo_last; [done|]. rewrite covered_app. simpl. set_solver.
  - destruct (journalled_other o s j Hw) as (a & l & h & -> & _ & Hl). simpl.
    by rewrite <- undo_rowUndos, rowUndos_app, Hl, app_nil_r, undo_rowUndos.
Qed.

Lemma shadow_put i W s m w2 t :
  undoRows (undos (journal t)) (rows s) = rows (store w2) -> coveredBy (undos (journal t)) ⊆ W ->
  others i W m (txs w2) -> txs w2 !! i = None -> journal_ok (journal t) ->
  shadow i W (mkWorld s (<[i := t]> m)) w2.
Proof.
  intros Hr Hc Ho H2 Hok. unfold shadow, sim, undosOf. simpl. rewrite lookup_insert_eq.
  split_and!; auto; [by apply others_own|]. by intros t' [= <-].
Qed.

Lemma shadow_own i W w1 w2 a :
  shadow i W w1 w2 ->
  (forall k, target a = Some k -> k ∈ W) ->
  (forall t, txs (step w1 (Some i, a)) !! i = Some t -> done t = false) ->
  shadow i W (step w1 (Some i, a)) w2.
Proof.
  intros Hs Ht Hopen. pose proof Hs as ((Hr & Hc & Ho) & H2 & Hok). unfold step in *. simpl in *.
  unfold undosOf in Hr, Hc.
  destruct (txs w1 !! i) as [t|] eqn:Ei; simpl in *.
  2: { destruct a as [|o| |]; try exact Hs. apply shadow_put; auto; intros k; simpl; set_solver. }
  specialize (Hok t eq_refl). destruct a as [|o| |].
  - unfold Begin in *. destruct (done t); [exact Hs|]. by apply shadow_put.
  - rewrite perform_journal in *. simpl in *. apply shadow_put; simpl; auto.
    + by rewrite undo_journalled.
    + intros k Hk. apply covered_journalled in Hk as [Hk|Hk]; [set_solver|by apply Ht].
    + by apply journal_ok_journalled.
  - unfold enterCommit in *. destruct (done t); [exact Hs|].
    destruct (depth t) as [|d]; simpl in *; [|by apply shadow_put].
    rewrite lookup_insert_eq in Hopen. by specialize (Hopen _ eq_refl).
  - unfold Rollback in *. destruct (done t) eqn:Hf; simpl in *.
    + rewrite lookup_insert_eq in Hopen. specialize (Hopen _ eq_refl). congruence.
    + destruct (depth t) as [|d]; simpl in *; [|by apply shadow_put].
      rewrite lookup_insert_eq in Hopen. by specialize (Hopen _ eq_refl).
Qed.

(** A step leaves the other transactions alone. *)
Lemma txs_other i w x : x.1 <> Some i -> txs (step w x) !! i = txs w !! i.
Proof.
  destruct x as [[u|] a]; unfold step; simpl; intros Hx; [|by destruct a].
  assert (u <> i) as Hne by congruence.
  destruct (txs w !! u) as [v|]; destruct a as [|o| |]; simpl; try done;
    rewrite ?lookup_insert_ne by done; try done.
  - unfold Begin. destruct (done v); simpl; rewrite ?lookup_insert_ne by done; done.
  - rewrite perform_journal. simpl. by rewrite lookup_insert_ne by done.
  - unfold enterCommit. destruct (done v); simpl; [done|].
    destruct (depth v); simpl; by rewrite lookup_insert_ne by done.
  - unfold Rollback. destruct (done v); simpl; [by rewrite lookup_insert_ne by done|].
    destruct (depth v); simpl; by rewrite lookup_insert_ne by done.
Qed.

(** A finished transaction stays finished. *)
Lemma done_stays i w x t :
  txs w !! i = Some t -> done t = true -> exists t', txs (step w x) !! i = Some t' /\ done t' = true.
Proof.
  intros Hi Hd. destruct x as [[u|] a]; unfold step; simpl; [|destruct a; eauto].
  destruct (decide (u = i)) as [->|Hne].
  - rewrite Hi. destruct a as [|o| |]; simpl.
    + unfold Begin. rewrite Hd. simpl. eauto.
    + rewrite perform_journal. simpl. rewrite lookup_insert_eq. simpl. eauto.
    + unfold enterCommit. rewrite Hd. simpl. eauto.
    + unfold Rollback. rewrite Hd. simpl. rewrite lookup_insert_eq. eauto.
  - exists t. split; [|done]. rewrite <- Hi. apply (txs_other i w (Some u, a)). simpl. congruence.
Qed.

Lemma done_run i xs w t :
  txs w !! i = Some t -> done t = true -> exists t', txs (run w xs) !! i = Some t' /\ done t' = true.
Proof.
  revert w t. induction xs as [|x xs IH]; intros w t Hi Hd; [eauto|].
  destruct (done_stays i w x t Hi Hd) as (t' & Hi' & Hd'). by eapply IH.
Qed.

Lemma without_cons i x (xs : Trace) :
  without i (x :: xs) = if bool_decide (x.1 = Some i) then without i xs else x :: without i xs.
Proof. unfold without. simpl. by case_bool_decide. Qed.

Lemma shadow_run i W xs w1 w2 :
  shadow i W w1 w2 ->
  (forall x k, x ∈ xs -> target x.2 = Some k -> (k ∈ W <-> x.1 = Some i)) ->
  (forall t, txs (run w1 xs) !! i = Some t -> done t = false) ->
  shadow i W (run w1 xs) (run w2 (without i xs)).
Proof.
  revert w1 w2. induction xs as [|x xs IH]; intros w1 w2 Hs Ht Hopen; [done|].
  assert (forall t, txs (step w1 x) !! i = Some t -> done t = false) as Hnow.
  { intros t Hi. destruct (done t) eqn:Hd; [|done].
    destruct (done_run i xs _ t Hi Hd) as (t' & Hi' & Hd'). rewrite <- (Hopen t' Hi'). done. }
  rewrite without_cons. case_bool_decide as Hx; simpl; apply IH; [| | exact Hopen| | |exact Hopen];
    try (intros y k Hy; apply Ht; set_solver).
  - destruct x as [ou a]. simpl in Hx. subst ou. apply shadow_own; [done| |done].
    intros k Hk. apply (Ht (Some i, a) k); [set_solver|done|done].
  - destruct Hs as (Hs & H2 & Hok).
    assert (txs (step w1 x) !! i = txs w1 !! i /\ txs (step w2 x) !! i = None) as [E1 E2].
    { split; [|rewrite <- H2]; apply txs_other; done. }
    unfold shadow, undosOf. rewrite E1, E2. split_and!; auto.
    apply sim_other; [done|done|]. intros k Hk HW. by apply (Ht x k) in HW; [|set_solver|].
Qed.

(** ** A rolled-back transaction leaves no row behind *)

Lemma sim_run i us w1 w2 ys :
  sim i ∅ us w1 w2 -> (forall y, y ∈ ys -> y.1 <> Some i) -> sim i ∅ us (run w1 ys) (run w2 ys).
Proof.
  revert w1 w2. induction ys as [|y ys IH]; intros w1 w2 Hs Hy; [done|].
  apply IH; [|intros z Hz; apply Hy; set_solver].
  apply sim_other; [done|apply Hy; set_solver|set_solver].
Qed.

Lemma touched_iff i (xs : Trace) k :
  k ∈ touched i xs <-> exists x, x ∈ xs /\ x.1 = Some i /\ target x.2 = Some k.
Proof.
  unfold touched. rewrite elem_of_list_to_set, list_elem_of_omap. split.
  - intros (x & Hx & Ht). case_bool_decide; [eauto|discriminate].
  - intros (x & Hx & Hi & Ht). exists x. split; [done|]. by rewrite bool_decide_true.
Qed.

Lemma shadow_start i w W :
  txs w !! i = None ->
  (forall u t, txs w !! u = Some t -> coveredBy (undos (journal t)) ## W) ->
  shadow i W w w.
Proof.
  intros Hi Hd. unfold shadow, sim, undosOf. rewrite Hi. split_and!; simpl; [done|set_solver| |done|done].
  intros u Hu. specialize (Hd u). destruct (txs w !! u) as [t|]; [|done].
  split; [split; [apply jeq_refl|done]|by apply Hd].
Qed.

(** The rollback that ends the transaction. *)
Lemma shadow_rollback i W w1 w2 t :
  shadow i W w1 w2 -> txs w1 !! i = Some t -> done t = false -> depth t = 0%nat ->
  sim i ∅ [] (step w1 (Some i, ARollback)) w2.
Proof.
  intros ((Hr & Hc & Ho) & H2 & Hok) Hi Hf Hd. unfold step, undosOf in *. simpl.
  rewrite Hi in *. unfold Rollback. rewrite Hf, Hd. split_and!; simpl.
  - by rewrite rows_rollback.
  - set_solver.
  - apply others_own. intros u Hu. specialize (Ho u Hu).
    destruct (txs w1 !! u), (txs w2 !! u); try done. destruct Ho as [Ht _]. split; [done|set_solver].
Qed.

(** C20: a transaction that rolls back might as well not have run.  Take any
    interleaving of transactions, nested frames, commits, rollbacks and writes
    outside transactions, in which transaction [i] writes whatever it writes and
    then rolls back its outermost frame: the rows of the store, then and after any
    further steps of the others, are those of the same interleaving without [i] -
    so whatever the others committed meanwhile stands - provided that while [i] is
    open no one else writes a row it writes, and the journals open before it cover
    none. *)
Theorem rollback_unobservable (w : World) (xs ys : Trace) (i : nat) (t : Tx) :
  txs w !! i = None ->
  txs (run w xs) !! i = Some t -> done t = false -> depth t = 0%nat ->
  (forall u t', txs w !! u = Some t' -> coveredBy (undos (journal t')) ## touched i xs) ->
  (forall x k, x ∈ xs -> x.1 <> Some i -> target x.2 = Some k -> k ∉ touched i xs) ->
  (forall y, y ∈ ys -> y.1 <> Some i) ->
  rows (store (run w (xs ++ (Some i, ARollback) :: ys))) = rows (store (run w (without i xs ++ ys))).
Proof.
  intros Hi Ht Hf Hd Hj Hx Hy.
  assert (shadow i (touched i xs) (run w xs) (run w (without i xs))) as Hs.
  { apply shadow_run; [by apply shadow_start| |].
    - intros x k Hin Hk. split; [|intros Hxi; apply touched_iff; eauto].
      intros HW. destruct (decide (x.1 = Some i)) as [|Hne]; [done|]. by destruct (Hx x k).
    - intros t' Ht'. congruence. }
  unfold run, Transactor.run. rewrite !foldl_app. simpl.
  eapply (sim_run i []); [by eapply shadow_rollback|done].
Qed.

(** ** Locks on media keys *)

(** Histories in which only open transactions ask for locks. *)
Inductive history : World -> Prop :=
  | history_start : history (mkWorld (NewStore (Row:=Row) (Entry:=Entry)) ∅)
  | history_step w x :
      history w ->
      (forall i key, x = (Some i, AWrite (LockKey key)) -> exists t, txs w !! i = Some t /\ done t = false) ->
      history (step w x).

Definition heldBy (m : gmap nat Tx) (i : nat) : list string :=
  match m !! i with Some t => heldMediaKeys (journal t) | None => [] end.

(** The locks held are those of the transactions, each of one; a finished
    transaction has none. *)
Definition locks_ok (H : gset string) (m : gmap nat Tx) : Prop :=
  (forall key, key ∈ H <-> exists i, key ∈ heldBy m i) /\
  (forall i1 i2 key, key ∈ heldBy m i1 -> key ∈ heldBy m i2 -> i1 = i2) /\
  (forall i t, m !! i = Some t -> done t = true -> heldMediaKeys (journal t) = []).

Lemma heldBy_insert m i t u :
  heldBy (<[i := t]> m) u = if bool_decide (u = i) then heldMediaKeys (journal t) else heldBy m u.
Proof.
  unfold heldBy. case_bool_decide as E; [subst u; by rewrite lookup_insert_eq|].
  by rewrite lookup_insert_ne by congruence.
Qed.

(** A transaction that keeps its locks. *)
Lemma locks_same H m i t :
  locks_ok H m -> heldMediaKeys (journal t) = heldBy m i -> (done t = true -> heldBy m i = []) ->
  locks_ok H (<[i := t]> m).
Proof.
  intros (H1 & H2 & H3) Ht Hd.
  assert (forall u, heldBy (<[i := t]> m) u = heldBy m u) as E.
  { intros u. rewrite heldBy_insert. case_bool_decide; [by subst|done]. }
  split_and!.
  - intros key. rewrite H1. by setoid_rewrite E.
  - intros i1 i2 key. rewrite !E. apply H2.
  - intros u t' [[<- <-]|[Hne Hu]]%lookup_insert_Some Hf; [by rewrite Ht, Hd|by eapply H3].
Qed.

Lemma locks_acquire H m i t key :
  locks_ok H m -> key ∉ H -> heldMediaKeys (journal t) = heldBy m i ++ [key] -> done t = false ->
  locks_ok ({[key]} ∪ H) (<[i := t]> m).
Proof.
  intros (H1 & H2 & H3) Hk Ht Hd.
  assert (forall u k, k ∈ heldBy (<[i := t]> m) u <-> k ∈ heldBy m u \/ u = i /\ k = key) as E.
  { intros u k. rewrite heldBy_insert. case_bool_decide; [subst|naive_solver].
    rewrite Ht, elem_of_app, list_elem_of_singleton. naive_solver. }
  assert (forall u, key ∉ heldBy m u) as Hfree by (intros u Hu; apply Hk, H1; eauto).
  split_and!.
  - intros k. setoid_rewrite E. rewrite elem_of_union, elem_of_singleton, H1. naive_solver.
  - intros i1 i2 k. rewrite !E. intros [A|[A1 A2]] [B|[B1 B2]]; subst; try done; [by eapply H2| |];
      exfalso; by eapply Hfree.
  - intros u t' [[<- <-]|[Hne Hu]]%lookup_insert_Some Hf; [congruence|by eapply H3].
Qed.

Lemma locks_release H m i t :
  locks_ok H m -> heldMediaKeys (journal t) = [] ->
  locks_ok (H ∖ list_to_set (heldBy m i)) (<[i := t]> m).
Proof.
  intros (H1 & H2 & H3) Ht.
  assert (forall u k, k ∈ heldBy (<[i := t]> m) u <-> k ∈ heldBy m u /\ u <> i) as E.
  { intros u k. rewrite heldBy_insert. case_bool_decide; [subst; rewrite Ht; set_solver|naive_solver]. }
  split_and!.
  - intros k. setoid_rewrite E. rewrite elem_of_difference, elem_of_list_to_set, H1. split.
    + intros ((u & Hu) & Hn). exists u. split; [done|]. by intros ->.
    + intros (u & Hu & Hne). split; [eauto|]. intros Hi. by apply Hne, (H2 _ _ k).
  - intros i1 i2 k. rewrite !E. intros [? _] [? _]. by eapply H2.
  - intros u t' [[<- <-]|[Hne Hu]]%lookup_insert_Some Hf; [done|by eapply H3].
Qed.

Lemma held_perform (o : Op) (s : Store) oj :
  (forall key, o <> LockKey key) -> mediaKeyHeld (perform o s oj).1 = mediaKeyHeld s.
Proof.
  intros Hn. destruct o as [| | | | |key]; try reflexivity; simpl.
  - unfold appendLog. case_match; reflexivity.
  - by specialize (Hn key).
Qed.

Lemma held_journalled (o : Op) s j :
  (forall key, o <> LockKey key) -> heldMediaKeys (journalled o s j) = heldMediaKeys j.
Proof.
  intros Hn. destruct o as [| | | | |key]; try reflexivity; try by specialize (Hn key).
  all: unfold journalled; simpl; unfold captureMap, captureActivities, capture; by case_bool_decide.
Qed.

Lemma held_rollback (s : Store) (j : Journal) : mediaKeyHeld (rollback s j) = mediaKeyHeld s.
Proof. unfold rollback. induction (undos j) as [|[k p|p] us IH]; simpl; congruence. Qed.

Lemma locks_history w : history w -> locks_ok (mediaKeyHeld (store w)) (txs w).
Proof.
  induction 1 as [|w [[i|] a] Hh IH Hlock]; [split_and!; unfold heldBy; simpl; set_solver| |].
  2: { unfold step. simpl. destruct a as [|o| |]; try done. simpl.
       destruct o as [| | | | |key]; try (rewrite held_perform by done); done. }
  unfold step. simpl. destruct (txs w !! i) as [t|] eqn:Hi.
  2: { destruct a; try done. apply locks_same; [done|unfold heldBy; by rewrite Hi|done]. }
  assert (heldMediaKeys (journal t) = heldBy (txs w) i) as Et by (unfold heldBy; by rewrite Hi).
  assert (done t = true -> heldBy (txs w) i = []) as Ed.
  { intros Hf. rewrite <- Et. by apply (proj2 (proj2 IH) i t). }
  destruct a as [|o| |].
  - unfold Begin. destruct (done t) eqn:Hf; simpl; [done|]. apply locks_same; [done|done|]. simpl. congruence.
  - rewrite perform_journal. simpl. assert ((exists key, o = LockKey key) \/ forall key, o <> LockKey key) as [[key ->]|Hn']
      by (destruct o; eauto).
    + destruct (Hlock i key eq_refl) as (t' & Hi' & Hf). rewrite Hi in Hi'. injection Hi' as <-.
      unfold journalled. simpl. unfold tryLockMediaKey.
      destruct (holdsMediaKey (journal t) key); [|case_bool_decide as Hk]; simpl;
        [by apply locks_same..|]. apply locks_acquire; [done|done|simpl; by rewrite Et|done].
    + rewrite held_perform by done. apply locks_same; [done|simpl; by rewrite held_journalled|done].
  - unfold enterCommit. destruct (done t) eqn:Hf; simpl; [done|]. destruct (depth t) as [|d]; simpl.
    + rewrite Et. by apply locks_release.
    + apply locks_same; [done|done|]. simpl. congruence.
  - unfold Rollback. destruct (done t) eqn:Hf; simpl; [apply locks_same; auto|].
    destruct (depth t) as [|d]; simpl.
    + rewrite held_rollback, Et. by apply locks_release.
    + apply locks_same; [done|done|]. simpl. congruence.
Qed.

(** Two transactions never hold the lock of one media key, a lock belongs to an
    open transaction, and so a finished one has released its own. *)
Theorem media_lock_exclusive (w : World) i1 i2 t1 t2 key :
  history w -> txs w !! i1 = Some t1 -> txs w !! i2 = Some t2 ->
  key ∈ heldMediaKeys (journal t1) -> key ∈ heldMediaKeys (journal t2) ->
  i1 = i2 /\ done t1 = false /\ key ∈ mediaKeyHeld (store w).
Proof.
  intros (H1 & H2 & H3)%locks_history Hi1 Hi2 Hk1 Hk2.
  assert (key ∈ heldBy (txs w) i1) as B1 by (unfold heldBy; by rewrite Hi1).
  split_and!; [|destruct (done t1) eqn:Hf; [|done]|apply H1; eauto].
  - eapply H2; [exact B1|unfold heldBy; by rewrite Hi2].
  - rewrite (H3 _ _ Hi1 Hf) in Hk1. set_solver.
Qed.
End Facts.
