(* ===== verification/Events.v ===== *)
(** Domain events and the dispatcher that fans them out ([pkg/events]:
    [envelope.go], [dispatcher.go]).

    A handler is its name, what it does to the world it reaches for one envelope,
    and for a batch when it takes batches; it may fail and it may panic.  [X] is
    that world. *)

From Stdlib Require Import ZArith Lia String Ascii List.
From stdpp Require Import base tactics list gmap sets strings option decidable.
From S2P Require Import Prelude GoText Ids Delivery.

Open Scope Z_scope.
Open Scope go_scope.

(** ** Events *)

(** The interface [Event], with [EntityAddressed] when the event implements it;
    [evPayload] is what [json.Marshal] makes of it. *)
Record Event := mkEvent {
  EventType : string;
  EvAggregateType : string;
  EvAggregateID : string;
  OccurredWhen : Z;
  EntityCoordinates : option (string * string);
  evPayload : result string }.

Record Metadata := mkMetadata { MetaTenantID : TenantID; MetaActor : string }.

Definition envelopeVersion : Z := 1.

(** [NewEnvelope], with the fresh identifier as an argument. *)
Definition NewEnvelope (fresh : ID) (e : Event) (meta : Metadata) (now : Z) : result Envelope :=
  match evPayload e with
  | Err _ => Err (Errorf "marshal event payload")
  | Ok payload =>
      let (typeDefinitionID, entityID) := default (EmptyString, EmptyString) (EntityCoordinates e) in
      Ok (mkEnvelope fresh (EventType e) (EvAggregateType e) (EvAggregateID e) (MetaTenantID meta)
            typeDefinitionID entityID (MetaActor meta) (OccurredWhen e) now envelopeVersion payload)
  end.

(** ** Handlers and registrations *)

Section Dispatcher.
Context {X : Type}.
(** A source of fresh identifiers, by position in the dispatch. *)
Variable ulid_New : nat -> ID.

(** What a handler's call ends in. *)
Inductive Handled :=
  | Fine
  | Failed (m : string)
  | Panicking (m : string).

(** [Handler], or [BatchHandler] when [HandleBatch] is there. *)
Record Handler := mkHandler {
  Name : string;
  Handle : Envelope -> X -> X * Handled;
  HandleBatch : option (list Envelope -> X -> X * Handled) }.

Record registration := mkRegistration { handler : Handler; types : list string }.

(** [registration.wants]: no types is every type. *)
Definition wants (r : registration) (eventType : string) : bool :=
  bool_decide (types r = []) || bool_decide (eventType ∈ types r).

Abbreviation Dispatcher := (list registration).

(** [Register], the options given as the types they name. *)
Definition Register (d : Dispatcher) (h : Handler) (ts : list string) : Dispatcher :=
  d ++ [mkRegistration h ts].

(** [deliver] and [deliverBatch]: a panic is recovered into an error. *)
Definition recovered (r : X * Handled) : X * option Error :=
  match r with
  | (x, Fine) => (x, None)
  | (x, Failed m) => (x, Some (Errorf m))
  | (x, Panicking m) => (x, Some (Errorf (String.append "panic: " m)))
  end.

Definition deliver (h : Handler) (env : Envelope) (x : X) : X * option Error := recovered (Handle h env x).

Definition handlerError (h : Handler) (e : Error) : Error :=
  Errorf (String.append "handler " (String.append (Name h) (String.append ": " (Message e)))).

(** The envelopes one at a time, in order. *)
Fixpoint deliverEach (h : Handler) (envs : list Envelope) (x : X) : X * list Error :=
  match envs with
  | [] => (x, [])
  | env :: envs =>
      let (x, e) := deliver h env x in
      let (x, es) := deliverEach h envs x in
      (x, match e with Some e => handlerError h e :: es | None => es end)
  end.

(** The turn of one registration. *)
Definition deliverTo (reg : registration) (envs : list Envelope) (x : X) : X * list Error :=
  let matched :=
    if bool_decide (types reg = []) then envs
    else List.filter (fun env => wants reg (EnvType env)) envs in
  match matched with
  | [] => (x, [])
  | _ =>
      match HandleBatch (handler reg) with
      | Some batch =>
          let (x, e) := recovered (batch matched x) in
          (x, match e with Some e => [handlerError (handler reg) e] | None => [] end)
      | None => deliverEach (handler reg) matched x
      end
  end.

(** [deliverAll], over the snapshot of the registrations. *)
Fixpoint deliverAll (d : Dispatcher) (envs : list Envelope) (x : X) : X * list Error :=
  match d with
  | [] => (x, [])
  | reg :: d =>
      let (x, es) := deliverTo reg envs x in
      let (x, es') := deliverAll d envs x in
      (x, es ++ es')
  end.

(** The enveloping loop of [Dispatch]: an event that does not encode is reported
    and left out. *)
Fixpoint envelopes (n : nat) (meta : Metadata) (now : Z) (evts : list Event) :
    list Envelope * list Error :=
  match evts with
  | [] => ([], [])
  | e :: evts =>
      let (envs, errs) := envelopes (S n) meta now evts in
      match NewEnvelope (ulid_New n) e meta now with
      | Ok env => (env :: envs, errs)
      | Err err => (envs, err :: errs)
      end
  end.

(** [Dispatch]; the errors are those it joins. *)
Definition Dispatch (d : Dispatcher) (meta : Metadata) (now : Z) (evts : list Event) (x : X) :
    X * list Error :=
  let (envs, errs) := envelopes 0 meta now evts in
  let (x, es) := deliverAll d envs x in
  (x, errs ++ es).

Definition DispatchEnvelopes (d : Dispatcher) (envs : list Envelope) (x : X) : X * list Error :=
  deliverAll d envs x.

(** ** What handlers are given *)

(** The calls of a dispatch, in order: which handler, which envelopes. *)
Definition callsOf (reg : registration) (envs : list Envelope) : list (Handler * list Envelope) :=
  let wanted := List.filter (fun env => wants reg (EnvType env)) envs in
  match wanted, HandleBatch (handler reg) with
  | [], _ => []
  | _, Some _ => [(handler reg, wanted)]
  | _, None => (fun env => (handler reg, [env])) <$> wanted
  end.

Definition calls (d : Dispatcher) (envs : list Envelope) : list (Handler * list Envelope) :=
  d ≫= (fun reg => callsOf reg envs).

(** One call. *)
Definition call (c : Handler * list Envelope) (x : X) : X * option Error :=
  match HandleBatch c.1 with
  | Some batch => recovered (batch c.2 x)
  | None => match c.2 with env :: _ => deliver c.1 env x | [] => (x, None) end
  end.

(** Calls one after the other, whatever they answer. *)
Fixpoint callAll (cs : list (Handler * list Envelope)) (x : X) : X * list Error :=
  match cs with
  | [] => (x, [])
  | c :: cs =>
      let (x, e) := call c x in
      let (x, es) := callAll cs x in
      (x, match e with Some e => handlerError c.1 e :: es | None => es end)
  end.

Lemma callAll_app cs cs' x :
  callAll (cs ++ cs') x =
    ((callAll cs' (callAll cs x).1).1, (callAll cs x).2 ++ (callAll cs' (callAll cs x).1).2).
Proof.
  revert x. induction cs as [|c cs IH]; intros x; simpl; [by destruct (callAll cs' x)|].
  destruct (call c x) as [x' e]. rewrite IH. destruct (callAll cs x') as [x'' es]. simpl.
  by destruct e.
Qed.

Lemma wanted_filter reg envs :
  (if bool_decide (types reg = []) then envs
   else List.filter (fun env => wants reg (EnvType env)) envs) =
  List.filter (fun env => wants reg (EnvType env)) envs.
Proof.
  case_bool_decide as H; [|done]. induction envs as [|env envs IH]; [done|].
  simpl. unfold wants at 1. by rewrite H, <- IH.
Qed.

Lemma deliverEach_calls h envs x :
  HandleBatch h = None -> deliverEach h envs x = callAll ((fun env => (h, [env])) <$> envs) x.
Proof.
  intros Hb. revert x. induction envs as [|env envs IH]; intros x; simpl; [done|].
  unfold call. simpl. rewrite Hb. destruct (deliver h env x) as [x' e]. by rewrite IH.
Qed.

Lemma deliverTo_calls reg envs x : deliverTo reg envs x = callAll (callsOf reg envs) x.
Proof.
  unfold deliverTo, callsOf. rewrite wanted_filter.
  destruct (List.filter _ envs) as [|env wanted]; [done|].
  destruct (HandleBatch (handler reg)) as [batch|] eqn:Hb.
  - simpl. unfold call. simpl. rewrite Hb. by destruct (recovered (batch (env :: wanted) x)).
  - by rewrite deliverEach_calls.
Qed.

(** A dispatch makes every call, in the order of the registrations and of the
    envelopes, whichever handlers fail or panic before. *)
Lemma deliverAll_calls d envs x : deliverAll d envs x = callAll (calls d envs) x.
Proof.
  revert x. induction d as [|reg d IH]; intros x; simpl; [done|].
  rewrite deliverTo_calls. unfold calls. simpl. rewrite callAll_app. fold (calls d envs).
  destruct (callAll (callsOf reg envs) x) as [x' es]. rewrite IH. simpl.
  by destruct (callAll (calls d envs) x').
Qed.
End Dispatcher.

Arguments Handler : clear implicits.
Arguments registration : clear implicits.
