(* ===== verification/UnitOfWork.v ===== *)
(** The unit of work ([application/uow/uow.go], [application/activity]) on the
    in-memory transactor ([infrastructure/memory/transactor.go]): the collector a
    usecase fills, the hooks around the commit, and [Execute].

    A usecase is a program ([Prog]) over what it is given: the rows it reads, the
    writes of its repositories, the locks on media keys, the collector, and the
    world outside the store ([X]: object storage, subscribers), which no rollback
    undoes.  It may return an error and it may panic. *)

From Stdlib Require Import ZArith Lia String Ascii List.
From stdpp Require Import base tactics list gmap sets strings option decidable.
From S2P Require Import Prelude GoText Ids Delivery Transactor Events.

Open Scope Z_scope.
Open Scope go_scope.

(** ** The audit log's vocabulary *)

(** [activity.Change]; a snapshot is what [json.Marshal] makes of it. *)
Record Change := mkChange {
  ChEntity : string;
  ChEntityID : string;
  ChAction : string;
  ChBefore : option (result string);
  ChAfter : option (result string) }.

Record Entry := mkEntry {
  EntryID : ID;
  EntryTenantID : TenantID;
  EntryActor : string;
  EntryEntity : string;
  EntryEntityID : string;
  EntryAction : string;
  Before : option string;
  After : option string;
  EntryOccurredAt : Z }.

Definition marshalState (m : string) (s : option (result string)) : result (option string) :=
  match s with
  | None => Ok None
  | Some (Ok t) => Ok (Some t)
  | Some (Err _) => Err (Errorf m)
  end.

Definition NewEntry (fresh : ID) (c : Change) (tenant : TenantID) (actor : string) (now : Z) :
    result Entry :=
  let! before := marshalState "marshal before state" (ChBefore c) in
  let! after := marshalState "marshal after state" (ChAfter c) in
  Ok (mkEntry fresh tenant actor (ChEntity c) (ChEntityID c) (ChAction c) before after now).

Section UnitOfWork.
Context {Row X : Type}.
Variable grow : nat -> nat.
Variable ulid_New : nat -> ID.

Abbreviation Store := (Store Row Entry).
Abbreviation Journal := (undoJournal Row).
Abbreviation Op := (Op Row Entry).

(** How a call ends: the errors its result joins, none being success, or a panic. *)
Inductive Outcome :=
  | Returned (errs : list Error)
  | Panicked.

(** A hook that runs once the transaction is over. *)
Definition Hook : Type := Store -> X -> Store * X * Outcome.

(** ** Usecases *)

Inductive Prog :=
  | Return (e : option Error)
  | Panic
  | Read (k : gmap rowKey Row -> Prog)
  | Write (o : Op) (next : Prog)
  | LockMediaKey (key : string) (k : option Error -> Prog)
  | Outside (f : X -> X) (k : X -> Prog)
  | CollectEvents (es : list Event) (next : Prog)
  | RecordChange (ch : Change) (next : Prog)
  | CheckBeforeCommitOnce (key : string) (check : Prog) (next : Prog)
  | OnPostCommit (h : Hook) (next : Prog)
  | OnRollback (h : X -> X) (next : Prog).

(** [Collector], without its stash. *)
Record Collector := mkCollector {
  events : list Event;
  changes : list Change;
  checks : list Prog;
  checkKeys : gset string }.

Definition newCollector : Collector := mkCollector [] [] [] ∅.

(** A transaction under way: the store, its journal, the collector, the post-commit
    and rollback hooks the usecase registered, the world. *)
Record State := mkState {
  st : Store;
  jr : Journal;
  cl : Collector;
  posts : list Hook;
  undoers : list (X -> X);
  outside : X }.

Definition set_cl (s : State) (c : Collector) : State := mkState (st s) (jr s) c (posts s) (undoers s) (outside s).

(** [perform] for a transaction. *)
Definition perform1 (o : Op) (s : State) : State :=
  let (s', j) := perform grow o (st s) (Some (jr s)) in
  mkState s' (default (jr s) j) (cl s) (posts s) (undoers s) (outside s).

(** The lock is polled until the context ends; nobody else runs meanwhile. *)
Definition errContext : Error := Errorf "context deadline exceeded".

Definition lock (key : string) (s : State) : State * option Error :=
  if holdsMediaKey (jr s) key then (s, None)
  else if bool_decide (key ∈ mediaKeyHeld (st s)) then (s, Some errContext)
  else (perform1 (LockKey key) s, None).

Fixpoint runProg (p : Prog) (s : State) : State * Outcome :=
  match p with
  | Return None => (s, Returned [])
  | Return (Some e) => (s, Returned [e])
  | Panic => (s, Panicked)
  | Read k => runProg (k (rows (st s))) s
  | Write o next => runProg next (perform1 o s)
  | LockMediaKey key k => let (s, e) := lock key s in runProg (k e) s
  | Outside f k => runProg (k (outside s)) (mkState (st s) (jr s) (cl s) (posts s) (undoers s) (f (outside s)))
  | CollectEvents es next =>
      runProg next (set_cl s (mkCollector (events (cl s) ++ es) (changes (cl s)) (checks (cl s)) (checkKeys (cl s))))
  | RecordChange ch next =>
      runProg next (set_cl s (mkCollector (events (cl s)) (changes (cl s) ++ [ch]) (checks (cl s)) (checkKeys (cl s))))
  | CheckBeforeCommitOnce key check next =>
      runProg next
        (if bool_decide (key ∈ checkKeys (cl s)) then s
         else set_cl s (mkCollector (events (cl s)) (changes (cl s)) (checks (cl s) ++ [check])
                          ({[key]} ∪ checkKeys (cl s))))
  | OnPostCommit h next =>
      runProg next (mkState (st s) (jr s) (cl s) (posts s ++ [h]) (undoers s) (outside s))
  | OnRollback h next =>
      runProg next (mkState (st s) (jr s) (cl s) (posts s) (undoers s ++ [h]) (outside s))
  end.

Fixpoint runEach (ps : list Prog) (s : State) : State * Outcome :=
  match ps with
  | [] => (s, Returned [])
  | p :: ps =>
      match runProg p s with
      | (s, Returned []) => runEach ps s
      | r => r
      end
  end.

(** [RunChecks]: the checks registered so far, once; a check that registers
    another one registers it for nothing. *)
Definition RunChecks (s : State) : State * Outcome :=
  runEach (checks (cl s)) (set_cl s (mkCollector (events (cl s)) (changes (cl s)) [] (checkKeys (cl s)))).

(** ** The standard hooks *)

Record unitOfWork := mkUnitOfWork {
  dispatcher : list (registration X);
  projections : option (list (registration X));
  log : bool;
  sink : option (list Envelope -> Prog);
  afterWrite : X -> X;
  onRollback : option Error -> X -> X;
  onDispatch : list Error -> X -> X }.

Section Execute.
Variable u : unitOfWork.
Variable tenant : TenantID.
Variable actor : string.
(** The clock, read while [Execute] runs. *)
Variable now : Z.

Definition meta : Metadata := mkMetadata tenant actor.

(** The enveloping loop of the outbox hook stops at the first error. *)
Fixpoint envelopeAll (n : nat) (evts : list Event) : result (list Envelope) :=
  match evts with
  | [] => Ok []
  | e :: evts =>
      let! env := NewEnvelope (ulid_New n) e meta now in
      let! envs := envelopeAll (S n) evts in
      Ok (env :: envs)
  end.

Fixpoint entriesOf (n : nat) (chs : list Change) : result (list Entry) :=
  match chs with
  | [] => Ok []
  | ch :: chs =>
      let! e := NewEntry (ulid_New n) ch tenant actor now in
      let! es := entriesOf (S n) chs in
      Ok (e :: es)
  end.

(** The first pre-commit hook, registered in outbox mode. *)
Definition sinkHook (c : Collector) : Prog :=
  match sink u with
  | None => Return None
  | Some write =>
      match events c with
      | [] => Return None
      | evts => match envelopeAll 0 evts with Ok envs => write envs | Err e => Return (Some e) end
      end
  end.

(** The second: the audit log. *)
Definition logHook (c : Collector) : Prog :=
  if negb (log u) then Return None
  else match changes c with
       | [] => Return None
       | chs => match entriesOf 0 chs with
                | Ok es => Write (WriteLog es) (Return None)
                | Err e => Return (Some e)
                end
       end.

(** The post-commit hook: internal projections, then either the relay's nudge or
    the external subscribers.  A failure is observed, never returned. *)
Definition observe (errs : list Error) (x : X) : X :=
  match errs with [] => x | _ => onDispatch u errs x end.

Definition dispatchHook (c : Collector) (x : X) : X :=
  match events c with
  | [] => x
  | evts =>
      let x :=
        match projections u with
        | Some p => let (x, errs) := Dispatch ulid_New p meta now evts x in observe errs x
        | None => x
        end in
      match sink u with
      | Some _ => afterWrite u x
      | None => let (x, errs) := Dispatch ulid_New (dispatcher u) meta now evts x in observe errs x
      end
  end.

(** ** Commit and rollback *)

(** [memTx.Rollback] of an open outermost frame: the store, then the rollback hooks
    in order. *)
Definition undone (s : State) : Store := (seal (rollback (st s) (jr s)) (mkTx (jr s) 0 false)).1.

Definition unwind (s : State) (x : X) : X := foldl (fun x h => h x) x (undoers s).

(** The first rollback hook is the one [Execute] registers: [err] is its variable,
    which only the usecase and the checks set. *)
Definition abandon (s : State) (err : option Error) : Store * X :=
  (undone s, unwind s (onRollback u err (outside s))).

(** The post-commit hooks, in order; their errors are joined, a panic goes up. *)
Fixpoint runHooks (hs : list Hook) (s : Store) (x : X) : Store * X * Outcome :=
  match hs with
  | [] => (s, x, Returned [])
  | h :: hs =>
      match h s x with
      | (s, x, Panicked) => (s, x, Panicked)
      | (s, x, Returned errs) =>
          match runHooks hs s x with
          | (s, x, Returned errs') =>
              (s, x, Returned ((match errs with [] => [] | e :: _ =>
                 [Errorf (String.append "post-commit hook: " (Message e))] end) ++ errs'))
          | r => r
          end
      end
  end.

(** Once every pre-commit hook has passed. *)
Definition settle (s : State) : Store * X * Outcome :=
  runHooks ((fun st x => (st, dispatchHook (cl s) x, Returned [])) :: posts s)
    (seal (st s) (mkTx (jr s) 0 false)).1 (outside s).

(** [memTx.Commit] of the outermost frame.  When a hook fails the transaction is
    rolled back with [err] still nil; when one panics, [Execute] recovers. *)
Definition Commit (s : State) : Store * X * Outcome :=
  match runProg (sinkHook (cl s)) s with
  | (s, Returned []) =>
      match runProg (logHook (cl s)) s with
      | (s, Returned []) => settle s
      | (s, Returned (e :: _)) =>
          (abandon s None, Returned [Errorf (String.append "pre-commit hook: " (Message e))])
      | (s, Panicked) => (abandon s None, Panicked)
      end
  | (s, Returned (e :: _)) =>
      (abandon s None, Returned [Errorf (String.append "pre-commit hook: " (Message e))])
  | (s, Panicked) => (abandon s None, Panicked)
  end.

Definition begin (s : Store) (x : X) : State := mkState s newUndoJournal newCollector [] [] x.

(** The usecase, then the checks. *)
Definition attempt (fn : Prog) (s : State) : State * Outcome :=
  match runProg fn s with
  | (s, Returned []) => RunChecks s
  | r => r
  end.

(** [Execute] *)
Definition Execute (fn : Prog) (s : Store) (x : X) : Store * X * Outcome :=
  match attempt fn (begin s x) with
  | (s, Returned []) => Commit s
  | (s, Returned errs) => (abandon s (head errs), Returned errs)
  | (s, Panicked) => (abandon s None, Panicked)
  end.

(** [transactor.InTransaction], pool level: no [recover], so a panic leaves the
    transaction open. *)
Definition InTransaction (fn : Prog) (s : Store) (x : X) : Store * X * Outcome :=
  match runProg fn (begin s x) with
  | (s, Returned []) =>
      runHooks (posts s) (seal (st s) (mkTx (jr s) 0 false)).1 (outside s)
  | (s, Returned errs) => (undone s, unwind s (outside s), Returned errs)
  | (s, Panicked) => (st s, outside s, Panicked)
  end.
End Execute.
End UnitOfWork.

Arguments Prog : clear implicits.
Arguments State : clear implicits.
Arguments Collector : clear implicits.
Arguments unitOfWork : clear implicits.
