(* ===== verification/UnitOfWorkFacts.v ===== *)
(** What a unit of work promises ([UnitOfWork]): all of it or nothing.

    A usecase that only reads, saves, deletes, locks and registers ([Plain]) leaves
    the rows, the audit log and the locks as it found them unless it commits, and
    when it commits the log has gained exactly the entries of its changes. *)

From Stdlib Require Import ZArith Lia String Ascii List.
From stdpp Require Import base tactics list gmap sets strings option decidable.
From S2P Require Import Prelude GoText Ids Delivery Transactor TransactorFacts Events UnitOfWork.

Open Scope Z_scope.
Open Scope go_scope.

Section Facts.
Context {Row X : Type}.
Variable grow : nat -> nat.
Variable ulid_New : nat -> ID.

Abbreviation Store := (Store Row Entry).
Abbreviation Op := (Op Row Entry).
Abbreviation Prog := (Prog Row X).
Abbreviation State := (State Row X).
Abbreviation perform1 := (perform1 (Row:=Row) (X:=X) grow).
Abbreviation runProg := (runProg (Row:=Row) (X:=X) grow).
Abbreviation runEach := (runEach (Row:=Row) (X:=X) grow).

(** The audit log is written by the unit of work alone; erasure redacts it. *)
Definition plainOp (o : Op) : bool :=
  match o with SaveRow _ _ | SaveDefinition _ _ _ | DeleteRow _ => true | _ => false end.

Inductive Plain : Prog -> Prop :=
  | plain_return e : Plain (Return e)
  | plain_panic : Plain Panic
  | plain_read k : (forall m, Plain (k m)) -> Plain (Read k)
  | plain_write o p : plainOp o = true -> Plain p -> Plain (Write o p)
  | plain_lock key k : (forall e, Plain (k e)) -> Plain (LockMediaKey key k)
  | plain_outside f k : (forall x, Plain (k x)) -> Plain (Outside f k)
  | plain_events es p : Plain p -> Plain (CollectEvents es p)
  | plain_change ch p : Plain p -> Plain (RecordChange ch p)
  | plain_check key c p : Plain c -> Plain p -> Plain (CheckBeforeCommitOnce key c p)
  | plain_post h p : Plain p -> Plain (OnPostCommit h p)
  | plain_rollback h p : Plain p -> Plain (OnRollback h p).

(** ** The transaction's invariant *)

(** From the store [s0] it began with: undoing its journal gives the rows back, its
    locks are its own, and the log has not moved. *)
Record open_from (s0 : Store) (s : State) : Prop := {
  of_journal : journal_ok (jr s);
  of_rows : undoRows (undos (jr s)) (rows (st s)) = rows s0;
  of_arrays : arrays (st s) = arrays s0;
  of_log : activities (st s) = activities s0;
  of_undos : rowUndos (undos (jr s)) = undos (jr s);
  of_held : forall key, key ∈ mediaKeyHeld (st s) <-> key ∈ mediaKeyHeld s0 \/ key ∈ heldMediaKeys (jr s);
  of_own : forall key, key ∈ heldMediaKeys (jr s) -> key ∉ mediaKeyHeld s0;
  of_checks : Forall Plain (checks (cl s)) }.

Lemma open_begin s x : open_from s (begin s x).
Proof. split; simpl; try done; intros; set_solver. Qed.

(** A change of the collector, the hooks or the world is of no consequence. *)
Lemma open_ext s0 s s' :
  open_from s0 s -> st s' = st s -> jr s' = jr s -> Forall Plain (checks (cl s')) -> open_from s0 s'.
Proof. intros [] Es Ej Hc. split; rewrite ?Es, ?Ej; done. Qed.

Lemma rowUndos_captured (s : Store) (j : undoJournal Row) k :
  rowUndos (undos j) = undos j -> rowUndos (undos (captureMap j s k)) = undos (captureMap j s k).
Proof.
  intros Hj. unfold captureMap, capture. case_bool_decide; [done|]. simpl.
  by rewrite rowUndos_app, Hj.
Qed.

Lemma open_write s0 s o : open_from s0 s -> plainOp o = true -> open_from s0 (perform1 o s).
Proof.
  intros [Hj Hr Ha Hl Hu Hh Ho Hc] Hp. unfold UnitOfWork.perform1. rewrite perform_journal. simpl.
  assert (heldMediaKeys (journalled grow o (st s) (jr s)) = heldMediaKeys (jr s)) as Eh.
  { apply held_journalled. intros key ->. discriminate Hp. }
  split; simpl.
  - by apply journal_ok_journalled.
  - by rewrite undo_journalled.
  - by destruct o; simpl in *; try discriminate Hp.
  - by destruct o; simpl in *; try discriminate Hp.
  - destruct (written o) as [[k x]|] eqn:Hw.
    + rewrite (journalled_written _ _ _ _ _ _ Hw). by apply rowUndos_captured.
    + destruct o; discriminate.
  - intros key. rewrite Eh, <- (Hh key). by destruct o; simpl in *; try discriminate Hp.
  - intros key. rewrite Eh. apply Ho.
  - done.
Qed.

Lemma open_lock s0 s key : open_from s0 s -> open_from s0 (lock grow key s).1.
Proof.
  intros H. unfold lock. destruct (holdsMediaKey (jr s) key) eqn:Hk; [done|].
  case_bool_decide as Hm; [done|]. unfold UnitOfWork.perform1. simpl. rewrite Hk.
  unfold tryLockMediaKey. rewrite bool_decide_false by done. simpl.
  destruct H as [Hj Hr Ha Hl Hu Hh Ho Hc]. split; simpl; try done.
  - intros k. rewrite elem_of_union, elem_of_singleton, elem_of_app, list_elem_of_singleton, (Hh k). tauto.
  - intros k. rewrite elem_of_app, list_elem_of_singleton. intros [?| ->]; [by apply Ho|].
    intros ?. apply Hm, Hh. by left.
Qed.

Lemma open_run s0 p s : Plain p -> open_from s0 s -> open_from s0 (runProg p s).1.
Proof.
  intros Hp. revert s. induction Hp; intros s Hs; simpl; auto.
  - by destruct e.
  - apply IHHp. by apply open_write.
  - pose proof (open_lock s0 s key Hs) as Hl. destruct (lock grow key s) as [s' e]. auto.
  - apply H0. by apply (open_ext s0 s); [|..|apply Hs].
  - apply IHHp. by apply (open_ext s0 s); [|..|apply Hs].
  - apply IHHp. by apply (open_ext s0 s); [|..|apply Hs].
  - apply IHHp2. case_bool_decide; [done|]. apply (open_ext s0 s); try done. simpl.
    apply list.Forall_app. split; [apply Hs|by constructor].
  - apply IHHp. by apply (open_ext s0 s); [|..|apply Hs].
  - apply IHHp. by apply (open_ext s0 s); [|..|apply Hs].
Qed.

Lemma open_runEach s0 ps s : Forall Plain ps -> open_from s0 s -> open_from s0 (runEach ps s).1.
Proof.
  intros Hps. revert s. induction Hps as [|p ps Hp Hps IH]; intros s Hs; simpl; [done|].
  pose proof (open_run s0 p s Hp Hs) as Hr.
  destruct (runProg p s) as [s' [[|e es]|]]; [by apply IH|done|done].
Qed.

Lemma open_attempt fn s0 x : Plain fn -> open_from s0 (attempt grow fn (begin s0 x)).1.
Proof.
  intros Hp. unfold attempt.
  pose proof (open_run s0 fn (begin s0 x) Hp (open_begin s0 x)) as Hr.
  destruct (runProg fn (begin s0 x)) as [s [[|e es]|]]; [|done|done].
  unfold RunChecks. apply open_runEach; [apply Hr|]. by apply (open_ext s0 s).
Qed.

(** ** Abandoned *)

Record as_before (s0 s : Store) : Prop := {
  ab_rows : rows s = rows s0;
  ab_log : logEntries s = logEntries s0;
  ab_held : mediaKeyHeld s = mediaKeyHeld s0 }.

Lemma rollback_rowUndos (s : Store) us :
  rowUndos us = us ->
  arrays (foldr undo s us) = arrays s /\ activities (foldr undo s us) = activities s.
Proof.
  induction us as [|[k p|p] us IH]; simpl; intros H; [done| |].
  - injection H as H. by apply IH.
  - exfalso. assert (length (rowUndos us) <= length us)%nat as Hl by apply List.filter_length_le.
    rewrite H in Hl. simpl in Hl. lia.
Qed.

Lemma released s0 s :
  open_from s0 s -> mediaKeyHeld (st s) ∖ list_to_set (heldMediaKeys (jr s)) = mediaKeyHeld s0.
Proof.
  intros H. apply set_eq. intros key. rewrite elem_of_difference, elem_of_list_to_set, (of_held _ _ H key).
  pose proof (of_own _ _ H key). tauto.
Qed.

Lemma undone_as_before s0 s : open_from s0 s -> as_before s0 (undone s).
Proof.
  intros H. unfold undone. simpl. split; simpl.
  - rewrite rows_rollback. apply H.
  - unfold logEntries. simpl. unfold rollback.
    destruct (rollback_rowUndos (st s) (undos (jr s)) (of_undos _ _ H)) as [-> ->].
    by rewrite (of_arrays _ _ H), (of_log _ _ H).
  - rewrite held_rollback. by apply released.
Qed.

(** ** Committed *)

(** The header of the log is a window of its array. *)
Definition log_ok (s : Store) : Prop := length (logEntries s) = len (activities s).

Lemma log_append (s : Store) es : log_ok s -> logEntries (appendLog grow s es) = logEntries s ++ es.
Proof.
  unfold log_ok, logEntries, appendLog. intros Hl. set (a := default [] (arrays s !! ptr (activities s))) in *.
  case_match; simpl; rewrite lookup_insert_eq; simpl.
  - rewrite app_assoc, take_app_length'; [done|]. rewrite length_app. lia.
  - rewrite firstn_all2; [reflexivity|]. rewrite length_app. lia.
Qed.

(** What the log's hook does to a transaction. *)
Lemma log_hook (u : unitOfWork Row X) tenant actor now (c : State) :
  match runProg (logHook ulid_New u tenant actor now (cl c)) c with
  | (c', Returned []) =>
      exists es, (if log u then entriesOf ulid_New tenant actor now 0 (changes (cl c)) = Ok es else es = []) /\
      rows (st c') = rows (st c) /\ mediaKeyHeld (st c') = mediaKeyHeld (st c) /\
      heldMediaKeys (jr c') = heldMediaKeys (jr c) /\
      (log_ok (st c) -> logEntries (st c') = logEntries (st c) ++ es) /\
      cl c' = cl c /\ posts c' = posts c /\ outside c' = outside c
  | (c', Returned (_ :: _)) => c' = c
  | (_, Panicked) => False
  end.
Proof.
  unfold logHook. destruct (log u); cbn [negb].
  2: { exists []. simpl. split_and!; try done. intros _. by rewrite app_nil_r. }
  destruct (changes (cl c)) as [|ch chs].
  { exists []. simpl. split_and!; try done. intros _. by rewrite app_nil_r. }
  destruct (entriesOf _ _ _ _ _ (ch :: chs)) as [es|e]; simpl; [|done].
  exists es. unfold UnitOfWork.perform1. simpl.
  split_and!; try done; try (unfold captureActivities, capture; by case_bool_decide);
    try (unfold appendLog; by case_match). apply log_append.
Qed.

(** C19: [Execute] on the in-memory store is all or nothing.  For a usecase that
    leaves the audit log to the unit of work, one of two things happens.  Either
    the usecase, the checks it registered and the outbox hook all succeeded: the
    rows are those they left, the log has gained exactly the entries of the
    recorded changes, the media locks taken are free again, and only then do the
    post-commit hooks run - first the dispatch of the collected events - on that
    store; or it returns an error or panics, and the rows, the log and the locks
    are what they were.  So a call without error has committed, and an entry is in
    the log if and only if its change is in the rows. *)
Theorem execute_atomic (u : unitOfWork Row X) tenant actor now fn s x s' x' out :
  Execute grow ulid_New u tenant actor now fn s x = (s', x', out) ->
  Plain fn -> (forall write envs, sink u = Some write -> Plain (write envs)) -> log_ok s ->
  (exists t c sc es,
     attempt grow fn (begin s x) = (t, Returned []) /\
     runProg (sinkHook ulid_New u tenant actor now (cl t)) t = (c, Returned []) /\
     (if log u then entriesOf ulid_New tenant actor now 0 (changes (cl c)) = Ok es else es = []) /\
     rows sc = rows (st c) /\ logEntries sc = logEntries s ++ es /\ mediaKeyHeld sc = mediaKeyHeld s /\
     runHooks ((fun w y => (w, dispatchHook ulid_New u tenant actor now (cl c) y, Returned [])) :: posts c)
       sc (outside c) = (s', x', out)) \/
  (as_before s s' /\ out <> Returned []).
Proof.
  intros He Hp Hsink Hlog. unfold Execute, abandon in He.
  pose proof (open_attempt fn s x Hp) as Ho.
  destruct (attempt grow fn (begin s x)) as [t [[|e errs]|]]; simpl in Ho.
  2, 3: right; injection He as <- <- <-; split; [by apply undone_as_before|done].
  unfold Commit, abandon in He.
  assert (Plain (sinkHook ulid_New u tenant actor now (cl t))) as Hps.
  { unfold sinkHook. destruct (sink u) as [write|]; [|constructor].
    destruct (events (cl t)) as [|ev evs]; [constructor|].
    destruct (envelopeAll _ _ _ _ _ (ev :: evs)); [by eapply Hsink|constructor]. }
  pose proof (open_run s _ t Hps Ho) as Hc.
  destruct (runProg (sinkHook _ _ _ _ _ _) t) as [c [[|e errs]|]] eqn:Ec; simpl in Hc.
  2, 3: right; injection He as <- <- <-; split; [by apply undone_as_before|done].
  pose proof (log_hook u tenant actor now c) as Hh.
  destruct (runProg (logHook _ _ _ _ _ _) c) as [c' [[|e errs]|]]; [| |done].
  2: { subst c'. right. injection He as <- <- <-. split; [by apply undone_as_before|done]. }
  destruct Hh as (es & Hes & Hr & Hm & Hk & Hl & Hcl & Hpo & Hou).
  left. exists t, c, (seal (st c') (mkTx (jr c') 0 false)).1, es. unfold settle in He.
  rewrite Hcl, Hpo, Hou in He. split_and!; simpl; try done.
  - unfold logEntries in *. simpl. rewrite (of_arrays _ _ Hc), (of_log _ _ Hc) in Hl.
    apply Hl. unfold log_ok, logEntries in *. by rewrite (of_arrays _ _ Hc), (of_log _ _ Hc).
  - rewrite Hm, Hk. by apply released.
Qed.

(** A rollback that a pre-commit hook causes is reported to the observer with no
    error: the variable it reads is not the one [Commit] returns. *)
Lemma observer_sees_nil (u : unitOfWork Row X) tenant actor now (t c : State) e errs :
  runProg (sinkHook ulid_New u tenant actor now (cl t)) t = (c, Returned (e :: errs)) ->
  Commit grow ulid_New u tenant actor now t =
    (undone c, unwind c (onRollback u None (outside c)),
     Returned [Errorf (String.append "pre-commit hook: " (Message e))]).
Proof. intros H. unfold Commit. by rewrite H. Qed.

(** A panic inside [InTransaction] of the in-memory transactor leaves what was
    written, and the locks. *)
Lemma panic_keeps_writes fn s x (t : State) :
  runProg fn (begin s x) = (t, Panicked) ->
  InTransaction grow fn s x = (st t, outside t, Panicked).
Proof. intros H. unfold InTransaction. by rewrite H. Qed.
End Facts.
