(* ===== verification/Media.v ===== *)
(** The bytes behind media values ([application/value/media.go], the adoption and
    collection of [interactor.go], [application/erasure/erasure.go]) over the
    Postgres store: rows that refer to object keys, the object storage, and the
    advisory lock per key ([LockMediaKey]) that adoption and collection share.

    Transactions see the committed rows and their own writes (READ COMMITTED); the
    writers of one attribute exclude each other, so no two open transactions write
    one row.  Any number of transactions and of the collections they registered
    interleave, call by call ([media_step]). *)

From Stdlib Require Import ZArith Lia String Ascii List.
From stdpp Require Import base tactics list gmap sets strings option decidable.
From S2P Require Import Prelude.

(** ** State *)

(** A stored row of a media attribute, as far as its bytes go. *)
Record MediaRow := mkRow { ObjectKey : string; Live : bool }.

#[export] Instance MediaRow_eq_dec : EqDecision MediaRow.
Proof. solve_decision. Defined.

(** How far the collection at the head of a transaction's hooks has come. *)
Inductive Collecting :=
  | Idle
  | Locked
  | Unreferenced.

(** A transaction: its pending rows ([None] is a row it deletes), the keys it has
    to probe, has adopted and has uploaded, and the collections it registered (a
    key, and the row the count leaves out).  Once it has committed, only these
    remain. *)
Record MediaTx := mkTx {
  writes : gmap N (option MediaRow);
  toProbe : gset string;
  adopted : gset string;
  uploads : gset string;
  gcs : list (string * option N);
  committed : bool;
  collecting : Collecting }.

Record Media := mkMedia {
  rows : gmap N MediaRow;
  blobs : gset string;
  locks : gmap string nat;
  txs : gmap nat MediaTx;
  used : gset string;
  undeleted : gset string }.

Definition NewMedia : Media := mkMedia ∅ ∅ ∅ ∅ ∅ ∅.

Definition put (s : Media) (t : nat) (x : MediaTx) : Media :=
  mkMedia (rows s) (blobs s) (locks s) (<[t := x]> (txs s)) (used s) (undeleted s).

Definition set_locks (s : Media) (l : gmap string nat) : Media :=
  mkMedia (rows s) (blobs s) l (txs s) (used s) (undeleted s).

(** The locks of others. *)
Definition release (t : nat) (l : gmap string nat) : gmap string nat := filter (fun p => p.2 <> t) l.

(** The rows a transaction sees. *)
Definition overlay (w : gmap N (option MediaRow)) (m : gmap N MediaRow) : gmap N MediaRow :=
  merge (fun a b => match a with Some x => x | None => b end) w m.

Definition visible (s : Media) (x : MediaTx) : gmap N MediaRow := overlay (writes x) (rows s).

(** [MediaKeyRefCount] is positive. *)
Definition referenced `{Countable K} (m : gmap K MediaRow) (key : string) (exclude : option K) : bool :=
  existsb (fun p => Live p.2 && bool_decide (ObjectKey p.2 = key) && negb (bool_decide (exclude = Some p.1)))
    (map_to_list m).

(** [MediaValueForKey] finds a row, archived or not. *)
Definition known (m : gmap N MediaRow) (key : string) : bool :=
  existsb (fun p => bool_decide (ObjectKey p.2 = key)) (map_to_list m).

(** Nobody else has a pending write of the row. *)
Definition exclusive (s : Media) (t : nat) (r : N) : bool :=
  forallb (fun p => bool_decide (p.1 = t) || bool_decide (writes p.2 !! r = None)) (map_to_list (txs s)).

(** ** A transaction's calls *)

Definition freshTx : MediaTx := mkTx ∅ ∅ ∅ ∅ [] false Idle.

(** [LockMediaKey] once [MediaValueForKey] has found the key: waits ([None]) while
    another transaction holds the lock. *)
Definition lockForAdoption (s : Media) (t : nat) (x : MediaTx) (key : string) : option Media :=
  if known (visible s x) key then
    match locks s !! key with
    | None => Some (set_locks s (<[key := t]> (locks s)))
    | Some t' => if bool_decide (t' = t) then Some s else None
    end
  else None.

(** The count of [adoptMediaValue], under the lock. *)
Definition countForAdoption (s : Media) (t : nat) (x : MediaTx) (key : string) : option Media :=
  if bool_decide (locks s !! key = Some t) then
    if referenced (visible s x) key None
    then Some (put s t (mkTx (writes x) (toProbe x) ({[key]} ∪ adopted x) (uploads x) (gcs x) false Idle))
    else Some (put s t (mkTx (writes x) ({[key]} ∪ toProbe x) (adopted x) (uploads x) (gcs x) false Idle))
  else None.

(** The probe: the bytes are still there, or the write is refused ([None]). *)
Definition probe (s : Media) (t : nat) (x : MediaTx) (key : string) : option Media :=
  if bool_decide (key ∈ toProbe x) && bool_decide (key ∈ blobs s) then
    Some (put s t (mkTx (writes x) (toProbe x) ({[key]} ∪ adopted x) (uploads x) (gcs x) false Idle))
  else None.

(** The write of [setWithin]: a new row, or a live one overwritten, which registers
    the collection of another key it held; a row that holds the key already is
    left alone. *)
Definition store (s : Media) (t : nat) (x : MediaTx) (r : N) (key : string) : option Media :=
  if exclusive s t r then
    let w := <[r := Some (mkRow key true)]> (writes x) in
    match visible s x !! r with
    | None => Some (put s t (mkTx w (toProbe x) (adopted x) (uploads x) (gcs x) false Idle))
    | Some old =>
        if negb (Live old) then None
        else if bool_decide (ObjectKey old = key) then Some s
        else Some (put s t (mkTx w (toProbe x) (adopted x) (uploads x)
                              (gcs x ++ [(ObjectKey old, Some r)]) false Idle))
    end
  else None.

Definition storeAdopted (s : Media) (t : nat) (x : MediaTx) (r : N) (key : string) : option Media :=
  if bool_decide (key ∈ adopted x) then store s t x r key else None.

(** [UploadMedia]: the bytes under a fresh key, then the write. *)
Definition upload (s : Media) (t : nat) (x : MediaTx) (r : N) (key : string) : option Media :=
  if bool_decide (key ∉ used s) then
    let x := mkTx (writes x) (toProbe x) (adopted x) ({[key]} ∪ uploads x) (gcs x) false Idle in
    store (mkMedia (rows s) ({[key]} ∪ blobs s) (locks s) (<[t := x]> (txs s)) ({[key]} ∪ used s) (undeleted s))
      t x r key
  else None.

(** [Remove] and its kin. *)
Definition archive (s : Media) (t : nat) (x : MediaTx) (r : N) : option Media :=
  match visible s x !! r with
  | Some old =>
      if Live old && exclusive s t r then
        Some (put s t (mkTx (<[r := Some (mkRow (ObjectKey old) false)]> (writes x)) (toProbe x) (adopted x)
                         (uploads x) (gcs x ++ [(ObjectKey old, Some r)]) false Idle))
      else None
  | None => None
  end.

(** One row of a purge, archived or not. *)
Definition purge (s : Media) (t : nat) (x : MediaTx) (r : N) : option Media :=
  match visible s x !! r with
  | Some old =>
      if exclusive s t r then
        Some (put s t (mkTx (<[r := None]> (writes x)) (toProbe x) (adopted x) (uploads x)
                         (gcs x ++ [(ObjectKey old, None)]) false Idle))
      else None
  | None => None
  end.

(** COMMIT: the rows become visible and the locks are released. *)
Definition commit (s : Media) (t : nat) (x : MediaTx) : option Media :=
  Some (mkMedia (overlay (writes x) (rows s)) (blobs s) (release t (locks s))
          (<[t := mkTx ∅ ∅ ∅ ∅ (gcs x) true Idle]> (txs s)) (used s) (undeleted s)).

(** ROLLBACK; [deleteOrphanedUpload] follows, and may fail. *)
Definition abort (s : Media) (t : nat) (x : MediaTx) (ok : bool) : option Media :=
  Some (mkMedia (rows s) (if ok then blobs s ∖ uploads x else blobs s) (release t (locks s))
          (delete t (txs s)) (used s) (if ok then undeleted s else uploads x ∪ undeleted s)).

(** ** A collection, after the commit *)

(** [gcMediaKey] and [gcBlobKey]: the lock, ... *)
Definition gcLock (s : Media) (t : nat) (x : MediaTx) : option Media :=
  match gcs x, collecting x with
  | (key, _) :: _, Idle =>
      match locks s !! key with
      | None => Some (put (set_locks s (<[key := t]> (locks s))) t (mkTx ∅ ∅ ∅ ∅ (gcs x) true Locked))
      | Some _ => None
      end
  | _, _ => None
  end.

(** ... the recount, which ends it when a row still refers to the key, ... *)
Definition gcCount (s : Media) (t : nat) (x : MediaTx) : option Media :=
  match gcs x, collecting x with
  | (key, exclude) :: rest, Locked =>
      if referenced (rows s) key exclude
      then Some (put (set_locks s (delete key (locks s))) t (mkTx ∅ ∅ ∅ ∅ rest true Idle))
      else Some (put s t (mkTx ∅ ∅ ∅ ∅ (gcs x) true Unreferenced))
  | _, _ => None
  end.

(** ... and the delete, which may fail. *)
Definition gcDelete (s : Media) (t : nat) (x : MediaTx) (ok : bool) : option Media :=
  match gcs x, collecting x with
  | (key, _) :: rest, Unreferenced =>
      Some (mkMedia (rows s) (if ok then blobs s ∖ {[key]} else blobs s) (delete key (locks s))
              (<[t := mkTx ∅ ∅ ∅ ∅ rest true Idle]> (txs s)) (used s)
              (if ok then undeleted s else {[key]} ∪ undeleted s))
  | _, _ => None
  end.

(** A context that ends while the lock is awaited, or a count that fails. *)
Definition gcGiveUp (s : Media) (t : nat) (x : MediaTx) : option Media :=
  match gcs x, collecting x with
  | (key, _) :: rest, Idle =>
      Some (mkMedia (rows s) (blobs s) (locks s) (<[t := mkTx ∅ ∅ ∅ ∅ rest true Idle]> (txs s)) (used s)
              ({[key]} ∪ undeleted s))
  | _, _ => None
  end.

(** [gcBlobChunk]: the keys its batched count shows referenced are retained
    unlocked; here one of them, at position [n]. *)
Definition gcSkip (s : Media) (t : nat) (x : MediaTx) (n : nat) : option Media :=
  match gcs x !! n, collecting x with
  | Some (key, None), Idle =>
      if referenced (rows s) key None
      then Some (put s t (mkTx ∅ ∅ ∅ ∅ (take n (gcs x) ++ drop (S n) (gcs x)) true Idle)) else None
  | _, _ => None
  end.

(** ** Histories *)

Inductive Act :=
  | Begin
  | LockKey (key : string)
  | Count (key : string)
  | Probe (key : string)
  | Store (r : N) (key : string)
  | Upload (r : N) (key : string)
  | Archive (r : N)
  | Purge (r : N)
  | Commit
  | Abort (ok : bool)
  | GcLock
  | GcCount
  | GcDelete (ok : bool)
  | GcGiveUp
  | GcSkip (n : nat).

(** One call of transaction [t]; [None] when it waits or is not made. *)
Definition media_step (s : Media) (t : nat) (a : Act) : option Media :=
  match txs s !! t with
  | None => match a with Begin => Some (put s t freshTx) | _ => None end
  | Some x =>
      if committed x then
        match a with
        | GcLock => gcLock s t x
        | GcCount => gcCount s t x
        | GcDelete ok => gcDelete s t x ok
        | GcGiveUp => gcGiveUp s t x
        | GcSkip n => gcSkip s t x n
        | _ => None
        end
      else
        match a with
        | LockKey key => lockForAdoption s t x key
        | Count key => countForAdoption s t x key
        | Probe key => probe s t x key
        | Store r key => storeAdopted s t x r key
        | Upload r key => upload s t x r key
        | Archive r => archive s t x r
        | Purge r => purge s t x r
        | Commit => commit s t x
        | Abort ok => abort s t x ok
        | _ => None
        end
  end.

(** A row does not take a key back while the collection of that key on behalf of
    the row is due. *)
Definition no_return (s : Media) (a : Act) : Prop :=
  match a with
  | Store r key => forall t x, txs s !! t = Some x -> (key, Some r) ∉ gcs x
  | _ => True
  end.

Inductive media_history : Media -> Prop :=
  | media_start : media_history NewMedia
  | media_next s t a s' :
      media_history s -> no_return s a -> media_step s t a = Some s' -> media_history s'.
