(* ===== verification/MediaFacts.v ===== *)
(** The bytes of media values are kept as long as a live row refers to them
    ([Media]).

    [media_ok] is the invariant of histories: an adoption's lock and the privacy of
    a fresh upload keep collections away from the bytes an open transaction is about
    to refer to.  [leak_ok] is its counterpart: bytes no live row refers to have a
    collection due, unless a delete failed. *)

From Stdlib Require Import ZArith Lia String Ascii List.
From stdpp Require Import base tactics list gmap sets strings option decidable.
From S2P Require Import Prelude Media.

(** ** What the reads say *)

Definition liveAt (m : gmap N MediaRow) (r : N) (key : string) : Prop := m !! r = Some (mkRow key true).

Lemma lookup_overlay w m r : overlay w m !! r = match w !! r with Some x => x | None => m !! r end.
Proof. unfold overlay. rewrite lookup_merge. by destruct (w !! r), (m !! r). Qed.

Lemma referenced_true (m : gmap N MediaRow) key ex :
  referenced m key ex = true <-> exists r, liveAt m r key /\ ex <> Some r.
Proof.
  unfold referenced, liveAt. rewrite existsb_exists. split.
  - intros ([r [k l]] & Hin & H). apply list_elem_of_In, elem_of_map_to_list in Hin. simpl in *.
    repeat (apply andb_true_iff in H as [H ?]). subst l.
    apply bool_decide_eq_true in H1. subst k. exists r. split; [done|].
    intros ->. by rewrite bool_decide_true in H0.
  - intros (r & Hr & Hne). exists (r, mkRow key true).
    split; [by apply list_elem_of_In, elem_of_map_to_list|]. simpl.
    by rewrite bool_decide_true, bool_decide_false.
Qed.

Lemma known_true m key : known m key = true <-> exists r row, m !! r = Some row /\ ObjectKey row = key.
Proof.
  unfold known. rewrite existsb_exists. split.
  - intros ([r row] & Hin & H). apply list_elem_of_In, elem_of_map_to_list in Hin.
    apply bool_decide_eq_true in H. eauto.
  - intros (r & row & Hr & Hk). exists (r, row).
    split; [by apply list_elem_of_In, elem_of_map_to_list|]. by apply bool_decide_eq_true.
Qed.

Lemma exclusive_true s t r :
  exclusive s t r = true <-> forall t' x, txs s !! t' = Some x -> t' <> t -> writes x !! r = None.
Proof.
  unfold exclusive. rewrite forallb_forall. split.
  - intros H t' x Hx Hne. apply elem_of_map_to_list, list_elem_of_In, H, orb_true_iff in Hx as [Hx|Hx].
    + apply bool_decide_eq_true in Hx. done.
    + by apply bool_decide_eq_true in Hx.
  - intros H [t' x] Hin. apply list_elem_of_In, elem_of_map_to_list in Hin. simpl.
    destruct (decide (t' = t)) as [->|Hne]; [by rewrite bool_decide_true|].
    rewrite (bool_decide_true (writes x !! r = None)) by eauto. by rewrite orb_true_r.
Qed.

Lemma lookup_release t l key t' : release t l !! key = Some t' <-> l !! key = Some t' /\ t' <> t.
Proof. unfold release. rewrite map_lookup_filter_Some. done. Qed.

(** ** The invariant *)

(** Nobody but [t] has anything to do with a key. *)
Record private (s : Media) (t : nat) (key : string) : Prop := {
  pr_rows : forall r row, rows s !! r = Some row -> ObjectKey row <> key;
  pr_locks : forall t', locks s !! key = Some t' -> t' = t;
  pr_uploads : forall t' x, txs s !! t' = Some x -> t' <> t -> key ∉ uploads x;
  pr_writes : forall t' x r row, txs s !! t' = Some x -> t' <> t -> writes x !! r = Some (Some row) ->
                ObjectKey row <> key;
  pr_gcs : forall t' x ex, txs s !! t' = Some x -> t' <> t -> (key, ex) ∉ gcs x }.

Definition uses (x : MediaTx) (key : string) : Prop :=
  key ∈ uploads x \/ (exists ex, (key, ex) ∈ gcs x) \/
  (exists r row, writes x !! r = Some (Some row) /\ ObjectKey row = key).

Record media_ok (s : Media) : Prop := {
  m_bytes : forall r key, liveAt (rows s) r key -> key ∈ blobs s;
  m_adopted : forall t x key, txs s !! t = Some x -> key ∈ adopted x -> locks s !! key = Some t /\ key ∈ blobs s;
  m_probe : forall t x key, txs s !! t = Some x -> key ∈ toProbe x -> locks s !! key = Some t;
  m_written : forall t x r key, txs s !! t = Some x -> writes x !! r = Some (Some (mkRow key true)) ->
                key ∈ adopted x \/ key ∈ uploads x;
  m_upload : forall t x key, txs s !! t = Some x -> key ∈ uploads x -> key ∈ blobs s /\ private s t key;
  m_excl : forall t t' x x' r, txs s !! t = Some x -> txs s !! t' = Some x' -> t <> t' ->
             writes x !! r <> None -> writes x' !! r = None;
  m_gc : forall t x key r, txs s !! t = Some x -> (key, Some r) ∈ gcs x ->
           (forall t' x', txs s !! t' = Some x' -> writes x' !! r <> Some (Some (mkRow key true))) /\
           (if committed x then ~ liveAt (rows s) r key else writes x !! r <> None);
  m_done : forall t x, txs s !! t = Some x -> committed x = true ->
             writes x = ∅ /\ toProbe x = ∅ /\ adopted x = ∅ /\ uploads x = ∅;
  m_idle : forall t x, txs s !! t = Some x -> collecting x <> Idle ->
             committed x = true /\ exists key ex rest, gcs x = (key, ex) :: rest /\ locks s !! key = Some t;
  m_unref : forall t x key ex rest r, txs s !! t = Some x -> collecting x = Unreferenced ->
              gcs x = (key, ex) :: rest -> ~ liveAt (rows s) r key;
  m_used : forall key,
             key ∈ blobs s \/ (exists t, locks s !! key = Some t) \/
             (exists r row, rows s !! r = Some row /\ ObjectKey row = key) \/
             (exists t x, txs s !! t = Some x /\ uses x key) -> key ∈ used s;
  m_holder : forall key t x, locks s !! key = Some t -> txs s !! t = Some x -> committed x = true ->
               collecting x <> Idle /\ exists ex rest, gcs x = (key, ex) :: rest }.

(** A transaction's entry replaced by another. *)
Lemma lookup_put s t x t' y :
  txs (put s t x) !! t' = Some y -> t' = t /\ y = x \/ t' <> t /\ txs s !! t' = Some y.
Proof. simpl. intros [[<- <-]|[Hne H]]%lookup_insert_Some; [by left|right; done]. Qed.

(** Splits a lookup in a map of transactions with one entry replaced. *)
Ltac by_put H :=
  let E := fresh "Eput" in simpl in H; apply lookup_insert_Some in H as [[<- <-]|[E H]]; simpl in *.

Lemma start_ok : media_ok NewMedia.
Proof.
  split; simpl; try (intros; set_solver).
  intros r key H. unfold liveAt in H. simpl in H. by rewrite lookup_empty in H.
Qed.

Lemma private_put s t key t0 x0 x1 :
  private s t key -> txs s !! t0 = Some x0 -> (t0 <> t -> uses x1 key -> uses x0 key) ->
  private (put s t0 x1) t key.
Proof.
  intros [Hr Hl Hu Hw Hg] H0 Huse.
  assert (t0 <> t -> ~ uses x1 key) as Hno.
  { intros Hne Hk. destruct (Huse Hne Hk) as [?|[[ex ?]|(r & row & ? & ?)]];
      [exact (Hu _ _ H0 Hne H)|exact (Hg _ _ _ H0 Hne H)|exact (Hw _ _ _ _ H0 Hne H H1)]. }
  unfold uses in Hno. split; [exact Hr|exact Hl| | |].
  - intros t' x H Hne. by_put H; [|by eapply Hu]. intros Hk. apply Hno; auto.
  - intros t' x r row H Hne Hk. by_put H; [|by eapply Hw]. intros Ek. apply Hno; eauto 8.
  - intros t' x ex H Hne. by_put H; [|by eapply Hg]. intros Hk. apply Hno; eauto.
Qed.

Lemma used_put s t x x' :
  media_ok s -> txs s !! t = Some x -> (forall key, uses x' key -> uses x key \/ key ∈ used s) ->
  forall key,
    key ∈ blobs s \/ (exists t, locks s !! key = Some t) \/
    (exists r row, rows s !! r = Some row /\ ObjectKey row = key) \/
    (exists t0 y, txs (put s t x') !! t0 = Some y /\ uses y key) -> key ∈ used s.
Proof.
  intros Hok Hx Hu key [?|[?|[?|(t0 & y & Hy & Hk)]]]; try (apply (m_used _ Hok); tauto).
  by_put Hy; [|apply (m_used _ Hok); eauto 8].
  destruct (Hu key Hk) as [?|?]; [|done]. apply (m_used _ Hok). eauto 8.
Qed.

(** ** Steps of an open transaction *)

(** A transaction under way whose key sets change: what it adopts is there and
    under its lock. *)
Lemma ok_sets s t x P A :
  media_ok s -> txs s !! t = Some x -> committed x = false ->
  (forall key, key ∈ P -> key ∈ toProbe x \/ locks s !! key = Some t) ->
  (forall key, key ∈ A -> key ∈ adopted x \/ (locks s !! key = Some t /\ key ∈ blobs s)) -> adopted x ⊆ A ->
  media_ok (put s t (mkTx (writes x) P A (uploads x) (gcs x) false Idle)).
Proof.
  intros Hok Hx Hopen HP HA Hsub. pose proof Hok as [Hb Ha Hp Hw Hu He Hg Hd Hi Hn Hs Hq].
  split; [exact Hb| | | | | | | | | | |].
  - intros t' y key Hy Hk. by_put Hy; [|by eapply Ha]. destruct (HA key Hk); [by eapply Ha|done].
  - intros t' y key Hy Hk. by_put Hy; [|by eapply Hp]. destruct (HP key Hk); [by eapply Hp|done].
  - intros t' y r key Hy Hk. by_put Hy; [|by eapply Hw]. destruct (Hw _ _ _ _ Hx Hk); set_solver.
  - intros t' y key Hy Hk.
    assert (private s t' key /\ key ∈ blobs s) as [Hpr Hbl] by (by_put Hy; split; eapply Hu; eauto).
    split; [done|]. apply (private_put s t' key t x); [done|done|]. by intros _ ?.
  - intros t1 t2 y1 y2 r H1 H2. by_put H1; by_put H2; by eauto.
  - intros t' y key r Hy Hk. split.
    + assert (exists t1 x1, txs s !! t1 = Some x1 /\ (key, Some r) ∈ gcs x1) as (t1 & x1 & Hx1 & Hk1)
        by (by_put Hy; eauto).
      destruct (Hg _ _ _ _ Hx1 Hk1) as [Hno _]. intros t2 y2 H2. by_put H2; eauto.
    + by_put Hy; [pose proof (proj2 (Hg _ _ _ _ Hx Hk)) as H; by rewrite Hopen in H|by eapply Hg].
  - intros t' y Hy. by_put Hy; [done|by eauto].
  - intros t' y Hy. by_put Hy; [done|by eauto].
  - intros t' y key ex rest r Hy. by_put Hy; [done|by eauto].
  - apply (used_put s t x); [done|done|]. intros key ?. by left.
  - intros k t' y Hk Hy Hc. by_put Hy; [done|by eapply Hq].
Qed.

(** A lock taken where there was none. *)
Lemma ok_lock s t x key :
  media_ok s -> txs s !! t = Some x -> committed x = false -> locks s !! key = None -> key ∈ used s ->
  (forall t' x, txs s !! t' = Some x -> key ∈ uploads x -> t' = t) ->
  media_ok (set_locks s (<[key := t]> (locks s))).
Proof.
  intros [Hb Ha Hp Hw Hu He Hg Hd Hi Hn Hs Hq] Hx Hopen Hfree Hused Hown.
  split; [exact Hb| | |exact Hw| |exact He|exact Hg|exact Hd| |exact Hn| |]; simpl.
  - intros t' y k Hy Hk. destruct (Ha _ _ _ Hy Hk). rewrite lookup_insert_ne; [done|congruence].
  - intros t' y k Hy Hk. pose proof (Hp _ _ _ Hy Hk). rewrite lookup_insert_ne; [done|congruence].
  - intros t' y k Hy Hk. destruct (Hu _ _ _ Hy Hk) as [? []]. split; [done|]. split; simpl; try done.
    intros t2. destruct (decide (k = key)) as [->|Hne].
    + rewrite lookup_insert_eq. intros [= <-]. symmetry. by eapply Hown.
    + rewrite lookup_insert_ne by done. eauto.
  - intros t' y Hy Hc. destruct (Hi _ _ Hy Hc) as (Hcm & k & ex & rest & E & Hl).
    split; [done|]. exists k, ex, rest. split; [done|]. rewrite lookup_insert_ne; [done|congruence].
  - intros k [?|[[t' Ht]|[?|?]]]; try (apply Hs; tauto).
    apply lookup_insert_Some in Ht as [[<- <-]|[? ?]]; [done|]. apply Hs. eauto.
  - intros k t' y Hk Hy Hc. apply lookup_insert_Some in Hk as [[<- <-]|[? Hk]]; [congruence|by eapply Hq].
Qed.

(** The keys a transaction can put into a row or a collection. *)
Definition handles (s : Media) (t : nat) (x : MediaTx) (key : string) : Prop :=
  key ∈ adopted x \/ key ∈ uploads x \/
  exists r row, visible s x !! r = Some row /\ ObjectKey row = key.

Lemma visible_cases s x r row :
  visible s x !! r = Some row -> rows s !! r = Some row \/ writes x !! r = Some (Some row).
Proof. unfold visible. rewrite lookup_overlay. destruct (writes x !! r); intros; simplify_eq; auto. Qed.

Lemma handles_used s t x key :
  media_ok s -> txs s !! t = Some x -> handles s t x key -> key ∈ used s.
Proof.
  intros Hok Hx [Hk|[Hk|(r & row & Hr & <-)]]; apply (m_used _ Hok).
  - left. by apply (m_adopted _ Hok t x).
  - left. by apply (m_upload _ Hok t x).
  - right; right. apply visible_cases in Hr as [Hr|Hr]; [left; eauto|right].
    exists t, x. split; [done|]. right; right. eauto.
Qed.

Lemma handles_private s t x key t' :
  media_ok s -> txs s !! t = Some x -> private s t' key -> t <> t' -> ~ handles s t x key.
Proof.
  intros Hok Hx [Hr Hl Hu Hw Hg] Hne [Hk|[Hk|(r & row & Hv & Hk)]].
  - apply (m_adopted _ Hok t x) in Hk as [Hk _]; [|done]. by apply Hl in Hk.
  - by eapply Hu.
  - apply visible_cases in Hv as [Hv|Hv]; [exact (Hr _ _ Hv Hk)|exact (Hw _ _ _ _ Hx Hne Hv Hk)].
Qed.

(** A row written, with the collections that registers. *)
Lemma ok_write s t x r v g :
  media_ok s -> txs s !! t = Some x -> committed x = false -> exclusive s t r = true ->
  (forall key, v = Some (mkRow key true) ->
     (key ∈ adopted x \/ key ∈ uploads x) /\
     (forall t' y, txs s !! t' = Some y -> (key, Some r) ∉ gcs y) /\ (key, Some r) ∉ g) ->
  (forall row, v = Some row -> handles s t x (ObjectKey row)) ->
  (forall key ex, (key, ex) ∈ g -> handles s t x key /\ (forall r', ex = Some r' -> r' = r)) ->
  media_ok (put s t (mkTx (<[r := v]> (writes x)) (toProbe x) (adopted x) (uploads x) (gcs x ++ g) false Idle)).
Proof.
  intros Hok Hx Hopen Hexc Hv Hh Hgs. rewrite exclusive_true in Hexc.
  pose proof Hok as [Hb Ha Hp Hw Hu He Hg Hd Hi Hn Hs Hq].
  set (x' := mkTx _ _ _ _ _ _ _).
  assert (forall key, uses x' key -> uses x key \/ handles s t x key) as Huse.
  { intros key [?|[[ex Hin]|(r' & row & Hr' & Hk)]]; [by left; left| |].
    - apply elem_of_app in Hin as [?|Hin]; [left; right; left; eauto|right]. by apply (Hgs key ex).
    - simpl in Hr'. apply lookup_insert_Some in Hr' as [[<- Ev]|[_ Hr']].
      + right. rewrite <- Hk. by apply Hh.
      + left; right; right. eauto. }
  split; [exact Hb| | | | | | | | | | |].
  - intros t' y key Hy Hk. by_put Hy; by eapply Ha.
  - intros t' y key Hy Hk. by_put Hy; by eapply Hp.
  - intros t' y r' key Hy Hk. by_put Hy; [|by eapply Hw].
    apply lookup_insert_Some in Hk as [[<- Ev]|[_ Hk]]; [by apply Hv|by eapply Hw].
  - intros t' y key Hy Hk.
    assert (key ∈ blobs s /\ private s t' key) as [Hbl Hpr] by (by_put Hy; by eapply Hu).
    split; [done|]. apply (private_put s t' key t x); [done|done|]. intros Hne Hk'.
    destruct (Huse key Hk') as [?|Hh']; [done|]. by eapply handles_private in Hh'.
  - intros t1 t2 y1 y2 r' H1 H2 Hne Hr'. by_put H1; by_put H2; [done| | |exact (He _ _ _ _ _ H1 H2 Hne Hr')].
    + destruct (decide (r' = r)) as [->|Hrr]; [by eapply Hexc|].
      rewrite lookup_insert_ne in Hr' by done. exact (He _ _ _ _ _ Hx H2 Hne Hr').
    + destruct (decide (r' = r)) as [->|Hrr]; [by rewrite (Hexc t1 y1) in Hr'|].
      rewrite lookup_insert_ne by done. exact (He _ _ _ _ _ H1 Hx Hne Hr').
  - intros t' y key r' Hy Hk. split.
    + intros t2 y2 H2 Hr'.
      assert (r' = r /\ v = Some (mkRow key true) /\ t2 = t \/
              exists x2, txs s !! t2 = Some x2 /\ writes x2 !! r' = Some (Some (mkRow key true)) /\ (t2 = t -> r' <> r))
        as [(-> & Ev & ->)|(x2 & Hx2 & Hw2 & Hne2)].
      { by_put H2; [|by eauto 8]. apply lookup_insert_Some in Hr' as [[<- Ev]|[? Hr']]; eauto 8. }
      * destruct (Hv key Ev) as (_ & Hno & Hng). by_put Hy; [|by eapply Hno].
        apply elem_of_app in Hk as [Hk|Hk]; [by eapply Hno|done].
      * by_put Hy; [|by eapply (proj1 (Hg _ _ _ _ Hy Hk))].
        apply elem_of_app in Hk as [Hk|Hk]; [by eapply (proj1 (Hg _ _ _ _ Hx Hk))|].
        destruct (Hgs _ _ Hk) as [_ E]. specialize (E r' eq_refl). subst r'.
        destruct (decide (t2 = t)) as [->|Hne]; [by apply Hne2|].
        by rewrite (Hexc _ _ Hx2 Hne) in Hw2.
    + by_put Hy; [|by eapply (proj2 (Hg _ _ _ _ Hy Hk))].
      destruct (decide (r' = r)) as [->|Hne]; [by rewrite lookup_insert_eq|].
      rewrite lookup_insert_ne by done.
      apply elem_of_app in Hk as [Hk|Hk]; [pose proof (proj2 (Hg _ _ _ _ Hx Hk)) as H; by rewrite Hopen in H|].
      destruct (Hgs _ _ Hk) as [_ E]. by specialize (E r' eq_refl).
  - intros t' y Hy. by_put Hy; [done|by eauto].
  - intros t' y Hy. by_put Hy; [done|by eauto].
  - intros t' y key ex rest r' Hy. by_put Hy; [done|by eauto].
  - apply (used_put s t x); [done|done|]. intros key Hk. destruct (Huse key Hk) as [?|?]; [by left|right].
    by eapply handles_used.
  - intros k t' y Hk Hy Hc. by_put Hy; [done|by eapply Hq].
Qed.

Lemma private_unused s t key t0 x0 :
  private s t key -> txs s !! t0 = Some x0 -> t0 <> t -> ~ uses x0 key.
Proof.
  intros [Hr Hl Hu Hw Hg] H0 Hne [Hk|[[ex Hk]|(r & row & Hk & E)]].
  - exact (Hu _ _ H0 Hne Hk).
  - exact (Hg _ _ _ H0 Hne Hk).
  - exact (Hw _ _ _ _ H0 Hne Hk E).
Qed.

(** What keeps a key private: no row, no lock and no transaction of others. *)
Lemma private_intro s t key :
  (forall r row, rows s !! r = Some row -> ObjectKey row <> key) ->
  (forall t', locks s !! key = Some t' -> t' = t) ->
  (forall t0 x0, txs s !! t0 = Some x0 -> t0 <> t -> ~ uses x0 key) ->
  private s t key.
Proof.
  intros Hr Hl Hno. unfold uses in Hno.
  split; [exact Hr|exact Hl|intros t' x H Hne Hk|intros t' x r row H Hne Hk E|intros t' x ex H Hne Hk];
    apply (Hno _ _ H Hne); eauto 8.
Qed.

Lemma begin_ok s t : media_ok s -> txs s !! t = None -> media_ok (put s t freshTx).
Proof.
  intros Hok Hx. pose proof Hok as [Hb Ha Hp Hw Hu He Hg Hd Hi Hn Hs Hq].
  split; [exact Hb| | | | | | | | | | |].
  - intros t' y key Hy Hk. by_put Hy; [set_solver|by eapply Ha].
  - intros t' y key Hy Hk. by_put Hy; [set_solver|by eapply Hp].
  - intros t' y r key Hy Hk. by_put Hy; [by rewrite lookup_empty in Hk|by eapply Hw].
  - intros t' y key Hy Hk. by_put Hy; [set_solver|]. destruct (Hu _ _ _ Hy Hk) as [? Hpr]. split; [done|].
    apply private_intro; [apply Hpr|apply Hpr|]. intros t0 x0 J0 Hne. by_put J0; [|by eapply private_unused].
    intros [?|[[? ?]|(? & ? & E & _)]]; [set_solver|set_solver|]. simpl in E. by rewrite lookup_empty in E.
  - intros t1 t2 y1 y2 r J1 H2 Hne Hr. by_put J1; by_put H2; [done|by rewrite lookup_empty in Hr|done|].
    exact (He _ _ _ _ _ J1 H2 Hne Hr).
  - intros t' y key r Hy Hk. by_put Hy; [set_solver|]. destruct (Hg _ _ _ _ Hy Hk) as [J1 H2]. split; [|done].
    intros t2 y2 H. by_put H; [by rewrite lookup_empty|by eapply J1].
  - intros t' y Hy. by_put Hy; [done|by eauto].
  - intros t' y Hy. by_put Hy; [done|by eauto].
  - intros t' y key ex rest r Hy. by_put Hy; [done|by eauto].
  - intros key [?|[?|[?|(t0 & y & Hy & Hk)]]]; try (apply Hs; tauto).
    by_put Hy; [|apply Hs; eauto 8].
    destruct Hk as [?|[[? ?]|(? & ? & E & _)]]; [set_solver|set_solver|]. simpl in E. by rewrite lookup_empty in E.
  - intros k t' y Hk Hy Hc. by_put Hy; [done|by eapply Hq].
Qed.

(** Bytes under a fresh key. *)
Lemma ok_fresh s t x key :
  media_ok s -> txs s !! t = Some x -> committed x = false -> key ∉ used s ->
  media_ok (mkMedia (rows s) ({[key]} ∪ blobs s) (locks s)
    (<[t := mkTx (writes x) (toProbe x) (adopted x) ({[key]} ∪ uploads x) (gcs x) false Idle]> (txs s))
    ({[key]} ∪ used s) (undeleted s)).
Proof.
  intros Hok Hx Hopen Hfresh. pose proof Hok as [Hb Ha Hp Hw Hu He Hg Hd Hi Hn Hs Hq].
  assert (forall t0 x0, txs s !! t0 = Some x0 -> ~ uses x0 key) as Hnew.
  { intros t0 x0 J0 Hk. apply Hfresh, Hs. eauto 8. }
  split; [intros r k Hr; simpl; set_solver| | | | | | | | | | |].
  - intros t' y k Hy Hk. by_put Hy; [destruct (Ha _ _ _ Hx Hk)|destruct (Ha _ _ _ Hy Hk)]; set_solver.
  - intros t' y k Hy Hk. by_put Hy; by eapply Hp.
  - intros t' y r k Hy Hk. by_put Hy; [|by eapply Hw]. destruct (Hw _ _ _ _ Hx Hk); set_solver.
  - intros t' y k Hy Hk.
    assert (k = key /\ t' = t \/ exists x1, txs s !! t' = Some x1 /\ k ∈ uploads x1) as [[-> ->]|(x1 & J1 & Hk1)].
    { by_put Hy; [|by eauto]. apply elem_of_union in Hk as [Hk%elem_of_singleton|Hk]; eauto. }
    + split; [simpl; set_solver|]. apply private_intro; simpl.
      * intros r row Hr E. apply Hfresh, Hs. eauto 8.
      * intros t2 H2. exfalso. apply Hfresh, Hs. eauto 8.
      * intros t0 x0 J0 Hne. by_put J0; [done|by eapply Hnew].
    + destruct (Hu _ _ _ J1 Hk1) as [Hbl Hpr]. split; [simpl; set_solver|].
      apply private_intro; [apply Hpr|apply Hpr|]. intros t0 x0 J0 Hne. by_put J0; [|by eapply private_unused].
      pose proof (private_unused _ _ _ _ _ Hpr Hx Hne) as Hno. unfold uses in *. simpl.
      intros [Hk2|Hk2]; [|by apply Hno; right].
      apply elem_of_union in Hk2 as [->%elem_of_singleton|Hk2]; [|by apply Hno; left].
      apply (Hnew t' x1); [done|by left].
  - intros t1 t2 y1 y2 r J1 H2 Hne Hr. by_put J1; by_put H2; [done| | |].
    + exact (He _ _ _ _ _ Hx H2 Hne Hr).
    + exact (He _ _ _ _ _ J1 Hx Hne Hr).
    + exact (He _ _ _ _ _ J1 H2 Hne Hr).
  - intros t' y k r Hy Hk. split.
    + assert (exists t1 x1, txs s !! t1 = Some x1 /\ (k, Some r) ∈ gcs x1) as (t1 & x1 & Hx1 & Hk1)
        by (by_put Hy; eauto).
      destruct (Hg _ _ _ _ Hx1 Hk1) as [Hno _]. intros t2 y2 H2. by_put H2; eauto.
    + by_put Hy; [pose proof (proj2 (Hg _ _ _ _ Hx Hk)) as H; by rewrite Hopen in H|by eapply Hg].
  - intros t' y Hy. by_put Hy; [done|by eauto].
  - intros t' y Hy. by_put Hy; [done|by eauto].
  - intros t' y k ex rest r Hy. by_put Hy; [done|by eauto].
  - intros k [Hk|[Hk|[Hk|(t0 & y & Hy & Hk)]]]; simpl in *.
    + apply elem_of_union in Hk as [?|?]; [set_solver|]. apply elem_of_union_r, Hs. by left.
    + apply elem_of_union_r, Hs. tauto.
    + apply elem_of_union_r, Hs. tauto.
    + by_put Hy; [|apply elem_of_union_r, Hs; eauto 8].
      destruct Hk as [Hk|Hk]; simpl in Hk.
      * apply elem_of_union in Hk as [?|?]; [set_solver|]. apply elem_of_union_r, Hs.
        right; right; right. exists t, x. split; [done|by left].
      * apply elem_of_union_r, Hs. right; right; right. exists t, x. split; [done|by right].
  - intros k t' y Hk Hy Hc. by_put Hy; [done|by eapply Hq].
Qed.

Lemma commit_ok s t x s' :
  media_ok s -> txs s !! t = Some x -> committed x = false -> commit s t x = Some s' -> media_ok s'.
Proof.
  intros Hok Hx Hopen [= <-]. pose proof Hok as [Hb Ha Hp Hw Hu He Hg Hd Hi Hn Hs Hq].
  assert (forall r row, overlay (writes x) (rows s) !! r = Some row ->
            rows s !! r = Some row /\ writes x !! r = None \/ writes x !! r = Some (Some row)) as Hov.
  { intros r row. rewrite lookup_overlay. destruct (writes x !! r); intros; simplify_eq; auto. }
  split; simpl.
  - intros r k Hr. apply Hov in Hr as [[Hr _]|Hr]; [by eapply Hb|].
    destruct (Hw _ _ _ _ Hx Hr) as [Hk|Hk]; [apply (Ha _ _ _ Hx Hk)|apply (Hu _ _ _ Hx Hk)].
  - intros t' y k Hy Hk. by_put Hy; [set_solver|]. destruct (Ha _ _ _ Hy Hk). split; [|done].
    by apply lookup_release.
  - intros t' y k Hy Hk. by_put Hy; [set_solver|]. apply lookup_release. split; [by eapply Hp|done].
  - intros t' y r k Hy Hk. by_put Hy; [by rewrite lookup_empty in Hk|by eapply Hw].
  - intros t' y k Hy Hk. by_put Hy; [set_solver|]. destruct (Hu _ _ _ Hy Hk) as [Hbl Hpr]. split; [done|].
    assert (~ uses x k) as Hxk by (apply (private_unused s t' k t x); [done|done|congruence]). apply private_intro; simpl.
    + intros r row Hr E. apply Hov in Hr as [[Hr _]|Hr]; [by eapply (pr_rows _ _ _ Hpr)|].
      apply Hxk. right; right. eauto.
    + intros t2 J2. apply lookup_release in J2 as [J2 _]. by apply Hpr.
    + intros t2 y2 J2 Hne. by_put J2; [|by eapply private_unused].
      intros [?|[[ex ?]|(? & ? & E & _)]]; [set_solver|apply Hxk; right; left; eauto|].
      simpl in E. by rewrite lookup_empty in E.
  - intros t1 t2 y1 y2 r J1 J2 Hne Hr. by_put J1; [by rewrite lookup_empty in Hr|].
    by_put J2; [apply lookup_empty|]. exact (He _ _ _ _ _ J1 J2 Hne Hr).
  - intros t' y k r Hy Hk.
    assert (exists t1 x1, txs s !! t1 = Some x1 /\ (k, Some r) ∈ gcs x1) as (t1 & x1 & Hx1 & Hk1)
      by (by_put Hy; eauto).
    destruct (Hg _ _ _ _ Hx1 Hk1) as [Hno _]. split.
    + intros t2 y2 J2. by_put J2; [by rewrite lookup_empty|by eapply Hno].
    + by_put Hy.
      * intros Hr. pose proof (proj2 (Hg _ _ _ _ Hx Hk)) as H2. rewrite Hopen in H2.
        apply Hov in Hr as [[_ Hr]|Hr]; [done|exact (Hno _ _ Hx Hr)].
      * pose proof (proj2 (Hg _ _ _ _ Hy Hk)) as H2. destruct (committed y); [|done].
        intros Hr. apply Hov in Hr as [[Hr _]|Hr]; [done|exact (Hno _ _ Hx Hr)].
  - intros t' y Hy. by_put Hy; [done|by eauto].
  - intros t' y Hy Hc. by_put Hy; [done|]. destruct (Hi _ _ Hy Hc) as (? & k & ex & rest & E & Hl).
    split; [done|]. exists k, ex, rest. split; [done|]. by apply lookup_release.
  - intros t' y k ex rest r Hy Hc E Hr. by_put Hy; [done|].
    destruct (Hi t' y Hy) as (_ & k' & ex' & rest' & E' & Hl); [by rewrite Hc|].
    rewrite E in E'. injection E' as <- <- <-.
    apply Hov in Hr as [[Hr _]|Hr]; [by eapply Hn|].
    destruct (Hw _ _ _ _ Hx Hr) as [Hk|Hk].
    + destruct (Ha _ _ _ Hx Hk) as [Hl' _]. congruence.
    + destruct (Hu _ _ _ Hx Hk) as [_ Hpr]. eapply (pr_gcs _ _ _ Hpr t' y ex Hy); [done|]. rewrite E. left.
  - intros k [Hk|[[t' Hk]|[(r & row & Hr & E)|(t0 & y & Hy & Hk)]]].
    + apply Hs. by left.
    + apply lookup_release in Hk as [Hk _]. apply Hs. eauto.
    + apply Hov in Hr as [[Hr _]|Hr]; apply Hs; [eauto 8|]. right; right; right. exists t, x.
      split; [done|]. right; right. eauto.
    + apply Hs. right; right; right. by_put Hy; [|eauto]. exists t, x. split; [done|].
      destruct Hk as [?|[?|(? & ? & E & _)]]; [set_solver|by right; left|]. simpl in E. by rewrite lookup_empty in E.
  - intros k t' y Hk Hy Hc. apply lookup_release in Hk as [Hk Hne]. by_put Hy; [done|by eapply Hq].
Qed.

Lemma abort_ok s t x ok s' :
  media_ok s -> txs s !! t = Some x -> committed x = false -> abort s t x ok = Some s' -> media_ok s'.
Proof.
  intros Hok Hx Hopen [= <-]. pose proof Hok as [Hb Ha Hp Hw Hu He Hg Hd Hi Hn Hs Hq].
  assert (forall k, k ∈ blobs s -> k ∉ uploads x -> k ∈ if ok then blobs s ∖ uploads x else blobs s) as Hkeep.
  { intros k ? ?. destruct ok; set_solver. }
  split; simpl.
  - intros r k Hr. apply Hkeep; [by eapply Hb|]. intros Hk. destruct (Hu _ _ _ Hx Hk) as [_ Hpr].
    by eapply (pr_rows _ _ _ Hpr).
  - intros t' y k [Hne Hy]%lookup_delete_Some Hk. destruct (Ha _ _ _ Hy Hk) as [Hl Hbl].
    split; [by apply lookup_release|]. apply Hkeep; [done|]. intros Hkx. destruct (Hu _ _ _ Hx Hkx) as [_ Hpr].
    by apply (pr_locks _ _ _ Hpr) in Hl.
  - intros t' y k [Hne Hy]%lookup_delete_Some Hk. apply lookup_release. split; [by eapply Hp|done].
  - intros t' y r k [Hne Hy]%lookup_delete_Some Hk. by eapply Hw.
  - intros t' y k [Hne Hy]%lookup_delete_Some Hk. destruct (Hu _ _ _ Hy Hk) as [Hbl Hpr]. split.
    + apply Hkeep; [done|]. by eapply (pr_uploads _ _ _ Hpr).
    + apply private_intro; simpl; [apply Hpr| |].
      * intros t2 [J2 _]%lookup_release. by apply Hpr.
      * intros t2 y2 [_ J2]%lookup_delete_Some Hne2. by eapply private_unused.
  - intros t1 t2 y1 y2 r [_ J1]%lookup_delete_Some [_ J2]%lookup_delete_Some Hne Hr.
    exact (He _ _ _ _ _ J1 J2 Hne Hr).
  - intros t' y k r [_ Hy]%lookup_delete_Some Hk. destruct (Hg _ _ _ _ Hy Hk) as [Hno H2]. split; [|done].
    intros t2 y2 [_ J2]%lookup_delete_Some. by eapply Hno.
  - intros t' y [_ Hy]%lookup_delete_Some. by eauto.
  - intros t' y [Hne Hy]%lookup_delete_Some Hc. destruct (Hi _ _ Hy Hc) as (? & k & ex & rest & E & Hl).
    split; [done|]. exists k, ex, rest. split; [done|]. by apply lookup_release.
  - intros t' y k ex rest r [_ Hy]%lookup_delete_Some. by eauto.
  - intros k [Hk|[[t' Hk]|[Hk|(t0 & y & Hy & Hk)]]]; apply Hs.
    + left. destruct ok; set_solver.
    + apply lookup_release in Hk as [Hk _]. eauto.
    + tauto.
    + apply lookup_delete_Some in Hy as [_ Hy]. eauto 8.
  - intros k t' y [Hk Hne]%lookup_release [_ Hy]%lookup_delete_Some Hc. by eapply Hq.
Qed.

(** A step of a collection: nothing but the head of the list, the lock on its key
    and the bytes under it. *)
Lemma ok_collect s t x B l g c u :
  media_ok s -> txs s !! t = Some x -> committed x = true ->
  (forall e, e ∈ g -> e ∈ gcs x) -> B ⊆ blobs s ->
  (forall k, k ∈ blobs s -> k ∉ B ->
     (forall r, ~ liveAt (rows s) r k) /\ (exists ex, (k, ex) ∈ gcs x) /\ locks s !! k = Some t) ->
  (forall k t', t' <> t -> l !! k = Some t' <-> locks s !! k = Some t') ->
  (forall k, l !! k = Some t -> c <> Idle /\ exists ex rest, g = (k, ex) :: rest) ->
  (c <> Idle -> exists k ex rest, g = (k, ex) :: rest /\ l !! k = Some t) ->
  (c = Unreferenced -> forall k ex rest r, g = (k, ex) :: rest -> ~ liveAt (rows s) r k) ->
  media_ok (mkMedia (rows s) B l (<[t := mkTx ∅ ∅ ∅ ∅ g true c]> (txs s)) (used s) u).
Proof.
  intros Hok Hx Hcom Hgs HB Hgone Hl Hlt Hc Hun. pose proof Hok as [Hb Ha Hp Hw Hu He Hg Hd Hi Hn Hs Hq].
  split; simpl.
  - intros r k Hr. destruct (decide (k ∈ B)) as [|Hk]; [done|].
    destruct (Hgone k (Hb _ _ Hr) Hk) as [Hno _]. by apply Hno in Hr.
  - intros t' y k Hy Hk. by_put Hy; [set_solver|]. destruct (Ha _ _ _ Hy Hk) as [Hlk Hbl].
    split; [by apply Hl|]. destruct (decide (k ∈ B)) as [|Hn']; [done|].
    destruct (Hgone k Hbl Hn') as (_ & _ & Hlk'). congruence.
  - intros t' y k Hy Hk. by_put Hy; [set_solver|]. apply Hl; [done|by eapply Hp].
  - intros t' y r k Hy Hk. by_put Hy; [by rewrite lookup_empty in Hk|by eapply Hw].
  - intros t' y k Hy Hk. by_put Hy; [set_solver|]. destruct (Hu _ _ _ Hy Hk) as [Hbl Hpr].
    assert (forall ex, (k, ex) ∉ gcs x) as Hnk by (intros ex; by eapply (pr_gcs _ _ _ Hpr)).
    split.
    + destruct (decide (k ∈ B)) as [|Hn']; [done|]. destruct (Hgone k Hbl Hn') as (_ & [ex ?] & _).
      by destruct (Hnk ex).
    + apply private_intro; simpl; [apply Hpr| |].
      * intros t2 J2. destruct (decide (t2 = t)) as [->|Hne]; [|by apply Hpr, Hl].
        destruct (Hlt _ J2) as (_ & ex & rest & E). destruct (Hnk ex). apply Hgs. rewrite E. left.
      * intros t2 y2 J2 Hne. by_put J2; [|by eapply private_unused].
        intros [?|[[ex Hin]|(? & ? & E & _)]]; [set_solver|by eapply Hnk, Hgs|].
        simpl in E. by rewrite lookup_empty in E.
  - intros t1 t2 y1 y2 r J1 J2 Hne Hr. by_put J1; [by rewrite lookup_empty in Hr|].
    by_put J2; [apply lookup_empty|]. exact (He _ _ _ _ _ J1 J2 Hne Hr).
  - intros t' y k r Hy Hk.
    assert (exists t1 x1, txs s !! t1 = Some x1 /\ (k, Some r) ∈ gcs x1) as (t1 & x1 & Hx1 & Hk1)
      by (by_put Hy; eauto).
    destruct (Hg _ _ _ _ Hx1 Hk1) as [Hno _]. split.
    + intros t2 y2 J2. by_put J2; [by rewrite lookup_empty|by eapply Hno].
    + by_put Hy; [|by eapply Hg]. pose proof (proj2 (Hg _ _ _ _ Hx (Hgs _ Hk))) as H2. by rewrite Hcom in H2.
  - intros t' y Hy. by_put Hy; [done|by eauto].
  - intros t' y Hy Hi'. by_put Hy; [by eauto|]. destruct (Hi _ _ Hy Hi') as (? & k & ex & rest & E & Hlk).
    split; [done|]. exists k, ex, rest. split; [done|]. by apply Hl.
  - intros t' y k ex rest r Hy Hi' E. by_put Hy; [by eapply Hun|by eapply Hn].
  - intros k [Hk|[[t' Hk]|[Hk|(t0 & y & Hy & Hk)]]]; apply Hs.
    + left. set_solver.
    + destruct (decide (t' = t)) as [->|Hne]; [|apply Hl in Hk; eauto].
      destruct (Hlt _ Hk) as (_ & ex & rest & E). right; right; right. exists t, x. split; [done|].
      right; left. exists ex. apply Hgs. rewrite E. left.
    + tauto.
    + right; right; right. by_put Hy; [|eauto]. exists t, x. split; [done|].
      destruct Hk as [?|[[ex ?]|(? & ? & E & _)]]; [set_solver|right; left; eauto|].
      simpl in E. by rewrite lookup_empty in E.
  - intros k t' y Hk Hy Hc'. by_put Hy; [by apply Hlt|]. apply (Hq k t' y); [by apply Hl|done|done].
Qed.

(** ** Every step *)

Lemma visible_live_bytes s t x r key :
  media_ok s -> txs s !! t = Some x -> liveAt (visible s x) r key -> key ∈ blobs s.
Proof.
  intros Hok Hx Hr. apply visible_cases in Hr as [Hr|Hr]; [by eapply m_bytes|].
  destruct (m_written _ Hok _ _ _ _ Hx Hr) as [Hk|Hk];
    [apply (m_adopted _ Hok _ _ _ Hx Hk)|apply (m_upload _ Hok _ _ _ Hx Hk)].
Qed.

Lemma visible_handles s t x r row : visible s x !! r = Some row -> handles s t x (ObjectKey row).
Proof. intros H. right; right. eauto. Qed.

Lemma store_ok s t x r key s' :
  media_ok s -> txs s !! t = Some x -> committed x = false ->
  key ∈ adopted x \/ key ∈ uploads x ->
  (forall t' y, txs s !! t' = Some y -> (key, Some r) ∉ gcs y) ->
  store s t x r key = Some s' -> media_ok s'.
Proof.
  intros Hok Hx Hopen Hk Hno H. unfold store in H. destruct (exclusive s t r) eqn:Hexc; [|discriminate H].
  assert (handles s t x key) as Hh by (destruct Hk; [by left|by right; left]).
  destruct (visible s x !! r) as [old|] eqn:Hv.
  - destruct (negb (Live old)); [discriminate H|]. case_bool_decide as Ho; injection H as <-; [done|].
    apply ok_write; try done.
    + intros k [= <-]. split_and!; [done|done|]. intros [= E]%list_elem_of_singleton. congruence.
    + by intros row [= <-].
    + intros k ex [= -> ->]%list_elem_of_singleton. split; [by eapply visible_handles|]. by intros r' [= ->].
  - injection H as <-. rewrite <- (app_nil_r (gcs x)). apply ok_write; try done.
    + intros k [= <-]. split_and!; [done|done|]. by intros ?%elem_of_nil.
    + by intros row [= <-].
    + by intros k ex ?%elem_of_nil.
Qed.

Lemma open_step_ok s t x a s' :
  media_ok s -> txs s !! t = Some x -> committed x = false -> no_return s a ->
  media_step s t a = Some s' -> media_ok s'.
Proof.
  intros Hok Hx Hopen Hno H. unfold media_step in H. rewrite Hx, Hopen in H.
  destruct a as [|key|key|key|r key|r key|r|r| |ok| | |ok| |n]; try discriminate H.
  - unfold lockForAdoption in H. destruct (known (visible s x) key) eqn:Hkn; [|discriminate H].
    apply known_true in Hkn as (r & row & Hv & <-). pose proof (visible_handles s t x r row Hv) as Hh.
    destruct (locks s !! ObjectKey row) as [t'|] eqn:Hl; [case_bool_decide; simplify_eq; done|].
    injection H as <-. apply (ok_lock s t x); [done..|by eapply handles_used|].
    intros t' y Hy Hk. destruct (m_upload _ Hok _ _ _ Hy Hk) as [_ Hpr].
    destruct (decide (t' = t)) as [|Hne]; [done|]. exfalso.
    eapply (handles_private s t x _ t'); eauto.
  - unfold countForAdoption in H. case_bool_decide as Hl; [|discriminate H].
    destruct (referenced (visible s x) key None) eqn:Hr; injection H as <-; apply ok_sets; try done; try set_solver.
    apply referenced_true in Hr as (r & Hr & _). pose proof (visible_live_bytes _ _ _ _ _ Hok Hx Hr).
    set_solver.
  - unfold probe in H. repeat case_bool_decide; simplify_eq/=. pose proof (m_probe _ Hok t x key Hx).
    apply ok_sets; try done; set_solver.
  - unfold storeAdopted in H. case_bool_decide as Hk; [|discriminate H]. simpl in Hno.
    eapply store_ok; eauto.
  - unfold upload in H. case_bool_decide as Hk; [|discriminate H].
    eapply store_ok; [apply (ok_fresh s t x key); done|simpl; by rewrite lookup_insert_eq|done| | |exact H].
    + right. simpl. set_solver.
    + intros t' y Hy Hin. apply Hk, (m_used _ Hok). right; right; right.
      by_put Hy; [exists t, x|exists t', y]; (split; [done|]); right; left; eauto.
  - unfold archive in H. destruct (visible s x !! r) as [old|] eqn:Hv; [|discriminate H].
    destruct (Live old); [|discriminate H]. destruct (exclusive s t r) eqn:Hexc; [|discriminate H].
    injection H as <-. apply ok_write; try done.
    + intros row [= <-]. exact (visible_handles s t x r old Hv).
    + intros k ex [= -> ->]%list_elem_of_singleton. split; [by eapply visible_handles|]. by intros r' [= ->].
  - unfold purge in H. destruct (visible s x !! r) as [old|] eqn:Hv; [|discriminate H].
    destruct (exclusive s t r) eqn:Hexc; [|discriminate H].
    injection H as <-. apply ok_write; try done.
    intros k ex [= -> ->]%list_elem_of_singleton. split; [by eapply visible_handles|]. by intros r' [=].
  - by eapply commit_ok.
  - by eapply abort_ok.
Qed.

Lemma collecting_step_ok s t x a s' :
  media_ok s -> txs s !! t = Some x -> committed x = true ->
  media_step s t a = Some s' -> media_ok s'.
Proof.
  intros Hok Hx Hcom H. unfold media_step in H. rewrite Hx, Hcom in H.
  assert (collecting x = Idle -> forall k, locks s !! k <> Some t) as Hidle.
  { intros Hi k Hk. by destruct (m_holder _ Hok _ _ _ Hk Hx Hcom) as [? _]. }
  assert (collecting x <> Idle -> forall k ex rest, gcs x = (k, ex) :: rest ->
            locks s !! k = Some t /\ forall k', locks s !! k' = Some t -> k' = k) as Hbusy.
  { intros Hi k ex rest E. destruct (m_idle _ Hok _ _ Hx Hi) as (_ & k1 & ex1 & rest1 & E1 & Hl).
    rewrite E in E1. injection E1 as <- <- <-. split; [done|]. intros k' Hk'.
    destruct (m_holder _ Hok _ _ _ Hk' Hx Hcom) as (_ & ex2 & rest2 & E2). rewrite E in E2. congruence. }
  destruct a as [|key|key|key|r key|r key|r|r| |ok| | |ok| |n]; try discriminate H.
  - unfold gcLock in H. destruct (gcs x) as [|[key ex] rest] eqn:Eg; [discriminate H|].
    destruct (collecting x) eqn:Ec; try discriminate H. specialize (Hidle eq_refl).
    destruct (locks s !! key) as [t'|] eqn:Hl; [discriminate H|]. injection H as <-.
    apply (ok_collect s t x); simpl; try done; rewrite ?Eg; try done.
    + intros k t' Hne. destruct (decide (k = key)) as [->|Hk]; [rewrite lookup_insert_eq, Hl; naive_solver|].
      by rewrite lookup_insert_ne.
    + intros k [[<- _]|[_ Hk]]%lookup_insert_Some; [eauto|by apply Hidle in Hk].
    + intros _. exists key, ex, rest. split; [done|]. apply lookup_insert_eq.
  - unfold gcCount in H. destruct (gcs x) as [|[key ex] rest] eqn:Eg; [discriminate H|].
    destruct (collecting x) eqn:Ec; try discriminate H.
    destruct (Hbusy ltac:(discriminate) key ex rest eq_refl) as [Hl Hall].
    destruct (referenced (rows s) key ex) eqn:Hr; injection H as <-.
    + apply (ok_collect s t x); simpl; try done; rewrite ?Eg; try done.
      * intros e He. by right.
      * intros k t' Hne. rewrite lookup_delete_Some. split; [tauto|]. intros Hk. split; [|done]. congruence.
      * intros k [Hne Hk]%lookup_delete_Some. by apply Hall in Hk.
    + apply (ok_collect s t x); simpl; try done; rewrite ?Eg; try done.
      * intros k Hk. apply Hall in Hk as ->. eauto.
      * intros _. eauto 6.
      * intros _ k ex' rest' r [= <- <- <-] Hlive.
        destruct (decide (ex = Some r)) as [->|Hne].
        -- pose proof (proj2 (m_gc _ Hok _ _ key r Hx ltac:(rewrite Eg; left))) as Hg. by rewrite Hcom in Hg.
        -- rewrite (proj2 (referenced_true _ _ _)) in Hr; [done|eauto].
  - unfold gcDelete in H. destruct (gcs x) as [|[key ex] rest] eqn:Eg; [discriminate H|].
    destruct (collecting x) eqn:Ec; try discriminate H.
    destruct (Hbusy ltac:(discriminate) key ex rest eq_refl) as [Hl Hall]. injection H as <-.
    apply (ok_collect s t x); simpl; try done; rewrite ?Eg.
    + intros e He. by right.
    + clear. destruct ok; set_solver.
    + intros k Hk Hnk. assert (k = key) as ->.
      { destruct ok; [|done]. clear -Hk Hnk. destruct (decide (k = key)); [done|set_solver]. }
      split_and!; [|exists ex; left|done]. intros r. eapply (m_unref _ Hok); eauto.
    + intros k t' Hne. rewrite lookup_delete_Some. split; [tauto|]. intros Hk. split; [|done]. congruence.
    + intros k [Hne Hk]%lookup_delete_Some. by apply Hall in Hk.
  - unfold gcGiveUp in H. destruct (gcs x) as [|[key ex] rest] eqn:Eg; [discriminate H|].
    destruct (collecting x) eqn:Ec; try discriminate H. injection H as <-.
    apply (ok_collect s t x); simpl; try done; rewrite ?Eg.
    + intros e He. by right.
    + intros k Hk. by destruct (Hidle eq_refl k).
  - unfold gcSkip in H. destruct (gcs x !! n) as [[key [ex|]]|] eqn:Eg; try discriminate H.
    destruct (collecting x) eqn:Ec; try discriminate H. destruct (referenced (rows s) key None); [|discriminate H].
    injection H as <-. apply (ok_collect s t x); simpl; try done.
    + intros e He. rewrite <- (take_drop_middle _ _ _ Eg). revert He. rewrite !elem_of_app, elem_of_cons. tauto.
    + intros k Hk. by destruct (Hidle eq_refl k).
Qed.

Lemma history_ok s : media_history s -> media_ok s.
Proof.
  induction 1 as [|s t a s' Hh IH Hno Hstep]; [apply start_ok|].
  destruct (txs s !! t) as [x|] eqn:Hx.
  - destruct (committed x) eqn:Hc; [by eapply collecting_step_ok|by eapply open_step_ok].
  - unfold media_step in Hstep. rewrite Hx in Hstep. destruct a; try discriminate Hstep.
    injection Hstep as <-. by apply begin_ok.
Qed.

(** ** No bytes forgotten *)

Record leak_ok (s : Media) : Prop := {
  l_bytes : forall key, key ∈ blobs s ->
              (exists r, liveAt (rows s) r key) \/ (exists t x, txs s !! t = Some x /\ key ∈ uploads x) \/
              (exists t x ex, txs s !! t = Some x /\ committed x = true /\ (key, ex) ∈ gcs x) \/
              key ∈ undeleted s;
  l_displaced : forall t x r key, txs s !! t = Some x -> liveAt (rows s) r key -> writes x !! r <> None ->
                  writes x !! r = Some (Some (mkRow key true)) \/ exists ex, (key, ex) ∈ gcs x;
  l_upload : forall t x key, txs s !! t = Some x -> key ∈ uploads x ->
               (exists r, writes x !! r = Some (Some (mkRow key true))) \/ exists ex, (key, ex) ∈ gcs x }.

(** Only the key sets of an open transaction change. *)
Lemma leak_sets s t x P A :
  leak_ok s -> txs s !! t = Some x -> committed x = false ->
  leak_ok (put s t (mkTx (writes x) P A (uploads x) (gcs x) false Idle)).
Proof.
  intros [Hb Hd Hu] Hx Hopen. split.
  - intros k Hk. destruct (Hb k Hk) as [?|[(t' & y & Hy & Hin)|[(t' & y & ex & Hy & Hc & Hin)|?]]]; [by left| | |by auto].
    + right; left. destruct (decide (t' = t)) as [->|Hne].
      * rewrite Hx in Hy. injection Hy as <-. eexists t, _. simpl. rewrite lookup_insert_eq. done.
      * exists t', y. simpl. by rewrite lookup_insert_ne.
    + right; right; left. assert (t' <> t) by congruence. exists t', y, ex. simpl. by rewrite lookup_insert_ne.
  - intros t' y r k Hy. by_put Hy; by eauto.
  - intros t' y k Hy. by_put Hy; by eauto.
Qed.

(** A row written: what it held has its collection registered. *)
Lemma leak_write s t x r v g K :
  media_ok s -> leak_ok s -> txs s !! t = Some x -> committed x = false ->
  (forall key, liveAt (visible s x) r key -> exists ex, (key, ex) ∈ gcs x ++ g) ->
  (forall key, key ∈ K -> v = Some (mkRow key true)) ->
  forall B u used',
  B ⊆ blobs s ∪ K -> undeleted s ⊆ u ->
  leak_ok (mkMedia (rows s) B (locks s)
    (<[t := mkTx (<[r := v]> (writes x)) (toProbe x) (adopted x) (K ∪ uploads x) (gcs x ++ g) false Idle]> (txs s))
    used' u).
Proof.
  intros Hok [Hb Hd Hu] Hx Hopen Hvis HK B u used' HB Hun. split; simpl.
  - intros k [Hk|Hk]%HB%elem_of_union.
    + destruct (Hb k Hk) as [?|[(t' & y & Hy & Hin)|[(t' & y & ex & Hy & Hc & Hin)|?]]]; [by left| | |by auto].
      * right; left. destruct (decide (t' = t)) as [->|Hne].
        -- rewrite Hx in Hy. injection Hy as <-. eexists t, _. rewrite lookup_insert_eq. split; [done|].
           simpl. by apply elem_of_union_r.
        -- exists t', y. by rewrite lookup_insert_ne.
      * right; right; left. assert (t' <> t) by congruence. exists t', y, ex. by rewrite lookup_insert_ne.
    + right; left. eexists t, _. rewrite lookup_insert_eq. split; [done|]. by apply elem_of_union_l.
  - intros t' y r' k Hy Hr Hw. by_put Hy; [|by eauto].
    destruct (decide (r' = r)) as [->|Hne].
    + right. destruct (writes x !! r) as [old|] eqn:Ew.
      * destruct (Hd t x r k Hx Hr) as [E|[ex Hin]]; [congruence| |exists ex; apply elem_of_app; by left].
        apply Hvis. unfold liveAt, visible. rewrite lookup_overlay, Ew. congruence.
      * apply Hvis. unfold liveAt, visible. by rewrite lookup_overlay, Ew.
    + rewrite lookup_insert_ne in * by done. destruct (Hd t x r' k Hx Hr Hw) as [?|[ex Hin]]; [by left|].
      right. exists ex. apply elem_of_app. by left.
  - intros t' y k Hy Hk. by_put Hy; [|by eauto]. apply elem_of_union in Hk as [Hk|Hk].
    + left. exists r. rewrite lookup_insert_eq. by rewrite (HK k Hk).
    + destruct (Hu t x k Hx Hk) as [[r' Hr']|[ex Hin]]; [|right; exists ex; apply elem_of_app; by left].
      destruct (decide (r' = r)) as [->|Hne].
      * right. apply Hvis. unfold liveAt, visible. by rewrite lookup_overlay, Hr'.
      * left. exists r'. by rewrite lookup_insert_ne.
Qed.

Lemma leak_commit s t x s' :
  media_ok s -> leak_ok s -> txs s !! t = Some x -> commit s t x = Some s' -> leak_ok s'.
Proof.
  intros Hok [Hb Hd Hu] Hx [= <-].
  assert (forall r k, writes x !! r = Some (Some (mkRow k true)) -> liveAt (overlay (writes x) (rows s)) r k) as Hnew.
  { intros r k Hr. unfold liveAt. by rewrite lookup_overlay, Hr. }
  assert (forall k ex, (k, ex) ∈ gcs x -> exists t' x' ex', <[t := mkTx ∅ ∅ ∅ ∅ (gcs x) true Idle]> (txs s) !! t' = Some x' /\
            committed x' = true /\ (k, ex') ∈ gcs x') as Hdue.
  { intros k ex Hin. eexists t, _, ex. rewrite lookup_insert_eq. done. }
  split; simpl.
  - intros k Hk. destruct (Hb k Hk) as [[r Hr]|[(t' & y & Hy & Hin)|[(t' & y & ex & Hy & Hc & Hin)|?]]]; [| | |by auto].
    + destruct (writes x !! r) as [v|] eqn:Ew.
      * destruct (Hd t x r k Hx Hr) as [E|[ex Hin]]; [congruence| |right; right; left; by eapply Hdue].
        left. exists r. apply Hnew. congruence.
      * left. exists r. unfold liveAt. by rewrite lookup_overlay, Ew.
    + destruct (decide (t' = t)) as [->|Hne].
      * rewrite Hx in Hy. injection Hy as <-.
        destruct (Hu t x k Hx Hin) as [[r Hr]|[ex Hin']]; [left; eauto|right; right; left; by eapply Hdue].
      * right; left. exists t', y. by rewrite lookup_insert_ne.
    + right; right; left. destruct (decide (t' = t)) as [->|Hne].
      * rewrite Hx in Hy. injection Hy as <-. by eapply Hdue.
      * exists t', y, ex. by rewrite lookup_insert_ne.
  - intros t' y r k Hy Hr Hw. by_put Hy; [by rewrite lookup_empty in Hw|].
    assert (writes x !! r = None) as Ew by (eapply (m_excl _ Hok t' t); eauto).
    unfold liveAt in Hr. rewrite lookup_overlay, Ew in Hr. by eapply Hd.
  - intros t' y k Hy Hk. by_put Hy; [set_solver|by eauto].
Qed.

Lemma leak_abort s t x ok s' :
  leak_ok s -> txs s !! t = Some x -> committed x = false -> abort s t x ok = Some s' -> leak_ok s'.
Proof.
  intros [Hb Hd Hu] Hx Hopen [= <-]. split; simpl.
  - intros k Hk. assert (k ∈ blobs s /\ (ok = true -> k ∉ uploads x)) as [Hk' Hok]
      by (destruct ok; [apply elem_of_difference in Hk as []; split; auto|split; [done|discriminate]]).
    destruct (Hb k Hk') as [?|[(t' & y & Hy & Hin)|[(t' & y & ex & Hy & Hc & Hin)|?]]]; [by left| | |].
    + destruct (decide (t' = t)) as [->|Hne].
      * rewrite Hx in Hy. injection Hy as <-. right; right; right.
        destruct ok; [by destruct (Hok eq_refl)|by apply elem_of_union_l].
      * right; left. exists t', y. by rewrite lookup_delete_ne.
    + right; right; left. exists t', y, ex. rewrite lookup_delete_ne; [done|congruence].
    + right; right; right. destruct ok; [done|by apply elem_of_union_r].
  - intros t' y r k [_ Hy]%lookup_delete_Some. by eauto.
  - intros t' y k [_ Hy]%lookup_delete_Some. by eauto.
Qed.

(** A collection drops an entry only when a row refers to the key, its bytes are
    gone, or they are known to be left. *)
Lemma leak_collect s t x B l g c us u :
  media_ok s -> leak_ok s -> txs s !! t = Some x -> committed x = true -> B ⊆ blobs s -> undeleted s ⊆ u ->
  (forall k ex, k ∈ B -> (k, ex) ∈ gcs x ->
     (exists ex', (k, ex') ∈ g) \/ (exists r, liveAt (rows s) r k) \/ k ∈ u) ->
  leak_ok (mkMedia (rows s) B l (<[t := mkTx ∅ ∅ ∅ ∅ g true c]> (txs s)) us u).
Proof.
  intros Hok [Hb Hd Hu] Hx Hcom HB Hun Hdrop.
  destruct (m_done _ Hok _ _ Hx Hcom) as (_ & _ & _ & Eu). split; simpl.
  - intros k Hk. destruct (Hb k (HB k Hk)) as [?|[(t' & y & Hy & Hin)|[(t' & y & ex & Hy & Hc & Hin)|?]]];
      [by left| | |by auto].
    + right; left. exists t', y. split; [|done]. rewrite lookup_insert_ne; [done|].
      intros <-. rewrite Hx in Hy. injection Hy as <-. rewrite Eu in Hin. set_solver.
    + destruct (decide (t' = t)) as [->|Hne].
      * rewrite Hx in Hy. injection Hy as <-. destruct (Hdrop k ex Hk Hin) as [[ex' ?]|[?|?]]; [|by left|by auto].
        right; right; left. eexists t, _, ex'. rewrite lookup_insert_eq. done.
      * right; right; left. exists t', y, ex. by rewrite lookup_insert_ne.
  - intros t' y r k Hy Hr Hw. by_put Hy; [by rewrite lookup_empty in Hw|by eauto].
  - intros t' y k Hy Hk. by_put Hy; [set_solver|by eauto].
Qed.

Lemma leak_put s t x r v g :
  media_ok s -> leak_ok s -> txs s !! t = Some x -> committed x = false ->
  (forall key, liveAt (visible s x) r key -> exists ex, (key, ex) ∈ gcs x ++ g) ->
  leak_ok (put s t (mkTx (<[r := v]> (writes x)) (toProbe x) (adopted x) (uploads x) (gcs x ++ g) false Idle)).
Proof.
  intros Hok Hl Hx Hopen Hv. rewrite <- (union_empty_l_L (uploads x)).
  apply (leak_write s t x r v g ∅); try done; set_solver.
Qed.

(** The old key of a row that is overwritten is the one registered. *)
Lemma displaced s x r old ex :
  visible s x !! r = Some old ->
  forall key, liveAt (visible s x) r key -> exists ex', (key, ex') ∈ gcs x ++ [(ObjectKey old, ex)].
Proof.
  intros Hv key Hk. unfold liveAt in Hk. rewrite Hv in Hk. injection Hk as ->.
  exists ex. apply elem_of_app. right. left.
Qed.

Lemma nothing_displaced s x r :
  visible s x !! r = None ->
  forall key, liveAt (visible s x) r key -> exists ex', (key, ex') ∈ gcs x ++ [].
Proof. intros Hv key Hk. unfold liveAt in Hk. congruence. Qed.

Lemma leak_upload s t x r key s' :
  media_ok s -> leak_ok s -> txs s !! t = Some x -> committed x = false -> upload s t x r key = Some s' -> leak_ok s'.
Proof.
  intros Hok Hl Hx Hopen H. unfold upload in H. case_bool_decide as Hfresh; [|discriminate H].
  unfold store in H. destruct (exclusive _ t r); [|discriminate H].
  change (visible _ _) with (visible s x) in H. unfold put in H. simpl in H.
  destruct (visible s x !! r) as [old|] eqn:Hv.
  - destruct (negb (Live old)); [discriminate H|]. case_bool_decide as Ho.
    + exfalso. apply Hfresh. rewrite <- Ho. eapply handles_used; [done|done|by eapply visible_handles].
    + injection H as <-. rewrite insert_insert_eq.
      apply leak_write; try done; [by apply displaced|set_solver|set_solver].
  - injection H as <-. rewrite insert_insert_eq, <- (app_nil_r (gcs x)).
    apply leak_write; try done; [by apply nothing_displaced|set_solver|set_solver].
Qed.

Lemma leak_open s t x a s' :
  media_ok s -> leak_ok s -> txs s !! t = Some x -> committed x = false ->
  media_step s t a = Some s' -> leak_ok s'.
Proof.
  intros Hok Hl Hx Hopen H. unfold media_step in H. rewrite Hx, Hopen in H.
  destruct a as [|key|key|key|r key|r key|r|r| |ok| | |ok| |n]; try discriminate H.
  - unfold lockForAdoption in H. destruct (known _ _); [|discriminate H].
    destruct (locks s !! key) as [t'|]; [case_bool_decide; simplify_eq; done|].
    injection H as <-. destruct Hl as [? ? ?]. by split.
  - unfold countForAdoption in H. case_bool_decide; [|discriminate H].
    destruct (referenced _ _ _); injection H as <-; by apply leak_sets.
  - unfold probe in H. repeat case_bool_decide; simplify_eq/=. by apply leak_sets.
  - unfold storeAdopted in H. case_bool_decide; [|discriminate H].
    unfold store in H. destruct (exclusive s t r); [|discriminate H].
    destruct (visible s x !! r) as [old|] eqn:Hv.
    + destruct (negb (Live old)) eqn:Hlive; [discriminate H|]. case_bool_decide as Ho; injection H as <-; [done|].
      apply leak_put; try done. by apply displaced.
    + injection H as <-. rewrite <- (app_nil_r (gcs x)). apply leak_put; try done. by apply nothing_displaced.
  - by eapply leak_upload.
  - unfold archive in H. destruct (visible s x !! r) as [old|] eqn:Hv; [|discriminate H].
    destruct (Live old && exclusive s t r); [|discriminate H]. injection H as <-.
    apply leak_put; try done. by apply displaced.
  - unfold purge in H. destruct (visible s x !! r) as [old|] eqn:Hv; [|discriminate H].
    destruct (exclusive s t r); [|discriminate H]. injection H as <-.
    apply leak_put; try done. by apply displaced.
  - by eapply leak_commit.
  - by eapply leak_abort.
Qed.

Lemma leak_collecting s t x a s' :
  media_ok s -> leak_ok s -> txs s !! t = Some x -> committed x = true ->
  media_step s t a = Some s' -> leak_ok s'.
Proof.
  intros Hok Hl Hx Hcom H. unfold media_step in H. rewrite Hx, Hcom in H.
  destruct a as [|key|key|key|r key|r key|r|r| |ok| | |ok| |n]; try discriminate H.
  - unfold gcLock in H. destruct (gcs x) as [|[key ex] rest] eqn:Eg; [discriminate H|].
    destruct (collecting x); try discriminate H. destruct (locks s !! key); [discriminate H|].
    injection H as <-. apply (leak_collect s t x); try done. intros k ex' _ Hin. left. rewrite Eg in Hin. eauto.
  - unfold gcCount in H. destruct (gcs x) as [|[key ex] rest] eqn:Eg; [discriminate H|].
    destruct (collecting x); try discriminate H.
    destruct (referenced (rows s) key ex) eqn:Hr; injection H as <-; apply (leak_collect s t x); try done;
      rewrite Eg; intros k ex' _ Hin; [|left; eauto].
    apply elem_of_cons in Hin as [[= -> ->]|Hin]; [right; left|by eauto].
    apply referenced_true in Hr as (r & Hr & _). eauto.
  - unfold gcDelete in H. destruct (gcs x) as [|[key ex] rest] eqn:Eg; [discriminate H|].
    destruct (collecting x); try discriminate H. injection H as <-.
    apply (leak_collect s t x); try done; [clear; destruct ok; set_solver|clear; destruct ok; set_solver|].
    rewrite Eg. intros k ex' Hk Hin. apply elem_of_cons in Hin as [[= -> ->]|Hin]; [|by eauto].
    right; right. destruct ok; [|by apply elem_of_union_l; apply elem_of_singleton].
    apply elem_of_difference in Hk as [_ Hk]. by destruct Hk; apply elem_of_singleton.
  - unfold gcGiveUp in H. destruct (gcs x) as [|[key ex] rest] eqn:Eg; [discriminate H|].
    destruct (collecting x); try discriminate H. injection H as <-.
    apply (leak_collect s t x); try done; [clear; set_solver|].
    rewrite Eg. intros k ex' Hk Hin. apply elem_of_cons in Hin as [[= -> ->]|Hin]; [|by eauto].
    right; right. by apply elem_of_union_l, elem_of_singleton.
  - unfold gcSkip in H. destruct (gcs x !! n) as [[key [ex|]]|] eqn:Eg; try discriminate H.
    destruct (collecting x); try discriminate H. destruct (referenced (rows s) key None) eqn:Hr; [|discriminate H].
    injection H as <-. apply (leak_collect s t x); try done.
    intros k ex Hk Hin. rewrite <- (take_drop_middle _ _ _ Eg), elem_of_app, elem_of_cons in Hin.
    destruct Hin as [Hin|[[= -> ->]|Hin]].
    + left. exists ex. apply elem_of_app. by left.
    + right; left. apply referenced_true in Hr as (r & Hr & _). eauto.
    + left. exists ex. apply elem_of_app. by right.
Qed.

Lemma leak_begin s t : leak_ok s -> txs s !! t = None -> leak_ok (put s t freshTx).
Proof.
  intros [Hb Hd Hu] Hx. split.
  - intros k Hk. destruct (Hb k Hk) as [?|[(t' & y & Hy & Hin)|[(t' & y & ex & Hy & Hc & Hin)|?]]]; [by left| | |by auto].
    + right; left. exists t', y. simpl. rewrite lookup_insert_ne; [done|congruence].
    + right; right; left. exists t', y, ex. simpl. rewrite lookup_insert_ne; [done|congruence].
  - intros t' y r k Hy Hr Hw. by_put Hy; [by rewrite lookup_empty in Hw|by eauto].
  - intros t' y k Hy Hk. by_put Hy; [set_solver|by eauto].
Qed.

Lemma history_leak s : media_history s -> leak_ok s.
Proof.
  induction 1 as [|s t a s' Hh IH Hno Hstep].
  - split; simpl; intros; set_solver.
  - pose proof (history_ok _ Hh) as Hok. destruct (txs s !! t) as [x|] eqn:Hx.
    + destruct (committed x) eqn:Hc; [by eapply leak_collecting|by eapply leak_open].
    + unfold media_step in Hstep. rewrite Hx in Hstep. destruct a; try discriminate Hstep.
      injection Hstep as <-. by apply leak_begin.
Qed.

(** Nothing under way, no collection due. *)
Definition quiet (s : Media) : Prop :=
  forall t x, txs s !! t = Some x -> committed x = true /\ gcs x = [].

(** C21: the bytes behind media values are kept as long as they are referred to, and
    no longer.  Along any interleaving of uploads, adoptions, overwrites, removals
    and erasures with the collections they register - whose locks, counts and
    deletes are calls of their own, which may fail or give up - the bytes of every
    committed live row are in storage; and once nothing is under way, every object
    in storage is referred to by a live row, unless a delete of it failed or was
    given up.  In these histories a row does not take back a key whose collection
    on its behalf is still due: that is a defect of the code. *)
Theorem media_bytes_exact (s : Media) :
  media_history s ->
  (forall r key, liveAt (rows s) r key -> key ∈ blobs s) /\
  (quiet s -> forall key, key ∈ blobs s -> (exists r, liveAt (rows s) r key) \/ key ∈ undeleted s).
Proof.
  intros Hh. pose proof (history_ok _ Hh) as Hok. pose proof (history_leak _ Hh) as Hl. split.
  - apply (m_bytes _ Hok).
  - intros Hq key Hk.
    destruct (l_bytes _ Hl key Hk) as [?|[(t & x & Hx & Hin)|[(t & x & ex & Hx & _ & Hin)|?]]]; [by left| | |by right].
    + destruct (Hq t x Hx) as [Hc _]. destruct (m_done _ Hok _ _ Hx Hc) as (_ & _ & _ & E).
      rewrite E in Hin. set_solver.
    + destruct (Hq t x Hx) as [_ E]. rewrite E in Hin. by apply elem_of_nil in Hin.
Qed.
