(* ===== verification/StoreExample.v ===== *)
(** Runs of the in-memory transactions, of units of work and of the bytes behind
    media values, five of them defects ([Transactor], [UnitOfWork], [Media]). *)

From Stdlib Require Import ZArith Lia String Ascii List.
From stdpp Require Import base tactics list gmap sets strings option decidable countable.
From S2P Require Import Prelude GoText Ids Delivery Transactor TransactorFacts Events UnitOfWork UnitOfWorkFacts Media MediaFacts.

(** Transactions of the in-memory store that interleave: one that rolls back beside
    another that commits; two that write one row, where the rollback of the first
    takes the committed row of the second; two audit entries, where it takes the
    committed entry. *)
Module TransactorRun.
Import Transactor TransactorFacts.



Definition wSize : rowKey := mkKey collValues "size".
Definition wColour : rowKey := mkKey collValues "colour".

Abbreviation Xs := (list (option nat * Act string string)).

Definition empty : World string string := mkWorld (NewStore (Row:=string) (Entry:=string)) ∅.

Definition doubling (c : nat) : nat := (2 * c)%nat.

Definition does (i : nat) (o : Op string string) : option nat * Act string string := (Some i, AWrite o).
Definition begins (i : nat) : option nat * Act string string := (Some i, ABegin).
Definition commits (i : nat) : option nat * Act string string := (Some i, ACommit).

(** Transaction 1 writes the size twice, in a nested frame the second time, while 2
    writes the colour and commits. *)
Definition beside : Xs :=
  [begins 1; does 1 (SaveRow wSize "L"); begins 2; begins 1; does 2 (SaveRow wColour "red");
   does 1 (SaveRow wSize "XL"); commits 1; does 2 (WriteLog ["colour set"]); commits 2].

Lemma rollback_unobservable_witness :
  let w := run doubling empty (beside ++ (Some 1%nat, ARollback) :: []) in
  rows (store w) !! wColour = Some "red" /\ rows (store w) !! wSize = None.
Proof.
  assert ((fun t => (done t, depth t)) <$> txs (run doubling empty beside) !! 1%nat = Some (false, 0%nat)) as Ht
    by (vm_compute; reflexivity).
  destruct (txs (run doubling empty beside) !! 1%nat) as [t|] eqn:Et; [|discriminate Ht].
  injection Ht as Hd Hn. intros w. unfold w.
  rewrite (rollback_unobservable doubling empty beside [] 1 t); [split; vm_compute; reflexivity| |exact Et|exact Hd|exact Hn| | |].
  - reflexivity.
  - intros u t' Hu. unfold empty in Hu. simpl in Hu. rewrite lookup_empty in Hu. discriminate Hu.
  - assert (wSize <> wColour) as Hw by discriminate. intros x k Hx Hne Hk (y & Hy & Hyi & Hyk)%touched_iff.
    apply list_elem_of_In in Hx, Hy. simpl in Hx, Hy.
    repeat destruct Hx as [<-|Hx]; simpl in Hne, Hk; try congruence; try destruct Hx.
    repeat destruct Hy as [<-|Hy]; simpl in Hyi, Hyk; try congruence; try destruct Hy.
  - intros y Hy. apply elem_of_nil in Hy. destruct Hy.
Defined.

(** The second transaction writes the row the first one wrote, and commits. *)
Definition overlap : Xs :=
  [begins 1; does 1 (SaveRow wSize "L"); begins 2; does 2 (SaveRow wSize "M"); commits 2].

(** "M" is committed; when the first transaction rolls back, it is gone. *)
Lemma committed_row_lost :
  rows (store (run doubling empty overlap)) !! wSize = Some "M" /\
  rows (store (run doubling empty (overlap ++ [(Some 1%nat, ARollback)]))) !! wSize = None.
Proof. split; vm_compute; reflexivity. Qed.

(** The journal of the log is its header: a rollback takes every entry that came
    after it, whoever wrote it. *)
Definition audits : Xs :=
  [begins 1; does 1 (WriteLog ["one"]); begins 2; does 2 (WriteLog ["two"]); commits 2].

Lemma committed_entry_lost :
  logEntries (store (run doubling empty audits)) = ["one"; "two"] /\
  logEntries (store (run doubling empty (audits ++ [(Some 1%nat, ARollback)]))) = [].
Proof. split; vm_compute; reflexivity. Qed.

(** And it can bring back the entries of a transaction that rolled back. *)
Definition audits_crossed : Xs :=
  [begins 0; does 0 (WriteLog ["zero"]); commits 0;
   begins 1; does 1 (WriteLog ["one"]); begins 2; does 2 (WriteLog ["two"]);
   (Some 1%nat, ARollback); (Some 2%nat, ARollback)].

Lemma rolled_back_entry_returns :
  logEntries (store (run doubling empty audits_crossed)) = ["zero"; "one"].
Proof. vm_compute. reflexivity. Qed.

(** The media lock of one transaction keeps another waiting until it ends. *)
Lemma media_lock_exclusive_witness :
  let w := run doubling empty [begins 1; begins 2; does 1 (LockKey "k"); does 2 (LockKey "k")] in
  heldBy (txs w) 1 = ["k"] /\ heldBy (txs w) 2 = [] /\
  heldBy (txs (run doubling w [commits 1; does 2 (LockKey "k")])) 2 = ["k"].
Proof. split_and!; vm_compute; reflexivity. Qed.
End TransactorRun.

(** Units of work: one whose check fails after it wrote, one that commits; the
    observer told of no error; a panic inside [InTransaction]; a dispatch with a
    handler that panics. *)
Module UnitOfWorkRun.
Import Transactor TransactorFacts Events UnitOfWork UnitOfWorkFacts.



Open Scope string_scope.
Open Scope list_scope.

Definition grow2 (c : nat) : nat := (2 * c)%nat.
Definition numbered (n : nat) : ID := N.of_nat (S n).

(** The world outside is a list of notes. *)
Abbreviation Notes := (list string).

Definition noted (m : string) : Handler Notes :=
  mkHandler m (fun env x => (x ++ [String.append m (String.append " got " (EnvType env))], Fine)) None.

Definition nervous : Handler Notes := mkHandler "nervous" (fun _ x => (x ++ ["nervous was called"], Panicking "boom")) None.

Definition unit1 : unitOfWork string Notes :=
  mkUnitOfWork [mkRegistration nervous []; mkRegistration (noted "hook") ["value.created"]] None true None
    (fun x => x) (fun err x => x ++ [match err with Some e => Message e | None => "rolled back for no error" end])
    (fun errs x => x ++ (Message <$> errs)).

Definition sizeKey : rowKey := mkKey collValues "size".

Definition created : Event := mkEvent "value.created" "attribute_value" "01V" 5 (Some ("01T", "crate")) (Ok "{}").
Definition changed : Change := mkChange "attribute_value" "01V" "created" None (Some (Ok "{}")).

Definition store0 : Store string Entry := NewStore.

Definition perform_unit fn := Execute grow2 numbered unit1 "acme" "joe" 7%Z fn store0 [].

(** The row is written, the check finds it, and refuses. *)
Definition refusing : Prog string Notes :=
  CheckBeforeCommitOnce "required"
    (Read (fun m => match m !! sizeKey with
                    | Some _ => Return (Some (NewValidation "colour is required"))
                    | None => Return None
                    end))
    (Write (SaveRow sizeKey "L") (CollectEvents [created] (RecordChange changed (Return None)))).

Definition accepting : Prog string Notes :=
  Write (SaveRow sizeKey "L") (CollectEvents [created] (RecordChange changed (Return None))).

Lemma refusing_plain : Plain refusing.
Proof. repeat constructor. intros m. destruct (m !! sizeKey); constructor. Qed.

Lemma execute_atomic_witness :
  as_before store0 (perform_unit refusing).1.1 /\
  (perform_unit refusing).1.2 = ["colour is required"].
Proof.
  split; [|vm_compute; reflexivity].
  assert (perform_unit refusing = ((perform_unit refusing).1.1, (perform_unit refusing).1.2, (perform_unit refusing).2)) as E
    by (destruct (perform_unit refusing) as [[? ?] ?]; reflexivity).
  destruct (execute_atomic grow2 numbered unit1 "acme" "joe" 7%Z refusing store0 [] _ _ _ E) as
    [(t & c & sc & es & Hatt & _)|[H _]].
  - apply refusing_plain.
  - intros write envs H. discriminate H.
  - reflexivity.
  - exfalso. apply (f_equal snd) in Hatt. vm_compute in Hatt. discriminate Hatt.
  - exact H.
Defined.

(** The commit: the row, one entry, the event delivered although the first handler
    panicked, whose failure is observed. *)
Lemma accepted :
  rows (perform_unit accepting).1.1 !! sizeKey = Some "L" /\
  EntryEntityID <$> logEntries (perform_unit accepting).1.1 = ["01V"] /\
  (perform_unit accepting).1.2 = ["nervous was called"; "hook got value.created"; "handler nervous: panic: boom"] /\
  (perform_unit accepting).2 = Returned [].
Proof. split_and!; vm_compute; reflexivity. Qed.

(** A change that does not encode makes the log's hook fail; the observer hears of
    a rollback without its error. *)
Definition unencodable : Prog string Notes :=
  Write (SaveRow sizeKey "L")
    (RecordChange (mkChange "attribute_value" "01V" "created" None (Some (Err (Errorf "NaN")))) (Return None)).

Lemma observer_told_nothing :
  (perform_unit unencodable).1.2 = ["rolled back for no error"] /\
  (perform_unit unencodable).2 = Returned [Errorf "pre-commit hook: marshal after state"].
Proof. split; vm_compute; reflexivity. Qed.

(** A panic in [InTransaction] leaves the row and the lock of the media key. *)
Definition panicking : Prog string Notes :=
  LockMediaKey "blob" (fun _ => Write (SaveRow sizeKey "L") Panic).

Lemma panic_leaves_lock :
  let r := InTransaction grow2 panicking store0 [] in
  rows r.1.1 !! sizeKey = Some "L" /\ bool_decide ("blob" ∈ mediaKeyHeld r.1.1) = true /\
  (Execute grow2 numbered unit1 "acme" "joe" 7%Z
     (LockMediaKey "blob" (fun e => Return e)) r.1.1 []).2 = Returned [errContext].
Proof. split_and!; vm_compute; reflexivity. Qed.
End UnitOfWorkRun.

(** Media values and their bytes: a run in which a key is shared, released and
    collected; two in which a live row loses its bytes - one where a row takes back a
    key it was about to give up, one on the in-memory store, whose counts see what
    another transaction has not committed. *)
Module MediaRun.
Import Transactor Media MediaFacts.



(** Steps in sequence; [strict] refuses one that [no_return] forbids. *)
Definition returns (s : Media) (a : Act) : bool :=
  match a with
  | Store r key =>
      existsb (fun p => bool_decide ((key, Some r) ∈ gcs p.2)) (map_to_list (Media.txs s))
  | _ => false
  end.

Fixpoint follow (strict : bool) (s : Media) (xs : list (nat * Act)) : option Media :=
  match xs with
  | [] => Some s
  | (t, a) :: xs =>
      if strict && returns s a then None
      else match media_step s t a with Some s' => follow strict s' xs | None => None end
  end.

Lemma returns_no_return s a : returns s a = false -> no_return s a.
Proof.
  destruct a as [| | | |r key| | | | | | | | | |]; simpl; try done.
  intros H t x Hx Hin. apply not_true_iff_false in H. apply H, existsb_exists.
  exists (t, x). split; [by apply list_elem_of_In, elem_of_map_to_list|]. by apply bool_decide_eq_true.
Qed.

Lemma follow_history s xs s' : media_history s -> follow true s xs = Some s' -> media_history s'.
Proof.
  revert s. induction xs as [|[t a] xs IH]; intros s Hh H; simpl in H; [by injection H as <-|].
  destruct (returns s a) eqn:Hr; [discriminate H|]. destruct (media_step s t a) as [s1|] eqn:Hs; [|discriminate H].
  apply (IH s1); [|done]. eapply media_next; [done|by apply returns_no_return|done].
Qed.

(** Photo "a" is uploaded into row 1 and adopted into row 2. *)
Definition shared : list (nat * Act) :=
  [(1, Begin); (1, Upload 1 "a"); (1, Commit);
   (2, Begin); (2, LockKey "a"); (2, Count "a"); (2, Store 2 "a"); (2, Commit)]%nat.

(** Row 1 goes, and the collection keeps the bytes; row 2 goes, and it does not. *)
Definition released : list (nat * Act) :=
  [(3, Begin); (3, Archive 1); (3, Commit); (3, GcLock); (3, GcCount)]%nat.

Definition collected : list (nat * Act) :=
  [(4, Begin); (4, Archive 2); (4, Commit); (4, GcLock); (4, GcCount); (4, GcDelete true)]%nat.

Lemma media_bytes_exact_witness :
  exists s, follow true NewMedia (shared ++ released) = Some s /\
    bool_decide ("a" ∈ blobs s) = true /\ liveAt (Media.rows s) 2 "a" /\ "a" ∈ blobs s.
Proof.
  destruct (follow true NewMedia (shared ++ released)) as [s|] eqn:E; [|vm_compute in E; discriminate E].
  assert (Media.rows s !! 2%N = Some (mkRow "a" true)) as Hr.
  { apply (f_equal (option_map (fun s => Media.rows s !! 2%N))) in E. vm_compute in E. injection E as E. symmetry. exact E. }
  assert ("a" ∈ blobs s) as Hb.
  { apply (proj1 (media_bytes_exact s (follow_history _ _ _ media_start E)) 2%N). exact Hr. }
  exists s. split; [reflexivity|]. split; [apply bool_decide_eq_true; exact Hb|]. split; [exact Hr|exact Hb].
Defined.

Lemma released_then_collected :
  option_map (fun s => bool_decide ("a" ∈ blobs s)) (follow true NewMedia (shared ++ released)) = Some true /\
  option_map (fun s => bool_decide ("a" ∈ blobs s)) (follow true NewMedia (shared ++ released ++ collected)) = Some false.
Proof. split; vm_compute; reflexivity. Qed.

(** One transaction replaces "a" in row 1 by "b" and then "b" by "a": allowed, since
    archived row 2 still holds "a" and its bytes are there.  The first collection
    it registered is told to leave row 1 out of the count. *)
Definition there_and_back : list (nat * Act) :=
  shared ++
  [(3, Begin); (3, Archive 2); (3, Commit); (3, GcLock); (3, GcCount);
   (4, Begin); (4, Upload 3 "b"); (4, Commit);
   (5, Begin); (5, LockKey "b"); (5, Count "b"); (5, Store 1 "b");
   (5, LockKey "a"); (5, Count "a"); (5, Probe "a"); (5, Store 1 "a"); (5, Commit);
   (5, GcLock); (5, GcCount); (5, GcDelete true); (5, GcLock); (5, GcCount)]%nat.

Lemma bytes_of_live_row_deleted :
  option_map (fun s => (Media.rows s !! 1%N, bool_decide ("a" ∈ blobs s))) (follow false NewMedia there_and_back) =
    Some (Some (mkRow "a" true), false) /\
  follow true NewMedia there_and_back = None.
Proof. split; vm_compute; reflexivity. Qed.

(** The in-memory store has no committed rows to count: transaction 1 archives its
    row and has not ended, the count of another transaction's collection finds no
    live row, and the rollback brings the row back. *)
Definition photo : rowKey := mkKey collValues "photo".
Definition other : rowKey := mkKey collValues "other".

Definition twoPhotos : Transactor.World MediaRow string :=
  mkWorld (Transactor.mkStore {[photo := mkRow "a" true; other := mkRow "a" false]} ∅ (mkSlice 0 0 0) ∅ ∅) ∅.

Definition removing : list (option nat * Transactor.Act MediaRow string) :=
  [(Some 1%nat, ABegin); (Some 1%nat, AWrite (SaveRow photo (mkRow "a" false)))].

Lemma uncommitted_removal_counted :
  let w := run (fun c => c) twoPhotos removing in
  referenced (Transactor.rows (Transactor.store w)) "a" (Some other) = false /\
  Transactor.rows (Transactor.store (run (fun c => c) w [(Some 1%nat, ARollback)])) !! photo = Some (mkRow "a" true).
Proof. split; vm_compute; reflexivity. Qed.
End MediaRun.
